(* ===== verification/_CoqProject ===== *)
-Q . S2P
Prelude.v
Types.v
Faults.v
Text.v
Fence.v
Budget.v
Profile.v
Btree.v
Directory.v
Namespace.v
Coordinator.v
Frames.v
Units.v
Metadata.v
CasScan.v
CasCache.v
Json.v
Wire.v
Authority.v
Requests.v
RequestFacts.v
ChunkMap.v
Disk.v
DiskLogic.v
Journal.v
JournalFacts.v
Capacity.v
Closure.v
ClosureExact.v
ClosureFacts.v
ClosureTree.v
Records.v
Pins.v
Durable.v
ScopeTree.v
Owners.v
Inventory.v
Incremental.v
Retention.v
InventoryFacts.v
OwnersFacts.v
ProtectionFacts.v
RetentionFacts.v
CollectionFacts.v
CollectionSafe.v
Collector.v
DurableFacts.v
CommitFacts.v
PinFacts.v
Hydrate.v
HydrateFacts.v
StreamFacts.v
Batches.v
BatchFacts.v
OwnedTransport.v
Lru.v
OwnedRange.v
UpperDiff.v
UpperScan.v
SubtreeSums.v
SubtreeFacts.v
IncrementalFacts.v
IncrementalWalk.v
IncrementalExact.v
CollectorExact.v
CollectorBounds.v
RefreshHistory.v
Instances.v
Witnesses.v
ReadWitnesses.v
DurableWitnesses.v
CacheWitnesses.v
RetentionWitnesses.v
Admission.v
AdmissionFacts.v
AdmissionWriters.v
AdmissionSafe.v
AdmissionUses.v
AdmissionHistory.v
AdmissionWitnesses.v
