(* ===== verification/Prelude.v ===== *)
(** * A verification development of scorpiofs

    scorpiofs is a FUSE client for MST/2 snapshots: it resolves one fixed
    snapshot of a namespace, reads its metadata and content over HTTP, keeps a
    verified local cache, commits a whole snapshot to a durable local store,
    mounts the result under a writable upper layer, and reports what the upper
    layer changed. The program trusts neither the
    deployment that answers it nor the local disk: everything it returns was
    checked against the snapshot's identities. This development models that
    checking core of [src/src/snapshot] and [src/src/util] and proves what it
    guarantees.

    ** Parts, files and sources

    The files are listed from the shared base to the theorems about whole runs.

    - [Prelude]: results with the [?] operator, 64-bit integers as [Z] with
      checked and saturating operations, byte strings, the byte order of
      [BTreeMap<String, _>] keys, slices, and the tactics every file uses
      ([inv_ok], [bools], [split_all], [dlia]).
    - [Types]: [types.rs], [path_state.rs], [content_profile.rs]. The client
      error, the namespace facts, the class [Sha256].
    - [Faults]: computations that may panic or exhaust a bound, besides
      returning a client error; stable sorting and UTF-8 validity.
    - [Text]: counters, digests, base64 and percent encoding
      ([frames.rs], [auth.rs], [resolve_wire.rs], [lease_wire.rs]).
    - [Fence]: [util/mutation_fence.rs], the fence between native mutations and
      pauses. State: permits, seal, latch and live tasks; [step] has one event
      per call, lock grant and drop.
    - [Budget]: [content.rs], capacity credits, reservations, owned buffers,
      verified content and batches.
    - [Profile]: [capabilities.rs] and the limits of [client.rs]; module [Scope]
      is the path validation of [auth.rs].
    - [Btree]: [BTreeMap<String, _>] as its ordered entries, and
      [slice::binary_search_by].
    - [Directory]: [directory.rs] with the cursor loop of [reader.rs].
    - [Namespace]: [lookup.rs] and [fixed_directory_index.rs].
    - [Coordinator]: [coordinator.rs], single-flight downloads. [step] covers
      admission, joining, cancellation, completion and delivery.
    - [Frames], [Units], [Metadata]: [frames.rs] (with the bounded exchange of
      [client.rs]): batching, budgets, END binding; chunk and object requests;
      the route check of metadata pages.
    - [CasScan], [CasCache]: [cas_index.rs]: the scan that verifies and indexes
      a cached file, reads through an index, and the bounded cache of indexes.
    - [Json], [Wire]: [serde_json] values and derived decoding;
      [error_wire.rs], [descriptor_wire.rs], [resolve_wire.rs],
      [lease_wire.rs] and the offline grants of [types.rs].
    - [Authority]: [auth.rs]: the immutable read authority, the cache partition
      and the record that binds a cache directory to one authority.
    - [ChunkMap]: [chunk_wire.rs] and the chunk-map calls of [frames.rs].
    - [Closure], [ClosureExact], [ClosureFacts], [ClosureTree]: [closure.rs]:
      the walk that validates every page below a descriptor, what it accepts,
      the stored summaries of directories, and the tree of pages as a relation.
    - [OwnedTransport]: [owned_transport.rs]: framed exchanges read from network
      chunks under a shared budget.
    - [Lru], [OwnedRange]: [owned_range.rs]: the inline tables of chunks and
      leaves, and range reads of large files through them.
    - [Disk], [DiskLogic]: the file system the store writes to, with what a
      crash keeps; the atomic writer of [durable.rs]; the triples used to reason
      about every state a program passes through.
    - [Journal], [JournalFacts]: the resume journal of [durable.rs].
    - [Records], [Durable], [DurableFacts], [CommitFacts]: [durable.rs]: the
      records of a store, the check that believes a completion record, and the
      commit that publishes one.
    - [Pins], [PinFacts]: [workspace_pins.rs]: owners, registrations, and the
      release of a local claim.
    - [Hydrate], [HydrateFacts], [StreamFacts], [Batches], [BatchFacts]:
      [durable.rs]: filling a store file by file or by batches, streaming large
      files, and the pass from preparation to commit.
    - [Capacity], [ScopeTree], [Owners], [Inventory], [Retention]:
      [cache_retention.rs] and the discovery of owners in [workspace_pins.rs]:
      the limits of a managed cache directory, its tree of files as programs
      see it, the owners registered in it, its bounded inventory, and
      [collect_scope], which removes what no live use needs and resets the
      ledger of charges. [InventoryFacts], [OwnersFacts], [ProtectionFacts],
      [RetentionFacts], [CollectionFacts] and [CollectionSafe] follow the
      collection from its inventory to the theorems.
    - [Admission]: the writers of a managed scope ([cache_retention.rs] with
      [write_atomic], [CasBatchWriter::write], [write_reader_blob_stream],
      [append_journal_bytes] and [compact_journal] of [durable.rs]): configuring
      a scope, admitting and retiring writes,
      reserving for hydrations and metadata proofs, recording uses.
      [AdmissionFacts], [AdmissionWriters], [AdmissionSafe], [AdmissionUses] and
      [AdmissionHistory] keep the account of the ledger through each of them, up
      to histories of all of them with collections.
    - [Collector], [CollectorExact], [CollectorBounds]: the collection of all
      pages of a snapshot, round by round and under a budget ([reader.rs]), and
      the full refresh of [incremental.rs] that stores them with their subtree
      records.
    - [Incremental], [SubtreeSums], [SubtreeFacts], [IncrementalFacts],
      [IncrementalWalk], [IncrementalExact], [RefreshHistory]:
      [incremental.rs]: the page cache of a scope, its index
      of verified subtrees, and the refresh that lists a snapshot from both and
      from the server; the tree the refresh is compared with, the invariants of
      the index and of the walk, and the theorems over histories of refreshes,
      of walks and full refreshes of any descriptors, of releases, damaged pages
      and crashes.
    - [Requests], [RequestFacts]: the request loop of [client.rs] with the
      receipts of [resolve_receipt.rs]: credentials and their frozen copies,
      bounded retries under one deadline, bounded bodies and strict JSON, and
      the calls built on them; every exchange and every pause is recorded, and
      [course] says which sequences of them one logical request may make.
    - [UpperDiff], [UpperScan]: [upper_diff.rs]: collecting the facts of the
      upper directory from a host, and the diff against the fixed snapshot.
    - [Instances], [Witnesses], [ReadWitnesses], [DurableWitnesses],
      [CacheWitnesses], [RetentionWitnesses], [AdmissionWitnesses]: concrete
      instances of the parameters, and for every property with hypotheses an
      input on which they hold.

    How the parts interact: [Wire] and [Authority] establish which snapshot is
    read and under which authority; [Requests] carries an exchange, with its
    retries, and [Profile] bounds it; [Frames],
    [Units], [Metadata], [ChunkMap] and [Directory] turn answers into verified
    facts and bytes; [Coordinator] and [Budget] own the downloads and buffers;
    [OwnedTransport] and [OwnedRange] read large files; [Closure] proves which
    directories and files a descriptor commits to; [Hydrate] and [Batches] fetch
    them into a store, [Durable] commits it behind [Journal] and [Pins];
    [Collector] gathers a whole snapshot and [Incremental] lists a later one
    from what earlier ones proved; [Admission] charges what enters the shared
    cache and [Retention] removes from it what no workspace of [Owners] needs;
    [CasScan] and [CasCache] serve contents again from disk; [Namespace] keeps the
    certified names; [Fence] excludes mutations while [UpperDiff] compares the
    upper layer with those names.

    ** What the theorems show

    - Integrity: local reads return the bytes of the named digest
      ([indexed_read_sound]); chunk, object and metadata requests
      return exactly what was asked for; listings are complete and ordered;
      chunk-map pages are proved; answers are bound to the request.
    - Closures: an accepted closure is exactly the tree its root commits to, the
      validation always ends, and the canonical bytes reopen to it
      ([closure_exact], [closure_total], [closure_reopens]).
    - Owned reads: an exchange succeeds only on a complete, exact response,
      however the network cuts it; range reads return the bytes of the file
      while other readers share the tables, which are recency lists.
    - Durability: every state a program passes through, every failure of an
      operation and every crash is covered. A completion record is believed only
      with everything it names ([completion_sound]); a commit is atomic
      ([commit_atomic]); a whole hydration ends complete or leaves nothing to
      believe ([hydration_ends_complete], [batched_hydration_ends_complete]); a
      pass by batches leaves every content in the store, and the journal never
      names one that is not there for good ([batched_pass_lands]); a
      large file is published whole or not at all; a release revokes before it
      removes; the journal loses at most a tail and reorders nothing; a plan
      fetches every content once, within the limits of a request.
    - Refresh: after any full refreshes, refreshes of files of snapshots the
      validator accepts (or of any, that did not commit), releases, damage to
      page files and crashes, the files a refresh of an accepted snapshot reports
      are those of its closure ([refresh_exact]) and every record of the index
      lists the subtree of its root page ([index_stays_sound]); a full refresh of
      an accepted snapshot delivers its validated closure whatever the page cache
      and the index hold ([full_refresh_exact]). A refresh of files does not
      validate the snapshot it lists: one with two directories of one name in two
      radix leaves can commit a record that lists foreign files
      ([invalid_refresh_poisons]), which is why these histories are about
      accepted snapshots. A collection under a budget stores no more pages,
      bytes and routes than the limits allow ([collection_bounded]).
    - Retention: in every tree a collection passes through, whatever fails, the
      contents and pages of every live closure and the files of its owner are
      untouched, and what is gone was disposable and within the limits
      ([collection_keeps_live]); the ledger it leaves covers what is stored
      ([ledger_covers]). Whatever a scope went through since it was managed
      (writes of atomic files, of contents of batches or streamed, of journal
      lines and of whole journals, reservations, uses and collections), and
      whatever failed, nothing panics and its files stay within its limit of bytes and within what
      the ledger charges, with all that live reservations may still write
      ([cache_never_overcommitted]); folders, locks, the two records of the
      scope and those of reservations are outside the account, and the limit on
      the number of entries is modelled but not part of the theorem.
    - Requests: a logical request makes at most four attempts, each with what is
      left of the one deadline, with the same credentials, and another one only after a failure
      that allows it ([requests_disciplined]); an observed resolve has the
      receipt of exactly the attempts it sent and answers what was asked
      ([observed_resolve_exact]); a lookup answers the paths that were asked
      with typed nodes ([lookup_bound]).
    - Authority: descriptors are their identity, resolve and lease answers are
      bound to what was requested, cache directories partition by authority
      and belong to one authority for good.
    - Concurrency: the fence and the coordinator are transition systems, and
      the properties hold in every reachable state, so under every interleaving
      of the events: exclusion, latching, single flight, no lost waiter, exact
      permits.
    - Resources: budgets, owned index memory, response sizes and scans are
      bounded, and the accounting is exact.
    - The upper diff is exact with respect to the merged view of an overlay
      mount ([effective]), so an empty diff means nothing changed.
    - Canonical forms: one accepted spelling per counter, digest and base64
      payload; closed contracts are selected by the presence of a member.

    ** Parameters

    Code that is not in the repository is a class, with the laws the code relies
    on: [Sha256] (a 32-byte function; no injectivity is assumed: where the code
    identifies contents by their digests, the theorems either name the two byte
    strings that would [collide], or take the class [KnownBytes] of the byte
    strings that occur in the run, no two of which collide; [KnownPages] is the
    same for metadata pages), [PageBytes] (the size limit of a page), [HexCrate], [CodecScope], [Treeframe],
    [DescriptorCodec], [ChunkCodec], [UuidCrate], [UrlCrate], [Rfc3339],
    [BindingJson], [Host]; [PageCodec] and [ServingCodec] (metadata pages and
    serving descriptors), [FrameParser] and [ChunkLengths] (frame and chunk-map
    codecs), [HttpCrate] (the strict
    reader of JSON texts, and texts of [reqwest]), [RecordCodec], [Serde], [CommitCodec], [PinCodec] and
    [RetentionCodec] (one JSON codec per record, with the round trips derived
    serialization has; [lines_shorter] says that the records of a manifest, which
    have fewer fields with shorter names, take no more bytes than its files). The fixed lower layer of the diff is the interface
    [Lower] with its contract [LowerSpec]; the page source of the collector is an
    interface with the contract [SourceSpec], which the network alone and the
    network behind a scope's cache both meet. Servers, files, hosts and byte sources
    are arguments that may answer anything at every call. The [environment] of
    the disk decides for every operation whether it fails, and whether a failed
    operation had its effect; [calm] environments, used only to say what a later
    reader finds, do not fail.

    ** Crashes

    A name refers to a file as programs see it, and to a file as its directory
    was last synced. A crash keeps one of the two for every name on its own, and
    only the bytes of a file that was synced; unsynced files keep arbitrary
    bytes. The states passed through are recorded, so that a theorem speaks of a
    crash between any two operations. The tree of a managed scope is kept as
    programs see it, every tree passed through is recorded as well, and the
    lifecycle fence, which the collection holds, is taken to keep other
    processes out meanwhile. The operations of a history of a scope follow one
    another, and a collection is refused while a reservation holds the fence.
    A path below a file is absent there, where the host says that a component is
    not a directory.

    ** Fuel and bounds

    The directory loop takes at most [2^64] requests ([enumeration_terminates]:
    every continued page delivers an entry and the count is 64-bit). The header
    scan of a response has the length of the body as fuel, since every frame has
    a nonempty header. The upper scan has one iteration per upper node and the
    collection one level per permitted depth ([scan_bounded]). A radix partition
    has the depth of the codec plus two levels, and a directory walk one level
    per page, since the directories on a path are different pages
    ([closure_total]). The copying loop of a network cursor has one step per byte
    it wants, the frame loop one per item and three more, and the loop over the
    ranges of a large file one per byte of it: every round advances, and
    [large_file_published] and [cache_never_overcommitted] show the fuel is never
    exhausted. A refresh has one
    round per page that the root unfolds to ([enough]), since every round visits
    one at least, and its completion cascade one step per open directory;
    [refresh_exact] shows neither runs out. The collector has one round per page
    below the root as well ([full_refresh_exact]). The inventory of a scope
    enters at most ten levels, since it refuses more than eight
    ([collection_keeps_live]). The request loop has one round per
    attempt it may make ([requests_disciplined]). Loops over
    collected lists are structural. [usize] is 64 bits wide.

    ** Not modelled

    Transport below one exchange (HTTP, TLS), tokio scheduling below the granularity of the
    modelled events, FUSE protocol adaptors, mounting, configuration, the command
    line and the server; the admissions of the store of [Durable] and [Hydrate]
    (they are operations that may fail there; [Admission] models them over the
    tree of a scope), the directory scan
    behind the pin inventory (its result is an argument), the concurrent file-by-file hydration, and the final
    re-verification walk of the upper scan. The concurrent tasks of a hydration
    by batches are taken one after another. The fence leaves open which waiting
    task takes the lock next, and the completion of a download hands its result
    to all waiters in one step. Verification meters, the path of a
    store in error messages and the quoting of paths there are left out.

    ** This file *)

(** Shared vocabulary of the development: the [Result] type of Rust with its
    [?] operator, 64-bit machine integers, byte strings, the order of
    [BTreeMap<String, _>] keys, and the automation used by every component. *)

From Stdlib Require Export ZArith Lia Ascii Bool.
From stdpp Require Export base gmap strings list numbers.
From stdpp Require Export options.

#[global] Open Scope Z_scope.
#[global] Open Scope list_scope.
#[global] Set Default Proof Using "Type".
#[global] Arguments String.append !s1 s2 : simpl nomatch, rename.

(** ** Results *)

Inductive result (E A : Type) : Type :=
  | Ok (a : A)
  | Err (e : E).
Arguments Ok {E A} a.
Arguments Err {E A} e.

Definition rbind {E A B} (c : result E A) (k : A -> result E B) : result E B :=
  match c with
  | Ok a => k a
  | Err e => Err e
  end.

Definition map_err {E F A} (f : E -> F) (c : result E A) : result F A :=
  match c with
  | Ok a => Ok a
  | Err e => Err (f e)
  end.

Definition ok_or {E A} (o : option A) (e : E) : result E A :=
  match o with
  | Some a => Ok a
  | None => Err e
  end.

Definition is_ok {E A} (c : result E A) : bool :=
  match c with Ok _ => true | Err _ => false end.

Declare Scope rust_scope.
Delimit Scope rust_scope with rust.

(** [let? x := c in k] is [let x = c?; k]; [reject? b with e in k] is
    [if b { return Err(e) } k]. *)
Notation "'let?' x := c 'in' k" := (rbind c (fun x => k))
  (at level 10, x name, c at level 150, k at level 200) : rust_scope.
Notation "'let?' ' p := c 'in' k" := (rbind c (fun x => match x with p => k end))
  (at level 10, p pattern, c at level 150, k at level 200) : rust_scope.
Notation "'reject?' b 'with' e 'in' k" := (if b then Err e else k)
  (at level 10, b at level 150, e at level 150, k at level 200) : rust_scope.
#[global] Open Scope rust_scope.

Section Results.
Context {E A B : Type}.

Lemma rbind_ok (c : result E A) (k : A -> result E B) b :
  rbind c k = Ok b <-> exists a, c = Ok a /\ k a = Ok b.
Proof. destruct c; simpl; naive_solver. Qed.

Lemma rbind_err (c : result E A) (k : A -> result E B) e :
  rbind c k = Err e <-> c = Err e \/ exists a, c = Ok a /\ k a = Err e.
Proof. destruct c; simpl; naive_solver. Qed.

Lemma reject_ok (b : bool) (e : E) (k : result E A) a :
  (if b then Err e else k) = Ok a <-> b = false /\ k = Ok a.
Proof. destruct b; naive_solver. Qed.

Lemma ok_or_ok (o : option A) (e : E) a : ok_or o e = Ok a <-> o = Some a.
Proof. destruct o; simpl; naive_solver. Qed.

Lemma map_err_ok {F} (f : E -> F) (c : result E A) a :
  map_err f c = Ok a <-> c = Ok a.
Proof. destruct c; simpl; naive_solver. Qed.
End Results.

Fixpoint for_each {E S X} (f : S -> X -> result E S) (s : S) (xs : list X) : result E S :=
  match xs with
  | [] => Ok s
  | x :: xs => let? s' := f s x in for_each f s' xs
  end.

Lemma for_each_app {E S X} (f : S -> X -> result E S) s xs ys :
  for_each f s (xs ++ ys) = rbind (for_each f s xs) (fun s' => for_each f s' ys).
Proof.
  revert s; induction xs as [|x xs IH]; intros s; simpl; [done|].
  destruct (f s x); simpl; auto.
Qed.

Lemma for_each_inv {E S X} (f : S -> X -> result E S) (I : S -> Prop) s xs s' :
  (forall s x s', I s -> x ∈ xs -> f s x = Ok s' -> I s') ->
  I s -> for_each f s xs = Ok s' -> I s'.
Proof.
  intros Hf; revert s; induction xs as [|x xs IH]; intros s Hs; simpl; [naive_solver|].
  intros (s1 & H1 & H2)%rbind_ok. eapply IH; [|eapply Hf|]; eauto; set_solver.
Qed.

(** ** Machine integers

    [u64] and [usize] (64-bit targets) are [Z] kept in range by explicit
    checked, saturating or wrapping operations. *)

Definition u64_max : Z := 2 ^ 64 - 1.
Definition i64_max : Z := 2 ^ 63 - 1.
Definition u32_max : Z := 2 ^ 32 - 1.
Definition usize_max : Z := u64_max.

Definition is_u64 (n : Z) : Prop := 0 <= n <= u64_max.
Definition is_usize (n : Z) : Prop := 0 <= n <= usize_max.

Definition checked_add (a b : Z) : option Z :=
  if a + b <=? u64_max then Some (a + b) else None.
Definition checked_mul (a b : Z) : option Z :=
  if a * b <=? u64_max then Some (a * b) else None.
Definition saturating_add (a b : Z) : Z := Z.min (a + b) u64_max.
Definition saturating_sub (a b : Z) : Z := Z.max (a - b) 0.
Definition saturating_mul (a b : Z) : Z := Z.min (a * b) u64_max.
Definition div_ceil (a b : Z) : Z := (a + b - 1) / b.
Definition in_range (lo n hi : Z) : bool := (lo <=? n) && (n <=? hi).

Lemma checked_add_some a b c :
  checked_add a b = Some c <-> c = a + b /\ a + b <= u64_max.
Proof. unfold checked_add. destruct (Z.leb_spec (a + b) u64_max); naive_solver lia. Qed.

Lemma checked_mul_some a b c :
  checked_mul a b = Some c <-> c = a * b /\ a * b <= u64_max.
Proof. unfold checked_mul. destruct (Z.leb_spec (a * b) u64_max); naive_solver lia. Qed.

Lemma in_range_true lo n hi : in_range lo n hi = true <-> lo <= n <= hi.
Proof. unfold in_range. lia. Qed.

Lemma in_range_false lo n hi : in_range lo n hi = false <-> n < lo \/ hi < n.
Proof. unfold in_range. lia. Qed.

Lemma div_ceil_bounds a b : 0 <= a -> 0 < b -> a <= b * div_ceil a b < a + b.
Proof.
  intros. unfold div_ceil.
  pose proof (Z.div_mod (a + b - 1) b) as H1.
  pose proof (Z.mod_pos_bound (a + b - 1) b) as H2. lia.
Qed.

(** ** Byte strings

    A Rust [&str] is a [string] of UTF-8 bytes; [as_bytes] exposes them as
    integers so that byte classes read as in the source. *)

Definition byte_of (c : ascii) : Z := Z.of_N (N_of_ascii c).
Definition ascii_of (b : Z) : ascii := ascii_of_N (Z.to_N b).
Definition is_byte (b : Z) : Prop := 0 <= b < 256.

Fixpoint as_bytes (s : string) : list Z :=
  match s with
  | EmptyString => []
  | String c s => byte_of c :: as_bytes s
  end.

Fixpoint of_bytes (l : list Z) : string :=
  match l with
  | [] => EmptyString
  | b :: l => String (ascii_of b) (of_bytes l)
  end.

(** [str::len]. *)
Definition str_len (s : string) : Z := Z.of_nat (String.length s).

Lemma byte_of_range c : is_byte (byte_of c).
Proof. unfold is_byte, byte_of. pose proof (N_ascii_bounded c). lia. Qed.

Lemma ascii_of_byte_of c : ascii_of (byte_of c) = c.
Proof. unfold ascii_of, byte_of. rewrite N2Z.id. apply ascii_N_embedding. Qed.

Lemma byte_of_ascii_of b : is_byte b -> byte_of (ascii_of b) = b.
Proof.
  intros [? ?]. unfold ascii_of, byte_of. rewrite N_ascii_embedding by lia. lia.
Qed.

Lemma as_bytes_range s : Forall is_byte (as_bytes s).
Proof. induction s; simpl; constructor; auto using byte_of_range. Qed.

Lemma of_bytes_as_bytes s : of_bytes (as_bytes s) = s.
Proof. induction s; simpl; [done|]. by rewrite ascii_of_byte_of, IHs. Qed.

Lemma as_bytes_of_bytes l : Forall is_byte l -> as_bytes (of_bytes l) = l.
Proof. induction 1; simpl; [done|]. by rewrite byte_of_ascii_of, IHForall. Qed.

#[export] Instance as_bytes_inj : Inj (=) (=) as_bytes.
Proof. intros s t H. by rewrite <- (of_bytes_as_bytes s), H, of_bytes_as_bytes. Qed.

Lemma length_as_bytes s : length (as_bytes s) = String.length s.
Proof. induction s; simpl; auto. Qed.

Lemma str_len_as_bytes s : str_len s = Z.of_nat (length (as_bytes s)).
Proof. unfold str_len. by rewrite length_as_bytes. Qed.

Lemma as_bytes_app s t : as_bytes (s ++ t)%string = as_bytes s ++ as_bytes t.
Proof. induction s; simpl; [done|]. by rewrite IHs. Qed.

Lemma of_bytes_app l k : of_bytes (l ++ k) = (of_bytes l ++ of_bytes k)%string.
Proof. induction l; simpl; [done|]. by rewrite IHl. Qed.

(** [str::chars().count()] on UTF-8: the bytes that start a scalar value. *)
Definition is_continuation (b : Z) : bool := in_range 128 b 191.
Definition chars_count (s : string) : Z :=
  Z.of_nat (length (List.filter (fun b => negb (is_continuation b)) (as_bytes s))).

Definition is_empty (s : string) : bool := String.eqb s EmptyString.

(** [str::strip_prefix], [str::starts_with], [str::ends_with]. *)
Fixpoint strip_prefix (p s : string) : option string :=
  match p, s with
  | EmptyString, _ => Some s
  | String a p, String b s => if Ascii.eqb a b then strip_prefix p s else None
  | String _ _, EmptyString => None
  end.

Definition starts_with (p s : string) : bool :=
  match strip_prefix p s with Some _ => true | None => false end.

Fixpoint rev_string (s : string) : string :=
  match s with
  | EmptyString => EmptyString
  | String c s => (rev_string s ++ String c EmptyString)%string
  end.

Definition ends_with (p s : string) : bool := starts_with (rev_string p) (rev_string s).

(** [str::strip_suffix]. *)
Definition strip_suffix (p s : string) : option string := rev_string <$> strip_prefix (rev_string p) (rev_string s).

(** [str::split_once], [str::rsplit_once], [str::contains]. *)
Fixpoint split_once (p s : string) : option (string * string) :=
  match strip_prefix p s with
  | Some rest => Some (EmptyString, rest)
  | None =>
      match s with
      | EmptyString => None
      | String c s => r ← split_once p s; Some (String c r.1, r.2)
      end
  end.
Definition rsplit_once (p s : string) : option (string * string) :=
  r ← split_once (rev_string p) (rev_string s); Some (rev_string r.2, rev_string r.1).
Definition str_contains (p s : string) : bool := bool_decide (is_Some (split_once p s)).

Lemma strip_prefix_some p s t : strip_prefix p s = Some t <-> s = (p ++ t)%string.
Proof.
  revert s; induction p as [|a p IH]; intros [|b s]; simpl; [split; congruence..|].
  destruct (Ascii.eqb_spec a b) as [->|]; [rewrite IH|]; split; congruence.
Qed.

Lemma append_assoc (s t u : string) : ((s ++ t) ++ u = s ++ (t ++ u))%string.
Proof. induction s as [|c s IH]; simpl; [done|]. by rewrite IH. Qed.
Lemma append_nil (s : string) : (s ++ EmptyString = s)%string.
Proof. induction s as [|c s IH]; simpl; [done|]. by rewrite IH. Qed.
Lemma rev_append (s t : string) : rev_string (s ++ t) = (rev_string t ++ rev_string s)%string.
Proof. induction s as [|c s IH]; simpl; [by rewrite append_nil|]. by rewrite IH, append_assoc. Qed.
Lemma rev_involutive (s : string) : rev_string (rev_string s) = s.
Proof. induction s as [|c s IH]; simpl; [done|]. by rewrite rev_append, IH. Qed.

Lemma strip_suffix_some p s t : strip_suffix p s = Some t <-> s = (t ++ p)%string.
Proof.
  unfold strip_suffix. rewrite fmap_Some. split.
  - intros (u & Hu%strip_prefix_some & ->). by rewrite <- (rev_involutive s), Hu, rev_append, rev_involutive.
  - intros ->. exists (rev_string t). by rewrite rev_append, strip_prefix_some, rev_involutive.
Qed.

Lemma split_once_some p s a b : split_once p s = Some (a, b) -> s = (a ++ p ++ b)%string.
Proof.
  revert a b. induction s as [|c s IH]; intros a b; cbn [split_once].
  - destruct (strip_prefix p EmptyString) eqn:E; [|done]. intros [= <- <-]. by apply strip_prefix_some in E.
  - destruct (strip_prefix p (String c s)) eqn:E.
    + intros [= <- <-]. by apply strip_prefix_some in E.
    + destruct (split_once p s) as [[a' b']|]; simpl; [|done]. intros [= <- <-]. simpl. by rewrite (IH a' b' eq_refl).
Qed.
Lemma rsplit_once_some p s a b : rsplit_once p s = Some (a, b) -> s = (a ++ p ++ b)%string.
Proof.
  unfold rsplit_once. destruct (split_once _ _) as [[x y]|] eqn:E; simpl; [|done]. intros [= <- <-].
  apply split_once_some in E. rewrite <- (rev_involutive s), E, !rev_append, rev_involutive. by rewrite append_assoc.
Qed.

(** Byte classes used throughout the wire contracts. *)
Definition is_ascii_digit (b : Z) : bool := in_range 48 b 57.
Definition is_ascii_lower (b : Z) : bool := in_range 97 b 122.
Definition is_ascii_upper (b : Z) : bool := in_range 65 b 90.
Definition is_ascii_alphanumeric (b : Z) : bool :=
  is_ascii_digit b || is_ascii_lower b || is_ascii_upper b.

(** A Rust [match] on string literals: the first arm whose literal is equal. *)
Fixpoint match_str {A} (s : string) (arms : list (string * A)) : option A :=
  match arms with
  | [] => None
  | (p, a) :: arms => if String.eqb s p then Some a else match_str s arms
  end.

Definition one_of (s : string) (l : list string) : bool := existsb (String.eqb s) l.

Lemma one_of_true s l : one_of s l = true <-> s ∈ l.
Proof.
  unfold one_of. rewrite existsb_exists. setoid_rewrite String.eqb_eq.
  rewrite list_elem_of_In. naive_solver.
Qed.

Lemma match_str_some {A} s (arms : list (string * A)) a :
  match_str s arms = Some a -> (s, a) ∈ arms.
Proof.
  induction arms as [|[p b] arms IH]; simpl; [done|].
  destruct (String.eqb_spec s p); intros; simplify_eq; [left|right; auto].
Qed.

(** ** Key order of [BTreeMap<String, _>]: lexicographic on bytes *)

Definition str_lt (s t : string) : Prop := String.compare s t = Lt.
Definition str_ltb (s t : string) : bool :=
  match String.compare s t with Lt => true | _ => false end.

Lemma str_ltb_true s t : str_ltb s t = true <-> str_lt s t.
Proof. unfold str_ltb, str_lt. destruct (String.compare s t); naive_solver. Qed.

Lemma str_compare_refl s : String.compare s s = Eq.
Proof.
  destruct (String.compare s s) eqn:H; [done| |];
    pose proof (String.compare_antisym s s) as Ha; rewrite H in Ha; discriminate.
Qed.

Lemma str_compare_eq s t : String.compare s t = Eq <-> s = t.
Proof. split; [apply String.compare_eq_iff|intros ->; apply str_compare_refl]. Qed.

Lemma str_compare_gt s t : String.compare s t = Gt <-> str_lt t s.
Proof.
  unfold str_lt. rewrite (String.compare_antisym s t).
  destruct (String.compare t s); naive_solver.
Qed.

Lemma ascii_compare_lt_trans a b c :
  Ascii.compare a b = Lt -> Ascii.compare b c = Lt -> Ascii.compare a c = Lt.
Proof. unfold Ascii.compare. rewrite !N.compare_lt_iff. lia. Qed.

#[export] Instance str_lt_trans : Transitive str_lt.
Proof.
  unfold str_lt. intros s t u; revert t u.
  induction s as [|a s IH]; intros [|b t] [|c u]; simpl; [congruence..|].
  destruct (Ascii.compare a b) eqn:Hab; [|clear IH|done].
  - apply Ascii.compare_eq_iff in Hab as ->.
    destruct (Ascii.compare b c); naive_solver.
  - destruct (Ascii.compare b c) eqn:Hbc; [| |done]; intros _ H.
    + apply Ascii.compare_eq_iff in Hbc as ->. by rewrite Hab.
    + by rewrite (ascii_compare_lt_trans a b c).
Qed.

#[export] Instance str_lt_irrefl : Irreflexive str_lt.
Proof. intros s H. unfold str_lt in H. by rewrite str_compare_refl in H. Qed.

Lemma str_lt_total s t : str_lt s t \/ s = t \/ str_lt t s.
Proof.
  destruct (String.compare s t) eqn:H; [right; left|left|right; right].
  - by apply str_compare_eq.
  - done.
  - by apply str_compare_gt.
Qed.

#[export] Instance str_lt_dec : RelDecision str_lt.
Proof. intros s t. unfold str_lt. destruct (String.compare s t); [right|left|right]; done. Defined.

(** ** Generic list facts *)

Lemma skipn_skipn_add {A} n m (l : list A) : drop n (drop m l) = drop (m + n)%nat l.
Proof. by rewrite drop_drop. Qed.

(** The bytes [from, to) of a buffer, as Rust slices them. *)
Definition slice {A} (l : list A) (from to : Z) : list A :=
  take (Z.to_nat (to - from)) (drop (Z.to_nat from) l).

(** [Z]-valued length. *)
Definition zlen {A} (l : list A) : Z := Z.of_nat (length l).

Lemma zlen_nonneg {A} (l : list A) : 0 <= zlen l.
Proof. unfold zlen. lia. Qed.

Lemma zlen_app {A} (l k : list A) : zlen (l ++ k) = zlen l + zlen k.
Proof. unfold zlen. rewrite length_app. lia. Qed.

Lemma zlen_slice {A} (l : list A) from to :
  0 <= from -> from <= to -> to <= zlen l -> zlen (slice l from to) = to - from.
Proof. unfold zlen, slice. intros. rewrite length_take, length_drop. lia. Qed.

Lemma slice_nil {A} (l : list A) from to : to <= from -> slice l from to = [].
Proof. intros. unfold slice. replace (Z.to_nat (to - from)) with 0%nat by lia. done. Qed.

Lemma slice_all {A} (l : list A) : slice l 0 (zlen l) = l.
Proof. unfold slice, zlen. rewrite drop_0. apply take_ge. lia. Qed.

Lemma slice_app {A} (l : list A) a b c :
  0 <= a -> a <= b -> b <= c -> slice l a b ++ slice l b c = slice l a c.
Proof.
  intros. unfold slice.
  replace (Z.to_nat b) with (Z.to_nat a + Z.to_nat (b - a))%nat by lia.
  replace (Z.to_nat (c - a)) with (Z.to_nat (b - a) + Z.to_nat (c - b))%nat by lia.
  rewrite <- drop_drop. generalize (drop (Z.to_nat a) l) as k. intros k.
  generalize (Z.to_nat (b - a)) as n, (Z.to_nat (c - b)) as m. intros n m.
  rewrite <- (take_drop n (take (n + m) k)).
  rewrite take_take, Nat.min_l by lia. f_equal.
  rewrite <- take_drop_commute. done.
Qed.

Lemma slice_slice {A} (l : list A) a b c d :
  0 <= a -> 0 <= c -> d <= b - a -> slice (slice l a b) c d = slice l (a + c) (a + d).
Proof.
  intros. unfold slice. rewrite skipn_firstn_comm, take_take, drop_drop.
  f_equal; [lia|]. f_equal; lia.
Qed.

(** Slicing past the end clips; slicing a concatenation splits at the seam. *)
Lemma slice_clip {A} (l : list A) a b : slice l a b = slice l a (Z.min b (zlen l)).
Proof.
  unfold slice, zlen. destruct (Z.le_gt_cases b (Z.of_nat (length l))); [by rewrite Z.min_l by lia|].
  rewrite Z.min_r by lia. rewrite !take_ge; [done|rewrite length_drop; lia..].
Qed.

Lemma slice_app_eq {A} (l k : list A) a b :
  0 <= a -> slice (l ++ k) a b = slice l a b ++ slice k (Z.max (zlen l) a - zlen l) (b - zlen l).
Proof.
  intros Ha. unfold slice, zlen. rewrite drop_app, take_app, length_drop. f_equal.
  f_equal; [lia|]. f_equal. lia.
Qed.

Lemma forallb_Forall {A} (p : A -> bool) l : forallb p l = true <-> Forall (fun x => p x = true) l.
Proof.
  rewrite forallb_forall, Forall_forall. done.
Qed.

Lemma NoDup_snoc {A} (l : list A) x : NoDup l -> x ∉ l -> NoDup (l ++ [x]).
Proof.
  intros Hl Hx. apply list.NoDup_app. split_and!; [done| |apply NoDup_singleton].
  intros y Hy ->%list_elem_of_singleton. done.
Qed.

(** Exhaustive checks over small integer ranges, evaluated by the kernel. *)
Definition zrange (n : nat) : list Z := Z.of_nat <$> seq 0 n.
Definition all_below (n : nat) (p : Z -> bool) : bool := forallb p (zrange n).

Lemma all_below_spec n p z : all_below n p = true -> 0 <= z < Z.of_nat n -> p z = true.
Proof.
  unfold all_below, zrange. rewrite forallb_forall. intros H Hz. apply H.
  apply list_elem_of_In, list_elem_of_fmap. exists (Z.to_nat z).
  split; [lia|]. apply elem_of_seq. lia.
Qed.

(** ** Automation *)

Create HintDb rust.
Create Rewrite HintDb bools.
#[export] Hint Rewrite orb_true_iff orb_false_iff andb_true_iff negb_false_iff negb_true_iff
  Z.ltb_lt Z.ltb_ge Z.leb_le Z.leb_gt Z.eqb_eq Z.eqb_neq String.eqb_eq String.eqb_neq
  in_range_true one_of_true str_ltb_true Z.gtb_lt Z.geb_le : bools.
#[export] Hint Resolve zlen_nonneg byte_of_range as_bytes_range : rust.

(** Turn a boolean guard of the source into the proposition it decides. *)
Ltac bools := autorewrite with bools in *.

(** Walk back through the guards and [?]s of a computation that succeeded. *)
Ltac inv_ok :=
  repeat match goal with
  | H : rbind _ _ = Ok _ |- _ => apply rbind_ok in H as (? & ? & H)
  | H : (if _ then Err _ else _) = Ok _ |- _ => apply reject_ok in H as [? H]
  | H : ok_or _ _ = Ok _ |- _ => apply ok_or_ok in H
  | H : map_err _ _ = Ok _ |- _ => apply map_err_ok in H
  | H : Ok _ = Ok _ |- _ => injection H as H
  | H : Err _ = Ok _ |- _ => discriminate H
  | H : Ok _ = Err _ |- _ => discriminate H
  end.

(** [lia] with division and modulo by constants. *)
Ltac dlia := Z.to_euclidean_division_equations; lia.

(** Split conjunctions and destruct existentials in the context. *)
Ltac split_all :=
  repeat match goal with
  | H : _ /\ _ |- _ => destruct H
  | H : exists _, _ |- _ => destruct H
  end.

(** ** Separators: the last one splits a byte string in one way *)

Lemma last_separator {c : Z} (l k l' k' : list Z) :
  Forall (fun b => b <> c) k -> Forall (fun b => b <> c) k' ->
  l ++ c :: k = l' ++ c :: k' -> l = l' /\ k = k'.
Proof.
  assert (Hone : forall l k l' k' : list Z, Forall (fun b => b <> c) k' ->
            forall m, l = l' ++ m -> c :: k' = m ++ c :: k -> l = l' /\ k = k').
  { intros l0 k0 l0' k0' Hk m -> Hm. destruct m as [|x m]; simpl in Hm; simplify_eq.
    - by rewrite app_nil_r.
    - apply Forall_app in Hk as [_ Hk]. inversion Hk. congruence. }
  intros Hk Hk' H. apply app_eq_inv in H as [(m & H1 & H2)|(m & H1 & H2)].
  - by apply (Hone l k l' k' Hk' m).
  - by destruct (Hone l' k' l k Hk m H1 H2).
Qed.

(** ** Packing bit fields *)

Lemma lor_pack k m p q :
  0 <= k -> 2 ^ k = m -> 0 <= q < m -> Z.lor (Z.shiftl p k) q = p * m + q.
Proof.
  intros Hk <- Hq. rewrite <- Z.shiftl_mul_pow2 by done.
  assert (Hl : Z.land (Z.shiftl p k) q = 0).
  { apply Z.bits_inj'. intros n Hn. rewrite Z.land_spec, Z.bits_0, Z.shiftl_spec by done.
    destruct (Z.lt_ge_cases n k).
    - by rewrite Z.testbit_neg_r by lia.
    - rewrite <- (Z.mod_small q (2 ^ k)), Z.mod_pow2_bits_high by lia. apply andb_false_r. }
  rewrite <- Z.lxor_lor by done. symmetry. by apply Z.add_nocarry_lxor.
Qed.

Lemma land_low k x : 0 <= k -> Z.land x (2 ^ k - 1) = x mod 2 ^ k.
Proof. intros. rewrite <- Z.land_ones by done. by rewrite Z.ones_equiv. Qed.

(** [u8] left shift drops the bits that leave the byte. *)
Definition wrap8 (z : Z) : Z := z mod 256.

(** ** Counting the entries of a finite map *)

Section Count.
Context {K : Type} `{Countable K} {V : Type}.

Definition count_if (p : V -> bool) (m : gmap K V) : nat :=
  size (filter (fun kv => p kv.2 = true) m).

Lemma count_if_empty p : count_if p ∅ = 0%nat.
Proof. unfold count_if. by rewrite map_filter_empty, map_size_empty. Qed.

Lemma count_if_insert p (m : gmap K V) k v :
  m !! k = None -> count_if p (<[k:=v]> m) = (count_if p m + (if p v then 1 else 0))%nat.
Proof.
  intros Hk. unfold count_if. destruct (p v) eqn:Hp.
  - rewrite map_filter_insert_True by done. rewrite map_size_insert_None; [lia|].
    apply map_lookup_filter_None. by left.
  - rewrite map_filter_insert_False by (simpl; congruence). rewrite delete_id by done. lia.
Qed.

Lemma count_if_delete p (m : gmap K V) k v :
  m !! k = Some v -> (count_if p (delete k m) + (if p v then 1 else 0) = count_if p m)%nat.
Proof.
  intros Hk. rewrite <- (count_if_insert p (delete k m) k v) by apply lookup_delete_eq.
  by rewrite insert_delete_eq, insert_id.
Qed.

Lemma count_if_update p (m : gmap K V) k v w :
  m !! k = Some v ->
  (count_if p (<[k:=w]> m) + (if p v then 1 else 0) = count_if p m + (if p w then 1 else 0))%nat.
Proof.
  intros Hk. rewrite <- (count_if_delete p m k v) by done.
  rewrite <- (insert_delete_eq m k w), count_if_insert by apply lookup_delete_eq. lia.
Qed.

Lemma count_if_zero p (m : gmap K V) k v : count_if p m = 0%nat -> m !! k = Some v -> p v = false.
Proof.
  intros Hc Hk. destruct (p v) eqn:Hp; [|done].
  pose proof (count_if_delete p m k v Hk) as Hd. rewrite Hp in Hd. lia.
Qed.

Lemma count_if_pos p (m : gmap K V) k v : m !! k = Some v -> p v = true -> (0 < count_if p m)%nat.
Proof. intros Hk Hp. pose proof (count_if_delete p m k v Hk) as Hd. rewrite Hp in Hd. lia. Qed.

Lemma count_if_two p (m : gmap K V) j k v w :
  j <> k -> m !! j = Some v -> m !! k = Some w -> p v = true -> p w = true -> (2 <= count_if p m)%nat.
Proof.
  intros Hne Hj Hk Hv Hw. pose proof (count_if_delete p m j v Hj) as Hd. rewrite Hv in Hd.
  pose proof (count_if_pos p (delete j m) k w) as Hp.
  rewrite lookup_delete_ne in Hp by done. specialize (Hp Hk Hw). lia.
Qed.
End Count.

(** ** Sums over the entries of a finite map *)

Section Sum.
Context {K : Type} `{Countable K} {V : Type}.

Definition sum_of (w : V -> Z) (m : gmap K V) : Z := map_fold (fun _ v acc => w v + acc) 0 m.

Lemma sum_of_empty w : sum_of w ∅ = 0.
Proof. apply map_fold_empty. Qed.

Lemma sum_of_insert w (m : gmap K V) k v :
  m !! k = None -> sum_of w (<[k:=v]> m) = w v + sum_of w m.
Proof. intros Hk. unfold sum_of.
  apply (map_fold_insert_L (fun _ v acc => w v + acc)); [intros; lia|done]. Qed.

Lemma sum_of_delete w (m : gmap K V) k v :
  m !! k = Some v -> sum_of w m = w v + sum_of w (delete k m).
Proof.
  intros Hk. rewrite <- (sum_of_insert w (delete k m) k v) by apply lookup_delete_eq.
  by rewrite insert_delete_eq, insert_id.
Qed.

Lemma sum_of_nonneg w (m : gmap K V) :
  (forall k v, m !! k = Some v -> 0 <= w v) -> 0 <= sum_of w m.
Proof.
  induction m as [|k v m Hk IH] using map_ind; intros Hw; [by rewrite sum_of_empty|].
  rewrite sum_of_insert by done.
  pose proof (Hw k v (lookup_insert_eq m k v)).
  enough (0 <= sum_of w m) by lia. apply IH. intros j u Hj. apply (Hw j).
  rewrite lookup_insert_ne; congruence.
Qed.
End Sum.
