(* ===== verification/Types.v ===== *)
(** * Types

    [src/snapshot/types.rs] and [src/snapshot/path_state.rs]: the client error
    type, the server error spelling table, and the typed namespace facts a
    fixed snapshot certifies. *)

From S2P Require Import Prelude.
Local Open Scope string_scope.
Local Open Scope Z_scope.

(** ** Snapshot errors *)

Inductive SnapshotErrorCode : Type :=
  | ScopeInvalid | InvalidRequest | LimitExceeded | Unauthenticated | ScopeForbidden
  | ViewNotFound | SnapshotNotReady | MetadataNotReady | SnapshotGone | PathNotFound
  | NotDirectory | UnsupportedEntry | LeaseUnknown | LeaseExpired | CursorInvalid
  | CursorStale | ProofBudgetExceeded | DigestMismatch | IntegrityError
  | ObjectUnavailable | RangeNotSupported | SymlinkTraversal | DurableViewConflict
  | TemporaryUnavailable | Internal.

#[export] Instance SnapshotErrorCode_eq_dec : EqDecision SnapshotErrorCode.
Proof. solve_decision. Defined.

Record SnapshotError : Type := mkSnapshotError {
  code : SnapshotErrorCode;
  message : string;
  http_status : Z;
}.

Definition SnapshotError_new (c : SnapshotErrorCode) (m : string) : SnapshotError :=
  {| code := c; message := m; http_status := 0 |}.

Abbreviation Res A := (result SnapshotError A).

(** [SnapshotErrorCode::from_server]. *)
Definition server_codes : list (string * SnapshotErrorCode) :=
  [ ("SCOPE_INVALID", ScopeInvalid); ("INVALID_REQUEST", InvalidRequest);
    ("LIMIT_EXCEEDED", LimitExceeded); ("UNAUTHENTICATED", Unauthenticated);
    ("SCOPE_FORBIDDEN", ScopeForbidden); ("VIEW_NOT_FOUND", ViewNotFound);
    ("SNAPSHOT_NOT_READY", SnapshotNotReady); ("METADATA_NOT_READY", MetadataNotReady);
    ("SNAPSHOT_GONE", SnapshotGone); ("PATH_NOT_FOUND", PathNotFound);
    ("NOT_DIRECTORY", NotDirectory); ("UNSUPPORTED_ENTRY", UnsupportedEntry);
    ("LEASE_UNKNOWN", LeaseUnknown); ("LEASE_EXPIRED", LeaseExpired);
    ("CURSOR_INVALID", CursorInvalid); ("CURSOR_STALE", CursorStale);
    ("PROOF_BUDGET_EXCEEDED", ProofBudgetExceeded);
    ("EXPECTED_DIGEST_MISMATCH", DigestMismatch); ("INTEGRITY_ERROR", IntegrityError);
    ("OBJECT_UNAVAILABLE", ObjectUnavailable); ("OBJECT_DIGEST_MISMATCH", DigestMismatch);
    ("RANGE_NOT_SUPPORTED", RangeNotSupported); ("SYMLINK_TRAVERSAL", SymlinkTraversal);
    ("TEMPORARY_UNAVAILABLE", TemporaryUnavailable) ].

Definition from_server (c : string) : SnapshotErrorCode :=
  default Internal (match_str c server_codes).

(** ** Namespace facts *)

Inductive SnapshotNodeKind : Type := KDirectory | KRegular | KExecutable | KSymlink.

Inductive SnapshotNodeIdentity : Type :=
  | Directory (directory_root : string)
  | Regular (size : Z) (content_digest : string)
  | Executable (size : Z) (content_digest : string)
  | Symlink (size : Z) (content_digest : string).

#[export] Instance SnapshotNodeIdentity_eq_dec : EqDecision SnapshotNodeIdentity.
Proof. solve_decision. Defined.

Definition identity_kind (i : SnapshotNodeIdentity) : SnapshotNodeKind :=
  match i with
  | Directory _ => KDirectory
  | Regular _ _ => KRegular
  | Executable _ _ => KExecutable
  | Symlink _ _ => KSymlink
  end.

(** 0o755, 0o644 and 0o777. *)
Definition mode (i : SnapshotNodeIdentity) : Z :=
  match i with
  | Directory _ | Executable _ _ => 493
  | Regular _ _ => 420
  | Symlink _ _ => 511
  end.

Definition content (i : SnapshotNodeIdentity) : option (Z * string) :=
  match i with
  | Directory _ => None
  | Regular s d | Executable s d | Symlink s d => Some (s, d)
  end.

Inductive SnapshotPathState : Type :=
  | Present (i : SnapshotNodeIdentity)
  | AbsentProven.

Record SnapshotDirectoryEntry : Type := mkDirectoryEntry {
  entry_name : string;
  entry_identity : SnapshotNodeIdentity;
}.

Record MetadataProofLimits : Type := mkProofLimits {
  max_directory_pages : Z;
  max_directory_entries : Z;
  max_cached_nodes : Z;
}.

Definition MetadataProofLimits_default : MetadataProofLimits :=
  {| max_directory_pages := 4096; max_directory_entries := 262144;
     max_cached_nodes := 1048576 |}.

(** [content_profile.rs]. *)
Definition OBJECT_CAP : Z := 256 * 1024.
Definition MAX_FILE_SIZE : Z := 8 * 1024 * 1024 * 1024 * 1024.

(** SHA-256 ([ring::digest]): a function from byte strings to 32 bytes. *)
Class Sha256 : Type := {
  sha256 : list Z -> list Z;
  sha256_length : forall b, length (sha256 b) = 32%nat;
  sha256_bytes : forall b, Forall is_byte (sha256 b);
}.

(** The byte strings that occur: SHA-256 tells them apart. Integrity theorems
    hold for every such set that contains what they mention. *)
Class KnownBytes `{Sha256} : Type := {
  occurs : list Z -> Prop;
  occurs_inj : forall a b, occurs a -> occurs b -> sha256 a = sha256 b -> a = b;
}.

(** Two byte strings that are different and have the same SHA-256. *)
Definition collide `{Sha256} (a b : list Z) : Prop := a <> b /\ sha256 a = sha256 b.

(** [SnapshotFile]: one file of the fixed view. *)
Record SnapshotFile : Type := mkFile {
  rel_path : string;
  file_kind : string;
  file_size : Z;
  file_digest : string;
}.

#[export] Instance SnapshotFile_eq_dec : EqDecision SnapshotFile.
Proof. solve_decision. Defined.
