(* ===== verification/Faults.v ===== *)
(** * Faults

    Support for the components whose code can do more than return an error:
    a computation that ends in a client error, in a panic (an indexing
    expression or an [unwrap] on a missing value), or that exhausts the fuel of
    a bounded recursion. The theorems of those components show that the last
    two never happen. Also the stable sort of [slice::sort_by] and the
    validity check of [std::str::from_utf8]. *)

From Stdlib Require Import Sorted.
From S2P Require Import Prelude Types.
Local Open Scope Z_scope.

Inductive fault : Type :=
  | Failed (e : SnapshotError)
  | Panicked
  | OutOfFuel.

Abbreviation Run A := (result fault A).

Definition lift {A} (c : Res A) : Run A := map_err Failed c.

(** Ends in a value or a client error. *)
Definition clean {A} (c : Run A) : Prop :=
  match c with
  | Ok _ | Err (Failed _) => True
  | _ => False
  end.

Lemma clean_bind {A B} (c : Run A) (k : A -> Run B) :
  clean c -> (forall a, c = Ok a -> clean (k a)) -> clean (rbind c k).
Proof. destruct c as [a|[e| |]]; simpl; auto. Qed.

Lemma clean_lift {A} (c : Res A) : clean (lift c).
Proof. by destruct c. Qed.

Lemma clean_reject {A} (b : bool) e (k : Run A) :
  (b = false -> clean k) -> clean (if b then Err (Failed e) else k).
Proof. destruct b; simpl; auto. Qed.

Lemma clean_ok_or {A} (o : option A) e : clean (ok_or o (Failed e)).
Proof. by destruct o. Qed.

Lemma clean_or_panic {A} (o : option A) : is_Some o -> clean (ok_or o Panicked).
Proof. by intros [a ->]. Qed.

Lemma clean_for_each {S X} (f : S -> X -> Run S) (I : S -> Prop) xs s :
  (forall s x, x ∈ xs -> I s -> clean (f s x)) ->
  (forall s x s', x ∈ xs -> I s -> f s x = Ok s' -> I s') ->
  I s -> clean (for_each f s xs).
Proof.
  intros Hc Hs. revert s. induction xs as [|x xs IH]; intros s Hi; simpl; [done|].
  apply clean_bind; [apply Hc; [left|done]|].
  intros s' Hf. apply IH; [| |eapply Hs; eauto; left].
  - intros t y Hy. apply Hc. by right.
  - intros t y t' Hy. apply Hs. by right.
Qed.

(** Every element of a loop that ended well was processed from a good state. *)
Lemma for_each_step {E S X} (f : S -> X -> result E S) (I : S -> Prop) xs s s' x :
  (forall s x s', x ∈ xs -> I s -> f s x = Ok s' -> I s') ->
  I s -> for_each f s xs = Ok s' -> x ∈ xs -> exists s1 s2, I s1 /\ f s1 x = Ok s2.
Proof.
  revert s. induction xs as [|y xs IH]; intros s Hf Hs Hok Hx; [by apply not_elem_of_nil in Hx|].
  cbn [for_each] in Hok. apply rbind_ok in Hok as (s1 & H1 & Hok). apply elem_of_cons in Hx as [->|Hx]; [by exists s, s1|].
  eapply IH; [|eapply Hf; [left|exact Hs|exact H1]|exact Hok|exact Hx]. intros t z t' Hz. apply Hf. by right.
Qed.

#[export] Hint Resolve clean_lift clean_ok_or clean_or_panic : rust.

(** ** Stable sorting *)

Section Sort.
Context {A : Type} (key : A -> string).

Fixpoint sort_insert (x : A) (l : list A) : list A :=
  match l with
  | [] => [x]
  | y :: l => if str_ltb (key y) (key x) then y :: sort_insert x l else x :: y :: l
  end.

(** [slice::sort_by(|a, b| key(a).cmp(&key(b)))]: equal keys keep their order. *)
Definition sort_by (l : list A) : list A := foldr sort_insert [] l.

Lemma sort_insert_perm x l : sort_insert x l ≡ₚ x :: l.
Proof.
  induction l as [|y l IH]; simpl; [done|]. destruct (str_ltb (key y) (key x)); [|done].
  rewrite IH. apply Permutation_swap.
Qed.

Lemma sort_by_perm l : sort_by l ≡ₚ l.
Proof. induction l as [|x l IH]; simpl; [done|]. by rewrite sort_insert_perm, IH. Qed.

Definition key_le (x y : A) : Prop := ~ str_lt (key y) (key x).

Lemma key_le_trans x y z : key_le x y -> key_le y z -> key_le x z.
Proof.
  unfold key_le. intros Hxy Hyz Hzx. destruct (str_lt_total (key y) (key x)) as [?|[E|Hlt]]; [done| |].
  - rewrite <- E in Hzx. done.
  - apply Hyz. by transitivity (key x).
Qed.

Lemma sort_insert_sorted x l : StronglySorted key_le l -> StronglySorted key_le (sort_insert x l).
Proof.
  induction 1 as [|y l Hs IH Hall]; simpl; [by repeat constructor|].
  destruct (str_ltb (key y) (key x)) eqn:Hlt.
  - apply str_ltb_true in Hlt. constructor; [done|]. apply Forall_forall. intros z Hz%list_elem_of_In.
    rewrite sort_insert_perm in Hz. apply elem_of_cons in Hz as [->|Hz].
    + intros Hyx. eapply str_lt_irrefl. by transitivity (key y).
    + rewrite Forall_forall in Hall. by apply Hall, list_elem_of_In.
  - assert (key_le x y) as Hxy.
    { intros Hyx. apply str_ltb_true in Hyx. congruence. }
    constructor; [by constructor|]. constructor; [done|].
    eapply Forall_impl; [|exact Hall]. intros z Hz. by eapply key_le_trans.
Qed.

Lemma sort_by_sorted l : StronglySorted key_le (sort_by l).
Proof. induction l as [|x l IH]; simpl; [constructor|by apply sort_insert_sorted]. Qed.

(** With distinct keys, the keys end up strictly increasing. *)
Lemma sort_by_strict l : NoDup (key <$> l) -> StronglySorted str_lt (key <$> sort_by l).
Proof.
  intros Hnd. rewrite <- (sort_by_perm l) in Hnd. pose proof (sort_by_sorted l) as Hs.
  induction Hs as [|x k Hs IH Hall]; simpl in *; [constructor|].
  apply list.NoDup_cons in Hnd as [Hx Hnd]. constructor; [auto|].
  apply Forall_forall. intros y (z & -> & Hz)%list_elem_of_In%list_elem_of_fmap.
  rewrite Forall_forall in Hall. pose proof (Hall z) as Hle. rewrite <- list_elem_of_In in Hle.
  destruct (str_lt_total (key x) (key z)) as [?|[E|?]]; [done| |by destruct (Hle Hz)].
  destruct Hx. rewrite E. by apply list_elem_of_fmap_2.
Qed.
End Sort.

(** ** Little-endian integers: [from_le_bytes] *)

Definition from_le (b : list Z) : Z := foldr (fun x acc => x + 256 * acc) 0 b.

(** ** UTF-8 *)

Definition continuation (l : list Z) : option (list Z) :=
  match l with
  | b :: l => if is_continuation b then Some l else None
  | [] => None
  end.

(** [core::str::validations]: the well-formed byte sequences of one scalar
    value; the second byte of a longer sequence has a narrower range after
    E0, ED, F0 and F4. *)
Definition scalar (l : list Z) : option (list Z) :=
  match l with
  | [] => None
  | b :: l =>
      if in_range 0 b 127 then Some l
      else if in_range 194 b 223 then continuation l
      else match l with
           | [] => None
           | c :: l =>
               if in_range 224 b 239 then
                 if (if b =? 224 then in_range 160 c 191
                     else if b =? 237 then in_range 128 c 159 else in_range 128 c 191)
                 then continuation l else None
               else if in_range 240 b 244 then
                 if (if b =? 240 then in_range 144 c 191
                     else if b =? 244 then in_range 128 c 143 else in_range 128 c 191)
                 then l ← continuation l; continuation l else None
               else None
           end
  end.

Fixpoint utf8_valid_in (fuel : nat) (l : list Z) : bool :=
  match l, fuel with
  | [], _ => true
  | _, O => false
  | _, S fuel => match scalar l with Some l => utf8_valid_in fuel l | None => false end
  end.

(** One scalar value consumes at least one byte. *)
Definition utf8_valid (l : list Z) : bool := utf8_valid_in (length l) l.

Definition from_utf8 (l : list Z) : option string :=
  if utf8_valid l then Some (of_bytes l) else None.

(** [OsStr::to_str] succeeds. *)
Definition is_utf8 (s : string) : bool := utf8_valid (as_bytes s).
