(* ===== verification/Text.v ===== *)
(** * Text

    The textual forms every MST/2 message is made of: decimal counters
    ([frames::parse_count], [auth::decimal], [resolve_wire::counter]), SHA-256
    identities ([frames::parse_digest], [frames::hex32]), padded base64
    ([frames::b64_decode]), percent-encoded path segments ([lease_wire::url],
    [frames::urlencode]) and scope paths ([auth::validate_scope]). *)

From S2P Require Import Prelude Types.
Local Open Scope string_scope.
Local Open Scope list_scope.
Local Open Scope Z_scope.

(** ** Decimal counters *)
Module Counters.

(** [str::parse::<u64>]: digits accumulated with overflow checks. *)
Fixpoint parse_digits (acc : Z) (l : list Z) : option Z :=
  match l with
  | [] => Some acc
  | b :: l =>
      if is_ascii_digit b then
        m ← checked_mul acc 10; a ← checked_add m (b - 48); parse_digits a l
      else None
  end.

Definition parse_u64 (s : string) : option Z :=
  match as_bytes s with
  | [] => None
  | b :: l =>
      if (b =? 43) && negb (bool_decide (l = [])) then parse_digits 0 l
      else parse_digits 0 (b :: l)
  end.

(** [u64::to_string]; twenty digits are enough for every [u64]. *)
Fixpoint dec_bytes (fuel : nat) (n : Z) : list Z :=
  match fuel with
  | O => []
  | S fuel => if n <? 10 then [48 + n] else dec_bytes fuel (n / 10) ++ [48 + n mod 10]
  end.

Definition u64_to_string (n : Z) : string := of_bytes (dec_bytes 20 n).

Definition canonical_decimal (s : string) : bool :=
  negb (is_empty s || negb (forallb is_ascii_digit (as_bytes s))
        || ((1 <? str_len s) && starts_with "0" s)).

(** [frames::parse_count]. *)
Definition parse_count (s field : string) : Res Z :=
  reject? is_empty s || negb (forallb is_ascii_digit (as_bytes s))
          || ((1 <? str_len s) && starts_with "0" s)
    with SnapshotError_new ScopeInvalid (field ++ " must be a decimal string") in
  let? value := ok_or (parse_u64 s)
    (SnapshotError_new LimitExceeded (field ++ " exceeds the protocol counter limit")) in
  reject? i64_max <? value
    with SnapshotError_new LimitExceeded (field ++ " exceeds the protocol counter limit") in
  Ok value.

(** [auth::decimal]. *)
Definition decimal (value field : string) : Res Z :=
  reject? is_empty value || negb (forallb is_ascii_digit (as_bytes value))
          || ((1 <? str_len value) && starts_with "0" value)
    with SnapshotError_new ScopeForbidden ("invalid " ++ field ++ " in resolve") in
  let? parsed := ok_or (parse_u64 value)
    (SnapshotError_new ScopeForbidden ("out-of-range " ++ field ++ " in resolve")) in
  reject? i64_max <? parsed
    with SnapshotError_new LimitExceeded (field ++ " exceeds the protocol counter limit") in
  Ok parsed.

(** [resolve_wire::invalid]. *)
Definition resolve_invalid : SnapshotError :=
  SnapshotError_new IntegrityError
    "resolve response violates its selected contract or requested view".

(** [resolve_wire::counter]. *)
Definition counter (value : string) : Res unit :=
  reject? is_empty value || ((1 <? str_len value) && starts_with "0" value)
          || negb (forallb is_ascii_digit (as_bytes value))
          || match parse_u64 value with
             | Some n => i64_max <? n
             | None => true
             end
    with resolve_invalid in
  Ok tt.

(** *** Digits and values *)

Definition value_of (acc : Z) (l : list Z) : Z := fold_left (fun a b => a * 10 + (b - 48)) l acc.

Definition is_digit (b : Z) : Prop := 48 <= b <= 57.

Lemma all_digits l : forallb is_ascii_digit l = true <-> Forall is_digit l.
Proof.
  rewrite forallb_Forall. unfold is_ascii_digit, is_digit. setoid_rewrite in_range_true. done.
Qed.

Lemma value_of_app acc l k : value_of acc (l ++ k) = value_of (value_of acc l) k.
Proof. apply fold_left_app. Qed.

Lemma value_of_le acc l : 0 <= acc -> Forall is_digit l -> acc <= value_of acc l.
Proof.
  intros Hacc Hl; revert acc Hacc; induction Hl as [|b l Hb Hl IH]; intros acc Hacc; simpl; [lia|].
  unfold is_digit in Hb. specialize (IH (acc * 10 + (b - 48))). lia.
Qed.

Lemma parse_digits_spec acc l n :
  0 <= acc <= u64_max -> Forall is_digit l ->
  parse_digits acc l = Some n <-> n = value_of acc l /\ value_of acc l <= u64_max.
Proof.
  intros Hacc Hl; revert acc Hacc; induction Hl as [|b l Hb Hl IH]; intros acc Hacc; simpl.
  { split; [intros [= ->]; split; [done|lia]|intros [-> _]; done]. }
  assert (Hd : is_ascii_digit b = true) by (apply in_range_true; exact Hb). rewrite Hd.
  unfold is_digit in Hb.
  pose proof (value_of_le (acc * 10 + (b - 48)) l ltac:(lia) Hl) as Hle.
  unfold checked_mul, checked_add, value_of in *; simpl.
  destruct (Z.leb_spec (acc * 10) u64_max); simpl.
  2: { split; [done|lia]. }
  destruct (Z.leb_spec (acc * 10 + (b - 48)) u64_max); simpl.
  2: { split; [done|lia]. }
  apply IH. lia.
Qed.

Lemma parse_u64_digits s :
  Forall is_digit (as_bytes s) -> s <> "" ->
  parse_u64 s = parse_digits 0 (as_bytes s).
Proof.
  intros Hd Hs. unfold parse_u64. destruct (as_bytes s) as [|b l] eqn:E.
  { destruct s; [done|discriminate]. }
  inversion Hd as [|? ? Hb]; subst. unfold is_digit in Hb.
  destruct (Z.eqb_spec b 43); [lia|done].
Qed.

(** *** Canonical decimals *)

(** No leading zero, except for the single digit [0]. *)
Definition no_leading_zero (l : list Z) : Prop :=
  match l with
  | [] => False
  | [_] => True
  | b :: _ => b <> 48
  end.

Lemma dec_bytes_digits fuel n : 0 <= n -> Forall is_digit (dec_bytes fuel n).
Proof.
  revert n; induction fuel as [|fuel IH]; intros n Hn; simpl; [constructor|].
  destruct (Z.ltb_spec n 10).
  - constructor; [unfold is_digit; lia|constructor].
  - apply Forall_app; split; [apply IH, Z.div_pos; lia|].
    pose proof (Z.mod_pos_bound n 10). constructor; [unfold is_digit; lia|constructor].
Qed.

Lemma dec_bytes_value fuel n : 0 <= n < 10 ^ Z.of_nat fuel -> value_of 0 (dec_bytes fuel n) = n.
Proof.
  revert n; induction fuel as [|fuel IH]; intros n Hn; [simpl in Hn; simpl; lia|].
  cbn [dec_bytes]. destruct (Z.ltb_spec n 10).
  - unfold value_of; simpl. lia.
  - rewrite value_of_app, IH.
    + unfold value_of; cbn [fold_left]. pose proof (Z.div_mod n 10). lia.
    + split; [apply Z.div_pos; lia|]. apply Z.div_lt_upper_bound; [lia|].
      rewrite Nat2Z.inj_succ, Z.pow_succ_r in Hn by lia. lia.
Qed.

Lemma value_of_snoc l b : value_of 0 (l ++ [b]) = value_of 0 l * 10 + (b - 48).
Proof. by rewrite value_of_app. Qed.

Lemma value_of_pos l : Forall is_digit l -> no_leading_zero l -> (1 < length l)%nat -> 1 <= value_of 0 l.
Proof.
  destruct l as [|b [|c l]]; simpl; [lia..|]. intros Hl Hz _.
  inversion Hl as [|? ? Hb Hl']; subst. unfold is_digit in Hb.
  etransitivity; [|apply (value_of_le (b - 48) (c :: l)); [lia|done]]. lia.
Qed.

Lemma no_leading_zero_prefix l b : l <> [] -> no_leading_zero (l ++ [b]) -> no_leading_zero l.
Proof. destruct l as [|x [|y l]]; simpl; naive_solver. Qed.

(** A canonical digit string is the decimal rendering of its value. *)
Lemma dec_bytes_of_value fuel l :
  Forall is_digit l -> no_leading_zero l -> (length l <= fuel)%nat ->
  dec_bytes fuel (value_of 0 l) = l.
Proof.
  revert fuel; induction l as [|b l IH] using rev_ind; intros fuel Hd Hz Hlen; [done|].
  apply Forall_app in Hd as [Hd Hb]. rewrite Forall_singleton in Hb. unfold is_digit in Hb.
  rewrite length_app in Hlen; simpl in Hlen. destruct fuel as [|fuel]; [lia|].
  rewrite value_of_snoc. cbn [dec_bytes]. destruct l as [|x l'].
  { change (value_of 0 []) with 0. replace (0 * 10 + (b - 48)) with (b - 48) by lia.
    destruct (Z.ltb_spec (b - 48) 10); [|lia]. simpl. f_equal. lia. }
  set (l := x :: l') in *.
  assert (Hz' : no_leading_zero l) by (apply (no_leading_zero_prefix l b); done).
  assert (1 <= value_of 0 l \/ value_of 0 l = 0) as Hv.
  { pose proof (value_of_le 0 l ltac:(lia) Hd). lia. }
  destruct Hv as [Hv|Hv].
  - destruct (Z.ltb_spec (value_of 0 l * 10 + (b - 48)) 10); [lia|].
    replace ((value_of 0 l * 10 + (b - 48)) / 10) with (value_of 0 l)
      by (apply (Z.div_unique _ 10 _ (b - 48)); lia).
    replace ((value_of 0 l * 10 + (b - 48)) mod 10) with (b - 48)
      by (apply (Z.mod_unique _ 10 (value_of 0 l)); lia).
    rewrite IH by (done || lia). do 2 f_equal. lia.
  - exfalso. destruct (decide (length l = 1%nat)) as [H1|H1].
    + subst l. destruct l'; [|simpl in H1; lia]. simpl in Hz.
      inversion Hd as [|? ? Hx]; subst. unfold is_digit in Hx. cbn in Hv. lia.
    + pose proof (value_of_pos l Hd Hz' ltac:(subst l; simpl in *; lia)). lia.
Qed.

Lemma value_of_bound l : Forall is_digit l -> no_leading_zero l ->
  value_of 0 l <= u64_max -> (length l <= 20)%nat.
Proof.
  intros Hd Hz Hv. destruct (decide (length l <= 20)%nat) as [|Hn]; [done|exfalso].
  assert (Hge : forall k, Forall is_digit k -> forall a, 0 <= a -> a * 10 ^ Z.of_nat (length k) <= value_of a k).
  { clear. induction 1 as [|b k Hb Hk IH]; intros a Ha; [simpl; lia|].
    cbn [length]. rewrite Nat2Z.inj_succ, Z.pow_succ_r by lia.
    unfold is_digit in Hb. specialize (IH (a * 10 + (b - 48)) ltac:(lia)).
    unfold value_of in *; cbn [fold_left].
    assert (0 <= 10 ^ Z.of_nat (length k)) by (apply Z.pow_nonneg; lia). nia. }
  destruct l as [|b l]; [done|]. inversion Hd as [|? ? Hb Hl]; subst. unfold is_digit in Hb.
  assert (b <> 48) by (destruct l; simpl in *; [lia|done]).
  specialize (Hge l Hl (b - 48) ltac:(lia)). change (value_of 0 (b :: l)) with (value_of (b - 48) l) in Hv.
  assert (10 ^ 20 <= 10 ^ Z.of_nat (length l)) by (apply Z.pow_le_mono_r; simpl in Hn; lia).
  unfold u64_max in Hv. assert (2 ^ 64 < 10 ^ 20) by reflexivity. nia.
Qed.

Lemma u64_to_string_bytes n : 0 <= n -> as_bytes (u64_to_string n) = dec_bytes 20 n.
Proof.
  intros Hn. apply as_bytes_of_bytes. eapply Forall_impl; [|by apply dec_bytes_digits].
  unfold is_digit, is_byte. intros; lia.
Qed.

Lemma dec_bytes_no_leading_zero fuel n :
  (0 < fuel)%nat -> 0 <= n < 10 ^ Z.of_nat fuel -> no_leading_zero (dec_bytes fuel n).
Proof.
  revert n; induction fuel as [|fuel IH]; intros n Hf Hn; [lia|].
  cbn [dec_bytes]. destruct (Z.ltb_spec n 10) as [|Hge]; [done|].
  destruct (decide (fuel = 0%nat)) as [->|Hf']; [simpl in Hn; lia|].
  assert (Hq : 0 <= n / 10 < 10 ^ Z.of_nat fuel).
  { split; [apply Z.div_pos; lia|]. apply Z.div_lt_upper_bound; [lia|].
    rewrite Nat2Z.inj_succ, Z.pow_succ_r in Hn by lia. lia. }
  specialize (IH _ ltac:(lia) Hq). pose proof (dec_bytes_value fuel _ Hq) as Hv.
  destruct (dec_bytes fuel (n / 10)) as [|b [|c l]]; simpl in *; [done| |done].
  intros ->. cbn in Hv. pose proof (Z.div_le_lower_bound n 10 1). lia.
Qed.

#[local] Arguments dec_bytes : simpl never.

(** The guard shared by the three counter parsers accepts exactly the
    canonical digit strings. *)
Lemma guard_spec s :
  is_empty s || negb (forallb is_ascii_digit (as_bytes s))
    || ((1 <? str_len s) && starts_with "0" s) = false
  <-> s <> "" /\ Forall is_digit (as_bytes s) /\ no_leading_zero (as_bytes s).
Proof.
  rewrite <- all_digits, !orb_false_iff, negb_false_iff, andb_false_iff, Z.ltb_ge.
  unfold is_empty. rewrite String.eqb_neq, str_len_as_bytes, length_as_bytes.
  destruct s as [|c [|d s]].
  - split; [intros [[? _] _]|intros [? _]]; congruence.
  - split; [intros [[? ?] _]; split_and!; done|]. intros (? & ? & _). split_and!; try done. left. simpl. lia.
  - assert (Hc : starts_with "0" (String c (String d s)) = false <-> byte_of c <> 48).
    { unfold starts_with; cbn [strip_prefix]. destruct (Ascii.eqb_spec "0" c) as [<-|Hne]; [done|].
      split; [|by intros]. intros _ Hb. apply Hne. rewrite <- (ascii_of_byte_of c), Hb. done. }
    rewrite Hc. cbn [as_bytes no_leading_zero String.length]. split.
    + intros [[? ?] [?|?]]; [lia|done].
    + intros (? & ? & ?). auto.
Qed.

Lemma canonical_parse s n :
  s <> "" -> Forall is_digit (as_bytes s) -> no_leading_zero (as_bytes s) ->
  parse_u64 s = Some n <-> s = u64_to_string n /\ is_u64 n.
Proof.
  intros Hs Hd Hz. rewrite parse_u64_digits by done.
  rewrite parse_digits_spec by (unfold u64_max; done || lia). split.
  - intros [-> Hv]. pose proof (value_of_le 0 _ ltac:(lia) Hd). split; [|done].
    apply (inj as_bytes). rewrite u64_to_string_bytes by done.
    symmetry. apply dec_bytes_of_value; try done. by apply value_of_bound.
  - intros [-> Hn]. rewrite u64_to_string_bytes by apply Hn.
    unfold is_u64, u64_max in *. rewrite dec_bytes_value by lia. lia.
Qed.

Lemma u64_to_string_guard n : is_u64 n ->
  u64_to_string n <> "" /\ Forall is_digit (as_bytes (u64_to_string n)) /\
  no_leading_zero (as_bytes (u64_to_string n)).
Proof.
  intros Hn. pose proof (u64_to_string_bytes n (proj1 Hn)) as Hb. rewrite Hb.
  assert (Hz : no_leading_zero (dec_bytes 20 n)).
  { apply dec_bytes_no_leading_zero; unfold is_u64, u64_max in Hn; lia. }
  split_and!; [|apply dec_bytes_digits, Hn|done].
  intros He. rewrite He in Hb. cbn [as_bytes] in Hb. by rewrite <- Hb in Hz.
Qed.

Lemma guarded_parse s n :
  is_empty s || negb (forallb is_ascii_digit (as_bytes s))
    || ((1 <? str_len s) && starts_with "0" s) = false /\ parse_u64 s = Some n /\ n <= i64_max
  <-> s = u64_to_string n /\ 0 <= n <= i64_max.
Proof.
  rewrite guard_spec. split.
  - intros ((Hs & Hd & Hz) & Hp & Hn). apply canonical_parse in Hp as [? ?]; [|done..].
    unfold is_u64 in *. naive_solver.
  - intros [-> Hn]. assert (is_u64 n) as Hu by (unfold is_u64, u64_max, i64_max in *; lia).
    destruct (u64_to_string_guard n Hu) as (Hs & Hd & Hz).
    split_and!; try done; [|lia]. by apply canonical_parse.
Qed.

Lemma parse_count_ok s field n :
  parse_count s field = Ok n <-> s = u64_to_string n /\ 0 <= n <= i64_max.
Proof.
  rewrite <- guarded_parse. unfold parse_count. rewrite reject_ok, rbind_ok.
  setoid_rewrite ok_or_ok. setoid_rewrite reject_ok. setoid_rewrite Z.ltb_ge.
  split; [intros (Hg & v & Hp & Hv & [= ->]); done|naive_solver].
Qed.

Lemma decimal_ok s field n :
  decimal s field = Ok n <-> s = u64_to_string n /\ 0 <= n <= i64_max.
Proof.
  rewrite <- guarded_parse. unfold decimal. rewrite reject_ok, rbind_ok.
  setoid_rewrite ok_or_ok. setoid_rewrite reject_ok. setoid_rewrite Z.ltb_ge.
  split; [intros (Hg & v & Hp & Hv & [= ->]); done|naive_solver].
Qed.

Lemma counter_ok s :
  counter s = Ok tt <-> exists n, s = u64_to_string n /\ 0 <= n <= i64_max.
Proof.
  setoid_rewrite <- guarded_parse. unfold counter. rewrite reject_ok, !orb_false_iff.
  split.
  - intros [[[[? ?] ?] Hp] _]. destruct (parse_u64 s) as [n|]; [|done]. apply Z.ltb_ge in Hp.
    exists n. rewrite !orb_false_iff. done.
  - intros (n & Hg & -> & Hn). rewrite !orb_false_iff in Hg. rewrite Z.ltb_ge. naive_solver.
Qed.

(** Every counter of the protocol has exactly one accepted spelling, the
    canonical decimal of a value that fits [i64], and the three parsers of the
    client ([parse_count], [decimal], [counter]) accept the same strings. *)
Lemma counters_canonical s field n :
  (parse_count s field = Ok n <-> s = u64_to_string n /\ 0 <= n <= i64_max) /\
  (decimal s field = Ok n <-> parse_count s field = Ok n) /\
  (counter s = Ok tt <-> is_ok (parse_count s field) = true).
Proof.
  split_and!; [apply parse_count_ok|by rewrite decimal_ok, parse_count_ok|].
  rewrite counter_ok. setoid_rewrite <- (parse_count_ok s field).
  destruct (parse_count s field); simpl; naive_solver.
Qed.
End Counters.

(** ** SHA-256 identities *)
Module Digests.

(** One byte as [{x:02x}]. *)
Definition hex_digit (n : Z) : Z := if n <? 10 then 48 + n else 87 + n.
Definition hex_byte (x : Z) : list Z := [hex_digit (x / 16); hex_digit (x mod 16)].

(** [frames::hex32]. *)
Definition hex32 (b : list Z) : string := of_bytes (b ≫= hex_byte).

Definition is_lower_hex (b : Z) : bool := is_ascii_digit b || in_range 97 b 102.

(** The [hex] crate, as this client relies on it: decoding a lowercase
    rendering gives the bytes back, and encoding is that rendering. *)
Class HexCrate : Type := {
  hex_decode : string -> option (list Z);
  hex_encode : list Z -> string;
  hex_decode_lower : forall b, Forall is_byte b -> hex_decode (hex32 b) = Some b;
  hex_encode_lower : forall b, hex_encode b = hex32 b;
}.

(** A canonical digest: [sha256:] and 64 lowercase hex digits
    ([directory::digest_valid]). *)
Definition digest_valid (digest : string) : bool :=
  match strip_prefix "sha256:" digest with
  | Some hex => (str_len hex =? 64) && forallb is_lower_hex (as_bytes hex)
  | None => false
  end.

(** [directory::directory_digest_valid]: a digest that is not all zeroes. *)
Definition directory_digest_valid (digest : string) : bool :=
  digest_valid digest
    && existsb (fun b => negb (b =? 48)) (drop 7 (as_bytes digest)).

Section Parse.
Context `{HexCrate}.

(** [frames::parse_digest]. *)
Definition parse_digest (s : string) : Res (list Z) :=
  let? hex := ok_or (strip_prefix "sha256:" s)
    (SnapshotError_new DigestMismatch "digest must start with sha256:") in
  reject? negb (str_len hex =? 64) || negb (forallb is_lower_hex (as_bytes hex))
    with SnapshotError_new DigestMismatch
           "digest must contain exactly 64 lowercase hex digits" in
  match hex_decode hex with
  | Some out => if (zlen out =? 32) then Ok out
                else Err (SnapshotError_new DigestMismatch "bad digest hex")
  | None => Err (SnapshotError_new DigestMismatch "bad digest hex")
  end.
End Parse.

(** The printed form used everywhere: [format!("sha256:{}", hex::encode(d))]. *)
Definition digest_string (d : list Z) : string := "sha256:" ++ hex32 d.

(** *** Facts *)

Definition unhex (b : Z) : Z := if b <? 58 then b - 48 else b - 87.

Lemma hex_digit_range n : 0 <= n < 16 -> is_lower_hex (hex_digit n) = true /\ unhex (hex_digit n) = n.
Proof.
  intros Hn. unfold is_lower_hex, is_ascii_digit, in_range, hex_digit, unhex.
  destruct (Z.ltb_spec n 10); destruct (Z.ltb_spec (48 + n) 58); destruct (Z.ltb_spec (87 + n) 58); lia.
Qed.

Lemma hex_digit_unhex b : is_lower_hex b = true -> hex_digit (unhex b) = b /\ 0 <= unhex b < 16.
Proof.
  unfold is_lower_hex, is_ascii_digit, in_range, hex_digit, unhex.
  intros Hb. destruct (Z.ltb_spec b 58).
  - destruct (Z.ltb_spec (b - 48) 10); lia.
  - destruct (Z.ltb_spec (b - 87) 10); lia.
Qed.

Lemma hex_byte_lower x : is_byte x -> Forall (fun b => is_lower_hex b = true) (hex_byte x).
Proof.
  intros [? ?]. pose proof (Z.mod_pos_bound x 16 ltac:(lia)).
  assert (0 <= x / 16 < 16) by (split; [apply Z.div_pos|apply Z.div_lt_upper_bound]; lia).
  repeat constructor; apply hex_digit_range; lia.
Qed.

Lemma hex_bytes_lower d : Forall is_byte d -> Forall (fun b => is_lower_hex b = true) (d ≫= hex_byte).
Proof. induction 1; rewrite ?bind_cons; [done|]. apply Forall_app; auto using hex_byte_lower. Qed.

Lemma lower_hex_byte b : is_lower_hex b = true -> is_byte b.
Proof. unfold is_lower_hex, is_ascii_digit, in_range, is_byte. lia. Qed.

Lemma as_bytes_hex32 d : Forall is_byte d -> as_bytes (hex32 d) = d ≫= hex_byte.
Proof.
  intros Hd. apply as_bytes_of_bytes.
  eapply Forall_impl; [|by apply hex_bytes_lower]. apply lower_hex_byte.
Qed.

Lemma length_hex_bytes (d : list Z) : length (d ≫= hex_byte) = (2 * length d)%nat.
Proof. induction d; rewrite ?bind_cons, ?length_app; simpl in *; lia. Qed.

(** Every even-length lowercase hex string is the rendering of some bytes. *)
Lemma lower_hex_rendered n l :
  length l = (2 * n)%nat -> Forall (fun b => is_lower_hex b = true) l ->
  exists d, length d = n /\ Forall is_byte d /\ d ≫= hex_byte = l.
Proof.
  revert l; induction n as [|n IH]; intros l Hlen Hl.
  { destruct l; [|simpl in Hlen; lia]. exists []. done. }
  destruct l as [|x [|y l]]; simpl in Hlen; [lia..|].
  inversion Hl as [|? ? Hx Hl']; subst. inversion Hl' as [|? ? Hy Hl'']; subst.
  destruct (IH l ltac:(lia) Hl'') as (d & ? & Hd & <-).
  destruct (hex_digit_unhex x Hx) as [Ex ?], (hex_digit_unhex y Hy) as [Ey ?].
  exists (unhex x * 16 + unhex y :: d). split_and!; [simpl; lia| |].
  { constructor; [unfold is_byte; lia|done]. }
  rewrite bind_cons. unfold hex_byte at 1. rewrite Z.div_add_l, (Z.div_small (unhex y)), Z.add_0_r by lia.
  rewrite Z.add_comm, Z.mod_add, Z.mod_small by lia. by rewrite Ex, Ey.
Qed.

Section Facts.
Context `{HexCrate}.

(** Digest identities round-trip: parsing accepts exactly the canonical
    [sha256:] rendering of 32 bytes and returns those bytes. *)
Lemma parse_digest_ok s d :
  parse_digest s = Ok d <->
  s = digest_string d /\ length d = 32%nat /\ Forall is_byte d.
Proof.
  unfold parse_digest, digest_string. split.
  - intros Hp. inv_ok. apply strip_prefix_some in H0. bools.
    match goal with Hg : _ = _ /\ forallb _ _ = _ |- _ => destruct Hg as [Hlen Hhex] end.
    rewrite forallb_Forall in Hhex. rewrite str_len_as_bytes in Hlen.
    destruct (lower_hex_rendered 32 (as_bytes x)) as (d' & Hn & Hd & Hr); [lia|done|].
    assert (x = hex32 d') as -> by (by apply (inj as_bytes); rewrite as_bytes_hex32).
    rewrite hex_decode_lower in Hp by done.
    unfold zlen in Hp. rewrite Hn in Hp. simpl in Hp. inv_ok. subst. done.
  - intros (-> & Hlen & Hd). rewrite (proj2 (strip_prefix_some _ _ _) eq_refl). cbn [ok_or rbind].
    rewrite str_len_as_bytes, as_bytes_hex32, length_hex_bytes, Hlen by done.
    rewrite (proj2 (forallb_Forall _ _) (hex_bytes_lower d Hd)).
    rewrite hex_decode_lower by done. unfold zlen. rewrite Hlen. done.
Qed.

Lemma parse_digest_inj s t d : parse_digest s = Ok d -> parse_digest t = Ok d -> s = t.
Proof. intros [-> _]%parse_digest_ok [-> _]%parse_digest_ok. done. Qed.

Lemma hex32_inj a b : Forall is_byte a -> Forall is_byte b -> hex32 a = hex32 b -> a = b.
Proof using All. intros Ha%hex_decode_lower Hb%hex_decode_lower He. congruence. Qed.

Lemma digest_string_inj a b : Forall is_byte a -> Forall is_byte b -> digest_string a = digest_string b -> a = b.
Proof using All. intros Ha Hb [= He]. by apply hex32_inj. Qed.

Lemma digest_valid_parse s : digest_valid s = is_ok (parse_digest s).
Proof.
  destruct (digest_valid s) eqn:Hv.
  - unfold digest_valid in Hv. destruct (strip_prefix "sha256:" s) as [hex|] eqn:Hs; [|done].
    apply strip_prefix_some in Hs as ->. bools. destruct Hv as [Hlen Hhex].
    rewrite forallb_Forall in Hhex. rewrite str_len_as_bytes in Hlen.
    destruct (lower_hex_rendered 32 (as_bytes hex)) as (d & Hn & Hd & Hr); [lia|done|].
    assert (hex = hex32 d) as -> by (by apply (inj as_bytes); rewrite as_bytes_hex32).
    by rewrite (proj2 (parse_digest_ok _ d)).
  - destruct (parse_digest s) as [d|] eqn:Hp; [|done].
    apply parse_digest_ok in Hp as (-> & Hlen & Hd). unfold digest_valid, digest_string in Hv.
    rewrite (proj2 (strip_prefix_some _ _ _) eq_refl) in Hv.
    rewrite str_len_as_bytes, as_bytes_hex32, length_hex_bytes, Hlen in Hv by done.
    by rewrite (proj2 (forallb_Forall _ _) (hex_bytes_lower d Hd)) in Hv.
Qed.
End Facts.
End Digests.

(** ** Padded base64 *)
Module Base64.

(** The closure [dec] of [frames::b64_decode]. *)
Definition dec (c : Z) : option Z :=
  if in_range 65 c 90 then Some (c - 65)
  else if in_range 97 c 122 then Some (c - 97 + 26)
  else if in_range 48 c 57 then Some (c - 48 + 52)
  else if c =? 43 then Some 62
  else if c =? 47 then Some 63
  else None.

Definition invalid : SnapshotError :=
  SnapshotError_new IntegrityError "invalid canonical padded base64".

(** The group loop; [final] is [index + 1 == groups.len()]. *)
Fixpoint b64_groups (l : list Z) : Res (list Z) :=
  match l with
  | c0 :: c1 :: c2 :: c3 :: rest =>
      let? a := ok_or (dec c0) invalid in
      let? b := ok_or (dec c1) invalid in
      let final := bool_decide (rest = []) in
      let x := Z.lor (wrap8 (Z.shiftl a 2)) (Z.shiftr b 4) in
      if c2 =? 61 then
        reject? negb final || negb (c3 =? 61) || negb (Z.land b 15 =? 0) with invalid in
        let? out := b64_groups rest in Ok (x :: out)
      else
        let? c := ok_or (dec c2) invalid in
        let y := Z.lor (wrap8 (Z.shiftl (Z.land b 15) 4)) (Z.shiftr c 2) in
        if c3 =? 61 then
          reject? negb final || negb (Z.land c 3 =? 0) with invalid in
          let? out := b64_groups rest in Ok (x :: y :: out)
        else
          let? d := ok_or (dec c3) invalid in
          let z := Z.lor (wrap8 (Z.shiftl (Z.land c 3) 6)) d in
          let? out := b64_groups rest in Ok (x :: y :: z :: out)
  | _ => Ok []
  end.

(** [frames::b64_decode]. *)
Definition b64_decode (s : string) : Res (list Z) :=
  reject? negb (str_len s mod 4 =? 0) with invalid in
  b64_groups (as_bytes s).

(** The reference encoder of RFC 4648, section 4. *)
Definition enc (v : Z) : Z :=
  if v <? 26 then 65 + v else if v <? 52 then 71 + v else if v <? 62 then v - 4
  else if v =? 62 then 43 else 47.

Fixpoint b64_encode (l : list Z) : list Z :=
  match l with
  | [] => []
  | [x] => [enc (x / 4); enc (x mod 4 * 16); 61; 61]
  | [x; y] => [enc (x / 4); enc (x mod 4 * 16 + y / 16); enc (y mod 16 * 4); 61]
  | x :: y :: z :: l =>
      enc (x / 4) :: enc (x mod 4 * 16 + y / 16) :: enc (y mod 16 * 4 + z / 64)
        :: enc (z mod 64) :: b64_encode l
  end.

(** *** Sextets *)

Lemma dec_enc v : 0 <= v < 64 -> dec (enc v) = Some v.
Proof.
  intros Hv. assert (Hall : all_below 64 (fun v => bool_decide (dec (enc v) = Some v)) = true)
    by (vm_compute; done).
  apply (all_below_spec _ _ v) in Hall; [|lia]. by apply bool_decide_eq_true in Hall.
Qed.

Lemma enc_not_pad v : enc v <> 61 \/ v < 0 \/ 64 <= v.
Proof.
  unfold enc. destruct (Z.ltb_spec v 26), (Z.ltb_spec v 52), (Z.ltb_spec v 62), (Z.eqb_spec v 62); lia.
Qed.

Lemma dec_some c v : dec c = Some v -> c = enc v /\ 0 <= v < 64.
Proof.
  unfold dec, enc, in_range. intros Hd.
  repeat case_match; simplify_eq; try lia; bools.
  all: repeat match goal with |- context [?a <? ?b] => destruct (Z.ltb_spec a b) end;
    repeat match goal with |- context [?a =? ?b] => destruct (Z.eqb_spec a b) end; lia.
Qed.

Lemma enc_byte v : 0 <= v < 64 -> is_byte (enc v).
Proof.
  intros. unfold enc, is_byte.
  destruct (Z.ltb_spec v 26), (Z.ltb_spec v 52), (Z.ltb_spec v 62), (Z.eqb_spec v 62); lia.
Qed.

Lemma low4 b : Z.land b 15 = b mod 16.
Proof. apply (land_low 4). lia. Qed.
Lemma low2 b : Z.land b 3 = b mod 4.
Proof. apply (land_low 2). lia. Qed.

(** The three output bytes, as arithmetic on sextets. *)
Lemma out1 a b : 0 <= a < 64 -> 0 <= b < 64 ->
  Z.lor (wrap8 (Z.shiftl a 2)) (Z.shiftr b 4) = a * 4 + b / 16.
Proof.
  intros. unfold wrap8. rewrite Z.shiftr_div_pow2 by dlia. change (2 ^ 4) with 16.
  rewrite Z.mod_small by (rewrite ?Z.shiftl_mul_pow2; dlia). by apply (lor_pack 2 4); dlia.
Qed.

Lemma out2 b c : 0 <= b < 64 -> 0 <= c < 64 ->
  Z.lor (wrap8 (Z.shiftl (Z.land b 15) 4)) (Z.shiftr c 2) = b mod 16 * 16 + c / 4.
Proof.
  intros. unfold wrap8. rewrite low4, Z.shiftr_div_pow2 by dlia. change (2 ^ 2) with 4.
  rewrite Z.mod_small by (rewrite ?Z.shiftl_mul_pow2; dlia).
  by apply (lor_pack 4 16); dlia.
Qed.

Lemma out3 c d : 0 <= c < 64 -> 0 <= d < 64 ->
  Z.lor (wrap8 (Z.shiftl (Z.land c 3) 6)) d = c mod 4 * 64 + d.
Proof.
  intros. unfold wrap8. rewrite low2.
  rewrite Z.mod_small by (rewrite ?Z.shiftl_mul_pow2; dlia). by apply (lor_pack 6 64); dlia.
Qed.


(** *** Canonicity *)

(** Groups of four characters, the loop's induction scheme. *)
Lemma groups_ind (P : list Z -> Prop) :
  (forall l, (length l < 4)%nat -> P l) ->
  (forall c0 c1 c2 c3 l, P l -> P (c0 :: c1 :: c2 :: c3 :: l)) ->
  forall l, P l.
Proof.
  intros H0 H4 l. remember (length l) as n eqn:Hn. revert l Hn.
  induction n as [n IH] using lt_wf_ind; intros l ->.
  destruct l as [|c0 [|c1 [|c2 [|c3 l]]]]; [apply H0; simpl; lia..|].
  apply H4. eapply IH; [|done]. simpl. lia.
Qed.

Lemma b64_groups_sound l bs :
  Z.of_nat (length l) mod 4 = 0 -> b64_groups l = Ok bs ->
  l = b64_encode bs /\ Forall is_byte bs.
Proof.
  revert bs; induction l as [l Hl|c0 c1 c2 c3 l IH] using groups_ind; intros bs Hlen Hg.
  { destruct l as [|? [|? [|? [|? ?]]]]; simpl in *; try (cbn in Hlen; dlia).
    injection Hg as <-. done. }
  assert (Hlen' : Z.of_nat (length l) mod 4 = 0).
  { cbn [length] in Hlen. rewrite !Nat2Z.inj_succ in Hlen. dlia. }
  cbn [b64_groups] in Hg. inv_ok.
  apply dec_some in H as [-> Ha], H0 as [-> Hb]. rename x into a, x0 into b.
  rewrite out1 in Hg by done. destruct (Z.eqb_spec c2 61) as [->|Hc2].
  - inv_ok. bools. rewrite low4 in *. destruct H as [[->%bool_decide_eq_true ->] Hb0].
    simpl in H0. inv_ok. subst x bs. cbn [b64_encode].
    assert (b / 16 * 16 = b) by dlia. split.
    + replace ((a * 4 + b / 16) / 4) with a by dlia.
      replace ((a * 4 + b / 16) mod 4 * 16) with b by dlia. done.
    + repeat constructor; unfold is_byte; dlia.
  - inv_ok. apply dec_some in H as [-> Hc]. rename x into c.
    rewrite out2 in Hg by done. destruct (Z.eqb_spec c3 61) as [->|Hc3].
    + inv_ok. bools. rewrite low2 in *. destruct H as [->%bool_decide_eq_true Hc0].
      simpl in H0. inv_ok. subst x bs. cbn [b64_encode].
      replace ((a * 4 + b / 16) / 4) with a by dlia.
      replace ((a * 4 + b / 16) mod 4 * 16 + (b mod 16 * 16 + c / 4) / 16) with b by dlia.
      replace ((b mod 16 * 16 + c / 4) mod 16 * 4) with c by dlia.
      split; [done|]. repeat constructor; unfold is_byte; dlia.
    + inv_ok. apply dec_some in H as [-> Hd]. rename x into d.
      rewrite out3 in Hg by done. destruct (IH x0 Hlen') as [-> Hbs]; [done|].
      subst bs. cbn [b64_encode].
      replace ((a * 4 + b / 16) / 4) with a by dlia.
      replace ((a * 4 + b / 16) mod 4 * 16 + (b mod 16 * 16 + c / 4) / 16) with b by dlia.
      replace ((b mod 16 * 16 + c / 4) mod 16 * 4 + (c mod 4 * 64 + d) / 64) with c by dlia.
      replace ((c mod 4 * 64 + d) mod 64) with d by dlia.
      split; [done|]. repeat (constructor; [unfold is_byte; dlia|]). done.
Qed.

(** Groups of three bytes, the encoder's induction scheme. *)
Lemma triples_ind (P : list Z -> Prop) :
  P [] -> (forall x, P [x]) -> (forall x y, P [x; y]) ->
  (forall x y z l, P l -> P (x :: y :: z :: l)) -> forall l, P l.
Proof.
  intros H0 H1 H2 H3 l. remember (length l) as n eqn:Hn. revert l Hn.
  induction n as [n IH] using lt_wf_ind; intros l ->.
  destruct l as [|x [|y [|z l]]]; [done..|]. apply H3. eapply IH; [|done]. simpl. lia.
Qed.

Lemma enc_not_pad_b v : 0 <= v < 64 -> (enc v =? 61) = false.
Proof. intros. apply Z.eqb_neq. pose proof (enc_not_pad v). lia. Qed.

Lemma b64_groups_complete bs : Forall is_byte bs -> b64_groups (b64_encode bs) = Ok bs.
Proof.
  induction bs as [|x|x y|x y z l IH] using triples_ind; intros Hbs; [done|..];
    repeat match goal with
    | H : Forall is_byte (_ :: _) |- _ => apply Forall_cons_iff in H as [[? ?] ?]
    end; cbn [b64_encode b64_groups]; rewrite !dec_enc by dlia; cbn [ok_or rbind].
  - rewrite out1, low4 by dlia. cbn [Z.eqb Pos.eqb negb orb].
    rewrite (proj2 (Z.eqb_eq _ _)) by dlia. simpl. do 2 f_equal. dlia.
  - rewrite enc_not_pad_b, out1, out2, low2 by dlia. cbn [Z.eqb Pos.eqb].
    rewrite (proj2 (Z.eqb_eq _ _)) by dlia. simpl. do 2 f_equal; [dlia|f_equal; dlia].
  - rewrite !enc_not_pad_b, out1, out2, out3, IH by (done || dlia). simpl.
    do 2 f_equal; [dlia|f_equal; [dlia|f_equal; dlia]].
Qed.

Lemma b64_encode_bytes bs : Forall is_byte bs ->
  Forall is_byte (b64_encode bs) /\ Z.of_nat (length (b64_encode bs)) mod 4 = 0.
Proof.
  induction bs as [|x|x y|x y z l IH] using triples_ind; intros Hbs; [done|..];
    repeat match goal with
    | H : Forall is_byte (_ :: _) |- _ => apply Forall_cons_iff in H as [[? ?] ?]
    end; cbn [b64_encode].
  - split; [|done]. repeat constructor; try (apply enc_byte; dlia); done.
  - split; [|done]. repeat constructor; try (apply enc_byte; dlia); done.
  - destruct IH as [IH1 IH2]; [done|]. cbn [length]. split; [|dlia].
    repeat (constructor; [apply enc_byte; dlia|]). done.
Qed.

(** Base64 payloads are canonical: the decoder accepts exactly the padded
    RFC 4648 encodings, and returns the encoded bytes. Non-zero trailing bits,
    misplaced padding and foreign characters are rejected. *)
Lemma base64_canonical s bs :
  b64_decode s = Ok bs <-> as_bytes s = b64_encode bs /\ Forall is_byte bs.
Proof.
  unfold b64_decode. rewrite reject_ok, negb_false_iff, Z.eqb_eq, str_len_as_bytes. split.
  - intros [Hlen Hg]. by apply b64_groups_sound.
  - intros [Hs Hb]. rewrite Hs. destruct (b64_encode_bytes bs Hb). auto using b64_groups_complete.
Qed.
End Base64.

(** ** Percent-encoded URL text *)
Module Percent.

Definition HEX (n : Z) : Z := if n <? 10 then 48 + n else 55 + n.

Definition escape (b : Z) : list Z := [37; HEX (Z.shiftr b 4); HEX (Z.land b 15)].

(** The unreserved bytes of [lease_wire::url]. *)
Definition unreserved (b : Z) : bool :=
  is_ascii_alphanumeric b || (b =? 45) || (b =? 95) || (b =? 46) || (b =? 126).

(** The encoding loop of [lease_wire::url]: one opaque path segment. *)
Definition lease_segment (lease_id : string) : string :=
  of_bytes (as_bytes lease_id ≫= fun b => if unreserved b then [b] else escape b).

(** [frames::urlencode]: the same alphabet with [/] kept. *)
Definition urlencode (s : string) : string :=
  of_bytes (as_bytes s ≫= fun b => if unreserved b || (b =? 47) then [b] else escape b).

(** Reference decoder of RFC 3986 percent escapes. *)
Definition unHEX (b : Z) : option Z :=
  if in_range 48 b 57 then Some (b - 48) else if in_range 65 b 70 then Some (b - 55) else None.

Fixpoint decode (fuel : nat) (l : list Z) : option (list Z) :=
  match fuel, l with
  | _, [] => Some []
  | O, _ => None
  | S fuel, b :: l =>
      if b =? 37 then
        match l with
        | h :: o :: l => x ← unHEX h; y ← unHEX o; r ← decode fuel l; Some (x * 16 + y :: r)
        | _ => None
        end
      else r ← decode fuel l; Some (b :: r)
  end.

Definition percent_decode (s : string) : option (list Z) := decode (String.length s) (as_bytes s).

Lemma unHEX_HEX n : 0 <= n < 16 -> unHEX (HEX n) = Some n.
Proof.
  intros. unfold unHEX, HEX, in_range.
  destruct (Z.ltb_spec n 10); repeat case_match; f_equal; lia.
Qed.

Lemma HEX_alnum n : 0 <= n < 16 -> is_ascii_alphanumeric (HEX n) = true.
Proof.
  intros. unfold is_ascii_alphanumeric, is_ascii_digit, is_ascii_lower, is_ascii_upper, in_range, HEX.
  destruct (Z.ltb_spec n 10); lia.
Qed.

Lemma alnum_byte b : is_ascii_alphanumeric b = true -> is_byte b.
Proof.
  unfold is_ascii_alphanumeric, is_ascii_digit, is_ascii_lower, is_ascii_upper, in_range, is_byte. lia.
Qed.

Section Encoding.
(** Any keep-set of bytes without [%]. *)
Context (keep : Z -> bool) (keep_pct : keep 37 = false).

Definition encode1 (b : Z) : list Z := if keep b then [b] else escape b.

Lemma encode1_bytes b : is_byte b -> Forall is_byte (encode1 b).
Proof using Type.
  intros [? ?]. unfold encode1, escape. rewrite Z.shiftr_div_pow2, Base64.low4 by lia.
  change (2 ^ 4) with 16. destruct (keep b); repeat constructor; try lia;
    apply alnum_byte, HEX_alnum; dlia.
Qed.

Lemma decode_encode l fuel :
  Forall is_byte l -> (length (l ≫= encode1) <= fuel)%nat ->
  decode fuel (l ≫= encode1) = Some l.
Proof using keep_pct.
  intros Hl; revert fuel; induction Hl as [|b l [? ?] Hl IH]; intros fuel Hf; [by destruct fuel|].
  rewrite bind_cons in *. unfold encode1 at 1 in Hf. unfold encode1 at 1.
  destruct (keep b) eqn:Hk; simpl in Hf; destruct fuel as [|fuel]; try lia; cbn [app decode].
  - destruct (Z.eqb_spec b 37) as [->|]; [congruence|]. rewrite IH by lia. done.
  - unfold escape. cbn [app]. rewrite Z.shiftr_div_pow2, Base64.low4 by lia. change (2 ^ 4) with 16.
    rewrite !unHEX_HEX by dlia. cbn [mbind option_bind]. change (37 =? 37) with true.
    cbn iota. rewrite IH by lia. cbn [mbind option_bind]. do 2 f_equal. dlia.
Qed.
End Encoding.

Lemma encoded_bytes keep s : as_bytes (of_bytes (as_bytes s ≫= encode1 keep)) = as_bytes s ≫= encode1 keep.
Proof.
  apply as_bytes_of_bytes. induction (as_bytes_range s); rewrite ?bind_cons; [constructor|].
  apply Forall_app; auto using encode1_bytes.
Qed.

Lemma lease_segment_decode id : percent_decode (lease_segment id) = Some (as_bytes id).
Proof.
  unfold percent_decode, lease_segment. change (fun b => if unreserved b then [b] else escape b)
    with (encode1 unreserved). rewrite <- length_as_bytes, encoded_bytes.
  apply decode_encode; auto with rust.
Qed.

Lemma urlencode_decode s : percent_decode (urlencode s) = Some (as_bytes s).
Proof.
  unfold percent_decode, urlencode. change (fun b => if unreserved b || (b =? 47) then [b] else escape b)
    with (encode1 (fun b => unreserved b || (b =? 47))). rewrite <- length_as_bytes, encoded_bytes.
  apply decode_encode; auto with rust.
Qed.

Lemma lease_segment_alphabet id :
  Forall (fun b => unreserved b = true \/ b = 37) (as_bytes (lease_segment id)).
Proof.
  unfold lease_segment. change (fun b => if unreserved b then [b] else escape b)
    with (encode1 unreserved). rewrite encoded_bytes.
  induction (as_bytes_range id) as [|b l [? ?] Hl IH]; rewrite ?bind_cons; [constructor|].
  apply Forall_app; split; [|done]. unfold encode1, escape.
  rewrite Z.shiftr_div_pow2, Base64.low4 by lia. change (2 ^ 4) with 16.
  destruct (unreserved b) eqn:Hu; [by apply Forall_singleton; left|].
  apply Forall_cons_iff; split; [by right|]. apply Forall_cons_iff; split; [|apply Forall_singleton];
    left; unfold unreserved; rewrite HEX_alnum by dlia; done.
Qed.

(** A lease identity is addressed by exactly one URL path segment: the
    segment uses only unreserved bytes and [%] escapes (no [/], [?] or [#]),
    percent-decodes to the identity, and distinct identities get distinct
    segments. The path encoder [urlencode] is likewise reversible. *)
Lemma lease_segment_opaque id id' :
  percent_decode (lease_segment id) = Some (as_bytes id) /\
  Forall (fun b => unreserved b = true \/ b = 37) (as_bytes (lease_segment id)) /\
  (lease_segment id = lease_segment id' <-> id = id') /\
  percent_decode (urlencode id) = Some (as_bytes id).
Proof.
  split_and!; auto using lease_segment_decode, lease_segment_alphabet, urlencode_decode.
  split; [|congruence]. intros He. pose proof (lease_segment_decode id) as H1.
  rewrite He, lease_segment_decode in H1. by simplify_eq.
Qed.
End Percent.
