(* ===== verification/Fence.v ===== *)
(** * Fence

    [src/util/mutation_fence.rs]: the admission fence between native mutations,
    stable upper scans and mount teardown. The [RwLock<bool>] is the set of
    guards held by live tasks plus the [sealed] flag it protects; the two
    semaphores are counters of free permits. A task that awaits is a task in a
    waiting state; [step] returns [None] for an event whose future is pending.
    Which of several waiting tasks takes the lock next is left open, where the
    lock of tokio serves them in the order of their calls: the properties hold
    for every order. *)

From S2P Require Import Prelude.

Module Fence.

Inductive io_error : Type :=
  | EAGAIN | EBUSY
  | UnknownOutcome   (** "native mutation or handle cleanup has an unknown outcome" *)
  | CleanupUnknown.  (** "handle cleanup became unknown during the mutation pause" *)

(** A live future of [admit] or [pause], or the guard it returned. *)
Inductive task : Type :=
  | CleanupQueued                 (** [cleanup_capacity.acquire_owned().await] *)
  | AdmitWait (cleanup : bool)    (** holds its permit, awaits [read_owned] *)
  | AdmittedOp (cleanup : bool)     (** an [AdmittedMutation] *)
  | PauseWait                     (** awaits [write_owned] *)
  | Paused.                       (** a [MutationPause] *)

Record MutationFence : Type := mkFence {
  sealed : bool;
  uncertain : bool;
  capacity : nat;
  cleanup_capacity : nat;
  tasks : gmap nat task;
}.

(** [MutationFence::new]; the assertion is the [None] case. *)
Definition new (max_in_flight : nat) : option MutationFence :=
  if bool_decide (0 < max_in_flight)%nat then
    Some {| sealed := false; uncertain := false; capacity := max_in_flight;
            cleanup_capacity := max_in_flight; tasks := ∅ |}
  else None.

Definition set_tasks (f : MutationFence) (m : gmap nat task) : MutationFence :=
  {| sealed := sealed f; uncertain := uncertain f; capacity := capacity f;
     cleanup_capacity := cleanup_capacity f; tasks := m |}.

Definition set_uncertain (f : MutationFence) : MutationFence :=
  {| sealed := sealed f; uncertain := true; capacity := capacity f;
     cleanup_capacity := cleanup_capacity f; tasks := tasks f |}.

Definition set_sealed (f : MutationFence) : MutationFence :=
  {| sealed := true; uncertain := uncertain f; capacity := capacity f;
     cleanup_capacity := cleanup_capacity f; tasks := tasks f |}.

(** Take or return a permit of the lane selected by [cleanup]. *)
Definition permits (f : MutationFence) (cleanup : bool) : nat :=
  if cleanup then cleanup_capacity f else capacity f.

Definition set_permits (f : MutationFence) (cleanup : bool) (n : nat) : MutationFence :=
  {| sealed := sealed f; uncertain := uncertain f;
     capacity := if cleanup then capacity f else n;
     cleanup_capacity := if cleanup then n else cleanup_capacity f; tasks := tasks f |}.

Definition return_permit (f : MutationFence) (cleanup : bool) : MutationFence :=
  set_permits f cleanup (S (permits f cleanup)).

Definition is_admitted (t : task) : bool := match t with AdmittedOp _ => true | _ => false end.
Definition is_paused (t : task) : bool := match t with Paused => true | _ => false end.

(** The lock grants a read guard when no writer holds it, and the write guard
    when nobody holds it. *)
Definition readable (f : MutationFence) : bool := Nat.eqb (count_if is_paused (tasks f)) 0.
Definition writable (f : MutationFence) : bool :=
  readable f && Nat.eqb (count_if is_admitted (tasks f)) 0.

Inductive event : Type :=
  | AdmitCall (id : nat) (cleanup : bool)  (** first poll of [admit] *)
  | CleanupPermit (id : nat)               (** a queued cleanup gets its permit *)
  | ReadLock (id : nat)                    (** [read_owned] resolves *)
  | Complete (id : nat)                    (** [AdmittedMutation::complete] *)
  | DropAdmitted (id : nat)                (** dropped without completion *)
  | CancelWait (id : nat)                  (** a waiting future is dropped *)
  | MarkUncertain                          (** [mark_uncertain] *)
  | PauseCall (id : nat)
  | WriteLock (id : nat)                   (** [write_owned] resolves *)
  | Seal (id : nat)                        (** [MutationPause::seal] *)
  | DropPause (id : nat).

Inductive outcome : Type := Pending | Done | Failed (e : io_error).

(** [MutationFence::admit] up to its first await. *)
Definition admit_call (f : MutationFence) (id : nat) (cleanup : bool)
    : option (MutationFence * outcome) :=
  match tasks f !! id with
  | Some _ => None
  | None =>
      match permits f cleanup with
      | O => if cleanup then Some (set_tasks f (<[id := CleanupQueued]> (tasks f)), Pending)
             else Some (f, Failed EAGAIN)
      | S n => Some (set_tasks (set_permits f cleanup n)
                       (<[id := AdmitWait cleanup]> (tasks f)), Pending)
      end
  end.

(** [MutationFence::admit] after [read_owned]. *)
Definition admit_locked (f : MutationFence) (id : nat) (cleanup : bool)
    : MutationFence * outcome :=
  if sealed f && negb cleanup then
    (return_permit (set_tasks f (delete id (tasks f))) cleanup, Failed EBUSY)
  else (set_tasks f (<[id := AdmittedOp cleanup]> (tasks f)), Done).

(** [MutationFence::pause] after [write_owned]. *)
Definition pause_locked (f : MutationFence) (id : nat) : MutationFence * outcome :=
  if uncertain f then (set_tasks f (delete id (tasks f)), Failed UnknownOutcome)
  else (set_tasks f (<[id := Paused]> (tasks f)), Done).

(** [MutationPause::ensure_certain]. *)
Definition ensure_certain (f : MutationFence) : result io_error unit :=
  if uncertain f then Err CleanupUnknown else Ok tt.

(** [MutationPause::seal]. *)
Definition pause_seal (f : MutationFence) : MutationFence * outcome :=
  match ensure_certain f with
  | Err e => (f, Failed e)
  | Ok _ => (set_sealed f, Done)
  end.

(** Dropping an [AdmittedMutation]: the guard and the permit go back, and an
    uncompleted one latches the unknown outcome. *)
Definition drop_admitted (f : MutationFence) (id : nat) (cleanup completed : bool) : MutationFence :=
  let f := if completed then f else set_uncertain f in
  return_permit (set_tasks f (delete id (tasks f))) cleanup.

Definition step (f : MutationFence) (e : event) : option (MutationFence * outcome) :=
  match e with
  | AdmitCall id cleanup => admit_call f id cleanup
  | CleanupPermit id =>
      match tasks f !! id, cleanup_capacity f with
      | Some CleanupQueued, S n =>
          Some (set_tasks (set_permits f true n) (<[id := AdmitWait true]> (tasks f)), Pending)
      | _, _ => None
      end
  | ReadLock id =>
      match tasks f !! id with
      | Some (AdmitWait cleanup) => if readable f then Some (admit_locked f id cleanup) else None
      | _ => None
      end
  | Complete id =>
      match tasks f !! id with
      | Some (AdmittedOp cleanup) => Some (drop_admitted f id cleanup true, Done)
      | _ => None
      end
  | DropAdmitted id =>
      match tasks f !! id with
      | Some (AdmittedOp cleanup) => Some (drop_admitted f id cleanup false, Done)
      | _ => None
      end
  | CancelWait id =>
      match tasks f !! id with
      | Some (AdmitWait cleanup) =>
          Some (return_permit (set_tasks f (delete id (tasks f))) cleanup, Done)
      | Some CleanupQueued | Some PauseWait => Some (set_tasks f (delete id (tasks f)), Done)
      | _ => None
      end
  | MarkUncertain => Some (set_uncertain f, Done)
  | PauseCall id =>
      match tasks f !! id with
      | None => Some (set_tasks f (<[id := PauseWait]> (tasks f)), Pending)
      | Some _ => None
      end
  | WriteLock id =>
      match tasks f !! id with
      | Some PauseWait => if writable f then Some (pause_locked f id) else None
      | _ => None
      end
  | Seal id =>
      match tasks f !! id with
      | Some Paused => Some (pause_seal f)
      | _ => None
      end
  | DropPause id =>
      match tasks f !! id with
      | Some Paused => Some (set_tasks f (delete id (tasks f)), Done)
      | _ => None
      end
  end.

(** Runs: any interleaving of events of the live tasks. *)
Fixpoint run (f : MutationFence) (es : list event) : option MutationFence :=
  match es with
  | [] => Some f
  | e :: es => match step f e with
               | Some (f', _) => run f' es
               | None => None
               end
  end.

Inductive reachable (max : nat) : MutationFence -> Prop :=
  | reach_new f : new max = Some f -> reachable max f
  | reach_step f e f' o : reachable max f -> step f e = Some (f', o) -> reachable max f'.

(** ** Invariant *)

Definition holds_permit (cleanup : bool) (t : task) : bool :=
  match t with AdmitWait c | AdmittedOp c => Bool.eqb c cleanup | _ => false end.

Record fence_inv (max : nat) (f : MutationFence) : Prop := {
  inv_permits cleanup : (count_if (holds_permit cleanup) (tasks f) + permits f cleanup = max)%nat;
  inv_one_pause : (count_if is_paused (tasks f) <= 1)%nat;
  inv_exclusion : count_if is_paused (tasks f) = 0%nat \/ count_if is_admitted (tasks f) = 0%nat;
}.

(** Relate the counts before and after the update of one task. *)
Ltac count_preds tac :=
  tac (holds_permit true); tac (holds_permit false); tac is_paused; tac is_admitted.

Ltac count_updates :=
  lazymatch goal with
  | H : ?m !! ?k = Some ?v |- context [<[?k := ?w]> ?m] =>
      count_preds ltac:(fun p => pose proof (count_if_update p m k v w H))
  | H : ?m !! ?k = None |- context [<[?k := ?w]> ?m] =>
      count_preds ltac:(fun p => pose proof (count_if_insert p m k w H))
  | H : ?m !! ?k = Some ?v |- context [delete ?k ?m] =>
      count_preds ltac:(fun p => pose proof (count_if_delete p m k v H))
  | _ => idtac
  end.

(** Case analysis on the event and the task it addresses. *)
Ltac step_cases H :=
  unfold step, admit_call, admit_locked, pause_locked, pause_seal, ensure_certain, drop_admitted in H;
  repeat case_match; simplify_eq/=.

Lemma step_inv max f e f' o : fence_inv max f -> step f e = Some (f', o) -> fence_inv max f'.
Proof.
  intros [Hp H1 Hx] Hs. pose proof (Hp true) as Hpt. pose proof (Hp false) as Hpf.
  unfold permits in *.
  step_cases Hs; constructor; try intros []; simpl in *; unfold permits in *; simpl in *; auto;
    unfold writable, readable in *;
    repeat match goal with H : (_ && _) = true |- _ => apply andb_prop in H as [? ?] end;
    repeat match goal with H : Nat.eqb _ _ = true |- _ => apply Nat.eqb_eq in H end;
    repeat match goal with b : bool |- _ => destruct b end;
    count_updates; simpl in *; lia.
Qed.

Lemma new_inv max f : new max = Some f -> fence_inv max f.
Proof.
  unfold new. case_bool_decide; intros; simplify_eq.
  constructor; unfold permits; simpl; rewrite ?count_if_empty; try lia.
  intros []; rewrite count_if_empty; lia.
Qed.

Lemma reachable_inv max f : reachable max f -> fence_inv max f.
Proof. induction 1; eauto using new_inv, step_inv. Qed.

(** ** Latches *)

(** Nothing a step does clears [sealed] or [uncertain]; a sealed fence admits
    no further content mutation, an uncertain one no further pause or seal. *)
Lemma step_latch f e f' o :
  step f e = Some (f', o) ->
  (sealed f = true -> sealed f' = true /\
     forall j, tasks f' !! j = Some (AdmittedOp false) -> tasks f !! j = Some (AdmittedOp false)) /\
  (uncertain f = true -> uncertain f' = true /\ sealed f' = sealed f /\
     forall j, tasks f' !! j = Some Paused -> tasks f !! j = Some Paused).
Proof.
  intros Hs. step_cases Hs; (split; intros Hl; [split|split_and!]); simpl in *; auto;
    try congruence; intros j;
    repeat match goal with
    | |- context [delete ?i ?m !! ?j] => rewrite (lookup_delete m i j); case_decide
    | |- context [<[?i := _]> ?m !! ?j] => rewrite (lookup_insert m i j); case_decide
    end; try congruence; intros; simplify_eq.
  all: rewrite Hl in *; simpl in *; congruence.
Qed.

Lemma run_latch f es f' :
  run f es = Some f' ->
  (sealed f = true -> sealed f' = true /\
     forall j, tasks f' !! j = Some (AdmittedOp false) -> tasks f !! j = Some (AdmittedOp false)) /\
  (uncertain f = true -> uncertain f' = true /\ sealed f' = sealed f /\
     forall j, tasks f' !! j = Some Paused -> tasks f !! j = Some Paused).
Proof.
  revert f; induction es as [|e es IH]; intros f Hr; simpl in Hr; [naive_solver|].
  destruct (step f e) as [[f1 o]|] eqn:Hs; [|done].
  destruct (step_latch _ _ _ _ Hs) as [L1 L2], (IH _ Hr) as [M1 M2]. split; intros Hl.
  - destruct (L1 Hl) as [Hl1 ?], (M1 Hl1). naive_solver.
  - destruct (L2 Hl) as (Hl1 & ? & ?), (M2 Hl1) as (? & ? & ?). split_and!; [done|congruence|auto].
Qed.

(** ** Properties *)

(** C11: a mutation pause excludes every admitted native mutation: in every
    reachable state, while a pause is held no operation is admitted and no
    second pause exists. *)
Theorem pause_excludes_mutations max f p :
  reachable max f -> tasks f !! p = Some Paused ->
  forall j t, tasks f !! j = Some t -> is_admitted t = false /\ (t = Paused -> j = p).
Proof.
  intros [_ H1 Hx]%reachable_inv Hp j t Ht.
  pose proof (count_if_pos is_paused _ _ _ Hp eq_refl) as Hpos. split.
  - apply (count_if_zero is_admitted (tasks f) j); [lia|done].
  - intros ->. destruct (decide (j = p)) as [|Hne]; [done|].
    pose proof (count_if_two is_paused _ _ _ _ _ Hne Ht Hp eq_refl eq_refl). lia.
Qed.

(** Admission is bounded and never leaks: in every reachable state each lane
    has at most [max_in_flight] queued or running operations, the free permits
    account for exactly the rest, and a content mutation is refused with EAGAIN
    exactly when its lane is full. *)
Lemma admission_bounded max f id :
  reachable max f -> tasks f !! id = None ->
  (forall cleanup, count_if (holds_permit cleanup) (tasks f) + permits f cleanup = max)%nat /\
  (step f (AdmitCall id false) = Some (f, Failed EAGAIN) <->
     count_if (holds_permit false) (tasks f) = max) /\
  (exists f', step f (AdmitCall id true) = Some (f', Pending)).
Proof.
  intros [Hp _ _]%reachable_inv Hid. split; [done|]. pose proof (Hp false) as Hf.
  simpl. unfold admit_call. rewrite Hid. unfold permits in *. split.
  - destruct (capacity f); split; intros; try done; lia.
  - destruct (cleanup_capacity f); eauto.
Qed.

(** Sealing and the unknown-outcome latch are permanent along every run: a
    sealed fence never admits another content mutation, and once an outcome is
    unknown no pause is ever granted again and nothing can be sealed. *)
Lemma fence_latches f es f' :
  run f es = Some f' ->
  (sealed f = true -> sealed f' = true /\
     forall j, tasks f' !! j = Some (AdmittedOp false) -> tasks f !! j = Some (AdmittedOp false)) /\
  (uncertain f = true -> uncertain f' = true /\ sealed f' = sealed f /\
     forall j, tasks f' !! j = Some Paused -> tasks f !! j = Some Paused).
Proof. apply run_latch. Qed.

End Fence.
