(* ===== verification/Budget.v ===== *)
(** * Budget

    [src/snapshot/content.rs] and the count admission of
    [src/snapshot/coordinator.rs]: the process-wide and per-scope semaphores,
    the reservations drawn from them, and the fixed-capacity buffers that own
    those reservations. Dropping a Rust owner is an explicit operation. *)

From S2P Require Import Prelude Types.
Local Open Scope string_scope.
Local Open Scope list_scope.
Local Open Scope Z_scope.

(** ** Two-level permits *)
Module Permits.

(** [Semaphore::try_acquire_many_owned]. *)
Definition try_acquire_many (available n : Z) : option Z :=
  if n <=? available then Some (available - n) else None.

(** Acquire from a local and then a global semaphore; when the second refuses,
    the first permit is dropped and returns to its semaphore. *)
Definition acquire_both (limit : SnapshotError) (local global n : Z) : Res unit * (Z * Z) :=
  match try_acquire_many local n with
  | None => (Err limit, (local, global))
  | Some local' =>
      match try_acquire_many global n with
      | None => (Err limit, (local' + n, global))
      | Some global' => (Ok tt, (local', global'))
      end
  end.

Definition capacity_limit : SnapshotError :=
  SnapshotError_new LimitExceeded "content capacity admission limit reached".
Definition count_limit : SnapshotError :=
  SnapshotError_new LimitExceeded "fetch count admission limit reached".

(** [content::Reservation::acquire]. *)
Definition Reservation_acquire (local global credits : Z) : Res unit * (Z * Z) :=
  acquire_both capacity_limit local global credits.

(** [coordinator::CountAdmission::acquire]. *)
Definition CountAdmission_acquire (local global : Z) : Res unit * (Z * Z) :=
  acquire_both count_limit local global 1.

Lemma acquire_both_spec e local global n :
  acquire_both e local global n =
  if (n <=? local) && (n <=? global) then (Ok tt, (local - n, global - n))
  else (Err e, (local, global)).
Proof.
  unfold acquire_both, try_acquire_many. destruct (n <=? local); simpl; [|done].
  destruct (n <=? global); [done|]. do 2 f_equal. lia.
Qed.
End Permits.
Import Permits.

(** ** Byte budgets *)
Module Content.

Definition CREDIT : Z := 1024.
Definition PROCESS_OUTPUT_BYTES : Z := 512 * 1024 * 1024.
Definition PROCESS_CONSTRUCTION_BYTES : Z := 64 * 1024 * 1024.
Definition COORDINATOR_OUTPUT_BYTES : Z := 128 * 1024 * 1024.
Definition COORDINATOR_CONSTRUCTION_BYTES : Z := 32 * 1024 * 1024.

Record ContentBudgetLimits : Type := mkLimits {
  output_bytes : Z;
  construction_bytes : Z;
}.

(** [ContentBudgetLimits::new]. *)
Definition ContentBudgetLimits_new (output construction : Z) : Res ContentBudgetLimits :=
  reject? (output =? 0) || (construction =? 0)
          || (COORDINATOR_OUTPUT_BYTES <? output)
          || (COORDINATOR_CONSTRUCTION_BYTES <? construction)
          || negb (output mod CREDIT =? 0) || negb (construction mod CREDIT =? 0)
    with SnapshotError_new InvalidRequest
           "content budgets must use positive 1-KiB credits within coordinator caps" in
  Ok {| output_bytes := output; construction_bytes := construction |}.

Definition ContentBudgetLimits_default : ContentBudgetLimits :=
  {| output_bytes := COORDINATOR_OUTPUT_BYTES;
     construction_bytes := COORDINATOR_CONSTRUCTION_BYTES |}.

Inductive BudgetClass : Type := Output | Construction.
#[export] Instance BudgetClass_eq_dec : EqDecision BudgetClass.
Proof. solve_decision. Defined.

Definition limit_of (l : ContentBudgetLimits) (c : BudgetClass) : Z :=
  match c with Output => output_bytes l | Construction => construction_bytes l end.
Definition process_limit (c : BudgetClass) : Z :=
  match c with Output => PROCESS_OUTPUT_BYTES | Construction => PROCESS_CONSTRUCTION_BYTES end.

(** [ContentBudget]: free credits of one scope. *)
Record ContentBudget : Type := mkBudget {
  output : Z;
  construction : Z;
  limits : ContentBudgetLimits;
}.

(** [ContentBudget::new]. *)
Definition ContentBudget_new (l : ContentBudgetLimits) : ContentBudget :=
  {| output := output_bytes l / CREDIT; construction := construction_bytes l / CREDIT; limits := l |}.

Definition free (b : ContentBudget) (c : BudgetClass) : Z :=
  match c with Output => output b | Construction => construction b end.
Definition set_free (b : ContentBudget) (c : BudgetClass) (n : Z) : ContentBudget :=
  match c with
  | Output => {| output := n; construction := construction b; limits := limits b |}
  | Construction => {| output := output b; construction := n; limits := limits b |}
  end.

(** A live reservation: the permits it holds on its scope and on the process. *)
Record Reservation : Type := mkReservation {
  r_scope : nat;
  r_class : BudgetClass;
  r_credits : Z;
}.

(** The process: its two semaphores, every scope, every live reservation. *)
Record Process : Type := mkProcess {
  p_output : Z;
  p_construction : Z;
  scopes : gmap nat ContentBudget;
  live : gmap nat Reservation;
}.

(** [process_budget]. *)
Definition process_budget : Process :=
  {| p_output := PROCESS_OUTPUT_BYTES / CREDIT;
     p_construction := PROCESS_CONSTRUCTION_BYTES / CREDIT; scopes := ∅; live := ∅ |}.

Definition p_free (w : Process) (c : BudgetClass) : Z :=
  match c with Output => p_output w | Construction => p_construction w end.
Definition set_p_free (w : Process) (c : BudgetClass) (n : Z) : Process :=
  match c with
  | Output => {| p_output := n; p_construction := p_construction w; scopes := scopes w; live := live w |}
  | Construction => {| p_output := p_output w; p_construction := n; scopes := scopes w; live := live w |}
  end.
Definition set_scope (w : Process) (s : nat) (b : ContentBudget) : Process :=
  {| p_output := p_output w; p_construction := p_construction w;
     scopes := <[s := b]> (scopes w); live := live w |}.
Definition set_live (w : Process) (m : gmap nat Reservation) : Process :=
  {| p_output := p_output w; p_construction := p_construction w; scopes := scopes w; live := m |}.

(** [ContentBudget::usage] and [ContentBudget::process_usage]. *)
Record ContentBudgetUsage : Type := mkUsage { used_output : Z; used_construction : Z }.

Definition usage (b : ContentBudget) : ContentBudgetUsage :=
  {| used_output := output_bytes (limits b) - output b * CREDIT;
     used_construction := construction_bytes (limits b) - construction b * CREDIT |}.

Definition process_usage (w : Process) : ContentBudgetUsage :=
  {| used_output := PROCESS_OUTPUT_BYTES - p_output w * CREDIT;
     used_construction := PROCESS_CONSTRUCTION_BYTES - p_construction w * CREDIT |}.

(** [ContentBudget::can_overlap_hydration]. *)
Definition can_overlap_hydration (w : Process) (b : ContentBudget) : bool :=
  if negb (output_bytes (limits b) =? COORDINATOR_OUTPUT_BYTES)
     || negb (construction_bytes (limits b) =? COORDINATOR_CONSTRUCTION_BYTES) then false
  else
    let local := usage b in
    let process := process_usage w in
    (used_output local =? 0) && (used_construction local =? 0)
      && (used_output process <=? PROCESS_OUTPUT_BYTES - COORDINATOR_OUTPUT_BYTES)
      && (used_construction process
            <=? PROCESS_CONSTRUCTION_BYTES - COORDINATOR_CONSTRUCTION_BYTES).

(** The credit computation of [ContentBudget::reserve]. *)
Definition credits_for (bytes : Z) : option Z :=
  n ← checked_add bytes (CREDIT - 1);
  if n / CREDIT <=? u32_max then Some (n / CREDIT) else None.

(** [ContentBudget::reserve]: the reservation gets the fresh name [rid]. *)
Definition reserve (w : Process) (s : nat) (c : BudgetClass) (bytes : Z) (rid : nat)
    : Res unit * Process :=
  match scopes w !! s, credits_for bytes with
  | Some b, Some credits =>
      let '(r, (local, global)) := Reservation_acquire (free b c) (p_free w c) credits in
      let w' := set_p_free (set_scope w s (set_free b c local)) c global in
      match r with
      | Ok _ => (Ok tt, set_live w' (<[rid := {| r_scope := s; r_class := c; r_credits := credits |}]> (live w)))
      | Err e => (Err e, w')
      end
  | _, _ => (Err capacity_limit, w)
  end.

(** Dropping a [Reservation] returns both permits. *)
Definition drop_reservation (w : Process) (rid : nat) : Process :=
  match live w !! rid with
  | Some r =>
      match scopes w !! r_scope r with
      | Some b =>
          set_live (set_p_free (set_scope w (r_scope r)
            (set_free b (r_class r) (free b (r_class r) + r_credits r)))
            (r_class r) (p_free w (r_class r) + r_credits r)) (delete rid (live w))
      | None => w
      end
  | None => w
  end.

(** *** Reachable processes *)

Inductive reachable : Process -> Prop :=
  | reach_start : reachable process_budget
  | reach_scope w s l :
      reachable w -> scopes w !! s = None ->
      is_usize (output_bytes l) -> is_usize (construction_bytes l) ->
      ContentBudgetLimits_new (output_bytes l) (construction_bytes l) = Ok l ->
      reachable (set_scope w s (ContentBudget_new l))
  | reach_reserve w s c bytes rid r w' :
      reachable w -> live w !! rid = None -> is_usize bytes ->
      reserve w s c bytes rid = (r, w') -> reachable w'
  | reach_drop w rid : reachable w -> reachable (drop_reservation w rid).

(** Credits held by the live reservations that satisfy [p]. *)
Definition held (p : Reservation -> bool) (w : Process) : Z :=
  sum_of (fun r => if p r then r_credits r else 0) (live w).
Definition in_scope (s : nat) (c : BudgetClass) (r : Reservation) : bool :=
  bool_decide (r_scope r = s) && bool_decide (r_class r = c).
Definition in_class (c : BudgetClass) (r : Reservation) : bool := bool_decide (r_class r = c).

Record budget_inv (w : Process) : Prop := {
  inv_scope s b c : scopes w !! s = Some b ->
    free b c + held (in_scope s c) w = limit_of (limits b) c / CREDIT /\ 0 <= free b c;
  inv_process c : p_free w c + held (in_class c) w = process_limit c / CREDIT /\ 0 <= p_free w c;
  inv_live rid r : live w !! rid = Some r -> 0 <= r_credits r /\ is_Some (scopes w !! r_scope r);
}.

Lemma credits_for_bounds bytes k :
  0 <= bytes -> credits_for bytes = Some k -> bytes <= k * CREDIT < bytes + CREDIT /\ 0 <= k <= u32_max.
Proof.
  unfold credits_for, CREDIT. intros Hb Hc.
  apply bind_Some in Hc as (n & [-> ?]%checked_add_some & Hk).
  destruct (Z.leb_spec ((bytes + (1024 - 1)) / 1024) u32_max); simplify_eq. split; dlia.
Qed.

Lemma free_set_free b c c' n : free (set_free b c n) c' = if decide (c = c') then n else free b c'.
Proof. by destruct c, c'. Qed.
Lemma limits_set_free b c n : limits (set_free b c n) = limits b.
Proof. by destruct c. Qed.
Lemma p_free_set w c c' n : p_free (set_p_free w c n) c' = if decide (c = c') then n else p_free w c'.
Proof. by destruct c, c'. Qed.
Lemma scopes_set_p_free w c n : scopes (set_p_free w c n) = scopes w.
Proof. by destruct c. Qed.
Lemma live_set_p_free w c n : live (set_p_free w c n) = live w.
Proof. by destruct c. Qed.
Lemma p_free_set_scope w s b c : p_free (set_scope w s b) c = p_free w c.
Proof. by destruct c. Qed.
Lemma p_free_set_live w m c : p_free (set_live w m) c = p_free w c.
Proof. by destruct c. Qed.
Create Rewrite HintDb budget.
#[local] Hint Rewrite free_set_free limits_set_free p_free_set scopes_set_p_free live_set_p_free
  p_free_set_scope p_free_set_live : budget.

(** A refused reservation changes nothing; a granted one charges both levels. *)
Lemma reserve_cases w s c bytes rid r w' :
  reserve w s c bytes rid = (r, w') ->
  (r = Err capacity_limit /\ (forall c, p_free w' c = p_free w c) /\ live w' = live w /\
     (forall s', scopes w' !! s' = scopes w !! s')) \/
  exists b k, r = Ok tt /\ scopes w !! s = Some b /\ credits_for bytes = Some k /\
    k <= free b c /\ k <= p_free w c /\
    w' = set_live (set_p_free (set_scope w s (set_free b c (free b c - k))) c (p_free w c - k))
           (<[rid := {| r_scope := s; r_class := c; r_credits := k |}]> (live w)).
Proof.
  unfold reserve, Reservation_acquire.
  destruct (scopes w !! s) as [b|] eqn:Hs; [|intros [= <- <-]; left; done].
  destruct (credits_for bytes) as [k|] eqn:Hk; [|intros [= <- <-]; left; done].
  rewrite acquire_both_spec. destruct (_ && _) eqn:Hg; intros [= <- <-]; [right|left].
  - bools. destruct Hg. exists b, k. done.
  - split_and!; [done| | |].
    + intros c'. autorewrite with budget. case_decide; congruence.
    + by autorewrite with budget.
    + intros s'. autorewrite with budget. simpl. rewrite lookup_insert. case_decide; [|done]. subst.
      rewrite Hs. f_equal. by destruct b, c.
Qed.

Lemma held_nonneg p w : budget_inv w -> 0 <= held p w.
Proof.
  intros [_ _ Hl]. apply sum_of_nonneg. intros rid r Hr. destruct (Hl _ _ Hr). case_match; lia.
Qed.

Lemma held_reserve (p : Reservation -> bool) w rid r :
  live w !! rid = None ->
  sum_of (fun r => if p r : bool then r_credits r else 0) (<[rid := r]> (live w)) =
  (if p r : bool then r_credits r else 0) + held p w.
Proof. intros Hr. by rewrite sum_of_insert. Qed.

Lemma held_drop (p : Reservation -> bool) w rid r :
  live w !! rid = Some r ->
  held p w = (if p r : bool then r_credits r else 0)
             + sum_of (fun r => if p r then r_credits r else 0) (delete rid (live w)).
Proof. intros Hr. unfold held. by rewrite (sum_of_delete _ _ _ _ Hr). Qed.

Lemma reserve_inv w s c bytes rid r w' :
  live w !! rid = None -> 0 <= bytes -> reserve w s c bytes rid = (r, w') ->
  budget_inv w -> budget_inv w'.
Proof.
  intros Hf Hb [(-> & Hp & Hlv & Hsc)|(b & k & -> & Hs & Hk & Hl & Hg & ->)]%reserve_cases [I1 I2 I3].
  { constructor; unfold held in *; rewrite ?Hlv.
    - intros *. rewrite Hsc. apply I1.
    - intros c'. rewrite Hp. apply I2.
    - intros *. rewrite Hsc. apply I3. }
  destruct (credits_for_bounds _ _ Hb Hk) as [_ Hk0].
  constructor; unfold held; intros *; simpl; autorewrite with budget; simpl.
  - rewrite held_reserve by done. rewrite lookup_insert. unfold in_scope; simpl.
    case_decide as Hss; intros; simplify_eq.
    + autorewrite with budget. rewrite (bool_decide_eq_true_2 (s0 = s0)) by done.
      destruct (I1 _ _ c0 Hs). case_decide; [subst; rewrite bool_decide_eq_true_2 by done|
        rewrite bool_decide_eq_false_2 by congruence]; simpl; fold (in_scope s0 c0); lia.
    + rewrite bool_decide_eq_false_2 by congruence. apply I1; done.
  - rewrite held_reserve by done. unfold in_class; simpl. destruct (I2 c0).
    case_decide; [subst; rewrite bool_decide_eq_true_2 by done|
      rewrite bool_decide_eq_false_2 by congruence]; fold (in_class c0); lia.
  - rewrite !lookup_insert. case_decide; intros; simplify_eq; simpl.
    + split; [lia|]. case_decide; [eauto|done].
    + edestruct I3; [done|]. split; [done|]. case_decide; [eauto|done].
Qed.

Lemma drop_inv w rid : budget_inv w -> budget_inv (drop_reservation w rid).
Proof.
  intros Hw. pose proof Hw as [I1 I2 I3]. unfold drop_reservation.
  destruct (live w !! rid) as [r|] eqn:Hr; [|done].
  destruct (scopes w !! r_scope r) as [b|] eqn:Hs; [|done]. destruct (I3 _ _ Hr) as [Hk0 _].
  constructor; unfold held; intros *; simpl; autorewrite with budget; simpl.
  - rewrite lookup_insert. case_decide as Hss; intros Hb; simplify_eq.
    + destruct (I1 _ _ c Hs) as [E ?]. rewrite (held_drop _ _ _ _ Hr) in E.
      autorewrite with budget. unfold in_scope at 1 in E.
      rewrite (bool_decide_eq_true_2 (r_scope r = _)) in E by done. simpl in E.
      destruct (decide (r_class r = c)) as [<-|]; [rewrite bool_decide_eq_true_2 in E by done|
        rewrite bool_decide_eq_false_2 in E by done]; lia.
    + destruct (I1 _ _ c Hb) as [E ?]. rewrite (held_drop _ _ _ _ Hr) in E.
      unfold in_scope at 1 in E. rewrite (bool_decide_eq_false_2 (r_scope r = _)) in E by done.
      simpl in E. lia.
  - destruct (I2 c) as [E ?]. rewrite (held_drop _ _ _ _ Hr) in E. unfold in_class at 1 in E.
    destruct (decide (r_class r = c)) as [<-|]; [rewrite bool_decide_eq_true_2 in E by done|
      rewrite bool_decide_eq_false_2 in E by done]; lia.
  - rewrite lookup_delete, lookup_insert. case_decide; [done|]. intros Hr'.
    destruct (I3 _ _ Hr'). split; [done|]. case_decide; [eauto|done].
Qed.

Lemma scope_inv w s l :
  scopes w !! s = None -> is_usize (output_bytes l) -> is_usize (construction_bytes l) ->
  budget_inv w -> budget_inv (set_scope w s (ContentBudget_new l)).
Proof.
  intros Hs [? _] [? _] [I1 I2 I3].
  constructor; unfold held; intros *; simpl; autorewrite with budget; simpl; [|apply I2|].
  - rewrite lookup_insert. case_decide; intros; simplify_eq; [|by apply I1].
    assert (held (in_scope s0 c) w = 0) as Hz.
    { unfold held. clear -I3 Hs. induction (live w) as [|k r m Hk IH] using map_ind; [apply sum_of_empty|].
      rewrite sum_of_insert, IH by
        (done || (intros rid r' Hr'; apply (I3 rid); rewrite lookup_insert_ne; congruence)).
      destruct (I3 k r) as [_ [b Hb]]; [apply lookup_insert_eq|].
      unfold in_scope. rewrite bool_decide_eq_false_2 by congruence. done. }
    unfold held in Hz. rewrite Hz. destruct c; simpl; unfold CREDIT; dlia.
  - intros Hr. destruct (I3 _ _ Hr) as [? ?]. split; [done|].
    rewrite lookup_insert. case_decide; [eauto|done].
Qed.

Lemma budget_reachable_inv w : reachable w -> budget_inv w.
Proof.
  induction 1 as [|w s l _ IH|w s c bytes rid r w' _ IH Hf [Hb _] Hr|w rid _ IH].
  - constructor; unfold held; simpl; [done| |done]. intros []; rewrite sum_of_empty; done.
  - by apply scope_inv.
  - exact (reserve_inv _ _ _ _ _ _ _ Hf Hb Hr IH).
  - by apply drop_inv.
Qed.

(** C35: capacity accounting is exact in every reachable process: the usage a
    scope (and the process) reports is the sum of the 1-KiB credits its live
    reservations hold, per class, and it stays within the limit of the scope
    and of the process. Limits are whole credits, as
    [ContentBudgetLimits::new] requires. *)
Theorem usage_is_live_reservations w s b :
  reachable w -> scopes w !! s = Some b ->
  output_bytes (limits b) mod CREDIT = 0 -> construction_bytes (limits b) mod CREDIT = 0 ->
  usage b = {| used_output := held (in_scope s Output) w * CREDIT;
               used_construction := held (in_scope s Construction) w * CREDIT |} /\
  process_usage w = {| used_output := held (in_class Output) w * CREDIT;
                       used_construction := held (in_class Construction) w * CREDIT |} /\
  0 <= used_output (usage b) <= output_bytes (limits b) /\
  0 <= used_construction (usage b) <= construction_bytes (limits b) /\
  0 <= used_output (process_usage w) <= PROCESS_OUTPUT_BYTES /\
  0 <= used_construction (process_usage w) <= PROCESS_CONSTRUCTION_BYTES.
Proof.
  intros Hw%budget_reachable_inv Hs Ho Hc. pose proof (held_nonneg (in_scope s Output) w Hw).
  pose proof (held_nonneg (in_scope s Construction) w Hw).
  pose proof (held_nonneg (in_class Output) w Hw). pose proof (held_nonneg (in_class Construction) w Hw).
  destruct Hw as [I1 I2 _].
  destruct (I1 _ _ Output Hs) as [E1 ?], (I1 _ _ Construction Hs) as [E2 ?], (I2 Output) as [E3 ?],
    (I2 Construction) as [E4 ?].
  unfold usage, process_usage. simpl in *.
  unfold CREDIT, PROCESS_OUTPUT_BYTES, PROCESS_CONSTRUCTION_BYTES in *.
  split_and!; try (f_equal); dlia.
Qed.

(** Reservation is all-or-nothing: it is granted exactly when the rounded-up
    credits fit both the scope and the process, charging both by at least the
    requested bytes; a refused reservation leaves every semaphore unchanged. *)
Lemma reserve_atomic w s c bytes rid r w' :
  0 <= bytes -> reserve w s c bytes rid = (r, w') ->
  (r = Ok tt /\ exists b k, scopes w !! s = Some b /\ bytes <= k * CREDIT < bytes + CREDIT /\
     k <= free b c /\ k <= p_free w c /\ p_free w' c = p_free w c - k /\
     scopes w' !! s = Some (set_free b c (free b c - k))) \/
  (r = Err capacity_limit /\ (forall c, p_free w' c = p_free w c) /\ live w' = live w /\
     (forall s', scopes w' !! s' = scopes w !! s')).
Proof.
  intros Hb [?|(b & k & -> & Hs & Hk & Hl & Hg & ->)]%reserve_cases; [by right|left].
  split; [done|]. exists b, k. split_and!; try done; try apply (credits_for_bounds _ _ Hb Hk).
  - autorewrite with budget. by case_decide.
  - simpl. autorewrite with budget. simpl. apply lookup_insert_eq.
Qed.

(** *** Fixed-capacity owned buffers *)

(** [AccountedBuffer]: the [Vec] (its bytes and its capacity) and the name of
    the reservation that pays for it. *)
Record AccountedBuffer : Type := mkBuffer {
  bytes : list Z;
  capacity : Z;
  reservation : nat;
}.

Definition buffer_len (b : AccountedBuffer) : Z := zlen (bytes b).

Section Buffers.
(** [size_of::<AccountedBuffer>()], [size_of::<VerifiedContentBatch>()] and
    [size_of::<(String, Arc<VerifiedContent>)>()], and the allocator behind
    [Vec::try_reserve_exact]: the capacity it obtained, if any. *)
Context (size_of_buffer size_of_batch size_of_entry : Z) (try_reserve_exact : Z -> option Z).
Definition size_of_usize : Z := 8.

Definition unexpected_capacity : SnapshotError :=
  SnapshotError_new Internal "unexpected fixed buffer capacity".

(** [AccountedBuffer::new]: an error after admission drops the reservation. *)
Definition AccountedBuffer_new (w : Process) (s : nat) (c : BudgetClass) (cap extra : Z) (rid : nat)
    : Res AccountedBuffer * Process :=
  match (n ← checked_add cap extra; checked_add n (size_of_buffer + 2 * size_of_usize)) with
  | None => (Err capacity_limit, w)
  | Some charge =>
      match reserve w s c charge rid with
      | (Err e, w') => (Err e, w')
      | (Ok _, w') =>
          match try_reserve_exact cap with
          | None => (Err capacity_limit, drop_reservation w' rid)
          | Some got =>
              if negb (got =? cap) then (Err unexpected_capacity, drop_reservation w' rid)
              else (Ok {| bytes := []; capacity := got; reservation := rid |}, w')
          end
      end
  end.

Definition body_exceeds : SnapshotError :=
  SnapshotError_new DigestMismatch "body exceeds its fixed expected size".

(** [AccountedBuffer::append]. *)
Definition append (b : AccountedBuffer) (l : list Z) : Res AccountedBuffer :=
  reject? capacity b - buffer_len b <? zlen l with body_exceeds in
  Ok {| bytes := bytes b ++ l; capacity := capacity b; reservation := reservation b |}.

(** [AccountedBuffer::initialize]: [resize(capacity, 0)]. *)
Definition initialize (b : AccountedBuffer) : AccountedBuffer :=
  {| bytes := take (Z.to_nat (capacity b)) (bytes b)
              ++ replicate (Z.to_nat (capacity b - buffer_len b)) 0;
     capacity := capacity b; reservation := reservation b |}.

Definition chunk_exceeds : SnapshotError :=
  SnapshotError_new DigestMismatch "chunk exceeds its fixed output range".

(** [AccountedBuffer::write_at]: [get_mut(offset..end)] then [copy_from_slice]. *)
Definition write_at (b : AccountedBuffer) (offset : Z) (l : list Z) : Res AccountedBuffer :=
  let? stop := ok_or (checked_add offset (zlen l)) capacity_limit in
  reject? buffer_len b <? stop with chunk_exceeds in
  Ok {| bytes := slice (bytes b) 0 offset ++ l ++ slice (bytes b) stop (buffer_len b);
        capacity := capacity b; reservation := reservation b |}.

Definition buffer_inv (b : AccountedBuffer) : Prop := buffer_len b <= capacity b.

Lemma append_ok b l b' :
  append b l = Ok b' <->
  buffer_len b + zlen l <= capacity b /\
  b' = {| bytes := bytes b ++ l; capacity := capacity b; reservation := reservation b |}.
Proof using Type.
  unfold append. rewrite reject_ok, Z.ltb_ge. split; [intros [? [= <-]]|intros [? ->]]; split; auto; lia.
Qed.

Lemma append_inv b l b' : buffer_inv b -> append b l = Ok b' -> buffer_inv b'.
Proof using Type.
  unfold buffer_inv, buffer_len. intros Hb [? ->]%append_ok; simpl. unfold buffer_len in *.
  rewrite zlen_app. lia.
Qed.

Lemma write_at_inv b o l b' :
  buffer_inv b -> 0 <= o -> write_at b o l = Ok b' ->
  buffer_len b' = buffer_len b /\ buffer_inv b' /\ slice (bytes b') o (o + zlen l) = l.
Proof using Type.
  unfold write_at, buffer_inv, buffer_len. intros Hb Ho Hw. inv_ok. bools.
  apply checked_add_some in H as [-> _]. subst b'. simpl. pose proof (zlen_nonneg l).
  assert (zlen (slice (bytes b) 0 o) = o) as Hz by (rewrite zlen_slice; lia).
  rewrite !zlen_app, Hz, zlen_slice by lia. split_and!; [lia..|].
  unfold slice at 1. unfold zlen in Hz |- *.
  rewrite drop_app_length' by lia. apply take_app_length'. lia.
Qed.

(** Dropping the reservation just taken gives every semaphore back. *)
Lemma reserve_drop w s c n rid w' :
  live w !! rid = None -> reserve w s c n rid = (Ok tt, w') ->
  (forall c, p_free (drop_reservation w' rid) c = p_free w c) /\
  live (drop_reservation w' rid) = live w /\
  (forall s', scopes (drop_reservation w' rid) !! s' = scopes w !! s').
Proof using Type.
  intros Hf [[]|(b & k & _ & Hs & Hk & Hl & Hg & ->)]%reserve_cases; [done|].
  unfold drop_reservation. simpl. rewrite lookup_insert_eq. simpl.
  autorewrite with budget. simpl. rewrite lookup_insert_eq. simpl. split_and!.
  - intros c'. autorewrite with budget. repeat case_decide; subst; try done. lia.
  - autorewrite with budget. simpl. by apply delete_insert_id.
  - intros s'. do 3 (autorewrite with budget; simpl). rewrite !lookup_insert.
    case_decide; [subst|done]. rewrite Hs. f_equal. destruct b, c; simpl; f_equal; lia.
Qed.

Lemma new_failure w s c cap extra rid e w' :
  live w !! rid = None -> AccountedBuffer_new w s c cap extra rid = (Err e, w') ->
  (forall c, p_free w' c = p_free w c) /\ live w' = live w /\
  (forall s', scopes w' !! s' = scopes w !! s').
Proof using Type.
  intros Hf. unfold AccountedBuffer_new. case_match; [|intros [= _ <-]; done].
  destruct (reserve w s c z rid) as [[[]|e'] w1] eqn:Hr.
  - pose proof (reserve_drop _ _ _ _ _ _ Hf Hr) as Hd.
    repeat case_match; intros [= _ <-]; exact Hd.
  - intros [= _ <-]. apply reserve_cases in Hr as [(_ & Hr)|(? & ? & ? & _)]; [exact Hr|done].
Qed.

Lemma new_success w s c cap extra rid b w' :
  0 <= cap -> 0 <= extra -> 0 <= size_of_buffer ->
  AccountedBuffer_new w s c cap extra rid = (Ok b, w') ->
  bytes b = [] /\ capacity b = cap /\ buffer_inv b /\
  exists r, live w' !! reservation b = Some r /\ r_class r = c /\ r_scope r = s /\
    cap + extra <= r_credits r * CREDIT.
Proof using Type.
  intros Hc He Hsz. unfold AccountedBuffer_new. case_match eqn:Hch; [|done].
  apply bind_Some in Hch as (n & [-> ?]%checked_add_some & [-> ?]%checked_add_some).
  destruct (reserve w s c _ rid) as [[[]|e'] w1] eqn:Hr; [|done].
  apply reserve_cases in Hr as [[? _]|(b0 & k & _ & Hs & Hk & _ & _ & ->)]; [done|].
  apply credits_for_bounds in Hk as [? _]; [|unfold size_of_usize; lia].
  repeat case_match; intros [= <- <-]. bools. subst. simpl. unfold buffer_inv, buffer_len, zlen; simpl.
  split_and!; try done. eexists. rewrite lookup_insert_eq. split_and!; [done..|].
  simpl. unfold size_of_usize in *. lia.
Qed.

(** The body of a response arrives in arbitrary pieces. *)
Lemma appends_ok b pieces b' :
  buffer_inv b ->
  for_each append b pieces = Ok b' <->
  buffer_len b + zlen (concat pieces) <= capacity b /\
  b' = {| bytes := bytes b ++ concat pieces; capacity := capacity b; reservation := reservation b |}.
Proof using Type.
  revert b; induction pieces as [|l pieces IH]; intros b Hb; cbn [for_each concat].
  { rewrite app_nil_r. unfold buffer_inv in Hb. change (zlen (@nil Z)) with 0.
    destruct b; split; [intros [= <-]; split; [lia|done]|intros [_ ->]; done]. }
  rewrite rbind_ok, zlen_app. pose proof (zlen_nonneg (concat pieces)). split.
  - intros (b1 & Ha & Hf). pose proof (append_inv _ _ _ Hb Ha) as Hb1.
    apply append_ok in Ha as [? ->]. apply IH in Hf as [Hle ->]; [|done].
    unfold buffer_len in *; simpl in *. rewrite zlen_app in Hle. split; [lia|].
    by rewrite <- app_assoc.
  - intros [Hle ->]. set (b1 := {| bytes := bytes b ++ l; capacity := capacity b; reservation := reservation b |}).
    assert (Ha : append b l = Ok b1) by (apply append_ok; split; [lia|done]).
    exists b1. split; [done|]. apply IH; [by eapply append_inv|].
    unfold buffer_len in *; simpl. rewrite zlen_app. split; [lia|]. by rewrite <- app_assoc.
Qed.
End Buffers.

(** An owned buffer is paid for before it exists and never outgrows its
    payment: a successful allocation is empty, has exactly the requested
    capacity and a live reservation covering it; a failed one (admission,
    allocator or unexpected capacity) leaves every semaphore as it was. *)
Lemma buffer_admission size_of_buffer try_reserve w s c cap extra rid r w' :
  0 <= cap -> 0 <= extra -> 0 <= size_of_buffer -> live w !! rid = None ->
  AccountedBuffer_new size_of_buffer try_reserve w s c cap extra rid = (r, w') ->
  match r with
  | Ok b => bytes b = [] /\ capacity b = cap /\
      exists r, live w' !! reservation b = Some r /\ cap + extra <= r_credits r * CREDIT
  | Err _ => (forall c, p_free w' c = p_free w c) /\ live w' = live w /\
      (forall s', scopes w' !! s' = scopes w !! s')
  end.
Proof.
  intros ? ? ? Hf Hn. destruct r as [b|e].
  - destruct (new_success _ _ _ _ _ _ _ _ _ _ H H0 H1 Hn) as (? & ? & _ & ? & ? & _ & _ & ?). eauto 10.
  - by apply new_failure in Hn.
Qed.

(** Whatever way a body is split into pieces, appending them to a buffer
    succeeds exactly when the whole body fits the fixed capacity, and then the
    buffer holds the pieces in order; capacity and reservation never change. *)
Lemma appends_are_concatenation b pieces b' :
  buffer_inv b ->
  for_each append b pieces = Ok b' <->
  buffer_len b + zlen (concat pieces) <= capacity b /\
  b' = {| bytes := bytes b ++ concat pieces; capacity := capacity b; reservation := reservation b |}.
Proof. apply appends_ok. Qed.

(** *** Published content *)
Section Publish.
Context `{HSha : Sha256} (size_of_batch size_of_entry : Z) (try_reserve_exact : Z -> option Z).

Record VerifiedContent : Type := mkContent {
  buffer : AccountedBuffer;
  digest : list Z;
}.

Definition content_mismatch : SnapshotError :=
  SnapshotError_new DigestMismatch "content does not match its fixed size and whole digest".

(** [VerifiedContent::publish]. *)
Definition publish (b : AccountedBuffer) (expected_size : Z) (expected_digest : list Z)
    : Res VerifiedContent :=
  reject? negb (buffer_len b =? expected_size)
          || negb (bool_decide (sha256 (bytes b) = expected_digest)) with content_mismatch in
  Ok {| buffer := b; digest := expected_digest |}.

(** [VerifiedContent::matches_integrity]. *)
Definition matches_integrity (v : VerifiedContent) (d : list Z) (size : Z) : bool :=
  bool_decide (digest v = d) && (buffer_len (buffer v) =? size).

Lemma publish_ok b n d v :
  publish b n d = Ok v <->
  v = {| buffer := b; digest := d |} /\ buffer_len b = n /\ sha256 (bytes b) = d.
Proof using Type.
  unfold publish. rewrite reject_ok, orb_false_iff, !negb_false_iff, Z.eqb_eq, bool_decide_eq_true.
  split; [intros [[? ?] [= <-]]|intros (-> & ? & ?)]; done.
Qed.

(** [BatchBuilder] and [VerifiedContentBatch]. *)
Record BatchBuilder : Type := mkBatch {
  entries : list (string * VerifiedContent);
  entry_capacity : Z;
  batch_reservation : nat;
}.

Definition batch_capacity_error : SnapshotError :=
  SnapshotError_new Internal "unexpected fixed batch table capacity".
Definition batch_entry_error : SnapshotError :=
  SnapshotError_new Internal "invalid fixed batch table entry".
Definition batch_key_error : SnapshotError :=
  SnapshotError_new Internal "unexpected fixed batch key capacity".

Definition BatchBuilder_new (w : Process) (s : nat) (count : Z) (rid : nat)
    : Res BatchBuilder * Process :=
  match (n ← checked_mul count (size_of_entry + 71);
         checked_add n (size_of_batch + 2 * size_of_usize)) with
  | None => (Err capacity_limit, w)
  | Some n =>
      match reserve w s Output n rid with
      | (Err e, w') => (Err e, w')
      | (Ok _, w') =>
          match try_reserve_exact count with
          | None => (Err capacity_limit, drop_reservation w' rid)
          | Some got =>
              if negb (got =? count) then (Err batch_capacity_error, drop_reservation w' rid)
              else (Ok {| entries := []; entry_capacity := got; batch_reservation := rid |}, w')
          end
      end
  end.

Definition push (b : BatchBuilder) (d : string) (v : VerifiedContent) : Res BatchBuilder :=
  reject? negb (str_len d =? 71) || (zlen (entries b) =? entry_capacity b) with batch_entry_error in
  let? got := ok_or (try_reserve_exact 71) capacity_limit in
  reject? negb (got =? 71) with batch_key_error in
  Ok {| entries := entries b ++ [(d, v)]; entry_capacity := entry_capacity b;
        batch_reservation := batch_reservation b |}.

(** [VerifiedContentBatch::get]: the first entry with the digest. *)
Definition batch_get (b : BatchBuilder) (d : string) : option VerifiedContent :=
  snd <$> List.find (fun e => String.eqb (fst e) d) (entries b).

Lemma push_ok b d v b' :
  push b d v = Ok b' ->
  zlen (entries b) <= entry_capacity b ->
  entries b' = entries b ++ [(d, v)] /\ entry_capacity b' = entry_capacity b /\
  zlen (entries b') <= entry_capacity b'.
Proof using try_reserve_exact.
  unfold push. intros Hp Hc. inv_ok. bools. subst b'. simpl. rewrite zlen_app.
  change (zlen [(d, v)]) with 1. split_and!; try done. lia.
Qed.
End Publish.
End Content.
