(* ===== verification/Profile.v ===== *)
(** * Profile

    [src/snapshot/capabilities.rs] and the limit accessors of
    [src/snapshot/client.rs]: the closed canonical capability contract and the
    effective limits of the private transport configured from it. Decoding JSON
    into the wire records is serde's; the records are the input here. *)

From S2P Require Import Prelude Types Text.
Import Counters.
Local Open Scope string_scope.
Local Open Scope list_scope.
Local Open Scope Z_scope.

Record CanonicalCapabilityFeatures : Type := mkFeatures {
  strict_publication : bool; f_directory : bool; f_lookup : bool; f_metadata_pages : bool;
  f_raw_blob : bool; small_objects : bool; f_chunk_reads : bool; f_full_hydration : bool;
  region_hints : bool; offline_export : bool;
}.

(** [CapabilityLimits], and [LimitsWire] whose only textual field is
    [max_file_bytes]. *)
Record CapabilityLimits : Type := mkCapLimits {
  max_file_bytes : Z; max_path_bytes : Z; max_path_components : Z; metadata_page_bytes : Z;
  metadata_leaf_entries : Z; max_json_request_bytes : Z; max_json_response_bytes : Z;
  max_directory_entries : Z; max_request_items : Z; max_metadata_items : Z;
  small_object_bytes : Z; small_batch_bytes : Z; object_frame_raw_bytes : Z;
  chunk_frame_raw_bytes : Z; frame_wire_bytes : Z; zstd_window_bytes : Z; chunk_size : Z;
  chunk_batch_bytes : Z;
}.

Record LimitsWire : Type := mkLimitsWire {
  w_max_file_bytes : string;
  w_limits : CapabilityLimits;   (** the [u32] fields; [max_file_bytes] is unused *)
}.

Record CanonicalWire : Type := mkCanonicalWire {
  w_protocol_versions : list Z;
  w_metadata_codecs : list Z;
  w_frame_encodings : list string;
  w_features : CanonicalCapabilityFeatures;
  w_wire_limits : LimitsWire;
}.

Record CanonicalCapabilities : Type := mkCanonical {
  frame_encodings : list string;
  features : CanonicalCapabilityFeatures;
  limits : CapabilityLimits;
}.

(** The legacy [Capabilities] of [types.rs]. *)
Record CapabilityFeatures : Type := mkLegacyFeatures {
  resolve : bool; directory : bool; leases : bool; lookup : bool; metadata_pages : bool;
  raw_blob : bool; objects : bool; chunk_reads : bool; full_hydration : bool;
}.
Record Capabilities : Type := mkCapabilities {
  protocol_versions : list Z; metadata_codecs : list Z;
  cap_frame_encodings : list string; cap_features : CapabilityFeatures;
}.

Inductive CapabilityAdvertisement : Type :=
  | Canonical (c : CanonicalCapabilities)
  | Legacy (c : Capabilities).

(** [CapabilityAdvertisement::reader_capabilities]. *)
Definition reader_capabilities (a : CapabilityAdvertisement) : Capabilities :=
  match a with
  | Legacy caps => caps
  | Canonical caps =>
      let f := features caps in
      {| protocol_versions := [2]; metadata_codecs := [1]; cap_frame_encodings := ["identity"];
         cap_features :=
           {| resolve := strict_publication f; directory := f_directory f; leases := true;
              lookup := f_lookup f; metadata_pages := f_metadata_pages f; raw_blob := f_raw_blob f;
              objects := small_objects f; chunk_reads := f_chunk_reads f;
              full_hydration := f_full_hydration f |} |}
  end.

Definition capability_invalid : SnapshotError :=
  SnapshotError_new IntegrityError "capability advertisement violates its selected wire contract".

(** The fixed partition values and the hard maxima, as the pairs of the source. *)
Definition fixed_values (l : CapabilityLimits) : list (Z * Z) :=
  [ (metadata_page_bytes l, 16384); (metadata_leaf_entries l, 128);
    (small_object_bytes l, 262144); (object_frame_raw_bytes l, 1048576);
    (chunk_frame_raw_bytes l, 1048652); (chunk_size l, 1048576) ].

Definition hard_maxima (l : CapabilityLimits) : list (Z * Z) :=
  [ (max_path_bytes l, 4096); (max_path_components l, 256);
    (max_json_request_bytes l, 131072); (max_json_response_bytes l, 1048576);
    (max_directory_entries l, 256); (max_request_items l, 128);
    (max_metadata_items l, 64); (small_batch_bytes l, 8388608);
    (frame_wire_bytes l, 2097152); (zstd_window_bytes l, 8388608);
    (chunk_batch_bytes l, 134217728) ].

Definition set_max_file_bytes (n : Z) (l : CapabilityLimits) : CapabilityLimits :=
  {| max_file_bytes := n; max_path_bytes := max_path_bytes l;
     max_path_components := max_path_components l; metadata_page_bytes := metadata_page_bytes l;
     metadata_leaf_entries := metadata_leaf_entries l;
     max_json_request_bytes := max_json_request_bytes l;
     max_json_response_bytes := max_json_response_bytes l;
     max_directory_entries := max_directory_entries l; max_request_items := max_request_items l;
     max_metadata_items := max_metadata_items l; small_object_bytes := small_object_bytes l;
     small_batch_bytes := small_batch_bytes l; object_frame_raw_bytes := object_frame_raw_bytes l;
     chunk_frame_raw_bytes := chunk_frame_raw_bytes l; frame_wire_bytes := frame_wire_bytes l;
     zstd_window_bytes := zstd_window_bytes l; chunk_size := chunk_size l;
     chunk_batch_bytes := chunk_batch_bytes l |}.

(** [capabilities::parse] after contract selection and canonical decoding. *)
Definition check_canonical (wire : CanonicalWire) : Res CapabilityAdvertisement :=
  reject? negb (bool_decide (w_protocol_versions wire = [2]))
          || negb (bool_decide (w_metadata_codecs wire = [1]))
          || negb (in_range 1 (zlen (w_frame_encodings wire)) 2)
          || negb (existsb (fun v => String.eqb v "identity") (w_frame_encodings wire))
          || existsb (fun v => negb (String.eqb v "identity") && negb (String.eqb v "zstd"))
               (w_frame_encodings wire)
          || ((zlen (w_frame_encodings wire) =? 2)
              && bool_decide (w_frame_encodings wire !! 0%nat = w_frame_encodings wire !! 1%nat))
    with capability_invalid in
  let l := w_limits (w_wire_limits wire) in
  let? n := map_err (fun _ => capability_invalid)
              (parse_count (w_max_file_bytes (w_wire_limits wire)) "max_file_bytes") in
  reject? (8796093022208 <? n)
          || existsb (fun p => negb (fst p =? snd p)) (fixed_values l)
          || existsb (fun p => (fst p =? 0) || (snd p <? fst p)) (hard_maxima l)
    with capability_invalid in
  Ok (Canonical {| frame_encodings := w_frame_encodings wire; features := w_features wire;
                   limits := set_max_file_bytes n l |}).

(** ** The private transport's profile *)

(** [Mst2Client::profile]: [None] for legacy deployments. *)
Definition profile : Type := option CanonicalCapabilities.

Definition with_advertisement (a : CapabilityAdvertisement) : profile :=
  match a with Canonical caps => Some caps | Legacy _ => None end.

Definition is_canonical (p : profile) : bool := match p with Some _ => true | None => false end.

Definition limit_or (p : profile) (d : Z) (f : CapabilityLimits -> Z) : Z :=
  match p with Some caps => f (limits caps) | None => d end.

Definition MAX_JSON_REQUEST_BYTES : Z := 131072.
Definition MAX_JSON_RESPONSE_BYTES : Z := 1048576.
Definition MAX_BUFFERED_FILE_BYTES : Z := 64 * 1024 * 1024.

Definition request_byte_limit (p : profile) : Z := limit_or p MAX_JSON_REQUEST_BYTES max_json_request_bytes.
Definition response_byte_limit (p : profile) : Z := limit_or p MAX_JSON_RESPONSE_BYTES max_json_response_bytes.
Definition request_item_limit (p : profile) : Z := limit_or p 128 max_request_items.
Definition metadata_item_limit (p : profile) : Z := limit_or p 64 max_metadata_items.
Definition directory_limit (p : profile) : Z := limit_or p 256 max_directory_entries.
Definition object_byte_limit (p : profile) : Z := limit_or p (8 * 1024 * 1024) small_batch_bytes.
Definition chunk_byte_limit (p : profile) : Z := limit_or p (128 * 1024 * 1024) chunk_batch_bytes.
Definition frame_wire_limit (p : profile) : Z := limit_or p (2 * 1024 * 1024) frame_wire_bytes.

(** [Mst2Client::validate_file_size]. *)
Definition validate_file_size (p : profile) (size : Z) : Res unit :=
  reject? limit_or p MAX_FILE_SIZE max_file_bytes <? size
    with SnapshotError_new LimitExceeded "file exceeds the discovered serving limit" in
  Ok tt.

(** [str::split('/')]. *)
Fixpoint split_slash (s : string) : list string :=
  match s with
  | EmptyString => [EmptyString]
  | String c s =>
      let parts := split_slash s in
      if Ascii.eqb c "/" then EmptyString :: parts
      else match parts with
           | [] => [String c EmptyString]
           | p :: ps => String c p :: ps
           end
  end.

(** [Mst2Client::validate_path]. *)
Definition validate_path (p : profile) (path : string) : Res unit :=
  match p with
  | None => Ok tt
  | Some caps =>
      let path := default path (strip_prefix "/" path) in
      reject? (max_path_bytes (limits caps) <? str_len path + 1)
              || (negb (is_empty path)
                  && (max_path_components (limits caps) <? zlen (split_slash path)))
        with SnapshotError_new LimitExceeded "path exceeds the discovered serving limit" in
      Ok tt
  end.

(** [Mst2Client::require_feature]. *)
Definition require_feature (p : profile) (endpoint : string) : Res unit :=
  match p with
  | None => Ok tt
  | Some caps =>
      let f := features caps in
      let enabled := default false (match_str endpoint
        [ ("resolve", strict_publication f); ("directory", f_directory f); ("lookup", f_lookup f);
          ("metadata/pages", f_metadata_pages f); ("blob", f_raw_blob f);
          ("objects", small_objects f); ("chunks", f_chunk_reads f);
          ("chunk-map", f_chunk_reads f) ]) in
      reject? negb enabled
        with SnapshotError_new SnapshotNotReady "endpoint is disabled by discovery" in
      Ok tt
  end.

(** [Mst2Client::validate_encoding]. *)
Definition validate_encoding (p : profile) (encoding : option string) : Res unit :=
  reject? is_canonical p && match encoding with
                            | Some e => negb (String.eqb e "identity")
                            | None => false
                            end
    with SnapshotError_new InvalidRequest "canonical reader selects identity frames" in
  Ok tt.

(** ** Theorems *)

(** Every limit the transport enforces, with its hard maximum. *)
Definition effective_limits (p : profile) : list (Z * Z) :=
  [ (request_byte_limit p, 131072); (response_byte_limit p, 1048576);
    (request_item_limit p, 128); (metadata_item_limit p, 64); (directory_limit p, 256);
    (object_byte_limit p, 8388608); (chunk_byte_limit p, 134217728);
    (frame_wire_limit p, 2097152) ].

Lemma existsb_false_Forall {A} (q : A -> bool) l : existsb q l = false <-> Forall (fun x => q x = false) l.
Proof.
  induction l as [|x l IH]; simpl; [split; constructor|].
  rewrite orb_false_iff, Forall_cons_iff, IH. done.
Qed.

(** Discovery can only lower limits. An accepted canonical advertisement has
    the fixed codec partition, a supported identity encoding and every limit
    the transport derives from it is positive and within the hard maximum,
    which is also what a legacy (profile-less) transport uses. The hypothesis
    is the [u32] type of the wire fields. *)
Lemma discovery_only_lowers wire a :
  Forall (fun p => 0 <= fst p) (hard_maxima (w_limits (w_wire_limits wire))) ->
  check_canonical wire = Ok a ->
  Forall (fun p => fst p = snd p) (fixed_values (w_limits (w_wire_limits wire))) /\
  "identity" ∈ w_frame_encodings wire /\ NoDup (w_frame_encodings wire) /\
  Forall (fun p => 0 < fst p <= snd p) (effective_limits (with_advertisement a)) /\
  Forall (fun p => fst p = snd p) (effective_limits None) /\
  (forall size, validate_file_size (with_advertisement a) size = Ok tt -> size <= MAX_FILE_SIZE).
Proof.
  unfold check_canonical. intros Hu32 Hc. inv_ok. subst a. bools.
  rewrite !existsb_false_Forall in *. split_all.
  unfold hard_maxima, fixed_values in *.
  repeat match goal with H : Forall _ (_ :: _) |- _ => apply Forall_cons_iff in H as [? H] end.
  simpl in *. bools. split_all. split_and!.
  - repeat (apply Forall_cons_iff; split); simpl; auto.
  - match goal with H : existsb _ _ = true |- _ => apply existsb_exists in H as (v & Hv & ->%String.eqb_eq) end.
    by apply list_elem_of_In.
  - destruct (w_frame_encodings wire) as [|e1 [|e2 [|]]]; unfold zlen in *; simpl in *; try lia;
      [apply NoDup_singleton|].
    apply NoDup_cons_2; [|apply NoDup_singleton]. intros ->%list_elem_of_singleton.
    match goal with H : bool_decide (Some _ = _) = false |- _ => by rewrite bool_decide_eq_true_2 in H end.
  - unfold effective_limits. repeat (apply Forall_cons_iff; split); cbn; try lia. constructor.
  - repeat (apply Forall_cons_iff; split); done.
  - intros size Hs. unfold validate_file_size in Hs. inv_ok. bools. cbn in *. unfold MAX_FILE_SIZE. lia.
Qed.

(** ** Scope paths ([src/snapshot/auth.rs]) *)
Module Scope.

(** The path check of the [mst2-codec] crate: [None], or its error text. *)
Class CodecScope : Type := { codec_validate_scope : string -> option string }.

(** [str::trim_start_matches('/')]. *)
Fixpoint trim_start_slash (s : string) : string :=
  match s with
  | String c s' => if Ascii.eqb c "/" then trim_start_slash s' else s
  | EmptyString => EmptyString
  end.

Section Validate.
Context `{CodecScope}.

(** [auth::validate_scope]. *)
Definition validate_scope (scope : string) : Res unit :=
  reject? 4096 <? str_len scope with SnapshotError_new LimitExceeded "path exceeds 4096 bytes" in
  let parts := split_slash (trim_start_slash scope) in
  reject? (negb (String.eqb scope "/") && (256 <? zlen parts))
          || existsb (fun p => 255 <? str_len p) parts
    with SnapshotError_new LimitExceeded "full path exceeds profile limits" in
  match codec_validate_scope scope with
  | Some e => Err (SnapshotError_new ScopeInvalid ("invalid path: " ++ e))
  | None => Ok tt
  end.

(** The absolute spelling of a relative path, and its composition with the
    descriptor's scope. *)
Definition relative (path : string) : string :=
  let path := if is_empty path then "/" else path in
  if starts_with "/" path then path else "/" ++ path.

Definition compose (scope path : string) : string :=
  if String.eqb scope "/" then relative path
  else if String.eqb (relative path) "/" then scope
  else scope ++ relative path.

(** [AuthorizedSnapshotContext::validate_relative_path]. *)
Definition validate_relative_path (scope path : string) : Res unit :=
  let? _ := validate_scope (relative path) in
  validate_scope (compose scope path).

Lemma validate_scope_ok s :
  validate_scope s = Ok tt <->
  str_len s <= 4096 /\ (s <> "/" -> zlen (split_slash (trim_start_slash s)) <= 256) /\
  Forall (fun p => str_len p <= 255) (split_slash (trim_start_slash s)) /\
  codec_validate_scope s = None.
Proof using Type.
  unfold validate_scope. rewrite !reject_ok, orb_false_iff, andb_false_iff, existsb_false_Forall.
  setoid_rewrite Z.ltb_ge. rewrite negb_false_iff, String.eqb_eq.
  destruct (codec_validate_scope s); [split; [intros (_ & _ & ?)|intros (_ & _ & _ & ?)]; done|].
  destruct (decide (s = "/")); intuition auto; try done.
Qed.
End Validate.

(** A scope-relative path is accepted only when the full path it denotes,
    composed with the fixed scope, stays within the profile: at most 4096
    bytes, at most 256 components (unless it is the root) of at most 255
    bytes each, and valid for the codec. *)
Lemma relative_path_within_profile `{CodecScope} scope path :
  validate_relative_path scope path = Ok tt ->
  let full := compose scope path in
  starts_with "/" (relative path) = true /\ str_len full <= 4096 /\
  (full <> "/" -> zlen (split_slash (trim_start_slash full)) <= 256) /\
  Forall (fun p => str_len p <= 255) (split_slash (trim_start_slash full)) /\
  codec_validate_scope full = None.
Proof.
  intros Hv full. unfold validate_relative_path in Hv. inv_ok.
  assert (x = tt) as -> by (by destruct x). split.
  - unfold relative. destruct (is_empty path); [done|].
    destruct (starts_with "/" path) eqn:Hs; [done|]. by unfold starts_with.
  - by apply validate_scope_ok in Hv.
Qed.
End Scope.
