(* ===== verification/Btree.v ===== *)
(** * Btree

    [BTreeMap<String, V>] of the Rust standard library as the association list
    its iterator yields: keys in strictly increasing byte order. [insert]
    returns the displaced value as in Rust; [binary_search] is the algorithm
    of [slice::binary_search_by]. *)

From Stdlib Require Import Sorted.
From S2P Require Import Prelude.
Local Open Scope Z_scope.

Module Btree.

Section Map.
Context {V : Type}.

Fixpoint get (m : list (string * V)) (k : string) : option V :=
  match m with
  | [] => None
  | (k', v) :: m => if String.eqb k k' then Some v else get m k
  end.

Fixpoint put (m : list (string * V)) (k : string) (v : V) : list (string * V) :=
  match m with
  | [] => [(k, v)]
  | (k', v') :: m' =>
      match String.compare k k' with
      | Lt => (k, v) :: m
      | Eq => (k, v) :: m'
      | Gt => (k', v') :: put m' k v
      end
  end.

(** [BTreeMap::insert]. *)
Definition insert (m : list (string * V)) (k : string) (v : V) : option V * list (string * V) :=
  (get m k, put m k v).

Definition ordered (m : list (string * V)) : Prop := StronglySorted str_lt (fst <$> m).

Lemma get_put m k v j :
  get (put m k v) j = if decide (j = k) then Some v else get m j.
Proof.
  induction m as [|[k' v'] m IH]; simpl.
  - destruct (String.eqb_spec j k); destruct (decide (j = k)); congruence.
  - destruct (String.compare k k') eqn:Hc; simpl.
    + apply str_compare_eq in Hc as ->.
      destruct (String.eqb_spec j k'); destruct (decide (j = k')); congruence.
    + destruct (String.eqb_spec j k); destruct (decide (j = k)); congruence.
    + rewrite IH. destruct (String.eqb_spec j k') as [->|]; [|done].
      destruct (decide (k' = k)) as [->|]; [|done]. by rewrite str_compare_refl in Hc.
Qed.

Lemma get_key m k v : get m k = Some v -> k ∈ m.*1.
Proof.
  induction m as [|[k' v'] m IH]; simpl; [done|].
  destruct (String.eqb_spec k k') as [->|]; [by left|right; auto].
Qed.

Lemma put_keys m k v x : x ∈ (put m k v).*1 -> x = k \/ x ∈ m.*1.
Proof.
  induction m as [|[k' v'] m IH]; simpl; [set_solver|].
  destruct (String.compare k k'); set_solver.
Qed.

Lemma put_ordered m k v : ordered m -> ordered (put m k v).
Proof.
  unfold ordered. induction m as [|[k' v'] m IH]; simpl; intros Hs.
  { by repeat constructor. }
  inversion Hs as [|? ? Hs' Hall]; subst.
  destruct (String.compare k k') eqn:Hc; simpl.
  - apply str_compare_eq in Hc as ->. done.
  - constructor; [done|]. constructor; [done|].
    eapply Forall_impl; [|exact Hall]. intros n Hn. by transitivity k'.
  - constructor; [auto|]. apply Forall_forall. intros x Hx%list_elem_of_In.
    apply put_keys in Hx as [->|Hx]; [by apply str_compare_gt|].
    rewrite Forall_forall in Hall. by apply Hall, list_elem_of_In.
Qed.

Lemma ordered_nodup m : ordered m -> NoDup m.*1.
Proof.
  unfold ordered. induction 1 as [|k l Hs IH Hall]; constructor; [|done].
  intros Hk. rewrite Forall_forall in Hall. apply list_elem_of_In, Hall in Hk.
  by apply str_lt_irrefl in Hk.
Qed.

(** In an ordered map, [get] finds exactly the entry stored at an index. *)
Lemma get_elem m k v : ordered m -> get m k = Some v <-> (k, v) ∈ m.
Proof.
  unfold ordered. induction m as [|[k' v'] m IH]; simpl; intros Hs; [set_solver|].
  inversion Hs as [|? ? Hs' Hall]; subst. rewrite elem_of_cons.
  destruct (String.eqb_spec k k') as [->|Hne].
  - split; [intros [= ->]; by left|]. intros [[= ->]|Hin]; [done|].
    rewrite Forall_forall in Hall. assert (str_lt k' k') as Hlt.
    { apply Hall, list_elem_of_In, list_elem_of_fmap. by exists (k', v). }
    by apply irreflexivity in Hlt; [|apply str_lt_irrefl].
  - rewrite IH by done. split; [by right|]. intros [[= -> ->]|]; done.
Qed.

(** A key after all others goes to the end. *)
Lemma put_last m k v :
  ordered (m ++ [(k, v)]) -> insert m k v = (None, m ++ [(k, v)]).
Proof.
  unfold insert, ordered. intros Hs. f_equal.
  - destruct (get m k) as [w|] eqn:E; [|done]. apply get_key in E.
    pose proof (ordered_nodup (m ++ [(k, v)]) Hs) as Hnd. rewrite fmap_app in Hnd.
    apply list.NoDup_app in Hnd as (_ & Hnd & _). destruct (Hnd k E). simpl. set_solver.
  - induction m as [|[k' v'] m IH]; [done|]. cbn [app fmap list_fmap fst] in Hs. inversion Hs as [|? ? Hs' Hall]; subst.
    cbn [put app]. rewrite Forall_forall in Hall.
    assert (str_lt k' k) as Hlt by (apply Hall, list_elem_of_In; rewrite fmap_app; set_solver).
    apply str_compare_gt in Hlt. by rewrite Hlt, IH.
Qed.

(** Ordered maps with the same entries are the same. *)
Lemma ordered_ext m m' :
  ordered m -> ordered m' -> (forall k v, (k, v) ∈ m <-> (k, v) ∈ m') -> m = m'.
Proof.
  unfold ordered. revert m'. induction m as [|[k v] m IH]; intros [|[k' v'] m'] Hs Hs' Hin.
  - done.
  - exfalso. eapply not_elem_of_nil. apply (Hin k' v'). left.
  - exfalso. eapply not_elem_of_nil. apply (Hin k v). left.
  - inversion Hs as [|? ? Hsm Hall]; inversion Hs' as [|? ? Hsm' Hall']; subst.
    rewrite List.Forall_forall in Hall, Hall'.
    assert (Hlt : forall j w, (j, w) ∈ m -> str_lt k j).
    { intros j w Hj. apply Hall, list_elem_of_In, list_elem_of_fmap. by exists (j, w). }
    assert (Hlt' : forall j w, (j, w) ∈ m' -> str_lt k' j).
    { intros j w Hj. apply Hall', list_elem_of_In, list_elem_of_fmap. by exists (j, w). }
    assert ((k, v) = (k', v')) as [= <- <-].
    { pose proof (proj1 (Hin k v) ltac:(left)) as [?|H1]%elem_of_cons; [done|].
      pose proof (proj2 (Hin k' v') ltac:(left)) as [?|H2]%elem_of_cons; [done|].
      exfalso. eapply str_lt_irrefl. etransitivity; [by eapply Hlt|by eapply Hlt']. }
    f_equal. apply IH; [done|done|]. intros j w. pose proof (Hin j w) as Hj. rewrite !elem_of_cons in Hj.
    split; intros Hw.
    + destruct (proj1 Hj (or_intror Hw)) as [[= -> ->]|]; [|done].
      exfalso. eapply str_lt_irrefl. by eapply Hlt.
    + destruct (proj2 Hj (or_intror Hw)) as [[= -> ->]|]; [|done].
      exfalso. eapply str_lt_irrefl. by eapply Hlt'.
Qed.

(** ** Binary search *)

(** The halving loop: [base] is the last index not known to be too large. *)
Fixpoint halve (fuel : nat) (m : list (string * V)) (k : string) (base size : nat) : nat :=
  match fuel with
  | O => base
  | S fuel =>
      if (1 <? size)%nat then
        let half := (size / 2)%nat in
        let mid := (base + half)%nat in
        let base := match m !! mid with
                    | Some e => match String.compare (fst e) k with Gt => base | _ => mid end
                    | None => base
                    end in
        halve fuel m k base (size - half)
      else base
  end.

(** [binary_search_by(|entry| entry.0.cmp(name)).ok()]. *)
Definition binary_search (m : list (string * V)) (k : string) : option nat :=
  match m with
  | [] => None
  | _ => let i := halve (length m) m k 0 (length m) in
         match m !! i with
         | Some e => if String.eqb (fst e) k then Some i else None
         | None => None
         end
  end.

Lemma ordered_lookup m i j a b :
  ordered m -> m !! i = Some a -> m !! j = Some b -> (i < j)%nat -> str_lt (fst a) (fst b).
Proof.
  unfold ordered. revert i j. induction m as [|[k v] m IH]; intros [|i] [|j] Hs Hi Hj Hij;
    simpl in *; try done; try lia; inversion Hs as [|? ? Hs' Hall]; subst; simplify_eq.
  - rewrite Forall_forall in Hall. apply Hall, list_elem_of_In, list_elem_of_fmap.
    exists b. split; [done|]. by eapply list_elem_of_lookup_2.
  - eapply IH; eauto. lia.
Qed.

(** If the key is stored at [pos], the loop ends on [pos]. *)
Lemma halve_finds fuel m k base size pos v :
  ordered m -> m !! pos = Some (k, v) -> (size <= fuel)%nat ->
  (base <= pos < base + size)%nat -> (base + size <= length m)%nat ->
  halve fuel m k base size = pos.
Proof.
  intros Ho Hpos. revert base size. induction fuel as [|fuel IH]; intros base size Hf Hp Hl; cbn [halve]; [lia|].
  destruct (Nat.ltb_spec 1 size); [|lia].
  assert (Hhalf : (1 <= size / 2 < size)%nat).
  { split; [apply Nat.div_le_lower_bound; lia|apply Nat.div_lt; lia]. }
  assert (2 * (size / 2) <= size)%nat by (apply Nat.Div0.mul_div_le).
  destruct (lookup_lt_is_Some_2 m (base + size / 2)) as [[k' v'] Hmid]; [lia|].
  rewrite Hmid. cbn [fst].
  destruct (String.compare k' k) eqn:Hc.
  - apply str_compare_eq in Hc as ->. apply IH; try lia.
    destruct (lt_eq_lt_dec pos (base + size / 2)) as [[Hlt|?]|?]; try lia.
    pose proof (ordered_lookup _ _ _ _ _ Ho Hpos Hmid Hlt) as Hx. by apply str_lt_irrefl in Hx.
  - apply IH; try lia. destruct (Nat.lt_ge_cases pos (base + size / 2)) as [Hlt|]; [|lia].
    pose proof (ordered_lookup _ _ _ _ _ Ho Hpos Hmid Hlt) as Hx. simpl in Hx.
    exfalso. eapply str_lt_irrefl. by transitivity k'.
  - apply str_compare_gt in Hc. apply IH; try lia.
    destruct (Nat.lt_ge_cases pos (base + size / 2)) as [|Hge]; [lia|].
    destruct (decide (pos = base + size / 2)%nat) as [->|].
    + rewrite Hpos in Hmid. simplify_eq. by apply str_lt_irrefl in Hc.
    + pose proof (ordered_lookup m (base + size / 2) pos _ _ Ho Hmid Hpos ltac:(lia)) as Hx.
      simpl in Hx. exfalso. eapply str_lt_irrefl. by transitivity k'.
Qed.

(** Binary search on the ordered entries agrees with the map lookup. *)
Lemma binary_search_get m k :
  ordered m -> (i ← binary_search m k; snd <$> m !! i) = get m k.
Proof.
  intros Ho. destruct (get m k) as [v|] eqn:Hg.
  - apply get_elem in Hg; [|done]. apply list_elem_of_lookup in Hg as [pos Hpos].
    unfold binary_search. destruct m as [|e m]; [done|]. set (l := e :: m) in *.
    rewrite (halve_finds (length l) l k 0 (length l) pos v) by
      (eauto; apply lookup_lt_Some in Hpos; lia).
    rewrite Hpos. simpl. rewrite String.eqb_refl. simpl. by rewrite Hpos.
  - unfold binary_search. destruct m as [|e m]; [done|]. set (l := e :: m) in *.
    destruct (l !! halve _ l k 0 _) as [[k' v']|] eqn:Hl; [|done]. simpl.
    destruct (String.eqb_spec k' k) as [->|]; [|done].
    apply list_elem_of_lookup_2 in Hl. by rewrite <- get_elem, Hg in Hl.
Qed.
End Map.
End Btree.
