(* ===== verification/Directory.v ===== *)
(** * Directory

    [src/snapshot/directory.rs] with the pagination loops that use it
    ([Mst2Client::directory] and [SnapshotReader::directory_page]),
    [src/snapshot/lookup.rs] and [src/snapshot/fixed_directory_index.rs].
    The serving deployment is the parameter [fetch]: its answer to the i-th
    page request, unconstrained. *)

From Stdlib Require Import Sorted.
From S2P Require Import Prelude Types Text Profile.
Import Counters Digests Scope.
Local Open Scope string_scope.
Local Open Scope list_scope.
Local Open Scope Z_scope.

(** ** Pages *)
Module Dir.

Record DirEntry : Type := mkEntry {
  name : string;
  fs_kind : string;
  size : option string;
  content_digest : option string;
  e_directory_root : option string;
}.

Record DirectoryResponse : Type := mkPage {
  snapshot_id : string;
  path : string;
  metadata_root : string;
  directory_root : string;
  node_class : string;
  lifecycle : string;
  range_start_exclusive : option string;
  entries : list DirEntry;
  entry_count : string;
  next_cursor : option string;
  proof_pages : list (string * string);
}.

Definition integrity : SnapshotError :=
  SnapshotError_new IntegrityError
    "directory response is inconsistent with its fixed request or pagination".

Definition name_valid (n : string) : bool :=
  negb (is_empty n) && (str_len n <=? 255) && negb (one_of n ["."; ".."])
    && negb (existsb (fun b => (b =? 47) || (b =? 0)) (as_bytes n)).

Definition opt_is_some {A} (o : option A) : bool := match o with Some _ => true | None => false end.
Definition is_some_and {A} (o : option A) (p : A -> bool) : bool :=
  match o with Some a => p a | None => false end.

Definition node_classes : list string :=
  ["native_tree"; "native_checkout_root"; "import_root"; "import_tree"; "aggregate"].
Definition lifecycles : list string := ["mutable"; "immutable_release"].

(** The fields of one entry or node, by filesystem kind. *)
Definition check_kind (e : DirEntry) (limit_error : SnapshotError) : Res unit :=
  if String.eqb (fs_kind e) "directory" then
    reject? opt_is_some (size e) || opt_is_some (content_digest e)
            || negb (is_some_and (e_directory_root e) directory_digest_valid) with integrity in
    Ok tt
  else if one_of (fs_kind e) ["regular"; "executable"; "symlink"] then
    reject? opt_is_some (e_directory_root e)
            || negb (is_some_and (content_digest e) digest_valid) with integrity in
    let? text := ok_or (size e) integrity in
    let? n := parse_count text "file size" in
    let cap := if String.eqb (fs_kind e) "symlink" then 4095 else MAX_FILE_SIZE in
    reject? cap <? n with limit_error in
    reject? String.eqb (fs_kind e) "symlink" && (n =? 0) with integrity in
    Ok tt
  else Err integrity.

Definition size_limit : SnapshotError :=
  SnapshotError_new LimitExceeded "directory file size exceeds the filesystem profile".

(** One iteration of the entry loop; the state is [previous]. *)
Definition check_entry (previous : option string) (e : DirEntry) : Res (option string) :=
  reject? negb (name_valid (name e))
          || is_some_and previous (fun p => negb (str_ltb p (name e))) with integrity in
  let? _ := check_kind e size_limit in
  Ok (Some (name e)).

(** [directory::validate_page]. *)
Definition validate_page (page : DirectoryResponse) (sid pth : string) (limit : Z)
    (cursor : option string) : Res unit :=
  let? count := parse_count (entry_count page) "directory entry_count" in
  reject? negb (String.eqb (snapshot_id page) sid)
          || negb (String.eqb (path page) pth)
          || (limit <? zlen (entries page))
          || (count <? zlen (entries page))
          || negb (directory_digest_valid (metadata_root page))
          || negb (directory_digest_valid (directory_root page))
          || negb (one_of (node_class page) node_classes)
          || negb (one_of (lifecycle page) lifecycles)
          || (negb (opt_is_some cursor) && opt_is_some (range_start_exclusive page))
          || is_some_and (range_start_exclusive page) (fun n => negb (name_valid n))
          || is_some_and (next_cursor page) (fun next =>
               is_empty next || bool_decide (Some next = cursor)
               || bool_decide (entries page = [] ))
    with integrity in
  let? _ := for_each check_entry (range_start_exclusive page) (entries page) in
  Ok tt.

(** ** Continuity *)

Record Progress : Type := mkProgress {
  root : option string;
  count : option Z;
  p_node_class : option string;
  p_lifecycle : option string;
  seen : Z;
  last_name : option string;
}.

Definition Progress_default : Progress :=
  {| root := None; count := None; p_node_class := None; p_lifecycle := None;
     seen := 0; last_name := None |}.

Definition for_root (r : string) : Progress :=
  {| root := Some r; count := None; p_node_class := None; p_lifecycle := None;
     seen := 0; last_name := None |}.

Definition differs (fixed : option string) (actual : string) : bool :=
  is_some_and fixed (fun f => negb (String.eqb f actual)).

(** [Progress::accept]. *)
Definition accept (p : Progress) (page : DirectoryResponse) (mroot : string) : Res Progress :=
  let? n := parse_count (entry_count page) "directory entry_count" in
  let? s := ok_or (checked_add (seen p) (zlen (entries page))) integrity in
  reject? negb (String.eqb (metadata_root page) mroot)
          || (String.eqb (path page) "/" && negb (String.eqb (directory_root page) mroot))
          || differs (root p) (directory_root page)
          || is_some_and (count p) (fun fixed => negb (fixed =? n))
          || differs (p_node_class p) (node_class page)
          || differs (p_lifecycle p) (lifecycle page)
          || negb (bool_decide (range_start_exclusive page = last_name p))
          || (n <? s)
          || (negb (opt_is_some (next_cursor page)) && negb (s =? n))
    with integrity in
  Ok {| root := Some (directory_root page); count := Some n;
        p_node_class := Some (node_class page); p_lifecycle := Some (lifecycle page);
        seen := s; last_name := name <$> list.last (entries page) |}.

(** ** The enumeration loops *)
Section Loop.
Context `{CodecScope} (p : profile) (scope sid mroot : string).
(** The lease check before the i-th request and the i-th answer. *)
Context (ensure_lease : nat -> Res unit) (fetch : nat -> Z -> option string -> Res DirectoryResponse).

(** [Mst2Client::directory]. *)
Definition client_directory (i : nat) (pth : string) (limit : Z) (cursor : option string)
    : Res DirectoryResponse :=
  let? _ := require_feature p "directory" in
  let? _ := validate_path p pth in
  reject? negb (in_range 1 limit 256)
    with SnapshotError_new ScopeInvalid "directory limit must be 1..256" in
  let limit := Z.min limit (directory_limit p) in
  let? page := fetch i limit cursor in
  let? _ := validate_page page sid pth limit cursor in
  let? _ := for_each (fun _ e =>
      match size e with
      | Some text => let? n := parse_count text "directory size" in validate_file_size p n
      | None => Ok tt
      end) tt (entries page) in
  Ok page.

Definition cursor_stale : SnapshotError :=
  SnapshotError_new CursorStale "directory_root changed mid-enumeration".

(** Merge a page into the accumulated response. *)
Definition merge (merged : option DirectoryResponse) (page : DirectoryResponse)
    : Res DirectoryResponse :=
  match merged with
  | None => Ok page
  | Some acc =>
      reject? negb (String.eqb (directory_root acc) (directory_root page)) with cursor_stale in
      Ok {| snapshot_id := snapshot_id acc; path := path acc; metadata_root := metadata_root acc;
            directory_root := directory_root acc; node_class := node_class acc;
            lifecycle := lifecycle acc; range_start_exclusive := range_start_exclusive acc;
            entries := entries acc ++ entries page; entry_count := entry_count acc;
            next_cursor := next_cursor page; proof_pages := proof_pages acc |}
  end.

(** The loop of [SnapshotReader::directory_page]; [None] is out of fuel. *)
Fixpoint page_loop (fuel i : nat) (dir : string) (limit : Z) (cursor : option string)
    (merged : option DirectoryResponse) (progress : Progress) : option (Res DirectoryResponse) :=
  match fuel with
  | O => None
  | S fuel =>
      match (let? _ := ensure_lease i in
             let? page := client_directory i dir limit cursor in
             let? progress := accept progress page mroot in
             let? merged := merge merged page in
             Ok (page, progress, merged)) with
      | Err e => Some (Err e)
      | Ok (page, progress, merged) =>
          match next_cursor page with
          | None => Some (Ok merged)
          | Some c => page_loop fuel (S i) dir limit (Some c) (Some merged) progress
          end
      end
  end.

Definition directory_page (fuel : nat) (dir : string) (limit : Z) : option (Res DirectoryResponse) :=
  match validate_relative_path scope dir with
  | Err e => Some (Err e)
  | Ok _ => page_loop fuel 0 dir limit None None Progress_default
  end.
End Loop.

(** ** What an accepted page establishes *)

Definition names (l : list DirEntry) : list string := name <$> l.

(** The facts about one entry that hold on every accepted page. *)
Definition entry_ok (e : DirEntry) : Prop :=
  name_valid (name e) = true /\ check_kind e size_limit = Ok tt.

Lemma check_entries_ok prev es last' :
  for_each check_entry prev es = Ok last' ->
  StronglySorted str_lt (names es) /\ Forall entry_ok es /\
  (forall p, prev = Some p -> Forall (str_lt p) (names es)).
Proof.
  revert prev. induction es as [|e es IH]; intros prev Hf; simpl in *.
  { split_and!; [constructor..|]. intros; constructor. }
  unfold check_entry at 1 in Hf. inv_ok. subst. destruct (IH _ Hf) as (Hs & Hok & Hlt).
  bools. split_all. specialize (Hlt _ eq_refl). split_and!.
  - by constructor.
  - constructor; [|done]. split; [done|]. by destruct x0.
  - intros p ->. simpl in *. bools. constructor; [done|].
    eapply Forall_impl; [|exact Hlt]. intros n Hn. by etrans.
Qed.

Lemma sorted_last_max l m x :
  StronglySorted str_lt l -> list.last l = Some m -> x ∈ l -> x = m \/ str_lt x m.
Proof.
  intros Hs. revert m. induction Hs as [|a l Hl IH Ha]; intros m Hm Hx; [done|].
  destruct l as [|b l].
  - simpl in Hm. simplify_eq. left. set_solver.
  - rewrite last_cons_cons in Hm. apply elem_of_cons in Hx as [->|Hx]; [|auto].
    right. rewrite Forall_forall in Ha. apply Ha, list_elem_of_In.
    by apply last_Some_elem_of.
Qed.

Lemma sorted_append l k m :
  StronglySorted str_lt l -> StronglySorted str_lt k -> list.last l = Some m ->
  Forall (str_lt m) k -> StronglySorted str_lt (l ++ k).
Proof.
  intros Hl Hk Hm Hlt.
  assert (Hmax : Forall (fun x => x = m \/ str_lt x m) l).
  { apply Forall_forall. intros x Hx%list_elem_of_In. exact (sorted_last_max l m x Hl Hm Hx). }
  clear Hm. induction Hl as [|a l Hl IH Ha]; simpl; [done|].
  apply Forall_cons_iff in Hmax as [Hx Hmax]. constructor; [auto|].
  apply Forall_app. split; [done|].
  eapply Forall_impl; [|exact Hlt]. intros n Hn. destruct Hx as [->|]; [done|by transitivity m].
Qed.

(** ** The enumeration is complete, ordered and finite *)
Section Enumeration.
Context (p : profile) (sid mroot dir : string) (limit : Z).
Context (fetch : nat -> Z -> option string -> Res DirectoryResponse).

(** A response about the requested directory of the fixed snapshot whose
    entries are in strict byte order of their names, each one well formed. *)
Definition consistent (r : DirectoryResponse) : Prop :=
  snapshot_id r = sid /\ path r = dir /\ metadata_root r = mroot /\
  (dir = "/" -> directory_root r = mroot) /\
  StronglySorted str_lt (names (entries r)) /\ Forall entry_ok (entries r).

Definition so_far (merged : option DirectoryResponse) : list DirEntry :=
  match merged with None => [] | Some acc => entries acc end.

(** The loop invariant between two requests. *)
Definition tracked (merged : option DirectoryResponse) (pr : Progress) : Prop :=
  seen pr = zlen (so_far merged) /\ last_name pr = list.last (names (so_far merged)) /\
  match merged with
  | None => pr = Progress_default
  | Some acc => consistent acc /\
      exists n, count pr = Some n /\ zlen (entries acc) <= n /\
                parse_count (entry_count acc) "directory entry_count" = Ok n
  end.

Lemma client_directory_ok i l cursor page :
  client_directory p sid fetch i dir l cursor = Ok page ->
  (exists l', fetch i l' cursor = Ok page) /\ snapshot_id page = sid /\ path page = dir /\
  (next_cursor page <> None -> entries page <> []) /\
  StronglySorted str_lt (names (entries page)) /\ Forall entry_ok (entries page) /\
  (forall q, range_start_exclusive page = Some q -> Forall (str_lt q) (names (entries page))).
Proof using Type.
  unfold client_directory, validate_page. intros Hc. inv_ok. subst.
  match goal with H : for_each check_entry _ _ = Ok _ |- _ => apply check_entries_ok in H as (?&?&?) end.
  bools. split_all. split_and!; eauto.
  intros Hn He. destruct (next_cursor page); [|done]. simpl in *. bools. split_all.
  match goal with H : bool_decide (_ = []) = false |- _ => by apply bool_decide_eq_false in H end.
Qed.

Lemma accept_ok pr page pr' :
  accept pr page mroot = Ok pr' ->
  exists n, parse_count (entry_count page) "directory entry_count" = Ok n /\
    metadata_root page = mroot /\ (path page = "/" -> directory_root page = mroot) /\
    (forall f, count pr = Some f -> f = n) /\ range_start_exclusive page = last_name pr /\
    count pr' = Some n /\ seen pr' = seen pr + zlen (entries page) /\ seen pr' <= n /\
    (next_cursor page = None -> seen pr' = n) /\
    last_name pr' = name <$> list.last (entries page).
Proof using Type.
  unfold accept. intros Ha. inv_ok. subst. simpl in *.
  match goal with H : checked_add _ _ = Some _ |- _ => apply checked_add_some in H as [-> _] end.
  bools. split_all. rewrite ?andb_false_iff in *.
  eexists; split_and!; eauto; try lia.
  - intros Hr. rewrite Hr in *. simpl in *. bools. naive_solver.
  - intros f Hf. rewrite Hf in *. simpl in *. by bools.
  - by match goal with H : bool_decide _ = true |- _ => apply bool_decide_eq_true in H end.
  - intros Hn. rewrite Hn in *. simpl in *. bools. naive_solver.
Qed.

Lemma merge_ok merged page m :
  merge merged page = Ok m ->
  entries m = so_far merged ++ entries page /\ next_cursor m = next_cursor page /\
  match merged with
  | None => m = page
  | Some acc => snapshot_id m = snapshot_id acc /\ path m = path acc /\
      metadata_root m = metadata_root acc /\ directory_root m = directory_root acc /\
      entry_count m = entry_count acc
  end.
Proof using Type. unfold merge. destruct merged; intros Hm; inv_ok; subst; naive_solver. Qed.

(** One iteration: the merged response stays consistent, the count never
    changes, and a continuation re-establishes the invariant with progress. *)
Lemma iteration i cursor merged pr page pr' m :
  tracked merged pr ->
  client_directory p sid fetch i dir limit cursor = Ok page ->
  accept pr page mroot = Ok pr' -> merge merged page = Ok m ->
  consistent m /\ (next_cursor page <> None -> tracked (Some m) pr' /\ seen pr < seen pr') /\
  (next_cursor page = None ->
     parse_count (entry_count m) "directory entry_count" = Ok (zlen (entries m))).
Proof using Type.
  intros (Hseen & Hlast & Hm) (_ & Hsid & Hpath & Hne & Hsorted & Hentries & Hstart)%client_directory_ok
    (n & Hcount & Hmroot & Hroot & Hfix & Hrange & Hc' & Hs' & Hle & Heof & Hl')%accept_ok
    (He & Hnc & Hmm)%merge_ok.
  rewrite Hrange, Hlast in Hstart.
  assert (Hall : StronglySorted str_lt (names (entries m)) /\ Forall entry_ok (entries m)).
  { rewrite He. unfold names. rewrite fmap_app. destruct merged as [acc|]; simpl in *.
    - destruct Hm as [(?&?&?&?&?&?) _]. split; [|by apply Forall_app_2].
      destruct (list.last (names (entries acc))) as [q|] eqn:Hq.
      + by eapply sorted_append; eauto.
      + apply last_None in Hq. unfold names in Hq. by rewrite Hq.
    - by split. }
  assert (Hlen : zlen (entries m) = seen pr') by (rewrite He, zlen_app; lia).
  assert (Hcm : consistent m /\ parse_count (entry_count m) "directory entry_count" = Ok n).
  { destruct merged as [acc|]; [|subst m; unfold consistent; naive_solver].
    destruct Hm as [(?&?&?&?&_) (n' & Hn' & _ & Hp)]. rewrite (Hfix _ Hn') in *.
    destruct Hmm as (E1&E2&E3&E4&E5). unfold consistent. rewrite E1, E2, E3, E4, E5. destruct Hall. split_and!; auto. }
  destruct Hcm as [Hcm Hpm]. split_and!; [done| |].
  - intros Hn. split.
    + split_and!; simpl; [done| |done|exists n; split_and!; auto; lia].
      rewrite Hl', He. unfold names. rewrite fmap_app, last_app, (fmap_last _ (entries page)).
      destruct (list.last (entries page)) eqn:Hlp; [done|]. apply last_None in Hlp. naive_solver.
    + specialize (Hne Hn). destruct (entries page); [done|]. rewrite Hs'. unfold zlen. simpl. lia.
  - intros Hn. rewrite Hpm. f_equal. rewrite <- (Heof Hn). lia.
Qed.

(** The pages a finished loop merged, in request order. *)
Definition fetched (i : nat) (pages : list DirectoryResponse) : Prop :=
  forall k page, pages !! k = Some page -> exists l c, fetch (i + k)%nat l c = Ok page.

Context (ensure_lease : nat -> Res unit).

Lemma page_loop_ok fuel i cursor merged pr r :
  tracked merged pr ->
  page_loop p sid mroot ensure_lease fetch fuel i dir limit cursor merged pr = Some (Ok r) ->
  consistent r /\ next_cursor r = None /\
  parse_count (entry_count r) "directory entry_count" = Ok (zlen (entries r)) /\
  exists pages, fetched i pages /\ entries r = so_far merged ++ concat (entries <$> pages).
Proof using Type.
  revert i cursor merged pr. induction fuel as [|fuel IH]; intros i cursor merged pr Ht; simpl; [done|].
  destruct (rbind _ _) as [[[page pr'] m]|] eqn:Hb; [|done]. inv_ok. simplify_eq.
  match goal with H : client_directory _ _ _ _ _ _ _ = Ok _ |- _ => rename H into Hpage end.
  match goal with H : accept _ _ _ = Ok _ |- _ => rename H into Hacc end.
  match goal with H : merge _ _ = Ok _ |- _ => rename H into Hmerge end.
  destruct (iteration _ _ _ _ _ _ _ Ht Hpage Hacc Hmerge) as (Hcons & Hnext & Heof).
  destruct (client_directory_ok _ _ _ _ Hpage) as ((l' & Hf) & _).
  destruct (merge_ok _ _ _ Hmerge) as (He & Hnc & _).
  destruct (next_cursor page) as [c|] eqn:Hc.
  - intros Hr. destruct (Hnext ltac:(done)) as [Ht' _].
    destruct (IH _ _ _ _ Ht' Hr) as (? & ? & ? & pages & Hp & Hr').
    split_and!; auto. exists (page :: pages). split.
    + intros [|k] q Hq; simpl in Hq; simplify_eq; [rewrite Nat.add_0_r; eauto|].
      destruct (Hp k q Hq) as (? & ? & ?). replace (i + S k)%nat with (S i + k)%nat by lia. eauto.
    + simpl in *. by rewrite Hr', He, <- app_assoc.
  - intros [= ->]. split_and!; auto. exists [page]. split.
    + intros [|k] q Hq; simpl in Hq; simplify_eq. rewrite Nat.add_0_r. eauto.
    + simpl. by rewrite app_nil_r, He.
Qed.

(** Progress towards the fixed count bounds the number of requests. *)
Lemma page_loop_total fuel i cursor merged pr :
  tracked merged pr -> u64_max - seen pr < Z.of_nat fuel ->
  is_Some (page_loop p sid mroot ensure_lease fetch fuel i dir limit cursor merged pr).
Proof using Type.
  revert i cursor merged pr. induction fuel as [|fuel IH]; intros i cursor merged pr Ht Hf; simpl.
  { destruct Ht as (Hs & _ & Hm). destruct merged as [acc|]; simpl in Hs.
    - destruct Hm as (_ & n & _ & Hn & Hp). apply parse_count_ok in Hp as [_ Hu].
      unfold i64_max, u64_max in *. lia.
    - rewrite Hs in Hf. by cbv in Hf. }
  destruct (rbind _ _) as [[[page pr'] m]|] eqn:Hb; [|eauto]. inv_ok. simplify_eq.
  match goal with H : client_directory _ _ _ _ _ _ _ = Ok _ |- _ => rename H into Hpage end.
  destruct (iteration _ _ _ _ _ _ _ Ht Hpage ltac:(eassumption) ltac:(eassumption)) as (_ & Hnext & _).
  destruct (next_cursor page); [|eauto]. destruct (Hnext ltac:(done)) as [Ht' Hlt].
  apply IH; [done|lia].
Qed.

End Enumeration.

Lemma tracked_init sid mroot dir : tracked sid mroot dir None Progress_default.
Proof. done. Qed.

(** C10: whatever pages the deployment serves, a directory enumeration that
    succeeds returns exactly the concatenation of the pages it fetched; the
    merged listing belongs to the requested directory of the fixed snapshot,
    its names are strictly increasing (so no entry is repeated, reordered or
    inserted between pages), every entry is well formed for its kind, and the
    number of entries equals the advertised count. *)
Theorem enumeration_complete `{CodecScope} p scope sid mroot dir limit lease fetch fuel r :
  directory_page p scope sid mroot lease fetch fuel dir limit = Some (Ok r) ->
  consistent sid mroot dir r /\ next_cursor r = None /\
  parse_count (entry_count r) "directory entry_count" = Ok (zlen (entries r)) /\
  exists pages, fetched fetch 0 pages /\ entries r = concat (entries <$> pages).
Proof.
  unfold directory_page. destruct (validate_relative_path scope dir); [|done].
  intros Hl. by eapply page_loop_ok in Hl; [|apply tracked_init].
Qed.

(** The cursor loop cannot be kept alive by the deployment. For every
    sequence of answers, the enumeration returns after at most 2^64 requests:
    each continued page delivers an entry and the fixed 64-bit count bounds
    their number. *)
Lemma enumeration_terminates `{CodecScope} p scope sid mroot dir limit lease fetch :
  exists r, directory_page p scope sid mroot lease fetch (Z.to_nat (u64_max + 1)) dir limit = Some r.
Proof.
  unfold directory_page. destruct (validate_relative_path scope dir); [|eauto].
  apply page_loop_total; [apply tracked_init|]. simpl. rewrite Z2Nat.id by done. lia.
Qed.
End Dir.
