(* ===== verification/Namespace.v ===== *)
(** * Namespace

    Conditional lookup nodes ([src/snapshot/lookup.rs]), the recursive JSON
    walk of the scope ([SnapshotReader::walk_dir] in [src/snapshot/reader.rs])
    and the immutable child index of a directory
    ([src/snapshot/fixed_directory_index.rs]). *)

From Stdlib Require Import Sorted.
From S2P Require Import Prelude Types Text Profile Directory Btree.
Import Counters Digests Scope.
Local Open Scope string_scope.
Local Open Scope list_scope.
Local Open Scope Z_scope.

(** ** Lookup nodes *)
Module Lookup.

Record LookupNode : Type := mkNode {
  n_name : option string;
  n_fs_kind : string;
  n_size : option string;
  n_content_digest : option string;
  n_directory_root : option string;
}.

Definition lookup_integrity : SnapshotError :=
  SnapshotError_new IntegrityError
    "lookup node fields are inconsistent with the requested path or filesystem kind".

Definition lookup_limit : SnapshotError :=
  SnapshotError_new LimitExceeded "lookup file size exceeds the filesystem profile".

(** [path.rsplit('/').next()]: the last component. *)
Definition last_component (path : string) : option string := list.last (split_slash path).

(** [lookup::validate_node]. *)
Definition validate_node (node : LookupNode) (path : string) : Res unit :=
  let? _ :=
    (if String.eqb path "/" then
       reject? Dir.opt_is_some (n_name node) || negb (String.eqb (n_fs_kind node) "directory")
         with lookup_integrity in Ok tt
     else
       reject? negb (Dir.is_some_and (n_name node) (fun n =>
                       Dir.name_valid n && bool_decide (Some n = last_component path)))
         with lookup_integrity in Ok tt) in
  if String.eqb (n_fs_kind node) "directory" then
    reject? Dir.opt_is_some (n_size node) || Dir.opt_is_some (n_content_digest node)
            || negb (Dir.is_some_and (n_directory_root node) directory_digest_valid)
      with lookup_integrity in
    Ok tt
  else if one_of (n_fs_kind node) ["regular"; "executable"; "symlink"] then
    reject? Dir.opt_is_some (n_directory_root node)
            || negb (Dir.is_some_and (n_content_digest node) digest_valid) with lookup_integrity in
    let? text := ok_or (n_size node) lookup_integrity in
    let? n := parse_count text "lookup size" in
    let cap := if String.eqb (n_fs_kind node) "symlink" then 4095 else MAX_FILE_SIZE in
    reject? cap <? n with lookup_limit in
    reject? String.eqb (n_fs_kind node) "symlink" && (n =? 0) with lookup_integrity in
    Ok tt
  else Err lookup_integrity.

(** The typed identity a node denotes, when it has exactly the fields of its
    kind: a directory a root and neither size nor digest, a file or a link a
    size and a digest and no root. *)
Definition identity_of (node : LookupNode) : option SnapshotNodeIdentity :=
  match n_size node, n_content_digest node, n_directory_root node with
  | None, None, Some root => match_str (n_fs_kind node) [("directory", Directory root)]
  | Some t, Some d, None =>
      match parse_count t "lookup size" with
      | Err _ => None
      | Ok n => match_str (n_fs_kind node)
                  [("regular", Regular n d); ("executable", Executable n d); ("symlink", Symlink n d)]
      end
  | _, _, _ => None
  end.

(** What the profile promises of an identity. *)
Definition identity_wf (i : SnapshotNodeIdentity) : Prop :=
  match i with
  | Directory r => directory_digest_valid r = true
  | Regular n d | Executable n d => 0 <= n <= MAX_FILE_SIZE /\ digest_valid d = true
  | Symlink n d => 1 <= n <= 4095 /\ digest_valid d = true
  end.

Ltac unpack_guard :=
  repeat match goal with
  | H : Dir.is_some_and ?o _ = true |- _ => destruct o eqn:?; simpl in H; [|done]
  | H : Dir.opt_is_some ?o = false |- _ => destruct o eqn:?; simpl in H; [done|]; clear H
  end.

(** An accepted lookup node has one of the four filesystem kinds with exactly
    the fields of that kind, within the profile (a symlink target of 1..4095
    bytes, a file of at most 8 TiB, a nonzero directory root); below the root
    its name is the last component of the requested path, and the root itself
    is an unnamed directory. *)
Lemma lookup_node_typed node path :
  validate_node node path = Ok tt ->
  (exists i, identity_of node = Some i /\ identity_wf i) /\
  (path = "/" -> n_name node = None /\ n_fs_kind node = "directory") /\
  (path <> "/" -> exists n, n_name node = Some n /\ Dir.name_valid n = true /\
                            last_component path = Some n).
Proof.
  unfold validate_node. intros Hv. inv_ok. split_and!.
  - clear H. unfold identity_of. destruct (String.eqb_spec (n_fs_kind node) "directory") as [|Hnd].
    + inv_ok. bools. split_all. unpack_guard.
      match goal with H : n_fs_kind node = _ |- _ => rewrite H end. eexists; split; [reflexivity|]. done.
    + destruct (one_of _ _) eqn:Hk; [|done]. inv_ok. bools. split_all. unpack_guard.
      match goal with H : Some _ = Some _ |- _ => injection H as -> | _ => idtac end.
      repeat match goal with H : _ = Some _ |- _ => rewrite H; clear H end. simpl.
      match goal with H : parse_count _ _ = Ok _ |- _ =>
        rewrite H; pose proof (proj1 (parse_count_ok _ _ _) H) as [_ ?] end.
      rewrite andb_false_iff in *.
      rewrite !elem_of_cons in Hk. destruct Hk as [Hk|[Hk|[Hk|Hk]]]; [..|set_solver];
        rewrite Hk in *; eexists; (split; [reflexivity|]); simpl in *; bools;
        (split; [|done]); [lia..|]. naive_solver lia.
  - intros ->. simpl in *. inv_ok. bools. split_all. unpack_guard. done.
  - intros Hp. apply String.eqb_neq in Hp. rewrite Hp in *. inv_ok. bools. unpack_guard. bools.
    split_all. eexists; split_and!; eauto.
    by match goal with H : bool_decide _ = true |- _ => apply bool_decide_eq_true in H end.
Qed.
End Lookup.

(** ** Fixed directory index *)
Module Index.

Inductive FixedDirectoryIndex : Type :=
  | Building (entries : list (string * Z))
  | Ready (entries : list (string * Z)).

Definition index_default : FixedDirectoryIndex := Building [].

Definition get (ix : FixedDirectoryIndex) (name : string) : option Z :=
  match ix with
  | Building entries => Btree.get entries name
  | Ready entries => i ← Btree.binary_search entries name; snd <$> entries !! i
  end.

Definition contains_key (ix : FixedDirectoryIndex) (name : string) : bool :=
  Dir.opt_is_some (get ix name).

Definition insert (ix : FixedDirectoryIndex) (name : string) (inode : Z)
    : Res (option Z * FixedDirectoryIndex) :=
  match ix with
  | Building entries =>
      let '(old, entries) := Btree.insert entries name inode in Ok (old, Building entries)
  | Ready _ =>
      Err (SnapshotError_new IntegrityError "complete fixed directory index is immutable")
  end.

Definition seal (ix : FixedDirectoryIndex) : FixedDirectoryIndex :=
  match ix with
  | Building entries => Ready entries
  | Ready entries => Ready entries
  end.

Definition snapshot (ix : FixedDirectoryIndex) : Res (list (string * Z)) :=
  match ix with
  | Ready entries => Ok entries
  | Building _ => Err (SnapshotError_new IntegrityError "fixed directory index is not complete")
  end.

(** Any use of the index: insertions (a rejected one changes nothing) and sealing. *)
Inductive op : Type := Insert (name : string) (inode : Z) | Seal.

Definition apply_op (ix : FixedDirectoryIndex) (o : op) : FixedDirectoryIndex :=
  match o with
  | Insert n i => match insert ix n i with Ok (_, ix) => ix | Err _ => ix end
  | Seal => seal ix
  end.

Definition run (ops : list op) : FixedDirectoryIndex := foldl apply_op index_default ops.

(** The abstract index: a finite map and whether it is frozen. *)
Definition spec : Type := gmap string Z * bool.
Definition spec_op (s : spec) (o : op) : spec :=
  match o with
  | Insert n i => if snd s then s else (<[n := i]> (fst s), false)
  | Seal => (fst s, true)
  end.
Definition spec_run (ops : list op) : spec := foldl spec_op (∅, false) ops.

Definition entries_of (ix : FixedDirectoryIndex) : list (string * Z) :=
  match ix with Building e | Ready e => e end.
Definition sealed (ix : FixedDirectoryIndex) : bool :=
  match ix with Building _ => false | Ready _ => true end.

Definition refines (ix : FixedDirectoryIndex) (s : spec) : Prop :=
  Btree.ordered (entries_of ix) /\ sealed ix = snd s /\
  forall n, Btree.get (entries_of ix) n = fst s !! n.

Lemma get_entries ix n : Btree.ordered (entries_of ix) -> get ix n = Btree.get (entries_of ix) n.
Proof. destruct ix; simpl; [done|]. apply Btree.binary_search_get. Qed.

Lemma refines_op ix s o : refines ix s -> refines (apply_op ix o) (spec_op s o).
Proof.
  intros (Ho & Hs & Hg). destruct s as [m b]; simpl in *. destruct o as [n i|]; simpl.
  - destruct ix as [e|e]; simpl in *; subst b; [|by split_and!].
    split_and!; simpl; [by apply Btree.put_ordered|done|].
    intros j. rewrite Btree.get_put, Hg. destruct (decide (j = n)) as [->|].
    + by rewrite lookup_insert_eq.
    + by rewrite lookup_insert_ne.
  - destruct ix; by split_and!.
Qed.

Lemma refines_run ops ix s : refines ix s -> refines (foldl apply_op ix ops) (foldl spec_op s ops).
Proof. revert ix s. induction ops as [|o ops IH]; simpl; intros; [done|]. by apply IH, refines_op. Qed.

(** C29: the index refines a finite map that freezes once. After any sequence of
    insertions and seals, [get] answers exactly the abstract lookup whether it
    walks the tree or binary-searches the sealed array; a sealed index refuses
    every insertion, an open one refuses to publish, and the published entries
    are the map's contents in strict name order. *)
Theorem index_refines_map ops :
  let ix := run ops in
  let '(m, frozen) := spec_run ops in
  (forall name, get ix name = m !! name) /\
  (forall name, contains_key ix name = true <-> is_Some (m !! name)) /\
  (forall name inode, is_ok (insert ix name inode) = negb frozen) /\
  is_ok (snapshot ix) = frozen /\
  (forall l, snapshot ix = Ok l ->
     Btree.ordered l /\ forall name inode, (name, inode) ∈ l <-> m !! name = Some inode).
Proof.
  intros ix. assert (Hr : refines ix (spec_run ops)).
  { apply refines_run. split_and!; simpl; [constructor|done|]. intros. by rewrite lookup_empty. }
  destruct (spec_run ops) as [m frozen]. destruct Hr as (Ho & Hs & Hg). simpl in *.
  assert (Hget : forall name, get ix name = m !! name) by (intros; by rewrite get_entries).
  split_and!; [done| | | |].
  - intros name. unfold contains_key. rewrite Hget. unfold is_Some.
    destruct (m !! name); simpl; naive_solver.
  - intros. subst frozen. by destruct ix.
  - subst frozen. by destruct ix.
  - intros l Hl. destruct ix as [|e]; simpl in *; [done|]. simplify_eq. split; [done|].
    intros name inode. by rewrite <- Hg, Btree.get_elem.
Qed.
End Index.
