(* ===== verification/Coordinator.v ===== *)
(** * Coordinator

    [src/snapshot/coordinator.rs]: single-flight content fetching. The one
    mutex makes joining, last-waiter detachment and completion atomic, so the
    coordinator is a transition system whose steps are those critical sections
    and the admission decisions around them. A [Flight] is identified by its
    generation, which [Inflight::id] never reissues; a oneshot channel by its
    waiter id. A completed job takes its waiters in the critical section and
    sends to them right after it; [finish] is both in one step, with the release
    of the permits. The process-wide semaphores are shared with other coordinators,
    whose acquisitions and releases are environment steps. *)

From S2P Require Import Prelude Types Text Profile Budget.
Import Counters Scope Permits.
Local Open Scope string_scope.
Local Open Scope list_scope.
Local Open Scope Z_scope.

Module Coord.

Definition MAX_PROCESS_PENDING_JOBS : Z := 256.
Definition MAX_PROCESS_ACTIVE_CALLERS : Z := 1024.
Definition MAX_COORDINATOR_PENDING_JOBS : Z := 64.
Definition MAX_COORDINATOR_ACTIVE_CALLERS : Z := 256.

Record FetchCoordinatorLimits : Type := mkLimits {
  max_pending_jobs : Z;
  max_active_callers : Z;
}.

(** [FetchCoordinatorLimits::new]. *)
Definition FetchCoordinatorLimits_new (jobs callers : Z) : Res FetchCoordinatorLimits :=
  reject? negb (in_range 1 jobs MAX_COORDINATOR_PENDING_JOBS)
          || negb (in_range 1 callers MAX_COORDINATOR_ACTIVE_CALLERS)
    with SnapshotError_new InvalidRequest
           "fetch count limits must be positive and within coordinator hard caps" in
  Ok {| max_pending_jobs := jobs; max_active_callers := callers |}.

Definition FetchCoordinatorLimits_default : FetchCoordinatorLimits :=
  {| max_pending_jobs := MAX_COORDINATOR_PENDING_JOBS;
     max_active_callers := MAX_COORDINATOR_ACTIVE_CALLERS |}.

Abbreviation FetchResult := (result SnapshotError (list Z)).

(** [PendingFlight]: the flight's generation and its waiting senders. *)
Record PendingFlight : Type := mkPending { flight : Z; waiters : gset Z }.

(** [WaiterRegistration]. *)
Record WaiterRegistration : Type := mkReg { r_file : SnapshotFile; r_flight : Z }.

(** The coordinator with the live owners of its permits: registrations, job
    guards, admitted callers not yet registered and direct fetches.
    [delivered] is the contents of the oneshot channels; [outcomes] is a
    history of completed flights with the file their leader fetched. *)
Record FetchCoordinator : Type := mkCoord {
  entries : gmap string PendingFlight;
  next_id : Z;
  callers : Z; jobs : Z;                        (* free local permits *)
  process_callers : Z; process_jobs : Z;        (* free process permits *)
  cancelled : gset Z;                           (* flights with the latched cancel *)
  registrations : gmap Z WaiterRegistration;
  guards : gmap Z SnapshotFile;                 (* live [JobGuard]s by generation *)
  admitted : Z; direct : Z;
  delivered : gmap Z FetchResult;
  outcomes : gmap Z (SnapshotFile * FetchResult);
}.

(** [content_id:size], the single-flight key. *)
Definition flight_key (f : SnapshotFile) : string := file_digest f ++ ":" ++ u64_to_string (file_size f).

(** [FetchCoordinator::with_membership_scope]. *)
Definition new_with_limits (l : FetchCoordinatorLimits) : FetchCoordinator :=
  {| entries := ∅; next_id := 0; callers := max_active_callers l; jobs := max_pending_jobs l;
     process_callers := MAX_PROCESS_ACTIVE_CALLERS; process_jobs := MAX_PROCESS_PENDING_JOBS;
     cancelled := ∅; registrations := ∅; guards := ∅; admitted := 0; direct := 0;
     delivered := ∅; outcomes := ∅ |}.

(** The clamp of the download semaphore. *)
Definition download_permits (l : FetchCoordinatorLimits) (max_concurrent : Z) : Z :=
  Z.max 1 (Z.min max_concurrent (max_pending_jobs l)).

(** [FetchCoordinator::counts]. *)
Definition counts (l : FetchCoordinatorLimits) (c : FetchCoordinator) : Z * Z :=
  (max_pending_jobs l - jobs c, max_active_callers l - callers c).

(** ** Setters *)

Definition set_callers (c : FetchCoordinator) (local global : Z) : FetchCoordinator :=
  {| entries := entries c; next_id := next_id c; callers := local; jobs := jobs c;
     process_callers := global; process_jobs := process_jobs c; cancelled := cancelled c;
     registrations := registrations c; guards := guards c; admitted := admitted c;
     direct := direct c; delivered := delivered c; outcomes := outcomes c |}.
Definition set_jobs (c : FetchCoordinator) (local global : Z) : FetchCoordinator :=
  {| entries := entries c; next_id := next_id c; callers := callers c; jobs := local;
     process_callers := process_callers c; process_jobs := global; cancelled := cancelled c;
     registrations := registrations c; guards := guards c; admitted := admitted c;
     direct := direct c; delivered := delivered c; outcomes := outcomes c |}.
Definition set_owners (c : FetchCoordinator) (adm dir : Z) : FetchCoordinator :=
  {| entries := entries c; next_id := next_id c; callers := callers c; jobs := jobs c;
     process_callers := process_callers c; process_jobs := process_jobs c; cancelled := cancelled c;
     registrations := registrations c; guards := guards c; admitted := adm;
     direct := dir; delivered := delivered c; outcomes := outcomes c |}.
Definition set_next_id (c : FetchCoordinator) (n : Z) : FetchCoordinator :=
  {| entries := entries c; next_id := n; callers := callers c; jobs := jobs c;
     process_callers := process_callers c; process_jobs := process_jobs c; cancelled := cancelled c;
     registrations := registrations c; guards := guards c; admitted := admitted c;
     direct := direct c; delivered := delivered c; outcomes := outcomes c |}.
Definition set_flights (c : FetchCoordinator) (e : gmap string PendingFlight) (x : gset Z)
    (r : gmap Z WaiterRegistration) (g : gmap Z SnapshotFile) : FetchCoordinator :=
  {| entries := e; next_id := next_id c; callers := callers c; jobs := jobs c;
     process_callers := process_callers c; process_jobs := process_jobs c; cancelled := x;
     registrations := r; guards := g; admitted := admitted c;
     direct := direct c; delivered := delivered c; outcomes := outcomes c |}.
Definition set_channels (c : FetchCoordinator) (d : gmap Z FetchResult)
    (o : gmap Z (SnapshotFile * FetchResult)) : FetchCoordinator :=
  {| entries := entries c; next_id := next_id c; callers := callers c; jobs := jobs c;
     process_callers := process_callers c; process_jobs := process_jobs c; cancelled := cancelled c;
     registrations := registrations c; guards := guards c; admitted := admitted c;
     direct := direct c; delivered := d; outcomes := o |}.

(** Dropping a [CountAdmission]. *)
Definition release_caller (c : FetchCoordinator) := set_callers c (callers c + 1) (process_callers c + 1).
Definition release_job (c : FetchCoordinator) := set_jobs c (jobs c + 1) (process_jobs c + 1).

Definition acquire_caller (c : FetchCoordinator) : Res FetchCoordinator :=
  let '(r, (l, g)) := CountAdmission_acquire (callers c) (process_callers c) in
  let? _ := r in Ok (set_callers c l g).
Definition acquire_job (c : FetchCoordinator) : Res FetchCoordinator :=
  let '(r, (l, g)) := CountAdmission_acquire (jobs c) (process_jobs c) in
  let? _ := r in Ok (set_jobs c l g).

(** ** The operations *)

(** [Inflight::id]; the counter is unchanged when it is exhausted. *)
Definition fresh_id (c : FetchCoordinator) : Res (Z * FetchCoordinator) :=
  let? n := ok_or (checked_add (next_id c) 1)
              (SnapshotError_new Internal "fetch identity space exhausted") in
  Ok (n, set_next_id c n).

(** [membership_index]: a later file of the closure replaces an earlier one. *)
Definition membership_index (files : list SnapshotFile) : gmap string SnapshotFile :=
  foldl (fun m f => <[rel_path f := f]> m) ∅ files.

(** [FetchCoordinator::validate_membership] with the index it initialised. *)
Definition validate_membership (files : gmap string SnapshotFile) (file : SnapshotFile) : Res unit :=
  let path := default (rel_path file) (strip_prefix "/" (rel_path file)) in
  let? expected := ok_or (files !! path)
    (SnapshotError_new PathNotFound (rel_path file ++ " is not a file in the fixed snapshot")) in
  let same_kind := String.eqb (file_kind file) (file_kind expected)
                   || (String.eqb (file_kind file) "file" && String.eqb (file_kind expected) "regular") in
  reject? negb (String.eqb (file_digest file) (file_digest expected))
          || negb (file_size file =? file_size expected) || negb same_kind
    with SnapshotError_new DigestMismatch (rel_path file ++ " differs from its committed file metadata") in
  Ok tt.

(** The head of [fetch_owned]: path and size checks, then caller admission. *)
Definition admit_caller `{CodecScope} (scope : string) (file : SnapshotFile) (c : FetchCoordinator)
    : Res FetchCoordinator :=
  let? _ := validate_relative_path scope (rel_path file) in
  reject? (MAX_BUFFERED_FILE_BYTES <? file_size file) || (usize_max <? file_size file)
    with SnapshotError_new LimitExceeded
           "whole-file buffered read exceeds the local 64 MiB budget; use range reads" in
  let? c := acquire_caller c in
  Ok (set_owners c (admitted c + 1) (direct c)).

(** Without metadata pages: lease, a job permit of its own, no sharing. *)
Definition start_direct (lease : Res unit) (c : FetchCoordinator) : Res FetchCoordinator :=
  let? _ := lease in
  let? c := acquire_job c in
  Ok (set_owners c (admitted c - 1) (direct c + 1)).

(** The critical section of [fetch_owned]. The first component is the waiter
    id with the new job's generation; identities consumed before a failure stay
    consumed, so the state is returned on every path. *)
Definition join (file : SnapshotFile) (c : FetchCoordinator)
    : Res (Z * option Z) * FetchCoordinator :=
  let key := flight_key file in
  match fresh_id c with
  | Err e => (Err e, c)
  | Ok (id, c) =>
      match entries c !! key with
      | Some pending =>
          let p := {| flight := flight pending; waiters := {[id]} ∪ waiters pending |} in
          (Ok (id, None),
           set_flights c (<[key := p]> (entries c)) (cancelled c)
             (<[id := {| r_file := file; r_flight := flight pending |}]> (registrations c)) (guards c))
      | None =>
          match acquire_job c with
          | Err e => (Err e, c)
          | Ok c =>
              match fresh_id c with
              | Err e => (Err e, release_job c)
              | Ok (generation, c) =>
                  let p := {| flight := generation; waiters := {[id]} |} in
                  (Ok (id, Some generation),
                   set_flights c (<[key := p]> (entries c)) (cancelled c)
                     (<[id := {| r_file := file; r_flight := generation |}]> (registrations c))
                     (<[generation := file]> (guards c)))
              end
          end
      end
  end.

(** A caller that proved membership and its lease enters the critical section;
    on any error its caller permit is dropped. *)
Definition fetch_join (files : gmap string SnapshotFile) (lease : Res unit) (file : SnapshotFile)
    (c : FetchCoordinator) : Res (Z * option Z) * FetchCoordinator :=
  let give_back c := release_caller (set_owners c (admitted c - 1) (direct c)) in
  match (let? _ := validate_membership files file in lease) with
  | Err e => (Err e, give_back c)
  | Ok _ =>
      match join file c with
      | (Err e, c) => (Err e, give_back c)
      | (Ok r, c) => (Ok r, set_owners c (admitted c - 1) (direct c))
      end
  end.

(** [WaiterRegistration::drop]: the registration leaves its flight, the last
    one detaches the entry and latches the cancellation; the channel and the
    caller permit go with it. *)
Definition drop_registration (id : Z) (reg : WaiterRegistration) (c : FetchCoordinator)
    : FetchCoordinator :=
  let key := flight_key (r_file reg) in
  let regs := delete id (registrations c) in
  let c' :=
    match entries c !! key with
    | Some pending =>
        if flight pending =? r_flight reg then
          let left := waiters pending ∖ {[id]} in
          if decide (left = ∅) then
            set_flights c (delete key (entries c)) ({[r_flight reg]} ∪ cancelled c) regs (guards c)
          else
            set_flights c (<[key := {| flight := flight pending; waiters := left |}]> (entries c))
              (cancelled c) regs (guards c)
        else set_flights c (entries c) (cancelled c) regs (guards c)
    | None => set_flights c (entries c) (cancelled c) regs (guards c)
    end in
  release_caller (set_channels c' (delete id (delivered c')) (outcomes c')).

(** [JobGuard::take_waiters]. *)
Definition take_waiters (g : Z) (file : SnapshotFile) (c : FetchCoordinator)
    : gset Z * gmap string PendingFlight :=
  match entries c !! flight_key file with
  | Some pending => if flight pending =? g then (waiters pending, delete (flight_key file) (entries c))
                    else (∅, entries c)
  | None => (∅, entries c)
  end.

(** Sending one shared result to every taken waiter. *)
Definition send_all (r : FetchResult) (ws : gset Z) (d : gmap Z FetchResult) : gmap Z FetchResult :=
  gset_to_gmap r ws ∪ d.

(** [JobGuard::complete], and [JobGuard::drop] with its error: the guard's
    permit is released when it goes. *)
Definition finish (g : Z) (file : SnapshotFile) (r : FetchResult) (c : FetchCoordinator)
    : FetchCoordinator :=
  let '(ws, e) := take_waiters g file c in
  let c := set_flights c e (cancelled c) (registrations c) (delete g (guards c)) in
  release_job (set_channels c (send_all r ws (delivered c)) (<[g := (file, r)]> (outcomes c))).

Definition no_waiters : SnapshotError := SnapshotError_new Internal "fetch has no live waiters".
Definition no_result : SnapshotError := SnapshotError_new Internal "fetch task ended without a result".
Definition size_mismatch (f : SnapshotFile) (n : Z) : SnapshotError :=
  SnapshotError_new DigestMismatch
    (rel_path f ++ ": fetched size " ++ u64_to_string n ++ " != view size " ++ u64_to_string (file_size f)).

(** [FetchCoordinator::lead] once a download permit is held; [read] is what
    [read_owned_file] returned. *)
Definition lead (file : SnapshotFile) (cancelled : bool) (read : Res (list Z)) : FetchResult :=
  reject? cancelled with no_waiters in
  let? bytes := read in
  reject? negb (zlen bytes =? file_size file) with size_mismatch file (zlen bytes) in
  Ok bytes.

(** The leader task's select: a cancellation it observes wins; otherwise the
    result of [lead], which may itself have observed one. *)
Definition leader_result (file : SnapshotFile) (saw_cancel lead_saw : bool) (read : Res (list Z))
    : FetchResult :=
  if saw_cancel then Err no_waiters else lead file lead_saw read.

(** ** Transition system *)

Inductive event : Type :=
  | Admit (file : SnapshotFile)
  | Abandon                                   (* an admitted caller's future is dropped *)
  | StartDirect (lease : Res unit)
  | EndDirect
  | Join (lease : Res unit) (file : SnapshotFile)
  | DropRegistration (id : Z)
  | Complete (g : Z) (saw_cancel lead_saw : bool) (read : Res (list Z))
  | DropGuard (g : Z)
  | Others (callers jobs : Z).                (* permits other coordinators leave free *)

Section System.
Context `{CodecScope} (scope : string) (files : gmap string SnapshotFile) (metadata_pages : bool).

(** [None]: the event is not possible in this state. A file's size is a [u64]. *)
Definition step (ev : event) (c : FetchCoordinator) : option FetchCoordinator :=
  match ev with
  | Admit file => match admit_caller scope file c with Ok c => Some c | Err _ => Some c end
  | Abandon =>
      if 0 <? admitted c then Some (release_caller (set_owners c (admitted c - 1) (direct c))) else None
  | StartDirect lease =>
      if (0 <? admitted c) && negb metadata_pages then
        match start_direct lease c with
        | Ok c => Some c
        | Err _ => Some (release_caller (set_owners c (admitted c - 1) (direct c)))
        end
      else None
  | EndDirect =>
      if 0 <? direct c then
        Some (release_job (release_caller (set_owners c (admitted c) (direct c - 1)))) else None
  | Join lease file =>
      if (0 <? admitted c) && metadata_pages && in_range 0 (file_size file) u64_max then Some (snd (fetch_join files lease file c)) else None
  | DropRegistration id =>
      reg ← registrations c !! id; Some (drop_registration id reg c)
  | Complete g saw lead_saw read =>
      file ← guards c !! g;
      if implb (saw || lead_saw) (bool_decide (g ∈ cancelled c))
      then Some (finish g file (leader_result file saw lead_saw read) c) else None
  | DropGuard g => file ← guards c !! g; Some (finish g file (Err no_result) c)
  | Others pc pj =>
      if in_range 0 pc (MAX_PROCESS_ACTIVE_CALLERS - (Z.of_nat (size (registrations c)) + admitted c + direct c))
         && in_range 0 pj (MAX_PROCESS_PENDING_JOBS - (Z.of_nat (size (guards c)) + direct c))
      then Some (set_jobs (set_callers c (callers c) pc) (jobs c) pj) else None
  end.

Inductive reachable (l : FetchCoordinatorLimits) : FetchCoordinator -> Prop :=
  | reach_init : reachable l (new_with_limits l)
  | reach_step ev c c' : reachable l c -> step ev c = Some c' -> reachable l c'.
End System.

(** ** The flight invariant *)

Record flights_ok (c : FetchCoordinator) : Prop := {
  ok_ids : forall id,
    is_Some (registrations c !! id) \/ is_Some (guards c !! id) \/ id ∈ cancelled c \/
    is_Some (delivered c !! id) \/ is_Some (outcomes c !! id) -> id <= next_id c;
  ok_entry : forall k p, entries c !! k = Some p ->
    (exists f, guards c !! flight p = Some f /\ flight_key f = k) /\
    (flight p ∉ cancelled c) /\ waiters p <> ∅ /\
    forall id, id ∈ waiters p -> exists r, registrations c !! id = Some r /\
      flight_key (r_file r) = k /\ r_flight r = flight p /\ delivered c !! id = None;
  ok_guard : forall g f, guards c !! g = Some f ->
    outcomes c !! g = None /\
    (g ∈ cancelled c \/ exists p, entries c !! flight_key f = Some p /\ flight p = g);
  ok_reg : forall id r, registrations c !! id = Some r ->
    (exists p, entries c !! flight_key (r_file r) = Some p /\ flight p = r_flight r /\ id ∈ waiters p) \/
    (exists f res, delivered c !! id = Some res /\ outcomes c !! r_flight r = Some (f, res) /\
                   flight_key f = flight_key (r_file r));
  ok_outcome : forall g f b, outcomes c !! g = Some (f, Ok b) -> zlen b = file_size f;
  ok_sent : forall id, is_Some (delivered c !! id) -> is_Some (registrations c !! id);
}.

Definition fresh (id : Z) (c : FetchCoordinator) : Prop :=
  registrations c !! id = None /\ guards c !! id = None /\ (id ∉ cancelled c) /\
  delivered c !! id = None /\ outcomes c !! id = None /\ id <= next_id c.

Lemma flights_ok_new l : flights_ok (new_with_limits l).
Proof.
  split; simpl; intros *; rewrite ?lookup_empty; try done.
  - intros [H|[H|[H|[H|H]]]]; rewrite ?lookup_empty in H; [by destruct H..|set_solver|by destruct H|by destruct H].
Qed.

(** Permit accounting is independent of the flights. *)
Lemma flights_ok_callers c a b : flights_ok c -> flights_ok (set_callers c a b).
Proof. intros []. split; auto. Qed.
Lemma flights_ok_jobs c a b : flights_ok c -> flights_ok (set_jobs c a b).
Proof. intros []. split; auto. Qed.
Lemma flights_ok_owners c a b : flights_ok c -> flights_ok (set_owners c a b).
Proof. intros []. split; auto. Qed.
Hint Resolve flights_ok_callers flights_ok_jobs flights_ok_owners : rust.

Lemma fresh_id_ok c id c' :
  flights_ok c -> fresh_id c = Ok (id, c') ->
  flights_ok c' /\ fresh id c' /\ next_id c < id /\ c' = set_next_id c id.
Proof.
  intros [Hids ? ? ? ? ?] Hf. unfold fresh_id in Hf. inv_ok.
  match goal with H : checked_add _ _ = Some _ |- _ => apply checked_add_some in H as [-> _] end.
  simplify_eq.
  split_and!; [|unfold fresh; simpl; split_and!; try lia|lia|done].
  - split; simpl; auto. intros id Hid. specialize (Hids id Hid). lia.
  - apply eq_None_not_Some. intros H'. specialize (Hids (next_id c + 1)). intuition lia.
  - apply eq_None_not_Some. intros H'. specialize (Hids (next_id c + 1)). intuition lia.
  - intros H'. specialize (Hids (next_id c + 1)). intuition lia.
  - apply eq_None_not_Some. intros H'. specialize (Hids (next_id c + 1)). intuition lia.
  - apply eq_None_not_Some. intros H'. specialize (Hids (next_id c + 1)). intuition lia.
Qed.

(** Adding a waiter to the live flight of its key. *)
Lemma flights_ok_join c id file p :
  flights_ok c -> fresh id c -> entries c !! flight_key file = Some p ->
  flights_ok (set_flights c
    (<[flight_key file := {| flight := flight p; waiters := {[id]} ∪ waiters p |}]> (entries c))
    (cancelled c) (<[id := {| r_file := file; r_flight := flight p |}]> (registrations c)) (guards c)).
Proof.
  intros [Hids Hent Hgrd Hreg Hout Hsent] (Fr & Fg & Fc & Fd & Fo & Fn) Hp.
  split; simpl; auto.
  - intros i Hi. destruct (decide (i = id)) as [->|Hne]; [done|]. apply Hids.
    by rewrite lookup_insert_ne in Hi.
  - intros k q Hq. destruct (Hent _ _ Hp) as (Hg & Hc & Hw & Hws).
    assert (Hother : forall i r, registrations c !! i = Some r ->
              <[id := {| r_file := file; r_flight := flight p |}]> (registrations c) !! i = Some r).
    { intros i r Hr. rewrite lookup_insert_ne; [done|]. intros ->. congruence. }
    destruct (decide (k = flight_key file)) as [->|Hk].
    + rewrite lookup_insert_eq in Hq. injection Hq as <-. simpl. split_and!; auto; [set_solver|].
      intros i [->%elem_of_singleton|Hi]%elem_of_union.
      * rewrite lookup_insert_eq. by eexists; split_and!.
      * destruct (Hws i Hi) as (r & ? & ?). eauto.
    + rewrite lookup_insert_ne in Hq by done. destruct (Hent _ _ Hq) as (? & ? & ? & Hws').
      split_and!; auto. intros i Hi. destruct (Hws' i Hi) as (r & ? & ?). eauto.
  - intros g f Hg. destruct (Hgrd g f Hg) as [? [?|(q & Hq & Hqf)]]; split; auto. right.
    destruct (decide (flight_key f = flight_key file)) as [Hk|Hk].
    + rewrite Hk in *. rewrite lookup_insert_eq. eexists; split; [done|]. simpl. congruence.
    + rewrite lookup_insert_ne by done. eauto.
  - intros i r Hr. destruct (decide (i = id)) as [->|Hi].
    + rewrite lookup_insert_eq in Hr. injection Hr as <-. left. simpl. rewrite lookup_insert_eq.
      eexists; split_and!; [done..|set_solver].
    + rewrite lookup_insert_ne in Hr by done. destruct (Hreg i r Hr) as [(q & Hq & Hqf & Hin)|?]; auto.
      left. destruct (decide (flight_key (r_file r) = flight_key file)) as [Hk|Hk].
      * rewrite Hk in *. rewrite lookup_insert_eq. eexists; split_and!; [done|simpl; congruence|].
        simpl. assert (q = p) as -> by congruence. set_solver.
      * rewrite lookup_insert_ne by done. eauto.
  - intros i Hi. destruct (decide (i = id)) as [->|]; [by rewrite Fd in Hi; destruct Hi|].
    rewrite lookup_insert_ne by done. auto.
Qed.

(** Starting a flight for a key without one. *)
Lemma flights_ok_lead c id g file :
  flights_ok c -> fresh id c -> fresh g c -> entries c !! flight_key file = None ->
  flights_ok (set_flights c
    (<[flight_key file := {| flight := g; waiters := {[id]} |}]> (entries c))
    (cancelled c) (<[id := {| r_file := file; r_flight := g |}]> (registrations c))
    (<[g := file]> (guards c))).
Proof.
  intros [Hids Hent Hgrd Hreg Hout Hsent] (Fr & _ & _ & Fd & _ & Fn) (_ & Gg & Gc & _ & Go & Gn) Hp.
  split; simpl; auto.
  - intros i Hi. destruct (decide (i = id)) as [->|Hne]; [done|].
    destruct (decide (i = g)) as [->|Hne']; [done|]. apply Hids.
    by rewrite !lookup_insert_ne in Hi.
  - intros k q Hq. destruct (decide (k = flight_key file)) as [->|Hk].
    + rewrite lookup_insert_eq in Hq. injection Hq as <-. simpl. rewrite lookup_insert_eq.
      split_and!; [eauto|done|set_solver|]. intros i ->%elem_of_singleton. rewrite lookup_insert_eq.
      by eexists; split_and!.
    + rewrite lookup_insert_ne in Hq by done. destruct (Hent _ _ Hq) as ((f & Hf & ?) & ? & ? & Hws).
      split_and!; auto.
      * exists f. rewrite lookup_insert_ne by congruence. done.
      * intros i Hi. destruct (Hws i Hi) as (r & Hr & ?). exists r.
        rewrite lookup_insert_ne by congruence. done.
  - intros g' f Hg. destruct (decide (g' = g)) as [->|Hne].
    + rewrite lookup_insert_eq in Hg. injection Hg as <-. split; [done|]. right.
      rewrite lookup_insert_eq. by eexists.
    + rewrite lookup_insert_ne in Hg by done.
      destruct (Hgrd g' f Hg) as [? [?|(q & Hq & Hqf)]]; split; auto. right.
      rewrite lookup_insert_ne by congruence. eauto.
  - intros i r Hr. destruct (decide (i = id)) as [->|Hi].
    + rewrite lookup_insert_eq in Hr. injection Hr as <-. left. simpl. rewrite lookup_insert_eq.
      eexists; split_and!; [done..|set_solver].
    + rewrite lookup_insert_ne in Hr by done. destruct (Hreg i r Hr) as [(q & Hq & Hqf & Hin)|?]; auto.
      left. rewrite lookup_insert_ne by congruence. eauto.
  - intros i Hi. destruct (decide (i = id)) as [->|]; [by rewrite Fd in Hi; destruct Hi|].
    rewrite lookup_insert_ne by done. auto.
Qed.

Lemma difference_empty_subset (a b : gset Z) : a ∖ b = ∅ -> a ⊆ b.
Proof.
  intros He x Hx. destruct (decide (x ∈ b)); [done|].
  assert (x ∈ a ∖ b) as Hd by set_solver. by rewrite He in Hd.
Qed.

(** Removing a registration: entries lose that waiter, and exactly the
    entries left without one are detached and cancelled. *)
Lemma flights_ok_remove c id e x :
  flights_ok c ->
  (forall k q', e !! k = Some q' -> exists q, entries c !! k = Some q /\
     flight q' = flight q /\ waiters q' = waiters q ∖ {[id]} /\ waiters q' <> ∅ /\ flight q ∉ x) ->
  (forall k q, entries c !! k = Some q ->
     (exists q', e !! k = Some q' /\ flight q' = flight q /\ waiters q' = waiters q ∖ {[id]}) \/
     (waiters q ⊆ {[id]} /\ flight q ∈ x)) ->
  cancelled c ⊆ x ->
  (forall g, g ∈ x -> g ∈ cancelled c \/ exists k q, entries c !! k = Some q /\ flight q = g) ->
  flights_ok (set_channels (set_flights c e x (delete id (registrations c)) (guards c))
                (delete id (delivered c)) (outcomes c)).
Proof.
  intros [Hids Hent Hgrd Hreg Hout Hsent] He Hent' Hsub Hx. split; simpl; auto.
  - intros i Hi. apply Hids. rewrite !lookup_delete_is_Some in Hi.
    destruct Hi as [[_ ?]|[?|[Hi|[[_ ?]|?]]]]; auto.
    destruct (Hx i Hi) as [?|(k & q & Hq & <-)]; auto.
    destruct (Hent _ _ Hq) as ((f & ? & _) & _). eauto.
  - intros k q' Hq'. destruct (He _ _ Hq') as (q & Hq & Hf & Hw & Hne & Hnx). rewrite Hf.
    destruct (Hent _ _ Hq) as (? & ? & ? & Hws). split_and!; auto.
    intros i Hi. rewrite Hw in Hi. destruct (Hws i ltac:(set_solver +Hi)) as (r & ? & ? & ? & ?).
    exists r. rewrite !lookup_delete_ne by set_solver +Hi. done.
  - intros g f Hg. destruct (Hgrd g f Hg) as [? [?|(q & Hq & Hqf)]]; split; auto.
    destruct (Hent' _ _ Hq) as [(q' & ? & ? & ?)|[_ ?]]; [right; exists q'|left]; naive_solver congruence.
  - intros i r [Hne Hr]%lookup_delete_Some.
    destruct (Hreg i r Hr) as [(q & Hq & Hqf & Hin)|(f & res & ? & ? & ?)].
    + left. destruct (Hent' _ _ Hq) as [(q' & ? & ? & Hw)|[Hs _]]; [|set_solver +Hs Hin Hne].
      exists q'. split_and!; [done|congruence|]. rewrite Hw. set_solver +Hin Hne.
    + right. exists f, res. rewrite lookup_delete_ne by done. done.
  - intros i [? ?]%lookup_delete_is_Some. apply lookup_delete_is_Some. auto.
Qed.

(** A registration waits in at most the flight it names. *)
Lemma waiting_where c id reg k q :
  flights_ok c -> registrations c !! id = Some reg -> entries c !! k = Some q -> id ∈ waiters q ->
  k = flight_key (r_file reg) /\ flight q = r_flight reg.
Proof.
  intros Hc Hr Hq Hin. destruct (ok_entry _ Hc _ _ Hq) as (_ & _ & _ & Hws).
  destruct (Hws id Hin) as (r & ? & ? & ? & _). simplify_eq. done.
Qed.

(** Entries under different keys have different flights. *)
Lemma flight_key_unique c k k' q q' :
  flights_ok c -> entries c !! k = Some q -> entries c !! k' = Some q' -> flight q = flight q' -> k = k'.
Proof.
  intros Hc Hq Hq' Hf. destruct (ok_entry _ Hc _ _ Hq) as ((f & Hg & <-) & _).
  destruct (ok_entry _ Hc _ _ Hq') as ((f' & Hg' & <-) & _). congruence.
Qed.

Lemma flights_ok_drop c id reg :
  flights_ok c -> registrations c !! id = Some reg -> flights_ok (drop_registration id reg c).
Proof.
  intros Hc Hr. unfold drop_registration, release_caller. apply flights_ok_callers.
  set (key := flight_key (r_file reg)) in *.
  assert (Hsame : (forall q, entries c !! key = Some q -> flight q <> r_flight reg) ->
    flights_ok (set_channels (set_flights c (entries c) (cancelled c) (delete id (registrations c))
      (guards c)) (delete id (delivered c)) (outcomes c))).
  { intros Hno. assert (Hni : forall k q, entries c !! k = Some q -> id ∉ waiters q).
    { intros k q Hq Hin. destruct (waiting_where _ _ _ _ _ Hc Hr Hq Hin) as [-> ?]. by eapply Hno. }
    apply flights_ok_remove; auto.
    - intros k q Hq. destruct (ok_entry _ Hc _ _ Hq) as (_ & ? & ? & _). exists q.
      specialize (Hni k q Hq). split_and!; auto. set_solver +Hni.
    - intros k q Hq. left. exists q. specialize (Hni k q Hq). split_and!; auto. set_solver +Hni. }
  destruct (entries c !! key) as [p|] eqn:Hp; [|by apply Hsame].
  destruct (Z.eqb_spec (flight p) (r_flight reg)) as [Hf|Hf];
    [|apply Hsame; intros q [= <-]; done].
  assert (Hoth : forall k q, k <> key -> entries c !! k = Some q -> (id ∉ waiters q) /\ flight q <> r_flight reg).
  { intros k q Hk Hq. split.
    - intros Hin. by destruct (waiting_where _ _ _ _ _ Hc Hr Hq Hin).
    - intros E. apply Hk. eapply flight_key_unique; [done..|congruence]. }
  destruct (ok_entry _ Hc _ _ Hp) as (_ & Hnc & _ & _).
  destruct (decide (waiters p ∖ {[id]} = ∅)) as [Hempty|Hleft]; simpl;
    (apply flights_ok_remove; [done|..]).
  - intros k q' [Hk Hq]%lookup_delete_Some. destruct (ok_entry _ Hc _ _ Hq) as (_ & ? & ? & _).
    destruct (Hoth k q' ltac:(done) Hq) as [Hi ?]. exists q'.
    split_and!; [done..|set_solver +Hi|done|]. apply not_elem_of_union. by rewrite not_elem_of_singleton.
  - intros k q Hq. destruct (decide (k = key)) as [->|Hk].
    + right. assert (q = p) as -> by congruence. rewrite Hf.
      split; [by apply difference_empty_subset|set_solver +].
    + left. exists q. destruct (Hoth k q Hk Hq) as [Hi _]. rewrite lookup_delete_ne by done.
      split_and!; auto. set_solver +Hi.
  - set_solver +.
  - intros g [->%elem_of_singleton|?]%elem_of_union; [right; eauto|by left].
  - intros k q' Hq. destruct (decide (k = key)) as [->|Hk].
    + rewrite lookup_insert_eq in Hq. injection Hq as <-. exists p. by split_and!.
    + rewrite lookup_insert_ne in Hq by done. destruct (ok_entry _ Hc _ _ Hq) as (_ & ? & ? & _).
      destruct (Hoth k q' Hk Hq) as [Hi _]. exists q'. split_and!; auto. set_solver +Hi.
  - intros k q Hq. left. destruct (decide (k = key)) as [->|Hk].
    + rewrite lookup_insert_eq. simplify_eq. by eexists.
    + rewrite lookup_insert_ne by done. exists q. destruct (Hoth k q Hk Hq) as [Hi _].
      split_and!; auto. set_solver +Hi.
  - done.
  - auto.
Qed.

(** Taking the waiters of a live guard: those of its own flight, or none when
    the flight was detached before. *)
Lemma take_waiters_ok c g file ws e :
  flights_ok c -> guards c !! g = Some file -> take_waiters g file c = (ws, e) ->
  (forall k q, e !! k = Some q <-> entries c !! k = Some q /\ flight q <> g) /\
  (forall i, i ∈ ws <-> exists q, entries c !! flight_key file = Some q /\ flight q = g /\ i ∈ waiters q).
Proof.
  intros Hc Hg Ht.
  assert (Hkey : forall k q, entries c !! k = Some q -> flight q = g -> k = flight_key file).
  { intros k q Hq <-. destruct (ok_entry _ Hc _ _ Hq) as ((f & ? & <-) & _). congruence. }
  unfold take_waiters in Ht. destruct (entries c !! flight_key file) as [p|] eqn:Hp.
  - destruct (Z.eqb_spec (flight p) g) as [Hf|Hf]; simplify_eq.
    + split; [|naive_solver]. intros k q. rewrite lookup_delete_Some. split.
      * intros [Hne Hq]. split; [done|]. intros E. by apply Hne, eq_sym, (Hkey k q).
      * intros [Hq Hne]. split; [|done]. intros <-. congruence.
    + split; [|set_solver]. intros k q. split; [|tauto]. intros Hq. split; [done|].
      intros E. pose proof (Hkey k q Hq E). congruence.
  - simplify_eq. split; [|set_solver]. intros k q. split; [|tauto]. intros Hq. split; [done|].
    intros E. pose proof (Hkey k q Hq E). congruence.
Qed.

Lemma flights_ok_finish c g file r :
  flights_ok c -> guards c !! g = Some file -> (forall b, r = Ok b -> zlen b = file_size file) ->
  flights_ok (finish g file r c).
Proof.
  intros Hc Hg Hr. unfold finish. destruct (take_waiters g file c) as [ws e] eqn:Ht.
  destruct (take_waiters_ok _ _ _ _ _ Hc Hg Ht) as [He Hws]. clear Ht.
  destruct Hc as [Hids Hent Hgrd Hreg Hout Hsent].
  assert (Hin : forall i, i ∈ ws -> exists rg, registrations c !! i = Some rg /\ r_flight rg = g /\
            flight_key (r_file rg) = flight_key file /\ delivered c !! i = None).
  { intros i (q & Hq & <- & Hi)%Hws. destruct (Hent _ _ Hq) as (_ & _ & _ & Hw).
    destruct (Hw i Hi) as (rg & ? & ? & ? & ?). eauto. }
  unfold release_job, send_all. apply flights_ok_jobs. split; simpl.
  - intros i Hi. rewrite lookup_delete_is_Some, lookup_union_is_Some, lookup_insert_is_Some' in Hi.
    apply Hids. destruct Hi as [?|[[_ ?]|[?|[[Hi|?]|[<-|?]]]]]; eauto.
    destruct Hi as [? [Hi _]%lookup_gset_to_gmap_Some]. destruct (Hin i Hi) as (rg & ? & _). eauto.
  - intros k q [Hq Hne]%He. destruct (Hent _ _ Hq) as ((f & ? & ?) & ? & ? & Hw). split_and!; auto.
    + exists f. by rewrite lookup_delete_ne.
    + intros i Hi. destruct (Hw i Hi) as (rg & ? & ? & ? & ?). exists rg. split_and!; auto.
      apply lookup_union_None. split; [|done]. apply lookup_gset_to_gmap_None. intros Hi'.
      destruct (Hin i Hi') as (rg' & ? & ? & _). congruence.
  - intros g' f [Hne Hg']%lookup_delete_Some. destruct (Hgrd g' f Hg') as [? [?|(q & Hq & ?)]];
      rewrite lookup_insert_ne by done; split; auto.
    right. exists q. split; [|done]. apply He. split; [done|congruence].
  - intros i rg Hrg. destruct (Hreg i rg Hrg) as [(q & Hq & Hf & Hi)|(f & res & Hd & Ho & ?)].
    + destruct (decide (flight q = g)) as [Heq|Hne].
      * right. assert (i ∈ ws) as Hi'.
        { apply Hws. destruct (Hent _ _ Hq) as ((f & Hgf & Hk) & _). rewrite Heq, Hg in Hgf.
          injection Hgf as <-. rewrite Hk. eauto. }
        exists file, r. destruct (Hin i Hi') as (rg' & Hrg' & Hfl & Hk & _).
        assert (rg' = rg) as -> by congruence.
        split_and!; [|by rewrite Hfl, lookup_insert_eq|done].
        apply lookup_union_Some_l. by apply lookup_gset_to_gmap_Some.
      * left. exists q. split_and!; auto. apply He. auto.
    + right. exists f, res. split_and!; [|rewrite lookup_insert_ne; [done|]|done].
      * rewrite lookup_union_r; [done|]. apply lookup_gset_to_gmap_None. intros Hi.
        destruct (Hin i Hi) as (? & _ & _ & _ & ?). congruence.
      * intros E. destruct (Hgrd _ _ Hg) as [? _]. congruence.
  - intros g' f b. destruct (decide (g' = g)) as [->|].
    + rewrite lookup_insert_eq. intros [= <- ->]. auto.
    + rewrite lookup_insert_ne by done. apply Hout.
  - intros i. rewrite lookup_union_is_Some. intros [Hi|?]; [|auto].
    destruct Hi as [? [Hi _]%lookup_gset_to_gmap_Some]. destruct (Hin i Hi) as (rg & ? & _). eauto.
Qed.

(** ** Permit accounting *)

Definition limits_ok (l : FetchCoordinatorLimits) : Prop :=
  1 <= max_pending_jobs l <= MAX_COORDINATOR_PENDING_JOBS /\
  1 <= max_active_callers l <= MAX_COORDINATOR_ACTIVE_CALLERS.

(** Live owners of caller and job permits. *)
Definition live_callers (c : FetchCoordinator) : Z :=
  Z.of_nat (size (registrations c)) + admitted c + direct c.
Definition live_jobs (c : FetchCoordinator) : Z := Z.of_nat (size (guards c)) + direct c.

Record permits_ok (l : FetchCoordinatorLimits) (c : FetchCoordinator) : Prop := {
  pm_callers : 0 <= callers c /\ callers c + live_callers c = max_active_callers l;
  pm_jobs : 0 <= jobs c /\ jobs c + live_jobs c = max_pending_jobs l;
  pm_process_callers : 0 <= process_callers c /\
    process_callers c + live_callers c <= MAX_PROCESS_ACTIVE_CALLERS;
  pm_process_jobs : 0 <= process_jobs c /\ process_jobs c + live_jobs c <= MAX_PROCESS_PENDING_JOBS;
  pm_owners : 0 <= admitted c /\ 0 <= direct c;
}.

Lemma acquire_caller_ok c c' : acquire_caller c = Ok c' ->
  1 <= callers c /\ 1 <= process_callers c /\ c' = set_callers c (callers c - 1) (process_callers c - 1).
Proof.
  unfold acquire_caller, CountAdmission_acquire. rewrite acquire_both_spec.
  destruct (_ && _) eqn:H; simpl; intros; inv_ok. bools. split_and!; [lia|lia|done].
Qed.

Lemma acquire_job_ok c c' : acquire_job c = Ok c' ->
  1 <= jobs c /\ 1 <= process_jobs c /\ c' = set_jobs c (jobs c - 1) (process_jobs c - 1).
Proof.
  unfold acquire_job, CountAdmission_acquire. rewrite acquire_both_spec.
  destruct (_ && _) eqn:H; simpl; intros; inv_ok. bools. split_and!; [lia|lia|done].
Qed.

Ltac permits :=
  repeat match goal with H : permits_ok _ _ |- _ => destruct H end;
  unfold live_callers, live_jobs, release_caller, release_job, set_channels, set_flights, set_owners,
    set_callers, set_jobs, set_next_id in *; split; simpl in *;
  unfold live_callers, live_jobs in *; simpl in *; lia.

Lemma size_guards_delete c g f :
  guards c !! g = Some f -> Z.of_nat (size (delete g (guards c))) = Z.of_nat (size (guards c)) - 1.
Proof.
  intros Hg. rewrite map_size_delete_Some by eauto.
  assert (size (guards c) <> 0)%nat; [|lia]. intros E%map_size_empty_inv. rewrite E in Hg. done.
Qed.

Lemma size_regs_delete c i r :
  registrations c !! i = Some r ->
  Z.of_nat (size (delete i (registrations c))) = Z.of_nat (size (registrations c)) - 1.
Proof.
  intros Hg. rewrite map_size_delete_Some by eauto.
  assert (size (registrations c) <> 0)%nat; [|lia]. intros E%map_size_empty_inv. rewrite E in Hg. done.
Qed.

(** ** The operations preserve both invariants *)

Definition coord_ok (l : FetchCoordinatorLimits) (c : FetchCoordinator) : Prop :=
  flights_ok c /\ permits_ok l c.

Lemma coord_ok_new l : limits_ok l -> coord_ok l (new_with_limits l).
Proof.
  intros [? ?]. split; [apply flights_ok_new|].
  split; unfold live_callers, live_jobs; simpl; rewrite ?map_size_empty;
    unfold MAX_PROCESS_ACTIVE_CALLERS, MAX_PROCESS_PENDING_JOBS; lia.
Qed.

(** The critical section keeps the coordinator sound on success and on every
    error, without touching the owners' counts. *)
Lemma join_ok l file c r c' :
  flights_ok c -> permits_ok l c -> 0 < admitted c -> join file c = (r, c') ->
  flights_ok c' /\ admitted c' = admitted c /\ direct c' = direct c /\
  match r with
  | Ok _ => permits_ok l (set_owners c' (admitted c' - 1) (direct c'))
  | Err _ => permits_ok l c' /\ registrations c' = registrations c /\ guards c' = guards c
  end.
Proof.
  intros Hf Hp Ha Hj. unfold join in Hj.
  destruct (fresh_id c) as [[id c1]|e] eqn:Hid; [|by simplify_eq].
  destruct (fresh_id_ok _ _ _ Hf Hid) as (Hf1 & Hfr & Hlt & ->).
  destruct (entries (set_next_id c id) !! flight_key file) as [p|] eqn:He.
  { injection Hj as <- <-. split_and!; [by apply (flights_ok_join (set_next_id c id))|done|done|].
    destruct Hfr as [Fr _]. pose proof (map_size_insert_None _ {| r_file := file; r_flight := flight p |} _ Fr).
    simpl in *. permits. }
  destruct (acquire_job (set_next_id c id)) as [c2|] eqn:Hjob.
  2:{ injection Hj as <- <-. split_and!; auto. permits. }
  apply acquire_job_ok in Hjob as (Hj1 & Hj2 & ->). simpl in *.
  set (c2 := set_jobs _ _ _) in *.
  assert (flights_ok c2) as Hf2 by (by apply flights_ok_jobs).
  destruct (fresh_id c2) as [[g c3]|] eqn:Hg.
  - destruct (fresh_id_ok _ _ _ Hf2 Hg) as (Hf3 & Hgr & Hlt' & ->). simpl in *.
    injection Hj as <- <-.
    assert (fresh id (set_next_id c2 g)) as Hidf.
    { destruct Hfr as (? & ? & ? & ? & ? & ?). unfold fresh. simpl in *. split_and!; auto. lia. }
    split_and!; [by apply (flights_ok_lead (set_next_id c2 g))|done|done|].
    destruct Hidf as [Fr _]. destruct Hgr as (_ & Gg & _).
    pose proof (map_size_insert_None _ {| r_file := file; r_flight := g |} _ Fr).
    pose proof (map_size_insert_None _ file _ Gg). simpl in *. permits.
  - injection Hj as <- <-. unfold release_job. split_and!; auto with rust. permits.
Qed.

Lemma coord_ok_join l files lease file c :
  coord_ok l c -> 0 < admitted c -> coord_ok l (snd (fetch_join files lease file c)).
Proof.
  intros [Hf Hp] Ha. unfold fetch_join. destruct (rbind _ _).
  - destruct (join file c) as [r c'] eqn:Hj.
    destruct (join_ok _ _ _ _ _ Hf Hp Ha Hj) as (Hf' & Hadm & Hdir & Hr).
    destruct r; simpl; (split; [unfold release_caller; by auto with rust|]); [done|].
    destruct Hr as (Hp' & _). permits.
  - simpl. split; [unfold release_caller; by auto with rust|]. permits.
Qed.

Lemma coord_ok_drop l id reg c :
  coord_ok l c -> registrations c !! id = Some reg -> coord_ok l (drop_registration id reg c).
Proof.
  intros [Hf Hp] Hr. split; [by apply flights_ok_drop|].
  pose proof (size_regs_delete _ _ _ Hr). unfold drop_registration.
  destruct (entries c !! _) as [p|]; [destruct (_ =? _); [destruct (decide _)|]|]; permits.
Qed.

Lemma coord_ok_finish l g file r c :
  coord_ok l c -> guards c !! g = Some file -> (forall b, r = Ok b -> zlen b = file_size file) ->
  coord_ok l (finish g file r c).
Proof.
  intros [Hf Hp] Hg Hr. split; [by apply flights_ok_finish|].
  pose proof (size_guards_delete _ _ _ Hg). unfold finish. destruct (take_waiters g file c). permits.
Qed.

Lemma leader_result_size file saw lead_saw read b :
  leader_result file saw lead_saw read = Ok b -> zlen b = file_size file.
Proof.
  unfold leader_result, lead. destruct saw; [done|]. intros. inv_ok. subst. bools. done.
Qed.

Section Invariant.
Context `{CodecScope} (scope : string) (files : gmap string SnapshotFile) (metadata_pages : bool).

Lemma coord_ok_step l ev c c' :
  coord_ok l c -> step scope files metadata_pages ev c = Some c' -> coord_ok l c'.
Proof using Type.
  intros Hc. pose proof Hc as [Hf Hp]. destruct ev; simpl; intros Hs.
  - destruct (admit_caller scope file c) eqn:Ha; simplify_eq; [|done]. unfold admit_caller in Ha. inv_ok. subst.
    match goal with H : acquire_caller _ = Ok _ |- _ => apply acquire_caller_ok in H as (? & ? & ->) end.
    split; [by auto with rust|]. permits.
  - destruct (Z.ltb_spec 0 (admitted c)); simplify_eq. unfold release_caller.
    split; [by auto with rust|]. permits.
  - destruct (_ && _) eqn:Hg; [|done]. bools. destruct Hg.
    destruct (start_direct lease c) eqn:Hd; simplify_eq.
    + unfold start_direct in Hd. inv_ok. subst.
      match goal with H : acquire_job _ = Ok _ |- _ => apply acquire_job_ok in H as (? & ? & ->) end.
      split; [by auto with rust|]. permits.
    + unfold release_caller. split; [by auto with rust|]. permits.
  - destruct (Z.ltb_spec 0 (direct c)); simplify_eq. unfold release_job, release_caller.
    split; [by auto with rust|]. permits.
  - destruct (_ && _) eqn:Hg; [|done]. bools. destruct Hg as [[? _] _]. simplify_eq. by apply coord_ok_join.
  - apply bind_Some in Hs as (reg & Hr & [= <-]). by apply coord_ok_drop.
  - apply bind_Some in Hs as (file & Hr & Hs). destruct (implb _ _); simplify_eq.
    apply coord_ok_finish; auto. apply leader_result_size.
  - apply bind_Some in Hs as (file & Hr & [= <-]). by apply coord_ok_finish.
  - destruct (_ && _) eqn:Hg; [|done]. bools. destruct Hg. simplify_eq.
    split; [by auto with rust|]. permits.
Qed.

Lemma coord_ok_reachable l c :
  limits_ok l -> reachable scope files metadata_pages l c -> coord_ok l c.
Proof using Type. intros Hl. induction 1; [by apply coord_ok_new|]. by eapply coord_ok_step. Qed.

(** Sizes in the coordinator are [u64] values. *)
Definition typed (c : FetchCoordinator) : Prop :=
  (forall i r, registrations c !! i = Some r -> is_u64 (file_size (r_file r))) /\
  (forall g f, guards c !! g = Some f -> is_u64 (file_size f)) /\
  (forall g f r, outcomes c !! g = Some (f, r) -> is_u64 (file_size f)).

Lemma typed_sub c c' :
  typed c -> registrations c' ⊆ registrations c -> guards c' ⊆ guards c -> outcomes c' = outcomes c ->
  typed c'.
Proof using Type.
  intros (H1 & H2 & H3) Hr Hg Ho. unfold typed. rewrite Ho. split_and!; auto.
  - intros i r Hi. eapply H1, lookup_weaken; eauto.
  - intros g f Hi. eapply H2, lookup_weaken; eauto.
Qed.

Lemma typed_join file c : typed c -> is_u64 (file_size file) -> typed (snd (join file c)).
Proof using Type.
  intros (H1 & H2 & H3) Hu. unfold join.
  assert (Hins : forall id g, forall i r,
    <[id := {| r_file := file; r_flight := g |}]> (registrations c) !! i = Some r -> is_u64 (file_size (r_file r))).
  { intros id g i r [[<- <-]|[_ ?]]%lookup_insert_Some; eauto. }
  assert (Hg : forall g, forall i f, <[g := file]> (guards c) !! i = Some f -> is_u64 (file_size f)).
  { intros g i f [[<- <-]|[_ ?]]%lookup_insert_Some; eauto. }
  destruct (fresh_id c) as [[id c1]|] eqn:Hid; [|by split_and!].
  unfold fresh_id in Hid. inv_ok. simplify_eq. simpl.
  destruct (entries c !! _); [split_and!; simpl; eauto|].
  destruct (acquire_job _) as [c2|] eqn:Hj; [|by split_and!].
  apply acquire_job_ok in Hj as (_ & _ & ->). simpl.
  destruct (fresh_id _) as [[g c3]|] eqn:Hid2; [|by split_and!].
  unfold fresh_id in Hid2. inv_ok. simplify_eq. split_and!; simpl; eauto.
Qed.

Lemma typed_reachable l c : reachable scope files metadata_pages l c -> typed c.
Proof using Type.
  induction 1 as [|ev c c' _ IH Hs].
  { split_and!; intros *; simpl; by rewrite lookup_empty. }
  pose proof IH as (H1 & H2 & H3). destruct ev; simpl in Hs.
  - destruct (admit_caller scope file c) eqn:Ha; simplify_eq; [|done]. unfold admit_caller in Ha. inv_ok. subst.
    match goal with H : acquire_caller _ = Ok _ |- _ => apply acquire_caller_ok in H as (_ & _ & ->) end.
    by eapply typed_sub.
  - destruct (0 <? _); simplify_eq. by eapply typed_sub.
  - destruct (_ && _); [|done]. destruct (start_direct lease c) eqn:Hd; simplify_eq; [|by eapply typed_sub].
    unfold start_direct in Hd. inv_ok. subst.
    match goal with H : acquire_job _ = Ok _ |- _ => apply acquire_job_ok in H as (_ & _ & ->) end.
    by eapply typed_sub.
  - destruct (0 <? _); simplify_eq. by eapply typed_sub.
  - destruct (_ && _) eqn:Hg; [|done]. bools. destruct Hg as [_ Hu]. simplify_eq.
    pose proof (typed_join file c IH Hu) as Hj. unfold fetch_join.
    destruct (rbind _ _); [|by eapply (typed_sub c)].
    destruct (join file c) as [[] c1]; simpl in Hj; by eapply (typed_sub c1).
  - apply bind_Some in Hs as (reg & Hr & [= <-]). unfold drop_registration.
    destruct (entries c !! _) as [p|]; [destruct (_ =? _); [destruct (decide _)|]|];
      (eapply typed_sub; [done|apply delete_subseteq|done|done]).
  - apply bind_Some in Hs as (file & Hr & Hs). destruct (implb _ _); simplify_eq.
    unfold finish. destruct (take_waiters g file c). split_and!; simpl; auto.
    + intros i f [_ ?]%lookup_delete_Some. eauto.
    + intros i f r [[<- [= <- <-]]|[_ ?]]%lookup_insert_Some; eauto.
  - apply bind_Some in Hs as (file & Hr & [= <-]).
    unfold finish. destruct (take_waiters g file c). split_and!; simpl; auto.
    + intros i f [_ ?]%lookup_delete_Some. eauto.
    + intros i f r [[<- [= <- <-]]|[_ ?]]%lookup_insert_Some; eauto.
  - destruct (_ && _); simplify_eq. by eapply typed_sub.
Qed.
End Invariant.

(** ** The single-flight key *)

Lemma flight_key_inj f g :
  is_u64 (file_size f) -> is_u64 (file_size g) -> flight_key f = flight_key g ->
  file_digest f = file_digest g /\ file_size f = file_size g.
Proof.
  intros Hf Hg He. unfold flight_key in He. apply (f_equal as_bytes) in He.
  rewrite !as_bytes_app, !u64_to_string_bytes in He by (unfold is_u64 in *; lia).
  assert (Hd : forall n, is_u64 n -> Forall (fun b => b <> 58) (dec_bytes 20 n)).
  { intros n [Hn _]. eapply Forall_impl; [|by apply dec_bytes_digits].
    unfold is_digit. intros; lia. }
  destruct (last_separator _ _ _ _ (Hd _ Hf) (Hd _ Hg) He) as [H1 H2]. apply as_bytes_inj in H1. split; [done|].
  assert (Hv : forall n, is_u64 n -> value_of 0 (dec_bytes 20 n) = n).
  { intros n Hn. apply dec_bytes_value. change (10 ^ Z.of_nat 20) with 100000000000000000000.
    unfold is_u64, u64_max in Hn. lia. }
  apply (f_equal (value_of 0)) in H2. by rewrite (Hv _ Hf), (Hv _ Hg) in H2.
Qed.

(** ** Theorems *)

(** C8: downloads are single-flight. In every reachable state, two live jobs for
    the same content identity and size that are not cancelled are the same job,
    and a live job is cancelled exactly when no registered caller depends on it
    any more: neither the first caller's departure nor a stale registration or
    guard of an earlier flight cancels a download somebody still waits for. *)
Theorem single_flight `{CodecScope} scope files pages l c :
  limits_ok l -> reachable scope files pages l c ->
  (forall g g' f f', guards c !! g = Some f -> guards c !! g' = Some f' ->
     flight_key f = flight_key f' -> g ∉ cancelled c -> g' ∉ cancelled c -> g = g') /\
  (forall g f, guards c !! g = Some f ->
     (g ∈ cancelled c <-> forall id r, registrations c !! id = Some r -> r_flight r <> g)).
Proof.
  intros Hl Hr. destruct (coord_ok_reachable _ _ _ _ _ Hl Hr) as [[_ Hent Hgrd Hreg _ _] _]. split.
  - intros g g' f f' Hg Hg' Hk Hc Hc'.
    destruct (Hgrd _ _ Hg) as [_ [?|(p & Hp & <-)]]; [done|].
    destruct (Hgrd _ _ Hg') as [_ [?|(p' & Hp' & <-)]]; [done|]. rewrite Hk in Hp. congruence.
  - intros g f Hg. destruct (Hgrd _ _ Hg) as [Ho Hwhere]. split.
    + intros Hc id r Hid <-. destruct (Hreg _ _ Hid) as [(p & Hp & Hf & _)|(f' & res & _ & Ho' & _)].
      * destruct (Hent _ _ Hp) as (_ & Hn & _). congruence.
      * congruence.
    + intros Hno. destruct Hwhere as [?|(p & Hp & <-)]; [done|].
      destruct (Hent _ _ Hp) as (_ & _ & Hne & Hw). apply set_choose_L in Hne as [id Hid].
      destruct (Hw id Hid) as (r & Hr' & _ & Hf & _). by destruct (Hno id r Hr').
Qed.

(** C17: no waiter is lost and none receives another content. In every reachable
    state each registered caller either waits, undelivered, on a live
    uncancelled job of its own key, or holds the outcome of the flight it
    joined, fetched for the same digest and size; delivered bytes have exactly
    the size the caller's view committed. Hence once no job is live, every
    registered caller has its result. *)
Theorem waiters_served `{CodecScope} scope files pages l c id r :
  limits_ok l -> reachable scope files pages l c -> registrations c !! id = Some r ->
  ((exists f, guards c !! r_flight r = Some f /\ flight_key f = flight_key (r_file r) /\
      (r_flight r ∉ cancelled c) /\ delivered c !! id = None) \/
   (exists f res, delivered c !! id = Some res /\ outcomes c !! r_flight r = Some (f, res) /\
      file_digest f = file_digest (r_file r) /\
      forall b, res = Ok b -> zlen b = file_size (r_file r))) /\
  (guards c = ∅ -> is_Some (delivered c !! id)).
Proof.
  intros Hl Hr Hid. destruct (coord_ok_reachable _ _ _ _ _ Hl Hr) as [[_ Hent _ Hreg Hout _] _].
  destruct (typed_reachable _ _ _ _ _ Hr) as (T1 & T2 & T3).
  destruct (Hreg _ _ Hid) as [(p & Hp & Hf & Hin)|(f & res & Hd & Ho & Hk)].
  - destruct (Hent _ _ Hp) as ((f & Hg & Hk) & Hn & _ & Hw). destruct (Hw id Hin) as (r' & ? & _ & _ & Hd).
    rewrite Hf in *. split; [left; exists f; by split_and!|]. intros E. by rewrite E in Hg.
  - destruct (flight_key_inj f (r_file r)) as [Hdg Hsz]; eauto.
    split; [right|by eexists]. exists f, res. split_and!; auto. intros b ->. rewrite <- Hsz. eauto.
Qed.

(** C34: permit ownership is exact. In every reachable state, [counts] reports
    the live jobs and callers, which stay within the configured limits (at most
    64 and 256) and leave the process totals within 256 and 1024; no error or
    cancellation path leaks a permit, so an idle coordinator has all of them. *)
Theorem permits_exact `{CodecScope} scope files pages l c :
  limits_ok l -> reachable scope files pages l c ->
  counts l c = (live_jobs c, live_callers c) /\
  0 <= live_jobs c <= 64 /\ 0 <= live_callers c <= 256 /\
  live_jobs c <= MAX_PROCESS_PENDING_JOBS - process_jobs c /\
  live_callers c <= MAX_PROCESS_ACTIVE_CALLERS - process_callers c /\
  (registrations c = ∅ -> guards c = ∅ -> admitted c = 0 -> direct c = 0 ->
     callers c = max_active_callers l /\ jobs c = max_pending_jobs l).
Proof.
  intros Hl Hr. destruct (coord_ok_reachable _ _ _ _ _ Hl Hr) as [_ []]. destruct Hl as [? ?].
  unfold counts, MAX_COORDINATOR_PENDING_JOBS, MAX_COORDINATOR_ACTIVE_CALLERS in *.
  unfold live_jobs, live_callers in *. split_and!; try lia; [f_equal; lia|].
  intros E1 E2 E3 E4. rewrite E1, E2, E3, E4, !map_size_empty in *. lia.
Qed.
End Coord.
