(* ===== verification/Frames.v ===== *)
(** * Frames

    The TreeFrame transport of [src/snapshot/frames.rs] and
    [Mst2Client::post_treeframe] of [src/snapshot/client.rs]: request
    batching, response budgets, the bounded read, the header scan that runs
    before the codec, and the END binding. The codec ([mst2_codec::treeframe])
    is the class [Treeframe]; serde's encoder appears as the byte length of an
    encoded item and of the empty envelope. *)

From S2P Require Import Prelude Types Text Profile.
Import Digests.
Local Open Scope string_scope.
Local Open Scope list_scope.
Local Open Scope Z_scope.

(** ** The codec's interface *)

Abbreviation bytes := (list Z).

Record EndFrame : Type := mkEnd {
  request_item_count : Z;
  unique_unit_count : Z;
  logical_bytes : Z;
  request_body_sha256 : bytes;
}.

Inductive Frame : Type :=
  | FMeta (pages : list (bytes * bytes))
  | FObject (objects : list (bytes * bytes))
  | FChunk (map_id file_content_id : bytes) (chunk_index : Z) (chunk_bytes : bytes)
  | FEnd (e : EndFrame)
  | FError (code request_id : string).

(** [mst2_codec::treeframe]: its constants and its stream parser. The header
    holds the fields the transport reads, up to byte 20. *)
Class Treeframe : Type := {
  HEADER_LEN : Z; ERROR_MAX_BYTES : Z; META_MAX_RAW : Z; OBJECT_MAX_RAW : Z;
  CHUNK_MAX_LEN : Z; OBJECT_MAX_LEN : Z;
  KIND_META : Z; KIND_OBJECT : Z; KIND_CHUNK : Z; KIND_END : Z; KIND_ERROR : Z;
  PAGE_MAX_BYTES : Z; MAX_DEPTH : Z;
  parse_stream : bytes -> result string (list Frame);
  HEADER_LEN_fields : 20 <= HEADER_LEN;
}.

Definition limit_err (m : string) : SnapshotError := SnapshotError_new LimitExceeded m.
Definition frame_err (context e : string) : SnapshotError :=
  SnapshotError_new DigestMismatch (context ++ ": " ++ e).

(** ** Request batches *)
Module Batches.
Section Batches.
Context {T : Type} (overhead limit max_items : Z) (item_bytes : T -> Z).

(** The loop state: finished batches, the open slice [items[start..index]] and
    the bytes of its encoding. *)
Record state : Type := mkState { done_ : list (list T); open : list T; used : Z }.

Definition comma (current : list T) : Z := if bool_decide (current = []) then 0 else 1.

Definition batch_item (st : state) (item : T) : Res state :=
  let n := item_bytes item in
  reject? limit <? overhead + n
    with limit_err "one TreeFrame item exceeds the JSON request byte limit" in
  let st := if (limit <? used st + comma (open st) + n) || (max_items <=? zlen (open st))
            then {| done_ := done_ st ++ [open st]; open := []; used := overhead |} else st in
  Ok {| done_ := done_ st; open := open st ++ [item]; used := used st + (comma (open st) + n) |}.

(** [request_batches]. *)
Definition request_batches (items : list T) : Res (list (list T)) :=
  let? st := for_each batch_item {| done_ := []; open := []; used := overhead |} items in
  Ok (if bool_decide (open st = []) then done_ st else done_ st ++ [open st]).

(** The encoded size of a batch: the envelope, its items and the commas
    between them. *)
Fixpoint items_len (b : list T) : Z :=
  match b with
  | [] => 0
  | x :: b => item_bytes x + comma b + items_len b
  end.
Definition encoded_len (b : list T) : Z := overhead + items_len b.

Definition batch_ok (b : list T) : Prop :=
  b <> [] /\ zlen b <= max_items /\ encoded_len b <= limit.

Lemma items_len_snoc b x : items_len (b ++ [x]) = items_len b + comma b + item_bytes x.
Proof using Type.
  induction b as [|y b IH]; simpl; [unfold comma; simpl; lia|].
  rewrite IH. unfold comma. destruct b; simpl; lia.
Qed.

Definition state_ok (items : list T) (st : state) : Prop :=
  concat (done_ st) ++ open st = items /\ Forall batch_ok (done_ st) /\
  used st = encoded_len (open st) /\ (open st <> [] -> batch_ok (open st)).

Lemma state_ok_init : state_ok [] {| done_ := []; open := []; used := overhead |}.
Proof using Type. split_and!; simpl; [done|constructor|unfold encoded_len; simpl; lia|done]. Qed.

Lemma batch_item_ok items st x st' :
  1 <= max_items -> state_ok items st -> batch_item st x = Ok st' -> state_ok (items ++ [x]) st'.
Proof using Type.
  intros Hmax (Hc & Hd & Hu & Ho) Hx. unfold batch_item in Hx. inv_ok. subst st'. bools.
  assert (Hone : batch_ok [x]).
  { split_and!; [done|unfold zlen; simpl; lia|]. unfold encoded_len. simpl. unfold comma. simpl. lia. }
  unfold state_ok. destruct (_ || _) eqn:Hflush; simpl.
  - assert (Hne : open st <> []).
    { intros E. rewrite Hu, E in Hflush. unfold encoded_len, comma, zlen in Hflush. simpl in Hflush.
      bools. lia. }
    split_and!; [by rewrite concat_app; simpl; rewrite app_nil_r, Hc|..|done].
    + apply Forall_app_2; [done|]. constructor; auto.
    + unfold encoded_len. simpl. unfold comma. simpl. lia.
  - bools. destruct Hflush as [Hl Hm].
    assert (He : used st + (comma (open st) + item_bytes x) = encoded_len (open st ++ [x])).
    { rewrite Hu. unfold encoded_len. rewrite items_len_snoc. lia. }
    split_and!; [by rewrite app_assoc, Hc|done|done|]. intros _. split_and!.
    + by destruct (open st).
    + rewrite zlen_app. unfold zlen at 2. simpl. lia.
    + rewrite <- He. lia.
Qed.

Lemma batch_items_ok items :
  forall done_items st st', 1 <= max_items -> state_ok done_items st ->
  for_each batch_item st items = Ok st' -> state_ok (done_items ++ items) st'.
Proof using Type.
  induction items as [|x items IH]; intros acc st st' Hm Hst Hf; simpl in Hf.
  { inv_ok. subst. by rewrite app_nil_r. }
  inv_ok. rewrite (app_assoc acc [x] items : acc ++ x :: items = _).
  eapply IH; eauto. by eapply batch_item_ok.
Qed.

Lemma batch_items_err items st e :
  for_each batch_item st items = Err e -> exists x, x ∈ items /\ limit < overhead + item_bytes x.
Proof using Type.
  revert st. induction items as [|x items IH]; intros st Hf; simpl in Hf; [done|].
  apply rbind_err in Hf as [Hx|(st' & _ & Hf)].
  - exists x. split; [by left|]. unfold batch_item in Hx.
    destruct (Z.ltb_spec limit (overhead + item_bytes x)); [done|]. discriminate Hx.
  - destruct (IH st' Hf) as (y & ? & ?). exists y. split; [by right|done].
Qed.

Lemma batch_items_fits items st st' :
  for_each batch_item st items = Ok st' -> Forall (fun x => overhead + item_bytes x <= limit) items.
Proof using Type.
  revert st. induction items as [|x items IH]; intros st Hf; simpl in Hf; [constructor|].
  inv_ok. constructor; [|by eapply IH].
  match goal with H : batch_item _ _ = Ok _ |- _ => unfold batch_item in H; inv_ok; bools; lia end.
Qed.

Lemma batch_items_concat items st st' :
  for_each batch_item st items = Ok st' ->
  concat (done_ st') ++ open st' = (concat (done_ st) ++ open st) ++ items.
Proof using Type.
  revert st. induction items as [|x items IH]; intros st Hf; simpl in Hf.
  { inv_ok. subst. by rewrite app_nil_r. }
  inv_ok. rewrite (IH _ Hf). clear IH Hf.
  match goal with H : batch_item _ _ = Ok _ |- _ => unfold batch_item in H; inv_ok; subst end.
  destruct (_ || _); simpl; rewrite ?concat_app; simpl; by rewrite <- ?app_assoc.
Qed.

Lemma request_batches_concat items bs : request_batches items = Ok bs -> concat bs = items.
Proof using Type.
  unfold request_batches. intros Hb. inv_ok.
  match goal with H : for_each _ _ _ = Ok _ |- _ => apply batch_items_concat in H as Hc end. simpl in Hc.
  destruct (bool_decide_reflect (open x = [])) as [E|_]; subst bs.
  - by rewrite E, app_nil_r in Hc.
  - rewrite concat_app. simpl. by rewrite app_nil_r.
Qed.
End Batches.

(** Request batching partitions the items in order into nonempty batches,
    each within the item limit and with an encoded request (envelope, items,
    commas) within the byte limit; it fails exactly when some single item does
    not fit a request on its own, before anything is sent. *)
Lemma batches_partition {T} (overhead limit max_items : Z) (item_bytes : T -> Z) items :
  1 <= max_items ->
  match request_batches overhead limit max_items item_bytes items with
  | Ok bs => concat bs = items /\ Forall (batch_ok overhead limit max_items item_bytes) bs /\
             Forall (fun x => overhead + item_bytes x <= limit) items
  | Err e => exists x, x ∈ items /\ limit < overhead + item_bytes x
  end.
Proof.
  intros Hm. unfold request_batches.
  destruct (for_each _ _ items) as [st|e] eqn:Hf; simpl; [|by eapply batch_items_err].
  pose proof (batch_items_ok _ _ _ _ _ [] _ _ Hm (state_ok_init _ _ _ _) Hf)
    as (Hc & Hd & _ & Ho). apply batch_items_fits in Hf. simpl in Hc.
  destruct (bool_decide_reflect (open st = [])) as [E|Hne].
  - rewrite E, app_nil_r in Hc. by split_and!.
  - split_and!; [by rewrite concat_app; simpl; rewrite app_nil_r|apply Forall_app_2; [done|]|done].
    constructor; auto.
Qed.
End Batches.

(** ** Responses *)
Module Response.
Section Response.
Context `{Treeframe}.

Record ResponseBudget : Type := mkBudget { units : Z; raw_bytes : Z; wire_bytes : Z }.

(** [ResponseBudget::new]. *)
Definition ResponseBudget_new (units logical overhead : Z) : Res ResponseBudget :=
  let overflow := limit_err "TreeFrame response byte budget overflow" in
  let? raw := ok_or (o ← checked_mul units overhead; b ← checked_add o logical;
                     checked_add b ERROR_MAX_BYTES) overflow in
  let? wire := ok_or (f ← checked_add units 1; h ← checked_mul f HEADER_LEN;
                      r ← checked_mul raw 2; checked_add r h) overflow in
  Ok {| units := units; raw_bytes := raw; wire_bytes := wire |}.

(** [u32::from_le_bytes] of four bytes at an offset. *)
Definition le32 (b : bytes) (at_ : nat) : Z :=
  let get i := default 0 (b !! (at_ + i)%nat) in
  get 0%nat + 256 * get 1%nat + 65536 * get 2%nat + 16777216 * get 3%nat.

Definition header_kind (h : bytes) : Z := default 0 (h !! 6%nat).
Definition header_codec (h : bytes) : Z := default 0 (h !! 7%nat).
Definition wire_len (h : bytes) : Z := le32 h 12.
Definition raw_len (h : bytes) : Z := le32 h 16.

Definition max_raw (kind : Z) : Z :=
  if kind =? KIND_META then META_MAX_RAW
  else if kind =? KIND_OBJECT then OBJECT_MAX_RAW
  else if kind =? KIND_CHUNK then 76 + CHUNK_MAX_LEN
  else if kind =? KIND_END then 48 else ERROR_MAX_BYTES.

Definition digest_err (m : string) : SnapshotError := SnapshotError_new DigestMismatch m.

(** The scan loop of [response_frames] over the bytes from [offset] on; [None]
    is out of fuel. Both checked additions of the offset are absorbed by the
    comparison with the remaining length, which fails with the same error. *)
Fixpoint scan (p : profile) (context data_name : string) (data_kind : Z) (b : ResponseBudget)
    (fuel : nat) (rest : bytes) (frames raw_total : Z) : option (Res (Z * Z)) :=
  match fuel with
  | O => None
  | S fuel =>
      if bool_decide (rest = []) then Some (Ok (frames, raw_total)) else
      match (
        reject? zlen rest <? HEADER_LEN with digest_err "truncated TreeFrame header" in
        let h := take (Z.to_nat HEADER_LEN) rest in
        let kind := header_kind h in
        reject? negb ((kind =? KIND_END) || (kind =? KIND_ERROR)) && negb (kind =? data_kind)
          with digest_err (context ++ " contains a non-" ++ data_name ++ " data frame") in
        reject? (max_raw kind <? raw_len h) || (frame_wire_limit p <? wire_len h)
          with limit_err "TreeFrame payload exceeds its frame byte limit" in
        reject? is_canonical p && negb (header_codec h =? 0)
          with limit_err "reader selected identity TreeFrames" in
        let frames := frames + 1 in
        let? raw_total := ok_or (checked_add raw_total (raw_len h))
                            (limit_err "TreeFrame raw response byte count overflow") in
        reject? (units b + 2 <? frames) || (raw_bytes b <? raw_total)
          with limit_err "TreeFrame response exceeds its request's frame or raw byte budget" in
        reject? zlen rest <? HEADER_LEN + wire_len h
          with digest_err "truncated TreeFrame payload" in
        Ok (HEADER_LEN + wire_len h, frames, raw_total)) with
      | Err e => Some (Err e)
      | Ok (n, frames, raw_total) =>
          scan p context data_name data_kind b fuel (drop (Z.to_nat n) rest) frames raw_total
      end
  end.

(** [response_frames]: the scan, then the codec. *)
Definition response_frames (p : profile) (raw : bytes) (context data_name : string) (data_kind : Z)
    (b : ResponseBudget) : Res (list Frame) :=
  let? _ := default (Err (limit_err "")) (scan p context data_name data_kind b (S (length raw)) raw 0 0) in
  map_err (frame_err context) (parse_stream raw).

(** [Mst2Client::post_treeframe]. The server's answer: a transport error, or a
    success with its header check, or an HTTP error whose envelope is parsed. *)
Record Answer : Type := mkAnswer {
  ok_status : bool;
  headers : Res unit;
  content_length : option Z;
  chunks : list bytes;
  http_error : bytes -> SnapshotError;
}.

Definition over_budget : SnapshotError :=
  limit_err "TreeFrame response exceeds the request's byte budget".

Definition push_chunk (limit : Z) (acc c : bytes) : Res bytes :=
  reject? saturating_sub limit (zlen acc) <? zlen c with over_budget in Ok (acc ++ c).

Definition read_bounded (limit : Z) (cs : list bytes) : Res bytes := for_each (push_chunk limit) [] cs.

Definition post_treeframe (p : profile) (send : bytes -> Res Answer) (body : bytes) (limit : Z)
    : Res bytes :=
  reject? request_byte_limit p <? zlen body
    with limit_err "TreeFrame request exceeds the JSON request byte limit" in
  let? resp := send body in
  let? limit := (if ok_status resp then let? _ := headers resp in Ok limit
                 else Ok (Z.min limit (response_byte_limit p))) in
  reject? match content_length resp with Some n => limit <? n | None => false end with over_budget in
  let? b := read_bounded limit (chunks resp) in
  reject? negb (ok_status resp) with http_error resp b in
  Ok b.

Context `{Sha256}.

(** [check_end]. *)
Definition check_end (frames : list Frame) (body : bytes) (expect : Z) : Res (Z * Z) :=
  match list.last frames with
  | Some (FError c r) =>
      Err (SnapshotError_new Internal
             ("server rejected TreeFrame request: " ++ c ++ " (request_id " ++ r ++ ")"))
  | Some (FEnd e) =>
      reject? negb (request_item_count e =? expect) with digest_err
        ("END item count " ++ Counters.u64_to_string (request_item_count e) ++ " != request "
         ++ Counters.u64_to_string expect) in
      reject? negb (bool_decide (request_body_sha256 e = sha256 body))
        with digest_err "END request_body_sha256 does not match the body sent" in
      Ok (unique_unit_count e, logical_bytes e)
  | _ => Err (digest_err "missing END frame")
  end.

(** ** Facts *)

(** A frame the scan admits. *)
Definition segment_ok (p : profile) (data_kind : Z) (s : bytes) : Prop :=
  let h := take (Z.to_nat HEADER_LEN) s in
  HEADER_LEN <= zlen s /\ zlen s = HEADER_LEN + wire_len h /\
  (header_kind h = KIND_END \/ header_kind h = KIND_ERROR \/ header_kind h = data_kind) /\
  raw_len h <= max_raw (header_kind h) /\ wire_len h <= frame_wire_limit p /\
  (is_canonical p = true -> header_codec h = 0).

Definition raw_of (s : bytes) : Z := raw_len (take (Z.to_nat HEADER_LEN) s).

Lemma le32_nonneg b n : Forall is_byte b -> 0 <= le32 b n.
Proof using Type.
  intros Hb. unfold le32. assert (Hi : forall i, 0 <= default 0 (b !! i)).
  { intros i. destruct (b !! i) eqn:E; simpl; [|lia]. rewrite Forall_lookup in Hb.
    destruct (Hb _ _ E). lia. }
  pose proof (Hi (n + 0)%nat). pose proof (Hi (n + 1)%nat). pose proof (Hi (n + 2)%nat).
  pose proof (Hi (n + 3)%nat). lia.
Qed.

Definition sum_raw (segs : list bytes) : Z := foldr (fun s acc => raw_of s + acc) 0 segs.

Lemma scan_spec p ctx name kind b fuel rest frames total n t :
  Forall is_byte rest ->
  scan p ctx name kind b fuel rest frames total = Some (Ok (n, t)) ->
  exists segs, concat segs = rest /\ Forall (segment_ok p kind) segs /\
    n = frames + zlen segs /\ t = total + sum_raw segs /\
    (segs <> [] -> n <= units b + 2 /\ t <= raw_bytes b).
Proof using Type.
  revert rest frames total. induction fuel as [|fuel IH]; intros rest frames total Hb Hs; simpl in Hs; [done|].
  destruct (bool_decide_reflect (rest = [])) as [->|Hne].
  { simplify_eq. exists []. split_and!; [done|constructor|unfold zlen; simpl; lia..|done]. }
  destruct (if _ <? HEADER_LEN then _ else _) as [[[w f'] t']|] eqn:Hstep; [|done]. inv_ok. simplify_eq.
  match goal with H : checked_add _ _ = Some _ |- _ => apply checked_add_some in H as [-> _] end.
  bools. rewrite ?andb_false_iff in *. split_all. bools.
  set (h := take (Z.to_nat HEADER_LEN) rest) in *.
  assert (Hw : 0 <= wire_len h) by (apply le32_nonneg, Forall_take; done).
  pose proof HEADER_LEN_fields as Hlen.
  apply IH in Hs as (segs & Hc & Hseg & -> & -> & Hbud); [|by apply Forall_drop].
  set (s := take (Z.to_nat (HEADER_LEN + wire_len h)) rest).
  assert (Hh : take (Z.to_nat HEADER_LEN) s = h).
  { unfold s. by rewrite take_take, Nat.min_l by lia. }
  assert (Hzs : zlen s = HEADER_LEN + wire_len h).
  { unfold s, zlen in *. rewrite length_take. lia. }
  exists (s :: segs). split_and!; simpl.
  - rewrite Hc. unfold s. apply take_drop.
  - constructor; [|done]. unfold segment_ok. rewrite Hh. split_and!; try lia.
    intros Hcan. match goal with Hx : _ = false \/ header_codec h = 0 |- _ => destruct Hx; congruence end.
  - unfold zlen. simpl. lia.
  - unfold raw_of at 1. rewrite Hh. lia.
  - intros _. destruct segs; [unfold zlen; simpl in *; lia|]. apply Hbud. done.
Qed.

Lemma scan_total p ctx name kind b fuel rest frames total :
  Forall is_byte rest -> (length rest < fuel)%nat ->
  is_Some (scan p ctx name kind b fuel rest frames total).
Proof using Type.
  revert rest frames total. induction fuel as [|fuel IH]; intros rest frames total Hb Hf; [lia|]. simpl.
  destruct (bool_decide_reflect (rest = [])) as [|Hne]; [eauto|].
  destruct (if _ <? HEADER_LEN then _ else _) as [[[w f'] t']|] eqn:Hstep; [|eauto]. inv_ok. simplify_eq.
  pose proof HEADER_LEN_fields as Hlen.
  assert (Hw : 0 <= wire_len (take (Z.to_nat HEADER_LEN) rest)) by (apply le32_nonneg, Forall_take; done).
  apply IH; [by apply Forall_drop|]. rewrite length_drop. destruct rest; [done|]. simpl in *. lia.
Qed.

Lemma read_bounded_app limit acc cs b :
  for_each (push_chunk limit) acc cs = Ok b -> b = acc ++ concat cs /\ (cs <> [] -> zlen acc <= limit -> zlen b <= limit).
Proof using Type.
  revert acc. induction cs as [|c cs IH]; intros acc Hr; simpl in *.
  { inv_ok. subst. by rewrite app_nil_r. }
  inv_ok. apply IH in Hr as [-> Hl]. unfold push_chunk in *. inv_ok. subst. rewrite <- app_assoc. split; [done|]. intros _ Ha. bools.
  assert (zlen (acc ++ c) <= limit).
  { rewrite zlen_app. unfold saturating_sub in *. lia. }
  destruct cs; simpl in *; [by rewrite app_nil_r|]. rewrite app_assoc. by apply Hl.
Qed.
End Response.

(** C23: every response is admitted within the request's budget before the codec
    decodes it. The header scan always finishes; when a response is accepted,
    its bytes tile exactly into frames of the endpoint's kind (or END, ERROR),
    each within the frame limits and, for a canonical profile, uncompressed,
    with at most two frames more than the requested units and a declared raw
    total within the budget. *)
Theorem response_within_budget `{Treeframe} p raw ctx name kind b :
  Forall is_byte raw ->
  is_Some (scan p ctx name kind b (S (length raw)) raw 0 0) /\
  (forall fs, response_frames p raw ctx name kind b = Ok fs ->
     parse_stream raw = Ok fs /\
     exists segs, concat segs = raw /\ Forall (segment_ok p kind) segs /\
       (raw <> [] -> zlen segs <= units b + 2 /\ sum_raw segs <= raw_bytes b)).
Proof.
  intros Hb. split; [apply scan_total; [done|lia]|]. intros fs Hr. unfold response_frames in Hr. inv_ok.
  split; [done|]. destruct (scan _ _ _ _ _ _ _ _ _) as [[[n t]|]|] eqn:Hs; [|done|done].
  apply scan_spec in Hs as (segs & Hc & Hseg & -> & -> & Hbud); [|done].
  exists segs. split_and!; [done..|]. intros Hne. apply Hbud. intros ->. by simpl in Hc.
Qed.

(** A TreeFrame exchange is bounded in both directions: a request above the
    profile's limit is never sent, and an accepted response is the whole body
    the server streamed, at most the byte budget computed for the request,
    whatever [Content-Length] it announced. *)
Lemma exchange_bounded p send body limit b :
  0 <= limit ->
  post_treeframe p send body limit = Ok b ->
  zlen body <= request_byte_limit p /\ zlen b <= limit /\
  exists resp, send body = Ok resp /\ ok_status resp = true /\ headers resp = Ok tt /\
               b = concat (chunks resp).
Proof.
  intros Hl Hp. unfold post_treeframe in Hp. inv_ok. subst. bools.
  match goal with Hs : send _ = Ok ?r |- _ => rename r into resp; rename Hs into Hsend end.
  match goal with Hs : ok_status _ = true |- _ => rename Hs into Hok end. rewrite Hok in *. inv_ok. subst.
  match goal with Hs : read_bounded _ _ = Ok _ |- _ => apply read_bounded_app in Hs as [Hb Hz] end.
  simpl in Hb. subst. split_and!; [done| |].
  - destruct (chunks resp); [unfold zlen; simpl; lia|]. apply Hz; [done|unfold zlen; simpl; lia].
  - exists resp. split_and!; auto. match goal with u : unit |- _ => by destruct u end.
Qed.

(** The END frame binds the answer to the request. [check_end] succeeds only
    on a stream terminated by an END frame that repeats the item count and the
    SHA-256 of the body sent, so two request bodies for which one stream is
    accepted are equal or collide. *)
Lemma end_binds_request `{Sha256} frames body body' n n' r r' :
  check_end frames body n = Ok r -> check_end frames body' n' = Ok r' ->
  (exists e, list.last frames = Some (FEnd e) /\ request_item_count e = n /\
     r = (unique_unit_count e, logical_bytes e)) /\
  n = n' /\ r = r' /\ (body = body' \/ collide body body').
Proof.
  unfold check_end. destruct (list.last frames) as [[]|]; try done. intros H1 H2. inv_ok. bools. subst.
  repeat match goal with Hb : bool_decide _ = true |- _ => apply bool_decide_eq_true in Hb end.
  split_and!; [by exists e|done..|].
  destruct (decide (body = body')); [by left|right]. split; [done|congruence].
Qed.
End Response.
