(* ===== verification/Units.v ===== *)
(** * Units

    The batched content endpoints of [src/snapshot/frames.rs]: [chunks],
    [objects] and [metadata_pages], each from request validation through
    batching and the TreeFrame exchange to the exact-set check of the units it
    returns, and [check_metadata_members], which ties returned metadata pages
    to the requested routes. The serving deployment ([send]), serde's encoding
    of a request ([body]) and the page codec are parameters. *)

From S2P Require Import Prelude Types Text Profile Directory Frames.
Import Digests Batches Response.
Local Open Scope string_scope.
Local Open Scope list_scope.
Local Open Scope Z_scope.

Definition scope_err (m : string) : SnapshotError := SnapshotError_new ScopeInvalid m.

(** What the panicking [unreachable!] arms of the collectors stand for. *)
Definition unreachable_frame : SnapshotError :=
  SnapshotError_new Internal "endpoint frame kinds and successful END were checked".

(** ** Chunks *)
Module Chunks.

Record ChunkRequest : Type := mkRequest {
  path : string;
  expected_digest : string;
  map_id : string;
  chunk_index : Z;
}.

Record ChunkUnit : Type := mkUnit {
  u_map_id : bytes;
  u_file_content_id : bytes;
  u_chunk_index : Z;
  u_bytes : bytes;
}.

Abbreviation unit_id := (bytes * Z)%type.
Definition unit_key (u : ChunkUnit) : unit_id := (u_map_id u, u_chunk_index u).

Definition batch_size_err : SnapshotError := scope_err "chunks batch must hold 1..128 items".
Definition MAX_CHUNK_BATCH : Z := 128.

Section Requested.
Context `{HexCrate}.

(** One iteration of the loop that builds [requested]. *)
Definition request_unit (m : gmap unit_id bytes) (item : ChunkRequest) : Res (gmap unit_id bytes) :=
  let? k := parse_digest (map_id item) in
  let? f := parse_digest (expected_digest item) in
  reject? match m !! (k, chunk_index item) with Some g => negb (bool_decide (g = f)) | None => false end
    with scope_err "a chunk unit cannot name different file content ids" in
  Ok (<[(k, chunk_index item) := f]> m).

Definition requested_units (items : list ChunkRequest) : Res (gmap unit_id bytes) :=
  for_each request_unit ∅ items.

Record collected : Type := mkCollected {
  out : list ChunkUnit; seen : gset unit_id; received : Z;
}.

(** One iteration of the frame loop. *)
Definition collect_chunk (requested : gmap unit_id bytes) (st : collected) (f : Frame) : Res collected :=
  match f with
  | FChunk m fid i b =>
      reject? negb (bool_decide (requested !! (m, i) = Some fid)) || bool_decide ((m, i) ∈ seen st)
        with digest_err "chunks response contains an unrequested or duplicate chunk unit" in
      Ok {| out := out st ++ [{| u_map_id := m; u_file_content_id := fid; u_chunk_index := i; u_bytes := b |}];
            seen := {[(m, i)]} ∪ seen st; received := received st + zlen b |}
  | FEnd _ => Ok st
  | _ => Err unreachable_frame
  end.

(** *** Facts *)

(** What a request item names. *)
Definition names_unit (item : ChunkRequest) (k : unit_id) (f : bytes) : Prop :=
  parse_digest (map_id item) = Ok (fst k) /\ chunk_index item = snd k /\
  parse_digest (expected_digest item) = Ok f.

Lemma requested_units_spec items m0 m :
  for_each request_unit m0 items = Ok m ->
  forall k f, m !! k = Some f <-> m0 !! k = Some f \/ exists item, item ∈ items /\ names_unit item k f.
Proof using Type.
  revert m0. induction items as [|item items IH]; intros m0 Hf k f; simpl in Hf.
  { inv_ok. subst. split; [by left|]. intros [?|(i & Hi & _)]; [done|by apply not_elem_of_nil in Hi]. }
  inv_ok. rewrite (IH _ Hf k f). clear IH Hf.
  match goal with Hr : request_unit _ _ = Ok _ |- _ => unfold request_unit in Hr; inv_ok; subst end.
  match goal with Hk : parse_digest (map_id item) = Ok ?x |- _ => rename x into kd; rename Hk into Hkd end.
  match goal with Hk : parse_digest (expected_digest item) = Ok ?x |- _ => rename x into fd; rename Hk into Hfd end.
  assert (Hitem : names_unit item k f <-> (kd, chunk_index item) = k /\ fd = f).
  { unfold names_unit. rewrite Hkd, Hfd. destruct k; simpl. split; [intros ([= ->] & -> & [= ->])|intros ([= -> ->] & ->)]; done. }
  rewrite lookup_insert_Some.
  assert (Hsame : m0 !! k = Some f -> (kd, chunk_index item) = k -> fd = f).
  { intros Hm <-. rewrite Hm in *. bools. by match goal with Hb : bool_decide _ = true |- _ => apply bool_decide_eq_true in Hb end. }
  split.
  - intros [[Hk|[_ Hm]]|(i & Hi & Hn)]; [right; exists item|by left|right; exists i].
    + split; [by left|by apply Hitem].
    + split; [by right|done].
  - intros [Hm|(i & [->|Hi]%elem_of_cons & Hn)].
    + left. destruct (decide ((kd, chunk_index item) = k)); auto.
    + left. left. by apply Hitem.
    + right. eauto.
Qed.

Lemma requested_units_named items m0 m item :
  for_each request_unit m0 items = Ok m -> item ∈ items -> exists k f, names_unit item k f.
Proof using Type.
  revert m0. induction items as [|i items IH]; intros m0 Hf Hi; simpl in Hf; [by apply not_elem_of_nil in Hi|].
  inv_ok. apply elem_of_cons in Hi as [->|Hi]; [|by eapply IH].
  match goal with Hr : request_unit _ _ = Ok _ |- _ => unfold request_unit in Hr; inv_ok end.
  match goal with Hk : parse_digest (map_id i) = Ok ?k, Hd : parse_digest (expected_digest i) = Ok ?d |- _ =>
    by exists (k, chunk_index i), d end.
Qed.

Definition collected_ok (requested : gmap unit_id bytes) (st : collected) : Prop :=
  NoDup (unit_key <$> out st) /\ (forall k, k ∈ seen st <-> k ∈ unit_key <$> out st) /\
  Forall (fun u => requested !! unit_key u = Some (u_file_content_id u)) (out st).

Lemma collect_ok requested frames st st' :
  collected_ok requested st -> for_each (collect_chunk requested) st frames = Ok st' ->
  collected_ok requested st'.
Proof using Type.
  intros Hst Hf. eapply (for_each_inv _ (collected_ok requested)); [|exact Hst|exact Hf].
  intros s f s' (Hnd & Hseen & Hreq) _ Hc. destruct f as [?|?|m fid i b|e|? ?]; simpl in Hc;
    [done|done| |by inv_ok; subst|done].
  apply reject_ok in Hc as [[Hr Hn]%orb_false_iff [= <-]]. apply negb_false_iff in Hr. apply bool_decide_eq_true in Hr. apply bool_decide_eq_false in Hn.
  unfold collected_ok. simpl. rewrite fmap_app. simpl. split_and!.
  - apply NoDup_snoc; [done|]. intros Hk. by apply Hn, Hseen.
  - intros k. rewrite elem_of_union, elem_of_singleton, elem_of_app, list_elem_of_singleton, Hseen. tauto.
  - apply Forall_app_2; [done|]. by constructor.
Qed.

(** Keep the first occurrence of every unit across batches. *)
Definition keep_unit (st : list ChunkUnit * gset unit_id) (u : ChunkUnit) : list ChunkUnit * gset unit_id :=
  if bool_decide (unit_key u ∈ snd st) then st else (fst st ++ [u], {[unit_key u]} ∪ snd st).

Definition kept_ok (st : list ChunkUnit * gset unit_id) : Prop :=
  NoDup (unit_key <$> fst st) /\ forall k, k ∈ snd st <-> k ∈ unit_key <$> fst st.

Lemma keep_units us st :
  kept_ok st ->
  kept_ok (foldl keep_unit st us) /\
  (forall u, u ∈ fst (foldl keep_unit st us) -> u ∈ fst st \/ u ∈ us) /\
  (forall k, k ∈ unit_key <$> fst st \/ k ∈ unit_key <$> us ->
             k ∈ unit_key <$> fst (foldl keep_unit st us)).
Proof using Type.
  revert st. induction us as [|u us IH]; intros st Hst; simpl.
  { split_and!; [done|by left|]. intros k [?|Hk]; [done|by apply not_elem_of_nil in Hk]. }
  assert (Hk : kept_ok (keep_unit st u) /\ (forall v, v ∈ fst (keep_unit st u) -> v ∈ fst st \/ v = u) /\
    forall k, k ∈ unit_key <$> fst (keep_unit st u) <-> k ∈ unit_key <$> fst st \/ k = unit_key u).
  { destruct Hst as [Hnd Hs]. unfold keep_unit. destruct (bool_decide_reflect (unit_key u ∈ snd st)) as [Hin|Hn].
    - split_and!; [done|by left|]. intros k. split; [by left|]. intros [?| ->]; [done|by apply Hs].
    - unfold kept_ok. simpl. rewrite fmap_app. simpl. split_and!.
      + apply NoDup_snoc; [done|]. by rewrite <- Hs.
      + intros k. rewrite elem_of_union, elem_of_singleton, elem_of_app, list_elem_of_singleton, Hs. tauto.
      + intros v. rewrite elem_of_app, list_elem_of_singleton. tauto.
      + intros k. rewrite elem_of_app, list_elem_of_singleton. tauto. }
  destruct Hk as (Hok & Hfrom & Hkeys). destruct (IH _ Hok) as (H1' & H2' & H3'). split_and!; [done|..].
  - intros v Hv. apply H2' in Hv as [Hv|Hv]; [|right; by right].
    apply Hfrom in Hv as [?| ->]; [by left|right; by left].
  - intros k Hk. apply H3'. rewrite Hkeys. rewrite elem_of_cons in Hk. tauto.
Qed.

End Requested.

(** *** The endpoint *)
Section Chunks.
Context `{HexCrate} `{Treeframe} `{Sha256}.
Context (p : profile) (send : bytes -> Res Answer).
Context (overhead : Z) (item_len : ChunkRequest -> Z) (body : list ChunkRequest -> bytes).

(** [Mst2Client::chunks_batch]. *)
Definition chunks_batch (items : list ChunkRequest) : Res (list ChunkUnit) :=
  reject? bool_decide (items = []) || (MAX_CHUNK_BATCH <? zlen items) with batch_size_err in
  let? requested := requested_units items in
  let n := Z.of_nat (size requested) in
  let? budget := ResponseBudget_new n (Z.min (n * CHUNK_MAX_LEN) (chunk_byte_limit p)) 76 in
  let? raw := post_treeframe p send (body items) (wire_bytes budget) in
  let? frames := response_frames p raw "chunks stream" "CHUNK" KIND_CHUNK budget in
  let? ' (units, bytes) := check_end frames (body items) (zlen items mod 2 ^ 32) in
  let? st := for_each (collect_chunk requested) {| out := []; seen := ∅; received := 0 |} frames in
  reject? negb (Z.of_nat (size (seen st)) =? n) || negb (Z.of_nat (size (seen st)) mod 2 ^ 32 =? units)
          || negb (received st =? bytes)
    with digest_err "chunks response unit set or END counts do not match the request" in
  Ok (out st).

(** [Mst2Client::chunks]. *)
Definition chunks (items : list ChunkRequest) (encoding : option string) : Res (list ChunkUnit) :=
  let? _ := require_feature p "chunks" in
  let? _ := validate_encoding p encoding in
  let? _ := for_each (fun _ item => validate_path p (path item)) tt items in
  reject? bool_decide (items = []) || (MAX_CHUNK_BATCH <? zlen items) with batch_size_err in
  let? _ := requested_units items in
  let? batches := request_batches overhead (request_byte_limit p)
    (Z.min (request_item_limit p) (Z.max (chunk_byte_limit p / CHUNK_MAX_LEN) 1)) item_len items in
  let? st := for_each (fun st batch => let? us := chunks_batch batch in Ok (foldl keep_unit st us))
               ([], ∅) batches in
  Ok (fst st).

(** A batch returns each requested unit exactly once and nothing else. *)
Lemma chunks_batch_ok items us :
  chunks_batch items = Ok us ->
  NoDup (unit_key <$> us) /\
  (forall u, u ∈ us -> exists item, item ∈ items /\ names_unit item (unit_key u) (u_file_content_id u)) /\
  (forall item k f, item ∈ items -> names_unit item k f -> k ∈ unit_key <$> us).
Proof using Type.
  unfold chunks_batch. intros Hc. inv_ok. subst. destruct x3 as [u b]. inv_ok. subst.
  match goal with Hr : requested_units _ = Ok ?m |- _ => pose proof (requested_units_spec _ _ _ Hr) as Hreq; clear Hr; rename m into requested end.
  match goal with Hf : for_each _ _ _ = Ok ?s |- _ => apply collect_ok in Hf as (Hnd & Hseen & Hall); [rename s into st|] end.
  2:{ unfold collected_ok. simpl. split_and!; [constructor|set_solver|constructor]. }
  bools. split_all.
  assert (Hsub : seen st ⊆ dom requested).
  { intros k Hk%Hseen. apply list_elem_of_fmap in Hk as (u' & -> & Hu). rewrite Forall_forall in Hall.
    apply elem_of_dom. exists (u_file_content_id u'). apply Hall. by apply list_elem_of_In. }
  assert (Hdom : seen st = dom requested).
  { apply set_eq. intros k. split; [apply Hsub|]. intros Hk.
    assert (size (dom requested ∖ seen st) = 0)%nat as Hz.
    { rewrite size_difference by done. rewrite size_dom. lia. }
    destruct (decide (k ∈ seen st)); [done|]. apply size_empty_inv in Hz. set_solver. }
  split_and!; [done|..].
  - intros u' Hu. rewrite Forall_forall in Hall. apply list_elem_of_In in Hu.
    specialize (Hall u' Hu). apply Hreq in Hall as [Hx|Hx]; [by rewrite lookup_empty in Hx|done].
  - intros item k f Hi Hn. apply Hseen. rewrite Hdom. apply elem_of_dom. exists f. apply Hreq. eauto.
Qed.

Lemma chunks_loop_ok batches st st' :
  kept_ok st ->
  for_each (fun st batch => let? us := chunks_batch batch in Ok (foldl keep_unit st us)) st batches = Ok st' ->
  kept_ok st' /\
  (forall u, u ∈ fst st' -> u ∈ fst st \/ exists item, item ∈ concat batches /\
                                 names_unit item (unit_key u) (u_file_content_id u)) /\
  (forall k, k ∈ unit_key <$> fst st -> k ∈ unit_key <$> fst st') /\
  (forall item k f, item ∈ concat batches -> names_unit item k f -> k ∈ unit_key <$> fst st').
Proof using Type.
  revert st. induction batches as [|b batches IH]; intros st Hst Hf; simpl in Hf.
  { inv_ok. subst. split_and!; [done|by left|done|]. intros ? ? ? Hi. by apply not_elem_of_nil in Hi. }
  inv_ok. subst. match goal with H : chunks_batch b = Ok _ |- _ => apply chunks_batch_ok in H as (_ & Hu & Hi) end.
  destruct (keep_units x0 st Hst) as (Hk1 & Hk2 & Hk3).
  destruct (IH _ Hk1 Hf) as (H1' & H2' & H3' & H4'). simpl. split_and!; [done|..].
  - intros u [Hu'|(item & ? & ?)]%H2'; [|right; exists item; split; [apply elem_of_app; by right|done]].
    apply Hk2 in Hu' as [?|Hu']; [by left|]. right. destruct (Hu u Hu') as (item & ? & ?).
    exists item. split; [apply elem_of_app; by left|done].
  - intros k Hk. apply H3', Hk3. by left.
  - intros item k f [Hin|Hin]%elem_of_app Hn; [|by eapply H4'].
    apply H3', Hk3. right. by eapply Hi.
Qed.
End Chunks.

(** A chunk request returns exactly the units asked for. When it succeeds,
    however the items were split into requests, every returned unit was named
    by an item (same map, index and file content id), every item's unit is
    returned, and no unit is returned twice. *)
Lemma chunks_exact `{HexCrate} `{Treeframe} `{Sha256} p send overhead item_len body items encoding us :
  chunks p send overhead item_len body items encoding = Ok us ->
  NoDup (unit_key <$> us) /\
  (forall u, u ∈ us -> exists item, item ∈ items /\ names_unit item (unit_key u) (u_file_content_id u)) /\
  (forall item, item ∈ items -> exists u, u ∈ us /\ names_unit item (unit_key u) (u_file_content_id u)).
Proof.
  unfold chunks. intros Hc. inv_ok. subst.
  match goal with Hb : request_batches _ _ _ _ _ = Ok _ |- _ => apply request_batches_concat in Hb end.
  match goal with Hl : for_each _ ([], ∅) _ = Ok _ |- _ => apply chunks_loop_ok in Hl as ([Hnd _] & Hu & _ & Hi) end.
  2:{ split; [constructor|]. intros k. simpl. split; [by intros ?%not_elem_of_empty|by intros ?%not_elem_of_nil]. }
  match goal with Hb : concat _ = items |- _ => rewrite Hb in Hu, Hi end.
  match goal with Hr : requested_units items = Ok ?m |- _ => pose proof (requested_units_spec _ _ _ Hr) as Hreq end.
  assert (Hu' : forall u, u ∈ fst x4 -> exists item, item ∈ items /\ names_unit item (unit_key u) (u_file_content_id u)).
  { intros u [Hx|?]%Hu; [by apply not_elem_of_nil in Hx|done]. }
  split_and!; [done|done|]. intros item Hin.
  assert (Hn : exists k f, names_unit item k f).
  { by eapply requested_units_named. }
  destruct Hn as (k & f & Hn). specialize (Hi item k f Hin Hn). apply list_elem_of_fmap in Hi as (u & -> & Hmem).
  exists u. split; [done|]. destruct (Hu' u Hmem) as (item' & Hin' & Hn').
  assert (f = u_file_content_id u) as <-; [|done].
  assert (x2 !! unit_key u = Some f) as E1 by (apply Hreq; eauto).
  assert (x2 !! unit_key u = Some (u_file_content_id u)) as E2 by (apply Hreq; eauto). congruence.
Qed.
End Chunks.

(** ** Objects *)
Module Objects.

Definition MAX_OBJECT_BATCH : Z := 128.
Definition MAX_OBJECT_BATCH_BYTES : Z := 8 * 1024 * 1024.
Definition batch_size_err : SnapshotError := scope_err "objects batch must hold 1..128 items".
Definition raw_limit_err : SnapshotError := limit_err "objects response exceeds the unique raw byte limit".

(** [collect::<Result<HashSet<_>, _>>()] of the parsed digests. *)
Definition request_id `{HexCrate} (s : gset bytes) (item : string * string) : Res (gset bytes) :=
  let? d := parse_digest (snd item) in Ok ({[d]} ∪ s).
Definition requested_ids `{HexCrate} (items : list (string * string)) : Res (gset bytes) :=
  for_each request_id ∅ items.

(** One object of an OBJECT frame; the state is the map and its byte total. *)
Definition collect_object (p : profile) (requested : gset bytes)
    (st : gmap bytes bytes * Z) (o : bytes * bytes) : Res (gmap bytes bytes * Z) :=
  let '(out, total) := st in
  let '(cid, data) := o in
  reject? negb (bool_decide (cid ∈ requested)) || Directory.Dir.opt_is_some (out !! cid)
    with digest_err "objects response contains an unrequested or duplicate content_id" in
  let total := total + zlen data in
  reject? object_byte_limit p <? total with raw_limit_err in
  Ok (<[cid := data]> out, total).

Definition collect_frame (p : profile) (requested : gset bytes)
    (st : gmap bytes bytes * Z) (f : Frame) : Res (gmap bytes bytes * Z) :=
  match f with
  | FObject objects => for_each (collect_object p requested) st objects
  | FEnd _ => Ok st
  | _ => Err unreachable_frame
  end.

(** The bytes of a batch not already in [out], then [HashMap::extend]. *)
Definition extend_objects (st : gmap bytes bytes * Z) (objects : gmap bytes bytes)
    : Res (gmap bytes bytes * Z) :=
  let '(out, total) := st in
  let fresh := filter (fun kv => out !! kv.1 = None) objects in
  let total := total + sum_of zlen fresh in
  reject? MAX_OBJECT_BATCH_BYTES <? total with raw_limit_err in
  Ok (objects ∪ out, total).

Section Facts.
Context `{HexCrate} (p : profile).

Lemma requested_ids_spec items s0 s :
  for_each request_id s0 items = Ok s ->
  forall d, d ∈ s <-> d ∈ s0 \/ exists item, item ∈ items /\ parse_digest item.2 = Ok d.
Proof using Type.
  revert s0. induction items as [|item items IH]; intros s0 Hf d; simpl in Hf.
  { inv_ok. subst. split; [by left|]. intros [?|(i & Hi & _)]; [done|by apply not_elem_of_nil in Hi]. }
  inv_ok. rewrite (IH _ Hf d). clear IH Hf.
  match goal with Hr : request_id _ _ = Ok _ |- _ => unfold request_id in Hr; inv_ok; subst end.
  rewrite elem_of_union, elem_of_singleton. split.
  - intros [[->|?]|(i & ? & ?)]; [right; exists item|by left|right; exists i]; (split; [|done]); [by left|by right].
  - intros [?|(i & [->|?]%elem_of_cons & ?)]; [tauto|left; left; congruence|right; eauto].
Qed.

Lemma requested_ids_parse items s0 s item :
  for_each request_id s0 items = Ok s ->
  item ∈ items -> exists d, parse_digest item.2 = Ok d.
Proof using Type.
  revert s0. induction items as [|i items IH]; intros s0 Hf Hi; simpl in Hf; [by apply not_elem_of_nil in Hi|].
  inv_ok. apply elem_of_cons in Hi as [->|Hi]; [|eauto].
  match goal with Hr : request_id _ _ = Ok _ |- _ => unfold request_id in Hr; inv_ok; eauto end.
Qed.

Definition within (requested : gset bytes) (st : gmap bytes bytes * Z) : Prop :=
  dom st.1 ⊆ requested /\ st.2 = sum_of zlen st.1 /\ (st.1 <> ∅ -> st.2 <= object_byte_limit p).

Lemma collect_objects_within requested objects st st' :
  within requested st -> for_each (collect_object p requested) st objects = Ok st' -> within requested st'.
Proof using Type.
  intros Hst Hf. eapply (for_each_inv _ (within requested)); [|exact Hst|exact Hf].
  intros [o t] [cid data] s' (Hd & Ht & Hl) _ Hc. simpl in *. inv_ok. subst s'. bools. split_all.
  apply bool_decide_eq_true in H0. destruct (o !! cid) eqn:Ho; [done|].
  unfold within. simpl. rewrite dom_insert_L. split_and!.
  - intros k [->%elem_of_singleton|?]%elem_of_union; auto.
  - rewrite sum_of_insert by done. lia.
  - done.
Qed.

Lemma collect_frames_within requested frames st st' :
  within requested st -> for_each (collect_frame p requested) st frames = Ok st' -> within requested st'.
Proof using Type.
  intros Hst Hf. eapply (for_each_inv _ (within requested)); [|exact Hst|exact Hf].
  intros s f s' Hs _ Hc. destruct f; simpl in Hc; [done|by eapply collect_objects_within|done|by inv_ok; subst|done].
Qed.

End Facts.

Section Objects.
Context `{HexCrate} `{Treeframe} `{Sha256}.
Context (p : profile) (send : bytes -> Res Answer).
Context (overhead : Z) (item_len : string * string -> Z) (body : list (string * string) -> bytes).

(** [Mst2Client::objects_batch]. *)
Definition objects_batch (items : list (string * string)) : Res (gmap bytes bytes) :=
  reject? bool_decide (items = []) || (MAX_OBJECT_BATCH <? zlen items) with batch_size_err in
  let? requested := requested_ids items in
  let n := Z.of_nat (size requested) in
  let? budget := ResponseBudget_new n (Z.min (n * OBJECT_MAX_LEN) (object_byte_limit p)) (40 + 4) in
  let? raw := post_treeframe p send (body items) (wire_bytes budget) in
  let? frames := response_frames p raw "objects stream" "OBJECT" KIND_OBJECT budget in
  let? ' (units, bytes) := check_end frames (body items) (zlen items mod 2 ^ 32) in
  let? st := for_each (collect_frame p requested) (∅, 0) frames in
  reject? negb (Z.of_nat (size (fst st)) =? n) || negb (Z.of_nat (size (fst st)) mod 2 ^ 32 =? units)
          || negb (snd st =? bytes)
    with digest_err "objects response unit set or END counts do not match the request" in
  Ok (fst st).

(** [Mst2Client::objects]. *)
Definition objects (items : list (string * string)) (encoding : option string) : Res (gmap bytes bytes) :=
  let? _ := require_feature p "objects" in
  let? _ := validate_encoding p encoding in
  let? _ := for_each (fun _ item => validate_path p (fst item)) tt items in
  reject? bool_decide (items = []) || (MAX_OBJECT_BATCH <? zlen items) with batch_size_err in
  let? batches := request_batches overhead (request_byte_limit p)
    (Z.min (request_item_limit p) (Z.max (object_byte_limit p / OBJECT_MAX_LEN) 1)) item_len items in
  let? st := for_each (fun st batch => let? os := objects_batch batch in extend_objects st os)
               (∅, 0) batches in
  Ok (fst st).

Lemma objects_batch_ok items out :
  objects_batch items = Ok out ->
  (forall d, d ∈ dom out <-> exists item, item ∈ items /\ parse_digest item.2 = Ok d) /\
  (forall item, item ∈ items -> exists d, parse_digest item.2 = Ok d).
Proof using Type.
  unfold objects_batch. intros Hc. inv_ok. subst. destruct x3 as [u b]. inv_ok. subst.
  match goal with Hr : requested_ids _ = Ok ?m |- _ =>
    pose proof (requested_ids_spec _ _ _ Hr) as Hreq;
    pose proof (fun item => requested_ids_parse _ _ _ item Hr) as Hparse; clear Hr; rename m into requested end.
  match goal with Hf : for_each _ (∅, 0) _ = Ok ?s |- _ => apply collect_frames_within in Hf as (Hsub & _ & _); [rename s into st|] end.
  2:{ split_and!; simpl; [by rewrite dom_empty_L|by rewrite sum_of_empty|done]. }
  bools. split_all. split; [|done]. intros d.
  assert (Hdom : dom st.1 = requested).
  { apply set_eq. intros k. split; [apply Hsub|]. intros Hk.
    assert (size (requested ∖ dom st.1) = 0)%nat as Hz by (rewrite size_difference, size_dom by done; lia).
    destruct (decide (k ∈ dom st.1)); [done|]. apply size_empty_inv in Hz. set_solver. }
  rewrite Hdom, Hreq. split; [intros [Hx|?]; [by apply not_elem_of_empty in Hx|done]|by right].
Qed.

Lemma objects_loop_ok batches st st' :
  for_each (fun st batch => let? os := objects_batch batch in extend_objects st os) st batches = Ok st' ->
  (forall d, d ∈ dom st'.1 <-> d ∈ dom st.1 \/ exists item, item ∈ concat batches /\ parse_digest item.2 = Ok d) /\
  (forall item, item ∈ concat batches -> exists d, parse_digest item.2 = Ok d).
Proof using Type.
  revert st. induction batches as [|b batches IH]; intros [o t] Hf; simpl in Hf.
  { inv_ok. subst. split; [|by intros ? ?%not_elem_of_nil]. intros d. split; [by left|].
    intros [?|(i & Hi & _)]; [done|by apply not_elem_of_nil in Hi]. }
  inv_ok. subst. match goal with H : objects_batch b = Ok _ |- _ => apply objects_batch_ok in H as [Hd Hp] end.
  destruct (IH _ Hf) as [Hd' Hp']. simpl. split.
  - intros d. rewrite Hd'. simpl. rewrite dom_union_L, elem_of_union, Hd. setoid_rewrite elem_of_app. split.
    + intros [[(i & ? & ?)|?]|(i & ? & ?)]; [right; exists i; by auto|by left|right; exists i; by auto].
    + intros [?|(i & [?|?] & ?)]; [left; by right|left; left; by exists i|right; by exists i].
  - intros item [?|?]%elem_of_app; auto.
Qed.
End Objects.

(** An object request returns exactly the requested content ids. When it
    succeeds, a digest is in the result if and only if some item asked for it,
    every item's digest is canonical and answered, and no frame smuggled in an
    unrequested object. *)
Lemma objects_exact `{HexCrate} `{Treeframe} `{Sha256} p send overhead item_len body items encoding out :
  objects p send overhead item_len body items encoding = Ok out ->
  (forall d, is_Some (out !! d) <-> exists item, item ∈ items /\ parse_digest item.2 = Ok d) /\
  (forall item, item ∈ items -> exists d data, parse_digest item.2 = Ok d /\ out !! d = Some data).
Proof.
  unfold objects. intros Hc. inv_ok. subst.
  match goal with Hb : request_batches _ _ _ _ _ = Ok _ |- _ => apply request_batches_concat in Hb end.
  match goal with Hl : for_each _ (∅, 0) _ = Ok _ |- _ => apply objects_loop_ok in Hl as [Hd Hp] end.
  match goal with Hb : concat _ = items |- _ => rewrite Hb in Hd, Hp end. simpl in Hd.
  assert (Hex : forall d, is_Some (x3.1 !! d) <-> exists item, item ∈ items /\ parse_digest item.2 = Ok d).
  { intros d. rewrite <- elem_of_dom, Hd, dom_empty_L. split; [|by right].
    intros [Hx|?]; [by apply not_elem_of_empty in Hx|done]. }
  split; [done|]. intros item Hi. destruct (Hp item Hi) as [d Hpd].
  destruct (proj2 (Hex d)) as [data ?]; eauto.
Qed.
End Objects.
