(* ===== verification/Metadata.v ===== *)
(** * Metadata

    [Mst2Client::metadata_pages] with its batch routine and
    [check_metadata_members] ([src/snapshot/frames.rs]): the pages a request
    returns are exactly the terminals it asked for and the branch pages that
    witness their routes. [Page::decode] of the codec, projected to the
    children of a branch page, is the parameter [page_children]. *)

From S2P Require Import Prelude Types Text Profile Frames Units.
Import Digests Batches Response.
Local Open Scope string_scope.
Local Open Scope list_scope.
Local Open Scope Z_scope.

Module Metadata.

Record MetadataPageItem : Type := mkItem {
  directory_path : string;
  route : list Z;
  expected_digest : option string;
}.

Definition MAX_METADATA_BATCH : Z := 64.
Definition batch_size_err : SnapshotError := limit_err "metadata batch must hold 1..64 items".

(** The [Frame::Meta] arm: one page at a time. *)
Record collected : Type := mkCollected {
  out : list (bytes * bytes); seen : gset bytes; unique_units : Z; total_bytes : Z;
}.

Definition collect_page (st : collected) (page : bytes * bytes) : Res collected :=
  let '(page_id, data) := page in
  reject? bool_decide (page_id ∈ seen st) with digest_err "metadata/pages repeated a page across frames" in
  reject? u32_max <? unique_units st + 1 with limit_err "metadata page count overflow" in
  let? total := ok_or (checked_add (total_bytes st) (zlen data)) (limit_err "metadata page byte count overflow") in
  Ok {| out := out st ++ [(page_id, data)]; seen := {[page_id]} ∪ seen st;
        unique_units := unique_units st + 1; total_bytes := total |}.

Definition collect_frame (st : collected) (f : Frame) : Res collected :=
  match f with
  | FMeta pages => for_each collect_page st pages
  | FEnd _ => Ok st
  | _ => Err (digest_err "metadata/pages stream contains a non-META data frame")
  end.

(** ** Membership of the returned pages *)
(** [parents]: for a (label, child) edge, the pages that contain it. *)
Definition add_edge (id : bytes) (m : gmap (Z * bytes) (list bytes)) (e : Z * bytes)
    : gmap (Z * bytes) (list bytes) := <[e := default [] (m !! e) ++ [id]]> m.

(** The ancestors of a frontier under one label. *)
Definition ancestors_of (parents : gmap (Z * bytes) (list bytes)) (label : Z) (frontier : gset bytes)
    : gset bytes :=
  set_fold (fun child acc => acc ∪ list_to_set (default [] (parents !! (label, child)))) ∅ frontier.

Lemma add_children_spec (children : list (Z * bytes)) (id : bytes) m (e : Z * bytes) (x : bytes) :
  x ∈ default [] (foldl (add_edge id) m children !! e) <->
  x ∈ default [] (m !! e) \/ (x = id /\ e ∈ children).
Proof.
  revert m. induction children as [|c children IH]; intros m; simpl.
  { split; [by left|]. intros [?|[_ Hx]]; [done|by apply not_elem_of_nil in Hx]. }
  rewrite IH, elem_of_cons. unfold add_edge. destruct (decide (e = c)) as [->|Hne].
  - rewrite lookup_insert_eq. simpl. rewrite elem_of_app, list_elem_of_singleton. tauto.
  - rewrite lookup_insert_ne by done. tauto.
Qed.

Lemma ancestors_spec parents label frontier x :
  x ∈ ancestors_of parents label frontier <->
  exists child, child ∈ frontier /\ x ∈ default [] (parents !! (label, child)).
Proof.
  unfold ancestors_of.
  apply (set_fold_ind_L (fun acc (X : gset bytes) =>
    x ∈ acc <-> exists child, child ∈ X /\ x ∈ default [] (parents !! (label, child)))).
  - split; [by intros ?%not_elem_of_empty|by intros (c & ?%not_elem_of_empty & _)].
  - intros child X acc _ Hacc. rewrite elem_of_union, Hacc, elem_of_list_to_set. split.
    + intros [(c & ? & ?)|?]; [exists c|exists child]; (split; [apply elem_of_union|done]); [by right|left; by apply elem_of_singleton].
    + intros (c & [->%elem_of_singleton|?]%elem_of_union & ?); [by right|left; by exists c].
Qed.

Section Members.
Context `{HexCrate} (page_children : bytes -> result string (list (Z * bytes))).

Definition add_edges (m : gmap (Z * bytes) (list bytes)) (page : bytes * bytes)
    : Res (gmap (Z * bytes) (list bytes)) :=
  let? children := map_err (frame_err "metadata witness page") (page_children page.2) in
  Ok (foldl (add_edge page.1) m children).

Definition edges_of (pages : list (bytes * bytes)) : Res (gmap (Z * bytes) (list bytes)) :=
  for_each add_edges ∅ pages.

Definition missing_route : SnapshotError :=
  digest_err "metadata/pages response is missing a requested route witness".

(** One step up a route; the state is the expected set and the frontier. *)
Definition climb (parents : gmap (Z * bytes) (list bytes)) (st : gset bytes * gset bytes) (label : Z)
    : Res (gset bytes * gset bytes) :=
  let a := ancestors_of parents label (snd st) in
  reject? bool_decide (a = ∅) with missing_route in
  Ok (fst st ∪ a, a).

Definition expect_item (parents : gmap (Z * bytes) (list bytes)) (expected : gset bytes)
    (item : MetadataPageItem) : Res (gset bytes) :=
  let? terminal := parse_digest (default "" (expected_digest item)) in
  let? st := for_each (climb parents) (expected ∪ {[terminal]}, {[terminal]}) (rev (route item)) in
  Ok (fst st).

Definition terminal_present (page_ids : gset bytes) (u : unit) (item : MetadataPageItem) : Res unit :=
  match expected_digest item with
  | None => Ok tt
  | Some expected =>
      let? d := parse_digest expected in
      reject? negb (bool_decide (d ∈ page_ids))
        with digest_err "metadata/pages response is missing a requested terminal page" in
      Ok tt
  end.

Definition has_digest (item : MetadataPageItem) : bool :=
  match expected_digest item with Some _ => true | None => false end.

(** [check_metadata_members]. *)
Definition check_metadata_members (items : list MetadataPageItem) (pages : list (bytes * bytes)) : Res unit :=
  let page_ids : gset bytes := list_to_set pages.*1 in
  let? _ := for_each (terminal_present page_ids) tt items in
  if forallb has_digest items then
    let? parents := edges_of pages in
    let? expected := for_each (expect_item parents) ∅ items in
    reject? negb (bool_decide (expected = page_ids))
      with digest_err "metadata/pages response contains an unrequested page" in
    Ok tt
  else Ok tt.

(** *** Specification *)

(** [id] is a returned page with the edge [label -> child]. *)
Definition edge (pages : list (bytes * bytes)) (label : Z) (child id : bytes) : Prop :=
  exists data cs, (id, data) ∈ pages /\ page_children data = Ok cs /\ (label, child) ∈ cs.

(** [id] is reached from [terminal] by climbing the labels in order. *)
Inductive witness (pages : list (bytes * bytes)) (terminal : bytes) : list Z -> bytes -> Prop :=
  | witness_terminal : witness pages terminal [] terminal
  | witness_up labels label child id :
      witness pages terminal labels child -> edge pages label child id ->
      witness pages terminal (labels ++ [label]) id.

Lemma edges_spec pages m0 m :
  for_each add_edges m0 pages = Ok m -> forall label child x,
  x ∈ default [] (m !! (label, child)) <->
  x ∈ default [] (m0 !! (label, child)) \/ edge pages label child x.
Proof using Type.
  revert m0. induction pages as [|[id data] pages IH]; intros m0 Hf label child x; simpl in Hf.
  { inv_ok. subst. split; [by left|]. intros [?|(d & cs & Hx & _)]; [done|by apply not_elem_of_nil in Hx]. }
  inv_ok. rewrite (IH _ Hf). clear IH Hf.
  match goal with Ha : add_edges _ _ = Ok _ |- _ => unfold add_edges in Ha; simpl in Ha; inv_ok; subst end.
  match goal with Hc : page_children data = Ok ?cs0 |- _ => rename cs0 into cs; rename Hc into Hcs end.
  rewrite add_children_spec. unfold edge. split.
  - intros [[?|[-> ?]]|(d & cs' & ? & ? & ?)]; [by left|right|right].
    + exists data, cs. split_and!; [by left|done|done].
    + exists d, cs'. split_and!; [by right|done|done].
  - intros [?|(d & cs' & [[= -> ->]|?]%elem_of_cons & Hc' & ?)]; [left; by left| |right; by exists d, cs'].
    left. right. split; [done|]. congruence.
Qed.


Lemma witness_snoc pages t labels label x :
  witness pages t (labels ++ [label]) x <->
  exists child, witness pages t labels child /\ edge pages label child x.
Proof using Type.
  split; [|intros (child & ? & ?); by econstructor].
  intros Hw. inversion Hw as [E|ls l child id Hc He E].
  - by destruct labels.
  - apply app_inj_tail in E as [-> ->]. by exists child.
Qed.

Lemma climb_spec pages parents t labels :
  (forall label child x, x ∈ default [] (parents !! (label, child)) <-> edge pages label child x) ->
  forall gone expected frontier st,
  (forall x, x ∈ frontier <-> witness pages t gone x) -> frontier <> ∅ ->
  for_each (climb parents) (expected, frontier) labels = Ok st ->
  (forall x, x ∈ st.1 <-> x ∈ expected \/
     exists k, (1 <= k <= length labels)%nat /\ witness pages t (gone ++ take k labels) x) /\
  exists x, witness pages t (gone ++ labels) x.
Proof using Type.
  intros Hpar. induction labels as [|l labels IH]; intros gone expected frontier st Hfr Hne Hf; simpl in Hf.
  { inv_ok. subst. split.
    - intros x. split; [by left|]. intros [?|(k & ? & _)]; [done|simpl in *; lia].
    - apply set_choose_L in Hne as [x Hx]. exists x. rewrite app_nil_r. by apply Hfr. }
  apply rbind_ok in Hf as (st1 & Hc & Hf). unfold climb in Hc. apply reject_ok in Hc as [Hempty [= <-]].
  apply bool_decide_eq_false in Hempty. simpl in *. set (a := ancestors_of parents l frontier) in *.
  assert (Ha : forall x, x ∈ a <-> witness pages t (gone ++ [l]) x).
  { intros x. unfold a. rewrite ancestors_spec, witness_snoc.
    split; intros (c & ? & ?); exists c; (split; [by apply Hfr|by apply Hpar]). }
  destruct (IH _ _ _ _ Ha Hempty Hf) as [Hin Htop]. rewrite <- app_assoc in Htop. split; [|done].
  intros x. rewrite Hin, elem_of_union, Ha. split.
  - intros [[?|?]|(k & ? & Hw)]; [by left|right; exists 1%nat|right; exists (S k)].
    + split; [simpl; lia|done].
    + split; [simpl; lia|]. by rewrite <- app_assoc in Hw.
  - intros [?|(k & Hk & Hw)]; [left; by left|]. destruct k as [|[|k]]; [lia|left; by right|].
    right. exists (S k). split; [simpl in *; lia|]. by rewrite <- app_assoc.
Qed.

(** [id] witnesses some part of the item's route, its terminal included. *)
Definition on_route (pages : list (bytes * bytes)) (item : MetadataPageItem) (id : bytes) : Prop :=
  exists terminal k, parse_digest (default "" (expected_digest item)) = Ok terminal /\
    witness pages terminal (take k (rev (route item))) id.

Definition route_complete (pages : list (bytes * bytes)) (item : MetadataPageItem) : Prop :=
  exists terminal top, parse_digest (default "" (expected_digest item)) = Ok terminal /\
    witness pages terminal (rev (route item)) top.

Lemma expect_item_spec pages parents expected item expected' :
  (forall label child x, x ∈ default [] (parents !! (label, child)) <-> edge pages label child x) ->
  expect_item parents expected item = Ok expected' ->
  (forall x, x ∈ expected' <-> x ∈ expected \/ on_route pages item x) /\ route_complete pages item.
Proof using Type.
  intros Hpar He. unfold expect_item in He. inv_ok. subst.
  match goal with Ht : parse_digest _ = Ok ?x |- _ => rename x into t; rename Ht into Hpt end.
  match goal with Hc : for_each _ _ _ = Ok _ |- _ => apply (climb_spec pages parents t) with (gone := []) in Hc as [Hin Htop] end;
    [|done| |].
  2:{ intros x. rewrite elem_of_singleton. split; [intros ->; constructor|]. intros Hw.
      inversion Hw as [|ls ? ? ? ? ? E]; [done|]. by destruct ls. }
  2:{ intros E. assert (t ∈ ({[t]} : gset bytes)) as Hx by by apply elem_of_singleton. by rewrite E in Hx. }
  split; [|destruct Htop as [top ?]; by exists t, top].
  intros x. rewrite Hin, elem_of_union, elem_of_singleton. unfold on_route. split.
  - intros [[?| ->]|(k & ? & ?)]; [by left|right|right; by exists t, k].
    exists t, 0%nat. split; [done|]. constructor.
  - intros [?|(t' & k & E & Hw)]; [left; by left|]. rewrite Hpt in E. injection E as <-.
    destruct (decide (take k (rev (route item)) = [])) as [Hnil|Hne].
    + left. right. rewrite Hnil in Hw. inversion Hw as [|ls ? ? ? ? ? E]; [done|]. by destruct ls.
    + right. destruct (decide (k <= length (rev (route item)))%nat).
      * exists k. split; [|done]. destruct k; [done|lia].
      * rewrite take_ge in Hw, Hne by lia. exists (length (rev (route item))).
        split; [|by rewrite take_ge]. destruct (rev (route item)); [done|simpl; lia].
Qed.

Lemma expect_items_spec pages parents items expected expected' :
  (forall label child x, x ∈ default [] (parents !! (label, child)) <-> edge pages label child x) ->
  for_each (expect_item parents) expected items = Ok expected' ->
  (forall x, x ∈ expected' <-> x ∈ expected \/ exists item, item ∈ items /\ on_route pages item x) /\
  (forall item, item ∈ items -> route_complete pages item).
Proof using Type.
  intros Hpar. revert expected. induction items as [|item items IH]; intros expected Hf; simpl in Hf.
  { inv_ok. subst. split; [|by intros ? ?%not_elem_of_nil]. intros x. split; [by left|].
    intros [?|(i & Hi & _)]; [done|by apply not_elem_of_nil in Hi]. }
  apply rbind_ok in Hf as (e1 & He & Hf). apply (expect_item_spec pages) in He as [Hin Hroute]; [|done].
  destruct (IH _ Hf) as [Hin' Hroute']. split.
  - intros x. rewrite Hin', Hin. setoid_rewrite elem_of_cons. split.
    + intros [[?|?]|(i & ? & ?)]; [by left|right; exists item; by auto|right; exists i; by auto].
    + intros [?|(i & [->|?] & ?)]; [left; by left|left; by right|right; by exists i].
  - intros i [->|?]%elem_of_cons; auto.
Qed.

Lemma terminals_present page_ids items u u' :
  for_each (terminal_present page_ids) u items = Ok u' ->
  forall item e, item ∈ items -> expected_digest item = Some e ->
  exists d, parse_digest e = Ok d /\ d ∈ page_ids.
Proof using Type.
  revert u. induction items as [|i items IH]; intros u Hf item e Hi He; simpl in Hf; [by apply not_elem_of_nil in Hi|].
  apply rbind_ok in Hf as (u1 & Ht & Hf). apply elem_of_cons in Hi as [->|Hi]; [|by eapply IH].
  unfold terminal_present in Ht. rewrite He in Ht. inv_ok. bools.
  match goal with Hb : bool_decide _ = true |- _ => apply bool_decide_eq_true in Hb end. eauto.
Qed.

Lemma members_spec items pages :
  check_metadata_members items pages = Ok tt ->
  (forall item e, item ∈ items -> expected_digest item = Some e ->
     exists d, parse_digest e = Ok d /\ d ∈ pages.*1) /\
  (forallb has_digest items = true ->
     (forall id, id ∈ pages.*1 <-> exists item, item ∈ items /\ on_route pages item id) /\
     (forall item, item ∈ items -> route_complete pages item)).
Proof using Type.
  unfold check_metadata_members. intros Hc. apply rbind_ok in Hc as (u & Ht & Hc). split.
  - intros item e Hi He. destruct (terminals_present _ _ _ _ Ht item e Hi He) as (d & ? & Hd).
    exists d. split; [done|]. by apply elem_of_list_to_set in Hd.
  - intros Hall. rewrite Hall in Hc. apply rbind_ok in Hc as (parents & Hp & Hc).
    apply rbind_ok in Hc as (expected & He & Hc). apply reject_ok in Hc as [Hb _].
    apply negb_false_iff, bool_decide_eq_true in Hb.
    apply (expect_items_spec pages) in He as [Hin Hroute].
    2:{ intros label child x. rewrite (edges_spec pages ∅ parents Hp), lookup_empty. simpl.
        split; [intros [Hx|?]; [by apply not_elem_of_nil in Hx|done]|by right]. }
    split; [|done]. intros id. rewrite Hb in Hin.
    rewrite <- (elem_of_list_to_set (C := gset bytes)), Hin. split; [intros [Hx|?]; [by apply not_elem_of_empty in Hx|done]|by right].
Qed.
End Members.

(** ** The endpoint *)
Section Pages.
Context `{HexCrate} `{Treeframe} `{Sha256} (page_children : bytes -> result string (list (Z * bytes))).
Context (p : profile) (send : bytes -> Res Answer).
Context (overhead : Z) (item_len : MetadataPageItem -> Z) (body : list MetadataPageItem -> bytes).

(** The per-item checks that size the budget. *)
Definition count_units (n : Z) (item : MetadataPageItem) : Res Z :=
  reject? MAX_DEPTH <? zlen (route item) with limit_err "metadata radix depth exceeds 255" in
  let? _ := match expected_digest item with Some e => parse_digest e | None => Ok [] end in
  Ok (n + (zlen (route item) + 1)).

(** [Mst2Client::metadata_pages_batch]. *)
Definition metadata_pages_batch (items : list MetadataPageItem) : Res (list (bytes * bytes)) :=
  reject? bool_decide (items = []) || (MAX_METADATA_BATCH <? zlen items) with batch_size_err in
  let? max_units := for_each count_units 0 items in
  let? budget := ResponseBudget_new max_units (max_units * PAGE_MAX_BYTES) (36 + 4) in
  let? raw := post_treeframe p send (body items) (wire_bytes budget) in
  let? frames := response_frames p raw "metadata/pages stream" "META" KIND_META budget in
  let? ' (units, bytes) :=
    match list.last frames with
    | Some (FEnd e) =>
        let? _ := check_end frames (body items) (zlen items) in
        Ok (unique_unit_count e, logical_bytes e)
    | Some (FError c r) =>
        Err (SnapshotError_new Internal
               ("server rejected metadata/pages: " ++ c ++ " (request_id " ++ r ++ ")"))
    | _ => Err (digest_err "metadata/pages stream missing END frame")
    end in
  let? st := for_each collect_frame
               {| out := []; seen := ∅; unique_units := 0; total_bytes := 0 |} frames in
  reject? negb (unique_units st =? units) || negb (total_bytes st =? bytes)
    with digest_err "metadata/pages END page count or logical bytes do not match the stream" in
  let? _ := check_metadata_members page_children items (out st) in
  Ok (out st).

Definition keep_page (st : list (bytes * bytes) * gset bytes) (page : bytes * bytes)
    : list (bytes * bytes) * gset bytes :=
  if bool_decide (page.1 ∈ snd st) then st else (fst st ++ [page], {[page.1]} ∪ snd st).

(** [Mst2Client::metadata_pages]. *)
Definition metadata_pages (items : list MetadataPageItem) (encoding : option string)
    : Res (list (bytes * bytes)) :=
  let? _ := require_feature p "metadata/pages" in
  let? _ := validate_encoding p encoding in
  let? _ := for_each (fun _ item => validate_path p (directory_path item)) tt items in
  reject? bool_decide (items = []) || (MAX_METADATA_BATCH <? zlen items) with batch_size_err in
  let? batches := request_batches overhead (request_byte_limit p) (metadata_item_limit p) item_len items in
  let? st := for_each (fun st batch => let? pages := metadata_pages_batch batch in
                                       Ok (foldl keep_page st pages)) ([], ∅) batches in
  Ok (fst st).

Definition pages_unique (st : collected) : Prop :=
  NoDup (out st).*1 /\ (forall id, id ∈ seen st <-> id ∈ (out st).*1) /\
  unique_units st = zlen (out st) /\ total_bytes st = foldr (fun pg acc => zlen pg.2 + acc) 0 (out st).

Lemma collect_page_unique st page st' :
  pages_unique st -> collect_page st page = Ok st' -> pages_unique st'.
Proof using Type.
  clear page_children send item_len body.
  intros (Hnd & Hseen & Hu & Ht) Hc. destruct page as [id data]. simpl in Hc. inv_ok. subst st'.
  match goal with Hx : bool_decide _ = false |- _ => apply bool_decide_eq_false in Hx; rename Hx into Hn end.
  match goal with Hx : checked_add _ _ = Some _ |- _ => apply checked_add_some in Hx as [-> _] end.
  unfold pages_unique. simpl. rewrite fmap_app. simpl. split_and!.
  - apply NoDup_snoc; [done|]. by rewrite <- Hseen.
  - intros k. rewrite elem_of_union, elem_of_singleton, elem_of_app, list_elem_of_singleton, Hseen. tauto.
  - rewrite zlen_app, Hu. done.
  - rewrite Ht, foldr_app. simpl. clear. induction (out st) as [|pg l IH]; simpl; lia.
Qed.

Lemma collect_frames_unique frames st st' :
  pages_unique st -> for_each collect_frame st frames = Ok st' -> pages_unique st'.
Proof using Type.
  clear page_children send item_len body.
  intros Hst Hf. eapply (for_each_inv _ pages_unique); [|exact Hst|exact Hf].
  intros s f s' Hs _ Hc. destruct f; simpl in Hc; [|done|done|by inv_ok; subst|done].
  eapply (for_each_inv _ pages_unique); [|exact Hs|exact Hc]. intros. by eapply collect_page_unique.
Qed.

Lemma metadata_pages_batch_ok items pages :
  metadata_pages_batch items = Ok pages ->
  NoDup pages.*1 /\ check_metadata_members page_children items pages = Ok tt.
Proof using Type.
  unfold metadata_pages_batch. intros Hc. inv_ok. destruct x3 as [u b]. inv_ok. subst pages.
  match goal with Hf : for_each collect_frame _ _ = Ok _ |- _ => apply collect_frames_unique in Hf as (? & _) end.
  - split; [done|]. match goal with Hm : check_metadata_members _ _ _ = Ok ?v |- _ => by destruct v end.
  - unfold pages_unique. simpl. split_and!; [constructor|set_solver|done|done].
Qed.
End Pages.

(** C28: returned metadata pages are exactly the route witnesses. A batch the
    client accepts has no repeated page, contains every requested terminal
    page, and when every item names its terminal, a page is present if and
    only if it lies on some item's route, climbing branch edges from the
    terminal, and every route is witnessed all the way up. *)
Theorem metadata_pages_witnessed `{HexCrate} `{Treeframe} `{Sha256} page_children p send body items pages :
  metadata_pages_batch page_children p send body items = Ok pages ->
  NoDup pages.*1 /\
  (forall item e, item ∈ items -> expected_digest item = Some e ->
     exists d, parse_digest e = Ok d /\ d ∈ pages.*1) /\
  (forallb has_digest items = true ->
     (forall id, id ∈ pages.*1 <-> exists item, item ∈ items /\ on_route page_children pages item id) /\
     (forall item, item ∈ items -> route_complete page_children pages item)).
Proof. intros [Hnd Hm]%metadata_pages_batch_ok. split; [done|]. by apply members_spec. Qed.
End Metadata.
