(* ===== verification/CasScan.v ===== *)
(** * CasScan

    The integrity core of [src/snapshot/cas_index.rs]: the whole-file scan that
    both fills a requested range and derives per-chunk facts, and the warm read
    that checks only covering chunks against such facts. The file is whatever
    the operating system returns: a list of read events (bytes, an
    interruption, an error) with nothing assumed about them, so a file that
    changes between or during reads is included. SHA-256 contexts are the bytes
    fed to them. The diagnostic meters are not modelled. *)

From S2P Require Import Prelude Types Text.
Import Digests.
Local Open Scope string_scope.
Local Open Scope list_scope.
Local Open Scope Z_scope.

Module Cas.

Definition CHUNK_SIZE : Z := 1024 * 1024.
Definition SCAN_CAPACITY : Z := 64 * 1024.

Definition mismatch (m : string) : SnapshotError := SnapshotError_new DigestMismatch m.
Definition io_error (m : string) : SnapshotError := SnapshotError_new Internal m.
Definition allocation_error : SnapshotError :=
  SnapshotError_new LimitExceeded "local CAS range allocation failed".

(** One [Read::read] call: an interruption, an error, or bytes, cut to the
    buffer as the contract of [read] demands. *)
Inductive read_event : Type :=
  | Interrupted
  | ReadError (m : string)
  | ReadBytes (b : list Z).

(** [read_retry]: skip interruptions; the end of the events is end of file. *)
Fixpoint read_retry (ev : list read_event) (capacity : Z) : Res (list Z * list read_event) :=
  match ev with
  | [] => Ok ([], [])
  | Interrupted :: ev => read_retry ev capacity
  | ReadError m :: _ => Err (io_error m)
  | ReadBytes b :: ev => Ok (take (Z.to_nat capacity) b, ev)
  end.

(** [RangeSink]: bytes within one fixed capacity. *)
Record sink : Type := mkSink { capacity : Z; filled : list Z }.

Definition append (s : sink) (b : list Z) : Res sink :=
  reject? capacity s - zlen (filled s) <? zlen b
    with mismatch "local CAS range exceeds its fixed output capacity" in
  Ok {| capacity := capacity s; filled := filled s ++ b |}.

(** [copy_intersection]. *)
Definition copy_intersection (out : sink) (buffer : list Z) (start offset end_ : Z) : Res sink :=
  let from := Z.max start offset in
  let to := Z.min (start + zlen buffer) end_ in
  if from <? to then append out (slice buffer (from - start) (to - start)) else Ok out.

Section Scan.
Context `{Sha256}.

(** The chunk hashes under construction: finished digests and the open chunk. *)
Record chunker : Type := mkChunker { digests : list (list Z); pending : list Z }.

(** The inner [while consumed < count] loop. *)
Fixpoint chunk_update (fuel : nat) (c : chunker) (data : list Z) : chunker :=
  match fuel with
  | O => c
  | S fuel =>
      if bool_decide (data = []) then c else
      let n := Z.min (CHUNK_SIZE - zlen (pending c)) (zlen data) in
      let p := pending c ++ take (Z.to_nat n) data in
      let c := if zlen p =? CHUNK_SIZE
               then {| digests := digests c ++ [sha256 p]; pending := [] |}
               else {| digests := digests c; pending := p |} in
      chunk_update fuel c (drop (Z.to_nat n) data)
  end.

(** The state of [scan_body]: the bytes hashed so far ([read] is their number),
    the output, and the chunk hashes when facts are being built. *)
Record scan_state : Type := mkScan { whole : list Z; out : sink; facts : option chunker }.

Definition scan_step (size offset end_ : Z) (st : scan_state) (data : list Z) : Res scan_state :=
  let read := zlen (whole st) in
  let next := read + zlen data in
  reject? size <? next with mismatch "local CAS object grew past its fixed size" in
  let updated := (fun c => chunk_update (length data) c data) <$> facts st in
  let? copied := copy_intersection (out st) data read offset end_ in
  Ok {| whole := whole st ++ data; out := copied; facts := updated |}.

(** The read loop, over the events of the bounded reader [take(size + 1)];
    [fuel] covers the events, each consumed at most once. *)
Fixpoint scan_loop (fuel : nat) (capacity size offset end_ : Z) (st : scan_state) (ev : list read_event)
    : option (Res scan_state) :=
  match fuel with
  | O => None
  | S fuel =>
      let limit := Z.min capacity (saturating_add size 1 - zlen (whole st)) in
      match read_retry ev limit with
      | Err e => Some (Err e)
      | Ok (data, ev) =>
          if bool_decide (data = []) then Some (Ok st) else
          match scan_step size offset end_ st data with
          | Err e => Some (Err e)
          | Ok st => scan_loop fuel capacity size offset end_ st ev
          end
      end
  end.

Definition finish_chunks (c : chunker) : list (list Z) :=
  if zlen (pending c) =? 0 then digests c else digests c ++ [sha256 (pending c)].

Context `{HexCrate}.

Definition whole_mismatch : SnapshotError :=
  mismatch "local CAS object does not match the fixed whole-file identity".

(** [scan_body]: the filled sink and, when requested, the chunk digests. *)
Definition scan_body (ev : list read_event) (digest : string) (size offset end_ : Z)
    (out0 : sink) (scratch : Z) (build : bool) : Res (sink * option (list (list Z))) :=
  let capacity := Z.min scratch SCAN_CAPACITY in
  reject? capacity =? 0 with allocation_error in
  let fresh := if build then Some {| digests := []; pending := [] |} else None in
  let? st := default (Err allocation_error)
    (scan_loop (S (length ev)) capacity size offset end_
       {| whole := []; out := out0; facts := fresh |} ev) in
  reject? negb (zlen (whole st) =? size)
          || negb (zlen (filled (out st)) =? saturating_sub end_ offset)
          || negb (String.eqb ("sha256:" ++ hex_encode (sha256 (whole st))) digest)
    with whole_mismatch in
  Ok (out st, finish_chunks <$> facts st).

(** [scan]: the body, then the metadata of the same open file. *)
Definition scan (ev : list read_event) (metadata_ok : Res unit) (digest : string)
    (size offset end_ : Z) (out0 : sink) (scratch : Z) (build : bool)
    : Res (sink * option (list (list Z))) :=
  let? r := scan_body ev digest size offset end_ out0 scratch build in
  let? _ := metadata_ok in
  Ok r.

(** ** Warm reads *)

Record Index : Type := mkIndex {
  domain : string;
  i_digest : list Z;
  i_size : Z;
  format : Z;
  chunks : list (list Z);
  charge : Z;
}.

(** Fill one chunk buffer; [fuel] covers the missing bytes. *)
Fixpoint fill (fuel : nat) (want : Z) (got : list Z) (ev : list read_event)
    : option (Res (list Z * list read_event)) :=
  match fuel with
  | O => None
  | S fuel =>
      if want <=? zlen got then Some (Ok (got, ev)) else
      match read_retry ev (want - zlen got) with
      | Err e => Some (Err e)
      | Ok (data, ev) =>
          if bool_decide (data = []) then Some (Err (mismatch "local CAS covering chunk is truncated"))
          else fill fuel want (got ++ data) ev
      end
  end.

(** One iteration of the chunk loop; [seek] gives the read events that follow
    seeking to a position. An index outside the facts panics in the code. *)
Definition read_chunk (fact : Index) (seek : Z -> Res (list read_event)) (scratch offset end_ : Z)
    (out : sink) (index : Z) : Res sink :=
  let start := index * CHUNK_SIZE in
  let chunk_len := Z.min (i_size fact - start) CHUNK_SIZE in
  reject? scratch <? chunk_len with allocation_error in
  let? ev := seek start in
  let? ' (buffer, _) := default (Err allocation_error) (fill (S (Z.to_nat chunk_len)) chunk_len [] ev) in
  let? expected := ok_or (chunks fact !! Z.to_nat index) (mismatch "index out of bounds") in
  reject? negb (bool_decide (sha256 buffer = expected))
    with mismatch "local CAS covering chunk does not match its verified digest" in
  copy_intersection out buffer start offset end_.

(** The indices [from ..= to]. *)
Definition index_range (from to : Z) : list Z :=
  (fun i => from + Z.of_nat i) <$> seq 0 (Z.to_nat (to + 1 - from)).

(** [read_chunks]. *)
Definition read_chunks (fact : Index) (seek : Z -> Res (list read_event)) (metadata_ok : Res unit)
    (scratch offset end_ : Z) (out : sink) : Res sink :=
  let? out := (if offset <? end_ then
                 for_each (read_chunk fact seek scratch offset end_) out
                   (index_range (offset / CHUNK_SIZE) ((end_ - 1) / CHUNK_SIZE))
               else Ok out) in
  reject? negb (zlen (filled out) =? saturating_sub end_ offset)
    with mismatch "local CAS range differs from its fixed output length" in
  let? _ := metadata_ok in
  Ok out.
End Scan.

(** ** Reads *)

Lemma read_retry_shorter ev cap d ev' :
  read_retry ev cap = Ok (d, ev') -> d <> [] -> (length ev' < length ev)%nat.
Proof.
  induction ev as [|[|m|b] ev IH]; simpl; intros Hr Hd; simplify_eq;
    [specialize (IH Hr Hd)|]; lia.
Qed.

Lemma read_retry_len ev cap d ev' : read_retry ev cap = Ok (d, ev') -> 0 <= cap -> zlen d <= cap.
Proof.
  induction ev as [|[|m|b] ev IH]; simpl; intros Hr Hc; simplify_eq.
  - by unfold zlen.
  - auto.
  - unfold zlen. rewrite length_take. lia.
Qed.

(** The byte strings that reading a file may deliver, whatever the sizes of the
    buffers. *)
Fixpoint deliveries (ev : list read_event) : list (list Z) :=
  match ev with
  | [] | ReadError _ :: _ => [[]]
  | Interrupted :: ev => deliveries ev
  | ReadBytes b :: ev => [] :: (k ← seq 1 (length b); app (take k b) <$> deliveries ev)
  end.

Lemma deliveries_nil ev : [] ∈ deliveries ev.
Proof. induction ev as [|[|m|b] ev IH]; simpl; [left|done|left|left]. Qed.

Lemma deliveries_more ev cap data ev' b :
  read_retry ev cap = Ok (data, ev') -> data <> [] -> b ∈ deliveries ev' -> data ++ b ∈ deliveries ev.
Proof.
  induction ev as [|[|m|x] ev IH]; simpl; intros Hr Hd Hb; simplify_eq; [auto|]. right.
  set (k := Z.to_nat cap) in *. apply list_elem_of_bind. exists (Nat.min k (length x)). split.
  - destruct (decide (k <= length x)%nat).
    + rewrite Nat.min_l by done. by apply list_elem_of_fmap_2.
    + rewrite Nat.min_r, !take_ge by lia. by apply list_elem_of_fmap_2.
  - apply elem_of_seq. destruct k; [done|]. destruct x; [done|]. simpl. lia.
Qed.

(** Extending the prefix of the file extends the copied part of the range. *)
Lemma copy_prefix out w d offset end_ out' :
  0 <= offset <= end_ ->
  filled out = slice w offset (Z.min end_ (zlen w)) ->
  copy_intersection out d (zlen w) offset end_ = Ok out' ->
  filled out' = slice (w ++ d) offset (Z.min end_ (zlen (w ++ d))) /\ capacity out' = capacity out.
Proof.
  intros Ho Hf Hc. unfold copy_intersection in Hc. rewrite zlen_app.
  pose proof (zlen_nonneg w). pose proof (zlen_nonneg d).
  destruct (Z.ltb_spec (Z.max (zlen w) offset) (Z.min (zlen w + zlen d) end_)).
  - unfold append in Hc. inv_ok. subst out'. simpl. split; [|done]. rewrite Hf, slice_app_eq by lia.
    f_equal; [|f_equal; lia].
    rewrite (slice_clip w offset (Z.min end_ (zlen w + zlen d))). f_equal. lia.
  - inv_ok. subst out'. split; [|done]. rewrite Hf, slice_app_eq by lia.
    rewrite (slice_nil d) by lia. rewrite app_nil_r.
    rewrite (slice_clip w offset (Z.min end_ (zlen w + zlen d))). f_equal. lia.
Qed.

(** ** The whole-file scan *)
Section ScanFacts.
Context `{Sha256}.

(** The bytes read so far as full blocks and an open rest. *)
Definition chunker_ok (w : list Z) (c : chunker) : Prop :=
  exists blocks, w = concat blocks ++ pending c /\
    Forall (fun b => zlen b = CHUNK_SIZE) blocks /\ digests c = sha256 <$> blocks /\
    zlen (pending c) < CHUNK_SIZE.

Lemma chunk_update_ok fuel w c data :
  (length data <= fuel)%nat -> chunker_ok w c -> chunker_ok (w ++ data) (chunk_update fuel c data).
Proof using Type.
  revert w c data. induction fuel as [|fuel IH]; intros w c data Hl Hc; simpl.
  { destruct data; [|simpl in Hl; lia]. by rewrite app_nil_r. }
  destruct (bool_decide_reflect (data = [])) as [->|Hne]; [by rewrite app_nil_r|].
  destruct Hc as (blocks & -> & Hb & Hd & Hp).
  set (n := Z.min (CHUNK_SIZE - zlen (pending c)) (zlen data)).
  assert (Hn : 1 <= n <= zlen data).
  { unfold n, zlen. destruct data; [done|]. simpl. unfold zlen in *. lia. }
  rewrite <- (take_drop (Z.to_nat n) data) at 1. rewrite app_assoc.
  apply IH; [rewrite length_drop; unfold zlen in *; lia|].
  assert (Hz : zlen (pending c ++ take (Z.to_nat n) data) = zlen (pending c) + n).
  { rewrite zlen_app. unfold zlen in *. rewrite length_take. lia. }
  destruct (Z.eqb_spec (zlen (pending c ++ take (Z.to_nat n) data)) CHUNK_SIZE) as [E|E].
  - exists (blocks ++ [pending c ++ take (Z.to_nat n) data]). simpl. split_and!.
    + rewrite concat_app. simpl. by rewrite !app_nil_r, app_assoc.
    + apply Forall_app_2; [done|]. by constructor.
    + by rewrite fmap_app, Hd.
    + done.
  - exists blocks. simpl. split_and!; [by rewrite app_assoc|done|done|]. lia.
Qed.

Definition scan_ok (build : bool) (size offset end_ : Z) (st : scan_state) : Prop :=
  zlen (whole st) <= size /\
  filled (out st) = slice (whole st) offset (Z.min end_ (zlen (whole st))) /\
  match facts st with Some c => build = true /\ chunker_ok (whole st) c | None => build = false end.

Lemma scan_step_ok build size offset end_ st data st' :
  0 <= offset <= end_ -> scan_ok build size offset end_ st ->
  scan_step size offset end_ st data = Ok st' -> scan_ok build size offset end_ st'.
Proof using Type.
  intros Ho (Hw & Hf & Hc) Hs. unfold scan_step in Hs. inv_ok. subst st'. bools.
  match goal with Hx : copy_intersection _ _ _ _ _ = Ok _ |- _ => apply copy_prefix in Hx as [Hx _]; [|done|done] end.
  split_and!; simpl; [rewrite zlen_app; lia|done|].
  destruct (facts st) as [c|]; simpl; [|done]. destruct Hc as [-> Hc]. split; [done|].
  by apply chunk_update_ok.
Qed.

Lemma scan_loop_ok build fuel cap size offset end_ st ev st' :
  0 <= offset <= end_ -> scan_ok build size offset end_ st ->
  scan_loop fuel cap size offset end_ st ev = Some (Ok st') -> scan_ok build size offset end_ st'.
Proof using Type.
  intros Ho. revert st ev. induction fuel as [|fuel IH]; intros st ev Hst Hl; simpl in Hl; [done|].
  destruct (read_retry ev _) as [[data ev']|]; [|done].
  destruct (bool_decide (data = [])); [by simplify_eq|].
  destruct (scan_step size offset end_ st data) eqn:Hs; [|done].
  eapply IH; [|exact Hl]. by eapply scan_step_ok.
Qed.

Lemma scan_loop_reads fuel cap size offset end_ st ev st' :
  scan_loop fuel cap size offset end_ st ev = Some (Ok st') -> exists b, b ∈ deliveries ev /\ whole st' = whole st ++ b.
Proof using Type.
  revert st ev. induction fuel as [|fuel IH]; intros st ev Hl; simpl in Hl; [done|].
  destruct (read_retry ev _) as [[data ev']|] eqn:Hr; [|done].
  case_bool_decide; [simplify_eq; exists []; split; [apply deliveries_nil|by rewrite app_nil_r]|].
  destruct (scan_step size offset end_ st data) as [st1|] eqn:Hs; [|done]. apply IH in Hl as (b & Hb & ->).
  exists (data ++ b). split; [by eapply deliveries_more|]. unfold scan_step in Hs. inv_ok. subst st1. simpl. by rewrite app_assoc.
Qed.

(** The loop ends: every iteration consumes an event. *)
Lemma scan_loop_total fuel cap size offset end_ st ev :
  (length ev < fuel)%nat -> is_Some (scan_loop fuel cap size offset end_ st ev).
Proof using Type.
  revert st ev. induction fuel as [|fuel IH]; intros st ev Hf; [lia|]. simpl.
  destruct (read_retry ev _) as [[data ev']|] eqn:Hr; [|eauto].
  destruct (bool_decide_reflect (data = [])) as [|Hne]; [eauto|].
  destruct (scan_step size offset end_ st data); [|eauto].
  apply IH. apply read_retry_shorter in Hr; [lia|done].
Qed.

(** *** Chunk facts *)

(** The digests of the 1-MiB chunks of [body]. *)
Definition facts_of (body : list Z) (ds : list (list Z)) : Prop :=
  zlen ds = div_ceil (zlen body) CHUNK_SIZE /\
  forall i d, ds !! i = Some d ->
    d = sha256 (slice body (Z.of_nat i * CHUNK_SIZE) ((Z.of_nat i + 1) * CHUNK_SIZE)).

Lemma zlen_concat (blocks : list (list Z)) :
  Forall (fun b => zlen b = CHUNK_SIZE) blocks -> zlen (concat blocks) = zlen blocks * CHUNK_SIZE.
Proof using Type.
  induction 1 as [|b blocks Hb _ IH]; [done|]. simpl. rewrite zlen_app, Hb, IH.
  unfold zlen. simpl. lia.
Qed.

Lemma slice_block (blocks : list (list Z)) tail i b :
  Forall (fun b => zlen b = CHUNK_SIZE) blocks -> blocks !! i = Some b ->
  slice (concat blocks ++ tail) (Z.of_nat i * CHUNK_SIZE) ((Z.of_nat i + 1) * CHUNK_SIZE) = b.
Proof using Type.
  assert (HC : 0 < CHUNK_SIZE) by done.
  intros Hb. revert i. induction Hb as [|b0 blocks Hb0 Hb IH]; intros [|i] Hi; simpl in Hi; try done.
  - simplify_eq. simpl. rewrite <- app_assoc, slice_app_eq by lia.
    rewrite (slice_nil (concat blocks ++ tail)) by lia. rewrite app_nil_r.
    rewrite <- Hb0. rewrite <- (slice_all b) at 4. f_equal; lia.
  - simpl. rewrite <- app_assoc, slice_app_eq by lia. rewrite Hb0.
    rewrite (slice_clip b0), slice_nil by (rewrite Hb0; lia). simpl.
    rewrite <- (IH i Hi). f_equal; lia.
Qed.

Lemma finish_chunks_ok w c : chunker_ok w c -> facts_of w (finish_chunks c).
Proof using Type.
  intros (blocks & -> & Hb & Hd & Hp). pose proof (zlen_concat blocks Hb) as Hz.
  pose proof (zlen_nonneg (pending c)).
  assert (Hlen : zlen (digests c) = zlen blocks) by (rewrite Hd; unfold zlen; by rewrite length_fmap).
  unfold facts_of, finish_chunks. rewrite zlen_app, Hz.
  assert (Hblk : forall i d, digests c !! i = Some d -> d = sha256 (slice (concat blocks ++ pending c)
            (Z.of_nat i * CHUNK_SIZE) ((Z.of_nat i + 1) * CHUNK_SIZE))).
  { intros i d Hi. rewrite Hd in Hi. apply list_lookup_fmap_Some_1 in Hi as (b & -> & Hi').
    by erewrite slice_block. }
  destruct (Z.eqb_spec (zlen (pending c)) 0) as [E|E].
  - split; [|done]. rewrite Hlen, E. unfold div_ceil. change CHUNK_SIZE with 1048576. dlia.
  - split.
    + rewrite zlen_app, Hlen. change (zlen [sha256 (pending c)]) with 1.
      unfold div_ceil. change CHUNK_SIZE with 1048576 in *. dlia.
    + intros i d [Hi|[Hge Hi]]%lookup_app_Some; [by apply Hblk|].
      destruct (i - length (digests c))%nat eqn:Ei; [|by destruct n]. simpl in Hi. simplify_eq.
      assert (Z.of_nat i = zlen blocks) as -> by (unfold zlen in *; lia).
      f_equal. pose proof (zlen_nonneg blocks).
      rewrite slice_app_eq by (unfold CHUNK_SIZE; lia). rewrite Hz, Z.max_id, Z.sub_diag.
      rewrite (slice_clip (concat blocks)), slice_nil by (rewrite Hz; lia). simpl.
      rewrite slice_clip, Z.min_r by lia. by rewrite slice_all.
Qed.

Context `{HexCrate}.

Lemma scan_body_ok ev digest size offset end_ out0 scratch build out1 ds :
  0 <= offset <= end_ -> 0 <= size -> filled out0 = [] ->
  scan_body ev digest size offset end_ out0 scratch build = Ok (out1, ds) ->
  exists body, zlen body = size /\ digest = digest_string (sha256 body) /\ body ∈ deliveries ev /\
    filled out1 = slice body offset end_ /\
    match ds with Some l => build = true /\ facts_of body l | None => build = false end.
Proof using Type.
  intros Ho Hs0 Hout Hs. unfold scan_body in Hs. inv_ok. simplify_eq. bools. split_all.
  match goal with Hx : default _ (scan_loop ?f ?c ?sz ?o ?e ?s ?v) = Ok ?r |- _ =>
    destruct (scan_loop f c sz o e s v) as [[st'|]|] eqn:Hl; simpl in Hx; try done; injection Hx as -> end.
  pose proof Hl as Hreads. apply scan_loop_reads in Hreads as (b & Hreads & Eb).
  apply (scan_loop_ok build) in Hl as (Hw & Hf & Hc); [|done|].
  2:{ split_and!; simpl; [unfold zlen; simpl; lia| |].
      - rewrite Hout. unfold slice. by rewrite drop_nil, take_nil.
      - destruct build; [|done]. split; [done|]. exists []. split_and!; done. }
  exists (whole x). split_and!; [done| |by rewrite Eb| |].
  - match goal with Hx : String.append _ _ = digest |- _ => rewrite <- Hx end.
    unfold digest_string. by rewrite hex_encode_lower.
  - rewrite Hf. symmetry. rewrite slice_clip. done.
  - destruct (facts x) as [c|]; simpl; [|done]. destruct Hc as [-> Hc]. split; [done|].
    by apply finish_chunks_ok.
Qed.
End ScanFacts.

(** ** Warm reads *)

Lemma fill_len fuel want got ev b ev' :
  zlen got <= want -> fill fuel want got ev = Some (Ok (b, ev')) -> zlen b = want.
Proof.
  revert got ev. induction fuel as [|fuel IH]; intros got ev Hg Hf; simpl in Hf; [done|].
  destruct (Z.leb_spec want (zlen got)); [simplify_eq; lia|].
  destruct (read_retry ev _) as [[data ev1]|] eqn:Hr; [|done].
  destruct (bool_decide (data = [])); [done|].
  apply read_retry_len in Hr; [|lia]. eapply IH; [|exact Hf]. rewrite zlen_app. lia.
Qed.

Lemma fill_reads fuel want got ev b ev' :
  fill fuel want got ev = Some (Ok (b, ev')) -> exists b', b' ∈ deliveries ev /\ b = got ++ b'.
Proof.
  revert got ev. induction fuel as [|fuel IH]; intros got ev Hf; simpl in Hf; [done|].
  destruct (want <=? zlen got); [simplify_eq; exists []; split; [apply deliveries_nil|by rewrite app_nil_r]|].
  destruct (read_retry ev _) as [[data ev1]|] eqn:Hr; [|done]. case_bool_decide; [done|].
  apply IH in Hf as (b' & Hb & ->). exists (data ++ b'). split; [by eapply deliveries_more|by rewrite app_assoc].
Qed.

Lemma fill_total fuel want got ev :
  Z.max 0 (want - zlen got) < Z.of_nat fuel -> is_Some (fill fuel want got ev).
Proof.
  revert got ev. induction fuel as [|fuel IH]; intros got ev Hf; simpl; [lia|].
  destruct (Z.leb_spec want (zlen got)); [eauto|].
  destruct (read_retry ev _) as [[data ev1]|]; [|eauto].
  destruct (bool_decide_reflect (data = [])) as [|Hne]; [eauto|].
  apply IH. rewrite zlen_app. destruct data; [done|]. unfold zlen at 2. simpl. lia.
Qed.

Lemma for_each_range {St} (f : St -> Z -> Res St) (P : Z -> St -> Prop) from to s s' :
  from <= to + 1 ->
  (forall i s s', from <= i <= to -> P i s -> f s i = Ok s' -> P (i + 1) s') ->
  P from s -> for_each f s (index_range from to) = Ok s' -> P (to + 1) s'.
Proof.
  intros Hle Hstep HP. unfold index_range.
  remember (Z.to_nat (to + 1 - from)) as n eqn:Hn.
  assert (Hgen : forall n k s, from + Z.of_nat k + Z.of_nat n = to + 1 -> P (from + Z.of_nat k) s ->
    for_each f s ((fun i => from + Z.of_nat i) <$> seq k n) = Ok s' -> P (to + 1) s').
  { clear n Hn s HP. induction n as [|n IH]; intros k s Hk Hs Hf; simpl in Hf.
    - inv_ok. subst. replace (to + 1) with (from + Z.of_nat k) by lia. done.
    - inv_ok. eapply (IH (S k)); [lia| |exact Hf].
      replace (from + Z.of_nat (S k)) with (from + Z.of_nat k + 1) by lia.
      eapply Hstep; [|exact Hs|done]. lia. }
  intros Hf. eapply (Hgen n 0%nat s); [lia| |exact Hf]. by rewrite Z.add_0_r.
Qed.

Section Warm.
Context `{Sha256} `{HK : !KnownBytes}.

(** A fact that describes [body]: what a successful scan publishes. *)
Definition verified (body : list Z) (fact : Index) : Prop :=
  zlen body = i_size fact /\ i_digest fact = sha256 body /\ facts_of body (chunks fact).

(** A file that occurs, with its chunks. *)
Definition file_occurs (body : list Z) : Prop :=
  occurs body /\ forall i, 0 <= i -> occurs (slice body (i * CHUNK_SIZE) ((i + 1) * CHUNK_SIZE)).
(** What reading after a seek delivers occurs. *)
Definition seek_occurs (seek : Z -> Res (list read_event)) : Prop :=
  forall pos ev, seek pos = Ok ev -> Forall occurs (deliveries ev).

Definition prefix (body : list Z) (i : Z) : list Z := slice body 0 (i * CHUNK_SIZE).

(** The part of the range copied from the chunks before index [i]. *)
Definition copied (body : list Z) (offset end_ i : Z) (out : sink) : Prop :=
  filled out = slice (prefix body i) offset (Z.min end_ (zlen (prefix body i))).

Lemma zlen_prefix body i : 0 <= i -> zlen (prefix body i) = Z.min (i * CHUNK_SIZE) (zlen body).
Proof using Type.
  intros. unfold prefix. rewrite slice_clip. pose proof (zlen_nonneg body).
  rewrite zlen_slice; unfold CHUNK_SIZE; lia.
Qed.

Lemma read_chunk_ok body fact seek scratch offset end_ i out out' :
  verified body fact -> file_occurs body -> seek_occurs seek -> 0 <= offset <= end_ -> 0 <= i -> i * CHUNK_SIZE <= zlen body ->
  copied body offset end_ i out ->
  read_chunk fact seek scratch offset end_ out i = Ok out' -> copied body offset end_ (i + 1) out'.
Proof using Type.
  intros (Hsize & _ & _ & Hfacts) [_ Hoc] Hseek Ho Hi Hle Hc Hr. unfold read_chunk in Hr.
  apply reject_ok in Hr as [_ Hr]. apply rbind_ok in Hr as (ev & Hev & Hr).
  apply rbind_ok in Hr as ([buf ev'] & Hfill & Hr). apply rbind_ok in Hr as (d & Hd & Hr).
  apply reject_ok in Hr as [Hsha Hr]. apply ok_or_ok in Hd.
  apply negb_false_iff, bool_decide_eq_true in Hsha.
  destruct (fill _ _ _ _) as [[[b1 e1]|]|] eqn:Hf in Hfill; simpl in Hfill; try done. simplify_eq.
  rewrite <- Hsize in Hf. apply Hfacts in Hd. rewrite Z2Nat.id in Hd by done.
  apply fill_reads in Hf as (b' & Hread & Eb). simpl in Eb. subst b'.
  assert (buf = slice body (i * CHUNK_SIZE) ((i + 1) * CHUNK_SIZE)) as ->
    by (apply occurs_inj; [by eapply (proj1 (list.Forall_forall _ _) (Hseek _ _ Hev))|by apply Hoc|congruence]).
  assert (HC : 0 < CHUNK_SIZE) by done.
  assert (Hz : i * CHUNK_SIZE = zlen (prefix body i)) by (rewrite zlen_prefix; lia).
  rewrite Hz in Hr at 2.
  apply copy_prefix in Hr as [Hr _]; [|done|done]. unfold copied. rewrite Hr. unfold prefix.
  rewrite slice_app by lia. done.
Qed.

(** A warm read returns the bytes of the file the fact describes. *)
Lemma read_chunks_ok body fact seek md scratch offset end_ out out' :
  verified body fact -> file_occurs body -> seek_occurs seek -> 0 <= offset <= end_ -> (offset < end_ -> end_ <= zlen body) ->
  filled out = [] -> read_chunks fact seek md scratch offset end_ out = Ok out' ->
  filled out' = slice body offset end_.
Proof using Type.
  intros Hv Hoc Hseek Ho Hend Hout Hr. unfold read_chunks in Hr. apply rbind_ok in Hr as (o1 & Hloop & Hr).
  apply reject_ok in Hr as [_ Hr]. apply rbind_ok in Hr as (u & _ & [= <-]).
  destruct (Z.ltb_spec offset end_) as [Hlt|Hge].
  2:{ simplify_eq. rewrite Hout, slice_nil by lia. done. }
  specialize (Hend Hlt). assert (HC : CHUNK_SIZE = 1048576) by done.
  apply (for_each_range _ (copied body offset end_)) in Hloop.
  - unfold copied in Hloop. rewrite Hloop. unfold prefix.
    assert (zlen (slice body 0 (((end_ - 1) / CHUNK_SIZE + 1) * CHUNK_SIZE)) >= end_).
    { change (slice body 0 (((end_ - 1) / CHUNK_SIZE + 1) * CHUNK_SIZE)) with (prefix body ((end_ - 1) / CHUNK_SIZE + 1)).
      rewrite zlen_prefix; rewrite HC; dlia. }
    rewrite Z.min_l by lia. rewrite slice_slice by (rewrite ?HC; dlia). f_equal; lia.
  - rewrite HC. dlia.
  - intros i s s' Hi Hs Hst. eapply read_chunk_ok; eauto; rewrite HC in *; dlia.
  - unfold copied. rewrite Hout. rewrite zlen_prefix by (rewrite HC; dlia). symmetry. apply slice_nil.
    rewrite HC. dlia.
Qed.
End Warm.
End Cas.
