(* ===== verification/CasCache.v ===== *)
(** * CasCache

    The process-wide cache of chunk facts in [src/snapshot/cas_index.rs] and
    the indexed read that uses it. An [Arc<Index>] is live while the cache
    holds it or a reader or builder does; its reservation is charged to the
    budget for exactly that long. Each operation below is one critical section
    of the cache mutex or one drop. *)

From S2P Require Import Prelude Types Text CasScan.
Import Digests Cas.
Local Open Scope string_scope.
Local Open Scope list_scope.
Local Open Scope Z_scope.

Module Cache.

Definition INDEX_FORMAT : Z := 1.
Definition MAX_DIGEST_BYTES : Z := 8 * 1024 * 1024.
Definition PROCESS_INDEX_BYTES : Z := 64 * 1024 * 1024.
Definition CACHE_ENTRIES : nat := 128.
#[global] Arguments CACHE_ENTRIES : simpl never.
Definition INDEX_OVERHEAD : Z := 512.

Record Entry : Type := mkEntry { fact : Z; used : Z }.

(** A reservation with the index it belongs to ([None] while it is built). *)
Record Live : Type := mkLive {
  bytes : Z;
  index : option Index;
  cached : bool;
  held : Z;
}.

(** [base] is the fixed size of the cache itself, charged from the start. *)
Record Cache : Type := mkCache {
  limit : Z; base : Z; owned : Z;
  slots : list (option Entry);
  clock : Z;
  live : gmap Z Live;
  next : Z;
}.

(** [Cache::new]. *)
Definition Cache_new (limit base : Z) : Cache :=
  {| limit := limit; base := base; owned := base; slots := replicate CACHE_ENTRIES None;
     clock := 0; live := ∅; next := 0 |}.

Definition set_live (c : Cache) (o : Z) (m : gmap Z Live) : Cache :=
  {| limit := limit c; base := base c; owned := o; slots := slots c; clock := clock c;
     live := m; next := next c |}.
Definition set_slots (c : Cache) (s : list (option Entry)) (t : Z) : Cache :=
  {| limit := limit c; base := base c; owned := owned c; slots := s; clock := t;
     live := live c; next := next c |}.

(** An [Arc] is dropped or the cache lets go: the reservation is released with
    the last owner. *)
Definition update_live (id : Z) (l : Live) (c : Cache) : Cache :=
  if negb (cached l) && (held l =? 0)
  then set_live c (owned c - bytes l) (delete id (live c))
  else set_live c (owned c) (<[id := l]> (live c)).

Definition release (id : Z) (c : Cache) : Cache :=
  match live c !! id with
  | Some l => update_live id {| bytes := bytes l; index := index l; cached := cached l; held := held l - 1 |} c
  | None => c
  end.

Definition uncache (id : Z) (c : Cache) : Cache :=
  match live c !! id with
  | Some l => update_live id {| bytes := bytes l; index := index l; cached := false; held := held l |} c
  | None => c
  end.

(** [CacheState::tick]. *)
Definition tick (c : Cache) : Z := saturating_add (clock c) 1.

(** [min_by_key] over the occupied slots: the first one with the least use. *)
Fixpoint oldest (i : nat) (s : list (option Entry)) : option (nat * Entry) :=
  match s with
  | [] => None
  | None :: s => oldest (S i) s
  | Some e :: s =>
      match oldest (S i) s with
      | Some (j, e') => if used e' <? used e then Some (j, e') else Some (i, e)
      | None => Some (i, e)
      end
  end.

(** [CacheState::evict_oldest]. *)
Definition evict_oldest (c : Cache) : option Cache :=
  match oldest 0 (slots c) with
  | Some (i, e) => Some (uncache (fact e) (set_slots c (<[i := None]> (slots c)) (clock c)))
  | None => None
  end.

Definition index_matches (ix : Index) (dom : string) (digest : list Z) (size : Z) : bool :=
  String.eqb (domain ix) dom && bool_decide (i_digest ix = digest) && (i_size ix =? size)
    && (format ix =? INDEX_FORMAT).

Definition slot_matches (c : Cache) (dom : string) (digest : list Z) (size : Z) (o : option Entry) : bool :=
  match o with
  | Some e => match live c !! fact e ≫= index with
              | Some ix => index_matches ix dom digest size
              | None => false
              end
  | None => false
  end.

(** [Cache::get]: the clock ticks on a miss too. *)
Definition get (dom : string) (digest : list Z) (size : Z) (c : Cache) : option (Z * Index) * Cache :=
  let t := tick c in
  match list_find (fun o => slot_matches c dom digest size o = true) (slots c) with
  | Some (i, Some e) =>
      let c' := set_slots c (<[i := Some {| fact := fact e; used := t |}]> (slots c)) t in
      match live c !! fact e with
      | Some l =>
          match index l with
          | Some ix =>
              (Some (fact e, ix),
               set_live c' (owned c') (<[fact e := {| bytes := bytes l; index := index l;
                                                      cached := cached l; held := held l + 1 |}]> (live c')))
          | None => (None, c')
          end
      | None => (None, c')
      end
  | _ => (None, set_slots c (slots c) t)
  end.

(** [Budget::reserve] for a new builder. *)
Definition budget_reserve (n : Z) (c : Cache) : option (Z * Cache) :=
  o ← checked_add (owned c) n;
  if o <=? limit c then
    Some (next c, {| limit := limit c; base := base c; owned := o; slots := slots c; clock := clock c;
                     live := <[next c := {| bytes := n; index := None; cached := false; held := 1 |}]> (live c);
                     next := next c + 1 |})
  else None.

(** [Cache::reserve]: evict until it fits or nothing is left to evict; each
    round empties a slot, so [CACHE_ENTRIES + 1] rounds suffice. *)
Fixpoint reserve_loop (fuel : nat) (n : Z) (c : Cache) : option Z * Cache :=
  match fuel with
  | O => (None, c)
  | S fuel =>
      match budget_reserve n c with
      | Some (id, c) => (Some id, c)
      | None => match evict_oldest c with
                | Some c => reserve_loop fuel n c
                | None => (None, c)
                end
      end
  end.
Definition reserve (n : Z) (c : Cache) : option Z * Cache := reserve_loop (S (length (slots c))) n c.

(** [Cache::publish] of a built fact, whose builder hands over its [Arc]. *)
Definition publish (id : Z) (ix : Index) (c : Cache) : Cache :=
  if existsb (slot_matches c (domain ix) (i_digest ix) (i_size ix)) (slots c) then release id c else
  let c := if forallb (fun o => match o with Some _ => true | None => false end) (slots c)
           then default c (evict_oldest c) else c in
  let t := tick c in
  match list_find (fun o => o = None) (slots c), live c !! id with
  | Some (i, _), Some l =>
      let c := set_slots c (<[i := Some {| fact := id; used := t |}]> (slots c)) t in
      update_live id {| bytes := bytes l; index := Some ix; cached := true; held := held l - 1 |} c
  | _, _ => release id (set_slots c (slots c) t)
  end.

(** ** The invariant *)
Section Invariant.
Context `{Sha256} `{HK : !KnownBytes}.

(** The fact a slot holds. *)
Definition id_at (s : list (option Entry)) (i : nat) : option Z :=
  match s !! i with Some (Some e) => Some (fact e) | _ => None end.

Record cache_ok (c : Cache) : Prop := {
  co_owned : owned c = base c + sum_of bytes (live c);
  co_slot : forall i id, id_at (slots c) i = Some id ->
    exists l ix, live c !! id = Some l /\ index l = Some ix /\ cached l = true;
  co_unique : forall i j id, id_at (slots c) i = Some id -> id_at (slots c) j = Some id -> i = j;
  co_live : forall id l, live c !! id = Some l ->
    0 <= held l /\ (cached l = true \/ 0 < held l) /\ id < next c /\
    (cached l = true -> exists i, id_at (slots c) i = Some id);
  co_verified : forall id l ix, live c !! id = Some l -> index l = Some ix ->
    format ix = INDEX_FORMAT /\ exists body, occurs body /\ verified body ix;
  co_slots : length (slots c) = CACHE_ENTRIES;
}.

Lemma cache_ok_new lim b : cache_ok (Cache_new lim b).
Proof using Type.
  assert (Hnone : forall i, id_at (replicate CACHE_ENTRIES None) i = None).
  { intros i. unfold id_at. destruct (_ !! i) as [o|] eqn:E; [|done].
    apply lookup_replicate in E as [-> _]. done. }
  split; unfold Cache_new; cbn [owned base live slots next].
  - rewrite sum_of_empty. lia.
  - intros i id. by rewrite Hnone.
  - intros i j id. by rewrite Hnone.
  - intros id l. by rewrite lookup_empty.
  - intros id l ix. by rewrite lookup_empty.
  - apply length_replicate.
Qed.

Lemma cache_ok_clock c t : cache_ok c -> cache_ok (set_slots c (slots c) t).
Proof using Type. intros []. split; auto. Qed.

(** Changing the owners of one fact, together with the slots that hold it. *)
Lemma cache_ok_change c id l l' s t :
  cache_ok c -> live c !! id = Some l -> bytes l' = bytes l -> 0 <= held l' ->
  (forall ix, index l' = Some ix -> format ix = INDEX_FORMAT /\ exists body, occurs body /\ verified body ix) ->
  (cached l' = true -> is_Some (index l')) ->
  length s = length (slots c) ->
  (forall i id', id' <> id -> id_at s i = Some id' <-> id_at (slots c) i = Some id') ->
  (cached l' = true <-> exists i, id_at s i = Some id) ->
  (forall i j, id_at s i = Some id -> id_at s j = Some id -> i = j) ->
  cache_ok (update_live id l' (set_slots c s t)).
Proof using Type.
  intros [Ho Hs Hu Hl Hv Hn] Hid Hb Hh Hix Hci Hlen Hother Hslot Huniq.
  pose proof (sum_of_delete bytes (live c) id l Hid) as Hsum.
  assert (Hun : forall i j id', id_at s i = Some id' -> id_at s j = Some id' -> i = j).
  { intros i j id' Hi Hj. destruct (decide (id' = id)) as [->|Hne]; [by eapply Huniq|].
    apply Hother in Hi; [|done]. apply Hother in Hj; [|done]. by eapply Hu. }
  assert (Hlive : forall id' l0, id' <> id -> live c !! id' = Some l0 ->
    0 <= held l0 /\ (cached l0 = true \/ 0 < held l0) /\ id' < next c /\
    (cached l0 = true -> exists i, id_at s i = Some id')).
  { intros id' l0 Hne H0. destruct (Hl id' l0 H0) as (? & ? & ? & Hx). split_and!; auto.
    intros Hc. destruct (Hx Hc) as [i Hi]. exists i. by apply Hother. }
  unfold update_live. destruct (negb (cached l') && (held l' =? 0)) eqn:Hdead.
  - bools. destruct Hdead as [Hnc Hh0]. split; simpl; auto; [lia| | | |congruence].
    + intros i id' Hi. destruct (decide (id' = id)) as [->|Hne].
      { exfalso. rewrite (proj2 Hslot) in Hnc; [done|by exists i]. }
      rewrite lookup_delete_ne by done. eapply Hs. by apply Hother.
    + intros id' l0 [Hne H0]%lookup_delete_Some. by apply Hlive.
    + intros id' l0 ix [Hne H0]%lookup_delete_Some. eauto.
  - split; simpl; auto; [| | | |congruence].
    + rewrite <- insert_delete_eq, sum_of_insert by apply lookup_delete_eq. lia.
    + intros i id' Hi. destruct (decide (id' = id)) as [->|Hne].
      * rewrite lookup_insert_eq. assert (Hc : cached l' = true) by (apply Hslot; by exists i).
        destruct (Hci Hc) as [ix ?]. by exists l', ix.
      * rewrite lookup_insert_ne by done. eapply Hs. by apply Hother.
    + intros id' l0 [[<- <-]|[Hne H0]]%lookup_insert_Some; [|by apply Hlive].
      destruct (Hl id l Hid) as (_ & _ & ? & _). split_and!; [done| |done|by apply Hslot].
      destruct (cached l') eqn:E; [by left|right]. simpl in Hdead. bools. lia.
    + intros id' l0 ix [[<- <-]|[Hne H0]]%lookup_insert_Some; eauto.
Qed.

Lemma id_at_insert (s : list (option Entry)) i o j :
  (i < length s)%nat -> id_at (<[i := o]> s) j =
  if decide (j = i) then fact <$> o else id_at s j.
Proof using Type.
  intros Hi. unfold id_at. destruct (decide (j = i)) as [->|Hne].
  - rewrite list_lookup_insert_eq by done. by destruct o.
  - by rewrite list_lookup_insert_ne.
Qed.

Lemma id_at_lt s i id : id_at s i = Some id -> (i < length s)%nat.
Proof using Type. unfold id_at. destruct (s !! i) eqn:E; [|done]. intros _. by eapply lookup_lt_Some. Qed.

(** Only the holders change. *)
Lemma cache_ok_hold c id l h t s :
  cache_ok c -> live c !! id = Some l -> 0 <= h ->
  length s = length (slots c) -> (forall i, id_at s i = id_at (slots c) i) ->
  cache_ok (update_live id {| bytes := bytes l; index := index l; cached := cached l; held := h |}
              (set_slots c s t)).
Proof using Type.
  intros Hc Hid Hh Hlen Hids. pose proof Hc as [_ Hs Hu Hl Hv _].
  destruct (Hl id l Hid) as (_ & _ & _ & Hx).
  eapply cache_ok_change; simpl; try done.
  - intros ix Hix. by eapply Hv.
  - intros Hcd. destruct (Hx Hcd) as [i Hi]. destruct (Hs i id Hi) as (l1 & ix & ? & ? & _). simplify_eq. eauto.
  - intros. by rewrite Hids.
  - setoid_rewrite Hids. split; [done|]. intros [i Hi]. destruct (Hs i id Hi) as (l1 & ix & ? & _ & ?). by simplify_eq.
  - intros i j. rewrite !Hids. apply Hu.
Qed.

Lemma set_slots_id c : set_slots c (slots c) (clock c) = c.
Proof using Type. by destruct c. Qed.

Lemma release_ok c id l : cache_ok c -> live c !! id = Some l -> 1 <= held l -> cache_ok (release id c).
Proof using Type.
  intros Hc Hid Hh. unfold release. rewrite Hid. rewrite <- (set_slots_id c) at 1.
  apply cache_ok_hold; try done. lia.
Qed.

Lemma oldest_some k s i e : oldest k s = Some (i, e) ->
  (k <= i)%nat /\ s !! (i - k)%nat = Some (Some e) /\
  (forall j e', s !! j = Some (Some e') -> used e <= used e').
Proof using Type.
  revert k i e. induction s as [|[e0|] s IH]; intros k i e Ho; simpl in Ho; [done| |].
  - destruct (oldest (S k) s) as [[j e1]|] eqn:Hr.
    + apply IH in Hr as (Hk & Hj & Hmin). destruct (Z.ltb_spec (used e1) (used e0)); simplify_eq.
      * split_and!; [lia| |].
        -- replace (i - k)%nat with (S (i - S k)) by lia. done.
        -- intros [|j'] e' He'; simpl in He'; [simplify_eq; lia|eauto].
      * split_and!; [lia|by rewrite Nat.sub_diag|].
        intros [|j'] e' He'; simpl in He'; [simplify_eq; lia|]. specialize (Hmin _ _ He'). lia.
    + simplify_eq. split_and!; [lia|by rewrite Nat.sub_diag|].
      intros [|j'] e' He'; simpl in He'; [simplify_eq; lia|]. exfalso. clear IH.
      revert Hr. generalize (S i) as m. revert j' He'. induction s as [|[x|] s IHs]; intros j' He' m; simpl.
      * done.
      * destruct (oldest (S m) s) as [[]|]; [by destruct (_ <? _)|done].
      * destruct j'; simpl in He'; [done|]. by eapply IHs.
  - apply IH in Ho as (Hk & Hj & Hmin). split_and!; [lia| |].
    + replace (i - k)%nat with (S (i - S k)) by lia. done.
    + intros [|j'] e' He'; simpl in He'; [done|eauto].
Qed.

(** Eviction removes the least recently used fact from the cache only: its
    charge stays while a reader holds it. *)
Lemma evict_ok c c' :
  cache_ok c -> evict_oldest c = Some c' ->
  cache_ok c' /\ limit c' = limit c /\ base c' = base c /\ next c' = next c /\
  (forall id l, live c !! id = Some l -> cached l = false -> live c' !! id = Some l) /\
  (exists i, slots c' = <[i := None]> (slots c) /\ is_Some (id_at (slots c) i)).
Proof using Type.
  intros Hc He. unfold evict_oldest in He. destruct (oldest 0 (slots c)) as [[i e]|] eqn:Ho; [|done].
  apply oldest_some in Ho as (_ & Hi & _). rewrite Nat.sub_0_r in Hi.
  assert (Hat : id_at (slots c) i = Some (fact e)) by (unfold id_at; by rewrite Hi).
  pose proof Hc as [_ Hs Hu Hl Hv _]. destruct (Hs _ _ Hat) as (l & ix & Hlive & Hix & Hcd).
  destruct (Hl _ _ Hlive) as (Hh & _ & _ & _). pose proof (id_at_lt _ _ _ Hat) as Hlt.
  unfold uncache in He. simpl in He. rewrite Hlive in He. injection He as <-. split_and!.
  - eapply cache_ok_change; simpl; try done.
    + intros ix' Hx. by eapply Hv.
    + by rewrite length_insert.
    + intros j id' Hne. rewrite id_at_insert by done. destruct (decide (j = i)) as [->|]; [|done].
      rewrite Hat. simpl. split; congruence.
    + split; [done|]. intros [j Hj]. rewrite id_at_insert in Hj by done.
      destruct (decide (j = i)); [done|]. by destruct (Hu j i (fact e)).
    + intros j k Hj. rewrite id_at_insert in Hj by done.
      destruct (decide (j = i)); [done|]. by destruct (Hu j i (fact e)).
  - unfold update_live. by destruct (_ && _).
  - unfold update_live. by destruct (_ && _).
  - unfold update_live. by destruct (_ && _).
  - intros id l0 H0 Hc0. assert (id <> fact e) by congruence. unfold update_live.
    destruct (_ && _); simpl; [by rewrite lookup_delete_ne|by rewrite lookup_insert_ne].
  - exists i. split; [unfold update_live; by destruct (_ && _)|]. rewrite Hat. eauto.
Qed.

Lemma slot_matches_true c dom dg size i o :
  slots c !! i = Some o -> slot_matches c dom dg size o = true ->
  exists e l ix, o = Some e /\ live c !! fact e = Some l /\ index l = Some ix /\
                 index_matches ix dom dg size = true.
Proof using Type.
  intros Hi Hm. destruct o as [e|]; simpl in Hm; [|done].
  destruct (live c !! fact e) as [l|] eqn:Hl; simpl in Hm; [|done].
  destruct (index l) as [ix|] eqn:Hix; [|done]. by exists e, l, ix.
Qed.

(** A lookup that hits returns a live, verified fact of the requested identity,
    now held by the reader too. *)
Lemma get_ok dom dg size c r c' :
  cache_ok c -> get dom dg size c = (r, c') ->
  cache_ok c' /\
  match r with
  | None => live c' = live c
  | Some (id, ix) => index_matches ix dom dg size = true /\ (exists body, occurs body /\ verified body ix) /\
      exists l, live c' !! id = Some l /\ index l = Some ix /\ 1 <= held l
  end.
Proof using Type.
  intros Hc Hg. unfold get in Hg.
  destruct (list_find _ (slots c)) as [[i o]|] eqn:Hf; [|injection Hg as <- <-; by split; [apply cache_ok_clock|]].
  apply list_find_Some in Hf as (Hi & Hm & _).
  destruct (slot_matches_true _ _ _ _ _ _ Hi Hm) as (e & l & ix & -> & Hl & Hix & Hmx).
  rewrite Hl, Hix in Hg. injection Hg as <- <-.
  pose proof (co_live _ Hc _ _ Hl) as (Hh & _). pose proof (co_verified _ Hc _ _ _ Hl Hix) as [_ Hver].
  assert (Hat : id_at (slots c) i = Some (fact e)) by (unfold id_at; by rewrite Hi).
  pose proof (id_at_lt _ _ _ Hat) as Hlt. split.
  - pose proof (cache_ok_hold c (fact e) l (held l + 1) (tick c)
      (<[i := Some {| fact := fact e; used := tick c |}]> (slots c)) Hc Hl ltac:(lia)) as Hk.
    unfold update_live in Hk. simpl in Hk. rewrite Hix in Hk.
    replace (held l + 1 =? 0) with false in Hk by (symmetry; apply Z.eqb_neq; lia).
    rewrite andb_false_r in Hk. apply Hk; [by rewrite length_insert|].
    intros j. rewrite id_at_insert by done. destruct (decide (j = i)) as [->|]; [by rewrite Hat|done].
  - split_and!; [done|done|]. simpl. rewrite lookup_insert_eq. eexists; split_and!; [done|done|simpl; lia].
Qed.

Lemma budget_reserve_ok n c id c' :
  cache_ok c -> budget_reserve n c = Some (id, c') ->
  cache_ok c' /\ live c' !! id = Some {| bytes := n; index := None; cached := false; held := 1 |} /\
  owned c' <= limit c /\ limit c' = limit c /\ base c' = base c.
Proof using Type.
  intros [Ho Hs Hu Hl Hv Hn] Hr. unfold budget_reserve in Hr.
  apply bind_Some in Hr as (o & Ha & Hr). apply checked_add_some in Ha as [-> _].
  destruct (Z.leb_spec (owned c + n) (limit c)); [|done]. injection Hr as <- <-. simpl.
  assert (Hfresh : live c !! next c = None).
  { destruct (live c !! next c) eqn:E; [|done]. destruct (Hl _ _ E) as (_ & _ & ? & _). lia. }
  split_and!; [|by rewrite lookup_insert_eq|done|done|done]. split; simpl; auto.
  - rewrite sum_of_insert by done. simpl. lia.
  - intros i id Hi. destruct (Hs i id Hi) as (l & ix & ? & ?). exists l, ix.
    rewrite lookup_insert_ne by congruence. done.
  - intros id l [[<- <-]|[Hne Hold]]%lookup_insert_Some.
    + simpl. split_and!; [lia|right; lia|lia|done].
    + destruct (Hl id l Hold) as (? & ? & ? & ?). split_and!; auto. lia.
  - intros id l ix [[<- <-]|[Hne Hold]]%lookup_insert_Some; [done|eauto].
Qed.

Definition occupied (s : list (option Entry)) : nat :=
  length (List.filter (fun o => match o with Some _ => true | None => false end) s).

Lemma occupied_insert s i : is_Some (id_at s i) -> (occupied (<[i := None]> s) < occupied s)%nat.
Proof using Type.
  unfold occupied, id_at. revert i. induction s as [|o s IH]; intros [|i] Hi; simpl in *.
  - by destruct Hi.
  - by destruct Hi.
  - destruct o; simpl; [lia|by destruct Hi].
  - specialize (IH i Hi). destruct o; simpl; lia.
Qed.

(** Enough rounds: more fuel does not change the outcome of [reserve]. *)
Lemma reserve_loop_enough fuel n c k :
  cache_ok c -> (occupied (slots c) < fuel)%nat ->
  reserve_loop (fuel + k) n c = reserve_loop fuel n c.
Proof using Type.
  revert c. induction fuel as [|fuel IH]; intros c Hc Hf; [lia|]. simpl.
  destruct (budget_reserve n c) as [[]|]; [done|].
  destruct (evict_oldest c) as [c1|] eqn:He; [|done].
  destruct (evict_ok _ _ Hc He) as (Hc1 & _ & _ & _ & _ & i & Hs & Hi).
  apply IH; [done|]. rewrite Hs. pose proof (occupied_insert _ _ Hi). lia.
Qed.

Lemma reserve_loop_ok fuel n c r c' :
  cache_ok c -> reserve_loop fuel n c = (r, c') ->
  cache_ok c' /\ limit c' = limit c /\ base c' = base c /\
  (forall id, r = Some id ->
     live c' !! id = Some {| bytes := n; index := None; cached := false; held := 1 |} /\ owned c' <= limit c).
Proof using Type.
  revert c. induction fuel as [|fuel IH]; intros c Hc Hr; simpl in Hr; [by simplify_eq|].
  destruct (budget_reserve n c) as [[id c1]|] eqn:Hb.
  - injection Hr as <- <-. destruct (budget_reserve_ok _ _ _ _ Hc Hb) as (? & ? & ? & ? & ?).
    split_and!; auto. intros id' [= <-]. done.
  - destruct (evict_oldest c) as [c1|] eqn:He; [|by simplify_eq].
    destruct (evict_ok _ _ Hc He) as (Hc1 & Hlim & Hbase & _ & _ & _).
    destruct (IH _ Hc1 Hr) as (? & ? & ? & ?). rewrite Hlim, Hbase in *. by split_and!.
Qed.

Lemma cache_publish_ok id ix l c :
  cache_ok c -> live c !! id = Some l -> cached l = false -> 1 <= held l ->
  format ix = INDEX_FORMAT -> (exists body, occurs body /\ verified body ix) ->
  cache_ok (publish id ix c).
Proof using Type.
  intros Hc Hid Hcd Hh Hfmt Hver. unfold publish. destruct (existsb _ _); [by eapply release_ok|].
  set (c1 := if forallb _ _ then _ else c).
  assert (H1 : cache_ok c1 /\ live c1 !! id = Some l).
  { unfold c1. destruct (forallb _ _); [|done]. destruct (evict_oldest c) as [c2|] eqn:He; [|done].
    destruct (evict_ok _ _ Hc He) as (? & _ & _ & _ & Hk & _). simpl. auto. }
  clearbody c1. destruct H1 as [Hc1 Hid1].
  destruct (list_find _ (slots c1)) as [[i o]|] eqn:Hf.
  - rewrite Hid1. apply list_find_Some in Hf as (Hi & -> & _).
    assert (Hnone : forall j, id_at (slots c1) j <> Some id).
    { intros j Hj. destruct (co_slot _ Hc1 _ _ Hj) as (l1 & _ & ? & _ & ?). congruence. }
    assert (Hlt : (i < length (slots c1))%nat) by (by eapply lookup_lt_Some).
    eapply cache_ok_change; simpl; try done.
    + lia.
    + by intros ix' [= <-].
    + by rewrite length_insert.
    + intros j id' Hne. rewrite id_at_insert by done. destruct (decide (j = i)) as [->|]; [|done].
      simpl. unfold id_at. rewrite Hi. split; congruence.
    + split; [|done]. intros _. exists i. rewrite id_at_insert by done. by destruct (decide (i = i)).
    + intros j k. rewrite !id_at_insert by done.
      destruct (decide (j = i)), (decide (k = i)); simpl; try congruence;
        intros Hj Hk; first [by destruct (Hnone k)|by destruct (Hnone j)].
  - eapply (release_ok _ _ l); [by apply cache_ok_clock|done|done].
Qed.
End Invariant.

(** ** Indexed reads *)
Section Read.
Context `{Sha256} `{HK : !KnownBytes} `{HexCrate}.

(** What the operating system and the allocator do during one read: the events
    of a sequential scan and after a seek, the closing metadata check, the
    canonical domain with its path capacity, the capacity [try_reserve_exact]
    produced for the digests, and whether the warm scratch was allocated. *)
Record Env : Type := mkEnv {
  cold_events : list read_event;
  seek_events : Z -> Res (list read_event);
  closing_metadata : Res unit;
  canonical_domain : option (string * Z);
  digest_capacity : option Z;
  warm_scratch : bool;
}.

(** The digest as a cache key. *)
Definition fixed_digest (digest : string) : option (list Z) :=
  match strip_prefix "sha256:" digest with
  | Some hex => if forallb is_lower_hex (as_bytes hex)
                then d ← hex_decode hex; if zlen d =? 32 then Some d else None
                else None
  | None => None
  end.

Definition next_power_of_two (n : Z) : Z := 2 ^ Z.log2_up n.

(** [scan_with_scratch]: the caller's scratch or the legacy 64 KiB one. *)
Definition scan_with_scratch (env : Env) (digest : string) (size offset end_ : Z) (out : sink)
    (scratch : option Z) (build : bool) : Res (sink * option (list (list Z))) :=
  scan (cold_events env) (closing_metadata env) digest size offset end_ out
    (default SCAN_CAPACITY scratch) build.

(** [read_chunks_with_scratch]. *)
Definition read_chunks_with_scratch (env : Env) (ix : Index) (offset end_ : Z) (out : sink)
    (scratch : option Z) : Res sink :=
  match scratch with
  | Some n => read_chunks ix (seek_events env) (closing_metadata env) n offset end_ out
  | None =>
      reject? (offset <? end_) && negb (warm_scratch env) with allocation_error in
      read_chunks ix (seek_events env) (closing_metadata env)
        (if offset <? end_ then CHUNK_SIZE else 0) offset end_ out
  end.

(** The whole-file fallback, which trusts and leaves no fact. *)
Definition strict (env : Env) (digest : string) (size offset end_ : Z) (out : sink)
    (scratch : option Z) : Res sink :=
  let? r := scan_with_scratch env digest size offset end_ out scratch false in Ok (fst r).

(** [read_input_with_cache]. *)
Definition read_input_with_cache (env : Env) (digest : string) (size offset end_ : Z) (out : sink)
    (scratch : option Z) (c : Cache) : Res sink * Cache :=
  let count := div_ceil size CHUNK_SIZE in
  match canonical_domain env, fixed_digest digest with
  | Some (dom, path_capacity), Some d =>
      if MAX_DIGEST_BYTES / 32 <? count then (strict env digest size offset end_ out scratch, c) else
      match get dom d size c with
      | (Some (id, ix), c) =>
          (read_chunks_with_scratch env ix offset end_ out scratch, release id c)
      | (None, c) =>
          let payload := Z.min (next_power_of_two (count * 32)) MAX_DIGEST_BYTES in
          let charge := saturating_add (saturating_add payload (saturating_mul path_capacity 2)) INDEX_OVERHEAD in
          match reserve charge c with
          | (None, c) => (strict env digest size offset end_ out scratch, c)
          | (Some id, c) =>
              if match digest_capacity env with
                 | Some n => payload <? saturating_mul n 32
                 | None => true
                 end
              then (strict env digest size offset end_ out scratch, release id c) else
              match scan_with_scratch env digest size offset end_ out scratch true with
              | Err e => (Err e, release id c)
              | Ok (out, ds) =>
                  let ds := default [] ds in
                  if negb (zlen ds =? count)
                  then (Err (mismatch "local CAS chunk geometry differs from the fixed file"), release id c)
                  else (Ok out, publish id {| domain := dom; i_digest := d; i_size := size;
                                              format := INDEX_FORMAT; chunks := ds; charge := charge |} c)
              end
          end
      end
  | _, _ => (strict env digest size offset end_ out scratch, c)
  end.

(** [output]: the clamped range and its allocation. *)
Definition output (size offset len : Z) : Res (sink * Z) :=
  let want := Z.min (saturating_sub size offset) len in
  reject? 64 * 1024 * 1024 <? want
    with SnapshotError_new LimitExceeded
           "local CAS read exceeds the 64 MiB output budget; request a smaller range" in
  Ok ({| capacity := want; filled := [] |}, saturating_add offset want).

(** [open]: an absent object is a miss; its size and type must match. *)
Inductive open_result : Type := NotFound | OpenError (m : string) | Opened (metadata_ok : Res unit).

Definition open_ (o : open_result) : Res bool :=
  match o with
  | NotFound => Ok false
  | OpenError m => Err (io_error m)
  | Opened md => let? _ := md in Ok true
  end.

(** [read_with_cache] after the retention guard. *)
Definition read_with_cache (env : Env) (o : open_result) (digest : string) (size offset len : Z) (c : Cache)
    : Res (option (list Z)) * Cache :=
  match (let? found := open_ o in
         if found then let? r := output size offset len in Ok (Some r) else Ok None) with
  | Err e => (Err e, c)
  | Ok None => (Ok None, c)
  | Ok (Some (out, end_)) =>
      let '(r, c) := read_input_with_cache env digest size offset end_ out None c in
      (let? out := r in Ok (Some (filled out)), c)
  end.

(** [read_strict]. *)
Definition read_strict (env : Env) (o : open_result) (digest : string) (size offset len : Z)
    : Res (option (list Z)) :=
  let? found := open_ o in
  if found then
    let? ' (out, end_) := output size offset len in
    let? out := strict env digest size offset end_ out None in
    Ok (Some (filled out))
  else Ok None.

(** *** Soundness *)

(** What reading the file delivers occurs. *)
Definition reads_occur (env : Env) : Prop :=
  Forall occurs (deliveries (cold_events env)) /\ seek_occurs (seek_events env).

Lemma cas_digest_inj body body' :
  occurs body -> occurs body' -> digest_string (sha256 body) = digest_string (sha256 body') -> body = body'.
Proof using All.
  intros Hb Hb' E. apply occurs_inj; [done|done|].
  assert (Hp : forall b, parse_digest (digest_string (sha256 b)) = Ok (sha256 b)).
  { intros b. apply parse_digest_ok. split_and!; [done|apply sha256_length|apply sha256_bytes]. }
  pose proof (Hp body) as H1. rewrite E, Hp in H1. congruence.
Qed.

Lemma fixed_digest_sha body : fixed_digest (digest_string (sha256 body)) = Some (sha256 body).
Proof using Type.
  unfold fixed_digest, digest_string. rewrite (proj2 (strip_prefix_some _ _ _) eq_refl).
  rewrite as_bytes_hex32 by apply sha256_bytes.
  rewrite (proj2 (forallb_Forall _ _) (hex_bytes_lower _ (sha256_bytes body))).
  rewrite hex_decode_lower by apply sha256_bytes. simpl. unfold zlen. by rewrite sha256_length.
Qed.

(** The requested range lies inside the file unless it is empty. *)
Definition range_ok (size offset end_ : Z) : Prop :=
  0 <= offset <= end_ /\ 0 <= size /\ (offset < end_ -> end_ <= size).

Lemma scan_sound env body digest size offset end_ out scratch build out' ds :
  range_ok size offset end_ -> filled out = [] -> reads_occur env -> occurs body ->
  digest = digest_string (sha256 body) ->
  scan_with_scratch env digest size offset end_ out scratch build = Ok (out', ds) ->
  filled out' = slice body offset end_ /\
  match ds with
  | Some l => zlen body = size /\ facts_of body l
  | None => build = false
  end.
Proof using Type.
  intros (Ho & Hs & _) Hf [Hcold _] Hoc -> Hsc. unfold scan_with_scratch, scan in Hsc. inv_ok. simplify_eq.
  match goal with Hx : scan_body _ _ _ _ _ _ _ _ = Ok _ |- _ => apply scan_body_ok in Hx as (b & Hz & Hd & Hread & Hfill & Hds) end;
    [|done..].
  rewrite list.Forall_forall in Hcold. assert (b = body) as -> by (symmetry; apply cas_digest_inj; auto). split; [done|]. destruct ds; [|done]. by destruct Hds.
Qed.

Lemma strict_sound env body digest size offset end_ out scratch out' :
  range_ok size offset end_ -> filled out = [] -> reads_occur env -> occurs body -> digest = digest_string (sha256 body) ->
  strict env digest size offset end_ out scratch = Ok out' ->
  filled out' = slice body offset end_.
Proof using Type.
  intros Hr Hf Hoc Hb Hd Hs. unfold strict in Hs. inv_ok. destruct x as [o ds]. simpl in Hs. subst o.
  by eapply scan_sound.
Qed.

Lemma read_chunks_sound env ix body offset end_ out scratch out' :
  range_ok (zlen body) offset end_ -> filled out = [] -> reads_occur env -> file_occurs body -> verified body ix ->
  read_chunks_with_scratch env ix offset end_ out scratch = Ok out' ->
  filled out' = slice body offset end_.
Proof using Type.
  intros (Ho & _ & He) Hf [_ Hseek] Hb Hv Hr. unfold read_chunks_with_scratch in Hr.
  destruct scratch; [|apply reject_ok in Hr as [_ Hr]]; eapply read_chunks_ok in Hr; eauto; tauto.
Qed.

Lemma get_holds dom dg size c id ix c' :
  cache_ok c -> get dom dg size c = (Some (id, ix), c') -> cache_ok (release id c').
Proof using Type.
  intros Hc Hg. destruct (get_ok _ _ _ _ _ _ Hc Hg) as (Hc' & _ & _ & l & Hl & _ & Hh).
  by eapply release_ok.
Qed.

Lemma read_input_ok env body digest size offset end_ out scratch c r c' :
  cache_ok c -> range_ok size offset end_ -> filled out = [] -> reads_occur env -> file_occurs body ->
  zlen body = size -> digest = digest_string (sha256 body) ->
  read_input_with_cache env digest size offset end_ out scratch c = (r, c') ->
  cache_ok c' /\ (forall out', r = Ok out' -> filled out' = slice body offset end_).
Proof using Type.
  intros Hc Hr Hf Henv Hbody Hz Hd Hread. unfold read_input_with_cache in Hread. pose proof Hbody as [Hocc _].
  assert (Hstrict : forall o, strict env digest size offset end_ out scratch = Ok o ->
            filled o = slice body offset end_) by (intros o; by apply strict_sound).
  assert (Hfd : fixed_digest digest = Some (sha256 body)) by (rewrite Hd; apply fixed_digest_sha).
  rewrite Hfd in Hread.
  destruct (canonical_domain env) as [[dom cap]|]; [|by simplify_eq].
  destruct (_ <? _); [by simplify_eq|].
  destruct (get dom (sha256 body) size c) as [[[id ix]|] c1] eqn:Hg.
  { simplify_eq. split; [by eapply get_holds|].
    destruct (get_ok _ _ _ _ _ _ Hc Hg) as (_ & Hm & (b & Hob & Hb) & _). intros o Ho.
    unfold index_matches in Hm. bools. split_all.
    match goal with Hx : bool_decide _ = true |- _ => apply bool_decide_eq_true in Hx; rename Hx into Hid end.
    destruct Hb as (Hzb & Hsha & Hfacts). rewrite Hid in Hsha.
    assert (b = body) as -> by (by apply occurs_inj). by eapply read_chunks_sound. }
  destruct (get_ok _ _ _ _ _ _ Hc Hg) as [Hc1 _].
  destruct (reserve _ c1) as [[id|] c2] eqn:Hres.
  2:{ apply reserve_loop_ok in Hres as (? & _); [|done]. by simplify_eq. }
  apply reserve_loop_ok in Hres as (Hc2 & _ & _ & Hid); [|done].
  destruct (Hid id eq_refl) as [Hlive _]. clear Hid.
  assert (Hrel : cache_ok (release id c2)) by (eapply release_ok; [done|done|simpl; lia]).
  destruct (match digest_capacity env with Some _ => _ | None => _ end); [by simplify_eq|].
  destruct (scan_with_scratch _ _ _ _ _ _ _ true) as [[o ds]|] eqn:Hsc; [|by simplify_eq].
  eapply scan_sound in Hsc as [Hout Hds]; [|done..].
  destruct ds as [ds|]; [|done]. destruct Hds as [Hzb Hfacts]. simpl in Hread.
  destruct (negb (zlen ds =? div_ceil size CHUNK_SIZE)); simplify_eq; [done|].
  split; [|by intros o' [= <-]]. eapply cache_publish_ok; simpl; try done.
  exists body. by split_and!.
Qed.
End Read.

(** ** The cache as a shared object *)
Section System.
Context `{Sha256} `{HK : !KnownBytes}.

(** The atomic operations of concurrent readers. A builder publishes only a
    fact obtained from a complete scan; a holder releases what it holds. *)
Inductive step : Cache -> Cache -> Prop :=
  | step_get dom dg size c r c' : get dom dg size c = (r, c') -> step c c'
  | step_reserve n c r c' : 0 <= n -> reserve n c = (r, c') -> step c c'
  | step_publish id ix l c :
      live c !! id = Some l -> cached l = false -> 1 <= held l ->
      format ix = INDEX_FORMAT -> (exists body, occurs body /\ verified body ix) -> step c (publish id ix c)
  | step_release id l c : live c !! id = Some l -> 1 <= held l -> step c (release id c).

Inductive reachable (lim b : Z) : Cache -> Prop :=
  | reach_new : reachable lim b (Cache_new lim b)
  | reach_step c c' : reachable lim b c -> step c c' -> reachable lim b c'.

Lemma step_ok c c' : cache_ok c -> step c c' -> cache_ok c'.
Proof using Type.
  intros Hc Hs. destruct Hs as [dom dg size c r c' Hg|n c r c' _ Hr|id ix l c ? ? ? ? ?|id l c ? ?].
  - by destruct (get_ok _ _ _ _ _ _ Hc Hg).
  - by destruct (reserve_loop_ok _ _ _ _ _ Hc Hr).
  - by eapply cache_publish_ok.
  - by eapply release_ok.
Qed.

Lemma reachable_ok lim b c : reachable lim b c -> cache_ok c.
Proof using Type. induction 1; [apply cache_ok_new|by eapply step_ok]. Qed.

(** *** The budget bound *)

Definition bounded (lim b : Z) (c : Cache) : Prop :=
  limit c = lim /\ base c = b /\ owned c <= Z.max lim b /\
  forall id l, live c !! id = Some l -> 0 <= bytes l.

Lemma bounded_update lim b c id l l' s t :
  bounded lim b c -> live c !! id = Some l -> bytes l' = bytes l ->
  bounded lim b (update_live id l' (set_slots c s t)).
Proof using Type.
  intros (Hl & Hb & Ho & Hp) Hid Hby. pose proof (Hp _ _ Hid). unfold update_live.
  destruct (_ && _); split_and!; simpl; try done; [lia| |].
  - intros id' l0 [_ ?]%lookup_delete_Some. eauto.
  - intros id' l0 [[<- <-]|[_ ?]]%lookup_insert_Some; [lia|eauto].
Qed.

Lemma bounded_release lim b c id : bounded lim b c -> bounded lim b (release id c).
Proof using Type.
  intros Hb. unfold release. destruct (live c !! id) as [l|] eqn:Hl; [|done].
  rewrite <- (set_slots_id c) at 1. by eapply bounded_update.
Qed.

Lemma bounded_evict lim b c c' : bounded lim b c -> evict_oldest c = Some c' -> bounded lim b c'.
Proof using Type.
  intros Hb He. unfold evict_oldest in He. destruct (oldest 0 (slots c)) as [[i e]|]; simplify_eq.
  unfold uncache. simpl. destruct (live c !! fact e) as [l|] eqn:Hl; [by eapply bounded_update|done].
Qed.

Lemma bounded_get lim b dom dg size c r c' :
  bounded lim b c -> get dom dg size c = (r, c') -> bounded lim b c'.
Proof using Type.
  intros (Hl & Hb & Ho & Hp) Hg. unfold get in Hg.
  destruct (list_find _ _) as [[i [e|]]|]; [|by simplify_eq..].
  destruct (live c !! fact e) as [l|] eqn:Hlive; [|by simplify_eq].
  destruct (index l) eqn:Hix; simplify_eq; [|done]. split_and!; simpl; try done.
  intros id l0 [[<- <-]|[_ ?]]%lookup_insert_Some; [by apply (Hp (fact e) l)|eauto].
Qed.

Lemma bounded_reserve lim b fuel n c r c' :
  0 <= n -> bounded lim b c -> reserve_loop fuel n c = (r, c') -> bounded lim b c'.
Proof using Type.
  intros Hn. revert c. induction fuel as [|fuel IH]; intros c Hb Hr; simpl in Hr; [by simplify_eq|].
  destruct (budget_reserve n c) as [[id c1]|] eqn:Hbr.
  - injection Hr as <- <-. unfold budget_reserve in Hbr. apply bind_Some in Hbr as (o & _ & Hbr).
    destruct (Z.leb_spec o (limit c)); [|done]. injection Hbr as <- <-.
    destruct Hb as (Hl & Hb & Ho & Hp). split_and!; simpl; try done; [lia|].
    intros id' l0 [[<- <-]|[_ ?]]%lookup_insert_Some; [done|eauto].
  - destruct (evict_oldest c) as [c1|] eqn:He; [|by simplify_eq].
    eapply IH; [|exact Hr]. by eapply bounded_evict.
Qed.

Lemma bounded_publish lim b id ix c : bounded lim b c -> bounded lim b (publish id ix c).
Proof using Type.
  intros Hb. unfold publish. destruct (existsb _ _); [by apply bounded_release|].
  set (c1 := if forallb _ _ then _ else c).
  assert (H1 : bounded lim b c1).
  { unfold c1. destruct (forallb _ _); [|done]. destruct (evict_oldest c) eqn:He; [|done].
    by eapply bounded_evict. }
  clearbody c1. destruct (list_find _ _) as [[i o]|]; [|by apply bounded_release].
  destruct (live c1 !! id) as [l|] eqn:Hl; [by eapply bounded_update|by apply bounded_release].
Qed.

Lemma reachable_bounded lim b c : reachable lim b c -> bounded lim b c.
Proof using Type.
  induction 1 as [|c c' _ IH Hs].
  { split_and!; simpl; [done|done|lia|]. intros id l. by rewrite lookup_empty. }
  destruct Hs; [by eapply bounded_get|by eapply bounded_reserve|by apply bounded_publish|by apply bounded_release].
Qed.
End System.

(** C6: local reads return the named file's bytes. For any cache contents built
    by this program and any behaviour of the file on disk, including changes
    between and during reads, an indexed read that succeeds returns exactly the
    requested range (clipped at end of file) of the file with that digest and
    size: whether it scanned the whole object, reused cached chunk facts, or
    fell back without them. The cache stays sound on every outcome. SHA-256 is
    assumed to tell the byte strings apart that occur: the file, its chunks,
    and what the reads deliver. *)
Theorem indexed_read_sound `{Sha256} `{HK : !KnownBytes} `{HexCrate} env o body digest size offset len c r c' :
  cache_ok c -> is_u64 size -> is_u64 offset -> is_usize len ->
  reads_occur env -> file_occurs body -> zlen body = size -> digest = digest_string (sha256 body) ->
  read_with_cache env o digest size offset len c = (r, c') ->
  cache_ok c' /\
  forall bs, r = Ok (Some bs) -> bs = slice body offset (offset + len).
Proof.
  intros Hc [Hs0 Hs1] [Ho0 Ho1] [Hl0 _] Henv Hbody Hz Hd Hr. unfold read_with_cache in Hr.
  destruct (rbind _ _) as [[[out end_]|]|] eqn:Hopen; [|by simplify_eq..].
  destruct (open_ o) as [[]|]; simpl in Hopen; try done. unfold output in Hopen. inv_ok. simplify_eq.
  destruct (read_input_with_cache _ _ _ _ _ _ _ _) as [r0 c0] eqn:Hread. simplify_eq.
  assert (Hrange : range_ok (zlen body) offset (saturating_add offset (Z.min (saturating_sub (zlen body) offset) len))).
  { unfold range_ok, saturating_add, saturating_sub in *. lia. }
  eapply read_input_ok in Hread as [Hc' Hok]; [|done..]. split; [done|].
  intros bs Hbs. destruct r0 as [o1|]; simpl in Hbs; [|done]. injection Hbs as <-.
  rewrite (Hok o1 eq_refl). rewrite slice_clip, (slice_clip body offset (offset + len)).
  unfold saturating_add, saturating_sub in *.
  destruct (Z.le_gt_cases (zlen body) offset); [rewrite !slice_nil by lia; done|]. f_equal. lia.
Qed.

End Cache.
