(* ===== verification/Json.v ===== *)
(** * Json

    JSON values as [serde_json::Value] holds them, its accessors, and the
    derived struct decoding used by the wire modules: a struct is read from an
    object (unknown members refused when [deny_unknown_fields] is set) or,
    positionally, from an array. *)

From S2P Require Import Prelude Types.
Local Open Scope string_scope.
Local Open Scope list_scope.
Local Open Scope Z_scope.

#[local] Set Warnings "-register-all".

Inductive json : Type :=
  | JNull
  | JBool (b : bool)
  | JNum (n : Z)
  | JFloat (text : string)
  | JStr (s : string)
  | JArr (l : list json)
  | JObj (m : list (string * json)).

Fixpoint assoc (k : string) (m : list (string * json)) : option json :=
  match m with
  | [] => None
  | (k', v) :: m => if String.eqb k k' then Some v else assoc k m
  end.

(** [Value::get] with a string key. *)
Definition jget (v : json) (k : string) : option json :=
  match v with JObj m => assoc k m | _ => None end.

Definition has (v : json) (k : string) : bool :=
  match jget v k with Some _ => true | None => false end.

(** [v[k].as_str()], [v[k].as_u64()], [v[k].as_array()]. *)
Definition as_str (o : option json) : option string := match o with Some (JStr s) => Some s | _ => None end.
Definition as_u64 (o : option json) : option Z :=
  match o with Some (JNum n) => if in_range 0 n u64_max then Some n else None | _ => None end.
Definition as_array (o : option json) : option (list json) := match o with Some (JArr l) => Some l | _ => None end.
Definition as_bool (o : option json) : option bool := match o with Some (JBool b) => Some b | _ => None end.
Definition as_u16 (o : option json) : option Z :=
  match o with Some (JNum n) => if in_range 0 n 65535 then Some n else None | _ => None end.

Definition str_is (o : option json) (s : string) : bool := bool_decide (as_str o = Some s).

(** The members of a struct in declaration order; [None] is a missing one. *)
Definition row (deny : bool) (fields : list string) (v : json) : option (list (option json)) :=
  match v with
  | JObj m => if deny && existsb (fun kv => negb (one_of (fst kv) fields)) m then None
              else Some ((fun f => assoc f m) <$> fields)
  | JArr l => if (length l <=? length fields)%nat
              then Some ((Some <$> l) ++ replicate (length fields - length l) None) else None
  | _ => None
  end.

(** [#[serde(default)]] on a string: only a missing member defaults. *)
Definition default_str (o : option json) : option string :=
  match o with None => Some "" | _ => as_str o end.
