(* ===== verification/Wire.v ===== *)
(** * Wire

    The closed JSON contracts: HTTP errors ([src/snapshot/error_wire.rs]),
    descriptors ([src/snapshot/descriptor_wire.rs] with [validate_descriptor]
    of [src/snapshot/auth.rs]), resolve envelopes ([src/snapshot/resolve_wire.rs]),
    leases ([src/snapshot/lease_wire.rs]) and offline grants
    ([src/snapshot/types.rs]). The RFC 3339 parser, the UUID parser and the
    descriptor codec are parameters. *)

From S2P Require Import Prelude Types Text Profile Json.
Import Counters Digests Scope.
Local Open Scope string_scope.
Local Open Scope list_scope.
Local Open Scope Z_scope.

(** ** HTTP errors *)
Module ErrorWire.

Inductive CanonicalSnapshotErrorCode : Type :=
  | C_PathNotFound | C_NotDirectory | C_NotFile | C_SymlinkTraversal | C_Unauthenticated
  | C_ScopeForbidden | C_LeaseExpired | C_SnapshotGone | C_SnapshotNotReady | C_MetadataNotReady
  | C_ObjectUnavailable | C_IntegrityError | C_CursorStale | C_ExpectedDigestMismatch
  | C_MixedSourceBatch | C_UnsupportedEntry | C_UnsupportedCodec | C_ObjectTooLarge
  | C_LimitExceeded | C_ProofBudgetExceeded | C_InvalidRequest | C_RangeNotSupported
  | C_NamespaceConflict | C_PublicationConflict | C_ReleaseImmutable | C_RateLimited
  | C_TemporaryUnavailable | C_Internal.

#[export] Instance canonical_code_eq_dec : EqDecision CanonicalSnapshotErrorCode.
Proof. solve_decision. Defined.

Definition canonical_codes : list (string * CanonicalSnapshotErrorCode) :=
  [ ("PATH_NOT_FOUND", C_PathNotFound); ("NOT_DIRECTORY", C_NotDirectory); ("NOT_FILE", C_NotFile);
    ("SYMLINK_TRAVERSAL", C_SymlinkTraversal); ("UNAUTHENTICATED", C_Unauthenticated);
    ("SCOPE_FORBIDDEN", C_ScopeForbidden); ("LEASE_EXPIRED", C_LeaseExpired);
    ("SNAPSHOT_GONE", C_SnapshotGone); ("SNAPSHOT_NOT_READY", C_SnapshotNotReady);
    ("METADATA_NOT_READY", C_MetadataNotReady); ("OBJECT_UNAVAILABLE", C_ObjectUnavailable);
    ("INTEGRITY_ERROR", C_IntegrityError); ("CURSOR_STALE", C_CursorStale);
    ("EXPECTED_DIGEST_MISMATCH", C_ExpectedDigestMismatch);
    ("MIXED_SOURCE_BATCH", C_MixedSourceBatch); ("UNSUPPORTED_ENTRY", C_UnsupportedEntry);
    ("UNSUPPORTED_CODEC", C_UnsupportedCodec); ("OBJECT_TOO_LARGE", C_ObjectTooLarge);
    ("LIMIT_EXCEEDED", C_LimitExceeded); ("PROOF_BUDGET_EXCEEDED", C_ProofBudgetExceeded);
    ("INVALID_REQUEST", C_InvalidRequest); ("RANGE_NOT_SUPPORTED", C_RangeNotSupported);
    ("NAMESPACE_CONFLICT", C_NamespaceConflict); ("PUBLICATION_CONFLICT", C_PublicationConflict);
    ("RELEASE_IMMUTABLE", C_ReleaseImmutable); ("RATE_LIMITED", C_RateLimited);
    ("TEMPORARY_UNAVAILABLE", C_TemporaryUnavailable); ("INTERNAL", C_Internal) ].

(** [CanonicalSnapshotErrorCode::from_wire]. *)
Definition from_wire (code : string) : option CanonicalSnapshotErrorCode := match_str code canonical_codes.

Definition statuses : list (string * Z) :=
  [ ("PATH_NOT_FOUND", 404);
    ("NOT_DIRECTORY", 409); ("NOT_FILE", 409); ("SYMLINK_TRAVERSAL", 409); ("CURSOR_STALE", 409);
    ("EXPECTED_DIGEST_MISMATCH", 409); ("NAMESPACE_CONFLICT", 409); ("PUBLICATION_CONFLICT", 409);
    ("RELEASE_IMMUTABLE", 409);
    ("UNAUTHENTICATED", 401); ("SCOPE_FORBIDDEN", 403); ("LEASE_EXPIRED", 410); ("SNAPSHOT_GONE", 410);
    ("SNAPSHOT_NOT_READY", 503); ("METADATA_NOT_READY", 503); ("OBJECT_UNAVAILABLE", 503);
    ("TEMPORARY_UNAVAILABLE", 503); ("INTEGRITY_ERROR", 502);
    ("MIXED_SOURCE_BATCH", 422); ("UNSUPPORTED_ENTRY", 422); ("UNSUPPORTED_CODEC", 422);
    ("OBJECT_TOO_LARGE", 413); ("LIMIT_EXCEEDED", 413); ("PROOF_BUDGET_EXCEEDED", 413);
    ("INVALID_REQUEST", 400); ("RANGE_NOT_SUPPORTED", 400); ("RATE_LIMITED", 429);
    ("SCOPE_INVALID", 400); ("CURSOR_INVALID", 400); ("VIEW_NOT_FOUND", 404); ("LEASE_UNKNOWN", 404);
    ("OBJECT_DIGEST_MISMATCH", 409); ("CONFLICT", 409); ("INTERNAL", 500) ].

(** [expected_status]. *)
Definition expected_status (code : string) : option Z := match_str code statuses.

Record CanonicalError : Type := mkError {
  e_code : string; e_message : string; e_request_id : string; e_retryable : bool;
}.

(** [serde_json::from_value::<CanonicalEnvelope>]: both levels are closed. *)
Definition decode_envelope (v : json) : option CanonicalError :=
  match row true ["error"] v with
  | Some [Some d] =>
      match row true ["code"; "message"; "request_id"; "retryable"] d with
      | Some [c; m; r; t] =>
          c ← as_str c; m ← as_str m; r ← as_str r; t ← as_bool t;
          Some {| e_code := c; e_message := m; e_request_id := r; e_retryable := t |}
      | _ => None
      end
  | _ => None
  end.

Definition decode_legacy (d : json) : option (string * string) :=
  match row false ["code"; "message"] d with
  | Some [c; m] => c ← as_str c; m ← as_str m; Some (c, m)
  | _ => None
  end.

(** The bounds both canonical parsers check. *)
Definition envelope_ok (e : CanonicalError) (status : Z) : bool :=
  in_range 1 (chars_count (e_request_id e)) 512 && (chars_count (e_message e) <=? 1024)
    && bool_decide (expected_status (e_code e) = Some status).

(** [error_wire::parse]; [None] is its [Err(())]. *)
Definition parse (v : json) (status : Z) : option SnapshotError :=
  detail ← jget v "error";
  cm ← (if has detail "request_id" || has detail "retryable" then
          e ← decode_envelope v;
          if envelope_ok e status then Some (e_code e, e_message e) else None
        else
          cm ← decode_legacy detail;
          match expected_status (fst cm) with
          | Some expected => if expected =? status then Some cm else None
          | None => Some cm
          end);
  Some {| code := from_server (fst cm); message := snd cm; http_status := status |}.

Record CanonicalSnapshotError : Type := mkCanonicalError {
  ce_code : CanonicalSnapshotErrorCode; ce_message : string; ce_request_id : string;
  ce_retryable : bool; ce_status : Z;
}.

(** [CanonicalSnapshotError::parse_response]; [parse_json] decodes the bytes. *)
Definition parse_response (parse_json : list Z -> option json) (b : list Z) (status : Z)
    : Res CanonicalSnapshotError :=
  let invalid := {| code := IntegrityError;
                    message := "invalid canonical HTTP error envelope or status binding";
                    http_status := status |} in
  reject? MAX_JSON_RESPONSE_BYTES <? zlen b
    with {| code := LimitExceeded;
            message := "canonical HTTP error exceeds the JSON response byte budget";
            http_status := status |} in
  let? e := ok_or (v ← parse_json b; decode_envelope v) invalid in
  reject? negb (envelope_ok e status) with invalid in
  let? c := ok_or (from_wire (e_code e)) invalid in
  Ok {| ce_code := c; ce_message := e_message e; ce_request_id := e_request_id e;
        ce_retryable := e_retryable e; ce_status := status |}.

(** *** Facts *)

Lemma canonical_codes_total : forall c, exists s, (s, c) ∈ canonical_codes.
Proof. intros c. destruct c; eexists; apply list_elem_of_In; simpl; repeat (first [left; reflexivity|right]). Qed.

(** The table of codes with the status each one must carry, checked row by row. *)
Lemma codes_have_statuses :
  forallb (fun sc => match expected_status (fst sc) with Some n => in_range 400 n 599 | None => false end)
    canonical_codes = true.
Proof. reflexivity. Qed.

Lemma codes_distinct : NoDup canonical_codes.*1 /\ NoDup canonical_codes.*2.
Proof. split; apply (bool_decide_unpack _); vm_compute; exact I. Qed.

(** Canonical error codes and HTTP statuses are in closed correspondence:
    every canonical code has exactly one wire spelling, every spelling has an
    expected 4xx or 5xx status, and an error envelope is accepted as canonical
    only with that status, a 1..512 character request id and a message of at
    most 1024 characters. *)
Lemma canonical_error_bound parse_json b status e :
  (forall c s s', from_wire s = Some c -> from_wire s' = Some c -> s = s') /\
  (forall c, exists s n, from_wire s = Some c /\ expected_status s = Some n /\ 400 <= n <= 599) /\
  (parse_response parse_json b status = Ok e ->
     zlen b <= MAX_JSON_RESPONSE_BYTES /\ ce_status e = status /\
     1 <= chars_count (ce_request_id e) <= 512 /\ chars_count (ce_message e) <= 1024 /\
     exists s, from_wire s = Some (ce_code e) /\ expected_status s = Some status).
Proof.
  destruct codes_distinct as [Hn1 Hn2].
  assert (Hin : forall s c, from_wire s = Some c <-> (s, c) ∈ canonical_codes).
  { intros s c. split; [apply match_str_some|]. intros Hc.
    apply list_elem_of_In in Hc. simpl in Hc.
    repeat (destruct Hc as [[= <- <-]|Hc]; [reflexivity|]). done. }
  split_and!.
  - intros c s s' H1%Hin H2%Hin. apply list_elem_of_lookup in H1 as [i Hi], H2 as [j Hj].
    assert (i = j) as <-; [|congruence].
    eapply NoDup_lookup; [exact Hn2| |]; rewrite list_lookup_fmap; [by rewrite Hi|by rewrite Hj].
  - intros c. destruct (canonical_codes_total c) as [s Hs]. exists s.
    pose proof codes_have_statuses as Hall. rewrite forallb_forall in Hall.
    specialize (Hall (s, c) (proj1 (list_elem_of_In _ _) Hs)). simpl in Hall.
    destruct (expected_status s) as [n|]; [|done]. exists n. bools. split_and!; [by apply Hin|done|lia|lia].
  - intros Hp. unfold parse_response in Hp. inv_ok. subst e. simpl. unfold envelope_ok in *. bools. split_all.
    match goal with Hx : bool_decide _ = true |- _ => apply bool_decide_eq_true in Hx end.
    split_and!; try done; eauto.
Qed.

(** The presence of a canonical member selects the canonical error contract
    for good. An HTTP error carrying [request_id] or [retryable] (even null) is
    accepted only as a closed canonical envelope whose code belongs to the
    status received; it is never reinterpreted as a legacy error. *)
Lemma error_contract_selected v status e detail :
  parse v status = Some e -> jget v "error" = Some detail ->
  http_status e = status /\
  ((has detail "request_id" || has detail "retryable") = true ->
     exists env, decode_envelope v = Some env /\ envelope_ok env status = true /\
       code e = from_server (e_code env) /\ message e = e_message env).
Proof.
  unfold parse. intros Hp Hd. rewrite Hd in Hp. simpl in Hp.
  apply bind_Some in Hp as ([c m] & Hcm & [= <-]). split; [done|]. intros Hsel. rewrite Hsel in Hcm.
  apply bind_Some in Hcm as (env & He & Henv). destruct (envelope_ok env status) eqn:Hok; [|done].
  simplify_eq. by exists env.
Qed.
End ErrorWire.

(** ** Serving descriptors *)

(** [mst2_codec::descriptor]: the fixed profile numbers and the snapshot
    identity of a canonical serving descriptor (or the codec's error text). *)
Record ServingDescriptor : Type := mkServing {
  sd_instance_uuid : list Z; sd_namespace_view_id : list Z; sd_scope : string; sd_metadata_root : list Z;
}.

#[export] Instance serving_descriptor_eq_dec : EqDecision ServingDescriptor.
Proof. solve_decision. Defined.

Class DescriptorCodec : Type := {
  SCHEMA_VERSION : Z;
  METADATA_CODEC : Z;
  MATERIALIZATION_POLICY_GIT_RAW_V1 : Z;
  FS_SEMANTICS_LINUX_CODE_V1 : Z;
  ACCESS_PROJECTION_EXACT_FULL : Z;
  serving_snapshot_id : ServingDescriptor -> result string (list Z);
  serving_snapshot_id_bytes : forall s i, serving_snapshot_id s = Ok i -> Forall is_byte i;
}.

(** [uuid::Uuid]: sixteen bytes with their hyphenated text. *)
Class UuidCrate : Type := {
  uuid_parse_str : string -> option (list Z);
  uuid_to_string : list Z -> string;
}.

Definition uuid_is_nil (u : list Z) : bool := forallb (Z.eqb 0) u.

Record Descriptor : Type := mkDescriptor {
  schema_version : Z; metadata_codec : Z; instance_id : string; namespace_view_id : string;
  scope : string; materialization_policy : Z; fs_semantics : Z; access_projection : Z;
  metadata_root : string; snapshot_id : string;
}.

Module Descriptors.

Definition descriptor_fields : list string :=
  ["schema_version"; "metadata_codec"; "instance_id"; "namespace_view_id"; "scope";
   "materialization_policy"; "fs_semantics"; "access_projection"; "metadata_root"; "snapshot_id"].

(** [DescriptorWire] ([deny] set) and [Descriptor] ([deny] unset) as decoded by serde. *)
Definition decode_descriptor (deny : bool) (v : json) : option Descriptor :=
  match row deny descriptor_fields v with
  | Some [sv; mc; iid; nv; sc; mp; fs; ap; mr; sid] =>
      sv ← as_u16 sv; mc ← as_u16 mc; iid ← as_str iid; nv ← as_str nv; sc ← as_str sc;
      mp ← as_u16 mp; fs ← as_u16 fs; ap ← as_u16 ap; mr ← as_str mr; sid ← as_str sid;
      Some (mkDescriptor sv mc iid nv sc mp fs ap mr sid)
  | _ => None
  end.

(** [LegacyDescriptorWire]: snapshot id, descriptor, lease id and lease expiry. *)
Definition decode_wrapper (v : json) : option (string * Descriptor * string * string) :=
  match row true ["snapshot_id"; "descriptor"; "lease_id"; "lease_expires_at"] v with
  | Some [sid; Some d; lid; exp] =>
      sid ← as_str sid; d ← decode_descriptor true d; lid ← as_str lid; exp ← as_str exp;
      Some (sid, d, lid, exp)
  | _ => None
  end.

Definition descriptor_invalid : SnapshotError :=
  SnapshotError_new IntegrityError "invalid descriptor response contract".

Section Validate.
Context `{HexCrate} `{DescriptorCodec} `{UuidCrate}.

(** [auth::validate_descriptor]. *)
Definition validate_descriptor (d : Descriptor) : Res unit :=
  reject? negb (schema_version d =? SCHEMA_VERSION) || negb (metadata_codec d =? METADATA_CODEC)
          || negb (materialization_policy d =? MATERIALIZATION_POLICY_GIT_RAW_V1)
          || negb (fs_semantics d =? FS_SEMANTICS_LINUX_CODE_V1)
          || negb (access_projection d =? ACCESS_PROJECTION_EXACT_FULL)
    with SnapshotError_new IntegrityError "unsupported serving descriptor profile" in
  let? inst := ok_or (uuid_parse_str (instance_id d))
                 (SnapshotError_new IntegrityError "invalid descriptor instance UUID") in
  reject? uuid_is_nil inst || negb (String.eqb (uuid_to_string inst) (instance_id d))
    with SnapshotError_new IntegrityError "instance UUID must be non-nil and canonical" in
  let? view := parse_digest (namespace_view_id d) in
  let? root := parse_digest (metadata_root d) in
  let? snap := map_err (fun e => SnapshotError_new IntegrityError ("invalid serving descriptor: " ++ e)%string)
                 (serving_snapshot_id (mkServing inst view (scope d) root)) in
  reject? negb (String.eqb (snapshot_id d) ("sha256:" ++ hex_encode snap)%string)
    with SnapshotError_new DigestMismatch "snapshot_id does not match canonical descriptor" in
  Ok tt.

(** [descriptor_wire::validate]. *)
Definition validate_descriptor_wire (v : json) (requested : string) : Res Descriptor :=
  let? d :=
    if has v "descriptor" then
      let? w := ok_or (decode_wrapper v) descriptor_invalid in
      let '(sid, d, lid, exp) := w in
      reject? negb (String.eqb sid requested) || String.eqb lid "" || String.eqb exp ""
        with descriptor_invalid in
      Ok d
    else ok_or (decode_descriptor true v) descriptor_invalid in
  reject? negb (String.eqb (snapshot_id d) requested) with descriptor_invalid in
  let? _ := validate_descriptor d in
  Ok d.

(** What an accepted descriptor is: the fixed profile, and the canonical
    serving descriptor whose identity it carries. *)
Definition serves (d : Descriptor) (s : ServingDescriptor) : Prop :=
  uuid_is_nil (sd_instance_uuid s) = false /\
  instance_id d = uuid_to_string (sd_instance_uuid s) /\
  parse_digest (namespace_view_id d) = Ok (sd_namespace_view_id s) /\
  scope d = sd_scope s /\
  parse_digest (metadata_root d) = Ok (sd_metadata_root s) /\
  exists id, serving_snapshot_id s = Ok id /\ snapshot_id d = digest_string id.

Definition fixed_profile (d : Descriptor) : Prop :=
  schema_version d = SCHEMA_VERSION /\ metadata_codec d = METADATA_CODEC /\
  materialization_policy d = MATERIALIZATION_POLICY_GIT_RAW_V1 /\
  fs_semantics d = FS_SEMANTICS_LINUX_CODE_V1 /\ access_projection d = ACCESS_PROJECTION_EXACT_FULL.

Lemma validate_descriptor_ok d :
  validate_descriptor d = Ok tt -> fixed_profile d /\ exists s, serves d s.
Proof.
  unfold validate_descriptor, fixed_profile, serves. intros Hv. inv_ok. bools. split_all. split; [lia|].
  eexists (mkServing _ _ _ _). simpl. rewrite hex_encode_lower in *. split_and!; eauto; done.
Qed.

Lemma serves_agree d e s :
  fixed_profile d -> fixed_profile e -> serves d s -> serves e s -> d = e.
Proof.
  unfold fixed_profile, serves. intros Hd He Hs Ht. destruct d, e, s; simpl in *. split_all. simplify_eq/=.
  f_equal; try congruence; eapply parse_digest_inj; eauto.
Qed.

(** C37: a descriptor is its identity. A descriptor response is accepted only for
    the snapshot requested, with the fixed profile numbers and the canonical
    serving descriptor the identity is computed from; two responses accepted
    for one snapshot carry the same descriptor, unless the codec gives the
    serving descriptors of these two responses, which then differ, one and the
    same identity. *)
Theorem descriptor_identity v w requested d e :
  validate_descriptor_wire v requested = Ok d -> validate_descriptor_wire w requested = Ok e ->
  snapshot_id d = requested /\ fixed_profile d /\ (exists s, serves d s) /\
  (d = e \/ exists s t id, s <> t /\ serves d s /\ serves e t /\
               serving_snapshot_id s = Ok id /\ serving_snapshot_id t = Ok id).
Proof.
  assert (Hone : forall v d, validate_descriptor_wire v requested = Ok d ->
    snapshot_id d = requested /\ validate_descriptor d = Ok tt).
  { clear. intros v d Hv. unfold validate_descriptor_wire in Hv. inv_ok. bools. subst.
    match goal with Hx : unit |- _ => destruct Hx end. done. }
  intros [Hi Hd]%Hone [Hj He]%Hone.
  apply validate_descriptor_ok in Hd as [Hd [s Hs]], He as [He [t Ht]]. split_and!; eauto.
  destruct (decide (s = t)) as [<-|Hst]; [left; by eapply serves_agree|right].
  pose proof Hs as (_ & _ & _ & _ & _ & i & Hi1 & Hi2). pose proof Ht as (_ & _ & _ & _ & _ & j & Hj1 & Hj2).
  assert (i = j) as <-; [|by exists s, t, i].
  apply digest_string_inj; [by eapply serving_snapshot_id_bytes..|congruence].
Qed.
End Validate.
End Descriptors.

(** ** Resolve and offline grants *)

(** [time::OffsetDateTime::parse(_, &Rfc3339)]: the instant a text names. *)
Class Rfc3339 : Type := { rfc3339_parse : string -> option Z }.

Inductive ResolveTarget : Type := Latest | View (view_id : string).
Inductive ResolveDelivery : Type := Full | Lazy.

Record ResolveRequest : Type := mkRequest {
  rq_target : ResolveTarget; rq_scope : string; rq_delivery : ResolveDelivery; rq_lease_seconds : Z;
}.

Record OfflineGrant : Type := mkGrant {
  grant_id : string; grant_snapshot_id : string; actor_domain_id : string;
  expires_at : string; policy : string;
}.

Record ResolveResponse : Type := mkResponse {
  rs_descriptor : Descriptor; rs_lease_id : string; rs_lease_expires_at : string;
  rs_publication_sequence : string; rs_authorization_epoch : string;
  rs_offline_grant : option OfflineGrant;
}.

Module Resolve.
Import Descriptors.

(** [resolve_wire::opaque]. *)
Definition opaque (value : string) : bool := in_range 1 (chars_count value) 512.

(** [OfflineGrant] as decoded by serde: closed. *)
Definition decode_grant (v : json) : option OfflineGrant :=
  match row true ["grant_id"; "snapshot_id"; "actor_domain_id"; "expires_at"; "policy"] v with
  | Some [g; s; a; e; p] =>
      g ← as_str g; s ← as_str s; a ← as_str a; e ← as_str e; p ← as_str p;
      Some (mkGrant g s a e p)
  | _ => None
  end.

(** [ResolveResponse] as decoded by serde: the deployed envelope, open, with
    defaulted members. *)
Definition decode_response (v : json) : option ResolveResponse :=
  match row false ["descriptor"; "lease_id"; "lease_expires_at"; "publication_sequence";
                   "authorization_epoch"; "offline_grant"] v with
  | Some [Some d; lid; exp; seq; ep; g] =>
      d ← decode_descriptor false d; lid ← as_str lid; exp ← default_str exp; seq ← as_str seq;
      ep ← default_str ep;
      g ← (match g with
           | None | Some JNull => Some None
           | Some g => Some <$> decode_grant g
           end);
      Some (mkResponse d lid exp seq ep g)
  | _ => None
  end.

Record CanonicalResolve : Type := mkCanonical {
  cr_descriptor : Descriptor; cr_publication_sequence : string; cr_writer_epoch : string;
  cr_lease_id : string; cr_lease_expires_at : string; cr_authorization_epoch : string;
  cr_resolved_at : string; cr_delivery : string; cr_offline_grant : option OfflineGrant;
}.

(** [CanonicalResolve]: closed; [present_grant] refuses a null grant. *)
Definition decode_canonical (v : json) : option CanonicalResolve :=
  match row true ["descriptor"; "publication_sequence"; "writer_epoch"; "lease_id"; "lease_expires_at";
                  "authorization_epoch"; "resolved_at"; "delivery"; "offline_grant"] v with
  | Some [Some d; seq; we; lid; exp; ep; ra; del; g] =>
      d ← decode_descriptor true d; seq ← as_str seq; we ← as_str we; lid ← as_str lid;
      exp ← as_str exp; ep ← as_str ep; ra ← as_str ra; del ← as_str del;
      g ← (match g with None => Some None | Some g => Some <$> decode_grant g end);
      Some (mkCanonical d seq we lid exp ep ra del g)
  | _ => None
  end.

(** The members whose presence, null included, selects the canonical envelope. *)
Definition selects_canonical (v : json) : bool :=
  existsb (has v) ["writer_epoch"; "resolved_at"; "delivery"; "offline_grant"].

Definition delivery_name (d : ResolveDelivery) : string :=
  match d with Full => "full" | Lazy => "lazy" end.

Definition view_differs (t : ResolveTarget) (d : Descriptor) : bool :=
  match t with View v => negb (String.eqb (namespace_view_id d) v) | Latest => false end.

Section Parse.
Context `{Rfc3339}.

(** [resolve_wire::timestamp]. *)
Definition timestamp (value : string) : Res Z :=
  reject? negb (match as_bytes value !! 10%nat with
                | Some b => (b =? 84) || (b =? 116)
                | None => false
                end) || ends_with "-00:00" value
    with resolve_invalid in
  ok_or (rfc3339_parse value) resolve_invalid.

(** [OfflineGrant::validate_for]. *)
Definition validate_for (g : OfflineGrant) (sid : string) (actor : option string) : Res unit :=
  reject? String.eqb (grant_id g) "" || (512 <? chars_count (grant_id g))
          || String.eqb (actor_domain_id g) "" || (512 <? chars_count (actor_domain_id g))
          || negb (String.eqb (grant_snapshot_id g) sid)
          || (match actor with Some a => negb (String.eqb a (actor_domain_id g)) | None => false end)
          || negb (String.eqb (policy g) "trusted_local_export_v1")
    with SnapshotError_new ScopeForbidden "offline grant is bound to a different snapshot or actor domain" in
  let? _ := map_err (fun _ => SnapshotError_new IntegrityError "offline grant expiry is not RFC3339")
              (timestamp (expires_at g)) in
  Ok tt.

(** [OfflineGrant::expired] at the instant [now]. *)
Definition expired (g : OfflineGrant) (now : Z) : bool :=
  match timestamp (expires_at g) with Ok t => t <=? now | Err _ => true end.

Context `{HexCrate} `{DescriptorCodec} `{UuidCrate}.

(** [resolve_wire::parse_request]. *)
Definition parse_request (v : json) (request : ResolveRequest) (require_canonical : bool)
    : Res ResolveResponse :=
  if negb (selects_canonical v) then
    reject? require_canonical with resolve_invalid in
    ok_or (decode_response v) resolve_invalid
  else
    let? w := ok_or (decode_canonical v) resolve_invalid in
    let d := cr_descriptor w in
    let? _ := map_err (fun _ => resolve_invalid) (validate_descriptor d) in
    reject? negb (String.eqb (scope d) (rq_scope request))
            || negb (String.eqb (cr_delivery w) (delivery_name (rq_delivery request)))
            || view_differs (rq_target request) d || negb (opaque (cr_lease_id w))
      with resolve_invalid in
    let? _ := for_each (fun _ value => counter value) tt
                [cr_publication_sequence w; cr_writer_epoch w; cr_authorization_epoch w] in
    let? resolved := timestamp (cr_resolved_at w) in
    let? expires := timestamp (cr_lease_expires_at w) in
    reject? expires <=? resolved with resolve_invalid in
    let? _ := match cr_offline_grant w with
              | Some g =>
                  reject? negb (opaque (grant_id g)) || negb (opaque (actor_domain_id g))
                          || negb (String.eqb (grant_snapshot_id g) (snapshot_id d))
                          || negb (String.eqb (policy g) "trusted_local_export_v1")
                    with resolve_invalid in
                  let? _ := timestamp (expires_at g) in Ok tt
              | None => Ok tt
              end in
    Ok (mkResponse d (cr_lease_id w) (cr_lease_expires_at w) (cr_publication_sequence w)
          (cr_authorization_epoch w) (cr_offline_grant w)).

Lemma opaque_true s : opaque s = true <-> 1 <= chars_count s <= 512.
Proof. apply in_range_true. Qed.

Lemma opaque_nonempty s : 1 <= chars_count s -> s <> "".
Proof. intros Hs ->. by vm_compute in Hs. Qed.

(** The grant checks of [parse_request] are those of [validate_for] before an
    actor domain is known. *)
Lemma grant_validated g sid t :
  1 <= chars_count (grant_id g) <= 512 -> 1 <= chars_count (actor_domain_id g) <= 512 ->
  grant_snapshot_id g = sid -> policy g = "trusted_local_export_v1" -> timestamp (expires_at g) = Ok t ->
  validate_for g sid None = Ok tt.
Proof.
  intros Hg Ha Hs Hp Ht. unfold validate_for. rewrite Ht. simpl. apply reject_ok. split; [|done].
  bools. split_and!; try done; try lia; apply opaque_nonempty; lia.
Qed.

Definition is_counter (s : string) : Prop := exists n, s = u64_to_string n /\ 0 <= n <= i64_max.

(** The response to a resolve request. *)
Definition answers_request (v : json) (request : ResolveRequest) (r : ResolveResponse) : Prop :=
  scope (rs_descriptor r) = rq_scope request /\
  (forall view, rq_target request = View view -> namespace_view_id (rs_descriptor r) = view) /\
  (fixed_profile (rs_descriptor r) /\ exists s, serves (rs_descriptor r) s) /\
  is_counter (rs_publication_sequence r) /\ is_counter (rs_authorization_epoch r) /\
  1 <= chars_count (rs_lease_id r) <= 512 /\
  (exists w resolved expires, decode_canonical v = Some w /\
     cr_delivery w = delivery_name (rq_delivery request) /\
     timestamp (cr_resolved_at w) = Ok resolved /\ timestamp (rs_lease_expires_at r) = Ok expires /\
     resolved < expires) /\
  (forall g, rs_offline_grant r = Some g -> validate_for g (snapshot_id (rs_descriptor r)) None = Ok tt).

(** A canonical resolve answers the request that was made. When the
    canonical envelope is selected or required, an accepted response has the
    scope requested, the view requested when one was named, a descriptor whose
    identity was recomputed, canonical counters, an opaque lease that expires
    after the resolution instant, and at most a grant bound to that snapshot. *)
Lemma resolve_bound v request require_canonical r :
  parse_request v request require_canonical = Ok r ->
  selects_canonical v = true \/ require_canonical = true -> answers_request v request r.
Proof.
  unfold answers_request, parse_request. destruct (selects_canonical v) eqn:Hc; simpl.
  2:{ intros Hp [?| ->]; [done|]. inv_ok. }
  intros Hp _. apply rbind_ok in Hp as (w & Hw & Hp).
  apply rbind_ok in Hp as ([] & Hd%map_err_ok & Hp). apply reject_ok in Hp as [Hg Hp].
  apply rbind_ok in Hp as ([] & Hcnt & Hp). apply rbind_ok in Hp as (ra & Hra & Hp).
  apply rbind_ok in Hp as (ex & Hex & Hp). apply reject_ok in Hp as [Hlt Hp].
  apply rbind_ok in Hp as ([] & Hgr & Hp). injection Hp as <-. simpl.
  inv_ok. simpl in Hcnt. inv_ok. bools. split_all. rewrite opaque_true in *.
  repeat match goal with x : unit |- _ => destruct x end.
  split_and!; try done; try lia.
  - intros view Hv. unfold view_differs in *. rewrite Hv in *. by bools.
  - by apply validate_descriptor_ok in Hd as [? _].
  - by apply validate_descriptor_ok in Hd as [_ ?].
  - by apply counter_ok.
  - by apply counter_ok.
  - exists w, ra, ex. split_and!; try done; lia.
  - intros g Hg'. rewrite Hg' in Hgr. inv_ok. bools. split_all. rewrite opaque_true in *.
    eapply grant_validated; eauto.
Qed.
End Parse.
End Resolve.

(** ** Leases *)
Module Lease.
Import Resolve.

Definition lease_invalid : SnapshotError :=
  SnapshotError_new IntegrityError "lease renewal violates its selected contract or requested lease".

Record CanonicalLease : Type := mkLease {
  cl_lease_id : string; cl_snapshot_id : string; cl_lease_expires_at : string; cl_authorization_epoch : string;
}.

Definition decode_lease (v : json) : option CanonicalLease :=
  match row true ["lease_id"; "snapshot_id"; "lease_expires_at"; "authorization_epoch"] v with
  | Some [l; s; e; a] =>
      l ← as_str l; s ← as_str s; e ← as_str e; a ← as_str a; Some (mkLease l s e a)
  | _ => None
  end.

(** [LegacyLease]: lease id, snapshot id and expiry, extensions allowed. *)
Definition decode_legacy_lease (v : json) : option (string * string * string) :=
  match row false ["lease_id"; "snapshot_id"; "lease_expires_at"] v with
  | Some [l; s; e] => l ← as_str l; s ← as_str s; e ← as_str e; Some (l, s, e)
  | _ => None
  end.

(** [url::Url], as [lease_wire::url] and the cache domain use it. *)
Class UrlCrate : Type := {
  Url : Type;
  url_parse : string -> option Url;
  url_scheme : Url -> string;
  url_host_str : Url -> option string;
  url_username : Url -> string;
  url_password : Url -> option string;
  url_query : Url -> option string;
  url_fragment : Url -> option string;
  url_cannot_be_a_base : Url -> bool;
  url_path : Url -> string;
  url_set_path : Url -> string -> Url;
  url_as_str : Url -> string;
}.

Definition is_some {A} (o : option A) : bool := match o with Some _ => true | None => false end.

Section Url.
Context `{UrlCrate}.

(** [lease_wire::url]. *)
Definition lease_url (base lease_id : string) (renew : bool) : Res string :=
  reject? negb (opaque lease_id) || one_of lease_id ["."; ".."]
    with SnapshotError_new InvalidRequest
           "lease identity cannot be represented as an opaque URL path segment" in
  let? u := ok_or (url_parse (base ++ "/api/v2/snapshots/leases")%string)
              (SnapshotError_new InvalidRequest "invalid lease base URL") in
  reject? url_cannot_be_a_base u || is_some (url_query u) || is_some (url_fragment u)
    with SnapshotError_new InvalidRequest "invalid lease base URL" in
  Ok (url_as_str (url_set_path u
        (url_path u ++ "/" ++ Percent.lease_segment lease_id ++ (if renew then "/renew" else ""))%string)).
End Url.

Section Validate.
Context `{HexCrate} `{Rfc3339}.

(** [lease_wire::validate]. *)
Definition validate_lease (v : json) (lease_id : string) : Res unit :=
  let inv {A} (c : Res A) := map_err (fun _ => lease_invalid) c in
  if has v "authorization_epoch" then
    let? w := ok_or (decode_lease v) lease_invalid in
    reject? negb (String.eqb (cl_lease_id w) lease_id) || negb (opaque (cl_lease_id w)) with lease_invalid in
    let? _ := inv (parse_digest (cl_snapshot_id w)) in
    let? _ := inv (counter (cl_authorization_epoch w)) in
    let? _ := inv (timestamp (cl_lease_expires_at w)) in
    Ok tt
  else
    let? w := ok_or (decode_legacy_lease v) lease_invalid in
    let '(l, s, e) := w in
    reject? negb (String.eqb l lease_id) with lease_invalid in
    let? _ := inv (parse_digest s) in
    let? _ := inv (timestamp e) in
    Ok tt.

(** A lease renewal response is accepted exactly when it names the lease
    renewed, a well-formed snapshot digest and an RFC 3339 expiry with a known
    offset; one that carries an [authorization_epoch] member, even null, only
    under the closed canonical contract, with an opaque id and a canonical
    counter. *)
Lemma lease_renewal_bound v lease_id :
  validate_lease v lease_id = Ok tt <->
  if has v "authorization_epoch" then
    exists w digest t, decode_lease v = Some w /\ cl_lease_id w = lease_id /\
      1 <= chars_count lease_id <= 512 /\ parse_digest (cl_snapshot_id w) = Ok digest /\
      is_counter (cl_authorization_epoch w) /\ timestamp (cl_lease_expires_at w) = Ok t
  else
    exists sid exp digest t, decode_legacy_lease v = Some (lease_id, sid, exp) /\
      parse_digest sid = Ok digest /\ timestamp exp = Ok t.
Proof.
  unfold validate_lease. destruct (has v "authorization_epoch"); split.
  - intros Hv. inv_ok. bools. split_all. rewrite opaque_true in *. subst.
    repeat match goal with x : unit |- _ => destruct x end.
    eexists _, _, _. split_and!; eauto; try lia. by apply counter_ok.
  - intros (w & d & t & -> & <- & Hl & Hd & Hc%counter_ok & Ht). simpl.
    rewrite Hd, Hc, Ht, String.eqb_refl, (proj2 (opaque_true _) Hl). done.
  - intros Hv. apply rbind_ok in Hv as ([[l s] e] & Hw & Hv). inv_ok. bools. subst. eauto 10.
  - intros (s & e & d & t & -> & Hd & Ht). simpl. by rewrite Hd, Ht, String.eqb_refl.
Qed.
End Validate.
End Lease.
