(* ===== verification/Authority.v ===== *)
(** * Authority

    [src/snapshot/auth.rs]: the immutable read authority captured by resolve,
    the cache partition derived from it ([hash_fields], [scope_cache_dir],
    [view_cache_dir]) and the record that binds a cache directory to one
    authority ([bind_directory], [validate_retention_scope]). SHA-256, the
    [hex], [url] and [uuid] crates and the descriptor codec are parameters. *)

From S2P Require Import Prelude Types Text Profile Json Wire.
Import Counters Digests Scope Descriptors Lease.
Local Open Scope string_scope.
Local Open Scope list_scope.
Local Open Scope Z_scope.

(** ** Big-endian integers *)
Fixpoint be_bytes (w : nat) (n : Z) : list Z :=
  match w with
  | O => []
  | S w => (n / 256 ^ Z.of_nat w) mod 256 :: be_bytes w n
  end.

Lemma be_bytes_length w n : length (be_bytes w n) = w.
Proof. induction w as [|w IH]; simpl; congruence. Qed.

Lemma be_bytes_mod w n m : be_bytes w n = be_bytes w m -> n mod 256 ^ Z.of_nat w = m mod 256 ^ Z.of_nat w.
Proof.
  induction w as [|w IH]; simpl; intros Hb; [by rewrite !Z.mod_1_r|].
  injection Hb as Hh Ht%IH. rewrite Nat2Z.inj_succ, Z.pow_succ_r, (Z.mul_comm 256) by lia.
  assert (0 < 256 ^ Z.of_nat w) by (apply Z.pow_pos_nonneg; lia).
  rewrite !Z.rem_mul_r by lia. congruence.
Qed.

Lemma be_bytes_inj w n m :
  0 <= n < 256 ^ Z.of_nat w -> 0 <= m < 256 ^ Z.of_nat w -> be_bytes w n = be_bytes w m -> n = m.
Proof. intros Hn Hm Hb%be_bytes_mod. by rewrite !Z.mod_small in Hb. Qed.

(** ** Length-prefixed hashing *)
Module Fields.

(** What [hash_fields] feeds to the digest. *)
Definition preimage (domain : list Z) (fields : list (list Z)) : list Z :=
  domain ++ concat ((fun f => be_bytes 8 (zlen f) ++ f) <$> fields).

Definition fits (f : list Z) : Prop := zlen f <= u64_max.

Lemma preimage_inj domain fs gs :
  Forall fits fs -> Forall fits gs -> length fs = length gs ->
  preimage domain fs = preimage domain gs -> fs = gs.
Proof.
  unfold preimage. intros Hf Hg Hlen He%app_inv_head. revert gs Hg Hlen He.
  induction Hf as [|f fs Hf1 Hfs IH]; intros gs Hg Hlen He; destruct Hg as [|g gs Hg1 Hgs]; try done.
  rewrite !fmap_cons in He. cbn [concat] in He. rewrite <- !app_assoc in He.
  apply app_inj_1 in He as [Hl He]; [|by rewrite !be_bytes_length].
  apply be_bytes_inj in Hl; [|unfold fits, u64_max, zlen in *; change (256 ^ Z.of_nat 8) with (2 ^ 64); lia..].
  apply app_inj_1 in He as [-> He]; [|unfold zlen in Hl; lia]. f_equal. apply IH; [done|by injection Hlen|done].
Qed.

Section Hash.
Context `{Sha256} `{HexCrate}.

(** [auth::hash_fields]. *)
Definition hash_fields (domain : list Z) (fields : list (list Z)) : string :=
  hex_encode (sha256 (preimage domain fields)).

Lemma hash_fields_inj domain fs gs :
  Forall fits fs -> Forall fits gs -> length fs = length gs ->
  hash_fields domain fs = hash_fields domain gs -> fs = gs \/ collide (preimage domain fs) (preimage domain gs).
Proof using All.
  intros Hf Hg Hl He. unfold hash_fields in He. rewrite !hex_encode_lower in He.
  apply hex32_inj in He; [|apply sha256_bytes..].
  destruct (decide (preimage domain fs = preimage domain gs)) as [Hp|Hp].
  - left. by eapply preimage_inj.
  - right. by split.
Qed.

Lemma hash_fields_shape domain fs :
  str_len (hash_fields domain fs) = 64 /\ forallb is_lower_hex (as_bytes (hash_fields domain fs)) = true.
Proof using All.
  unfold hash_fields. rewrite hex_encode_lower, str_len_as_bytes, as_bytes_hex32 by apply sha256_bytes.
  rewrite length_hex_bytes, sha256_length. split; [done|].
  apply forallb_Forall, hex_bytes_lower, sha256_bytes.
Qed.
End Hash.
End Fields.

(** ** The authorized snapshot context *)

Record CacheBinding : Type := mkBinding {
  cb_revision : Z; cb_domain : string; cb_scope : string; cb_snapshot_id : option string;
}.

#[export] Instance cache_binding_eq_dec : EqDecision CacheBinding.
Proof. solve_decision. Defined.

Record AuthorizedSnapshotContext : Type := mkContext {
  ctx_descriptor : Descriptor; authorization_epoch : Z; publication_sequence : Z; domain : string;
}.

(** [str::trim_end_matches('/')]. *)
Definition trim_end_slash (s : string) : string := rev_string (trim_start_slash (rev_string s)).

Module Context.
Import Fields.

(** The byte strings [b"mega.scorpio.cache-domain.v1\0"] and [b"mega.scorpio.scope.v1\0"]. *)
Definition DOMAIN_TAG : list Z := as_bytes "mega.scorpio.cache-domain.v1" ++ [0].
Definition SCOPE_TAG : list Z := as_bytes "mega.scorpio.scope.v1" ++ [0].

Section Context.
Context `{Sha256} `{HexCrate} `{DescriptorCodec} `{UuidCrate} `{UrlCrate} `{CodecScope}.

(** The deployment URL as [AuthorizedSnapshotContext::new] normalizes it. *)
Definition deployment_url (deployment : string) : Res string :=
  let? u := ok_or (url_parse deployment) (SnapshotError_new ScopeInvalid "invalid deployment URL") in
  reject? negb (one_of (url_scheme u) ["http"; "https"]) || negb (is_some (url_host_str u))
          || negb (is_empty (url_username u)) || is_some (url_password u)
          || is_some (url_query u) || is_some (url_fragment u)
    with SnapshotError_new ScopeInvalid
           "deployment URL must be HTTP(S) without credentials, query or fragment" in
  Ok (url_as_str (url_set_path u (trim_end_slash (url_path u)))).

(** The fields of the cache domain, in order. *)
Definition domain_fields (url credential : string) (epoch : Z) (d : Descriptor) : list (list Z) :=
  [ as_bytes url; as_bytes (instance_id d); as_bytes credential; be_bytes 8 epoch;
    be_bytes 2 (schema_version d); be_bytes 2 (metadata_codec d); be_bytes 2 (materialization_policy d);
    be_bytes 2 (fs_semantics d); be_bytes 2 (access_projection d) ].

(** [AuthorizedSnapshotContext::new]. *)
Definition new (deployment credential_partition requested_scope : string) (d : Descriptor)
    (epoch sequence : string) : Res AuthorizedSnapshotContext :=
  let? _ := validate_scope requested_scope in
  let? _ := validate_scope (scope d) in
  reject? negb (String.eqb (scope d) requested_scope)
    with SnapshotError_new ScopeForbidden "resolve returned a different scope" in
  let? _ := validate_descriptor d in
  let? epoch := decimal epoch "authorization_epoch" in
  let? sequence := decimal sequence "publication_sequence" in
  let? url := deployment_url deployment in
  Ok {| ctx_descriptor := d; authorization_epoch := epoch; publication_sequence := sequence;
        domain := hash_fields DOMAIN_TAG (domain_fields url credential_partition epoch d) |}.

(** [scope_cache_dir] and [view_cache_dir]; a path is the list of its components. *)
Definition scope_cache_dir (c : AuthorizedSnapshotContext) (root : list string) : list string :=
  root ++ ["snapshots"; domain c; hash_fields SCOPE_TAG [as_bytes (scope (ctx_descriptor c))]].

Definition view_cache_dir (c : AuthorizedSnapshotContext) (root : list string) : Res (list string) :=
  let? digest := parse_digest (snapshot_id (ctx_descriptor c)) in
  Ok (scope_cache_dir c root ++ [hex_encode digest]).

(** [bind_scope_cache] and [bind_view_cache] write these records. *)
Definition scope_binding (c : AuthorizedSnapshotContext) : CacheBinding :=
  mkBinding 1 (domain c) (scope (ctx_descriptor c)) None.
Definition view_binding (c : AuthorizedSnapshotContext) : CacheBinding :=
  mkBinding 1 (domain c) (scope (ctx_descriptor c)) (Some (snapshot_id (ctx_descriptor c))).

(** What a successful [new] has checked and captured. *)
Lemma new_ok deployment cred rs d ep sq c :
  new deployment cred rs d ep sq = Ok c ->
  exists url, deployment_url deployment = Ok url /\
    ctx_descriptor c = d /\ scope d = rs /\ validate_scope rs = Ok tt /\ validate_descriptor d = Ok tt /\
    decimal ep "authorization_epoch" = Ok (authorization_epoch c) /\
    decimal sq "publication_sequence" = Ok (publication_sequence c) /\
    domain c = hash_fields DOMAIN_TAG (domain_fields url cred (authorization_epoch c) d).
Proof.
  unfold new. intros Hn. inv_ok. bools. subst. simpl.
  repeat match goal with u : unit |- _ => destruct u end. eauto 10.
Qed.

Definition addressable (s : string) : Prop := str_len s <= u64_max.

Lemma addressable_fits s : addressable s -> fits (as_bytes s).
Proof. unfold addressable, fits, zlen. by rewrite str_len_as_bytes. Qed.

Lemma domain_fields_fit url cred ep d :
  addressable url -> addressable cred -> addressable (instance_id d) ->
  Forall fits (domain_fields url cred ep d).
Proof.
  intros. unfold domain_fields. repeat constructor; auto using addressable_fits;
    unfold fits, zlen; rewrite be_bytes_length; done.
Qed.

Lemma domain_fields_inj url url' cred cred' ep ep' d d' :
  0 <= ep <= i64_max -> 0 <= ep' <= i64_max ->
  domain_fields url cred ep d = domain_fields url' cred' ep' d' ->
  url = url' /\ cred = cred' /\ ep = ep' /\ instance_id d = instance_id d'.
Proof.
  intros He He' Hd. apply (f_equal (take 4)) in Hd. cbn [domain_fields take] in Hd.
  assert (E4 : be_bytes 8 ep = be_bytes 8 ep') by (apply (f_equal (fun l => nth 3 l [])) in Hd; exact Hd).
  apply (f_equal (take 3)) in Hd. cbn [take] in Hd. injection Hd as E1 E2 E3.
  split_and!; [by apply (inj as_bytes)..| |by apply (inj as_bytes)].
  apply be_bytes_inj with 8%nat; [change (256 ^ Z.of_nat 8) with (2 ^ 64); unfold i64_max in *; lia..|done].
Qed.

(** What is hashed for a scope and for a domain. *)
Definition scope_preimage (d : Descriptor) : list Z := preimage SCOPE_TAG [as_bytes (scope d)].
Definition domain_preimage (url credential : string) (epoch : Z) (d : Descriptor) : list Z :=
  preimage DOMAIN_TAG (domain_fields url credential epoch d).

Lemma scope_cache_dir_inj c c' root :
  addressable (scope (ctx_descriptor c)) -> addressable (scope (ctx_descriptor c')) ->
  scope_cache_dir c root = scope_cache_dir c' root ->
  domain c = domain c' /\ (scope (ctx_descriptor c) = scope (ctx_descriptor c') \/
    collide (scope_preimage (ctx_descriptor c)) (scope_preimage (ctx_descriptor c'))).
Proof using All.
  unfold scope_cache_dir. intros Hs Hs' [= Hd Hh]%app_inv_head. split; [done|].
  apply hash_fields_inj in Hh as [Hh|]; [left|by right|repeat constructor; by apply addressable_fits..|done].
  injection Hh as Hh. by apply (inj as_bytes).
Qed.

(** C20: cache directories partition by authority. Two contexts that reach the
    same view directory under one root have the same normalized deployment,
    credential partition, instance, authorization epoch, scope and snapshot,
    unless the two domains or the two scopes are hashed from byte strings that
    collide: the length-prefixed fields are injective, and no lossy substitution
    of paths is involved. *)
Theorem cache_partition root path deployment deployment' cred cred' rs rs' d d' ep ep' sq sq' c c' url url' :
  new deployment cred rs d ep sq = Ok c -> new deployment' cred' rs' d' ep' sq' = Ok c' ->
  deployment_url deployment = Ok url -> deployment_url deployment' = Ok url' ->
  Forall addressable [url; url'; cred; cred'; instance_id d; instance_id d'] ->
  view_cache_dir c root = Ok path -> view_cache_dir c' root = Ok path ->
  collide (scope_preimage d) (scope_preimage d') \/
  collide (domain_preimage url cred (authorization_epoch c) d) (domain_preimage url' cred' (authorization_epoch c') d') \/
  (url = url' /\ cred = cred' /\ instance_id d = instance_id d' /\
   authorization_epoch c = authorization_epoch c' /\ scope d = scope d' /\ snapshot_id d = snapshot_id d').
Proof using All.
  intros (u & Hu & <- & <- & Hs & _ & Hep & _ & Hdom)%new_ok
         (u' & Hu' & <- & <- & Hs' & _ & Hep' & _ & Hdom')%new_ok Hu1 Hu2 Hall Hp Hp'.
  assert (u = url) as -> by congruence. assert (u' = url') as -> by congruence.
  rewrite !Forall_cons_iff in Hall. destruct Hall as (A1 & A2 & A3 & A4 & A5 & A6 & _).
  apply decimal_ok in Hep as [_ Hep], Hep' as [_ Hep'].
  apply validate_scope_ok in Hs as [Hs _], Hs' as [Hs' _].
  unfold view_cache_dir in *. inv_ok. subst.
  match goal with Hx : _ ++ _ = _ ++ _ |- _ => apply app_inj_tail in Hx as [Hdir Hhex] end.
  symmetry in Hdir. apply scope_cache_dir_inj in Hdir as [Hd [Hsc|Hcol]]; [|left; exact Hcol|unfold addressable, u64_max; lia..].
  rewrite Hdom, Hdom' in Hd.
  apply hash_fields_inj in Hd as [Hd|Hcol]; [|right; left; exact Hcol|by apply domain_fields_fit..|done].
  apply domain_fields_inj in Hd as (-> & -> & -> & Hi); [do 2 right|done..]. split_and!; try done.
  rewrite !hex_encode_lower in Hhex.
  repeat match goal with Hx : parse_digest _ = Ok _ |- _ => apply parse_digest_ok in Hx as (? & ? & ?) end.
  unfold digest_string in *. congruence.
Qed.
End Context.
End Context.

(** ** Binding a cache directory to one authority *)

(** [serde_json] on [CacheBinding]: a record written is read back as itself. *)
Class BindingJson : Type := {
  to_vec : CacheBinding -> result string (list Z);
  from_slice : list Z -> option CacheBinding;
  from_to_vec : forall b x, to_vec b = Ok x -> from_slice x = Some b;
}.

Module Binding.
Import Fields Context.

Definition AUTHORITY_FILE : string := "authority.json".
Definition AUTHORITY_LOCK : string := "authority.lock".
Definition AUTHORITY_TMP : string := "authority.json.tmp".

(** A directory entry: a directory is known with whether it has entries. *)
Inductive Node : Type := NFile | NDir (populated : bool).

(** A cache directory: the bytes of [authority.json], and the other entries. *)
Record CacheDir : Type := mkDir {
  authority : option (list Z);
  entries : gmap string Node;
}.

Definition set_entries (e : gmap string Node) (d : CacheDir) : CacheDir :=
  {| authority := authority d; entries := e |}.

(** The fallible file-system calls of [bind_directory], in program order. *)
Inductive IoStep : Type :=
  | CreateDirAll | OpenLock | TakeLock | ReadAuthority | ReadDir
  | OpenTemp | WriteTemp | SyncTemp | Rename | SyncDir.

(** One run's environment: the scope fence, the failure of each call, and the
    capacity admission with the temporary name it owns and whether dropping it
    could remove that file. *)
Record Env : Type := mkEnv {
  io_guard : Res unit;
  fails : IoStep -> option string;
  admission : Res (option string);
  cleanup : bool;
}.

Definition io (env : Env) (s : IoStep) : Res unit :=
  match fails env s with Some m => Err (SnapshotError_new Internal m) | None => Ok tt end.

Definition legacy_refused : SnapshotError :=
  SnapshotError_new ScopeForbidden "populated legacy cache has no authority record".

(** An entry the scan skips: the lock, the temporary, or an empty directory. *)
Definition ignorable (name : string) (n : Node) : bool :=
  one_of name [AUTHORITY_LOCK; AUTHORITY_TMP] || match n with NDir populated => negb populated | NFile => false end.

Definition unbound (d : CacheDir) : bool :=
  forallb (fun kv => ignorable (fst kv) (snd kv)) (map_to_list (entries d)).

(** [open_rw_create] leaves an existing lock file alone. *)
Definition create_lock (d : CacheDir) : CacheDir :=
  match entries d !! AUTHORITY_LOCK with
  | Some _ => d
  | None => set_entries (<[AUTHORITY_LOCK := NFile]> (entries d)) d
  end.

Section Bind.
Context `{BindingJson}.

(** The writing half: serialize, admit, write a temporary, rename, sync. *)
Definition write_authority (env : Env) (d : CacheDir) (b : CacheBinding) : CacheDir * Res unit :=
  match to_vec b with
  | Err m => (d, Err (SnapshotError_new Internal m))
  | Ok bytes =>
      match admission env with
      | Err e => (d, Err e)
      | Ok temp =>
          let name := default AUTHORITY_TMP temp in
          match io env OpenTemp with
          | Err e => (d, Err e)
          | Ok _ =>
              let d1 := set_entries (<[name := NFile]> (entries d)) d in
              (** dropping the admission removes its temporary *)
              let dropped := if cleanup env && is_some temp
                             then set_entries (delete name (entries d1)) d1 else d1 in
              match io env WriteTemp, io env SyncTemp, io env Rename with
              | Ok _, Ok _, Ok _ =>
                  let d2 := {| authority := Some bytes; entries := delete name (entries d1) |} in
                  (d2, io env SyncDir)
              | Err e, _, _ | Ok _, Err e, _ | Ok _, Ok _, Err e => (dropped, Err e)
              end
          end
      end
  end.

(** [auth::bind_directory]. *)
Definition bind_directory (env : Env) (d : CacheDir) (b : CacheBinding) : CacheDir * Res unit :=
  match rbind (io_guard env) (fun _ => rbind (io env CreateDirAll) (fun _ => io env OpenLock)) with
  | Err e => (d, Err e)
  | Ok _ =>
      let d := create_lock d in
      match rbind (io env TakeLock) (fun _ => io env ReadAuthority) with
      | Err e => (d, Err e)
      | Ok _ =>
          match authority d with
          | Some bytes =>
              (d, match from_slice bytes with
                  | None => Err (SnapshotError_new ScopeForbidden "cache authority record is malformed")
                  | Some stored =>
                      if decide (stored = b) then Ok tt
                      else Err (SnapshotError_new ScopeForbidden
                                  "cache belongs to a different authority, scope or snapshot")
                  end)
          | None =>
              match io env ReadDir with
              | Err e => (d, Err e)
              | Ok _ => if unbound d then write_authority env d b else (d, Err legacy_refused)
              end
          end
      end
  end.

(** A history of bindings of one directory: which ones succeeded. *)
Fixpoint bind_all (d : CacheDir) (runs : list (Env * CacheBinding)) : CacheDir * list CacheBinding :=
  match runs with
  | [] => (d, [])
  | (env, b) :: runs =>
      let '(d1, r) := bind_directory env d b in
      let '(d2, bound) := bind_all d1 runs in
      (d2, match r with Ok _ => b :: bound | Err _ => bound end)
  end.

Lemma create_lock_authority d : authority (create_lock d) = authority d.
Proof. unfold create_lock. by destruct (_ !! _). Qed.

(** A bound directory keeps its record, and accepts only that authority. *)
Lemma bind_bound env d b x d' r :
  authority d = Some x -> bind_directory env d b = (d', r) ->
  authority d' = Some x /\ (r = Ok tt -> from_slice x = Some b).
Proof.
  intros Hx. unfold bind_directory. destruct (rbind (io_guard env) _) as [[]|e]; [|intros [= <- <-]; done].
  destruct (rbind (io env TakeLock) _) as [[]|e].
  2:{ intros [= <- <-]. by rewrite create_lock_authority. }
  rewrite create_lock_authority, Hx. intros [= <- <-]. rewrite create_lock_authority. split; [done|].
  destruct (from_slice x) as [s|]; [|done]. by destruct (decide _) as [->|].
Qed.

(** Binding an unbound directory leaves it unbound or holding the record
    asked for; success means the latter. *)
Lemma bind_unbound env d b d' r :
  authority d = None -> bind_directory env d b = (d', r) ->
  (authority d' = None /\ r <> Ok tt) \/ exists x, authority d' = Some x /\ from_slice x = Some b.
Proof.
  intros Hx. unfold bind_directory. destruct (rbind (io_guard env) _) as [[]|e]; [|intros [= <- <-]; by left].
  destruct (rbind (io env TakeLock) _) as [[]|e]; rewrite ?create_lock_authority, ?Hx.
  2:{ intros [= <- <-]. left. by rewrite create_lock_authority. }
  destruct (io env ReadDir) as [[]|e].
  2:{ intros [= <- <-]. left. by rewrite create_lock_authority. }
  destruct (unbound _); [|intros [= <- <-]; left; by rewrite create_lock_authority].
  unfold write_authority. destruct (to_vec b) as [x|m] eqn:Hv.
  2:{ intros [= <- <-]. left. by rewrite create_lock_authority. }
  destruct (admission env) as [temp|e]; [|intros [= <- <-]; left; by rewrite create_lock_authority].
  destruct (io env OpenTemp) as [[]|e]; [|intros [= <- <-]; left; by rewrite create_lock_authority].
  destruct (io env WriteTemp) as [[]|e], (io env SyncTemp) as [[]|e'], (io env Rename) as [[]|e''];
    intros [= <- <-]; [right; exists x; split; [done|by apply from_to_vec]|left..];
    (destruct (cleanup env && _); simpl; by rewrite create_lock_authority).
Qed.

Lemma bind_owner env d b d' r x c :
  bind_directory env d b = (d', r) -> authority d = Some x -> from_slice x = Some c ->
  authority d' = Some x /\ (r = Ok tt -> b = c).
Proof. intros Hb Hx Hc. destruct (bind_bound _ _ _ _ _ _ Hx Hb) as [? Hr]. split; [done|]. naive_solver. Qed.

Lemma bind_all_owned d runs x c :
  authority d = Some x -> from_slice x = Some c ->
  authority (fst (bind_all d runs)) = Some x /\ Forall (eq c) (snd (bind_all d runs)).
Proof.
  revert d. induction runs as [|[env b] runs IH]; intros d Hx Hc; simpl; [done|].
  destruct (bind_directory env d b) as [d1 r] eqn:Hb.
  destruct (bind_owner _ _ _ _ _ _ _ Hb Hx Hc) as [Hx1 Hr].
  destruct (IH d1 Hx1 Hc) as [HA HF]. destruct (bind_all d1 runs) as [d2 bound]. simpl in *. split; [done|].
  destruct r as [[]|e]; [|done]. constructor; [by rewrite Hr|done].
Qed.

Lemma bind_all_bound d runs b :
  b ∈ snd (bind_all d runs) ->
  exists x, authority (fst (bind_all d runs)) = Some x /\ from_slice x = Some b /\
    Forall (eq b) (snd (bind_all d runs)).
Proof.
  revert d. induction runs as [|[env b1] runs IH]; intros d; simpl; [by intros ?%elem_of_nil|].
  destruct (bind_directory env d b1) as [d1 r] eqn:Hb.
  specialize (IH d1). pose proof (bind_all_owned d1 runs) as Hown.
  destruct (bind_all d1 runs) as [d2 bound]. simpl in *.
  destruct r as [[]|e]; [|done]. intros Hin.
  assert (exists x, authority d1 = Some x /\ from_slice x = Some b1) as (x & Hx & Hc).
  { destruct (authority d) as [x|] eqn:Hx.
    - destruct (bind_bound _ _ _ _ _ _ Hx Hb) as [? ?]; eauto.
    - destruct (bind_unbound _ _ _ _ _ Hx Hb) as [[_ []]|]; done. }
  destruct (Hown x b1 Hx Hc) as [HA HF]. exists x. rewrite HA.
  assert (b = b1) as ->; [|by auto].
  apply elem_of_cons in Hin as [->|Hin]; [done|]. rewrite Forall_forall in HF. symmetry. by apply HF, list_elem_of_In.
Qed.

(** C21: a cache directory belongs to one authority for good. Over any history
    of binding attempts, with any file-system failure at any call of any
    attempt, every attempt that succeeded asked for the same binding (same
    domain, scope and snapshot), and that is the record the directory ends
    with. *)
Theorem binding_first_wins d runs b b' :
  b ∈ snd (bind_all d runs) -> b' ∈ snd (bind_all d runs) ->
  b = b' /\ exists x, authority (fst (bind_all d runs)) = Some x /\ from_slice x = Some b.
Proof.
  intros (x & Hx & Hb & HF)%bind_all_bound Hb'. rewrite Forall_forall in HF.
  split; [|eauto]. by apply HF, list_elem_of_In.
Qed.

Definition retention_invalid : SnapshotError :=
  SnapshotError_new IntegrityError "managed scope authority or location differs".

(** [auth::retention_binding]; [readable] is whether the file could be read. *)
Definition retention_binding (readable : bool) (d : CacheDir) : Res CacheBinding :=
  let? bytes := ok_or (if readable then authority d else None) retention_invalid in
  reject? 16 * 1024 <? zlen bytes with retention_invalid in
  ok_or (from_slice bytes) retention_invalid.

Context `{Sha256} `{HexCrate} `{CodecScope}.

(** [auth::validate_retention_scope] of the directory at [path]. *)
Definition validate_retention_scope (path : list string) (readable : bool) (d : CacheDir) : Res unit :=
  let? b := retention_binding readable d in
  let? _ := validate_scope (cb_scope b) in
  let scope_id := hash_fields SCOPE_TAG [as_bytes (cb_scope b)] in
  reject? negb (cb_revision b =? 1) || is_some (cb_snapshot_id b) || negb (str_len (cb_domain b) =? 64)
          || negb (forallb is_lower_hex (as_bytes (cb_domain b)))
          || negb (bool_decide (list.last path = Some scope_id))
          || negb (bool_decide (list.last (removelast path) = Some (cb_domain b)))
    with retention_invalid in
  Ok tt.

Context `{DescriptorCodec} `{UuidCrate} `{UrlCrate}.

Lemma last_two {A} (l : list A) a b y :
  list.last (l ++ [a; b; y]) = Some y /\ list.last (removelast (l ++ [a; b; y])) = Some b.
Proof.
  change [a; b; y] with ([a; b] ++ [y]). rewrite app_assoc, last_snoc, removelast_last. split; [done|].
  change [a; b] with ([a] ++ [b]). by rewrite app_assoc, last_snoc.
Qed.

(** What a context binds, retention accepts. A scope directory placed where
    [scope_cache_dir] puts it and successfully bound by its context passes
    [validate_retention_scope] (its record within the 16 KiB read limit), so
    cache retention never refuses a directory the reader itself made. *)
Lemma bound_scope_retained deployment cred rs desc ep sq c env d d' root x :
  Context.new deployment cred rs desc ep sq = Ok c ->
  bind_directory env d (scope_binding c) = (d', Ok tt) ->
  authority d' = Some x -> zlen x <= 16 * 1024 ->
  validate_retention_scope (scope_cache_dir c root) true d' = Ok tt.
Proof using All.
  intros (u & _ & Hd & Hs & Hv & _ & _ & _ & Hdom)%new_ok Hb Hx Hlen.
  assert (Hc : from_slice x = Some (scope_binding c)).
  { destruct (authority d) as [y|] eqn:Hy.
    - destruct (bind_bound _ _ _ _ _ _ Hy Hb) as [? Hr]. rewrite Hx in *. simplify_eq. by apply Hr.
    - destruct (bind_unbound _ _ _ _ _ Hy Hb) as [[_ []]|(z & Hz & ?)]; [done|]. by simplify_eq. }
  unfold validate_retention_scope, retention_binding. rewrite Hx. cbn [ok_or rbind].
  rewrite (proj2 (Z.ltb_ge _ _)) by done. rewrite Hc. cbn [ok_or rbind scope_binding cb_scope].
  rewrite Hd, Hs, Hv. cbn [rbind]. apply reject_ok. split; [|done].
  unfold scope_cache_dir, scope_binding. cbn [cb_revision cb_snapshot_id cb_domain is_some].
  destruct (hash_fields_shape DOMAIN_TAG (domain_fields u cred (authorization_epoch c) desc)) as [Hl Hh].
  rewrite <- Hdom in Hl, Hh. rewrite Hl, Hh, Hd, Hs.
  edestruct (last_two root "snapshots" (domain c)) as [-> ->].
  by rewrite !bool_decide_true.
Qed.
End Bind.
End Binding.
