(* ===== verification/Requests.v ===== *)
(** * Requests

    The request loop of [src/snapshot/client.rs] with the receipts of
    [src/snapshot/resolve_receipt.rs]: credentials and their frozen copies,
    bounded retries under one deadline, the classification of failures,
    bounded bodies, and the calls built on them (resolve, lookup, whole files,
    lease release, file headers). The transport is a [network] that answers
    anything at every call; every exchange and every pause is recorded. *)

From S2P Require Import Prelude Types Faults Text Profile Btree Directory Namespace Json Wire Frames Authority.
Import Counters Digests Percent Scope ErrorWire Resolve Context.
Local Open Scope string_scope.
Local Open Scope list_scope.
Local Open Scope Z_scope.

Module Requests.

(** ** Receipts *)

Definition ATTEMPT_LIMIT : Z := 4.

Record ResolveTraceReceipt : Type := mkReceipt {
  logical_request_id : string; attempt_ids : list string; final_attempt_id : string; rt_retry_count : Z;
}.

Definition trace_byte (b : Z) : bool :=
  is_ascii_lower b || is_ascii_upper b || is_ascii_digit b || existsb (Z.eqb b) [45; 95; 46; 58; 47].

Definition validate_logical_id (id : string) : Res unit :=
  reject? is_empty id || (125 <? str_len id) || negb (forallb trace_byte (as_bytes id))
    with SnapshotError_new InvalidRequest "resolve observation id must be a bounded ASCII trace token" in
  Ok tt.

Definition echo_error : SnapshotError :=
  SnapshotError_new IntegrityError "resolve observation response must echo exactly one matching request id".

(** [ResolveTraceReceipt::new], [attempt], [finish]. *)
Definition receipt_new (id : string) : Res ResolveTraceReceipt :=
  let? _ := validate_logical_id id in Ok (mkReceipt id [] "" 0).

Definition attempt_name (id : string) (attempt : Z) : string := id ++ ":a" ++ u64_to_string attempt.

Definition receipt_attempt (r : ResolveTraceReceipt) (attempt : Z) : Res (string * ResolveTraceReceipt) :=
  reject? negb (in_range 1 attempt ATTEMPT_LIMIT) || negb (zlen (attempt_ids r) =? attempt - 1) with echo_error in
  let id := attempt_name (logical_request_id r) attempt in
  Ok (id, mkReceipt (logical_request_id r) (attempt_ids r ++ [id]) (final_attempt_id r) (rt_retry_count r)).

Definition receipt_finish (r : ResolveTraceReceipt) : Res ResolveTraceReceipt :=
  let? final := ok_or (list.last (attempt_ids r)) echo_error in
  Ok (mkReceipt (logical_request_id r) (attempt_ids r) final (zlen (attempt_ids r) - 1)).

(** ** HTTP messages *)

(** A header map by its lower-case names, in order. *)
Abbreviation header_map := (list (string * string)).
Definition get_all (name : string) (hs : header_map) : list string := snd <$> filter (fun h => h.1 = name) hs.
Definition append_header (name value : string) (hs : header_map) : header_map := hs ++ [(name, value)].
Definition insert_header (name value : string) (hs : header_map) : header_map :=
  filter (fun h => h.1 <> name) hs ++ [(name, value)].

(** [HeaderValue::to_str]: visible ASCII only. *)
Definition header_to_str (v : string) : option string :=
  if forallb (fun b => in_range 32 b 126 || (b =? 9)) (as_bytes v) then Some v else None.

(** [resolve_receipt::validate_echo]. *)
Definition validate_echo (hs : header_map) (expected : string) : Res unit :=
  let values := get_all "x-request-id" hs in
  reject? negb (bool_decide ((head values ≫= header_to_str) = Some expected)) || (1 <? zlen values) with echo_error in
  Ok tt.

Inductive Method : Type := MGet | MPost | MDelete | MHead.
Inductive Body : Type := NoBody | Whole (b : bytes) | Streamed.
Record Request : Type := mkHttp { hr_method : Method; hr_url : string; hr_headers : header_map; hr_body : Body }.

(** [Request::try_clone]: not of a stream. *)
Definition try_clone (r : Request) : option Request := match hr_body r with Streamed => None | _ => Some r end.
Definition set_headers (f : header_map -> header_map) (r : Request) : Request :=
  mkHttp (hr_method r) (hr_url r) (f (hr_headers r)) (hr_body r).

(** [reqwest::Error], by its predicates and its text. *)
Record TransportError : Type := mkTransport {
  te_timeout : bool; te_connect : bool; te_request : bool; te_body : bool; te_decode : bool; te_text : string;
}.

(** A response; its body is the chunks that arrive, or an error that ends it. *)
Record HttpResponse : Type := mkHttpResponse {
  hp_status : Z; hp_headers : header_map; hp_content_length : option Z; hp_chunks : list (result TransportError bytes);
}.
Definition is_success (status : Z) : bool := in_range 200 status 299.

Definition retryable_status (status : Z) : bool := existsb (Z.eqb status) [429; 500; 502; 503; 504].
Definition retryable_transport (e : TransportError) : bool := te_timeout e || te_connect e || te_request e.
Definition net_err (e : TransportError) : SnapshotError :=
  SnapshotError_new (if retryable_transport e || te_body e then TemporaryUnavailable else Internal) ("network: " ++ te_text e).
Definition de_err (e : TransportError) : SnapshotError :=
  if negb (te_decode e) && (retryable_transport e || te_body e) then net_err e
  else SnapshotError_new IntegrityError ("decode: " ++ te_text e).

Definition buffered_limit : SnapshotError :=
  SnapshotError_new LimitExceeded "whole-file buffered read exceeds the local 64 MiB budget; use range reads".
Definition lookup_binding_error : SnapshotError :=
  SnapshotError_new IntegrityError "lookup response does not bind every ordered result to its requested snapshot and path".
Definition json_limit (direction : string) : SnapshotError :=
  SnapshotError_new LimitExceeded ("JSON " ++ direction ++ " exceeds the protocol byte budget").
Definition request_deadline : SnapshotError :=
  SnapshotError_new TemporaryUnavailable "snapshot request deadline exceeded".
Definition set_status (status : Z) (e : SnapshotError) : SnapshotError := mkSnapshotError (code e) (message e) status.

(** ** Programs *)

(** What the transport and the host decide, by the number of the operation:
    why a request cannot be built, which texts are header values, the clock in
    nanoseconds, the nanoseconds of the wall clock, whether a timer ends before
    the deadline, whether an allocation succeeds, and the answers. *)
Record network : Type := mkNetwork {
  w_build : Request -> option string;
  w_header : string -> bool;
  w_now : nat -> Z;
  w_subsec : nat -> option Z;
  w_wakes : nat -> bool;
  w_allocates : nat -> bool;
  w_answer : nat -> Request -> result TransportError HttpResponse;
}.

(** What is observed of a run: an exchange, with the instant its timeout was
    computed at and that timeout, and a pause between two of them. *)
Inductive event : Type :=
  | Exchanged (r : Request) (now timeout : Z) (answer : result TransportError HttpResponse)
  | Slept (ms : Z).

(** The shared cells and counters of a client and its clones, and what was
    done so far. *)
Record net : Type := mkNet {
  net_step : nat; net_trace : list event; net_cells : gmap nat (option string);
  net_retries : Z; net_received : Z; net_units : Z;
}.

Definition N (A : Type) : Type := net -> Run A * net.
Definition ret {A : Type} (a : A) : N A := fun s => (Ok a, s).
Definition bind {A B : Type} (c : N A) (k : A -> N B) : N B := fun s =>
  match c s with
  | (Ok a, s) => k a s
  | (Err e, s) => (Err e, s)
  end.
Definition of_run {A : Type} (r : Run A) : N A := fun s => (r, s).
Definition of_res {A : Type} (r : Res A) : N A := of_run (lift r).
Definition fail {A : Type} (e : SnapshotError) : N A := of_run (Err (Failed e)).
Definition or_panic {A : Type} (o : option A) : N A := of_run (ok_or o Panicked).
(** A client error as a value. *)
Definition caught {A : Type} (c : N A) : N (Res A) := fun s =>
  match c s with
  | (Ok a, s) => (Ok (Ok a), s)
  | (Err (Failed e), s) => (Ok (Err e), s)
  | (Err f, s) => (Err f, s)
  end.
Definition ask {A : Type} (f : nat -> A) : N A := fun s =>
  (Ok (f (net_step s)),
   mkNet (S (net_step s)) (net_trace s) (net_cells s) (net_retries s) (net_received s) (net_units s)).
Definition log (e : event) : N unit := fun s =>
  (Ok tt, mkNet (net_step s) (net_trace s ++ [e]) (net_cells s) (net_retries s) (net_received s) (net_units s)).
Definition with_cells {A : Type} (f : gmap nat (option string) -> A * gmap nat (option string)) : N A := fun s =>
  let '(a, cells) := f (net_cells s) in
  (Ok a, mkNet (net_step s) (net_trace s) cells (net_retries s) (net_received s) (net_units s)).

Notation "'let*' x := c 'in' k" := (bind c (fun x => k))
  (at level 10, x name, c at level 150, k at level 200).
Notation "'run*' c 'in' k" := (bind c (fun _ => k)) (at level 10, c at level 150, k at level 200).
Notation "'guard*' b 'with' e 'in' k" := (if b then fail e else k) (at level 10, b at level 150, e at level 150, k at level 200).

Fixpoint fold_n {A X : Type} (f : A -> X -> N A) (a : A) (l : list X) : N A :=
  match l with
  | [] => ret a
  | x :: l => let* a := f a x in fold_n f a l
  end.

(** [fetch_add] of the counters. *)
Definition wrapping_add (a b : Z) : Z := (a + b) mod 2 ^ 64.
Definition count_retry : N unit := fun s =>
  (Ok tt, mkNet (net_step s) (net_trace s) (net_cells s) (wrapping_add (net_retries s) 1) (net_received s) (net_units s)).
Definition count_received_bytes (n : Z) : N unit := fun s =>
  (Ok tt, mkNet (net_step s) (net_trace s) (net_cells s) (net_retries s) (wrapping_add (net_received s) n) (net_units s)).
Definition count_units (n : Z) : N unit := fun s =>
  (Ok tt, mkNet (net_step s) (net_trace s) (net_cells s) (net_retries s) (net_received s) (wrapping_add (net_units s) n)).

(** ** Clients *)

(** [Mst2Client]: the tokens and leases of unbound clients are in shared cells;
    [c_bound] is the frozen copy of a resolved reader. *)
Record Mst2Client : Type := mkClient {
  c_timeout : Z; c_base : string; c_token : nat; c_lease : nat;
  c_bound : option (option string * option string); c_profile : profile;
}.

Definition MAX_ATTEMPTS : Z := ATTEMPT_LIMIT.
Definition BASE_BACKOFF_MS : Z := 40.
Definition REQUEST_TIMEOUT : Z := 60 * 10 ^ 9.

(** [Arc::new(Mutex::new(_))], and the access to a cell. *)
Definition new_cell (v : option string) : N nat :=
  with_cells (fun cells => let n := fresh (dom cells : gset nat) in (n, <[n := v]> cells)).
Definition read_cell (n : nat) : N (option string) := with_cells (fun cells => (mjoin (cells !! n), cells)).
Definition write_cell (n : nat) (v : option string) : N unit := with_cells (fun cells => (tt, <[n := v]> cells)).

(** [Mst2Client::with_token]. *)
Definition with_token (base_url : string) (token : option string) : N Mst2Client :=
  let* t := new_cell token in
  let* l := new_cell None in
  ret (mkClient REQUEST_TIMEOUT (trim_end_slash base_url) t l None None).

Definition with_request_timeout (timeout : Z) (c : Mst2Client) : Mst2Client :=
  mkClient (Z.min (Z.max timeout (10 ^ 6)) REQUEST_TIMEOUT) (c_base c) (c_token c) (c_lease c) (c_bound c) (c_profile c).

Definition set_token (c : Mst2Client) (token : option string) : N unit := write_cell (c_token c) token.
Definition bind_lease (c : Mst2Client) (lease_id : string) : N unit := write_cell (c_lease c) (Some lease_id).

Definition credentials (c : Mst2Client) : N (option string * option string) :=
  match c_bound c with
  | Some bound => ret bound
  | None =>
      let* token := read_cell (c_token c) in
      let* lease := read_cell (c_lease c) in
      ret (token, lease)
  end.

Definition for_resolve (c : Mst2Client) : N Mst2Client :=
  let* now := credentials c in
  let* t := new_cell now.1 in
  let* l := new_cell None in
  ret (mkClient (c_timeout c) (c_base c) t l (Some (now.1, None)) None).

Definition with_snapshot_lease (c : Mst2Client) (lease_id : string) : N Mst2Client :=
  let* now := credentials c in
  ret (mkClient (c_timeout c) (c_base c) (c_token c) (c_lease c) (Some (now.1, Some lease_id)) (c_profile c)).

Definition snapshots_url (c : Mst2Client) (tail : string) : string := c_base c ++ "/api/v2/snapshots" ++ tail.

(** ** Bodies *)

(** [serde_json] and the texts of [http]: a reader that keeps the members of
    objects in their order, repeated ones included; the texts of a repeated
    key and of a value of another type; the writer; a status as a text. *)
Class HttpCrate : Type := {
  json_read : bytes -> result string json;
  json_duplicate : bytes -> string;
  json_mismatch : bytes -> string;
  json_write : json -> bytes;
  status_text : Z -> string;
}.

(** [UniqueJson]. *)
Fixpoint unique_json (v : json) : bool :=
  match v with
  | JArr l => forallb unique_json l
  | JObj m => bool_decide (NoDup m.*1) && forallb (fun kv => unique_json kv.2) m
  | _ => true
  end.

Section Requests.
Context `{HttpCrate} (w : network).

(** The check, the growth and the append of one chunk; the buffer with its
    capacity. *)
Definition grow (limit : Z) (over : SnapshotError) (st : bytes * Z) (chunk : bytes) : N (bytes * Z) :=
  let '(b, capacity) := st in
  let* room := or_panic (if zlen b <=? limit then Some (limit - zlen b) else None) in
  guard* room <? zlen chunk with over in
  let* spare := or_panic (if zlen b <=? capacity then Some (capacity - zlen b) else None) in
  if spare <? zlen chunk then
    let target := Z.min (Z.max (zlen b + zlen chunk) (saturating_mul capacity 2)) limit in
    let* additional := or_panic (if zlen b <=? target then Some (target - zlen b) else None) in
    let* reserved := ask (w_allocates w) in
    guard* negb reserved with over in
    ret (b ++ chunk, zlen b + additional)
  else ret (b ++ chunk, capacity).

Definition read_json_bytes (r : HttpResponse) (limit : Z) : N bytes :=
  guard* match hp_content_length r with Some n => limit <? n | None => false end with json_limit "response" in
  let* st := fold_n (fun st c => let* c := of_res (map_err net_err c) in grow limit (json_limit "response") st c)
               ([], 0) (hp_chunks r) in
  ret st.1.

Definition json_invalid (text : string) : SnapshotError := SnapshotError_new IntegrityError ("JSON decode: " ++ text).

(** [parse_json]: no repeated keys, at any depth; then the type asked for. *)
Definition parse_value (b : bytes) : Res json :=
  let? v := map_err json_invalid (json_read b) in
  reject? negb (unique_json v) with json_invalid (json_duplicate b) in
  Ok v.
Definition parse_json {T : Type} (decode : json -> option T) (b : bytes) : Res T :=
  let? v := parse_value b in ok_or (decode v) (json_invalid (json_mismatch b)).
Definition value_of (b : bytes) : option json := match parse_value b with Ok v => Some v | Err _ => None end.

Definition server_error (b : bytes) (status : Z) : SnapshotError :=
  match parse_value b with
  | Err _ => mkSnapshotError Internal ("HTTP " ++ status_text status ++ " without valid error envelope") status
  | Ok v => default (mkSnapshotError IntegrityError "HTTP error envelope violates its selected contract or status binding" status)
              (ErrorWire.parse v status)
  end.

Definition response_error (p : profile) (b : bytes) (status : Z) : SnapshotError :=
  if is_canonical p then
    match parse_response value_of b status with
    | Err e => e
    | Ok _ => server_error b status
    end
  else server_error b status.

(** [Value::get] after repeated keys have replaced one another. *)
Definition last_member (v : json) (k : string) : option json :=
  match v with JObj m => assoc k (reverse m) | _ => None end.
Definition has_canonical_hint (b : bytes) : bool :=
  match json_read b with
  | Ok v => match last_member v "error" with
            | Some e => has e "request_id" || has e "retryable"
            | None => false
            end
  | Err _ => false
  end.

(** Whether an error response may be asked again. *)
Definition error_retryable (b : bytes) (status : Z) : bool :=
  match parse_response value_of b status with
  | Ok e => ce_retryable e
  | Err _ => negb (has_canonical_hint b) && retryable_status status
  end.

(** ** Attempts *)

Definition backoff_ms (attempt : Z) (nanos : option Z) : Z :=
  let base := Z.shiftl BASE_BACKOFF_MS (Z.min (saturating_sub attempt 1) 4) in
  base + match nanos with Some n => n mod (base + 1) | None => 0 end.

(** [timeout_at(deadline, sleep_backoff(attempt))]. *)
Definition sleep_backoff (attempt : Z) : N unit :=
  let* nanos := ask (w_subsec w) in
  run* log (Slept (backoff_ms attempt nanos)) in
  let* woken := ask (w_wakes w) in
  guard* negb woken with request_deadline in
  ret tt.

(** [self.http.execute(this)], with the timeout set at the instant [now]. *)
Definition execute (r : Request) (now timeout : Z) : N (result TransportError HttpResponse) :=
  let* answer := ask (fun k => w_answer w k r) in
  run* log (Exchanged r now timeout answer) in
  ret answer.

(** What an answer means: it is returned, asked again or given up. *)
Inductive verdict : Type := Deliver (r : HttpResponse) | Again | GiveUp (e : SnapshotError).

Definition judge (p : profile) (attempt : Z) (answer : result TransportError HttpResponse) : N verdict :=
  let more := attempt <? MAX_ATTEMPTS in
  match answer with
  | Ok r =>
      let status := hp_status r in
      if is_success status then ret (Deliver r)
      else
        let* body := caught (read_json_bytes r (response_byte_limit p)) in
        ret (match body with
             | Err e => if more && retryable_status status then Again else GiveUp (set_status status e)
             | Ok b => if more && error_retryable b status then Again else GiveUp (response_error p b status)
             end)
  | Err e => ret (if more && retryable_transport e then Again else GiveUp (net_err e))
  end.

(** The request of one attempt, with its id when the attempts are observed. *)
Definition label (receipt : option ResolveTraceReceipt) (attempt : Z) (this : Request)
    : N (Request * option (string * ResolveTraceReceipt)) :=
  match receipt with
  | None => ret (this, None)
  | Some r =>
      let* named := of_res (receipt_attempt r attempt) in
      guard* negb (w_header w named.1) with SnapshotError_new InvalidRequest "invalid resolve attempt id" in
      ret (set_headers (insert_header "x-request-id" named.1) this, Some named)
  end.

(** The loop of [send_retrying_with_receipt]. *)
Fixpoint attempts (fuel : nat) (p : profile) (deadline attempt : Z) (req : option Request)
    (receipt : option ResolveTraceReceipt) : N (HttpResponse * option ResolveTraceReceipt) :=
  match fuel with
  | O => of_run (Err OutOfFuel)
  | S fuel =>
      let attempt := attempt + 1 in
      let this := if attempt <? MAX_ATTEMPTS then r ← req; try_clone r else req in
      let req := if attempt <? MAX_ATTEMPTS then req else None in
      match this with
      | None => fail (SnapshotError_new Internal "request body is not replayable")
      | Some this =>
          let* now := ask (w_now w) in
          let remaining := saturating_sub deadline now in
          guard* remaining =? 0 with request_deadline in
          let* labelled := label receipt attempt this in
          run* (if 1 <? attempt then count_retry else ret tt) in
          let* answer := execute labelled.1 now remaining in
          run* of_res (match answer, labelled.2 with
                       | Ok r, Some (id, _) => validate_echo (hp_headers r) id
                       | _, _ => Ok tt
                       end) in
          let* v := judge p attempt answer in
          match v with
          | Deliver r => ret (r, snd <$> labelled.2)
          | Again => run* sleep_backoff attempt in attempts fuel p deadline attempt req (snd <$> labelled.2)
          | GiveUp e => fail e
          end
      end
  end.

Definition with_credentials (c : Mst2Client) (r : Request) : N Request :=
  let* now := credentials c in
  let r := match now.1 with
           | Some t => set_headers (append_header "authorization" ("Bearer " ++ t)) r
           | None => r
           end in
  ret (match now.2 with
       | Some l => set_headers (append_header "x-mega-snapshot-lease" l) r
       | None => r
       end).

Definition send_retrying_with_receipt (c : Mst2Client) (r : Request) (receipt : option ResolveTraceReceipt)
    : N (HttpResponse * option ResolveTraceReceipt) :=
  let* r := with_credentials c r in
  run* match w_build w r with
       | Some e => fail (SnapshotError_new Internal ("request build: " ++ e))
       | None => ret tt
       end in
  guard* match hr_body r with Whole b => request_byte_limit (c_profile c) <? zlen b | _ => false end with json_limit "request" in
  let* now := ask (w_now w) in
  attempts (Z.to_nat MAX_ATTEMPTS) (c_profile c) (now + c_timeout c) 0 (Some r) receipt.

Definition send_retrying (c : Mst2Client) (r : Request) : N HttpResponse :=
  let* x := send_retrying_with_receipt c r None in ret x.1.
(** ** Calls *)

Definition checked_response (c : Mst2Client) (r : HttpResponse) : N HttpResponse :=
  let status := hp_status r in
  if is_success status then ret r
  else
    let* body := caught (read_json_bytes r (response_byte_limit (c_profile c))) in
    match body with
    | Err e => fail (set_status status e)
    | Ok b => fail (response_error (c_profile c) b status)
    end.

Definition json_response {T : Type} (c : Mst2Client) (decode : json -> option T) (r : HttpResponse) : N T :=
  let* r := checked_response c r in
  let* b := read_json_bytes r (response_byte_limit (c_profile c)) in
  of_res (parse_json decode b).

Definition get_request (url : string) : Request := mkHttp MGet url [] NoBody.

(** [RequestBuilder::json]. *)
Definition json_request (url : string) (v : json) : Request :=
  mkHttp MPost url [("content-type", "application/json")] (Whole (json_write v)).

Definition get_json (c : Mst2Client) (url : string) : N json :=
  let* r := send_retrying c (get_request url) in json_response c Some r.
Definition post_json (c : Mst2Client) (url : string) (body : json) : N json :=
  let* r := send_retrying c (json_request url body) in json_response c Some r.

(** *** Resolve *)

Section Resolve.
Context `{CodecScope} `{Rfc3339} `{HexCrate} `{DescriptorCodec} `{UuidCrate}.

(** [serde_json::to_value(request)], with the codecs the reader supports. *)
Definition resolve_body (q : ResolveRequest) : json :=
  JObj [("delivery", JStr (delivery_name (rq_delivery q)));
        ("lease_seconds", JNum (rq_lease_seconds q));
        ("scope", JStr (rq_scope q));
        ("supported_metadata_codecs", JArr [JNum 1]);
        ("target", match rq_target q with
                   | Latest => JObj [("kind", JStr "latest")]
                   | View v => JObj [("kind", JStr "view"); ("view_id", JStr v)]
                   end)].

(** The checks before a resolve is sent. *)
Definition resolve_admissible (p : profile) (q : ResolveRequest) : Res unit :=
  let? _ := validate_scope (rq_scope q) in
  let? _ := validate_path p (rq_scope q) in
  let? _ := require_feature p "resolve" in
  let? _ := match rq_target q with
            | View v => let? _ := map_err (fun _ => SnapshotError_new InvalidRequest "resolve view ID is not canonical")
                                    (parse_digest v) in Ok tt
            | Latest => Ok tt
            end in
  reject? negb (in_range 60 (rq_lease_seconds q) 3600)
    with SnapshotError_new InvalidRequest "resolve lease suggestion must be between 60 and 3600 seconds" in
  Ok tt.

Definition resolve_request_internal (c : Mst2Client) (q : ResolveRequest) (receipt : option ResolveTraceReceipt)
    (require_canonical : bool) : N (ResolveResponse * option ResolveTraceReceipt) :=
  run* of_res (resolve_admissible (c_profile c) q) in
  let* x := send_retrying_with_receipt c (json_request (snapshots_url c "/resolve") (resolve_body q)) receipt in
  let* v := json_response c Some x.1 in
  let* r := of_res (parse_request v q (require_canonical || is_canonical (c_profile c))) in
  ret (r, x.2).

Definition resolve_request (c : Mst2Client) (q : ResolveRequest) : N ResolveResponse :=
  let* x := resolve_request_internal c q None true in ret x.1.

(** A resolve whose attempts are observed. *)
Definition observed (c : Mst2Client) (q : ResolveRequest) (id : string) (require_canonical : bool)
    : N (ResolveResponse * ResolveTraceReceipt) :=
  let* receipt := of_res (receipt_new id) in
  let* x := resolve_request_internal c q (Some receipt) require_canonical in
  let* filled := or_panic x.2 in
  let* finished := of_res (receipt_finish filled) in
  ret (x.1, finished).

Definition resolve_request_observed (c : Mst2Client) (q : ResolveRequest) (id : string) := observed c q id true.

(** [ResolveRequest::latest]. *)
Definition latest (scope : string) (lease_seconds : Z) : ResolveRequest := mkRequest Latest scope Full lease_seconds.
Definition resolve (c : Mst2Client) (scope : string) (lease_seconds : Z) : N ResolveResponse :=
  let* x := resolve_request_internal c (latest scope lease_seconds) None false in ret x.1.
Definition resolve_observed (c : Mst2Client) (scope : string) (lease_seconds : Z) (id : string) :=
  observed c (latest scope lease_seconds) id false.
End Resolve.

(** *** Lookups *)

Record LookupResult : Type := mkResult { lr_path : string; lr_status : string; lr_node : option Lookup.LookupNode }.
Record LookupResponse : Type := mkLookup { lk_snapshot_id : string; lk_results : list LookupResult }.

(** [optional_nonnull_string]: a missing member, or a string. *)
Definition nonnull_str (o : option json) : option (option string) :=
  match o with None => Some None | Some (JStr s) => Some (Some s) | Some _ => None end.

(** [LookupNode::deserialize]. *)
Definition decode_node (v : json) : option Lookup.LookupNode :=
  match row false ["fs_kind"; "name"; "size"; "content_digest"; "directory_root"; "node_class"; "lifecycle"] v with
  | Some [k; n; z; d; r; cl; lc] =>
      k ← as_str k; n ← nonnull_str n; z ← nonnull_str z; d ← nonnull_str d; r ← nonnull_str r;
      cl ← nonnull_str cl; lc ← nonnull_str lc;
      if Dir.is_some_and cl (fun cl => negb (String.eqb k "directory") || negb (one_of cl Dir.node_classes))
         || Dir.is_some_and lc (fun lc => negb (one_of lc Dir.lifecycles))
      then None else Some (Lookup.mkNode n k z d r)
  | _ => None
  end.

Definition decode_result (v : json) : option LookupResult :=
  match row false ["path"; "status"; "node"] v with
  | Some [p; st; n] =>
      p ← as_str p; st ← as_str st;
      n ← (match n with None => Some None | Some n => Some <$> decode_node n end);
      Some (mkResult p st n)
  | _ => None
  end.

Definition decode_lookup (v : json) : option LookupResponse :=
  match row false ["snapshot_id"; "results"] v with
  | Some [i; rs] => i ← as_str i; rs ← as_array rs; rs ← mapM decode_result rs; Some (mkLookup i rs)
  | _ => None
  end.

(** One result against the path it answers. *)
Definition check_result (p : profile) (r : LookupResult) (path : string) : Res unit :=
  reject? negb (String.eqb (lr_path r) path)
          || (if String.eqb (lr_status r) "found" then negb (Dir.opt_is_some (lr_node r))
              else if one_of (lr_status r) ["absent"; "not_directory"; "symlink_traversal"] then Dir.opt_is_some (lr_node r)
              else true)
    with lookup_binding_error in
  match lr_node r with
  | None => Ok tt
  | Some node =>
      let? _ := Lookup.validate_node node path in
      match Lookup.n_size node with
      | None => Ok tt
      | Some size => let? n := parse_count size "lookup size" in validate_file_size p n
      end
  end.

Definition check_lookup (p : profile) (snapshot_id : string) (paths : list string) (r : LookupResponse) : Res unit :=
  reject? negb (String.eqb (lk_snapshot_id r) snapshot_id) || negb (zlen (lk_results r) =? zlen paths)
    with lookup_binding_error in
  for_each (fun _ x => check_result p x.1 x.2) tt (combine (lk_results r) paths).

Definition lookup (c : Mst2Client) (snapshot_id : string) (paths : list string) : N LookupResponse :=
  let p := c_profile c in
  run* of_res (require_feature p "lookup") in
  run* of_res (for_each (fun _ path => validate_path p path) tt paths) in
  guard* (request_item_limit p <? zlen paths) && is_canonical p
    with SnapshotError_new LimitExceeded "lookup exceeds the discovered item limit" in
  guard* 128 <? zlen paths with SnapshotError_new LimitExceeded "lookup accepts at most 128 paths" in
  let* r := send_retrying c (json_request (snapshots_url c ("/" ++ snapshot_id ++ "/lookup"))
                               (JObj [("paths", JArr (JStr <$> paths))])) in
  let* answer := json_response c decode_lookup r in
  run* of_res (check_lookup p snapshot_id paths answer) in
  ret answer.

(** *** Files *)

Section Files.
Context `{Sha256}.

Definition blob_url (c : Mst2Client) (snapshot_id path expected_digest : string) : string :=
  snapshots_url c ("/" ++ snapshot_id ++ "/blob?path=" ++ urlencode path ++ "&expected_digest=" ++ urlencode expected_digest).

Definition owned_blob_response (c : Mst2Client) (snapshot_id path expected_digest : string) : N HttpResponse :=
  run* of_res (require_feature (c_profile c) "blob") in
  run* of_res (validate_path (c_profile c) path) in
  send_retrying c (get_request (blob_url c snapshot_id path expected_digest)).

Definition buffered_bytes (p : profile) : Z := limit_or p MAX_BUFFERED_FILE_BYTES (fun l => Z.min (max_file_bytes l) MAX_BUFFERED_FILE_BYTES).

Definition blob_verified (c : Mst2Client) (snapshot_id path expected_digest : string) : N bytes :=
  let* r := owned_blob_response c snapshot_id path expected_digest in
  let* r := checked_response c r in
  let byte_limit := buffered_bytes (c_profile c) in
  guard* match hp_content_length r with Some n => byte_limit <? n | None => false end with buffered_limit in
  let* st := fold_n (fun st chunk =>
                       let* chunk := of_res (map_err net_err chunk) in
                       run* count_received_bytes (zlen chunk) in
                       grow byte_limit buffered_limit st chunk) ([], 0) (hp_chunks r) in
  let got := digest_string (sha256 st.1) in
  guard* negb (String.eqb got expected_digest)
    with SnapshotError_new DigestMismatch ("blob " ++ path ++ ": expected " ++ expected_digest ++ ", got " ++ got) in
  ret st.1.

(** [head_blob]: the length, the tag and the kind. *)
Definition head_blob (c : Mst2Client) (url : string) : N (Z * string * string) :=
  let* r := send_retrying c (mkHttp MHead url [] NoBody) in
  let* r := checked_response c r in
  let text name := head (get_all name (hp_headers r)) ≫= header_to_str in
  let* len := of_res (ok_or (text "content-length" ≫= parse_u64) (SnapshotError_new Internal "HEAD missing length")) in
  run* of_res (validate_file_size (c_profile c) len) in
  ret (len, default "" (text "etag"), default "" (text "x-mega-fs-kind")).

(** *** TreeFrame headers *)

(** [str::trim] of a header text, and [eq_ignore_ascii_case]. *)
Fixpoint trim_start (s : string) : string :=
  match s with
  | String c s' => if Ascii.eqb c " " || (byte_of c =? 9) then trim_start s' else s
  | EmptyString => EmptyString
  end.
Definition trim (s : string) : string := rev_string (trim_start (rev_string (trim_start s))).
Definition ascii_lowercase (s : string) : string := of_bytes ((fun b => if is_ascii_upper b then b + 32 else b) <$> as_bytes s).
Definition eq_ignore_ascii_case (a b : string) : bool := String.eqb (ascii_lowercase a) (ascii_lowercase b).

(** [str::split(';')]. *)
Fixpoint split_semicolon (s : string) : list string :=
  match s with
  | EmptyString => [EmptyString]
  | String c s =>
      let parts := split_semicolon s in
      if Ascii.eqb c ";" then EmptyString :: parts
      else match parts with
           | [] => [String c EmptyString]
           | p :: ps => String c p :: ps
           end
  end.

Definition one_treeframe_header (hs : header_map) (name display_name : string) : Res string :=
  match get_all name hs with
  | [] => Err (SnapshotError_new DigestMismatch ("TreeFrame response is missing " ++ display_name))
  | [v] => ok_or (header_to_str v) (SnapshotError_new DigestMismatch ("TreeFrame response has invalid " ++ display_name))
  | _ => Err (SnapshotError_new DigestMismatch ("TreeFrame response has duplicate " ++ display_name))
  end.

Definition treeframe_media (content_type : string) : bool :=
  match trim <$> split_semicolon content_type with
  | [media; version] =>
      eq_ignore_ascii_case media "application/vnd.mega.treeframe"
      && match split_once "=" version with
         | Some (key, value) => eq_ignore_ascii_case (trim key) "version"
                                && one_of (trim value) ["2"; String (ascii_of 34) (String "2" (String (ascii_of 34) EmptyString))]
         | None => false
         end
  | _ => false
  end.

Definition validate_treeframe_headers (hs : header_map) (snapshot_id expected_request_digest : string) : Res unit :=
  let? content_type := one_treeframe_header hs "content-type" "Content-Type" in
  reject? negb (treeframe_media content_type)
    with SnapshotError_new DigestMismatch ("unexpected TreeFrame Content-Type: " ++ content_type) in
  reject? negb (bool_decide (get_all "content-encoding" hs = []))
    with SnapshotError_new DigestMismatch "TreeFrame response must not use Content-Encoding" in
  let? returned := one_treeframe_header hs "x-mega-snapshot-id" "X-Mega-Snapshot-Id" in
  reject? negb (String.eqb returned snapshot_id)
    with SnapshotError_new DigestMismatch ("TreeFrame response snapshot " ++ returned ++ " does not match " ++ snapshot_id) in
  let? digest := one_treeframe_header hs "x-mega-request-digest" "X-Mega-Request-Digest" in
  reject? negb (String.eqb digest expected_request_digest)
    with SnapshotError_new DigestMismatch ("TreeFrame request digest " ++ digest ++ " does not match " ++ expected_request_digest) in
  Ok tt.

Definition owned_frame_response (c : Mst2Client) (snapshot_id endpoint : string) (body : bytes) : N HttpResponse :=
  run* of_res (require_feature (c_profile c) endpoint) in
  let* r := send_retrying c (mkHttp MPost (snapshots_url c ("/" ++ snapshot_id ++ "/" ++ endpoint))
                               [("content-type", "application/json")] (Whole body)) in
  if is_success (hp_status r) then
    run* of_res (validate_treeframe_headers (hp_headers r) snapshot_id (digest_string (sha256 body))) in ret r
  else ret r.

(** [credential_partition]. *)
Definition credential_preimage (token : option string) : bytes :=
  as_bytes "scorpio.mst2.actor-credential" ++ [0]
  ++ match token with
     | Some t => as_bytes "bearer" ++ [0] ++ as_bytes t
     | None => as_bytes "unauthenticated-lab" ++ [0]
     end.
Definition credential_partition (c : Mst2Client) : N string :=
  let* now := credentials c in ret (hex32 (sha256 (credential_preimage now.1))).
End Files.

(** *** Leases *)

(** [delete_release_json]: the status selects the contract. *)
Definition delete_release_json (c : Mst2Client) (url : string) : N (option json) :=
  let* r := send_retrying c (mkHttp MDelete url [] NoBody) in
  let* r := checked_response c r in
  let status := hp_status r in
  let invalid := mkSnapshotError IntegrityError "lease release success has invalid HTTP status or body framing" status in
  if status =? 204 then
    guard* negb (bool_decide (get_all "transfer-encoding" (hp_headers r) = []))
           || existsb (fun v => negb (bool_decide ((header_to_str v ≫= parse_u64) = Some 0))) (get_all "content-length" (hp_headers r))
      with invalid in
    match hp_chunks r with
    | [] => ret None
    | Ok _ :: _ => fail invalid
    | Err e :: _ => fail (net_err e)
    end
  else if (status =? 200) && negb (is_canonical (c_profile c)) then
    let* v := json_response c Some r in ret (Some v)
  else fail invalid.
End Requests.
End Requests.
