(* ===== verification/RequestFacts.v ===== *)
(** * RequestFacts

    What the request loop does: a specification of the exchanges and pauses of
    one logical request, and the proof that the loop follows it; the receipts
    of observed resolves, bound lookups, verified files, frozen credentials. *)

From S2P Require Import Prelude Types Faults Text Profile Btree Directory Namespace Json Wire Frames Authority Requests.
Import Counters Digests Percent Scope ErrorWire Descriptors Resolve Requests.
Local Open Scope string_scope.
Local Open Scope list_scope.
Local Open Scope Z_scope.

Module RequestFacts.

(** ** Programs that send nothing *)

Definition silent (s s' : net) : Prop :=
  net_trace s' = net_trace s /\ net_retries s' = net_retries s /\ net_cells s' = net_cells s /\ (net_step s <= net_step s')%nat.

Lemma silent_refl s : silent s s.
Proof. by unfold silent. Qed.
Lemma silent_trans s1 s2 s3 : silent s1 s2 -> silent s2 s3 -> silent s1 s3.
Proof. unfold silent. intros (E1 & E2 & E3 & ?) (F1 & F2 & F3 & ?). rewrite F1, F2, F3. split_and!; [done..|lia]. Qed.

(** [c] sends nothing and ends in a value with [Q], or in a client error when
    [E] holds. *)
Definition quietly {A : Type} (c : N A) (E : Prop) (Q : A -> Prop) : Prop :=
  forall s, silent s (c s).2 /\ match (c s).1 with Ok a => Q a | Err (Failed _) => E | _ => False end.

Lemma quietly_ret {A : Type} (a : A) E (Q : A -> Prop) : Q a -> quietly (ret a) E Q.
Proof. intros Hq s. split; [apply silent_refl|done]. Qed.
Lemma quietly_fail {A : Type} e (E : Prop) (Q : A -> Prop) : E -> quietly (fail e) E Q.
Proof. intros He s. split; [apply silent_refl|done]. Qed.
Lemma quietly_bind {A B : Type} (c : N A) (k : A -> N B) E (P : A -> Prop) (Q : B -> Prop) :
  quietly c E P -> (forall a, P a -> quietly (k a) E Q) -> quietly (bind c k) E Q.
Proof.
  intros Hc Hk s. unfold bind. destruct (Hc s) as [Hs Hr]. destruct (c s) as [[a|e] s1]; simpl in *.
  - destruct (Hk a Hr s1) as [Hs' Hr']. split; [by eapply silent_trans|done].
  - split; [done|]. by destruct e.
Qed.
Lemma quietly_res {A : Type} (r : Res A) (E : Prop) (Q : A -> Prop) :
  (forall a, r = Ok a -> Q a) -> (forall e, r = Err e -> E) -> quietly (of_res r) E Q.
Proof. intros Hq He s. split; [apply silent_refl|]. destruct r; simpl; eauto. Qed.
Lemma quietly_panic {A : Type} (o : option A) (E : Prop) (Q : A -> Prop) (a : A) : o = Some a -> Q a -> quietly (or_panic o) E Q.
Proof. intros -> Hq s. split; [apply silent_refl|done]. Qed.
Lemma quietly_ask {A : Type} (f : nat -> A) (E : Prop) (Q : A -> Prop) : (forall k, Q (f k)) -> quietly (ask f) E Q.
Proof. intros Hq s. split; [|apply Hq]. unfold silent. simpl. split_and!; [done..|lia]. Qed.
Lemma quietly_caught {A : Type} (c : N A) (E E' : Prop) (Q : A -> Prop) :
  quietly c E Q -> quietly (caught c) E' (fun r => match r with Ok a => Q a | Err _ => E end).
Proof. intros Hc s. unfold caught. destruct (Hc s) as [Hs Hr]. by destruct (c s) as [[a|[]] s1]. Qed.
Lemma quietly_weaken {A : Type} (c : N A) (E E' : Prop) (P Q : A -> Prop) :
  quietly c E P -> (E -> E') -> (forall a, P a -> Q a) -> quietly c E' Q.
Proof. intros Hc He Hq s. destruct (Hc s) as [Hs Hr]. split; [done|]. destruct (c s).1 as [a|[]]; auto. Qed.

(** ** Bodies *)

Section Bodies.
Context `{HttpCrate} (w : network).

(** The bytes a response carries, when it arrives whole. *)
Definition body_of (r : HttpResponse) (b : bytes) : Prop := exists cs, hp_chunks r = Ok <$> cs /\ b = concat cs.

(** It can be read within [limit] bytes. *)
Definition readable (r : HttpResponse) (limit : Z) : Prop :=
  match hp_content_length r with Some n => n <= limit | None => True end /\ exists b, body_of r b /\ zlen b <= limit.

(** Memory was refused at some point. *)
Definition refused : Prop := exists k, w_allocates w k = false.

Lemma zlen_app_le (b c : bytes) n : zlen (b ++ c) <= n -> zlen b <= n.
Proof. rewrite zlen_app. pose proof (zlen_nonneg c). lia. Qed.

(** A buffer within its limit and its capacity. *)
Definition buffered (limit : Z) (st : bytes * Z) : Prop := zlen st.1 <= limit /\ zlen st.1 <= st.2 <= limit.

Lemma quietly_grow limit over st c :
  buffered limit st ->
  quietly (grow w limit over st c) (limit < zlen (st.1 ++ c) \/ refused) (fun st' => st'.1 = st.1 ++ c /\ buffered limit st').
Proof.
  destruct st as [b cap]. intros [Hb [Hc1 Hc2]]. simpl in *. pose proof (zlen_nonneg c). unfold grow.
  eapply (quietly_bind _ _ _ (fun x => x = limit - zlen b)).
  { eapply quietly_panic; [|reflexivity]. destruct (Z.leb_spec (zlen b) limit); [done|lia]. }
  intros room ->. destruct (Z.ltb_spec (limit - zlen b) (zlen c)) as [|Hroom]; [apply quietly_fail; left; rewrite zlen_app; lia|].
  eapply (quietly_bind _ _ _ (fun x => x = cap - zlen b)).
  { eapply quietly_panic; [|reflexivity]. destruct (Z.leb_spec (zlen b) cap); [done|lia]. }
  intros spare ->. destruct (Z.ltb_spec (cap - zlen b) (zlen c)).
  - set (target := Z.min _ _). eapply (quietly_bind _ _ _ (fun x => x = target - zlen b)).
    { eapply quietly_panic; [|reflexivity]. destruct (Z.leb_spec (zlen b) target); [done|]. unfold target in *. lia. }
    intros add ->. eapply (quietly_bind _ _ _ (fun x => x = false -> refused)); [apply quietly_ask; intros k Hk; by exists k|].
    intros [] Hr; simpl; [|apply quietly_fail; auto]. apply quietly_ret. unfold buffered. simpl. rewrite zlen_app. unfold target. split; [done|lia].
  - apply quietly_ret. unfold buffered. simpl. rewrite zlen_app. split; [done|lia].
Qed.

(** The loops over the chunks of a body; [note] is what is counted of one. *)
Lemma quietly_chunks (note : bytes -> N unit) limit over cs st :
  (forall c, quietly (note c) False (fun _ => True)) -> buffered limit st ->
  quietly (fold_n (fun st c => let* c := of_res (map_err net_err c) in run* note c in grow w limit over st c) st cs)
    ((forall l, cs = Ok <$> l -> limit < zlen (st.1 ++ concat l)) \/ refused)
    (fun st' => exists l, cs = Ok <$> l /\ st'.1 = st.1 ++ concat l /\ zlen st'.1 <= limit).
Proof.
  intros Hnote. revert st. induction cs as [|c cs IH]; intros st Hst; simpl.
  { apply quietly_ret. exists []. rewrite app_nil_r. split_and!; [done..|apply Hst]. }
  destruct c as [c|e]; simpl.
  - eapply (quietly_bind _ _ _ (fun st' => st'.1 = st.1 ++ c /\ buffered limit st')).
    + eapply (quietly_bind _ _ _ (fun x => x = c)); [apply quietly_res; [by intros a [= <-]|done]|]. intros ? ->.
      eapply quietly_bind; [eapply quietly_weaken; [apply Hnote|done|by intros]|]. intros _ _.
      eapply quietly_weaken; [by apply quietly_grow| |done]. intros [Hl|Hr]; [left|by right].
      intros l El. destruct l as [|x l]; [done|]. injection El as <- ->. simpl. rewrite app_assoc.
      rewrite zlen_app. pose proof (zlen_nonneg (concat l)). lia.
    + intros st' [Est Hst']. eapply quietly_weaken; [by apply IH| |].
      * intros [Hl|Hr]; [left|by right]. intros l El. destruct l as [|x l]; [done|]. injection El as <- El. simpl.
        specialize (Hl l El). rewrite Est in Hl. by rewrite app_assoc.
      * intros st2 (l & -> & E2 & Hl2). exists (c :: l). split; [done|]. rewrite E2, Est in *. simpl. by rewrite app_assoc.
  - eapply (quietly_bind _ _ _ (fun _ => False)); [|done].
    eapply (quietly_bind _ _ _ (fun _ => False)); [|done]. apply quietly_res; [done|]. intros _ _. left. by intros [|x l] El.
Qed.

Lemma quietly_json r limit : 0 <= limit ->
  quietly (read_json_bytes w r limit) (~ readable r limit \/ refused) (fun b => body_of r b /\ zlen b <= limit).
Proof.
  intros Hl. unfold read_json_bytes, readable. destruct (match hp_content_length r with Some n => _ | None => _ end) eqn:Ec.
  { apply quietly_fail. left. intros [Hn _]. destruct (hp_content_length r); [|done]. apply Z.ltb_lt in Ec. lia. }
  eapply quietly_bind; [eapply quietly_weaken; [apply (quietly_chunks (fun _ => ret tt) limit _ _ ([], 0))| |]|].
  - intros c. by apply quietly_ret.
  - unfold buffered, zlen. simpl. lia.
  - intros [Hc|Hr]; [left|by right]. intros [_ (b & (l & El & ->) & Hb)]. specialize (Hc l El). simpl in Hc. lia.
  - exact (fun st Hst => Hst).
  - intros st (l & El & Est & Hz). apply quietly_ret. split; [by exists l|done].
Qed.

(** ** Verdicts *)

(** What was read of an error response. *)
Definition reads (p : profile) (r : HttpResponse) (o : option bytes) : Prop :=
  match o with
  | Some b => body_of r b /\ zlen b <= response_byte_limit p
  | None => ~ readable r (response_byte_limit p) \/ refused
  end.

(** A body that allows another attempt: its canonical envelope says so, or there
    is no such envelope, not even a malformed one, and the status may pass. *)
Definition retry_allowed (b : bytes) (status : Z) : Prop :=
  (exists e, parse_response value_of b status = Ok e /\ ce_retryable e = true) \/
  (forall e, parse_response value_of b status <> Ok e) /\ has_canonical_hint b = false /\ status ∈ [429; 500; 502; 503; 504].

(** An answer that is not returned: whether it is worth another attempt, and
    the error it means. *)
Inductive failure (p : profile) : result TransportError HttpResponse -> bool -> SnapshotError -> Prop :=
  | failed_transport e worth : (worth = true <-> te_timeout e = true \/ te_connect e = true \/ te_request e = true) ->
      failure p (Err e) worth (net_err e)
  | failed_status r b worth : is_success (hp_status r) = false -> reads p r (Some b) -> (worth = true <-> retry_allowed b (hp_status r)) ->
      failure p (Ok r) worth (response_error p b (hp_status r))
  | failed_body r e worth : is_success (hp_status r) = false -> reads p r None ->
      (worth = true <-> hp_status r ∈ [429; 500; 502; 503; 504]) -> http_status e = hp_status r ->
      failure p (Ok r) worth e.

Lemma passing_status status : retryable_status status = true <-> status ∈ [429; 500; 502; 503; 504].
Proof.
  unfold retryable_status. rewrite existsb_exists. split.
  - intros (x & Hx & ->%Z.eqb_eq). by apply list_elem_of_In.
  - intros Hx. exists status. split; [by apply list_elem_of_In|apply Z.eqb_refl].
Qed.
Lemma error_retryable_spec b status : error_retryable b status = true <-> retry_allowed b status.
Proof.
  unfold error_retryable, retry_allowed. destruct (parse_response value_of b status) as [e|e].
  - split; [eauto|]. intros [(e' & [= ->] & ?)|(Hn & _)]; [done|]. by destruct (Hn e).
  - rewrite andb_true_iff, negb_true_iff, passing_status. split; [intros [? ?]; right; by split_and!|]. by intros [(? & ? & _)|(_ & ? & ?)].
Qed.

Definition judged (p : profile) (attempt : Z) (a : result TransportError HttpResponse) (v : verdict) : Prop :=
  match v with
  | Deliver r => a = Ok r /\ is_success (hp_status r) = true
  | Again => attempt < MAX_ATTEMPTS /\ exists e, failure p a true e
  | GiveUp e => exists worth, failure p a worth e /\ (attempt < MAX_ATTEMPTS -> worth = false)
  end.

Lemma failure_judged p attempt a worth e :
  failure p a worth e -> judged p attempt a (if (attempt <? MAX_ATTEMPTS) && worth then Again else GiveUp e).
Proof.
  intros Hf. destruct (Z.ltb_spec attempt MAX_ATTEMPTS), worth; simpl; eauto; eexists; (split; [exact Hf|]); intros; (done || lia).
Qed.

Lemma quietly_judge p attempt a : 0 <= response_byte_limit p -> quietly (judge w p attempt a) False (judged p attempt a).
Proof.
  intros Hl. unfold judge. destruct a as [r|e].
  2:{ apply quietly_ret, failure_judged. constructor. unfold retryable_transport. rewrite !orb_true_iff. tauto. }
  destruct (is_success (hp_status r)) eqn:Es; [by apply quietly_ret|].
  eapply quietly_bind; [eapply quietly_caught, quietly_json, Hl|]. intros [b|e] Hb; apply quietly_ret, failure_judged.
  - constructor; [done|done|apply error_retryable_spec].
  - constructor; [done|done|apply passing_status|done].
Qed.

(** ** The course of a request *)

(** The request of attempt [n + 1], and its receipt afterwards. *)
Definition labelled (receipt : option ResolveTraceReceipt) (n : Z) (q : Request) : Request :=
  match receipt with
  | Some rc => set_headers (insert_header "x-request-id" (attempt_name (logical_request_id rc) (n + 1))) q
  | None => q
  end.
Definition noted (n : Z) (rc : ResolveTraceReceipt) : ResolveTraceReceipt :=
  mkReceipt (logical_request_id rc) (attempt_ids rc ++ [attempt_name (logical_request_id rc) (n + 1)])
    (final_attempt_id rc) (rt_retry_count rc).

(** The answer repeats the id of its attempt, where there is one. *)
Definition echoes (receipt : option ResolveTraceReceipt) (n : Z) (r : HttpResponse) : Prop :=
  match receipt with
  | Some rc => validate_echo (hp_headers r) (attempt_name (logical_request_id rc) (n + 1)) = Ok tt
  | None => True
  end.

(** A timeout computed at [now] is the time left before the one deadline of the
    request, [timeout] after its [start]. *)
Definition timely (start timeout now t : Z) : Prop := start <= now /\ 0 < t /\ now + t = start + timeout.

(** What one logical request that started at [start] may do after [n] attempts,
    and how it may end: an attempt is given exactly the time left before the
    deadline all attempts share; an answer is returned when it is a success that
    repeats its id; a failure worth another attempt is followed by a pause. *)
Inductive course (p : profile) (start timeout : Z) (q : Request)
    : Z -> option ResolveTraceReceipt -> list event -> Run (HttpResponse * option ResolveTraceReceipt) -> Prop :=
  | course_refused n receipt e : course p start timeout q n receipt [] (Err (Failed e))
  | course_delivered n receipt now t r :
      n < MAX_ATTEMPTS -> timely start timeout now t -> is_success (hp_status r) = true -> echoes receipt n r ->
      course p start timeout q n receipt [Exchanged (labelled receipt n q) now t (Ok r)] (Ok (r, noted n <$> receipt))
  | course_unbound n receipt now t r :
      n < MAX_ATTEMPTS -> timely start timeout now t -> ~ echoes receipt n r ->
      course p start timeout q n receipt [Exchanged (labelled receipt n q) now t (Ok r)] (Err (Failed echo_error))
  | course_failed n receipt now t a worth e :
      n < MAX_ATTEMPTS -> timely start timeout now t -> failure p a worth e -> (n + 1 < MAX_ATTEMPTS -> worth = false) ->
      course p start timeout q n receipt [Exchanged (labelled receipt n q) now t a] (Err (Failed e))
  | course_late n receipt now t a e ms :
      n + 1 < MAX_ATTEMPTS -> timely start timeout now t -> failure p a true e -> BASE_BACKOFF_MS * 2 ^ n <= ms <= 2 * BASE_BACKOFF_MS * 2 ^ n ->
      course p start timeout q n receipt [Exchanged (labelled receipt n q) now t a; Slept ms] (Err (Failed request_deadline))
  | course_again n receipt now t a e ms new res :
      n + 1 < MAX_ATTEMPTS -> timely start timeout now t -> failure p a true e -> BASE_BACKOFF_MS * 2 ^ n <= ms <= 2 * BASE_BACKOFF_MS * 2 ^ n ->
      course p start timeout q (n + 1) (noted n <$> receipt) new res ->
      course p start timeout q n receipt (Exchanged (labelled receipt n q) now t a :: Slept ms :: new) res.

Definition exchanges (l : list event) : list (Request * result TransportError HttpResponse) :=
  omap (fun e => match e with Exchanged q _ _ a => Some (q, a) | Slept _ => None end) l.
Definition paused (l : list event) : Z := foldr (fun e n => match e with Slept ms => ms + n | _ => n end) 0 l.

Lemma backoff_bounds n nanos : 0 <= n < 4 -> BASE_BACKOFF_MS * 2 ^ n <= backoff_ms (n + 1) nanos <= 2 * BASE_BACKOFF_MS * 2 ^ n.
Proof.
  intros Hn. unfold backoff_ms, saturating_sub. replace (Z.min (Z.max (n + 1 - 1) 0) 4) with n by lia.
  rewrite Z.shiftl_mul_pow2 by lia. unfold BASE_BACKOFF_MS. assert (0 < 2 ^ n) by (apply Z.pow_pos_nonneg; lia).
  destruct nanos as [k|]; [|lia]. pose proof (Z.mod_pos_bound k (40 * 2 ^ n + 1)). lia.
Qed.

(** The receipt of a run that has made [n] attempts. *)
Definition receipt_at (n : Z) (receipt : option ResolveTraceReceipt) : Prop :=
  match receipt with Some rc => zlen (attempt_ids rc) = n | None => True end.

Lemma receipt_noted n receipt : receipt_at n receipt -> receipt_at (n + 1) (noted n <$> receipt).
Proof. destruct receipt as [rc|]; [|done]. simpl. rewrite zlen_app. intros ->. reflexivity. Qed.

Lemma validate_echo_ok hs id : validate_echo hs id = Ok tt -> get_all "x-request-id" hs = [id].
Proof.
  unfold validate_echo. destruct (get_all "x-request-id" hs) as [|v [|v' l]]; simpl.
  - done.
  - intros [Hv _]%reject_ok. apply orb_false_iff in Hv as [Hv%negb_false_iff%bool_decide_eq_true _]. unfold header_to_str in Hv.
    destruct (forallb _ _); [|done]. by injection Hv as ->.
  - intros [Hv _]%reject_ok. apply orb_false_iff in Hv as [_ Hv%Z.ltb_ge]. unfold zlen in Hv. simpl in Hv. lia.
Qed.

Lemma validate_echo_err hs id e : validate_echo hs id = Err e -> e = echo_error /\ validate_echo hs id <> Ok tt.
Proof. unfold validate_echo. destruct (_ || _); [|done]. by intros [= <-]. Qed.

(** The check of an answer against the id its attempt was given. *)
Definition echo_check (named : option (string * ResolveTraceReceipt)) (a : result TransportError HttpResponse) : Res unit :=
  match a, named with
  | Ok r, Some (id, _) => validate_echo (hp_headers r) id
  | _, _ => Ok tt
  end.

Lemma quietly_label receipt n q : 0 <= n < MAX_ATTEMPTS -> receipt_at n receipt ->
  quietly (label w receipt (n + 1) q) True (fun x => x.1 = labelled receipt n q /\ snd <$> x.2 = noted n <$> receipt /\
    (forall r, echo_check x.2 (Ok r) = Ok tt -> echoes receipt n r) /\
    (forall a e, echo_check x.2 a = Err e -> exists r, a = Ok r /\ e = echo_error /\ ~ echoes receipt n r)).
Proof.
  intros Hn Hr. destruct receipt as [rc|]; simpl; [|apply quietly_ret; split_and!; try done; by intros [] ?].
  simpl in Hr. unfold receipt_attempt. rewrite Hr. unfold MAX_ATTEMPTS in Hn.
  destruct (_ || _) eqn:Eg; [exfalso; unfold in_range in Eg; lia|]. clear Eg.
  eapply (quietly_bind _ _ _ (fun x => x = (attempt_name (logical_request_id rc) (n + 1), noted n rc))).
  { apply quietly_res; [|done]. by intros a [= <-]. }
  intros x ->. simpl. destruct (negb _); [by apply quietly_fail|]. apply quietly_ret. split_and!; [done..|].
  intros [r|e] e' Hc; simpl in Hc; [|done]. apply validate_echo_err in Hc as [-> Hc]. by exists r.
Qed.

(** ** The loop follows the course *)

(** The retries that [k] exchanges after [n] attempts are. *)
Definition retried (n k : Z) (m : Z) : Z := Nat.iter (Z.to_nat (if n =? 0 then k - 1 else k)) (fun m => wrapping_add m 1) m.

Definition follows (p : profile) (start timeout : Z) (q : Request) (n : Z) (receipt : option ResolveTraceReceipt) (s : net)
    (x : Run (HttpResponse * option ResolveTraceReceipt) * net) : Prop :=
  exists new, net_trace x.2 = net_trace s ++ new /\ net_cells x.2 = net_cells s /\
    net_retries x.2 = retried n (zlen (exchanges new)) (net_retries s) /\ course p start timeout q n receipt new x.1.

Lemma follows_silent p start timeout q n receipt s s1 x : silent s s1 -> follows p start timeout q n receipt s1 x -> follows p start timeout q n receipt s x.
Proof. intros (E1 & E2 & E3 & _) (new & Hf). exists new. by rewrite <- E1, <- E2, <- E3. Qed.

Lemma follows_refused p start timeout q n receipt s s1 e : silent s s1 -> follows p start timeout q n receipt s (Err (Failed e), s1).
Proof.
  intros Hs. eapply follows_silent; [exact Hs|]. exists []. simpl. rewrite app_nil_r. split_and!; [done..| |constructor].
  unfold retried. by destruct (n =? 0).
Qed.

(** A program after one that is silent. *)
Lemma after_quiet {A B : Type} (c : N A) (k : A -> N B) E (P : A -> Prop) (G : Run B * net -> Prop) s :
  quietly c E P -> (forall a s1, P a -> silent s s1 -> G (k a s1)) -> (forall e s1, E -> silent s s1 -> G (Err (Failed e), s1)) ->
  G (bind c k s).
Proof. intros Hc Hk He. unfold bind. destruct (Hc s) as [Hs Hr]. destruct (c s) as [[a|[]] s1]; simpl in *; auto; done. Qed.

Lemma after_ask {A B : Type} (f : nat -> A) (k : A -> N B) (G : Run B * net -> Prop) s :
  (forall s1, silent s s1 -> G (k (f (net_step s)) s1)) -> G (bind (ask f) k s).
Proof. intros Hk. apply Hk. unfold silent. simpl. split_and!; [done..|lia]. Qed.

(** The state after the exchange of attempt [n + 1]. *)
Definition exchanged (n : Z) (e : event) (s s1 : net) : Prop :=
  net_trace s1 = net_trace s ++ [e] /\ net_cells s1 = net_cells s /\
  net_retries s1 = retried n 1 (net_retries s) /\ (net_step s <= net_step s1)%nat.

Lemma exchanged_silent n e s s1 s2 : exchanged n e s s1 -> silent s1 s2 -> exchanged n e s s2.
Proof. unfold exchanged, silent. intros (E1 & E2 & E3 & ?) (F1 & F2 & F3 & ?). rewrite F1, F2, F3. split_and!; [done..|lia]. Qed.

Lemma follows_exchanged p start timeout q n receipt e s s1 r :
  exchanged n e s s1 -> length (exchanges [e]) = 1%nat -> course p start timeout q n receipt [e] r -> follows p start timeout q n receipt s (r, s1).
Proof. intros (E1 & E2 & E3 & _) Hl Hc. exists [e]. simpl. split_and!; try done. rewrite E3. f_equal. change (1 = zlen (exchanges [e])). unfold zlen. by rewrite Hl. Qed.

Lemma retried_later n k m : 0 <= n -> 0 <= k -> retried (n + 1) k (retried n 1 m) = retried n (k + 1) m.
Proof.
  intros Hn Hk. unfold retried. destruct (Z.eqb_spec (n + 1) 0); [lia|]. destruct (Z.eqb_spec n 0).
  - simpl. f_equal. lia.
  - rewrite <- Nat.iter_add. f_equal. lia.
Qed.

Lemma follows_again p start timeout q n receipt now t a e ms s s1 s2 x :
  0 <= n -> n + 1 < MAX_ATTEMPTS -> timely start timeout now t -> failure p a true e ->
  BASE_BACKOFF_MS * 2 ^ n <= ms <= 2 * BASE_BACKOFF_MS * 2 ^ n ->
  exchanged n (Exchanged (labelled receipt n q) now t a) s s1 ->
  net_trace s2 = net_trace s1 ++ [Slept ms] -> net_cells s2 = net_cells s1 -> net_retries s2 = net_retries s1 ->
  follows p start timeout q (n + 1) (noted n <$> receipt) s2 x -> follows p start timeout q n receipt s x.
Proof.
  intros H0 Hn Ht Hf Hms (E1 & E2 & E3 & _) F1 F2 F3 (new & G1 & G2 & G3 & G4).
  exists (Exchanged (labelled receipt n q) now t a :: Slept ms :: new). rewrite G1, F1, E1, G2, F2, E2, G3, F3, E3.
  split_and!; [by rewrite <- !app_assoc|done| |by econstructor].
  rewrite retried_later by (done || apply zlen_nonneg). f_equal. unfold zlen. simpl. lia.
Qed.

Lemma attempts_course fuel p start timeout n q receipt s :
  Z.of_nat fuel + n = MAX_ATTEMPTS -> 0 <= n < MAX_ATTEMPTS -> 0 <= response_byte_limit p -> receipt_at n receipt ->
  (forall k, (net_step s <= k)%nat -> start <= w_now w k) ->
  follows p start timeout q n receipt s (attempts w fuel p (start + timeout) n (Some q) receipt s).
Proof.
  revert n receipt s. induction fuel as [|fuel IH]; intros n receipt s Hf Hn Hl Hr Hd; [lia|].
  cbn [attempts]. set (this := if n + 1 <? MAX_ATTEMPTS then _ else _).
  assert (Hthis : this = None \/ this = Some q).
  { unfold this. destruct (_ <? _); [|by right]. simpl. unfold try_clone. destruct (hr_body q); auto. }
  destruct Hthis as [-> | ->]; [apply follows_refused, silent_refl|].
  apply after_ask. intros s1 Hs1. set (now := w_now w (net_step s)). set (t := saturating_sub (start + timeout) now). destruct (Z.eqb_spec t 0) as [|Ht]; [by apply follows_refused|].
  assert (Ht' : timely start timeout now t) by (specialize (Hd (net_step s) ltac:(lia)); unfold timely, t, now, saturating_sub in *; lia).
  eapply follows_silent; [exact Hs1|].
  eapply after_quiet; [by apply quietly_label| |by intros; apply follows_refused].
  intros [this named] s2 (E1 & E2 & Hok & Hbad) Hs2. simpl in E1, E2, Hok, Hbad. subst this. cbn [fst snd].
  set (q1 := labelled receipt n q) in *.
  match goal with |- follows _ _ _ _ _ _ _ ?x => set (X := x) end.
  assert (Hex : exists a s3, exchanged n (Exchanged q1 now t a) s1 s3 /\ X =
    bind (of_res (echo_check named a)) (fun _ => let* v := judge w p (n + 1) a in
      match v with
      | Deliver r => ret (r, snd <$> named)
      | Again => run* sleep_backoff w (n + 1) in attempts w fuel p (start + timeout) (n + 1) (if n + 1 <? MAX_ATTEMPTS then Some q else None) (snd <$> named)
      | GiveUp e => fail e
      end) s3).
  { destruct Hs2 as (G1 & G2 & G3 & G4). unfold X. destruct (Z.ltb_spec 1 (n + 1)).
    - do 2 eexists. split; [|unfold bind, execute, ask, log, count_retry, ret; simpl; reflexivity].
      unfold exchanged. simpl. rewrite G1, G2, G3. split_and!; [done..| |lia]. unfold retried. by destruct (Z.eqb_spec n 0); [lia|].
    - do 2 eexists. split; [|unfold bind, execute, ask, log, ret; simpl; reflexivity].
      unfold exchanged. simpl. rewrite G1, G2, G3. split_and!; [done..| |lia]. unfold retried. by destruct (Z.eqb_spec n 0); [|lia]. }
  destruct Hex as (a & s3 & Hx & ->). destruct (echo_check named a) as [[]|e] eqn:Eecho.
  2:{ destruct (Hbad _ _ Eecho) as (r & -> & -> & Hne). eapply follows_exchanged; [exact Hx|done|apply course_unbound; [lia|done|done]]. }
  unfold bind at 1. simpl. eapply after_quiet; [by apply quietly_judge| |done]. intros v s4 Hv Hs4. pose proof (exchanged_silent _ _ _ _ _ Hx Hs4) as Hx4.
  destruct v as [r| |e]; simpl in Hv.
  - destruct Hv as [-> Hsucc]. rewrite E2. eapply follows_exchanged; [exact Hx4|done|apply course_delivered; try done; [lia|by apply Hok]].
  - destruct Hv as [Hlt [e He]]. rewrite (proj2 (Z.ltb_lt _ _) Hlt), E2. unfold sleep_backoff, bind, ask, log. simpl.
    set (ms := backoff_ms _ _). assert (Hms : BASE_BACKOFF_MS * 2 ^ n <= ms <= 2 * BASE_BACKOFF_MS * 2 ^ n) by (apply backoff_bounds; unfold MAX_ATTEMPTS, ATTEMPT_LIMIT in *; lia).
    destruct (negb _); simpl.
    + destruct Hx4 as (F1 & F2 & F3 & F4). exists [Exchanged q1 now t a; Slept ms]. simpl. rewrite F1, F2, F3. split_and!; [by rewrite <- app_assoc|done..|].
      by eapply course_late.
    + match goal with |- follows _ _ _ _ _ _ _ (attempts _ _ _ _ _ _ _ ?s5) => apply (follows_again p start timeout q n receipt now t a e ms s1 s4 s5); try done; [lia|] end.
      apply IH; [lia|lia|done|by apply receipt_noted|]. intros k Hk. apply Hd. destruct Hx4 as (_ & _ & _ & F4), Hs1 as (_ & _ & _ & F5). simpl in Hk. lia.
  - destruct Hv as (worth & He & Hw). eapply follows_exchanged; [exact Hx4|done|eapply course_failed; eauto; lia].
Qed.

(** ** Whole requests *)

Lemma exchanges_cons q now t a l : exchanges (Exchanged q now t a :: l) = (q, a) :: exchanges l.
Proof. done. Qed.

Lemma course_bounds p start timeout q n receipt new r :
  course p start timeout q n receipt new r -> 0 <= n < MAX_ATTEMPTS ->
  zlen (exchanges new) <= MAX_ATTEMPTS - n /\ 0 <= paused new <= 2 * BASE_BACKOFF_MS * (2 ^ 3 - 2 ^ n) /\ clean r.
Proof.
  assert (Hpow : forall m, 0 <= m -> m < 4 -> 0 < 2 ^ m <= 2 ^ 3) by (intros; split; [apply Z.pow_pos_nonneg; lia|apply Z.pow_le_mono_r; lia]).
  unfold BASE_BACKOFF_MS, MAX_ATTEMPTS, ATTEMPT_LIMIT. induction 1 as [| | | | |n receipt now t a e ms new r Hn Ht Hf Hms Hc IH]; intros Hr; specialize (Hpow n ltac:(lia) ltac:(lia)) as Hp;
    unfold BASE_BACKOFF_MS, MAX_ATTEMPTS, ATTEMPT_LIMIT in *; try (unfold zlen; simpl; split_and!; (done || lia)).
  - assert (2 ^ (n + 1) = 2 * 2 ^ n) by (rewrite Z.pow_add_r by lia; lia). specialize (Hpow (n + 1) ltac:(lia) ltac:(lia)).
    unfold zlen. simpl. split_and!; (done || lia).
  - destruct (IH ltac:(lia)) as (H1 & H2 & H3). assert (2 ^ (n + 1) = 2 * 2 ^ n) by (rewrite Z.pow_add_r by lia; lia).
    rewrite exchanges_cons. unfold zlen in *. simpl in *. split_and!; (done || lia).
Qed.

(** The credential headers of a client. *)
Definition credentials_in (c : Mst2Client) (cells : gmap nat (option string)) : option string * option string :=
  match c_bound c with
  | Some bound => bound
  | None => (mjoin (cells !! c_token c), mjoin (cells !! c_lease c))
  end.
Definition identified (c : Mst2Client) (cells : gmap nat (option string)) (q : Request) : Request :=
  let now := credentials_in c cells in
  set_headers (fun hs => hs ++ (match now.1 with Some t => [("authorization", "Bearer " ++ t)] | None => [] end)%string
                           ++ match now.2 with Some l => [("x-mega-snapshot-lease", l)] | None => [] end) q.

Lemma credentials_read c s : credentials c s = (Ok (credentials_in c (net_cells s)), s).
Proof. unfold credentials, credentials_in. destruct s. by destruct (c_bound c). Qed.
Lemma identified_read c q s : with_credentials c q s = (Ok (identified c (net_cells s) q), s).
Proof.
  unfold with_credentials, bind. rewrite credentials_read. unfold identified, ret. destruct (credentials_in _ _) as [[t|] [l|]], q; simpl; unfold set_headers, append_header; simpl;
    by rewrite ?app_nil_r, <- ?app_assoc.
Qed.

Lemma iter_wrapping k m : is_u64 m -> Nat.iter k (fun m => wrapping_add m 1) m = wrapping_add m (Z.of_nat k).
Proof.
  intros Hm. unfold wrapping_add. induction k as [|k IH]; simpl Nat.iter.
  - rewrite Z.add_0_r, Z.mod_small; [done|]. unfold is_u64, u64_max in Hm. lia.
  - rewrite IH, Zplus_mod_idemp_l. f_equal. lia.
Qed.

Lemma send_follows c q receipt s :
  (forall i j, (i <= j)%nat -> w_now w i <= w_now w j) -> 0 <= response_byte_limit (c_profile c) -> receipt_at 0 receipt ->
  follows (c_profile c) (w_now w (net_step s)) (c_timeout c) (identified c (net_cells s) q) 0 receipt s (send_retrying_with_receipt w c q receipt s).
Proof.
  intros Hnow Hl Hr. unfold send_retrying_with_receipt. unfold bind at 1. rewrite identified_read. cbv beta iota.
  set (q1 := identified _ _ _). destruct (w_build w q1); [apply follows_refused, silent_refl|]. unfold bind at 1, ret at 1. cbv beta iota.
  destruct (match hr_body q1 with Whole b => _ | _ => _ end); [apply follows_refused, silent_refl|].
  apply after_ask. intros s1 Hs1. eapply follows_silent; [exact Hs1|].
  apply attempts_course; try done. intros k Hk. destruct Hs1 as (_ & _ & _ & Hs1).
  specialize (Hnow (net_step s) k ltac:(lia)). lia.
Qed.

(** C19: one logical request keeps to its course. Whatever the network answers,
    it ends in a response or in a client error; it exchanges at most four
    times, always the same request with the credentials the client had when it
    was called (and the id of the attempt, when attempts are observed), each
    time with exactly the time that is left before the one deadline, the
    client's timeout after the call; another attempt follows only
    an answer that allows it - a transport failure that may pass, an error
    whose canonical envelope says that it may be retried, or one without such
    an envelope and with a passing status - after a pause within the bounds of
    its backoff, all pauses together at most 560 ms; a response is returned
    only when it is a success that repeats the id of its attempt; and every
    attempt after the first is counted. *)
Theorem requests_disciplined c q receipt s :
  (forall i j, (i <= j)%nat -> w_now w i <= w_now w j) -> 0 <= response_byte_limit (c_profile c) ->
  receipt_at 0 receipt -> is_u64 (net_retries s) ->
  exists r s' new, send_retrying_with_receipt w c q receipt s = (r, s') /\ clean r /\
    net_trace s' = net_trace s ++ new /\ net_cells s' = net_cells s /\
    course (c_profile c) (w_now w (net_step s)) (c_timeout c) (identified c (net_cells s) q) 0 receipt new r /\
    zlen (exchanges new) <= 4 /\ paused new <= 560 /\
    net_retries s' = wrapping_add (net_retries s) (Z.max (zlen (exchanges new) - 1) 0).
Proof.
  intros Hnow Hl Hr Hu. destruct (send_follows c q receipt s Hnow Hl Hr) as (new & H1 & H2 & H3 & H4).
  destruct (send_retrying_with_receipt w c q receipt s) as [r s'] eqn:E. exists r, s', new. simpl in *.
  destruct (course_bounds _ _ _ _ _ _ _ _ H4 ltac:(done)) as (B1 & [_ B2] & B3). split_and!; try done.
  rewrite H3. unfold retried. simpl. rewrite iter_wrapping by done. f_equal. lia.
Qed.

(** ** Receipts *)

Lemma get_all_insert name v hs : get_all name (insert_header name v hs) = [v].
Proof.
  unfold get_all, insert_header. rewrite list.filter_app. rewrite list.filter_cons_True by done. rewrite list.filter_nil.
  replace (filter _ (filter _ hs)) with (@nil (string * string)); [done|]. symmetry. induction hs as [|h hs IH]; [done|].
  rewrite list.filter_cons. destruct (decide (h.1 <> name)); [|done]. by rewrite list.filter_cons_False.
Qed.

(** The ids sent with the exchanges of a run. *)
Definition ids_sent (l : list event) : list string := exchanges l ≫= (fun x => get_all "x-request-id" (hr_headers x.1)).

Lemma course_receipt p start timeout q n rc new r o :
  course p start timeout q n (Some rc) new (Ok (r, o)) -> 0 <= n ->
  exists rc' before q', o = Some rc' /\ exchanges new = before ++ [(q', Ok r)] /\
    logical_request_id rc' = logical_request_id rc /\ attempt_ids rc' = attempt_ids rc ++ ids_sent new /\
    ids_sent new = attempt_name (logical_request_id rc) <$> seqZ (n + 1) (zlen (exchanges new)) /\
    is_success (hp_status r) = true /\
    get_all "x-request-id" (hp_headers r) = [attempt_name (logical_request_id rc) (n + zlen (exchanges new))].
Proof.
  intros Hc. remember (Some rc) as receipt eqn:Er. remember (Ok (r, o)) as res eqn:Eres. revert rc Er.
  induction Hc as [|n receipt now t r' Hn Ht Hs He| | | |n receipt now t a e ms new res Hn Ht Hf Hms Hc IH]; intros rc Er Hpos; try done; subst receipt.
  - injection Eres as <- <-. exists (noted n rc), [], (labelled (Some rc) n q). unfold ids_sent. simpl. rewrite get_all_insert, app_nil_r.
    assert (E1 : zlen [(labelled (Some rc) n q, Ok (E := TransportError) r')] = 1) by done.
    split_and!; try done; simpl in E1 |- *; rewrite E1. by apply validate_echo_ok in He.
  - destruct (IH Eres (noted n rc) eq_refl ltac:(lia)) as (rc' & before & q' & -> & E1 & E2 & E3 & E4 & E5 & E6).
    assert (Eids : ids_sent (Exchanged (labelled (Some rc) n q) now t a :: Slept ms :: new) = attempt_name (logical_request_id rc) (n + 1) :: ids_sent new).
    { unfold ids_sent. rewrite exchanges_cons. cbn [mbind list_bind]. simpl. by rewrite get_all_insert. }
    rewrite Eids, exchanges_cons. change (exchanges (Slept ms :: new)) with (exchanges new).
    assert (Elen : zlen ((labelled (Some rc) n q, a) :: exchanges new) = zlen (exchanges new) + 1) by (unfold zlen; simpl; lia).
    exists rc', ((labelled (Some rc) n q, a) :: before), q'. rewrite Elen. split_and!; try done.
    + by rewrite E1.
    + rewrite E3. simpl. by rewrite <- app_assoc.
    + pose proof (zlen_nonneg (exchanges new)). rewrite (seqZ_cons (n + 1)) by lia. cbn [fmap list_fmap]. f_equal. rewrite E4. simpl. f_equal. f_equal; lia.
    + rewrite E6. simpl. do 2 f_equal. lia.
Qed.

Section Observed.
Context `{CodecScope} `{Rfc3339} `{HexCrate} `{DescriptorCodec} `{UuidCrate}.

(** What follows an exchange reads on, and sends nothing. *)
Lemma quietly_response {T : Type} c (decode : json -> option T) r :
  0 <= response_byte_limit (c_profile c) ->
  quietly (json_response w c decode r) True (fun v => exists b, body_of r b /\ parse_json decode b = Ok v).
Proof.
  intros Hl. unfold json_response. eapply (quietly_bind _ _ _ (fun x => x = r)).
  - unfold checked_response. destruct (is_success _); [by apply quietly_ret|].
    eapply quietly_bind; [eapply quietly_caught, quietly_json, Hl|]. intros [b|e] _; by apply quietly_fail.
  - intros ? ->. eapply quietly_bind; [eapply quietly_weaken; [by apply quietly_json|done|exact (fun b Hb => Hb)]|].
    intros b [Hb _]. apply quietly_res; [|done]. eauto.
Qed.

Lemma str_len_app a b : str_len (a ++ b) = str_len a + str_len b.
Proof. rewrite !str_len_as_bytes, as_bytes_app, length_app. lia. Qed.

Lemma attempt_name_len id k : 1 <= k <= 4 -> str_len (attempt_name id k) = str_len id + 3.
Proof.
  intros Hk. assert (Ek : str_len (u64_to_string k) = 1).
  { assert (E : k = 1 \/ k = 2 \/ k = 3 \/ k = 4) by lia. by destruct E as [-> |[-> |[-> | ->]]]. }
  unfold attempt_name. rewrite !str_len_app, Ek. change (str_len ":a") with 2. lia.
Qed.

Lemma last_name id k : 1 <= k -> list.last (attempt_name id <$> seqZ 1 k) = Some (attempt_name id k).
Proof.
  intros Hk. replace k with (Z.of_nat (S (Z.to_nat (k - 1)))) at 1 by lia. rewrite seqZ_S, fmap_app. cbn [fmap list_fmap]. rewrite last_snoc. do 2 f_equal. lia.
Qed.

Lemma net_bind_ok {A B : Type} (c : N A) (k : A -> N B) s b s' :
  bind c k s = (Ok b, s') -> exists a s1, c s = (Ok a, s1) /\ k a s1 = (Ok b, s').
Proof. unfold bind. destruct (c s) as [[a|e] s1]; [eauto|done]. Qed.
Lemma of_res_ok {A : Type} (r : Res A) s a s' : of_res r s = (Ok a, s') -> r = Ok a /\ s' = s.
Proof. unfold of_res, of_run. destruct r; simpl; [|done]. by intros [= <- <-]. Qed.
Lemma quietly_ok {A : Type} (c : N A) E (Q : A -> Prop) s a s' : quietly c E Q -> c s = (Ok a, s') -> Q a /\ silent s s'.
Proof. intros Hc Hr. destruct (Hc s) as [Hs Hq]. rewrite Hr in Hs, Hq. done. Qed.

(** A resolve, its exchanges and what they were read as. *)
Lemma resolve_internal_ok c request receipt canonical s resp o s' :
  (forall i j, (i <= j)%nat -> w_now w i <= w_now w j) -> 0 <= response_byte_limit (c_profile c) -> receipt_at 0 receipt ->
  resolve_request_internal w c request receipt canonical s = (Ok (resp, o), s') ->
  exists new answer b v, net_trace s' = net_trace s ++ new /\
    course (c_profile c) (w_now w (net_step s)) (c_timeout c) (identified c (net_cells s) (json_request (snapshots_url c "/resolve") (resolve_body request)))
      0 receipt new (Ok (answer, o)) /\
    body_of answer b /\ parse_value b = Ok v /\ parse_request v request (canonical || is_canonical (c_profile c)) = Ok resp.
Proof.
  intros Hnow Hl Hr Hrun. unfold resolve_request_internal in Hrun.
  apply net_bind_ok in Hrun as (x & s1 & [_ ->]%of_res_ok & Hrun). apply net_bind_ok in Hrun as ([answer o'] & s2 & Hsend & Hrun).
  apply net_bind_ok in Hrun as (v & s3 & Hjson & Hrun). apply net_bind_ok in Hrun as (r & s4 & [Hparse ->]%of_res_ok & Hrun).
  unfold ret in Hrun. injection Hrun as -> -> ->. simpl in *.
  apply (quietly_ok _ _ _ _ _ _ (quietly_response _ _ _ Hl)) in Hjson as [(b & Hb & Hv) (Et & _)].
  destruct (send_follows c (json_request (snapshots_url c "/resolve") (resolve_body request)) receipt s Hnow Hl Hr) as (new & E1 & _ & _ & E4).
  rewrite Hsend in E1, E4. simpl in E1, E4. exists new, answer, b, v. rewrite Et, E1. split_and!; try done.
  unfold parse_json in Hv. inv_ok. by simplify_eq.
Qed.

(** C27: an observed resolve is what it says it is. When it succeeds, its
    receipt lists the ids of exactly the attempts that were sent, in order, all
    made of the caller's id and of at most 128 bytes, names the last one and
    counts the others as retries; the response that was accepted is the answer
    to that last attempt and repeats its id alone; and the resolution, read
    from the bytes of that response without a repeated key, answers the request
    when the canonical contract is selected or required: its scope, its view,
    a descriptor with a recomputed identity, canonical counters, a lease that
    expires after the resolution, and at most a grant bound to the snapshot. *)
Theorem observed_resolve_exact c request id canonical s resp receipt s' :
  (forall i j, (i <= j)%nat -> w_now w i <= w_now w j) -> 0 <= response_byte_limit (c_profile c) ->
  observed w c request id canonical s = (Ok (resp, receipt), s') ->
  exists new before q answer b v, net_trace s' = net_trace s ++ new /\
    exchanges new = before ++ [(q, Ok answer)] /\ zlen (exchanges new) <= 4 /\
    logical_request_id receipt = id /\ attempt_ids receipt = ids_sent new /\
    attempt_ids receipt = attempt_name id <$> seqZ 1 (zlen (exchanges new)) /\
    Forall (fun a => str_len a <= 128) (attempt_ids receipt) /\
    list.last (attempt_ids receipt) = Some (final_attempt_id receipt) /\
    rt_retry_count receipt = zlen (exchanges new) - 1 /\
    get_all "x-request-id" (hp_headers answer) = [final_attempt_id receipt] /\
    body_of answer b /\ parse_value b = Ok v /\
    parse_request v request (canonical || is_canonical (c_profile c)) = Ok resp /\
    (selects_canonical v = true \/ canonical = true -> answers_request v request resp).
Proof.
  intros Hnow Hl Hrun. unfold observed in Hrun. apply net_bind_ok in Hrun as (rc & s1 & [Hnew ->]%of_res_ok & Hrun).
  apply net_bind_ok in Hrun as ([resp' o] & s2 & Hres & Hrun). apply net_bind_ok in Hrun as (rc1 & s3 & Hfill & Hrun).
  apply net_bind_ok in Hrun as (rc2 & s4 & [Hfin ->]%of_res_ok & Hrun). unfold ret in Hrun. injection Hrun as -> -> ->.
  unfold or_panic, of_run in Hfill. destruct o as [rc'|]; [|done]. simpl in Hfill. injection Hfill as -> ->. simpl in Hres.
  unfold receipt_new in Hnew. apply rbind_ok in Hnew as ([] & Hid & [= <-]). unfold validate_logical_id in Hid.
  apply reject_ok in Hid as [Hid _]. apply orb_false_iff in Hid as [Hid _]. apply orb_false_iff in Hid as [_ Hid%Z.ltb_ge].
  eapply resolve_internal_ok in Hres as (new & answer & b & v & Et & Hc & Hb & Hv & Hp); [|done|done|reflexivity].
  destruct (course_bounds _ _ _ _ _ _ _ _ Hc ltac:(done)) as (Hlen & _). unfold MAX_ATTEMPTS, ATTEMPT_LIMIT in Hlen.
  destruct (course_receipt _ _ _ _ _ _ _ _ _ Hc ltac:(lia)) as (rc' & before & q & [= <-] & Ex & Elog & Eids & Eseq & Hsucc & Hecho).
  simpl in *. unfold receipt_finish in Hfin. inv_ok. subst receipt. simpl.
  assert (Hk : 1 <= zlen (exchanges new)) by (rewrite Ex, zlen_app; unfold zlen; simpl; lia).
  assert (Hall : attempt_ids rc1 = attempt_name id <$> seqZ 1 (zlen (exchanges new))) by (by rewrite Eids, Eseq).
  exists new, before, q, answer, b, v. split_and!; try done.
  - rewrite Hall. apply Forall_fmap, Forall_seqZ. intros k Hkr. simpl. rewrite attempt_name_len; lia.
  - f_equal. rewrite Hall. unfold zlen at 1. rewrite length_fmap, length_seqZ. lia.
  - match goal with Hx : list.last _ = Some _ |- _ => rewrite Hall, last_name in Hx by done; injection Hx as <- end. by rewrite Hecho.
  - intros Hsel. eapply resolve_bound; [exact Hp|]. destruct Hsel as [Hsel | ->]; [by left|by right].
Qed.
End Observed.

(** ** Lookups *)

Lemma for_each_all {E X : Type} (f : X -> result E unit) l : for_each (fun _ x => f x) tt l = Ok tt -> Forall (fun x => f x = Ok tt) l.
Proof.
  induction l as [|x l IH]; [constructor|]. cbn [for_each]. intros ([] & Hx & Hl)%rbind_ok. constructor; auto.
Qed.

(** What a result says of its path; [identity_of] answers only for a node that
    has the fields of its kind and none of another. *)
Definition typed_result (p : profile) (r : LookupResult) : Prop :=
  match lr_node r with
  | None => lr_status r ∈ ["absent"; "not_directory"; "symlink_traversal"]
  | Some node =>
      lr_status r = "found" /\
      (exists i, Lookup.identity_of node = Some i /\ Lookup.identity_wf i) /\
      (lr_path r = "/" -> Lookup.n_name node = None /\ Lookup.n_fs_kind node = "directory") /\
      (lr_path r <> "/" -> exists n, Lookup.n_name node = Some n /\ Dir.name_valid n = true /\
                                     Lookup.last_component (lr_path r) = Some n) /\
      (forall t n, Lookup.n_size node = Some t -> parse_count t "lookup size" = Ok n ->
         n <= limit_or p MAX_FILE_SIZE max_file_bytes)
  end.

Lemma check_result_ok p r path : check_result p r path = Ok tt -> lr_path r = path /\ typed_result p r.
Proof.
  unfold check_result. intros [Hg Hc]%reject_ok. apply orb_false_iff in Hg as [Hp%negb_false_iff%String.eqb_eq Hst]. subst path. split; [done|].
  unfold typed_result. destruct (lr_node r) as [node|].
  - apply rbind_ok in Hc as ([] & Hv & Hc). destruct (String.eqb_spec (lr_status r) "found") as [Hf|]; [|by destruct (one_of _ _)].
    destruct (Lookup.lookup_node_typed _ _ Hv) as (H1 & H2 & H3). split_and!; try done.
    intros t n Et En. rewrite Et, En in Hc. simpl in Hc. unfold validate_file_size in Hc. apply reject_ok in Hc as [Hc%Z.ltb_ge _]. done.
  - destruct (String.eqb_spec (lr_status r) "found"); [done|]. destruct (one_of _ _) eqn:Eo; [|done]. by apply one_of_true.
Qed.

(** C40: a lookup answers the paths that were asked, in their order, in the
    snapshot that was asked: there are at most 128 of them, every result
    carries its own path and either one of the three absences and no node, or a
    node with exactly the fields of one of the four filesystem kinds within the
    profile (a symlink target of 1..4095 bytes, a nonzero directory root, a
    file no larger than the serving limit), whose name is the last component of
    the path; the root is an unnamed directory. *)
Theorem lookup_bound c sid paths s answer s' :
  lookup w c sid paths s = (Ok answer, s') ->
  zlen paths <= 128 /\ lk_snapshot_id answer = sid /\ lr_path <$> lk_results answer = paths /\
  Forall (typed_result (c_profile c)) (lk_results answer).
Proof.
  unfold lookup. intros Hr. apply net_bind_ok in Hr as (x1 & s1 & _ & Hr). apply net_bind_ok in Hr as (x2 & s2 & _ & Hr).
  destruct (_ && _); [done|]. destruct (Z.ltb_spec 128 (zlen paths)) as [|Hn]; [done|].
  apply net_bind_ok in Hr as (r & s3 & _ & Hr). apply net_bind_ok in Hr as (a & s4 & _ & Hr).
  apply net_bind_ok in Hr as ([] & s5 & [Hc _]%of_res_ok & Hr). unfold ret in Hr. injection Hr as -> _.
  unfold check_lookup in Hc. apply reject_ok in Hc as [Hg Hc]. apply orb_false_iff in Hg as [Hs%negb_false_iff%String.eqb_eq Hlen%negb_false_iff%Z.eqb_eq].
  split_and!; [done|done|..]; apply for_each_all in Hc; revert paths Hn Hlen Hc; generalize (lk_results answer) as rs;
    induction rs as [|r' rs IH]; intros [|path paths] Hn Hlen Hc; unfold zlen in *; simpl in *; try done; try lia;
    apply Forall_cons_iff in Hc as [[Hp Ht]%check_result_ok Hc].
  - f_equal; [done|]. apply IH; [lia|lia|done].
  - constructor; [done|]. eapply (IH paths); [lia|lia|done].
Qed.

(** ** Whole files *)

Lemma count_quiet n : quietly (count_received_bytes n) False (fun _ => True).
Proof. intros s. split; [|done]. by unfold silent. Qed.

(** A file that is returned has the digest that was asked for and fits the
    local buffer, and it is the body of the response. *)
Lemma blob_verified_sound `{Sha256} c sid path digest s b s' :
  0 <= buffered_bytes (c_profile c) ->
  blob_verified w c sid path digest s = (Ok b, s') ->
  digest_string (sha256 b) = digest /\ zlen b <= MAX_BUFFERED_FILE_BYTES /\ exists r, body_of r b.
Proof.
  intros Hl Hr. unfold blob_verified in Hr. apply net_bind_ok in Hr as (r & s1 & _ & Hr). apply net_bind_ok in Hr as (r' & s2 & _ & Hr).
  destruct (match hp_content_length r' with Some n => _ | None => _ end); [done|].
  apply net_bind_ok in Hr as ([b' cap] & s3 & Hf & Hr). cbn [fst snd] in Hr. destruct (String.eqb_spec (digest_string (sha256 b')) digest) as [<-|]; [|done].
  unfold ret in Hr. injection Hr as -> _. split; [done|].
  assert (Hst : buffered (buffered_bytes (c_profile c)) ([], 0)) by (unfold buffered, zlen; simpl; lia).
  apply (quietly_ok _ _ _ _ _ _ (quietly_chunks (fun chunk => count_received_bytes (zlen chunk)) _ _ _ _ (fun _ => count_quiet _) Hst)) in Hf
    as [(l & El & Eb & Hz) _]. simpl in Eb, Hz. split; [|exists r', l; by rewrite Eb].
  unfold buffered_bytes, limit_or in Hz. destruct (c_profile c); lia.
Qed.

(** The headers of a TreeFrame response name the snapshot and the request once
    each, and its bytes are not encoded. *)
Lemma treeframe_headers_bound hs sid digest :
  validate_treeframe_headers hs sid digest = Ok tt ->
  get_all "x-mega-snapshot-id" hs = [sid] /\ get_all "x-mega-request-digest" hs = [digest] /\ get_all "content-encoding" hs = [].
Proof.
  assert (Hone : forall name display v, one_treeframe_header hs name display = Ok v -> get_all name hs = [v]).
  { intros name display v. unfold one_treeframe_header, header_to_str. destruct (get_all name hs) as [|x [|]]; [done| |done].
    destruct (forallb _ _); simpl; [|done]. by intros [= ->]. }
  unfold validate_treeframe_headers. intros (ct & _ & Hv)%rbind_ok. apply reject_ok in Hv as [_ Hv]. apply reject_ok in Hv as [He%negb_false_iff%bool_decide_eq_true Hv].
  apply rbind_ok in Hv as (i & Hi%Hone & Hv). apply reject_ok in Hv as [Hs%negb_false_iff%String.eqb_eq Hv].
  apply rbind_ok in Hv as (d & Hd%Hone & Hv). apply reject_ok in Hv as [Hdd%negb_false_iff%String.eqb_eq _]. by subst.
Qed.

(** ** Credentials *)

(** The credentials of a resolved reader are those of its resolve, whatever is
    set on any client afterwards. *)
Lemma credentials_frozen c lease s c1 c2 s1 s2 s3 :
  for_resolve c s = (Ok c1, s1) -> with_snapshot_lease c1 lease s2 = (Ok c2, s3) ->
  forall s4, credentials c2 s4 = (Ok ((credentials_in c (net_cells s)).1, Some lease), s4).
Proof.
  unfold for_resolve, with_snapshot_lease. intros H1 H2 s4. apply net_bind_ok in H1 as (now & s5 & E1 & H1). rewrite credentials_read in E1. injection E1 as <- <-.
  apply net_bind_ok in H1 as (t & s6 & _ & H1). apply net_bind_ok in H1 as (l & s7 & _ & H1). unfold ret in H1. injection H1 as <- _.
  apply net_bind_ok in H2 as (now & s8 & E2 & H2). rewrite credentials_read in E2. injection E2 as <- _. unfold ret in H2. injection H2 as <- _.
  by rewrite credentials_read.
Qed.

End Bodies.
End RequestFacts.
