(* ===== verification/ChunkMap.v ===== *)
(** * ChunkMap

    Chunk maps of large files: the closed JSON contracts of
    [src/snapshot/chunk_wire.rs] and the [chunk_map] and
    [chunk_map_page_contract] calls of [src/snapshot/frames.rs]. The chunk-map
    part of [mst2-codec] (descriptor, leaf and proof codecs) is a parameter;
    the server's answer is an argument. *)

From S2P Require Import Prelude Types Text Profile Json.
Import Counters Digests Base64 Percent.
Local Open Scope string_scope.
Local Open Scope list_scope.
Local Open Scope Z_scope.

Inductive ProofSide : Type := Left | Right.
Record ProofStep : Type := mkStep { ps_side : ProofSide; sibling_pages : Z; ps_digest : list Z }.
Record ChunkLeaf : Type := mkLeaf { leaf_page_index : Z; chunk_sha256 : list (list Z) }.

(** [mst2_codec::chunkmap]; errors are the codec's texts. *)
Class ChunkCodec : Type := {
  CHUNK_SIZE : Z;
  chunk_map_new : list Z -> Z -> list Z -> result string (Z * Z * list Z);
    (** [ChunkMap::new]: its [chunk_count], [page_count] and [map_id()] *)
  map_id_bytes : forall c s r n p i, chunk_map_new c s r = Ok (n, p, i) -> length i = 32%nat /\ Forall is_byte i;
  expected_count : Z -> Z -> Z;
  leaf_decode : list Z -> result string ChunkLeaf;
  leaf_hash : ChunkLeaf -> result string (list Z);
  verify_leaf : Z -> Z -> list Z -> list ProofStep -> list Z -> result string unit;
}.

Record VerifiedChunkMap : Type := mkMap {
  vm_file_content_id : string; vm_map_id : string; vm_file_size : Z; vm_chunk_count : Z;
  vm_page_count : Z; vm_pages_root : list Z;
}.

Module ChunkMaps.

(** [chunk_wire::binding_error] and [frames::chunk_binding_error]. *)
Definition binding_error : SnapshotError :=
  SnapshotError_new IntegrityError "chunk-map JSON does not match its selected fixed-view contract".
Definition chunk_binding_error : SnapshotError :=
  SnapshotError_new IntegrityError
    "chunk-map response does not bind to the requested fixed snapshot, path and map".
Definition frame_err (context e : string) : SnapshotError :=
  SnapshotError_new DigestMismatch (context ++ ": " ++ e).

(** [value[key].as_str().unwrap_or("")]. *)
Definition str_or_empty (v : json) (k : string) : string := default "" (as_str (jget v k)).

(** [value[key]]: an absent member reads as null. *)
Definition index (v : json) (k : string) : json := default JNull (jget v k).

(** [chunk_wire::closed]. *)
Definition closed (v : json) (fields : list string) : Res unit :=
  match v with
  | JObj m => reject? existsb (fun kv => negb (one_of (fst kv) fields)) m with binding_error in Ok tt
  | _ => Err binding_error
  end.

Definition MAP_FIELDS : list string :=
  ["schema_version"; "file_content_id"; "file_size"; "chunk_size"; "chunk_count"; "page_count";
   "pages_root"; "map_id"].

(** [chunk_wire::map_descriptor]. *)
Definition map_descriptor (v : json) (sid path : string) : Res json :=
  reject? negb (str_is (jget v "snapshot_id") sid) || negb (str_is (jget v "path") path) with binding_error in
  if has v "map" then
    let? _ := closed v ["snapshot_id"; "path"; "map"] in
    let? _ := closed (index v "map") MAP_FIELDS in
    Ok (index v "map")
  else
    let? _ := closed v (["snapshot_id"; "path"] ++ MAP_FIELDS) in
    Ok v.

(** The response shape that selects the canonical page contract. *)
Definition canonical_page (v : json) : bool := has v "leaf_base64" || has v "page_index".

(** [chunk_wire::map_leaf]: the encoded leaf and its proof steps. *)
Definition map_leaf (v : json) (sid path map_id : string) (page_count page_index expected : Z)
    : Res (string * list json) :=
  reject? negb (str_is (jget v "map_id") map_id) with binding_error in
  let? encoded :=
    if canonical_page v then
      let? _ := closed v ["map_id"; "page_index"; "leaf_base64"; "proof"] in
      let? n := parse_count (str_or_empty v "page_index") "page_index" in
      reject? negb (n =? page_index) with binding_error in
      ok_or (as_str (jget v "leaf_base64")) binding_error
    else
      let? _ := closed v ["snapshot_id"; "path"; "map_id"; "page_count"; "leaf"; "proof"] in
      reject? negb (str_is (jget v "snapshot_id") sid) || negb (str_is (jget v "path") path)
        with binding_error in
      let leaf := index v "leaf" in
      let? _ := closed leaf ["page_index"; "count"; "data_base64"] in
      let? pc := parse_count (str_or_empty v "page_count") "page_count" in
      reject? negb (pc =? page_count) with binding_error in
      let? pi := parse_count (str_or_empty leaf "page_index") "page_index" in
      reject? negb (pi =? page_index) with binding_error in
      let? n := parse_count (str_or_empty leaf "count") "leaf count" in
      reject? negb (n =? expected) with binding_error in
      ok_or (as_str (jget leaf "data_base64")) binding_error in
  reject? div_ceil (16 + 32 * expected) 3 * 4 <? str_len encoded
    with SnapshotError_new LimitExceeded "chunk leaf exceeds the expected fixed page encoding budget" in
  let? proof := ok_or (as_array (jget v "proof")) binding_error in
  reject? 32 <? zlen proof with SnapshotError_new LimitExceeded "chunk proof exceeds 32 steps" in
  let? _ := for_each (fun _ step => closed step ["side"; "sibling_pages"; "digest"]) tt proof in
  Ok (encoded, proof).

Section Calls.
Context `{HexCrate} `{ChunkCodec} (p : profile).

(** [Mst2Client::chunk_map] up to the request: its checks and the request path. *)
Definition chunk_map_request (sid path expected_digest : string) : Res string :=
  let? _ := require_feature p "chunk-map" in
  let? _ := validate_path p path in
  let? _ := parse_digest expected_digest in
  Ok ("/" ++ sid ++ "/chunk-map?path=" ++ urlencode path ++ "&expected_digest=" ++ urlencode expected_digest)%string.

(** The rest of [chunk_map], on the server's JSON answer. *)
Definition chunk_map_response (sid path : string) (want : list Z) (response : json) : Res VerifiedChunkMap :=
  reject? is_canonical p && negb (has response "map") with chunk_binding_error in
  let? v := map_descriptor response sid path in
  reject? negb (bool_decide (as_u64 (jget v "schema_version") = Some 2)) with chunk_binding_error in
  let? cid := parse_digest (str_or_empty v "file_content_id") in
  reject? negb (bool_decide (cid = want))
    with SnapshotError_new DigestMismatch
           ("chunk map binds content " ++ hex32 cid ++ ", the view named " ++ hex32 want) in
  let? root := parse_digest (str_or_empty v "pages_root") in
  let? map_id := parse_digest (str_or_empty v "map_id") in
  let? size := parse_count (str_or_empty v "file_size") "file_size" in
  let? _ := validate_file_size p size in
  reject? 8 * 1024 * 1024 * 1024 * 1024 <? size
    with SnapshotError_new LimitExceeded "chunk-map file size exceeds the 8 TiB protocol limit" in
  let? chunk_count := parse_count (str_or_empty v "chunk_count") "chunk_count" in
  let? page_count := parse_count (str_or_empty v "page_count") "page_count" in
  let chunk_size := default 0 (as_u64 (jget v "chunk_size")) in
  reject? negb (chunk_size =? CHUNK_SIZE)
    with SnapshotError_new DigestMismatch
           ("chunk_size " ++ u64_to_string chunk_size ++ " is not the fixed 1MiB profile") in
  let? m := map_err (frame_err "chunk-map descriptor") (chunk_map_new cid size root) in
  let '(n, pc, id) := m in
  reject? negb (n =? chunk_count) || negb (pc =? page_count) || negb (bool_decide (id = map_id))
    with SnapshotError_new DigestMismatch "chunk-map descriptor fields are internally inconsistent" in
  Ok {| vm_file_content_id := digest_string cid; vm_map_id := digest_string map_id; vm_file_size := size;
        vm_chunk_count := chunk_count; vm_page_count := page_count; vm_pages_root := root |}.

Definition chunk_map (sid path expected_digest : string) (get_json : string -> Res json) : Res VerifiedChunkMap :=
  let? url := chunk_map_request sid path expected_digest in
  let? want := parse_digest expected_digest in
  let? response := get_json url in
  chunk_map_response sid path want response.

(** [chunk_map_page_contract] up to the request. *)
Definition page_request (sid path expected_digest : string) (m : VerifiedChunkMap) (page_index : Z)
    (canonical_query : bool) : Res string :=
  let? _ := require_feature p "chunk-map" in
  let? _ := validate_path p path in
  let? _ := validate_file_size p (vm_file_size m) in
  let? content_id := parse_digest expected_digest in
  let? canonical := map_err (frame_err "chunk-map descriptor")
                      (chunk_map_new content_id (vm_file_size m) (vm_pages_root m)) in
  let '(n, pc, id) := canonical in
  let? fid := parse_digest (vm_file_content_id m) in
  reject? negb (bool_decide (fid = content_id)) with chunk_binding_error in
  let? mid := parse_digest (vm_map_id m) in
  reject? negb (bool_decide (mid = id)) || negb (vm_chunk_count m =? n) || negb (vm_page_count m =? pc)
    with chunk_binding_error in
  reject? vm_page_count m <=? page_index
    with SnapshotError_new ScopeInvalid "chunk-map page index is outside the fixed map" in
  let query :=
    (if canonical_query
    then "path=" ++ urlencode path ++ "&map_id=" ++ urlencode (vm_map_id m) ++ "&page_index="
           ++ u64_to_string page_index
    else "path=" ++ urlencode path ++ "&expected_digest=" ++ urlencode expected_digest ++ "&page="
           ++ u64_to_string page_index)%string in
  Ok ("/" ++ sid ++ "/chunk-map/pages?" ++ query)%string.

Definition proof_step (step : json) : Res ProofStep :=
  let? digest := parse_digest (str_or_empty step "digest") in
  let? pages := parse_count (str_or_empty step "sibling_pages") "sibling_pages" in
  let? side := ok_or (s ← as_str (jget step "side"); match_str s [("left", Left); ("right", Right)])
                 (SnapshotError_new DigestMismatch "chunk proof side must be left|right") in
  Ok (mkStep side pages digest).

(** The rest of [chunk_map_page_contract], on the server's JSON answer. *)
Definition page_response (sid path : string) (m : VerifiedChunkMap) (page_index : Z) (canonical_query : bool)
    (v : json) : Res ChunkLeaf :=
  let count := expected_count (vm_chunk_count m) page_index in
  reject? canonical_query && negb (canonical_page v) with chunk_binding_error in
  let? '(encoded, steps) := map_leaf v sid path (vm_map_id m) (vm_page_count m) page_index count in
  let? bytes := b64_decode encoded in
  let? leaf := map_err (frame_err "chunk-map leaf") (leaf_decode bytes) in
  reject? negb (leaf_page_index leaf =? page_index)
    with SnapshotError_new DigestMismatch "chunk leaf page_index mismatch" in
  reject? negb (zlen (chunk_sha256 leaf) =? count)
    with SnapshotError_new DigestMismatch
           ("chunk leaf count " ++ u64_to_string (zlen (chunk_sha256 leaf)) ++ " != " ++ u64_to_string count) in
  let? proof := for_each (fun acc step => let? s := proof_step step in Ok (acc ++ [s])) [] steps in
  let? hash := map_err (frame_err "leaf hash") (leaf_hash leaf) in
  let? _ := map_err (frame_err "chunk proof")
              (verify_leaf (vm_page_count m) page_index hash proof (vm_pages_root m)) in
  Ok leaf.

Definition chunk_map_page_contract (sid path expected_digest : string) (m : VerifiedChunkMap)
    (page_index : Z) (canonical_query : bool) (get_json : string -> Res json) : Res ChunkLeaf :=
  let? url := page_request sid path expected_digest m page_index canonical_query in
  let? v := get_json url in
  page_response sid path m page_index canonical_query v.

(** What a map accepted for a content identity satisfies. *)
Definition map_fits (content_id : list Z) (m : VerifiedChunkMap) : Prop :=
  vm_file_content_id m = digest_string content_id /\
  exists id, chunk_map_new content_id (vm_file_size m) (vm_pages_root m)
               = Ok (vm_chunk_count m, vm_page_count m, id) /\
    vm_map_id m = digest_string id.

Lemma chunk_map_response_ok sid path want response m :
  chunk_map_response sid path want response = Ok m ->
  map_fits want m /\ validate_file_size p (vm_file_size m) = Ok tt /\
  0 <= vm_file_size m <= 8 * 1024 * 1024 * 1024 * 1024 /\
  as_str (jget response "snapshot_id") = Some sid /\ as_str (jget response "path") = Some path.
Proof using Type.
  unfold chunk_map_response. intros Hm. apply reject_ok in Hm as [_ Hm].
  apply rbind_ok in Hm as (v & Hv & Hm).
  assert (as_str (jget response "snapshot_id") = Some sid /\ as_str (jget response "path") = Some path) as Hb.
  { unfold map_descriptor in Hv. apply reject_ok in Hv as [Hg _]. bools. unfold str_is in Hg.
    by rewrite !bool_decide_eq_true in Hg. }
  inv_ok. match goal with x : (Z * Z * list Z)%type |- _ => destruct x as [[n pc] id] end. inv_ok. bools. split_all. rewrite bool_decide_eq_true in *. subst. simpl.
  repeat match goal with u : unit |- _ => destruct u end.
  match goal with Hc : parse_count _ "file_size" = Ok _ |- _ => apply parse_count_ok in Hc as [_ Hc] end.
  split_and!; [split; [done|by eexists]|done|lia|lia|done|done].
Qed.

(** A chunk map is bound to the file the view named. [chunk_map] returns a
    map only for the snapshot, path and content digest requested, and only when
    the size, counts and map identity are those of the canonical descriptor
    rebuilt from that digest, the size within the 8 TiB and profile limits. *)
Lemma chunk_map_bound sid path expected get_json m :
  chunk_map sid path expected get_json = Ok m ->
  vm_file_content_id m = expected /\
  (exists want, parse_digest expected = Ok want /\ map_fits want m) /\
  0 <= vm_file_size m <= 8 * 1024 * 1024 * 1024 * 1024 /\
  exists url response, chunk_map_request sid path expected = Ok url /\ get_json url = Ok response /\
    as_str (jget response "snapshot_id") = Some sid /\ as_str (jget response "path") = Some path.
Proof using Type.
  unfold chunk_map. intros Hm. apply rbind_ok in Hm as (url & Hu & Hm).
  apply rbind_ok in Hm as (want & Hw & Hm). apply rbind_ok in Hm as (resp & Hr & Hm).
  apply chunk_map_response_ok in Hm as (Hf & _ & Hs & Hsid & Hpath).
  split; [destruct Hf as [-> _]; by apply parse_digest_ok in Hw as [-> _]|].
  split; [by exists want|]. split; [done|]. by exists url, resp.
Qed.

(** A verified map can be read. Every page of a map [chunk_map] returned is
    requested without any local refusal: the checks [chunk_map_page_contract]
    repeats on the map accept it, under either query contract. *)
Lemma chunk_map_usable sid path expected get_json m page_index canonical_query :
  chunk_map sid path expected get_json = Ok m -> page_index < vm_page_count m ->
  exists url, page_request sid path expected m page_index canonical_query = Ok url.
Proof using Type.
  unfold chunk_map. intros Hm Hi. apply rbind_ok in Hm as (url & Hu & Hm).
  apply rbind_ok in Hm as (want & Hw & Hm). apply rbind_ok in Hm as (resp & Hr & Hm).
  apply chunk_map_response_ok in Hm as ((Hc & id & Hnew & Hid) & Hs & _).
  unfold chunk_map_request in Hu. inv_ok. repeat match goal with u : unit |- _ => destruct u end.
  unfold page_request. rewrite H1, H2, Hs, Hw. cbn [rbind]. rewrite Hnew. cbn [rbind map_err].
  assert (Hpc : parse_digest (vm_file_content_id m) = Ok want).
  { rewrite Hc. apply parse_digest_ok in Hw as (_ & ? & ?). by apply parse_digest_ok. }
  assert (Hpm : parse_digest (vm_map_id m) = Ok id).
  { rewrite Hid. apply parse_digest_ok. split; [done|]. by eapply map_id_bytes. }
  rewrite Hpc. cbn [rbind]. rewrite bool_decide_true by done. rewrite Hpm. cbn [rbind negb].
  rewrite bool_decide_true, !Z.eqb_refl by done. cbn [negb orb].
  rewrite (proj2 (Z.leb_gt _ _)) by done. eauto.
Qed.

Lemma for_each_length {E X Y} (f : X -> result E Y) xs acc out :
  for_each (fun acc x => let? y := f x in Ok (acc ++ [y])) acc xs = Ok out ->
  length out = (length acc + length xs)%nat.
Proof.
  revert acc. induction xs as [|x xs IH]; intros acc Hf; simpl in *; [inv_ok; subst; lia|].
  apply rbind_ok in Hf as (a & Ha & Hf). inv_ok. subst. apply IH in Hf. rewrite length_app in Hf. simpl in *. lia.
Qed.

Lemma map_leaf_ok v sid path mid pc pi n enc steps :
  map_leaf v sid path mid pc pi n = Ok (enc, steps) ->
  as_str (jget v "map_id") = Some mid /\ str_len enc <= div_ceil (16 + 32 * n) 3 * 4 /\ zlen steps <= 32 /\
  (canonical_page v = false ->
   as_str (jget v "snapshot_id") = Some sid /\ as_str (jget v "path") = Some path).
Proof.
  unfold map_leaf. intros Hm. apply reject_ok in Hm as [Hid Hm]. apply rbind_ok in Hm as (e & He & Hm).
  inv_ok. simplify_eq. bools. unfold str_is in *. rewrite bool_decide_eq_true in Hid.
  split_and!; try done; intros Hc; rewrite Hc in He; inv_ok; bools; split_all;
    by rewrite bool_decide_eq_true in *.
Qed.

(** A chunk-map page is proved before it is used. A leaf is returned only
    for the page requested of a map that fits the expected content, with the
    number of chunk digests the codec expects there, decoded from canonical
    base64 within the fixed page budget, and with a proof of at most 32 steps
    that the codec verified against the map's page root. *)
Lemma chunk_map_page_proved sid path expected m page_index canonical_query get_json leaf :
  chunk_map_page_contract sid path expected m page_index canonical_query get_json = Ok leaf ->
  page_index < vm_page_count m /\
  (exists want, parse_digest expected = Ok want /\ map_fits want m) /\
  leaf_page_index leaf = page_index /\
  zlen (chunk_sha256 leaf) = expected_count (vm_chunk_count m) page_index /\
  (exists encoded bytes, b64_decode encoded = Ok bytes /\ leaf_decode bytes = Ok leaf /\
     str_len encoded <= div_ceil (16 + 32 * expected_count (vm_chunk_count m) page_index) 3 * 4) /\
  exists hash proof, leaf_hash leaf = Ok hash /\ zlen proof <= 32 /\
    verify_leaf (vm_page_count m) page_index hash proof (vm_pages_root m) = Ok tt.
Proof using Type.
  unfold chunk_map_page_contract. intros Hc. apply rbind_ok in Hc as (url & Hu & Hc).
  apply rbind_ok in Hc as (v & Hv & Hc).
  assert (page_index < vm_page_count m /\ exists want, parse_digest expected = Ok want /\ map_fits want m)
    as [Hlt Hfit].
  { clear Hc. unfold page_request in Hu. inv_ok. match goal with x : (Z * Z * list Z)%type |- _ => destruct x as [[n pc] id] end. inv_ok. bools. split_all.
    rewrite bool_decide_eq_true in *. subst. split; [lia|]. eexists. split; [done|].
    repeat match goal with Hx : parse_digest _ = Ok _ |- _ => apply parse_digest_ok in Hx as (? & ? & ?) end.
    split; [done|]. eexists. by split. }
  unfold page_response in Hc. apply reject_ok in Hc as [_ Hc]. apply rbind_ok in Hc as ([enc steps] & Hl & Hc).
  apply map_leaf_ok in Hl as (_ & Henc & Hsteps & _). inv_ok. subst. bools.
  match goal with Hf : for_each _ _ _ = Ok _ |- _ => apply for_each_length in Hf; simpl in Hf end.
  split_and!; try done; [by eexists _, _|]. unfold zlen in *.
  eexists _, _. split_and!; [done| |match goal with u : unit |- _ => by destruct u end]. lia.
Qed.
End Calls.
End ChunkMaps.
