(* ===== verification/Disk.v ===== *)
(** * Disk

    The local file system the durable store writes to, with what survives a
    crash. A name refers to a file as programs see it and, separately, as the
    directory was last synced; a crash keeps either, name by name, and keeps
    the bytes of synced files only. Every operation may fail, with or without
    having had its effect, and every state passed through is recorded, so that
    properties can speak of a crash between any two operations. *)

From S2P Require Import Prelude Types Faults Frames.
Local Open Scope string_scope.
Local Open Scope list_scope.
Local Open Scope Z_scope.

(** The directories of a store: its own, the shared contents, the private
    metadata pages, the scope, the registry of workspaces and the pages of the
    scope. *)
Inductive dir : Type := Root | Content | Metadata | Scope | Registry | Pages.

#[export] Instance dir_eq_dec : EqDecision dir.
Proof. solve_decision. Defined.
#[export] Instance dir_countable : Countable dir.
Proof.
  refine (inj_countable'
    (fun d => match d with Root => 0%nat | Content => 1%nat | Metadata => 2%nat | Scope => 3%nat | Registry => 4%nat | Pages => 5%nat end)
    (fun n => match n with 0%nat => Root | 1%nat => Content | 2%nat => Metadata | 3%nat => Scope | 4%nat => Registry | _ => Pages end) _).
  by intros [].
Defined.

Abbreviation path := (dir * string)%type.

Record inode : Type := mkInode { data : bytes; regular : bool; synced : bool }.
Record disk : Type := mkDisk { inodes : gmap nat inode; names : gmap path nat; saved : gmap path nat }.

Inductive io_error : Type := NotFound | AlreadyExists | OtherError (m : string).

Module Disk.

(** What may be found after a crash. *)
Definition crash (d d' : disk) : Prop :=
  names d' = saved d' /\
  (forall p, names d' !! p = names d !! p \/ names d' !! p = saved d !! p) /\
  (forall i n, inodes d !! i = Some n -> exists b, inodes d' !! i = Some (mkInode b (regular n) true) /\
     (synced n = true -> b = data n)).

(** ** Operations *)

Definition fresh_inode (d : disk) : nat :=
  fresh (dom (inodes d) ∪ map_img (names d) ∪ map_img (saved d) : gset nat).

Definition lookup (p : path) (d : disk) : option inode := i ← names d !! p; inodes d !! i.

(** [fs::symlink_metadata]: whether the file is regular, and its length. *)
Definition do_metadata (p : path) (d : disk) : result io_error (bool * Z) * disk :=
  (match lookup p d with None => Err NotFound | Some n => Ok (regular n, zlen (data n)) end, d).

(** [secure_fs::read]. *)
Definition do_read (p : path) (d : disk) : result io_error bytes * disk :=
  (match lookup p d with
   | None => Err NotFound
   | Some n => if regular n then Ok (data n) else Err (OtherError "local integrity object is not a regular file")
   end, d).

(** [secure_fs::open_create_new]: the handle of a new file. *)
Definition do_create (p : path) (d : disk) : result io_error nat * disk :=
  match names d !! p with
  | Some _ => (Err AlreadyExists, d)
  | None => let i := fresh_inode d in
            (Ok i, mkDisk (<[i := mkInode [] true false]> (inodes d)) (<[p := i]> (names d)) (saved d))
  end.

(** [secure_fs::open_write], [secure_fs::open_regular]. *)
Definition do_open (p : path) (d : disk) : result io_error nat * disk :=
  match names d !! p with
  | None => (Err NotFound, d)
  | Some i =>
      (match inodes d !! i with
       | Some n => if regular n then Ok i else Err (OtherError "local integrity object is not a regular file")
       | None => Err NotFound
       end, d)
  end.

(** [secure_fs::open_append_create]. *)
Definition do_append (p : path) (d : disk) : result io_error nat * disk :=
  match names d !! p with None => do_create p d | Some _ => do_open p d end.

Definition set_inode (i : nat) (f : inode -> inode) (d : disk) : disk :=
  mkDisk (alter f i (inodes d)) (names d) (saved d).

(** [write_all] at the end of a file. *)
Definition do_write (i : nat) (b : bytes) (d : disk) : result io_error unit * disk :=
  (Ok tt, set_inode i (fun n => mkInode (data n ++ b) (regular n) false) d).
(** [File::set_len]. *)
Definition do_set_len (i : nat) (len : Z) (d : disk) : result io_error unit * disk :=
  (Ok tt, set_inode i (fun n => mkInode (take (Z.to_nat len) (data n)) (regular n) false) d).
(** [File::sync_all] of a file. *)
Definition do_sync (i : nat) (d : disk) : result io_error unit * disk :=
  (Ok tt, set_inode i (fun n => mkInode (data n) (regular n) true) d).

(** [fs::rename]. *)
Definition do_rename (p q : path) (d : disk) : result io_error unit * disk :=
  match names d !! p with
  | None => (Err NotFound, d)
  | Some i => (Ok tt, mkDisk (inodes d) (<[q := i]> (delete p (names d))) (saved d))
  end.

(** [fs::remove_file]. *)
Definition do_remove (p : path) (d : disk) : result io_error unit * disk :=
  match names d !! p with
  | None => (Err NotFound, d)
  | Some _ => (Ok tt, mkDisk (inodes d) (delete p (names d)) (saved d))
  end.

(** [sync_dir]: the names of a directory become what a crash finds. *)
Definition do_sync_dir (D : dir) (d : disk) : result io_error unit * disk :=
  (Ok tt, mkDisk (inodes d) (names d)
            (filter (fun e => e.1.1 = D) (names d) ∪ filter (fun e => e.1.1 <> D) (saved d))).

Lemma sync_dir_saved D d (p : path) :
  saved (do_sync_dir D d).2 !! p = if decide (p.1 = D) then names d !! p else saved d !! p.
Proof.
  unfold do_sync_dir. cbn [saved snd]. destruct (decide (p.1 = D)) as [HD|HD].
  - rewrite lookup_union_l.
    2:{ apply map_lookup_filter_None. right. by intros x _ Hx. }
    destruct (names d !! p) as [i|] eqn:E; [by apply map_lookup_filter_Some|apply map_lookup_filter_None; by left].
  - rewrite lookup_union_r.
    2:{ apply map_lookup_filter_None. right. by intros x _ Hx. }
    destruct (saved d !! p) as [i|] eqn:E; [by apply map_lookup_filter_Some|apply map_lookup_filter_None; by left].
Qed.

(** ** Programs *)

(** The disk, a counter of the operations so far and the disks after each. *)
Record world : Type := mkWorld { now : disk; clock : nat; past : list disk }.

Definition M (A : Type) : Type := world -> Run A * world.
Definition ret {A} (a : A) : M A := fun s => (Ok a, s).
Definition bind {A B} (c : M A) (k : A -> M B) : M B := fun s =>
  match c s with
  | (Ok a, s) => k a s
  | (Err e, s) => (Err e, s)
  end.
Definition fail {A} (e : SnapshotError) : M A := fun s => (Err (Failed e), s).
Definition of_run {A} (r : Run A) : M A := fun s => (r, s).
Definition of_res {A} (r : Res A) : M A := of_run (lift r).
(** The result of [c] as a value. *)
Definition attempt {A} (c : M A) : M (Run A) := fun s => let (r, s) := c s in (Ok r, s).
Definition on_error {A} (f : SnapshotError -> SnapshotError) (c : M A) : M A := fun s =>
  let (r, s) := c s in (map_err (fun e => match e with Failed x => Failed (f x) | e => e end) r, s).

Notation "'let*' x := c 'in' k" := (bind c (fun x => k))
  (at level 10, x name, c at level 150, k at level 200).
Notation "'let*' ' p := c 'in' k" := (bind c (fun x => match x with p => k end))
  (at level 10, p pattern, c at level 150, k at level 200).
Notation "'run*' c 'in' k" := (bind c (fun _ => k)) (at level 10, c at level 150, k at level 200).
Notation "'guard*' b 'with' e 'in' k" := (if b then fail e else k) (at level 10, b at level 150, e at level 150, k at level 200).

Fixpoint fold_m {A X} (f : A -> X -> M A) (a : A) (l : list X) : M A :=
  match l with
  | [] => ret a
  | x :: l => let* a := f a x in fold_m f a l
  end.

(** A question to a byte source. *)
Definition ask {A} (f : nat -> Res A) : M A := fun s => (lift (f (clock s)), mkWorld (now s) (S (clock s)) (past s)).

(** What the environment decides, by the number of the operation: failures of
    the system (with the effect or without), refusals by the components that
    own the store's directory and its space, whether another process holds the
    store's lock, random identifiers, the time. *)
Record environment : Type := mkEnv {
  fault : nat -> option (bool * string);
  refuse : nat -> option SnapshotError;
  busy : nat -> bool;
  uuid : nat -> string;
  unix_time : nat -> Z;
}.

Definition io_err (e : io_error) : SnapshotError :=
  SnapshotError_new Internal ("local store: " ++
    match e with NotFound => "entity not found" | AlreadyExists => "entity already exists" | OtherError m => m end).

Section Programs.
Context (env : environment).

(** One operation of the system. *)
Definition step {A} (f : disk -> result io_error A * disk) : M (result io_error A) := fun s =>
  let '(r, d) := match fault env (clock s) with
                 | None => f (now s)
                 | Some (true, m) => (Err (OtherError m), (f (now s)).2)
                 | Some (false, m) => (Err (OtherError m), now s)
                 end in
  (Ok r, mkWorld d (S (clock s)) (past s ++ [d])).

(** An operation whose failure is the caller's, described by [err]. *)
Definition sys_with {A} (err : io_error -> SnapshotError) (f : disk -> result io_error A * disk) : M A :=
  let* r := step f in of_res (map_err err r).
Definition sys {A} (f : disk -> result io_error A * disk) : M A := sys_with io_err f.

(** A question to another component of the process. *)
Definition gate : M unit := fun s =>
  (match refuse env (clock s) with None => Ok tt | Some e => Err (Failed e) end,
   mkWorld (now s) (S (clock s)) (past s)).

(** [try_transaction]: a retention guard, then the store's lock. *)
Definition try_transaction : M bool :=
  run* gate in
  fun s => (Ok (negb (busy env (clock s))), mkWorld (now s) (S (clock s)) (past s)).

Definition new_uuid : M string := fun s =>
  (Ok (uuid env (clock s)), mkWorld (now s) (S (clock s)) (past s)).
Definition now_unix : M Z := fun s =>
  (Ok (unix_time env (clock s)), mkWorld (now s) (S (clock s)) (past s)).

(** [sync_dir]. *)
Definition sync_dir (D : dir) : M unit := sys (do_sync_dir D).

Definition tmp_name (name id : string) : string := "." ++ name ++ ".tmp." ++ id.

(** The closure of [write_atomic_with_budget]. *)
Definition write_new (D : dir) (name tmp : string) (b : bytes) : M unit :=
  let* f := sys (do_create (D, tmp)) in
  run* sys (do_write f b) in
  run* sys (do_sync f) in
  run* sys (do_rename (D, tmp) (D, name)) in
  sync_dir D.

(** [write_atomic]: the gates are the retention guard, the directory and the
    capacity admission. *)
Definition write_atomic (D : dir) (name : string) (b : bytes) : M unit :=
  run* gate in
  run* gate in
  run* gate in
  let* id := new_uuid in
  let tmp := tmp_name name id in
  let* r := attempt (write_new D name tmp b) in
  match r with
  | Ok tt => ret tt
  | Err e => run* step (do_remove (D, tmp)) in of_run (Err e)
  end.

(** [read_optional]. *)
Definition read_optional (p : path) : M (option bytes) :=
  let* r := step (do_read p) in
  match r with
  | Ok b => ret (Some b)
  | Err NotFound => ret None
  | Err e => fail (io_err e)
  end.

(** [fs::remove_file], then a sync of the directory, unless there is nothing to
    remove; the callers describe other failures differently. *)
Definition remove_with (err : io_error -> SnapshotError) (D : dir) (name : string) : M unit :=
  let* r := step (do_remove (D, name)) in
  match r with
  | Ok _ => sync_dir D
  | Err NotFound => ret tt
  | Err e => fail (err e)
  end.
Definition remove_durable (D : dir) (name : string) : M unit := remove_with io_err D name.
End Programs.
End Disk.
