(* ===== verification/DiskLogic.v ===== *)
(** * DiskLogic

    Reasoning about programs on the disk: facts about names that survive a
    crash, triples whose invariant holds at every state passed through, and
    runs without failures. *)

From S2P Require Import Prelude Types Faults Frames Disk.
Import Disk.
Local Open Scope string_scope.
Local Open Scope list_scope.
Local Open Scope Z_scope.

Module DiskLogic.

(** ** Facts that survive a crash *)

(** A name that has durable bytes, or durably nothing. *)
Definition durable_at (d : disk) (p : path) (v : option bytes) : Prop :=
  match v with
  | Some b => exists i, names d !! p = Some i /\ saved d !! p = Some i /\ inodes d !! i = Some (mkInode b true true)
  | None => names d !! p = None /\ saved d !! p = None
  end.

(** Facts about names; two facts about one name cannot both hold. *)
Definition facts : Type := path -> option bytes -> Prop.
Definition holds (F : facts) (d : disk) : Prop := forall p v, F p v -> durable_at d p v.
(** Nothing is said about a name. *)
Definition silent (F : facts) (p : path) : Prop := forall v, ~ F p v.
Definition add (p : path) (v : option bytes) (F : facts) : facts := fun q w => q = p /\ w = v \/ F q w.

Lemma durable_crash d d' p v : durable_at d p v -> crash d d' -> durable_at d' p v.
Proof.
  intros HF (Hs & Hn & Hi). destruct v as [b|]; simpl in *.
  - destruct HF as (i & E1 & E2 & E3). exists i. destruct (Hi _ _ E3) as (b' & E4 & Hb). simpl in *.
    rewrite (Hb eq_refl) in E4. rewrite <- Hs. destruct (Hn p) as [->| ->]; auto.
  - destruct HF as [E1 E2]. rewrite <- Hs. destruct (Hn p) as [->| ->]; auto.
Qed.

Lemma holds_crash F d d' : holds F d -> crash d d' -> holds F d'.
Proof. intros HF Hc p v Hv. eauto using durable_crash. Qed.

Lemma durable_lookup d p b : durable_at d p (Some b) -> lookup p d = Some (mkInode b true true).
Proof. intros (i & E1 & _ & E3). unfold lookup. by rewrite E1. Qed.

Lemma durable_absent d p : durable_at d p None -> lookup p d = None.
Proof. intros [E _]. unfold lookup. by rewrite E. Qed.

Lemma fresh_inode_new d :
  inodes d !! fresh_inode d = None /\ forall p, names d !! p <> Some (fresh_inode d) /\ saved d !! p <> Some (fresh_inode d).
Proof.
  pose proof (is_fresh (dom (inodes d) ∪ map_img (names d) ∪ map_img (saved d) : gset nat)) as Hf.
  fold (fresh_inode d) in Hf. rewrite !not_elem_of_union in Hf. destruct Hf as [[H1 H2] H3]. split.
  - by apply not_elem_of_dom.
  - intros p. split; intros E; [apply H2|apply H3]; by apply elem_of_map_img; exists p.
Qed.

Lemma create_new p d i :
  (do_create p d).1 = Ok i ->
  i = fresh_inode d /\ names (do_create p d).2 !! p = Some i /\ inodes (do_create p d).2 !! i = Some (mkInode [] true false) /\
  forall q, q <> p -> names (do_create p d).2 !! q <> Some i /\ saved (do_create p d).2 !! q <> Some i.
Proof.
  unfold do_create. destruct (names d !! p) eqn:E; [done|]. intros [= <-]. cbn [snd names inodes saved].
  split_and!; [done|by rewrite lookup_insert_eq|by rewrite lookup_insert_eq|].
  intros q Hq. rewrite lookup_insert_ne by done. apply fresh_inode_new.
Qed.

Lemma holds_sync_dir F D d : holds F d -> holds F (do_sync_dir D d).2.
Proof.
  intros HF p v Hv. specialize (HF p v Hv). pose proof (sync_dir_saved D d p) as Hs. destruct v as [b|].
  - destruct HF as (i & E1 & E2 & E3). exists i. split_and!; [done| |done]. rewrite Hs. by destruct (decide (p.1 = D)).
  - destruct HF as [E1 E2]. split; [done|]. rewrite Hs. by destruct (decide (p.1 = D)).
Qed.

Lemma holds_add F d p v : holds F d -> durable_at d p v -> holds (add p v F) d.
Proof. intros HF Hp q w [[-> ->]|Hq]; auto. Qed.

Lemma holds_weaken (F G : facts) d : (forall p v, G p v -> F p v) -> holds F d -> holds G d.
Proof. intros Hs HF p v Hv. auto. Qed.

(** ** Triples *)

(** From a disk in [P], [c] passes only through disks in [I], and ends with [Q]
    or, on an error, [R]. *)
Definition triple (I P : disk -> Prop) {A} (c : M A) (Q : A -> disk -> Prop) (R : disk -> Prop) : Prop :=
  forall s, P (now s) ->
  let (r, s') := c s in
  (exists new, past s' = past s ++ new /\ Forall I new) /\
  match r with Ok a => Q a (now s') | Err _ => R (now s') end.

Section Rules.
Context (env : environment).

Lemma same_past (I : disk -> Prop) (l : list disk) : exists new, l = l ++ new /\ Forall I new.
Proof. exists []. by rewrite app_nil_r. Qed.

Lemma triple_ret I P {A} (a : A) Q R : (forall d, P d -> Q a d) -> triple I P (ret a) Q R.
Proof. intros Hq s Hs. simpl. auto using same_past. Qed.

Lemma triple_bind I P {A B} (c : M A) (k : A -> M B) Q' Q R :
  triple I P c Q' R -> (forall a, triple I (Q' a) (k a) Q R) -> triple I P (bind c k) Q R.
Proof.
  intros Hc Hk s Hs. unfold bind. pose proof (Hc s Hs) as H1. destruct (c s) as [[a|e] s1]; [|exact H1].
  destruct H1 as [(n1 & E1 & F1) Hq]. pose proof (Hk a s1 Hq) as H2. destruct (k a s1) as [r s2].
  destruct H2 as [(n2 & E2 & F2) H2]. split; [|done]. exists (n1 ++ n2).
  rewrite E2, E1, app_assoc. split; [done|]. by apply Forall_app.
Qed.

Lemma triple_weaken (I I' P P' : disk -> Prop) {A} (c : M A) Q Q' R R' :
  triple I' P' c Q' R' -> (forall d, I' d -> I d) -> (forall d, P d -> P' d) -> (forall a d, Q' a d -> Q a d) ->
  (forall d, R' d -> R d) -> triple I P c Q R.
Proof.
  intros Hc HI HP HQ HR s Hs. pose proof (Hc s (HP _ Hs)) as H1. destruct (c s) as [[a|e] s1];
    destruct H1 as [(n & E & F) H1]; (split; [exists n; split; [done|]; eapply Forall_impl; eauto|auto]).
Qed.

(** Facts of a precondition come first. *)
Lemma triple_exists {X} I (P : X -> disk -> Prop) {A} (c : M A) Q R :
  (forall x, triple I (P x) c Q R) -> triple I (fun d => exists x, P x d) c Q R.
Proof. intros Hc s [x Hx]. by apply (Hc x). Qed.

Lemma triple_pure (X : Prop) I P {A} (c : M A) Q R :
  (X -> triple I P c Q R) -> triple I (fun d => X /\ P d) c Q R.
Proof. intros Hc s [Hx HP]. by apply Hc. Qed.

(** A property can be proved from each disk. *)
Lemma triple_from I P {A} (c : M A) Q R :
  (forall d, P d -> triple I (eq d) c Q R) -> triple I P c Q R.
Proof. intros Hc s Hs. by apply (Hc (now s)). Qed.

Lemma triple_of_run I P {A} (r : Run A) Q R :
  (forall a d, r = Ok a -> P d -> Q a d) -> (forall d, P d -> R d) -> triple I P (of_run r) Q R.
Proof. intros Hq Hr s Hs. simpl. split; [apply same_past|]. destruct r; auto. Qed.

Lemma triple_of_res I P {A} (r : Res A) Q R :
  (forall a d, r = Ok a -> P d -> Q a d) -> (forall d, P d -> R d) -> triple I P (of_res r) Q R.
Proof. intros Hq Hr. apply triple_of_run; [|done]. intros a d Ha. apply Hq. by destruct r; simplify_eq/=. Qed.

Lemma triple_fail I P {A} (e : SnapshotError) (Q : A -> disk -> Prop) R :
  (forall d, P d -> R d) -> triple I P (fail e) Q R.
Proof. intros Hr s Hs. simpl. auto using same_past. Qed.

Lemma triple_guard I P {A} (b : bool) (e : SnapshotError) (k : M A) Q R :
  (forall d, P d -> R d) -> (b = false -> triple I P k Q R) -> triple I P (if b then fail e else k) Q R.
Proof. intros Hr Hk. destruct b; [by apply triple_fail|auto]. Qed.

Lemma triple_attempt I P {A} (c : M A) Q R :
  triple I P c Q R ->
  triple I P (attempt c) (fun r d => match r with Ok a => Q a d | Err _ => R d end) (fun _ => False).
Proof. intros Hc s Hs. unfold attempt. pose proof (Hc s Hs) as H1. by destruct (c s) as [[a|e] s']. Qed.

Lemma triple_on_error I P {A} f (c : M A) Q R : triple I P c Q R -> triple I P (on_error f c) Q R.
Proof. intros Hc s Hs. unfold on_error. pose proof (Hc s Hs) as H1. by destruct (c s) as [[a|e] s']. Qed.

Lemma triple_fold I {A X} (f : A -> X -> M A) (J : list X -> A -> disk -> Prop) R xs :
  (forall done a x rest, xs = done ++ x :: rest -> triple I (J done a) (f a x) (J (done ++ [x])) R) ->
  forall a, triple I (J [] a) (fold_m f a xs) (J xs) R.
Proof.
  intros Hf a. assert (Hgen : forall rest done a, xs = done ++ rest -> triple I (J done a) (fold_m f a rest) (J xs) R).
  { induction rest as [|x rest IH]; intros done0 a0 Hx; simpl.
    - rewrite app_nil_r in Hx. subst. apply triple_ret. auto.
    - eapply triple_bind; [by eapply Hf|]. intros b. apply IH. by rewrite <- app_assoc. }
  by apply Hgen.
Qed.

(** *** Operations *)

Lemma triple_step I P {A} (f : disk -> result io_error A * disk) Q R :
  (forall d, P d -> I d /\ I (f d).2 /\ Q (f d).1 (f d).2 /\
     forall m, Q (Err (OtherError m)) d /\ Q (Err (OtherError m)) (f d).2) ->
  triple I P (step env f) Q R.
Proof.
  intros Hf s Hs. unfold step. destruct (Hf _ Hs) as (H1 & H2 & H3 & H4).
  assert (Hnew : forall d, I d -> exists new, past s ++ [d] = past s ++ new /\ Forall I new) by (intros d Hd; exists [d]; auto).
  destruct (fault env (clock s)) as [[[] m]|]; cbn [now past].
  - split; [by apply Hnew|apply H4].
  - split; [by apply Hnew|apply H4].
  - destruct (f (now s)) as [r d]. cbn [now past fst snd] in *. split; [by apply Hnew|done].
Qed.

Lemma triple_sys_with err I P {A} (f : disk -> result io_error A * disk) Q R :
  (forall d, P d -> I d /\ I (f d).2 /\ R d /\ R (f d).2 /\ forall a, (f d).1 = Ok a -> Q a (f d).2) ->
  triple I P (sys_with env err f) Q R.
Proof.
  intros Hf. unfold sys_with. eapply (triple_bind _ _ _ _ (fun r d => R d /\ forall a, r = Ok a -> Q a d)).
  - apply triple_step. intros d Hd. destruct (Hf d Hd) as (? & ? & ? & ? & ?). split_and!; auto.
    intros m. by split.
  - intros r. apply triple_of_res; [|by intros d [? _]]. intros a d Ha [_ Hq]. apply Hq. by destruct r; simplify_eq/=.
Qed.

Lemma triple_sys I P {A} (f : disk -> result io_error A * disk) Q R :
  (forall d, P d -> I d /\ I (f d).2 /\ R d /\ R (f d).2 /\ forall a, (f d).1 = Ok a -> Q a (f d).2) ->
  triple I P (sys env f) Q R.
Proof. apply triple_sys_with. Qed.

Lemma triple_gate I P {A} (k : M A) Q R : (forall d, P d -> R d) -> triple I P k Q R -> triple I P (run* gate env in k) Q R.
Proof.
  intros Hr Hk. eapply (triple_bind _ _ _ _ (fun _ => P)); [|done]. intros s Hs. unfold gate.
  destruct (refuse env (clock s)); cbn [now past]; auto using same_past.
Qed.

Lemma triple_uuid I P {A} (k : string -> M A) Q R :
  (forall id, triple I P (k id) Q R) -> triple I P (bind (new_uuid env) k) Q R.
Proof. intros Hk. eapply (triple_bind _ _ _ _ (fun _ => P)); [|done]. intros s Hs. simpl. auto using same_past. Qed.

Lemma triple_now_unix I P {A} (k : Z -> M A) Q R :
  (forall t, triple I P (k t) Q R) -> triple I P (bind (now_unix env) k) Q R.
Proof. intros Hk. eapply (triple_bind _ _ _ _ (fun _ => P)); [|done]. intros s Hs. simpl. auto using same_past. Qed.

Lemma triple_transaction I P {A} (k : bool -> M A) Q R :
  (forall d, P d -> R d) -> (forall free, triple I P (k free) Q R) -> triple I P (bind (try_transaction env) k) Q R.
Proof.
  intros Hr Hk. eapply (triple_bind _ _ _ _ (fun _ => P)); [|done]. apply triple_gate; [done|].
  intros s Hs. simpl. auto using same_past.
Qed.

(** *** Atomic writes *)

(** The disk after a whole write of [b] to [(D, name)]. *)
Definition new_file (d : disk) (i : nat) : Prop :=
  inodes d !! i = None /\ forall p, names d !! p <> Some i /\ saved d !! p <> Some i.

Definition written (D : dir) (name : string) (b : bytes) (d d' : disk) : Prop :=
  exists i, new_file d i /\ names d' = <[(D, name) := i]> (names d) /\
    inodes d' = <[i := mkInode b true true]> (inodes d) /\
    forall p, saved d' !! p = if decide (p.1 = D) then names d' !! p else saved d !! p.

(** The disks a write passes through: before the rename only the temporary name
    changes; after it the name has the whole file, saved or not. *)
Definition writing (D : dir) (name tmp : string) (b : bytes) (d d' : disk) : Prop :=
  exists i, new_file d i /\ (forall j, j <> i -> inodes d' !! j = inodes d !! j) /\
    ((forall p, p <> (D, tmp) -> names d' !! p = names d !! p) /\ saved d' = saved d \/
     names d !! (D, tmp) = None /\ names d' = <[(D, name) := i]> (names d) /\
     inodes d' !! i = Some (mkInode b true true) /\
     (saved d' = saved d \/ forall p, saved d' !! p = if decide (p.1 = D) then names d' !! p else saved d !! p)).

Lemma tmp_name_ne name id : tmp_name name id <> name.
Proof.
  intros E. apply (f_equal (fun s => length (as_bytes s))) in E. unfold tmp_name in E.
  rewrite !as_bytes_app, !length_app in E. simpl in E. lia.
Qed.

(** The stages of a write, from the disk [d]. *)
Definition staged (D : dir) (tmp : string) (d : disk) (i : nat) (b : bytes) (sync : bool) (d' : disk) : Prop :=
  new_file d i /\ names d !! (D, tmp) = None /\ names d' = <[(D, tmp) := i]> (names d) /\ saved d' = saved d /\
  inodes d' = <[i := mkInode b true sync]> (inodes d).

Lemma staged_writing D name tmp b d i x sync d' : staged D tmp d i x sync d' -> writing D name tmp b d d'.
Proof.
  intros (Hi & Ht & Hn & Hs & Hin). exists i. split; [done|]. split; [intros j Hj; by rewrite Hin, lookup_insert_ne|].
  left. split; [|done]. intros p Hp. by rewrite Hn, lookup_insert_ne.
Qed.

Lemma staged_inode D tmp d i x sync f y sync' d' :
  f (mkInode x true sync) = mkInode y true sync' ->
  staged D tmp d i x sync d' -> staged D tmp d i y sync' (set_inode i f d').
Proof.
  intros Hf (Hi & Ht & Hn & Hs & Hin). split_and!; [done|done|done|done|]. simpl. rewrite Hin.
  by rewrite alter_insert_eq, Hf.
Qed.

Lemma writing_refl D name tmp b d : writing D name tmp b d d.
Proof. exists (fresh_inode d). split; [apply fresh_inode_new|]. auto. Qed.

Lemma written_writing D name tmp b d d' :
  names d !! (D, tmp) = None -> written D name b d d' -> writing D name tmp b d d'.
Proof.
  intros Ht (i & Hi & Hn & Hin & Hs). exists i. split; [done|]. split; [intros j Hj; by rewrite Hin, lookup_insert_ne|].
  right. split; [done|]. split; [done|]. rewrite Hin, lookup_insert_eq. auto.
Qed.

Lemma create_stage err D name tmp b d :
  triple (writing D name tmp b d) (eq d) (sys_with env err (do_create (D, tmp))) (fun i => staged D tmp d i [] false)
    (writing D name tmp b d).
Proof.
  pose proof (writing_refl D name tmp b d) as Hw.
  apply triple_sys_with. intros d1 <-. assert (Hc : forall i, (do_create (D, tmp) d).1 = Ok i ->
    staged D tmp d i [] false (do_create (D, tmp) d).2).
  { intros i. unfold do_create. destruct (names d !! (D, tmp)) eqn:E; [done|]. intros [= <-].
    split_and!; [apply fresh_inode_new|done..]. }
  assert (writing D name tmp b d (do_create (D, tmp) d).2).
  { destruct ((do_create (D, tmp) d).1) as [i|e] eqn:E; [eapply staged_writing; by apply Hc|].
    revert E. unfold do_create. by destruct (names d !! (D, tmp)). }
  split_and!; auto.
Qed.

Lemma write_stage err D name tmp b d i :
  triple (writing D name tmp b d) (staged D tmp d i [] false) (sys_with env err (do_write i b))
    (fun _ => staged D tmp d i b false) (writing D name tmp b d).
Proof.
  apply triple_sys_with. intros d1 H1.
  assert (H2 : staged D tmp d i b false (do_write i b d1).2) by (eapply staged_inode; [|exact H1]; done).
  split_and!; eauto using staged_writing.
Qed.

Lemma sync_stage err D name tmp b d i :
  triple (writing D name tmp b d) (staged D tmp d i b false) (sys_with env err (do_sync i))
    (fun _ => staged D tmp d i b true) (writing D name tmp b d).
Proof.
  apply triple_sys_with. intros d1 H1.
  assert (H2 : staged D tmp d i b true (do_sync i d1).2) by (eapply staged_inode; [|exact H1]; done).
  split_and!; eauto using staged_writing.
Qed.

(** The name refers to the whole file, but is not saved. *)
Definition renamed (D : dir) (name tmp : string) (b : bytes) (d : disk) (i : nat) (d' : disk) : Prop :=
  new_file d i /\ names d !! (D, tmp) = None /\ names d' = <[(D, name) := i]> (names d) /\ saved d' = saved d /\
  inodes d' = <[i := mkInode b true true]> (inodes d).

Lemma renamed_writing D name tmp b d i d' : renamed D name tmp b d i d' -> writing D name tmp b d d'.
Proof.
  intros (Hi & Ht & Hn & Hs & Hin). exists i. split; [done|]. split; [intros j Hj; by rewrite Hin, lookup_insert_ne|]. right.
  rewrite Hin, lookup_insert_eq. auto.
Qed.

Lemma rename_stage err D name tmp b d i :
  triple (writing D name tmp b d) (staged D tmp d i b true) (sys_with env err (do_rename (D, tmp) (D, name)))
    (fun _ => renamed D name tmp b d i) (writing D name tmp b d).
Proof.
  apply triple_sys_with. intros d1 H1. pose proof H1 as (Hi & Ht & Hn & Hs & Hin).
  assert (renamed D name tmp b d i (do_rename (D, tmp) (D, name) d1).2).
  { unfold do_rename. rewrite Hn, lookup_insert_eq. split_and!; try done. simpl. by rewrite delete_insert_id. }
  split_and!; eauto using staged_writing, renamed_writing.
Qed.

Lemma write_new_ok D name tmp b d :
  tmp <> name ->
  triple (writing D name tmp b d) (eq d) (write_new env D name tmp b) (fun _ => written D name b d)
    (writing D name tmp b d).
Proof.
  intros Hne. unfold write_new. eapply triple_bind; [apply create_stage|]. intros i.
  eapply triple_bind; [apply write_stage|]. intros []. eapply triple_bind; [apply sync_stage|]. intros [].
  eapply triple_bind; [apply rename_stage|]. intros []. apply triple_sys. intros d1 H1.
  pose proof H1 as (Hi & Ht & Hn & Hs & Hin).
  assert (Hd : written D name b d (do_sync_dir D d1).2).
  { exists i. split_and!; [done|done|done|]. intros p. rewrite sync_dir_saved, Hs. done. }
  split_and!; eauto using written_writing, renamed_writing.
Qed.

(** Removing the temporary name. *)
Lemma writing_remove D name tmp b d d' :
  tmp <> name -> writing D name tmp b d d' -> writing D name tmp b d (do_remove (D, tmp) d').2.
Proof.
  intros Hne (i & Hi & Hin & Hc). unfold do_remove. destruct (names d' !! (D, tmp)) as [j|] eqn:E; [|by exists i].
  exists i. split; [done|]. split; [done|]. cbn [snd names saved inodes].
  destruct Hc as [[Hn Hs]|(Ht & Hn & _)].
  - left. split; [|done]. intros p Hp. rewrite lookup_delete_ne by done. auto.
  - rewrite Hn, lookup_insert_ne in E by congruence. congruence.
Qed.

(** [write_atomic]: every disk on the way, and after an error. *)
Definition writing_any (D : dir) (name : string) (b : bytes) (d d' : disk) : Prop :=
  exists id, writing D name (tmp_name name id) b d d'.

Lemma writing_start D name b d d1 : d = d1 -> writing_any D name b d d1.
Proof. intros <-. exists "". apply writing_refl. Qed.

(** A write that removes its temporary name when it fails. *)
Lemma guarded_write D name id b d (c : M unit) (Q : disk -> Prop) :
  let tmp := tmp_name name id in
  triple (writing D name tmp b d) (eq d) c (fun _ => Q) (writing D name tmp b d) ->
  triple (writing_any D name b d) (eq d)
    (let* r := attempt c in
     match r with Ok _ => ret tt | Err e => run* step env (do_remove (D, tmp)) in of_run (Err e) end)
    (fun _ => Q) (writing_any D name b d).
Proof.
  cbv zeta. intros Hc. pose proof (tmp_name_ne name id) as Hne. set (tmp := tmp_name name id) in *.
  assert (Hi : forall d1, writing D name tmp b d d1 -> writing_any D name b d d1) by (intros d1 ?; by exists id).
  eapply triple_bind.
  { eapply triple_weaken; [apply triple_attempt, Hc|done|done|intros a d1 Ha; exact Ha|by intros d1 []]. }
  intros [[]|e]; [by apply triple_ret|].
  eapply (triple_bind _ _ _ _ (fun _ => writing_any D name b d)); [|intros r; by apply triple_of_run].
  apply triple_step. intros d1 H1.
  assert (H2 : writing D name tmp b d (do_remove (D, tmp) d1).2) by (by apply writing_remove).
  split_and!; auto.
Qed.

Lemma write_atomic_spec D name b d :
  triple (writing_any D name b d) (eq d) (write_atomic env D name b) (fun _ => written D name b d)
    (writing_any D name b d).
Proof.
  unfold write_atomic. do 3 (apply triple_gate; [apply writing_start|]). apply triple_uuid. intros id. cbv zeta.
  intros s Hs. pose proof (guarded_write D name id b d _ _ (write_new_ok D name (tmp_name name id) b d (tmp_name_ne name id)) s Hs) as Hg.
  unfold bind in *. by destruct (attempt _ s) as [[[[]|]|] ?].
Qed.

(** *** Removals *)

Definition removing (D : dir) (name : string) (d d' : disk) : Prop :=
  inodes d' = inodes d /\ (forall p, p <> (D, name) -> names d' !! p = names d !! p) /\
  (names d' !! (D, name) = names d !! (D, name) \/ names d' !! (D, name) = None) /\
  (saved d' = saved d \/ forall p, saved d' !! p = if decide (p.1 = D) then names d' !! p else saved d !! p).

Lemma remove_spec err D name d :
  triple (removing D name d) (eq d) (remove_with env err D name)
    (fun _ d' => removing D name d d' /\ names d' !! (D, name) = None) (removing D name d).
Proof.
  assert (Hr : removing D name d d) by (split_and!; auto).
  eapply (triple_bind _ _ _ _ (fun r d' => removing D name d d' /\ saved d' = saved d /\
    match r with Ok _ | Err NotFound => names d' !! (D, name) = None | Err _ => True end)).
  - apply triple_step. intros d1 <-.
    assert (H2 : removing D name d (do_remove (D, name) d).2 /\ saved (do_remove (D, name) d).2 = saved d /\
      match (do_remove (D, name) d).1 with Ok _ | Err NotFound => names (do_remove (D, name) d).2 !! (D, name) = None
                                         | Err _ => True end).
    { unfold do_remove. destruct (names d !! (D, name)) eqn:E; [|done]. cbn [fst snd]. split_and!; [|done|apply lookup_delete_eq].
      split_and!; [done| | |by left]; cbn [names]; [intros p Hp; by rewrite lookup_delete_ne|right; apply lookup_delete_eq]. }
    destruct H2 as (? & ? & ?). split_and!; auto.
  - intros r. assert (Hs : triple (removing D name d) (fun d' => removing D name d d' /\ saved d' = saved d /\
        names d' !! (D, name) = None) (sync_dir env D)
        (fun _ d' => removing D name d d' /\ names d' !! (D, name) = None) (removing D name d)).
    { apply triple_sys. intros d1 (H1 & Hs & Hn). pose proof H1 as (Hi & Hp & Hq & _).
      assert (removing D name d (do_sync_dir D d1).2).
      { split_and!; [done|done|by right|]. right. intros p. rewrite sync_dir_saved. by rewrite Hs. }
      split_and!; auto. }
    destruct r as [[]|[]]; [exact Hs|apply triple_ret; tauto|apply triple_fail; tauto|apply triple_fail; tauto].
Qed.

(** *** Reading *)

(** [c] leaves the disk [d] as it is; what it returns has [Q]. *)
Definition reads (d : disk) {A} (c : M A) (Q : A -> Prop) : Prop :=
  triple (eq d) (eq d) c (fun a d' => d' = d /\ Q a) (eq d).

Lemma reads_ret d {A} (a : A) (Q : A -> Prop) : Q a -> reads d (ret a) Q.
Proof. intros Ha. apply triple_ret. by intros d' <-. Qed.

Lemma reads_bind d {A B} (c : M A) (k : A -> M B) P Q :
  reads d c P -> (forall a, P a -> reads d (k a) Q) -> reads d (bind c k) Q.
Proof.
  intros Hc Hk. eapply triple_bind; [exact Hc|]. intros a s [Hs Ha]. by apply (Hk a Ha).
Qed.

Lemma reads_of_run d {A} (r : Run A) (Q : A -> Prop) : (forall a, r = Ok a -> Q a) -> reads d (of_run r) Q.
Proof. intros Hq. apply triple_of_run; [|done]. intros a d' Ha <-. auto. Qed.

Lemma reads_of_res d {A} (r : Res A) (Q : A -> Prop) : (forall a, r = Ok a -> Q a) -> reads d (of_res r) Q.
Proof. intros Hq. apply triple_of_res; [|done]. intros a d' Ha <-. auto. Qed.

Lemma reads_fail d {A} e (Q : A -> Prop) : reads d (fail e) Q.
Proof. by apply triple_fail. Qed.

Lemma reads_guard d {A} (b : bool) e (k : M A) Q :
  (b = false -> reads d k Q) -> reads d (if b then fail e else k) Q.
Proof. intros Hk. by apply triple_guard. Qed.

Lemma reads_step d {A} (f : disk -> result io_error A * disk) (Q : result io_error A -> Prop) :
  (f d).2 = d -> Q (f d).1 -> (forall m, Q (Err (OtherError m))) -> reads d (step env f) Q.
Proof. intros Hf Hq Hm. apply triple_step. intros d' <-. rewrite Hf. split_and!; auto. Qed.

Lemma reads_sys d {A} (f : disk -> result io_error A * disk) (Q : A -> Prop) :
  (f d).2 = d -> (forall a, (f d).1 = Ok a -> Q a) -> reads d (sys env f) Q.
Proof. intros Hf Hq. apply triple_sys. intros d' <-. rewrite Hf. split_and!; auto. Qed.

Lemma reads_gate d {A} (k : M A) Q : reads d k Q -> reads d (run* gate env in k) Q.
Proof. intros Hk. by apply triple_gate. Qed.

Lemma reads_on_error d {A} f (c : M A) Q : reads d c Q -> reads d (on_error f c) Q.
Proof. apply triple_on_error. Qed.

Lemma reads_weaken d {A} (c : M A) (P Q : A -> Prop) : reads d c P -> (forall a, P a -> Q a) -> reads d c Q.
Proof. intros Hc Hq. eapply triple_weaken; [exact Hc|auto|auto|naive_solver|auto]. Qed.

Lemma reads_fold d {A X} (f : A -> X -> M A) (J : list X -> A -> Prop) xs a :
  (forall done a x rest, xs = done ++ x :: rest -> J done a -> reads d (f a x) (J (done ++ [x]))) ->
  J [] a -> reads d (fold_m f a xs) (J xs).
Proof.
  intros Hf Ha. eapply (triple_weaken _ _ _ _ _ _ (fun a d' => d' = d /\ J xs a)).
  - apply (triple_fold _ _ (fun done a d' => d' = d /\ J done a) (eq d)).
    intros done b x rest Hx s [Hs Hj]. by apply (Hf done b x rest Hx Hj).
  - done.
  - by intros d' <-.
  - done.
  - done.
Qed.

Lemma reads_optional d p (Q : option bytes -> Prop) :
  (lookup p d = None -> Q None) -> (forall n, lookup p d = Some n -> regular n = true -> Q (Some (data n))) ->
  reads d (read_optional env p) Q.
Proof.
  intros Hn Hs. eapply (reads_bind _ _ _ (fun r => match r with
    | Ok b => Q (Some b) | Err NotFound => Q None | Err _ => True end)).
  - apply reads_step; [done| |done]. unfold do_read. cbn [fst]. destruct (lookup p d) as [n|] eqn:E; [|auto].
    destruct (regular n) eqn:Er; auto.
  - intros [b|[]] Hr; [by apply reads_ret|by apply reads_ret|apply reads_fail|apply reads_fail].
Qed.

(** What each reading operation says at most. *)
Lemma reads_step_post d {A} (f : disk -> result io_error A * disk) :
  (f d).2 = d -> reads d (step env f) (fun r => r = (f d).1 \/ exists m, r = Err (OtherError m)).
Proof. intros Hf. apply reads_step; eauto. Qed.

Lemma open_same p d : (do_open p d).2 = d.
Proof. unfold do_open. by destruct (names d !! p). Qed.

Lemma reads_sys_post d {A} (f : disk -> result io_error A * disk) :
  (f d).2 = d -> reads d (sys env f) (fun a => (f d).1 = Ok a).
Proof. intros Hf. by apply reads_sys. Qed.

Lemma reads_res_post d {A} (r : Res A) : reads d (of_res r) (fun a => r = Ok a).
Proof. by apply reads_of_res. Qed.

Lemma reads_run_post d {A} (r : Run A) : reads d (of_run r) (fun a => r = Ok a).
Proof. by apply reads_of_run. Qed.

(** What a name refers to, as a reader sees it. *)
Definition read_of (d : disk) (p : path) (o : option bytes) : Prop :=
  match o with
  | Some b => exists n, lookup p d = Some n /\ regular n = true /\ data n = b
  | None => lookup p d = None
  end.

Lemma reads_optional_post d p : reads d (read_optional env p) (read_of d p).
Proof. apply reads_optional; [done|]. intros n Hn Hr. by exists n. Qed.

Lemma reads_attempt d {A} (c : M A) (Q : A -> Prop) :
  reads d c Q -> reads d (attempt c) (fun r => forall a, r = Ok a -> Q a).
Proof.
  intros Hc. eapply triple_weaken; [exact (triple_attempt _ _ _ _ _ Hc)|auto|auto| |by intros ? []].
  intros [a|e] d'; [intros [-> Ha]|intros <-]; (split; [done|]); [by intros ? [= <-]|done].
Qed.

Lemma reads_uuid d {A} (k : string -> M A) Q : (forall id, reads d (k id) Q) -> reads d (bind (new_uuid env) k) Q.
Proof. apply triple_uuid. Qed.

Lemma reads_triple d (I : disk -> Prop) {A} (c : M A) (Q : A -> Prop) R :
  I d -> R d -> reads d c Q -> triple I (eq d) c (fun a d' => d' = d /\ Q a) R.
Proof. intros Hi Hr Hc. eapply triple_weaken; [exact Hc|by intros ? <-|auto|auto|by intros ? <-]. Qed.

(** *** Keeping a property *)

(** [A] holds at every moment of [c] if it holds at the start. *)
Definition keeps (A : disk -> Prop) {B} (c : M B) : Prop := triple A A c (fun _ => A) A.

Lemma keeps_ret A {B} (b : B) : keeps A (ret b).
Proof. by apply triple_ret. Qed.

Lemma keeps_bind A {B C} (c : M B) (k : B -> M C) : keeps A c -> (forall b, keeps A (k b)) -> keeps A (bind c k).
Proof. apply triple_bind. Qed.

Lemma keeps_fail A {B} e : keeps A (fail (A := B) e).
Proof. by apply triple_fail. Qed.

Lemma keeps_of_run A {B} (r : Run B) : keeps A (of_run r).
Proof. by apply triple_of_run. Qed.

Lemma keeps_of_res A {B} (r : Res B) : keeps A (of_res r).
Proof. by apply triple_of_res. Qed.

Lemma keeps_gate A : keeps A (gate env).
Proof. intros s Hs. unfold gate. destruct (refuse env (clock s)); cbn [now past]; auto using same_past. Qed.

Lemma keeps_reads A {B} (c : M B) : (forall d, reads d c (fun _ => True)) -> keeps A c.
Proof.
  intros Hc. apply triple_from. intros d Hd. eapply triple_weaken; [apply (reads_triple _ A _ _ A Hd Hd (Hc d))|..]; auto.
  by intros ? ? [-> _].
Qed.

Lemma keeps_step A {B} (f : disk -> result io_error B * disk) : (forall d, A d -> A (f d).2) -> keeps A (step env f).
Proof. intros Hf. apply triple_step. intros d Hd. split_and!; auto. Qed.

Lemma keeps_sys A {B} (f : disk -> result io_error B * disk) : (forall d, A d -> A (f d).2) -> keeps A (sys env f).
Proof. intros Hf. apply keeps_bind; [by apply keeps_step|]. intros r. apply keeps_of_res. Qed.

Lemma keeps_on_error A {B} f (c : M B) : keeps A c -> keeps A (on_error f c).
Proof. apply triple_on_error. Qed.

Lemma keeps_attempt A {B} (c : M B) : keeps A c -> keeps A (attempt c).
Proof.
  intros Hc. eapply triple_weaken; [exact (triple_attempt _ _ _ _ _ Hc)|auto|auto| |by intros ? []]. by intros [a|e].
Qed.

Lemma keeps_fold A {B X} (f : B -> X -> M B) xs b : (forall b x, keeps A (f b x)) -> keeps A (fold_m f b xs).
Proof. intros Hf. exact (triple_fold A f (fun _ _ => A) A xs (fun _ b x _ _ => Hf b x) b). Qed.

Lemma keeps_uuid A : keeps A (new_uuid env).
Proof. intros s Hs. simpl. auto using same_past. Qed.

Lemma keeps_now A : keeps A (now_unix env).
Proof. intros s Hs. simpl. auto using same_past. Qed.
End Rules.

(** ** Facts and writes *)

(** Facts are about names that are not temporaries. *)
Definition visible (p : path) : bool := negb (starts_with "." p.2).
Definition visible_facts (F : facts) : Prop := forall p v, F p v -> visible p = true.

Lemma visible_add F p v : visible p = true -> visible_facts F -> visible_facts (add p v F).
Proof. intros Hp Hv q w [[-> _]|Hq]; eauto. Qed.

Lemma silent_add F p q v : q <> p -> silent F q -> silent (add p v F) q.
Proof. intros Hn Hs w [[-> _]|Hq]; [done|]. by apply (Hs w). Qed.

Lemma holds_writing F D name b d d' :
  visible_facts F -> silent F (D, name) -> holds F d -> writing_any D name b d d' -> holds F d'.
Proof.
  intros Hv Hq HF (id & i & (Hi & Hp) & Hin & Hc) p v Hpv. specialize (HF p v Hpv).
  assert (p <> (D, tmp_name name id)) as Hpt by (intros ->; by specialize (Hv _ _ Hpv)).
  assert (p <> (D, name)) as Hpn by (intros ->; by apply (Hq v)).
  assert (names d' !! p = names d !! p) as En.
  { destruct Hc as [[Hn _]|(_ & -> & _)]; [by apply Hn|by rewrite lookup_insert_ne]. }
  assert (saved d' !! p = saved d !! p \/ saved d' !! p = names d !! p) as Es.
  { destruct Hc as [[_ ->]|(_ & _ & _ & [->|Hs])]; [by left|by left|]. rewrite Hs, En. destruct (decide (p.1 = D)); auto. }
  destruct v as [x|]; simpl in *; rewrite En.
  - destruct HF as (j & E1 & E2 & E3). exists j. split_and!; [done|by destruct Es as [->| ->]|].
    rewrite Hin; [done|]. intros ->. congruence.
  - destruct HF as [E1 E2]. split; [done|]. by destruct Es as [->| ->].
Qed.

Lemma written_names D name b d d' p : written D name b d d' -> p <> (D, name) ->
  names d' !! p = names d !! p /\ saved d' !! p = if decide (p.1 = D) then names d !! p else saved d !! p.
Proof. intros (i & _ & Hn & _ & Hs) Hp. rewrite Hs, Hn, lookup_insert_ne by done. done. Qed.

Lemma holds_written F D name b d d' :
  silent F (D, name) -> holds F d -> written D name b d d' -> holds (add (D, name) (Some b) F) d'.
Proof.
  intros Hq HF Hw. pose proof Hw as (i & (Hi & Hp) & Hn & Hin & Hs). apply holds_add.
  - intros p v Hpv. assert (p <> (D, name)) as Hpn by (intros ->; by apply (Hq v)). specialize (HF p v Hpv).
    destruct (written_names _ _ _ _ _ _ Hw Hpn) as [En Es]. destruct v as [x|]; simpl in *; rewrite En, Es.
    + destruct HF as (j & E1 & E2 & E3). exists j. split_and!; [done|by destruct (decide (p.1 = D))|].
      rewrite Hin, lookup_insert_ne; [done|]. intros ->. congruence.
    + destruct HF as [E1 E2]. split; [done|]. by destruct (decide (p.1 = D)).
  - exists i. rewrite Hs, Hn, lookup_insert_eq, Hin, lookup_insert_eq. by rewrite decide_True.
Qed.

(** A sync of the directory makes an absence durable. *)
Lemma written_absent D name b d d' g :
  written D name b d d' -> g <> name -> names d !! (D, g) = None -> durable_at d' (D, g) None.
Proof.
  intros Hw Hg Hn. destruct (written_names _ _ _ _ _ (D, g) Hw) as [En Es]; [congruence|]. simpl.
  rewrite En, Es. by rewrite decide_True.
Qed.

Lemma holds_removing F D name d d' :
  silent F (D, name) -> holds F d -> removing D name d d' -> holds F d'.
Proof.
  intros Hq HF (Hi & Hn & _ & Hs) p v Hpv. assert (p <> (D, name)) as Hpn by (intros ->; by apply (Hq v)).
  specialize (HF p v Hpv). assert (saved d' !! p = saved d !! p \/ saved d' !! p = names d !! p) as Es.
  { destruct Hs as [->|Hs]; [by left|]. rewrite Hs, Hn by done. destruct (decide (p.1 = D)); auto. }
  destruct v as [x|]; simpl in *; rewrite Hn, ?Hi by done.
  - destruct HF as (j & E1 & E2 & E3). exists j. split_and!; [done|by destruct Es as [->| ->]|done].
  - destruct HF as [E1 E2]. split; [done|]. by destruct Es as [->| ->].
Qed.

(** After a crash the name has the whole file or nothing. *)
Definition whole_at (p : path) (b : bytes) (d : disk) : Prop :=
  (forall i, names d !! p = Some i -> inodes d !! i = Some (mkInode b true true)) /\
  (forall i, saved d !! p = Some i -> inodes d !! i = Some (mkInode b true true)).

Lemma whole_crash p b d d' : whole_at p b d -> crash d d' ->
  lookup p d' = None \/ lookup p d' = Some (mkInode b true true).
Proof.
  intros [Hn Hs] (_ & Hc & Hi). unfold lookup. destruct (names d' !! p) as [i|] eqn:E; [right|by left]. simpl.
  assert (inodes d !! i = Some (mkInode b true true)) as Ei by (destruct (Hc p) as [E'|E']; [apply Hn|apply Hs]; congruence).
  destruct (Hi _ _ Ei) as (x & -> & Hx). simpl in *. by rewrite (Hx eq_refl).
Qed.

Lemma absent_whole p b d : durable_at d p None -> whole_at p b d.
Proof. intros [E1 E2]. split; intros i; congruence. Qed.

Lemma writing_whole D name b d d' :
  starts_with "." name = false -> durable_at d (D, name) None -> writing_any D name b d d' -> whole_at (D, name) b d'.
Proof.
  intros Hv [E1 E2] (id & i & (Hi & Hp) & Hin & Hc). destruct Hc as [[Hn Hs]|(_ & Hn & Hb & Hs)].
  - assert ((D, name) <> (D, tmp_name name id)) as Hne.
    { intros [= E]. by apply (tmp_name_ne name id). }
    split; intros j; [rewrite Hn by done|rewrite Hs]; congruence.
  - split; intros j; [rewrite Hn, lookup_insert_eq; congruence|]. destruct Hs as [->|Hs]; [congruence|].
    rewrite Hs, decide_True, Hn, lookup_insert_eq by done. congruence.
Qed.

Lemma written_whole D name b d d' : written D name b d d' -> whole_at (D, name) b d'.
Proof.
  intros (i & _ & Hn & Hin & Hs). split; intros j; [|rewrite Hs, decide_True by done];
    rewrite Hn, lookup_insert_eq, Hin; intros [= <-]; by rewrite lookup_insert_eq.
Qed.

Lemma removing_whole D name b d d' : whole_at (D, name) b d -> removing D name d d' -> whole_at (D, name) b d'.
Proof.
  intros [H1 H2] (Hi & _ & Hq & Hs). rewrite <- Hi in H1, H2.
  assert (forall j, names d' !! (D, name) = Some j -> inodes d' !! j = Some (mkInode b true true)) as Hn.
  { intros j Hj. destruct Hq as [E|E]; [apply H1|]; congruence. }
  split; [done|]. intros j. destruct Hs as [->|Hs]; [apply H2|]. rewrite Hs, decide_True by done. apply Hn.
Qed.

(** *** Programs and facts *)

Section Facts.
Context (env : environment).

Lemma write_adds (F : facts) D name b :
  visible_facts F -> silent F (D, name) ->
  triple (holds F) (holds F) (write_atomic env D name b) (fun _ => holds (add (D, name) (Some b) F)) (holds F).
Proof.
  intros Hv Hs. apply triple_from. intros d Hd. eapply triple_weaken; [apply (write_atomic_spec env D name b d)|..];
    eauto using holds_writing, holds_written.
Qed.

Lemma keeps_write (F : facts) D name b :
  visible_facts F -> silent F (D, name) -> keeps (holds F) (write_atomic env D name b).
Proof.
  intros Hv Hs. eapply triple_weaken; [by apply write_adds|auto|auto| |auto].
  intros a d Hd p v Hp. apply Hd. by right.
Qed.

Lemma keeps_remove (F : facts) err D name : silent F (D, name) -> keeps (holds F) (remove_with env err D name).
Proof.
  intros Hs. apply triple_from. intros d Hd. eapply triple_weaken; [apply (remove_spec env err D name d)|..];
    eauto using holds_removing. intros a d' [Hr _]. eauto using holds_removing.
Qed.

Lemma keeps_sync_dir (F : facts) D : keeps (holds F) (sync_dir env D).
Proof. apply keeps_sys. intros d. apply holds_sync_dir. Qed.

(** Nothing is claimed. *)
Lemma any_write D name b : keeps (fun _ => True) (write_atomic env D name b).
Proof. apply triple_from. intros d _. eapply triple_weaken; [apply write_atomic_spec|done..]. Qed.

Lemma any_remove err D name : keeps (fun _ => True) (remove_with env err D name).
Proof. apply triple_from. intros d _. eapply triple_weaken; [apply remove_spec|done..]. Qed.
End Facts.

(** ** Runs without failures *)

Definition calm (env : environment) : Prop := (forall k, fault env k = None) /\ (forall k, refuse env k = None).

(** [c] returns [a] on the disk [d] and leaves it unchanged. *)
Definition returns {A} (d : disk) (c : M A) (a : A) : Prop :=
  forall s, now s = d -> exists s', c s = (Ok a, s') /\ now s' = d.

Section Calm.
Context (env : environment) (Hcalm : calm env).

Lemma returns_ret {A} d (a : A) : returns d (ret a) a.
Proof. intros s Hs. by exists s. Qed.

Lemma returns_bind {A B} d (c : M A) (k : A -> M B) a b : returns d c a -> returns d (k a) b -> returns d (bind c k) b.
Proof.
  intros Hc Hk s Hs. unfold bind. destruct (Hc s Hs) as (s1 & -> & H1). destruct (Hk s1 H1) as (s2 & -> & H2). eauto.
Qed.

Lemma returns_of_run {A} d (r : Run A) a : r = Ok a -> returns d (of_run r) a.
Proof. intros -> s Hs. by exists s. Qed.

Lemma returns_of_res {A} d (r : Res A) a : r = Ok a -> returns d (of_res r) a.
Proof. intros ->. by apply returns_of_run. Qed.

Lemma returns_step {A} d (f : disk -> result io_error A * disk) r :
  f d = (r, d) -> returns d (step env f) r.
Proof using Hcalm. intros Hf s Hs. unfold step. rewrite (proj1 Hcalm), Hs, Hf. eauto. Qed.

Lemma returns_gate {A} d (k : M A) a : returns d k a -> returns d (run* gate env in k) a.
Proof using Hcalm.
  intros Hk. apply (returns_bind _ _ _ tt); [|done]. intros s Hs. unfold gate. rewrite (proj2 Hcalm). eauto.
Qed.

Lemma returns_guard {A} d (b : bool) e (k : M A) a : b = false -> returns d k a -> returns d (if b then fail e else k) a.
Proof. by intros ->. Qed.

Lemma returns_sys {A} d (f : disk -> result io_error A * disk) a : f d = (Ok a, d) -> returns d (sys env f) a.
Proof using Hcalm. intros Hf. eapply returns_bind; [by eapply returns_step|]. apply returns_of_res. done. Qed.

Lemma returns_on_error {A} d f (c : M A) a : returns d c a -> returns d (on_error f c) a.
Proof. intros Hc s Hs. unfold on_error. destruct (Hc s Hs) as (s' & -> & Hs'). by exists s'. Qed.

Lemma returns_read_some d p b :
  lookup p d = Some (mkInode b true true) -> returns d (read_optional env p) (Some b).
Proof using Hcalm.
  intros Hl. eapply returns_bind; [by eapply returns_step|]. unfold do_read. rewrite Hl. simpl. apply returns_ret.
Qed.

Lemma returns_read_none d p : lookup p d = None -> returns d (read_optional env p) None.
Proof using Hcalm.
  intros Hl. eapply returns_bind; [by eapply returns_step|]. unfold do_read. rewrite Hl. simpl. apply returns_ret.
Qed.

Lemma returns_fold {A X} d (f : A -> X -> M A) (J : list X -> A -> Prop) xs :
  (forall done a x rest, xs = done ++ x :: rest -> J done a -> exists b, returns d (f a x) b /\ J (done ++ [x]) b) ->
  forall a, J [] a -> exists b, returns d (fold_m f a xs) b /\ J xs b.
Proof.
  intros Hf a Ha. assert (Hgen : forall rest done a, xs = done ++ rest -> J done a ->
    exists b, returns d (fold_m f a rest) b /\ J xs b).
  { induction rest as [|x rest IH]; intros done0 a0 Hx Hj; simpl.
    - rewrite app_nil_r in Hx. subst. exists a0. split; [apply returns_ret|done].
    - destruct (Hf done0 a0 x rest Hx Hj) as (b & Hb & Hj').
      destruct (IH (done0 ++ [x]) b) as (c & Hc & ?); [by rewrite <- app_assoc|done|].
      exists c. split; [|done]. by eapply returns_bind. }
  by apply (Hgen xs []).
Qed.
End Calm.
(** ** Programs that keep a property of the disk *)

Section Attains.
Context {I : disk -> Prop} (env : environment).

(** From a disk with [I], [c] passes through such disks only, and ends in a
    client error or in a result with [Q]. *)
Definition attains {A} (c : M A) (Q : A -> Prop) : Prop :=
  forall s, I (now s) ->
    ((exists new, past (c s).2 = past s ++ new /\ Forall I new) /\ I (now (c s).2)) /\
    match (c s).1 with Ok a => Q a | Err (Failed _) => True | Err _ => False end.

(** A program that leaves the disk alone. *)
Lemma attains_still {A} (c : M A) (Q : A -> Prop) :
  (forall s, now (c s).2 = now s /\ past (c s).2 = past s) ->
  (forall s, match (c s).1 with Ok a => Q a | Err (Failed _) => True | Err _ => False end) -> attains c Q.
Proof.
  intros Hc Hq s Hs. destruct (Hc s) as [-> ->]. split; [split; [|done]|apply Hq]. apply same_past.
Qed.

Lemma attains_ret {A} (a : A) (Q : A -> Prop) : Q a -> attains (ret a) Q.
Proof. intros Ha. by apply attains_still. Qed.
Lemma attains_bind {A B} (c : M A) (k : A -> M B) P Q :
  attains c P -> (forall a, P a -> attains (k a) Q) -> attains (bind c k) Q.
Proof.
  intros Hc Hk s Hs. unfold bind. destruct (Hc s Hs) as [[(n1 & E1 & F1) I1] H1'].
  destruct (c s) as [[a|e] s1]; simpl in *.
  - destruct (Hk a H1' s1 I1) as [[(n2 & E2 & F2) I2] H2']. split; [|done]. split; [|done].
    exists (n1 ++ n2). rewrite E2, E1, app_assoc. split; [done|]. by apply Forall_app.
  - split; [|done]. split; [by exists n1|done].
Qed.
Lemma attains_of_run {A} (r : Run A) (Q : A -> Prop) : clean r -> (forall a, r = Ok a -> Q a) -> attains (of_run r) Q.
Proof. intros Hc Hq. apply attains_still; [done|]. intros s. unfold of_run. simpl. destruct r as [a|[]]; simpl in *; auto. Qed.
Lemma attains_of_res {A} (r : Res A) (Q : A -> Prop) : (forall a, r = Ok a -> Q a) -> attains (of_res r) Q.
Proof. intros Hq. apply attains_of_run; [apply clean_lift|]. intros a Ha. apply Hq. by destruct r; simplify_eq/=. Qed.
Lemma attains_fail {A} e (Q : A -> Prop) : attains (fail e) Q.
Proof. by apply attains_still. Qed.
Lemma attains_guard {A} (b : bool) e (k : M A) Q : (b = false -> attains k Q) -> attains (if b then fail e else k) Q.
Proof. destruct b; [intros _; apply attains_fail|auto]. Qed.
Lemma attains_gate {A} (k : M A) Q : attains k Q -> attains (run* gate env in k) Q.
Proof.
  intros Hk. apply (attains_bind _ _ (fun _ => True)); [|auto]. apply attains_still; [done|]. intros s. unfold gate. simpl.
  by destruct (refuse _ _).
Qed.
Lemma attains_ask {A} (f : nat -> Res A) (Q : A -> Prop) : (forall k a, f k = Ok a -> Q a) -> attains (ask f) Q.
Proof. intros Hq. apply attains_still; [done|]. intros s. unfold ask. simpl. destruct (f (clock s)) eqn:E; simpl; eauto. Qed.
Lemma attains_weaken {A} (c : M A) (P Q : A -> Prop) : attains c P -> (forall a, P a -> Q a) -> attains c Q.
Proof.
  intros Hc Hq s Hs. destruct (Hc s Hs) as [HI H1']. split; [done|]. destruct (c s).1 as [a|[]]; auto.
Qed.
Lemma attains_attempt {A} (c : M A) : attains c (fun _ => True) -> attains (attempt c) clean.
Proof.
  intros Hc s Hs. unfold attempt. pose proof (Hc s Hs) as H1'. destruct (c s) as [[a|[]] s']; by simpl in *.
Qed.

Lemma attains_step {A} (f : disk -> result io_error A * disk) (Q : result io_error A -> Prop) :
  (forall d, I d -> I (f d).2 /\ Q (f d).1) -> (forall m, Q (Err (OtherError m))) -> attains (step env f) Q.
Proof.
  intros Hf Hm s Hs. destruct (Hf _ Hs) as [Hi Hq]. unfold step.
  assert (Hnew : forall d, I d -> exists new, past s ++ [d] = past s ++ new /\ Forall I new) by (intros d Hd; exists [d]; auto).
  destruct (fault env (clock s)) as [[[] m]|]; simpl; auto. destruct (f (now s)) as [r d]. simpl in *. auto.
Qed.
Lemma attains_sys {A} err (f : disk -> result io_error A * disk) :
  (forall d, I d -> I (f d).2) -> attains (sys_with env err f) (fun _ => True).
Proof.
  intros Hf. apply (attains_bind _ _ (fun _ => True)); [apply attains_step; auto|]. intros r _. by apply attains_of_res.
Qed.

(** A program whose triple is known. *)
Lemma attains_triple {A} (c : M A) (Q : A -> Prop) :
  (forall s, clean (c s).1) ->
  (forall d, I d -> triple I (eq d) c (fun a d' => I d' /\ Q a) I) -> attains c Q.
Proof.
  intros Hc Ht s Hs. pose proof (Ht (now s) Hs s eq_refl) as Hx. specialize (Hc s).
  destruct (c s) as [[a|[]] s']; simpl in *; tauto.
Qed.

Lemma attains_fold {A X} (f : A -> X -> M A) (J : list X -> list X -> A -> Prop) xs :
  (forall done a x rest, xs = done ++ x :: rest -> J done (x :: rest) a ->
     attains (f a x) (J (done ++ [x]) rest)) ->
  forall a, J [] xs a -> attains (fold_m f a xs) (J xs []).
Proof.
  intros Hf. assert (Hgen : forall rest done a, xs = done ++ rest -> J done rest a -> attains (fold_m f a rest) (J xs [])).
  { induction rest as [|x rest IH]; intros done0 a E Ha; simpl.
    - rewrite app_nil_r in E. subst. by apply attains_ret.
    - apply (attains_bind _ _ (J (done0 ++ [x]) rest)); [by apply Hf|]. intros a' Ha'.
      apply (IH (done0 ++ [x])); [by rewrite <- app_assoc|done]. }
  intros a Ha. by apply (Hgen xs []).
Qed.
(** Programs that always end. *)
Lemma clean_bind_m {A B} (c : M A) (k : A -> M B) :
  (forall s, clean (c s).1) -> (forall a s, clean (k a s).1) -> forall s, clean (bind c k s).1.
Proof. intros Hc Hk s. unfold bind. specialize (Hc s). destruct (c s) as [[a|[]] s']; simpl in *; auto. Qed.
Lemma clean_sys {A} err (f : disk -> result io_error A * disk) s : clean (sys_with env err f s).1.
Proof.
  unfold sys_with. apply clean_bind_m; [|intros r s'; apply clean_lift]. intros s'. unfold step.
  by destruct (fault env (clock s')) as [[[] ?]|]; simpl; destruct (f (now s')).
Qed.
Lemma clean_gate {A} (k : M A) : (forall s, clean (k s).1) -> forall s, clean ((run* gate env in k) s).1.
Proof. intros Hk. apply clean_bind_m; [|done]. intros s. unfold gate. simpl. by destruct (refuse _ _). Qed.
End Attains.
Arguments attains I {A} c Q : assert.

(** ** Programs that keep a property of the disk, however they end *)

Section Maintains.
Context {I : disk -> Prop} (env : environment).

(** From a disk with [I], [c] passes through such disks only, whatever its
    outcome is; its result has [Q]. *)
Definition maintains {A} (c : M A) (Q : A -> Prop) : Prop := triple I I c (fun a d => I d /\ Q a) I.

Lemma attains_maintains {A} (c : M A) Q : attains I c Q -> maintains c Q.
Proof. intros Hc s Hs. destruct (Hc s Hs) as [[Hn Hi] Hq]. destruct (c s) as [[a|e] s']; simpl in *; auto. Qed.
Lemma maintains_bind {A B} (c : M A) (k : A -> M B) P Q :
  maintains c P -> (forall a, P a -> maintains (k a) Q) -> maintains (bind c k) Q.
Proof.
  intros Hc Hk. eapply triple_bind; [exact Hc|]. intros a. intros s [Hs Ha]. by apply (Hk a Ha s).
Qed.
Lemma maintains_ret {A} (a : A) (Q : A -> Prop) : Q a -> maintains (ret a) Q.
Proof. intros Ha. by apply triple_ret. Qed.
Lemma maintains_of_run {A} (r : Run A) (Q : A -> Prop) : (forall a, r = Ok a -> Q a) -> maintains (of_run r) Q.
Proof. intros Hq. apply triple_of_run; auto. Qed.
Lemma maintains_of_res {A} (r : Res A) (Q : A -> Prop) : (forall a, r = Ok a -> Q a) -> maintains (of_res r) Q.
Proof. intros Hq. apply triple_of_res; auto. Qed.
Lemma maintains_guard {A} (b : bool) e (k : M A) Q : (b = false -> maintains k Q) -> maintains (if b then fail e else k) Q.
Proof. intros Hk. by apply triple_guard. Qed.
Lemma maintains_gate {A} (k : M A) Q : maintains k Q -> maintains (run* gate env in k) Q.
Proof. intros Hk. by apply triple_gate. Qed.
Lemma maintains_fold {A X} (f : A -> X -> M A) (J : A -> Prop) (K : X -> Prop) xs :
  (forall a x, J a -> K x -> maintains (f a x) J) -> Forall K xs -> forall a, J a -> maintains (fold_m f a xs) J.
Proof.
  intros Hf Hxs. induction Hxs as [|x xs Hx _ IH]; intros a Ha; [by apply maintains_ret|].
  eapply maintains_bind; [by apply Hf|exact IH].
Qed.
End Maintains.
Arguments maintains I {A} c Q : assert.
End DiskLogic.
