(* ===== verification/Journal.v ===== *)
(** * Journal

    [src/snapshot/durable.rs]: the resume journal of a hydration. Records are
    lines of JSON, appended in bounded batches, each synced as a whole; a crash
    may cut the last batch, so that a reader drops an unterminated last line and
    nothing else. *)

From S2P Require Import Prelude Types Faults Text Frames Disk.
Import Counters Disk.
Local Open Scope string_scope.
Local Open Scope list_scope.
Local Open Scope Z_scope.

Record FileRecord : Type := mkRecord { rec_path : string; rec_digest : string; rec_size : Z }.

(** [serde_json] on journal records: reading inverts writing; a record is
    written in UTF-8 as one line, an object. *)
Class RecordCodec : Type := {
  record_to_vec : FileRecord -> result string bytes;
  record_from_str : bytes -> result string FileRecord;
  record_round_trip : forall r b, record_to_vec r = Ok b -> record_from_str b = Ok r;
  record_line : forall r b, record_to_vec r = Ok b -> head b = Some 123 /\ (10 ∉ b) /\ utf8_valid b = true;
}.

Module Journal.

Definition JOURNAL_FILE : string := "journal.log".
Definition JOURNAL_MAX_RECORDS : Z := 128.
Definition JOURNAL_MAX_BYTES : Z := 256 * 1024.

Definition internal (m : string) : SnapshotError := SnapshotError_new Internal m.

(** ** Text *)

(** The length of the ill-formed sequence [String::from_utf8_lossy] replaces:
    the longest prefix of a well-formed one, or one byte. *)
Definition bad_len (l : bytes) : nat :=
  match l with
  | b :: c :: rest =>
      let second :=
        if in_range 224 b 239 then
          if b =? 224 then in_range 160 c 191 else if b =? 237 then in_range 128 c 159 else in_range 128 c 191
        else if in_range 240 b 244 then
          if b =? 240 then in_range 144 c 191 else if b =? 244 then in_range 128 c 143 else in_range 128 c 191
        else false in
      if negb second then 1%nat
      else if in_range 224 b 239 then 2%nat
      else match continuation rest with Some _ => 3%nat | None => 2%nat end
  | _ => 1%nat
  end.

Fixpoint lossy_in (fuel : nat) (l : bytes) : bytes :=
  match fuel, l with
  | O, _ | _, [] => []
  | S fuel, l =>
      match scalar l with
      | Some rest => take (length l - length rest) l ++ lossy_in fuel rest
      | None => [239; 191; 189] ++ lossy_in fuel (drop (bad_len l) l)
      end
  end.
(** [String::from_utf8_lossy]; every round consumes a byte. *)
Definition lossy (l : bytes) : bytes := lossy_in (length l) l.

(** [text.split('\n')]. *)
Fixpoint split_lines (l : bytes) : list bytes :=
  match l with
  | [] => [[]]
  | b :: l =>
      if b =? 10 then [] :: split_lines l
      else match split_lines l with
           | line :: lines => (b :: line) :: lines
           | [] => [[b]]
           end
  end.

(** The white space of [str::trim], as UTF-8. *)
Definition white (l : bytes) : option bytes :=
  match l with
  | b :: l' =>
      if in_range 9 b 13 || (b =? 32) then Some l'
      else match b, l' with
           | 194, c :: l'' => if (c =? 133) || (c =? 160) then Some l'' else None
           | 225, 154 :: 128 :: l'' => Some l''
           | 226, 128 :: c :: l'' =>
               if in_range 128 c 138 || (c =? 168) || (c =? 169) || (c =? 175) then Some l'' else None
           | 226, 129 :: 159 :: l'' => Some l''
           | 227, 128 :: 128 :: l'' => Some l''
           | _, _ => None
           end
  | [] => None
  end.
Fixpoint blank_in (fuel : nat) (l : bytes) : bool :=
  match l, fuel with
  | [], _ => true
  | _, O => false
  | _, S fuel => match white l with Some l => blank_in fuel l | None => false end
  end.
(** [line.trim().is_empty()]. *)
Definition blank (l : bytes) : bool := blank_in (length l) l.

Definition terminated (b : bytes) : bool := bool_decide (list.last b = Some 10).

Section Journal.
Context `{RecordCodec}.

(** ** Reading *)

(** One line of the journal. *)
Definition read_line (st : Z * gmap string FileRecord) (line : bytes) : Res (Z * gmap string FileRecord) :=
  let '(idx, out) := st in
  if blank line then Ok (idx + 1, out)
  else match record_from_str line with
       | Ok r => Ok (idx + 1, <[rec_path r := r]> out)
       | Err e =>
           Err (internal ("journal record " ++ u64_to_string idx ++ " unreadable (" ++ e ++ "): " ++ of_bytes line))
       end.

(** The records of the journal's bytes. *)
Definition parse_journal (b : bytes) : Res (gmap string FileRecord) :=
  let lines := split_lines (lossy b) in
  let? ' (_, out) := for_each read_line (0, ∅) (if terminated b then lines else removelast lines) in
  Ok out.

Section Programs.
Context (env : environment).

Definition read_journal : M (gmap string FileRecord) :=
  let* b := read_optional env (Root, JOURNAL_FILE) in
  match b with
  | None => ret ∅
  | Some b => of_res (parse_journal b)
  end.

(** The bytes [truncate_journal_tail] keeps: up to the last newline. *)
Fixpoint whole_lines (b : bytes) : bytes :=
  match b with
  | [] => []
  | x :: b => match whole_lines b with
              | [] => if x =? 10 then [10] else []
              | w => x :: w
              end
  end.

Definition truncate_journal_tail : M unit :=
  let* b := read_optional env (Root, JOURNAL_FILE) in
  match b with
  | None => ret tt
  | Some b =>
      if terminated b || bool_decide (b = []) then ret tt
      else
        let* f := sys env (do_open (Root, JOURNAL_FILE)) in
        run* sys env (do_set_len f (zlen (whole_lines b))) in
        run* sys env (do_sync f) in
        sync_dir env Root
  end.

(** ** Writing *)

(** [append_journal_bytes]: the gate is the capacity admission. *)
Definition append_journal_bytes (b : bytes) : M unit :=
  if bool_decide (b = []) then ret tt
  else
    run* gate env in
    let* f := sys env (do_append (Root, JOURNAL_FILE)) in
    run* sys env (do_write f b) in
    run* sys env (do_sync f) in
    sync_dir env Root.

Record JournalBuffer : Type := mkBuffer { buf_bytes : bytes; buf_records : Z }.
Definition JournalBuffer_default : JournalBuffer := mkBuffer [] 0.

(** [JournalBatch::flush_locked]: the buffer is kept when the write fails. *)
Definition flush_locked (buf : JournalBuffer) : M (Run unit * JournalBuffer) :=
  let* r := attempt (append_journal_bytes (buf_bytes buf)) in
  ret (r, match r with Ok _ => JournalBuffer_default | Err _ => buf end).

(** [JournalBatch::append]. *)
Definition append (buf : JournalBuffer) (r : FileRecord) : M (Run unit * JournalBuffer) :=
  match record_to_vec r with
  | Err e => ret (Err (Failed (internal e)), buf)
  | Ok line =>
      let line := line ++ [10] in
      let* ' (r, buf) :=
        if (0 <? buf_records buf)
           && ((buf_records buf =? JOURNAL_MAX_RECORDS)
               || (JOURNAL_MAX_BYTES <? saturating_add (zlen (buf_bytes buf)) (zlen line)))
        then flush_locked buf else ret (Ok tt, buf) in
      match r with
      | Err e => ret (Err e, buf)
      | Ok _ =>
          if JOURNAL_MAX_BYTES <? zlen line then
            let* r := attempt (append_journal_bytes line) in ret (r, buf)
          else
            let buf := mkBuffer (buf_bytes buf ++ line) (buf_records buf + 1) in
            if (buf_records buf =? JOURNAL_MAX_RECORDS) || (zlen (buf_bytes buf) =? JOURNAL_MAX_BYTES)
            then flush_locked buf else ret (Ok tt, buf)
      end
  end.

(** The records of one pass, and the flush that ends it. *)
Definition append_all (rs : list FileRecord) : M unit :=
  let* buf := fold_m (fun buf r => let* ' (r, buf) := append buf r in run* of_run r in ret buf)
                JournalBuffer_default rs in
  let* ' (r, _) := flush_locked buf in
  of_run r.

(** The lines of the records of a manifest. *)
Fixpoint encode_lines (rs : list FileRecord) : Res bytes :=
  match rs with
  | [] => Ok []
  | r :: rs =>
      let? b := map_err internal (record_to_vec r) in
      let? rest := encode_lines rs in
      Ok ((b ++ [10]) ++ rest)
  end.

Definition record_of (f : SnapshotFile) : FileRecord := mkRecord (rel_path f) (file_digest f) (file_size f).

(** [compact_journal]: the gates are the scope, the size limit and the capacity
    admission. *)
Definition compact_journal (manifest : list SnapshotFile) : M unit :=
  run* gate env in
  run* gate env in
  run* gate env in
  let* id := new_uuid env in
  let tmp := tmp_name JOURNAL_FILE id in
  let* r := attempt (
    let* f := sys env (do_create (Root, tmp)) in
    let* lines := of_res (encode_lines (record_of <$> manifest)) in
    run* sys env (do_write f lines) in
    run* sys env (do_sync f) in
    run* sys env (do_rename (Root, tmp) (Root, JOURNAL_FILE)) in
    sync_dir env Root) in
  match r with
  | Ok _ => ret tt
  | Err e => run* step env (do_remove (Root, tmp)) in of_run (Err e)
  end.
End Programs.
End Journal.

(** ** Lines and torn tails *)

Lemma continuation_some l r : continuation l = Some r -> exists b, l = b :: r /\ is_continuation b = true.
Proof. destruct l as [|b l]; simpl; [done|]. destruct (is_continuation b) eqn:E; [|done]. intros [= <-]. eauto. Qed.

Lemma scalar_app l r : scalar l = Some r -> exists c, l = c ++ r /\ c <> [] /\ forall x, scalar (l ++ x) = Some (r ++ x).
Proof.
  unfold scalar. destruct l as [|b l]; [done|]. cbn [app].
  destruct (in_range 0 b 127). { intros [= <-]. by exists [b]. }
  destruct (in_range 194 b 223).
  { intros (c & -> & Hc)%continuation_some. exists [b; c]. split_and!; [done..|]. intros x. simpl. by rewrite Hc. }
  destruct l as [|c l]; [done|]. cbn [app]. destruct (in_range 224 b 239).
  { destruct (if b =? 224 then _ else _); [|done]. intros (e & -> & He)%continuation_some. exists [b; c; e].
    split_and!; [done..|]. intros x. simpl. by rewrite He. }
  destruct (in_range 240 b 244); [|done]. destruct (if b =? 240 then _ else _); [|done].
  intros (l' & (e & -> & He)%continuation_some & (f & -> & Hf)%continuation_some)%bind_Some. exists [b; c; e; f].
  split_and!; [done..|]. intros x. simpl. rewrite He. simpl. by rewrite Hf.
Qed.

Lemma lossy_in_enough fuel l : (length l <= fuel)%nat -> lossy_in fuel l = lossy l.
Proof.
  unfold lossy. revert l. assert (Hgen : forall n l fuel, (length l <= n)%nat -> (length l <= fuel)%nat -> lossy_in fuel l = lossy_in n l).
  { induction n as [|n IH]; intros l fuel0 Hn Hf; destruct l as [|b l]; simpl in Hn; try lia.
    - by destruct fuel0.
    - by destruct fuel0.
    - destruct fuel0 as [|fuel0]; [simpl in Hf; lia|]. cbn [lossy_in]. destruct (scalar (b :: l)) as [r|] eqn:E.
      + apply scalar_app in E as (c & Ec & Hc & _). assert (length r <= length l)%nat.
        { apply (f_equal length) in Ec. rewrite length_app in Ec. destruct c; [done|]. simpl in Ec. lia. }
        f_equal. simpl in Hf. apply IH; lia.
      + f_equal. assert (length (drop (bad_len (b :: l)) (b :: l)) <= length l)%nat.
        { rewrite length_drop. assert (1 <= bad_len (b :: l))%nat; [|simpl length; lia].
          unfold bad_len. destruct l as [|c l]; [lia|]. repeat case_match; lia. }
        simpl in Hf. apply IH; lia. }
  intros l Hl. by apply Hgen.
Qed.

Lemma lossy_scalar l r : scalar l = Some r -> lossy l = take (length l - length r) l ++ lossy r.
Proof.
  intros E. pose proof (scalar_app _ _ E) as (c & -> & Hc & _). unfold lossy at 1.
  destruct (length (c ++ r)) as [|n] eqn:El. { rewrite length_app in El. destruct c; simpl in *; [done|lia]. }
  destruct (c ++ r) as [|b l] eqn:Ecr; [done|]. cbn [lossy_in]. rewrite E, El. f_equal.
  apply lossy_in_enough. apply (f_equal length) in Ecr. rewrite length_app in Ecr. simpl in *. destruct c; simpl in *; [done|lia].
Qed.

(** Well-formed text is unchanged, whatever follows it. *)
Lemma lossy_valid l x : utf8_valid l = true -> lossy (l ++ x) = l ++ lossy x.
Proof.
  unfold utf8_valid. generalize (length l) as n. intros n. revert l. induction n as [|n IH]; intros l Hv.
  { by destruct l. }
  destruct l as [|b l]; [done|]. cbn [utf8_valid_in] in Hv. destruct (scalar (b :: l)) as [r|] eqn:E; [|done].
  apply scalar_app in E as (c & Ec & Hc & Hx). rewrite (lossy_scalar _ _ (Hx x)), IH by done. rewrite Ec.
  rewrite app_assoc. f_equal. rewrite <- app_assoc, take_app_length'; [done|]. rewrite !length_app. lia.
Qed.

Lemma scalar_newline x : scalar (10 :: x) = Some x.
Proof. done. Qed.

Lemma lossy_newline x : lossy (10 :: x) = 10 :: lossy x.
Proof. rewrite (lossy_scalar _ x) by done. cbn [length]. replace (S (length x) - length x)%nat with 1%nat by lia. done. Qed.

Lemma not_in_part {A} (x : A) n l : x ∉ l -> (x ∉ take n l) /\ (x ∉ drop n l).
Proof. rewrite <- (take_drop n l) at 1. set_solver. Qed.

Lemma lossy_no_newline l : 10 ∉ l -> 10 ∉ lossy l.
Proof.
  unfold lossy. generalize (length l) as n. intros n. revert l. induction n as [|n IH]; intros l Hl; [set_solver|].
  destruct l as [|b l]; [set_solver|]. cbn [lossy_in]. destruct (scalar (b :: l)) as [r|] eqn:E.
  - rewrite elem_of_app. intros [Hi|Hi]; [by apply not_in_part in Hi|]. revert Hi. apply IH.
    apply scalar_app in E as (c & Ec & _). rewrite Ec in Hl. set_solver.
  - rewrite elem_of_app. intros [Hi|Hi]; [set_solver|]. revert Hi. by apply IH, not_in_part.
Qed.

(** *** Lines *)

Definition lines_of (bs : list bytes) : bytes := concat ((fun b => b ++ [10]) <$> bs).

Lemma split_line l x : 10 ∉ l -> split_lines (l ++ 10 :: x) = l :: split_lines x.
Proof.
  induction l as [|b l IH]; intros Hl; [done|]. cbn [app split_lines]. destruct (Z.eqb_spec b 10); [set_solver|].
  rewrite IH by set_solver. done.
Qed.

Lemma split_tail l : 10 ∉ l -> split_lines l = [l].
Proof.
  induction l as [|b l IH]; intros Hl; [done|]. cbn [split_lines]. destruct (Z.eqb_spec b 10); [set_solver|].
  rewrite IH by set_solver. done.
Qed.

Lemma lines_of_cons b bs : lines_of (b :: bs) = b ++ 10 :: lines_of bs.
Proof. unfold lines_of. simpl. by rewrite <- app_assoc. Qed.

Lemma lines_of_app bs cs : lines_of (bs ++ cs) = lines_of bs ++ lines_of cs.
Proof. unfold lines_of. by rewrite fmap_app, concat_app. Qed.

Lemma split_lines_of bs t :
  Forall (fun b => 10 ∉ b) bs -> 10 ∉ t -> split_lines (lines_of bs ++ t) = bs ++ [t].
Proof.
  intros Hb Ht. induction Hb as [|b bs Hb Hbs IH]; [by apply split_tail|].
  rewrite lines_of_cons, <- app_assoc. cbn [app]. rewrite split_line by done. by rewrite IH.
Qed.

Lemma lossy_lines_of bs t :
  Forall (fun b => utf8_valid b = true) bs -> lossy (lines_of bs ++ t) = lines_of bs ++ lossy t.
Proof.
  intros Hb. induction Hb as [|b bs Hb Hbs IH]; [done|].
  rewrite lines_of_cons, <- !app_assoc, lossy_valid by done. cbn [app]. by rewrite lossy_newline, IH.
Qed.

Lemma whole_lines_tail t : 10 ∉ t -> whole_lines t = [].
Proof.
  induction t as [|x t IH]; intros Ht; [done|]. cbn [whole_lines]. rewrite IH by set_solver.
  destruct (Z.eqb_spec x 10); [set_solver|done].
Qed.

Lemma whole_lines_newline l x : whole_lines (l ++ 10 :: x) = l ++ 10 :: whole_lines x.
Proof.
  induction l as [|b l IH]; cbn [app whole_lines].
  - by destruct (whole_lines x).
  - rewrite IH. by destruct l.
Qed.

Lemma whole_lines_of bs t : 10 ∉ t -> whole_lines (lines_of bs ++ t) = lines_of bs.
Proof.
  intros Ht. induction bs as [|b bs IH]; [by apply whole_lines_tail|].
  rewrite lines_of_cons, <- app_assoc. cbn [app]. by rewrite whole_lines_newline, IH.
Qed.

(** A prefix of some lines is whole lines and a cut one. *)
Lemma lines_of_prefix bs n :
  Forall (fun b => 10 ∉ b) bs ->
  exists k t, take n (lines_of bs) = lines_of (take k bs) ++ t /\ (10 ∉ t) /\
    (k <= length bs)%nat /\ (k < length bs -> n < length (lines_of (take (S k) bs)))%nat.
Proof.
  intros Hb. revert n. induction Hb as [|b bs Hb Hbs IH]; intros n.
  { exists 0%nat, []. split_and!; [by destruct n|set_solver|lia|simpl; lia]. }
  rewrite lines_of_cons. destruct (decide (n <= length b)%nat) as [Hn|Hn].
  - exists 0%nat, (take n b). rewrite take_app_le by done. split_and!; [done|by apply not_in_part|lia|].
    intros _. cbn [take]. rewrite lines_of_cons, length_app. simpl. lia.
  - destruct (IH (n - S (length b))%nat) as (k & t & Ht & Hnt & Hk & Hmax). exists (S k), t.
    replace n with (length b + S (n - S (length b)))%nat at 1 by lia. rewrite take_app_add. cbn [take].
    rewrite Ht, lines_of_cons, <- app_assoc. split_and!; [done|done|simpl; lia|].
    intros Hlt. simpl in Hlt. rewrite lines_of_cons, length_app. simpl.
    assert (n - S (length b) < length (lines_of (take (S k) bs)))%nat by (apply Hmax; lia). simpl in *. lia.
Qed.

(** *** Records *)

Lemma last_newline bs : bs <> [] -> list.last (lines_of bs) = Some 10.
Proof.
  intros Hne. destruct bs as [|b bs _] using rev_ind; [done|]. rewrite lines_of_app, lines_of_cons.
  change (lines_of []) with (@nil Z). by rewrite app_assoc, last_snoc.
Qed.

Lemma last_no_newline l t : t <> [] -> 10 ∉ t -> list.last (l ++ t) <> Some 10.
Proof.
  intros Hne Ht E. destruct t as [|x t _] using rev_ind; [done|]. rewrite app_assoc, last_snoc in E. set_solver.
Qed.

Section Records.
Context `{RecordCodec}.

Definition encodes (rs : list FileRecord) (bs : list bytes) : Prop := Forall2 (fun r b => record_to_vec r = Ok b) rs bs.

Definition records_map (rs : list FileRecord) : gmap string FileRecord :=
  foldl (fun m r => <[rec_path r := r]> m) ∅ rs.

Lemma encodes_lines rs bs :
  encodes rs bs -> Forall (fun b => 10 ∉ b) bs /\ Forall (fun b => utf8_valid b = true) bs.
Proof.
  induction 1 as [|r b rs bs Hr Hrs IH]; [done|]. apply record_line in Hr as (_ & ? & ?). destruct IH. auto.
Qed.

Lemma read_encoded rs bs idx out :
  encodes rs bs ->
  for_each read_line (idx, out) bs = Ok (idx + zlen bs, foldl (fun m r => <[rec_path r := r]> m) out rs).
Proof.
  intros He. revert idx out. induction He as [|r b rs bs Hr Hrs IH]; intros idx out; simpl.
  - do 2 f_equal. unfold zlen. simpl. lia.
  - pose proof (record_line _ _ Hr) as (Hh & _). unfold read_line at 1.
    replace (blank b) with false.
    2:{ destruct b as [|x b]; [done|]. simpl in Hh. by simplify_eq. }
    rewrite (record_round_trip _ _ Hr). simpl. rewrite IH. do 2 f_equal. unfold zlen. simpl length. lia.
Qed.

(** The lines of some records, then a tail without a newline. *)
Lemma parse_lines rs bs t :
  encodes rs bs -> 10 ∉ t -> parse_journal (lines_of bs ++ t) = Ok (records_map rs).
Proof.
  intros He Ht. destruct (encodes_lines _ _ He) as [Hn Hv]. unfold parse_journal, terminated.
  rewrite lossy_lines_of by done. rewrite split_lines_of by auto using lossy_no_newline.
  destruct (decide (t = [])) as [->|Hne].
  - change (lossy []) with (@nil Z). rewrite app_nil_r. destruct (decide (bs = [])) as [->|Hbs].
    + inversion He; subst. done.
    + rewrite bool_decide_true by (by apply last_newline). rewrite for_each_app, (read_encoded _ _ _ _ He). done.
  - rewrite bool_decide_false by (by apply last_no_newline). rewrite removelast_last, (read_encoded _ _ _ _ He). done.
Qed.
End Records.
End Journal.
