(* ===== verification/JournalFacts.v ===== *)
(** * JournalFacts

    The journal of a hydration: batching writes the records in order, each
    once, and a journal cut anywhere reads back as a prefix of its records. *)

From S2P Require Import Prelude Types Faults Text Frames Disk DiskLogic Journal.
Import Disk DiskLogic Journal.
Local Open Scope string_scope.
Local Open Scope list_scope.
Local Open Scope Z_scope.

Module JournalFacts.
Section Torn.
Context `{RecordCodec}.

Lemma records_map_app rs rs' :
  records_map (rs ++ rs') = foldl (fun m r => <[rec_path r := r]> m) (records_map rs) rs'.
Proof. apply foldl_app. Qed.

(** C30: a torn journal loses only its tail. A journal of some records, cut after
    any number of bytes, reads back as exactly the records whose lines are
    complete, which are a prefix; cutting the torn line off keeps exactly their
    lines, and records appended after that read back after them. *)
Theorem journal_torn_tail rs bs n :
  encodes rs bs ->
  exists k, (k <= length rs)%nat /\ (k < length rs -> n < length (lines_of (take (S k) bs)))%nat /\
    parse_journal (take n (lines_of bs)) = Ok (records_map (take k rs)) /\
    whole_lines (take n (lines_of bs)) = lines_of (take k bs) /\
    forall rs' bs', encodes rs' bs' ->
      parse_journal (whole_lines (take n (lines_of bs)) ++ lines_of bs') = Ok (records_map (take k rs ++ rs')).
Proof.
  intros He. destruct (encodes_lines _ _ He) as [Hn _]. pose proof (Forall2_length He) as Hlen.
  destruct (lines_of_prefix bs n Hn) as (k & t & -> & Ht & Hk & Hmax). exists k.
  assert (Hek : encodes (take k rs) (take k bs)) by (by apply Forall2_take).
  rewrite whole_lines_of by done. split_and!; [lia|by rewrite Hlen|by apply parse_lines|done|].
  intros rs' bs' He'. rewrite <- lines_of_app, <- (app_nil_r (lines_of _)). apply parse_lines; [|set_solver].
  by apply Forall2_app.
Qed.
End Torn.

(** ** Batches *)

Definition journal (d : disk) : bytes :=
  match lookup (Root, JOURNAL_FILE) d with Some n => data n | None => [] end.

Section Batches.
Context `{RecordCodec} (env : environment).

Lemma journal_sync_dir d D : journal (do_sync_dir D d).2 = journal d.
Proof. done. Qed.

(** The journal is the file [f]. *)
Definition journal_is (f : nat) (x : bytes) (d : disk) : Prop :=
  names d !! (Root, JOURNAL_FILE) = Some f /\ exists n, inodes d !! f = Some n /\ data n = x.

Lemma journal_is_bytes f x d : journal_is f x d -> journal d = x.
Proof. intros (Hn & n & Hi & <-). unfold journal, lookup. rewrite Hn. simpl. by rewrite Hi. Qed.

Lemma append_opens d f :
  (do_append (Root, JOURNAL_FILE) d).1 = Ok f -> journal_is f (journal d) (do_append (Root, JOURNAL_FILE) d).2.
Proof.
  unfold do_append. destruct (names d !! (Root, JOURNAL_FILE)) as [i|] eqn:E.
  - unfold do_open. rewrite E. simpl. destruct (inodes d !! i) as [n|] eqn:Ei; [|done].
    destruct (regular n); [|done]. intros [= <-]. split; [done|]. exists n. split; [done|].
    unfold journal, lookup. rewrite E. simpl. by rewrite Ei.
  - intros (_ & ? & ? & _)%create_new. split; [done|]. eexists. split; [done|].
    unfold journal, lookup. by rewrite E.
Qed.

Lemma append_journal d : journal (do_append (Root, JOURNAL_FILE) d).2 = journal d.
Proof.
  unfold do_append. destruct (names d !! (Root, JOURNAL_FILE)) as [i|] eqn:E.
  - unfold do_open. by rewrite E.
  - unfold do_create. rewrite E. unfold journal, lookup. simpl. rewrite lookup_insert_eq, E. simpl. by rewrite lookup_insert_eq.
Qed.

Lemma set_inode_journal f x g y d :
  (forall n, data n = x -> data (g n) = y) -> journal_is f x d -> journal_is f y (set_inode f g d).
Proof.
  intros Hg (Hn & n & Hi & Hx). split; [done|]. exists (g n). simpl. rewrite lookup_alter_eq, Hi. auto.
Qed.

Lemma append_journal_bytes_ok (I : disk -> Prop) x b :
  (forall d, journal d = x \/ journal d = x ++ b -> I d) ->
  triple I (fun d => journal d = x) (append_journal_bytes env b) (fun _ d => journal d = x ++ b) (fun _ => True).
Proof.
  intros HI. unfold append_journal_bytes. destruct (bool_decide_reflect (b = [])) as [->|Hb].
  { apply triple_ret. intros d <-. by rewrite app_nil_r. }
  apply triple_gate; [done|]. eapply (triple_bind _ _ _ _ (fun f => journal_is f x)).
  { apply triple_sys. intros d Hd. pose proof (append_journal d) as Ha. split_and!; auto.
    - apply HI. left. by rewrite Ha.
    - intros f Hf%append_opens. by rewrite Hd in Hf. }
  intros f. eapply (triple_bind _ _ _ _ (fun _ => journal_is f (x ++ b))).
  { apply triple_sys. intros d Hd.
    assert (Hw : journal_is f (x ++ b) (do_write f b d).2) by (eapply set_inode_journal; [|done]; by intros n <-).
    split_and!; auto; apply HI; eauto using journal_is_bytes. }
  intros []. eapply (triple_bind _ _ _ _ (fun _ => journal_is f (x ++ b))).
  { apply triple_sys. intros d Hd.
    assert (Hw : journal_is f (x ++ b) (do_sync f d).2) by (eapply set_inode_journal; [|done]; done).
    split_and!; auto; apply HI; eauto using journal_is_bytes. }
  intros []. apply triple_sys. intros d Hd%journal_is_bytes. split_and!; auto.
Qed.

(** The state of a pass after the first [m] lines: [k] of them are written and
    the others are buffered, within the limits. *)
Definition batched (j : bytes) (bs : list bytes) (m : nat) (buf : JournalBuffer) (d : disk) : Prop :=
  exists k, (k <= m)%nat /\ buf_bytes buf = lines_of (drop k (take m bs)) /\ buf_records buf = Z.of_nat (m - k) /\
    buf_records buf < JOURNAL_MAX_RECORDS /\ zlen (buf_bytes buf) < JOURNAL_MAX_BYTES /\
    journal d = j ++ lines_of (take k bs).

Definition prefix_written (j : bytes) (bs : list bytes) (d : disk) : Prop :=
  exists k, journal d = j ++ lines_of (take k bs).

(** Before a flush the buffer may be at its limits. *)
Definition buffered (j : bytes) (bs : list bytes) (m : nat) (buf : JournalBuffer) (d : disk) : Prop :=
  exists k, (k <= m)%nat /\ (m <= length bs)%nat /\ buf_bytes buf = lines_of (drop k (take m bs)) /\
    journal d = j ++ lines_of (take k bs).

Lemma flush_locked_ok j bs m buf :
  triple (prefix_written j bs) (buffered j bs m buf) (flush_locked env buf)
    (fun r d => match r.1 with Ok _ => batched j bs m r.2 d /\ r.2 = JournalBuffer_default | Err _ => True end)
    (fun _ => True).
Proof.
  apply triple_exists. intros k. do 3 (apply triple_pure; intros ?).
  assert (Hall : (j ++ lines_of (take k bs)) ++ buf_bytes buf = j ++ lines_of (take m bs)).
  { replace (buf_bytes buf) with (lines_of (drop k (take m bs))) by done. rewrite <- app_assoc, <- lines_of_app.
    do 2 f_equal. rewrite <- (take_drop k (take m bs)) at 2. rewrite take_take. by replace (k `min` m)%nat with k by lia. }
  eapply (triple_bind _ _ _ _ (fun r d => match r with Ok _ => journal d = j ++ lines_of (take m bs) | Err _ => True end)).
  - rewrite <- Hall. eapply triple_weaken; [apply triple_attempt, (append_journal_bytes_ok _ (j ++ lines_of (take k bs)))|done|done|by intros [[]|e]|by intros d []].
    intros d [Hd|Hd]; [by exists k|exists m; by rewrite Hd, Hall].
  - intros r. apply triple_ret. intros d Hd. cbn [fst snd]. destruct r as [[]|e]; [|done].
    split; [|done]. exists m. rewrite Nat.sub_diag, drop_ge by (rewrite length_take; lia). done.
Qed.

(** Adding a line to the buffer. *)
Lemma buffer_line j bs m buf b d :
  bs !! m = Some b -> batched j bs m buf d -> zlen (buf_bytes buf) + zlen (b ++ [10]) <= JOURNAL_MAX_BYTES ->
  let buf' := mkBuffer (buf_bytes buf ++ b ++ [10]) (buf_records buf + 1) in
  buffered j bs (S m) buf' d /\
  ((buf_records buf' =? JOURNAL_MAX_RECORDS) || (zlen (buf_bytes buf') =? JOURNAL_MAX_BYTES) = false ->
   batched j bs (S m) buf' d).
Proof.
  intros Hb (k & Hk & Hbytes & Hrec & Hr & Hz & Hj) Hfit. cbv zeta. pose proof (lookup_lt_Some _ _ _ Hb) as Hm.
  assert (Hs : buf_bytes buf ++ b ++ [10] = lines_of (drop k (take (S m) bs))).
  { rewrite (take_S_r _ _ _ Hb), drop_app_le by (rewrite length_take; lia). rewrite lines_of_app, Hbytes.
    unfold lines_of at 3. simpl. by rewrite app_nil_r. }
  split.
  - exists k. split_and!; [lia|lia|done|done].
  - intros [H1 H2]%orb_false_iff. exists k. cbn [buf_bytes buf_records] in *.
    apply Z.eqb_neq in H1, H2. pose proof (zlen_app (buf_bytes buf) (b ++ [10])).
    split_and!; [lia|done|lia|lia|lia|done].
Qed.

Lemma journal_append_ok j bs m buf r b :
  bs !! m = Some b -> record_to_vec r = Ok b ->
  triple (prefix_written j bs) (batched j bs m buf) (append env buf r)
    (fun r d => match r.1 with Ok _ => batched j bs (S m) r.2 d | Err _ => True end) (fun _ => True).
Proof.
  intros Hb Hr. unfold append. rewrite Hr. cbv zeta. pose proof (lookup_lt_Some _ _ _ Hb) as Hm.
  set (line := b ++ [10]).
  eapply (triple_bind _ _ _ _ (fun rb d => match rb.1 with
    | Ok _ => batched j bs m rb.2 d /\ (buf_records rb.2 = 0 \/ zlen (buf_bytes rb.2) + zlen line <= JOURNAL_MAX_BYTES)
    | Err _ => True end)).
  { destruct (_ && _) eqn:E.
    - eapply triple_weaken; [apply flush_locked_ok|done| | |done].
      + intros d (k & ? & ? & ? & ? & ? & ?). exists k. split_and!; [done|lia|done|done].
      + intros [[[]|e] buf']; [|done]. cbn [fst snd]. intros d [Hd ->]. split; [done|by left].
    - apply triple_ret. intros d Hd. cbn [fst snd]. split; [done|]. pose proof Hd as (k & ? & ? & Hrec & Hlt & _).
      pose proof (zlen_nonneg (buf_bytes buf)). pose proof (zlen_nonneg line).
      apply andb_false_iff in E as [E|E]; [left; bools; lia|right]. apply orb_false_iff in E as [_ E].
      unfold saturating_add, JOURNAL_MAX_BYTES, u64_max in *. bools. lia. }
  intros [r' buf']. cbn [fst snd]. destruct r' as [[]|e]; [|by apply triple_ret].
  assert (Hline : lines_of (take (S m) bs) = lines_of (take m bs) ++ line).
  { rewrite (take_S_r _ _ _ Hb), lines_of_app. f_equal. unfold lines_of. simpl. by rewrite app_nil_r. }
  destruct (Z.ltb_spec JOURNAL_MAX_BYTES (zlen line)) as [Hbig|Hfit].
  - eapply (triple_bind _ _ _ _ (fun r d => match r with Ok _ => batched j bs (S m) buf' d | Err _ => True end));
      [|intros [[]|e]; apply triple_ret; auto].
    apply (triple_weaken _ (prefix_written j bs) _ (fun d => (buf' = JournalBuffer_default) /\ journal d = j ++ lines_of (take m bs)) _ _
      (fun r d => match r with Ok _ => journal d = (j ++ lines_of (take m bs)) ++ line /\ buf' = JournalBuffer_default
                            | Err _ => True end) _ (fun _ => False)); [|done| | |done].
    + apply triple_pure. intros ->.
      eapply triple_weaken; [apply triple_attempt, (append_journal_bytes_ok _ (j ++ lines_of (take m bs)))|done|done|by intros [[]|e]|by intros d []].
      intros d [Hd|Hd]; [by exists m|exists (S m)]. by rewrite Hd, Hline, app_assoc.
    + intros d [(k & Hk & Hbytes & Hrec & ? & ? & Hj) [Hz|Hz]]; [|pose proof (zlen_nonneg (buf_bytes buf')); lia].
      assert (k = m) as -> by lia. rewrite drop_ge in Hbytes by (rewrite length_take; lia).
      split; [|done]. destruct buf' as [bb br]. cbn [buf_bytes buf_records] in *. unfold JournalBuffer_default. f_equal; [done|lia].
    + intros [[]|e] d Hd; [|done]. destruct Hd as [Hd ->]. exists (S m).
      rewrite Nat.sub_diag, drop_ge, Hline, app_assoc by (rewrite length_take; lia). done.
  - set (buf1 := mkBuffer (buf_bytes buf' ++ line) (buf_records buf' + 1)).
    apply (triple_weaken _ (prefix_written j bs) _ (fun d => buffered j bs (S m) buf1 d /\
      ((buf_records buf1 =? JOURNAL_MAX_RECORDS) || (zlen (buf_bytes buf1) =? JOURNAL_MAX_BYTES) = false ->
       batched j bs (S m) buf1 d)) _ _
      (fun r d => match r.1 with Ok _ => batched j bs (S m) r.2 d | Err _ => True end) _ (fun _ => True)); [|done| |done|done].
    + destruct (_ || _) eqn:E; [|apply triple_ret; intros d [_ Hd]; cbn [fst snd]; by apply Hd].
      eapply triple_weaken; [apply flush_locked_ok|done|intros d [? _]; done| |done].
      intros [[[]|e] b2]; [|done]. by intros d [? _].
    + intros d [Hd Hor]. apply (buffer_line j bs m buf' b d Hb Hd). fold line. destruct Hor as [Hz|]; [|done].
      destruct Hd as (k & Hk & Hbytes & Hrec & _). assert (k = m) as -> by lia.
      rewrite drop_ge in Hbytes by (rewrite length_take; lia). rewrite Hbytes. change (zlen (lines_of [])) with 0. lia.
Qed.

End Batches.
End JournalFacts.
