(* ===== verification/Capacity.v ===== *)
(** * Capacity

    [src/snapshot/cache_retention.rs], the limits of a managed cache: the
    record, its defaults, the values that are accepted, and the part of the
    entries that ordinary and proof writers may use. *)

From S2P Require Import Prelude Types.
Local Open Scope string_scope.
Local Open Scope Z_scope.

Module Capacity.

Definition ENTRY_CHARGE : Z := 4096.
Definition CONTROL_BYTES : Z := 16 * 1024.

Record CacheLimits : Type := mkCacheLimits {
  max_bytes : Z; proof_headroom_bytes : Z; max_entries : Z; max_owners : Z; max_inventory_bytes : Z;
  max_metadata_bytes : Z; max_root_nodes : Z; max_record_bytes : Z; max_scan_millis : Z; max_delete_entries : Z;
  max_delete_bytes : Z;
}.
#[export] Instance CacheLimits_eq_dec : EqDecision CacheLimits.
Proof. solve_decision. Defined.

Definition CacheLimits_default : CacheLimits :=
  mkCacheLimits (64 * 1024 * 1024 * 1024) (256 * 1024 * 1024) 2000000 4096 (256 * 1024 * 1024) (128 * 1024 * 1024)
    1000000 (16 * 1024 * 1024) 2000 128 (64 * 1024 * 1024 * 1024).

Definition integrity (m : string) : SnapshotError := SnapshotError_new IntegrityError m.
Definition limit (m : string) : SnapshotError := SnapshotError_new LimitExceeded m.
Definition busy (m : string) : SnapshotError := SnapshotError_new SnapshotNotReady m.

(** [CacheLimits::validate]; [reachable] says whether the clock can represent
    the instant that many milliseconds from now. *)
Definition validate_limits (reachable : Z -> bool) (l : CacheLimits) : Res unit :=
  reject? (max_bytes l <=? proof_headroom_bytes l)
          || (proof_headroom_bytes l <? CONTROL_BYTES + 8 * ENTRY_CHARGE)
          || (max_entries l =? 0) || (max_owners l =? 0) || (max_inventory_bytes l =? 0)
          || (max_metadata_bytes l =? 0) || (max_root_nodes l =? 0) || (max_record_bytes l =? 0)
          || (max_scan_millis l =? 0) || negb (reachable (max_scan_millis l))
          || (max_delete_entries l =? 0) || (max_delete_bytes l =? 0)
    with limit "invalid managed cache capacity limits" in
  Ok tt.

(** [entry_capacity]. *)
Definition entry_capacity (l : CacheLimits) (emergency proof : bool) : Z :=
  let headroom := Z.max (Z.min (proof_headroom_bytes l / ENTRY_CHARGE) (max_entries l / 4)) 1 in
  if emergency then max_entries l
  else if proof then saturating_sub (max_entries l) (Z.max (headroom / 4) 1)
  else saturating_sub (max_entries l) headroom.
End Capacity.
