(* ===== verification/Closure.v ===== *)
(** * Closure

    [src/snapshot/closure.rs]: the complete metadata closure of a serving
    descriptor. The validator hashes and decodes every page it is given, walks
    from the committed root through the radix partition of every logical
    directory, rebuilds each partition, and accepts only if every page was
    reached. The work meters of the source, which are reporting only, are left
    out. [mst2_codec::metapage] is the class [PageCodec]. *)

From Stdlib Require Import Sorted.
From S2P Require Import Prelude Types Faults Text Profile Btree Frames Wire.
Import Digests Scope.
Local Open Scope string_scope.
Local Open Scope list_scope.
Local Open Scope Z_scope.

(** ** Pages of the codec, as the client destructures them *)

Inductive EntryKind : Type := EDirectory | ERegular | EExecutable | ESymlink.
#[export] Instance EntryKind_eq_dec : EqDecision EntryKind.
Proof. solve_decision. Defined.

Record Entry : Type := mkEntry {
  ent_name : bytes; ent_kind : EntryKind; ent_size : Z; content_id : bytes; child_root : bytes;
}.
#[export] Instance Entry_eq_dec : EqDecision Entry.
Proof. solve_decision. Defined.

Record BranchChild : Type := mkChild { label : Z; subtree_entries : Z; child_page_id : bytes }.

Inductive Page : Type :=
  | Leaf (entries : list Entry)
  | Branch (prefix : bytes) (terminal : option Entry) (children : list BranchChild).

(** [page_id], [Page::decode], [Entry::decode] at an offset (with the offset
    after it), [Page::build] and [metapage::MAX_DEPTH]; errors are the codec's
    texts. Nothing is assumed of them. *)
Class PageCodec : Type := {
  page_id : bytes -> bytes;
  page_decode : bytes -> result string (Page * Z);
  entry_decode : bytes -> Z -> result string (Entry * Z);
  page_build : list Entry -> result string bytes;
  PAGE_MAX_DEPTH : Z;
}.

(** [ServingDescriptor::encode] and [ServingDescriptor::decode]: decoding
    inverts encoding. *)
Class ServingCodec : Type := {
  serving_encode : ServingDescriptor -> result string bytes;
  serving_decode : bytes -> result string ServingDescriptor;
  serving_decode_encode : forall s b, serving_encode s = Ok b -> serving_decode b = Ok s;
}.

Module Closure.

Definition integrity (m : string) : SnapshotError := SnapshotError_new IntegrityError m.
Definition limit (m : string) : SnapshotError := SnapshotError_new LimitExceeded m.

Record SnapshotDirectory : Type := mkDir { dir_path : string; directory_root : string }.

(** ** Decoding one page *)

Definition at_byte (b : bytes) (i : Z) : option Z := if i <? 0 then None else b !! Z.to_nat i.

(** [bytes.get(from..to)]. *)
Definition get_range (b : bytes) (from to : Z) : option bytes :=
  if (from <=? to) && (to <=? zlen b) then Some (slice b from to) else None.

Definition read_u16 (b : bytes) (offset : Z) : Res Z :=
  let? v := ok_or (get_range b offset (offset + 2)) (integrity "truncated metadata page") in
  Ok (from_le v).

(** One child of a branch: its declared count is added under the bound. *)
Definition add_count (payload : bytes) (st : Z * Z) (_ : Z) : Res (Z * Z) :=
  let '(sum, offset) := st in
  let? v := ok_or (get_range payload (offset + 1) (offset + 9)) (integrity "truncated branch child count") in
  let? total := ok_or (checked_add sum (from_le v)) (integrity "branch entry count overflow") in
  reject? i64_max <? total with integrity "branch entry count overflow" in
  Ok (total, offset + 41).

Section Decode.
Context `{PageCodec}.

(** The sum of the declared counts of a branch page. *)
Definition branch_counts (b : bytes) : Res Z :=
  let payload := drop 20 b in
  let? prefix_len := read_u16 payload 0 in
  let offset := 2 + prefix_len in
  let? terminal := ok_or (at_byte payload offset) (integrity "truncated branch terminal flag") in
  let offset := offset + 1 in
  let? offset := if terminal =? 1
                 then let? ' (_, o) := map_err integrity (entry_decode payload offset) in Ok o
                 else Ok offset in
  let? count := read_u16 b 6 in
  reject? 256 <? count with integrity "branch has more than 256 children" in
  let? ' (sum, _) := for_each (add_count payload) (terminal, offset) (zrange (Z.to_nat count)) in
  Ok sum.

Definition decode_page (b : bytes) : Res Page :=
  let? _ := if (20 <=? zlen b) && bool_decide (b !! 4%nat = Some 1) then branch_counts b else Ok 0 in
  match page_decode b with
  | Ok (page, _) => Ok page
  | Err e => Err (integrity ("invalid metadata page: " ++ e))
  end.
End Decode.

(** ** Paths *)

Section Paths.
Context `{CodecScope}.

Definition validate_absolute_path (path : string) : Res unit :=
  reject? (4096 <? str_len path)
          || (negb (String.eqb path "/") && (256 <? zlen (split_slash (trim_start_slash path))))
          || existsb (fun component => 255 <? str_len component) (split_slash path)
    with limit "full path exceeds serving profile limits" in
  match codec_validate_scope path with
  | Some e => Err (integrity ("invalid closure path: " ++ e))
  | None => Ok tt
  end.

Definition validate_composed_path (scope relative : string) : Res unit :=
  validate_absolute_path
    (if is_empty relative then scope
     else if String.eqb scope "/" then "/" ++ relative
     else scope ++ "/" ++ relative).
End Paths.

Definition join_path (rel name : string) : string :=
  if is_empty rel then name else rel ++ "/" ++ name.

Definition fs_kind (k : EntryKind) : string :=
  match k with
  | ERegular => "regular"
  | EExecutable => "executable"
  | ESymlink => "symlink"
  | EDirectory => ""
  end.

(** ** The validator *)

Record ClosureValidator : Type := mkValidator {
  decoded : gmap string Page;
  entries : gmap string (list Entry);
  reached : gset string;
  paths : gset string;
  content_sizes : gmap string Z;
  directories : list SnapshotDirectory;
  files : list SnapshotFile;
  logical_bytes : Z;
  clock : nat;
}.

(** The limits of one proof; [deadline] is an instant of the monotonic clock. *)
Record ProofLimits : Type := mkLimits {
  max_radix_entries : Z;
  max_logical_entries : Z;
  max_logical_bytes : Z;
  deadline : option Z;
}.

Definition set_clock (n : nat) (v : ClosureValidator) : ClosureValidator :=
  mkValidator (decoded v) (entries v) (reached v) (paths v) (content_sizes v) (directories v) (files v)
    (logical_bytes v) n.
Definition set_logical (n : Z) (v : ClosureValidator) : ClosureValidator :=
  mkValidator (decoded v) (entries v) (reached v) (paths v) (content_sizes v) (directories v) (files v) n (clock v).
Definition set_decoded (d : gmap string Page) (v : ClosureValidator) : ClosureValidator :=
  mkValidator d (entries v) (reached v) (paths v) (content_sizes v) (directories v) (files v)
    (logical_bytes v) (clock v).
Definition set_entries (e : gmap string (list Entry)) (v : ClosureValidator) : ClosureValidator :=
  mkValidator (decoded v) e (reached v) (paths v) (content_sizes v) (directories v) (files v)
    (logical_bytes v) (clock v).
Definition set_reached (r : gset string) (v : ClosureValidator) : ClosureValidator :=
  mkValidator (decoded v) (entries v) r (paths v) (content_sizes v) (directories v) (files v)
    (logical_bytes v) (clock v).
(** A new logical directory. *)
Definition push_directory (d : SnapshotDirectory) (v : ClosureValidator) : ClosureValidator :=
  mkValidator (decoded v) (entries v) (reached v) ({[dir_path d]} ∪ paths v) (content_sizes v)
    (directories v ++ [d]) (files v) (logical_bytes v) (clock v).
(** A new logical file. *)
Definition push_file (f : SnapshotFile) (v : ClosureValidator) : ClosureValidator :=
  mkValidator (decoded v) (entries v) (reached v) ({[rel_path f]} ∪ paths v)
    (<[file_digest f := file_size f]> (content_sizes v))
    (directories v) (files v ++ [f]) (logical_bytes v) (clock v).

Definition cycle_err : fault := Failed (integrity "cycle in metadata radix pages").
Definition dir_cycle_err : fault := Failed (integrity "cycle in logical directory graph").
Definition duplicate_err : fault := Failed (integrity "duplicate logical path in metadata closure").
Definition budget_err : fault := Failed (limit "directory entry proof budget exceeded").
Definition count_err : fault := Failed (integrity "branch child subtree_entries does not match its entries").
Definition canonical_err : fault :=
  Failed (integrity "metadata page is not the canonical partition of its entries").

(** [try_fold] of the allocation charged for a list of entries. *)
Definition entries_allocation (msg : string) (es : list Entry) : Run Z :=
  for_each (fun sum e =>
      ok_or (checked_add sum (saturating_mul (saturating_add (zlen (ent_name e)) 256) 4)) (Failed (limit msg)))
    0 es.

Section Validator.
Context `{HexCrate} `{PageCodec} `{CodecScope}.

(** [digest]. *)
Definition digest (id : bytes) : string := "sha256:" ++ hex_encode id.

Context (pages : list (string * bytes)) (lim : ProofLimits) (now : nat -> Z).

Definition check_deadline (v : ClosureValidator) : Run ClosureValidator :=
  match deadline lim with
  | None => Ok v
  | Some d =>
      reject? d <=? now (clock v) with Failed (limit "metadata root proof deadline exceeded") in
      Ok (set_clock (S (clock v)) v)
  end.

Definition admit_allocation (n : Z) (v : ClosureValidator) : Run ClosureValidator :=
  let? v := check_deadline v in
  let? total := ok_or (checked_add (logical_bytes v) n) (Failed (limit "metadata logical allocation overflow")) in
  reject? max_logical_bytes lim <? total with Failed (limit "metadata logical allocation budget exceeded") in
  Ok (set_logical total v).

Definition admit_logical_path (path : string) (v : ClosureValidator) : Run ClosureValidator :=
  let? v := check_deadline v in
  reject? max_logical_entries lim <=? Z.of_nat (size (paths v))
    with Failed (limit "metadata logical entry budget exceeded") in
  admit_allocation (saturating_add (saturating_mul (str_len path) 4) 512) v.

(** One page of [ClosureValidator::new_bounded]. *)
Definition admit_page (v : ClosureValidator) (page : string * bytes) : Run ClosureValidator :=
  let '(id, b) := page in
  let? v := admit_allocation (saturating_add (saturating_mul (zlen b) 16) 512) v in
  let? want := lift (parse_digest id) in
  reject? negb (bool_decide (page_id b = want))
    with Failed (integrity ("metadata page bytes do not match " ++ id)) in
  let? p := lift (decode_page b) in
  Ok (set_decoded (<[id := p]> (decoded v)) v).

Definition new_bounded : Run ClosureValidator :=
  for_each admit_page (mkValidator ∅ ∅ ∅ ∅ ∅ [] [] 0 0) pages.

(** One child of a branch page, in [radix_entries]. *)
Definition add_child
    (visit : string -> ClosureValidator -> gset string -> Run (list Entry * ClosureValidator * gset string))
    (st : list Entry * ClosureValidator * gset string) (child : BranchChild)
    : Run (list Entry * ClosureValidator * gset string) :=
  let '(es, v, active) := st in
  let? ' (ces, v, active) := visit (digest (child_page_id child)) v active in
  reject? negb (zlen ces =? subtree_entries child) with count_err in
  reject? match checked_add (zlen es) (zlen ces) with
          | None => true
          | Some len => max_radix_entries lim <? len
          end with budget_err in
  let? allocation := entries_allocation "radix proof allocation overflow" ces in
  let? v := admit_allocation allocation v in
  Ok (es ++ ces, v, active).

Fixpoint radix_entries (fuel : nat) (id : string) (depth : Z) (v : ClosureValidator) (active : gset string)
    : Run (list Entry * ClosureValidator * gset string) :=
  match fuel with
  | O => Err OutOfFuel
  | S fuel =>
      let? v := check_deadline v in
      reject? PAGE_MAX_DEPTH <? depth with Failed (limit "metadata radix depth exceeds 255") in
      match entries v !! id with
      | Some es => Ok (es, v, active)
      | None =>
          reject? bool_decide (id ∈ active) with cycle_err in
          let active := {[id]} ∪ active in
          let? v := admit_allocation
            (match Btree.get pages id with
             | None => 0
             | Some b => saturating_add (saturating_mul (zlen b) 4) 256
             end) v in
          let? page := ok_or (decoded v !! id) (Failed (integrity ("missing committed metadata page " ++ id))) in
          let v := set_reached ({[id]} ∪ reached v) v in
          let? ' (es, v, active) :=
            match page with
            | Leaf es => Ok (es, v, active)
            | Branch _ terminal children =>
                for_each (add_child (fun c v active => radix_entries fuel c (depth + 1) v active))
                  (option_list terminal, v, active) children
            end in
          reject? max_radix_entries lim <? zlen es with budget_err in
          let es := sort_by (fun e => of_bytes (ent_name e)) es in
          let? allocation := entries_allocation "canonical rebuild allocation overflow" es in
          let? v := admit_allocation allocation v in
          let? rebuilt := lift (map_err (fun e => integrity ("invalid metadata entry partition: " ++ e)) (page_build es)) in
          let? stored := ok_or (Btree.get pages id) Panicked in
          reject? negb (bool_decide (rebuilt = stored)) with canonical_err in
          Ok (es, set_entries (<[id := es]> (entries v)) v, active ∖ {[id]})
      end
  end.

(** The recursion follows branch pages, each a level deeper, up to the codec's
    depth. *)
Definition radix_fuel : nat := Z.to_nat (PAGE_MAX_DEPTH + 2).

Definition radix (id : string) (v : ClosureValidator) : Run (list Entry * ClosureValidator) :=
  let? ' (es, v, _) := radix_entries radix_fuel id 0 v ∅ in Ok (es, v).

(** The non-directory arm of [walk_directory]. *)
Definition walk_file (child_path : string) (e : Entry) (v : ClosureValidator) : Run ClosureValidator :=
  let? v := admit_logical_path child_path v in
  reject? (MAX_FILE_SIZE <? ent_size e)
          || (bool_decide (ent_kind e = ESymlink) && negb (in_range 1 (ent_size e) 4095))
    with Failed (limit "file or symlink size exceeds serving profile") in
  reject? bool_decide (child_path ∈ paths v) with duplicate_err in
  reject? match content_sizes v !! digest (content_id e) with
          | Some s => negb (s =? ent_size e)
          | None => false
          end with Failed (integrity "one content digest has conflicting sizes") in
  Ok (push_file (mkFile child_path (fs_kind (ent_kind e)) (ent_size e) (digest (content_id e))) v).

(** One entry of a directory. *)
Definition walk_entry (scope rel : string)
    (walk : string -> string -> ClosureValidator -> gset string -> Run (ClosureValidator * gset string))
    (st : ClosureValidator * gset string) (e : Entry) : Run (ClosureValidator * gset string) :=
  let '(v, active) := st in
  let? name := ok_or (from_utf8 (ent_name e)) (Failed (integrity "non-UTF-8 entry name")) in
  let child_path := join_path rel name in
  let? _ := lift (validate_composed_path scope child_path) in
  if bool_decide (ent_kind e = EDirectory) then walk child_path (digest (child_root e)) v active
  else let? v := walk_file child_path e v in Ok (v, active).

Fixpoint walk_directory (fuel : nat) (scope rel root : string) (v : ClosureValidator) (active : gset string)
    : Run (ClosureValidator * gset string) :=
  match fuel with
  | O => Err OutOfFuel
  | S fuel =>
      let? v := admit_logical_path rel v in
      let? _ := lift (validate_composed_path scope rel) in
      reject? bool_decide (root ∈ active) with dir_cycle_err in
      let active := {[root]} ∪ active in
      reject? bool_decide (rel ∈ paths v) with duplicate_err in
      let v := push_directory (mkDir rel root) v in
      let? ' (es, v) := radix root v in
      let? ' (v, active) :=
        for_each (walk_entry scope rel (fun p r v active => walk_directory fuel scope p r v active)) (v, active) es in
      Ok (v, active ∖ {[root]})
  end.

(** Every directory on the current path is a different page. *)
Definition walk_fuel : nat := S (length pages).
End Validator.

(** ** Descriptors and the constructors *)

Record ValidatedSnapshotClosure : Type := mkClosure {
  vc_descriptor : Descriptor;
  vc_descriptor_bytes : bytes;
  vc_pages : list (string * bytes);
  vc_directories : list SnapshotDirectory;
  vc_files : list SnapshotFile;
}.

Section Constructors.
Context `{HexCrate} `{PageCodec} `{CodecScope} `{DescriptorCodec} `{ServingCodec} `{UuidCrate}.

Definition canonical_descriptor (d : Descriptor) : Res bytes :=
  reject? negb (schema_version d =? SCHEMA_VERSION) || negb (metadata_codec d =? METADATA_CODEC)
          || negb (materialization_policy d =? MATERIALIZATION_POLICY_GIT_RAW_V1)
          || negb (fs_semantics d =? FS_SEMANTICS_LINUX_CODE_V1)
          || negb (access_projection d =? ACCESS_PROJECTION_EXACT_FULL)
    with integrity "unsupported serving descriptor profile" in
  let? _ := validate_absolute_path (scope d) in
  let? inst := ok_or (uuid_parse_str (instance_id d)) (integrity "invalid descriptor instance UUID") in
  reject? uuid_is_nil inst || negb (String.eqb (uuid_to_string inst) (instance_id d))
    with integrity "instance UUID must be non-nil and canonical" in
  let? view := parse_digest (namespace_view_id d) in
  let? root := parse_digest (metadata_root d) in
  let serving := mkServing inst view (scope d) root in
  let? id := map_err integrity (serving_snapshot_id serving) in
  reject? negb (String.eqb (snapshot_id d) (digest id))
    with integrity "snapshot_id does not match canonical descriptor" in
  map_err integrity (serving_encode serving).

Definition validate_pages_bounded (d : Descriptor) (pages : list (string * bytes)) (max_nodes max_bytes : Z)
    (deadline : option Z) (now : nat -> Z) : Run (ValidatedSnapshotClosure * ClosureValidator) :=
  let? descriptor_bytes := lift (canonical_descriptor d) in
  let lim := mkLimits max_nodes max_nodes max_bytes deadline in
  let? v := new_bounded pages lim now in
  let? ' (v, _) := walk_directory pages lim now (walk_fuel pages) (scope d) "" (metadata_root d) v ∅ in
  reject? negb (Z.of_nat (size (reached v)) =? zlen pages)
    with Failed (integrity "metadata closure contains unreachable pages") in
  Ok (mkClosure d descriptor_bytes pages (sort_by dir_path (directories v)) (sort_by rel_path (files v)), v).

Definition from_pages (d : Descriptor) (pages : list (string * bytes)) : Run ValidatedSnapshotClosure :=
  let? ' (c, _) := validate_pages_bounded d pages usize_max usize_max None (fun _ => 0) in Ok c.

(** The descriptor [from_canonical_pages_bounded] rebuilds from its bytes. *)
Definition descriptor_of (serving : ServingDescriptor) (id : bytes) : Descriptor :=
  mkDescriptor SCHEMA_VERSION METADATA_CODEC (uuid_to_string (sd_instance_uuid serving))
    (digest (sd_namespace_view_id serving)) (sd_scope serving) MATERIALIZATION_POLICY_GIT_RAW_V1
    FS_SEMANTICS_LINUX_CODE_V1 ACCESS_PROJECTION_EXACT_FULL (digest (sd_metadata_root serving)) (digest id).

Definition from_canonical_pages_bounded (descriptor_bytes : bytes) (pages : list (string * bytes))
    (max_nodes max_bytes : Z) (deadline : option Z) (now : nat -> Z) : Run ValidatedSnapshotClosure :=
  let? serving := lift (map_err (fun e => integrity ("invalid serving descriptor: " ++ e))
                          (serving_decode descriptor_bytes)) in
  let? id := lift (map_err integrity (serving_snapshot_id serving)) in
  let? ' (c, _) := validate_pages_bounded (descriptor_of serving id) pages max_nodes max_bytes deadline now in
  reject? negb (bool_decide (vc_descriptor_bytes c = descriptor_bytes))
    with Failed (integrity "serving descriptor bytes are not canonical") in
  Ok c.

Definition from_canonical_pages (descriptor_bytes : bytes) (pages : list (string * bytes))
    : Run ValidatedSnapshotClosure :=
  from_canonical_pages_bounded descriptor_bytes pages usize_max usize_max None (fun _ => 0).

(** [ValidatedSnapshotClosure::matches_descriptor]. *)
Definition matches_descriptor (c : ValidatedSnapshotClosure) (d : Descriptor) : Res unit :=
  let? b := canonical_descriptor d in
  reject? negb (bool_decide (b = vc_descriptor_bytes c))
    with SnapshotError_new ScopeForbidden "closure differs from the fixed authorized serving descriptor" in
  Ok tt.

(** [verify_directory_pages]. *)
Definition verify_directory_pages (root : string) (pages : list (string * bytes)) (max_entries : Z)
    : Run (list Entry) :=
  let lim := mkLimits max_entries usize_max usize_max None in
  let? v := new_bounded pages lim (fun _ => 0) in
  let? ' (es, v) := radix pages lim (fun _ => 0) root v in
  reject? negb (Z.of_nat (size (reached v)) =? zlen pages)
    with Failed (integrity "directory proof contains unreachable radix pages") in
  Ok es.
End Constructors.
End Closure.
