(* ===== verification/ClosureExact.v ===== *)
(** * ClosureExact

    What the closure validator of [Closure] accepts. The specification side is
    inductive: the radix pages below a page, the entries of a logical
    directory, and the logical directories and files below a root. The
    theorems show that an accepted closure lists exactly those, that its pages
    are exactly the reachable ones, that the descriptor determines all of it up
    to a page hash collision, and that validation neither panics nor runs out
    of fuel. *)

From Stdlib Require Import Sorted.
From S2P Require Import Prelude Types Faults Text Profile Btree Frames Wire Closure.
Import Digests Scope Closure.
Local Open Scope string_scope.
Local Open Scope list_scope.
Local Open Scope Z_scope.

Module ClosureExact.

Section Spec.
Context `{HexCrate} `{PageCodec} `{CodecScope}.
Context (pages : list (string * bytes)).

Definition page_at (id : string) : option Page :=
  b ← Btree.get pages id;
  match decode_page b with Ok p => Some p | Err _ => None end.

(** The radix pages below a page, itself included. *)
Inductive below (id : string) : string -> Prop :=
  | below_here : below id id
  | below_child prefix terminal children c x :
      page_at id = Some (Branch prefix terminal children) -> c ∈ children ->
      below (digest (child_page_id c)) x -> below id x.

(** The entries of the partition rooted at a page. *)
Inductive in_radix (id : string) : Entry -> Prop :=
  | in_leaf es e : page_at id = Some (Leaf es) -> e ∈ es -> in_radix id e
  | in_terminal prefix e children : page_at id = Some (Branch prefix (Some e) children) -> in_radix id e
  | in_child prefix terminal children c e :
      page_at id = Some (Branch prefix terminal children) -> c ∈ children ->
      in_radix (digest (child_page_id c)) e -> in_radix id e.

(** The logical directories below the directory [rel] with root page [root]. *)
Inductive dir_from (rel root : string) : string -> string -> Prop :=
  | dir_here : dir_from rel root rel root
  | dir_below p r e name :
      dir_from rel root p r -> in_radix r e -> ent_kind e = EDirectory ->
      from_utf8 (ent_name e) = Some name ->
      dir_from rel root (join_path p name) (digest (child_root e)).

Definition file_of (path : string) (e : Entry) : SnapshotFile :=
  mkFile path (fs_kind (ent_kind e)) (ent_size e) (digest (content_id e)).

Definition file_from (rel root : string) (f : SnapshotFile) : Prop :=
  exists p r e name, dir_from rel root p r /\ in_radix r e /\ ent_kind e <> EDirectory /\
    from_utf8 (ent_name e) = Some name /\ f = file_of (join_path p name) e.

(** Every name below is text. *)
Definition names_ok (rel root : string) : Prop :=
  forall p r e, dir_from rel root p r -> in_radix r e -> is_Some (from_utf8 (ent_name e)).

Definition reachable_page (root id : string) : Prop := exists p r, dir_from "" root p r /\ below r id.

Lemma below_trans a b c : below a b -> below b c -> below a c.
Proof using Type. induction 1; eauto using below. Qed.

(** [dir_from] unfolds from the top as well. *)
Lemma dir_from_top rel root e name p r :
  in_radix root e -> ent_kind e = EDirectory -> from_utf8 (ent_name e) = Some name ->
  dir_from (join_path rel name) (digest (child_root e)) p r -> dir_from rel root p r.
Proof using Type.
  intros He Hk Hn. induction 1; [eapply dir_below; eauto; constructor|eapply dir_below; eauto].
Qed.

Lemma dir_from_inv rel root p r :
  dir_from rel root p r ->
  (p = rel /\ r = root) \/
  exists e name, in_radix root e /\ ent_kind e = EDirectory /\ from_utf8 (ent_name e) = Some name /\
    dir_from (join_path rel name) (digest (child_root e)) p r.
Proof using Type.
  induction 1 as [|p r e name Hd IH He Hk Hn]; [by left|right].
  destruct IH as [[-> ->]|(e0 & n0 & He0 & Hk0 & Hn0 & Hd0)].
  - exists e, name. split_and!; [done..|constructor].
  - exists e0, n0. split_and!; [done..|]. by eapply dir_below.
Qed.

Lemma file_from_inv rel root f :
  file_from rel root f <->
  (exists e name, in_radix root e /\ ent_kind e <> EDirectory /\ from_utf8 (ent_name e) = Some name /\
     f = file_of (join_path rel name) e) \/
  exists e name, in_radix root e /\ ent_kind e = EDirectory /\ from_utf8 (ent_name e) = Some name /\
    file_from (join_path rel name) (digest (child_root e)) f.
Proof using Type.
  split.
  - intros (p & r & e & name & Hd & He & Hk & Hn & ->).
    apply dir_from_inv in Hd as [[-> ->]|(e0 & n0 & ? & ? & ? & ?)]; [left; by exists e, name|right].
    exists e0, n0. split_and!; [done..|]. by exists p, r, e, name.
  - intros [(e & name & ? & ? & ? & ->)|(e0 & n0 & ? & ? & ? & (p & r & e & name & ? & ? & ? & ? & ->))].
    + exists rel, root, e, name. split_and!; [constructor|done..].
    + exists p, r, e, name. split_and!; [by eapply dir_from_top|done..].
Qed.
End Spec.

(** ** Charging the budget changes nothing else *)

(** [v'] differs from [v] in its budget and its memo of visited radix pages. *)
Definition extends (lim : ProofLimits) (v v' : ClosureValidator) : Prop :=
  decoded v' = decoded v /\ paths v' = paths v /\ content_sizes v' = content_sizes v /\
  directories v' = directories v /\ files v' = files v /\
  dom (entries v) ⊆ dom (entries v') /\ reached v ⊆ reached v' /\
  (logical_bytes v <= max_logical_bytes lim -> logical_bytes v' <= max_logical_bytes lim).

#[export] Instance extends_preorder lim : PreOrder (extends lim).
Proof.
  split; [by intros v; unfold extends; auto 10|].
  intros a b c (?&?&?&?&?&?&?&?) (?&?&?&?&?&?&?&?). unfold extends.
  split_and!; try congruence; try set_solver; auto.
Qed.

Section Charges.
Context (lim : ProofLimits) (now : nat -> Z).

Definition charged (v v' : ClosureValidator) : Prop :=
  extends lim v v' /\ entries v' = entries v /\ reached v' = reached v.

Lemma check_deadline_ok v v' : check_deadline lim now v = Ok v' -> charged v v'.
Proof.
  unfold check_deadline. destruct (deadline lim); intros; inv_ok; subst; by split.
Qed.

Lemma admit_allocation_ok n v v' : admit_allocation lim now n v = Ok v' -> charged v v'.
Proof.
  unfold admit_allocation. intros Ha. inv_ok. subst.
  match goal with Hd : check_deadline _ _ _ = Ok _ |- _ => apply check_deadline_ok in Hd as ((?&?&?&?&?&?&?&?)&?&?) end.
  bools. unfold charged, extends. simpl. split_and!; try congruence; auto.
Qed.

Lemma admit_logical_path_ok p v v' :
  admit_logical_path lim now p v = Ok v' -> charged v v' /\ Z.of_nat (size (paths v)) < max_logical_entries lim.
Proof.
  unfold admit_logical_path. intros Ha. inv_ok. bools.
  match goal with Hd : check_deadline _ _ _ = Ok _ |- _ => apply check_deadline_ok in Hd as (He & E1 & E2) end.
  apply admit_allocation_ok in Ha as (He' & E3 & E4). split.
  - split; [by transitivity x|]. split; congruence.
  - destruct He as (_ & <- & _). lia.
Qed.

Lemma check_deadline_clean v : clean (check_deadline lim now v).
Proof. unfold check_deadline. destruct (deadline lim); [|done]. by apply clean_reject. Qed.

Lemma admit_allocation_clean n v : clean (admit_allocation lim now n v).
Proof.
  unfold admit_allocation. apply clean_bind; [apply check_deadline_clean|]. intros.
  apply clean_bind; [apply clean_ok_or|]. intros. by apply clean_reject.
Qed.

Lemma admit_logical_path_clean p v : clean (admit_logical_path lim now p v).
Proof.
  unfold admit_logical_path. apply clean_bind; [apply check_deadline_clean|]. intros.
  apply clean_reject. intros. apply admit_allocation_clean.
Qed.

Lemma entries_allocation_clean msg es : clean (entries_allocation msg es).
Proof.
  unfold entries_allocation. apply (clean_for_each _ (fun _ => True)); [|done..].
  intros. apply clean_ok_or.
Qed.
End Charges.
#[export] Hint Resolve check_deadline_clean admit_allocation_clean admit_logical_path_clean
  entries_allocation_clean : rust.

(** Walk through the binds of a computation, leaving its calls to [auto]. *)
Ltac clean_steps :=
  repeat first
    [ apply clean_bind; [solve [auto with rust]|intros ? ?]
    | apply clean_reject; intros ?
    | match goal with |- clean (match ?x with (_, _) => _ end) => destruct x end ].

(** ** Radix partitions *)

Lemma elem_of_terminal {A} (o : option A) x : x ∈ option_list o <-> o = Some x.
Proof. destruct o; simpl; [rewrite list_elem_of_singleton|]; split; [congruence..|by intros ?%not_elem_of_nil|done]. Qed.

Section Radix.
Context `{HexCrate} `{PageCodec} `{CodecScope}.
Context (pages : list (string * bytes)) (lim : ProofLimits) (now : nat -> Z).

(** [es] is the sorted partition of [id], and the canonical page of its entries
    is the stored one. *)
Definition partition (id : string) (es : list Entry) : Prop :=
  (forall e, e ∈ es <-> in_radix pages id e) /\
  StronglySorted (key_le (fun e => of_bytes (ent_name e))) es /\
  exists b, Btree.get pages id = Some b /\ page_build es = Ok b.

(** The memo holds partitions, everything below a memoized page was reached,
    and only stored pages allowed by [R] were. *)
Definition radix_inv (R : string -> Prop) (v : ClosureValidator) : Prop :=
  (forall id, decoded v !! id = page_at pages id) /\
  (forall id es, entries v !! id = Some es ->
     partition id es /\ forall x, below pages id x -> x ∈ reached v) /\
  (forall x, x ∈ reached v -> R x /\ is_Some (page_at pages x)).

Lemma radix_inv_charged R v v' : charged lim v v' -> radix_inv R v -> radix_inv R v'.
Proof using Type.
  intros ((Ed & _) & Ee & Er) (Hi & Hm & Hr). unfold radix_inv. rewrite Ed, Ee, Er. done.
Qed.

(** The contract of one visit, by a recursive call or the function itself. *)
Definition visits (R : string -> Prop) (id : string) (v : ClosureValidator)
    (res : list Entry * ClosureValidator * gset string) : Prop :=
  let '(es, v', _) := res in
  radix_inv R v' /\ extends lim v v' /\ entries v' !! id = Some es.

Lemma add_children_ok R visit children es v active es' v' active' :
  (forall c v active res, c ∈ children -> radix_inv R v ->
     visit (digest (child_page_id c)) v active = Ok res -> visits R (digest (child_page_id c)) v res) ->
  radix_inv R v ->
  for_each (add_child lim now visit) (es, v, active) children = Ok (es', v', active') ->
  radix_inv R v' /\ extends lim v v' /\
  (forall e, e ∈ es' <-> e ∈ es \/ exists c, c ∈ children /\ in_radix pages (digest (child_page_id c)) e) /\
  (forall c x, c ∈ children -> below pages (digest (child_page_id c)) x -> x ∈ reached v').
Proof using Type.
  revert es v active. induction children as [|c cs IH]; intros es v active Hvisit Hv Hf; cbn [for_each] in Hf.
  { inv_ok. simplify_eq. split_and!; [done|reflexivity| |by intros ? ? ?%not_elem_of_nil].
    intros e. split; [by left|]. intros [?|(? & ?%not_elem_of_nil & _)]; done. }
  apply rbind_ok in Hf as ([[es1 v1] a1] & Hc & Hf). unfold add_child in Hc.
  apply rbind_ok in Hc as ([[ces v0] a0] & Hvis & Hc).
  apply Hvisit in Hvis as (Hv0 & Hx0 & Hmemo); [|left|done]. inv_ok. simplify_eq.
  match goal with Ha : admit_allocation _ _ _ _ = Ok _ |- _ => apply admit_allocation_ok in Ha; rename Ha into Hch end.
  pose proof (radix_inv_charged _ _ _ Hch Hv0) as Hv1.
  apply IH in Hf as (Hr & Hx & Hin & Hbelow); [|intros; eapply Hvisit; eauto; by right|done].
  destruct Hch as (Hx1 & Ee & Er). split_and!; [done|by etrans; [|etrans]| |].
  - intros e. rewrite Hin, elem_of_app. destruct Hv0 as (_ & Hpart & _).
    destruct (Hpart _ _ Hmemo) as [[Hes _] _]. rewrite Hes. setoid_rewrite elem_of_cons. clear. naive_solver.
  - intros c' y [->|Hc']%elem_of_cons Hb; [|by eapply Hbelow].
    destruct Hx as (_ & _ & _ & _ & _ & _ & Hsub & _). apply Hsub. rewrite Er.
    destruct Hv0 as (_ & Hpart & _). by apply (Hpart _ _ Hmemo).
Qed.

Lemma radix_entries_ok R fuel id depth v active res :
  radix_inv R v -> (forall x, below pages id x -> R x) ->
  radix_entries pages lim now fuel id depth v active = Ok res -> visits R id v res.
Proof using Type.
  revert id depth v active res. induction fuel as [|fuel IH]; intros id depth v active res Hv HR Hf; [done|].
  cbn [radix_entries] in Hf. apply rbind_ok in Hf as (v1 & Hd & Hf). apply check_deadline_ok in Hd.
  pose proof (radix_inv_charged _ _ _ Hd Hv) as Hv1. destruct Hd as (Hx1 & Ee1 & Er1).
  apply reject_ok in Hf as [_ Hf]. destruct (entries v1 !! id) as [es|] eqn:Hmemo.
  { inv_ok. subst res. split_and!; done. }
  apply reject_ok in Hf as [_ Hf]. cbv zeta in Hf.
  apply rbind_ok in Hf as (v2 & Ha & Hf). apply admit_allocation_ok in Ha.
  pose proof (radix_inv_charged _ _ _ Ha Hv1) as Hv2. destruct Ha as (Hx2 & Ee2 & Er2).
  apply rbind_ok in Hf as (page & Hp & Hf). apply ok_or_ok in Hp.
  assert (Hpage : page_at pages id = Some page) by (by rewrite <- (proj1 Hv2)).
  set (v3 := set_reached ({[id]} ∪ reached v2) v2) in Hf.
  assert (Hx3 : extends lim v2 v3) by (unfold extends; simpl; split_and!; auto; set_solver).
  assert (Hv3 : radix_inv R v3).
  { destruct Hv2 as (Hi & Hm & Hr). split_and!; simpl; [done| |].
    - intros j es Hj. destruct (Hm j es Hj) as [? Hb]. split; [done|]. intros x Hx. set_solver.
    - intros x [->%elem_of_singleton|?]%elem_of_union; [|auto].
      split; [apply HR; constructor|by exists page]. }
  apply rbind_ok in Hf as ([[es v4] a4] & Hb & Hf).
  assert (Hbody : radix_inv R v4 /\ extends lim v3 v4 /\ (forall e, e ∈ es <-> in_radix pages id e) /\
                  (forall x, below pages id x -> x ∈ reached v4)).
  { destruct page as [les|prefix terminal children].
    - simplify_eq. split_and!; [done|reflexivity| |].
      + intros e. split; [by econstructor|]. inversion 1; congruence.
      + intros x Hx. simpl. inversion Hx; [set_solver|congruence].
    - apply (add_children_ok R) in Hb as (? & Hx & Hin & Hbel); [split_and!; [done..| |]| |done].
      + intros e. rewrite Hin, elem_of_terminal. split.
        * intros [->|(c & ? & ?)]; [by eapply in_terminal|by eapply in_child].
        * intros Hr. inversion Hr; simplify_eq; try congruence; [left; congruence|right].
          match goal with E1 : page_at _ _ = Some (Branch _ _ ?cs), E2 : ?c ∈ ?cs |- _ =>
            exists c; split; [congruence|done] end.
      + intros x Hx0. inversion Hx0; [apply Hx; simpl; set_solver|].
        match goal with E1 : page_at _ _ = Some (Branch _ _ ?cs), E2 : ?c ∈ ?cs |- _ =>
          eapply (Hbel c); [congruence|done] end.
      + intros c w a r Hc Hw Hvis. eapply IH; [done| |exact Hvis]. intros x Hx. apply HR. by eapply below_child. }
  destruct Hbody as (Hv4 & Hx4 & Hin & Hbel). clear Hb.
  apply reject_ok in Hf as [_ Hf]. set (ses := sort_by _ es) in Hf. cbv zeta in Hf.
  apply rbind_ok in Hf as (n & _ & Hf). apply rbind_ok in Hf as (v5 & Ha & Hf). apply admit_allocation_ok in Ha.
  pose proof (radix_inv_charged _ _ _ Ha Hv4) as Hv5. destruct Ha as (Hx5 & Ee5 & Er5).
  apply rbind_ok in Hf as (rebuilt & Hre & Hf). unfold lift in Hre. rewrite !map_err_ok in Hre.
  apply rbind_ok in Hf as (stored & Hst & Hf). apply ok_or_ok in Hst. apply reject_ok in Hf as [Heq Hf].
  apply negb_false_iff, bool_decide_eq_true in Heq. subst stored. simplify_eq.
  unfold visits. split_and!.
  - destruct Hv5 as (Hi & Hm & Hr). split_and!; simpl; [done| |done].
    intros j jes. rewrite lookup_insert_Some. intros [[<- <-]|[_ Hj]]; [|by apply Hm].
    rewrite Er5. split; [|done]. unfold partition. split_and!; [|apply sort_by_sorted|by exists rebuilt].
    intros e. unfold ses. by rewrite sort_by_perm.
  - transitivity v1; [done|]. transitivity v2; [done|]. transitivity v3; [done|]. transitivity v4; [done|].
    transitivity v5; [done|]. unfold extends; simpl; split_and!; auto. rewrite dom_insert. set_solver.
  - simpl. by rewrite lookup_insert_eq.
Qed.
End Radix.

(** ** Logical walk *)

Section Walk.
Context `{HexCrate} `{PageCodec} `{CodecScope}.
Context (pages : list (string * bytes)) (lim : ProofLimits) (now : nat -> Z).

Abbreviation part := (partition pages).
Abbreviation dfrom := (dir_from pages).
Abbreviation ffrom := (file_from pages).

Definition size_ok (f : SnapshotFile) : Prop :=
  file_size f <= MAX_FILE_SIZE /\ (file_kind f = "symlink" -> 1 <= file_size f <= 4095).

Definition all_paths (v : ClosureValidator) : list string :=
  (dir_path <$> directories v) ++ (rel_path <$> files v).

Definition walk_inv (R : string -> Prop) (v : ClosureValidator) : Prop :=
  radix_inv pages R v /\
  NoDup (all_paths v) /\ paths v = list_to_set (all_paths v) /\
  (zlen (all_paths v) <= Z.max 0 (max_logical_entries lim)) /\
  Forall (fun f => content_sizes v !! file_digest f = Some (file_size f) /\ size_ok f) (files v).

Lemma walk_inv_extends R v v' : extends lim v v' -> radix_inv pages R v' -> walk_inv R v -> walk_inv R v'.
Proof using Type.
  intros (_ & Ep & Ec & Ed & Ef & _) Hr (_ & Hn & Hp & Hl & Hs). unfold walk_inv, all_paths.
  rewrite Ep, Ec, Ed, Ef. done.
Qed.

Lemma walk_inv_charged R v v' : charged lim v v' -> walk_inv R v -> walk_inv R v'.
Proof using Type.
  intros Hc Hv. eapply walk_inv_extends; [apply Hc| |done]. eapply radix_inv_charged; [done|apply Hv].
Qed.

(** A fresh path keeps the accounting exact. *)
Lemma fresh_path R v p :
  walk_inv R v -> p ∉ paths v -> Z.of_nat (size (paths v)) < max_logical_entries lim ->
  NoDup (p :: all_paths v) /\ zlen (p :: all_paths v) <= Z.max 0 (max_logical_entries lim).
Proof using Type.
  intros (_ & Hn & Hp & _) Hnew Hlt. rewrite Hp in Hnew, Hlt. rewrite size_list_to_set in Hlt by done.
  split; [constructor; [|done]|unfold zlen in *; simpl; lia].
  intros Hin. apply Hnew. by apply elem_of_list_to_set.
Qed.

Lemma push_directory_inv R v rel root :
  walk_inv R v -> rel ∉ paths v -> Z.of_nat (size (paths v)) < max_logical_entries lim ->
  walk_inv R (push_directory (mkDir rel root) v).
Proof using Type.
  intros Hv Hnew Hlt. pose proof (fresh_path _ _ _ Hv Hnew Hlt) as [Hnd Hlen].
  destruct Hv as (Hr & _ & Hp & _ & Hs).
  assert (all_paths (push_directory (mkDir rel root) v) ≡ₚ rel :: all_paths v) as E.
  { unfold all_paths. simpl. rewrite fmap_app, <- app_assoc. simpl. by rewrite Permutation_middle. }
  unfold walk_inv. split_and!; [done| | | |done].
  - by rewrite E.
  - simpl. rewrite Hp. apply set_eq. intros x. rewrite elem_of_list_to_set, E, elem_of_cons.
    rewrite elem_of_union, elem_of_singleton, elem_of_list_to_set. done.
  - unfold zlen in *. by rewrite E.
Qed.

Lemma push_file_inv R v f :
  walk_inv R v -> rel_path f ∉ paths v -> Z.of_nat (size (paths v)) < max_logical_entries lim ->
  size_ok f ->
  match content_sizes v !! file_digest f with Some s => s = file_size f | None => True end ->
  walk_inv R (push_file f v).
Proof using Type.
  intros Hv Hnew Hlt Hok Hsize. pose proof (fresh_path _ _ _ Hv Hnew Hlt) as [Hnd Hlen].
  destruct Hv as (Hr & _ & Hp & _ & Hs).
  assert (all_paths (push_file f v) ≡ₚ rel_path f :: all_paths v) as E.
  { unfold all_paths. simpl. rewrite fmap_app, app_assoc. simpl. by rewrite <- Permutation_cons_append. }
  unfold walk_inv. split_and!; [done| | | |].
  - by rewrite E.
  - simpl. rewrite Hp. apply set_eq. intros x. rewrite elem_of_list_to_set, E, elem_of_cons.
    rewrite elem_of_union, elem_of_singleton, elem_of_list_to_set. done.
  - unfold zlen in *. by rewrite E.
  - simpl. apply Forall_app. split; [|constructor; [|done]].
    + eapply Forall_impl; [|exact Hs]. intros g [Hg ?]. split; [|done].
      destruct (decide (file_digest f = file_digest g)) as [E'|Hne]; [|by rewrite lookup_insert_ne].
      rewrite E' in Hsize |- *. rewrite lookup_insert_eq. rewrite Hg in Hsize. by rewrite Hsize.
    + by rewrite lookup_insert_eq.
Qed.

Lemma walk_file_ok R p e v v' :
  ent_kind e <> EDirectory ->
  walk_inv R v -> walk_file lim now p e v = Ok v' ->
  walk_inv R v' /\ directories v' = directories v /\ files v' = files v ++ [file_of p e] /\
  entries v' = entries v.
Proof using Type.
  intros Hk Hv Hf. unfold walk_file in Hf. inv_ok.
  match goal with Ha : admit_logical_path _ _ _ _ = Ok ?w |- _ =>
    rename w into v1; apply admit_logical_path_ok in Ha as [Hc Hlt] end.
  pose proof (walk_inv_charged _ _ _ Hc Hv) as Hv1. subst v'. bools. split_all.
  match goal with Hb : bool_decide (p ∈ _) = false |- _ => apply bool_decide_eq_false in Hb; rename Hb into Hnew end.
  destruct Hc as ((_ & Ep & _ & Ed & Ef & _) & Ee & _).
  split_and!; simpl; [|done|by rewrite Ef|done]. apply push_file_inv; simpl; [done|done|by rewrite Ep| |].
  - split; [simpl; lia|]. simpl. intros Hs. destruct (ent_kind e) eqn:Hke; [done..|].
    match goal with Hb : bool_decide _ && _ = false |- _ =>
      rewrite bool_decide_true in Hb by done; simpl in Hb; apply negb_false_iff, in_range_true in Hb end. done.
  - destruct (content_sizes v1 !! digest (content_id e)); [|done]. bools. done.
Qed.

(** What a walk from [rel] with root [root] adds. *)
Definition walked (R : string -> Prop) (rel root : string) (v v' : ClosureValidator) : Prop :=
  walk_inv R v' /\ dom (entries v) ⊆ dom (entries v') /\
  (exists ds fs, directories v' = directories v ++ ds /\ files v' = files v ++ fs /\
     (forall p r, mkDir p r ∈ ds <-> dfrom rel root p r) /\ (forall f, f ∈ fs <-> ffrom rel root f)) /\
  (forall p r, dfrom rel root p r -> is_Some (entries v' !! r)) /\
  names_ok pages rel root.

(** One entry of a directory, as walked. *)
Definition entry_walked (R : string -> Prop) (rel : string) (es : list Entry) (v v' : ClosureValidator) : Prop :=
  walk_inv R v' /\ dom (entries v) ⊆ dom (entries v') /\
  (exists ds fs, directories v' = directories v ++ ds /\ files v' = files v ++ fs /\
     (forall p r, mkDir p r ∈ ds <-> exists e name, e ∈ es /\ ent_kind e = EDirectory /\
        from_utf8 (ent_name e) = Some name /\ dfrom (join_path rel name) (digest (child_root e)) p r) /\
     (forall f, f ∈ fs <-> exists e name, e ∈ es /\ from_utf8 (ent_name e) = Some name /\
        (if bool_decide (ent_kind e = EDirectory)
         then ffrom (join_path rel name) (digest (child_root e)) f
         else f = file_of (join_path rel name) e))) /\
  (forall e, e ∈ es -> exists name, from_utf8 (ent_name e) = Some name /\
     (ent_kind e = EDirectory ->
        (forall p r, dfrom (join_path rel name) (digest (child_root e)) p r -> is_Some (entries v' !! r)) /\
        names_ok pages (join_path rel name) (digest (child_root e)))).

Lemma entry_walked_nil R rel v : walk_inv R v -> entry_walked R rel [] v v.
Proof using Type.
  intros Hv. unfold entry_walked. split_and!; [done|done| |by intros e ?%not_elem_of_nil].
  exists [], []. rewrite !app_nil_r. split_and!; [done|done| |].
  - intros p r. split; [by intros ?%not_elem_of_nil|by intros (e & n & ?%not_elem_of_nil & _)].
  - intros f. split; [by intros ?%not_elem_of_nil|by intros (e & n & ?%not_elem_of_nil & _)].
Qed.

Lemma entry_walked_app R rel es es' v v1 v2 :
  entry_walked R rel es v v1 -> entry_walked R rel es' v1 v2 -> entry_walked R rel (es ++ es') v v2.
Proof using Type.
  intros (_ & Hd1 & (ds1 & fs1 & Ed1 & Ef1 & Hds1 & Hfs1) & Hall1)
         (Hv2 & Hd2 & (ds2 & fs2 & Ed2 & Ef2 & Hds2 & Hfs2) & Hall2).
  unfold entry_walked. split_and!; [done|set_solver| |].
  - exists (ds1 ++ ds2), (fs1 ++ fs2). rewrite Ed2, Ef2, Ed1, Ef1, !app_assoc.
    split_and!; [done|done| |].
    + intros p r. rewrite elem_of_app, Hds1, Hds2. setoid_rewrite elem_of_app. clear. naive_solver.
    + intros f. rewrite elem_of_app, Hfs1, Hfs2. setoid_rewrite elem_of_app. clear. naive_solver.
  - intros e [He|He]%elem_of_app; [|by apply Hall2].
    destruct (Hall1 e He) as (name & Hn & Hk). exists name. split; [done|].
    intros Hdir. destruct (Hk Hdir) as [Hm Hok]. split; [|done].
    intros p r Hp. rewrite <- elem_of_dom. apply Hd2. rewrite elem_of_dom. by eapply Hm.
Qed.

Definition walks (R : string -> Prop)
    (walk : string -> string -> ClosureValidator -> gset string -> Run (ClosureValidator * gset string)) : Prop :=
  forall rel root v active v' active',
  walk_inv R v -> (forall p r x, dfrom rel root p r -> below pages r x -> R x) ->
  walk rel root v active = Ok (v', active') -> walked R rel root v v' /\ active' = active.

Lemma walk_entry_ok R scope rel walk e v active v' active' :
  walks R walk -> walk_inv R v ->
  (ent_kind e = EDirectory -> forall name, from_utf8 (ent_name e) = Some name ->
     forall p r x, dfrom (join_path rel name) (digest (child_root e)) p r -> below pages r x -> R x) ->
  walk_entry lim now scope rel walk (v, active) e = Ok (v', active') ->
  entry_walked R rel [e] v v' /\ active' = active.
Proof using Type.
  intros Hwalk Hv HR Hf. unfold walk_entry in Hf.
  apply rbind_ok in Hf as (name & Hn & Hf). apply ok_or_ok in Hn. cbv zeta in Hf.
  apply rbind_ok in Hf as (u & _ & Hf). unfold entry_walked.
  setoid_rewrite list_elem_of_singleton. case_bool_decide as Hk.
  - apply Hwalk in Hf as [(Hv' & Hd & (ds & fs & Ed & Ef & Hds & Hfs) & Hm & Hok) ->]; [|done|by apply HR].
    split; [|done]. split_and!; [done|done| |].
    + exists ds, fs. split_and!; [done|done| |].
      * intros p r. rewrite Hds. split; [intros; by exists e, name|]. intros (e' & n' & -> & _ & ? & ?). by simplify_eq.
      * intros f. rewrite Hfs. split.
        -- intros. exists e, name. by rewrite bool_decide_true.
        -- intros (e' & n' & -> & ? & Hf). rewrite bool_decide_true in Hf by done. by simplify_eq.
    + intros e' ->. exists name. split; [done|]. intros _. by split.
  - apply rbind_ok in Hf as (v1 & Hf & Hr). simplify_eq.
    apply (walk_file_ok R) in Hf as (Hv' & Ed & Ef & Ee); [|done|done]. split; [|done].
    rewrite Ee. split_and!; [done|done| |].
    + exists [], [file_of (join_path rel name) e]. rewrite app_nil_r. split_and!; [done|done| |].
      * intros p r. split; [by intros ?%not_elem_of_nil|]. intros (e' & n' & -> & ? & _). done.
      * intros f. rewrite list_elem_of_singleton. split.
        -- intros ->. exists e, name. by rewrite bool_decide_false.
        -- intros (e' & n' & -> & ? & Hf). rewrite bool_decide_false in Hf by done. by simplify_eq.
    + intros e' ->. by exists name.
Qed.

Lemma walk_entries_ok R scope rel walk es v active v' active' :
  walks R walk -> walk_inv R v ->
  (forall e, e ∈ es -> ent_kind e = EDirectory -> forall name, from_utf8 (ent_name e) = Some name ->
     forall p r x, dfrom (join_path rel name) (digest (child_root e)) p r -> below pages r x -> R x) ->
  for_each (walk_entry lim now scope rel walk) (v, active) es = Ok (v', active') ->
  entry_walked R rel es v v' /\ active' = active.
Proof using Type.
  intros Hwalk. revert v active. induction es as [|e es IH]; intros v active Hv HR Hf; cbn [for_each] in Hf.
  { simplify_eq. split; [by apply entry_walked_nil|done]. }
  apply rbind_ok in Hf as ([v1 a1] & He & Hf).
  apply (walk_entry_ok R) in He as [He ->]; [|done|done|apply HR; left].
  apply IH in Hf as [Hes ->]; [|apply He|intros; eapply HR; eauto; by right].
  split; [|done]. by apply (entry_walked_app R rel [e] es v v1 v').
Qed.

Lemma walk_directory_ok R scope fuel :
  walks R (fun rel root v active => walk_directory pages lim now fuel scope rel root v active).
Proof using Type.
  induction fuel as [|fuel IH]; intros rel root v active v' active' Hv HR Hf; [done|].
  cbn [walk_directory] in Hf. apply rbind_ok in Hf as (v1 & Ha & Hf).
  apply admit_logical_path_ok in Ha as [Hc Hlt]. pose proof (walk_inv_charged _ _ _ Hc Hv) as Hv1.
  apply rbind_ok in Hf as (u & _ & Hf). apply reject_ok in Hf as [Hact Hf]. apply bool_decide_eq_false in Hact.
  cbv zeta in Hf. apply reject_ok in Hf as [Hnew Hf]. apply bool_decide_eq_false in Hnew.
  destruct Hc as (Hx & Ee & _). pose proof Hx as (_ & Ep & _ & Ed & Ef & _).
  assert (Hv2 : walk_inv R (push_directory (mkDir rel root) v1)).
  { apply push_directory_inv; [done|done|by rewrite Ep]. }
  apply rbind_ok in Hf as ([es v3] & Hrad & Hf). unfold radix in Hrad.
  apply rbind_ok in Hrad as ([[es' v3'] a3] & Hrad & E). simplify_eq.
  apply (radix_entries_ok pages lim now R) in Hrad as (Hr3 & Hx3 & Hmemo);
    [|apply Hv2|intros x Hbx; by eapply HR; [constructor|]].
  pose proof (walk_inv_extends _ _ _ Hx3 Hr3 Hv2) as Hv3.
  destruct (proj1 (proj2 Hr3) _ _ Hmemo) as [[Hes _] _].
  apply rbind_ok in Hf as ([v4 a4] & Hf & E). simplify_eq.
  apply (walk_entries_ok R) in Hf as [(Hv4 & Hd4 & (ds & fs & Ed4 & Ef4 & Hds & Hfs) & Hall) ->]; [|done|done|].
  2:{ intros e He Hk name Hn p r x Hp. eapply HR. eapply dir_from_top; eauto. by apply Hes. }
  destruct Hx3 as (_ & _ & _ & Ed3 & Ef3 & Hd3 & _). simpl in Ed3, Ef3, Hd3. split.
  - unfold walked. split_and!; [done|rewrite <- Ee; set_solver| | |].
    + exists (mkDir rel root :: ds), fs. rewrite Ed4, Ef4, Ed3, Ef3, Ed, Ef, <- app_assoc. split_and!; [done|done| |].
      * intros p r. rewrite elem_of_cons, Hds. split.
        -- intros [[= -> ->]|(e & name & He & ? & ? & ?)]; [constructor|]. eapply dir_from_top; eauto. by apply Hes.
        -- intros [[-> ->]|(e & name & ? & ? & ? & ?)]%dir_from_inv; [by left|right].
           exists e, name. by rewrite Hes.
      * intros f. rewrite Hfs, file_from_inv. setoid_rewrite Hes. split.
        -- intros (e & name & ? & ? & Hf). case_bool_decide; [right|left]; by exists e, name.
        -- intros [(e & name & ? & ? & ? & ?)|(e & name & ? & ? & ? & ?)]; exists e, name;
             [rewrite bool_decide_false by done|rewrite bool_decide_true by done]; done.
    + intros p r [[-> ->]|(e & name & He & Hk & Hn & Hp)]%dir_from_inv.
      * apply elem_of_dom, Hd4, elem_of_dom. by exists es.
      * destruct (Hall e) as (n' & Hn' & Hrest); [by apply Hes|]. rewrite Hn in Hn'. injection Hn' as <-.
        by eapply (Hrest Hk).
    + intros p r e [[-> ->]|(e0 & n0 & He0 & Hk0 & Hn0 & Hp)]%dir_from_inv He.
      * destruct (Hall e) as (name & ? & _); [by apply Hes|]. by exists name.
      * destruct (Hall e0) as (n' & Hn' & Hrest); [by apply Hes|]. rewrite Hn0 in Hn'. injection Hn' as <-.
        destruct (Hrest Hk0) as [_ Hok]. by eapply Hok.
  - set_solver.
Qed.
End Walk.

(** ** Neither panic nor lack of fuel *)

Section Clean.
Context `{HexCrate} `{PageCodec} `{CodecScope}.
Context (pages : list (string * bytes)) (lim : ProofLimits) (now : nat -> Z).

Abbreviation anything := (fun _ : string => True).

Lemma size_list_to_set_le (l : list string) : (size (list_to_set (C := gset string) l) <= length l)%nat.
Proof using Type.
  induction l as [|x l IH]; [done|]. cbn [list_to_set length]. rewrite size_union_alt, size_singleton.
  assert (size (list_to_set (C := gset string) l ∖ {[x]}) <= size (list_to_set (C := gset string) l))%nat; [|lia].
  apply subseteq_size. set_solver.
Qed.

Lemma page_at_stored id p : page_at pages id = Some p -> is_Some (Btree.get pages id).
Proof using Type. unfold page_at. intros (b & Hb & _)%bind_Some. by exists b. Qed.

Lemma radix_entries_clean fuel id depth v active :
  radix_inv pages anything v -> PAGE_MAX_DEPTH + 1 < Z.of_nat fuel + depth -> depth <= PAGE_MAX_DEPTH + 1 ->
  clean (radix_entries pages lim now fuel id depth v active).
Proof using Type.
  revert id depth v active. induction fuel as [|fuel IH]; intros id depth v active Hv Hf Hd; [lia|].
  cbn [radix_entries]. apply clean_bind; [auto with rust|]. intros v1 Hc%check_deadline_ok.
  pose proof (radix_inv_charged _ _ _ _ _ Hc Hv) as Hv1. apply clean_reject. intros Hdepth. apply Z.ltb_ge in Hdepth.
  destruct (entries v1 !! id); [done|]. apply clean_reject. intros _. cbv zeta.
  apply clean_bind; [auto with rust|]. intros v2 Ha%admit_allocation_ok.
  pose proof (radix_inv_charged _ _ _ _ _ Ha Hv1) as Hv2.
  apply clean_bind; [auto with rust|]. intros page Hp%ok_or_ok. rewrite (proj1 Hv2) in Hp.
  set (v3 := set_reached _ _).
  assert (Hv3 : radix_inv pages anything v3).
  { destruct Hv2 as (Hi & Hm & Hr). split_and!; simpl; [done| |].
    - intros j es Hj. destruct (Hm j es Hj) as [? Hb]. split; [done|]. intros x Hx. set_solver.
    - intros x [->%elem_of_singleton|?]%elem_of_union; [|auto]. by split; [|exists page]. }
  apply clean_bind.
  - destruct page as [les|prefix terminal children]; [done|].
    apply (clean_for_each _ (fun st => radix_inv pages anything st.1.2)); [| |done].
    + intros [[es w] a] c _ Hw. unfold add_child. apply clean_bind; [apply IH; [done|lia|lia]|].
      intros [[ces w1] a1] _. clean_steps. done.
    + intros [[es w] a] c [[es' w'] a'] _ Hw Hstep. simpl in Hw. unfold add_child in Hstep.
      apply rbind_ok in Hstep as ([[ces w1] a1] & Hvis & Hstep). inv_ok. simplify_eq. simpl.
      apply (radix_entries_ok pages lim now anything) in Hvis as (Hw1 & _); [|done|done].
      match goal with Hx : admit_allocation _ _ _ _ = Ok _ |- _ => apply admit_allocation_ok in Hx end.
      by eapply radix_inv_charged.
  - intros [[es v4] a4] _. clean_steps. apply clean_bind.
    + apply clean_or_panic. by eapply page_at_stored.
    + intros b _. by apply clean_reject.
Qed.

Lemma radix_clean id v : radix_inv pages anything v -> 0 <= PAGE_MAX_DEPTH -> clean (radix pages lim now id v).
Proof using Type.
  intros Hv Hmax. unfold radix. apply clean_bind; [|by intros [[es v'] a] _].
  apply radix_entries_clean; [done|unfold radix_fuel; lia|lia].
Qed.

Lemma walk_file_clean p e v : clean (walk_file lim now p e v).
Proof using Type. unfold walk_file. clean_steps. done. Qed.

(** The directories of the current path are distinct pages, so the walk never
    nests deeper than there are pages. *)
Lemma walk_directory_clean fuel scope rel root v active :
  0 <= PAGE_MAX_DEPTH -> walk_inv pages lim anything v ->
  active ⊆ list_to_set pages.*1 -> (length pages < fuel + size active)%nat ->
  clean (walk_directory pages lim now fuel scope rel root v active).
Proof using Type.
  intros Hmax. revert rel root v active. induction fuel as [|fuel IH]; intros rel root v active Hv Hsub Hf.
  { apply subseteq_size in Hsub. pose proof (size_list_to_set_le pages.*1) as Hle.
    rewrite length_fmap in Hle. lia. }
  cbn [walk_directory]. apply clean_bind; [auto with rust|]. intros v1 [Hc Hlt]%admit_logical_path_ok.
  pose proof (walk_inv_charged _ _ _ _ _ Hc Hv) as Hv1. apply clean_bind; [auto with rust|]. intros u _.
  apply clean_reject. intros Hact%bool_decide_eq_false. cbv zeta.
  apply clean_reject. intros Hnew%bool_decide_eq_false.
  destruct Hc as (Hx & _). pose proof Hx as (_ & Ep & _).
  assert (Hv2 : walk_inv pages lim anything (push_directory (mkDir rel root) v1)).
  { apply push_directory_inv; [done|done|by rewrite Ep]. }
  apply clean_bind; [apply radix_clean; [apply Hv2|done]|]. intros [es v3] Hrad.
  unfold radix in Hrad. apply rbind_ok in Hrad as ([[es' v3'] a3] & Hrad & E). simplify_eq.
  apply (radix_entries_ok pages lim now anything) in Hrad as (Hr3 & Hx3 & Hmemo); [|apply Hv2|done].
  pose proof (walk_inv_extends _ _ _ _ _ Hx3 Hr3 Hv2) as Hv3.
  destruct (proj1 (proj2 Hr3) _ _ Hmemo) as [(_ & _ & b & Hb & _) _].
  apply clean_bind; [|by intros [v4 a4] _].
  assert (Hroot : root ∈ pages.*1) by (by eapply Btree.get_key).
  apply (clean_for_each _ (fun st => walk_inv pages lim anything st.1 /\ st.2 = {[root]} ∪ active)); [| |done].
  - intros [w a] e _ [Hw Ha]. simpl in Hw, Ha. subst a. unfold walk_entry. clean_steps. case_bool_decide.
    + apply IH; [done| |].
      * apply union_subseteq. split; [|done]. apply singleton_subseteq_l. by apply elem_of_list_to_set.
      * rewrite size_union by set_solver. rewrite size_singleton. lia.
    + apply clean_bind; [apply walk_file_clean|done].
  - intros [w a] e [w' a'] _ [Hw Ha] Hstep. simpl in Hw, Ha |- *. subst a.
    apply (walk_entry_ok pages lim now anything) in Hstep as [(Hw' & _) ->]; [done| |done|done].
    apply walk_directory_ok.
Qed.
End Clean.

(** ** Admitting the pages *)

Section Admit.
Context `{HexCrate} `{PageCodec} `{CodecScope}.
Context (lim : ProofLimits) (now : nat -> Z).

Lemma admit_page_clean v page : clean (admit_page lim now v page).
Proof using Type. unfold admit_page. destruct page. clean_steps. done. Qed.

Lemma admit_pages_ok l v v' :
  NoDup l.*1 -> for_each (admit_page lim now) v l = Ok v' ->
  (forall id, decoded v' !! id = match page_at l id with Some p => Some p | None => decoded v !! id end) /\
  (forall id b, (id, b) ∈ l -> parse_digest id = Ok (page_id b)) /\
  entries v' = entries v /\ reached v' = reached v /\ paths v' = paths v /\ files v' = files v /\
  directories v' = directories v /\
  (logical_bytes v <= max_logical_bytes lim -> logical_bytes v' <= max_logical_bytes lim).
Proof using Type.
  revert v. induction l as [|[id b] l IH]; intros v Hnd Hf; cbn [for_each] in Hf.
  { simplify_eq. split_and!; [done|by intros ? ? ?%not_elem_of_nil|done..]. }
  apply rbind_ok in Hf as (v1 & Ha & Hf). cbn in Hnd. apply list.NoDup_cons in Hnd as [Hid Hnd].
  apply IH in Hf as (Hdec & Hpd & E1 & E2 & E3 & E4 & E5 & E6); [|done].
  unfold admit_page, lift in Ha. inv_ok. subst v1.
  match goal with Hx : admit_allocation _ _ _ _ = Ok ?w |- _ =>
    apply admit_allocation_ok in Hx as ((D & P & _ & Dd & F & _ & _ & B) & E & Rr) end.
  match goal with Hx : negb (bool_decide _) = false |- _ => apply negb_false_iff, bool_decide_eq_true in Hx end.
  match goal with Hx : decode_page b = Ok ?p0 |- _ => rename p0 into p; rename Hx into Hp end.
  simpl in *. split_and!; try congruence; auto.
  - intros j. rewrite Hdec. unfold page_at. cbn [Btree.get]. destruct (String.eqb_spec j id) as [->|Hne].
    + cbn. rewrite Hp. destruct (Btree.get l id) eqn:Hg; [|by rewrite lookup_insert_eq].
      destruct Hid. by eapply Btree.get_key.
    + by rewrite lookup_insert_ne, D.
  - intros j c [[= -> ->]|Hj]%elem_of_cons; [congruence|by apply Hpd].
Qed.
End Admit.

(** ** The constructors *)

Section Constructed.
Context `{HexCrate} `{PageCodec} `{CodecScope} `{DescriptorCodec} `{ServingCodec} `{UuidCrate}.

(** The state after every page was admitted. *)
Lemma new_bounded_ok R pages lim now v :
  Btree.ordered pages -> new_bounded pages lim now = Ok v ->
  walk_inv pages lim R v /\ directories v = [] /\ files v = [] /\ reached v = ∅ /\
  (forall id b, (id, b) ∈ pages -> parse_digest id = Ok (page_id b)).
Proof using Type.
  intros Hord Hn. apply admit_pages_ok in Hn as (Hd & Hpd & E1 & E2 & E3 & E4 & E5 & _);
    [|by apply Btree.ordered_nodup].
  simpl in *. split_and!; auto. unfold walk_inv, radix_inv, all_paths. rewrite E1, E2, E3, E4, E5.
  split_and!; [| | |constructor|done|apply Z.le_max_l|constructor].
  - intros id. rewrite Hd, lookup_empty. by destruct (page_at pages id).
  - intros id es Hx. by rewrite lookup_empty in Hx.
  - by intros x ?%not_elem_of_empty.
Qed.

Lemma validated d pages mn mb dl now c v :
  Btree.ordered pages -> validate_pages_bounded d pages mn mb dl now = Ok (c, v) ->
  let lim := mkLimits mn mn mb dl in
  let R := reachable_page pages (metadata_root d) in
  walk_inv pages lim R v /\ (forall id, id ∈ pages.*1 <-> R id) /\
  (forall p r, mkDir p r ∈ directories v <-> dir_from pages "" (metadata_root d) p r) /\
  (forall f, f ∈ files v <-> file_from pages "" (metadata_root d) f) /\
  names_ok pages "" (metadata_root d) /\
  (forall id b, (id, b) ∈ pages -> parse_digest id = Ok (page_id b)) /\
  (forall p r, dir_from pages "" (metadata_root d) p r -> is_Some (entries v !! r)) /\
  canonical_descriptor d = Ok (vc_descriptor_bytes c) /\
  c = mkClosure d (vc_descriptor_bytes c) pages (sort_by dir_path (directories v)) (sort_by rel_path (files v)).
Proof using Type.
  intros Hord Hv. cbv zeta. unfold validate_pages_bounded in Hv.
  apply rbind_ok in Hv as (db & Hdb & Hv). unfold lift in Hdb. apply map_err_ok in Hdb.
  apply rbind_ok in Hv as (v0 & Hn & Hv). apply (new_bounded_ok (reachable_page pages (metadata_root d))) in Hn as (Hv0 & Ed0 & Ef0 & Er0 & Hpd); [|done].
  apply rbind_ok in Hv as ([v1 a1] & Hw & Hv). apply reject_ok in Hv as [Hlen Hv]. simplify_eq.
  apply (walk_directory_ok pages _ now (reachable_page pages (metadata_root d))) in Hw as [(Hinv & _ & (ds & fs & Ed & Ef & Hds & Hfs) & Hent & Hnames) _];
    [|done|intros p r x Hp Hb; by exists p, r].
  rewrite Ed0 in Ed. rewrite Ef0 in Ef. simpl in Ed, Ef. subst.
  apply negb_false_iff, Z.eqb_eq in Hlen. cbn [vc_descriptor_bytes]. split_and!; auto.
  assert (Hback : forall id, reachable_page pages (metadata_root d) id -> id ∈ reached v).
  { intros id (p & r & Hp & Hb). destruct (Hent p r Hp) as [es Hes].
    destruct Hinv as ((_ & Hm & _) & _). by apply (Hm r es Hes). }
  assert (Hfwd : reached v ⊆ list_to_set pages.*1).
  { intros id Hid. destruct Hinv as ((_ & _ & Hr) & _). apply Hr in Hid as [_ [pg Hpg]].
    apply page_at_stored in Hpg as [b Hb]. apply elem_of_list_to_set. by eapply Btree.get_key. }
  assert (reached v = list_to_set pages.*1) as Heq.
  { apply set_subseteq_size_eq; [done|]. rewrite size_list_to_set by by apply Btree.ordered_nodup.
    rewrite length_fmap. unfold zlen in Hlen. lia. }
  intros id. rewrite <- (elem_of_list_to_set (C := gset string)), <- Heq. split; [|apply Hback].
  destruct Hinv as ((_ & _ & Hr) & _). intros Hid. by apply Hr.
Qed.

Lemma canonical_serving d b :
  canonical_descriptor d = Ok b -> exists s id,
  serving_encode s = Ok b /\ serving_snapshot_id s = Ok id /\ d = descriptor_of s id.
Proof using Type.
  unfold canonical_descriptor. intros Hc. inv_ok. bools. split_all.
  eexists _, _. split_and!; [done|done|].
  repeat match goal with Hp : parse_digest _ = Ok _ |- _ => apply parse_digest_ok in Hp as (? & _) end.
  unfold descriptor_of, digest in *. simpl. rewrite !hex_encode_lower in *. unfold digest_string in *.
  destruct d; simpl in *; subst. f_equal; congruence.
Qed.

Lemma closure_dirs d pages mn mb dl now c v :
  Btree.ordered pages -> validate_pages_bounded d pages mn mb dl now = Ok (c, v) ->
  forall p r, mkDir p r ∈ vc_directories c <-> dir_from pages "" (metadata_root d) p r.
Proof using Type.
  intros Hord Hv p r. pose proof (validated _ _ _ _ _ _ _ _ Hord Hv) as (_ & _ & Hd & _ & _ & _ & _ & _ & ->).
  cbn [vc_directories]. by rewrite sort_by_perm.
Qed.

(** C7: an accepted closure is exactly the tree its root commits to. Every page
    hashes to its name; the pages are exactly those reachable from the
    descriptor's metadata root through branch pages and directory entries; the
    directories and the files listed are exactly the logical directories and
    files below the root, each once and in path order; every name is UTF-8. *)
Theorem closure_exact d pages mn mb dl now c v :
  Btree.ordered pages -> validate_pages_bounded d pages mn mb dl now = Ok (c, v) ->
  (forall id b, (id, b) ∈ pages -> parse_digest id = Ok (page_id b)) /\
  (forall id, id ∈ pages.*1 <-> reachable_page pages (metadata_root d) id) /\
  (forall p r, mkDir p r ∈ vc_directories c <-> dir_from pages "" (metadata_root d) p r) /\
  (forall f, f ∈ vc_files c <-> file_from pages "" (metadata_root d) f) /\
  StronglySorted str_lt (dir_path <$> vc_directories c) /\
  StronglySorted str_lt (rel_path <$> vc_files c) /\
  names_ok pages "" (metadata_root d).
Proof using Type.
  intros Hord Hv. pose proof (validated _ _ _ _ _ _ _ _ Hord Hv) as (Hw & Hp & Hd & Hf & Hn & Hid & _ & _ & ->).
  cbn [vc_directories vc_files]. destruct Hw as (_ & Hnd & _). apply list.NoDup_app in Hnd as (Hnd1 & _ & Hnd2).
  split_and!; auto using sort_by_strict.
  - intros p r. by rewrite sort_by_perm.
  - intros f. by rewrite sort_by_perm.
Qed.

(** An accepted closure stays within the serving profile and the proof
    limits. Directories and files together are at most the permitted nodes, no
    path is both, file and symlink sizes are within the profile, and one content
    digest never has two sizes. *)
Lemma closure_within_limits d pages mn mb dl now c v :
  Btree.ordered pages -> validate_pages_bounded d pages mn mb dl now = Ok (c, v) ->
  zlen (vc_directories c) + zlen (vc_files c) <= Z.max 0 mn /\
  NoDup ((dir_path <$> vc_directories c) ++ (rel_path <$> vc_files c)) /\
  Forall size_ok (vc_files c) /\
  (forall f g, f ∈ vc_files c -> g ∈ vc_files c -> file_digest f = file_digest g -> file_size f = file_size g).
Proof using Type.
  intros Hord Hv. pose proof (validated _ _ _ _ _ _ _ _ Hord Hv) as (Hw & _ & _ & _ & _ & _ & _ & _ & ->).
  cbn [vc_directories vc_files]. destruct Hw as (_ & Hnd & _ & Hlen & Hs). split_and!.
  - unfold all_paths, zlen in *. rewrite !sort_by_perm. rewrite length_app, !length_fmap in Hlen. simpl in Hlen. lia.
  - unfold all_paths in Hnd. by rewrite !sort_by_perm.
  - rewrite sort_by_perm. eapply Forall_impl; [|exact Hs]. by intros f [_ ?].
  - intros f g. rewrite !sort_by_perm. intros Hf Hg E. rewrite List.Forall_forall in Hs.
    apply list_elem_of_In, Hs in Hf as [Hf _], Hg as [Hg _]. rewrite E in Hf. congruence.
Qed.

End Constructed.

(** ** The descriptor determines the closure *)

Section Determined.
Context `{HexCrate} `{PageCodec} `{CodecScope} `{DescriptorCodec} `{ServingCodec} `{UuidCrate}.
Context (p q : list (string * bytes)) (Hp : Btree.ordered p) (Hq : Btree.ordered q).

(** No name is stored with different bytes. *)
Definition agree : Prop := forall id b b', (id, b) ∈ p -> (id, b') ∈ q -> b = b'.

(** Both page sets contain everything below a page. *)
Definition both (r : string) : Prop :=
  (forall y, below p r y -> y ∈ p.*1) /\ (forall y, below q r y -> y ∈ q.*1).

Lemma agree_page r : agree -> both r -> page_at p r = page_at q r.
Proof using Hp Hq.
  intros Ha [Hbp Hbq]. unfold page_at.
  pose proof (Hbp r (below_here p r)) as ([i b] & E0 & Hb)%list_elem_of_fmap.
  pose proof (Hbq r (below_here q r)) as ([j b'] & E & Hb')%list_elem_of_fmap. simpl in *. subst i j.
  rewrite (Ha _ _ _ Hb Hb') in Hb. apply Btree.get_elem in Hb, Hb'; [|done..]. by rewrite Hb, Hb'.
Qed.

Lemma both_child r prefix terminal children c :
  agree -> both r -> page_at p r = Some (Branch prefix terminal children) -> c ∈ children ->
  both (digest (child_page_id c)).
Proof using Hp Hq.
  intros Ha Hb Hr Hc. pose proof (agree_page r Ha Hb) as E.
  rewrite E in Hr.
  split; intros y Hy; apply Hb; (eapply below_child; [|exact Hc|exact Hy]); by rewrite ?E.
Qed.

Lemma below_transfer r x : agree -> both r -> below p r x -> below q r x.
Proof using Hp Hq.
  intros Ha Hb. induction 1 as [r|r prefix terminal children c x Hr Hc _ IH]; [constructor|].
  eapply below_child; [by rewrite <- agree_page|done|]. apply IH. by eapply both_child.
Qed.

Lemma in_radix_transfer r e : agree -> both r -> in_radix p r e -> in_radix q r e.
Proof using Hp Hq.
  intros Ha Hb. induction 1 as [r es e Hr He|r prefix e children Hr|r prefix terminal children c e Hr Hc _ IH].
  - eapply in_leaf; [by rewrite <- agree_page|done].
  - eapply in_terminal. by rewrite <- agree_page.
  - eapply in_child; [by rewrite <- agree_page|done|]. apply IH. by eapply both_child.
Qed.

Context (root : string).
Context (Hrp : forall i, i ∈ p.*1 <-> reachable_page p root i).
Context (Hrq : forall i, i ∈ q.*1 <-> reachable_page q root i).

Lemma dir_transfer path r : agree -> dir_from p "" root path r -> dir_from q "" root path r /\ both r.
Proof using All.
  intros Ha Hd.
  assert (Hboth : forall path r, dir_from p "" root path r -> dir_from q "" root path r -> both r).
  { intros path' r' Hdp Hdq. split; intros y Hy; [apply Hrp|apply Hrq]; by exists path', r'. }
  enough (dir_from q "" root path r) by eauto.
  induction Hd as [|path r e name Hd IH He Hk Hn]; [constructor|].
  eapply dir_below; [done| |done|done]. apply in_radix_transfer; [done|by eapply Hboth|done].
Qed.

Lemma pages_transfer id b : agree -> (id, b) ∈ p -> (id, b) ∈ q.
Proof using All.
  intros Ha Hin. assert (id ∈ p.*1) as (path & r & Hd & Hb)%Hrp by (apply list_elem_of_fmap; by exists (id, b)).
  destruct (dir_transfer path r Ha Hd) as [Hd' Hboth]. apply (below_transfer r id Ha Hboth) in Hb.
  assert (id ∈ q.*1) as ([j b'] & E & Hb')%list_elem_of_fmap by (apply Hrq; by exists path, r).
  simpl in E. subst j. by rewrite (Ha _ _ _ Hin Hb').
Qed.
End Determined.

Section Theorems.
Context `{HexCrate} `{PageCodec} `{CodecScope} `{DescriptorCodec} `{ServingCodec} `{UuidCrate}.

(** Differing bytes under one name are found by search. *)
Lemma agree_or_differ (p q : list (string * bytes)) :
  agree p q \/ exists id b b', (id, b) ∈ p /\ (id, b') ∈ q /\ b <> b'.
Proof using Type.
  destruct (decide (Forall (fun x => Forall (fun y => x.1 = y.1 -> x.2 = y.2) q) p)) as [Hall|Hex].
  - left. intros id b b' Hb Hb'. rewrite !Forall_lookup in Hall.
    apply list_elem_of_lookup in Hb as [i Hi], Hb' as [j Hj]. pose proof (Hall i _ Hi) as Hq.
    rewrite Forall_lookup in Hq. by apply (Hq j _ Hj).
  - right. apply not_Forall_Exists, Exists_exists in Hex as ([id b] & Hb & Hex); [|apply _].
    apply not_Forall_Exists, Exists_exists in Hex as ([id' b'] & Hb' & Hne); [|apply _].
    simpl in Hne. destruct (decide (id = id')) as [<-|]; [|tauto]. exists id, b, b'.
    rewrite !list_elem_of_In. split_and!; [done|done|tauto].
Qed.

(** A descriptor determines its closure. Two page sets accepted for one
    descriptor are the same page set and give the same closure, unless a page of
    the one and a different page of the other have the same page id. *)
Lemma closure_determined d p q c c' :
  Btree.ordered p -> Btree.ordered q -> from_pages d p = Ok c -> from_pages d q = Ok c' ->
  (p = q /\ c = c') \/ exists id a b, (id, a) ∈ p /\ (id, b) ∈ q /\ a <> b /\ page_id a = page_id b.
Proof using Type.
  unfold from_pages. intros Hop Hoq Hc Hc'.
  apply rbind_ok in Hc as ([c1 v1] & Hc & [= <-]), Hc' as ([c2 v2] & Hc' & [= <-]).
  pose proof (validated _ _ _ _ _ _ _ _ Hop Hc) as (_ & Hp & _ & _ & _ & Hidp & _).
  pose proof (validated _ _ _ _ _ _ _ _ Hoq Hc') as (_ & Hq & _ & _ & _ & Hidq & _).
  destruct (agree_or_differ p q) as [Ha|(id & b & b' & Hb & Hb' & Hne)]; [left|right].
  - assert (p = q) as <-; [|split; [done|congruence]].
    apply Btree.ordered_ext; [done|done|]. intros id b. split.
    + by apply pages_transfer with (root := metadata_root d).
    + apply pages_transfer with (root := metadata_root d); [done..|]. intros i x y Hx Hy. symmetry. by eapply Ha.
  - exists id, b, b'. split_and!; [done|done|done|]. apply Hidp in Hb. apply Hidq in Hb'. congruence.
Qed.

(** Validation neither panics nor runs out of fuel. *)
Lemma validate_clean d pages mn mb dl now :
  Btree.ordered pages -> 0 <= PAGE_MAX_DEPTH -> clean (validate_pages_bounded d pages mn mb dl now).
Proof using Type.
  intros Hord Hmax. unfold validate_pages_bounded. apply clean_bind; [auto with rust|]. intros db _. cbv zeta.
  apply clean_bind.
  { apply (clean_for_each _ (fun _ => True)); [|done..]. intros. apply admit_page_clean. }
  intros v Hv. apply (new_bounded_ok (fun _ => True)) in Hv as (Hv & _); [|done]. apply clean_bind.
  - apply walk_directory_clean; [done|done|set_solver|]. unfold walk_fuel. rewrite size_empty. lia.
  - intros [v' a] _. by apply clean_reject.
Qed.

Lemma canonical_clean b pages mn mb dl now :
  Btree.ordered pages -> 0 <= PAGE_MAX_DEPTH -> clean (from_canonical_pages_bounded b pages mn mb dl now).
Proof using Type.
  intros Hord Hmax. unfold from_canonical_pages_bounded. apply clean_bind; [apply clean_lift|]. intros sv _.
  apply clean_bind; [apply clean_lift|]. intros id _. apply clean_bind; [by apply validate_clean|]. intros [c v] _.
  by apply clean_reject.
Qed.

(** The pages of a closure are those it was built from, and it is found again
    from its canonical bytes. *)
Lemma from_pages_pages d pages c : from_pages d pages = Ok c -> vc_pages c = pages.
Proof using Type.
  unfold from_pages. intros Hc. apply rbind_ok in Hc as ([c1 v1] & Hc & [= <-]).
  unfold validate_pages_bounded, lift in Hc. inv_ok. destruct x1. inv_ok. by simplify_eq.
Qed.

Lemma from_pages_canonical d pages c :
  from_pages d pages = Ok c -> from_canonical_pages (vc_descriptor_bytes c) pages = Ok c.
Proof using Type.
  intros Hc. unfold from_pages in Hc. apply rbind_ok in Hc as ([c1 v1] & Hc & [= <-]).
  assert (canonical_descriptor d = Ok (vc_descriptor_bytes c1)) as Hd.
  { unfold validate_pages_bounded, lift in Hc. inv_ok. destruct x1. inv_ok. by simplify_eq. }
  apply canonical_serving in Hd as (s & id & He & Hs & ->).
  unfold from_canonical_pages, from_canonical_pages_bounded.
  rewrite (serving_decode_encode _ _ He). cbn [map_err lift rbind]. rewrite Hs. cbn [map_err lift rbind].
  rewrite Hc. cbn [rbind]. by rewrite bool_decide_true.
Qed.

(** C39: a closure reopens from its canonical bytes. The descriptor bytes kept
    with a closure and its pages reopen to the same closure, and whatever
    reopens has exactly the bytes it was opened from. *)
Theorem closure_reopens d pages c :
  from_pages d pages = Ok c ->
  from_canonical_pages (vc_descriptor_bytes c) pages = Ok c /\
  (forall b c', from_canonical_pages b pages = Ok c' -> vc_descriptor_bytes c' = b).
Proof using Type.
  intros Hc. split; [by eapply from_pages_canonical|].
  intros b c' Hb. unfold from_canonical_pages, from_canonical_pages_bounded in Hb. inv_ok. destruct x1 as [c2 v2].
  inv_ok. simplify_eq. match goal with Hx : negb (bool_decide _) = false |- _ =>
      by apply negb_false_iff, bool_decide_eq_true in Hx end.
Qed.
End Theorems.
End ClosureExact.
