(* ===== verification/ClosureFacts.v ===== *)
(** * ClosureFacts

    The summaries of [src/snapshot/closure.rs] that incremental refreshes
    store: for every logical directory of a proved closure, the pages and the
    files below it and the number of entries ([radix_page_ids],
    [subtree_facts], [with_subtree_facts]). They are computed by memoized
    recursions without a cycle check of their own: their termination and the
    absence of missing pages come from the walk that accepted the closure. *)

From Stdlib Require Import Sorted.
From S2P Require Import Prelude Types Faults Text Profile Btree Frames Wire Closure ClosureExact.
Import Digests Scope Closure ClosureExact.
Local Open Scope string_scope.
Local Open Scope list_scope.
Local Open Scope Z_scope.

Module ClosureFacts.

Record VerifiedSubtreeFacts : Type := mkFacts {
  root_page_id : string; page_ids : list string; fact_files : list SnapshotFile; total_entries : Z;
}.

Definition with_path (p : string) (f : SnapshotFile) : SnapshotFile :=
  mkFile p (file_kind f) (file_size f) (file_digest f).

(** The accumulator of the entry loop: pages, files, count and memo. *)
Record summary : Type := mkSummary {
  s_pages : gset string; s_files : list SnapshotFile; s_total : Z; s_memo : gmap string VerifiedSubtreeFacts;
}.

Section Facts.
Context `{HexCrate} `{PageCodec} `{CodecScope}.
Context (v : ClosureValidator).

Fixpoint radix_page_ids (fuel : nat) (ids : gset string) (id : string) : Run (gset string) :=
  match fuel with
  | O => Err OutOfFuel
  | S fuel =>
      if bool_decide (id ∈ ids) then Ok ids
      else
        let ids := {[id]} ∪ ids in
        let? page := ok_or (decoded v !! id) Panicked in
        match page with
        | Branch _ _ children =>
            for_each (fun ids child => radix_page_ids fuel ids (digest (child_page_id child))) ids children
        | Leaf _ => Ok ids
        end
  end.

(** One entry of the summarized directory. *)
Definition summarize
    (facts : string -> gmap string VerifiedSubtreeFacts -> Run (VerifiedSubtreeFacts * gmap string VerifiedSubtreeFacts))
    (s : summary) (e : Entry) : Run summary :=
  let? total := ok_or (checked_add (s_total s) 1) (Failed (limit "subtree entry count overflow")) in
  let? name := ok_or (from_utf8 (ent_name e)) (Failed (integrity "non-UTF-8 entry")) in
  if bool_decide (ent_kind e = EDirectory) then
    let? ' (child, memo) := facts (digest (child_root e)) (s_memo s) in
    let? total := ok_or (checked_add total (total_entries child)) (Failed (limit "subtree entry count overflow")) in
    Ok (mkSummary (s_pages s ∪ list_to_set (page_ids child))
          (s_files s ++ ((fun f => with_path (name ++ "/" ++ rel_path f) f) <$> fact_files child)) total memo)
  else Ok (mkSummary (s_pages s) (s_files s ++ [file_of name e]) total (s_memo s)).

(** [BTreeSet::into_iter]. *)
Definition sorted_set (s : gset string) : list string := sort_by id (elements s).

Fixpoint subtree_facts (fuel page_fuel : nat) (root : string) (memo : gmap string VerifiedSubtreeFacts)
    : Run (VerifiedSubtreeFacts * gmap string VerifiedSubtreeFacts) :=
  match fuel with
  | O => Err OutOfFuel
  | S fuel =>
      match memo !! root with
      | Some facts => Ok (facts, memo)
      | None =>
          let? pages := radix_page_ids page_fuel ∅ root in
          let? es := ok_or (entries v !! root) Panicked in
          let? s := for_each (summarize (subtree_facts fuel page_fuel)) (mkSummary pages [] 0 memo) es in
          let facts := mkFacts root (sorted_set (s_pages s)) (sort_by rel_path (s_files s)) (s_total s) in
          Ok (facts, <[root := facts]> (s_memo s))
      end
  end.
End Facts.

Section Closures.
Context `{HexCrate} `{PageCodec} `{CodecScope} `{DescriptorCodec} `{ServingCodec} `{UuidCrate}.

(** The roots of a set of directories, in [BTreeSet] order. *)
Definition fact_roots (ds : list SnapshotDirectory) : list string :=
  sorted_set (list_to_set (directory_root <$> ds)).

(** [ValidatedSnapshotClosure::with_subtree_facts]: the facts of every
    directory root, sorted. The memo's values are the only owners left, so
    [take_subtree_fact] moves them. *)
Definition with_subtree_facts (d : Descriptor) (pages : list (string * bytes))
    : Run (ValidatedSnapshotClosure * list VerifiedSubtreeFacts) :=
  let? ' (c, v) := validate_pages_bounded d pages usize_max usize_max None (fun _ => 0) in
  let? memo := for_each (fun memo root =>
                   let? ' (_, memo) := subtree_facts v (walk_fuel pages) (walk_fuel pages) root memo in Ok memo)
                 ∅ (fact_roots (vc_directories c)) in
  Ok (c, sort_by root_page_id (snd <$> map_to_list memo)).
End Closures.

(** ** Specification *)

Section Spec.
Context `{HexCrate} `{PageCodec} `{CodecScope} (pages : list (string * bytes)).

(** The files below a directory, by their paths relative to it. *)
Inductive rel_file : string -> SnapshotFile -> Prop :=
  | rel_here root e name :
      in_radix pages root e -> ent_kind e <> EDirectory -> from_utf8 (ent_name e) = Some name ->
      rel_file root (file_of name e)
  | rel_below root e name f :
      in_radix pages root e -> ent_kind e = EDirectory -> from_utf8 (ent_name e) = Some name ->
      rel_file (digest (child_root e)) f ->
      rel_file root (with_path (name ++ "/" ++ rel_path f) f).

(** The pages of a directory and of the directories below it. *)
Definition tree_page (root id : string) : Prop := exists p r, dir_from pages "" root p r /\ below pages r id.

(** The entries below a directory, each occurrence counted. *)
Inductive counted : string -> Z -> Prop :=
  | counted_here root es n : partition pages root es -> counted_entries es n -> counted root n
with counted_entries : list Entry -> Z -> Prop :=
  | counted_nil : counted_entries [] 0
  | counted_file e es n :
      ent_kind e <> EDirectory -> counted_entries es n -> counted_entries (es ++ [e]) (n + 1)
  | counted_dir e es m n :
      ent_kind e = EDirectory -> counted (digest (child_root e)) m -> counted_entries es n ->
      counted_entries (es ++ [e]) (n + 1 + m).

Definition fact_ok (f : VerifiedSubtreeFacts) : Prop :=
  (forall id, id ∈ page_ids f <-> tree_page (root_page_id f) id) /\
  StronglySorted str_lt (page_ids f) /\
  (forall g, g ∈ fact_files f <-> rel_file (root_page_id f) g) /\
  StronglySorted (key_le rel_path) (fact_files f) /\
  counted (root_page_id f) (total_entries f).

(** Directories nest less than [n] deep below a root. *)
Fixpoint shallow (n : nat) (root : string) : Prop :=
  match n with
  | O => False
  | S n => forall e, in_radix pages root e -> ent_kind e = EDirectory -> shallow n (digest (child_root e))
  end.

Lemma shallow_mono n m root : (n <= m)%nat -> shallow n root -> shallow m root.
Proof using Type.
  revert m root. induction n as [|n IH]; intros [|m] root Hle Hs; simpl in *; try done; [lia|].
  intros e He Hk. apply IH; [lia|]. by apply Hs.
Qed.

(** A prefix in front of every path does not change what is below. *)
Lemma dir_from_change rel rel' root p r :
  dir_from pages rel root p r -> exists p', dir_from pages rel' root p' r.
Proof using Type.
  induction 1 as [|p r e name _ [p' IH] He Hk Hn]; [exists rel'; constructor|].
  exists (join_path p' name). by eapply dir_below.
Qed.

Lemma dir_from_trans rel root p r q s :
  dir_from pages rel root p r -> dir_from pages p r q s -> dir_from pages rel root q s.
Proof using Type. intros Hd. induction 1; [done|]. by eapply dir_below. Qed.

(** The directories below a directory are directories of the tree. *)
Lemma dir_from_sub root p r q s :
  dir_from pages "" root p r -> dir_from pages "" r q s -> exists q', dir_from pages "" root q' s.
Proof using Type.
  intros Hd Hs. destruct (dir_from_change _ p _ _ _ Hs) as [q' Hq]. exists q'. by eapply dir_from_trans.
Qed.

Lemma shallow_dir n rel root p r : dir_from pages rel root p r -> shallow n root -> shallow n r.
Proof using Type.
  induction 1 as [|p r e name _ IH He Hk _]; [done|]. intros Hs%IH. destruct n as [|n]; [done|].
  eapply (shallow_mono n); [lia|]. by apply Hs.
Qed.

Lemma tree_page_inv root id :
  names_ok pages "" root ->
  tree_page root id <-> below pages root id \/
  exists e, in_radix pages root e /\ ent_kind e = EDirectory /\ tree_page (digest (child_root e)) id.
Proof using Type.
  intros Hok. split.
  - intros (p & r & [[-> ->]|(e & name & He & Hk & Hn & Hd)]%dir_from_inv & Hb); [by left|right].
    exists e. split_and!; [done|done|]. destruct (dir_from_change _ "" _ _ _ Hd) as [p' ?]. by exists p', r.
  - intros [Hb|(e & He & Hk & (p & r & Hd & Hb))]; [exists "", root; split; [constructor|done]|].
    destruct (Hok "" root e (dir_here _ _ _) He) as [name Hn].
    destruct (dir_from_change _ (join_path "" name) _ _ _ Hd) as [p' Hd'].
    exists p', r. split; [|done]. by eapply dir_from_top.
Qed.

Lemma rel_file_inv root g :
  rel_file root g <-> exists e name, in_radix pages root e /\ from_utf8 (ent_name e) = Some name /\
    (if bool_decide (ent_kind e = EDirectory)
     then exists f, rel_file (digest (child_root e)) f /\ g = with_path (name ++ "/" ++ rel_path f) f
     else g = file_of name e).
Proof using Type.
  split.
  - intros Hg. inversion Hg; subst.
    + exists e, name. by rewrite bool_decide_false.
    + exists e, name. rewrite bool_decide_true by done. eauto.
  - intros (e & name & He & Hn & Hg). case_bool_decide as Hk; [|subst g; by constructor].
    destruct Hg as (f & Hf & ->). by eapply rel_below.
Qed.

Lemma names_ok_child rel root e name :
  names_ok pages rel root -> in_radix pages root e -> ent_kind e = EDirectory ->
  from_utf8 (ent_name e) = Some name -> names_ok pages "" (digest (child_root e)).
Proof using Type.
  intros Hok He Hk Hn p r e' Hd He'.
  destruct (dir_from_change _ (join_path rel name) _ _ _ Hd) as [p' Hd'].
  eapply (Hok p' r); [|done]. by eapply dir_from_top.
Qed.
End Spec.

(** ** Exactness *)

Section Exact.
Context `{HexCrate} `{PageCodec} `{CodecScope}.
Context (pages : list (string * bytes)) (v : ClosureValidator).
Context (Hdec : forall id, decoded v !! id = page_at pages id).

Definition children_of (id : string) : list string :=
  match page_at pages id with
  | Some (Branch _ _ children) => (fun c => digest (child_page_id c)) <$> children
  | _ => []
  end.

(** A depth-first visit marks what is below and closes what it marks. *)
Definition marked (ids : gset string) (roots : list string) (ids' : gset string) : Prop :=
  ids ⊆ ids' /\ (forall r, r ∈ roots -> r ∈ ids') /\
  (forall x, x ∈ ids' -> x ∈ ids \/ exists r, r ∈ roots /\ below pages r x) /\
  (forall x c, x ∈ ids' -> x ∉ ids -> c ∈ children_of x -> c ∈ ids').

Lemma marked_cons ids r roots ids1 ids' :
  marked ids [r] ids1 -> marked ids1 roots ids' -> marked ids (r :: roots) ids'.
Proof using Type.
  clear v Hdec. intros (Hs1 & Hr1 & Hb1 & Hc1) (Hs2 & Hr2 & Hb2 & Hc2). unfold marked. split_and!.
  - set_solver.
  - intros x [->|Hx]%elem_of_cons; [|auto]. apply Hs2, Hr1. left.
  - intros x [Hx|(r' & ? & ?)]%Hb2; [|right; exists r'; split; [by right|done]].
    apply Hb1 in Hx as [?|(r' & ->%list_elem_of_singleton & ?)]; [by left|]. right. exists r. split; [left|done].
  - intros x c Hx Hn Hc. destruct (decide (x ∈ ids1)); [|by apply (Hc2 x)]. apply Hs2. by apply (Hc1 x).
Qed.

Lemma radix_page_ids_ok fuel ids id ids' :
  radix_page_ids v fuel ids id = Ok ids' -> marked ids [id] ids'.
Proof using Hdec.
  revert ids id ids'. induction fuel as [|fuel IH]; intros ids id ids' Hf; [done|]. cbn [radix_page_ids] in Hf.
  case_bool_decide as Hin.
  { simplify_eq. unfold marked. split_and!; [done| |by left|done]. by intros r ->%list_elem_of_singleton. }
  cbv zeta in Hf. apply rbind_ok in Hf as (page & Hp & Hf). apply ok_or_ok in Hp. rewrite Hdec in Hp.
  assert (Hkids : marked ({[id]} ∪ ids) (children_of id) ids').
  { unfold children_of. rewrite Hp. destruct page as [es|pre t cs].
    - simplify_eq. unfold marked. split_and!; [done|by intros ? ?%not_elem_of_nil|by left|].
      intros x c ? Hx. done.
    - clear Hp Hin. revert Hf. generalize ({[id]} ∪ ids) as ids0. induction cs as [|c cs IHc]; intros ids0 Hf; simpl in Hf.
      + simplify_eq. unfold marked. split_and!; [done|by intros ? ?%not_elem_of_nil|by left|done].
      + apply rbind_ok in Hf as (ids1 & Hone & Hf). simpl. eapply marked_cons; [by apply IH|by apply IHc]. }
  assert (Hchild : forall c, c ∈ children_of id -> forall x, below pages c x -> below pages id x).
  { unfold children_of. intros c Hc x Hx. destruct (page_at pages id) as [[es|pre t cs]|] eqn:Hpage;
      [by apply not_elem_of_nil in Hc| |by apply not_elem_of_nil in Hc].
    apply list_elem_of_fmap in Hc as (ch & -> & Hch). by eapply below_child. }
  destruct Hkids as (Hs & Hr & Hb & Hc). unfold marked. split_and!.
  - set_solver.
  - intros r ->%list_elem_of_singleton. set_solver.
  - intros x [[->%elem_of_singleton|Hx]%elem_of_union|(c & Hcc & Hx)]%Hb; [right|by left|right].
    + exists id. split; [left|constructor].
    + exists id. split; [left|]. by eapply Hchild.
  - intros x c Hx Hn Hcc. destruct (decide (x = id)) as [->|]; [by apply Hr|]. apply (Hc x); [done|set_solver|done].
Qed.

(** From no marks, exactly the pages below are marked. *)
Lemma radix_page_ids_below fuel id ids :
  radix_page_ids v fuel ∅ id = Ok ids -> forall x, x ∈ ids <-> below pages id x.
Proof using Hdec.
  intros (_ & Hr & Hb & Hc)%radix_page_ids_ok x. split.
  - by intros [?%not_elem_of_empty|(r & ->%list_elem_of_singleton & ?)]%Hb.
  - assert (Hid : id ∈ ids) by (apply Hr; left). clear Hr Hb. induction 1 as [|id pre t cs c x Hp Hcs _ IH]; [done|].
    apply IH. apply (Hc id); [done|set_solver|]. unfold children_of. rewrite Hp.
    apply list_elem_of_fmap. by exists c.
Qed.

Definition stored (ids : gset string) : Prop := ids ⊆ list_to_set pages.*1.

Lemma radix_page_ids_clean fuel ids id :
  (forall x, below pages id x -> is_Some (page_at pages x)) ->
  stored ids -> (length pages < fuel + size ids)%nat -> clean (radix_page_ids v fuel ids id).
Proof using Hdec.
  revert ids id. induction fuel as [|fuel IH]; intros ids id Hall Hst Hf.
  { apply subseteq_size in Hst. pose proof (size_list_to_set_le pages.*1) as Hle. rewrite length_fmap in Hle. lia. }
  cbn [radix_page_ids]. case_bool_decide as Hin; [done|]. cbv zeta.
  destruct (Hall id (below_here _ _)) as [page Hp]. rewrite Hdec, Hp. cbn [ok_or rbind].
  destruct page as [es|pre t cs]; [done|].
  assert (Hst' : stored ({[id]} ∪ ids)).
  { apply union_subseteq. split; [|done]. apply singleton_subseteq_l, elem_of_list_to_set.
    apply page_at_stored in Hp as [b Hb]. by eapply Btree.get_key. }
  apply (clean_for_each _ (fun ids1 => stored ids1 /\ {[id]} ∪ ids ⊆ ids1)); [| |done].
  - intros ids1 c Hc [Hs1 Hs2]. apply IH; [|done|].
    + intros x Hx. apply Hall. by eapply below_child.
    + apply subseteq_size in Hs2. rewrite size_union in Hs2 by set_solver. rewrite size_singleton in Hs2. lia.
  - intros ids1 c ids2 Hc [Hs1 Hs2] Hstep. apply radix_page_ids_ok in Hstep as (Hs & _ & Hb & _).
    split; [|set_solver]. intros x [Hx|(r & ->%list_elem_of_singleton & Hx)]%Hb; [by apply Hs1|].
    apply elem_of_list_to_set. destruct (Hall x) as [pg Hpg]; [by eapply below_child|].
    apply page_at_stored in Hpg as [b Hb']. by eapply Btree.get_key.
Qed.

(** *** Summaries *)

Context (Hent : forall root es, entries v !! root = Some es -> partition pages root es).

(** The memo holds exact facts about directories allowed by [D]. *)
Definition memo_ok (D : string -> Prop) (memo : gmap string VerifiedSubtreeFacts) : Prop :=
  forall r f, memo !! r = Some f -> root_page_id f = r /\ D r /\ fact_ok pages f.

(** The accumulator after the entries [es], from the pages [base]. *)
Definition summarized (D : string -> Prop) (base : gset string) (es : list Entry) (s : summary) : Prop :=
  memo_ok D (s_memo s) /\
  (forall x, x ∈ s_pages s <-> x ∈ base \/
     exists e, e ∈ es /\ ent_kind e = EDirectory /\ tree_page pages (digest (child_root e)) x) /\
  (forall g, g ∈ s_files s <-> exists e name, e ∈ es /\ from_utf8 (ent_name e) = Some name /\
     (if bool_decide (ent_kind e = EDirectory)
      then exists f, rel_file pages (digest (child_root e)) f /\ g = with_path (name ++ "/" ++ rel_path f) f
      else g = file_of name e)) /\
  counted_entries pages es (s_total s).

Definition below_dirs (D : string -> Prop) (root : string) : Prop :=
  names_ok pages "" root /\ forall p r, dir_from pages "" root p r -> D r.

Lemma below_dirs_child D root e :
  below_dirs D root -> in_radix pages root e -> ent_kind e = EDirectory -> below_dirs D (digest (child_root e)).
Proof using Type.
  clear v Hdec Hent. intros [Hok HD] He Hk. destruct (Hok "" root e (dir_here _ _ _) He) as [name Hn]. split.
  - by eapply names_ok_child.
  - intros p r Hd. destruct (dir_from_change _ _ (join_path "" name) _ _ _ Hd) as [p' Hd'].
    apply (HD p'). by eapply dir_from_top.
Qed.

Lemma summarize_ok D base es e facts s s' :
  (forall memo f memo', memo_ok D memo -> facts (digest (child_root e)) memo = Ok (f, memo') ->
     ent_kind e = EDirectory -> memo_ok D memo' /\ memo' !! digest (child_root e) = Some f) ->
  summarized D base es s -> summarize facts s e = Ok s' -> summarized D base (es ++ [e]) s'.
Proof using Type.
  clear v Hdec Hent. intros Hfacts (Hm & Hp & Hf & Hc) Hs. unfold summarize in Hs.
  apply rbind_ok in Hs as (t & Ht & Hs). apply ok_or_ok, checked_add_some in Ht as [-> _].
  apply rbind_ok in Hs as (name & Hn & Hs). apply ok_or_ok in Hn. case_bool_decide as Hk.
  - apply rbind_ok in Hs as ([child memo] & Hch & Hs). apply Hfacts in Hch as [Hm' Hl]; [|done|done].
    destruct (Hm' _ _ Hl) as (E & _ & Hpages & _ & Hfiles & _ & Htot). rewrite E in Hpages, Hfiles, Htot.
    apply rbind_ok in Hs as (t' & Ht & Hs). apply ok_or_ok, checked_add_some in Ht as [-> _]. simplify_eq.
    unfold summarized; cbn [s_memo s_pages s_files s_total]. split_and!; [done| | |by apply counted_dir].
    + intros x. rewrite elem_of_union, elem_of_list_to_set, Hpages, Hp. setoid_rewrite elem_of_app.
      setoid_rewrite list_elem_of_singleton. split; [naive_solver|].
      intros [?|(e' & [?| ->] & ? & ?)]; [left; by left|left; right; by exists e'|by right].
    + intros g. rewrite elem_of_app, Hf, list_elem_of_fmap. setoid_rewrite elem_of_app.
      setoid_rewrite list_elem_of_singleton. split.
      * intros [(e' & n & ? & ? & ?)|(f & -> & Hff)]; [exists e', n; by auto|].
        exists e, name. rewrite bool_decide_true by done. split_and!; [by right|done|]. exists f. by rewrite <- Hfiles.
      * intros (e' & n & [?| ->] & ? & Hg); [left; by exists e', n|right].
        rewrite bool_decide_true in Hg by done. destruct Hg as (f & Hff & ->). simplify_eq. exists f. by rewrite Hfiles.
  - simplify_eq. unfold summarized; cbn [s_memo s_pages s_files s_total]. split_and!; [done| | |by apply counted_file].
    + intros x. rewrite Hp. setoid_rewrite elem_of_app. setoid_rewrite list_elem_of_singleton. naive_solver.
    + intros g. rewrite elem_of_app, Hf, list_elem_of_singleton. setoid_rewrite elem_of_app.
      setoid_rewrite list_elem_of_singleton. split.
      * intros [(e' & n & ? & ? & ?)| ->]; [exists e', n; by auto|]. exists e, name. rewrite bool_decide_false by done. auto.
      * intros (e' & n & [?| ->] & ? & Hg); [left; by exists e', n|right].
        rewrite bool_decide_false in Hg by done. by simplify_eq.
Qed.

Lemma summarize_all_ok D base todo facts es s s' :
  (forall e memo f memo', e ∈ todo -> memo_ok D memo -> facts (digest (child_root e)) memo = Ok (f, memo') ->
     ent_kind e = EDirectory -> memo_ok D memo' /\ memo' !! digest (child_root e) = Some f) ->
  summarized D base es s -> for_each (summarize facts) s todo = Ok s' -> summarized D base (es ++ todo) s'.
Proof using Type.
  clear v Hdec Hent. revert es s. induction todo as [|e todo IH]; intros es s Hfacts Hs Hf; cbn [for_each] in Hf.
  { simplify_eq. by rewrite app_nil_r. }
  apply rbind_ok in Hf as (s1 & Hone & Hf). rewrite (app_assoc es [e] todo : es ++ e :: todo = _).
  eapply IH; [intros; eapply Hfacts; eauto; by right| |exact Hf].
  eapply summarize_ok; [|exact Hs|exact Hone]. intros. eapply Hfacts; eauto. left.
Qed.

Lemma elem_sorted_set (s : gset string) x : x ∈ sorted_set s <-> x ∈ s.
Proof using Type. unfold sorted_set. rewrite sort_by_perm. apply elem_of_elements. Qed.

Lemma sorted_set_sorted (s : gset string) : StronglySorted str_lt (sorted_set s).
Proof using Type.
  rewrite <- (list_fmap_id (sorted_set s)). apply (sort_by_strict id).
  rewrite list_fmap_id. apply NoDup_elements.
Qed.

Lemma subtree_facts_ok D fuel page_fuel root memo f memo' :
  below_dirs D root -> memo_ok D memo -> subtree_facts v fuel page_fuel root memo = Ok (f, memo') ->
  memo_ok D memo' /\ memo' !! root = Some f.
Proof using Hdec Hent.
  revert root memo f memo'. induction fuel as [|fuel IH]; intros root memo f memo' HD Hm Hf; [done|].
  cbn [subtree_facts] in Hf. destruct (memo !! root) as [f0|] eqn:Hmemo; [by simplify_eq|].
  apply rbind_ok in Hf as (base & Hb & Hf). pose proof (radix_page_ids_below _ _ _ Hb) as Hbase.
  apply rbind_ok in Hf as (es & Hes & Hf). apply ok_or_ok in Hes.
  pose proof (Hent _ _ Hes) as Hpart. pose proof Hpart as (Hin & _).
  apply rbind_ok in Hf as (s & Hs & Hf). simplify_eq.
  apply (summarize_all_ok D base es (subtree_facts v fuel page_fuel) []) in Hs as (Hm' & Hpg & Hfl & Hct).
  2:{ intros e m f' m' He Hmm Hfe Hk. eapply IH; [|done|done]. eapply below_dirs_child; [done|by apply Hin|done]. }
  2:{ split_and!; [done| | |constructor]; simpl.
      - intros x. split; [by left|]. by intros [?|(e & ?%not_elem_of_nil & _)].
      - intros g. split; [by intros ?%not_elem_of_nil|by intros (e & n & ?%not_elem_of_nil & _)]. }
  simpl in Hpg, Hfl, Hct. split; [|by rewrite lookup_insert_eq].
  intros r g [[<- <-]|[_ Hr]]%lookup_insert_Some; [|by apply Hm'].
  split_and!; cbn [root_page_id page_ids fact_files total_entries]; [done|by apply (proj2 HD ""), dir_here|].
  unfold fact_ok. cbn [root_page_id page_ids fact_files total_entries].
  split_and!; [|apply sorted_set_sorted| |apply sort_by_sorted|by econstructor].
  - intros x. rewrite elem_sorted_set, Hpg, Hbase, (tree_page_inv pages root x (proj1 HD)).
    by setoid_rewrite Hin.
  - intros g. rewrite sort_by_perm, Hfl, rel_file_inv. by setoid_rewrite Hin.
Qed.

Lemma subtree_facts_grows fuel page_fuel root memo res :
  subtree_facts v fuel page_fuel root memo = Ok res -> dom memo ⊆ dom res.2.
Proof using Type.
  clear Hdec Hent. revert root memo res. induction fuel as [|fuel IH]; intros root memo res Hf; [done|].
  cbn [subtree_facts] in Hf. destruct (memo !! root); [by simplify_eq|].
  apply rbind_ok in Hf as (base & _ & Hf). apply rbind_ok in Hf as (es & _ & Hf).
  apply rbind_ok in Hf as (s & Hs & Hf). simplify_eq. cbn [snd]. rewrite dom_insert.
  enough (dom memo ⊆ dom (s_memo s)) by set_solver.
  eapply (for_each_inv _ (fun s => dom memo ⊆ dom (s_memo s))) in Hs; [done| |done].
  intros s0 e s1 Hs0 _ Hstep. unfold summarize in Hstep. inv_ok. case_bool_decide; inv_ok; [|by subst].
  destruct x1 as [child memo']. inv_ok. subst. simpl.
  match goal with Hx : subtree_facts _ _ _ _ _ = Ok _ |- _ => apply IH in Hx; simpl in Hx end. set_solver.
Qed.

Lemma summarize_clean facts s e :
  (ent_kind e = EDirectory -> clean (facts (digest (child_root e)) (s_memo s))) -> clean (summarize facts s e).
Proof using Type.
  clear Hdec Hent. intros Hf. unfold summarize. clean_steps. case_bool_decide; [|done].
  apply clean_bind; [auto|]. intros [child memo] _. clean_steps. done.
Qed.

Lemma subtree_facts_clean D fuel page_fuel root memo :
  shallow pages fuel root -> (length pages < page_fuel)%nat ->
  below_dirs D root -> memo_ok D memo ->
  (forall r, D r -> is_Some (entries v !! r) /\ forall x, below pages r x -> is_Some (page_at pages x)) ->
  clean (subtree_facts v fuel page_fuel root memo).
Proof using Hdec Hent.
  revert root memo. induction fuel as [|fuel IH]; intros root memo Hsh Hpf HD Hm Hall; [done|].
  cbn [subtree_facts]. destruct (memo !! root); [done|].
  destruct (Hall root) as [Hes Hbel]; [apply (proj2 HD ""), dir_here|].
  apply clean_bind; [apply radix_page_ids_clean; [done|set_solver|lia]|]. intros base Hb.
  apply clean_bind; [by apply clean_or_panic|]. intros es Hes'%ok_or_ok. pose proof (Hent _ _ Hes') as [Hin _].
  apply clean_bind; [|done].
  apply (clean_for_each _ (fun s => memo_ok D (s_memo s))); [| |done].
  - intros s e He Hs. apply summarize_clean. intros Hk. apply IH; [|done| |done|done].
    + apply Hsh; [by apply Hin|done].
    + eapply below_dirs_child; [done|by apply Hin|done].
  - intros s e s' He Hs Hstep. unfold summarize in Hstep. inv_ok. case_bool_decide; inv_ok; [|by subst].
    destruct x1 as [child memo']. inv_ok. subst. simpl.
    match goal with Hx : subtree_facts _ _ _ _ _ = Ok _ |- _ => eapply subtree_facts_ok in Hx as [? _] end; [done| |done].
    eapply below_dirs_child; [done|by apply Hin|done].
Qed.
End Exact.

(** A walk that ended well nests less deep than its fuel. *)
Lemma walk_shallow `{HexCrate} `{PageCodec} `{CodecScope} pages lim now fuel scope rel root v active res :
  walk_inv pages lim (fun _ => True) v ->
  walk_directory pages lim now fuel scope rel root v active = Ok res -> shallow pages fuel root.
Proof.
  revert rel root v active res. induction fuel as [|fuel IH]; intros rel root v active res Hv Hf; [done|].
  cbn [walk_directory] in Hf. apply rbind_ok in Hf as (v1 & Ha & Hf).
  apply admit_logical_path_ok in Ha as [Hc Hlt]. pose proof (walk_inv_charged _ _ _ _ _ Hc Hv) as Hv1.
  apply rbind_ok in Hf as (u & _ & Hf). apply reject_ok in Hf as [_ Hf].
  cbv zeta in Hf. apply reject_ok in Hf as [Hnew Hf]. apply bool_decide_eq_false in Hnew.
  destruct Hc as ((_ & Ep & _) & _).
  assert (Hv2 : walk_inv pages lim (fun _ => True) (push_directory (mkDir rel root) v1)).
  { apply push_directory_inv; [done|done|by rewrite Ep]. }
  apply rbind_ok in Hf as ([es v3] & Hrad & Hf). unfold radix in Hrad.
  apply rbind_ok in Hrad as ([[es' v3'] a3] & Hrad & E). simplify_eq.
  apply (radix_entries_ok pages lim now (fun _ => True)) in Hrad as (Hr3 & Hx3 & Hmemo); [|apply Hv2|done].
  pose proof (walk_inv_extends _ _ _ _ _ Hx3 Hr3 Hv2) as Hv3.
  destruct (proj1 (proj2 Hr3) _ _ Hmemo) as [[Hes _] _].
  apply rbind_ok in Hf as (res' & Hf & _). intros e He%Hes Hk.
  eapply (for_each_step _ (fun st => walk_inv pages lim (fun _ => True) st.1)) in Hf
    as ([w a] & st2 & Hw & Hstep); [| |exact Hv3|exact He].
  - unfold walk_entry in Hstep. inv_ok. rewrite bool_decide_true in Hstep by done. by eapply IH.
  - intros [w a] e' [w' a'] _ Hw Hstep. simpl in *.
    apply (walk_entry_ok pages lim now (fun _ => True)) in Hstep as [(Hw' & _) _]; [done| |done|done].
    apply walk_directory_ok.
Qed.

Section Theorems.
Context `{HexCrate} `{PageCodec} `{CodecScope} `{DescriptorCodec} `{ServingCodec} `{UuidCrate}.

(** What the summaries rely on, established by the accepting walk. *)
Lemma validated_facts d pages c v :
  Btree.ordered pages -> validate_pages_bounded d pages usize_max usize_max None (fun _ => 0) = Ok (c, v) ->
  let D r := exists p, dir_from pages "" (metadata_root d) p r in
  (forall id, decoded v !! id = page_at pages id) /\
  (forall root es, entries v !! root = Some es -> partition pages root es) /\
  (forall r, D r -> shallow pages (walk_fuel pages) r /\ below_dirs pages D r) /\
  (forall r, D r -> is_Some (entries v !! r) /\ forall x, below pages r x -> is_Some (page_at pages x)).
Proof using Type.
  intros Hord Hv D.
  pose proof (validated _ _ _ _ _ _ _ _ Hord Hv) as (Hw & _ & _ & _ & Hnames & _ & Hent & _).
  destruct Hw as ((Hdec & Hm & Hr) & _). split_and!; [done|intros root es Hes; apply (Hm _ _ Hes)| |].
  - assert (Hroot : shallow pages (walk_fuel pages) (metadata_root d)).
    { unfold validate_pages_bounded in Hv. apply rbind_ok in Hv as (db & _ & Hv). cbv zeta in Hv.
      apply rbind_ok in Hv as (v0 & Hn & Hv). apply (new_bounded_ok (fun _ => True)) in Hn as (Hv0 & _); [|done].
      apply rbind_ok in Hv as (res & Hwalk & _). by eapply walk_shallow. }
    intros r [p Hd]. split; [exact (shallow_dir _ _ _ _ _ _ Hd Hroot)|]. split.
    + intros q s e Hq He. destruct (dir_from_sub _ _ _ _ _ _ Hd Hq) as [q' Hq']. by eapply Hnames.
    + intros q s Hq. by eapply dir_from_sub.
  - intros r [p Hd]. destruct (Hent p r Hd) as [es Hes]. split; [by exists es|].
    intros x Hx. destruct (Hm r es Hes) as [_ Hb]. by destruct (Hr x (Hb x Hx)).
Qed.

Lemma summaries_ok pages v fuel page_fuel D roots memo :
  (forall id, decoded v !! id = page_at pages id) ->
  (forall root es, entries v !! root = Some es -> partition pages root es) ->
  (forall r, r ∈ roots -> below_dirs pages D r) ->
  for_each (fun memo root => let? ' (_, memo) := subtree_facts v fuel page_fuel root memo in Ok memo)
    ∅ roots = Ok memo ->
  memo_ok pages D memo /\ forall r, r ∈ roots -> is_Some (memo !! r).
Proof using Type.
  intros Hdec Hent.
  assert (Hgen : forall memo0, (forall r, r ∈ roots -> below_dirs pages D r) -> memo_ok pages D memo0 ->
    for_each (fun memo root => let? ' (_, memo) := subtree_facts v fuel page_fuel root memo in Ok memo)
      memo0 roots = Ok memo ->
    memo_ok pages D memo /\ dom memo0 ⊆ dom memo /\ forall r, r ∈ roots -> is_Some (memo !! r)).
  { induction roots as [|r roots IH]; intros memo0 HD Hm Hf; cbn [for_each] in Hf.
    { simplify_eq. split_and!; [done|done|by intros ? ?%not_elem_of_nil]. }
    apply rbind_ok in Hf as (memo1 & Hone & Hf). apply rbind_ok in Hone as ([f m1] & Hone & E). simplify_eq.
    pose proof (subtree_facts_grows _ _ _ _ _ _ Hone) as Hg. simpl in Hg.
    apply (subtree_facts_ok pages v Hdec Hent D) in Hone as [Hm1 Hl]; [|apply HD; left|done].
    apply IH in Hf as (Hm' & Hg' & Hall); [|intros; apply HD; by right|done].
    split_and!; [done|set_solver|]. intros r' [->|?]%elem_of_cons; [|auto].
    apply elem_of_dom, Hg', elem_of_dom. by exists f. }
  intros HD Hf. apply Hgen in Hf as (? & _ & ?); [done|done|]. intros r f Hr. by rewrite lookup_empty in Hr.
Qed.

Lemma fact_roots_ok d pages c v :
  Btree.ordered pages -> validate_pages_bounded d pages usize_max usize_max None (fun _ => 0) = Ok (c, v) ->
  forall r, r ∈ fact_roots (vc_directories c) <-> exists p, dir_from pages "" (metadata_root d) p r.
Proof using Type.
  intros Hord Hv r. pose proof (closure_dirs _ _ _ _ _ _ _ _ Hord Hv) as Hd.
  unfold fact_roots. rewrite elem_sorted_set, elem_of_list_to_set, list_elem_of_fmap. setoid_rewrite <- Hd. split.
  - intros ([p r'] & -> & Hin). by exists p.
  - intros (p & Hp). by exists (mkDir p r).
Qed.

(** The stored summaries are exact. For an accepted closure the summaries are
    one per directory root, in order, and each lists exactly the pages of that
    directory and of the directories below it, exactly the files below it by
    relative path, and the number of entries below it. *)
Lemma subtree_facts_exact d pages c facts :
  Btree.ordered pages -> with_subtree_facts d pages = Ok (c, facts) ->
  from_pages d pages = Ok c /\ Forall (fact_ok pages) facts /\
  StronglySorted str_lt (root_page_id <$> facts) /\
  (forall r, r ∈ root_page_id <$> facts <-> exists p, dir_from pages "" (metadata_root d) p r).
Proof using Type.
  intros Hord Hf. unfold with_subtree_facts in Hf. apply rbind_ok in Hf as ([c' v] & Hv & Hf).
  apply rbind_ok in Hf as (memo & Hmemo & Hf). simplify_eq.
  pose proof (validated_facts _ _ _ _ Hord Hv) as (Hdec & Hent & HD & _). cbv zeta in HD.
  set (D := fun r => exists p, dir_from pages "" (metadata_root d) p r) in *.
  assert (Hm : memo_ok pages D memo /\ forall r, r ∈ fact_roots (vc_directories c) -> is_Some (memo !! r)).
  { eapply (summaries_ok pages v); eauto. intros r Hr. apply HD. by apply (fact_roots_ok d pages c v). }
  destruct Hm as [Hm Hall].
  assert (Hroots : root_page_id <$> (snd <$> map_to_list memo) = (fst <$> map_to_list memo)).
  { rewrite <- list_fmap_compose. apply list_fmap_ext. intros i [r f] Hi. simpl.
    apply list_elem_of_lookup_2, elem_of_map_to_list, Hm in Hi as (<- & _). done. }
  split_and!; [unfold from_pages; by rewrite Hv| | |].
  - rewrite sort_by_perm. apply Forall_fmap, List.Forall_forall. intros [r f] Hin%list_elem_of_In. simpl.
    apply elem_of_map_to_list, Hm in Hin as (_ & _ & ?). done.
  - apply sort_by_strict. rewrite Hroots. apply NoDup_fst_map_to_list.
  - intros r. rewrite sort_by_perm, Hroots, list_elem_of_fmap. split.
    + intros ([r' f] & -> & Hin). apply elem_of_map_to_list, Hm in Hin as (_ & HDr & _). done.
    + intros Hr. apply (fact_roots_ok d pages c v Hord Hv), Hall in Hr as [f Hf]. exists (r, f).
      split; [done|by apply elem_of_map_to_list].
Qed.

(** The summaries always end. *)
Lemma facts_clean d pages :
  Btree.ordered pages -> 0 <= PAGE_MAX_DEPTH -> clean (with_subtree_facts d pages).
Proof using Type.
  intros Hord Hmax. unfold with_subtree_facts.
  apply clean_bind; [by apply validate_clean|]. intros [c v] Hv. apply clean_bind; [|done].
  pose proof (validated_facts _ _ _ _ Hord Hv) as (Hdec & Hent & HD & Hall). cbv zeta in HD, Hall.
  set (D := fun r => exists p, dir_from pages "" (metadata_root d) p r) in *.
  apply (clean_for_each _ (memo_ok pages D)).
  - intros memo r Hr Hm. apply (fact_roots_ok d pages c v Hord Hv) in Hr. destruct (HD r Hr) as [Hsh Hbd].
    apply clean_bind; [|by intros [f m] _].
    apply (subtree_facts_clean pages v Hdec Hent D); [done|unfold walk_fuel; lia|done|done|done].
  - intros memo r memo' Hr Hm Hstep. apply (fact_roots_ok d pages c v Hord Hv) in Hr.
    apply rbind_ok in Hstep as ([f m] & Hstep & E). simplify_eq.
    apply (subtree_facts_ok pages v Hdec Hent D) in Hstep as [? _]; [done|by apply HD|done].
  - intros r f Hr. by rewrite lookup_empty in Hr.
Qed.

(** C33: proving a closure always ends in a closure or a client error. For every
    page map, limit and clock, the walk and the summaries never index a missing
    page and never exceed the recursion bounds of the model: the radix depth of
    the codec for a partition, and one level per stored page otherwise. *)
Theorem closure_total d pages mn mb dl now :
  Btree.ordered pages -> 0 <= PAGE_MAX_DEPTH ->
  clean (validate_pages_bounded d pages mn mb dl now) /\ clean (with_subtree_facts d pages).
Proof using Type. intros Hord Hmax. split; [by apply validate_clean|by apply facts_clean]. Qed.
End Theorems.
End ClosureFacts.
