(* ===== verification/ClosureTree.v ===== *)
(** * ClosureTree

    A snapshot as the tree its pages unfold to. A node is one page of a logical
    directory: the files it lists itself, the directories it lists, each with
    the tree of its root page, and the other pages of the same directory below
    it. Every walk over a snapshot, the validator of [Closure] and the walks of
    the incremental refresh, visits exactly these nodes; the lemmas here give
    the tree of an accepted closure. *)

From Stdlib Require Import Sorted.
From S2P Require Import Prelude Types Faults Text Profile Btree Frames Wire Closure ClosureExact.
Import Digests Scope Closure ClosureExact.
Local Open Scope string_scope.
Local Open Scope list_scope.
Local Open Scope Z_scope.

Module ClosureTree.

#[local] Unset Elimination Schemes.
Inductive tree : Type :=
  | Tree (name id : string) (own : list (string * Entry)) (dirs subs : list tree).
#[local] Set Elimination Schemes.

Definition t_name (t : tree) : string := let (n, _, _, _, _) := t in n.
Definition t_id (t : tree) : string := let (_, i, _, _, _) := t in i.

(** Induction with the hypothesis for every node in the two lists. *)
Section Induction.
Context (P : tree -> Prop)
  (Hnode : forall name id own dirs subs, Forall P dirs -> Forall P subs -> P (Tree name id own dirs subs)).

Fixpoint tree_induction (t : tree) : P t :=
  let fix all (l : list tree) : Forall P l :=
    match l with
    | [] => List.Forall_nil P
    | t :: l => @List.Forall_cons _ P t l (tree_induction t) (all l)
    end in
  match t with Tree name id own dirs subs => Hnode name id own dirs subs (all dirs) (all subs) end.
End Induction.

Definition all (P : tree -> Prop) (l : list tree) : Prop := foldr (fun t acc => P t /\ acc) True l.

Lemma all_Forall P l : all P l <-> Forall P l.
Proof. induction l as [|t l IH]; simpl; [by split; [constructor|]|]. by rewrite IH, list.Forall_cons. Qed.

(** ** What a tree lists *)

Section Contents.
Context `{HexCrate}.

(** The files at and below a directory with path [rel]. *)
Fixpoint files_at (rel : string) (t : tree) : list SnapshotFile :=
  let (_, _, own, dirs, subs) := t in
  ((fun ne => file_of (join_path rel ne.1) ne.2) <$> own)
  ++ concat ((fun d => files_at (join_path rel (t_name d)) d) <$> dirs)
  ++ concat (files_at rel <$> subs).

(** The directories strictly below. *)
Fixpoint dirs_below (rel : string) (t : tree) : list SnapshotDirectory :=
  let (_, _, _, dirs, subs) := t in
  concat ((fun d => mkDir (join_path rel (t_name d)) (t_id d) :: dirs_below (join_path rel (t_name d)) d) <$> dirs)
  ++ concat (dirs_below rel <$> subs).

(** The pages, and the number of entries. *)
Fixpoint pages_of (t : tree) : list string :=
  let (_, id, _, dirs, subs) := t in id :: concat (pages_of <$> dirs) ++ concat (pages_of <$> subs).

Definition total (f : tree -> Z) (l : list tree) : Z := foldr (fun t acc => f t + acc) 0 l.
Fixpoint count_of (t : tree) : Z :=
  let (_, _, own, dirs, subs) := t in
  zlen own + total (fun d => 1 + count_of d) dirs + total count_of subs.

(** The number of nodes. *)
Definition total_nat (f : tree -> nat) (l : list tree) : nat := foldr (fun t acc => f t + acc)%nat 0%nat l.
Fixpoint weight (t : tree) : nat :=
  let (_, _, _, dirs, subs) := t in S (total_nat weight dirs + total_nat weight subs).
End Contents.

(** ** Trees of a set of pages *)

Definition page_entries (pg : Page) : list Entry :=
  match pg with Leaf es => es | Branch _ terminal _ => option_list terminal end.
Definition page_children `{HexCrate} (pg : Page) : list string :=
  match pg with Leaf _ => [] | Branch _ _ children => (fun c => digest (child_page_id c)) <$> children end.

Definition named (e : Entry) : option (string * Entry) := n ← from_utf8 (ent_name e); Some (n, e).
Definition is_dir (ne : string * Entry) : Prop := ent_kind ne.2 = EDirectory.
#[export] Instance is_dir_dec ne : Decision (is_dir ne).
Proof. unfold is_dir. apply _. Defined.

Section Grows.
Context `{HexCrate} `{PageCodec} `{CodecScope}.
Context (pages : list (string * bytes)).

(** [t] is the tree that the page it names unfolds to. *)
Fixpoint grows (t : tree) : Prop :=
  let (_, id, own, dirs, subs) := t in
  (exists pg nes, page_at pages id = Some pg /\ mapM named (page_entries pg) = Some nes /\
     own = filter (fun ne => ~ is_dir ne) nes /\
     (fun d => (t_name d, t_id d)) <$> dirs = (fun ne => (ne.1, digest (child_root ne.2))) <$> filter is_dir nes /\
     t_id <$> subs = page_children pg) /\
  all grows dirs /\ all grows subs.

Lemma grows_inv name id own dirs subs :
  grows (Tree name id own dirs subs) <->
  (exists pg nes, page_at pages id = Some pg /\ mapM named (page_entries pg) = Some nes /\
     own = filter (fun ne => ~ is_dir ne) nes /\
     (fun d => (t_name d, t_id d)) <$> dirs = (fun ne => (ne.1, digest (child_root ne.2))) <$> filter is_dir nes /\
     t_id <$> subs = page_children pg) /\
  Forall grows dirs /\ Forall grows subs.
Proof using Type. cbn [grows]. by rewrite !all_Forall. Qed.

(** ** The tree of an accepted closure *)

(** The page tree of one directory, as the validator visits it. *)
#[local] Unset Elimination Schemes.
Inductive skel : Type := Skel (id : string) (es : list Entry) (subs : list skel).
#[local] Set Elimination Schemes.
Definition s_id (k : skel) : string := let (i, _, _) := k in i.

Fixpoint skel_entries (k : skel) : list Entry := let (_, es, subs) := k in es ++ concat (skel_entries <$> subs).

Fixpoint skel_ok (k : skel) : Prop :=
  let (id, es, subs) := k in
  (exists pg, page_at pages id = Some pg /\ es = page_entries pg /\ s_id <$> subs = page_children pg) /\
  foldr (fun k acc => skel_ok k /\ acc) True subs.

Section SkelInduction.
Context (P : skel -> Prop) (Hnode : forall id es subs, Forall P subs -> P (Skel id es subs)).

Fixpoint skel_induction (k : skel) : P k :=
  let fix go (l : list skel) : Forall P l :=
    match l with
    | [] => List.Forall_nil P
    | k :: l => @List.Forall_cons _ P k l (skel_induction k) (go l)
    end in
  match k with Skel id es subs => Hnode id es subs (go subs) end.
End SkelInduction.

Lemma skel_ok_inv id es subs :
  skel_ok (Skel id es subs) <->
  (exists pg, page_at pages id = Some pg /\ es = page_entries pg /\ s_id <$> subs = page_children pg) /\
  Forall skel_ok subs.
Proof using Type.
  cbn [skel_ok]. assert (foldr (fun k acc => skel_ok k /\ acc) True subs <-> Forall skel_ok subs) as ->; [|done].
  induction subs as [|k l IH]; simpl; [by split; [constructor|]|]. by rewrite IH, list.Forall_cons.
Qed.

(** The entries of a directory and the trees of its directories. *)
Definition planted (ne : string * Entry) (d : tree) : Prop :=
  t_name d = ne.1 /\ t_id d = digest (child_root ne.2) /\ grows d.

Definition own_files (rel : string) (nes : list (string * Entry)) : list SnapshotFile :=
  (fun ne => file_of (join_path rel ne.1) ne.2) <$> filter (fun ne => ~ is_dir ne) nes.
Definition sub_files (rel : string) (ts : list tree) : list SnapshotFile :=
  concat ((fun d => files_at (join_path rel (t_name d)) d) <$> ts).
Definition sub_dirs (rel : string) (ts : list tree) : list SnapshotDirectory :=
  concat ((fun d => mkDir (join_path rel (t_name d)) (t_id d) :: dirs_below (join_path rel (t_name d)) d) <$> ts).

Definition grafted (k : skel) (nes : list (string * Entry)) (ts : list tree) (t : tree) : Prop :=
  t_id t = s_id k /\ grows t /\
  (forall rel, dirs_below rel t ≡ₚ sub_dirs rel ts) /\
  (forall rel, files_at rel t ≡ₚ own_files rel nes ++ sub_files rel ts) /\
  (forall x, x ∈ pages_of t <-> below pages (s_id k) x \/ x ∈ concat (pages_of <$> ts)) /\
  count_of t = zlen nes + total count_of ts.

Lemma total_app (f : tree -> Z) l l' : total f (l ++ l') = total f l + total f l'.
Proof using Type. induction l as [|t l IH]; simpl; [done|]. rewrite IH. lia. Qed.

Lemma total_succ (f : tree -> Z) l : total (fun d => 1 + f d) l = zlen l + total f l.
Proof using Type. induction l as [|x l IH]; [done|]. unfold zlen in *. simpl. rewrite IH. lia. Qed.

Lemma below_inv id pg x :
  page_at pages id = Some pg -> below pages id x <-> x = id \/ exists c, c ∈ page_children pg /\ below pages c x.
Proof using Type.
  intros Hpg. split.
  - intros [|prefix terminal children c y Hp Hc Hb]; [by left|right]. assert (pg = Branch prefix terminal children) as -> by congruence.
    exists (digest (child_page_id c)). split; [|done]. by apply (list_elem_of_fmap_2 (fun c => digest (child_page_id c))).
  - intros [->|(c & Hc & Hb)]; [constructor|]. destruct pg as [es|prefix terminal children]; simpl in Hc; [by apply not_elem_of_nil in Hc|].
    apply list_elem_of_fmap in Hc as (ch & -> & Hc). by eapply below_child.
Qed.

Lemma zlen_split (nes : list (string * Entry)) (ts : list tree) :
  Forall2 planted (filter is_dir nes) ts -> zlen (filter (fun ne => ~ is_dir ne) nes) + zlen ts = zlen nes.
Proof using Type.
  intros Hp%Forall2_length. unfold zlen. rewrite <- Hp. clear Hp. induction nes as [|ne nes IH]; [done|].
  rewrite !filter_cons. destruct (decide (is_dir ne)), (decide (~ is_dir ne)); try tauto; simpl; lia.
Qed.

Lemma graft_all subs nes ts :
  Forall (fun k => forall name nes ts, skel_ok k -> mapM named (skel_entries k) = Some nes ->
     Forall2 planted (filter is_dir nes) ts -> exists t, t_name t = name /\ grafted k nes ts t) subs ->
  Forall skel_ok subs -> mapM named (concat (skel_entries <$> subs)) = Some nes ->
  Forall2 planted (filter is_dir nes) ts ->
  exists ss, t_id <$> ss = s_id <$> subs /\ Forall grows ss /\
    (forall rel, concat (dirs_below rel <$> ss) ≡ₚ sub_dirs rel ts) /\
    (forall rel, concat (files_at rel <$> ss) ≡ₚ own_files rel nes ++ sub_files rel ts) /\
    (forall x, x ∈ concat (pages_of <$> ss) <->
       (exists k, k ∈ s_id <$> subs /\ below pages k x) \/ x ∈ concat (pages_of <$> ts)) /\
    total count_of ss = zlen nes + total count_of ts.
Proof using Type.
  intros Hall Hok. revert nes ts Hall. induction subs as [|k subs IH]; intros nes ts Hall Hn Hp.
  { apply mapM_Some, Forall2_nil_inv_l in Hn as ->. apply Forall2_nil_inv_l in Hp as ->. exists []. split_and!; [done|constructor|done|done| |done].
    intros x. simpl. set_solver. }
  apply list.Forall_cons in Hall as [Hone Hrest]. apply list.Forall_cons in Hok as [Hk Hok].
  simpl in Hn. apply mapM_Some in Hn.
  apply Forall2_app_inv_l in Hn as (n1 & n2 & Hn1 & Hn2 & ->). rewrite <- mapM_Some in Hn1, Hn2.
  rewrite list.filter_app in Hp. apply Forall2_app_inv_l in Hp as (t1 & t2 & Hp1 & Hp2 & ->).
  destruct (Hone "" n1 t1 Hk Hn1 Hp1) as (t & _ & Hid & Hg & Hd & Hf & Hpg & Hct).
  destruct (IH Hok n2 t2 Hrest Hn2 Hp2) as (ss & Eid & Hgs & Hds & Hfs & Hpgs & Hcts).
  exists (t :: ss). unfold own_files, sub_files, sub_dirs in *. split_and!.
  - by rewrite !fmap_cons, Hid, Eid.
  - by constructor.
  - intros rel. by rewrite fmap_cons, concat_cons, fmap_app, concat_app, Hd, Hds.
  - intros rel. rewrite fmap_cons, concat_cons, Hf, Hfs, list.filter_app, !fmap_app, concat_app. solve_Permutation.
  - intros x. rewrite !fmap_cons, concat_cons, fmap_app, concat_app, !elem_of_app, Hpg, Hpgs. setoid_rewrite elem_of_cons.
    split; [|intros [(j & [->|Hj] & Hb)|[?|?]]; eauto 6]. intros [[?|?]|[(j & Hj & Hb)|?]]; eauto 6.
  - simpl. rewrite Hct, Hcts, total_app, zlen_app. lia.
Qed.

Lemma graft k name nes ts :
  skel_ok k -> mapM named (skel_entries k) = Some nes -> Forall2 planted (filter is_dir nes) ts ->
  exists t, t_name t = name /\ grafted k nes ts t.
Proof using Type.
  revert name nes ts. induction k as [id es subs IH] using skel_induction. intros name nes ts Hk Hn Hp.
  apply skel_ok_inv in Hk as [(pg & Hpg & -> & Hsubs) Hok]. simpl in Hn. apply mapM_Some in Hn.
  apply Forall2_app_inv_l in Hn as (n1 & n2 & Hn1 & Hn2 & ->). rewrite <- mapM_Some in Hn1, Hn2.
  rewrite list.filter_app in Hp. apply Forall2_app_inv_l in Hp as (t1 & t2 & Hp1 & Hp2 & ->).
  destruct (graft_all subs n2 t2 IH Hok Hn2 Hp2) as (ss & Eid & Hgs & Hds & Hfs & Hpgs & Hcts).
  exists (Tree name id (filter (fun ne => ~ is_dir ne) n1) t1 ss). split; [done|].
  unfold grafted. split_and!; [done| | | | |].
  - apply grows_inv. split_and!; [|by eapply Forall2_Forall_r; [exact Hp1|]; apply Forall_true; intros ? ? (?&?&?)|done].
    exists pg, n1. split_and!; [done|done|done| |congruence].
    clear - Hp1. induction Hp1 as [|ne d l l' (E1 & E2 & _) _ IH]; [done|]. by rewrite !fmap_cons, E1, E2, IH.
  - intros rel. unfold sub_dirs in *. cbn [dirs_below]. by rewrite fmap_app, concat_app, Hds.
  - intros rel. unfold own_files, sub_files in *. cbn [files_at]. rewrite Hfs, list.filter_app, !fmap_app, concat_app.
    solve_Permutation.
  - intros x. cbn [pages_of s_id]. rewrite (below_inv id pg) by done. rewrite elem_of_cons, fmap_app, concat_app, !elem_of_app, Hpgs, Hsubs.
    tauto.
  - cbn [count_of]. rewrite total_succ, Hcts, total_app, zlen_app, <- (zlen_split n1 t1) by done. lia.
Qed.

(** ** The validator visits the tree *)

Context (lim : ProofLimits) (now : nat -> Z).
Abbreviation anything := (fun _ : string => True).

(** The memo of the validator holds the entries of page trees. *)
Definition memo_tree (v : ClosureValidator) : Prop :=
  forall id es, entries v !! id = Some es -> exists k, s_id k = id /\ skel_ok k /\ es ≡ₚ skel_entries k.

Definition visits_tree (visit : string -> ClosureValidator -> gset string ->
    Run (list Entry * ClosureValidator * gset string)) (id : string) : Prop :=
  forall v active es v' active', radix_inv pages anything v -> memo_tree v ->
  visit id v active = Ok (es, v', active') ->
  radix_inv pages anything v' /\ memo_tree v' /\ entries v' !! id = Some es.

Lemma add_children_tree visit children es v active es' v' active' :
  Forall (fun c => visits_tree visit (digest (child_page_id c))) children ->
  radix_inv pages anything v -> memo_tree v ->
  for_each (add_child lim now visit) (es, v, active) children = Ok (es', v', active') ->
  radix_inv pages anything v' /\ memo_tree v' /\
  exists ks, s_id <$> ks = (fun c => digest (child_page_id c)) <$> children /\ Forall skel_ok ks /\
    es' ≡ₚ es ++ concat (skel_entries <$> ks).
Proof using Type.
  revert es v active. induction children as [|c cs IH]; intros es v active Hvis Hv Hm Hf; cbn [for_each] in Hf.
  { simplify_eq. split_and!; [done|done|]. exists []. split_and!; [done|constructor|]. simpl. by rewrite app_nil_r. }
  apply list.Forall_cons in Hvis as [Hc Hvis]. apply rbind_ok in Hf as ([[es1 v1] a1] & Hone & Hf).
  unfold add_child in Hone. apply rbind_ok in Hone as ([[ces v0] a0] & Hvisit & Hone).
  apply Hc in Hvisit as (Hv0 & Hm0 & He); [|done..]. inv_ok. simplify_eq.
  match goal with Ha : admit_allocation _ _ _ _ = Ok _ |- _ => apply admit_allocation_ok in Ha; rename Ha into Hch end.
  pose proof (radix_inv_charged _ _ _ _ _ Hch Hv0) as Hv1.
  assert (Hm1 : memo_tree v1) by (intros id es0 Hes; apply Hm0; by rewrite <- (proj1 (proj2 Hch))).
  apply IH in Hf as (Hr & Hmr & ks & Eks & Hok & Hes); [|done..].
  destruct (Hm0 _ _ He) as (k & Ek & Hk & Hces). split_and!; [done|done|]. exists (k :: ks). split_and!.
  - by rewrite !fmap_cons, Ek, Eks.
  - by constructor.
  - by rewrite Hes, fmap_cons, concat_cons, Hces, app_assoc.
Qed.

Lemma radix_entries_tree fuel id depth :
  visits_tree (fun id => radix_entries pages lim now fuel id depth) id.
Proof using Type.
  revert id depth. induction fuel as [|fuel IH]; intros id depth v active es v' active' Hv Hm Hf; [done|].
  pose proof (radix_entries_ok pages lim now anything (S fuel) id depth v active (es, v', active') Hv
    (fun _ _ => I) Hf) as (Hv' & _ & He). split; [done|]. split; [|done].
  cbn [radix_entries] in Hf. apply rbind_ok in Hf as (v1 & Hd & Hf). apply check_deadline_ok in Hd.
  pose proof (radix_inv_charged _ _ _ _ _ Hd Hv) as Hv1. destruct Hd as (_ & Ee1 & _).
  apply reject_ok in Hf as [_ Hf]. destruct (entries v1 !! id) as [es0|] eqn:Hmemo.
  { simplify_eq. intros j ej Hj. apply Hm. by rewrite <- Ee1. }
  apply reject_ok in Hf as [_ Hf]. cbv zeta in Hf.
  apply rbind_ok in Hf as (v2 & Ha & Hf). apply admit_allocation_ok in Ha.
  pose proof (radix_inv_charged _ _ _ _ _ Ha Hv1) as Hv2. destruct Ha as (_ & Ee2 & _).
  apply rbind_ok in Hf as (page & Hp & Hf). apply ok_or_ok in Hp.
  assert (Hpage : page_at pages id = Some page) by (by rewrite <- (proj1 Hv2)).
  set (v3 := set_reached ({[id]} ∪ reached v2) v2) in Hf.
  assert (Hv3 : radix_inv pages anything v3).
  { destruct Hv2 as (Hi & Hp2 & Hr). split_and!; simpl; [done| |].
    - intros j ej Hj. destruct (Hp2 j ej Hj) as [? Hb]. split; [done|]. intros x Hx. set_solver.
    - intros x [->%elem_of_singleton|?]%elem_of_union; [|auto]. split; [done|by exists page]. }
  assert (Hm3 : memo_tree v3) by (intros j ej Hj; apply Hm; cbn in Hj; congruence).
  apply rbind_ok in Hf as ([[es1 v4] a4] & Hb & Hf).
  assert (Hbody : memo_tree v4 /\ exists k, s_id k = id /\ skel_ok k /\ es1 ≡ₚ skel_entries k).
  { destruct page as [les|prefix terminal children].
    - simplify_eq. split; [done|]. exists (Skel id es1 []). split; [done|]. rewrite skel_ok_inv. simpl.
      rewrite app_nil_r. split; [|done]. split; [by exists (Leaf es1)|constructor].
    - apply add_children_tree in Hb as (_ & Hm4 & ks & Eks & Hok & Hes); [| |done|done].
      2:{ apply Forall_true. intros c. by apply IH. }
      split; [done|]. exists (Skel id (option_list terminal) ks). split; [done|]. rewrite skel_ok_inv.
      split; [|done]. split; [by exists (Branch prefix terminal children)|done]. }
  destruct Hbody as (Hm4 & k & Ek & Hk & Hes1). inv_ok. simplify_eq.
  match goal with Ha : admit_allocation _ _ _ _ = Ok _ |- _ => apply admit_allocation_ok in Ha as (_ & Ee5 & _) end.
  intros j ej. simpl. rewrite lookup_insert_Some. intros [[<- <-]|[_ Hj]]; [|apply Hm4; congruence].
  exists k. split_and!; [done|done|]. by rewrite sort_by_perm.
Qed.

(** What a walk adds for the entries [nes], whose directories have the trees
    [ts]. *)
Definition adds (rel : string) (nes : list (string * Entry)) (ts : list tree) (v v' : ClosureValidator) : Prop :=
  Forall2 planted (filter is_dir nes) ts /\
  directories v' ≡ₚ directories v ++ sub_dirs rel ts /\
  files v' ≡ₚ files v ++ own_files rel nes ++ sub_files rel ts.

Lemma adds_app rel nes nes' ts ts' v v1 v2 :
  adds rel nes ts v v1 -> adds rel nes' ts' v1 v2 -> adds rel (nes ++ nes') (ts ++ ts') v v2.
Proof using Type.
  intros (Hp & Hd & Hf) (Hp' & Hd' & Hf'). unfold adds, own_files, sub_files, sub_dirs in *.
  rewrite !list.filter_app, Hd', Hf', Hd, Hf, !fmap_app, !concat_app.
  split_and!; [by apply Forall2_app|by rewrite app_assoc|solve_Permutation].
Qed.

Definition walks_tree (walk : string -> string -> ClosureValidator -> gset string -> Run (ClosureValidator * gset string))
    : Prop :=
  forall name rel root v active v' active', walk_inv pages lim anything v -> memo_tree v ->
  walk rel root v active = Ok (v', active') ->
  walk_inv pages lim anything v' /\ memo_tree v' /\
  exists t, t_name t = name /\ t_id t = root /\ grows t /\
    directories v' ≡ₚ directories v ++ mkDir rel root :: dirs_below rel t /\
    files v' ≡ₚ files v ++ files_at rel t.

Lemma walk_entries_tree scope rel walk es v active v' active' :
  walks_tree walk -> walk_inv pages lim anything v -> memo_tree v ->
  for_each (walk_entry lim now scope rel walk) (v, active) es = Ok (v', active') ->
  walk_inv pages lim anything v' /\ memo_tree v' /\
  exists nes ts, mapM named es = Some nes /\ adds rel nes ts v v'.
Proof using Type.
  intros Hwalk. revert v active. induction es as [|e es IH]; intros v active Hv Hm Hf; cbn [for_each] in Hf.
  { simplify_eq. split_and!; [done|done|]. exists [], []. split; [done|]. split_and!; [constructor|..];
      unfold own_files, sub_files, sub_dirs; simpl; by rewrite app_nil_r. }
  apply rbind_ok in Hf as ([v1 a1] & He & Hf).
  assert (Hone : walk_inv pages lim anything v1 /\ memo_tree v1 /\
    exists name ts, named e = Some (name, e) /\ adds rel [(name, e)] ts v v1).
  { unfold walk_entry in He. apply rbind_ok in He as (name & Hn & He). apply ok_or_ok in Hn. cbv zeta in He.
    apply rbind_ok in He as (u & _ & He). assert (Hne : named e = Some (name, e)) by (unfold named; by rewrite Hn).
    case_bool_decide as Hk.
    - apply (Hwalk name) in He as (Hv1 & Hm1 & t & En & Ei & Hg & Hd & Hfs); [|done..]. split_and!; [done|done|].
      exists name, [t]. split; [done|]. unfold adds, own_files, sub_files, sub_dirs.
      rewrite filter_cons_True, filter_nil by done. rewrite filter_cons_False, filter_nil by (intros Hx; by apply Hx).
      simpl. rewrite !app_nil_r, En, Ei. split_and!; [|done|done]. by constructor.
    - apply rbind_ok in He as (v2 & He & E). simplify_eq.
      apply (walk_file_ok pages lim now anything) in He as (Hv1 & Ed & Ef & Ee); [|done..].
      split_and!; [done|intros j ej Hj; apply Hm; congruence|].
      exists name, []. split; [done|]. unfold adds, own_files, sub_files, sub_dirs.
      rewrite filter_cons_False, filter_nil by done. rewrite filter_cons_True, filter_nil by done.
      simpl. rewrite !app_nil_r, Ed, Ef. by split_and!. }
  destruct Hone as (Hv1 & Hm1 & name & ts & Hne & Ha).
  apply IH in Hf as (Hv' & Hm' & nes & ts' & Hnes & Ha'); [|done..]. split_and!; [done|done|].
  exists ((name, e) :: nes), (ts ++ ts'). split.
  - simpl. by rewrite Hne, Hnes.
  - apply (adds_app rel [(name, e)] nes ts ts' v v1 v'); done.
Qed.

(** Entries in another order have the same trees in another order. *)
Lemma named_perm es es' nes ts :
  es ≡ₚ es' -> mapM named es = Some nes -> Forall2 planted (filter is_dir nes) ts ->
  exists nes' ts', mapM named es' = Some nes' /\ Forall2 planted (filter is_dir nes') ts' /\ nes ≡ₚ nes' /\ ts ≡ₚ ts'.
Proof using Type.
  intros Hes Hn Hp. apply mapM_Some in Hn. destruct (Permutation_Forall2 Hes Hn) as (nes' & Hnes & Hn').
  assert (Hfil : filter is_dir nes ≡ₚ filter is_dir nes') by (by rewrite Hnes).
  destruct (Permutation_Forall2 Hfil Hp) as (ts' & Hts & Hp').
  exists nes', ts'. split_and!; [by apply mapM_Some|done..].
Qed.

Lemma walk_directory_tree scope fuel :
  walks_tree (fun rel root v active => walk_directory pages lim now fuel scope rel root v active).
Proof using Type.
  induction fuel as [|fuel IH]; intros name rel root v active v' active' Hv Hm Hf; [done|].
  cbn [walk_directory] in Hf. apply rbind_ok in Hf as (v1 & Ha & Hf).
  apply admit_logical_path_ok in Ha as [Hc Hlt]. pose proof (walk_inv_charged _ _ _ _ _ Hc Hv) as Hv1.
  apply rbind_ok in Hf as (u & _ & Hf). apply reject_ok in Hf as [_ Hf].
  cbv zeta in Hf. apply reject_ok in Hf as [Hnew Hf]. apply bool_decide_eq_false in Hnew.
  destruct Hc as (Hx & Ee & _). pose proof Hx as (_ & Ep & _ & Ed & Ef & _).
  assert (Hv2 : walk_inv pages lim anything (push_directory (mkDir rel root) v1)).
  { apply push_directory_inv; [done|done|by rewrite Ep]. }
  assert (Hm2 : memo_tree (push_directory (mkDir rel root) v1)) by (intros j ej Hj; apply Hm; cbn in Hj; congruence).
  apply rbind_ok in Hf as ([es v3] & Hrad & Hf). unfold radix in Hrad.
  apply rbind_ok in Hrad as ([[es' v3'] a3] & Hrad & E). simplify_eq.
  pose proof (radix_entries_ok pages lim now anything _ _ _ _ _ _ (proj1 Hv2) (fun _ _ => I) Hrad) as (Hr3 & Hx3 & _).
  apply radix_entries_tree in Hrad as (_ & Hm3 & Hmemo); [|apply Hv2|done].
  pose proof (walk_inv_extends _ _ _ _ _ Hx3 Hr3 Hv2) as Hv3.
  apply rbind_ok in Hf as ([v4 a4] & Hf & E). simplify_eq.
  apply walk_entries_tree in Hf as (Hv4 & Hm4 & nes & ts & Hnes & Hp & Hd & Hfs); [|done..].
  split_and!; [done|done|]. destruct (Hm3 _ _ Hmemo) as (k & Ek & Hk & Hes).
  destruct (named_perm _ _ _ _ Hes Hnes Hp) as (nes' & ts' & Hnes' & Hp' & Pn & Pt).
  destruct (graft k name nes' ts' Hk Hnes' Hp') as (t & Hname & Hid & Hg & Hdt & Hft & _).
  exists t. split_and!; [done|congruence|done| |].
  - destruct Hx3 as (_ & _ & _ & Ed3 & _). rewrite Hd, Hdt, Ed3. simpl. rewrite Ed, <- app_assoc.
    unfold sub_dirs. by rewrite Pt.
  - destruct Hx3 as (_ & _ & _ & _ & Ef3 & _). rewrite Hfs, Hft, Ef3. simpl. rewrite Ef.
    unfold own_files, sub_files. by rewrite Pn, Pt.
Qed.
End Grows.

(** The validator's memo holds the page trees of directories, and an accepted
    closure is the listing of its tree, whose directories have different
    paths. *)
Lemma validated_tree `{HexCrate} `{PageCodec} `{CodecScope} `{DescriptorCodec} `{ServingCodec} `{UuidCrate} d pages mn mb dl now c v :
  Btree.ordered pages -> validate_pages_bounded d pages mn mb dl now = Ok (c, v) ->
  memo_tree pages v /\
  exists t, t_name t = "" /\ t_id t = metadata_root d /\ grows pages t /\
    vc_directories c ≡ₚ mkDir "" (metadata_root d) :: dirs_below "" t /\ vc_files c ≡ₚ files_at "" t /\
    NoDup ((dir_path <$> vc_directories c) ++ (rel_path <$> vc_files c)).
Proof.
  intros Hord Hv. pose proof (closure_within_limits _ _ _ _ _ _ _ _ Hord Hv) as (_ & Hnd & _).
  unfold validate_pages_bounded in Hv. apply rbind_ok in Hv as (db & _ & Hv). cbv zeta in Hv.
  apply rbind_ok in Hv as (v0 & Hn & Hv).
  assert (Hm0 : memo_tree pages v0).
  { unfold new_bounded in Hn. apply admit_pages_ok in Hn as (_ & _ & E & _); [|by apply Btree.ordered_nodup].
    intros id es Hes. rewrite E in Hes. cbn in Hes. by rewrite lookup_empty in Hes. }
  apply (new_bounded_ok (fun _ => True)) in Hn as (Hv0 & Ed & Ef & _ & _); [|done].
  apply rbind_ok in Hv as ([v1 a1] & Hw & Hv). apply reject_ok in Hv as [_ Hv]. simplify_eq.
  apply (walk_directory_tree pages _ _ _ _ "") in Hw as (_ & Hm & t & Hname & Hid & Hg & Hd & Hfs); [|done|done].
  split; [done|]. exists t. rewrite Ed in Hd. rewrite Ef in Hfs. cbn [vc_directories vc_files] in *.
  rewrite !sort_by_perm in *. by split_and!.
Qed.

Lemma closure_tree `{HexCrate} `{PageCodec} `{CodecScope} `{DescriptorCodec} `{ServingCodec} `{UuidCrate} d pages c :
  Btree.ordered pages -> from_pages d pages = Ok c ->
  exists t, t_name t = "" /\ t_id t = metadata_root d /\ grows pages t /\
    vc_directories c ≡ₚ mkDir "" (metadata_root d) :: dirs_below "" t /\ vc_files c ≡ₚ files_at "" t /\
    NoDup ((dir_path <$> vc_directories c) ++ (rel_path <$> vc_files c)).
Proof.
  intros Hord Hv. unfold from_pages in Hv. apply rbind_ok in Hv as ([c' v] & Hv & E). simplify_eq.
  by apply validated_tree in Hv as [_ Ht].
Qed.
End ClosureTree.
