(* ===== verification/Records.v ===== *)
(** * Records

    [src/snapshot/durable.rs] and [src/snapshot/workspace_pins.rs]: the records
    of the durable store, what they are checked for before they are written or
    believed, and the labels of hydration failures. [serde_json] is the class
    [Serde], one instance per record; error messages show a path without the
    quotes of its [Debug] form. *)

From Stdlib Require Import Sorted.
From S2P Require Import Prelude Types Faults Text Profile Btree Frames Wire Closure Disk.
Import Digests Closure.
Local Open Scope string_scope.
Local Open Scope list_scope.
Local Open Scope Z_scope.

(** Reading inverts writing. *)
Class Serde (T : Type) : Type := {
  to_json : T -> result string bytes;
  from_json : bytes -> result string T;
  json_round_trip : forall x b, to_json x = Ok b -> from_json b = Ok x;
}.

Module Records.

Definition VERIFICATION_REVISION : Z := 2.
Definition SNAPSHOT_VERIFICATION_REVISION : Z := 3.

Inductive CompletionKind : Type := FileClosure | FullSnapshot.
#[export] Instance CompletionKind_eq_dec : EqDecision CompletionKind.
Proof. solve_decision. Defined.

Record ViewMeta : Type := mkView {
  v_snapshot_id : string; v_namespace_view_id : string; v_scope : string; v_lease_id : string;
}.
#[export] Instance ViewMeta_eq_dec : EqDecision ViewMeta.
Proof. solve_decision. Defined.

Record BlobDependency : Type := mkBlob { b_digest : string; b_size : Z }.
#[export] Instance BlobDependency_eq_dec : EqDecision BlobDependency.
Proof. solve_decision. Defined.

Record PageDependency : Type := mkPage { p_page_id : string; p_size : Z }.
#[export] Instance PageDependency_eq_dec : EqDecision PageDependency.
Proof. solve_decision. Defined.

#[export] Instance OfflineGrant_eq_dec : EqDecision OfflineGrant.
Proof. solve_decision. Defined.

#[export] Instance SnapshotDirectory_eq_dec : EqDecision SnapshotDirectory.
Proof. solve_decision. Defined.

Record CompleteMarker : Type := mkMarker {
  m_revision : Z; m_kind : CompletionKind; m_snapshot_id : string; m_namespace_view_id : string;
  m_view_digest : string; m_manifest_digest : string; m_pin_digest : string; m_grant_digest : string;
  m_files : Z; m_bytes : Z; m_hydrated_at : Z;
}.

Record PinRecord : Type := mkPin {
  pin_revision : Z; pin_id : string; pin_snapshot_id : string; pin_namespace_view_id : string; pin_scope : string;
  pin_lease_id : string; pin_view_digest : string; pin_manifest_digest : string; pin_blobs : list BlobDependency;
  pin_grant_digest : string; pinned_at : Z;
}.

Record MetadataIndex : Type := mkIndex {
  i_revision : Z; i_pages : list PageDependency; i_directories : list SnapshotDirectory;
}.

Record MetadataCommit : Type := mkMetadataCommit {
  mc_descriptor_digest : string; mc_index_digest : string; mc_pages : list PageDependency;
}.

Record SnapshotPinRecord : Type := mkSnapshotPin {
  sp_revision : Z; sp_pin_id : string; sp_snapshot_id : string; sp_namespace_view_id : string; sp_scope : string;
  sp_lease_id : string; sp_view_digest : string; sp_manifest_digest : string; sp_descriptor_digest : string;
  sp_index_digest : string; sp_pages : list PageDependency; sp_blobs : list BlobDependency;
  sp_grant_digest : string; sp_pinned_at : Z;
}.

Record SnapshotCompleteMarker : Type := mkSnapshotMarker {
  sm_revision : Z; sm_kind : CompletionKind; sm_snapshot_id : string; sm_namespace_view_id : string;
  sm_view_digest : string; sm_manifest_digest : string; sm_descriptor_digest : string; sm_index_digest : string;
  sm_pin_digest : string; sm_grant_digest : string; sm_files : Z; sm_directories : Z; sm_pages : Z; sm_bytes : Z;
  sm_hydrated_at : Z;
}.

Record HydrateReport : Type := mkReport {
  r_snapshot_id : string; r_total_files : Z; r_fetched : Z; r_resumed : Z; r_repaired : Z; r_bytes_total : Z;
  r_complete : bool; r_kind : CompletionKind;
}.

Definition integrity_err (m : string) : SnapshotError := SnapshotError_new IntegrityError m.

(** [digest_of]. *)
Definition digest_of `{HexCrate} `{Sha256} (b : bytes) : string := "sha256:" ++ hex_encode (sha256 b).

(** ** Failure labels *)

Inductive HydrationSubstage : Type :=
  | MetadataClosure | CasResumeAudit | SmallObjectFetch | LargeContentFetch | LargeChunkMap | LargeChunkRead
  | LargeCasWrite | HydrationCommit | SnapshotLinks | DependencyAudit | HydrationTask.

Definition as_str (s : HydrationSubstage) : string :=
  match s with
  | MetadataClosure => "metadata_closure"
  | CasResumeAudit => "cas_resume_audit"
  | SmallObjectFetch => "small_object_fetch"
  | LargeContentFetch => "large_content_fetch"
  | LargeChunkMap => "large_chunk_map"
  | LargeChunkRead => "large_chunk_read"
  | LargeCasWrite => "large_cas_write"
  | HydrationCommit => "hydration_commit"
  | SnapshotLinks => "snapshot_links"
  | DependencyAudit => "dependency_audit"
  | HydrationTask => "hydration_task"
  end.

Definition substages : list (string * HydrationSubstage) :=
  [("metadata_closure", MetadataClosure); ("cas_resume_audit", CasResumeAudit);
   ("small_object_fetch", SmallObjectFetch); ("large_content_fetch", LargeContentFetch);
   ("large_chunk_map", LargeChunkMap); ("large_chunk_read", LargeChunkRead); ("large_cas_write", LargeCasWrite);
   ("hydration_commit", HydrationCommit); ("snapshot_links", SnapshotLinks);
   ("dependency_audit", DependencyAudit); ("hydration_task", HydrationTask)].

(** [HydrationSubstage::from_message]. *)
Definition from_message (m : string) : option HydrationSubstage := match_str m substages.

Definition tag_hydration_error (stage : HydrationSubstage) (e : SnapshotError) : SnapshotError :=
  match from_message (message e) with
  | None => SnapshotError_new (code e) (as_str stage)
  | Some _ => e
  end.

Definition hydration_error_label (e : SnapshotError) : option string := as_str <$> from_message (message e).

(** ** Views and manifests *)

Fixpoint contains_char (c : ascii) (s : string) : bool :=
  match s with
  | EmptyString => false
  | String x s => Ascii.eqb x c || contains_char c s
  end.

(** The components neither a scope nor a path may have. *)
Definition bad_component (full : bool) (part : string) : bool :=
  is_empty part || String.eqb part "." || String.eqb part ".." || (255 <? str_len part)
  || contains_char "000"%char part || (negb full && contains_char "\"%char part).

Definition validate_view_policy (v : ViewMeta) (full : bool) : Res unit :=
  reject? is_empty (v_snapshot_id v) || is_empty (v_namespace_view_id v) || is_empty (v_lease_id v)
          || negb (starts_with "/" (v_scope v)) || (4096 <? str_len (v_scope v))
          || (negb (String.eqb (v_scope v) "/")
              && existsb (bad_component full) (split_slash (default "" (strip_prefix "/" (v_scope v)))))
    with integrity_err "invalid fixed-view binding" in
  Ok tt.

Definition validate_view (v : ViewMeta) : Res unit := validate_view_policy v false.

Record manifest_state : Type := mkManifest { ms_paths : gset string; ms_blobs : list (string * Z); ms_total : Z }.

(** A canonical content digest. *)
Definition validate_digest (d : string) : Res unit :=
  let? hex := ok_or (strip_prefix "sha256:" d) (integrity_err "manifest digest lacks sha256 prefix") in
  reject? negb (str_len hex =? 64) || negb (forallb is_lower_hex (as_bytes hex))
    with integrity_err "manifest digest is not canonical SHA-256" in
  Ok tt.

(** One file of [validate_manifest_policy]. *)
Definition manifest_file (full : bool) (st : manifest_state) (f : SnapshotFile) : Res manifest_state :=
  let components := split_slash (rel_path f) in
  reject? (4096 <? str_len (rel_path f)) || (256 <? zlen components) || existsb (bad_component full) components
          || negb (one_of (file_kind f) ["file"; "regular"; "executable"; "symlink"])
          || bool_decide (rel_path f ∈ ms_paths st)
    with integrity_err ("invalid or duplicate file path/kind: " ++ rel_path f) in
  let? _ := validate_digest (file_digest f) in
  let '(old, blobs) := Btree.insert (ms_blobs st) (file_digest f) (file_size f) in
  reject? match old with Some s => negb (s =? file_size f) | None => false end
    with integrity_err "the same content digest has conflicting sizes" in
  let? total := ok_or (checked_add (ms_total st) (file_size f)) (integrity_err "manifest byte count overflow") in
  Ok (mkManifest ({[rel_path f]} ∪ ms_paths st) blobs total).

(** [path[..offset]] for every ['/'] of a path. *)
Fixpoint ancestors (s : string) : list string :=
  match s with
  | EmptyString => []
  | String c s => (if Ascii.eqb c "/" then [EmptyString] else []) ++ (String c <$> ancestors s)
  end.

Definition validate_manifest_policy (manifest : list SnapshotFile) (full : bool) : Res (list BlobDependency * Z) :=
  let? st := for_each (manifest_file full) (mkManifest ∅ [] 0) manifest in
  reject? existsb (fun p => existsb (fun a => bool_decide (a ∈ ms_paths st)) (ancestors p)) (elements (ms_paths st))
    with integrity_err "a manifest file is another file's ancestor" in
  Ok ((fun e => mkBlob e.1 e.2) <$> ms_blobs st, ms_total st).

Definition validate_manifest (manifest : list SnapshotFile) : Res (list BlobDependency * Z) :=
  validate_manifest_policy manifest false.

Definition validate_snapshot_view (v : ViewMeta) (c : ValidatedSnapshotClosure) : Res unit :=
  let d := vc_descriptor c in
  reject? negb (String.eqb (v_snapshot_id v) (snapshot_id d))
          || negb (String.eqb (v_namespace_view_id v) (namespace_view_id d)) || negb (String.eqb (v_scope v) (scope d))
    with SnapshotError_new DurableViewConflict "supplied view differs from the validated snapshot descriptor" in
  Ok tt.

(** The page dependencies of a closure. *)
Definition page_dependencies (c : ValidatedSnapshotClosure) : list PageDependency :=
  (fun p => mkPage p.1 (zlen p.2)) <$> vc_pages c.

(** ** Codecs *)

(** The records with their codecs, and the header every completion record and
    pin starts from: [completion_revision] reads the revision of any of them. *)
Class CommitCodec : Type := {
  view_json :: Serde ViewMeta;
  manifest_json :: Serde (list SnapshotFile);
  marker_json :: Serde CompleteMarker;
  pin_json :: Serde PinRecord;
  snapshot_marker_json :: Serde SnapshotCompleteMarker;
  snapshot_pin_json :: Serde SnapshotPinRecord;
  index_json :: Serde MetadataIndex;
  grant_json :: Serde OfflineGrant;
  header_json : bytes -> result string Z;
  header_marker : forall m b, to_json (T := CompleteMarker) m = Ok b -> header_json b = Ok (m_revision m);
  header_snapshot_marker : forall m b, to_json (T := SnapshotCompleteMarker) m = Ok b -> header_json b = Ok (sm_revision m);
}.

(** [decode_commit]. *)
Definition decode_commit {T} `{Serde T} (b : bytes) (name : string) : Res T :=
  map_err (fun e => integrity_err ("corrupt " ++ name ++ ": " ++ e)) (from_json b).

(** [encode_record]. *)
Definition encode_record {T} `{Serde T} (x : T) : Res bytes :=
  map_err (SnapshotError_new Internal) (to_json x).

Definition COMPLETE_MARKER : string := "DURABLE_COMPLETE".

Definition completion_revision `{CommitCodec} (b : bytes) : Res Z :=
  map_err (fun e => integrity_err ("corrupt " ++ COMPLETE_MARKER ++ ": " ++ e)) (header_json b).

Lemma encode_decode {T} `{Serde T} (x : T) b name : encode_record x = Ok b -> decode_commit b name = Ok x.
Proof.
  unfold encode_record, decode_commit. intros Hb%map_err_ok. by rewrite (json_round_trip _ _ Hb).
Qed.
End Records.
