(* ===== verification/Pins.v ===== *)
(** * Pins

    [src/snapshot/workspace_pins.rs]: the workspaces that own local retention
    claims. An owner record binds a store to its workspace, a registry entry
    says whether the claim is active, and a revocation record says that it is
    being or has been released; every completion check reads all three. What
    the directories of the host answer, and the pruning of the shared index,
    are gates. *)

From S2P Require Import Prelude Types Faults Text Profile Frames Wire Disk Records.
Import Digests Disk Records.
Local Open Scope string_scope.
Local Open Scope list_scope.
Local Open Scope Z_scope.

Module Pins.

Definition OWNER_FILE : string := "workspace.json".
Definition REVOKE_FILE : string := "LOCAL_PIN_REVOKE".
Definition VIEW_FILE : string := "view.json".
Definition PIN_FILE : string := "pin.json".
Definition REVISION : Z := 1.

Record WorkspaceBinding : Type := mkWorkspace {
  wb_revision : Z; workspace_id : string; wb_snapshot_id : string; wb_scope : string; auth_domain : string;
}.
#[export] Instance WorkspaceBinding_eq_dec : EqDecision WorkspaceBinding.
Proof. solve_decision. Defined.

Inductive RegistrationState : Type := Active | Released.
#[export] Instance RegistrationState_eq_dec : EqDecision RegistrationState.
Proof. solve_decision. Defined.

Record Registration : Type := mkRegistration { rg_binding : WorkspaceBinding; rg_state : RegistrationState }.

Inductive ReleasePhase : Type := Revoking | Revoked.

Record ReleaseRecord : Type := mkRelease {
  rl_binding : WorkspaceBinding; operation_id : string; phase : ReleasePhase;
}.

Record ReleaseLocalPinReceipt : Type := mkReceipt {
  receipt_workspace : string; receipt_snapshot : string; receipt_operation : string;
}.

(** The record [validate_authority] reads. *)
Record AuthorityRecord : Type := mkAuthority {
  au_revision : Z; au_domain : string; au_scope : string; au_snapshot : option string;
}.

Inductive LocalPinState : Type :=
  | Incomplete
  | Complete (kind : CompletionKind)
  | IsRevoking (operation_id : string)
  | IsRevoked (operation_id : string)
  | UnknownState.

(** Where a store is: the names of its root and of the directories above it,
    and whether its contents are those of that scope. *)
Record Location : Type := mkLocation { above : list string; shared_content : bool }.

Class PinCodec : Type := {
  binding_json :: Serde WorkspaceBinding;
  registration_json :: Serde Registration;
  release_json :: Serde ReleaseRecord;
  authority_json :: Serde AuthorityRecord;
}.

Definition integrity (m : string) : SnapshotError := SnapshotError_new IntegrityError m.
Definition io_error_of (e : io_error) : SnapshotError :=
  SnapshotError_new Internal
    (match e with NotFound => "entity not found" | AlreadyExists => "entity already exists" | OtherError m => m end).

Section Pins.
Context `{HexCrate} `{UuidCrate} `{CommitCodec} `{PinCodec} (env : environment) (at_ : Location).

Definition canonical_uuid (id : string) : Res unit :=
  let? parsed := ok_or (uuid_parse_str id) (integrity "invalid workspace operation UUID") in
  reject? uuid_is_nil parsed || negb (String.eqb (uuid_to_string parsed) id)
    with integrity "noncanonical workspace operation UUID" in
  Ok tt.

(** [read_record]. *)
Definition read_record {T} `{Serde T} (p : path) : M (option T) :=
  let* m := step env (do_metadata p) in
  match m with
  | Err NotFound => ret None
  | Err e => fail (io_error_of e)
  | Ok (is_file, len) =>
      guard* negb is_file with integrity "workspace record is not a regular file" in
      guard* 16 * 1024 <? len with integrity "workspace record exceeds its local size limit" in
      let* r := step env (do_read p) in
      let* b := of_res (map_err io_error_of r) in
      guard* 16 * 1024 <? zlen (take (Z.to_nat (16 * 1024 + 1)) b)
        with integrity "workspace record exceeds its local size limit" in
      of_res (map_err (fun e => integrity ("invalid workspace record: " ++ e))
        (let? x := from_json (take (Z.to_nat (16 * 1024 + 1)) b) in Ok (Some x)))
  end.

Definition validate_authority (D : dir) (domain scope : string) (snapshot : option string) : M unit :=
  let* a := read_record (T := AuthorityRecord) (D, "authority.json") in
  let* a := of_res (ok_or a (integrity "workspace cache authority binding is missing")) in
  guard* negb (au_revision a =? 1) || negb (String.eqb (au_domain a) domain) || negb (String.eqb (au_scope a) scope)
         || negb (bool_decide (au_snapshot a = snapshot))
    with integrity "workspace cache crosses its authorization domain or scope" in
  ret tt.

(** [WorkspaceBinding::scope_dir]; the gates are the three [check_directory]. *)
Definition scope_dir (b : WorkspaceBinding) : M unit :=
  run* of_res (canonical_uuid (workspace_id b)) in
  let* id := of_res (parse_digest (wb_snapshot_id b)) in
  guard* negb (match above at_ with
               | root :: owners :: view :: _ =>
                   (wb_revision b =? REVISION) && String.eqb root (workspace_id b) && String.eqb owners "owners"
                   && String.eqb view (hex_encode id)
               | _ => false
               end)
    with integrity "workspace binding disagrees with its fixed cache location" in
  run* gate env in
  run* gate env in
  run* gate env in
  run* validate_authority Scope (auth_domain b) (wb_scope b) None in
  validate_authority Root (auth_domain b) (wb_scope b) (Some (wb_snapshot_id b)).

(** [WorkspaceBinding::validate_store]. *)
Definition validate_store (b : WorkspaceBinding) : M unit :=
  run* scope_dir b in
  guard* negb (shared_content at_) with integrity "workspace content store is outside its authorization scope" in
  run* gate env in
  validate_authority Content (auth_domain b) (wb_scope b) None.

(** [WorkspaceBinding::validate_view]. *)
Definition binding_validate_view (b : WorkspaceBinding) (v : ViewMeta) : Res unit :=
  reject? negb (String.eqb (wb_snapshot_id b) (v_snapshot_id v)) || negb (String.eqb (wb_scope b) (v_scope v))
    with integrity "workspace hydration differs from its fixed owner binding" in
  Ok tt.

Definition owner_binding : M (option WorkspaceBinding) :=
  let* b := read_record (T := WorkspaceBinding) (Root, OWNER_FILE) in
  match b with
  | None =>
      guard* (match above at_ with _ :: owners :: _ => String.eqb owners "owners" | _ => false end)
        with integrity "workspace owner record is missing" in
      ret None
  | Some b => run* validate_store b in ret (Some b)
  end.

Definition require_owner : M WorkspaceBinding :=
  let* b := owner_binding in
  of_res (ok_or b (SnapshotError_new InvalidRequest "local pin release requires an owned workspace store")).

Definition registration_file (id : string) : path := (Registry, (id ++ ".json")%string).

(** [read_registration]; the gate is the check of the registry directory. *)
Definition read_registration (id : string) : M (option Registration) :=
  run* of_res (canonical_uuid id) in
  run* gate env in
  read_record (T := Registration) (registration_file id).

Definition release_record (b : WorkspaceBinding) : M (option ReleaseRecord) :=
  let* r := read_record (T := ReleaseRecord) (Root, REVOKE_FILE) in
  match r with
  | None => ret None
  | Some r =>
      run* of_res (canonical_uuid (operation_id r)) in
      guard* negb (bool_decide (rl_binding r = b)) with integrity "local pin revocation binding changed" in
      ret (Some r)
  end.

Definition require_registration (b : WorkspaceBinding) : M Registration :=
  run* validate_store b in
  let* g := read_registration (workspace_id b) in
  let* g := of_res (ok_or g (integrity "workspace pin registry entry is missing")) in
  guard* negb (bool_decide (rg_binding g = b)) with integrity "workspace registry binding changed" in
  if bool_decide (rg_state g = Released) then
    let* r := release_record b in
    match r with
    | None => fail (integrity "released workspace registry has lost its revocation record")
    | Some _ => ret g
    end
  else ret g.

(** The loop over the files that need a view. *)
Definition no_artifact (name : string) : M unit :=
  let* m := step env (do_metadata (Root, name)) in
  match m with
  | Ok _ => fail (integrity "workspace retention state has lost its fixed view")
  | Err NotFound => ret tt
  | Err e => fail (io_error_of e)
  end.

(** [complete_allowed]. *)
Definition complete_allowed : M bool :=
  let* b := owner_binding in
  match b with
  | None => ret true
  | Some b =>
      let* g := require_registration b in
      let* v := read_record (T := ViewMeta) (Root, VIEW_FILE) in
      run* match v with
           | Some v => of_res (binding_validate_view b v)
           | None => run* no_artifact COMPLETE_MARKER in no_artifact PIN_FILE
           end in
      let* r := release_record b in
      match r with
      | Some _ => ret false
      | None => ret (bool_decide (rg_state g = Active))
      end
  end.

Definition validate_hydration (v : ViewMeta) : M unit :=
  let* b := owner_binding in
  match b with
  | None => ret tt
  | Some b => run* of_res (binding_validate_view b v) in run* require_registration b in ret tt
  end.

(** [register]: the registry directory is created and synced, the entry locked
    (gates), and the record replaced. *)
Definition register (b : WorkspaceBinding) (s : RegistrationState) : M unit :=
  run* validate_store b in
  run* gate env in
  run* sync_dir env Scope in
  run* sync_dir env Registry in
  run* gate env in
  let* g := read_registration (workspace_id b) in
  guard* match g with Some previous => negb (bool_decide (rg_binding previous = b)) | None => false end
    with integrity "workspace UUID is already bound to another fixed snapshot" in
  let* x := of_res (encode_record (mkRegistration b s)) in
  write_atomic env Registry (workspace_id b ++ ".json")%string x.

Definition begin_hydration : M unit :=
  let* b := owner_binding in
  match b with
  | None => ret tt
  | Some b =>
      run* release_record b in
      run* register b Active in
      remove_with env io_error_of Root REVOKE_FILE
  end.

Definition publish_pin (v : ViewMeta) : M unit :=
  let* b := owner_binding in
  match b with
  | None => ret tt
  | Some b =>
      run* of_res (binding_validate_view b v) in
      let* r := release_record b in
      match r with
      | Some _ => fail (integrity "hydration cannot publish a revoked epoch")
      | None => register b Active
      end
  end.

(** [DurableStore::invalidate_complete]. *)
Definition invalidate_complete : M unit := remove_durable env Root COMPLETE_MARKER.

(** [DurableStore::transaction]. *)
Definition transaction : M unit :=
  let* free := try_transaction env in
  guard* negb free with SnapshotError_new SnapshotNotReady "another local hydration transaction is active" in
  ret tt.

(** [DurableStore::release_local_pin]; the last gate is the pruning of the
    shared index. *)
Definition release_local_pin : M ReleaseLocalPinReceipt :=
  run* transaction in
  let* b := require_owner in
  run* validate_store b in
  run* require_registration b in
  let* r := release_record b in
  let* op := match r with Some r => ret (operation_id r) | None => new_uuid env end in
  let* x := of_res (encode_record (mkRelease b op
              match r with Some r => phase r | None => Revoking end)) in
  run* write_atomic env Root REVOKE_FILE x in
  run* invalidate_complete in
  run* remove_with env io_error_of Root PIN_FILE in
  run* register b Released in
  run* gate env in
  let* x := of_res (encode_record (mkRelease b op Revoked)) in
  run* write_atomic env Root REVOKE_FILE x in
  ret (mkReceipt (workspace_id b) (wb_snapshot_id b) op).
End Pins.
End Pins.
