(* ===== verification/Durable.v ===== *)
(** * Durable

    [src/snapshot/durable.rs]: the local store of one fixed view. Contents are
    addressed by their digest; a completion record, written last, binds the
    view, the manifest, the pin and, for a whole snapshot, the metadata pages.
    The record is believed only after everything it names has been read and
    hashed again. The verification meters and the path of the store in error
    messages are left out; [Path::exists] is whether the metadata can be read.
    The opening of a transaction, directory creation and capacity admission are
    operations that may fail. *)

From S2P Require Import Prelude Types Faults Text Profile Btree Frames Wire Closure Disk Journal Records Pins.
Import Digests Profile.Scope Closure Disk Journal Records Pins.
Local Open Scope string_scope.
Local Open Scope list_scope.
Local Open Scope Z_scope.

Module Durable.

Definition MANIFEST_FILE : string := "manifest.json".
Definition OFFLINE_GRANT_FILE : string := "offline_grant.json".
Definition REPAIR_FILE : string := "NEEDS_REPAIR".
Definition DESCRIPTOR_FILE : string := "descriptor.bin".
Definition METADATA_INDEX_FILE : string := "metadata.json".

Definition ne (a b : string) : bool := negb (String.eqb a b).

Definition is_ascii_hexdigit (b : Z) : bool := is_ascii_digit b || in_range 97 b 102 || in_range 65 b 70.

Definition not_ready (m : string) : SnapshotError := SnapshotError_new SnapshotNotReady m.
Definition conflict (m : string) : SnapshotError := SnapshotError_new DurableViewConflict m.

(** The errors that revoke a completion record. *)
Definition is_integrity (e : SnapshotError) : bool :=
  bool_decide (code e = IntegrityError) || bool_decide (code e = DigestMismatch).

(** [blob_name]. *)
Definition blob_name (digest : string) : string := default digest (strip_prefix "sha256:" digest).

(** [DurableStore::blob_path]. *)
Definition blob_path (digest : string) : Res path :=
  let hex := blob_name digest in
  reject? negb (str_len hex =? 64) || negb (forallb is_ascii_hexdigit (as_bytes hex))
    with SnapshotError_new DigestMismatch ("malformed digest " ++ digest) in
  Ok (Content, hex).

Definition buffered_allocation_error : SnapshotError :=
  SnapshotError_new LimitExceeded "local CAS read exceeds the 64 MiB output budget; request a smaller range".

Definition buffered_size (size : Z) : Res Z :=
  reject? MAX_BUFFERED_FILE_BYTES <? size with buffered_allocation_error in Ok size.

Definition check_range_profile (size : Z) : Res unit :=
  reject? MAX_FILE_SIZE <? size
    with SnapshotError_new LimitExceeded "file size exceeds the 8 TiB serving profile" in
  Ok tt.

(** A view for the same snapshot, whatever its lease. *)
Definition same_view (a b : ViewMeta) : bool :=
  String.eqb (v_snapshot_id a) (v_snapshot_id b) && String.eqb (v_namespace_view_id a) (v_namespace_view_id b)
  && String.eqb (v_scope a) (v_scope b).

Section Store.
Context `{HexCrate} `{Sha256} `{PageCodec} `{CodecScope} `{DescriptorCodec} `{ServingCodec} `{UuidCrate} `{Rfc3339}.
Context `{CommitCodec} `{PinCodec} `{RecordCodec} (env : environment) (at_ : Location).

Abbreviation sys := (sys env).
Abbreviation step := (step env).
Abbreviation gate := (gate env).
Abbreviation write_atomic := (write_atomic env).
Abbreviation read_optional := (read_optional env).
Abbreviation complete_allowed := (complete_allowed env at_).
Abbreviation invalidate_complete := (invalidate_complete env).

(** [required_dependency]. *)
Definition required_dependency (p : path) : M bytes :=
  let* m := step (do_metadata p) in
  match m with
  | Ok (false, _) => fail (integrity_err "completion metadata is not a regular file")
  | Err NotFound => fail (integrity_err ("completion dependency missing: " ++ p.2))
  | Err e => fail (io_err e)
  | Ok (true, _) =>
      let* b := read_optional p in
      of_res (ok_or b (integrity_err ("completion dependency missing: " ++ p.2)))
  end.

(** ** Contents *)

(** [verify_blob]. *)
Definition verify_blob (digest : string) (expected_size : Z) : M bool :=
  run* gate in
  let* p := of_res (blob_path digest) in
  let* m := step (do_metadata p) in
  match m with
  | Err NotFound => ret false
  | Err e => fail (io_err e)
  | Ok (is_file, len) =>
      if negb is_file || negb (len =? expected_size) then ret false
      else
        let* b := sys (do_read p) in
        let b := take (Z.to_nat (saturating_add expected_size 1)) b in
        if negb (zlen b =? expected_size) then ret false
        else ret (String.eqb (digest_of b) digest)
  end.

(** [read_blob]. *)
Definition read_blob (digest : string) (expected_size : Z) : M bytes :=
  run* of_res (buffered_size expected_size) in
  run* gate in
  let* p := of_res (blob_path digest) in
  let* r := step (do_open p) in
  run* of_res (match r with
               | Ok _ => Ok tt
               | Err NotFound => Err (SnapshotError_new PathNotFound (p.2 ++ ": entity not found"))
               | Err e => Err (io_err e)
               end) in
  let* m := step (do_metadata p) in
  let* ' (is_file, len) := of_res (map_err io_err m) in
  guard* negb is_file || negb (len =? expected_size)
    with SnapshotError_new DigestMismatch "local CAS object size/type differs from the fixed view" in
  let* b := sys (do_read p) in
  guard* expected_size <? zlen (take (Z.to_nat (expected_size + 1)) b)
    with SnapshotError_new DigestMismatch "local CAS object grew past its fixed size" in
  guard* ne (digest_of b) digest || negb (zlen b =? expected_size)
    with SnapshotError_new DigestMismatch (p.2 ++ ": local copy does not match " ++ digest) in
  ret b.

(** [verify_all]. *)
Definition verify_all (manifest : list SnapshotFile) : M Z :=
  fold_m (fun verified f =>
      let* ok := verify_blob (file_digest f) (file_size f) in
      guard* negb ok
        with SnapshotError_new DigestMismatch (rel_path f ++ ": local copy does not match the view digest") in
      ret (verified + 1))
    0 manifest.

(** The loop over the dependencies of a completion record. *)
Definition verify_blobs (message : string) (blobs : list BlobDependency) : M unit :=
  fold_m (fun _ b =>
      let* ok := verify_blob (b_digest b) (b_size b) in
      guard* negb ok with integrity_err (message ++ b_digest b) in
      ret tt)
    tt blobs.

(** ** Completion records *)

(** [stored_view]. *)
Definition stored_view : M (option ViewMeta) :=
  let* m := step (do_metadata (Root, VIEW_FILE)) in
  match m with
  | Err _ => ret None
  | Ok _ =>
      let* b := sys (do_read (Root, VIEW_FILE)) in
      of_res (map_err (fun e => SnapshotError_new Internal ("corrupt " ++ VIEW_FILE ++ ": " ++ e))
        (let? v := from_json b in Ok (Some v)))
  end.

(** [verify_offline_grant]. *)
Definition verify_offline_grant (expected_digest snapshot_id : string) : M unit :=
  let* b := read_optional (Root, OFFLINE_GRANT_FILE) in
  match b with
  | None =>
      guard* negb (is_empty expected_digest) with integrity_err "completion references a missing offline grant" in
      ret tt
  | Some b =>
      guard* is_empty expected_digest || ne (digest_of b) expected_digest
        with integrity_err "offline grant digest is not bound to completion" in
      let* g := of_res (decode_commit (T := OfflineGrant) b OFFLINE_GRANT_FILE) in
      of_res (Resolve.validate_for g snapshot_id None)
  end.

(** [verify_snapshot_links]. *)
Definition verify_snapshot_links (c : ValidatedSnapshotClosure) : M unit :=
  fold_m (fun _ f =>
      let* b := read_blob (file_digest f) (file_size f) in
      guard* bool_decide (0 ∈ b) with integrity_err "symlink target contains NUL" in
      ret tt)
    tt (filter (fun f => file_kind f = "symlink") (vc_files c)).

(** [metadata_page_path]. *)
Definition metadata_page_path (page_id : string) : Res path :=
  let? id := map_err (fun e => integrity_err (message e)) (parse_digest page_id) in
  Ok (Metadata, hex_encode id).

(** One page of the loop that reads the private copies back. *)
Definition read_page (pages : list (string * bytes)) (dep : PageDependency) : M (list (string * bytes)) :=
  let* p := of_res (metadata_page_path (p_page_id dep)) in
  let* b := required_dependency p in
  let '(old, pages) := Btree.insert pages (p_page_id dep) b in
  guard* negb (zlen b =? p_size dep) || bool_decide (is_Some old)
    with integrity_err "metadata page size or identity repeated" in
  ret pages.

(** The comparisons of [verify_snapshot_commit]. *)
Definition snapshot_mismatch (m : SnapshotCompleteMarker) (view : ViewMeta) (manifest : list SnapshotFile)
    (blobs : list BlobDependency) (bytes_total : Z) (pin : SnapshotPinRecord) (index : MetadataIndex) : bool :=
  negb (i_revision index =? SNAPSHOT_VERIFICATION_REVISION)
  || ne (sm_snapshot_id m) (v_snapshot_id view) || ne (sm_namespace_view_id m) (v_namespace_view_id view)
  || negb (sm_files m =? zlen manifest) || negb (sm_bytes m =? bytes_total)
  || negb (sm_directories m =? zlen (i_directories index)) || negb (sm_pages m =? zlen (i_pages index))
  || negb (sp_revision pin =? SNAPSHOT_VERIFICATION_REVISION) || is_empty (sp_pin_id pin)
  || ne (sp_snapshot_id pin) (v_snapshot_id view) || ne (sp_namespace_view_id pin) (v_namespace_view_id view)
  || ne (sp_scope pin) (v_scope view) || ne (sp_lease_id pin) (v_lease_id view)
  || ne (sp_view_digest pin) (sm_view_digest m) || ne (sp_manifest_digest pin) (sm_manifest_digest m)
  || ne (sp_descriptor_digest pin) (sm_descriptor_digest m) || ne (sp_index_digest pin) (sm_index_digest m)
  || negb (bool_decide (sp_pages pin = i_pages index)) || negb (bool_decide (sp_blobs pin = blobs))
  || ne (sp_grant_digest pin) (sm_grant_digest m).

(** [verify_snapshot_commit]. *)
Definition verify_snapshot_commit (marker_bytes : bytes) : M ValidatedSnapshotClosure :=
  let* m := of_res (decode_commit (T := SnapshotCompleteMarker) marker_bytes COMPLETE_MARKER) in
  guard* negb (sm_revision m =? SNAPSHOT_VERIFICATION_REVISION) || negb (bool_decide (sm_kind m = FullSnapshot))
    with integrity_err "record does not prove a full snapshot" in
  let* view_bytes := required_dependency (Root, VIEW_FILE) in
  let* manifest_bytes := required_dependency (Root, MANIFEST_FILE) in
  let* pin_bytes := required_dependency (Root, PIN_FILE) in
  let* descriptor_bytes := required_dependency (Root, DESCRIPTOR_FILE) in
  let* index_bytes := required_dependency (Root, METADATA_INDEX_FILE) in
  guard* ne (digest_of view_bytes) (sm_view_digest m) || ne (digest_of manifest_bytes) (sm_manifest_digest m)
         || ne (digest_of pin_bytes) (sm_pin_digest m) || ne (digest_of descriptor_bytes) (sm_descriptor_digest m)
         || ne (digest_of index_bytes) (sm_index_digest m)
    with integrity_err "snapshot completion metadata digest mismatch" in
  let* view := of_res (decode_commit (T := ViewMeta) view_bytes VIEW_FILE) in
  run* of_res (validate_view_policy view true) in
  let* manifest := of_res (decode_commit (T := list SnapshotFile) manifest_bytes MANIFEST_FILE) in
  let* ' (blobs, bytes_total) := of_res (validate_manifest_policy manifest true) in
  let* pin := of_res (decode_commit (T := SnapshotPinRecord) pin_bytes PIN_FILE) in
  let* index := of_res (decode_commit (T := MetadataIndex) index_bytes METADATA_INDEX_FILE) in
  run* verify_offline_grant (sm_grant_digest m) (v_snapshot_id view) in
  guard* snapshot_mismatch m view manifest blobs bytes_total pin index
    with integrity_err "snapshot view, pin or closure index mismatch" in
  let* pages := fold_m read_page [] (i_pages index) in
  let* closure := on_error (fun e => integrity_err ("metadata root graph: " ++ message e))
                    (of_run (from_canonical_pages descriptor_bytes pages)) in
  run* of_res (map_err (fun e => integrity_err (message e)) (validate_snapshot_view view closure)) in
  guard* negb (bool_decide (vc_files closure = manifest)) || negb (bool_decide (vc_directories closure = i_directories index))
    with integrity_err "manifest does not match the descriptor's metadata graph" in
  run* verify_blobs "snapshot blob missing or corrupt: " blobs in
  run* verify_snapshot_links closure in
  ret closure.

(** The comparisons of [verify_commit]. *)
Definition file_mismatch (m : CompleteMarker) (view : ViewMeta) (manifest : list SnapshotFile)
    (blobs : list BlobDependency) (bytes_total : Z) (pin : PinRecord) : bool :=
  ne (m_snapshot_id m) (v_snapshot_id view) || ne (m_namespace_view_id m) (v_namespace_view_id view)
  || negb (m_files m =? zlen manifest) || negb (m_bytes m =? bytes_total)
  || negb (pin_revision pin =? VERIFICATION_REVISION) || is_empty (pin_id pin)
  || ne (pin_snapshot_id pin) (v_snapshot_id view) || ne (pin_namespace_view_id pin) (v_namespace_view_id view)
  || ne (pin_scope pin) (v_scope view) || ne (pin_lease_id pin) (v_lease_id view)
  || ne (pin_view_digest pin) (m_view_digest m) || ne (pin_manifest_digest pin) (m_manifest_digest m)
  || negb (bool_decide (pin_blobs pin = blobs)) || ne (pin_grant_digest pin) (m_grant_digest m).

(** [verify_commit] of a record for a file closure. *)
Definition verify_file_commit (marker_bytes : bytes) : M (list SnapshotFile) :=
  let* m := of_res (decode_commit (T := CompleteMarker) marker_bytes COMPLETE_MARKER) in
  guard* negb (m_revision m =? VERIFICATION_REVISION) || negb (bool_decide (m_kind m = FileClosure))
    with integrity_err "legacy or unsupported completion revision" in
  let* view_bytes := required_dependency (Root, VIEW_FILE) in
  let* manifest_bytes := required_dependency (Root, MANIFEST_FILE) in
  let* pin_bytes := required_dependency (Root, PIN_FILE) in
  guard* ne (digest_of view_bytes) (m_view_digest m) || ne (digest_of manifest_bytes) (m_manifest_digest m)
         || ne (digest_of pin_bytes) (m_pin_digest m)
    with integrity_err "completion metadata digest mismatch" in
  let* view := of_res (decode_commit (T := ViewMeta) view_bytes VIEW_FILE) in
  run* of_res (validate_view view) in
  let* manifest := of_res (decode_commit (T := list SnapshotFile) manifest_bytes MANIFEST_FILE) in
  let* pin := of_res (decode_commit (T := PinRecord) pin_bytes PIN_FILE) in
  run* verify_offline_grant (m_grant_digest m) (v_snapshot_id view) in
  let* ' (blobs, bytes_total) := of_res (validate_manifest manifest) in
  guard* file_mismatch m view manifest blobs bytes_total pin
    with integrity_err "completion view, pin or file closure mismatch" in
  run* verify_blobs "completion dependency missing or corrupt: " blobs in
  ret manifest.

(** [verify_commit]. *)
Definition verify_commit (marker_bytes : bytes) : M (list SnapshotFile) :=
  let* revision := of_res (completion_revision marker_bytes) in
  if revision =? SNAPSHOT_VERIFICATION_REVISION then
    let* c := verify_snapshot_commit marker_bytes in ret (vc_files c)
  else verify_file_commit marker_bytes.

(** A record that does not verify is removed, and the reason left behind. *)
Definition revoke_damaged (e : SnapshotError) : M unit :=
  run* invalidate_complete in
  write_atomic Root REPAIR_FILE (as_bytes (message e)).

(** [completed_manifest_locked]. *)
Definition completed_manifest_locked : M (option (list SnapshotFile)) :=
  let* allowed := complete_allowed in
  if negb allowed then ret None
  else
    let* marker := read_optional (Root, COMPLETE_MARKER) in
    match marker with
    | None => ret None
    | Some marker_bytes =>
        let* r := attempt (verify_commit marker_bytes) in
        match r with
        | Ok manifest => ret (Some manifest)
        | Err (Failed e) =>
            if is_integrity e then run* revoke_damaged e in ret None else fail e
        | Err e => of_run (Err e)
        end
    end.

(** [is_complete], and [is_pinned]. *)
Definition is_complete : M bool :=
  let* free := try_transaction env in
  if negb free then ret false
  else let* m := completed_manifest_locked in ret (bool_decide (is_Some m)).

(** [completion_kind]. *)
Definition completion_kind : M (option CompletionKind) :=
  let* free := try_transaction env in
  if negb free then ret None
  else
    let* m := completed_manifest_locked in
    match m with
    | None => ret None
    | Some _ =>
        let* b := required_dependency (Root, COMPLETE_MARKER) in
        let* revision := of_res (completion_revision b) in
        ret (Some (if revision =? SNAPSHOT_VERIFICATION_REVISION then FullSnapshot else FileClosure))
    end.

Definition is_snapshot_complete : M bool :=
  let* k := completion_kind in ret (bool_decide (k = Some FullSnapshot)).

(** [manifest]. *)
Definition manifest : M (list SnapshotFile) :=
  run* transaction env in
  let* m := completed_manifest_locked in
  match m with
  | Some m => ret m
  | None =>
      let* b := read_optional (Root, REPAIR_FILE) in
      let detail := match b with Some b => ("; NEEDS_REPAIR: " ++ of_bytes (lossy b))%string | None => "" end in
      fail (not_ready (": no complete hydration to reopen" ++ detail))
  end.

(** [snapshot_manifest]. *)
Definition snapshot_manifest : M ValidatedSnapshotClosure :=
  run* transaction env in
  let* allowed := complete_allowed in
  guard* negb allowed with not_ready "workspace local retention guarantee has been revoked" in
  let* b := read_optional (Root, COMPLETE_MARKER) in
  let* b := of_res (ok_or b (not_ready "no full snapshot completion record")) in
  guard* match completion_revision b with Ok r => r =? VERIFICATION_REVISION | Err _ => false end
    with not_ready "file-closure completion does not prove metadata completeness" in
  let* r := attempt (verify_snapshot_commit b) in
  match r with
  | Ok c => ret c
  | Err (Failed e) => if is_integrity e then run* revoke_damaged e in fail e else fail e
  | Err e => of_run (Err e)
  end.

(** [offline_grant_locked]. *)
Definition offline_grant_locked : M (option OfflineGrant) :=
  let* m := completed_manifest_locked in
  match m with
  | None => ret None
  | Some _ =>
      let* marker_bytes := required_dependency (Root, COMPLETE_MARKER) in
      let* revision := of_res (completion_revision marker_bytes) in
      let* digest :=
        if revision =? SNAPSHOT_VERIFICATION_REVISION then
          let* m := of_res (decode_commit (T := SnapshotCompleteMarker) marker_bytes COMPLETE_MARKER) in
          ret (sm_grant_digest m)
        else
          let* m := of_res (decode_commit (T := CompleteMarker) marker_bytes COMPLETE_MARKER) in
          ret (m_grant_digest m) in
      if is_empty digest then ret None
      else
        let* b := required_dependency (Root, OFFLINE_GRANT_FILE) in
        guard* ne (digest_of b) digest with integrity_err "offline grant digest mismatch" in
        let* g := of_res (decode_commit (T := OfflineGrant) b OFFLINE_GRANT_FILE) in
        let* v := stored_view in
        let* v := of_res (ok_or v (integrity_err "offline grant has no fixed view")) in
        run* of_res (Resolve.validate_for g (v_snapshot_id v) None) in
        ret (Some g)
  end.

Definition grant_busy : SnapshotError := not_ready "offline grant is busy during local hydration".

Definition offline_grant : M (option OfflineGrant) :=
  let* free := try_transaction env in
  guard* negb free with grant_busy in
  offline_grant_locked.

(** [validate_offline_grant]. *)
Definition validate_offline_grant (grant : OfflineGrant) (actor_domain : string) : M unit :=
  let* free := try_transaction env in
  guard* negb free with grant_busy in
  let* v := stored_view in
  let* v := of_res (ok_or v (not_ready "offline grant has no fixed view")) in
  let* stored := offline_grant_locked in
  let* stored := of_res (ok_or stored
    (SnapshotError_new ScopeForbidden "the completed snapshot has no offline grant")) in
  guard* negb (bool_decide (stored = grant))
    with SnapshotError_new ScopeForbidden "offline grant does not match the committed local grant" in
  run* of_res (Resolve.validate_for grant (v_snapshot_id v) (Some actor_domain)) in
  let* t := now_unix env in
  guard* Resolve.expired grant t with SnapshotError_new LeaseExpired "offline grant has expired" in
  ret tt.

(** [pin]. *)
Definition pin (view : ViewMeta) : M unit :=
  run* transaction env in
  let* stored := stored_view in
  match stored with
  | None => fail (not_ready ": nothing hydrated here to pin")
  | Some stored =>
      guard* negb (bool_decide (stored = view))
        with conflict ("store holds view " ++ v_snapshot_id stored ++ ", cannot pin " ++ v_snapshot_id view) in
      let* m := completed_manifest_locked in
      run* of_res (ok_or m (not_ready "a pin requires a complete, verified file closure")) in
      ret tt
  end.

Inductive PinAudit : Type := AuditActive (snapshot : string) | AuditInactive | AuditUnknown.

(** [audit_pin]. *)
Definition audit_pin : M PinAudit :=
  let* free := try_transaction env in
  if negb free then ret AuditUnknown
  else
    let* allowed := complete_allowed in
    if negb allowed then ret AuditInactive
    else
      let* repair := step (do_metadata (Root, REPAIR_FILE)) in
      match repair with
      | Ok _ => ret AuditUnknown
      | Err NotFound =>
          let* marker := step (do_metadata (Root, COMPLETE_MARKER)) in
          match marker with
          | Err NotFound => ret AuditInactive
          | Err e => fail (io_err e)
          | Ok _ =>
              let* b := required_dependency (Root, COMPLETE_MARKER) in
              let* r := attempt (verify_commit b) in
              match r with
              | Ok _ =>
                  let* v := stored_view in
                  let* v := of_res (ok_or v (integrity_err "committed local pin is missing its view")) in
                  ret (AuditActive (v_snapshot_id v))
              | Err (Failed e) => if is_integrity e then run* revoke_damaged e in ret AuditUnknown else fail e
              | Err e => of_run (Err e)
              end
          end
      | Err e => fail (io_err e)
      end.

(** [DurableStore::local_pin_state]. *)
Definition local_pin_state : M LocalPinState :=
  let* free := try_transaction env in
  if negb free then ret UnknownState
  else
    let* b := require_owner env at_ in
    run* require_registration env at_ b in
    let* r := release_record env b in
    match r with
    | Some r => ret (match phase r with Revoking => IsRevoking (operation_id r) | Revoked => IsRevoked (operation_id r) end)
    | None =>
        let* m := completed_manifest_locked in
        match m with
        | None => ret Incomplete
        | Some _ =>
            let* b := required_dependency (Root, COMPLETE_MARKER) in
            let* revision := of_res (completion_revision b) in
            ret (Complete (if revision =? 3 then FullSnapshot else FileClosure))
        end
    end.

(** ** Hydration *)

(** [bound_manifest]. *)
Definition bound_manifest : M (option (list SnapshotFile)) :=
  let* marker := read_optional (Root, COMPLETE_MARKER) in
  match marker with
  | None => ret None
  | Some marker_bytes =>
      let digest :=
        match completion_revision marker_bytes with
        | Ok revision =>
            if revision =? VERIFICATION_REVISION then
              match from_json (T := CompleteMarker) marker_bytes with Ok m => Some (m_manifest_digest m) | Err _ => None end
            else if revision =? SNAPSHOT_VERIFICATION_REVISION then
              match from_json (T := SnapshotCompleteMarker) marker_bytes with
              | Ok m => Some (sm_manifest_digest m)
              | Err _ => None
              end
            else None
        | Err _ => None
        end in
      match digest with
      | None => ret None
      | Some digest =>
          let* b := read_optional (Root, MANIFEST_FILE) in
          match b with
          | None => ret None
          | Some b =>
              if ne (digest_of b) digest then ret None
              else let* m := of_res (decode_commit (T := list SnapshotFile) b MANIFEST_FILE) in ret (Some m)
          end
      end
  end.

(** [prepare_hydration_for_kind]; the gates are the retention of the snapshot
    root and the reservation of space. *)
Definition prepare_hydration_for_kind (view : ViewMeta) (files : list SnapshotFile)
    (closure : option ValidatedSnapshotClosure) : M unit :=
  let full := bool_decide (is_Some closure) in
  run* (if full then gate else ret tt) in
  run* transaction env in
  run* validate_hydration env at_ view in
  run* of_res (validate_view_policy view full) in
  let* stored := stored_view in
  guard* match stored with Some stored => negb (same_view stored view) | None => false end
    with conflict "store holds a different fixed view" in
  run* of_res (validate_manifest_policy files full) in
  let* marker := if full then ret None else read_optional (Root, COMPLETE_MARKER) in
  guard* match marker with
         | Some b => match completion_revision b with Ok r => r =? SNAPSHOT_VERIFICATION_REVISION | Err _ => false end
         | None => false
         end
    with conflict "file-only hydration cannot downgrade a full snapshot completion" in
  let* previous := bound_manifest in
  guard* match previous with
         | Some previous => negb (bool_decide (sort_by rel_path previous = sort_by rel_path files))
         | None => false
         end
    with conflict "a fixed view cannot be hydrated with a different file closure" in
  run* gate in
  run* read_journal env in
  run* truncate_journal_tail env in
  run* invalidate_complete in
  run* begin_hydration env at_ in
  let* b := of_res (encode_record view) in
  write_atomic Root VIEW_FILE b.

(** One page of [persist_snapshot_metadata]. *)
Definition persist_page (_ : unit) (page : string * bytes) : M unit :=
  let* p := of_res (metadata_page_path page.1) in
  write_atomic Metadata p.2 page.2.

(** [persist_snapshot_metadata]. *)
Definition persist_snapshot_metadata (c : ValidatedSnapshotClosure) : M MetadataCommit :=
  run* fold_m persist_page tt (vc_pages c) in
  run* sync_dir env Metadata in
  run* write_atomic Root DESCRIPTOR_FILE (vc_descriptor_bytes c) in
  let* b := of_res (encode_record (mkIndex SNAPSHOT_VERIFICATION_REVISION (page_dependencies c) (vc_directories c))) in
  run* write_atomic Root METADATA_INDEX_FILE b in
  ret (mkMetadataCommit (digest_of (vc_descriptor_bytes c)) (digest_of b) (page_dependencies c)).

Definition tagged {A} (stage : HydrationSubstage) (c : M A) : M A := on_error (tag_hydration_error stage) c.

(** [sync_file]. *)
Definition sync_file (p : path) : M unit :=
  let* f := sys (do_open p) in
  sys (do_sync f).

(** One dependency of the audit before a commit. *)
Definition audit_blob (_ : unit) (b : BlobDependency) : M unit :=
  let* ok := verify_blob (b_digest b) (b_size b) in
  guard* negb ok with integrity_err ("hydration dependency missing or corrupt: " ++ b_digest b) in
  let* p := of_res (blob_path (b_digest b)) in
  sync_file p.

(** The grant of a commit, and its digest: empty without one. *)
Definition commit_grant (view : ViewMeta) (grant : option OfflineGrant) : M string :=
  match grant with
  | Some g =>
      run* of_res (Resolve.validate_for g (v_snapshot_id view) None) in
      let* b := of_res (encode_record g) in
      run* write_atomic Root OFFLINE_GRANT_FILE b in
      ret (digest_of b)
  | None => run* remove_durable env Root OFFLINE_GRANT_FILE in ret ""
  end.

(** The pin record of a commit. *)
Definition pin_bytes_of (view : ViewMeta) (view_digest manifest_digest : string) (blobs : list BlobDependency)
    (metadata : option MetadataCommit) (grant_digest : string) : M bytes :=
  let* id := new_uuid env in
  let* t := now_unix env in
  of_res match metadata with
  | Some mc =>
      encode_record (mkSnapshotPin SNAPSHOT_VERIFICATION_REVISION id (v_snapshot_id view) (v_namespace_view_id view)
        (v_scope view) (v_lease_id view) view_digest manifest_digest (mc_descriptor_digest mc) (mc_index_digest mc)
        (mc_pages mc) blobs grant_digest t)
  | None =>
      encode_record (mkPin VERIFICATION_REVISION id (v_snapshot_id view) (v_namespace_view_id view) (v_scope view)
        (v_lease_id view) view_digest manifest_digest blobs grant_digest t)
  end.

(** The completion record of a commit. *)
Definition marker_bytes_of (view : ViewMeta) (view_digest manifest_digest pin_digest grant_digest : string)
    (files : list SnapshotFile) (bytes_total : Z) (closure : option ValidatedSnapshotClosure)
    (metadata : option MetadataCommit) : M bytes :=
  let* t := now_unix env in
  of_res match metadata with
  | Some mc =>
      let? c := ok_or closure (integrity_err "snapshot closure missing") in
      encode_record (mkSnapshotMarker SNAPSHOT_VERIFICATION_REVISION FullSnapshot (v_snapshot_id view)
        (v_namespace_view_id view) view_digest manifest_digest (mc_descriptor_digest mc) (mc_index_digest mc) pin_digest
        grant_digest (zlen files) (zlen (vc_directories c)) (zlen (mc_pages mc)) bytes_total t)
  | None =>
      encode_record (mkMarker VERIFICATION_REVISION FileClosure (v_snapshot_id view) (v_namespace_view_id view)
        view_digest manifest_digest pin_digest grant_digest (zlen files) bytes_total t)
  end.

(** The final rename and sync; an error withdraws the record. *)
Definition publish_marker (b : bytes) : M unit :=
  let* r := attempt (write_atomic Root COMPLETE_MARKER b) in
  match r with
  | Ok _ => ret tt
  | Err e => run* invalidate_complete in tagged HydrationCommit (of_run (Err e))
  end.

(** [finish_hydration_commit_inner] up to the sync of the contents: everything
    the commit depends on is checked and made durable. *)
Definition audit_dependencies (view : ViewMeta) (files : list SnapshotFile) (closure : option ValidatedSnapshotClosure)
    : M (list BlobDependency * Z) :=
  let* ' (dependencies, bytes_total) := tagged HydrationCommit
    (of_res (validate_manifest_policy files (bool_decide (is_Some closure)))) in
  run* match closure with
       | Some c =>
           run* tagged HydrationCommit (of_res (validate_snapshot_view view c)) in
           tagged SnapshotLinks (verify_snapshot_links c)
       | None => ret tt
       end in
  run* tagged DependencyAudit (fold_m audit_blob tt dependencies) in
  run* tagged HydrationCommit (sync_dir env Content) in
  ret (dependencies, bytes_total).

(** [finish_hydration_commit_inner] from the journal to the completion record:
    everything the record names is written. *)
Definition write_dependencies (view : ViewMeta) (files : list SnapshotFile) (closure : option ValidatedSnapshotClosure)
    (grant : option OfflineGrant) (dependencies : list BlobDependency) (bytes_total : Z) : M bytes :=
  run* tagged HydrationCommit (compact_journal env files) in
  let* manifest_bytes := tagged HydrationCommit (of_res (encode_record files)) in
  run* tagged HydrationCommit (write_atomic Root MANIFEST_FILE manifest_bytes) in
  let* view_bytes := tagged HydrationCommit (of_res (encode_record view)) in
  run* tagged HydrationCommit (write_atomic Root VIEW_FILE view_bytes) in
  let* metadata := tagged HydrationCommit match closure with
                     | Some c => let* m := persist_snapshot_metadata c in ret (Some m)
                     | None => ret None
                     end in
  let* grant_digest := tagged HydrationCommit (commit_grant view grant) in
  let* pin_bytes := tagged HydrationCommit
    (pin_bytes_of view (digest_of view_bytes) (digest_of manifest_bytes) dependencies metadata grant_digest) in
  run* tagged HydrationCommit (write_atomic Root PIN_FILE pin_bytes) in
  run* tagged HydrationCommit (publish_pin env at_ view) in
  run* tagged HydrationCommit (remove_durable env Root REPAIR_FILE) in
  tagged HydrationCommit
    (marker_bytes_of view (digest_of view_bytes) (digest_of manifest_bytes) (digest_of pin_bytes) grant_digest files
       bytes_total closure metadata).

(** [finish_hydration_commit_inner]. *)
Definition finish_hydration_commit_inner (view : ViewMeta) (files : list SnapshotFile)
    (closure : option ValidatedSnapshotClosure) (grant : option OfflineGrant) (counts : Z * Z * Z) : M HydrateReport :=
  let '(fetched, resumed, repaired) := counts in
  let* ' (dependencies, bytes_total) := audit_dependencies view files closure in
  let* marker_bytes := write_dependencies view files closure grant dependencies bytes_total in
  run* publish_marker marker_bytes in
  ret (mkReport (v_snapshot_id view) (zlen files) fetched resumed repaired bytes_total true
         (if bool_decide (is_Some closure) then FullSnapshot else FileClosure)).

(** [finish_hydration_commit]. *)
Definition finish_hydration_commit (view : ViewMeta) (files : list SnapshotFile)
    (closure : option ValidatedSnapshotClosure) (grant : option OfflineGrant) (counts : Z * Z * Z) : M HydrateReport :=
  tagged HydrationCommit (finish_hydration_commit_inner view files closure grant counts).
End Store.
End Durable.
