(* ===== verification/ScopeTree.v ===== *)
(** * ScopeTree

    The directory tree of a managed cache scope as the retention code of
    [src/snapshot/cache_retention.rs] and [src/snapshot/workspace_pins.rs] sees
    it: regular files with their identity and bytes, directories, and entries
    of any other kind, by their path below the scope. Programs read and change
    the tree one operation at a time; every operation may fail, with or without
    having had its effect, and every tree passed through is recorded. The
    lifecycle fence keeps other processes of the cache out meanwhile. *)

From S2P Require Import Prelude Types Faults Text Frames Disk.
Local Open Scope string_scope.
Local Open Scope list_scope.
Local Open Scope Z_scope.

Module ScopeTree.

(** A path below the scope, by its components. *)
Abbreviation rpath := (list string).

(** [secure_fs::RegularIdentity]: the size, and the device, inode and times as
    one number. *)
Record RegularIdentity : Type := mkIdentity { id_size : Z; id_stamp : Z }.
#[export] Instance RegularIdentity_eq_dec : EqDecision RegularIdentity.
Proof. solve_decision. Defined.

Inductive node : Type :=
  | Regular (id : RegularIdentity) (b : bytes)
  | Folder
  | Special.

Abbreviation tree := (gmap rpath node).

(** ** Paths *)

(** The order of [PathBuf]: by components. No name has a zero byte. *)
Definition path_key (p : rpath) : string := String.concat (String zero EmptyString) p.

(** [Path::parent], [Path::file_name]. *)
Definition parent (p : rpath) : rpath := take (length p - 1) p.
Definition file_name (p : rpath) : option string := list.last p.

Definition below_path (p q : rpath) : option rpath :=
  if decide (take (length p) q = p) then Some (drop (length p) q) else None.
Definition starts_with_path (p q : rpath) : bool := bool_decide (is_Some (below_path p q)).

Lemma below_path_app p q : below_path p (p ++ q) = Some q.
Proof. unfold below_path. by rewrite take_app_length, decide_True, drop_app_length. Qed.
Lemma below_path_some p q r : below_path p q = Some r -> q = p ++ r.
Proof. unfold below_path. case_decide as E; [|done]. intros [= <-]. rewrite <- E at 1. by rewrite take_drop. Qed.

(** [Path::ancestors] as far as the scope. *)
Definition ancestors (p : rpath) : list rpath := (fun n => take n p) <$> reverse (seq 0 (S (length p))).

(** The length of an absolute path, with [base] that of the scope's. *)
Definition path_len (base : Z) (p : rpath) : Z := foldr (fun part n => 1 + str_len part + n) base p.

(** The names in a directory. *)
Definition names_in (t : tree) (p : rpath) : list string :=
  omap (fun e => match below_path p e.1 with Some [n] => Some n | _ => None end) (map_to_list t).

Lemma elem_names_in t p n : n ∈ names_in t p <-> is_Some (t !! (p ++ [n])).
Proof.
  unfold names_in. rewrite list_elem_of_omap. split.
  - intros ([q x] & Hin%elem_of_map_to_list & E). simpl in E.
    destruct (below_path p q) as [[|m [|]]|] eqn:Eb; simplify_eq. apply below_path_some in Eb as ->. by exists x.
  - intros [x Hx]. exists (p ++ [n], x). split; [by apply elem_of_map_to_list|]. simpl. by rewrite below_path_app.
Qed.

(** ** Programs *)

(** What the host decides, by the number of the operation: failures of the
    system, with the effect or without; refusals of locks and authorities; the
    clock, and which instants it can represent; the order of directory
    listings; identifiers and identities of new files. *)
Record host : Type := mkHost {
  h_fault : nat -> option (bool * string);
  h_refuse : nat -> option SnapshotError;
  h_instant : nat -> Z;
  h_order : nat -> list string -> list string;
  h_uuid : nat -> string;
  h_stamp : nat -> Z;
  h_reachable : Z -> bool;
}.

Record state : Type := mkScope { s_tree : tree; s_clock : nat; s_past : list tree }.

Definition W (A : Type) : Type := state -> Run A * state.
Definition ret {A : Type} (a : A) : W A := fun s => (Ok a, s).
Definition bind {A B : Type} (c : W A) (k : A -> W B) : W B := fun s =>
  match c s with
  | (Ok a, s) => k a s
  | (Err e, s) => (Err e, s)
  end.
Definition fail {A : Type} (e : SnapshotError) : W A := fun s => (Err (Failed e), s).
Definition of_run {A : Type} (r : Run A) : W A := fun s => (r, s).
Definition of_res {A : Type} (r : Res A) : W A := of_run (lift r).
Definition attempt {A : Type} (c : W A) : W (Run A) := fun s => let (r, s) := c s in (Ok r, s).

Notation "'let*' x := c 'in' k" := (bind c (fun x => k))
  (at level 10, x name, c at level 150, k at level 200).
Notation "'let*' ' p := c 'in' k" := (bind c (fun x => match x with p => k end))
  (at level 10, p pattern, c at level 150, k at level 200).
Notation "'run*' c 'in' k" := (bind c (fun _ => k)) (at level 10, c at level 150, k at level 200).
Notation "'guard*' b 'with' e 'in' k" := (if b then fail e else k) (at level 10, b at level 150, e at level 150, k at level 200).

Fixpoint fold_w {A X : Type} (f : A -> X -> W A) (a : A) (l : list X) : W A :=
  match l with
  | [] => ret a
  | x :: l => let* a := f a x in fold_w f a l
  end.

Definition tick (s : state) : state := mkScope (s_tree s) (S (s_clock s)) (s_past s).

Definition io_error_of (e : io_error) : SnapshotError :=
  SnapshotError_new Internal
    (match e with NotFound => "entity not found" | AlreadyExists => "entity already exists" | OtherError m => m end).

Section Programs.
Context (h : host).

(** An operation that only looks. *)
Definition look {A : Type} (f : tree -> result io_error A) : W (result io_error A) := fun s =>
  (Ok (match h_fault h (s_clock s) with Some (_, m) => Err (OtherError m) | None => f (s_tree s) end), tick s).

(** An operation that changes the tree. *)
Definition change {A : Type} (f : nat -> tree -> result io_error A * tree) : W (result io_error A) := fun s =>
  let '(r, t) := match h_fault h (s_clock s) with
                 | None => f (s_clock s) (s_tree s)
                 | Some (true, m) => (Err (OtherError m), (f (s_clock s) (s_tree s)).2)
                 | Some (false, m) => (Err (OtherError m), s_tree s)
                 end in
  (Ok r, mkScope t (S (s_clock s)) (s_past s ++ [t])).

Definition io {A : Type} (c : W (result io_error A)) : W A := let* r := c in of_res (map_err io_error_of r).

(** A lock, or a check of another component. *)
Definition gate : W unit := fun s =>
  (match h_refuse h (s_clock s) with None => Ok tt | Some e => Err (Failed e) end, tick s).

(** [Instant::now]. *)
Definition read_clock : W Z := fun s => (Ok (h_instant h (s_clock s)), tick s).
Definition new_uuid : W string := fun s => (Ok (h_uuid h (s_clock s)), tick s).
(** A pure computation that reads the clock. *)
Definition timed {A : Type} (f : (nat -> Z) -> Run A) : W A := fun s => (f (fun n => h_instant h (s_clock s + n)%nat), s).

(** [fs::symlink_metadata]. *)
Definition stat (p : rpath) : W (result io_error node) := look (fun t => ok_or (t !! p) NotFound).

(** [fs::read_dir]; the scope itself is there. *)
Definition read_dir (p : rpath) : W (result io_error (list string)) := fun s =>
  look (fun t =>
    match p, t !! p with
    | [], _ | _, Some Folder => Ok (h_order h (s_clock s) (names_in t p))
    | _, Some _ => Err (OtherError "not a directory")
    | _, None => Err NotFound
    end) s.

(** [secure_fs::open_regular_nonblocking]: the identity and the bytes. *)
Definition open_regular (p : rpath) : W (result io_error (RegularIdentity * bytes)) :=
  look (fun t =>
    match t !! p with
    | None => Err NotFound
    | Some (Regular id b) => Ok (id, b)
    | Some _ => Err (OtherError "local integrity object is not a regular file")
    end).

(** The directory of an entry is there. *)
Definition in_folder (t : tree) (p : rpath) : bool :=
  match parent p with
  | [] => true
  | d => match t !! d with Some Folder => true | _ => false end
  end.

(** [secure_fs::open_create_new]. *)
Definition create_new (p : rpath) : W (result io_error unit) :=
  change (fun k t => match t !! p with
                     | Some _ => (Err AlreadyExists, t)
                     | None => if in_folder t p then (Ok tt, <[p := Regular (mkIdentity 0 (h_stamp h k)) []]> t)
                               else (Err NotFound, t)
                     end).

(** [secure_fs::open_rw_create]. *)
Definition open_rw_create (p : rpath) : W (result io_error unit) :=
  change (fun k t => match t !! p with
                     | Some (Regular _ _) => (Ok tt, t)
                     | Some _ => (Err (OtherError "local integrity object is not a regular file"), t)
                     | None => if in_folder t p then (Ok tt, <[p := Regular (mkIdentity 0 (h_stamp h k)) []]> t)
                               else (Err NotFound, t)
                     end).

(** [write_all] of a whole new file. *)
Definition write_all (p : rpath) (b : bytes) : W (result io_error unit) :=
  change (fun k t => match t !! p with
                     | Some (Regular _ _) => (Ok tt, <[p := Regular (mkIdentity (zlen b) (h_stamp h k)) b]> t)
                     | _ => (Err NotFound, t)
                     end).

(** [sync_all] of a file or a directory. *)
Definition sync_all : W (result io_error unit) := look (fun _ => Ok tt).

(** [fs::rename] of a file. *)
Definition rename (p q : rpath) : W (result io_error unit) :=
  change (fun k t => match t !! p, t !! q with
                     | Some (Regular id b), (None | Some (Regular _ _)) => (Ok tt, <[q := Regular id b]> (delete p t))
                     | Some _, _ => (Err (OtherError "not a regular file"), t)
                     | None, _ => (Err NotFound, t)
                     end).

(** [fs::remove_file], [unlinkat]. *)
Definition remove_file (p : rpath) : W (result io_error unit) :=
  change (fun k t => match t !! p with
                     | Some Folder => (Err (OtherError "is a directory"), t)
                     | Some _ => (Ok tt, delete p t)
                     | None => (Err NotFound, t)
                     end).
End Programs.

(** ** Reasoning *)

(** [c] leaves the tree alone, and ends in a client error or in a result that
    has [P] in that tree. *)
Definition sees {A : Type} (t : tree) (c : W A) (P : A -> Prop) : Prop :=
  forall s, s_tree s = t ->
    s_tree (c s).2 = t /\ s_past (c s).2 = s_past s /\
    match (c s).1 with Ok a => P a | Err (Failed _) => True | Err _ => False end.

Section Sees.
Context (h : host) {t : tree}.

Lemma sees_ret {A : Type} (a : A) (P : A -> Prop) : P a -> sees t (ret a) P.
Proof. by intros Ha s Hs. Qed.
Lemma sees_fail {A : Type} e (P : A -> Prop) : sees t (fail e) P.
Proof. by intros s Hs. Qed.
Lemma sees_bind {A B : Type} (c : W A) (k : A -> W B) P Q :
  sees t c P -> (forall a, P a -> sees t (k a) Q) -> sees t (bind c k) Q.
Proof.
  intros Hc Hk s Hs. unfold bind. destruct (Hc s Hs) as (E1 & E2 & E3). destruct (c s) as [[a|e] s1]; simpl in *; [|by destruct e].
  destruct (Hk a E3 s1 E1) as (F1 & F2 & F3). split_and!; [done|congruence|done].
Qed.
Lemma sees_of_run {A : Type} (r : Run A) (P : A -> Prop) : clean r -> (forall a, r = Ok a -> P a) -> sees t (of_run r) P.
Proof. intros Hc Hp s Hs. split_and!; [done|done|]. simpl. destruct r as [a|[]]; simpl in *; auto. Qed.
Lemma sees_of_res {A : Type} (r : Res A) (P : A -> Prop) : (forall a, r = Ok a -> P a) -> sees t (of_res r) P.
Proof. intros Hp. apply sees_of_run; [apply clean_lift|]. intros a Ha. apply Hp. by destruct r; simplify_eq/=. Qed.
Lemma sees_guard {A : Type} (b : bool) e (k : W A) P : (b = false -> sees t k P) -> sees t (if b then fail e else k) P.
Proof. destruct b; [intros _; apply sees_fail|auto]. Qed.
Lemma sees_weaken {A : Type} (c : W A) (P Q : A -> Prop) : sees t c P -> (forall a, P a -> Q a) -> sees t c Q.
Proof. intros Hc Hq s Hs. destruct (Hc s Hs) as (E1 & E2 & E3). split_and!; [done|done|]. destruct (c s).1 as [a|[]]; auto. Qed.
Lemma sees_look {A : Type} (f : tree -> result io_error A) :
  sees t (look h f) (fun r => forall a, r = Ok a -> f t = Ok a).
Proof. intros s Hs. split_and!; [done|done|]. simpl. rewrite Hs. by destruct (h_fault _ _) as [[[] m]|]. Qed.
Lemma sees_io {A : Type} (c : W (result io_error A)) (P : A -> Prop) : sees t c (fun r => forall a, r = Ok a -> P a) -> sees t (io c) P.
Proof.
  intros Hc. unfold io. eapply sees_bind; [exact Hc|]. intros r Hr. apply sees_of_res. intros a Ha%map_err_ok. auto.
Qed.
Lemma sees_gate {A : Type} (k : W A) P : sees t k P -> sees t (run* gate h in k) P.
Proof.
  intros Hk. apply (sees_bind _ _ (fun _ => True)); [|auto]. intros s Hs. split_and!; [done|done|]. simpl. by destruct (h_refuse _ _).
Qed.
Lemma sees_clock : sees t (read_clock h) (fun _ => True).
Proof. by intros s Hs. Qed.
Lemma sees_timed {A : Type} (f : (nat -> Z) -> Run A) (P : A -> Prop) :
  (forall g, clean (f g)) -> (forall g a, f g = Ok a -> P a) -> sees t (timed h f) P.
Proof.
  intros Hc Hp s Hs. split_and!; [done|done|]. simpl. specialize (Hc (fun n => h_instant h (s_clock s + n)%nat)).
  destruct (f _) as [a|[]] eqn:E; simpl in *; eauto.
Qed.
Lemma sees_listing p :
  (forall k l, h_order h k l ≡ₚ l) ->
  sees t (read_dir h p)
    (fun r => (forall l, r = Ok l -> l ≡ₚ names_in t p /\ (p = [] \/ t !! p = Some Folder)) /\ (r = Err NotFound -> t !! p = None)).
Proof.
  intros Hord s Hs. split_and!; [done|done|]. unfold read_dir, look. simpl. rewrite Hs.
  destruct (h_fault _ _) as [[[] m]|]; [done|done|].
  destruct p as [|x p]; [split; [|done]; intros l [= <-]; split; [apply Hord|by left]|].
  destruct (t !! (x :: p)) as [[]|]; (split; [|done]); intros l Hl; simplify_eq. split; [apply Hord|by right].
Qed.
Lemma sees_dir p :
  (forall k l, h_order h k l ≡ₚ l) ->
  sees t (io (read_dir h p)) (fun l => l ≡ₚ names_in t p /\ (p = [] \/ t !! p = Some Folder)).
Proof. intros Hord. apply sees_io. eapply sees_weaken; [by apply sees_listing|]. by intros r [Hr _]. Qed.
Lemma sees_fold {A X : Type} (f : A -> X -> W A) (J : list X -> A -> Prop) xs :
  (forall done a x rest, xs = done ++ x :: rest -> J done a -> sees t (f a x) (J (done ++ [x]))) ->
  forall a, J [] a -> sees t (fold_w f a xs) (J xs).
Proof.
  intros Hf. assert (Hgen : forall rest done a, xs = done ++ rest -> J done a -> sees t (fold_w f a rest) (J xs)).
  { induction rest as [|x rest IH]; intros done0 a E Ha; simpl.
    - rewrite app_nil_r in E. subst. by apply sees_ret.
    - apply (sees_bind _ _ (J (done0 ++ [x]))); [by eapply Hf|]. intros a' Ha'.
      apply (IH (done0 ++ [x])); [by rewrite <- app_assoc|done]. }
  intros a Ha. by apply (Hgen xs []).
Qed.
End Sees.

(** From a tree with [P], [c] passes only through trees with [I] and ends in a
    client error, in a tree with [I], or in a result and a tree with [Q]. *)
Definition hoare {A : Type} (I P : tree -> Prop) (c : W A) (Q : A -> tree -> Prop) : Prop :=
  forall s, P (s_tree s) ->
    (exists new, s_past (c s).2 = s_past s ++ new /\ Forall I new) /\
    match (c s).1 with Ok a => Q a (s_tree (c s).2) | Err (Failed _) => I (s_tree (c s).2) | Err _ => False end.

Section Hoare.
Context (h : host) {I : tree -> Prop}.

Lemma hoare_ret {A : Type} (a : A) (P : tree -> Prop) (Q : A -> tree -> Prop) : (forall t, P t -> Q a t) -> hoare I P (ret a) Q.
Proof. intros Hq s Hs. split; [exists []; by rewrite app_nil_r|]. simpl. auto. Qed.
Lemma hoare_bind {A B : Type} (c : W A) (k : A -> W B) P Q' Q :
  hoare I P c Q' -> (forall a, hoare I (Q' a) (k a) Q) -> hoare I P (bind c k) Q.
Proof.
  intros Hc Hk s Hs. unfold bind. destruct (Hc s Hs) as ((new & E1 & E2) & E3).
  destruct (c s) as [[a|e] s1]; simpl in *; [|by split; [eauto|destruct e]].
  destruct (Hk a s1 E3) as ((new' & F1 & F2) & F3). split; [|done].
  exists (new ++ new'). rewrite F1, E1, <- app_assoc. split; [done|]. by apply Forall_app.
Qed.
Lemma hoare_pre {A : Type} (c : W A) (P P' : tree -> Prop) Q : (forall t, P t -> P' t) -> hoare I P' c Q -> hoare I P c Q.
Proof. intros Hp Hc s Hs. by apply Hc, Hp. Qed.
Lemma hoare_pure {A : Type} (c : W A) (X : Prop) P Q : (X -> hoare I P c Q) -> hoare I (fun t => X /\ P t) c Q.
Proof. intros Hc s [Hx Hs]. by apply Hc. Qed.
Lemma hoare_weaken {A : Type} (c : W A) (P : tree -> Prop) (Q Q' : A -> tree -> Prop) :
  hoare I P c Q -> (forall a t, Q a t -> Q' a t) -> hoare I P c Q'.
Proof. intros Hc Hq s Hs. destruct (Hc s Hs) as [Hp Hr]. split; [done|]. destruct (c s).1 as [a|[]]; auto. Qed.
Lemma hoare_sees {A B : Type} (t : tree) (c : W A) (k : A -> W B) P Q :
  I t -> sees t c P -> (forall a, P a -> hoare I (eq t) (k a) Q) -> hoare I (eq t) (bind c k) Q.
Proof.
  intros Hi Hc Hk s Hs. unfold bind. destruct (Hc s (eq_sym Hs)) as (E1 & E2 & E3).
  destruct (c s) as [[a|e] s1]; simpl in *.
  - destruct (Hk a E3 s1 (eq_sym E1)) as ((new & F1 & F2) & F3). split; [|done]. exists new. by rewrite F1, E2.
  - split; [exists []; by rewrite app_nil_r|]. destruct e; try done. by rewrite E1.
Qed.
Lemma hoare_attempt {A : Type} (c : W A) (P : tree -> Prop) Q :
  hoare I P c Q ->
  hoare I P (attempt c) (fun r t => match r with Ok a => Q a t | Err (Failed _) => I t | Err _ => False end).
Proof. intros Hc s Hs. destruct (Hc s Hs) as [Hp Hr]. unfold attempt. by destruct (c s) as [r s1]. Qed.
Lemma hoare_each {A : Type} (P : tree -> Prop) (c : W A) Q : (forall t, P t -> hoare I (eq t) c Q) -> hoare I P c Q.
Proof. intros Hc s Hs. by apply (Hc _ Hs). Qed.
Lemma hoare_looks {A : Type} (f : tree -> result io_error A) (P : tree -> Prop) :
  (forall t, P t -> I t) -> hoare I P (io (look h f)) (fun _ => P).
Proof.
  intros Hi s Hs. unfold io, bind, look. simpl. specialize (Hi _ Hs).
  destruct (h_fault h (s_clock s)) as [[? m]|]; simpl; [|destruct (f (s_tree s)); simpl];
    (split; [exists []; by rewrite app_nil_r|done]).
Qed.
Lemma hoare_gate (P : tree -> Prop) : (forall t, P t -> I t) -> hoare I P (gate h) (fun _ => P).
Proof. intros Hi s Hs. split; [exists []; by rewrite app_nil_r|]. unfold gate. simpl. destruct (h_refuse _ _); simpl; auto. Qed.
Lemma hoare_change {A : Type} (f : nat -> tree -> result io_error A * tree) (P : tree -> Prop) (Q : A -> tree -> Prop) :
  (forall t, P t -> I t) -> (forall k t, P t -> I (f k t).2) -> (forall k t a, P t -> (f k t).1 = Ok a -> Q a (f k t).2) ->
  hoare I P (io (change h f)) Q.
Proof.
  intros Hi Hf Hq s Hs. unfold io, bind, change. destruct (h_fault h (s_clock s)) as [[[] m]|]; simpl.
  - split; [|by auto]. eexists; split; [done|]. apply Forall_singleton. auto.
  - split; [|by auto]. eexists; split; [done|]. apply Forall_singleton. auto.
  - specialize (Hq (s_clock s) (s_tree s)). specialize (Hf (s_clock s) (s_tree s) Hs).
    destruct (f _ _) as [r t]. simpl in *. split; [eexists; split; [done|]; by apply Forall_singleton|].
    destruct r; simpl; auto.
Qed.
Lemma hoare_fold {A X : Type} (f : A -> X -> W A) (J : list X -> A -> tree -> Prop) xs :
  (forall done a x rest, xs = done ++ x :: rest -> hoare I (J done a) (f a x) (J (done ++ [x]))) ->
  forall a, hoare I (J [] a) (fold_w f a xs) (J xs).
Proof.
  intros Hf. assert (Hgen : forall rest done a, xs = done ++ rest -> hoare I (J done a) (fold_w f a rest) (J xs)).
  { induction rest as [|x rest IH]; intros done0 a E; simpl.
    - rewrite app_nil_r in E. subst. by apply hoare_ret.
    - apply (hoare_bind _ _ _ (J (done0 ++ [x]))); [by eapply Hf|]. intros a'.
      apply (IH (done0 ++ [x])). by rewrite <- app_assoc. }
  intros a. by apply (Hgen xs []).
Qed.
End Hoare.

Lemma hoare_invariant {A : Type} (I I' P : tree -> Prop) (c : W A) Q :
  (forall t, I t -> I' t) -> hoare I P c Q -> hoare I' P c Q.
Proof.
  intros Hi Hc s Hs. destruct (Hc s Hs) as [(new & E & Hall) Hr]. split.
  - exists new. split; [done|]. by eapply list.Forall_impl.
  - destruct (c s).1 as [a|[]]; auto.
Qed.
End ScopeTree.
