(* ===== verification/Owners.v ===== *)
(** * Owners

    [src/snapshot/workspace_pins.rs], the discovery of the workspaces that own
    claims on a managed scope: every registration is read and checked against
    its owner directory, and every owner directory must be registered. The
    operations are those of the scope's tree, by path; [Pins] has the same
    records from the point of view of one store. *)

From S2P Require Import Prelude Types Faults Text Profile Frames Wire Disk Records Pins Capacity ScopeTree.
Import Digests Records Pins ScopeTree.
Import Capacity(CacheLimits, max_entries, max_owners).
Local Open Scope string_scope.
Local Open Scope list_scope.
Local Open Scope Z_scope.

Module Owners.

Definition REGISTRY_DIR : string := "workspace-pins".

Record RetentionOwner : Type := mkOwner {
  ro_binding : WorkspaceBinding; ro_root : rpath; ro_released : bool; ro_finished : bool;
}.

Definition canonical_hex (name : string) : bool := (str_len name =? 64) && forallb is_lower_hex (as_bytes name).

(** The directory of an owner. *)
Definition owner_root (sid id : string) : rpath := [sid; "owners"; id].

Section Owners.
Context `{HexCrate} `{UuidCrate} `{PinCodec} (h : host).

(** [check_directory]. *)
Definition check_directory (p : rpath) : W unit :=
  let* n := io (stat h p) in
  guard* negb (match n with Folder => true | _ => false end)
    with integrity "workspace cache component is not a real directory" in
  ret tt.

(** [read_record]. *)
Definition read_record {T} `{Serde T} (p : rpath) : W (option T) :=
  let* m := stat h p in
  match m with
  | Err NotFound => ret None
  | Err e => fail (io_error_of e)
  | Ok (Regular id _) =>
      guard* 16 * 1024 <? id_size id with integrity "workspace record exceeds its local size limit" in
      let* ' (_, b) := io (open_regular h p) in
      let b := take (Z.to_nat (16 * 1024 + 1)) b in
      guard* 16 * 1024 <? zlen b with integrity "workspace record exceeds its local size limit" in
      of_res (map_err (fun e => integrity ("invalid workspace record: " ++ e))
        (let? x := from_json b in Ok (Some x)))
  | Ok _ => fail (integrity "workspace record is not a regular file")
  end.

Definition validate_authority (dir : rpath) (domain scope : string) (snapshot : option string) : W unit :=
  let* a := read_record (T := AuthorityRecord) (dir ++ ["authority.json"]) in
  let* a := of_res (ok_or a (integrity "workspace cache authority binding is missing")) in
  guard* negb (au_revision a =? 1) || negb (String.eqb (au_domain a) domain) || negb (String.eqb (au_scope a) scope)
         || negb (bool_decide (au_snapshot a = snapshot))
    with integrity "workspace cache crosses its authorization domain or scope" in
  ret tt.

(** [WorkspaceBinding::scope_dir] of the owner directory [sid]/owners/[id]. *)
Definition scope_dir (b : WorkspaceBinding) (sid id : string) : W unit :=
  run* of_res (canonical_uuid (workspace_id b)) in
  let* digest := of_res (parse_digest (wb_snapshot_id b)) in
  guard* negb (wb_revision b =? REVISION) || negb (String.eqb id (workspace_id b))
         || negb (String.eqb sid (hex_encode digest))
    with integrity "workspace binding disagrees with its fixed cache location" in
  run* check_directory [sid; "owners"] in
  run* check_directory [sid] in
  run* check_directory (owner_root sid id) in
  run* validate_authority [] (auth_domain b) (wb_scope b) None in
  validate_authority (owner_root sid id) (auth_domain b) (wb_scope b) (Some (wb_snapshot_id b)).

(** [WorkspaceBinding::validate_store]; the content directory is that of the
    scope. *)
Definition validate_store (b : WorkspaceBinding) (sid id : string) : W unit :=
  run* scope_dir b sid id in
  run* check_directory ["blobs"] in
  validate_authority ["blobs"] (auth_domain b) (wb_scope b) None.

(** [require_owner] with [owner_binding]: below [owners], a missing record is an
    error. *)
Definition require_owner (sid id : string) : W WorkspaceBinding :=
  let* b := read_record (T := WorkspaceBinding) (owner_root sid id ++ [OWNER_FILE]) in
  let* b := of_res (ok_or b (integrity "workspace owner record is missing")) in
  run* validate_store b sid id in
  ret b.

Definition release_record (b : WorkspaceBinding) (sid id : string) : W (option ReleaseRecord) :=
  let* r := read_record (T := ReleaseRecord) (owner_root sid id ++ [REVOKE_FILE]) in
  match r with
  | None => ret None
  | Some r =>
      run* of_res (canonical_uuid (operation_id r)) in
      guard* negb (bool_decide (rl_binding r = b)) with integrity "local pin revocation binding changed" in
      ret (Some r)
  end.

Definition read_registration (id : string) : W (option Registration) :=
  run* of_res (canonical_uuid id) in
  let* m := stat h [REGISTRY_DIR] in
  match m with
  | Ok _ =>
      run* check_directory [REGISTRY_DIR] in
      read_record (T := Registration) [REGISTRY_DIR; (id ++ ".json")%string]
  | Err NotFound => ret None
  | Err e => fail (io_error_of e)
  end.

(** ** [discover_retention_owners] *)

Record discovery : Type := mkDiscovery {
  dc_steps : Z; dc_out : list RetentionOwner; dc_registered : gset (string * string);
}.

Section Discover.
Context (limits : CacheLimits) (deadline : Z).

(** The closure [step]. *)
Definition count_step (d : discovery) : W discovery :=
  let steps := dc_steps d + 1 in
  let* now := read_clock h in
  guard* (max_entries limits <? steps) || (deadline <=? now)
    with SnapshotError_new LimitExceeded "workspace inventory budget exceeded" in
  ret (mkDiscovery steps (dc_out d) (dc_registered d)).

(** A registration and the owner it names. *)
Definition registered_owner (d : discovery) (id : string) : W discovery :=
  let* g := read_registration id in
  let* g := of_res (ok_or g (integrity "workspace registry entry disappeared")) in
  guard* negb (String.eqb (workspace_id (rg_binding g)) id) with integrity "workspace registry owner changed" in
  let* digest := of_res (parse_digest (wb_snapshot_id (rg_binding g))) in
  let sid := hex_encode digest in
  let* b := require_owner sid id in
  guard* negb (bool_decide (b = rg_binding g)) with integrity "registry entry differs from workspace owner" in
  let* release := release_record b sid id in
  ret (mkDiscovery (dc_steps d)
         (dc_out d ++ [mkOwner b (owner_root sid id) (bool_decide (rg_state g = Released))
                         (match release with Some r => match phase r with Revoked => true | _ => false end | None => false end)])
         ({[(sid, id)]} ∪ dc_registered d)).

(** One entry of the registry. *)
Definition registry_entry (d : discovery) (name : string) : W discovery :=
  let* d := count_step d in
  guard* negb (is_utf8 name) with integrity "invalid registry filename" in
  let* n := io (stat h [REGISTRY_DIR; name]) in
  guard* negb (match n with Regular _ _ => true | _ => false end) with integrity "registry contains a nonregular entry" in
  match strip_suffix ".lock" name with
  | Some id => run* of_res (canonical_uuid id) in ret d
  | None =>
      if starts_with "." name && str_contains ".json.tmp." name then ret d
      else
        let* id := of_res (ok_or (strip_suffix ".json" name) (integrity "unknown workspace registry entry")) in
        run* of_res (canonical_uuid id) in
        guard* max_owners limits <=? zlen (dc_out d)
          with SnapshotError_new LimitExceeded "workspace owner budget exceeded" in
        registered_owner d id
  end.

(** One owner directory of a snapshot directory. *)
Definition owner_entry (sid : string) (d : discovery) (id : string) : W discovery :=
  let* d := count_step d in
  guard* negb (is_utf8 id) with integrity "invalid owner directory" in
  run* of_res (canonical_uuid id) in
  run* check_directory (owner_root sid id) in
  guard* negb (bool_decide ((sid, id) ∈ dc_registered d)) with integrity "workspace owner is absent from registry" in
  ret d.

(** One entry of the scope. *)
Definition view_entry (d : discovery) (sid : string) : W discovery :=
  let* d := count_step d in
  if negb (is_utf8 sid && canonical_hex sid) then ret d
  else
    run* check_directory [sid] in
    let* entries := read_dir h [sid; "owners"] in
    match entries with
    | Ok entries => run* check_directory [sid; "owners"] in fold_w (owner_entry sid) d entries
    | Err NotFound => ret d
    | Err e => fail (io_error_of e)
    end.

Definition discover_retention_owners : W (list RetentionOwner) :=
  let* entries := read_dir h [REGISTRY_DIR] in
  let* d := match entries with
            | Ok entries =>
                run* check_directory [REGISTRY_DIR] in
                fold_w registry_entry (mkDiscovery 0 [] ∅) entries
            | Err NotFound => ret (mkDiscovery 0 [] ∅)
            | Err e => fail (io_error_of e)
            end in
  let* views := io (read_dir h []) in
  let* d := fold_w view_entry d views in
  ret (dc_out d).
End Discover.
End Owners.
End Owners.
