(* ===== verification/Inventory.v ===== *)
(** * Inventory

    [src/snapshot/cache_retention.rs]: the control records of a managed scope,
    the names its fixed layout allows, the bounded inventory of everything in
    it, the reads of a proof against that inventory, and the atomic write of a
    control record. *)

From S2P Require Import Prelude Types Faults Text Profile Frames Wire Disk Records Pins Capacity ScopeTree Owners.
Import Digests Records Capacity ScopeTree.
Import Pins(WorkspaceBinding).
Import Owners(canonical_hex, owner_root).
Local Open Scope string_scope.
Local Open Scope list_scope.
Local Open Scope Z_scope.

Module Inventory.

Definition POLICY : string := "cache-capacity.json".
Definition LEDGER : string := "cache-charges.json".
Definition FENCE : string := "cache-lifecycle.lock".
Definition ADMISSION_LOCK : string := "cache-admission.lock".
Definition OWNER_ADMISSION_LOCK : string := "cache-owner-admission.lock".
Definition INTENTS : string := "cache-writers".
Definition USE_RECORD : string := "CACHE_USE.json".
Definition RETENTION_DIR : string := "retention".

Record CapacityPolicy : Type := mkPolicy { cp_revision : Z; cp_limits : CacheLimits }.
Record Charges : Type := mkCharges { ch_revision : Z; ch_bytes : Z; ch_entries : Z }.
Record WriterIntent : Type := mkWriter {
  wi_revision : Z; wi_operation : string; wi_directory : string; wi_final : string; wi_temporary : string;
  wi_maximum : Z;
}.
Record HydrationIntent : Type := mkHydration {
  hi_revision : Z; hi_operation : string; hi_binding : WorkspaceBinding; hi_maximum : Z;
}.
Record WorkspaceUse : Type := mkUse {
  wu_revision : Z; wu_binding : WorkspaceBinding; wu_retired : bool; wu_descriptor : option string;
  wu_pages : list PageDependency;
}.

Class RetentionCodec : Type := {
  policy_json :: Serde CapacityPolicy;
  charges_json :: Serde Charges;
  writer_json :: Serde WriterIntent;
  hydration_json :: Serde HydrationIntent;
  use_json :: Serde WorkspaceUse;
}.

Definition json_error (e : string) : SnapshotError := integrity ("invalid managed cache record: " ++ e).
Definition from_slice {T} `{Serde T} (b : bytes) : Res T := map_err json_error (from_json b).

(** ** The layout *)

Section Layout.
Context `{UuidCrate}.

Definition canonical_uuid (id : string) : Res unit :=
  match uuid_parse_str id with
  | Some value =>
      if negb (uuid_is_nil value) && String.eqb (uuid_to_string value) id then Ok tt
      else Err (integrity "cache intent UUID is not canonical")
  | None => Err (integrity "cache intent UUID is not canonical")
  end.
Definition is_uuid (id : string) : bool := match canonical_uuid id with Ok _ => true | Err _ => false end.

(** [parts]: every path is below the scope. *)
Definition parts (p : rpath) : Res (list string) :=
  reject? negb (forallb is_utf8 p) with integrity "cache name is not UTF-8" in Ok p.

Definition or_else {A} (a b : option A) : option A := match a with Some _ => a | None => b end.

Definition raw_control_temporary (p : rpath) : Res bool :=
  let? relative := parts p in
  match match relative with
        | [name] => Some (name, false)
        | [dir; name] => if String.eqb dir INTENTS then Some (name, true) else None
        | _ => None
        end with
  | None => Ok false
  | Some (name, in_intents) =>
      match (n ← strip_prefix "." name; rsplit_once ".tmp." n) with
      | None => Ok false
      | Some (final, id) =>
          if negb (is_uuid id) then Ok false
          else if negb in_intents then Ok (one_of final [POLICY; LEDGER])
          else
            match or_else (strip_suffix ".hydrate.json" final) (strip_suffix ".json" final) with
            | Some id => Ok (is_uuid id)
            | None => Ok false
            end
      end
  end.

Section Owned.
Context (owners : gset rpath).
Definition owned (sid id : string) : bool := bool_decide (owner_root sid id ∈ owners).

Definition valid_directory (p : rpath) : Res bool :=
  let? parts := parts p in
  Ok match parts with
     | [name] => one_of name ["blobs"; "pages"; "workspace-pins"; INTENTS] || canonical_hex name
     | [sid; dir] => String.eqb dir "owners" && canonical_hex sid
     | [sid; dir; id] => String.eqb dir "owners" && canonical_hex sid && owned sid id
     | [sid; dir; id; name] => String.eqb dir "owners" && owned sid id && one_of name ["metadata"; RETENTION_DIR]
     | [sid; dir; id; retention; pages] =>
         String.eqb dir "owners" && String.eqb retention RETENTION_DIR && String.eqb pages "pages" && owned sid id
     | _ => false
     end.

Definition owner_files : list string :=
  ["authority.json"; "authority.lock"; "workspace.json"; ".hydrate.lock"; USE_RECORD; "LOCAL_PIN_REVOKE"; "view.json";
   "manifest.json"; "journal.log"; "DURABLE_COMPLETE"; "pin.json"; "offline_grant.json"; "NEEDS_REPAIR";
   "descriptor.bin"; "metadata.json"].

Definition valid_final_file (p : rpath) : Res bool :=
  let? parts := parts p in
  match file_name parts with
  | None => Ok false
  | Some name =>
      Ok match parent parts with
         | [] => one_of name ["authority.json"; "authority.lock"; POLICY; LEDGER; FENCE; ADMISSION_LOCK;
                              OWNER_ADMISSION_LOCK; "closures.json"; "closures.lock"]
         | [dir] =>
             if String.eqb dir "blobs" then canonical_hex name || one_of name ["authority.json"; "authority.lock"]
             else if String.eqb dir "pages" then canonical_hex name
             else if String.eqb dir "workspace-pins" then
               match or_else (strip_suffix ".json" name) (strip_suffix ".lock" name) with
               | Some id => is_uuid id
               | None => false
               end
             else false
         | [sid; dir; id] => String.eqb dir "owners" && owned sid id && one_of name owner_files
         | [sid; dir; id; sub] =>
             String.eqb dir "owners" && owned sid id &&
             (if String.eqb sub "metadata" then canonical_hex name
              else String.eqb sub RETENTION_DIR && String.eqb name "descriptor.msd2")
         | [sid; dir; id; retention; pages] =>
             String.eqb dir "owners" && String.eqb retention RETENTION_DIR && String.eqb pages "pages" && owned sid id
             && canonical_hex name
         | _ => false
         end
  end.
End Owned.

Definition validate_child (name : string) : Res unit :=
  reject? is_empty name || String.eqb name "." || String.eqb name ".." || contains_char "/"%char name
          || contains_char "\"%char name || contains_char "000"%char name
    with integrity "invalid managed cache child name" in
  Ok tt.
End Layout.

(** ** Records, locks and the ledger *)

Section Records.
Context `{RetentionCodec} (h : host) (outer : Res bool).

(** [read_optional_bytes]. *)
Definition read_optional_bytes (p : rpath) (maximum : Z) : W (option bytes) :=
  let* f := open_regular h p in
  match f with
  | Err NotFound => ret None
  | Err e => fail (io_error_of e)
  | Ok (id, b) =>
      guard* maximum <? id_size id with limit "managed cache record size budget exceeded" in
      let b := take (Z.to_nat (maximum + 1)) b in
      guard* maximum <? zlen b with limit "managed cache record grew beyond its budget" in
      ret (Some b)
  end.

(** [read_record] with [read_optional_record]. *)
Definition read_record {T} `{Serde T} (p : rpath) (maximum : Z) : W T :=
  let* b := read_optional_bytes p maximum in
  let* b := of_res (ok_or b (integrity "managed cache record is missing")) in
  of_res (from_slice b).

(** [policy] of a scope. *)
Definition policy_of (scope : rpath) : W CacheLimits :=
  let* p := read_record (T := CapacityPolicy) (scope ++ [POLICY]) CONTROL_BYTES in
  guard* negb (cp_revision p =? 1) with integrity "unsupported managed cache policy" in
  run* of_res (validate_limits (h_reachable h) (cp_limits p)) in
  ret (cp_limits p).
Definition policy : W CacheLimits := policy_of [].

(** [managed_scope] is some scope; [outer] is what the directories above say. *)
Definition managed_scope : W bool :=
  let* n := stat h [POLICY] in
  match n with
  | Ok (Regular _ _) => run* policy in ret true
  | Ok _ => fail (integrity "managed cache policy is not a regular file")
  | Err NotFound => of_res outer
  | Err e => fail (io_error_of e)
  end.

(** [lock]: the file is created when missing; the lock itself is a gate. *)
Definition lock_in (scope : rpath) (name : string) : W unit :=
  run* io (open_rw_create h (scope ++ [name])) in
  gate h.
Definition lock (name : string) : W unit := lock_in [] name.

Definition raw_atomic {T} `{Serde T} (dir : rpath) (name : string) (value : T) : W unit :=
  run* of_res (validate_child name) in
  let* b := of_res (map_err json_error (to_json value)) in
  guard* CONTROL_BYTES <? zlen b with limit "cache control record exceeds budget" in
  let* id := new_uuid h in
  let temporary := dir ++ [("." ++ name ++ ".tmp." ++ id)%string] in
  let* r := attempt (run* io (create_new h temporary) in
                     run* io (write_all h temporary b) in
                     run* io (sync_all h) in
                     run* io (rename h temporary (dir ++ [name])) in
                     io (sync_all h)) in
  match r with
  | Ok _ => ret tt
  | Err e => run* attempt (io (remove_file h temporary)) in of_run (Err e)
  end.
End Records.

(** ** The inventory *)

Record Inventory : Type := mkInventory {
  in_bytes : Z; in_entries : Z; in_allocation : Z; in_files : gmap rpath RegularIdentity; in_directories : gset rpath;
  in_deadline : Z; in_limits : CacheLimits;
}.

(** [size_of::<(PathBuf, u64)>()]. *)
Definition PATH_AND_SIZE : Z := 32.

(** The keys of the two ordered collections. *)
Definition file_list (v : Inventory) : list rpath := sort_by path_key ((map_to_list (in_files v)).*1).
Definition directory_list (v : Inventory) : list rpath := sort_by path_key (elements (in_directories v)).

Section Scan.
Context (h : host) (base : Z).

Definition check_work (v : Inventory) : W unit :=
  let* now := read_clock h in
  guard* in_deadline v <=? now with limit "cache inventory deadline exceeded" in
  ret tt.

(** One entry is counted. *)
Definition count_entry (v : Inventory) : Res Inventory :=
  let entries := in_entries v + 1 in
  reject? max_entries (in_limits v) <? entries with limit "cache inventory entry budget exceeded" in
  Ok (mkInventory (in_bytes v) entries (in_allocation v) (in_files v) (in_directories v) (in_deadline v) (in_limits v)).

(** Its bytes and the memory of its path are charged. *)
Definition charge_entry (v : Inventory) (p : rpath) (size : Z) : Res Inventory :=
  let? bytes := ok_or (checked_add (in_bytes v) (ENTRY_CHARGE + size)) (limit "cache inventory byte count overflow") in
  reject? max_bytes (in_limits v) <? bytes with limit "cache physical inventory exceeds capacity" in
  let? allocation := ok_or (checked_add (in_allocation v) (saturating_mul (path_len base p) 2 + PATH_AND_SIZE + 64))
                       (limit "cache inventory allocation overflow") in
  reject? max_inventory_bytes (in_limits v) <? allocation with limit "cache inventory allocation budget exceeded" in
  Ok (mkInventory bytes (in_entries v) allocation (in_files v) (in_directories v) (in_deadline v) (in_limits v)).

Definition add_directory (p : rpath) (v : Inventory) : Inventory :=
  mkInventory (in_bytes v) (in_entries v) (in_allocation v) (in_files v) ({[p]} ∪ in_directories v) (in_deadline v)
    (in_limits v).
Definition add_file (p : rpath) (id : RegularIdentity) (v : Inventory) : Inventory :=
  mkInventory (in_bytes v) (in_entries v) (in_allocation v) (<[p := id]> (in_files v)) (in_directories v)
    (in_deadline v) (in_limits v).

(** One iteration of [scan_directory]. *)
Definition scan_entry (scan : rpath -> Inventory -> W Inventory) (dir : rpath) (v : Inventory) (name : string)
    : W Inventory :=
  run* check_work v in
  let* v := of_res (count_entry v) in
  let p := dir ++ [name] in
  let* n := io (stat h p) in
  match n with
  | Special => fail (integrity "managed cache contains a symlink or special file")
  | Regular id _ => let* v := of_res (charge_entry v p (id_size id)) in ret (add_file p id v)
  | Folder => let* v := of_res (charge_entry v p 0) in scan p (add_directory p v)
  end.

(** [Inventory::scan_directory]. *)
Fixpoint scan_directory (fuel : nat) (dir : rpath) (depth : Z) (v : Inventory) : W Inventory :=
  match fuel with
  | O => of_run (Err OutOfFuel)
  | S fuel =>
      run* check_work v in
      guard* 8 <? depth with integrity "unknown managed cache directory layout" in
      let* names := io (read_dir h dir) in
      fold_w (scan_entry (fun p => scan_directory fuel p (depth + 1)) dir) v names
  end.

(** Depths 0 to 9 are entered. *)
Definition scan_fuel : nat := 10.

Definition scan (limits : CacheLimits) : W Inventory :=
  let* now := read_clock h in
  scan_directory scan_fuel [] 0 (mkInventory 0 0 0 ∅ ∅ (now + max_scan_millis limits) limits).
End Scan.

(** ** Reads of a proof *)

Record CollectionBudget : Type := mkCollection {
  cb_limits : CacheLimits; cb_deadline : Z; cb_allocation : Z; cb_metadata : Z; cb_nodes : Z;
}.

Definition set_allocation (n : Z) (b : CollectionBudget) : CollectionBudget :=
  mkCollection (cb_limits b) (cb_deadline b) n (cb_metadata b) (cb_nodes b).
Definition set_metadata (n : Z) (b : CollectionBudget) : CollectionBudget :=
  mkCollection (cb_limits b) (cb_deadline b) (cb_allocation b) n (cb_nodes b).
Definition set_nodes (n : Z) (b : CollectionBudget) : CollectionBudget :=
  mkCollection (cb_limits b) (cb_deadline b) (cb_allocation b) (cb_metadata b) n.

Section Budget.
Context (h : host) (v : Inventory).

(** [CollectionBudget::admit]. *)
Definition admit_bytes (n : Z) (b : CollectionBudget) : W CollectionBudget :=
  let* now := read_clock h in
  guard* cb_deadline b <=? now with limit "cache collection deadline exceeded" in
  let* a := of_res (ok_or (checked_add (cb_allocation b) n) (limit "collection allocation overflow")) in
  guard* max_inventory_bytes (cb_limits b) <? a with limit "collection allocation budget exceeded" in
  ret (set_allocation a b).

(** [CollectionBudget::read]. *)
Definition read (p : rpath) (maximum : Z) (b : CollectionBudget) : W (option bytes * CollectionBudget) :=
  match in_files v !! p with
  | None => ret (None, b)
  | Some expected =>
      let size := id_size expected in
      guard* maximum <? size with limit "cache record exceeds its read budget" in
      let* b := admit_bytes (saturating_add (saturating_mul size 16) 512) b in
      let* ' (id, data) := io (open_regular h p) in
      guard* negb (bool_decide (id = expected)) with integrity "cache inventory entry lifetime changed during proof" in
      let data := take (Z.to_nat (size + 1)) data in
      guard* negb (zlen data =? size) with integrity "cache record changed during proof" in
      ret (Some data, b)
  end.

(** [CollectionBudget::required]. *)
Definition required (p : rpath) (maximum : Z) (b : CollectionBudget) : W (bytes * CollectionBudget) :=
  let* ' (data, b) := read p maximum b in
  let* data := of_res (ok_or data (integrity "cache protection dependency is missing")) in
  ret (data, b).
End Budget.
End Inventory.
