(* ===== verification/Incremental.v ===== *)
(** * Incremental

    [src/snapshot/incremental.rs]: the cache of one scope, which keeps verified
    metadata pages and records of verified subtrees across snapshots, and the
    refresh that lists the files of a snapshot from them. The refresh is a
    level-order walk: pages come from the cache or, in batches, from the server;
    a directory whose record can be reused is not visited; a directory whose
    pages and subdirectories are complete stages its record and hands its files
    to its parent. The counters of the source, which are reporting only, are
    left out. *)

From S2P Require Import Prelude Types Faults Text Profile Frames Metadata Closure Disk Records Durable.
Import Digests Profile.Scope Metadata Closure Disk Records.
Local Open Scope string_scope.
Local Open Scope list_scope.
Local Open Scope Z_scope.

(** [metapage::PAGE_MAX_BYTES]. *)
Class PageBytes : Type := { PAGE_MAX_BYTES : Z }.

Module Incremental.

Definition POLICY_REVISION : Z := 2.
Definition INDEX_FILE : string := "closures.json".
Definition PAGE_BATCH : nat := 64.

Record ClosureRecord : Type := mkRecord {
  cr_auth_domain : string; cr_metadata_codec : Z; cr_policy_revision : Z; cr_root_page_id : string;
  cr_page_ids : list string; cr_total_entries : Z; cr_files : list SnapshotFile; cr_pin_ref : string;
}.
#[export] Instance ClosureRecord_eq_dec : EqDecision ClosureRecord.
Proof. solve_decision. Defined.

Definition compatible (r : ClosureRecord) (auth_domain : string) (codec : Z) : bool :=
  String.eqb (cr_auth_domain r) auth_domain && (cr_metadata_codec r =? codec)
  && (cr_policy_revision r =? POLICY_REVISION).

Definition set_pin (r : ClosureRecord) (pin : string) : ClosureRecord :=
  mkRecord (cr_auth_domain r) (cr_metadata_codec r) (cr_policy_revision r) (cr_root_page_id r) (cr_page_ids r)
    (cr_total_entries r) (cr_files r) pin.

Abbreviation index := (gmap string ClosureRecord).

Record ClosureTransaction : Type := mkTransaction { tx_records : index; tx_live_pins : gset string; tx_dirty : bool }.

Definition put_record (tx : ClosureTransaction) (r : ClosureRecord) : ClosureTransaction :=
  if decide (tx_records tx !! cr_root_page_id r = Some r) then tx
  else mkTransaction (<[cr_root_page_id r := r]> (tx_records tx)) (tx_live_pins tx) true.

Record ReusedSubtree : Type := mkReused { ru_page_ids : list string; ru_files : list SnapshotFile; ru_total : Z }.

(** [with_prefix]. *)
Definition with_prefix (rel dir : string) : string :=
  let prefix := trim_start_slash dir in
  if is_empty prefix then rel
  else if is_empty rel then prefix
  else prefix ++ "/" ++ trim_start_slash rel.

Definition rebase (dir : string) (f : SnapshotFile) : SnapshotFile :=
  mkFile (with_prefix (rel_path f) dir) (file_kind f) (file_size f) (file_digest f).

Definition io_err (e : io_error) : SnapshotError :=
  SnapshotError_new Internal ("scope cache: " ++
    match e with NotFound => "entity not found" | AlreadyExists => "entity already exists" | OtherError m => m end).

Definition overflow : SnapshotError := SnapshotError_new LimitExceeded "entry count overflow".

(** The snapshots with an active pin among the audited owners. *)
Definition active_pins (inventory : list (string * Durable.PinAudit)) : list string :=
  omap (fun a => match a.2 with Durable.AuditActive id => Some id | _ => None end) inventory.

(** ** The cache of a scope *)

Section Cache.
Context `{HexCrate} `{PageCodec} `{PageBytes} `{Serde index} (env : environment).
(** Whether the scope is managed by a retention policy, and what the audit of
    its owners finds. *)
Context (managed : bool) (pin_inventory : nat -> Res (list (string * Durable.PinAudit))).

Definition cache_sys {A} (f : disk -> result io_error A * disk) : M A := sys_with env io_err f.

(** The closure of [write_atomic]. *)
Definition write_page_file (D : dir) (name tmp : string) (b : bytes) : M unit :=
  let* f := cache_sys (do_create (D, tmp)) in
  run* cache_sys (do_write f b) in
  run* cache_sys (do_sync f) in
  cache_sys (do_rename (D, tmp) (D, name)).

(** [write_atomic]: the gates are the retention guard, the directory and the
    capacity admission; the caller syncs the directory when it has to. *)
Definition write_atomic (D : dir) (name : string) (b : bytes) : M unit :=
  run* gate env in
  run* gate env in
  run* gate env in
  let* id := new_uuid env in
  let tmp := tmp_name name id in
  let* r := attempt (write_page_file D name tmp b) in
  match r with
  | Ok tt => ret tt
  | Err e => run* step env (do_remove (D, tmp)) in of_run (Err e)
  end.

(** [load_records]: an unreadable index counts as empty. *)
Definition load_records : M index :=
  let* r := step env (do_read (Scope, INDEX_FILE)) in
  match r with
  | Ok b => ret match from_json b with Ok m => m | Err _ => ∅ end
  | Err NotFound => ret ∅
  | Err e => fail (io_err e)
  end.

(** [store_records]. *)
Definition store_records (m : index) : M unit :=
  let* b := of_res (map_err (SnapshotError_new Internal) (to_json m)) in
  run* write_atomic Scope INDEX_FILE b in
  cache_sys (do_sync_dir Scope).

(** [index_lock]. *)
Definition index_lock : M unit :=
  let* free := try_transaction env in
  guard* negb free
    with SnapshotError_new SnapshotNotReady "another local closure-index transaction is active; retry later" in
  ret tt.

(** [sync_transaction]: the gate is the lock, for which it waits. *)
Definition sync_transaction : M ClosureTransaction :=
  run* gate env in
  let* records := load_records in
  let* inventory := ask pin_inventory in
  ret (mkTransaction records (list_to_set (active_pins inventory)) false).

(** [ClosureTransaction::commit]. *)
Definition commit (tx : ClosureTransaction) : M unit :=
  if tx_dirty tx then store_records (tx_records tx) else ret tt.

(** [record_for]. *)
Definition record_for (root : string) : M (option ClosureRecord) :=
  let* r := attempt load_records in
  ret match r with Ok m => m !! root | Err _ => None end.

(** [ScopeCache::put_record]. *)
Definition insert_record (r : ClosureRecord) : M unit :=
  run* index_lock in
  let* records := load_records in
  store_records (<[cr_root_page_id r := r]> records).

(** [drop_records_for_pin_impl]. *)
Definition drop_records_for_pin (pin_ref : string) : M Z :=
  run* index_lock in
  let* inventory := ask pin_inventory in
  if existsb (fun a => String.eqb a.1 pin_ref && match a.2 with Durable.AuditInactive => false | _ => true end) inventory
  then ret 0
  else
    let* records := load_records in
    let kept := filter (fun kr => cr_pin_ref kr.2 <> pin_ref) records in
    run* store_records kept in
    ret (Z.of_nat (size records) - Z.of_nat (size kept)).

(** [live_pins]. *)
Definition live_pins : M (list string) :=
  let* inventory := ask pin_inventory in
  ret (sort_by id (elements (list_to_set (C := gset string) (active_pins inventory)))).

(** [put_page]. *)
Definition put_page (page : string) (b : bytes) : M unit :=
  let* id := of_res (parse_digest page) in
  write_atomic Pages (hex_encode id) b.

(** [read_page_verified]: bytes that do not hash to the name are a miss, and
    are removed unless a retention policy owns the directory. *)
Definition read_page_verified (page : string) : M (option bytes) :=
  run* gate env in
  match parse_digest page with
  | Err _ => ret None
  | Ok want =>
      let p := (Pages, hex_encode want) in
      let* r := step env (do_open p) in
      match r with
      | Err NotFound => ret None
      | Err e => fail (io_err e)
      | Ok _ =>
          let* ' (_, len) := cache_sys (do_metadata p) in
          if PAGE_MAX_BYTES <? len then ret None
          else
            let* b := cache_sys (do_read p) in
            let b := take (Z.to_nat (PAGE_MAX_BYTES + 1)) b in
            if PAGE_MAX_BYTES <? zlen b then ret None
            else if decide (page_id b = want) then ret (Some b)
            else
              run* (if managed then ret tt else run* step env (do_remove p) in ret tt) in
              ret None
      end
  end.

(** [read_page_verified_bounded]: the same for lookups, which remove nothing. *)
Definition read_page_verified_bounded (page : string) : M (option bytes) :=
  run* gate env in
  match parse_digest page with
  | Err _ => ret None
  | Ok want =>
      let p := (Pages, hex_encode want) in
      let* r := step env (do_open p) in
      match r with
      | Err NotFound => ret None
      | Err e => fail (io_err e)
      | Ok _ =>
          let* ' (_, len) := cache_sys (do_metadata p) in
          if PAGE_MAX_BYTES <? len then ret None
          else
            let* b := cache_sys (do_read p) in
            let b := take (Z.to_nat (PAGE_MAX_BYTES + 1)) b in
            if PAGE_MAX_BYTES <? zlen b then ret None
            else ret (if decide (page_id b = want) then Some b else None)
      end
  end.

(** ** The refresh *)

(** What the reader is fixed to, and what the server and a choice among several
    finished directories answer. *)
Context `{CodecScope} (scope auth_domain snapshot_id metadata_root : string) (codec : Z).
Context (fetch_pages : nat -> list MetadataPageItem -> Res (list (bytes * bytes))) (choose : nat -> nat).

(** One page of a directory to visit. *)
Record Item : Type := mkPageItem { it_dir : string; it_route : list Z; it_expected : string }.

Record DirState : Type := mkState {
  ds_base : string; ds_parent : option string; ds_root : string; ds_pages : gset string;
  ds_files : list SnapshotFile; ds_total : Z; ds_pending_pages : Z; ds_pending_children : Z;
}.

Record walk : Type := mkWalk {
  w_out : list SnapshotFile; w_states : gmap string DirState; w_frontier : list Item; w_tx : ClosureTransaction;
}.

(** Every page of a record must be there and hash correctly. *)
Fixpoint all_cached (ids : list string) : M bool :=
  match ids with
  | [] => ret true
  | id :: ids =>
      let* b := read_page_verified id in
      match b with None => ret false | Some _ => all_cached ids end
  end.

(** [try_reuse]. *)
Definition try_reuse (root dir : string) (tx : ClosureTransaction) : M (option ReusedSubtree * ClosureTransaction) :=
  run* of_res (validate_relative_path scope dir) in
  match tx_records tx !! root with
  | None => ret (None, tx)
  | Some r =>
      if negb (compatible r auth_domain codec)
         || negb (bool_decide (cr_pin_ref r ∈ tx_live_pins tx))
         || bool_decide (cr_page_ids r = []) || negb (String.eqb (cr_root_page_id r) root)
         || negb (bool_decide (root ∈ cr_page_ids r))
      then ret (None, tx)
      else
        let* cached := all_cached (cr_page_ids r) in
        if negb cached then ret (None, tx)
        else
          ret (Some (mkReused (cr_page_ids r) (cr_files r) (cr_total_entries r)),
               if String.eqb (cr_pin_ref r) snapshot_id then tx
               else mkTransaction (<[root := set_pin r snapshot_id]> (tx_records tx)) (tx_live_pins tx) true)
  end.

(** A complete subtree is handed to the state of its parent, if there is one. *)
Definition hand_over (parent base : string) (ids : gset string) (files : list SnapshotFile) (total : Z)
    (states : gmap string DirState) : Run (gmap string DirState) :=
  match states !! parent with
  | None => Ok states
  | Some ps =>
      let? sum := ok_or (checked_add (ds_total ps) total) (Failed overflow) in
      reject? ds_pending_children ps <=? 0 with Panicked in
      Ok (<[parent := mkState (ds_base ps) (ds_parent ps) (ds_root ps) (ds_pages ps ∪ ids)
                        (ds_files ps ++ (rebase base <$> files)) sum (ds_pending_pages ps)
                        (ds_pending_children ps - 1)]> states)
  end.

(** One more child is awaited. *)
Definition await_child (parent : option string) (states : gmap string DirState) : gmap string DirState :=
  match parent with
  | None => states
  | Some p => alter (fun ps => mkState (ds_base ps) (ds_parent ps) (ds_root ps) (ds_pages ps) (ds_files ps) (ds_total ps)
                                 (ds_pending_pages ps) (ds_pending_children ps + 1)) p states
  end.

(** [finish_from_record!] for a subtree that is reused. *)
Definition finish_from_record (u : ReusedSubtree) (parent : option string) (base : string) (w : walk) : Run walk :=
  match parent with
  | Some p =>
      let? states := hand_over p base (list_to_set (ru_page_ids u)) (ru_files u) (ru_total u) (w_states w) in
      Ok (mkWalk (w_out w) states (w_frontier w) (w_tx w))
  | None => Ok (mkWalk (ru_files u) (w_states w) (w_frontier w) (w_tx w))
  end.

(** [enqueue_dir!]. *)
Definition enqueue_dir (dir expected : string) (parent : option string) (base : string) (w : walk) : M walk :=
  run* of_res (validate_relative_path scope dir) in
  let w := mkWalk (w_out w) (await_child parent (w_states w)) (w_frontier w) (w_tx w) in
  let* ' (reused, tx) := try_reuse expected dir (w_tx w) in
  let w := mkWalk (w_out w) (w_states w) (w_frontier w) tx in
  match reused with
  | Some u => of_run (finish_from_record u parent base w)
  | None =>
      ret (mkWalk (w_out w) (<[dir := mkState base parent expected ∅ [] 0 1 0]> (w_states w))
             (w_frontier w ++ [mkPageItem dir [] expected]) tx)
  end.

(** The pages of a batch that are cached, and the requests for the others. *)
Record gathered : Type := mkGathered {
  g_routes : gmap (string * list Z) string; g_bytes : gmap string bytes; g_items : list MetadataPageItem;
}.

Definition gather (g : gathered) (it : Item) : M gathered :=
  run* of_res (validate_relative_path scope (it_dir it)) in
  let routes := <[(it_dir it, it_route it) := it_expected it]> (g_routes g) in
  guard* PAGE_MAX_DEPTH <? zlen (it_route it)
    with SnapshotError_new LimitExceeded "metadata radix depth exceeds 255" in
  match g_bytes g !! it_expected it with
  | Some _ => ret (mkGathered routes (g_bytes g) (g_items g))
  | None =>
      let* b := read_page_verified (it_expected it) in
      ret match b with
          | Some b => mkGathered routes (<[it_expected it := b]> (g_bytes g)) (g_items g)
          | None => mkGathered routes (g_bytes g)
                      (g_items g ++ [mkItem (it_dir it) (it_route it) (Some (it_expected it))])
          end
  end.

(** The pages that the routes of the requests lead through. *)
Definition allowed (routes : gmap (string * list Z) string) (items : list MetadataPageItem) : gset string :=
  list_to_set (concat ((fun i =>
    omap (fun depth => routes !! (directory_path i, take depth (route i))) (seq 0 (S (length (route i))))) <$> items)).

(** One page of an answer. *)
Definition receive (ok : gset string) (by_id : gmap string bytes) (page : bytes * bytes) : M (gmap string bytes) :=
  let '(pid, b) := page in
  let id := digest_string pid in
  guard* negb (bool_decide (id ∈ ok)) || negb (bool_decide (page_id b = pid))
    with SnapshotError_new DigestMismatch ("metadata/pages returned an invalid or unrequested page " ++ id) in
  run* put_page id b in
  ret (<[id := b]> by_id).

(** What the entries of a page add: the count, the files and the directories
    (path, base name and root page). *)
Record listed : Type := mkListed {
  l_total : Z; l_files : list SnapshotFile; l_dirs : list (string * string * string);
}.

Definition handle_entry (dir : string) (l : listed) (e : Entry) : Res listed :=
  let? name := ok_or (from_utf8 (ent_name e)) (SnapshotError_new Internal "non-utf8 entry name in MTP2 page") in
  let rel := (if String.eqb dir "/" then name else trim_start_slash dir ++ "/" ++ name)%string in
  let? total := ok_or (checked_add (l_total l) 1) overflow in
  Ok (if bool_decide (ent_kind e = EDirectory)
      then mkListed total (l_files l) (l_dirs l ++ [(("/" ++ rel)%string, name, digest_string (child_root e))])
      else mkListed total
             (l_files l ++ [mkFile name (fs_kind (ent_kind e)) (ent_size e) (digest_string (content_id e))]) (l_dirs l)).

(** One page of the batch is visited. *)
Definition visit (by_id : gmap string bytes) (w : walk) (it : Item) : M walk :=
  let dir := it_dir it in
  let* b := of_res (ok_or (by_id !! it_expected it) (SnapshotError_new DigestMismatch
    ("metadata/pages did not return the requested page " ++ it_expected it ++ " for " ++ dir))) in
  let* page := of_res (decode_page b) in
  let* st := of_res (ok_or (w_states w !! dir) (SnapshotError_new Internal ("missing walk state for " ++ dir))) in
  let '(es, children) := match page with
                         | Leaf es => (es, [])
                         | Branch _ terminal children => (option_list terminal, children)
                         end in
  let* l := of_res (for_each (handle_entry dir) (mkListed (ds_total st) (ds_files st) []) es) in
  let next := (fun c => mkPageItem dir (it_route it ++ [label c]) (digest_string (child_page_id c))) <$> children in
  let st := mkState (ds_base st) (ds_parent st) (ds_root st) ({[it_expected it]} ∪ ds_pages st) (l_files l) (l_total l)
              (Z.max 0 (ds_pending_pages st + zlen children - 1)) (ds_pending_children st) in
  let w := mkWalk (w_out w) (<[dir := st]> (w_states w)) (w_frontier w ++ next) (w_tx w) in
  fold_m (fun w c => let '(path, base, root) := c in enqueue_dir path root (Some dir) base w) w (l_dirs l).

(** A directory that awaits nothing stages its record and is handed over. *)
Definition complete (dir : string) (st : DirState) (w : walk) : Run walk :=
  let ids := sort_by id (elements (ds_pages st)) in
  let states := delete dir (w_states w) in
  let tx := put_record (w_tx w) (mkRecord auth_domain codec POLICY_REVISION (ds_root st) ids (ds_total st) (ds_files st)
                                   snapshot_id) in
  match ds_parent st with
  | Some p =>
      let? states := hand_over p (ds_base st) (list_to_set ids) (ds_files st) (ds_total st) states in
      Ok (mkWalk (w_out w) states (w_frontier w) tx)
  | None => Ok (mkWalk (ds_files st) states (w_frontier w) tx)
  end.

Definition finished (st : DirState) : Prop := ds_pending_pages st = 0 /\ ds_pending_children st = 0.
#[export] Instance finished_dec st : Decision (finished st).
Proof. unfold finished. apply _. Defined.

(** The completion cascade: any finished directory is completed, until there is
    none. *)
Fixpoint cascade (fuel : nat) (w : walk) : M walk :=
  let ready := map_to_list (filter (fun ks => finished ks.2) (w_states w)) in
  match ready with
  | [] => ret w
  | first :: _ =>
      match fuel with
      | O => of_run (Err OutOfFuel)
      | S fuel =>
          let* k := ask (fun k => Ok (choose k)) in
          let '(dir, st) := default first (ready !! Nat.modulo k (length ready)) in
          let* w := of_run (complete dir st w) in
          cascade fuel w
      end
  end.

(** One batch. *)
Definition round (routes : gmap (string * list Z) string) (w : walk)
    : M (gmap (string * list Z) string * walk) :=
  let batch := take PAGE_BATCH (w_frontier w) in
  let w := mkWalk (w_out w) (w_states w) (drop PAGE_BATCH (w_frontier w)) (w_tx w) in
  let* g := fold_m gather (mkGathered routes ∅ []) batch in
  let* answer := (if bool_decide (g_items g = []) then ret []
                  else run* gate env in ask (fun k => fetch_pages k (g_items g))) in
  let* by_id := fold_m (receive (allowed (g_routes g) (g_items g))) (g_bytes g) answer in
  let* w := fold_m (visit by_id) w batch in
  let* w := cascade (size (w_states w)) w in
  ret (g_routes g, w).

Fixpoint rounds (fuel : nat) (routes : gmap (string * list Z) string) (w : walk) : M walk :=
  match w_frontier w with
  | [] => ret w
  | _ =>
      match fuel with
      | O => of_run (Err OutOfFuel)
      | S fuel => let* ' (routes, w) := round routes w in rounds fuel routes w
      end
  end.

(** [acquire]. *)
Definition acquire (fuel : nat) (tx : ClosureTransaction) : M (list SnapshotFile * ClosureTransaction) :=
  let* w := enqueue_dir "/" metadata_root None "" (mkWalk [] ∅ [] tx) in
  let* w := rounds fuel ∅ w in
  ret (w_out w, w_tx w).

(** [IncrementalSync::sync]; the first gate is the binding of the cache
    directory to the authority of the reader. *)
Definition sync (fuel : nat) : M (list SnapshotFile) :=
  run* gate env in
  let* tx := sync_transaction in
  let* ' (files, tx) := acquire fuel tx in
  run* of_res (for_each (fun _ f => validate_relative_path scope (rel_path f)) tt files) in
  run* commit tx in
  ret files.
End Cache.
End Incremental.
