(* ===== verification/Retention.v ===== *)
(** * Retention

    [src/snapshot/cache_retention.rs], [collect_scope]: every live use of the
    scope proves its metadata closure again, every entry is matched with the
    fixed layout, and only then the contents and pages no closure names, the
    metadata of retired uses and the left-overs of writers are removed, within
    the limits of one collection; the ledger of charges is reset to what is
    left. With it [durable.rs], [audit_retention_metadata]: the stored records
    of a live use agree with its closure. The authority checks of the scope are
    gates; the argument is an absolute path. *)

From S2P Require Import Prelude Types Faults Text Profile Btree Frames Wire Closure Disk Records Pins Durable Capacity Incremental ScopeTree Owners Inventory.
Import Pins Owners Digests Scope Closure Records Capacity ScopeTree Inventory.
Local Open Scope string_scope.
Local Open Scope list_scope.
Local Open Scope Z_scope.

Module Retention.

Definition VIEW_FILE : string := "view.json".
Definition MANIFEST_FILE : string := "manifest.json".
Definition PIN_FILE : string := "pin.json".
Definition DESCRIPTOR_FILE : string := "descriptor.bin".
Definition METADATA_INDEX_FILE : string := "metadata.json".
Definition OFFLINE_GRANT_FILE : string := "offline_grant.json".
Definition ne (a b : string) : bool := negb (String.eqb a b).

(** ** [audit_retention_metadata] *)

Section Audit.
Context `{HexCrate} `{Sha256} `{CommitCodec} (closure : ValidatedSnapshotClosure) (records : gmap string bytes).

Definition required_record (name : string) : Res bytes :=
  ok_or (records !! name) (integrity_err "retention metadata dependency missing").

(** The loop over the manifest. *)
Definition member (_ : unit) (f : SnapshotFile) : Res unit :=
  let files := vc_files closure in
  let? i := ok_or (Btree.binary_search ((fun g => (rel_path g, g)) <$> files) (rel_path f))
              (integrity_err "retention pin file lacks fixed-root membership") in
  reject? negb (bool_decide (files !! i = Some f))
    with integrity_err "retention pin file differs from fixed-root membership" in
  Ok tt.

(** A pin of a whole snapshot, with its marker if there is one. *)
Definition audit_snapshot_pin (revision : Z) (view : ViewMeta) (manifest : list SnapshotFile)
    (blobs : list BlobDependency) (bytes_total : Z) (view_digest manifest_digest : string) (pin_bytes : bytes)
    : Res string :=
  let? descriptor_bytes := required_record DESCRIPTOR_FILE in
  let? index_bytes := required_record METADATA_INDEX_FILE in
  let descriptor_digest := digest_of descriptor_bytes in
  let index_digest := digest_of index_bytes in
  let? pin := decode_commit (T := SnapshotPinRecord) pin_bytes PIN_FILE in
  let? index := decode_commit (T := MetadataIndex) index_bytes METADATA_INDEX_FILE in
  let expected_pages := page_dependencies closure in
  reject? negb (bool_decide (descriptor_bytes = vc_descriptor_bytes closure))
          || negb (bool_decide (manifest = vc_files closure))
          || negb (i_revision index =? SNAPSHOT_VERIFICATION_REVISION)
          || negb (bool_decide (i_pages index = expected_pages))
          || negb (bool_decide (i_directories index = vc_directories closure))
          || is_empty (sp_pin_id pin) || ne (sp_snapshot_id pin) (v_snapshot_id view)
          || ne (sp_namespace_view_id pin) (v_namespace_view_id view) || ne (sp_scope pin) (v_scope view)
          || ne (sp_lease_id pin) (v_lease_id view) || ne (sp_view_digest pin) view_digest
          || ne (sp_manifest_digest pin) manifest_digest || ne (sp_descriptor_digest pin) descriptor_digest
          || ne (sp_index_digest pin) index_digest || negb (bool_decide (sp_pages pin = expected_pages))
          || negb (bool_decide (sp_blobs pin = blobs))
    with integrity_err "snapshot pin metadata differs from canonical retention root" in
  let? _ := match records !! COMPLETE_MARKER with
            | None => Ok tt
            | Some marker_bytes =>
                let? m := decode_commit (T := SnapshotCompleteMarker) marker_bytes COMPLETE_MARKER in
                reject? negb (sm_revision m =? revision) || negb (bool_decide (sm_kind m = FullSnapshot))
                        || ne (sm_snapshot_id m) (v_snapshot_id view)
                        || ne (sm_namespace_view_id m) (v_namespace_view_id view)
                        || ne (sm_view_digest m) view_digest || ne (sm_manifest_digest m) manifest_digest
                        || ne (sm_descriptor_digest m) descriptor_digest || ne (sm_index_digest m) index_digest
                        || ne (sm_pin_digest m) (digest_of pin_bytes) || negb (sm_files m =? zlen manifest)
                        || negb (sm_directories m =? zlen (vc_directories closure))
                        || negb (sm_pages m =? zlen expected_pages) || negb (sm_bytes m =? bytes_total)
                        || ne (sm_grant_digest m) (sp_grant_digest pin)
                  with integrity_err "snapshot completion metadata differs from retention root" in
                Ok tt
            end in
  Ok (sp_grant_digest pin).

(** A pin of a file closure. *)
Definition audit_file_pin (revision : Z) (view : ViewMeta) (manifest : list SnapshotFile)
    (blobs : list BlobDependency) (bytes_total : Z) (view_digest manifest_digest : string) (pin_bytes : bytes)
    : Res string :=
  let? pin := decode_commit (T := PinRecord) pin_bytes PIN_FILE in
  reject? is_empty (pin_id pin) || ne (pin_snapshot_id pin) (v_snapshot_id view)
          || ne (pin_namespace_view_id pin) (v_namespace_view_id view) || ne (pin_scope pin) (v_scope view)
          || ne (pin_lease_id pin) (v_lease_id view) || ne (pin_view_digest pin) view_digest
          || ne (pin_manifest_digest pin) manifest_digest || negb (bool_decide (pin_blobs pin = blobs))
    with integrity_err "file pin metadata differs from canonical retention root" in
  let? _ := match records !! COMPLETE_MARKER with
            | None => Ok tt
            | Some marker_bytes =>
                let? m := decode_commit (T := CompleteMarker) marker_bytes COMPLETE_MARKER in
                reject? negb (m_revision m =? revision) || negb (bool_decide (m_kind m = FileClosure))
                        || ne (m_snapshot_id m) (v_snapshot_id view)
                        || ne (m_namespace_view_id m) (v_namespace_view_id view)
                        || ne (m_view_digest m) view_digest || ne (m_manifest_digest m) manifest_digest
                        || ne (m_pin_digest m) (digest_of pin_bytes) || negb (m_files m =? zlen manifest)
                        || negb (m_bytes m =? bytes_total) || ne (m_grant_digest m) (pin_grant_digest pin)
                  with integrity_err "file completion metadata differs from retention root" in
                Ok tt
            end in
  Ok (pin_grant_digest pin).

Definition audit_retention_metadata : Res unit :=
  let? view_bytes := required_record VIEW_FILE in
  let? manifest_bytes := required_record MANIFEST_FILE in
  let? pin_bytes := required_record PIN_FILE in
  let? view := decode_commit (T := ViewMeta) view_bytes VIEW_FILE in
  let? _ := validate_view_policy view true in
  let? _ := validate_snapshot_view view closure in
  let? manifest := decode_commit (T := list SnapshotFile) manifest_bytes MANIFEST_FILE in
  let? _ := for_each member tt manifest in
  let? revision := completion_revision pin_bytes in
  let? ' (blobs, bytes_total) := validate_manifest_policy manifest (revision =? SNAPSHOT_VERIFICATION_REVISION) in
  let view_digest := digest_of view_bytes in
  let manifest_digest := digest_of manifest_bytes in
  let? grant_digest :=
    if revision =? SNAPSHOT_VERIFICATION_REVISION then
      audit_snapshot_pin revision view manifest blobs bytes_total view_digest manifest_digest pin_bytes
    else if revision =? VERIFICATION_REVISION then
      audit_file_pin revision view manifest blobs bytes_total view_digest manifest_digest pin_bytes
    else Err (integrity_err "unsupported retention pin revision") in
  if is_empty grant_digest then Ok tt
  else
    let? grant := required_record OFFLINE_GRANT_FILE in
    reject? ne (digest_of grant) grant_digest with integrity_err "retention offline metadata digest differs" in
    Ok tt.
End Audit.

Section Collect.
Context `{HexCrate} `{Sha256} `{PageCodec} `{PageBytes} `{CodecScope} `{DescriptorCodec} `{ServingCodec} `{UuidCrate}.
Context `{CommitCodec} `{PinCodec} `{RetentionCodec} (h : host) (base : Z) (outer : Res bool).

(** ** The proof of one owner *)

Section Proof.
Context (v : Inventory).

(** A record that must be there, or may be. *)
Definition take_record (root : rpath) (st : gmap string bytes * CollectionBudget) (name : string)
    : W (gmap string bytes * CollectionBudget) :=
  let '(records, b) := st in
  let* ' (data, b) := required h v (root ++ [name]) (max_record_bytes (cb_limits b)) b in
  ret (<[name := data]> records, b).
Definition take_optional (root : rpath) (st : gmap string bytes * CollectionBudget) (name : string)
    : W (gmap string bytes * CollectionBudget) :=
  let '(records, b) := st in
  let* ' (data, b) := read h v (root ++ [name]) (max_record_bytes (cb_limits b)) b in
  ret (match data with Some data => <[name := data]> records | None => records end, b).

(** A stored page of a complete snapshot. *)
Definition same_page (root : rpath) (b : CollectionBudget) (page : string * bytes) : W CollectionBudget :=
  let '(id, expected) := page in
  let* digest := of_res (parse_digest id) in
  let* ' (data, b) := required h v (root ++ ["metadata"; hex_encode digest]) PAGE_MAX_BYTES b in
  guard* negb (bool_decide (data = expected)) with integrity "complete metadata page differs from fixed canonical graph" in
  ret b.

Definition validate_pin_metadata (root : rpath) (closure : ValidatedSnapshotClosure) (has_pin has_complete : bool)
    (b : CollectionBudget) : W CollectionBudget :=
  guard* has_complete && negb has_pin with integrity "completion has lost its pin metadata" in
  if negb has_pin then ret b
  else
    let* st := fold_w (take_record root) (∅, b) [VIEW_FILE; MANIFEST_FILE; PIN_FILE] in
    let* st := if has_complete then take_record root st COMPLETE_MARKER else ret st in
    let* ' (records, b) := fold_w (take_optional root) st [DESCRIPTOR_FILE; METADATA_INDEX_FILE; OFFLINE_GRANT_FILE] in
    let* pin_bytes := of_run (ok_or (records !! PIN_FILE) Panicked) in
    let* revision := of_res (completion_revision pin_bytes) in
    let* b := if revision =? 3 then fold_w (same_page root) b (vc_pages closure) else ret b in
    run* of_res (audit_retention_metadata closure records) in
    ret b.

(** A page the use record names. *)
Definition take_page (root : rpath) (st : list (string * bytes) * CollectionBudget) (d : PageDependency)
    : W (list (string * bytes) * CollectionBudget) :=
  let '(pages, b) := st in
  let* digest := of_res (parse_digest (p_page_id d)) in
  let* ' (data, b) := required h v (root ++ [RETENTION_DIR; "pages"; hex_encode digest]) PAGE_MAX_BYTES b in
  let* metadata := of_res (ok_or (checked_add (cb_metadata b) (zlen data)) (limit "protection metadata overflow")) in
  guard* max_metadata_bytes (cb_limits b) <? metadata with limit "aggregate protection metadata exceeded" in
  let '(old, pages) := Btree.insert pages (p_page_id d) data in
  guard* negb (zlen data =? p_size d) || bool_decide (is_Some old)
    with integrity "protection page dependency differs or is repeated" in
  ret (pages, set_metadata metadata b).

(** A content digest or page id that is protected. *)
Definition protect (st : gset string * CollectionBudget) (digest : string) : W (gset string * CollectionBudget) :=
  let '(names, b) := st in
  let* d := of_res (parse_digest digest) in
  let name := hex_encode d in
  if bool_decide (name ∈ names) then ret (names, b)
  else let* b := admit_bytes h 256 b in ret ({[name]} ∪ names, b).

(** What the owners proved so far. *)
Record proof : Type := mkProof {
  pr_budget : CollectionBudget; pr_retired : gset rpath; pr_blobs : gset string; pr_pages : gset string;
}.

(** The closure of a live use. *)
Definition live_closure (root : rpath) (binding : WorkspaceBinding) (record : WorkspaceUse) (b : CollectionBudget)
    : W (ValidatedSnapshotClosure * CollectionBudget) :=
  let limits := cb_limits b in
  let* digest := of_res (ok_or (wu_descriptor record) (busy "live cache use has not acquired its complete metadata proof")) in
  run* of_res (parse_digest digest) in
  guard* max_entries limits <? zlen (wu_pages record) with limit "protection page count exceeded" in
  let* ' (descriptor, b) := required h v (root ++ [RETENTION_DIR; "descriptor.msd2"]) (max_record_bytes limits) b in
  guard* ne (digest_of descriptor) digest with integrity "protection descriptor digest differs" in
  let* ' (pages, b) := fold_w (take_page root) ([], b) (wu_pages record) in
  let available := saturating_sub (max_inventory_bytes limits) (cb_allocation b) in
  let* closure := timed h (from_canonical_pages_bounded descriptor pages (saturating_sub (max_root_nodes limits) (cb_nodes b))
                             available (Some (cb_deadline b))) in
  guard* ne (snapshot_id (vc_descriptor closure)) (wb_snapshot_id binding)
         || ne (scope (vc_descriptor closure)) (wb_scope binding)
    with integrity "protection graph differs from fixed workspace" in
  let* nodes := of_res (ok_or (n ← checked_add (cb_nodes b) (zlen (vc_files closure));
                               checked_add n (zlen (vc_directories closure)))
                          (limit "protection logical node overflow")) in
  guard* max_root_nodes limits <? nodes with limit "aggregate protection logical node budget exceeded" in
  ret (closure, set_nodes nodes b).

(** The loop over the owners. *)
Definition prove_owner (st : proof) (owner : RetentionOwner) : W proof :=
  let limits := cb_limits (pr_budget st) in
  let root := ro_root owner in
  let* b := admit_bytes h 512 (pr_budget st) in
  run* io (open_regular h (root ++ [".hydrate.lock"])) in
  run* gate h in
  let* ' (record_bytes, b) := required h v (root ++ [USE_RECORD]) (max_record_bytes limits) b in
  let* record := of_res (from_slice (T := WorkspaceUse) record_bytes) in
  guard* negb (wu_revision record =? 1) || negb (bool_decide (wu_binding record = ro_binding owner))
    with integrity "cache use identity changed" in
  let has_pin := bool_decide (is_Some (in_files v !! (root ++ [PIN_FILE]))) in
  let has_complete := bool_decide (is_Some (in_files v !! (root ++ [COMPLETE_MARKER]))) in
  if wu_retired record then
    guard* negb (ro_released owner) || negb (ro_finished owner) || has_pin || has_complete
      with integrity "retired cache use still carries an owner guarantee" in
    ret (mkProof b ({[root]} ∪ pr_retired st) (pr_blobs st) (pr_pages st))
  else
    let* ' (closure, b) := live_closure root (ro_binding owner) record b in
    let* b := validate_pin_metadata root closure has_pin has_complete b in
    let* ' (blobs, b) := fold_w protect (pr_blobs st, b) (file_digest <$> vc_files closure) in
    let* ' (pages, b) := fold_w protect (pr_pages st, b) (vc_pages closure).*1 in
    ret (mkProof b (pr_retired st) blobs pages).
End Proof.

(** ** The layout and the left-overs of writers *)

Section Candidates.
Context (v : Inventory) (owners : list RetentionOwner) (roots : gset rpath).

Definition check_layout (b : CollectionBudget) (p : rpath) : W CollectionBudget :=
  let* b := admit_bytes h 0 b in
  let* ok := of_res (valid_directory roots p) in
  guard* negb ok with integrity "unknown cache directory blocks collection" in
  ret b.

(** [inventory.files[path]]. *)
Definition size_at (p : rpath) : Run Z := let? id := ok_or (in_files v !! p) Panicked in Ok (id_size id).

Definition find_control (st : list rpath * CollectionBudget) (p : rpath) : W (list rpath * CollectionBudget) :=
  let '(temps, b) := st in
  let* b := admit_bytes h 0 b in
  let* t := of_res (raw_control_temporary p) in
  if negb t then ret (temps, b)
  else
    let* size := of_run (size_at p) in
    guard* CONTROL_BYTES <? size with limit "orphan cache control temporary exceeds its write bound" in
    let* b := admit_bytes h (saturating_add (saturating_mul (path_len base p) 4) 1024) b in
    ret (temps ++ [p], b).

(** The relative directory of an intent. *)
Definition bad_part (part : string) : bool :=
  is_empty part || String.eqb part "." || String.eqb part ".." || contains_char "\"%char part || contains_char "000"%char part.
Definition bad_directory (dir : string) : bool :=
  starts_with "/" dir || (negb (is_empty dir) && existsb bad_part (split_slash dir)).
Definition directory_of (dir : string) : rpath := if is_empty dir then [] else split_slash dir.

Record orphans : Type := mkOrphans { or_temps : gset rpath; or_groups : list (list rpath); or_budget : CollectionBudget }.

(** The intent of a single write. *)
Definition writer_orphan (p : rpath) (id : string) (data : bytes) (limits : CacheLimits) (temps : gset rpath)
    : Res (list rpath * gset rpath) :=
  let? _ := canonical_uuid id in
  let? intent := from_slice (T := WriterIntent) data in
  reject? negb (wi_revision intent =? 1) || ne (wi_operation intent) id || (max_bytes limits <? wi_maximum intent)
          || ne (wi_temporary intent) ("." ++ wi_final intent ++ ".tmp." ++ id)%string || bad_directory (wi_directory intent)
    with integrity "orphan writer declaration differs" in
  let? _ := validate_child (wi_final intent) in
  let? _ := validate_child (wi_temporary intent) in
  let dir := directory_of (wi_directory intent) in
  let? ok := valid_final_file roots (dir ++ [wi_final intent]) in
  reject? negb ok with integrity "writer declaration targets an unknown cache location" in
  let temporary := dir ++ [wi_temporary intent] in
  match in_files v !! temporary with
  | Some identity =>
      reject? (wi_maximum intent <? id_size identity) || bool_decide (temporary ∈ temps)
        with integrity "orphan temporary exceeds or duplicates its declaration" in
      Ok ([temporary; p], {[temporary]} ∪ temps)
  | None => Ok ([p], temps)
  end.

Definition hydration_orphan (id : string) (data : bytes) (limits : CacheLimits) : Res unit :=
  let? _ := canonical_uuid id in
  let? intent := from_slice (T := HydrationIntent) data in
  reject? negb (hi_revision intent =? 1) || ne (hi_operation intent) id || (max_bytes limits <? hi_maximum intent)
          || negb (existsb (fun o => bool_decide (ro_binding o = hi_binding intent)) owners)
    with integrity "orphan hydration reservation binding differs" in
  Ok tt.

Definition find_orphan (st : orphans) (p : rpath) : W orphans :=
  let limits := cb_limits (or_budget st) in
  let* name := of_res (ok_or (file_name p ≫= fun n => if is_utf8 n then Some n else None)
                         (integrity "invalid writer intent filename")) in
  let* ' (data, b) := required h v p CONTROL_BYTES (or_budget st) in
  let* ' (group, temps) :=
    match strip_suffix ".hydrate.json" name with
    | Some id => run* of_res (hydration_orphan id data limits) in ret ([p], or_temps st)
    | None =>
        let* id := of_res (ok_or (strip_suffix ".json" name) (integrity "unknown writer intent entry")) in
        of_res (writer_orphan p id data limits (or_temps st))
    end in
  let* b := admit_bytes h (saturating_add (saturating_mul (path_len base p) 4) 1024) b in
  ret (mkOrphans temps (or_groups st ++ [group]) b).

(** ** What may be removed *)

Section Removable.
Context (st : proof) (control_temps : list rpath) (orphan_temps : gset rpath).

Definition retired_files : list string :=
  ["descriptor.bin"; "metadata.json"; "manifest.json"; "journal.log"; "offline_grant.json"; "NEEDS_REPAIR"].

Definition retired_metadata (p : rpath) (name : string) : bool :=
  match list_find (fun root => root ∈ pr_retired st) (take 8 (ancestors p)) with
  | Some (_, root) =>
      starts_with_path (root ++ ["metadata"]) p || starts_with_path (root ++ [RETENTION_DIR]) p
      || (bool_decide (parent p = root) && one_of name retired_files)
  | None => false
  end.

Definition stale (dir : string) (names : gset string) (p : rpath) (name : string) : bool :=
  bool_decide (parent p = [dir]) && canonical_hex name && negb (bool_decide (name ∈ names)).

Definition candidate (c : list (list rpath) * CollectionBudget) (p : rpath) : W (list (list rpath) * CollectionBudget) :=
  let '(found, b) := c in
  let* b := admit_bytes h 0 b in
  if bool_decide (p ∈ control_temps) || bool_decide (p ∈ orphan_temps) || bool_decide (parent p = [INTENTS]) then ret (found, b)
  else
    let* ok := of_res (valid_final_file roots p) in
    guard* negb ok with integrity "unknown cache entry blocks collection" in
    let* name := of_run (ok_or (file_name p) Panicked) in
    if bool_decide (control_temps = [])
       && (stale "blobs" (pr_blobs st) p name || stale "pages" (pr_pages st) p name || retired_metadata p name)
    then
      let* b := admit_bytes h (saturating_add (saturating_mul (path_len base p) 2) 512) b in
      ret (found ++ [[p]], b)
    else ret (found, b).
End Removable.

(** The sizes of a group. *)
Definition group_bytes (group : list rpath) : Run Z :=
  for_each (fun n p => let? size := size_at p in
                       ok_or (checked_add n size) (Failed (limit "collection delete size overflow"))) 0 group.

Record selection : Type := mkSelection { se_paths : list rpath; se_bytes : Z; se_budget : CollectionBudget }.

Definition select (st : selection) (group : list rpath) : W selection :=
  let limits := cb_limits (se_budget st) in
  let* b := admit_bytes h (saturating_mul (zlen group) 512) (se_budget st) in
  let* bytes := of_run (group_bytes group) in
  if (max_delete_entries limits <? saturating_add (zlen (se_paths st)) (zlen group))
     || match checked_add (se_bytes st) bytes with Some n => max_delete_bytes limits <? n | None => true end
  then ret (mkSelection (se_paths st) (se_bytes st) b)
  else ret (mkSelection (se_paths st ++ group) (se_bytes st + bytes) b).
End Candidates.

(** ** Removal *)

(** Every directory above the entry is a real one. *)
Definition real_parents (t : tree) (p : rpath) : bool :=
  forallb (fun n => match t !! take n p with Some Folder => true | _ => false end) (seq 1 (length p - 1)).

(** [PreparedRemoval::verify]. *)
Definition verify_removal (p : rpath) (expected : RegularIdentity) : W (result io_error unit) :=
  look h (fun t =>
    match t !! p with
    | None => Err NotFound
    | Some (Regular id _) => if bool_decide (id = expected) then Ok tt else Err (OtherError "cache retirement lifetime changed")
    | Some _ => Err (OtherError "cache retirement lifetime changed")
    end).

(** [secure_fs::prepare_current_regular]; the gate is the lock of the entry. *)
Definition prepare_current_regular (p : rpath) (expected : RegularIdentity) : W bool :=
  let* name := of_run (ok_or (file_name p) Panicked) in
  guard* is_empty name || contains_char "/"%char name || contains_char "\"%char name || contains_char "000"%char name
         || String.eqb name "." || String.eqb name ".."
    with io_error_of (OtherError "invalid cache retirement path") in
  let* found := io (look h (fun t =>
    if negb (real_parents t p) then Err (OtherError "not a directory")
    else match t !! p with
         | None => Ok false
         | Some (Regular id _) => if bool_decide (id = expected) then Ok true else Err (OtherError "cache retirement entry changed")
         | Some _ => Err (OtherError "cache entry is not regular")
         end)) in
  if negb found then ret false
  else
    run* gate h in
    run* io (verify_removal p expected) in
    ret true.

(** The loop that prepares the selected entries. *)
Definition prepare (v : Inventory) (st : list (rpath * RegularIdentity) * CollectionBudget) (p : rpath)
    : W (list (rpath * RegularIdentity) * CollectionBudget) :=
  let '(prepared, b) := st in
  let* b := admit_bytes h 1024 b in
  let* id := of_run (ok_or (in_files v !! p) Panicked) in
  let* there := prepare_current_regular p id in
  guard* negb there with integrity "collection candidate disappeared" in
  ret (prepared ++ [(p, id)], b).

Definition verify_again (b : CollectionBudget) (e : rpath * RegularIdentity) : W CollectionBudget :=
  let* b := admit_bytes h 0 b in
  run* io (verify_removal e.1 e.2) in
  ret b.

(** [PreparedRemoval::remove]. *)
Definition remove_prepared (p : rpath) (expected : RegularIdentity) : W bool :=
  run* io (verify_removal p expected) in
  run* io (remove_file h p) in
  run* io (sync_all h) in
  ret true.

Record CacheCollectionReport : Type := mkReport {
  scanned_entries : Z; deleted_entries : Z; deleted_bytes : Z; retained_bytes : Z;
}.
Definition empty_report : CacheCollectionReport := mkReport 0 0 0 0.

Definition checked_sub (a b : Z) : option Z := if b <=? a then Some (a - b) else None.

Definition remove_entry (r : CacheCollectionReport) (e : rpath * RegularIdentity) : W CacheCollectionReport :=
  let* gone := remove_prepared e.1 e.2 in
  if gone then
    let* retained := of_run (ok_or (checked_sub (retained_bytes r) (id_size e.2 + ENTRY_CHARGE)) Panicked) in
    ret (mkReport (scanned_entries r) (deleted_entries r + 1) (deleted_bytes r + id_size e.2) retained)
  else ret r.

(** ** The collection *)

(** From the locks to the selection. *)
Definition plan_collection (limits : CacheLimits) : W (Inventory * selection) :=
  let* v := scan h base limits in
  let b := mkCollection limits (in_deadline v) (in_allocation v) 0 0 in
  let* owners := discover_retention_owners h limits (in_deadline v) in
  let* b := admit_bytes h (saturating_mul (zlen owners) 2048) b in
  let roots : gset rpath := list_to_set (ro_root <$> owners) in
  let* st := fold_w (prove_owner v) (mkProof b ∅ ∅ ∅) owners in
  let* b := fold_w (check_layout roots) (pr_budget st) (directory_list v) in
  let* ' (control, b) := fold_w (find_control v) ([], b) (file_list v) in
  let* os := fold_w (find_orphan v owners roots) (mkOrphans ∅ [] b)
               (List.filter (fun p => bool_decide (parent p = [INTENTS]) && negb (bool_decide (p ∈ control))) (file_list v)) in
  let* ' (found, b) := fold_w (candidate roots st control (or_temps os)) ([], or_budget os) (file_list v) in
  let groups := found ++ if bool_decide (control = []) then or_groups os else (fun p => [p]) <$> control in
  let* s := fold_w (select v) (mkSelection [] 0 b) groups in
  ret (v, s).

Definition collect_scope : W CacheCollectionReport :=
  let* managed := managed_scope h outer in
  if negb managed then ret empty_report
  else
    run* lock h FENCE in
    run* lock h ADMISSION_LOCK in
    run* gate h in
    run* gate h in
    let* limits := policy h in
    let* charges := read_record h (T := Charges) [LEDGER] CONTROL_BYTES in
    guard* negb (ch_revision charges =? 1) with integrity "unsupported cache charge ledger" in
    let* ' (v, s) := plan_collection limits in
    let* ' (prepared, b) := fold_w (prepare v) ([], se_budget s) (se_paths s) in
    run* fold_w verify_again b prepared in
    let* r := fold_w remove_entry (mkReport (in_entries v) 0 0 (in_bytes v)) prepared in
    let* bytes := of_res (ok_or (checked_add (retained_bytes r) (CONTROL_BYTES + 8 * ENTRY_CHARGE)) (limit "ledger reset overflow")) in
    run* raw_atomic h [] LEDGER (mkCharges 1 bytes (in_entries v - deleted_entries r + 8)) in
    ret r.
End Collect.
End Retention.
