(* ===== verification/InventoryFacts.v ===== *)
(** * InventoryFacts

    The inventory of a scope lists exactly its tree and charges every entry
    once; the reads of a proof return the bytes of the tree. *)

From S2P Require Import Prelude Types Faults Text Profile Frames Wire Disk Records Pins Capacity ScopeTree Owners Inventory.
Import Records Capacity ScopeTree Inventory.
Local Open Scope string_scope.
Local Open Scope list_scope.
Local Open Scope Z_scope.

Module InventoryFacts.

(** Entries are in directories; the scope itself has no name; the size of a file
    is that of its bytes. *)
Record wf_tree (t : tree) : Prop := {
  wf_root : t !! ([] : rpath) = None;
  wf_parent : forall p n, is_Some (t !! (p ++ [n])) -> p = [] \/ t !! p = Some Folder;
  wf_size : forall p id b, t !! p = Some (Regular id b) -> id_size id = zlen b;
}.

(** The bytes and the identity of a regular file. *)
Definition file_at (t : tree) (p : rpath) (b : bytes) : Prop := exists id, t !! p = Some (Regular id b).
Definition identity_at (t : tree) (p : rpath) : option RegularIdentity :=
  match t !! p with Some (Regular id _) => Some id | _ => None end.

Lemma file_at_det t p b b' : file_at t p b -> file_at t p b' -> b = b'.
Proof. intros [id E] [id' E']. congruence. Qed.

(** ** Charges *)

Definition node_size (n : node) : Z := match n with Regular id _ => id_size id | _ => 0 end.
Definition charge_of (sizes : list Z) : Z := foldr (fun n acc => ENTRY_CHARGE + n + acc) 0 sizes.
(** What the entries of a tree are charged. *)
Definition tree_charge (t : tree) : Z := charge_of ((fun e => node_size e.2) <$> map_to_list t).

Lemma charge_perm l l' : l ≡ₚ l' -> charge_of l = charge_of l'.
Proof. induction 1; simpl; lia. Qed.
Lemma charge_app l l' : charge_of (l ++ l') = charge_of l + charge_of l'.
Proof. unfold charge_of. induction l as [|x l IH]; simpl; lia. Qed.

Lemma tree_charge_delete t p n : t !! p = Some n -> tree_charge t = ENTRY_CHARGE + node_size n + tree_charge (delete p t).
Proof.
  intros Hp. unfold tree_charge. rewrite <- (insert_delete_id t p n) at 1 by done.
  rewrite (charge_perm _ _ (fmap_Permutation _ _ _ (map_to_list_insert _ _ n (lookup_delete_eq t p)))). done.
Qed.

(** The counters are those of a submap of the tree. *)
Record counted (t : tree) (S : rpath -> Prop) (v : Inventory) : Prop := {
  ct_part : exists u : tree, u ⊆ t /\ (forall p, is_Some (u !! p) <-> S p /\ is_Some (t !! p)) /\
              in_entries v = Z.of_nat (size u) /\ in_bytes v = tree_charge u;
  ct_files : forall p id, in_files v !! p = Some id <-> S p /\ identity_at t p = Some id;
  ct_directories : forall p, p ∈ in_directories v <-> S p /\ t !! p = Some Folder;
  ct_regular : forall p, S p -> t !! p <> Some Special;
  ct_bytes : in_bytes v <= u64_max;
}.

Lemma counted_ext t (S S' : rpath -> Prop) v :
  (forall p, is_Some (t !! p) -> S p <-> S' p) -> counted t S v -> counted t S' v.
Proof.
  intros Hs [(u & Hu & Hd & He & Hb) Hf Hdir Hr Hmax]. split; [..|done].
  - exists u. split_and!; [done| |done|done]. intros p. rewrite Hd. naive_solver.
  - intros p id. rewrite Hf. unfold identity_at. specialize (Hs p). destruct (t !! p) as [[]|]; naive_solver.
  - intros p. rewrite Hdir. split; intros [H1 H2]; (split; [|done]); apply Hs; naive_solver.
  - intros p Hp E. apply (Hr p); [|done]. by apply Hs; [rewrite E|].
Qed.

(** An entry that is charged and added. *)
Definition charged_entry (v w : Inventory) (n : Z) : Prop :=
  in_entries w = in_entries v + 1 /\ in_bytes w = in_bytes v + ENTRY_CHARGE + n /\ in_files w = in_files v /\
  in_directories w = in_directories v /\ in_limits w = in_limits v /\ in_bytes w <= u64_max.

Lemma grown_part t (S : rpath -> Prop) u p n :
  ~ S p -> t !! p = Some n -> u ⊆ t -> (forall q, is_Some (u !! q) <-> S q /\ is_Some (t !! q)) ->
  <[p := n]> u ⊆ t /\ (forall q, is_Some (<[p := n]> u !! q) <-> (S q \/ q = p) /\ is_Some (t !! q)) /\
  Z.of_nat (size (<[p := n]> u)) = Z.of_nat (size u) + 1 /\ tree_charge (<[p := n]> u) = tree_charge u + ENTRY_CHARGE + node_size n.
Proof.
  intros Hp Ht Hu Hd. assert (Hfresh : u !! p = None).
  { destruct (u !! p) eqn:E; [|done]. exfalso. apply Hp, Hd. eauto. }
  split_and!.
  - by apply insert_subseteq_l.
  - intros q. destruct (decide (q = p)) as [->|Hq].
    + rewrite lookup_insert_eq, Ht. naive_solver.
    + rewrite lookup_insert_ne by done. rewrite Hd. naive_solver.
  - rewrite map_size_insert, Hfresh. lia.
  - rewrite (tree_charge_delete _ p n) by apply lookup_insert_eq.
    rewrite delete_insert_eq, delete_id by done. lia.
Qed.

Lemma counted_file t (S : rpath -> Prop) v w p id b :
  ~ S p -> t !! p = Some (Regular id b) -> counted t S v -> charged_entry v w (id_size id) ->
  counted t (fun q => S q \/ q = p) (add_file p id w).
Proof.
  intros Hp Ht [(u & Hu & Hd & He & Hb) Hf Hdir Hr _] (E1 & E2 & E3 & E4 & _ & Hmax).
  destruct (grown_part t S u p _ Hp Ht Hu Hd) as (G1 & G2 & G3 & G4). split; simpl; [..|done].
  - exists (<[p := Regular id b]> u). simpl in G4. split_and!; [done|done|lia|lia].
  - intros q i. rewrite E3. destruct (decide (q = p)) as [->|Hq].
    + rewrite lookup_insert_eq. unfold identity_at. rewrite Ht. naive_solver.
    + rewrite lookup_insert_ne by done. rewrite Hf. naive_solver.
  - intros q. rewrite E4, Hdir. split; [naive_solver|]. intros [[H1| ->] H2]; [done|congruence].
  - intros q [Hq| ->]; [by apply Hr|congruence].
Qed.

Lemma counted_directory t (S : rpath -> Prop) v w p :
  ~ S p -> t !! p = Some Folder -> counted t S v -> charged_entry v w 0 ->
  counted t (fun q => S q \/ q = p) (add_directory p w).
Proof.
  intros Hp Ht [(u & Hu & Hd & He & Hb) Hf Hdir Hr _] (E1 & E2 & E3 & E4 & _ & Hmax).
  destruct (grown_part t S u p _ Hp Ht Hu Hd) as (G1 & G2 & G3 & G4). split; simpl; [..|done].
  - exists (<[p := Folder]> u). simpl in G4. split_and!; [done|done|lia|lia].
  - intros q i. rewrite E3, Hf. split; [naive_solver|]. intros [[H1| ->] H2]; [done|].
    unfold identity_at in H2. by rewrite Ht in H2.
  - intros q. rewrite elem_of_union, elem_of_singleton, E4, Hdir. naive_solver.
  - intros q [Hq| ->]; [by apply Hr|congruence].
Qed.

(** ** The scan *)

Lemma wf_prefix t p n q : wf_tree t -> is_Some (t !! (p ++ n :: q)) -> is_Some (t !! (p ++ [n])).
Proof.
  intros Hwf. induction q as [|m q IH] using rev_ind; [done|]. intros Hq.
  rewrite app_comm_cons, app_assoc in Hq. destruct (wf_parent _ Hwf _ _ Hq) as [E|E]; [by destruct p|]. apply IH. by rewrite E.
Qed.

Section Scan.
Context (h : host) (base : Z) (t : tree) (Hwf : wf_tree t) (Horder : forall k l, h_order h k l ≡ₚ l).

Definition kept (v w : Inventory) : Prop := in_limits w = in_limits v.

Lemma sees_check_work v : sees t (check_work h v) (fun _ => True).
Proof. unfold check_work. eapply sees_bind; [apply sees_clock|]. intros a _. apply sees_guard. intros _. by apply sees_ret. Qed.

Lemma count_charge v p n v1 v2 :
  count_entry v = Ok v1 -> charge_entry base v1 p n = Ok v2 -> charged_entry v v2 n.
Proof.
  unfold count_entry, charge_entry. intros H1 H2. inv_ok. rewrite checked_add_some in *. subst. simpl in *. split_and!; simpl; lia || done.
Qed.

Definition below_name (dir : rpath) (names : list string) (p : rpath) : Prop := exists n q, n ∈ names /\ p = dir ++ n :: q.

Lemma names_nodup dir : NoDup (names_in t dir).
Proof.
  unfold names_in. generalize (NoDup_fst_map_to_list t). generalize (map_to_list t) as l.
  induction l as [|[q x] l IH]; simpl; [constructor|]. intros [Hq Hnd]%list.NoDup_cons.
  destruct (below_path dir q) as [[|n [|]]|] eqn:E; auto. apply list.NoDup_cons. split; [|auto].
  rewrite list_elem_of_omap. intros ([q' x'] & Hin & E'). simpl in E'.
  destruct (below_path dir q') as [[|m [|]]|] eqn:E2; simplify_eq.
  apply below_path_some in E as ->. apply below_path_some in E2 as ->. apply Hq.
  apply list_elem_of_fmap. by exists (dir ++ [n], x').
Qed.

(** The entries of a directory that were seen, when [names] were. *)
Definition with_names (S : rpath -> Prop) (dir : rpath) (names : list string) (p : rpath) : Prop :=
  S p \/ exists n q, n ∈ names /\ p = dir ++ n :: q.

Lemma with_name_step S dir names n p :
  with_names S dir (names ++ [n]) p <-> with_names S dir names p \/ p = dir ++ [n] \/ (exists m q, p = (dir ++ [n]) ++ m :: q).
Proof.
  unfold with_names. split.
  - intros [Hp|(m & q & [Hm|Hm%list_elem_of_singleton]%elem_of_app & ->)]; [by do 2 left|left; right; eauto|subst].
    right. destruct q as [|k q]; [by left|right]. exists k, q. by rewrite <- app_assoc.
  - intros [[Hp|(m & q & Hm & ->)]|[->|(m & q & ->)]]; [by left| | |]; right.
    + exists m, q. rewrite elem_of_app. auto.
    + exists n, []. rewrite elem_of_app, list_elem_of_singleton. auto.
    + exists n, (m :: q). rewrite elem_of_app, list_elem_of_singleton, <- app_assoc. auto.
Qed.

Lemma scan_entry_ok scan dir (S : rpath -> Prop) v n :
  (forall R w, counted t R w -> (forall m q, ~ R ((dir ++ [n]) ++ m :: q)) -> t !! (dir ++ [n]) = Some Folder ->
     sees t (scan (dir ++ [n]) w) (fun w' => counted t (fun p => R p \/ exists m q, p = (dir ++ [n]) ++ m :: q) w' /\ kept w w')) ->
  counted t S v -> (forall q, ~ S (dir ++ n :: q)) ->
  sees t (scan_entry h base scan dir v n)
    (fun w => counted t (fun p => S p \/ p = dir ++ [n] \/ (exists m q, p = (dir ++ [n]) ++ m :: q)) w /\ kept v w).
Proof using Hwf.
  intros Hscan Hv Hfresh. unfold scan_entry. eapply sees_bind; [apply sees_check_work|]. intros _ _.
  eapply sees_bind; [apply sees_of_res; intros v1 H1; exact H1|]. intros v1 H1.
  eapply sees_bind; [apply sees_io, sees_look|]. intros x Hx. unfold ok_or in Hx. destruct (t !! (dir ++ [n])) as [y|] eqn:Et; simplify_eq.
  destruct x as [id b| |]; [| |apply sees_fail].
  - eapply sees_bind; [apply sees_of_res; intros v2 H2; exact H2|]. intros v2 H2. apply sees_ret.
    pose proof (count_charge _ _ _ _ _ H1 H2) as Hc. split; [|unfold kept; simpl; by destruct Hc as (_ & _ & _ & _ & -> & _)].
    eapply counted_ext; [|by eapply counted_file]. simpl. intros p Hp. split; [naive_solver|].
    intros [?|[?|(m & q & ->)]]; [by left|by right|]. exfalso.
    apply wf_prefix in Hp; [|done]. destruct (wf_parent _ Hwf _ _ Hp) as [E|E]; [by destruct dir|congruence].
  - eapply sees_bind; [apply sees_of_res; intros v2 H2; exact H2|]. intros v2 H2.
    pose proof (count_charge _ _ _ _ _ H1 H2) as Hc.
    eapply sees_weaken; [apply (Hscan (fun q => S q \/ q = dir ++ [n])); [by eapply counted_directory| |done]|].
    + intros m q [E|E]; [by apply (Hfresh (m :: q)); rewrite <- app_assoc in E|].
      apply (f_equal length) in E. rewrite !length_app in E. simpl in E. lia.
    + intros w [Hw Hk]. split; [|unfold kept in *; rewrite Hk; simpl; by destruct Hc as (_ & _ & _ & _ & -> & _)].
      eapply counted_ext; [|exact Hw]. naive_solver.
Qed.

Lemma scanned_directory fuel dir depth (S : rpath -> Prop) v :
  (dir = [] \/ t !! dir = Some Folder) -> depth + Z.of_nat fuel = 10 -> depth <= 9 -> counted t S v -> (forall n q, ~ S (dir ++ n :: q)) ->
  sees t (scan_directory h base fuel dir depth v)
    (fun w => counted t (fun p => S p \/ exists n q, p = dir ++ n :: q) w /\ kept v w).
Proof using Hwf Horder.
  revert dir depth S v. induction fuel as [|fuel IH]; intros dir depth S v Hdir Hfuel Hdepth Hv Hfresh; [lia|]. simpl.
  eapply sees_bind; [apply sees_check_work|]. intros _ _. apply sees_guard. intros Hd%Z.ltb_ge.
  eapply sees_bind; [apply sees_dir, Horder|]. intros names [Hnames _].
  assert (Hnd : NoDup names) by (rewrite Hnames; apply names_nodup).
  eapply sees_weaken; [apply (sees_fold _ (fun done w => counted t (with_names S dir done) w /\ kept v w))|].
  - intros done0 w n rest E [Hw Hk]. eapply sees_weaken; [eapply scan_entry_ok; [|exact Hw|]|].
    + intros R w' Hw' HR Hn. apply IH; [by right|lia|lia|done|done].
    + intros q [Hq|(m & q' & Hm & E')]; [by eapply Hfresh|]. apply (inj (app dir)) in E' as [= <- <-].
      rewrite E in Hnd. apply list.NoDup_app in Hnd as (_ & Hnd & _). apply (Hnd n Hm). left.
    + intros w' [Hw' Hk']. split; [|unfold kept in *; congruence]. eapply counted_ext; [|exact Hw'].
      intros p _. symmetry. apply with_name_step.
  - split; [|done]. eapply counted_ext; [|exact Hv]. intros p _. unfold with_names. split; [by left|].
    intros [?|(n & q & Hn%not_elem_of_nil & _)]; done.
  - intros w [Hw Hk]. split; [|done]. eapply counted_ext; [|exact Hw]. intros p Hp. unfold with_names.
    split; [naive_solver|]. intros [?|(n & q & ->)]; [by left|right]. exists n, q. split; [|done].
    rewrite Hnames. apply elem_names_in. by eapply wf_prefix.
Qed.

(** The inventory lists the whole tree. *)
Definition exact (v : Inventory) : Prop := counted t (fun _ => True) v.

Lemma scan_ok limits : sees t (scan h base limits) (fun v => exact v /\ in_limits v = limits).
Proof using Hwf Horder.
  unfold scan. eapply sees_bind; [apply sees_clock|]. intros now _.
  eapply sees_weaken; [apply (scanned_directory _ _ _ (fun _ => False)); [by left|done|done| |naive_solver]|].
  - split; simpl.
    + exists ∅. split_and!; [apply map_empty_subseteq| |done|done]. intros p. rewrite lookup_empty, is_Some_alt. naive_solver.
    + intros p id. rewrite lookup_empty. naive_solver.
    + intros p. set_solver.
    + done.
    + done.
  - intros v [Hv Hk]. split; [|done]. eapply counted_ext; [|exact Hv]. intros p [x Hx]. split; [done|]. intros _. right.
    destruct p as [|n q]; [|by exists n, q]. by rewrite (wf_root _ Hwf) in Hx.
Qed.
End Scan.

(** An exact inventory counts the tree itself. *)
Lemma exact_counts t v : exact t v -> in_entries v = Z.of_nat (size t) /\ in_bytes v = tree_charge t.
Proof.
  intros [(u & Hu & Hd & He & Hb) _ _ _ _]. assert (u = t) as ->; [|done].
  apply map_eq. intros p. destruct (t !! p) as [n|] eqn:E.
  - destruct (Hd p) as [_ [m Hm]]; [eauto|]. by rewrite Hm, <- E, (lookup_weaken _ _ _ _ Hm Hu).
  - destruct (u !! p) eqn:Eu; [|done]. apply (lookup_weaken _ _ _ _ Eu) in Hu. congruence.
Qed.

(** No file has a negative size. *)
Definition sizes_ok (t : tree) : Prop := forall p id b, t !! p = Some (Regular id b) -> 0 <= id_size id.
Lemma wf_sizes t : wf_tree t -> sizes_ok t.
Proof. intros Hwf p id b Hp. rewrite (wf_size _ Hwf _ _ _ Hp). unfold zlen. lia. Qed.

Lemma charge_lower t : sizes_ok t -> ENTRY_CHARGE * Z.of_nat (size t) <= tree_charge t.
Proof.
  intros Hok. unfold tree_charge. assert (Hall : Forall (fun n => 0 <= n) ((fun e => node_size e.2) <$> map_to_list t)).
  { apply list.Forall_forall. intros n ([p x] & -> & Hx%elem_of_map_to_list)%list_elem_of_fmap. simpl.
    destruct x as [id b| |]; simpl; [|done..]. by eapply Hok. }
  rewrite <- length_map_to_list, <- (length_fmap (fun e => node_size e.2)). revert Hall.
  generalize ((fun e : rpath * node => node_size e.2) <$> map_to_list t). intros l Hl.
  induction Hl as [|n l Hn Hl IH]; simpl; [done|]. unfold ENTRY_CHARGE in *. lia.
Qed.

(** ** Reads *)

Section Reads.
Context (h : host) (t : tree).

Lemma sees_admit n b : sees t (admit_bytes h n b) (fun b' => cb_limits b' = cb_limits b).
Proof.
  unfold admit_bytes. eapply sees_bind; [apply sees_clock|]. intros now _. apply sees_guard. intros _.
  eapply sees_bind; [by apply (sees_of_res _ (fun _ => True))|]. intros a _. apply sees_guard. intros _. by apply sees_ret.
Qed.

Lemma take_all (b : bytes) n : zlen (take (Z.to_nat (n + 1)) b) = n -> take (Z.to_nat (n + 1)) b = b.
Proof. unfold zlen. rewrite length_take. intros Hn. apply take_ge. lia. Qed.

Lemma sees_read v p m b :
  exact t v -> sees t (read h v p m b)
    (fun r => cb_limits r.2 = cb_limits b /\ match r.1 with Some d => file_at t p d | None => identity_at t p = None end).
Proof.
  intros Hv. unfold read. destruct (in_files v !! p) as [expected|] eqn:Ef.
  - apply sees_guard. intros _. eapply sees_bind; [apply sees_admit|]. intros b' Hb'.
    eapply sees_bind; [apply sees_io, sees_look|]. intros [id d] Hd. apply sees_guard. intros _. apply sees_guard.
    intros Hlen%negb_false_iff%Z.eqb_eq. apply sees_ret. split; [done|]. simpl. rewrite take_all by done.
    destruct (t !! p) as [[]|] eqn:Et; simplify_eq. by exists id.
  - apply sees_ret. split; [done|]. simpl. destruct (identity_at t p) as [id|] eqn:E; [|done].
    assert (in_files v !! p = Some id) by (by apply (ct_files _ _ _ Hv)). congruence.
Qed.

Lemma sees_required v p m b :
  exact t v -> sees t (required h v p m b) (fun r => cb_limits r.2 = cb_limits b /\ file_at t p r.1).
Proof.
  intros Hv. unfold required. eapply sees_bind; [by apply sees_read|]. intros [d b'] [Hb Hd]. simpl in *.
  eapply sees_bind; [apply sees_of_res; intros a Ha; exact Ha|]. intros a Ha. apply sees_ret.
  unfold ok_or in Ha. destruct d; simplify_eq. done.
Qed.

Lemma sees_open_regular p : sees t (io (open_regular h p)) (fun r => t !! p = Some (Regular r.1 r.2)).
Proof.
  eapply sees_weaken; [apply sees_io, sees_look|]. intros [id b] Hb. destruct (t !! p) as [[]|] eqn:E; by simplify_eq.
Qed.
End Reads.
End InventoryFacts.
