(* ===== verification/OwnersFacts.v ===== *)
(** * OwnersFacts

    What the discovery of owners proves: every owner directory of the scope is
    in its result, and an owner it calls released has a released registration. *)

From S2P Require Import Prelude Types Faults Text Profile Frames Wire Disk Records Pins Capacity ScopeTree Owners Inventory InventoryFacts.
Import Digests Records Pins ScopeTree Owners InventoryFacts.
Import Capacity(CacheLimits, max_entries, max_owners).
Local Open Scope string_scope.
Local Open Scope list_scope.
Local Open Scope Z_scope.

Module OwnersFacts.

Section Facts.
Context `{HexCrate} `{UuidCrate} `{PinCodec} (h : host) (t : tree).

(** The record stored at a path. *)
Definition stored {T} `{Serde T} (p : rpath) (x : T) : Prop := exists b, file_at t p b /\ from_json b = Ok x.

(** The registration of a workspace is released. *)
Definition released (id : string) : Prop :=
  exists g, stored (T := Registration) [REGISTRY_DIR; (id ++ ".json")%string] g /\ rg_state g = Released.

Definition owner_ok (o : RetentionOwner) : Prop :=
  exists sid id, ro_root o = owner_root sid id /\ (ro_released o = true -> released id).

Lemma sees_directory p : sees t (check_directory h p) (fun _ => t !! p = Some Folder).
Proof using Type.
  unfold check_directory. eapply sees_bind; [apply sees_io, sees_look|]. intros n Hn. apply sees_guard. intros Hd.
  apply sees_ret. unfold ok_or in Hn. destruct (t !! p), n; by simplify_eq/=.
Qed.

Lemma sees_record {T} `{Serde T} p : sees t (read_record h (T := T) p) (fun r => forall x, r = Some x -> stored p x).
Proof using Type.
  unfold read_record. eapply sees_bind; [apply sees_look|]. intros [n|e] Hn; [|destruct e; try apply sees_fail; by apply sees_ret].
  destruct n as [id b| |]; [|apply sees_fail..]. apply sees_guard. intros _.
  eapply sees_bind; [apply sees_open_regular|]. intros [id' b'] Hb. apply sees_guard. intros Hlen%Z.ltb_ge. apply sees_of_res.
  intros r Hr%map_err_ok x ->. apply rbind_ok in Hr as (y & Hy & [= <-]). exists b'. split; [by exists id'|].
  rewrite take_ge in Hy; [done|]. unfold zlen in Hlen. rewrite length_take in Hlen. lia.
Qed.

Lemma sees_true {A : Type} (c : W A) (P : A -> Prop) : sees t c P -> sees t c (fun _ => True).
Proof using Type. intros Hc. by eapply sees_weaken. Qed.

Lemma sees_res_true {A : Type} (r : Res A) : sees t (of_res r) (fun a => r = Ok a).
Proof using Type. by apply sees_of_res. Qed.

Lemma sees_authority dir domain scope snapshot : sees t (validate_authority h dir domain scope snapshot) (fun _ => True).
Proof using Type.
  unfold validate_authority. eapply sees_bind; [apply sees_record|]. intros a _.
  eapply sees_bind; [apply sees_res_true|]. intros x _. apply sees_guard. intros _. by apply sees_ret.
Qed.

Lemma sees_store b sid id : sees t (validate_store h b sid id) (fun _ => True).
Proof using Type.
  unfold validate_store, scope_dir. eapply sees_bind.
  - eapply sees_bind; [apply sees_res_true|]. intros _ _. eapply sees_bind; [apply sees_res_true|]. intros d _.
    apply sees_guard. intros _. do 3 (eapply sees_bind; [apply sees_directory|]; intros _ _).
    eapply sees_bind; [apply sees_authority|]. intros _ _. apply sees_authority.
  - intros _ _. eapply sees_bind; [apply sees_directory|]. intros _ _. apply sees_authority.
Qed.

Lemma sees_owner sid id : sees t (require_owner h sid id) (fun _ => True).
Proof using Type.
  unfold require_owner. eapply sees_bind; [apply sees_record|]. intros b _. eapply sees_bind; [apply sees_res_true|].
  intros b' _. eapply sees_bind; [apply sees_store|]. intros _ _. by apply sees_ret.
Qed.

Lemma sees_release b sid id : sees t (release_record h b sid id) (fun _ => True).
Proof using Type.
  unfold release_record. eapply sees_bind; [apply sees_record|]. intros [r|] _; [|by apply sees_ret].
  eapply sees_bind; [apply sees_res_true|]. intros _ _. apply sees_guard. intros _. by apply sees_ret.
Qed.

Lemma sees_registration id :
  sees t (read_registration h id) (fun r => forall g, r = Some g -> stored (T := Registration) [REGISTRY_DIR; (id ++ ".json")%string] g).
Proof using Type.
  unfold read_registration. eapply sees_bind; [apply sees_res_true|]. intros _ _. eapply sees_bind; [apply sees_look|].
  intros [n|e] _; [|destruct e; try apply sees_fail; by apply sees_ret].
  eapply sees_bind; [apply sees_directory|]. intros _ _. apply sees_record.
Qed.

(** ** The two passes *)

Section Discover.
Context (limits : CacheLimits) (deadline : Z) (Horder : forall k l, h_order h k l ≡ₚ l) (Hwf : wf_tree t).

Lemma sees_step d : sees t (count_step h limits deadline d) (fun d' => dc_out d' = dc_out d /\ dc_registered d' = dc_registered d).
Proof using Type.
  unfold count_step. eapply sees_bind; [apply sees_clock|]. intros now _. apply sees_guard. intros _. by apply sees_ret.
Qed.

Definition registry_inv (d : discovery) : Prop :=
  Forall owner_ok (dc_out d) /\
  (forall sid id, (sid, id) ∈ dc_registered d -> exists o, o ∈ dc_out d /\ ro_root o = owner_root sid id).

Lemma registered_owner_ok d id : registry_inv d -> sees t (registered_owner h d id) registry_inv.
Proof using Type.
  intros [Hout Hreg]. unfold registered_owner. eapply sees_bind; [apply sees_registration|]. intros r Hr.
  eapply sees_bind; [apply sees_res_true|]. intros g Hg. apply sees_guard. intros _.
  eapply sees_bind; [apply sees_res_true|]. intros digest _. eapply sees_bind; [apply sees_owner|]. intros b _.
  apply sees_guard. intros _. eapply sees_bind; [apply sees_release|]. intros release _. apply sees_ret.
  unfold ok_or in Hg. destruct r as [g'|]; simplify_eq. split; simpl.
  - apply Forall_app. split; [done|]. apply Forall_singleton. exists (hex_encode digest), id. split; [done|]. simpl.
    intros Hrel%bool_decide_eq_true. exists g. auto.
  - intros sid id' [E%elem_of_singleton|Hin]%elem_of_union.
    + simplify_eq. eexists. rewrite elem_of_app, list_elem_of_singleton. split; [by right|done].
    + destruct (Hreg _ _ Hin) as (o & Ho & E). exists o. rewrite elem_of_app. auto.
Qed.

Lemma registry_entry_ok d name : registry_inv d -> sees t (registry_entry h limits deadline d name) registry_inv.
Proof using Type.
  intros Hd. unfold registry_entry. eapply sees_bind; [apply sees_step|]. intros d' [E1 E2].
  assert (Hd' : registry_inv d') by (unfold registry_inv; by rewrite E1, E2).
  apply sees_guard. intros _. eapply sees_bind; [apply sees_io, sees_look|]. intros n _. apply sees_guard. intros _.
  destruct (strip_suffix ".lock" name) as [id|].
  - eapply sees_bind; [apply sees_res_true|]. intros _ _. by apply sees_ret.
  - destruct (_ && _); [by apply sees_ret|]. eapply sees_bind; [apply sees_res_true|]. intros id _.
    eapply sees_bind; [apply sees_res_true|]. intros _ _. apply sees_guard. intros _. by apply registered_owner_ok.
Qed.

Definition view_inv (d0 : discovery) (views : list string) (d : discovery) : Prop :=
  dc_out d = dc_out d0 /\ dc_registered d = dc_registered d0 /\
  (forall sid id, sid ∈ views -> is_utf8 sid = true -> canonical_hex sid = true -> is_Some (t !! owner_root sid id) ->
     (sid, id) ∈ dc_registered d0).

Lemma owner_entries_ok sid d entries :
  sees t (fold_w (owner_entry h limits deadline sid) d entries)
    (fun d' => dc_out d' = dc_out d /\ dc_registered d' = dc_registered d /\ forall id, id ∈ entries -> (sid, id) ∈ dc_registered d).
Proof using Type.
  apply (sees_fold _ (fun done d' => dc_out d' = dc_out d /\ dc_registered d' = dc_registered d /\
    forall id, id ∈ done -> (sid, id) ∈ dc_registered d)).
  - intros done0 d1 id rest _ (E1 & E2 & Hin). unfold owner_entry. eapply sees_bind; [apply sees_step|]. intros d2 [F1 F2].
    apply sees_guard. intros _. eapply sees_bind; [apply sees_res_true|]. intros _ _.
    eapply sees_bind; [apply sees_directory|]. intros _ _. apply sees_guard. intros Hreg%negb_false_iff%bool_decide_eq_true.
    apply sees_ret. split_and!; [congruence|congruence|]. intros id' [Hd|E%list_elem_of_singleton]%elem_of_app; [by apply Hin|].
    subst. by rewrite <- E2, <- F2.
  - split_and!; [done|done|]. by intros id Hid%not_elem_of_nil.
Qed.

Lemma view_entry_ok d0 done d sid : view_inv d0 done d -> sees t (view_entry h limits deadline d sid) (view_inv d0 (done ++ [sid])).
Proof using Hwf Horder.
  intros (E1 & E2 & Hin). unfold view_entry. eapply sees_bind; [apply sees_step|]. intros d1 [F1 F2].
  assert (Hstep : forall d', dc_out d' = dc_out d1 -> dc_registered d' = dc_registered d1 ->
    (is_utf8 sid = true -> canonical_hex sid = true -> forall id, is_Some (t !! owner_root sid id) -> (sid, id) ∈ dc_registered d1) ->
    view_inv d0 (done ++ [sid]) d').
  { intros d' G1 G2 Hs. split_and!; [congruence|congruence|].
    intros sid' id [Hd|E%list_elem_of_singleton]%elem_of_app Hu Hx Hid; [by eapply Hin|]. subst.
    rewrite <- E2, <- F2. by apply Hs. }
  destruct (is_utf8 sid && canonical_hex sid) eqn:Eh; simpl.
  2:{ apply sees_ret, Hstep; [done|done|]. intros Hu Hx. by rewrite Hu, Hx in Eh. }
  eapply sees_bind; [apply sees_directory|]. intros _ _. eapply sees_bind; [apply sees_listing, Horder|]. intros r [Hr Habs].
  destruct r as [entries|e].
  - destruct (Hr _ eq_refl) as [Hperm _]. eapply sees_bind; [apply sees_directory|]. intros _ _.
    eapply sees_weaken; [apply owner_entries_ok|]. intros d' (G1 & G2 & Hall). apply Hstep; [done|done|].
    intros _ _ id Hid. apply Hall. rewrite Hperm. by apply elem_names_in.
  - destruct e; try apply sees_fail. apply sees_ret, Hstep; [done|done|]. intros _ _ id Hid. exfalso.
    destruct (wf_parent _ Hwf [sid; "owners"] id Hid) as [|E]; [done|]. by rewrite Habs in E.
Qed.

(** Every owner directory is found. *)
Definition covers (owners : list RetentionOwner) : Prop :=
  Forall owner_ok owners /\
  forall sid id, is_utf8 sid = true -> canonical_hex sid = true -> is_Some (t !! owner_root sid id) ->
    exists o, o ∈ owners /\ ro_root o = owner_root sid id.

Lemma discover_ok : sees t (discover_retention_owners h limits deadline) covers.
Proof using Hwf Horder.
  unfold discover_retention_owners. eapply sees_bind; [apply sees_listing, Horder|]. intros entries _.
  eapply (sees_bind _ _ registry_inv).
  - assert (Hinit : registry_inv (mkDiscovery 0 [] ∅)) by (split; simpl; [done|set_solver]).
    destruct entries as [entries|e]; [|destruct e; try apply sees_fail; by apply sees_ret].
    eapply sees_bind; [apply sees_directory|]. intros _ _.
    apply (sees_fold _ (fun _ => registry_inv)); [|done]. intros done0 d name rest _ Hd. by apply registry_entry_ok.
  - intros d [Hout Hreg]. eapply sees_bind; [apply sees_dir, Horder|]. intros views [Hviews _].
    eapply sees_bind; [apply (sees_fold _ (view_inv d))|].
    + intros done0 d' sid rest _. apply view_entry_ok.
    + split_and!; [done|done|]. by intros sid id Hid%not_elem_of_nil.
    + intros d' (E1 & E2 & Hall). apply sees_ret. rewrite E1. split; [done|]. intros sid id Hu Hx Hid.
      apply Hreg, Hall; try done. rewrite Hviews. apply elem_names_in.
      by apply (wf_prefix t [] sid ["owners"; id]).
Qed.
End Discover.
End Facts.
End OwnersFacts.
