(* ===== verification/ProtectionFacts.v ===== *)
(** * ProtectionFacts

    The proofs a collection demands of the owners: for every owner that was
    proved, the names that its closure needs are protected, whichever closure
    its stored use has; and a use that was taken for retired is. *)

From S2P Require Import Prelude Types Faults Text Profile Btree Frames Wire Closure ClosureExact Disk Records Pins Durable Capacity Incremental ScopeTree Owners Inventory Retention InventoryFacts OwnersFacts.
Import Pins Owners Digests Scope Closure ClosureExact Records Capacity ScopeTree Inventory Retention InventoryFacts OwnersFacts.
Local Open Scope string_scope.
Local Open Scope list_scope.
Local Open Scope Z_scope.

Module ProtectionFacts.

Section Closures.
Context `{HexCrate} `{PageCodec} `{CodecScope} `{DescriptorCodec} `{ServingCodec} `{UuidCrate}.

Lemma bounded_validated b pages mn mb dl now c :
  from_canonical_pages_bounded b pages mn mb dl now = Ok c ->
  exists s id v, serving_decode b = Ok s /\ serving_snapshot_id s = Ok id /\
    validate_pages_bounded (descriptor_of s id) pages mn mb dl now = Ok (c, v).
Proof using Type.
  unfold from_canonical_pages_bounded. intros Hc. apply rbind_ok in Hc as (s & Hs & Hc).
  apply rbind_ok in Hc as (id & Hid & Hc). apply rbind_ok in Hc as ([c' v] & Hv & Hc). apply reject_ok in Hc as [_ [= <-]].
  unfold lift in Hs, Hid. do 2 apply map_err_ok in Hs. do 2 apply map_err_ok in Hid. by exists s, id, v.
Qed.

(** The limits decide whether a closure is accepted, not which. *)
Lemma bounds_irrelevant b pages mn mb dl now c mn' mb' dl' now' c' :
  Btree.ordered pages ->
  from_canonical_pages_bounded b pages mn mb dl now = Ok c ->
  from_canonical_pages_bounded b pages mn' mb' dl' now' = Ok c' ->
  vc_pages c = vc_pages c' /\ forall f, f ∈ vc_files c <-> f ∈ vc_files c'.
Proof using Type.
  intros Hord (s & id & v & Hs & Hid & Hv)%bounded_validated (s' & id' & v' & Hs' & Hid' & Hv')%bounded_validated.
  rewrite Hs in Hs'. injection Hs' as <-. rewrite Hid in Hid'. injection Hid' as <-.
  destruct (validated _ _ _ _ _ _ _ _ Hord Hv) as (_ & _ & _ & Hf & _ & _ & _ & _ & ->).
  destruct (validated _ _ _ _ _ _ _ _ Hord Hv') as (_ & _ & _ & Hf' & _ & _ & _ & _ & ->).
  split; [done|]. intros f. cbn [vc_files]. by rewrite !sort_by_perm, Hf, Hf'.
Qed.
End Closures.

Section Protection.
Context `{HexCrate} `{Sha256} `{PageCodec} `{PageBytes} `{CodecScope} `{DescriptorCodec} `{ServingCodec} `{UuidCrate}.
Context `{CommitCodec} `{PinCodec} `{RetentionCodec} (h : host) (t : tree).

(** ** What an owner needs *)

(** The pages a use names, as they are stored for it. *)
Definition stored_pages (root : rpath) (deps : list PageDependency) (pages : list (string * bytes)) : Prop :=
  Btree.ordered pages /\
  forall id b, (id, b) ∈ pages <->
    exists d digest, d ∈ deps /\ p_page_id d = id /\ parse_digest id = Ok digest /\
      file_at t (root ++ [RETENTION_DIR; "pages"; hex_encode digest]) b.

(** The owner at [root] has a use that is not retired, whose stored descriptor
    and pages prove the closure [c]. *)
Definition live (root : rpath) (c : ValidatedSnapshotClosure) : Prop :=
  exists sid id record descriptor pages mn mb dl now,
    root = owner_root sid id /\ stored t (T := WorkspaceUse) (root ++ [USE_RECORD]) record /\ wu_retired record = false /\
    file_at t (root ++ [RETENTION_DIR; "descriptor.msd2"]) descriptor /\
    stored_pages root (wu_pages record) pages /\
    from_canonical_pages_bounded descriptor pages mn mb dl now = Ok c.

(** The use of the owner is retired: its registration is released, and it has
    neither a pin nor a completion record. *)
Definition retired (root : rpath) : Prop :=
  exists sid id record,
    root = owner_root sid id /\ stored t (T := WorkspaceUse) (root ++ [USE_RECORD]) record /\ wu_retired record = true /\
    released t id /\ identity_at t (root ++ ["pin.json"]) = None /\ identity_at t (root ++ ["DURABLE_COMPLETE"]) = None.

(** The file names of the digests of a list. *)
Definition named_by (digests : list string) (name : string) : Prop :=
  exists x d, x ∈ digests /\ parse_digest x = Ok d /\ name = hex_encode d.
Definition blob_names (c : ValidatedSnapshotClosure) : string -> Prop := named_by (file_digest <$> vc_files c).
Definition page_names (c : ValidatedSnapshotClosure) : string -> Prop := named_by (vc_pages c).*1.

(** ** The steps of a proof *)

Context (v : Inventory) (Hv : exact t v).

Lemma sees_pages root deps b :
  sees t (fold_w (take_page h v root) ([], b) deps)
    (fun r => cb_limits r.2 = cb_limits b /\ stored_pages root deps r.1).
Proof using Hv.
  apply (sees_fold _ (fun done r => cb_limits r.2 = cb_limits b /\ stored_pages root done r.1)).
  - intros done0 [pages b1] d rest _ [Hb [Hord Hin]]. simpl in *. unfold take_page.
    eapply sees_bind; [apply sees_res_true|]. intros digest Hd. eapply sees_bind; [by apply sees_required|].
    intros [data b2] [Hb2 Hdata]. simpl in *. eapply sees_bind; [apply sees_res_true|]. intros m _.
    apply sees_guard. intros _. apply sees_guard. intros [_ Hnew]%orb_false_iff. apply sees_ret. simpl.
    split; [congruence|]. split; [by apply Btree.put_ordered|].
    apply bool_decide_eq_false in Hnew. rewrite <- eq_None_not_Some in Hnew.
    intros id x. rewrite <- Btree.get_elem by by apply Btree.put_ordered. rewrite Btree.get_put.
    case_decide as Hid; [subst id|].
    + split.
      * intros [= <-]. exists d, digest. rewrite elem_of_app, list_elem_of_singleton. auto.
      * intros (d' & digest' & [Hd'|Hd'%list_elem_of_singleton]%elem_of_app & E & Hdig & Hx).
        -- exfalso. assert (Hget : (p_page_id d, x) ∈ pages) by (apply Hin; eauto 8).
           apply Btree.get_elem in Hget; [congruence|done].
        -- subst. rewrite Hdig in Hd. injection Hd as <-. by rewrite (file_at_det _ _ _ _ Hx Hdata).
    + clear Hd. rewrite Btree.get_elem by done. rewrite Hin. split.
      * intros (d' & digest' & Hd' & R). exists d', digest'. rewrite elem_of_app. auto.
      * intros (d' & digest' & [Hd'|Hd'%list_elem_of_singleton]%elem_of_app & E & R); [eauto|by subst].
  - split; [done|]. split; [constructor|]. simpl. intros id x. split; [by intros Hx%not_elem_of_nil|].
    by intros (d & digest & Hd%not_elem_of_nil & _).
Qed.

Lemma sees_protect digests names b :
  sees t (fold_w (protect h) (names, b) digests)
    (fun r => cb_limits r.2 = cb_limits b /\ names ⊆ r.1 /\ forall name, named_by digests name -> name ∈ r.1).
Proof using Type.
  clear v Hv.
  apply (sees_fold _ (fun done r => cb_limits r.2 = cb_limits b /\ names ⊆ r.1 /\ forall name, named_by done name -> name ∈ r.1)).
  - intros done0 [names1 b1] x rest _ (Hb & Hsub & Hin). simpl in *. unfold protect.
    eapply sees_bind; [apply sees_res_true|]. intros d Hd.
    assert (Hstep : forall names2, names1 ⊆ names2 -> hex_encode d ∈ names2 ->
      names ⊆ names2 /\ forall name, named_by (done0 ++ [x]) name -> name ∈ names2).
    { intros names2 H12 Hx. split; [set_solver|]. intros name (y & d' & [Hy|Hy%list_elem_of_singleton]%elem_of_app & Hd' & ->).
      - apply H12, Hin. by exists y, d'.
      - subst. rewrite Hd in Hd'. by injection Hd' as <-. }
    case_bool_decide as Hin1.
    + apply sees_ret. split; [done|]. by apply Hstep.
    + eapply sees_bind; [apply sees_admit|]. intros b2 Hb2. apply sees_ret. simpl. split; [congruence|]. apply Hstep; set_solver.
  - split_and!; [done|done|]. by intros name (x & d & Hx%not_elem_of_nil & _).
Qed.

(** The records taken so far stay. *)
Definition more (st st' : gmap string bytes * CollectionBudget) : Prop :=
  cb_limits st'.2 = cb_limits st.2 /\ forall n, is_Some (st.1 !! n) -> is_Some (st'.1 !! n).
Lemma more_trans st st1 st2 : more st st1 -> more st1 st2 -> more st st2.
Proof using Type. intros [E1 Ha] [E2 Hb]. split; [congruence|auto]. Qed.
Lemma more_insert (records : gmap string bytes) b b' name data :
  cb_limits b' = cb_limits b -> more (records, b) (<[name := data]> records, b').
Proof using Type.
  intros E. split; [done|]. intros n Hn. simpl in *. destruct (decide (n = name)) as [->|Hne]; [rewrite lookup_insert_eq; eauto|].
  by rewrite lookup_insert_ne.
Qed.

Lemma sees_take root st name : sees t (take_record h v root st name) (fun r => more st r /\ is_Some (r.1 !! name)).
Proof using Hv.
  destruct st as [records b]. simpl. eapply sees_bind; [by apply sees_required|]. intros [data b'] [Hb _]. simpl in Hb.
  apply sees_ret. split; [by apply more_insert|]. simpl. rewrite lookup_insert_eq. eauto.
Qed.

Lemma sees_taken root names st :
  sees t (fold_w (take_record h v root) st names) (fun r => more st r /\ forall n, n ∈ names -> is_Some (r.1 !! n)).
Proof using Hv.
  apply (sees_fold _ (fun done r => more st r /\ forall n, n ∈ done -> is_Some (r.1 !! n))).
  - intros done0 st1 name rest _ [Hm Hin]. eapply sees_weaken; [apply sees_take|]. intros st2 [Hm2 Hn]. split; [by eapply more_trans|].
    intros n [Hd|E%list_elem_of_singleton]%elem_of_app; [by apply Hm2, Hin|by subst].
  - split; [done|]. by intros n Hn%not_elem_of_nil.
Qed.

Lemma sees_optional root names st : sees t (fold_w (take_optional h v root) st names) (more st).
Proof using Hv.
  apply (sees_fold _ (fun _ => more st)); [|done]. intros done0 [records b] name rest _ Hm. simpl.
  eapply sees_bind; [by apply sees_read|]. intros [data b'] [Hb _]. simpl in Hb. apply sees_ret. eapply more_trans; [exact Hm|].
  destruct data; [by apply more_insert|]. by split.
Qed.

Lemma sees_same_pages root pages b :
  sees t (fold_w (same_page h v root) b pages) (fun b' => cb_limits b' = cb_limits b).
Proof using Hv.
  apply (sees_fold _ (fun _ b' => cb_limits b' = cb_limits b)); [|done]. intros done0 b1 [id data] rest _ Hb. unfold same_page.
  eapply sees_bind; [apply sees_res_true|]. intros d _. eapply sees_bind; [by apply sees_required|]. intros [x b2] [Hb2 _].
  apply sees_guard. intros _. apply sees_ret. simpl in *. congruence.
Qed.

Lemma sees_pin_metadata root c has_pin has_complete b :
  sees t (validate_pin_metadata h v root c has_pin has_complete b) (fun b' => cb_limits b' = cb_limits b).
Proof using Hv.
  unfold validate_pin_metadata. apply sees_guard. intros _. destruct has_pin; [|by apply sees_ret].
  eapply sees_bind; [apply sees_taken|]. intros st [[Hb _] Hin]. simpl in Hb.
  assert (Hpin : is_Some (st.1 !! PIN_FILE)) by (apply Hin; set_solver).
  eapply (sees_bind _ _ (more st)).
  { destruct has_complete; [|by apply sees_ret]. eapply sees_weaken; [apply sees_take|]. by intros r [Hr _]. }
  intros st' Hst'. eapply sees_bind; [apply sees_optional|]. intros [records b'] Hm.
  destruct (more_trans _ _ _ Hst' Hm) as [Hb' Hkeep]. simpl in *. destruct (Hkeep _ Hpin) as [pin Hp]. rewrite Hp.
  eapply sees_bind; [by apply (sees_of_run _ (fun _ => True))|]. intros pin_bytes _.
  eapply sees_bind; [apply sees_res_true|]. intros revision _.
  eapply (sees_bind _ _ (fun b2 => cb_limits b2 = cb_limits b')); [destruct (revision =? 3); [apply sees_same_pages|by apply sees_ret]|].
  intros b2 Hb2. eapply sees_bind; [apply sees_res_true|]. intros _ _. apply sees_ret. congruence.
Qed.

(** ** One owner *)

Context (Hdepth : 0 <= PAGE_MAX_DEPTH).

Lemma sees_live_closure root sid id binding record b :
  root = owner_root sid id -> stored t (T := WorkspaceUse) (root ++ [USE_RECORD]) record -> wu_retired record = false ->
  sees t (live_closure h v root binding record b)
    (fun r => cb_limits r.2 = cb_limits b /\ live root r.1).
Proof using Hv Hdepth.
  intros Hroot Hrec Hret. unfold live_closure. eapply sees_bind; [apply sees_res_true|]. intros digest _.
  eapply sees_bind; [apply sees_res_true|]. intros _ _. apply sees_guard. intros _.
  eapply sees_bind; [by apply sees_required|]. intros [descriptor b1] [Hb1 Hdesc]. simpl in *. apply sees_guard. intros _.
  eapply sees_bind; [apply sees_pages|]. intros [pages b2] [Hb2 Hpages]. simpl in *.
  eapply (sees_bind _ _ (live root)).
  - apply sees_timed; [intros g; apply canonical_clean; [apply Hpages|done]|]. intros g c Hc.
    unfold live. eauto 16.
  - intros c Hc. apply sees_guard. intros _. eapply sees_bind; [apply sees_res_true|]. intros nodes _. apply sees_guard. intros _.
    apply sees_ret. simpl. split; [congruence|done].
Qed.

(** A live owner has one set of names. *)
Lemma live_names root c c' :
  live root c -> live root c' -> vc_pages c = vc_pages c' /\ forall f, f ∈ vc_files c <-> f ∈ vc_files c'.
Proof using Type.
  intros (sid & id & r & d & ps & mn & mb & dl & now & _ & (b & Hb & Hr) & _ & Hd & [Hord Hin] & Hc)
    (sid' & id' & r' & d' & ps' & mn' & mb' & dl' & now' & _ & (b' & Hb' & Hr') & _ & Hd' & [Hord' Hin'] & Hc').
  pose proof (file_at_det _ _ _ _ Hb Hb') as <-. rewrite Hr in Hr'. injection Hr' as <-.
  pose proof (file_at_det _ _ _ _ Hd Hd') as <-.
  assert (ps = ps') as <- by (apply Btree.ordered_ext; [done|done|]; intros k x; by rewrite Hin, Hin').
  by eapply bounds_irrelevant.
Qed.

(** What the owners proved so far. *)
Record proved (limits : CacheLimits) (done : list RetentionOwner) (st : proof) : Prop := {
  pv_limits : cb_limits (pr_budget st) = limits;
  pv_retired : forall root, root ∈ pr_retired st -> retired root;
  pv_blobs : forall o c name, o ∈ done -> live (ro_root o) c -> blob_names c name -> name ∈ pr_blobs st;
  pv_pages : forall o c name, o ∈ done -> live (ro_root o) c -> page_names c name -> name ∈ pr_pages st;
}.

Lemma prove_owner_ok limits done st o :
  owner_ok t o -> proved limits done st -> sees t (prove_owner h v st o) (proved limits (done ++ [o])).
Proof using Hv Hdepth.
  intros (sid & id & Hroot & Hrel) [Hl Hr Hbl Hpg]. unfold prove_owner.
  eapply sees_bind; [apply sees_admit|]. intros b Hb. eapply sees_bind; [apply sees_open_regular|]. intros _ _. apply sees_gate.
  eapply sees_bind; [by apply sees_required|]. intros [data b1] [Hb1 Hdata]. simpl in *.
  eapply sees_bind; [apply sees_res_true|]. intros record Hrec%map_err_ok. apply sees_guard. intros _.
  assert (Hst : stored t (T := WorkspaceUse) (ro_root o ++ [USE_RECORD]) record) by (by exists data).
  destruct (wu_retired record) eqn:Eret.
  - apply sees_guard. intros Hg. apply sees_ret. bools. destruct Hg as [[[Hrl _] Hpin] Hcomp].
    assert (Hnone : forall p, ~ is_Some (in_files v !! p) -> identity_at t p = None).
    { intros p Hp. destruct (identity_at t p) as [i|] eqn:E; [|done]. exfalso. apply Hp. exists i. by apply (ct_files _ _ _ Hv). }
    assert (Hlive : forall c, ~ live (ro_root o) c).
    { intros c (s' & i' & r' & d' & ps' & mn & mb & dl & now & _ & (b' & Hb' & Hr') & Hnot & _).
      rewrite <- (file_at_det _ _ _ _ Hdata Hb') in Hr'. congruence. }
    split; simpl; [congruence| | |].
    + intros root [E%elem_of_singleton|Hin]%elem_of_union; [|by apply Hr]. subst root. exists sid, id, record.
      split_and!; [done|done|done|auto| |]; by apply Hnone, (bool_decide_eq_false _).
    + intros o' c name [Ho|E%list_elem_of_singleton]%elem_of_app Hc; [by eapply Hbl|]. subst. by apply Hlive in Hc.
    + intros o' c name [Ho|E%list_elem_of_singleton]%elem_of_app Hc; [by eapply Hpg|]. subst. by apply Hlive in Hc.
  - eapply sees_bind; [by eapply sees_live_closure|]. intros [c b2] [Hb2 Hlive]. simpl in *.
    eapply sees_bind; [apply sees_pin_metadata|]. intros b3 Hb3.
    eapply sees_bind; [apply sees_protect|]. intros [blobs b4] (Hb4 & Hsub4 & Hin4). simpl in *.
    eapply sees_bind; [apply sees_protect|]. intros [pages b5] (Hb5 & Hsub5 & Hin5). simpl in *.
    apply sees_ret. split; simpl; [congruence|done| |].
    + intros o' c' name [Ho|E%list_elem_of_singleton]%elem_of_app Hc' (x & d & Hx & Hd & ->).
      * apply Hsub4. eapply Hbl; [done|done|]. by exists x, d.
      * subst. apply Hin4. exists x, d. split_and!; [|done|done]. apply list_elem_of_fmap in Hx as (f & -> & Hf).
        apply list_elem_of_fmap. exists f. split; [done|]. by apply (live_names _ _ _ Hc' Hlive).
    + intros o' c' name [Ho|E%list_elem_of_singleton]%elem_of_app Hc' (x & d & Hx & Hd & ->).
      * apply Hsub5. eapply Hpg; [done|done|]. by exists x, d.
      * subst. apply Hin5. exists x, d. split_and!; [|done|done]. by rewrite <- (proj1 (live_names _ _ _ Hc' Hlive)).
Qed.

Lemma prove_owners_ok limits owners b :
  Forall (owner_ok t) owners -> cb_limits b = limits ->
  sees t (fold_w (prove_owner h v) (mkProof b ∅ ∅ ∅) owners) (proved limits owners).
Proof using Hv Hdepth.
  intros Hall Hb. apply (sees_fold _ (proved limits)).
  - intros done0 st o rest E Hst. apply prove_owner_ok; [|done]. rewrite list.Forall_forall in Hall. apply Hall. subst. set_solver.
  - split; simpl; [done|set_solver| |]; by intros o c name Ho%not_elem_of_nil.
Qed.
End Protection.
End ProtectionFacts.
