(* ===== verification/RetentionFacts.v ===== *)
(** * RetentionFacts

    What a collection removes, and what it leaves. *)

From S2P Require Import Prelude Types Faults Text Profile Btree Frames Wire Closure ClosureExact Disk Records Pins Durable Capacity Incremental ScopeTree Owners Inventory Retention InventoryFacts OwnersFacts ProtectionFacts.
Import Pins Owners Digests Scope Closure Records Capacity ScopeTree Inventory Retention InventoryFacts OwnersFacts ProtectionFacts.
Local Open Scope string_scope.
Local Open Scope list_scope.
Local Open Scope Z_scope.

Module RetentionFacts.

Lemma elem_middle {A} (x : A) l r : x ∈ l ++ x :: r.
Proof. rewrite elem_of_app. right. left. Qed.

(** The name of a file before it is renamed. *)
Definition temporary_name (name : string) : Prop := exists final id, name = ("." ++ final ++ ".tmp." ++ id)%string.

Section Facts.
Context `{HexCrate} `{Sha256} `{PageCodec} `{PageBytes} `{CodecScope} `{DescriptorCodec} `{ServingCodec} `{UuidCrate}.
Context `{CommitCodec} `{PinCodec} `{RetentionCodec} (h : host) (base : Z).

(** What a collection of the tree may remove: contents and pages that no live
    use needs, metadata of retired uses, and what writers left behind. *)
Inductive disposable (t : tree) : rpath -> Prop :=
  | stale_blob name :
      canonical_hex name = true -> (forall root c, live t root c -> ~ blob_names c name) -> disposable t ["blobs"; name]
  | stale_page name :
      canonical_hex name = true -> (forall root c, live t root c -> ~ page_names c name) -> disposable t ["pages"; name]
  | retired_directory root dir rest :
      retired t root -> dir = "metadata" \/ dir = RETENTION_DIR -> disposable t (root ++ dir :: rest)
  | retired_file root name : retired t root -> one_of name retired_files = true -> disposable t (root ++ [name])
  | left_intent name : disposable t [INTENTS; name]
  | left_temporary dir name : temporary_name name -> disposable t (dir ++ [name]).

Section Plan.
Context (t : tree) (Hwf : wf_tree t) (Horder : forall k l, h_order h k l ≡ₚ l).
Context (v : Inventory) (Hv : exact t v).

Lemma in_file_list p : p ∈ file_list v <-> is_Some (in_files v !! p).
Proof using Type.
  unfold file_list. rewrite sort_by_perm, list_elem_of_fmap. split.
  - intros ([q id] & -> & Hin%elem_of_map_to_list). eauto.
  - intros [id Hid]. exists (p, id). by rewrite elem_of_map_to_list.
Qed.
Lemma file_list_nodup : NoDup (file_list v).
Proof using Type. unfold file_list. rewrite sort_by_perm. apply NoDup_fst_map_to_list. Qed.
Lemma in_directory_list p : p ∈ directory_list v <-> t !! p = Some Folder.
Proof using Hv.
  unfold directory_list. rewrite sort_by_perm, elem_of_elements, (ct_directories _ _ _ Hv). naive_solver.
Qed.
Lemma file_nonempty p : is_Some (in_files v !! p) -> exists name, file_name p = Some name /\ p = parent p ++ [name].
Proof using Hv Hwf.
  intros [id Hid]. apply (ct_files _ _ _ Hv) in Hid as [_ Hid]. unfold identity_at in Hid.
  destruct p as [|x p] using rev_ind; [by rewrite (wf_root _ Hwf) in Hid|]. exists x.
  unfold file_name, parent. rewrite last_snoc, length_app, Nat.add_sub, take_app_length. done.
Qed.

Lemma sees_layout roots b dirs :
  sees t (fold_w (check_layout h roots) b dirs)
    (fun b' => cb_limits b' = cb_limits b /\ forall p, p ∈ dirs -> valid_directory roots p = Ok true).
Proof using Type.
  apply (sees_fold _ (fun done b' => cb_limits b' = cb_limits b /\ forall p, p ∈ done -> valid_directory roots p = Ok true)).
  - intros done0 b1 p rest _ [Hb Hin]. unfold check_layout. eapply sees_bind; [apply sees_admit|]. intros b2 Hb2.
    eapply sees_bind; [apply sees_res_true|]. intros ok Hok. apply sees_guard. intros ->%negb_false_iff. apply sees_ret.
    split; [congruence|]. intros q [Hq|E%list_elem_of_singleton]%elem_of_app; [auto|by subst].
  - split; [done|]. by intros p Hp%not_elem_of_nil.
Qed.

Lemma control_name p : raw_control_temporary p = Ok true -> exists dir name, p = dir ++ [name] /\ temporary_name name.
Proof using Type.
  unfold raw_control_temporary, parts. intros Hp. apply rbind_ok in Hp as (rel & Hrel & Hp). apply reject_ok in Hrel as [_ [= <-]].
  assert (Hname : forall name in_intents,
    match (n ← strip_prefix "." name; rsplit_once ".tmp." n) with
    | None => Ok false
    | Some (final, id) =>
        if negb (is_uuid id) then Ok false
        else if negb in_intents then Ok (one_of final [POLICY; LEDGER])
        else match or_else (strip_suffix ".hydrate.json" final) (strip_suffix ".json" final) with
             | Some id => Ok (is_uuid id) | None => Ok false end
    end = Ok (E := SnapshotError) true -> temporary_name name).
  { intros name in_intents. destruct (strip_prefix "." name) as [n|] eqn:En; simpl; [|done].
    destruct (rsplit_once ".tmp." n) as [[final id]|] eqn:Er; [|done]. intros _. apply strip_prefix_some in En as ->.
    apply rsplit_once_some in Er as ->. by exists final, id. }
  destruct p as [|x [|y [|]]]; [done| | |done].
  - exists [], x. split; [done|]. by apply (Hname x false).
  - destruct (String.eqb x INTENTS); [|done]. exists [x], y. split; [done|]. by apply (Hname y true).
Qed.

Lemma size_at_ok p : is_Some (in_files v !! p) -> exists id, in_files v !! p = Some id /\ size_at v p = Ok (id_size id).
Proof using Type. intros [id Hid]. exists id. split; [done|]. unfold size_at. by rewrite Hid. Qed.

(** Files that were picked in the order of a list. *)
Definition picked (P : rpath -> Prop) (seen l : list rpath) : Prop := l `sublist_of` seen /\ Forall P l.
Lemma picked_more P seen l x : picked P seen l -> picked P (seen ++ [x]) l.
Proof using Type. intros [Hs Ha]. split; [|done]. by apply sublist_inserts_r. Qed.
Lemma picked_snoc (P : rpath -> Prop) seen l x : picked P seen l -> P x -> picked P (seen ++ [x]) (l ++ [x]).
Proof using Type. intros [Hs Ha] Hx. split; [by apply sublist_app|]. apply Forall_app. auto. Qed.

Lemma sees_control b :
  sees t (fold_w (find_control h base v) ([], b) (file_list v))
    (fun r => cb_limits r.2 = cb_limits b /\ picked (fun p => raw_control_temporary p = Ok true) (file_list v) r.1).
Proof using Type.
  apply (sees_fold _ (fun done r => cb_limits r.2 = cb_limits b /\ picked (fun p => raw_control_temporary p = Ok true) done r.1)).
  - intros done0 [temps b1] p rest E [Hb Hp]. simpl in *. eapply sees_bind; [apply sees_admit|]. intros b2 Hb2.
    eapply sees_bind; [apply sees_res_true|]. intros [] Hc; simpl.
    + destruct (size_at_ok p) as (id & Hid & Hsize); [apply in_file_list; rewrite E; apply elem_middle|]. rewrite Hsize.
      eapply sees_bind; [by apply (sees_of_run _ (fun _ => True))|]. intros size _. apply sees_guard. intros _.
      eapply sees_bind; [apply sees_admit|]. intros b3 Hb3. apply sees_ret. simpl. split; [congruence|]. by apply picked_snoc.
    + apply sees_ret. simpl. split; [congruence|]. by apply picked_more.
  - split; [done|]. split; [done|constructor].
Qed.

(** ** Left-overs *)

Section Orphans.
Context (owners : list RetentionOwner) (roots : gset rpath).

(** The temporary of a writer. *)
Definition left_over (p : rpath) : Prop :=
  is_Some (in_files v !! p) /\ (exists dir name, p = dir ++ [name] /\ temporary_name name) /\ parent p <> [INTENTS].

Lemma writer_orphan_ok p id data limits temps group temps' :
  writer_orphan v roots p id data limits temps = Ok (group, temps') ->
  (group = [p] /\ temps' = temps) \/
  (exists x, group = [x; p] /\ temps' = {[x]} ∪ temps /\ (x ∉ temps) /\ left_over x).
Proof using Type.
  unfold writer_orphan. intros Hw. apply rbind_ok in Hw as (_ & _ & Hw). apply rbind_ok in Hw as (i & _ & Hw).
  apply reject_ok in Hw as [Hd Hw]. apply rbind_ok in Hw as (_ & _ & Hw). apply rbind_ok in Hw as (_ & _ & Hw).
  apply rbind_ok in Hw as (ok & Hok & Hw). apply reject_ok in Hw as [->%negb_false_iff Hw].
  destruct (in_files v !! _) as [identity|] eqn:Ef; [|injection Hw as <- <-; by left]. right.
  apply reject_ok in Hw as [Hn [= <- <-]]. apply orb_false_iff in Hn as [_ Hn%bool_decide_eq_false].
  eexists. split_and!; [done|done|done|]. split_and!; [by rewrite Ef| |].
  - eexists _, _. split; [done|]. exists (wi_final i), id. repeat (apply orb_false_iff in Hd as [Hd ?]).
    unfold ne in *. bools. congruence.
  - unfold parent. rewrite length_app, Nat.add_sub, take_app_length. intros E. rewrite E in Hok.
    unfold valid_final_file, parts in Hok. apply rbind_ok in Hok as (l & Hl & Hok). apply reject_ok in Hl as [_ [= <-]]. done.
Qed.

Record orphans_ok (limits : CacheLimits) (done : list rpath) (os : orphans) : Prop := {
  oo_limits : cb_limits (or_budget os) = limits;
  oo_nodup : NoDup (concat (or_groups os));
  oo_in : forall p, p ∈ concat (or_groups os) -> p ∈ done \/ p ∈ or_temps os;
  oo_temps : forall p, p ∈ or_temps os -> left_over p;
}.

Lemma find_orphan_ok limits done p os :
  NoDup (done ++ [p]) -> (forall q, q ∈ done ++ [p] -> parent q = [INTENTS]) -> orphans_ok limits done os ->
  sees t (find_orphan h base v owners roots os p) (orphans_ok limits (done ++ [p])).
Proof using Hv.
  intros Hnd Hpar [Hl Hn Hin Ht]. unfold find_orphan. eapply sees_bind; [apply sees_res_true|]. intros name _.
  eapply sees_bind; [by apply sees_required|]. intros [data b] [Hb _]. simpl in Hb.
  assert (Hp : (p ∉ done)) by (apply list.NoDup_app in Hnd as (_ & Hd & _); intros Hx; apply (Hd p Hx); left).
  assert (Hpt : (p ∉ or_temps os)). { intros Hx%Ht. destruct Hx as (_ & _ & Hx). apply Hx, Hpar. rewrite elem_of_app. right. left. }
  assert (Hpc : (p ∉ concat (or_groups os))) by (intros [Hx|Hx]%Hin; done).
  eapply (sees_bind _ _ (fun r => (r.1 = [p] /\ r.2 = or_temps os) \/
    (exists x, r.1 = [x; p] /\ r.2 = {[x]} ∪ or_temps os /\ (x ∉ or_temps os) /\ left_over x))).
  - destruct (strip_suffix ".hydrate.json" name) as [i|].
    + eapply sees_bind; [apply sees_res_true|]. intros _ _. apply sees_ret. by left.
    + eapply sees_bind; [apply sees_res_true|]. intros i _. apply sees_of_res. intros [group temps'] Hw. by eapply writer_orphan_ok.
  - intros [group temps'] Hg. eapply sees_bind; [apply sees_admit|]. intros b2 Hb2. apply sees_ret. simpl in Hg.
    assert (Hdone : forall q, q ∈ done -> q ∈ done ++ [p]) by (intros q Hq; rewrite elem_of_app; by left).
    assert (Hlast : p ∈ done ++ [p]) by (rewrite elem_of_app; right; left).
    destruct Hg as [[-> ->]|(x & -> & -> & Hx & Hleft)]; split; simpl; rewrite ?concat_app, ?concat_cons, ?concat_nil, ?app_nil_r.
    + congruence.
    + apply list.NoDup_app. split_and!; [done| |apply NoDup_singleton]. intros q Hq E%list_elem_of_singleton. congruence.
    + intros q [Hq|E%list_elem_of_singleton]%elem_of_app; [|subst; auto]. apply Hin in Hq as [?|?]; auto.
    + done.
    + congruence.
    + assert (x <> p). { intros ->. destruct Hleft as (_ & _ & E). apply E, Hpar. done. }
      assert (Hxc : (x ∉ concat (or_groups os))).
      { intros [Hd|Hd]%Hin; [|done]. destruct Hleft as (_ & _ & E). apply E, Hpar. auto. }
      apply list.NoDup_app. split_and!; [done| |].
      * intros q Hq [E|E%list_elem_of_singleton]%elem_of_cons; congruence.
      * apply list.NoDup_cons. split; [by rewrite list_elem_of_singleton|apply NoDup_singleton].
    + intros q [Hq|[E|E%list_elem_of_singleton]%elem_of_cons]%elem_of_app; [|subst; right; apply elem_of_union_l, elem_of_singleton; done|subst; auto].
      apply Hin in Hq as [?|?]; [by left; auto|right; by apply elem_of_union_r].
    + intros q [E%elem_of_singleton|Hq]%elem_of_union; [by subst|auto].
Qed.

Lemma sees_orphans limits l b :
  cb_limits b = limits -> NoDup l -> (forall q, q ∈ l -> parent q = [INTENTS]) ->
  sees t (fold_w (find_orphan h base v owners roots) (mkOrphans ∅ [] b) l) (orphans_ok limits l).
Proof using Hv.
  intros Hb Hnd Hpar. apply (sees_fold _ (orphans_ok limits)).
  - intros done0 os p rest E Hos. subst l. rewrite (app_assoc done0 [p] rest : done0 ++ p :: rest = _) in Hnd, Hpar.
    apply find_orphan_ok; [by apply list.NoDup_app in Hnd as (Hnd & _ & _)|intros q Hq; apply Hpar; rewrite elem_of_app; by left|done].
  - split; simpl; [done|constructor|by intros p Hp%not_elem_of_nil|by intros p Hp%not_elem_of_empty].
Qed.
End Orphans.

(** ** Candidates *)

Section Candidates.
Context (owners : list RetentionOwner) (st : proof) (limits : CacheLimits).
Let roots : gset rpath := list_to_set (ro_root <$> owners).
Context (Hcovers : covers t owners) (Hproved : proved t limits owners st).
Context (Hlayout : forall p, t !! p = Some Folder -> valid_directory roots p = Ok true).

(** Every live owner was proved. *)
Lemma live_proved root c : live t root c -> exists o, o ∈ owners /\ ro_root o = root.
Proof using Hcovers Hlayout Hwf.
  intros (sid & id & record & d & ps & mn & mb & dl & now & -> & (b & [i Hb] & _) & _).
  assert (Hroot : t !! owner_root sid id = Some Folder).
  { destruct (wf_parent _ Hwf (owner_root sid id) USE_RECORD) as [|E]; [by rewrite Hb|done|done]. }
  assert (Hdir : t !! [sid; "owners"] = Some Folder).
  { destruct (wf_parent _ Hwf [sid; "owners"] id) as [|E]; [exists Folder; exact Hroot|done|done]. }
  apply Hlayout in Hdir. unfold valid_directory, parts in Hdir. apply rbind_ok in Hdir as (l & Hl & Hdir).
  apply reject_ok in Hl as [Hu [= <-]]. injection Hdir as Hx. apply negb_false_iff in Hu. simpl in Hu, Hx.
  apply andb_true_iff in Hu as [Hu _]. destruct Hcovers as [_ Hc]. apply Hc; [done|done|]. by rewrite Hroot.
Qed.

Lemma stale_disposable p name :
  p = parent p ++ [name] -> stale "blobs" (pr_blobs st) p name || stale "pages" (pr_pages st) p name = true -> disposable t p.
Proof using Hcovers Hlayout Hwf Hproved.
  intros Hp Hs. unfold stale in Hs. apply orb_true_iff in Hs as [Hs|Hs];
    apply andb_true_iff in Hs as [[Hpar%bool_decide_eq_true Hx]%andb_true_iff Hn%negb_true_iff%bool_decide_eq_false];
    rewrite Hp, Hpar; simpl; constructor; try done; intros root c Hc Hname;
    destruct (live_proved _ _ Hc) as (o & Ho & <-); apply Hn.
  - by eapply (pv_blobs _ _ _ _ Hproved).
  - by eapply (pv_pages _ _ _ _ Hproved).
Qed.

Lemma retired_disposable p name : p = parent p ++ [name] -> retired_metadata st p name = true -> disposable t p.
Proof using Hproved.
  intros Hp. unfold retired_metadata. destruct (list_find _ _) as [[n root]|] eqn:E; [|done].
  apply list_find_Some in E as (_ & Hroot%(pv_retired _ _ _ _ Hproved) & _). unfold starts_with_path.
  assert (Hdir : forall dir, is_Some (below_path (root ++ [dir]) p) -> dir = "metadata" \/ dir = RETENTION_DIR -> disposable t p).
  { intros dir [rest ->%below_path_some] Hd. rewrite <- app_assoc. by apply retired_directory. }
  intros [[Hs%bool_decide_eq_true|Hs%bool_decide_eq_true]%orb_true_iff|[Hpar%bool_decide_eq_true Hn]%andb_true_iff]%orb_true_iff; [eauto..|].
  rewrite Hp, Hpar. by apply retired_file.
Qed.

Section Found.
Context (control : list rpath) (temps : gset rpath).

(** A file that may go on its own. *)
Definition single (p : rpath) : Prop :=
  control = [] /\ (p ∉ temps) /\ parent p <> [INTENTS] /\ disposable t p.

Lemma sees_candidates b :
  cb_limits b = limits ->
  sees t (fold_w (candidate h base roots st control temps) ([], b) (file_list v))
    (fun r => cb_limits r.2 = limits /\ exists l, r.1 = (fun p => [p]) <$> l /\ picked single (file_list v) l).
Proof using Hcovers Hlayout Hwf Hproved Hv.
  intros Hb. apply (sees_fold _ (fun done r => cb_limits r.2 = limits /\ exists l, r.1 = (fun p => [p]) <$> l /\ picked single done l)).
  - intros done0 [found b1] p rest E (Hb1 & l & Hl & Hpick). simpl in *.
    assert (Hskip : forall b2, cb_limits b2 = limits -> sees t (ret (found, b2))
      (fun r => cb_limits r.2 = limits /\ exists l, r.1 = (fun p => [p]) <$> l /\ picked single (done0 ++ [p]) l)).
    { intros b2 Hb2. apply sees_ret. split; [done|]. exists l. split; [done|]. by apply picked_more. }
    eapply sees_bind; [apply sees_admit|]. intros b2 Hb2. rewrite Hb1 in Hb2.
    destruct (_ || _) eqn:Eskip; [by apply Hskip|].
    apply orb_false_iff in Eskip as [[_ Ht%bool_decide_eq_false]%orb_false_iff Hpar%bool_decide_eq_false].
    eapply sees_bind; [apply sees_res_true|]. intros ok _. apply sees_guard. intros _.
    destruct (file_nonempty p) as (name & Hname & Hp); [apply in_file_list; rewrite E; apply elem_middle|]. rewrite Hname.
    eapply sees_bind; [apply (sees_of_run _ (fun n => n = name)); [done|by intros n [= <-]]|]. intros n ->.
    destruct (_ && _) eqn:Etake; [|by apply Hskip].
    apply andb_true_iff in Etake as [Hc%bool_decide_eq_true Hd].
    eapply sees_bind; [apply sees_admit|]. intros b3 Hb3. apply sees_ret. simpl. split; [congruence|].
    exists (l ++ [p]). split; [by rewrite Hl, fmap_app|]. apply picked_snoc; [done|]. split_and!; [done|done|done|].
    apply orb_true_iff in Hd as [Hd|Hd]; [by eapply stale_disposable|by eapply retired_disposable].
  - split; [done|]. exists []. split; [done|]. split; [done|constructor].
Qed.
End Found.
End Candidates.

(** ** Selection *)

Definition size_of (p : rpath) : Z := match in_files v !! p with Some id => id_size id | None => 0 end.
Definition total_size (l : list rpath) : Z := foldr (fun p n => size_of p + n) 0 l.

Lemma total_sizes_app l l' : total_size (l ++ l') = total_size l + total_size l'.
Proof using Type. unfold total_size. induction l; simpl; lia. Qed.

Lemma group_bytes_ok group :
  Forall (fun p => is_Some (in_files v !! p)) group -> clean (group_bytes v group) /\ forall n, group_bytes v group = Ok n -> n = total_size group.
Proof using Type.
  intros Hall. unfold group_bytes. replace (total_size group) with (0 + total_size group) by lia. generalize 0.
  induction Hall as [|p l Hp Hl IH]; intros acc; [split; [done|]; intros n [= <-]; simpl; lia|].
  change (total_size (p :: l)) with (size_of p + total_size l). simpl.
  destruct (size_at_ok p Hp) as (id & Hid & Hs). rewrite Hs. simpl. unfold size_of. rewrite Hid.
  destruct (checked_add acc (id_size id)) as [a|] eqn:E; simpl; [|done]. apply checked_add_some in E as [-> _].
  destruct (IH (acc + id_size id)) as [Hc Hn]. split; [done|]. intros n Hx%Hn. lia.
Qed.

Record selected (limits : CacheLimits) (groups : list (list rpath)) (s : selection) : Prop := {
  sl_limits : cb_limits (se_budget s) = limits;
  sl_paths : se_paths s `sublist_of` concat groups;
  sl_bytes : se_bytes s = total_size (se_paths s);
  sl_entries : zlen (se_paths s) <= Z.max 0 (max_delete_entries limits);
  sl_total : se_bytes s <= Z.max 0 (max_delete_bytes limits);
}.

Lemma sees_selection limits groups b :
  cb_limits b = limits -> Forall (fun p => is_Some (in_files v !! p)) (concat groups) -> zlen (concat groups) <= u64_max ->
  sees t (fold_w (select h v) (mkSelection [] 0 b) groups) (selected limits groups).
Proof using Type.
  intros Hb Hall Hsmall. apply (sees_fold _ (selected limits)).
  - intros done0 s group rest E [Hl Hp Hbytes He Ht]. unfold select. eapply sees_bind; [apply sees_admit|]. intros b2 Hb2.
    assert (Hfiles : Forall (fun p => is_Some (in_files v !! p)) group).
    { rewrite E, concat_app, concat_cons in Hall. apply Forall_app in Hall as [_ Hall]. by apply Forall_app in Hall as [Hall _]. }
    destruct (group_bytes_ok group Hfiles) as [Hc Hn].
    eapply sees_bind; [by apply sees_of_run; [|exact Hn]|]. intros n ->.
    assert (Hsub : se_paths s ++ group `sublist_of` concat (done0 ++ [group])).
    { rewrite concat_app, concat_cons, concat_nil, app_nil_r. by apply sublist_app. }
    destruct (_ || _) eqn:Esel; apply sees_ret.
    + split; simpl; [congruence| |done|done|done]. etrans; [|exact Hsub]. by apply sublist_inserts_r.
    + apply orb_false_iff in Esel as [Hent%Z.ltb_ge Htot]. rewrite Hl in Hent, Htot.
      destruct (checked_add _ _) as [m|] eqn:Em; [|done]. apply checked_add_some in Em as [-> _]. apply Z.ltb_ge in Htot.
      split; simpl; [congruence|done|rewrite total_sizes_app; lia| |lia].
      assert (Hlen : zlen (se_paths s ++ group) <= zlen (concat groups)).
      { rewrite E, (app_assoc done0 [group] rest : done0 ++ group :: rest = _), concat_app.
        apply sublist_length in Hsub. unfold zlen. rewrite (length_app (concat _)). lia. }
      unfold zlen in *. rewrite length_app in *. unfold saturating_add in Hent. lia.
  - split; simpl; [done|constructor|done|unfold zlen; simpl; lia|lia].
Qed.

(** The groups: each file once, and every one of them may go. *)
Definition removable (l : list rpath) : Prop :=
  NoDup l /\ Forall (fun p => is_Some (in_files v !! p) /\ disposable t p) l.

Lemma concat_singles (l : list rpath) : concat ((fun p => [p]) <$> l) = l.
Proof using Type. induction l as [|p l IH]; [done|]. rewrite fmap_cons, concat_cons, IH. done. Qed.

Lemma picked_removable P l :
  (forall p, P p -> is_Some (in_files v !! p) -> disposable t p) -> picked P (file_list v) l -> removable l.
Proof using Type.
  intros Hd [Hs Ha]. split; [eapply sublist_NoDup; [apply file_list_nodup|done]|]. apply list.Forall_forall. intros p Hp.
  assert (Hf : is_Some (in_files v !! p)) by (apply in_file_list; by eapply elem_of_sublist).
  rewrite list.Forall_forall in Ha. auto.
Qed.

Lemma groups_removable l control os limits (intents : list rpath) :
  picked (single control (or_temps os)) (file_list v) l -> picked (fun p => raw_control_temporary p = Ok true) (file_list v) control ->
  orphans_ok limits intents os -> (forall p, p ∈ intents -> is_Some (in_files v !! p) /\ parent p = [INTENTS]) ->
  removable (concat (((fun p => [p]) <$> l) ++ if bool_decide (control = []) then or_groups os else (fun p => [p]) <$> control)).
Proof using Hwf Hv.
  intros Hl Hc [_ Hn Hin Ht] Hi. rewrite concat_app, concat_singles. case_bool_decide as Ec.
  - assert (Hrl : removable l) by (eapply picked_removable; [|exact Hl]; by intros p (_ & _ & _ & Hd)).
    destruct Hrl as [Hnd Hall]. split.
    + apply list.NoDup_app. split_and!; [done| |done]. intros p Hp Hq. destruct Hl as [_ Hl]. rewrite list.Forall_forall in Hl.
      destruct (Hl p Hp) as (_ & Hnt & Hpar & _). destruct (Hin p Hq) as [Hd|Hd]; [|done]. by apply Hi in Hd as [_ Hd].
    + apply Forall_app. split; [done|]. apply list.Forall_forall. intros p [Hp|Hp]%Hin.
      * destruct (Hi p Hp) as [Hf Hpar]. split; [done|]. destruct (file_nonempty p Hf) as (name & _ & ->). rewrite Hpar. apply left_intent.
      * destruct (Ht p Hp) as (Hf & (dir & name & -> & Hname) & _). split; [done|]. by apply left_temporary.
  - rewrite concat_singles. destruct l as [|p l].
    + eapply picked_removable; [|exact Hc]. intros p (dir & name & -> & Hname)%control_name _. by apply left_temporary.
    + destruct Hl as [_ Hl]. apply list.Forall_cons in Hl as [(E & _) _]. done.
Qed.

Lemma removable_small l : removable l -> zlen l <= u64_max.
Proof using Hwf Hv.
  intros [Hnd Hall]. assert (Hlen : (length l <= size t)%nat).
  { rewrite <- (size_list_to_set (C := gset rpath) l Hnd), <- (size_dom (D := gset rpath) t). apply subseteq_size.
    intros p Hp%elem_of_list_to_set. rewrite list.Forall_forall in Hall. destruct (Hall p Hp) as [[id Hid] _].
    apply (ct_files _ _ _ Hv) in Hid as [_ Hid]. unfold identity_at in Hid. apply elem_of_dom. by destruct (t !! p). }
  pose proof (charge_lower t (wf_sizes _ Hwf)). destruct (exact_counts _ _ Hv) as [_ Hb]. pose proof (ct_bytes _ _ _ Hv).
  unfold ENTRY_CHARGE, zlen in *. lia.
Qed.
End Plan.

(** ** The plan *)

Record planned (t : tree) (limits : CacheLimits) (v : Inventory) (s : selection) : Prop := {
  pn_exact : exact t v;
  pn_removable : removable t v (se_paths s);
  pn_entries : zlen (se_paths s) <= Z.max 0 (max_delete_entries limits);
  pn_bytes : total_size v (se_paths s) <= Z.max 0 (max_delete_bytes limits);
}.

Lemma plan_ok t limits :
  wf_tree t -> (forall k l, h_order h k l ≡ₚ l) -> 0 <= PAGE_MAX_DEPTH ->
  sees t (plan_collection h base limits) (fun r => planned t limits r.1 r.2).
Proof using Type.
  intros Hwf Horder Hdepth. unfold plan_collection. eapply sees_bind; [by apply scan_ok|]. intros v [Hv _].
  eapply sees_bind; [by apply discover_ok|]. intros owners Hcov. eapply sees_bind; [apply sees_admit|]. intros b Hb. simpl in Hb.
  eapply sees_bind; [apply prove_owners_ok; [done|done|apply Hcov|exact Hb]|]. intros st Hst.
  eapply sees_bind; [apply sees_layout|]. intros b1 [Hb1 Hlay]. rewrite (pv_limits _ _ _ _ Hst) in Hb1.
  eapply sees_bind; [apply sees_control|]. intros [control b2] [Hb2 Hcon]. simpl in *.
  match goal with |- context [List.filter ?f _] => set (chosen := f) end.
  set (intents := List.filter chosen (file_list v)).
  assert (Hint : forall p, p ∈ intents -> is_Some (in_files v !! p) /\ parent p = [INTENTS]).
  { intros p Hp%list_elem_of_In%filter_In. destruct Hp as [Hp%list_elem_of_In%in_file_list Hc]. split; [done|].
    apply andb_true_iff in Hc as [Hc%bool_decide_eq_true _]. done. }
  eapply sees_bind; [apply (sees_orphans t v Hv owners _ limits)|].
  { congruence. }
  { apply NoDup_ListNoDup, List.NoDup_filter, NoDup_ListNoDup, file_list_nodup. }
  { intros q Hq. by apply Hint. }
  intros os Hos. eapply sees_bind; [apply (sees_candidates t Hwf v Hv owners st limits); [done|done| |apply Hos]|].
  { intros p Hp. apply Hlay. by apply (in_directory_list t v Hv). }
  intros [found b3] (Hb3 & l & Hfound & Hl). simpl in *. subst found.
  pose proof (groups_removable t Hwf v Hv l control os limits intents Hl Hcon Hos Hint) as Hrem.
  eapply sees_bind; [apply (sees_selection t v limits); [done| |by eapply removable_small]|].
  { destruct Hrem as [_ Hall]. eapply list.Forall_impl; [exact Hall|]. by intros p [Hp _]. }
  intros s [Hsl Hsub Hbytes Hent Htot]. apply sees_ret. simpl. split; [done| |done|by rewrite <- Hbytes].
  destruct Hrem as [Hnd Hall]. split; [by eapply sublist_NoDup|]. apply list.Forall_forall. intros p Hp.
  rewrite list.Forall_forall in Hall. apply Hall. by eapply elem_of_sublist.
Qed.
End Facts.
End RetentionFacts.
