(* ===== verification/CollectionFacts.v ===== *)
(** * CollectionFacts

    A collection as a whole: the trees it passes through, and the ledger it
    leaves. *)

From S2P Require Import Prelude Types Faults Text Profile Btree Frames Wire Closure ClosureExact Disk Records Pins Durable Capacity Incremental ScopeTree Owners Inventory Retention InventoryFacts OwnersFacts ProtectionFacts RetentionFacts.
Import Pins Owners Digests Scope Closure Records Capacity ScopeTree Inventory Retention InventoryFacts OwnersFacts ProtectionFacts RetentionFacts.
Local Open Scope string_scope.
Local Open Scope list_scope.
Local Open Scope Z_scope.

Module CollectionFacts.

(** The files of the collection itself: its locks, and the ledger with its
    temporary. *)
Definition lock_path (p : rpath) : Prop := p = [FENCE] \/ p = [ADMISSION_LOCK].
Definition ledger_path (p : rpath) : Prop :=
  p = [LEDGER] \/ exists id, p = [("." ++ LEDGER ++ ".tmp." ++ id)%string].

(** The locks may have been created. *)
Record opened (t t' : tree) : Prop := {
  op_wf : wf_tree t';
  op_same : forall p, ~ lock_path p -> t' !! p = t !! p;
}.

Lemma opened_create t t' name stamp :
  lock_path [name] -> opened t t' -> t' !! [name] = None -> opened t (<[[name] := Regular (mkIdentity 0 stamp) []]> t').
Proof.
  intros Hl [[Hr Hp Hs] Hsame] Hnone. split; [split|].
  - by rewrite lookup_insert_ne.
  - intros p n [x Hx]. destruct p as [|m p]; [by left|]. right.
    rewrite lookup_insert_ne in Hx by (intros E; apply (f_equal length) in E; rewrite length_app in E; simpl in E; lia).
    destruct (Hp (m :: p) n) as [|E]; [eauto|done|].
    rewrite lookup_insert_ne; [done|]. intros [= <- <-]. congruence.
  - intros p id b. destruct (decide (p = [name])) as [->|Hne].
    + rewrite lookup_insert_eq. by intros [= <- <-].
    + rewrite lookup_insert_ne by done. apply Hs.
  - intros p Hp'. rewrite lookup_insert_ne; [by apply Hsame|]. intros <-. done.
Qed.

Lemma hoare_lock (h : host) (I : tree -> Prop) t name :
  lock_path [name] -> (forall t', opened t t' -> I t') -> hoare I (opened t) (lock h name) (fun _ => opened t).
Proof.
  intros Hl Hi. unfold lock, lock_in. eapply (hoare_bind _ _ _ (fun _ => opened t)).
  - apply hoare_change; [done| |].
    + intros k t' Ht'. apply Hi. simpl. destruct (t' !! [name]) as [[]|] eqn:E; try done. by apply opened_create.
    + intros k t' a Ht'. simpl. destruct (t' !! [name]) as [[]|] eqn:E; try done. intros _. by apply opened_create.
  - intros _. by apply hoare_gate.
Qed.

Section Same.
Context `{HexCrate} `{Sha256} `{PageCodec} `{PageBytes} `{CodecScope} `{DescriptorCodec} `{ServingCodec} `{UuidCrate}.
Context `{CommitCodec} `{PinCodec} `{RetentionCodec} (t t' : tree) (Hop : opened t t').

Lemma far_lock p : length p <> 1%nat -> ~ lock_path p.
Proof using Type. by intros Hp [->| ->]. Qed.

Lemma same_file p b : length p <> 1%nat -> file_at t' p b <-> file_at t p b.
Proof using Hop. intros Hp. unfold file_at. by rewrite (op_same _ _ Hop) by by apply far_lock. Qed.

Lemma same_stored {T} `{Serde T} p (x : T) : length p <> 1%nat -> stored t' p x <-> stored t p x.
Proof using Hop. intros Hp. unfold stored. split; intros (b & Hb & Hx); exists b; (split; [|done]); by apply same_file. Qed.

Lemma same_live root c : live t root c -> live t' root c.
Proof using Hop.
  intros (sid & id & record & d & ps & mn & mb & dl & now & -> & Hu & Hr & Hd & [Ho Hp] & Hc).
  exists sid, id, record, d, ps, mn, mb, dl, now. split_and!; [done|by apply same_stored|done|by apply same_file| |done].
  split; [done|]. intros i b. rewrite Hp. split; intros (x & dg & Hin & Hi & Hdg & Hf); exists x, dg; split_and!; try done; by apply same_file.
Qed.

Lemma same_retired root : retired t' root -> retired t root.
Proof using Hop.
  intros (sid & id & record & -> & Hu & Hr & (g & Hg & Hst) & Hpin & Hcom). exists sid, id, record.
  unfold identity_at in *. rewrite (op_same _ _ Hop) in Hpin, Hcom by by apply far_lock.
  split_and!; [done|by apply same_stored|done| |done|done]. exists g. split; [|done]. by apply same_stored.
Qed.

Lemma same_disposable p : disposable t' p -> disposable t p.
Proof using Hop.
  intros []; [apply stale_blob; [done|] |apply stale_page; [done|] |apply retired_directory; [by apply same_retired|done]
    |apply retired_file; [by apply same_retired|done] |apply left_intent |by apply left_temporary];
    intros root c Hc; eauto using same_live.
Qed.

Lemma disposable_far p : disposable t' p -> ~ lock_path p.
Proof using Type.
  intros [| | ? ? ? (sid & id & r & -> & _) _|? ? (sid & id & r & -> & _) _| |dir name (final & id & ->)] [E|E]; try done;
    apply (f_equal list.last) in E; by rewrite last_snoc in E.
Qed.
End Same.

(** ** Removal *)

Section Removal.
Context (h : host) (t : tree).

(** The tree without some files. *)
Definition gone (l : list rpath) (t' : tree) : Prop := forall p, t' !! p = if decide (p ∈ l) then None else t !! p.

Lemma gone_nil : gone [] t.
Proof. intros p. by rewrite decide_False by apply not_elem_of_nil. Qed.
Lemma gone_delete l t' p : gone l t' -> gone (l ++ [p]) (delete p t').
Proof.
  intros Hg q. destruct (decide (q = p)) as [->|Hne].
  - rewrite lookup_delete_eq, decide_True; [done|]. rewrite elem_of_app. right. left.
  - rewrite lookup_delete_ne, Hg by done. destruct (decide (q ∈ l)) as [Hq|Hq], (decide (q ∈ l ++ [p])) as [Hq'|Hq']; try done.
    + exfalso. apply Hq'. rewrite elem_of_app. by left.
    + exfalso. apply elem_of_app in Hq' as [?|?%list_elem_of_singleton]; done.
Qed.

Definition identity_sizes (l : list (rpath * RegularIdentity)) : Z := foldr (fun e n => id_size e.2 + n) 0 l.
Lemma identity_sizes_app l l' : identity_sizes (l ++ l') = identity_sizes l + identity_sizes l'.
Proof. unfold identity_sizes. induction l; simpl; lia. Qed.

(** What the report says after some entries were removed. *)
Record reported (done : list (rpath * RegularIdentity)) (r : CacheCollectionReport) (t' : tree) : Prop := {
  rp_gone : gone done.*1 t';
  rp_scanned : scanned_entries r = Z.of_nat (size t);
  rp_entries : deleted_entries r = zlen done;
  rp_bytes : deleted_bytes r = identity_sizes done;
  rp_charge : retained_bytes r = tree_charge t';
  rp_total : tree_charge t = tree_charge t' + deleted_bytes r + ENTRY_CHARGE * deleted_entries r;
  rp_size : Z.of_nat (size t') = Z.of_nat (size t) - zlen done;
}.

Lemma hoare_removed (I : tree -> Prop) t' p id :
  I t' -> I (delete p t') ->
  hoare I (eq t') (remove_prepared h p id) (fun b t2 => b = true /\ (exists x, t' !! p = Some (Regular id x)) /\ t2 = delete p t').
Proof.
  intros Hi Hd. unfold remove_prepared. eapply hoare_sees; [done|apply sees_io, sees_look|]. intros [] Hx.
  assert (Hp : exists x, t' !! p = Some (Regular id x)).
  { destruct (t' !! p) as [[i x| |]|]; try done. case_bool_decide; [|done]. subst. eauto. }
  destruct Hp as [x Hp]. eapply (hoare_bind _ _ _ (fun _ t2 => t2 = delete p t')).
  - apply hoare_change; [by intros ? <-| |].
    + intros _ t2 <-. by rewrite Hp.
    + intros _ t2 a <-. by rewrite Hp.
  - intros _. eapply hoare_bind; [apply hoare_looks; by intros ? ->|]. intros ?. apply hoare_ret. intros t2 ->. eauto.
Qed.

Lemma remove_entry_ok (I : tree -> Prop) done r p id :
  sizes_ok t -> (p ∉ done.*1) -> (forall t', gone done.*1 t' -> I t') -> (forall t', gone (done.*1 ++ [p]) t' -> I t') ->
  hoare I (reported done r) (remove_entry h r (p, id)) (reported (done ++ [(p, id)])).
Proof.
  intros Hok Hp Hi Hi'. apply hoare_each. intros t' [Hg Hs He Hb Hc Hto Hz]. unfold remove_entry.
  eapply hoare_bind; [apply hoare_removed; [by apply Hi|by apply Hi', gone_delete]|]. intros b. simpl.
  apply hoare_pure. intros ->. apply hoare_pure. intros [x Hx]. apply hoare_each. intros t2 ->.
  assert (Hlow : 0 <= tree_charge (delete p t')).
  { pose proof (charge_lower (delete p t')) as Hl. unfold ENTRY_CHARGE in Hl. cut (sizes_ok (delete p t')); [intros Hs'; specialize (Hl Hs'); lia|].
    intros q i y Hq. apply lookup_delete_Some in Hq as [_ Hq]. rewrite Hg in Hq. case_decide; [done|]. by eapply Hok. }
  pose proof (tree_charge_delete _ _ _ Hx) as Hch. simpl in Hch.
  assert (Hsub : checked_sub (retained_bytes r) (id_size id + ENTRY_CHARGE) = Some (tree_charge (delete p t'))).
  { unfold checked_sub. destruct (Z.leb_spec (id_size id + ENTRY_CHARGE) (retained_bytes r)); [|lia]. f_equal. lia. }
  rewrite Hsub. eapply hoare_sees; [by apply Hi', gone_delete|apply (sees_of_run _ (fun a => a = tree_charge (delete p t'))); [done|by intros a [= <-]]|].
  intros a ->. apply hoare_ret. intros t2 <-. split; simpl.
  - rewrite fmap_app. by apply gone_delete.
  - done.
  - unfold zlen in *. rewrite length_app. simpl. lia.
  - rewrite identity_sizes_app, Hb. simpl. lia.
  - done.
  - lia.
  - rewrite map_size_delete_Some by eauto. unfold zlen in *. rewrite length_app. simpl.
    assert (size t' <> 0%nat) by (rewrite map_size_ne_0_lookup; eauto). lia.
Qed.
End Removal.

(** ** The ledger *)

(** The trees that differ in the ledger and its temporary only. *)
Definition near (t t' : tree) : Prop := forall p, ~ ledger_path p -> t' !! p = t !! p.

Lemma near_refl t : near t t.
Proof. by intros p. Qed.
Lemma near_insert t t' p n : ledger_path p -> near t t' -> near t (<[p := n]> t').
Proof. intros Hp Hn q Hq. rewrite lookup_insert_ne; [by apply Hn|]. by intros <-. Qed.
Lemma near_delete t t' p : ledger_path p -> near t t' -> near t (delete p t').
Proof. intros Hp Hn q Hq. rewrite lookup_delete_ne; [by apply Hn|]. by intros <-. Qed.

Section Ledger.
Context `{RetentionCodec} (h : host) (t : tree).
Context (id : string) (b : bytes).
Let temporary : rpath := [("." ++ LEDGER ++ ".tmp." ++ id)%string].

Lemma temporary_ledger : ledger_path temporary.
Proof. right. by exists id. Qed.
Hint Resolve near_refl near_insert near_delete temporary_ledger : core.

(** The steps of [raw_atomic] that may fail. *)
Lemma hoare_replace :
  hoare (near t) (eq t)
    (bind (io (create_new h temporary)) (fun _ => bind (io (write_all h temporary b)) (fun _ => bind (io (sync_all h)) (fun _ =>
       bind (io (rename h temporary [LEDGER])) (fun _ => io (sync_all h))))))
    (fun _ t2 => exists i, id_size i = zlen b /\ t2 = <[[LEDGER] := Regular i b]> t).
Proof.
  set (wrote := fun t2 => t !! temporary = None /\ exists i, id_size i = zlen b /\ t2 = <[temporary := Regular i b]> t).
  set (ended := fun t2 => exists i, id_size i = zlen b /\ t2 = <[[LEDGER] := Regular i b]> t).
  assert (Hwrote : forall t2, wrote t2 -> near t t2) by (intros t2 (_ & i & _ & ->); auto).
  assert (Hended : forall t2, ended t2 -> near t t2) by (intros t2 (i & _ & ->); apply near_insert; [by left|auto]).
  eapply (hoare_bind _ _ _ (fun _ t2 => t !! temporary = None /\ exists i, t2 = <[temporary := Regular i []]> t)).
  { apply hoare_change; [by intros ? <-| |].
    - intros k t2 <-. destruct (t !! temporary); simpl; auto.
    - intros k t2 a <-. destruct (t !! temporary); simpl; [done|]. eauto. }
  intros []. apply (hoare_bind _ _ _ (fun _ => wrote)).
  { apply hoare_change.
    - intros t2 (_ & i & ->). auto.
    - intros k t2 (_ & i & ->). rewrite lookup_insert_eq. simpl. auto.
    - intros k t2 a (Hn & i & ->) _. rewrite lookup_insert_eq. simpl. split; [done|]. eexists. rewrite insert_insert_eq. split; [|done]. done. }
  intros []. apply (hoare_bind _ _ _ (fun _ => wrote)); [by apply hoare_looks|]. intros [].
  apply (hoare_bind _ _ _ (fun _ => ended)); [|intros []; by apply hoare_looks].
  assert (Hne : temporary <> [LEDGER]) by (by unfold temporary).
  apply hoare_change; [auto| |].
  - intros k t2 Ht2. destruct Ht2 as (Hn & i & Hi & ->). rewrite lookup_insert_eq, lookup_insert_ne by done.
    destruct (t !! [LEDGER]) as [[]|]; simpl; auto; apply near_insert; auto; by left.
  - intros k t2 a Ht2. destruct Ht2 as (Hn & i & Hi & ->). rewrite lookup_insert_eq, lookup_insert_ne by done.
    assert (E : ended (<[[LEDGER] := Regular i b]> (delete temporary (<[temporary := Regular i b]> t)))).
    { exists i. split; [done|]. by rewrite delete_insert_id. }
    by destruct (t !! [LEDGER]) as [[]|].
Qed.
End Ledger.

Lemma hoare_ledger `{RetentionCodec} (h : host) (t : tree) (value : Charges) :
  hoare (near t) (eq t) (raw_atomic h [] LEDGER value)
    (fun _ t2 => exists i b, to_json value = Ok b /\ zlen b <= CONTROL_BYTES /\ id_size i = zlen b /\ t2 = <[[LEDGER] := Regular i b]> t).
Proof.
  assert (Hrefl : near t t) by apply near_refl. unfold raw_atomic. eapply hoare_sees; [done|apply sees_res_true|]. intros _ _.
  eapply hoare_sees; [done|apply sees_res_true|]. intros b Hb%map_err_ok.
  destruct (CONTROL_BYTES <? zlen b) eqn:Elen.
  { intros s Hs. split; [exists []; by rewrite app_nil_r|]. simpl. by rewrite <- Hs. }
  apply Z.ltb_ge in Elen. eapply (hoare_sees _ _ _ (fun _ => True)); [done|by intros s Hs|]. intros id _.
  eapply hoare_bind; [apply hoare_attempt, hoare_replace|]. intros [[]|[e| |]]; simpl.
  - apply hoare_ret. intros t2 (i & Hi & ->). eauto 8.
  - eapply (hoare_bind _ _ _ (fun _ => near t)); [|intros r s Hs; split; [exists []; by rewrite app_nil_r|done]].
    eapply hoare_weaken; [apply hoare_attempt, (hoare_change _ _ _ (fun _ => near t)); [done| |]|].
    + intros k t2 Ht2. destruct (t2 !! _) as [[]|]; simpl; auto; apply near_delete; try done; right; eauto.
    + intros k t2 a Ht2 _. destruct (t2 !! _) as [[]|]; simpl; auto; apply near_delete; try done; right; eauto.
    + intros [[]|[]] t2; simpl; done.
  - by intros s Hs.
  - by intros s Hs.
Qed.
End CollectionFacts.
