(* ===== verification/CollectionSafe.v ===== *)
(** * CollectionSafe

    The theorems about a whole collection of a managed scope. *)

From S2P Require Import Prelude Types Faults Text Profile Btree Frames Wire Closure ClosureExact Disk Records Pins Durable Capacity Incremental ScopeTree Owners Inventory Retention InventoryFacts OwnersFacts ProtectionFacts RetentionFacts CollectionFacts.
Import Pins Owners Digests Scope Closure Records Capacity ScopeTree Inventory Retention InventoryFacts OwnersFacts ProtectionFacts RetentionFacts CollectionFacts.
Local Open Scope string_scope.
Local Open Scope list_scope.
Local Open Scope Z_scope.

Module CollectionSafe.

Section Safe.
Context `{HexCrate} `{Sha256} `{PageCodec} `{PageBytes} `{CodecScope} `{DescriptorCodec} `{ServingCodec} `{UuidCrate}.
Context `{CommitCodec} `{PinCodec} `{RetentionCodec} (h : host) (base : Z) (outer : Res bool).

(** ** What is promised *)

(** The limits in the policy of the scope. *)
Definition configured (t : tree) (l : CacheLimits) : Prop :=
  exists p, stored t (T := CapacityPolicy) [POLICY] p /\ cp_limits p = l.

Definition sizes_at (t : tree) (l : list rpath) : Z :=
  foldr (fun p n => match t !! p with Some x => node_size x | None => 0 end + n) 0 l.

(** [t'] is [t] without some files that may go, within the limits of one
    collection; only the locks and the ledger may differ otherwise. *)
Definition spared (t t' : tree) : Prop :=
  exists D, NoDup D /\ Forall (disposable t) D /\ Forall (fun p => is_Some (identity_at t p)) D /\
    (forall l, configured t l ->
       zlen D <= Z.max 0 (max_delete_entries l) /\ sizes_at t D <= Z.max 0 (max_delete_bytes l)) /\
    forall p, ~ lock_path p -> ~ ledger_path p -> t' !! p = if decide (p ∈ D) then None else t !! p.

(** The contents and pages every live use needs, and the files in its own
    directory, are as they were. *)
Definition keeps_live (t t' : tree) : Prop :=
  forall root c, live t root c ->
    (forall name, blob_names c name -> t' !! ["blobs"; name] = t !! ["blobs"; name]) /\
    (forall name, page_names c name -> t' !! ["pages"; name] = t !! ["pages"; name]) /\
    (forall q name, ~ temporary_name name -> t' !! (root ++ q ++ [name]) = t !! (root ++ q ++ [name])).

Lemma hex_not_temporary digests name : named_by digests name -> ~ temporary_name name.
Proof using Type.
  intros (x & d & _ & (_ & Hlen & Hd)%parse_digest_ok & ->) (final & id & E). rewrite hex_encode_lower in E.
  pose proof (hex_bytes_lower d Hd) as Hhex. rewrite <- as_bytes_hex32, E in Hhex by done. simpl in Hhex.
  apply list.Forall_cons in Hhex as [Hhex _]. done.
Qed.

(** A disposable file of the scope directory itself is a temporary. *)
Lemma disposable_short t name : disposable t [name] -> temporary_name name.
Proof using Type.
  intros Hd. inversion Hd as [| |root dir rest (sid & id & r & -> & _) _ E|root n (sid & id & r & -> & _) _ E| |dir n Hn E]; try done.
  destruct dir as [|x [|]]; simplify_eq/=; done.
Qed.

Lemma live_not_retired t root c : live t root c -> ~ retired t root.
Proof using Type.
  intros (sid & id & r & d & ps & mn & mb & dl & now & _ & (b & Hb & Hr) & Hlive & _) (sid' & id' & r' & _ & (b' & Hb' & Hr') & Hret & _).
  rewrite (file_at_det _ _ _ _ Hb Hb') in Hr. congruence.
Qed.

(** No file a live use needs may go. *)
Lemma live_blob t root c name : live t root c -> blob_names c name -> ~ disposable t ["blobs"; name].
Proof using Type.
  intros Hc Hn Hd. inversion Hd as [n Hx Hs|n Hx Hs|r dir rest (sid & id & u & -> & _) _ E|r n (sid & id & u & -> & _) _ E|n E|dir n Ht E]; subst; try done.
  - by eapply Hs.
  - apply (f_equal list.last) in E. rewrite last_snoc in E. injection E as ->. by eapply hex_not_temporary.
Qed.
Lemma live_page t root c name : live t root c -> page_names c name -> ~ disposable t ["pages"; name].
Proof using Type.
  intros Hc Hn Hd. inversion Hd as [n Hx Hs|n Hx Hs|r dir rest (sid & id & u & -> & _) _ E|r n (sid & id & u & -> & _) _ E|n E|dir n Ht E]; subst; try done.
  - by eapply Hs.
  - apply (f_equal list.last) in E. rewrite last_snoc in E. injection E as ->. by eapply hex_not_temporary.
Qed.
Lemma live_own t root c q name : live t root c -> ~ temporary_name name -> ~ disposable t (root ++ q ++ [name]).
Proof using Type.
  intros Hc Hn Hd. pose proof (live_not_retired _ _ _ Hc) as Hlr.
  destruct Hc as (sid & id & u & d & ps & mn & mb & dl & now & -> & _).
  inversion Hd as [n Hx Hs E|n Hx Hs E|r dir rest Hr _ E|r n Hr _ E|n E|dir n Ht E]; try done.
  - pose proof Hr as (sid' & id' & u' & -> & _). simpl in E. injection E as -> -> _. by apply Hlr.
  - pose proof Hr as (sid' & id' & u' & -> & _). simpl in E. injection E as -> -> _. by apply Hlr.
  - assert (E2 : dir ++ [n] = (owner_root sid id ++ q) ++ [name]) by (rewrite <- app_assoc; exact E).
    apply app_inj_2 in E2 as [_ [= ->]]; done.
Qed.

Lemma spared_keeps t t' : spared t t' -> keeps_live t t'.
Proof using Type.
  intros (D & _ & Hd & _ & _ & Hp) root c Hc. rewrite list.Forall_forall in Hd.
  assert (Hkeep : forall p, length p <> 1%nat -> ~ disposable t p -> t' !! p = t !! p).
  { intros p Hlen Hn. rewrite Hp, decide_False; [done|auto|by apply far_lock|]. by intros [->|[i ->]]. }
  split_and!.
  - intros name Hname. apply Hkeep; [done|]. by eapply live_blob.
  - intros name Hname. apply Hkeep; [done|]. by eapply live_page.
  - intros q name Hname. apply Hkeep; [|by eapply live_own].
    destruct Hc as (sid & id & u & d & ps & mn & mb & dl & now & -> & _). rewrite !length_app. simpl. lia.
Qed.

(** ** The run *)

Lemma sees_control_record t {T} `{Serde T} p maximum :
  sees t (Inventory.read_record h (T := T) p maximum)
    (fun x => exists b, file_at t p b /\ zlen b <= maximum /\ from_json b = Ok x).
Proof using Type.
  unfold Inventory.read_record, read_optional_bytes. eapply (sees_bind _ _ (fun o => forall b, o = Some b -> file_at t p b /\ zlen b <= maximum)).
  - eapply sees_bind; [apply sees_look|]. intros [[id b]|e] Hb; [|destruct e; try apply sees_fail; by apply sees_ret].
    apply sees_guard. intros _. apply sees_guard. intros Hlen%Z.ltb_ge. apply sees_ret. intros x [= <-].
    assert (Hall : take (Z.to_nat (maximum + 1)) b = b).
    { apply take_ge. unfold zlen in Hlen. rewrite length_take in Hlen. lia. }
    rewrite Hall in *. split; [|done]. specialize (Hb _ eq_refl). destruct (t !! p) as [[]|] eqn:E; simplify_eq. by exists id.
  - intros o Ho. eapply sees_bind; [apply sees_res_true|]. intros b Hb. unfold ok_or in Hb. destruct o as [b'|]; simplify_eq.
    apply sees_of_res. intros x Hx%map_err_ok. destruct (Ho b eq_refl). eauto.
Qed.

Lemma sees_policy t : sees t (policy h) (configured t).
Proof using Type.
  unfold policy, policy_of. eapply sees_bind; [apply sees_control_record|]. intros p (b & Hb & _ & Hp). apply sees_guard. intros _.
  eapply sees_bind; [apply sees_res_true|]. intros _ _. apply sees_ret. exists p. split; [by exists b|done].
Qed.

Lemma sees_managed t : sees t (managed_scope h outer) (fun _ => True).
Proof using Type.
  unfold managed_scope. eapply sees_bind; [apply sees_look|]. intros [n|e] _.
  - destruct n; try apply sees_fail. eapply sees_bind; [apply sees_policy|]. intros _ _. by apply sees_ret.
  - destruct e; try apply sees_fail. by apply sees_of_res.
Qed.

Lemma configured_det t l l' : configured t l -> configured t l' -> l = l'.
Proof using Type.
  intros (p & (b & Hb & Hp) & <-) (p' & (b' & Hb' & Hp') & <-). rewrite (file_at_det _ _ _ _ Hb Hb') in Hp. congruence.
Qed.

Section Run.
Context (t : tree) (Horder : forall k l, h_order h k l ≡ₚ l) (Hdepth : 0 <= PAGE_MAX_DEPTH).

Lemma opened_spared t1 : opened t t1 -> spared t t1.
Proof using Type.
  intros Hop. exists []. split_and!; [constructor|constructor|constructor| |].
  - intros l _. unfold zlen. simpl. lia.
  - intros p Hl _. rewrite decide_False by apply not_elem_of_nil. by apply (op_same _ _ Hop).
Qed.

Section Opened.
Context (t1 : tree) (Hop : opened t t1) (limits : CacheLimits) (Hlim : configured t1 limits).
Context (v : Inventory) (s : selection) (Hplan : planned t1 limits v s).

Lemma same_node p : disposable t1 p -> t1 !! p = t !! p.
Proof using Hop. intros Hd. apply (op_same _ _ Hop). by eapply disposable_far. Qed.

Lemma plan_identity p : is_Some (in_files v !! p) -> is_Some (identity_at t1 p).
Proof using Hplan. intros [id Hid]. apply (ct_files _ _ _ (pn_exact _ _ _ _ Hplan)) in Hid as [_ Hid]. eauto. Qed.

Lemma sizes_total l :
  (forall p, p ∈ l -> disposable t1 p /\ is_Some (in_files v !! p)) -> sizes_at t l = total_size v l.
Proof using Hop Hplan.
  induction l as [|p l IH]; [done|]. intros Hl.
  change (sizes_at t (p :: l)) with (match t !! p with Some x => node_size x | None => 0 end + sizes_at t l).
  change (total_size v (p :: l)) with (size_of v p + total_size v l). rewrite IH by (intros q Hq; apply Hl; by right).
  f_equal. destruct (Hl p) as [Hd [id Hid]]; [left|]. rewrite <- same_node by done. unfold size_of. rewrite Hid.
  apply (ct_files _ _ _ (pn_exact _ _ _ _ Hplan)) in Hid as [_ Hid]. unfold identity_at in Hid. destruct (t1 !! p) as [[]|]; by simplify_eq.
Qed.

Lemma total_sublist l l' : l `sublist_of` l' -> (forall p, p ∈ l' -> is_Some (in_files v !! p)) -> total_size v l <= total_size v l'.
Proof using Hop Hplan.
  intros Hsub. induction Hsub as [|p l l' Hs IH|p l l' Hs IH]; [done| |]; intros Hin; simpl in *.
  - assert (total_size v l <= total_size v l') by (apply IH; intros q Hq; apply Hin; by right). unfold total_size in *. lia.
  - assert (total_size v l <= total_size v l') by (apply IH; intros q Hq; apply Hin; by right).
    assert (0 <= size_of v p); [|unfold total_size in *; lia]. unfold size_of. destruct (Hin p) as [id Hid]; [left|]. rewrite Hid.
    apply (ct_files _ _ _ (pn_exact _ _ _ _ Hplan)) in Hid as [_ Hid]. unfold identity_at in Hid. destruct (t1 !! p) as [[]|] eqn:E; simplify_eq.
    by eapply (wf_sizes _ (op_wf _ _ Hop)).
Qed.

(** Any part of the plan may be gone, and the ledger may be written. *)
Lemma part_spared l t2 t3 : l `sublist_of` se_paths s -> gone t1 l t2 -> near t2 t3 -> spared t t3.
Proof using Hop Hlim Hplan.
  intros Hsub Hg Hn. destruct (pn_removable _ _ _ _ Hplan) as [Hnd Hall]. rewrite list.Forall_forall in Hall.
  assert (Hin : forall p, p ∈ l -> disposable t1 p /\ is_Some (in_files v !! p)).
  { intros p Hp. assert (Hp' : p ∈ se_paths s) by (by eapply elem_of_sublist). destruct (Hall p Hp'). done. }
  exists l. split_and!.
  - by eapply sublist_NoDup.
  - apply list.Forall_forall. intros p Hp. eapply same_disposable; [exact Hop|]. by apply Hin.
  - apply list.Forall_forall. intros p Hp. destruct (Hin p Hp) as [Hd Hi]. apply plan_identity in Hi.
    unfold identity_at in *. by rewrite <- same_node.
  - intros l' Hl'. assert (l' = limits) as ->.
    { eapply configured_det; [|exact Hlim]. destruct Hl' as (p & Hp & El). exists p. split; [|done].
      unfold stored, file_at in *. rewrite (op_same _ _ Hop); [done|]. by intros [[=]|[=]]. }
    pose proof (pn_entries _ _ _ _ Hplan). pose proof (pn_bytes _ _ _ _ Hplan). rewrite sizes_total by done.
    assert (total_size v l <= total_size v (se_paths s)) by (apply total_sublist; [done|]; intros p Hp; by destruct (Hall p Hp)).
    apply sublist_length in Hsub. unfold zlen in *. lia.
  - intros p Hl Hle. rewrite Hn, Hg by done. by rewrite (op_same _ _ Hop).
Qed.

Lemma sees_prepared b :
  sees t1 (fold_w (prepare h v) ([], b) (se_paths s)) (fun r => r.1.*1 = se_paths s).
Proof using Hop Hplan.
  apply (sees_fold _ (fun done r => r.1.*1 = done)); [|done]. intros done0 [prepared b1] p rest E Hd. simpl in Hd. unfold prepare.
  eapply sees_bind; [apply sees_admit|]. intros b2 _.
  destruct (pn_removable _ _ _ _ Hplan) as [_ Hall]. rewrite list.Forall_forall in Hall.
  destruct (Hall p) as [Hf _]; [rewrite E; apply elem_middle|].
  destruct (file_nonempty t1 (op_wf _ _ Hop) v (pn_exact _ _ _ _ Hplan) p Hf) as (name & Hname & _). destruct Hf as [id Hid]. rewrite Hid.
  eapply sees_bind; [by apply (sees_of_run _ (fun a => a = id)); [|intros a [= <-]]|]. intros a ->.
  eapply (sees_bind _ _ (fun _ => True)).
  - unfold prepare_current_regular. rewrite Hname. eapply sees_bind; [by apply (sees_of_run _ (fun _ => True))|]. intros n _.
    apply sees_guard. intros _. eapply sees_bind; [apply sees_io, sees_look|]. intros found _. destruct found; simpl; [|by apply sees_ret].
    apply sees_gate. eapply sees_bind; [apply sees_io, sees_look|]. intros _ _. by apply sees_ret.
  - intros there _. apply sees_guard. intros _. apply sees_ret. simpl. by rewrite fmap_app, Hd.
Qed.

(** The removal, from the tree of the plan. *)
Lemma remove_all_ok prepared :
  prepared.*1 = se_paths s ->
  hoare (spared t) (eq t1) (fold_w (remove_entry h) (mkReport (in_entries v) 0 0 (in_bytes v)) prepared) (reported t1 prepared).
Proof using Hop Hlim Hplan.
  intros Hpre. destruct (exact_counts _ _ (pn_exact _ _ _ _ Hplan)) as [He Hb].
  apply (hoare_pre _ _ (reported t1 [] (mkReport (in_entries v) 0 0 (in_bytes v)))).
  { intros t2 <-. split; simpl; [apply gone_nil|done|done|done|done|lia|unfold zlen; simpl; lia]. }
  apply hoare_fold. intros done0 r [p id] rest E.
  assert (Hpaths : se_paths s = (done0.*1 ++ [p]) ++ rest.*1) by (by rewrite <- Hpre, E, fmap_app, fmap_cons, <- app_assoc).
  destruct (pn_removable _ _ _ _ Hplan) as [Hnd _]. rewrite Hpaths in Hnd.
  assert (Hspared : forall l t2, l `sublist_of` done0.*1 ++ [p] -> gone t1 l t2 -> spared t t2).
  { intros l t2 Hl Hg. eapply part_spared; [|exact Hg|apply near_refl]. rewrite Hpaths. by apply sublist_inserts_r. }
  apply remove_entry_ok; [apply wf_sizes, (op_wf _ _ Hop)| | |].
  - apply list.NoDup_app in Hnd as (Hnd & _). apply list.NoDup_app in Hnd as (_ & Hx & _). intros Hin. apply (Hx p Hin). left.
  - intros t2 Hg. eapply Hspared; [|exact Hg]. by apply sublist_inserts_r.
  - intros t2 Hg. by eapply Hspared.
Qed.

(** What a finished collection leaves, with the ledger [old] before it. *)
Definition settled (old : bytes) (r : CacheCollectionReport) (t2 : tree) : Prop :=
  exists l t3 i b, reported t1 l r t3 /\ ([LEDGER] ∉ l.*1) /\ file_at t1 [LEDGER] old /\
    retained_bytes r + (CONTROL_BYTES + 8 * ENTRY_CHARGE) <= u64_max /\
    from_json b = Ok (mkCharges 1 (retained_bytes r + (CONTROL_BYTES + 8 * ENTRY_CHARGE)) (Z.of_nat (size t1) - deleted_entries r + 8)) /\
    zlen b <= CONTROL_BYTES /\ id_size i = zlen b /\ t2 = <[[LEDGER] := Regular i b]> t3.

Lemma ledger_stays : [LEDGER] ∉ se_paths s.
Proof using Hplan.
  intros Hin. destruct (pn_removable _ _ _ _ Hplan) as [_ Hall]. rewrite list.Forall_forall in Hall.
  destruct (Hall _ Hin) as [_ (final & id & E)%disposable_short]. done.
Qed.
End Opened.

Context (Hwf : wf_tree t).

(** From the opened scope to the end. *)
Lemma collect_opened t1 :
  opened t t1 ->
  hoare (spared t) (eq t1)
    (bind (policy h) (fun limits =>
     bind (Inventory.read_record h (T := Charges) [LEDGER] CONTROL_BYTES) (fun charges =>
     if negb (ch_revision charges =? 1) then fail (integrity "unsupported cache charge ledger")
     else
       bind (plan_collection h base limits) (fun x => let (v, s) := x in
       bind (fold_w (prepare h v) ([], se_budget s) (se_paths s)) (fun y => let (prepared, b) := y in
       bind (fold_w (verify_again h) b prepared) (fun _ =>
       bind (fold_w (remove_entry h) (mkReport (in_entries v) 0 0 (in_bytes v)) prepared) (fun r =>
       bind (of_res (ok_or (checked_add (retained_bytes r) (CONTROL_BYTES + 8 * ENTRY_CHARGE)) (limit "ledger reset overflow"))) (fun bytes =>
       bind (raw_atomic h [] LEDGER (mkCharges 1 bytes (in_entries v - deleted_entries r + 8))) (fun _ => ret r)))))))))
    (fun r t2 => spared t t2 /\ exists old, zlen old <= CONTROL_BYTES /\ settled t1 old r t2).
Proof using Horder Hdepth.
  intros Hop. pose proof (opened_spared _ Hop) as Hsp. eapply hoare_sees; [done|apply sees_policy|]. intros limits Hlim.
  eapply hoare_sees; [done|apply sees_control_record|]. intros charges (old & Hold & Holdlen & _).
  destruct (negb _); [intros s0 Hs0; split; [exists []; by rewrite app_nil_r|simpl; by rewrite <- Hs0]|].
  eapply hoare_sees; [done|by apply plan_ok; [apply Hop| |]|]. intros [v s] Hplan. simpl in Hplan.
  eapply hoare_sees; [done|by eapply sees_prepared|]. intros [prepared b] Hpre. simpl in Hpre.
  eapply (hoare_sees _ _ _ (fun _ => True)); [done| |intros _ _].
  { apply (sees_fold _ (fun _ _ => True)); [|done]. intros done0 b1 [p id] rest _ _. unfold verify_again.
    eapply sees_bind; [apply sees_admit|]. intros b2 _. eapply sees_bind; [apply sees_io, sees_look|]. intros _ _. by apply sees_ret. }
  eapply hoare_bind; [by eapply remove_all_ok|]. intros r. simpl. apply hoare_each. intros t3 Hrep.
  assert (Hnear : forall t4, near t3 t4 -> spared t t4).
  { intros t4 Hn. eapply part_spared; [exact Hop|exact Hlim|exact Hplan| |exact (rp_gone _ _ _ _ Hrep)|exact Hn]. by rewrite Hpre. }
  eapply hoare_sees; [apply Hnear, near_refl|apply sees_res_true|]. intros bytes Hbytes.
  unfold ok_or in Hbytes. destruct (checked_add _ _) as [n|] eqn:En; [|done]. injection Hbytes as <-. apply checked_add_some in En as [-> Hmax].
  eapply hoare_bind; [eapply hoare_invariant; [exact Hnear|apply hoare_ledger]|]. intros []. apply hoare_ret.
  intros t4 (i & b4 & Hj & Hlen & Hi & ->). split; [apply Hnear, near_insert; [by left|apply near_refl]|]. exists old. split; [done|]. exists prepared, t3, i, b4.
  destruct (exact_counts _ _ (pn_exact _ _ _ _ Hplan)) as [He _]. rewrite He in Hj.
  split_and!; try done; [rewrite Hpre; by eapply ledger_stays|by apply json_round_trip].
Qed.

Lemma collection_ok :
  hoare (spared t) (eq t) (collect_scope h base outer)
    (fun r t2 => spared t t2 /\ ((r = empty_report /\ t2 = t) \/ exists t1 old, opened t t1 /\ zlen old <= CONTROL_BYTES /\ settled t1 old r t2)).
Proof using Horder Hdepth Hwf.
  assert (Hopen : opened t t) by (by split). assert (Hi : forall t', opened t t' -> spared t t') by apply opened_spared.
  unfold collect_scope. eapply hoare_sees; [by apply Hi|apply sees_managed|]. intros [] _; simpl.
  2:{ apply hoare_ret. intros t2 <-. split; [by apply Hi|by left]. }
  apply (hoare_pre _ _ (opened t)); [by intros t2 <-|].
  eapply hoare_bind; [apply hoare_lock; [by left|done]|]. intros [].
  eapply hoare_bind; [apply hoare_lock; [by right|done]|]. intros [].
  eapply hoare_bind; [by apply hoare_gate|]. intros []. eapply hoare_bind; [by apply hoare_gate|]. intros [].
  apply hoare_each. intros t1 Hop. eapply hoare_weaken; [by apply collect_opened|].
  intros r t2 (Hs2 & old & Hlen & Hset). split; [done|]. right. by exists t1, old.
Qed.
End Run.

(** ** The theorems *)

(** C12: whatever fails and wherever it stops, a collection of a managed scope
    keeps what is in use. In every tree it passes through and in the one it
    ends in, the contents and pages that the closure of any live use names, and
    the files in the directory of that use, are as they were before; what is
    gone is disposable (contents and pages no live use needs, metadata of
    retired uses, left-overs of writers) and within the limits of one
    collection; nothing else changed but the locks and the ledger. The
    collection ends in a report or a client error: it does not panic, and its
    walk of the directories does not run out of levels. *)
Theorem collection_keeps_live s :
  wf_tree (s_tree s) -> s_past s = [] -> (forall k l, h_order h k l ≡ₚ l) -> 0 <= PAGE_MAX_DEPTH ->
  clean (collect_scope h base outer s).1 /\
  Forall (fun t' => spared (s_tree s) t' /\ keeps_live (s_tree s) t')
    (s_tree (collect_scope h base outer s).2 :: s_past (collect_scope h base outer s).2).
Proof using Type.
  intros Hwf Hpast Horder Hdepth.
  destruct (collection_ok (s_tree s) Horder Hdepth Hwf s eq_refl) as ((new & Hnew & Hall) & Hend). rewrite Hpast in Hnew. simpl in Hnew.
  assert (Hkeep : forall t', spared (s_tree s) t' -> spared (s_tree s) t' /\ keeps_live (s_tree s) t') by (intros; split; [done|by apply spared_keeps]).
  rewrite Hnew. destruct (collect_scope h base outer s) as [r s2]. simpl in *. split; [by destruct r as [|[]]|].
  constructor; [|by eapply list.Forall_impl]. apply Hkeep. destruct r as [r|[]]; [by destruct Hend|done..].
Qed.

(** A collection that succeeds resets the ledger of charges so that it never
    counts less than is stored: the bytes it records cover the charge of every
    entry that is left (its size and the fixed charge, the new ledger included)
    and exceed it by no more than the reserved control space, the entries it
    records are those that are left and the eight reserved ones, and the report
    accounts for what was removed. In a directory that is not managed nothing
    changes. *)
Lemma ledger_covers s r :
  wf_tree (s_tree s) -> s_past s = [] -> (forall k l, h_order h k l ≡ₚ l) -> 0 <= PAGE_MAX_DEPTH ->
  (collect_scope h base outer s).1 = Ok r ->
  let t' := s_tree (collect_scope h base outer s).2 in
  (r = empty_report /\ t' = s_tree s) \/
  exists c, stored t' (T := Charges) [LEDGER] c /\ ch_revision c = 1 /\
    tree_charge t' <= ch_bytes c <= u64_max /\ ch_bytes c <= tree_charge t' + 2 * CONTROL_BYTES + 8 * ENTRY_CHARGE /\
    ch_entries c = Z.of_nat (size t') + 8 /\ scanned_entries r = Z.of_nat (size t') + deleted_entries r /\
    0 <= deleted_entries r.
Proof using Type.
  intros Hwf Hpast Horder Hdepth Hr. cbv zeta.
  destruct (collection_ok (s_tree s) Horder Hdepth Hwf s eq_refl) as (_ & Hend). rewrite Hr in Hend.
  destruct Hend as [_ [Hend|(t1 & old & Hop & Hold & Hset)]]; [by left|right].
  destruct Hset as (l & t3 & i & b & [Hg Hs He _ Hc Hto Hz] & Hnot & [io Hio] & Hmax & Hj & Hlen & Hi & Ht). rewrite Ht.
  assert (Hl3 : t3 !! [LEDGER] = Some (Regular io old)) by (by rewrite Hg, decide_False).
  pose proof (wf_size _ (op_wf _ _ Hop) _ _ _ Hio) as Hsize.
  pose proof (tree_charge_delete _ _ _ Hl3) as Hc3. pose proof (tree_charge_delete (<[[LEDGER] := Regular i b]> t3) _ _ (lookup_insert_eq _ _ _)) as Hc4.
  rewrite delete_insert_eq in Hc4. simpl in Hc3, Hc4.
  eexists. split; [exists b; split; [exists i; apply lookup_insert_eq|exact Hj]|]. cbn [ch_revision ch_bytes ch_entries].
  rewrite map_size_insert_Some by eauto. unfold zlen, CONTROL_BYTES, ENTRY_CHARGE in *. split_and!; lia.
Qed.
End Safe.
End CollectionSafe.
