(* ===== verification/Collector.v ===== *)
(** * Collector

    [src/snapshot/reader.rs], the collection of every metadata page below a
    fixed root, with or without a budget, and the closures made of it; and the
    full refresh of [src/snapshot/incremental.rs], which collects through the
    page cache of a scope, proves the whole closure and publishes the records
    of its subtrees. Counters that are reporting only are left out. *)

From S2P Require Import Prelude Types Faults Text Profile Btree Frames Wire Metadata Capacity Closure ClosureFacts Disk Records Durable Incremental.
Import Digests Profile.Scope Metadata Capacity Closure ClosureFacts Disk Records Incremental.
Local Open Scope string_scope.
Local Open Scope list_scope.
Local Open Scope Z_scope.

Module Collector.

Definition PAGES_BATCH : nat := 64.

(** [SnapshotPageSource]. *)
Record SnapshotPageSource : Type := mkSource {
  cached_page : string -> M (option bytes);
  received_page : string -> bytes -> M unit;
}.
Definition NetworkPages : SnapshotPageSource := mkSource (fun _ => ret None) (fun _ _ => ret tt).

(** ** The budget of a collection *)

Record PageCollectionBudget : Type := mkPageBudget {
  pb_limits : CacheLimits; pb_deadline : Z; pb_routes : Z; pb_bytes : Z; pb_allocation : Z; pb_pages : gset string;
}.

Definition budget_limit : SnapshotError := SnapshotError_new LimitExceeded "cache metadata acquisition budget exceeded".

Section Budget.
Context `{PageBytes} (instant : nat -> Z).

(** [Instant::now]. *)
Definition read_clock : M Z := ask (fun k => Ok (instant k)).

Definition budget_check (b : PageCollectionBudget) : M unit :=
  let* t := read_clock in
  guard* pb_deadline b <=? t with budget_limit in
  ret tt.

Definition budget_allocate (n : Z) (b : PageCollectionBudget) : M PageCollectionBudget :=
  run* budget_check b in
  let* total := of_res (ok_or (checked_add (pb_allocation b) n) budget_limit) in
  guard* max_inventory_bytes (pb_limits b) <? total with budget_limit in
  ret (mkPageBudget (pb_limits b) (pb_deadline b) (pb_routes b) (pb_bytes b) total (pb_pages b)).

Definition budget_route (dir_len route_len : Z) (b : PageCollectionBudget) : M PageCollectionBudget :=
  let* routes := of_res (ok_or (checked_add (pb_routes b) 1) budget_limit) in
  guard* max_root_nodes (pb_limits b) <? routes with budget_limit in
  budget_allocate (saturating_add (saturating_add (saturating_mul dir_len 8) (saturating_mul route_len 8)) 1024)
    (mkPageBudget (pb_limits b) (pb_deadline b) routes (pb_bytes b) (pb_allocation b) (pb_pages b)).

Definition budget_page (id : string) (bs : bytes) (b : PageCollectionBudget) : M PageCollectionBudget :=
  run* budget_check b in
  guard* PAGE_MAX_BYTES <? zlen bs with budget_limit in
  if bool_decide (id ∈ pb_pages b) then ret b
  else
    guard* max_entries (pb_limits b) <=? Z.of_nat (size (pb_pages b)) with budget_limit in
    let* total := of_res (ok_or (checked_add (pb_bytes b) (zlen bs)) budget_limit) in
    guard* max_metadata_bytes (pb_limits b) <? total with budget_limit in
    let* b := budget_allocate (saturating_add (saturating_mul (zlen bs) 16) 512)
                (mkPageBudget (pb_limits b) (pb_deadline b) (pb_routes b) total (pb_allocation b) (pb_pages b)) in
    ret (mkPageBudget (pb_limits b) (pb_deadline b) (pb_routes b) (pb_bytes b) (pb_allocation b) ({[id]} ∪ pb_pages b)).

(** [if let Some(budget) = budget]. *)
Definition charge (f : PageCollectionBudget -> M PageCollectionBudget) (o : option PageCollectionBudget)
    : M (option PageCollectionBudget) :=
  match o with
  | None => ret None
  | Some b => let* b := f b in ret (Some b)
  end.
End Budget.

(** ** Collecting *)

Record PageFrontier : Type := mkFrontier { pf_dir : string; pf_route : list Z; pf_expected : string }.

(** The tables of a collection: decoded pages, their bytes, the page of every
    route, the routes expanded so far and the budget. *)
Record collection : Type := mkCollection {
  cl_decoded : gmap string Page; cl_bytes : list (string * bytes); cl_routes : gmap (string * list Z) string;
  cl_expanded : gset (string * list Z); cl_budget : option PageCollectionBudget;
}.

Definition add_page (id : string) (pg : Page) (b : bytes) (budget : option PageCollectionBudget) (c : collection) : collection :=
  mkCollection (<[id := pg]> (cl_decoded c)) (Btree.put (cl_bytes c) id b) (cl_routes c) (cl_expanded c) budget.
Definition add_route (f : PageFrontier) (c : collection) : collection :=
  mkCollection (cl_decoded c) (cl_bytes c) (<[(pf_dir f, pf_route f) := pf_expected f]> (cl_routes c)) (cl_expanded c) (cl_budget c).
Definition add_expanded (f : PageFrontier) (c : collection) : collection :=
  mkCollection (cl_decoded c) (cl_bytes c) (cl_routes c) ({[(pf_dir f, pf_route f)]} ∪ cl_expanded c) (cl_budget c).
Definition set_budget (b : option PageCollectionBudget) (c : collection) : collection :=
  mkCollection (cl_decoded c) (cl_bytes c) (cl_routes c) (cl_expanded c) b.
Definition has_page (id : string) (c : collection) : bool := bool_decide (is_Some (cl_decoded c !! id)).

(** What a batch requests: the tables, the pages requested and the items. *)
Record request : Type := mkRequest { rq_tables : collection; rq_requested : gset string; rq_items : list MetadataPageItem }.

Section Collect.
Context `{HexCrate} `{PageCodec} `{PageBytes} `{CodecScope} (env : environment) (instant : nat -> Z).
Context (scope metadata_root : string) (p : profile) (features_pages : bool).
Context (fetch_pages : nat -> list MetadataPageItem -> Res (list (bytes * bytes))) (source : SnapshotPageSource).

(** A page of the source is decoded at once. *)
Definition from_cache (f : PageFrontier) (c : collection) : M collection :=
  if has_page (pf_expected f) c then ret c
  else
    let* o := cached_page source (pf_expected f) in
    match o with
    | None => ret c
    | Some b =>
        let* budget := charge (budget_page instant (pf_expected f) b) (cl_budget c) in
        let* pg := of_res (decode_page b) in
        ret (add_page (pf_expected f) pg b budget c)
    end.

(** One item of the batch, before the request. *)
Definition prepare (r : request) (f : PageFrontier) : M request :=
  run* of_res (validate_relative_path scope (pf_dir f)) in
  run* of_res (validate_path p (pf_dir f)) in
  guard* PAGE_MAX_DEPTH <? zlen (pf_route f)
    with SnapshotError_new LimitExceeded "metadata radix depth exceeds 255" in
  let* c := from_cache f (add_route f (rq_tables r)) in
  ret (if has_page (pf_expected f) c || bool_decide (pf_expected f ∈ rq_requested r)
       then mkRequest c (rq_requested r) (rq_items r)
       else mkRequest c ({[pf_expected f]} ∪ rq_requested r)
              (rq_items r ++ [mkItem (pf_dir f) (pf_route f) (Some (pf_expected f))])).

(** One page of the answer. *)
Definition accept_page (ok : gset string) (c : collection) (page : bytes * bytes) : M collection :=
  let '(pid, b) := page in
  let id := digest_string pid in
  guard* negb (bool_decide (id ∈ ok))
    with SnapshotError_new DigestMismatch ("metadata/pages returned an unrequested page " ++ id) in
  guard* negb (bool_decide (page_id b = pid))
    with SnapshotError_new DigestMismatch ("metadata/pages payload does not hash to " ++ id) in
  let* budget := charge (budget_page instant id b) (cl_budget c) in
  let* pg := of_res (decode_page b) in
  run* received_page source id b in
  ret (add_page id pg b budget c).

(** Every page that was asked for is there. *)
Definition complete_batch (c : collection) (batch : list PageFrontier) : Res unit :=
  for_each (fun _ f =>
      reject? negb (has_page (pf_expected f) c)
        with SnapshotError_new DigestMismatch
               ("metadata/pages did not return the requested page " ++ pf_expected f ++ " for " ++ pf_dir f) in
      Ok tt) tt batch.

(** [collect_directory]. *)
Definition collect_directory (dir : string) (st : list PageFrontier * option PageCollectionBudget) (e : Entry)
    : M (list PageFrontier * option PageCollectionBudget) :=
  let '(frontier, budget) := st in
  if negb (bool_decide (ent_kind e = EDirectory)) then ret (frontier, budget)
  else
    let* budget := charge (budget_route instant (saturating_add (saturating_add (str_len dir) (zlen (ent_name e))) 1) 0) budget in
    let* name := of_res (ok_or (from_utf8 (ent_name e)) (SnapshotError_new Internal "non-utf8 entry name in MTP2 page")) in
    let rel := (if String.eqb dir "/" then name else trim_start_slash dir ++ "/" ++ name)%string in
    ret (frontier ++ [mkFrontier ("/" ++ rel) [] (digest_string (child_root e))], budget).

(** One child of a branch page. *)
Definition collect_child (f : PageFrontier) (st : list PageFrontier * option PageCollectionBudget) (ch : BranchChild)
    : M (list PageFrontier * option PageCollectionBudget) :=
  let '(frontier, budget) := st in
  let* budget := charge (budget_route instant (str_len (pf_dir f)) (zlen (pf_route f) + 1)) budget in
  ret (frontier ++ [mkFrontier (pf_dir f) (pf_route f ++ [label ch]) (digest_string (child_page_id ch))], budget).

(** One item of the batch, after the answer. *)
Definition expand (st : list PageFrontier * collection) (f : PageFrontier) : M (list PageFrontier * collection) :=
  let '(frontier, c) := st in
  guard* bool_decide ((pf_dir f, pf_route f) ∈ cl_expanded c)
    with SnapshotError_new IntegrityError "duplicate logical metadata route" in
  let c := add_expanded f c in
  let* page := of_run (ok_or (cl_decoded c !! pf_expected f) Panicked) in
  let* ' (frontier, budget) :=
    match page with
    | Leaf es => fold_m (collect_directory (pf_dir f)) (frontier, cl_budget c) es
    | Branch _ terminal children =>
        let* st := fold_m (collect_directory (pf_dir f)) (frontier, cl_budget c) (option_list terminal) in
        fold_m (collect_child f) st children
    end in
  ret (frontier, set_budget budget c).

(** One batch. *)
Definition collect_round (frontier : list PageFrontier) (c : collection) : M (list PageFrontier * collection) :=
  let* budget := charge (fun b => run* budget_check instant b in ret b) (cl_budget c) in
  let n := Nat.min PAGES_BATCH (Z.to_nat (metadata_item_limit p)) in
  let batch := take n frontier in
  let* r := fold_m prepare (mkRequest (set_budget budget c) ∅ []) batch in
  let* answer := (if bool_decide (rq_items r = []) then ret []
                  else run* gate env in ask (fun k => fetch_pages k (rq_items r))) in
  let* c := fold_m (accept_page (allowed (cl_routes (rq_tables r)) (rq_items r))) (rq_tables r) answer in
  run* of_res (complete_batch c batch) in
  fold_m expand (drop n frontier, c) batch.

Fixpoint collect_rounds (fuel : nat) (frontier : list PageFrontier) (c : collection) : M collection :=
  match frontier with
  | [] => ret c
  | _ =>
      match fuel with
      | O => of_run (Err OutOfFuel)
      | S fuel => let* ' (frontier, c) := collect_round frontier c in collect_rounds fuel frontier c
      end
  end.

(** [snapshot_pages_with_budget]. *)
Definition snapshot_pages (fuel : nat) (budget : option PageCollectionBudget) : M (list (string * bytes)) :=
  guard* negb features_pages
    with SnapshotError_new SnapshotNotReady "complete snapshot closure requires metadata/pages" in
  run* gate env in
  let* budget := charge (budget_route instant 1 0) budget in
  let* c := collect_rounds fuel [mkFrontier "/" [] metadata_root] (mkCollection ∅ [] ∅ ∅ budget) in
  ret (cl_bytes c).
End Collect.

(** [validate_snapshot_files]. *)
Definition validate_snapshot_files (p : profile) (files : list SnapshotFile) : Res unit :=
  for_each (fun _ f => let? _ := validate_path p (rel_path f) in validate_file_size p (file_size f)) tt files.

(** ** The closures of a reader *)

Section Reader.
Context `{HexCrate} `{PageCodec} `{PageBytes} `{CodecScope} `{DescriptorCodec} `{ServingCodec} `{UuidCrate}.
Context (env : environment) (instant : nat -> Z) (reachable : Z -> bool).
Context (d : Descriptor) (p : profile) (features_pages : bool).
Context (fetch_pages : nat -> list MetadataPageItem -> Res (list (bytes * bytes))).

(** [snapshot_closure]. *)
Definition snapshot_closure (fuel : nat) : M ValidatedSnapshotClosure :=
  let* pages := snapshot_pages env instant (Wire.scope d) (metadata_root d) p features_pages fetch_pages NetworkPages fuel None in
  let* c := of_run (from_pages d pages) in
  run* of_res (validate_snapshot_files p (vc_files c)) in
  ret c.

(** A pure computation that reads the clock. *)
Definition timed {A} (f : (nat -> Z) -> Run A) : M A := fun s => (f (fun n => instant (Disk.clock s + n)%nat), s).

(** [snapshot_closure_for_cache]. *)
Definition snapshot_closure_for_cache (limits : CacheLimits) (fuel : nat) : M ValidatedSnapshotClosure :=
  run* of_res (validate_limits reachable limits) in
  let* t := read_clock instant in
  let deadline := t + max_scan_millis limits in
  let* pages := snapshot_pages env instant (Wire.scope d) (metadata_root d) p features_pages fetch_pages NetworkPages fuel
                  (Some (mkPageBudget limits deadline 0 0 0 ∅)) in
  let* b := of_res (canonical_descriptor d) in
  let* c := timed (from_canonical_pages_bounded b pages (max_root_nodes limits) (max_inventory_bytes limits) (Some deadline)) in
  run* of_res (validate_snapshot_files p (vc_files c)) in
  run* gate env in
  ret c.
End Reader.

(** ** The full refresh *)

Record FullProofTransaction : Type := mkFull { fp_records : index; fp_dirty : bool }.

(** [FullProofTransaction::put_record]. *)
Definition full_put_record (tx : FullProofTransaction) (r : ClosureRecord) : FullProofTransaction :=
  if decide (fp_records tx !! cr_root_page_id r = Some r) then tx
  else mkFull (<[cr_root_page_id r := r]> (fp_records tx)) true.

(** The record of one summary. *)
Definition fact_record (auth_domain snapshot_id : string) (codec : Z) (f : VerifiedSubtreeFacts) : ClosureRecord :=
  mkRecord auth_domain codec POLICY_REVISION (root_page_id f) (page_ids f) (total_entries f) (fact_files f) snapshot_id.

Section Full.
Context `{HexCrate} `{PageCodec} `{PageBytes} `{Serde index} `{CodecScope} `{DescriptorCodec} `{ServingCodec} `{UuidCrate}.
Context (env : environment) (managed : bool) (instant : nat -> Z).

(** [IncrementalSync] as a source of pages. *)
Definition ScopePages : SnapshotPageSource := mkSource (read_page_verified env managed) (put_page env).

(** [full_proof_transaction]: the gate is the lock, for which it waits. *)
Definition full_proof_transaction : M FullProofTransaction :=
  run* gate env in
  let* records := load_records env in
  ret (mkFull records false).

(** [FullProofTransaction::commit]. *)
Definition full_commit (tx : FullProofTransaction) : M unit :=
  if fp_dirty tx then store_records env (fp_records tx) else ret tt.

Context (d : Descriptor) (p : profile) (features_pages : bool) (auth_domain snapshot_id : string) (codec : Z).
Context (fetch_pages : nat -> list MetadataPageItem -> Res (list (bytes * bytes))).

(** [IncrementalSync::sync_snapshot]; the first gate is the binding of the cache
    directory to the authority of the reader, the others are its lease. *)
Definition sync_snapshot (fuel : nat) : M ValidatedSnapshotClosure :=
  run* gate env in
  guard* negb features_pages
    with SnapshotError_new SnapshotNotReady "complete snapshot sync requires metadata/pages" in
  run* gate env in
  let* pages := snapshot_pages env instant (Wire.scope d) (metadata_root d) p features_pages fetch_pages ScopePages fuel None in
  let* ' (c, facts) := of_run (with_subtree_facts d pages) in
  run* of_res (validate_snapshot_files p (vc_files c)) in
  let* tx := full_proof_transaction in
  run* gate env in
  let tx := fold_left full_put_record (fact_record auth_domain snapshot_id codec <$> facts) tx in
  run* gate env in
  run* full_commit tx in
  ret c.
End Full.
End Collector.
