(* ===== verification/DurableFacts.v ===== *)
(** * DurableFacts

    The durable store: what a completion record proves on the disk it is found
    on, and what a commit leaves behind when it is cut short anywhere. *)

From Stdlib Require Import Sorted.
From S2P Require Import Prelude Types Faults Text Profile Btree Frames Wire Closure Disk DiskLogic Journal Records Pins Durable.
Import Digests Profile.Scope Closure Disk DiskLogic Journal Records Pins Durable.
Local Open Scope string_scope.
Local Open Scope list_scope.
Local Open Scope Z_scope.

Create HintDb reads.

(** Programs that only read, one operation at a time. *)
Ltac reads_leaf :=
  first [ apply reads_step_post; reflexivity
        | apply reads_sys_post; reflexivity
        | apply reads_res_post
        | apply reads_run_post
        | apply reads_optional_post
        | solve [eauto with reads nocore] ].

Ltac reads_one :=
  first [ apply reads_fail
        | apply reads_ret; solve [exact I | auto]
        | apply reads_gate
        | apply reads_guard; intros ?
        | eapply reads_bind; [reads_leaf|cbv beta; intros ? ?]
        | eapply reads_weaken; [reads_leaf|solve [auto]]
        | match goal with |- reads _ (match ?x with _ => _ end) _ => destruct x end ].

Ltac reads := repeat reads_one.

(** The next case distinction of a reader. *)
Tactic Notation "reads_case" ident(E) :=
  match goal with |- reads _ (if ?b then _ else _) _ => destruct b eqn:E end.

Module DurableFacts.

(** ** Manifests *)

Section Manifests.
Context `{HexCrate} `{Sha256}.

(** What [validate_manifest_policy] has checked of the files so far. *)
Definition checked (fs : list SnapshotFile) (st : manifest_state) : Prop :=
  NoDup (rel_path <$> fs) /\ Btree.ordered (ms_blobs st) /\
  (forall p, p ∈ ms_paths st <-> p ∈ rel_path <$> fs) /\
  forall f, f ∈ fs -> Btree.get (ms_blobs st) (file_digest f) = Some (file_size f).

Lemma manifest_file_checked full fs st f st' :
  checked fs st -> manifest_file full st f = Ok st' -> checked (fs ++ [f]) st'.
Proof.
  intros (Hnd & Hord & Hp & Hg) Hf. unfold manifest_file in Hf. inv_ok.
  match goal with Hx : _ || bool_decide _ = false |- _ => apply orb_false_iff in Hx as [_ Hnew] end.
  unfold Btree.insert in Hf. inv_ok. subst st'.
  apply bool_decide_eq_false in Hnew. split_and!; cbn [ms_paths ms_blobs].
  - rewrite fmap_app. apply list.NoDup_app. split_and!; [done| |apply NoDup_singleton].
    intros p Hq. rewrite <- Hp in Hq. simpl. set_solver.
  - by apply Btree.put_ordered.
  - intros p. rewrite fmap_app. set_solver.
  - intros g Hg'. rewrite Btree.get_put. destruct (decide (file_digest g = file_digest f)) as [E|E].
    + apply elem_of_app in Hg' as [Hg'|Hg']; [|by apply list_elem_of_singleton in Hg' as ->].
      pose proof (Hg g Hg') as Hget. rewrite E in Hget.
      match goal with Hx : match Btree.get _ _ with _ => _ end = false |- _ => rewrite Hget in Hx; bools end. by f_equal.
    + apply elem_of_app in Hg' as [Hg'|Hg']; [auto|apply list_elem_of_singleton in Hg'; congruence].
Qed.

Lemma manifest_checked full fs blobs total :
  validate_manifest_policy fs full = Ok (blobs, total) ->
  NoDup (rel_path <$> fs) /\ forall f, f ∈ fs -> mkBlob (file_digest f) (file_size f) ∈ blobs.
Proof.
  unfold validate_manifest_policy. intros Hv. apply rbind_ok in Hv as (st & Hst & Hv). inv_ok. subst.
  assert (Hc : forall done rest st0, checked done st0 -> for_each (manifest_file full) st0 rest = Ok st -> checked (done ++ rest) st).
  { intros done rest. revert done. induction rest as [|f rest IH]; intros done0 st0 Hc0 Hf; cbn [for_each] in Hf.
    - injection Hf as <-. by rewrite app_nil_r.
    - apply rbind_ok in Hf as (st1 & Hf1 & Hf). change (f :: rest) with ([f] ++ rest). rewrite app_assoc.
      eapply IH; [|exact Hf]. by eapply manifest_file_checked. }
  destruct (Hc [] fs (mkManifest ∅ [] 0)) as (Hnd & Hord & _ & Hg); [|done|].
  { split_and!; [constructor|constructor| |]; simpl; set_solver. }
  split; [done|]. intros f Hf. apply list_elem_of_fmap. exists (file_digest f, file_size f). split; [done|].
  apply Btree.get_elem; auto.
Qed.
End Manifests.

(** ** What a completion record proves *)

Section Completion.
Context `{HexCrate} `{Sha256} `{PageCodec} `{CodecScope} `{DescriptorCodec} `{ServingCodec} `{UuidCrate} `{Rfc3339}.
Context `{CommitCodec} `{PinCodec} `{RecordCodec} (env : environment) (at_ : Location).

(** The local copy [verify_blob] accepts. *)
Definition blob_ok (digest : string) (size : Z) (n : inode) : bool :=
  regular n && (zlen (data n) =? size)
  && (zlen (take (Z.to_nat (saturating_add size 1)) (data n)) =? size)
  && String.eqb (digest_of (take (Z.to_nat (saturating_add size 1)) (data n))) digest.

Lemma blob_ok_facts digest size n :
  blob_ok digest size n = true -> regular n = true /\ zlen (data n) = size /\ digest_of (data n) = digest.
Proof.
  unfold blob_ok. intros [[[Hr Hl]%andb_true_iff Ht]%andb_true_iff Hd]%andb_true_iff.
  apply Z.eqb_eq in Hl, Ht. apply String.eqb_eq in Hd. split_and!; [done|done|].
  rewrite take_ge in Hd; [done|]. unfold zlen in *. rewrite length_take in Ht. lia.
Qed.

(** A content is stored. *)
Definition stored (d : disk) (digest : string) (size : Z) : Prop :=
  exists p n, blob_path digest = Ok p /\ lookup p d = Some n /\ blob_ok digest size n = true.

Lemma verify_blob_reads d digest size :
  reads d (verify_blob env digest size) (fun ok => ok = true -> stored d digest size).
Proof.
  unfold verify_blob. apply reads_gate. eapply reads_bind; [apply reads_res_post|]. intros p Hp.
  eapply reads_bind; [by apply reads_step_post|]. intros m Hm.
  destruct m as [[is_file len]|[]]; [|by apply reads_ret|apply reads_fail..].
  reads_case E; [by apply reads_ret|]. eapply reads_bind; [by apply reads_sys_post|]. intros b Hb. cbv zeta.
  reads_case E2; apply reads_ret; [done|]. intros Hd. apply orb_false_iff in E as [E1 E].
  apply negb_false_iff in E1, E, E2. destruct Hm as [Hm|[? ?]]; [|done]. unfold do_metadata in Hm. unfold do_read in Hb.
  cbn [fst] in Hm, Hb. exists p. destruct (lookup p d) as [n|]; [|done]. injection Hm as -> ->. exists n.
  rewrite E1 in Hb. injection Hb as <-. unfold blob_ok. by rewrite E1, E, E2, Hd.
Qed.

Lemma verify_blobs_reads d message blobs :
  reads d (verify_blobs env message blobs) (fun _ => forall b, b ∈ blobs -> stored d (b_digest b) (b_size b)).
Proof.
  apply (reads_fold d _ (fun done _ => forall b, b ∈ done -> stored d (b_digest b) (b_size b))); [|set_solver].
  intros done0 [] b rest _ Hdone. eapply reads_bind; [apply verify_blob_reads|]. intros ok Hok.
  apply reads_guard. intros E%negb_false_iff. apply reads_ret. set_solver.
Qed.

Lemma required_reads d p : reads d (required_dependency env p) (fun b => read_of d p (Some b)).
Proof.
  unfold required_dependency. eapply reads_bind; [by apply reads_step_post|]. intros [[[] len]|[]] _; try apply reads_fail.
  eapply reads_bind; [apply reads_optional_post|]. intros o Ho. eapply reads_weaken; [apply reads_res_post|].
  intros b Hb. cbv beta in Ho. by destruct o; simplify_eq/=.
Qed.

Lemma verify_grant_reads d digest id : reads d (verify_offline_grant env digest id) (fun _ => True).
Proof. unfold verify_offline_grant. reads. Qed.

Hint Resolve verify_blob_reads verify_blobs_reads required_reads verify_grant_reads : reads.

(** A page of the closure is in the store. *)
Definition page_stored (d : disk) (page : string * bytes) : Prop :=
  exists p, metadata_page_path page.1 = Ok p /\ read_of d p (Some page.2).

Lemma put_elem {V} (m : list (string * V)) k v e : e ∈ Btree.put m k v -> e = (k, v) \/ e ∈ m.
Proof.
  induction m as [|[k' v'] m IH]; simpl; [set_solver|]. destruct (String.compare k k'); set_solver.
Qed.

Lemma read_pages_reads d deps :
  reads d (fold_m (read_page env) [] deps) (fun pages => forall e, e ∈ pages -> page_stored d e).
Proof.
  apply (reads_fold d _ (fun _ pages => forall e, e ∈ pages -> page_stored d e)); [|set_solver].
  intros done0 pages dep rest _ Hdone. unfold read_page. eapply reads_bind; [apply reads_res_post|]. intros p Hp.
  eapply reads_bind; [apply required_reads|]. intros b Hb. unfold Btree.insert. apply reads_guard. intros _.
  apply reads_ret. intros e [->|He]%put_elem; [|auto]. by exists p.
Qed.

(** The local copy [read_blob] returns. *)
Definition read_ok (digest : string) (size : Z) (n : inode) : bool :=
  is_ok (buffered_size size) && regular n && (zlen (data n) =? size)
  && negb (size <? zlen (take (Z.to_nat (size + 1)) (data n)))
  && negb (ne (digest_of (data n)) digest || negb (zlen (data n) =? size)).

Lemma read_blob_reads d digest size :
  reads d (read_blob env digest size) (fun b => exists p n, blob_path digest = Ok p /\ lookup p d = Some n /\
    read_ok digest size n = true /\ data n = b).
Proof.
  unfold read_blob. eapply reads_bind; [apply reads_res_post|]. intros x Hx. apply reads_gate.
  eapply reads_bind; [apply reads_res_post|]. intros p Hp. eapply reads_bind; [apply reads_step_post, open_same|]. intros r _.
  eapply reads_bind; [apply reads_res_post|]. intros _ _. eapply reads_bind; [by apply reads_step_post|]. intros m Hm.
  eapply reads_bind; [apply reads_res_post|]. intros [is_file len] Hlen. apply reads_guard. intros E.
  eapply reads_bind; [by apply reads_sys_post|]. intros b Hb. apply reads_guard. intros E2. apply reads_guard. intros E3.
  apply reads_ret. cbv beta in *. apply map_err_ok in Hlen as ->. destruct Hm as [Hm|[? ?]]; [|done].
  unfold do_metadata in Hm. unfold do_read in Hb. cbn [fst] in Hm, Hb. exists p.
  destruct (lookup p d) as [n|]; [|done]. injection Hm as -> ->. exists n.
  apply orb_false_iff in E as [E1%negb_false_iff E%negb_false_iff]. rewrite E1 in Hb. injection Hb as <-.
  split_and!; [done|done| |done]. unfold read_ok. rewrite Hx, E1, E, E2. rewrite E in E3. by rewrite E3.
Qed.

(** The symbolic links of a closure have text targets. *)
Definition links_ok (d : disk) (fs : list SnapshotFile) : Prop :=
  forall f, f ∈ fs -> file_kind f = "symlink" -> exists p n, blob_path (file_digest f) = Ok p /\ lookup p d = Some n /\
    read_ok (file_digest f) (file_size f) n = true /\ (0 ∉ data n).

Lemma links_reads d c : reads d (verify_snapshot_links env c) (fun _ => links_ok d (vc_files c)).
Proof.
  eapply reads_weaken; [apply (reads_fold d _ (fun done _ => links_ok d done))|].
  - intros done0 [] f rest _ Hdone. eapply reads_bind; [apply read_blob_reads|]. intros b (p & n & Hp & Hn & Hr & <-).
    apply reads_guard. intros E%bool_decide_eq_false. apply reads_ret. intros g [Hg|Hg]%elem_of_app; [by apply Hdone|].
    apply list_elem_of_singleton in Hg as ->. intros _. eauto 10.
  - intros f Hf. set_solver.
  - intros [] Hl f Hf Hk. apply Hl; [|done]. by apply list_elem_of_filter.
Qed.

Hint Resolve read_pages_reads links_reads : reads.

(** What a completed file list promises of the disk. *)
Definition files_stored (d : disk) (fs : list SnapshotFile) : Prop :=
  NoDup (rel_path <$> fs) /\ forall f, f ∈ fs -> stored d (file_digest f) (file_size f).

Lemma blobs_stored d full fs blobs total :
  validate_manifest_policy fs full = Ok (blobs, total) ->
  (forall b, b ∈ blobs -> stored d (b_digest b) (b_size b)) -> files_stored d fs.
Proof. intros [Hnd Hin]%manifest_checked Hb. split; [done|]. intros f Hf. apply (Hb _ (Hin f Hf)). Qed.

(** What a completed snapshot promises: the files, the links, a closure the
    stored descriptor and pages validate to, and its view. *)
Definition snapshot_stored (d : disk) (c : ValidatedSnapshotClosure) : Prop :=
  files_stored d (vc_files c) /\ links_ok d (vc_files c) /\
  (exists b pages, read_of d (Root, DESCRIPTOR_FILE) (Some b) /\ (forall e, e ∈ pages -> page_stored d e) /\
     from_canonical_pages b pages = Ok c) /\
  exists b v, read_of d (Root, VIEW_FILE) (Some b) /\ decode_commit b VIEW_FILE = Ok v /\ validate_snapshot_view v c = Ok tt.

Ltac reads_all := repeat (reads_one; try match goal with x : (_ * _)%type |- _ => destruct x end).

Lemma file_commit_reads d b : reads d (verify_file_commit env b) (files_stored d).
Proof. unfold verify_file_commit. reads_all. apply reads_ret. eauto using blobs_stored. Qed.

Lemma snapshot_commit_reads d b : reads d (verify_snapshot_commit env b) (snapshot_stored d).
Proof.
  unfold verify_snapshot_commit. reads_all. apply reads_ret.
  repeat match goal with Hx : map_err _ _ = Ok _ |- _ => apply map_err_ok in Hx end.
  match goal with Hx : negb (bool_decide (vc_files _ = _)) || _ = false |- _ =>
    apply orb_false_iff in Hx as [Hfs%negb_false_iff%bool_decide_eq_true _] end.
  match goal with Hx : validate_snapshot_view _ _ = Ok ?u |- _ => destruct u end.
  split_and!; [rewrite Hfs; eauto using blobs_stored|done|eauto|]. do 2 eexists. split_and!; eassumption.
Qed.

Definition COMPLETE : path := (Root, COMPLETE_MARKER).

(** What [completed_manifest_locked] has established. *)
Definition completed (d : disk) (fs : list SnapshotFile) : Prop :=
  files_stored d fs /\ exists b revision, read_of d COMPLETE (Some b) /\ completion_revision b = Ok revision /\
    (revision = SNAPSHOT_VERIFICATION_REVISION -> exists c, vc_files c = fs /\ snapshot_stored d c).

Lemma verify_commit_reads d b :
  reads d (verify_commit env b) (fun fs => files_stored d fs /\ exists revision, completion_revision b = Ok revision /\
    (revision = SNAPSHOT_VERIFICATION_REVISION -> exists c, vc_files c = fs /\ snapshot_stored d c)).
Proof.
  unfold verify_commit. eapply reads_bind; [apply reads_res_post|]. intros r Hr. reads_case E.
  - eapply reads_bind; [apply snapshot_commit_reads|]. intros c Hc. apply reads_ret. split; [apply Hc|].
    exists r. split; [done|]. intros _. by exists c.
  - eapply reads_weaken; [apply file_commit_reads|]. intros fs Hf. split; [done|]. exists r. split; [done|].
    intros ->. by rewrite Z.eqb_refl in E.
Qed.

Lemma read_record_reads {T} `{Serde T} d p : reads d (read_record (T := T) env p) (fun _ => True).
Proof. unfold read_record. reads_all. Qed.
Hint Resolve read_record_reads : reads.

Lemma validate_authority_reads d D domain scope snapshot : reads d (validate_authority env D domain scope snapshot) (fun _ => True).
Proof. unfold validate_authority. reads_all. Qed.
Hint Resolve validate_authority_reads : reads.

Lemma scope_dir_reads d b : reads d (scope_dir env at_ b) (fun _ => True).
Proof. unfold scope_dir. reads_all. Qed.
Hint Resolve scope_dir_reads : reads.

Lemma validate_store_reads d b : reads d (validate_store env at_ b) (fun _ => True).
Proof. unfold validate_store. reads_all. Qed.
Hint Resolve validate_store_reads : reads.

Lemma owner_binding_reads d : reads d (owner_binding env at_) (fun _ => True).
Proof. unfold owner_binding. reads_all. Qed.
Hint Resolve owner_binding_reads : reads.

Lemma read_registration_reads d id : reads d (read_registration env id) (fun _ => True).
Proof. unfold read_registration. reads_all. Qed.
Hint Resolve read_registration_reads : reads.

Lemma release_record_reads d b : reads d (release_record env b) (fun _ => True).
Proof. unfold release_record. reads_all. Qed.
Hint Resolve release_record_reads : reads.

Lemma require_registration_reads d b : reads d (require_registration env at_ b) (fun _ => True).
Proof. unfold require_registration. reads_all. Qed.
Hint Resolve require_registration_reads : reads.

Lemma no_artifact_reads d name : reads d (no_artifact env name) (fun _ => True).
Proof. unfold no_artifact. reads_all. Qed.
Hint Resolve no_artifact_reads : reads.

Lemma complete_allowed_reads d : reads d (complete_allowed env at_) (fun _ => True).
Proof.
  unfold complete_allowed. reads_all. eapply (reads_bind _ _ _ (fun _ => True)); [reads_all|]. intros _ _. reads_all.
Qed.
Hint Resolve complete_allowed_reads : reads.

(** A file list that counts as complete leaves the disk as it was. *)
Lemma completed_manifest_reads d :
  triple (fun _ => True) (eq d) (completed_manifest_locked env at_)
    (fun r d' => forall fs, r = Some fs -> d' = d /\ completed d fs) (fun _ => True).
Proof.
  unfold completed_manifest_locked.
  eapply triple_bind; [apply reads_triple; [done|done|apply complete_allowed_reads]|]. intros allowed.
  apply triple_from. intros d1 [-> _]. destruct (negb allowed); [by apply triple_ret|].
  eapply triple_bind; [apply reads_triple; [done|done|apply reads_optional_post]|]. intros marker.
  apply triple_from. intros d2 [-> Hm]. destruct marker as [b|]; [|by apply triple_ret].
  eapply triple_bind; [apply reads_triple; [done|done|apply reads_attempt, verify_commit_reads]|]. intros r.
  apply triple_from. intros d3 [-> Hr]. destruct r as [fs|[e| |]].
  - apply triple_ret. intros d4 <- fs' [= <-]. split; [done|]. destruct (Hr fs eq_refl) as (Hf & rev & Hrev & Hs).
    split; [done|]. by exists b, rev.
  - destruct (is_integrity e); [|by apply triple_fail].
    eapply (triple_bind _ _ _ _ (fun _ _ => True)); [|by intros ?; apply triple_ret].
    eapply triple_weaken; [apply (keeps_bind (fun _ => True)); [apply any_remove|intros ?; apply any_write]|done..].
  - by apply triple_of_run.
  - by apply triple_of_run.
Qed.

(** C9: a completion record is believed only with everything it names. When the
    store reports a completed file list, whatever failed on the way, the disk
    has not changed and every file of the list has a regular local copy with
    its size and its digest, under a path that occurs once. For a whole
    snapshot there is a closure with exactly these files that the stored
    descriptor and pages validate to, its view is the stored one, and every
    symbolic link has a target without NUL. *)
Theorem completion_sound s s' fs :
  completed_manifest_locked env at_ s = (Ok (Some fs), s') ->
  now s' = now s /\ NoDup (rel_path <$> fs) /\
  (forall f, f ∈ fs -> exists p n, blob_path (file_digest f) = Ok p /\ lookup p (now s) = Some n /\ regular n = true /\
     zlen (data n) = file_size f /\ digest_of (data n) = file_digest f) /\
  exists b revision, read_of (now s) COMPLETE (Some b) /\ completion_revision b = Ok revision /\
    (revision = SNAPSHOT_VERIFICATION_REVISION -> exists c, vc_files c = fs /\ snapshot_stored (now s) c).
Proof.
  intros Hc. pose proof (completed_manifest_reads (now s) s eq_refl) as Ht. rewrite Hc in Ht. destruct Ht as [_ Ht].
  destruct (Ht fs eq_refl) as (Hd & (Hnd & Hst) & Hm). split_and!; [done|done| |done].
  intros f Hf. destruct (Hst f Hf) as (p & n & Hp & Hn & (? & ? & ?)%blob_ok_facts). by exists p, n.
Qed.
End Completion.
End DurableFacts.
