(* ===== verification/CommitFacts.v ===== *)
(** * CommitFacts

    The commit of a hydration is atomic: cut short anywhere, by an error or by
    a crash, it leaves no completion record or one that verifies. *)

From Stdlib Require Import Sorted.
From stdpp Require Import sorting.
From S2P Require Import Prelude Types Faults Text Profile Btree Frames Wire Closure ClosureExact Disk DiskLogic Journal Records Pins Durable DurableFacts.
Import Digests Profile.Scope Closure Disk DiskLogic Journal Records Pins Durable DurableFacts.
Local Open Scope string_scope.
Local Open Scope list_scope.
Local Open Scope Z_scope.

Module CommitFacts.

Lemma ne_refl s : ne s s = false.
Proof. unfold ne. by rewrite String.eqb_refl. Qed.

(** A stage whose invariant implies that of the whole. *)
Lemma triple_stage (A I P : disk -> Prop) {B} (c : M B) Q R R' :
  triple A P c Q R' -> (forall d, A d -> I d) -> (forall d, R' d -> R d) -> triple I P c Q R.
Proof. intros Hc HA HR. eapply triple_weaken; [exact Hc|auto..]. Qed.

Section Keeps.
Context `{HexCrate} `{Sha256} `{UuidCrate} `{CommitCodec} `{PinCodec} `{RecordCodec} (env : environment) (at_ : Location).

Lemma compact_journal_keeps (F : facts) fs :
  visible_facts F -> silent F (Root, JOURNAL_FILE) -> keeps (holds F) (compact_journal env fs).
Proof.
  intros Hv Hs. unfold compact_journal. do 3 (apply triple_gate; [done|]). apply triple_uuid. intros id. cbv zeta.
  apply triple_from. intros d Hd. pose proof (tmp_name_ne JOURNAL_FILE id) as Hne.
  destruct (encode_lines (record_of <$> fs)) as [b|e].
  - eapply (triple_weaken _ (writing_any Root JOURNAL_FILE b d) _ (eq d) _ _ (fun _ => written Root JOURNAL_FILE b d));
      [apply guarded_write|..]; eauto using holds_writing.
    + intros s Hw. by apply (write_new_ok env Root JOURNAL_FILE (tmp_name JOURNAL_FILE id) b d Hne s Hw).
    + intros _ d1 Hw p v Hp. eapply holds_written; [exact Hs|exact Hd|exact Hw|]. by right.
  - eapply (triple_weaken _ (writing_any Root JOURNAL_FILE [] d) _ (eq d) _ _ (fun _ => written Root JOURNAL_FILE [] d));
      [apply guarded_write|..]; eauto using holds_writing.
    + eapply triple_bind; [apply create_stage|]. intros i. eapply (triple_bind _ _ _ _ (fun _ _ => False)).
      * apply triple_of_res; [done|]. intros d1. apply staged_writing.
      * intros x s [].
    + intros _ d1 Hw p v Hp. eapply holds_written; [exact Hs|exact Hd|exact Hw|]. by right.
Qed.

Lemma keeps_reading (A : disk -> Prop) {B} (c : M B) (Q : disk -> B -> Prop) : (forall d, reads d c (Q d)) -> keeps A c.
Proof. intros Hc. apply keeps_reads. intros d. by eapply reads_weaken. Qed.

Lemma register_keeps (F : facts) b s :
  visible_facts F -> silent F (registration_file (workspace_id b)) -> keeps (holds F) (register env at_ b s).
Proof.
  intros Hv Hs. unfold register. apply keeps_bind; [apply keeps_reads; intros d; apply validate_store_reads|]. intros _.
  apply keeps_bind; [apply keeps_gate|]. intros _. apply keeps_bind; [apply keeps_sync_dir|]. intros _.
  apply keeps_bind; [apply keeps_sync_dir|]. intros _. apply keeps_bind; [apply keeps_gate|]. intros _.
  apply keeps_bind; [apply keeps_reads; intros d; apply read_registration_reads|]. intros g. apply triple_guard; [done|]. intros _.
  apply keeps_bind; [apply keeps_of_res|]. intros x. by apply keeps_write.
Qed.

Lemma publish_pin_keeps (F : facts) v :
  visible_facts F -> (forall name, silent F (Registry, name)) -> keeps (holds F) (publish_pin env at_ v).
Proof.
  intros Hv Hs. unfold publish_pin. apply keeps_bind; [apply keeps_reads; intros d; apply owner_binding_reads|]. intros [b|]; [|apply keeps_ret].
  apply keeps_bind; [apply keeps_of_res|]. intros _.
  apply keeps_bind; [apply keeps_reads; intros d; apply release_record_reads|]. intros [r|]; [apply keeps_fail|].
  apply register_keeps; [done|apply Hs].
Qed.
End Keeps.

(** ** The contents *)

Section Contents.
Context `{HexCrate} `{Sha256} (env : environment).

(** A name of hexadecimal digits is not a temporary one. *)
Lemma hex_visible name : forallb is_ascii_hexdigit (as_bytes name) = true -> negb (starts_with "." name) = true.
Proof.
  unfold starts_with. destruct (strip_prefix "." name) as [r|] eqn:E; [|done].
  apply strip_prefix_some in E as ->. done.
Qed.

Lemma blob_path_visible digest p : blob_path digest = Ok p -> p.1 = Content /\ visible p = true.
Proof.
  unfold blob_path. intros Hp. inv_ok. subst p. split; [done|]. unfold visible. cbn [snd].
  match goal with Hx : negb _ || negb _ = false |- _ => apply orb_false_iff in Hx as [_ Hx%negb_false_iff] end.
  by eapply hex_visible.
Qed.

(** The audit changes only whether files are synced. *)
Definition same_data (d d' : disk) : Prop :=
  names d' = names d /\ saved d' = saved d /\
  forall i n, inodes d !! i = Some n -> exists s, inodes d' !! i = Some (mkInode (data n) (regular n) s) /\ (synced n = true -> s = true).

Lemma same_data_refl d : same_data d d.
Proof. split_and!; [done|done|]. intros i [b r s] Hi. by exists s. Qed.

Lemma same_data_sync d d' i : same_data d d' -> same_data d (do_sync i d').2.
Proof.
  intros (Hn & Hs & Hi). split_and!; [done|done|]. intros j n Hj. destruct (Hi j n Hj) as (s & Hj' & Hs').
  unfold do_sync. cbn [snd set_inode inodes]. destruct (decide (i = j)) as [->|Hij].
  - exists true. rewrite lookup_alter_eq, Hj'. done.
  - exists s. by rewrite lookup_alter_ne.
Qed.

Lemma blob_ok_synced digest size b r s s' : blob_ok digest size (mkInode b r s) = blob_ok digest size (mkInode b r s').
Proof. done. Qed.

(** The contents audited so far are synced. *)
Definition audited (d0 : disk) (blobs : list BlobDependency) (d : disk) : Prop :=
  same_data d0 d /\ forall b, b ∈ blobs -> exists p i x, blob_path (b_digest b) = Ok p /\ names d !! p = Some i /\
    inodes d !! i = Some (mkInode x true true) /\ blob_ok (b_digest b) (b_size b) (mkInode x true true) = true.

Lemma audited_sync d0 blobs d i : audited d0 blobs d -> audited d0 blobs (do_sync i d).2.
Proof.
  intros [Hs Hb]. split; [by apply same_data_sync|]. intros b (p & j & x & Hp & Hn & Hi & Hok)%Hb.
  exists p, j, x. split_and!; [done|done| |done]. unfold do_sync. cbn [snd set_inode inodes].
  destruct (decide (i = j)) as [->|Hij]; [by rewrite lookup_alter_eq, Hi|by rewrite lookup_alter_ne].
Qed.

Lemma audit_blob_ok d0 done b :
  triple (same_data d0) (audited d0 done) (audit_blob env tt b) (fun _ => audited d0 (done ++ [b])) (same_data d0).
Proof.
  apply triple_from. intros d [Hs Hb]. unfold audit_blob.
  eapply triple_bind; [apply reads_triple; [done|done|apply verify_blob_reads]|]. intros ok.
  apply triple_from. intros d1 [-> Hok]. apply triple_guard; [by intros ? <-|]. intros E%negb_false_iff.
  destruct (Hok E) as (p & n & Hp & Hn & Hbok). rewrite Hp.
  eapply (triple_bind _ _ _ _ (fun q d2 => q = p /\ d2 = d)).
  { apply triple_of_res; [|by intros ? <-]. intros q d2 [= <-] <-. done. }
  intros q. apply triple_from. intros d2 [-> ->]. unfold sync_file.
  eapply triple_bind; [apply reads_triple; [done|done|apply reads_sys_post, open_same]|]. intros f.
  apply triple_from. intros d3 [-> Hf]. unfold do_open in Hf. unfold lookup in Hn.
  destruct (names d !! p) as [i|] eqn:Ei; [|done]. cbn [fst mbind option_bind] in Hf, Hn. rewrite Hn in Hf.
  pose proof (blob_ok_facts _ _ _ Hbok) as (Hr & _). rewrite Hr in Hf. injection Hf as <-.
  apply triple_sys. intros d4 <-. pose proof (same_data_sync _ _ i Hs) as Hs'. split_and!; [done..|].
  intros [] _. destruct (audited_sync d0 done d i (conj Hs Hb)) as [_ Hb']. split; [done|].
  intros b' [Hin|Hin]%elem_of_app; [by apply Hb'|]. apply list_elem_of_singleton in Hin as ->.
  destruct n as [x r s]. simpl in Hr. subst r. exists p, i, x. split_and!; [done|done| |done].
  unfold do_sync. cbn [snd set_inode inodes]. by rewrite lookup_alter_eq, Hn.
Qed.

(** Facts about contents only, and what they say of a dependency and of a link. *)
Definition content_only (F : facts) : Prop := forall p v, F p v -> p.1 = Content /\ visible p = true.

Definition contents (F : facts) (blobs : list BlobDependency) : Prop :=
  forall b, b ∈ blobs -> exists p x, blob_path (b_digest b) = Ok p /\ F p (Some x) /\
    blob_ok (b_digest b) (b_size b) (mkInode x true true) = true.

Definition link_targets (F : facts) (fs : list SnapshotFile) : Prop :=
  forall f, f ∈ fs -> file_kind f = "symlink" -> exists p x, blob_path (file_digest f) = Ok p /\ F p (Some x) /\
    read_ok (file_digest f) (file_size f) (mkInode x true true) = true /\ (0 ∉ x).

Definition absent (d : disk) : Prop := durable_at d COMPLETE None.

Lemma same_data_absent d d' : absent d -> same_data d d' -> absent d'.
Proof. intros [Hn Hs] (En & Es & _). split; by rewrite ?En, ?Es. Qed.

Lemma sync_contents d (p : path) i x :
  p.1 = Content -> names d !! p = Some i -> inodes d !! i = Some (mkInode x true true) ->
  durable_at (do_sync_dir Content d).2 p (Some x).
Proof. intros Hp Hn Hi. exists i. rewrite sync_dir_saved, decide_True by done. done. Qed.

Lemma content_stage d0 blobs fs :
  absent d0 -> (forall f, f ∈ fs -> mkBlob (file_digest f) (file_size f) ∈ blobs) ->
  triple absent (audited d0 blobs) (sync_dir env Content)
    (fun _ d => exists F, (content_only F /\ contents F blobs /\ (links_ok d0 fs -> link_targets F fs)) /\
       holds (add COMPLETE None F) d) absent.
Proof.
  intros Ha Hin. apply triple_sys. intros d Hd. pose proof Hd as [Hsame Hb].
  pose proof (same_data_absent _ _ Ha Hsame) as Hda.
  assert (absent (do_sync_dir Content d).2) as Hsa.
  { destruct Hda as [E1 E2]. split; [done|]. by rewrite sync_dir_saved, decide_False. }
  split_and!; [done..|]. intros [] _. set (d1 := (do_sync_dir Content d).2) in *.
  exists (fun p v => (p.1 = Content /\ visible p = true) /\ durable_at d1 p v). split; [split_and!|].
  - intros p v [Hp _]. done.
  - intros b (p & i & x & Hp & Hn & Hi & Hok)%Hb. exists p, x. destruct (blob_path_visible _ _ Hp) as [Hc Hv].
    split_and!; eauto using sync_contents.
  - intros Hl f Hf Hk. destruct (Hl f Hf Hk) as (p & n & Hp & Hn & Hr & Hz).
    destruct (Hb _ (Hin f Hf)) as (p' & i & x & Hp' & Hn' & Hi & Hok). cbn [b_digest] in *.
    assert (p' = p) as -> by congruence. assert (n = mkInode x true (synced n)) as En.
    { destruct Hsame as (En & _ & Hinode). unfold lookup in Hn. rewrite <- En, Hn' in Hn. cbn [mbind option_bind] in Hn.
      destruct (Hinode i n Hn) as (s & E & _). rewrite Hi in E. destruct n. simpl in *. congruence. }
    rewrite En in Hr, Hz. exists p, x. destruct (blob_path_visible _ _ Hp) as [Hc Hv]. split_and!; eauto using sync_contents.
  - apply holds_add; [|done]. by intros p v [_ Hp].
Qed.
End Contents.

(** ** Reading a commit back *)

Section Verify.
Context `{HexCrate} `{Sha256} `{PageCodec} `{CodecScope} `{DescriptorCodec} `{ServingCodec} `{UuidCrate} `{Rfc3339}.
Context `{CommitCodec} (env : environment) (Hcalm : calm env).

Lemma required_returns d p b : durable_at d p (Some b) -> returns d (required_dependency env p) b.
Proof using Hcalm.
  intros Hd%durable_lookup. eapply returns_bind; [eapply (returns_step env Hcalm); unfold do_metadata; by rewrite Hd|].
  eapply returns_bind; [by apply (returns_read_some env Hcalm)|]. by apply returns_of_res.
Qed.

Lemma verify_blob_returns d digest size p x :
  blob_path digest = Ok p -> durable_at d p (Some x) -> blob_ok digest size (mkInode x true true) = true ->
  returns d (verify_blob env digest size) true.
Proof using Hcalm.
  intros Hp Hd%durable_lookup Hok. unfold blob_ok in Hok. cbn [regular data] in Hok.
  apply andb_true_iff in Hok as [[[_ Hlen]%andb_true_iff Htake]%andb_true_iff Hdig].
  apply (returns_gate env Hcalm). eapply returns_bind; [by apply returns_of_res|].
  eapply returns_bind; [eapply (returns_step env Hcalm); unfold do_metadata; by rewrite Hd|]. cbn [regular data].
  rewrite Hlen. cbn [negb orb]. eapply returns_bind.
  { eapply (returns_sys env Hcalm). unfold do_read. by rewrite Hd. }
  cbv zeta. cbn [data]. rewrite Htake, Hdig. apply returns_ret.
Qed.

Lemma verify_blobs_returns F d message blobs :
  holds F d -> contents F blobs -> returns d (verify_blobs env message blobs) tt.
Proof using Hcalm.
  intros HF Hc. destruct (returns_fold d (fun (_ : unit) b =>
      let* ok := verify_blob env (b_digest b) (b_size b) in
      guard* negb ok with integrity_err (message ++ b_digest b) in ret tt) (fun _ _ => True) blobs) with (a := tt)
    as ([] & Hr & _); [|done|exact Hr].
  intros done0 [] b rest -> _. exists tt. split; [|done]. destruct (Hc b) as (p & x & Hp & Hx & Hok); [set_solver|].
  eapply returns_bind; [by eapply verify_blob_returns; eauto|]. by apply returns_ret.
Qed.

Lemma read_blob_returns d digest size p x :
  blob_path digest = Ok p -> durable_at d p (Some x) -> read_ok digest size (mkInode x true true) = true ->
  returns d (read_blob env digest size) x.
Proof using Hcalm.
  intros Hp Hd Hok. pose proof (durable_lookup _ _ _ Hd) as Hl. unfold read_ok in Hok. cbn [regular data] in Hok.
  apply andb_true_iff in Hok as [[[[Hsize _]%andb_true_iff Hlen]%andb_true_iff Htake%negb_true_iff]%andb_true_iff Hdig%negb_true_iff].
  destruct (buffered_size size) as [n|] eqn:Hb; [|done]. unfold read_blob. rewrite Hb, Hp.
  eapply returns_bind; [by apply returns_of_res|]. apply (returns_gate env Hcalm).
  eapply returns_bind; [by apply returns_of_res|]. destruct Hd as (i & Hn & _ & Hi).
  eapply returns_bind; [eapply (returns_step env Hcalm); unfold do_open; by rewrite Hn, Hi|].
  eapply returns_bind; [by apply returns_of_res|].
  eapply returns_bind; [eapply (returns_step env Hcalm); unfold do_metadata; by rewrite Hl|].
  eapply returns_bind; [by apply returns_of_res|]. cbn [data regular]. rewrite Hlen. cbn [negb orb].
  eapply returns_bind; [eapply (returns_sys env Hcalm); unfold do_read; by rewrite Hl|]. cbn [data].
  apply returns_guard; [done|]. apply returns_guard; [exact Hdig|]. apply returns_ret.
Qed.

Lemma links_returns F d c :
  holds F d -> link_targets F (vc_files c) -> returns d (verify_snapshot_links env c) tt.
Proof using Hcalm.
  intros HF Hc. destruct (returns_fold d (fun (_ : unit) f =>
      let* b := read_blob env (file_digest f) (file_size f) in
      guard* bool_decide (0 ∈ b) with integrity_err "symlink target contains NUL" in ret tt) (fun _ _ => True)
      (filter (fun f => file_kind f = "symlink") (vc_files c))) with (a := tt) as ([] & Hr & _); [|done|exact Hr].
  intros done0 [] f rest Hf _. exists tt. split; [|done].
  assert (f ∈ filter (fun f => file_kind f = "symlink") (vc_files c)) as [Hk Hin]%list_elem_of_filter by (rewrite Hf; set_solver).
  destruct (Hc f Hin Hk) as (p & x & Hp & Hx & Hok & Hz).
  eapply returns_bind; [by eapply read_blob_returns; eauto|]. apply returns_guard; [by apply bool_decide_eq_false|].
  apply returns_ret.
Qed.

(** The grant of a commit, or its durable absence. *)
Definition GRANT : path := (Root, OFFLINE_GRANT_FILE).
Definition granted (F : facts) (digest id : string) : Prop :=
  digest = "" /\ F GRANT None \/
  exists b g, digest = digest_of b /\ F GRANT (Some b) /\ encode_record g = Ok b /\ Resolve.validate_for g id None = Ok tt.

Lemma grant_returns F d digest id : holds F d -> granted F digest id -> returns d (verify_offline_grant env digest id) tt.
Proof using Hcalm.
  intros HF [[-> Hg]|(b & g & -> & Hg & He & Hv)]; unfold verify_offline_grant.
  - eapply returns_bind; [apply (returns_read_none env Hcalm), durable_absent, HF, Hg|]. apply returns_ret.
  - eapply returns_bind; [apply (returns_read_some env Hcalm), durable_lookup, HF, Hg|].
    apply returns_guard; [by rewrite ne_refl|]. eapply returns_bind; [by apply returns_of_res, encode_decode|].
    by apply returns_of_res.
Qed.

Lemma revision_of_marker (m : CompleteMarker) b : encode_record m = Ok b -> completion_revision b = Ok (m_revision m).
Proof. intros Hb%map_err_ok. unfold completion_revision. by rewrite (header_marker _ _ Hb). Qed.

Lemma revision_of_snapshot_marker (m : SnapshotCompleteMarker) b :
  encode_record m = Ok b -> completion_revision b = Ok (sm_revision m).
Proof. intros Hb%map_err_ok. unfold completion_revision. by rewrite (header_snapshot_marker _ _ Hb). Qed.

Ltac returns_dependency := eapply returns_bind; [by apply required_returns; eauto|].
Ltac returns_decode := eapply returns_bind; [by apply returns_of_res, encode_decode|].

Lemma file_commit_returns F d view files blobs total gd id t1 t2 vb mb pb kb :
  holds F d -> contents F blobs -> granted F gd (v_snapshot_id view) -> is_empty id = false ->
  validate_view_policy view false = Ok tt -> validate_manifest_policy files false = Ok (blobs, total) ->
  encode_record view = Ok vb -> F (Root, VIEW_FILE) (Some vb) ->
  encode_record files = Ok mb -> F (Root, MANIFEST_FILE) (Some mb) ->
  encode_record (mkPin VERIFICATION_REVISION id (v_snapshot_id view) (v_namespace_view_id view) (v_scope view)
    (v_lease_id view) (digest_of vb) (digest_of mb) blobs gd t1) = Ok pb -> F (Root, PIN_FILE) (Some pb) ->
  encode_record (mkMarker VERIFICATION_REVISION FileClosure (v_snapshot_id view) (v_namespace_view_id view)
    (digest_of vb) (digest_of mb) (digest_of pb) gd (zlen files) total t2) = Ok kb ->
  returns d (verify_commit env kb) files.
Proof using Hcalm.
  intros HF Hc Hg Hid Hview Hman Ev Fv Em Fm Ep Fp Ek. unfold verify_commit, verify_file_commit.
  eapply returns_bind; [by apply returns_of_res, revision_of_marker|]. cbn [m_revision]. change (VERIFICATION_REVISION =? SNAPSHOT_VERIFICATION_REVISION) with false. cbn iota.
  returns_decode. cbn [m_revision m_kind]. rewrite bool_decide_true by done. apply returns_guard; [done|].
  do 3 returns_dependency. cbn [m_view_digest m_manifest_digest m_pin_digest]. rewrite !ne_refl.
  apply returns_guard; [done|]. returns_decode. eapply returns_bind; [by apply returns_of_res|]. do 2 returns_decode.
  eapply returns_bind; [by eapply grant_returns; eauto|]. eapply returns_bind; [by apply returns_of_res|].
  apply returns_guard.
  { unfold file_mismatch. cbn -[ne is_empty Z.eqb zlen bool_decide]. rewrite !ne_refl, !Z.eqb_refl, Hid, bool_decide_true by done. done. }
  eapply returns_bind; [by eapply verify_blobs_returns; eauto|]. apply returns_ret.
Qed.

(** *** The pages *)

Definition page_facts (pages : list (string * bytes)) (F : facts) : facts := fun p v =>
  (exists id b, (id, b) ∈ pages /\ metadata_page_path id = Ok p /\ v = Some b) \/ F p v.

(** The pages are read back in their order. *)
Lemma pages_returns F d pages :
  holds F d -> Btree.ordered pages -> (forall id b, (id, b) ∈ pages -> exists p, metadata_page_path id = Ok p /\ F p (Some b)) ->
  returns d (fold_m (read_page env) [] ((fun p => mkPage p.1 (zlen p.2)) <$> pages)) pages.
Proof using Hcalm.
  intros HF Hord Hp. destruct (returns_fold d (read_page env) (fun done ps => ps = take (length done) pages)
    ((fun p => mkPage p.1 (zlen p.2)) <$> pages)) with (a := @nil (string * bytes)) as (ps & Hr & ->); [|done|].
  2:{ by rewrite length_fmap, take_ge in Hr by lia. }
  intros done0 ps dep rest Hd ->. assert (pages !! length done0 = Some (p_page_id dep, (default (p_page_id dep, []) (pages !! length done0)).2) /\
    p_size dep = zlen (default (p_page_id dep, []) (pages !! length done0)).2) as [Hl Hsz].
  { assert (((fun p => mkPage p.1 (zlen p.2)) <$> pages) !! length done0 = Some dep) as E by (by rewrite Hd, list_lookup_middle).
    rewrite list_lookup_fmap in E. destruct (pages !! length done0) as [[k b]|]; [|done]. simpl in *. by simplify_eq/=. }
  set (b := (default (p_page_id dep, []) (pages !! length done0)).2) in *.
  destruct (Hp (p_page_id dep) b) as (p & Hpath & HFp); [by eapply list_elem_of_lookup_2|].
  exists (take (length done0) pages ++ [(p_page_id dep, b)]). rewrite length_app. cbn [length]. rewrite Nat.add_1_r, <- (take_S_r _ _ _ Hl).
  split; [|done]. unfold read_page. eapply returns_bind; [by apply returns_of_res|].
  eapply returns_bind; [by apply required_returns; eauto|]. rewrite Btree.put_last, <- (take_S_r _ _ _ Hl).
  - rewrite Hsz, Z.eqb_refl, bool_decide_false by (by intros [? ?]). apply returns_ret.
  - rewrite <- (take_S_r _ _ _ Hl). unfold Btree.ordered in *. rewrite <- (take_drop (S (length done0)) pages), fmap_app in Hord.
    by eapply StronglySorted_app_1_l.
Qed.

Lemma snapshot_commit_returns F d view c blobs total gd id t1 t2 vb mb pb ib kb :
  let files := vc_files c in let desc := vc_descriptor_bytes c in let deps := page_dependencies c in
  holds F d -> contents F blobs -> link_targets F files -> granted F gd (v_snapshot_id view) -> is_empty id = false ->
  from_canonical_pages desc (vc_pages c) = Ok c -> Btree.ordered (vc_pages c) ->
  (forall id b, (id, b) ∈ vc_pages c -> exists p, metadata_page_path id = Ok p /\ F p (Some b)) ->
  validate_view_policy view true = Ok tt -> validate_manifest_policy files true = Ok (blobs, total) ->
  validate_snapshot_view view c = Ok tt -> F (Root, DESCRIPTOR_FILE) (Some desc) ->
  encode_record (mkIndex SNAPSHOT_VERIFICATION_REVISION deps (vc_directories c)) = Ok ib ->
  F (Root, METADATA_INDEX_FILE) (Some ib) ->
  encode_record view = Ok vb -> F (Root, VIEW_FILE) (Some vb) ->
  encode_record files = Ok mb -> F (Root, MANIFEST_FILE) (Some mb) ->
  encode_record (mkSnapshotPin SNAPSHOT_VERIFICATION_REVISION id (v_snapshot_id view) (v_namespace_view_id view) (v_scope view)
    (v_lease_id view) (digest_of vb) (digest_of mb) (digest_of desc) (digest_of ib) deps blobs gd t1) = Ok pb ->
  F (Root, PIN_FILE) (Some pb) ->
  encode_record (mkSnapshotMarker SNAPSHOT_VERIFICATION_REVISION FullSnapshot (v_snapshot_id view) (v_namespace_view_id view)
    (digest_of vb) (digest_of mb) (digest_of desc) (digest_of ib) (digest_of pb) gd (zlen files) (zlen (vc_directories c))
    (zlen deps) total t2) = Ok kb ->
  returns d (verify_commit env kb) files.
Proof using Hcalm.
  cbv zeta. intros HF Hc Hl Hg Hid Hclo Hord Hpages Hview Hman Hsv Fd Ei Fi Ev Fv Em Fm Ep Fp Ek.
  unfold verify_commit, verify_snapshot_commit.
  eapply returns_bind; [by apply returns_of_res, revision_of_snapshot_marker|]. cbn [sm_revision]. rewrite Z.eqb_refl.
  eapply returns_bind; [|apply returns_ret]. returns_decode. cbn [sm_revision sm_kind]. rewrite bool_decide_true by done. apply returns_guard; [done|].
  do 5 returns_dependency. apply returns_guard.
  { cbn -[ne]. by rewrite !ne_refl. }
  returns_decode. eapply returns_bind; [by apply returns_of_res|]. returns_decode. eapply returns_bind; [by apply returns_of_res|].
  do 2 returns_decode. eapply returns_bind; [by eapply grant_returns; eauto|]. apply returns_guard.
  { unfold snapshot_mismatch. cbn -[ne is_empty Z.eqb zlen bool_decide]. by rewrite !ne_refl, !Z.eqb_refl, Hid, !bool_decide_true. }
  eapply returns_bind; [by eapply pages_returns; eauto|]. eapply returns_bind; [by apply returns_on_error, returns_of_run|].
  eapply returns_bind; [apply returns_of_res; by rewrite Hsv|]. rewrite !bool_decide_true by done. apply returns_guard; [done|].
  eapply returns_bind; [by eapply verify_blobs_returns; eauto|]. eapply returns_bind; [by eapply links_returns; eauto|].
  apply returns_ret.
Qed.
End Verify.

(** ** The commit *)

Section Pending.
Context `{HexCrate} `{Sha256} `{PageCodec} `{CodecScope} `{DescriptorCodec} `{ServingCodec} `{UuidCrate} `{Rfc3339}.
Context `{CommitCodec} `{PinCodec} `{RecordCodec} (env : environment) (at_ : Location).

(** The facts [G] hold and there is durably no completion record. *)
Definition pending (G : facts) (d : disk) : Prop := holds (add COMPLETE None G) d.

Lemma pending_absent G d : pending G d -> absent d.
Proof. intros Hp. apply Hp. by left. Qed.

Lemma pending_holds G d : pending G d -> holds G d.
Proof. intros Hp p v Hv. apply Hp. by right. Qed.

Lemma pending_write (G : facts) D name b :
  visible_facts G -> silent G (D, name) -> (D, name) <> COMPLETE ->
  triple (pending G) (pending G) (write_atomic env D name b) (fun _ => pending (add (D, name) (Some b) G)) (pending G).
Proof.
  intros Hv Hs Hne. eapply triple_weaken; [apply (write_adds env (add COMPLETE None G))|auto|auto| |auto].
  - by apply visible_add.
  - by apply silent_add.
  - intros [] d. apply holds_weaken. intros p v [?|[?|?]]; [right; by left|by left|right; by right].
Qed.

(** Names a commit has facts about before its pin. *)
Definition early (p : path) : bool :=
  visible p && (bool_decide (p.1 = Content) || bool_decide (p.1 = Metadata)
                || bool_decide (p ∈ [(Root, MANIFEST_FILE); (Root, VIEW_FILE); (Root, DESCRIPTOR_FILE); (Root, METADATA_INDEX_FILE)])).
Definition all_early (G : facts) : Prop := forall p v, G p v -> early p = true.

Lemma early_visible G : all_early G -> visible_facts G.
Proof. intros HG p v Hp%HG. by apply andb_true_iff in Hp as [? _]. Qed.

Lemma early_silent G p : all_early G -> early p = false -> silent G p.
Proof. intros HG Hp v Hv%HG. congruence. Qed.

Lemma early_add G p v : early p = true -> all_early G -> all_early (add p v G).
Proof. intros Hp HG q w [[-> _]|Hq]; eauto. Qed.

Lemma content_early F : content_only F -> all_early F.
Proof. intros HF p v [Hd Hv]%HF. unfold early. by rewrite Hv, Hd. Qed.

Lemma early_registry name : early (Registry, name) = false.
Proof. unfold early. by rewrite andb_false_r. Qed.

(** *** The metadata of a snapshot *)

Lemma page_path_facts id p :
  metadata_page_path id = Ok p -> exists x, parse_digest id = Ok x /\ p = (Metadata, hex32 x) /\ Forall is_byte x.
Proof.
  unfold metadata_page_path. intros Hp. apply rbind_ok in Hp as (x & Hx%map_err_ok & [= <-]). exists x.
  split_and!; [done|by rewrite hex_encode_lower|]. by apply parse_digest_ok in Hx as (_ & _ & ?).
Qed.

Lemma page_path_inj a b p : metadata_page_path a = Ok p -> metadata_page_path b = Ok p -> a = b.
Proof.
  intros (x & Hx & -> & Bx)%page_path_facts (y & Hy & E & By)%page_path_facts. injection E as E.
  apply hex32_inj in E as <-; [|done..]. by eapply parse_digest_inj.
Qed.

Lemma page_path_early id p : metadata_page_path id = Ok p -> early p = true.
Proof.
  intros (x & _ & -> & Bx)%page_path_facts. unfold early, visible. cbn [fst snd].
  rewrite hex_visible; [done|]. rewrite as_bytes_hex32 by done. apply forallb_Forall.
  eapply Forall_impl; [|by apply hex_bytes_lower]. intros z Hz. unfold is_ascii_hexdigit, is_lower_hex in *. cbv beta in Hz.
  apply orb_true_iff in Hz as [->| ->]; by rewrite ?orb_true_r.
Qed.

Lemma page_facts_early pages G : all_early G -> all_early (page_facts pages G).
Proof. intros HG p v [(id & b & _ & Hp & _)|Hp]; eauto using page_path_early. Qed.

Lemma page_facts_silent pages G D name :
  D <> Metadata -> silent G (D, name) -> silent (page_facts pages G) (D, name).
Proof.
  intros HD HG v [(id & b & _ & (x & _ & [= ? _] & _)%page_path_facts & _)|Hv]; [done|]. by apply (HG v).
Qed.

Lemma persist_pages_ok (G : facts) pages :
  all_early G -> (forall name, silent G (Metadata, name)) -> NoDup pages.*1 ->
  triple (pending G) (pending G) (fold_m (persist_page env) tt pages)
    (fun _ d => (forall id b, (id, b) ∈ pages -> exists p, metadata_page_path id = Ok p) /\ pending (page_facts pages G) d)
    (pending G).
Proof.
  intros HG Hm Hnd.
  assert (Hsub : forall ps d, pending (page_facts ps G) d -> pending G d).
  { intros ps d. apply holds_weaken. intros p v [?|?]; [by left|right; by right]. }
  eapply triple_weaken; [apply (triple_fold (pending G) (persist_page env)
    (fun ps _ d => (forall id b, (id, b) ∈ ps -> exists p, metadata_page_path id = Ok p) /\ pending (page_facts ps G) d)
    (pending G) pages)|auto| |auto|auto].
  2:{ intros d Hd. split; [set_solver|]. eapply holds_weaken; [|exact Hd].
      intros p v [?|[(? & ? & Hin & _)|?]]; [by left|set_solver|by right]. }
  intros ps [] [id b] rest Hps. apply triple_pure. intros Hold. unfold persist_page. cbn [fst snd].
  destruct (metadata_page_path id) as [p|e] eqn:Hp.
  2:{ eapply (triple_bind _ _ _ _ (fun _ _ => False)); [apply triple_of_res; [done|apply Hsub]|by intros ? ? []]. }
  eapply (triple_bind _ _ _ _ (fun q d => q = p /\ pending (page_facts ps G) d)).
  { apply triple_of_res; [|apply Hsub]. by intros q d [= <-]. }
  intros q. apply triple_pure. intros ->. destruct (page_path_facts _ _ Hp) as (x & _ & Epath & _).
  assert (p = (Metadata, p.2)) as Ep by (by rewrite Epath).
  assert (silent (page_facts ps G) p) as Hsil.
  { intros v [(id' & b' & Hin & Hp' & _)|Hv]; [|rewrite Ep in Hv; by apply (Hm p.2 v)].
    assert (id' = id) as -> by (by eapply page_path_inj). rewrite Hps, fmap_app in Hnd. cbn in Hnd.
    apply list.NoDup_app in Hnd as (_ & Hnd & _). apply (Hnd id); [|left]. by apply (list_elem_of_fmap_2 fst) in Hin. }
  eapply triple_weaken; [apply (pending_write (page_facts ps G) Metadata p.2 b)| | | |].
  - by apply early_visible, page_facts_early.
  - by rewrite <- Ep.
  - done.
  - apply Hsub.
  - auto.
  - intros [] d Hd. split.
    + intros id' b' [Hin|Hin]%elem_of_app; [by eapply Hold|]. apply list_elem_of_singleton in Hin as [= -> ->]. by exists p.
    + eapply holds_weaken; [|exact Hd]. intros q v [?|[(id' & b' & Hin & Hp' & ->)|Hv]]; [by left| |right; right; by right].
      apply elem_of_app in Hin as [Hin|Hin]; [right; right; left; eauto 10|]. apply list_elem_of_singleton in Hin as [= -> ->].
      right. left. rewrite <- Ep. split; [congruence|done].
  - apply Hsub.
Qed.

(** What is known of the metadata once it is stored. *)
Definition persisted (closure : option ValidatedSnapshotClosure) (metadata : option MetadataCommit) (G G' : facts) : Prop :=
  match closure with
  | None => metadata = None /\ G' = G
  | Some c => exists b, encode_record (mkIndex SNAPSHOT_VERIFICATION_REVISION (page_dependencies c) (vc_directories c)) = Ok b /\
      metadata = Some (mkMetadataCommit (digest_of (vc_descriptor_bytes c)) (digest_of b) (page_dependencies c)) /\
      (forall id x, (id, x) ∈ vc_pages c -> exists p, metadata_page_path id = Ok p) /\
      G' = add (Root, METADATA_INDEX_FILE) (Some b)
             (add (Root, DESCRIPTOR_FILE) (Some (vc_descriptor_bytes c)) (page_facts (vc_pages c) G))
  end.

Lemma persisted_early closure metadata G G' : persisted closure metadata G G' -> all_early G -> all_early G'.
Proof.
  destruct closure as [c|]; [|by intros [_ ->]]. intros (b & _ & _ & _ & ->) HG.
  by apply early_add, early_add, page_facts_early.
Qed.

Lemma persisted_sub closure metadata (G G' : facts) p v : persisted closure metadata G G' -> G p v -> G' p v.
Proof.
  destruct closure as [c|]; [|by intros [_ ->]]. intros (b & _ & _ & _ & ->) HG. do 3 right. done.
Qed.

Lemma metadata_ok (G : facts) closure :
  all_early G -> (forall name, silent G (Metadata, name)) ->
  silent G (Root, DESCRIPTOR_FILE) -> silent G (Root, METADATA_INDEX_FILE) ->
  (forall c, closure = Some c -> NoDup (vc_pages c).*1) ->
  triple absent (pending G)
    match closure with Some c => let* m := persist_snapshot_metadata env c in ret (Some m) | None => ret None end
    (fun metadata d => exists G', persisted closure metadata G G' /\ pending G' d) absent.
Proof.
  intros HG Hm Hdesc Hind Hnd. destruct closure as [c|]; [|apply triple_ret; intros d Hd; by exists G].
  pose proof (page_facts_early (vc_pages c) G HG) as HP.
  eapply (triple_bind _ _ _ _ (fun m d => exists G', persisted (Some c) (Some m) G G' /\ pending G' d));
    [|intros m; by apply triple_ret]. unfold persist_snapshot_metadata.
  eapply triple_bind; [eapply triple_stage; [apply (persist_pages_ok G (vc_pages c)); eauto|apply pending_absent..]|].
  intros []. apply triple_pure. intros Hpaths. eapply (triple_bind _ _ _ _ (fun _ => pending (page_facts (vc_pages c) G))).
  { eapply triple_stage; [apply keeps_sync_dir|apply pending_absent..]. }
  intros []. eapply triple_bind.
  { eapply triple_stage; [apply pending_write|apply pending_absent..]; [by apply early_visible|by apply page_facts_silent|done]. }
  intros []. set (G1 := add (Root, DESCRIPTOR_FILE) (Some (vc_descriptor_bytes c)) (page_facts (vc_pages c) G)).
  assert (all_early G1) as HG1 by (by apply early_add).
  destruct (encode_record (mkIndex _ _ _)) as [b|e] eqn:Eb.
  2:{ eapply (triple_bind _ _ _ _ (fun _ _ => False)); [apply triple_of_res; [done|apply pending_absent]|by intros ? ? []]. }
  eapply (triple_bind _ _ _ _ (fun x d => x = b /\ pending G1 d)).
  { apply triple_of_res; [|apply pending_absent]. by intros x d [= <-]. }
  intros x. apply triple_pure. intros ->. eapply triple_bind.
  { eapply triple_stage; [apply (pending_write G1)|apply pending_absent..]; [by apply early_visible| |done].
    apply silent_add; [done|]. by apply page_facts_silent. }
  intros []. apply triple_ret. intros d Hd. eexists. split; [|exact Hd]. exists b. done.
Qed.

(** *** The grant and the pin *)

Definition grant_value (v : option bytes) (digest id : string) : Prop :=
  match v with
  | None => digest = ""
  | Some b => exists g, digest = digest_of b /\ encode_record g = Ok b /\ Resolve.validate_for g id None = Ok tt
  end.

Lemma grant_value_granted (F : facts) v digest id : grant_value v digest id -> F GRANT v -> granted F digest id.
Proof. destruct v as [b|]; [intros (g & ? & ? & ?); right; eauto 10|by left]. Qed.

(** The grant is written, or gone though perhaps not durably. *)
Definition grant_stored (G : facts) (v : option bytes) (d : disk) : Prop :=
  match v with
  | Some b => pending (add GRANT (Some b) G) d
  | None => pending G d /\ names d !! GRANT = None
  end.

Lemma grant_ok (G : facts) view grant :
  all_early G ->
  triple absent (pending G) (commit_grant env view grant)
    (fun digest d => exists v, grant_value v digest (v_snapshot_id view) /\ grant_stored G v d) absent.
Proof.
  intros HG. assert (silent G GRANT) as Hs by (by apply early_silent). destruct grant as [g|]; simpl.
  - destruct (Resolve.validate_for g (v_snapshot_id view) None) as [[]|] eqn:Hv.
    2:{ eapply (triple_bind _ _ _ _ (fun _ _ => False)); [apply triple_of_res; [done|apply pending_absent]|by intros ? ? []]. }
    eapply (triple_bind _ _ _ _ (fun _ => pending G)); [apply triple_of_res; [auto|apply pending_absent]|]. intros _.
    eapply (triple_bind _ _ _ _ (fun b d => encode_record g = Ok b /\ pending G d)); [apply triple_of_res; [auto|apply pending_absent]|].
    intros b. apply triple_pure. intros Hb.
    eapply triple_bind; [eapply triple_stage; [apply pending_write|apply pending_absent..]; [by apply early_visible|done|done]|].
    intros []. apply triple_ret. intros d Hd. exists (Some b). split; [by exists g|done].
  - eapply (triple_bind _ _ _ _ (fun _ d => pending G d /\ names d !! GRANT = None)).
    + apply triple_from. intros d Hd.
      assert (forall d', removing Root OFFLINE_GRANT_FILE d d' -> pending G d') as Hr.
      { intros d' Hr. eapply holds_removing; [|exact Hd|exact Hr]. by apply silent_add. }
      eapply triple_weaken; [apply (remove_spec env io_err Root OFFLINE_GRANT_FILE d)| |done| |];
        eauto using pending_absent. intros [] d' [? ?]. auto.
    + intros []. apply triple_ret. intros d [Hd Hn]. by exists None.
Qed.

Lemma pin_ok (G : facts) v b :
  all_early G ->
  triple absent (grant_stored G v) (write_atomic env Root PIN_FILE b)
    (fun _ => pending (add (Root, PIN_FILE) (Some b) (add GRANT v G))) absent.
Proof.
  intros HG. assert (silent G (Root, PIN_FILE)) as Hs by (by apply early_silent). destruct v as [g|]; simpl.
  - eapply triple_stage; [apply pending_write|apply pending_absent..].
    + by apply visible_add, early_visible.
    + by apply silent_add.
    + done.
  - apply triple_from. intros d [Hd Hn].
    assert (forall d', writing_any Root PIN_FILE b d d' -> pending G d') as Hw.
    { intros d' Hw. eapply holds_writing; [| |exact Hd|exact Hw]; [by apply visible_add, early_visible|by apply silent_add]. }
    eapply triple_weaken; [apply (write_atomic_spec env Root PIN_FILE b d)| |done| |];
      eauto using pending_absent. intros [] d' Hw'.
    pose proof (written_absent _ _ _ _ _ OFFLINE_GRANT_FILE Hw' ltac:(done) Hn) as Hg.
    pose proof (holds_written _ _ _ _ _ _ (silent_add _ COMPLETE (Root, PIN_FILE) None ltac:(done) Hs) Hd Hw') as Hh.
    eapply holds_weaken; [|exact (holds_add _ _ _ _ Hh Hg)].
    intros p w [?|[?|[?|?]]]; [right; right; by left|right; by left|by left|right; right; by right].
Qed.

(** *** The completion record *)

(** On any disk with these facts the record verifies and names these files. *)
Definition verifies (F : facts) (files : list SnapshotFile) (b : bytes) : Prop :=
  forall env d, calm env -> holds F d -> returns d (verify_commit env b) files.

(** There is durably no record, or whatever record a crash leaves verifies. *)
Definition safe (files : list SnapshotFile) (d : disk) : Prop :=
  absent d \/ exists F b, holds F d /\ verifies F files b /\ whole_at COMPLETE b d.

Definition committed (files : list SnapshotFile) (d : disk) : Prop :=
  exists F b, holds F d /\ verifies F files b /\ durable_at d COMPLETE (Some b).

Lemma pending_safe files G d : pending G d -> safe files d.
Proof. intros Hp. left. by eapply pending_absent. Qed.

Lemma publish_marker_ok (F : facts) files b :
  visible_facts F -> silent F COMPLETE -> verifies F files b ->
  triple (safe files) (pending F) (publish_marker env b) (fun _ => committed files) (safe files).
Proof.
  intros Hv Hs Hb. unfold publish_marker.
  assert (Hwhole : forall d, holds F d /\ whole_at COMPLETE b d -> safe files d) by (intros d [? ?]; right; eauto).
  eapply (triple_bind _ _ _ _ (fun r d => match r with Ok _ => committed files d | Err _ => holds F d /\ whole_at COMPLETE b d end)).
  - apply triple_from. intros d Hd. pose proof (pending_absent _ _ Hd) as Ha. pose proof (pending_holds _ _ Hd) as Hh.
    assert (Hw : forall d', writing_any Root COMPLETE_MARKER b d d' -> holds F d' /\ whole_at COMPLETE b d').
    { intros d' Hw. split; [by eapply holds_writing|]. by eapply writing_whole. }
    eapply triple_weaken; [apply triple_attempt, (write_atomic_spec env Root COMPLETE_MARKER b d)|auto|done| |by intros ? []].
    intros [[]|e] d' Hd'; [|by apply Hw]. pose proof (holds_written _ _ _ _ _ _ Hs Hh Hd') as HF.
    exists F, b. split_and!; [|done|apply HF; by left]. intros p v Hp. apply HF. by right.
  - intros [[]|e]; [by apply triple_ret|]. eapply (triple_bind _ _ _ _ (fun _ => safe files)).
    + apply triple_from. intros d [Hh Hw].
      assert (Hr : forall d', removing Root COMPLETE_MARKER d d' -> safe files d').
      { intros d' Hr. apply Hwhole. split; [by eapply holds_removing|by eapply removing_whole]. }
      eapply triple_weaken; [apply (remove_spec env io_err Root COMPLETE_MARKER d)|auto|done| |auto].
      intros [] d' [? _]. auto.
    + intros []. apply triple_on_error. by apply triple_of_run.
Qed.

(** *** The whole commit *)

Definition audit_facts (view : ViewMeta) (files : list SnapshotFile) (closure : option ValidatedSnapshotClosure)
    (blobs : list BlobDependency) (total : Z) (F : facts) : Prop :=
  content_only F /\ contents F blobs /\
  validate_manifest_policy files (bool_decide (is_Some closure)) = Ok (blobs, total) /\
  forall c, closure = Some c -> validate_snapshot_view view c = Ok tt /\ link_targets F files.

Lemma audit_ok view files closure :
  (forall c, closure = Some c -> vc_files c = files) ->
  triple absent absent (audit_dependencies env view files closure)
    (fun r d => exists F, audit_facts view files closure r.1 r.2 F /\ pending F d) absent.
Proof.
  intros Hfiles. apply triple_from. intros d0 Ha. unfold audit_dependencies.
  eapply (triple_bind _ _ _ _ (fun r d => d = d0 /\ validate_manifest_policy files (bool_decide (is_Some closure)) = Ok r)).
  { apply triple_on_error, triple_of_res; [|by intros ? <-]. by intros r d Hr <-. }
  intros [blobs total]. apply triple_from. intros d [-> Hman]. pose proof (manifest_checked _ _ _ _ Hman) as [_ Hin].
  eapply (triple_bind _ _ _ _ (fun _ d => d = d0 /\ forall c, closure = Some c ->
    validate_snapshot_view view c = Ok tt /\ links_ok d0 files)).
  { destruct closure as [c|]; [|by apply triple_ret; intros d <-]. apply reads_triple; [done|done|].
    eapply reads_bind; [apply reads_on_error, reads_res_post|]. intros [] Hsv. apply reads_on_error.
    eapply reads_weaken; [apply links_reads|]. intros [] Hl c' [= <-]. by rewrite <- (Hfiles c). }
  intros []. apply triple_from. intros d [-> Hclo]. eapply (triple_bind _ _ _ _ (fun _ => audited d0 blobs)).
  { apply triple_on_error. eapply triple_weaken; [apply (triple_fold _ _ (fun done _ => audited d0 done) (same_data d0))| | | |].
    - intros done0 [] b rest _. apply audit_blob_ok.
    - intros d. by apply same_data_absent.
    - intros d <-. split; [apply same_data_refl|set_solver].
    - done.
    - intros d. by apply same_data_absent. }
  intros []. eapply triple_bind; [apply triple_on_error, content_stage; [exact Ha|exact Hin]|].
  intros []. apply triple_ret. intros d (F & (Hc & Hcs & Hl) & Hp). exists F. split; [|done]. split_and!; [done|done|done|].
  intros c Hc'. destruct (Hclo c Hc') as [? ?]. auto.
Qed.

(** A closure a caller may commit. *)
Definition closure_valid (files : list SnapshotFile) (c : ValidatedSnapshotClosure) : Prop :=
  vc_files c = files /\ Btree.ordered (vc_pages c) /\ from_canonical_pages (vc_descriptor_bytes c) (vc_pages c) = Ok c.

(** The facts the completion record speaks of. *)
Definition record_facts (pb : bytes) (v : option bytes) (G' : facts) : facts :=
  add (Root, PIN_FILE) (Some pb) (add GRANT v G').

Lemma record_verifies view files closure blobs total F G' metadata gd v id t1 t2 vb mb pb kb :
  audit_facts view files closure blobs total F -> (forall c, closure = Some c -> closure_valid files c) ->
  validate_view_policy view (bool_decide (is_Some closure)) = Ok tt -> is_empty id = false ->
  encode_record view = Ok vb -> encode_record files = Ok mb ->
  persisted closure metadata (add (Root, VIEW_FILE) (Some vb) (add (Root, MANIFEST_FILE) (Some mb) F)) G' ->
  grant_value v gd (v_snapshot_id view) ->
  match metadata with
  | Some mc => encode_record (mkSnapshotPin SNAPSHOT_VERIFICATION_REVISION id (v_snapshot_id view) (v_namespace_view_id view)
      (v_scope view) (v_lease_id view) (digest_of vb) (digest_of mb) (mc_descriptor_digest mc) (mc_index_digest mc)
      (mc_pages mc) blobs gd t1)
  | None => encode_record (mkPin VERIFICATION_REVISION id (v_snapshot_id view) (v_namespace_view_id view) (v_scope view)
      (v_lease_id view) (digest_of vb) (digest_of mb) blobs gd t1)
  end = Ok pb ->
  match metadata with
  | Some mc =>
      let? c := ok_or closure (integrity_err "snapshot closure missing") in
      encode_record (mkSnapshotMarker SNAPSHOT_VERIFICATION_REVISION FullSnapshot (v_snapshot_id view)
        (v_namespace_view_id view) (digest_of vb) (digest_of mb) (mc_descriptor_digest mc) (mc_index_digest mc) (digest_of pb)
        gd (zlen files) (zlen (vc_directories c)) (zlen (mc_pages mc)) total t2)
  | None => encode_record (mkMarker VERIFICATION_REVISION FileClosure (v_snapshot_id view) (v_namespace_view_id view)
        (digest_of vb) (digest_of mb) (digest_of pb) gd (zlen files) total t2)
  end = Ok kb ->
  verifies (record_facts pb v G') files kb.
Proof.
  intros (Hco & Hcs & Hman & Hclo) Hval Hview Hid Ev Em Hper Hg Ep Ek env' d Hcalm HF.
  assert (Hsub : forall p w, F p w -> record_facts pb v G' p w).
  { intros p w Hp. do 2 right. eapply persisted_sub; [exact Hper|]. do 2 right. done. }
  assert (contents (record_facts pb v G') blobs) as Hcs'.
  { intros b (p & x & ? & ? & ?)%Hcs. exists p, x. auto. }
  assert (granted (record_facts pb v G') gd (v_snapshot_id view)) as Hg'.
  { eapply grant_value_granted; [exact Hg|]. right. by left. }
  assert (record_facts pb v G' (Root, VIEW_FILE) (Some vb)) as Fv.
  { do 2 right. eapply persisted_sub; [exact Hper|]. by left. }
  assert (record_facts pb v G' (Root, MANIFEST_FILE) (Some mb)) as Fm.
  { do 2 right. eapply persisted_sub; [exact Hper|]. right. by left. }
  assert (record_facts pb v G' (Root, PIN_FILE) (Some pb)) as Fp by (by left).
  destruct closure as [c|].
  - destruct Hper as (ib & Ei & -> & Hpaths & ->). destruct (Hclo c eq_refl) as [Hsv Hl]. destruct (Hval c eq_refl) as (<- & Hord & Hcan).
    eapply (snapshot_commit_returns env' Hcalm _ d view c blobs total gd id t1 t2 vb mb pb ib kb HF); try done.
    + intros f Hf Hk. destruct (Hl f Hf Hk) as (p & x & ? & ? & ? & ?). exists p, x. auto.
    + intros i b Hin. destruct (Hpaths i b Hin) as [p Hp]. exists p. split; [done|]. do 4 right. left. eauto 10.
    + do 3 right. by left.
    + do 2 right. by left.
  - destruct Hper as [-> ->]. by eapply (file_commit_returns env' Hcalm _ d view files blobs total gd id t1 t2 vb mb pb kb HF).
Qed.

Lemma tagged_bytes (G : facts) stage (r : Res bytes) :
  triple absent (pending G) (tagged stage (of_res r)) (fun b d => r = Ok b /\ pending G d) absent.
Proof. apply triple_on_error, triple_of_res; [auto|]. intros d. apply pending_absent. Qed.

Lemma tagged_keeps (G : facts) stage {A} (c : M A) :
  keeps (pending G) c -> triple absent (pending G) (tagged stage c) (fun _ => pending G) absent.
Proof. intros Hc. apply triple_on_error. eapply triple_stage; [exact Hc|apply pending_absent..]. Qed.

Lemma record_facts_early pb v G' p :
  all_early G' -> p <> (Root, PIN_FILE) -> p <> GRANT -> early p = false -> silent (record_facts pb v G') p.
Proof. intros HG Hp Hg He. do 2 (apply silent_add; [done|]). by apply early_silent. Qed.

Lemma record_facts_visible pb v G' : all_early G' -> visible_facts (record_facts pb v G').
Proof. intros HG. by do 2 (apply visible_add; [done|]); apply early_visible. Qed.

(** [Uuid::new_v4] is never printed as the empty text. *)
Context (Huuid : forall k, is_empty (uuid env k) = false).

Lemma pin_bytes_ok view vd md blobs metadata gd (P : disk -> Prop) :
  (forall d, P d -> absent d) ->
  triple absent P (tagged HydrationCommit (pin_bytes_of env view vd md blobs metadata gd))
    (fun b d => (exists id t, is_empty id = false /\ match metadata with
       | Some mc => encode_record (mkSnapshotPin SNAPSHOT_VERIFICATION_REVISION id (v_snapshot_id view) (v_namespace_view_id view)
           (v_scope view) (v_lease_id view) vd md (mc_descriptor_digest mc) (mc_index_digest mc) (mc_pages mc) blobs gd t)
       | None => encode_record (mkPin VERIFICATION_REVISION id (v_snapshot_id view) (v_namespace_view_id view) (v_scope view)
           (v_lease_id view) vd md blobs gd t)
       end = Ok b) /\ P d) absent.
Proof using Huuid.
  intros HP. apply triple_on_error. unfold pin_bytes_of.
  eapply (triple_bind _ _ _ _ (fun id d => is_empty id = false /\ P d)).
  { intros s Hs. simpl. split; [apply same_past|auto]. }
  intros id. apply triple_pure. intros Hid. apply triple_now_unix. intros t. apply triple_of_res; [|auto].
  intros b d Hb Hd. split; [|done]. exists id, t. split; [done|]. by destruct metadata.
Qed.

Lemma write_ok view files closure grant blobs total F :
  audit_facts view files closure blobs total F -> (forall c, closure = Some c -> closure_valid files c) ->
  validate_view_policy view (bool_decide (is_Some closure)) = Ok tt ->
  triple absent (pending F) (write_dependencies env at_ view files closure grant blobs total)
    (fun kb d => exists F', (visible_facts F' /\ silent F' COMPLETE /\ verifies F' files kb) /\ pending F' d) absent.
Proof using Huuid.
  intros Haud Hval Hview. pose proof Haud as (Hco & _). pose proof (content_early F Hco) as HF.
  assert (HS : forall D name, D <> Content -> silent F (D, name)) by (intros D name HD v [? _]%Hco; done).
  unfold write_dependencies. eapply triple_bind.
  { apply tagged_keeps, compact_journal_keeps; [by apply visible_add, early_visible|apply silent_add; auto]. }
  intros []. cbv beta. eapply triple_bind; [apply tagged_bytes|]. intros mb. apply triple_pure. intros Em.
  eapply triple_bind.
  { apply triple_on_error. eapply triple_stage; [apply pending_write; [by apply early_visible|auto|done]|apply pending_absent..]. }
  intros []. set (F1 := add (Root, MANIFEST_FILE) (Some mb) F). assert (all_early F1) as HF1 by (by apply early_add).
  eapply triple_bind; [apply tagged_bytes|]. intros vb. apply triple_pure. intros Ev.
  eapply triple_bind.
  { apply triple_on_error. eapply triple_stage; [apply (pending_write F1); [by apply early_visible|apply silent_add; auto|done]|apply pending_absent..]. }
  intros []. set (F2 := add (Root, VIEW_FILE) (Some vb) F1). assert (all_early F2) as HF2 by (by apply early_add).
  assert (HS2 : forall D name, (D, name) <> (Root, MANIFEST_FILE) -> (D, name) <> (Root, VIEW_FILE) -> D <> Content -> silent F2 (D, name)).
  { intros D name ? ? ?. do 2 (apply silent_add; [done|]). auto. }
  eapply triple_bind.
  { apply triple_on_error, (metadata_ok F2); auto. intros c Hc. destruct (Hval c Hc) as (_ & Ho & _). by apply Btree.ordered_nodup. }
  intros metadata. apply triple_exists. intros G'. apply triple_pure. intros Hper.
  pose proof (persisted_early _ _ _ _ Hper HF2) as HG'.
  eapply triple_bind; [by apply triple_on_error, grant_ok|]. intros gd. apply triple_exists. intros v. apply triple_pure. intros Hg.
  eapply triple_bind.
  { apply pin_bytes_ok. intros d Hd. destruct v as [b|]; [|destruct Hd as [Hd _]]; by eapply pending_absent. }
  intros pb. apply triple_pure. intros (id & t1 & Hid & Ep). eapply triple_bind; [by apply triple_on_error, pin_ok|]. intros [].
  pose proof (record_facts_visible pb v G' HG') as Hvis. fold (record_facts pb v G').
  eapply triple_bind.
  { apply tagged_keeps, publish_pin_keeps; [by apply visible_add|]. intros name. apply silent_add; [done|].
    apply record_facts_early; [done|done|done|apply early_registry]. }
  intros []. cbv beta. eapply triple_bind.
  { apply tagged_keeps, keeps_remove, silent_add; [done|]. by apply record_facts_early. }
  intros []. apply triple_on_error. apply triple_now_unix. intros t2. apply triple_of_res; [|intros d; apply pending_absent].
  intros kb d Ek Hd. exists (record_facts pb v G'). split; [|done]. split_and!; [done|by apply record_facts_early|].
  eapply (record_verifies view files closure blobs total F G' metadata gd v id t1 t2 vb mb pb kb); done.
Qed.

Lemma commit_ok view files closure grant counts :
  (forall c, closure = Some c -> closure_valid files c) -> validate_view_policy view (bool_decide (is_Some closure)) = Ok tt ->
  triple (safe files) absent (finish_hydration_commit env at_ view files closure grant counts)
    (fun _ => committed files) (safe files).
Proof using Huuid.
  intros Hval Hview. assert (Hsafe : forall d, absent d -> safe files d) by (intros d Hd; by left).
  apply triple_on_error. unfold finish_hydration_commit_inner. destruct counts as [[fetched resumed] repaired].
  eapply triple_bind; [eapply triple_stage; [apply audit_ok|auto..]; intros c Hc; apply (Hval c Hc)|].
  intros [blobs total]. apply triple_exists. intros F. apply triple_pure. intros Haud.
  eapply triple_bind; [eapply triple_stage; [by apply write_ok|auto..]|].
  intros kb. apply triple_exists. intros F'. apply triple_pure. intros (Hv & Hs & Hk).
  eapply triple_bind; [by apply publish_marker_ok|]. intros []. by apply triple_ret.
Qed.

Lemma committed_found files d d' env' :
  committed files d -> d' = d \/ crash d d' -> calm env' ->
  exists b, lookup COMPLETE d' = Some (mkInode b true true) /\ returns d' (verify_commit env' b) files.
Proof.
  intros (F & b & HF & Hb & Hd) Hc He. assert (holds F d' /\ durable_at d' COMPLETE (Some b)) as [HF' Hd'].
  { destruct Hc as [->|Hc]; [done|]. eauto using holds_crash, durable_crash. }
  exists b. split; [by apply durable_lookup|auto].
Qed.

Lemma safe_crash files d d' env' :
  safe files d -> crash d d' -> calm env' ->
  lookup COMPLETE d' = None \/
  exists b, lookup COMPLETE d' = Some (mkInode b true true) /\ returns d' (verify_commit env' b) files.
Proof.
  intros [Ha|(F & b & HF & Hb & Hw)] Hc He; [left; eauto using durable_absent, durable_crash|].
  destruct (whole_crash _ _ _ _ Hw Hc) as [E|E]; [by left|]. right. exists b. eauto using holds_crash.
Qed.

(** C3: a hydration commits atomically. From a disk without a completion record,
    whatever operations of the commit fail, a crash at any moment leaves no
    record, or one that reads back as exactly the files of the commit, with
    every content, page, view, pin and grant it names in place; and once the
    commit has returned, the record is there and does, before and after any
    crash. *)
Theorem commit_atomic view files closure grant counts d0 k0 :
  validate_view_policy view (bool_decide (is_Some closure)) = Ok tt ->
  (forall c, closure = Some c -> vc_files c = files /\ Btree.ordered (vc_pages c) /\
     exists descriptor, from_pages descriptor (vc_pages c) = Ok c) ->
  durable_at d0 COMPLETE None ->
  let (r, s) := finish_hydration_commit env at_ view files closure grant counts (mkWorld d0 k0 []) in
  (forall d d' env', d ∈ past s -> crash d d' -> calm env' ->
     lookup COMPLETE d' = None \/
     exists b, lookup COMPLETE d' = Some (mkInode b true true) /\ returns d' (verify_commit env' b) files) /\
  (forall report d' env', r = Ok report -> d' = now s \/ crash (now s) d' -> calm env' ->
     exists b, lookup COMPLETE d' = Some (mkInode b true true) /\ returns d' (verify_commit env' b) files).
Proof using Huuid.
  intros Hview Hclo Ha. assert (Hval : forall c, closure = Some c -> closure_valid files c).
  { intros c Hc. destruct (Hclo c Hc) as (? & ? & desc & Hd). split_and!; [done|done|].
    by eapply ClosureExact.from_pages_canonical. }
  pose proof (commit_ok view files closure grant counts Hval Hview (mkWorld d0 k0 []) Ha) as Ht.
  destruct (finish_hydration_commit _ _ _ _ _ _ _ _) as [r s]. destruct Ht as [(new & Hnew & Hsafe) Hr]. split.
  - intros d d' env' Hd Hc He. rewrite Hnew in Hd. rewrite Forall_forall in Hsafe.
    eapply safe_crash; [apply Hsafe, list_elem_of_In, Hd|done|done].
  - intros report d' env' -> Hc He. by eapply committed_found.
Qed.
End Pending.
End CommitFacts.
