(* ===== verification/PinFacts.v ===== *)
(** * PinFacts

    Releasing the local retention claim of a workspace: the revocation is
    durable before anything it protects is removed, and stays in force across
    crashes and retries. *)

From S2P Require Import Prelude Types Faults Text Profile Frames Wire Disk DiskLogic Records Pins DurableFacts.
Import Digests Disk DiskLogic Records Pins DurableFacts.
Local Open Scope string_scope.
Local Open Scope list_scope.
Local Open Scope Z_scope.

Module PinFacts.

(** A name that exists before and after a crash. *)
Definition exists_in (t : gmap path nat) (d : disk) (p : path) : Prop := exists i n, t !! p = Some i /\ inodes d !! i = Some n.
Definition present (p : path) (d : disk) : Prop := exists_in (names d) d p /\ exists_in (saved d) d p.

Lemma present_lookup p d : present p d -> lookup p d <> None.
Proof. intros [(i & n & Hn & Hi) _]. unfold lookup. rewrite Hn. simpl. congruence. Qed.

Lemma present_crash p d d' : present p d -> crash d d' -> present p d'.
Proof.
  intros [(i & n & Hn & Hi) (j & m & Hs & Hj)] (E & Hc & Hin). assert (exists_in (names d') d' p) as Hx.
  { destruct (Hc p) as [Ep|Ep].
    - destruct (Hin _ _ Hi) as (b & Hb & _). exists i. eexists. rewrite Ep, Hn. eauto.
    - destruct (Hin _ _ Hj) as (b & Hb & _). exists j. eexists. rewrite Ep, Hs. eauto. }
  split; [done|]. by rewrite <- E.
Qed.

Lemma present_written D name b d d' : written D name b d d' -> present (D, name) d'.
Proof.
  intros (i & _ & Hn & Hin & Hs). assert (names d' !! (D, name) = Some i) as E by (by rewrite Hn, lookup_insert_eq).
  split; exists i; eexists; rewrite ?Hs, Hin, lookup_insert_eq; [done|]. by rewrite decide_True.
Qed.

Lemma present_written_any D name b d d' p : written D name b d d' -> present p d -> present p d'.
Proof.
  intros Hw [(j & n & Hj & Hjn) (k & m & Hk & Hkm)]. destruct (decide (p = (D, name))) as [->|Hp]; [by eapply present_written|].
  destruct Hw as (i & [Hi Hnew] & En & Ei & Es). assert (exists_in (names d') d' p) as Hx.
  { exists j, n. rewrite En, Ei, !lookup_insert_ne; [done| |done]. intros ->. congruence. }
  split; [done|]. unfold exists_in in *. rewrite Es. destruct (decide (p.1 = D)); [exact Hx|].
  exists k, m. split; [done|]. rewrite Ei, lookup_insert_ne; [done|]. intros ->. congruence.
Qed.

Lemma present_writing D name b d d' p : visible p = true -> writing_any D name b d d' -> present p d -> present p d'.
Proof.
  intros Hv (id & i & (Hi & Hnew) & Hin & Hc) [(j & n & Hn & Hj) (k & m & Hs & Hk)].
  assert (p <> (D, tmp_name name id)) as Hpt by (by intros ->).
  assert (inodes d' !! j = Some n) as Hj' by (rewrite Hin; [done|congruence]).
  assert (inodes d' !! k = Some m) as Hk' by (rewrite Hin; [done|congruence]).
  destruct Hc as [[En Es]|(_ & En & Eb & Es)].
  - split; [exists j, n; by rewrite En|exists k, m; by rewrite Es].
  - assert (exists_in (names d') d' p) as Hx.
    { destruct (decide (p = (D, name))) as [->|Hp].
      - exists i. eexists. by rewrite En, lookup_insert_eq.
      - exists j, n. by rewrite En, lookup_insert_ne. }
    split; [done|]. destruct Es as [->|Es]; [by exists k, m|]. unfold exists_in in *. rewrite Es.
    destruct (decide (p.1 = D)); [exact Hx|by exists k, m].
Qed.

Lemma present_removing D name d d' p : p <> (D, name) -> removing D name d d' -> present p d -> present p d'.
Proof.
  intros Hp (Hi & Hn & _ & Hs) [Hx Hy]. unfold present, exists_in in *. rewrite Hi, Hn by done. split; [done|].
  destruct Hs as [->|Hs]; [done|]. rewrite Hs, Hn by done. by destruct (decide (p.1 = D)).
Qed.

Lemma present_sync_dir D d p : present p d -> present p (do_sync_dir D d).2.
Proof.
  intros [Hx Hy]. split; [done|]. unfold exists_in in *. rewrite sync_dir_saved. by destruct (decide (p.1 = D)).
Qed.

Definition REVOKE : path := (Root, REVOKE_FILE).
Definition COMPLETED : path := (Root, COMPLETE_MARKER).
Definition PINNED : path := (Root, PIN_FILE).

(** The revocation is recorded, and some names are gone. *)
Definition revoked (gone : list path) (d : disk) : Prop :=
  present REVOKE d /\ forall p, p ∈ gone -> visible p = true /\ names d !! p = None.

Lemma revoked_writing gone D name b d d' :
  ((D, name) ∉ gone) -> writing_any D name b d d' -> revoked gone d -> revoked gone d'.
Proof.
  intros Hg Hw [Hp Hn]. split; [by eapply present_writing|]. intros p Hin. destruct (Hn p Hin) as [Hv En]. split; [done|].
  destruct Hw as (id & i & _ & _ & [[E _]|(_ & E & _)]).
  - rewrite E; [done|]. by intros ->.
  - rewrite E, lookup_insert_ne; [done|]. by intros <-.
Qed.

Lemma revoked_removing gone D name d d' : (D, name) <> REVOKE -> removing D name d d' -> revoked gone d -> revoked gone d'.
Proof.
  intros Hr Hm [Hp Hn]. split; [eapply present_removing; [|exact Hm|exact Hp]; congruence|]. intros p Hin. destruct (Hn p Hin) as [Hv En]. split; [done|].
  destruct Hm as (_ & E & E' & _). destruct (decide (p = (D, name))) as [->|Hpn]; [destruct E' as [E'|E']; congruence|by rewrite E].
Qed.

Section Keep.
Context (env : environment).

Lemma revoked_keeps_write gone D name b : ((D, name) ∉ gone) -> keeps (revoked gone) (write_atomic env D name b).
Proof.
  intros Hg. apply triple_from. intros d Hd. eapply triple_weaken; [apply (write_atomic_spec env D name b d)|..];
    eauto using revoked_writing. intros [] d' Hw. pose proof Hd as [_ Hn].
  split; [eapply present_written_any; [exact Hw|apply Hd]|]. intros p Hp. destruct (Hn p Hp) as [? En]. split; [done|].
  destruct Hw as (i & _ & -> & _). rewrite lookup_insert_ne; [done|]. by intros <-.
Qed.

Lemma revoked_remove gone err D name :
  (D, name) <> REVOKE -> visible (D, name) = true ->
  triple (revoked gone) (revoked gone) (remove_with env err D name) (fun _ => revoked ((D, name) :: gone)) (revoked gone).
Proof.
  intros Hr Hv. apply triple_from. intros d Hd. eapply triple_weaken; [apply (remove_spec env err D name d)|..];
    eauto using revoked_removing. intros [] d' [Hm Hn]. destruct (revoked_removing _ _ _ _ _ Hr Hm Hd) as [Hp Hg].
  split; [done|]. intros p [->|Hin]%elem_of_cons; auto.
Qed.

Lemma revoked_sync_dir gone D : keeps (revoked gone) (sync_dir env D).
Proof. apply keeps_sys. intros d [Hp Hg]. split; [by apply present_sync_dir|done]. Qed.
End Keep.

Section Release.
Context `{HexCrate} `{UuidCrate} `{CommitCodec} `{PinCodec} (env : environment) (at_ : Location).

(** A record found at a name. *)
Definition record_at {T} `{Serde T} (d : disk) (p : path) (x : T) : Prop :=
  exists n, lookup p d = Some n /\ from_json (data n) = Ok x.

Lemma read_record_post {T} `{Serde T} d p :
  reads d (read_record (T := T) env p) (fun o => match o with Some x => record_at d p x | None => lookup p d = None end).
Proof.
  unfold read_record. eapply reads_bind; [by apply reads_step_post|]. intros m Hm. cbv beta in Hm.
  destruct m as [[is_file len]|[]].
  - apply reads_guard. intros E1. apply reads_guard. intros E2. eapply reads_bind; [by apply reads_step_post|]. intros r Hr.
    eapply reads_bind; [apply reads_res_post|]. intros b Hb. apply reads_guard. intros _. eapply reads_weaken; [apply reads_res_post|].
    cbv beta in *. intros o Ho. apply map_err_ok in Hb as ->, Ho. apply rbind_ok in Ho as (x & Hx & [= <-]).
    destruct Hm as [Hm|[? ?]]; [|done]. destruct Hr as [Hr|[? ?]]; [|done]. unfold do_metadata, do_read in *. cbn [fst] in *.
    unfold record_at. destruct (lookup p d) as [n|]; [|done]. exists n. split; [done|]. destruct (regular n); [|by simplify_eq/=].
    injection Hr as ->. injection Hm as _ ->. rewrite take_ge in Hx; [done|]. unfold zlen in *. bools. lia.
  - apply reads_ret. destruct Hm as [Hm|[? ?]]; [|done]. unfold do_metadata in Hm. cbn [fst] in Hm. by destruct (lookup p d).
  - apply reads_fail.
  - apply reads_fail.
Qed.

(** The store is one of the owned ones by its place. *)
Definition owned : bool := match above at_ with _ :: owners :: _ => String.eqb owners "owners" | _ => false end.

Lemma validate_store_owned d b : reads d (validate_store env at_ b) (fun _ => owned = true).
Proof.
  unfold validate_store. eapply (reads_bind _ _ _ (fun _ => owned = true)).
  - unfold scope_dir. eapply reads_bind; [apply reads_res_post|]. intros _ _. eapply reads_bind; [apply reads_res_post|]. intros id _.
    apply reads_guard. intros Hg%negb_false_iff. assert (owned = true) as Ho.
    { unfold owned. destruct (above at_) as [|? [|? [|? ?]]]; try done. by apply andb_true_iff in Hg as [[_ ?]%andb_true_iff _]. }
    do 3 apply reads_gate. eapply reads_bind; [apply validate_authority_reads|]. intros _ _.
    eapply reads_weaken; [apply validate_authority_reads|done].
  - intros _ Ho. apply reads_guard. intros _. apply reads_gate. eapply reads_weaken; [apply validate_authority_reads|done].
Qed.

Lemma owner_required d : owned = true -> reads d (owner_binding env at_) (fun o => o <> None).
Proof.
  intros Ho. unfold owner_binding. eapply reads_bind; [apply read_record_reads|]. intros [b|] _.
  - eapply reads_bind; [apply validate_store_reads|]. intros _ _. by apply reads_ret.
  - unfold owned in Ho. rewrite Ho. apply reads_fail.
Qed.

Lemma require_owner_reads d : reads d (require_owner env at_) (fun _ => True).
Proof.
  unfold require_owner. eapply reads_bind; [apply owner_binding_reads|]. intros o _.
  eapply reads_weaken; [apply reads_res_post|done].
Qed.

Lemma release_record_post d b :
  reads d (release_record env b) (fun o => match o with Some r => record_at d REVOKE r | None => lookup REVOKE d = None end).
Proof.
  unfold release_record. eapply reads_bind; [apply read_record_post|]. intros [r|] Hr; [|by apply reads_ret].
  eapply reads_bind; [apply reads_res_post|]. intros _ _. apply reads_guard. intros _. by apply reads_ret.
Qed.

(** While the revocation is there no completion is allowed. *)
Lemma present_disallows d : owned = true -> present REVOKE d -> reads d (complete_allowed env at_) (fun ok => ok = false).
Proof.
  intros Ho Hp%present_lookup. unfold complete_allowed. eapply reads_bind; [by apply owner_required|]. intros [b|] Hb; [|done].
  eapply reads_bind; [apply require_registration_reads|]. intros g _. eapply reads_bind; [apply read_record_reads|]. intros v _.
  eapply (reads_bind _ _ _ (fun _ => True)).
  { destruct v; [eapply reads_weaken; [apply reads_res_post|done]|]. eapply reads_bind; [apply no_artifact_reads|].
    intros _ _. apply no_artifact_reads. }
  intros _ _. eapply reads_bind; [apply release_record_post|]. intros [r|] Hr; [by apply reads_ret|done].
Qed.

(** What the revocation protects is as it was. *)
Definition untouched (d0 d : disk) : Prop :=
  forall p, p ∈ [COMPLETED; PINNED] -> names d !! p = names d0 !! p /\ saved d !! p = saved d0 !! p.

(** The moments of a release. *)
Definition releasing (d0 d : disk) : Prop := owned = true /\ present REVOKE d \/ untouched d0 d.

Lemma revoke_writing d0 b d :
  owned = true -> writing_any Root REVOKE_FILE b d0 d -> releasing d0 d.
Proof.
  intros Ho (id & i & [Hi Hnew] & Hin & Hc). destruct Hc as [[En Es]|(_ & En & Eb & Es)].
  - right. intros p Hp. rewrite Es, En; [done|]. intros ->. set_solver.
  - destruct Es as [Es|Es].
    + right. intros p Hp. rewrite En, Es, lookup_insert_ne; [done|]. intros <-. set_solver.
    + left. split; [done|]. assert (names d !! REVOKE = Some i) as E by (by rewrite En, lookup_insert_eq).
      split; exists i; eexists; [done|]. by rewrite Es.
Qed.

Lemma register_keeps_revoked gone b st :
  (forall name, (Registry, name) ∉ gone) -> keeps (revoked gone) (register env at_ b st).
Proof.
  intros Hg. unfold register. apply keeps_bind; [apply keeps_reads; intros d; apply validate_store_reads|]. intros _.
  apply keeps_bind; [apply keeps_gate|]. intros _. apply keeps_bind; [apply revoked_sync_dir|]. intros _.
  apply keeps_bind; [apply revoked_sync_dir|]. intros _. apply keeps_bind; [apply keeps_gate|]. intros _.
  apply keeps_bind; [apply keeps_reads; intros d; apply read_registration_reads|]. intros g. apply triple_guard; [done|]. intros _.
  apply keeps_bind; [apply keeps_of_res|]. intros x. by apply revoked_keeps_write.
Qed.

(** The final write also makes the removals durable. *)
Lemma final_revocation b :
  owned = true ->
  triple (fun d => owned = true /\ present REVOKE d) (revoked [PINNED; COMPLETED]) (write_atomic env Root REVOKE_FILE b)
    (fun _ d => present REVOKE d /\ durable_at d COMPLETED None /\ durable_at d PINNED None)
    (fun d => owned = true /\ present REVOKE d).
Proof.
  intros Ho. apply triple_from. intros d Hd. pose proof Hd as [_ Hn].
  assert (forall d', writing_any Root REVOKE_FILE b d d' -> owned = true /\ present REVOKE d') as Hw.
  { intros d' Hw. split; [done|]. eapply present_writing; [done|exact Hw|apply Hd]. }
  eapply triple_weaken; [apply (write_atomic_spec env Root REVOKE_FILE b d)|auto|done| |auto].
  intros [] d' Hd'. split_and!; [by eapply present_written| |].
  - eapply written_absent; [exact Hd'|done|]. apply Hn. set_solver.
  - eapply written_absent; [exact Hd'|done|]. apply Hn. set_solver.
Qed.

Lemma release_pin_ok d0 :
  triple (releasing d0) (eq d0) (release_local_pin env at_)
    (fun r d => owned = true /\ (forall x, record_at d0 REVOKE x -> receipt_operation r = operation_id x) /\
       present REVOKE d /\ durable_at d COMPLETED None /\ durable_at d PINNED None)
    (releasing d0).
Proof.
  assert (releasing d0 d0) as Hr0 by (by right). assert (forall d, d0 = d -> releasing d0 d) as Hr0' by (by intros d <-).
  unfold release_local_pin. eapply (triple_bind _ _ _ _ (fun _ => eq d0)).
  { unfold transaction. apply triple_transaction; [done|]. intros free. apply triple_guard; [done|]. intros _. by apply triple_ret. }
  intros [].
  eapply triple_bind; [apply reads_triple; [done|done|apply require_owner_reads]|].
  intros b. apply triple_from. intros d [-> _].
  eapply triple_bind; [apply reads_triple; [done|done|apply validate_store_owned]|]. intros ?. apply triple_from. intros d [-> Ho].
  eapply triple_bind; [apply reads_triple; [done|done|apply require_registration_reads]|]. intros ?. apply triple_from. intros d [-> _].
  eapply triple_bind; [apply reads_triple; [done|done|apply release_record_post]|]. intros r. apply triple_from. intros d [-> Hr].
  eapply (triple_bind _ _ _ _ (fun op d => d = d0 /\ forall x, record_at d0 REVOKE x -> op = operation_id x)).
  { destruct r as [r|].
    - apply triple_ret. intros d <-. split; [done|]. intros x (n & Hn & Hx). destruct Hr as (n' & Hn' & Hx').
      rewrite Hn in Hn'. injection Hn' as <-. congruence.
    - intros s Hs. simpl. split; [apply same_past|]. split; [done|]. intros x (n & Hn & _). congruence. }
  intros op. apply triple_from. intros d [-> Hop].
  eapply (triple_bind _ _ _ _ (fun _ => eq d0)); [by apply triple_of_res|]. intros x.
  assert (Hrev : forall gone d, revoked gone d -> releasing d0 d) by (intros gone d [? _]; by left).
  eapply (triple_bind _ _ _ _ (fun _ => revoked [])).
  { eapply triple_weaken; [apply (write_atomic_spec env Root REVOKE_FILE x d0)|..].
    - intros d. by apply revoke_writing.
    - done.
    - intros [] d Hw. split; [by eapply present_written|]. intros p Hp. by apply not_elem_of_nil in Hp.
    - intros d. by apply revoke_writing. }
  intros []. eapply triple_bind; [eapply triple_weaken; [apply (revoked_remove env [] io_err Root COMPLETE_MARKER)|..]; eauto|].
  intros []. cbv beta. eapply triple_bind; [eapply triple_weaken; [apply (revoked_remove env [COMPLETED] io_error_of Root PIN_FILE)|..]; eauto|].
  intros []. cbv beta. eapply (triple_bind _ _ _ _ (fun _ => revoked [PINNED; COMPLETED])).
  { eapply triple_weaken; [apply (register_keeps_revoked [PINNED; COMPLETED])|..]; eauto. intros name. set_solver. }
  intros []. apply triple_gate; [eauto|]. eapply (triple_bind _ _ _ _ (fun _ => revoked [PINNED; COMPLETED])); [apply triple_of_res; eauto|].
  intros y. eapply triple_bind.
  { eapply triple_weaken; [by apply final_revocation|..]; [intros d ?; by left|done|intros u d Hu; exact Hu|intros d ?; by left]. }
  intros []. apply triple_ret. auto.
Qed.

End Release.

Section Theorems.
Context `{HexCrate} `{UuidCrate} `{CommitCodec} `{PinCodec} (at_ : Location).

(** No run of the completion check on this disk allows a completion. *)
Definition disallowed (d : disk) : Prop := forall env s, now s = d -> (complete_allowed env at_ s).1 <> Ok true.

Lemma present_disallowed d : owned at_ = true -> present REVOKE d -> disallowed d.
Proof.
  intros Ho Hp env s Hs Hr. pose proof (present_disallows env at_ d Ho Hp s (eq_sym Hs)) as Ht.
  destruct (complete_allowed env at_ s) as [r s']. simpl in Hr. subst r. by destruct Ht as [_ [_ ?]].
Qed.

Context (env : environment).

(** C16: a release revokes before it removes. Whatever operations of it fail, a
    crash at any moment leaves a disk on which no completion is allowed, or on
    which the completion record and the pin are still those of the start.
    After a release has returned, before and after any crash, no completion is
    allowed and both are gone; a release that finds an interrupted one carries
    on under its operation id. *)
Theorem release_revokes d0 k0 :
  let (r, s) := release_local_pin env at_ (mkWorld d0 k0 []) in
  (forall d d', d ∈ past s -> crash d d' ->
     disallowed d' \/
     forall p, p ∈ [COMPLETED; PINNED] -> names d' !! p = names d0 !! p \/ names d' !! p = saved d0 !! p) /\
  (forall receipt d', r = Ok receipt -> d' = now s \/ crash (now s) d' ->
     disallowed d' /\ lookup COMPLETED d' = None /\ lookup PINNED d' = None /\
     forall x, record_at d0 REVOKE x -> receipt_operation receipt = operation_id x).
Proof.
  pose proof (release_pin_ok env at_ d0 (mkWorld d0 k0 []) eq_refl) as Ht.
  destruct (release_local_pin env at_ (mkWorld d0 k0 [])) as [r s]. destruct Ht as [(new & Hnew & Hall) Hr]. split.
  - intros d d' Hd Hc. rewrite Hnew in Hd. rewrite Forall_forall in Hall.
    destruct (Hall d) as [[Ho Hp]|Hu]; [by apply list_elem_of_In| |].
    + left. apply present_disallowed; [done|]. by eapply present_crash.
    + right. intros p Hin. destruct (Hu p Hin) as [En Es]. destruct Hc as (_ & Hc & _).
      destruct (Hc p) as [->| ->]; rewrite ?En, ?Es; auto.
  - intros receipt d' -> Hd. destruct Hr as (Ho & Hop & Hp & Hc & Hq).
    assert (present REVOKE d' /\ durable_at d' COMPLETED None /\ durable_at d' PINNED None) as (Hp' & Hc' & Hq').
    { destruct Hd as [->|Hd]; [done|]. split_and!; eauto using present_crash, durable_crash. }
    split_and!; [by apply present_disallowed|by apply durable_absent|by apply durable_absent|exact Hop].
Qed.
End Theorems.
End PinFacts.
