(* ===== verification/Hydrate.v ===== *)
(** * Hydrate

    [src/snapshot/durable.rs]: filling a store, one file after another. A
    content that is already there is re-hashed and counted; any other is
    fetched whole, or streamed by ranges when it is large, and published under
    its digest only once verified; the journal is appended behind the contents
    and the commit ends the pass. The byte sources are parameters that may
    answer differently at every call; a source that reads two ranges at once
    is asked for one after the other. *)

From S2P Require Import Prelude Types Faults Text Profile Btree Frames Wire ChunkMap Closure Disk Journal Records Pins Durable.
Import Digests Counters Profile.Scope Closure Disk Journal Records Pins Durable.
Local Open Scope string_scope.
Local Open Scope list_scope.
Local Open Scope Z_scope.

Module Hydrate.

(** A source of large files: [HydrationRangeSource] and the ranges of the file
    it opens, with what the hydration asks of its reader. *)
Record RangeSource : Type := mkSource {
  source_chunk_reads : bool;
  source_prefetch : bool;
  source_open : nat -> SnapshotFile -> Res unit;
  source_read : nat -> SnapshotFile -> Z -> Z -> Res bytes;
  source_grant : option OfflineGrant;
}.

(** The state of a pass: files fetched, resumed, repaired, and the journal. *)
Record progress : Type := mkProgress { fetched : Z; resumed : Z; repaired : Z; bytes_total : Z; pending_records : JournalBuffer }.

Section Hydrate.
Context `{HexCrate} `{Sha256} `{PageCodec} `{CodecScope} `{DescriptorCodec} `{ServingCodec} `{UuidCrate} `{Rfc3339}.
Context `{CommitCodec} `{PinCodec} `{RecordCodec} `{ChunkCodec} (env : environment) (at_ : Location).

Abbreviation sys := (sys env).
Abbreviation gate := (gate env).

(** ** Large files *)

(** The ranges of one round: one, or two when the source reads ahead. *)
Definition next_ranges (src : RangeSource) (f : SnapshotFile) (offset : Z) : M (list (Z * Z * bytes)) :=
  let length := Z.min (file_size f - offset) CHUNK_SIZE in
  let next_offset := offset + length in
  if source_prefetch src && (next_offset <? file_size f) then
    let next_length := Z.min (file_size f - next_offset) CHUNK_SIZE in
    let* first := ask (fun k => source_read src k f offset length) in
    let* second := ask (fun k => source_read src k f next_offset next_length) in
    ret [(offset, length, first); (next_offset, next_length, second)]
  else
    let* first := ask (fun k => source_read src k f offset length) in
    ret [(offset, length, first)].

(** One range is hashed and written; the gate is the blocking task. *)
Definition write_range (handle : nat) (st : Z * bytes) (r : Z * Z * bytes) : M (Z * bytes) :=
  let '(offset, hashed) := st in
  let '(range_offset, range_length, owner) := r in
  guard* negb (range_offset =? offset) || negb (zlen owner =? range_length)
    with tag_hydration_error LargeChunkRead (integrity_err "streamed chunk does not cover the expected file range") in
  run* gate in
  run* tagged LargeCasWrite (sys (do_write handle owner)) in
  ret (offset + range_length, hashed ++ owner).

Fixpoint stream_ranges (fuel : nat) (src : RangeSource) (f : SnapshotFile) (handle : nat) (offset : Z) (hashed : bytes)
    : M bytes :=
  if file_size f <=? offset then ret hashed
  else
    match fuel with
    | O => of_run (Err OutOfFuel)
    | S fuel =>
        let* ranges := tagged LargeChunkRead (next_ranges src f offset) in
        let* ' (offset, hashed) := fold_m (write_range handle) (offset, hashed) ranges in
        stream_ranges fuel src f handle offset hashed
    end.

(** What [write_reader_blob_stream] does with the temporary file. *)
Definition stream_file (src : RangeSource) (f : SnapshotFile) (name tmp : string) (handle : nat) : M unit :=
  let* hashed := stream_ranges (Z.to_nat (file_size f)) src f handle 0 [] in
  guard* ne (digest_of hashed) (file_digest f)
    with tag_hydration_error LargeChunkRead (SnapshotError_new DigestMismatch
           (rel_path f ++ ": streamed file does not match whole-content digest")) in
  run* gate in
  run* tagged LargeCasWrite (sys (do_sync handle)) in
  run* tagged LargeCasWrite (sys (do_rename (Content, tmp) (Content, name))) in
  tagged LargeCasWrite (sync_dir env Content).

(** [write_reader_blob_stream]; the temporary name is removed when its owner
    goes out of scope. *)
Definition write_reader_blob_stream (src : RangeSource) (f : SnapshotFile) : M unit :=
  run* tagged LargeCasWrite gate in
  let name := blob_name (file_digest f) in
  run* tagged LargeCasWrite gate in
  let* id := new_uuid env in
  let tmp := tmp_name name id in
  let* handle := tagged LargeCasWrite (sys (do_create (Content, tmp))) in
  let* r := attempt (stream_file src f name tmp handle) in
  run* step env (do_remove (Content, tmp)) in
  of_run r.

(** [write_reader_blob]. *)
Definition write_reader_blob (src : RangeSource) (f : SnapshotFile) : M unit :=
  run* tagged LargeChunkMap (ask (fun k => source_open src k f)) in
  write_reader_blob_stream src f.

(** ** One file *)

(** A content fetched whole. *)
Definition fetch_small (fetch : nat -> SnapshotFile -> Res bytes) (f : SnapshotFile) : M unit :=
  let* b := tagged SmallObjectFetch (ask (fun k => fetch k f)) in
  let got := digest_of b in
  guard* ne got (file_digest f)
    with tag_hydration_error SmallObjectFetch (SnapshotError_new DigestMismatch
           (rel_path f ++ ": expected " ++ file_digest f ++ ", got " ++ got)) in
  guard* negb (zlen b =? file_size f)
    with tag_hydration_error SmallObjectFetch (SnapshotError_new DigestMismatch
           (rel_path f ++ ": view advertises " ++ u64_to_string (file_size f) ++ " bytes, content is "
             ++ u64_to_string (zlen b))) in
  tagged SmallObjectFetch (write_atomic env Content (blob_name (file_digest f)) b).

(** The body of the loop over the manifest. *)
Definition hydrate_file (fetch : nat -> SnapshotFile -> Res bytes) (source : option RangeSource)
    (st : progress) (f : SnapshotFile) : M progress :=
  let* ok := tagged CasResumeAudit (verify_blob env (file_digest f) (file_size f)) in
  if ok then
    let* ' (r, buf) := append env (pending_records st) (record_of f) in
    run* of_run r in
    ret (mkProgress (fetched st) (resumed st + 1) (repaired st) (bytes_total st + file_size f) buf)
  else
    let* p := tagged CasResumeAudit (of_res (blob_path (file_digest f))) in
    let* m := step env (do_metadata p) in
    let repaired := match m with Ok _ => repaired st + 1 | Err _ => repaired st end in
    run* match source with
         | Some src =>
             if (OBJECT_CAP <? file_size f) && source_chunk_reads src
             then tagged LargeContentFetch (write_reader_blob src f)
             else fetch_small fetch f
         | None => fetch_small fetch f
         end in
    let* ' (r, buf) := append env (pending_records st) (record_of f) in
    run* tagged HydrationCommit (of_run r) in
    ret (mkProgress (fetched st + 1) (resumed st) repaired (bytes_total st + file_size f) buf).

(** ** A pass *)

(** The loop over the manifest and the flush of the journal: the counts of
    fetched, resumed and repaired files. *)
Definition fetch_all (manifest : list SnapshotFile) (fetch : nat -> SnapshotFile -> Res bytes)
    (source : option RangeSource) : M (Z * Z * Z) :=
  let* st := fold_m (hydrate_file fetch source) (mkProgress 0 0 0 0 JournalBuffer_default) manifest in
  let* ' (r, _) := flush_locked env (pending_records st) in
  run* tagged HydrationCommit (of_run r) in
  ret (fetched st, resumed st, repaired st).

(** Every pass prepares, fills the store and commits. *)
Definition pass (view : ViewMeta) (manifest : list SnapshotFile) (closure : option ValidatedSnapshotClosure)
    (grant : option OfflineGrant) (fill : M (Z * Z * Z)) : M HydrateReport :=
  run* tagged HydrationCommit (prepare_hydration_for_kind env at_ view manifest closure) in
  let* counts := fill in
  finish_hydration_commit env at_ view manifest closure grant counts.

(** [hydrate_file_closure]. *)
Definition hydrate_file_closure (view : ViewMeta) (manifest : list SnapshotFile)
    (closure : option ValidatedSnapshotClosure) (fetch : nat -> SnapshotFile -> Res bytes)
    (source : option RangeSource) : M HydrateReport :=
  pass view manifest closure
    match closure with Some _ => src ← source; source_grant src | None => None end
    (fetch_all manifest fetch source).

(** [hydrate_with]. *)
Definition hydrate_with (view : ViewMeta) (manifest : list SnapshotFile) (fetch : nat -> SnapshotFile -> Res bytes)
    : M HydrateReport :=
  hydrate_file_closure view manifest None fetch None.

(** [hydrate_snapshot_with]. *)
Definition hydrate_snapshot_with (view : ViewMeta) (closure : ValidatedSnapshotClosure)
    (fetch : nat -> SnapshotFile -> Res bytes) : M HydrateReport :=
  run* of_res (validate_snapshot_view view closure) in
  hydrate_file_closure view (vc_files closure) (Some closure) fetch None.

(** [hydrate_snapshot_from_closure], once the reader has said which view it is
    fixed to; the gate is the seeding of its content membership. *)
Definition hydrate_snapshot_from_closure (view : ViewMeta) (closure : ValidatedSnapshotClosure)
    (read_content : nat -> SnapshotFile -> Res bytes) (source : RangeSource) : M HydrateReport :=
  run* of_res (validate_snapshot_view view closure) in
  run* gate in
  hydrate_file_closure view (vc_files closure) (Some closure) read_content (Some source).
End Hydrate.
End Hydrate.
