(* ===== verification/HydrateFacts.v ===== *)
(** * HydrateFacts

    A whole hydration: it withdraws the completion record before it changes
    anything, and ends with a record that verifies. *)

From S2P Require Import Prelude Types Faults Text Profile Btree Frames Wire ChunkMap Closure ClosureExact Disk DiskLogic Journal Records Pins Durable DurableFacts CommitFacts Hydrate.
Import Digests Profile.Scope Closure Disk DiskLogic Journal Records Pins Durable DurableFacts CommitFacts Hydrate.
Local Open Scope string_scope.
Local Open Scope list_scope.
Local Open Scope Z_scope.

Create HintDb quiet.
Create HintDb keeps.

Module HydrateFacts.

(** ** Operations that leave the completion record alone *)

(** What the name refers to is the same; a sync may have saved it. *)
Definition same_record (d d' : disk) : Prop :=
  names d' !! COMPLETE = names d !! COMPLETE /\
  (saved d' !! COMPLETE = saved d !! COMPLETE \/ saved d' !! COMPLETE = names d !! COMPLETE).

Definition quiet {A} (f : disk -> result io_error A * disk) : Prop := forall d, same_record d (f d).2.

(** Properties of the record's name only. *)
Definition stable (A : disk -> Prop) : Prop := forall d d', same_record d d' -> A d -> A d'.

Lemma quiet_same {A} (f : disk -> result io_error A * disk) : (forall d, (f d).2 = d) -> quiet f.
Proof. intros Hf d. rewrite Hf. split; auto. Qed.

Lemma quiet_metadata p : quiet (do_metadata p).
Proof. by apply quiet_same. Qed.
Lemma quiet_read p : quiet (do_read p).
Proof. by apply quiet_same. Qed.
Lemma quiet_open p : quiet (do_open p).
Proof. apply quiet_same, open_same. Qed.
Lemma quiet_write i b : quiet (do_write i b).
Proof. intros d. split; auto. Qed.
Lemma quiet_set_len i n : quiet (do_set_len i n).
Proof. intros d. split; auto. Qed.
Lemma quiet_sync i : quiet (do_sync i).
Proof. intros d. split; auto. Qed.
Lemma quiet_sync_dir D : quiet (do_sync_dir D).
Proof. intros d. split; [done|]. rewrite sync_dir_saved. destruct (decide _); auto. Qed.
Lemma quiet_create p : p <> COMPLETE -> quiet (do_create p).
Proof.
  intros Hp d. unfold do_create. destruct (names d !! p); [split; auto|]. split; [|auto]. cbn [snd names].
  by rewrite lookup_insert_ne.
Qed.
Lemma quiet_append p : p <> COMPLETE -> quiet (do_append p).
Proof. intros Hp d. unfold do_append. destruct (names d !! p); [apply quiet_open|by apply quiet_create]. Qed.
Lemma quiet_remove p : p <> COMPLETE -> quiet (do_remove p).
Proof.
  intros Hp d. unfold do_remove. destruct (names d !! p); [|split; auto]. split; [|auto]. cbn [snd names].
  by rewrite lookup_delete_ne.
Qed.
Lemma quiet_rename p q : p <> COMPLETE -> q <> COMPLETE -> quiet (do_rename p q).
Proof.
  intros Hp Hq d. unfold do_rename. destruct (names d !! p); [|split; auto]. split; [|auto]. cbn [snd names].
  by rewrite lookup_insert_ne, lookup_delete_ne.
Qed.

Lemma tmp_not_record D name id : (D, tmp_name name id) <> COMPLETE.
Proof. by intros [= _ E]. Qed.

#[local] Hint Resolve quiet_metadata quiet_read quiet_open quiet_write quiet_set_len quiet_sync quiet_sync_dir
  quiet_create quiet_append quiet_remove quiet_rename tmp_not_record : quiet.

Section Keeps.
Context (env : environment) (A : disk -> Prop) (HA : stable A).

Lemma keeps_quiet {B} (f : disk -> result io_error B * disk) : quiet f -> keeps A (sys env f).
Proof using HA. intros Hf. apply keeps_sys. intros d. by apply HA. Qed.

Lemma keeps_quiet_step {B} (f : disk -> result io_error B * disk) : quiet f -> keeps A (step env f).
Proof using HA. intros Hf. apply keeps_step. intros d. by apply HA. Qed.
End Keeps.

Lemma keeps_then (A : disk -> Prop) {B C} (c : M B) (k : B -> M C) Q :
  keeps A c -> (forall b, triple A A (k b) Q A) -> triple A A (bind c k) Q A.
Proof. intros Hc Hk. by eapply triple_bind. Qed.

(** A program built from such operations. *)
Ltac keeps_one :=
  first [ apply keeps_ret | apply keeps_fail | apply keeps_of_run | apply keeps_of_res | apply keeps_gate | apply keeps_uuid
        | apply keeps_now | apply keeps_on_error | apply keeps_attempt
        | solve [eauto with keeps nocore]
        | apply keeps_quiet; [assumption|solve [auto with quiet]]
        | apply keeps_quiet_step; [assumption|solve [auto with quiet]]
        | apply keeps_fold; intros ? ?
        | apply keeps_bind; [|intros ?]
        | match goal with |- keeps _ (match ?x with _ => _ end) => destruct x end ].
Ltac keeping := repeat (cbv zeta; keeps_one).

Section Programs.
Context `{HexCrate} `{Sha256} `{PageCodec} `{CodecScope} `{DescriptorCodec} `{ServingCodec} `{UuidCrate} `{Rfc3339}.
Context `{CommitCodec} `{PinCodec} `{RecordCodec} `{ChunkCodec} (env : environment) (at_ : Location).
Context (A : disk -> Prop) (HA : stable A).

Lemma write_quiet D name b : (D, name) <> COMPLETE -> keeps A (write_atomic env D name b).
Proof using HA. intros Hn. unfold write_atomic, write_new, sync_dir. keeping. Qed.

Lemma remove_quiet err D name : (D, name) <> COMPLETE -> keeps A (remove_with env err D name).
Proof using HA. intros Hn. unfold remove_with, sync_dir. keeping. Qed.

Hint Resolve write_quiet remove_quiet : keeps.

Lemma ask_keeps {X} (f : nat -> Res X) : keeps A (ask f).
Proof. intros s Hs. unfold ask. cbn [now past]. split; [apply same_past|]. by destruct (lift (f (clock s))). Qed.
Hint Resolve ask_keeps : keeps.

Lemma append_bytes_keeps b : keeps A (append_journal_bytes env b).
Proof using HA. unfold append_journal_bytes, sync_dir. keeping. Qed.
Hint Resolve append_bytes_keeps : keeps.

Lemma flush_keeps buf : keeps A (flush_locked env buf).
Proof using HA. unfold flush_locked. keeping. Qed.
Hint Resolve flush_keeps : keeps.

Lemma append_keeps buf r : keeps A (append env buf r).
Proof using HA. unfold append. keeping. Qed.
Hint Resolve append_keeps : keeps.

Lemma verify_blob_keeps digest size : keeps A (verify_blob env digest size).
Proof using HA. unfold verify_blob. keeping. Qed.
Hint Resolve verify_blob_keeps : keeps.

Lemma stream_ranges_keeps fuel src f handle offset hashed : keeps A (stream_ranges env fuel src f handle offset hashed).
Proof using HA.
  revert offset hashed. induction fuel as [|fuel IH]; intros offset hashed; simpl; unfold next_ranges, write_range, tagged; keeping.
Qed.
Hint Resolve stream_ranges_keeps : keeps.

Lemma blob_name_quiet name : (Content, name) <> COMPLETE.
Proof. done. Qed.
Hint Resolve blob_name_quiet : quiet keeps.

Lemma write_reader_blob_keeps src f : keeps A (write_reader_blob env src f).
Proof using HA. unfold write_reader_blob, write_reader_blob_stream, stream_file, sync_dir, tagged. keeping. Qed.
Hint Resolve write_reader_blob_keeps : keeps.

Lemma hydrate_file_keeps fetch source st f : keeps A (hydrate_file env fetch source st f).
Proof using HA. unfold hydrate_file, fetch_small, tagged. keeping. Qed.

Lemma reading_keeps {X} (c : M X) (Q : disk -> X -> Prop) : (forall d, reads d c (Q d)) -> keeps A c.
Proof. intros Hc. apply keeps_reads. intros d. by eapply reads_weaken. Qed.

Lemma read_optional_keeps p : keeps A (read_optional env p).
Proof. eapply reading_keeps. intros d. apply reads_optional_post. Qed.
Lemma validate_store_keeps b : keeps A (validate_store env at_ b).
Proof. eapply reading_keeps. intros d. apply validate_store_reads. Qed.
Lemma owner_binding_keeps : keeps A (owner_binding env at_).
Proof. eapply reading_keeps. intros d. apply owner_binding_reads. Qed.
Lemma read_registration_keeps id : keeps A (read_registration env id).
Proof. eapply reading_keeps. intros d. apply read_registration_reads. Qed.
Lemma release_record_keeps b : keeps A (release_record env b).
Proof. eapply reading_keeps. intros d. apply release_record_reads. Qed.
Lemma require_registration_keeps b : keeps A (require_registration env at_ b).
Proof. eapply reading_keeps. intros d. apply require_registration_reads. Qed.
Hint Resolve read_optional_keeps validate_store_keeps owner_binding_keeps read_registration_keeps release_record_keeps
  require_registration_keeps : keeps.

Lemma registry_quiet name : (Registry, name) <> COMPLETE.
Proof. done. Qed.
Hint Resolve registry_quiet : quiet keeps.

Lemma begin_hydration_keeps : keeps A (begin_hydration env at_).
Proof using HA.
  unfold begin_hydration, register, sync_dir. keeping.
Qed.

Lemma journal_keeps : keeps A (read_journal env) /\ keeps A (truncate_journal_tail env).
Proof using HA. split; unfold read_journal, truncate_journal_tail, sync_dir; keeping. Qed.

Lemma transaction_keeps : keeps A (transaction env).
Proof. unfold transaction, try_transaction. keeping. intros s Hs. simpl. auto using same_past. Qed.

Lemma validate_hydration_keeps v : keeps A (validate_hydration env at_ v).
Proof. unfold validate_hydration. keeping. Qed.

Lemma stored_view_keeps : keeps A (stored_view env).
Proof using HA. unfold stored_view. keeping. Qed.

Lemma bound_manifest_keeps : keeps A (bound_manifest env).
Proof. unfold bound_manifest. keeping. Qed.
End Programs.

(** ** Preparing *)

Section Prepare.
Context `{HexCrate} `{Sha256} `{PageCodec} `{CodecScope} `{DescriptorCodec} `{ServingCodec} `{UuidCrate} `{Rfc3339}.
Context `{CommitCodec} `{PinCodec} `{RecordCodec} `{ChunkCodec} (env : environment) (at_ : Location).

(** The record of [d0] is still there, or it has been removed. *)
Definition origin (d0 d : disk) : Prop :=
  (names d !! COMPLETE = names d0 !! COMPLETE \/ names d !! COMPLETE = None) /\
  (saved d !! COMPLETE = saved d0 !! COMPLETE \/ saved d !! COMPLETE = names d0 !! COMPLETE \/ saved d !! COMPLETE = None).

Lemma origin_stable d0 : stable (origin d0).
Proof. intros d d' [En Es] [Hn Hs]. split; [by rewrite En|]. destruct Es as [->| ->]; [done|]. destruct Hn; auto. Qed.

Definition withdrawn (d0 d : disk) : Prop := origin d0 d /\ names d !! COMPLETE = None.

Lemma withdrawn_stable d0 : stable (withdrawn d0).
Proof. intros d d' Hd [Ho Hn]. split; [by eapply origin_stable|]. destruct Hd as [-> _]. done. Qed.

Lemma absent_stable : stable absent.
Proof. intros d d' [En Es] [Hn Hs]. split; [by rewrite En|]. by destruct Es as [->| ->]. Qed.

Lemma origin_removing d0 d d' : removing Root COMPLETE_MARKER d d' -> origin d0 d -> origin d0 d'.
Proof.
  intros (_ & _ & Hn & Hs) [On Os]. change (Root, COMPLETE_MARKER) with COMPLETE in *.
  assert (names d' !! COMPLETE = names d0 !! COMPLETE \/ names d' !! COMPLETE = None) as Hn' by (destruct Hn as [->| ->]; auto).
  split; [done|]. destruct Hs as [->|Hs]; [done|]. rewrite Hs. simpl. destruct Hn' as [->| ->]; auto.
Qed.

Lemma invalidate_ok d0 :
  triple (origin d0) (origin d0) (invalidate_complete env) (fun _ => withdrawn d0) (origin d0).
Proof.
  apply triple_from. intros d Hd. eapply triple_weaken; [apply (remove_spec env io_err Root COMPLETE_MARKER d)|..];
    eauto using origin_removing. intros [] d' [Hr Hn]. split; [by eapply origin_removing|done].
Qed.

(** The write of the view saves the withdrawal. *)
Lemma view_write_ok d0 b :
  triple (origin d0) (withdrawn d0) (write_atomic env Root VIEW_FILE b) (fun _ => absent) (origin d0).
Proof.
  apply triple_from. intros d [Ho Hn]. assert (forall d', writing_any Root VIEW_FILE b d d' -> origin d0 d') as Hw.
  { intros d' (id & i & _ & _ & [[En Es]|(_ & En & _ & Es)]); (eapply origin_stable; [|exact Ho]); split.
    - apply En. by intros [= E].
    - left. by rewrite Es.
    - by rewrite En, lookup_insert_ne.
    - destruct Es as [->|Es]; [by left|]. rewrite Es. simpl. right. by rewrite En, lookup_insert_ne. }
  eapply triple_weaken; [apply (write_atomic_spec env Root VIEW_FILE b d)|auto|done| |auto].
  intros [] d' Hd'. by eapply written_absent.
Qed.

Lemma prepare_ok view files closure d0 :
  triple (origin d0) (origin d0) (prepare_hydration_for_kind env at_ view files closure)
    (fun _ d => validate_view_policy view (bool_decide (is_Some closure)) = Ok tt /\ absent d) (origin d0).
Proof.
  pose proof (origin_stable d0) as HS. unfold prepare_hydration_for_kind. cbv zeta.
  apply keeps_then; [keeping|intros _]. apply keeps_then; [apply transaction_keeps|intros _].
  apply keeps_then; [apply validate_hydration_keeps|intros _].
  eapply (triple_bind _ _ _ _ (fun _ d => validate_view_policy view (bool_decide (is_Some closure)) = Ok tt /\ origin d0 d)).
  { apply triple_of_res; [|done]. by intros []. }
  intros _. apply triple_pure. intros Hv. apply keeps_then; [by apply stored_view_keeps|intros stored].
  apply triple_guard; [done|intros _]. apply keeps_then; [apply keeps_of_res|intros _].
  apply keeps_then; [keeping; apply read_optional_keeps|intros marker]. apply triple_guard; [done|intros _].
  apply keeps_then; [apply bound_manifest_keeps|intros previous]. apply triple_guard; [done|intros _].
  apply keeps_then; [apply keeps_gate|intros _]. destruct (journal_keeps env (origin d0) HS) as [Hj1 Hj2].
  apply keeps_then; [exact Hj1|intros _]. apply keeps_then; [exact Hj2|intros _].
  eapply triple_bind; [apply invalidate_ok|intros []].
  eapply (triple_bind _ _ _ _ (fun _ => withdrawn d0)).
  { eapply triple_stage; [apply (begin_hydration_keeps env at_ _ (withdrawn_stable d0))|by intros ? []..]. }
  intros []. eapply (triple_bind _ _ _ _ (fun _ => withdrawn d0)); [apply triple_of_res; [done|by intros ? []]|]. intros b.
  eapply triple_weaken; [apply view_write_ok|done|done| |done]. done.
Qed.

(** *** What a program returns *)

Definition yields {X} (c : M X) (P : X -> Prop) : Prop := forall s a s', c s = (Ok a, s') -> P a.

Lemma yields_ret {X} (a : X) (P : X -> Prop) : P a -> yields (ret a) P.
Proof. intros Ha s b s' [= <- _]. done. Qed.
Lemma yields_bind {X Y} (c : M X) (k : X -> M Y) (P : Y -> Prop) : (forall a, yields (k a) P) -> yields (bind c k) P.
Proof. intros Hk s b s' Hb. unfold bind in Hb. destruct (c s) as [[a|e] s1]; [by eapply Hk|done]. Qed.
Lemma yields_guard {X} (b : bool) e (k : M X) P : yields k P -> yields (if b then fail e else k) P.
Proof. intros Hk s a s'. destruct b; [done|apply Hk]. Qed.
Lemma yields_on_error {X} f (c : M X) P : yields c P -> yields (on_error f c) P.
Proof.
  intros Hc s a s' Ha. unfold on_error in Ha. destruct (c s) as [[x|e] s1] eqn:E; [|done]. injection Ha as <- <-. by eapply Hc.
Qed.

Lemma triple_and_yields (I P : disk -> Prop) {X} (c : M X) (Q : X -> disk -> Prop) R (Y : X -> Prop) :
  triple I P c Q R -> yields c Y -> triple I P c (fun a d => Y a /\ Q a d) R.
Proof.
  intros Hc Hy s Hs. pose proof (Hc s Hs) as Ht. destruct (c s) as [[a|e] s'] eqn:E; [|done].
  destruct Ht as [Hp Ha]. split; [done|]. split; [by eapply Hy|done].
Qed.

Lemma hydrate_file_counts fetch source st f :
  yields (hydrate_file env fetch source st f) (fun st' => fetched st' + resumed st' = fetched st + resumed st + 1).
Proof.
  apply yields_bind. intros [].
  - apply yields_bind. intros [r buf]. apply yields_bind. intros _. apply yields_ret. simpl. lia.
  - apply yields_bind. intros p. apply yields_bind. intros m. cbv zeta. apply yields_bind. intros _. apply yields_bind.
    intros [r buf]. apply yields_bind. intros _. apply yields_ret. simpl. lia.
Qed.

Lemma finish_reports view files closure grant a b c :
  yields (finish_hydration_commit env at_ view files closure grant (a, b, c))
    (fun r => r_fetched r = a /\ r_resumed r = b).
Proof.
  apply yields_on_error, yields_bind. intros [blobs total]. apply yields_bind. intros kb. apply yields_bind. intros _.
  by apply yields_ret.
Qed.

(** *** The pass *)

Context (Huuid : forall k, is_empty (uuid env k) = false).

Definition hydrating (d0 : disk) (files : list SnapshotFile) (d : disk) : Prop := origin d0 d \/ safe files d.

Lemma pass_ok view files closure grant fill (Y : Z * Z * Z -> Prop) d0 :
  (forall c, closure = Some c -> closure_valid files c) -> keeps absent fill -> yields fill Y ->
  triple (hydrating d0 files) (eq d0) (pass env at_ view files closure grant fill)
    (fun r d => (exists n, Y (r_fetched r, r_resumed r, n)) /\ committed files d) (hydrating d0 files).
Proof using Huuid.
  intros Hval Hfill HY. assert (Ho : forall d, origin d0 d -> hydrating d0 files d) by (intros; by left).
  assert (Ha : forall d, absent d -> hydrating d0 files d) by (intros d Hd; right; by left).
  unfold pass. eapply triple_bind.
  { apply triple_on_error. eapply triple_weaken; [apply (prepare_ok view files closure d0)|auto| |auto..]; [|intros a d Hd; exact Hd].
    intros d <-. split; auto. }
  intros []. apply triple_pure. intros Hview.
  eapply triple_bind; [eapply triple_stage; [apply (triple_and_yields _ _ _ _ _ _ Hfill HY)|auto..]|].
  intros [[a b] c]. apply triple_pure. intros Hy.
  eapply triple_weaken; [apply (triple_and_yields _ _ _ _ _ _ (commit_ok env at_ Huuid view files closure grant (a, b, c) Hval Hview)
    (finish_reports view files closure grant a b c))|..].
  - intros d Hd. by right.
  - done.
  - intros rep d [(-> & ->) Hc]. eauto.
  - intros d Hd. by right.
Qed.

(** What a pass leaves, in the terms of its callers. *)
Lemma pass_outcome view files closure grant fill Y d0 k0 :
  (forall c, closure = Some c -> vc_files c = files /\ Btree.ordered (vc_pages c) /\
     exists descriptor, from_pages descriptor (vc_pages c) = Ok c) ->
  keeps absent fill -> yields fill Y ->
  let (r, s) := pass env at_ view files closure grant fill (mkWorld d0 k0 []) in
  (forall d d' env', d ∈ past s -> crash d d' -> calm env' ->
     names d' !! COMPLETE = names d0 !! COMPLETE \/ names d' !! COMPLETE = saved d0 !! COMPLETE \/
     lookup COMPLETE d' = None \/
     exists b, lookup COMPLETE d' = Some (mkInode b true true) /\ returns d' (verify_commit env' b) files) /\
  (forall report d' env', r = Ok report -> d' = now s \/ crash (now s) d' -> calm env' ->
     (exists n, Y (r_fetched report, r_resumed report, n)) /\
     exists b, lookup COMPLETE d' = Some (mkInode b true true) /\ returns d' (verify_commit env' b) files).
Proof using Huuid.
  intros Hclo Hfill HY. assert (Hval : forall c, closure = Some c -> closure_valid files c).
  { intros c Hc. destruct (Hclo c Hc) as (? & ? & desc & Hd). split_and!; [done|done|].
    by eapply ClosureExact.from_pages_canonical. }
  pose proof (pass_ok view files closure grant fill Y d0 Hval Hfill HY (mkWorld d0 k0 []) eq_refl) as Ht.
  destruct (pass _ _ _ _ _ _ _ _) as [r s]. destruct Ht as [(new & Hnew & Hall) Hr]. split.
  - intros d d' env' Hd Hc He. rewrite Hnew in Hd. rewrite Forall_forall in Hall.
    destruct (Hall d) as [[Hn Hs]|Hsafe]; [by apply list_elem_of_In| |].
    + destruct Hc as (_ & Hc & _). destruct (Hc COMPLETE) as [E|E].
      * destruct Hn as [Hn|Hn]; [left; congruence|]. right; right; left. unfold lookup. by rewrite E, Hn.
      * destruct Hs as [Hs|[Hs|Hs]]; [right; left; congruence|left; congruence|].
        right; right; left. unfold lookup. by rewrite E, Hs.
    + do 2 right. by eapply safe_crash.
  - intros report d' env' -> Hc He. destruct Hr as [Hcount Hr]. split; [done|by eapply committed_found].
Qed.

Lemma fetch_all_keeps manifest fetch source : keeps absent (fetch_all env manifest fetch source).
Proof.
  pose proof absent_stable as HS. unfold fetch_all, tagged. apply keeps_bind.
  - apply keeps_fold. intros st f. by apply hydrate_file_keeps.
  - intros st. apply keeps_bind; [by apply flush_keeps|]. intros [r buf]. keeping.
Qed.

Lemma fold_counts fetch source manifest st n :
  fetched st + resumed st = n ->
  yields (fold_m (hydrate_file env fetch source) st manifest) (fun st' => fetched st' + resumed st' = n + zlen manifest).
Proof.
  revert st n. induction manifest as [|f manifest IH]; intros st n Hn; simpl.
  - apply yields_ret. unfold zlen. simpl. lia.
  - intros s st' s' Hs. unfold bind in Hs. destruct (hydrate_file env fetch source st f s) as [[st1|] s1] eqn:E; [|done].
    apply hydrate_file_counts in E. apply (IH st1 (n + 1)) in Hs; [|lia]. unfold zlen in *. simpl. lia.
Qed.

Lemma fetch_all_counts manifest fetch source :
  yields (fetch_all env manifest fetch source) (fun c => c.1.1 + c.1.2 = zlen manifest).
Proof.
  intros s c s' Hs. unfold fetch_all, bind in Hs.
  destruct (fold_m (hydrate_file env fetch source) _ manifest s) as [[st|] s1] eqn:E; [|done].
  apply (fold_counts _ _ _ _ 0) in E; [|done]. destruct (flush_locked env (pending_records st) s1) as [[[r buf]|] s2]; [|done].
  destruct (tagged HydrationCommit (of_run r) s2) as [[[]|] s3]; [|done]. injection Hs as <- <-. simpl. lia.
Qed.

(** C1: a hydration ends complete or leaves nothing to believe. From any disk,
    whatever the sources answer and whatever operations fail, a crash at any
    moment leaves the completion record the name referred to at the start, or
    no record, or one that reads back as exactly these files. Once the
    hydration has returned, every file was fetched or found, and the record is
    there and reads back, before and after any crash. *)
Theorem hydration_ends_complete view files closure fetch source d0 k0 :
  (forall c, closure = Some c -> vc_files c = files /\ Btree.ordered (vc_pages c) /\
     exists descriptor, from_pages descriptor (vc_pages c) = Ok c) ->
  let (r, s) := hydrate_file_closure env at_ view files closure fetch source (mkWorld d0 k0 []) in
  (forall d d' env', d ∈ past s -> crash d d' -> calm env' ->
     names d' !! COMPLETE = names d0 !! COMPLETE \/ names d' !! COMPLETE = saved d0 !! COMPLETE \/
     lookup COMPLETE d' = None \/
     exists b, lookup COMPLETE d' = Some (mkInode b true true) /\ returns d' (verify_commit env' b) files) /\
  (forall report d' env', r = Ok report -> d' = now s \/ crash (now s) d' -> calm env' ->
     r_fetched report + r_resumed report = zlen files /\
     exists b, lookup COMPLETE d' = Some (mkInode b true true) /\ returns d' (verify_commit env' b) files).
Proof using Huuid.
  intros Hclo. pose proof (pass_outcome view files closure match closure with Some _ => src ← source; source_grant src | None => None end
    (fetch_all env files fetch source) (fun c => c.1.1 + c.1.2 = zlen files) d0 k0 Hclo
    (fetch_all_keeps files fetch source) (fetch_all_counts files fetch source)) as Hp.
  unfold hydrate_file_closure. destruct (pass _ _ _ _ _ _ _ _) as [r s]. destruct Hp as [Hc Hok]. split; [exact Hc|].
  intros report d' env' Hr Hd He. destruct (Hok report d' env' Hr Hd He) as [[n Hn] Hb]. done.
Qed.
End Prepare.
End HydrateFacts.
