(* ===== verification/StreamFacts.v ===== *)
(** * StreamFacts

    A large file streamed by ranges is published whole and verified, or not at
    all, and the loop over its ranges ends. *)

From S2P Require Import Prelude Types Faults Text Profile Btree Frames Wire ChunkMap Closure Disk DiskLogic Journal Records Pins Durable DurableFacts CommitFacts Hydrate HydrateFacts.
Import Digests Disk DiskLogic Records Durable CommitFacts Hydrate HydrateFacts.
Local Open Scope string_scope.
Local Open Scope list_scope.
Local Open Scope Z_scope.

Module StreamFacts.
Section Stream.
Context `{HexCrate} `{Sha256} `{ChunkCodec} (env : environment) (src : RangeSource) (f : SnapshotFile).

(** The ranges of a round stay within the file, start where they should and
    are not empty. *)
Definition in_file (r : Z * Z * bytes) : Prop := 0 <= r.1.2 <= file_size f - r.1.1.

Lemma next_ranges_ok offset :
  0 < CHUNK_SIZE -> offset < file_size f ->
  yields (next_ranges src f offset) (fun rs => Forall in_file rs /\ exists r rest, rs = r :: rest /\ 0 < r.1.2).
Proof.
  intros Hc Ho. unfold next_ranges. cbv zeta. destruct (source_prefetch src && _) eqn:E.
  - apply andb_true_iff in E as [_ E%Z.ltb_lt]. apply yields_bind. intros a. apply yields_bind. intros b. apply yields_ret.
    split; [repeat constructor; simpl; lia|]. do 2 eexists. split; [done|]. simpl. lia.
  - apply yields_bind. intros a. apply yields_ret. split; [repeat constructor; simpl; lia|].
    do 2 eexists. split; [done|]. simpl. lia.
Qed.

Lemma write_range_ok handle st r :
  yields (write_range env handle st r) (fun st' => st' = (st.1 + r.1.2, st.2 ++ r.2) /\ r.1.1 = st.1 /\ zlen r.2 = r.1.2).
Proof.
  destruct st as [offset hashed], r as [[ro rl] owner]. unfold write_range. cbn [fst snd].
  destruct (negb _ || negb _) eqn:E; [by intros ? ? ?|]. apply yields_bind. intros _. apply yields_bind. intros _.
  apply yields_ret. apply orb_false_iff in E as [E1%negb_false_iff E2%negb_false_iff]. bools. done.
Qed.

Lemma write_ranges_ok handle rs st :
  Forall in_file rs -> st.1 <= file_size f -> zlen st.2 = st.1 ->
  yields (fold_m (write_range env handle) st rs) (fun st' => st.1 <= st'.1 <= file_size f /\ zlen st'.2 = st'.1 /\
    forall r rest, rs = r :: rest -> st.1 + r.1.2 <= st'.1).
Proof.
  intros Hrs. revert st. induction Hrs as [|r rs Hr Hrs IH]; intros st Hst Hz; simpl.
  - apply yields_ret. split_and!; [lia|lia|lia|done].
  - intros s a s' Hs. unfold bind in Hs. destruct (write_range env handle st r s) as [[st1|] s1] eqn:E; [|done].
    apply write_range_ok in E as (-> & E1 & E2). unfold in_file in Hr.
    apply IH in Hs as ((? & ?) & ? & _); cbn [fst snd] in *; [|lia|rewrite zlen_app; lia].
    split_and!; [lia|lia|done|]. intros r' rest [= <- <-]. lia.
Qed.

(** *** Termination *)

Definition fueled {X} (c : M X) : Prop := forall s, (c s).1 <> Err OutOfFuel.

Lemma fueled_bind {X Y} (c : M X) (k : X -> M Y) (P : X -> Prop) :
  fueled c -> yields c P -> (forall a, P a -> fueled (k a)) -> fueled (bind c k).
Proof.
  intros Hc Hy Hk s. unfold bind. specialize (Hc s). destruct (c s) as [[a|e] s'] eqn:E; [by apply Hk, (Hy s a s')|].
  simpl in *. congruence.
Qed.

Lemma fueled_then {X Y} (c : M X) (k : X -> M Y) : fueled c -> (forall a, fueled (k a)) -> fueled (bind c k).
Proof. intros Hc Hk. by apply (fueled_bind c k (fun _ => True)). Qed.

Lemma fueled_ret {X} (a : X) : fueled (ret a).
Proof. by intros s. Qed.
Lemma fueled_of_res {X} (r : Res X) : fueled (of_res r).
Proof. intros s. by destruct r. Qed.
Lemma fueled_guard {X} (b : bool) e (k : M X) : fueled k -> fueled (if b then fail e else k).
Proof. by destruct b. Qed.
Lemma fueled_on_error {X} g (c : M X) : fueled c -> fueled (on_error g c).
Proof. intros Hc s. unfold on_error. specialize (Hc s). by destruct (c s) as [[a|[e| |]] s']. Qed.
Lemma fueled_step {X} (g : disk -> result io_error X * disk) : fueled (step env g).
Proof. intros s. unfold step. by destruct (fault env (clock s)) as [[[] m]|]; [..|destruct (g (now s))]. Qed.
Lemma fueled_sys {X} (g : disk -> result io_error X * disk) : fueled (sys env g).
Proof. apply fueled_then; [apply fueled_step|]. intros r. apply fueled_of_res. Qed.
Lemma fueled_gate : fueled (gate env).
Proof. intros s. unfold gate. by destruct (refuse env (clock s)). Qed.
Lemma fueled_ask {X} (g : nat -> Res X) : fueled (ask g).
Proof. intros s. unfold ask. simpl. by destruct (g (clock s)). Qed.
Lemma fueled_fold {X Y} (g : X -> Y -> M X) ys x : (forall x y, fueled (g x y)) -> fueled (fold_m g x ys).
Proof. intros Hg. revert x. induction ys as [|y ys IH]; intros x; [apply fueled_ret|]. by apply fueled_then. Qed.

Lemma next_ranges_fueled offset : fueled (next_ranges src f offset).
Proof.
  unfold next_ranges. cbv zeta. destruct (source_prefetch src && _); repeat (apply fueled_then; [apply fueled_ask|intros ?]);
    apply fueled_ret.
Qed.

Lemma write_range_fueled handle st r : fueled (write_range env handle st r).
Proof.
  destruct st as [offset hashed], r as [[ro rl] owner]. apply fueled_guard. apply fueled_then; [apply fueled_gate|intros _].
  apply fueled_then; [apply fueled_on_error, fueled_sys|intros _]. apply fueled_ret.
Qed.

Lemma stream_ranges_fueled fuel handle offset hashed :
  0 < CHUNK_SIZE -> (Z.to_nat (file_size f - offset) <= fuel)%nat -> offset <= file_size f -> zlen hashed = offset ->
  fueled (stream_ranges env fuel src f handle offset hashed).
Proof.
  intros Hc. revert offset hashed. induction fuel as [|fuel IH]; intros offset hashed Hf Ho Hz; simpl;
    destruct (Z.leb_spec (file_size f) offset) as [Hend|Hend]; try apply fueled_ret; [lia|].
  eapply fueled_bind; [apply fueled_on_error, next_ranges_fueled|by apply yields_on_error, next_ranges_ok|].
  intros rs [Hrs (r & rest & -> & Hpos)].
  eapply fueled_bind; [apply fueled_fold, write_range_fueled|apply write_ranges_ok; [done|done|done]|].
  intros [offset' hashed'] ((? & ?) & ? & Hr). cbn [fst snd] in *. specialize (Hr _ _ eq_refl). apply IH; [lia|lia|done].
Qed.

Lemma stream_fueled : 0 < CHUNK_SIZE -> 0 <= file_size f -> fueled (write_reader_blob env src f).
Proof.
  intros Hc Hsize. apply fueled_then; [apply fueled_on_error, fueled_ask|intros _]. unfold write_reader_blob_stream.
  do 2 (apply fueled_then; [apply fueled_on_error, fueled_gate|intros _]; cbv zeta).
  apply fueled_then; [by intros s|]. intros id. apply fueled_then; [apply fueled_on_error, fueled_sys|]. intros i.
  eapply (fueled_bind _ _ (fun r => r <> Err OutOfFuel)).
  - intros s. unfold attempt. by destruct (stream_file _ _ _ _ _ _ s).
  - intros s r s' Hs. unfold attempt in Hs. destruct (stream_file _ _ _ _ _ _ s) as [r1 s1] eqn:E. injection Hs as <- <-.
    assert (fueled (stream_file env src f (blob_name (file_digest f)) (tmp_name (blob_name (file_digest f)) id) i)) as Hf.
    { apply fueled_then; [apply stream_ranges_fueled; [done|lia|lia|done]|]. intros b. apply fueled_guard.
      apply fueled_then; [apply fueled_gate|intros _].
      do 2 (apply fueled_then; [apply fueled_on_error, fueled_sys|intros _]). apply fueled_on_error, fueled_sys. }
    specialize (Hf s). by rewrite E in Hf.
  - intros r Hr. apply fueled_then; [apply fueled_step|intros _]. by intros s.
Qed.

(** *** What is published *)

Definition name : string := blob_name (file_digest f).
Definition target : path := (Content, name).

(** The bytes of the file. *)
Definition verified (b : bytes) : Prop := digest_of b = file_digest f /\ zlen b = file_size f.

(** Only the temporary name and a new file differ. *)
Definition unpublished (tmp : string) (d d' : disk) : Prop :=
  (forall p, p <> (Content, tmp) -> names d' !! p = names d !! p) /\ saved d' = saved d /\
  exists i, new_file d i /\ forall j, j <> i -> inodes d' !! j = inodes d !! j.

Lemma unpublished_refl tmp d : unpublished tmp d d.
Proof. split_and!; [done|done|]. exists (fresh_inode d). split; [apply fresh_inode_new|done]. Qed.

Definition publishing (tmp : string) (d d' : disk) : Prop :=
  unpublished tmp d d' \/ exists b, verified b /\ writing Content name tmp b d d'.

Lemma staged_unpublished tmp d i b sync d' : staged Content tmp d i b sync d' -> unpublished tmp d d'.
Proof.
  intros (Hi & _ & Hn & Hs & Hin). split_and!; [intros p Hp; by rewrite Hn, lookup_insert_ne|done|].
  exists i. split; [done|]. intros j Hj. by rewrite Hin, lookup_insert_ne.
Qed.

Lemma staged_publishing tmp d i b sync d' : staged Content tmp d i b sync d' -> publishing tmp d d'.
Proof. intros Hs. left. by eapply staged_unpublished. Qed.

Lemma write_range_staged tmp d i st r :
  triple (publishing tmp d) (staged Content tmp d i st.2 false) (write_range env i st r)
    (fun st' => staged Content tmp d i st'.2 false) (publishing tmp d).
Proof.
  destruct st as [offset hashed], r as [[ro rl] owner]. cbn [snd]. apply triple_guard; [eauto using staged_publishing|]. intros _.
  apply triple_gate; [eauto using staged_publishing|].
  eapply (triple_bind _ _ _ _ (fun _ => staged Content tmp d i (hashed ++ owner) false)).
  - apply triple_on_error, triple_sys. intros d1 Hd.
    assert (staged Content tmp d i (hashed ++ owner) false (do_write i owner d1).2) as Hd2 by (by eapply staged_inode; [|exact Hd]).
    split_and!; eauto using staged_publishing.
  - intros []. by apply triple_ret.
Qed.

Lemma next_ranges_keeps (A : disk -> Prop) offset : keeps A (next_ranges src f offset).
Proof.
  unfold next_ranges. cbv zeta. destruct (source_prefetch src && _);
    repeat (apply keeps_bind; [apply ask_keeps|intros ?]); apply keeps_ret.
Qed.

Lemma stream_ranges_staged tmp d i fuel offset hashed :
  0 < CHUNK_SIZE -> offset <= file_size f -> zlen hashed = offset ->
  triple (publishing tmp d) (staged Content tmp d i hashed false) (stream_ranges env fuel src f i offset hashed)
    (fun b d' => zlen b = file_size f /\ staged Content tmp d i b false d') (publishing tmp d).
Proof.
  intros Hc. revert offset hashed. induction fuel as [|fuel IH]; intros offset hashed Ho Hz; simpl;
    destruct (Z.leb_spec (file_size f) offset) as [Hend|Hend];
    try (apply triple_ret; intros d1 Hd; split; [lia|done]); [apply triple_of_run; [done|eauto using staged_publishing]|].
  eapply (triple_bind _ _ _ _ (fun rs d1 => (Forall in_file rs /\ exists r rest, rs = r :: rest /\ 0 < r.1.2) /\
    staged Content tmp d i hashed false d1)).
  { apply triple_and_yields; [|by apply yields_on_error, next_ranges_ok]. apply triple_on_error. eapply triple_stage;
      [apply next_ranges_keeps|eauto using staged_publishing..]. }
  intros rs. apply triple_pure. intros [Hrs _].
  eapply (triple_bind _ _ _ _ (fun st d1 => (st.1 <= file_size f /\ zlen st.2 = st.1) /\ staged Content tmp d i st.2 false d1)).
  { eapply triple_weaken; [apply triple_and_yields; [apply (triple_fold (publishing tmp d) (write_range env i)
      (fun _ st => staged Content tmp d i st.2 false) (publishing tmp d) rs); intros; apply write_range_staged
      |apply write_ranges_ok; [exact Hrs|exact Ho|exact Hz]]|auto|auto| |auto].
    intros st d1 [((? & ?) & ? & _) ?]. done. }
  intros [offset' hashed']. apply triple_pure. intros [Ho' Hz']. by apply IH.
Qed.

(** The file after its name is published. *)
Definition published (d d' : disk) : Prop := exists b, verified b /\ written Content name b d d'.

Lemma renamed_publishing tmp d i b d1 :
  verified b -> staged Content tmp d i b true d1 ->
  let d2 := (do_rename (Content, tmp) target d1).2 in
  d2 = mkDisk (<[i := mkInode b true true]> (inodes d)) (<[target := i]> (names d)) (saved d) /\ publishing tmp d d2.
Proof.
  intros Hb (Hi & Ht & Hn & Hs & Hin). cbv zeta.
  assert (E : (do_rename (Content, tmp) target d1).2 = mkDisk (<[i := mkInode b true true]> (inodes d)) (<[target := i]> (names d)) (saved d)).
  { unfold do_rename. rewrite Hn, lookup_insert_eq. simpl. by rewrite delete_insert_id, Hs, Hin. }
  split; [done|]. rewrite E. right. exists b. split; [done|]. exists i. split; [done|]. simpl.
  split; [intros j Hj; by rewrite lookup_insert_ne|]. right. rewrite lookup_insert_eq. auto.
Qed.

Lemma stream_file_ok tmp d i :
  0 < CHUNK_SIZE -> 0 <= file_size f ->
  triple (publishing tmp d) (staged Content tmp d i [] false) (stream_file env src f name tmp i)
    (fun _ => published d) (publishing tmp d).
Proof.
  intros Hc Hsize. unfold stream_file. eapply triple_bind; [by apply stream_ranges_staged|]. intros b.
  apply triple_pure. intros Hz. apply triple_guard; [eauto using staged_publishing|]. intros Hd.
  assert (verified b) as Hb. { split; [|done]. unfold ne in Hd. by apply negb_false_iff, String.eqb_eq in Hd. }
  apply triple_gate; [eauto using staged_publishing|].
  eapply (triple_bind _ _ _ _ (fun _ => staged Content tmp d i b true)).
  { apply triple_on_error, triple_sys. intros d1 Hd1.
    assert (staged Content tmp d i b true (do_sync i d1).2) as Hd2 by (by eapply staged_inode; [|exact Hd1]).
    split_and!; eauto using staged_publishing. }
  intros []. eapply (triple_bind _ _ _ _ (fun _ d2 => (names d !! (Content, tmp) = None /\ new_file d i) /\
    d2 = mkDisk (<[i := mkInode b true true]> (inodes d)) (<[target := i]> (names d)) (saved d) /\ publishing tmp d d2)).
  { apply triple_on_error, triple_sys. intros d1 Hd1. destruct (renamed_publishing _ _ _ _ _ Hb Hd1) as [E Hp].
    pose proof Hd1 as (Hi & Ht & _). split_and!; eauto using staged_publishing. }
  intros []. apply triple_pure. intros [Ht Hi]. apply triple_on_error, triple_sys. intros d1 [-> Hp].
  assert (written Content name b d (do_sync_dir Content (mkDisk (<[i := mkInode b true true]> (inodes d)) (<[target := i]> (names d)) (saved d))).2) as Hw.
  { exists i. split_and!; [done|done|done|]. intros p. by rewrite sync_dir_saved. }
  assert (publishing tmp d (do_sync_dir Content (mkDisk (<[i := mkInode b true true]> (inodes d)) (<[target := i]> (names d)) (saved d))).2) as Hp2.
  { right. exists b. split; [done|]. by apply written_writing. }
  split_and!; [done..|]. intros [] _. by exists b.
Qed.

Definition publishing_any (d d' : disk) : Prop := exists id, publishing (tmp_name name id) d d'.

Lemma create_publishing tmp d :
  triple (publishing tmp d) (eq d) (sys env (do_create (Content, tmp)))
    (fun i d' => names d !! (Content, tmp) = None /\ staged Content tmp d i [] false d') (publishing tmp d).
Proof.
  assert (publishing tmp d d) as Hd by (left; apply unpublished_refl). apply triple_sys. intros d1 <-. unfold do_create.
  destruct (names d !! (Content, tmp)) as [j|] eqn:E; cbn [fst snd]; [split_and!; auto; done|].
  assert (staged Content tmp d (fresh_inode d) [] false (mkDisk (<[fresh_inode d := mkInode [] true false]> (inodes d))
    (<[(Content, tmp) := fresh_inode d]> (names d)) (saved d))) as Hs by (split_and!; [apply fresh_inode_new|done..]).
  split_and!; eauto using staged_publishing. by intros i [= <-].
Qed.

Lemma remove_publishing tmp d d' : tmp <> name -> publishing tmp d d' -> publishing tmp d (do_remove (Content, tmp) d').2.
Proof.
  intros Hne [[Hn Hs]|(b & Hb & Hw)]; [|right; eauto using writing_remove].
  left. unfold do_remove. destruct (names d' !! (Content, tmp)); [|done]. split; [|done]. intros p Hp. cbn [snd names].
  rewrite lookup_delete_ne by done. auto.
Qed.

Lemma remove_published tmp d d' :
  tmp <> name -> names d !! (Content, tmp) = None -> published d d' -> (do_remove (Content, tmp) d').2 = d'.
Proof.
  intros Hne Ht (b & _ & i & _ & Hn & _). unfold do_remove. rewrite Hn, lookup_insert_ne, Ht; [done|]. congruence.
Qed.

Lemma stream_ok d :
  0 < CHUNK_SIZE -> 0 <= file_size f ->
  triple (publishing_any d) (eq d) (write_reader_blob env src f) (fun _ => published d) (publishing_any d).
Proof.
  intros Hc Hsize. assert (forall d1, d = d1 -> publishing_any d d1) as Hd by (intros d1 <-; exists ""; left; apply unpublished_refl).
  unfold write_reader_blob, write_reader_blob_stream.
  eapply triple_bind; [eapply triple_stage; [apply triple_on_error, (ask_keeps (eq d))|auto..]|]. intros []. cbv beta.
  eapply triple_bind; [eapply triple_stage; [apply triple_on_error, (keeps_gate env (eq d))|auto..]|]. intros []. cbv zeta beta.
  eapply triple_bind; [eapply triple_stage; [apply triple_on_error, (keeps_gate env (eq d))|auto..]|]. intros []. cbv beta.
  apply triple_uuid. intros id. fold name. set (tmp := tmp_name name id). pose proof (tmp_name_ne name id) as Hne. fold tmp in Hne.
  assert (forall d1, publishing tmp d d1 -> publishing_any d d1) as Hp by (intros d1 ?; by exists id).
  eapply triple_bind; [eapply triple_stage; [apply triple_on_error, create_publishing|auto..]|]. intros i.
  apply triple_pure. intros Ht.
  eapply triple_bind; [eapply triple_stage; [apply triple_attempt, (stream_file_ok tmp d i Hc Hsize)|auto|by intros ? []]|].
  intros r. eapply (triple_bind _ _ _ _ (fun _ d1 => match r with Ok _ => published d d1 | Err _ => publishing tmp d d1 end)).
  - apply triple_step. intros d1 Hd1. destruct r as [[]|e].
    + assert (publishing_any d d1).
      { destruct Hd1 as (b & Hb & Hw). exists id. right. exists b. split; [done|]. by apply written_writing. }
      rewrite (remove_published tmp d d1 Hne Ht Hd1). auto.
    + pose proof (remove_publishing tmp d d1 Hne Hd1). auto.
  - intros r'. destruct r as [[]|e]; [by apply triple_ret|]. apply triple_of_run; [done|auto].
Qed.

Lemma publishing_crash d d' d0 :
  starts_with "." name = false -> publishing_any d0 d -> crash d d' ->
  names d' !! target = names d0 !! target \/ names d' !! target = saved d0 !! target \/
  exists b, verified b /\ lookup target d' = Some (mkInode b true true).
Proof.
  intros Hv (id & Hp) (_ & Hc & Hi). assert (target <> (Content, tmp_name name id)) as Hne.
  { intros [= E]. by apply (tmp_name_ne name id). }
  destruct Hp as [(Hn & Hs & _)|(b & Hb & i & _ & _ & [[Hn Hs]|(_ & Hn & Hin & Hs)])].
  - destruct (Hc target) as [->| ->]; [rewrite Hn by done|rewrite Hs]; auto.
  - destruct (Hc target) as [->| ->]; [rewrite Hn by done|rewrite Hs]; auto.
  - assert (names d !! target = Some i) as Et by (by rewrite Hn, lookup_insert_eq).
    assert (names d' !! target = saved d0 !! target \/ names d' !! target = Some i) as [E|E].
    { destruct (Hc target) as [->| ->]; [by right|]. destruct Hs as [->|Hs]; [by left|right]. by rewrite Hs. }
    + auto.
    + right; right. exists b. split; [done|]. unfold lookup. rewrite E. simpl. destruct (Hi _ _ Hin) as (x & -> & Hx).
      by rewrite (Hx eq_refl).
Qed.

Lemma published_found d d' d0 :
  published d0 d -> d' = d \/ crash d d' -> exists b, verified b /\ lookup target d' = Some (mkInode b true true).
Proof.
  intros (b & Hb & Hw) Hc. exists b. split; [done|]. apply durable_lookup.
  assert (durable_at d target (Some b)) as Hd.
  { apply (holds_written (fun _ _ => False) Content name b d0 d); [by intros ? []|by intros ? ? []|done|by left]. }
  destruct Hc as [->|Hc]; [done|by eapply durable_crash].
Qed.

(** C25: a large file is published whole or not at all. Streamed by ranges, one
    or two at a time, from a source that may answer anything, the file appears
    under its digest only with its exact size and digest, synced: a crash at
    any moment finds what the name referred to before, or the verified file;
    once the write has returned, it is there before and after any crash. The
    loop over the ranges never runs out of fuel. *)
Theorem large_file_published d0 k0 :
  0 < CHUNK_SIZE -> 0 <= file_size f -> blob_path (file_digest f) = Ok target ->
  let (r, s) := write_reader_blob env src f (mkWorld d0 k0 []) in
  r <> Err OutOfFuel /\
  (forall d d', d ∈ past s -> crash d d' ->
     names d' !! target = names d0 !! target \/ names d' !! target = saved d0 !! target \/
     exists b, verified b /\ lookup target d' = Some (mkInode b true true)) /\
  (forall d', r = Ok tt -> d' = now s \/ crash (now s) d' ->
     exists b, verified b /\ lookup target d' = Some (mkInode b true true)).
Proof.
  intros Hc Hsize Hp. apply blob_path_visible in Hp as [_ Hv%negb_true_iff].
  pose proof (stream_ok d0 Hc Hsize (mkWorld d0 k0 []) eq_refl) as Ht.
  pose proof (stream_fueled Hc Hsize (mkWorld d0 k0 [])) as Hf.
  destruct (write_reader_blob env src f (mkWorld d0 k0 [])) as [r s]. destruct Ht as [(new & Hnew & Hall) Hr]. split_and!.
  - exact Hf.
  - intros d d' Hd Hcr. rewrite Hnew in Hd. rewrite Forall_forall in Hall. eapply publishing_crash; [done|apply Hall|exact Hcr].
    by apply list_elem_of_In.
  - intros d' -> Hd. by eapply published_found.
Qed.
End Stream.
End StreamFacts.
