(* ===== verification/Batches.v ===== *)
(** * Batches

    [src/snapshot/durable.rs]: filling a store by batches. Every content is
    looked up once; the small ones that are missing are fetched in batches
    within the limits of a request, one unit per digest, written behind one
    directory sync and journaled after it; the large ones are streamed or
    fetched whole. The tasks of a lane, and the two lanes, are taken one after
    another. *)

From S2P Require Import Prelude Types Faults Text Budget Profile Btree Frames Wire ChunkMap Closure Disk Journal Records Pins Durable Hydrate.
Import Digests Counters Profile.Scope Closure Disk Journal Records Pins Durable Hydrate.
Local Open Scope string_scope.
Local Open Scope list_scope.
Local Open Scope Z_scope.

Module Batches.

Definition BATCH_MAX_FILES : Z := 128.
Definition BATCH_MAX_BYTES : Z := 7 * 1024 * 1024.

(** [Vec::dedup_by] on digests: the first of every run. *)
Fixpoint skip_digest (digest : string) (l : list SnapshotFile) : list SnapshotFile :=
  match l with
  | [] => []
  | f :: l => if String.eqb (file_digest f) digest then skip_digest digest l else f :: skip_digest (file_digest f) l
  end.
Definition dedup (l : list SnapshotFile) : list SnapshotFile :=
  match l with
  | [] => []
  | f :: l => f :: skip_digest (file_digest f) l
  end.

(** One fetch unit per content. *)
Definition units (l : list SnapshotFile) : list SnapshotFile := dedup (sort_by file_digest l).

Definition small (f : SnapshotFile) : bool := file_size f <=? OBJECT_CAP.

(** The batches so far, the current one and its bytes. *)
Definition group_file (st : list (list SnapshotFile) * list SnapshotFile * Z) (f : SnapshotFile)
    : list (list SnapshotFile) * list SnapshotFile * Z :=
  let '(batches, cur, cur_bytes) := st in
  if (BATCH_MAX_FILES <=? zlen cur) || (BATCH_MAX_BYTES <? cur_bytes + file_size f)
  then (batches ++ [cur], [f], file_size f)
  else (batches, cur ++ [f], cur_bytes + file_size f).

Definition group (l : list SnapshotFile) : list (list SnapshotFile) :=
  let '(batches, cur, _) := fold_left group_file l ([], [], 0) in
  if bool_decide (cur = []) then batches else batches ++ [cur].

(** What a pass fetches: the batches of small files, and the large files. *)
Definition plan (need : list SnapshotFile) : list (list SnapshotFile) * list SnapshotFile :=
  (group (units (filter (fun f => small f = true) need)), units (filter (fun f => small f = false) need)).

(** [BorrowedBatchContent]. *)
Inductive BorrowedBatchContent : Type :=
  | Raw (data : bytes)
  | Verified (content : Budget.Content.VerifiedContent).

Section Batches.
Context `{HexCrate} `{Sha256} `{PageCodec} `{CodecScope} `{DescriptorCodec} `{ServingCodec} `{UuidCrate} `{Rfc3339}.
Context `{CommitCodec} `{PinCodec} `{RecordCodec} `{ChunkCodec} (env : environment) (at_ : Location).

Definition wrong_size (f : SnapshotFile) (b : bytes) : SnapshotError :=
  SnapshotError_new DigestMismatch (rel_path f ++ ": view advertises " ++ u64_to_string (file_size f)
    ++ " bytes, content is " ++ u64_to_string (zlen b)).

(** [BorrowedBatchContent::validate]. *)
Definition validate_content (c : BorrowedBatchContent) (f : SnapshotFile) : Res bytes :=
  let? data := match c with
    | Raw data =>
        let got := digest_of data in
        reject? ne got (file_digest f)
          with SnapshotError_new DigestMismatch (rel_path f ++ ": expected " ++ file_digest f ++ ", got " ++ got) in
        Ok data
    | Verified content =>
        let? digest := parse_digest (file_digest f) in
        reject? negb (Budget.Content.matches_integrity content digest (file_size f))
          with SnapshotError_new DigestMismatch
                 (rel_path f ++ ": verified OBJECT owner does not match fixed digest and size") in
        Ok (Budget.Content.bytes (Budget.Content.buffer content))
    end in
  reject? negb (zlen data =? file_size f) with wrong_size f data in
  Ok data.

(** [CasBatchWriter::write]: the gate is the capacity admission. *)
Definition batch_write (name : string) (b : bytes) : M unit :=
  run* gate env in
  let* id := new_uuid env in
  let tmp := tmp_name name id in
  let* r := attempt (
    let* f := sys env (do_create (Disk.Content, tmp)) in
    run* sys env (do_write f b) in
    run* sys env (do_sync f) in
    sys env (do_rename (Disk.Content, tmp) (Disk.Content, name))) in
  run* step env (do_remove (Disk.Content, tmp)) in
  of_run r.

(** [CasBatchWriter::finish]. *)
Definition batch_finish : M unit := sync_dir env Disk.Content.

(** ** The audit of what is there *)

(** The audits so far by content: whether it verified, and else whether there
    was something; the progress and the files that are needed. *)
Record audit : Type := mkAudit { audited : gmap (string * Z) (bool * bool); counted : progress; need : list SnapshotFile }.

Definition audit_content (f : SnapshotFile) : M (bool * bool) :=
  let* verified := verify_blob env (file_digest f) (file_size f) in
  if verified then ret (true, false)
  else
    let* p := of_res (blob_path (file_digest f)) in
    let* m := step env (do_metadata p) in
    ret (false, is_ok m).

Definition audit_file (a : audit) (f : SnapshotFile) : M audit :=
  let key := (file_digest f, file_size f) in
  let* result := match audited a !! key with
                 | Some result => ret result
                 | None => audit_content f
                 end in
  let audited := <[key := result]> (audited a) in
  let '(verified, damaged) := result in
  let st := counted a in
  if verified : bool then
    let* ' (r, buf) := append env (pending_records st) (record_of f) in
    run* of_run r in
    ret (mkAudit audited
           (mkProgress (fetched st) (resumed st + 1) (repaired st) (bytes_total st + file_size f) buf) (need a))
  else
    ret (mkAudit audited
           (mkProgress (fetched st) (resumed st) (if damaged : bool then repaired st + 1 else repaired st)
              (bytes_total st) (pending_records st))
           (need a ++ [f])).

(** ** The lanes *)

(** A file of the pass is recorded. *)
Definition record_file (st : progress) (f : SnapshotFile) : M progress :=
  let* ' (r, buf) := append env (pending_records st) (record_of f) in
  run* of_run r in
  ret (mkProgress (fetched st + 1) (resumed st) (repaired st) (bytes_total st + file_size f) buf).

Definition write_unit (contents : string -> option BorrowedBatchContent) (_ : unit) (f : SnapshotFile) : M unit :=
  let* content := of_res (ok_or (contents (file_digest f)) (SnapshotError_new DigestMismatch
    (rel_path f ++ ": objects batch did not return " ++ file_digest f))) in
  let* data := of_res (validate_content content f) in
  batch_write (blob_name (file_digest f)) data.

(** One task of the small lane; the gate is the creation of the directory. *)
Definition small_task (fetch_batch : nat -> list SnapshotFile -> Res (string -> option BorrowedBatchContent))
    (st : progress) (batch : list SnapshotFile) : M progress :=
  let* contents := ask (fun k => fetch_batch k batch) in
  run* gate env in
  run* fold_m (write_unit contents) tt batch in
  run* batch_finish in
  fold_m record_file st batch.

(** A large file fetched whole. *)
Definition fetch_whole (fetch_large : nat -> SnapshotFile -> Res bytes) (f : SnapshotFile) : M unit :=
  let* b := ask (fun k => fetch_large k f) in
  let got := digest_of b in
  guard* ne got (file_digest f)
    with SnapshotError_new DigestMismatch (rel_path f ++ ": expected " ++ file_digest f ++ ", got " ++ got) in
  guard* negb (zlen b =? file_size f) with wrong_size f b in
  write_atomic env Disk.Content (blob_name (file_digest f)) b.

(** One task of the large lane. *)
Definition large_task (fetch_large : nat -> SnapshotFile -> Res bytes) (source : option RangeSource)
    (st : progress) (f : SnapshotFile) : M progress :=
  run* match source with
       | Some src => if source_chunk_reads src then write_reader_blob env src f else fetch_whole fetch_large f
       | None => fetch_whole fetch_large f
       end in
  record_file st f.

(** The phases of [hydrate_batches_closure] between the preparation and the
    commit. *)
Definition fill_batches (manifest : list SnapshotFile)
    (fetch_batch : nat -> list SnapshotFile -> Res (string -> option BorrowedBatchContent))
    (fetch_large : nat -> SnapshotFile -> Res bytes) (source : option RangeSource) : M (Z * Z * Z) :=
  let* a := tagged CasResumeAudit
    (fold_m audit_file (mkAudit ∅ (mkProgress 0 0 0 0 JournalBuffer_default) []) manifest) in
  let '(batches, large) := plan (need a) in
  let* st := tagged SmallObjectFetch (fold_m (small_task fetch_batch) (counted a) batches) in
  let* st := tagged LargeContentFetch (fold_m (large_task fetch_large source) st large) in
  let* ' (r, _) := flush_locked env (pending_records st) in
  run* tagged HydrationCommit (of_run r) in
  ret (fetched st, resumed st, repaired st).

(** [hydrate_batches_closure]. *)
Definition hydrate_batches_closure (view : ViewMeta) (manifest : list SnapshotFile)
    (closure : option ValidatedSnapshotClosure)
    (fetch_batch : nat -> list SnapshotFile -> Res (string -> option BorrowedBatchContent))
    (fetch_large : nat -> SnapshotFile -> Res bytes) (source : option RangeSource) : M HydrateReport :=
  run* match closure with
       | Some c => tagged HydrationCommit (of_res (validate_snapshot_view view c))
       | None => ret tt
       end in
  pass env at_ view manifest closure (src ← source; source_grant src)
    (fill_batches manifest fetch_batch fetch_large source).
End Batches.
End Batches.
