(* ===== verification/BatchFacts.v ===== *)
(** * BatchFacts

    The batches of a hydration cover what is needed once and within the limits
    of a request; a pass by batches leaves every content in the store and
    records none before it is there for good; a hydration by batches ends
    complete. *)

From Stdlib Require Import Sorted.
From S2P Require Import Prelude Types Faults Text Budget Profile Btree Frames Wire ChunkMap Closure Disk DiskLogic Journal Records Pins Durable DurableFacts CommitFacts Hydrate HydrateFacts StreamFacts Batches.
Import Digests Profile.Scope Closure Disk DiskLogic Journal Records Pins Durable DurableFacts CommitFacts Hydrate HydrateFacts StreamFacts Batches.
Local Open Scope string_scope.
Local Open Scope list_scope.
Local Open Scope Z_scope.

Module BatchFacts.

(** ** The plan *)

Lemma skip_digest_sorted d l :
  StronglySorted (key_le file_digest) l -> Forall (fun f => ~ str_lt (file_digest f) d) l ->
  StronglySorted str_lt (d :: (file_digest <$> skip_digest d l)) /\
  (forall f, f ∈ skip_digest d l -> f ∈ l) /\
  (forall f, f ∈ l -> file_digest f = d \/ file_digest f ∈ file_digest <$> skip_digest d l).
Proof.
  intros Hs. revert d. induction Hs as [|f l Hs IH Hall]; intros d Hd; simpl.
  { split_and!; [repeat constructor|set_solver|set_solver]. }
  inversion Hd as [|? ? Hf Hd']; subst. destruct (String.eqb_spec (file_digest f) d) as [E|E].
  - destruct (IH d Hd') as (H1 & H2 & H3). split_and!; [done|set_solver|]. intros g [->|Hg]%elem_of_cons; auto.
  - destruct (IH (file_digest f)) as (H1 & H2 & H3); [done|]. simpl. split_and!.
    + constructor; [done|]. assert (str_lt d (file_digest f)) as Hlt.
      { destruct (str_lt_total d (file_digest f)) as [?|[?|?]]; [done|congruence|done]. }
      constructor; [done|]. inversion H1 as [|? ? _ Hall']; subst. eapply Forall_impl; [|exact Hall'].
      intros x Hx. cbv beta. by transitivity (file_digest f).
    + set_solver.
    + intros g [->|Hg]%elem_of_cons; right; [left|]. destruct (H3 g Hg) as [->|?]; [left|right; done].
Qed.

Lemma strict_digests_nodup (l : list string) : StronglySorted str_lt l -> NoDup l.
Proof.
  induction 1 as [|x k Hk IH Hx]; constructor; [|done]. intros Hin. rewrite Forall_forall in Hx.
  apply list_elem_of_In, Hx in Hin. by apply str_lt_irrefl in Hin.
Qed.

Lemma units_exact l :
  NoDup (file_digest <$> units l) /\ (forall f, f ∈ units l -> f ∈ l) /\
  (forall f, f ∈ l -> file_digest f ∈ file_digest <$> units l).
Proof.
  unfold units. assert (Hp : forall f, f ∈ sort_by file_digest l <-> f ∈ l) by (intros f; by rewrite sort_by_perm).
  pose proof (sort_by_sorted file_digest l) as Hs. destruct Hs as [|f m Hs Hall]; simpl.
  { split_and!; [constructor|set_solver|]. intros f Hf%Hp. set_solver. }
  destruct (skip_digest_sorted (file_digest f) m Hs Hall) as (H1 & H2 & H3). split_and!.
  - by apply strict_digests_nodup.
  - intros g [->|Hg]%elem_of_cons; apply Hp; [left|right; auto].
  - intros g Hg%Hp. apply elem_of_cons in Hg as [->|Hg]; [left|]. destruct (H3 g Hg) as [->|?]; [left|by right].
Qed.

Definition total_size (l : list SnapshotFile) : Z := foldr (fun f n => file_size f + n) 0 l.

Lemma total_size_app l m : total_size (l ++ m) = total_size l + total_size m.
Proof. unfold total_size. induction l as [|f l IH]; simpl; lia. Qed.

(** A batch a request can carry. *)
Definition fits (b : list SnapshotFile) : Prop :=
  b <> [] /\ zlen b <= BATCH_MAX_FILES /\ total_size b <= BATCH_MAX_BYTES.

(** The state of the grouping after the files [l]. *)
Definition grouped (l : list SnapshotFile) (st : list (list SnapshotFile) * list SnapshotFile * Z) : Prop :=
  let '(batches, cur, n) := st in
  Forall fits batches /\ concat batches ++ cur = l /\ n = total_size cur /\ n <= BATCH_MAX_BYTES /\ zlen cur <= BATCH_MAX_FILES.

Lemma group_file_grouped l st f :
  0 <= file_size f -> small f = true -> grouped l st -> grouped (l ++ [f]) (group_file st f).
Proof.
  destruct st as [[batches cur] n]. intros H0 Hs%Z.leb_le (Hb & Hl & Hn & Hbytes & Hlen).
  assert (total_size [f] = file_size f) as Et by (unfold total_size; simpl; lia).
  unfold group_file, grouped, OBJECT_CAP in *. destruct (_ || _) eqn:E.
  - assert (cur <> []) as Hc.
    { intros ->. simpl in Hn. subst n. change (zlen []) with 0 in E. unfold BATCH_MAX_FILES, BATCH_MAX_BYTES in E. bools. lia. }
    split_and!; [|rewrite concat_app; simpl; by rewrite app_nil_r, <- Hl|done|unfold BATCH_MAX_BYTES; lia|done].
    apply Forall_app. split; [done|]. repeat constructor; [done|done|lia].
  - apply orb_false_iff in E as [E1%Z.leb_gt E2%Z.ltb_ge]. rewrite total_size_app, zlen_app. change (zlen [f]) with 1.
    split_and!; [done|by rewrite app_assoc, Hl|lia|lia|lia].
Qed.

Lemma group_exact l :
  Forall (fun f => 0 <= file_size f /\ small f = true) l -> concat (group l) = l /\ Forall fits (group l).
Proof.
  intros Hl. unfold group. assert (grouped l (fold_left group_file l ([], [], 0))) as Hg.
  { induction l as [|f l IH] using rev_ind; [by split_and!; [constructor|..]|].
    apply Forall_app in Hl as [Hl Hf]. inversion Hf as [|? ? [H0 Hs] _]; subst. rewrite fold_left_app. simpl.
    apply group_file_grouped; auto. }
  destruct (fold_left group_file l ([], [], 0)) as [[batches cur] n]. destruct Hg as (Hb & Hc & -> & Hn & Hz).
  destruct (bool_decide_reflect (cur = [])) as [->|Hne]; [by rewrite app_nil_r in Hc|].
  rewrite concat_app. simpl. rewrite app_nil_r. split; [done|]. apply Forall_app. split; [done|]. by repeat constructor.
Qed.

(** C38: the plan of a hydration fetches every content once. The batches hold
    every digest of a small needed file exactly once, from a needed file, and
    so do the large files for theirs; every batch has a file, at most 128, and
    at most 7 MiB. *)
Theorem batches_planned need :
  Forall (fun f => 0 <= file_size f) need ->
  let (batches, large) := plan need in
  NoDup (file_digest <$> concat batches) /\ NoDup (file_digest <$> large) /\
  (forall digest, digest ∈ file_digest <$> concat batches <->
     exists f, f ∈ need /\ file_size f <= OBJECT_CAP /\ file_digest f = digest) /\
  (forall digest, digest ∈ file_digest <$> large <->
     exists f, f ∈ need /\ OBJECT_CAP < file_size f /\ file_digest f = digest) /\
  (forall f, f ∈ concat batches ++ large -> f ∈ need) /\
  Forall (fun b => b <> [] /\ zlen b <= 128 /\ total_size b <= 7 * 1024 * 1024) batches.
Proof.
  intros Hneed. unfold plan. set (sm := filter (fun f => small f = true) need). set (lg := filter (fun f => small f = false) need).
  destruct (units_exact sm) as (Hn1 & Hi1 & Hc1). destruct (units_exact lg) as (Hn2 & Hi2 & Hc2).
  assert (Hsm : forall f, f ∈ sm <-> f ∈ need /\ file_size f <= OBJECT_CAP).
  { intros f. unfold sm, small. rewrite list_elem_of_filter, Z.leb_le. tauto. }
  assert (Hlg : forall f, f ∈ lg <-> f ∈ need /\ OBJECT_CAP < file_size f).
  { intros f. unfold lg, small. rewrite list_elem_of_filter, Z.leb_gt. tauto. }
  assert (Forall (fun f => 0 <= file_size f /\ small f = true) (units sm)) as Hf.
  { apply Forall_forall. intros f Hf%list_elem_of_In. apply Hi1, Hsm in Hf as [Hf Hs]. rewrite Forall_forall in Hneed.
    split; [by apply Hneed, list_elem_of_In|by apply Z.leb_le]. }
  destruct (group_exact (units sm) Hf) as [-> Hfit]. split_and!; [done|done| | | |exact Hfit].
  - intros d. rewrite list_elem_of_fmap. split.
    + intros (f & -> & Hf'%Hi1%Hsm). naive_solver.
    + intros (f & Hf1 & Hf2 & <-). apply list_elem_of_fmap. apply Hc1, Hsm. done.
  - intros d. rewrite list_elem_of_fmap. split.
    + intros (f & -> & Hf'%Hi2%Hlg). naive_solver.
    + intros (f & Hf1 & Hf2 & <-). apply list_elem_of_fmap. apply Hc2, Hlg. done.
  - intros f [Hf'%Hi1%Hsm|Hf'%Hi2%Hlg]%elem_of_app; tauto.
Qed.

(** ** What a pass by batches leaves *)

Section Lands.
Context `{HexCrate} `{Sha256} `{RecordCodec} (manifest : list SnapshotFile) (d0 : disk).

Definition JOURNAL : path := (Root, JOURNAL_FILE).
Definition content_path (digest : string) : path := (Content, blob_name digest).
Definition shown (name : string) : Prop := starts_with "." name = false.

(** The bytes of a digest, with the size some file of the manifest has for it. *)
Definition wanted (b : bytes) (digest : string) : Prop :=
  digest_of b = digest /\ exists g, g ∈ manifest /\ file_digest g = digest /\ zlen b = file_size g.

(** In the names [m], the content is a regular file with its bytes. *)
Definition bound (sync : bool) (m : gmap path nat) (d : disk) (digest : string) : Prop :=
  exists i n, m !! content_path digest = Some i /\ inodes d !! i = Some n /\
    regular n = true /\ (sync = true -> synced n = true) /\ wanted (data n) digest.

(** It is there; it is there for good. *)
Definition present (d : disk) (digest : string) : Prop := bound false (names d) d digest.
Definition landed (d : disk) (digest : string) : Prop := bound true (names d) d digest /\ bound true (saved d) d digest.

(** No content is the file of the journal. *)
Definition apart (d : disk) : Prop := forall name i,
  shown name -> names d !! (Content, name) = Some i \/ saved d !! (Content, name) = Some i -> names d !! JOURNAL <> Some i.

(** A content that was just written. *)
Definition arrived (d : disk) (name : string) (o : option nat) : Prop := exists i b,
  o = Some i /\ inodes d !! i = Some (mkInode b true true) /\ wanted b (digest_of b) /\ blob_name (digest_of b) = name.

(** From [d] to [d'], files other than the journal stay, and names of contents
    are given contents only. *)
Record evolves (d d' : disk) : Prop := {
  ev_inodes : forall i n, inodes d !! i = Some n -> names d !! JOURNAL <> Some i -> inodes d' !! i = Some n;
  ev_names : forall name, shown name ->
    names d' !! (Content, name) = names d !! (Content, name) \/ arrived d' name (names d' !! (Content, name));
  ev_saved : forall name, shown name ->
    saved d' !! (Content, name) = saved d !! (Content, name) \/ saved d' !! (Content, name) = names d !! (Content, name) \/
    arrived d' name (saved d' !! (Content, name));
  ev_apart : apart d -> apart d';
}.

Lemma blob_name_digest b : blob_name (digest_of b) = hex_encode (sha256 b).
Proof. unfold blob_name, digest_of. by rewrite (proj2 (strip_prefix_some "sha256:" _ _) eq_refl). Qed.

Lemma digest_shown b : shown (blob_name (digest_of b)).
Proof.
  rewrite blob_name_digest, hex_encode_lower. unfold shown. destruct (starts_with "." (hex32 (sha256 b))) eqn:E; [|done].
  unfold starts_with in E. destruct (strip_prefix _ _) as [t|] eqn:Et; [|done]. apply strip_prefix_some in Et.
  pose proof (hex_bytes_lower (sha256 b) (sha256_bytes b)) as Hh. rewrite <- as_bytes_hex32, Et in Hh by apply sha256_bytes.
  by inversion Hh.
Qed.

Lemma bound_shown sync m d digest : bound sync m d digest -> shown (blob_name digest).
Proof. intros (i & n & _ & _ & _ & _ & <- & _). apply digest_shown. Qed.

Lemma bound_weaken sync m d digest : bound true m d digest -> bound sync m d digest.
Proof. intros (i & n & ? & ? & ? & Hs & ?). exists i, n. split_and!; auto. Qed.

Lemma arrived_bound sync m d digest b :
  digest_of b = digest -> arrived d (blob_name digest) (m !! content_path digest) -> bound sync m d digest.
Proof.
  intros <- (i & b' & Ho & Hi & Hw & Hn). rewrite !blob_name_digest in Hn.
  assert (E : digest_of b' = digest_of b) by (unfold digest_of; by rewrite Hn). exists i, (mkInode b' true true). rewrite E in Hw. done.
Qed.

(** The files of contents stay. *)
Lemma bound_inodes sync m d d' digest :
  apart d -> evolves d d' -> m = names d \/ m = saved d -> bound sync m d digest -> bound sync m d' digest.
Proof.
  intros Ha He Hm Hb. pose proof (bound_shown _ _ _ _ Hb) as Hv. destruct Hb as (i & n & Hi & Hn & Hg). exists i, n. split; [done|]. split; [|done].
  apply (ev_inodes _ _ He); [done|]. apply (Ha (blob_name digest)); [done|]. by destruct Hm as [->| ->]; auto.
Qed.

Lemma names_kept sync d d' digest : apart d -> evolves d d' -> bound sync (names d) d digest -> bound sync (names d') d' digest.
Proof.
  intros Ha He Hb. pose proof (bound_shown _ _ _ _ Hb) as Hv. destruct (Hb) as (_ & n & _ & _ & _ & _ & Hd & _).
  destruct (ev_names _ _ He _ Hv) as [E|E]; [|by eapply arrived_bound].
  apply (bound_inodes _ _ _ d') in Hb as (i & x & Hi & Hx); auto. exists i, x. split; [|done]. unfold content_path in *. by rewrite E.
Qed.

Lemma saved_kept d d' digest :
  apart d -> evolves d d' -> bound true (names d) d digest -> bound true (saved d) d digest -> bound true (saved d') d' digest.
Proof.
  intros Ha He Hn Hs. pose proof (bound_shown _ _ _ _ Hn) as Hv. destruct (Hn) as (_ & n & _ & _ & _ & _ & Hd & _).
  apply (bound_inodes _ _ _ d') in Hn as (i & x & Hi & Hx); auto. apply (bound_inodes _ _ _ d') in Hs as (j & y & Hj & Hy); auto.
  unfold content_path in *. destruct (ev_saved _ _ He _ Hv) as [E|[E|E]]; [exists j, y|exists i, x|by eapply arrived_bound]; (split; [|done]); unfold content_path; by rewrite E.
Qed.

Lemma landed_kept d d' digest : apart d -> evolves d d' -> landed d digest -> landed d' digest.
Proof. intros Ha He [Hn Hs]. split; [by eapply names_kept|by eapply saved_kept]. Qed.

(** What a crash finds of it. *)
Lemma landed_found d d' digest : landed d digest -> d' = d \/ crash d d' ->
  exists b, lookup (content_path digest) d' = Some (mkInode b true true) /\ wanted b digest.
Proof.
  intros [Hn Hs] Hd. assert (Hm : exists m, bound true m d digest /\ names d' !! content_path digest = m !! content_path digest).
  { destruct Hd as [->|(_ & Hd & _)]; [by exists (names d)|]. destruct (Hd (content_path digest)); [by exists (names d)|by exists (saved d)]. }
  destruct Hm as (m & (i & [b r y] & Hi & Hin & Hr & Hy & Hw) & E). simpl in *. rewrite (Hy eq_refl), Hr in Hin. exists b. split; [|done].
  unfold lookup. rewrite E, Hi. simpl. destruct Hd as [->|(_ & _ & Hd)]; [done|]. destruct (Hd _ _ Hin) as (x & -> & Hx). by rewrite (Hx eq_refl).
Qed.

(** *** Writes of contents *)

Definition journal (d : disk) : bytes := match lookup JOURNAL d with Some n => data n | None => [] end.

Lemma evolves_refl d : evolves d d.
Proof. split; auto. Qed.

(** A new file is given to names as a content only. *)
Lemma evolves_new d d' i :
  new_file d i -> (forall j, j <> i -> inodes d' !! j = inodes d !! j) -> names d' !! JOURNAL = names d !! JOURNAL ->
  (forall name, shown name -> names d' !! (Content, name) = names d !! (Content, name) \/
     names d' !! (Content, name) = Some i /\ arrived d' name (Some i)) ->
  (forall name, shown name -> saved d' !! (Content, name) = saved d !! (Content, name) \/
     saved d' !! (Content, name) = names d' !! (Content, name)) ->
  evolves d d' /\ journal d' = journal d.
Proof.
  intros [Hi Hnew] Hin Hj Hns Hss. split; [split|].
  - intros j n Hn _. rewrite Hin; [done|]. congruence.
  - intros name Hs. destruct (Hns name Hs) as [E|[-> Hb]]; [by left|by right].
  - intros name Hs. destruct (Hss name Hs) as [E|E]; [by left|]. rewrite E.
    destruct (Hns name Hs) as [->|[-> Hb]]; [by right; left|by right; right].
  - intros Ha name j Hs Hor. rewrite Hj. destruct (Hnew JOURNAL) as [Hx _].
    assert (names d !! (Content, name) = Some j \/ saved d !! (Content, name) = Some j \/ j = i) as [E|[E| ->]]; [|by eapply Ha; eauto..|done].
    destruct Hor as [E|E].
    + destruct (Hns name Hs) as [E'|[E' _]]; rewrite E' in E; [by left|right; right; congruence].
    + destruct (Hss name Hs) as [E'|E']; rewrite E' in E; [by right; left|].
      destruct (Hns name Hs) as [E2|[E2 _]]; rewrite E2 in E; [by left|right; right; congruence].
  - unfold journal, lookup. rewrite Hj. destruct (names d !! JOURNAL) as [j|] eqn:Ej; [|done]. simpl. rewrite Hin; [done|].
    intros ->. by destruct (Hnew JOURNAL).
Qed.

Lemma insert_named d d' i b :
  names d' = <[content_path (digest_of b) := i]> (names d) -> inodes d' !! i = Some (mkInode b true true) -> wanted b (digest_of b) ->
  forall name, names d' !! (Content, name) = names d !! (Content, name) \/
     names d' !! (Content, name) = Some i /\ arrived d' name (Some i).
Proof.
  intros Hn Hb Hw name. rewrite Hn. unfold content_path. destruct (decide (name = blob_name (digest_of b))) as [->|Hx].
  - right. rewrite lookup_insert_eq. split; [done|]. by exists i, b.
  - left. by rewrite lookup_insert_ne by congruence.
Qed.

Lemma unpublished_evolves tmp d d' :
  (forall name, shown name -> name <> tmp) -> unpublished tmp d d' -> evolves d d' /\ journal d' = journal d.
Proof.
  intros Ht (Hn & Hs & i & Hi & Hin). apply (evolves_new d d' i); [done|done|by apply Hn| |].
  - intros name Hsh. left. apply Hn. intros [= E]. by eapply Ht.
  - intros name _. left. by rewrite Hs.
Qed.

Lemma tmp_hidden name id name' : shown name' -> name' <> tmp_name name id.
Proof. by intros Hs ->. Qed.

Lemma writing_evolves id b d d' :
  wanted b (digest_of b) -> writing Content (blob_name (digest_of b)) (tmp_name (blob_name (digest_of b)) id) b d d' ->
  evolves d d' /\ journal d' = journal d.
Proof.
  intros Hw (i & Hi & Hin & [[Hn Hs]|(_ & Hn & Hb & Hs)]).
  - eapply unpublished_evolves; [intros ? ?; by eapply (tmp_hidden (blob_name (digest_of b)) id)|]. split_and!; [done|done|]. by exists i.
  - apply (evolves_new d d' i); [done|done|by rewrite Hn, lookup_insert_ne|intros name _; by apply (insert_named d d' i b)|].
    intros name _. destruct Hs as [->|Hs]; [by left|right]. by rewrite Hs.
Qed.

(** A whole write. *)
Lemma written_landed b d d' :
  wanted b (digest_of b) -> written Content (blob_name (digest_of b)) b d d' ->
  evolves d d' /\ journal d' = journal d /\ landed d' (digest_of b).
Proof.
  intros Hw (i & Hi & Hn & Hin & Hs). assert (Hb : inodes d' !! i = Some (mkInode b true true)) by (by rewrite Hin, lookup_insert_eq).
  assert (Hc : names d' !! content_path (digest_of b) = Some i) by (by rewrite Hn, lookup_insert_eq).
  assert (evolves d d' /\ journal d' = journal d) as [He Hj].
  { apply (evolves_new d d' i); [done|intros j Hj; by rewrite Hin, lookup_insert_ne|by rewrite Hn, lookup_insert_ne|intros name _; by apply (insert_named d d' i b)|].
    intros name _. right. by rewrite Hs. }
  split; [done|]. split; [done|]. split; exists i, (mkInode b true true); [done|]. split; [|done]. rewrite Hs. by rewrite decide_True.
Qed.

(** A file that is renamed to its name. *)
Lemma renamed_bound tmp b d i d' :
  wanted b (digest_of b) -> renamed Content (blob_name (digest_of b)) tmp b d i d' ->
  evolves d d' /\ journal d' = journal d /\ bound true (names d') d' (digest_of b).
Proof.
  intros Hw (Hi & _ & Hn & Hs & Hin). assert (Hb : inodes d' !! i = Some (mkInode b true true)) by (by rewrite Hin, lookup_insert_eq).
  assert (evolves d d' /\ journal d' = journal d) as [He Hj].
  { apply (evolves_new d d' i); [done|intros j Hj; by rewrite Hin, lookup_insert_ne|by rewrite Hn, lookup_insert_ne|intros name _; by apply (insert_named d d' i b)|].
    intros name _. left. by rewrite Hs. }
  split_and!; [done|done|]. exists i, (mkInode b true true). split; [|done]. by rewrite Hn, lookup_insert_eq.
Qed.

(** The directory of contents is synced. *)
Lemma synced_landed d : let d' := (do_sync_dir Content d).2 in
  evolves d d' /\ journal d' = journal d /\ forall digest, bound true (names d) d digest -> landed d' digest.
Proof.
  cbv zeta. assert (Hs : forall name, saved (do_sync_dir Content d).2 !! (Content, name) = names d !! (Content, name)) by (intros name; by rewrite sync_dir_saved).
  split_and!; [split|done|].
  - done.
  - by left.
  - intros name _. right; left. apply Hs.
  - intros Ha name i Hn [E|E]; apply (Ha name i Hn); left; [done|]. by rewrite <- Hs.
  - intros digest (i & n & Hi & Hx). split; exists i, n; (split; [|done]); [done|]. unfold content_path. by rewrite Hs.
Qed.

(** *** Writes of the journal *)

(** Only the file of the journal may differ; where there was none, it is no
    file of a content. *)
Record touches (d d' : disk) : Prop := {
  to_inodes : forall i, names d !! JOURNAL <> Some i -> names d' !! JOURNAL <> Some i -> inodes d' !! i = inodes d !! i;
  to_names : forall name, names d' !! (Content, name) = names d !! (Content, name);
  to_saved : forall name, saved d' !! (Content, name) = saved d !! (Content, name);
  to_journal : names d' !! JOURNAL = names d !! JOURNAL \/
    names d !! JOURNAL = None /\ exists j, names d' !! JOURNAL = Some j /\ inodes d !! j = None /\
      forall name, names d !! (Content, name) <> Some j /\ saved d !! (Content, name) <> Some j;
}.

Lemma touches_refl d : touches d d.
Proof. split; auto. Qed.

Lemma touches_evolves d d' : touches d d' -> evolves d d'.
Proof.
  intros [Hi Hn Hs Hj]. split; [|by left|by left|].
  - intros i n Hin Hne. rewrite Hi; [done|done|]. destruct Hj as [->|(_ & j & -> & Hx & _)]; [done|congruence].
  - intros Ha name i Hv Hor. rewrite Hn, Hs in Hor. destruct Hj as [->|(_ & j & -> & _ & Hx)]; [by apply (Ha name)|].
    intros [= ->]. destruct (Hx name). tauto.
Qed.

Lemma touches_trans d1 d2 d3 : touches d1 d2 -> touches d2 d3 -> touches d1 d3.
Proof.
  intros [Hi1 Hn1 Hs1 Hj1] [Hi2 Hn2 Hs2 Hj2]. split.
  - intros i Hne1 Hne3. assert (Hne2 : names d2 !! JOURNAL <> Some i).
    { intros E. destruct Hj2 as [E'|(E' & _)]; congruence. }
    by rewrite Hi2, Hi1.
  - intros name. by rewrite Hn2, Hn1.
  - intros name. by rewrite Hs2, Hs1.
  - destruct Hj2 as [->|(Hx & j & -> & Hy & Hz)]; [done|]. assert (E : names d1 !! JOURNAL = None).
    { destruct Hj1 as [<-|(_ & k & E & _)]; [done|congruence]. }
    right. split; [done|]. exists j. split; [done|]. split; [|intros name; by rewrite <- Hn1, <- Hs1].
    rewrite <- Hi1; [done|by rewrite E|by rewrite Hx].
Qed.

(** The journal is open at [j] and holds [x]. *)
Definition opened (d : disk) (j : nat) (x : bytes) (d' : disk) : Prop :=
  touches d d' /\ names d' !! JOURNAL = Some j /\ exists n, inodes d' !! j = Some n /\ data n = x.

Lemma opened_journal d j x d' : opened d j x d' -> journal d' = x.
Proof. intros (_ & Hj & n & Hn & <-). unfold journal, lookup. rewrite Hj. simpl. by rewrite Hn. Qed.

Lemma opened_alter d j x y g d' :
  (forall n, data n = x -> data (g n) = y) -> opened d j x d' -> opened d j y (set_inode j g d').
Proof.
  intros Hg ([Hi Hn Hs Hj] & Hj' & n & Hx & Hd). split; [split|split]; simpl; [|done..|].
  - intros i Hne Hne'. rewrite lookup_alter_ne; [by apply Hi|congruence].
  - exists (g n). rewrite lookup_alter_eq, Hx. split; [done|auto].
Qed.

(** The disks an append of [b] passes through. *)
Definition logging (b : bytes) (d d' : disk) : Prop := touches d d' /\ (journal d' = journal d \/ journal d' = journal d ++ b).

Lemma opened_logging b d j x d' : x = journal d \/ x = journal d ++ b -> opened d j x d' -> logging b d d'.
Proof. intros Hx Ho. rewrite <- (opened_journal _ _ _ _ Ho) in Hx. by destruct Ho as [? _]. Qed.

Lemma journal_opens b d : let d' := (do_append JOURNAL d).2 in
  logging b d d' /\ forall j, (do_append JOURNAL d).1 = Ok j -> opened d j (journal d) d'.
Proof.
  cbv zeta. unfold do_append. destruct (names d !! JOURNAL) as [i|] eqn:E.
  - rewrite open_same. split; [split; [apply touches_refl|by left]|]. unfold do_open. rewrite E. cbn [fst]. intros j Hj. destruct (inodes d !! i) as [n|] eqn:En; [|done].
    assert (j = i) as -> by (destruct (regular n); congruence). split; [apply touches_refl|]. split; [done|]. exists n. split; [done|]. unfold journal, lookup. rewrite E. simpl. by rewrite En.
  - unfold do_create. rewrite E. cbn [fst snd]. pose proof (fresh_inode_new d) as [Hf Hp]. set (k := fresh_inode d) in *.
    set (d' := mkDisk _ _ _). assert (Hj0 : journal d = []) by (unfold journal, lookup; by rewrite E).
    assert (Ho : opened d k (journal d) d').
    { split; [split|split]; simpl.
      - intros i _ Hi. rewrite lookup_insert_eq in Hi. rewrite lookup_insert_ne; [done|]. congruence.
      - intros name. by rewrite lookup_insert_ne.
      - done.
      - right. split; [done|]. exists k. rewrite lookup_insert_eq. done.
      - by rewrite lookup_insert_eq.
      - eexists. rewrite lookup_insert_eq. split; [done|]. by rewrite Hj0. }
    split; [apply (opened_logging b d k (journal d) d'); [by left|exact Ho]|]. by intros j [= <-].
Qed.

Context (env : environment).

Lemma append_bytes_ok b d :
  triple (logging b d) (eq d) (append_journal_bytes env b) (fun _ d' => touches d d' /\ journal d' = journal d ++ b) (logging b d).
Proof.
  assert (Hd : forall d1, d = d1 -> logging b d d1) by (intros d1 <-; split; [apply touches_refl|by left]).
  unfold append_journal_bytes. case_bool_decide as E; [subst b; apply triple_ret; intros d1 <-; split; [apply touches_refl|by rewrite app_nil_r]|].
  apply triple_gate; [done|]. eapply (triple_bind _ _ _ _ (fun j => opened d j (journal d))).
  { apply triple_sys. intros d1 <-. destruct (journal_opens b d) as [Hl Ho]. split_and!; auto. }
  intros j. eapply (triple_bind _ _ _ _ (fun _ => opened d j (journal d ++ b))).
  { apply triple_sys. intros d1 Hd1. assert (Hd2 : opened d j (journal d ++ b) (do_write j b d1).2) by (eapply opened_alter; [|exact Hd1]; simpl; by intros n <-).
    split_and!; eauto using opened_logging. }
  intros []. eapply (triple_bind _ _ _ _ (fun _ => opened d j (journal d ++ b))).
  { apply triple_sys. intros d1 Hd1. assert (Hd2 : opened d j (journal d ++ b) (do_sync j d1).2) by (eapply opened_alter; [|exact Hd1]; done).
    split_and!; eauto using opened_logging. }
  intros []. apply triple_sys. intros d1 Hd1. assert (Hd2 : opened d j (journal d ++ b) (do_sync_dir Root d1).2).
  { destruct Hd1 as ([Hi Hn Hs Hj] & Hj' & Hx). split; [|done]. split; [done|done| |done]. intros name. rewrite sync_dir_saved, decide_False by done. apply Hs. }
  split_and!; eauto using opened_logging. intros [] _. split; [apply Hd2|exact (opened_journal _ _ _ _ Hd2)].
Qed.

(** *** The records *)

Definition line (f : SnapshotFile) : bytes := match record_to_vec (record_of f) with Ok b => b ++ [10] | Err _ => [] end.
Definition lines (fs : list SnapshotFile) : bytes := concat (line <$> fs).

Lemma lines_app l k : lines (l ++ k) = lines l ++ lines k.
Proof. unfold lines. by rewrite fmap_app, concat_app. Qed.

(** A file may be recorded: its content was there at the start, or is there for
    good. *)
Definition settled (d : disk) (f : SnapshotFile) : Prop :=
  f ∈ manifest /\ present d (file_digest f) /\ (stored d0 (file_digest f) (file_size f) \/ landed d (file_digest f)).

(** The journal has grown by records of such files; [bs] are not yet written. *)
Definition journaled (bs : list SnapshotFile) (d : disk) : Prop :=
  apart d /\ exists fs, journal d = journal d0 ++ lines fs /\ Forall (settled d) (fs ++ bs).
Definition pending (buf : JournalBuffer) (d : disk) : Prop := exists bs, buf_bytes buf = lines bs /\ journaled bs d.

Lemma settled_kept d d' f : apart d -> evolves d d' -> settled d f -> settled d' f.
Proof. intros Ha He (Hf & Hp & Hs). split_and!; [done|by eapply names_kept|]. destruct Hs; [by left|right; by eapply landed_kept]. Qed.

Lemma journaled_kept bs d d' : evolves d d' -> journal d' = journal d -> journaled bs d -> journaled bs d'.
Proof.
  intros He Hj (Ha & fs & Hf & Hs). split; [by apply (ev_apart _ _ He)|]. exists fs. rewrite Hj. split; [done|].
  eapply list.Forall_impl; [exact Hs|]. intros f. by apply settled_kept.
Qed.
Lemma pending_kept buf d d' : evolves d d' -> journal d' = journal d -> pending buf d -> pending buf d'.
Proof. intros He Hj (bs & Hb & Hs). exists bs. split; [done|]. by eapply journaled_kept. Qed.

Lemma journaled_more bs d f : settled d f -> journaled bs d -> journaled (bs ++ [f]) d.
Proof. intros Hf (Ha & fs & Hj & Hs). split; [done|]. exists fs. split; [done|]. rewrite app_assoc. apply Forall_app. auto. Qed.

Lemma journaled_less bs d : journaled bs d -> journaled [] d.
Proof. intros (Ha & fs & Hj & Hs). split; [done|]. exists fs. split; [done|]. rewrite app_nil_r. by apply Forall_app in Hs as [Hs _]. Qed.
Lemma pending_journaled buf d : pending buf d -> journaled [] d.
Proof. intros (bs & _ & Hb). by eapply journaled_less. Qed.

(** The records [ks] are appended, [bs] stay in memory. *)
Lemma logging_journaled ks bs d d' : journaled (ks ++ bs) d -> touches d d' -> journal d' = journal d ++ lines ks -> journaled bs d'.
Proof.
  intros (Ha & fs & Hf & Hs) Ht%touches_evolves Hj. split; [by apply (ev_apart _ _ Ht)|]. exists (fs ++ ks).
  split; [rewrite Hj, Hf, lines_app; by rewrite app_assoc|]. rewrite <- app_assoc. eapply list.Forall_impl; [exact Hs|]. intros f. by apply settled_kept.
Qed.

(** [X] is not affected by the journal. *)
Definition aside (X : disk -> Prop) : Prop := forall d d', apart d -> touches d d' -> X d -> X d'.

Lemma append_lines_ok X ks bs b :
  aside X -> b = lines ks ->
  triple (journaled []) (fun d => X d /\ journaled (ks ++ bs) d) (append_journal_bytes env b) (fun _ d => X d /\ journaled bs d) (journaled []).
Proof.
  intros HX ->. apply triple_from. intros d [Hx Hd].
  assert (Hl : forall d', logging (lines ks) d d' -> journaled [] d').
  { intros d' [Ht [E|E]]; [|eapply journaled_less; by eapply logging_journaled].
    eapply journaled_kept; [by apply touches_evolves|done|by eapply journaled_less]. }
  eapply triple_weaken; [apply (append_bytes_ok (lines ks) d)|exact Hl|done| |exact Hl].
  intros [] d' [Ht Hj]. split; [eapply HX; [|exact Ht|done]; apply Hd|by eapply logging_journaled].
Qed.

(** A buffer is flushed. *)
Lemma flush_ok X buf :
  aside X ->
  triple (journaled []) (fun d => X d /\ pending buf d) (flush_locked env buf)
    (fun x d => journaled [] d /\ (x.1 = Ok tt -> X d /\ pending x.2 d)) (journaled []).
Proof.
  intros HX. unfold flush_locked. apply triple_from. intros d0' [Hx (bs & Hb & Hj)].
  eapply (triple_bind _ _ _ _ (fun r d => match r with Ok _ => X d /\ journaled [] d | Err _ => journaled [] d end)).
  - eapply triple_weaken; [apply triple_attempt, (append_lines_ok X bs [] (buf_bytes buf) HX Hb)|done| |done|by intros ? []].
    intros d <-. by rewrite app_nil_r.
  - intros r. apply triple_ret. intros d Hd. simpl. destruct r as [[]|e]; [|done]. destruct Hd as [Hx' Hd]. split; [done|]. intros _. split; [done|].
    exists []. done.
Qed.

(** A record is appended. *)
Lemma record_appended X buf f :
  aside X ->
  triple (journaled []) (fun d => X d /\ pending buf d /\ settled d f) (append env buf (record_of f))
    (fun x d => journaled [] d /\ (x.1 = Ok tt -> X d /\ pending x.2 d)) (journaled []).
Proof.
  intros HX. unfold append. destruct (record_to_vec (record_of f)) as [b|e] eqn:Eb.
  2:{ apply triple_ret. intros d (_ & Hp & _). split; [by eapply pending_journaled|done]. }
  assert (Hline : b ++ [10] = line f) by (unfold line; by rewrite Eb). cbv zeta. rewrite Hline.
  assert (HX' : aside (fun d => X d /\ settled d f)).
  { intros d d' Ha Ht [Hx Hs]. split; [by eapply HX|]. eapply settled_kept; [done|by apply touches_evolves|done]. }
  eapply (triple_bind _ _ _ _ (fun x d => journaled [] d /\ (x.1 = Ok tt -> (X d /\ settled d f) /\ pending x.2 d))).
  { destruct (_ && _).
    - eapply triple_weaken; [apply (flush_ok _ buf HX')|done| |done|done]. by intros d (? & ? & ?).
    - apply triple_ret. intros d (? & Hp & ?). split; [by eapply pending_journaled|done]. }
  intros [r buf']. cbn [fst snd]. destruct r as [[]|e].
  2:{ apply triple_ret. intros d [Hj _]. done. }
  destruct (_ <? _).
  - apply triple_from. intros d [_ Hd]. destruct (Hd eq_refl) as ((Hx & Hs) & bs & Hb & Hj).
    eapply (triple_bind _ _ _ _ (fun r d => match r with Ok _ => X d /\ journaled bs d | Err _ => journaled [] d end)).
    + eapply triple_weaken; [apply triple_attempt, (append_lines_ok X [f] bs (line f) HX)|done| |done|by intros ? []].
      * unfold lines. simpl. by rewrite app_nil_r.
      * intros d1 <-. split; [done|]. destruct Hj as (Ha & fs & Hf & Hall). split; [done|]. exists fs. split; [done|].
        apply Forall_app in Hall as [? ?]. apply Forall_app. split; [done|]. by constructor.
    + intros r. apply triple_ret. intros d1 Hd1. simpl. destruct r as [[]|e]; [|done]. destruct Hd1 as [Hx1 Hj1].
      split; [by eapply journaled_less|]. intros _. split; [done|]. by exists bs.
  - set (buf1 := mkBuffer _ _). assert (Hadd : forall d, (X d /\ settled d f) /\ pending buf' d -> X d /\ pending buf1 d).
    { intros d ((Hx & Hs) & bs & Hb & Hj). split; [done|]. exists (bs ++ [f]). split; [|by apply journaled_more].
      simpl. rewrite Hb, lines_app. unfold lines at 3. simpl. by rewrite app_nil_r. }
    destruct (_ || _).
    + eapply triple_weaken; [apply (flush_ok X buf1 HX)|done| |done|done]. intros d [_ Hd]. auto.
    + apply triple_ret. intros d [Hj Hd]. split; [done|]. intros _. auto.
Qed.

(** *** The lanes *)

(** [Y] stays true of every disk of a pass. *)
Definition lasts (Y : disk -> Prop) : Prop := forall d d', apart d -> evolves d d' -> Y d -> Y d'.

Lemma lasts_aside Y : lasts Y -> aside Y.
Proof. intros HY d d' Ha Ht. apply HY; [done|by apply touches_evolves]. Qed.
Lemma lasts_and Y Z : lasts Y -> lasts Z -> lasts (fun d => Y d /\ Z d).
Proof. intros HY HZ d d' Ha He [Hy Hz]. split; [by eapply HY|by eapply HZ]. Qed.
Lemma lasts_each (Y : SnapshotFile -> disk -> Prop) l : (forall f, lasts (Y f)) -> lasts (fun d => Forall (fun f => Y f d) l).
Proof. intros HY d d' Ha He Hl. eapply list.Forall_impl; [exact Hl|]. intros f. by apply HY. Qed.

Lemma landed_settled d f : f ∈ manifest -> landed d (file_digest f) -> settled d f.
Proof. intros Hf Hl. split_and!; [done|apply bound_weaken, Hl|by right]. Qed.

Lemma record_ok X st f :
  aside X ->
  triple (journaled []) (fun d => X d /\ pending (pending_records st) d /\ settled d f) (record_file env st f)
    (fun st' d => X d /\ pending (pending_records st') d) (journaled []).
Proof.
  intros HX. unfold record_file. eapply triple_bind; [by apply record_appended|]. intros [r buf]. cbn [fst snd].
  destruct r as [[]|e]; [|apply triple_bind with (Q' := fun _ _ => False); [apply triple_of_run; [done|by intros d []]|by intros ? ? []]].
  eapply (triple_bind _ _ _ _ (fun _ d => X d /\ pending buf d)); [apply triple_of_run; [|by intros d []]; intros [] d _ [_ Hd]; auto|].
  intros []. by apply triple_ret.
Qed.

Lemma records_ok X st fs :
  aside X ->
  triple (journaled []) (fun d => X d /\ pending (pending_records st) d /\ Forall (settled d) fs) (fold_m (record_file env) st fs)
    (fun st' d => X d /\ pending (pending_records st') d) (journaled []).
Proof.
  intros HX. assert (HX' : aside (fun d => X d /\ Forall (settled d) fs)).
  { intros d d' Ha Ht [Hx Hs]. split; [by eapply HX|]. eapply list.Forall_impl; [exact Hs|]. intros f. eapply settled_kept; [done|by apply touches_evolves]. }
  eapply triple_weaken; [apply (triple_fold _ _ (fun _ st d => (X d /\ Forall (settled d) fs) /\ pending (pending_records st) d) (journaled []))|done| |naive_solver|done].
  - intros done0 st1 f rest E. eapply triple_weaken; [apply (record_ok _ st1 f HX')|done| |done|done]. intros d [[Hx Hs] Hp].
    split_and!; [done|done|done|]. rewrite E in Hs. by apply Forall_app in Hs as [_ [Hs _]%Forall_cons_iff].
  - naive_solver.
Qed.

(** What a batch answers about a file. *)
Definition genuine (c : Budget.Content.VerifiedContent) : Prop :=
  sha256 (Budget.Content.bytes (Budget.Content.buffer c)) = Budget.Content.digest c.

Lemma content_validated c f b :
  (forall v, c = Verified v -> genuine v) -> validate_content c f = Ok b -> digest_of b = file_digest f /\ zlen b = file_size f.
Proof.
  intros Hg Hv. unfold validate_content in Hv. apply rbind_ok in Hv as (x & Hx & Hv). apply reject_ok in Hv as [Hz [= ->]].
  apply negb_false_iff, Z.eqb_eq in Hz. split; [|done]. destruct c as [raw|v].
  - apply reject_ok in Hx as [Hd [= ->]]. unfold ne in Hd. by apply negb_false_iff, String.eqb_eq in Hd.
  - apply rbind_ok in Hx as (dg & Hp & Hx). apply reject_ok in Hx as [Hm [= <-]]. apply negb_false_iff, andb_true_iff in Hm as [Hm _].
    apply bool_decide_eq_true in Hm. specialize (Hg v eq_refl). unfold genuine in Hg. unfold digest_of. rewrite Hg, Hm.
    apply parse_digest_ok in Hp as (-> & _ & _). by rewrite hex_encode_lower.
Qed.

Lemma batch_write_ok name b d :
  triple (writing_any Content name b d) (eq d) (batch_write env name b)
    (fun _ d' => exists tmp i, renamed Content name tmp b d i d') (writing_any Content name b d).
Proof.
  unfold batch_write. apply triple_gate; [apply writing_start|]. apply triple_uuid. intros id. cbv zeta.
  set (tmp := tmp_name name id). pose proof (tmp_name_ne name id) as Hne. fold tmp in Hne.
  assert (Hi : forall d1, writing Content name tmp b d d1 -> writing_any Content name b d d1) by (intros d1 ?; by exists id).
  eapply (triple_bind _ _ _ _ (fun r d1 => match r with Ok _ => exists i, renamed Content name tmp b d i d1 | Err _ => writing Content name tmp b d d1 end)).
  { eapply triple_weaken; [apply triple_attempt|exact Hi|done|intros a d1 Ha; exact Ha|by intros d1 []].
    eapply triple_bind; [apply create_stage|]. intros i. eapply triple_bind; [apply write_stage|]. intros [].
    eapply triple_bind; [apply sync_stage|]. intros []. eapply triple_weaken; [apply rename_stage|done|done| |done]. intros [] d1 Hd1. by exists i. }
  intros r. eapply (triple_bind _ _ _ _ (fun _ d1 => match r with Ok _ => exists i, renamed Content name tmp b d i d1 | Err _ => writing Content name tmp b d d1 end)).
  - apply triple_step. intros d1 Hd1. destruct r as [[]|e].
    + assert (E : (do_remove (Content, tmp) d1).2 = d1).
      { destruct Hd1 as (i & _ & Ht & Hn & _). unfold do_remove. rewrite Hn, lookup_insert_ne, Ht; [done|congruence]. }
      rewrite E. assert (writing_any Content name b d d1) by (destruct Hd1 as [i Hd1]; eapply Hi, renamed_writing, Hd1). auto.
    + pose proof (writing_remove _ _ _ _ _ _ Hne Hd1). auto.
  - intros _. destruct r as [[]|e]; [apply triple_ret; eauto|apply triple_of_run; [done|auto]].
Qed.

Lemma asked_ok {A} (g : nat -> Res A) (I P R : disk -> Prop) :
  (forall d, P d -> R d) -> triple I P (ask g) (fun a d => (exists k, g k = Ok a) /\ P d) R.
Proof.
  intros HR s Hs. unfold ask. cbn [now past]. split; [apply same_past|]. destruct (g (clock s)) as [a|e] eqn:E; simpl; [eauto|auto].
Qed.

(** A content is written under its name; the writes on the way keep [Y]. *)
Lemma unit_kept Y buf b d d' :
  lasts Y -> wanted b (digest_of b) -> writing_any Content (blob_name (digest_of b)) b d d' ->
  Y d /\ pending buf d -> Y d' /\ pending buf d'.
Proof.
  intros HY Hw [id Hd] [Hy Hp]. destruct (writing_evolves id b d d' Hw Hd) as [He Hj]. split; [|by eapply pending_kept].
  eapply HY; [|exact He|done]. by destruct Hp as (bs & _ & Ha & _).
Qed.

Lemma write_unit_ok Y contents buf f :
  lasts Y -> f ∈ manifest -> (forall v, contents (file_digest f) = Some (Verified v) -> genuine v) ->
  triple (journaled []) (fun d => Y d /\ pending buf d) (write_unit env contents tt f)
    (fun _ d => (Y d /\ bound true (names d) d (file_digest f)) /\ pending buf d) (journaled []).
Proof.
  intros HY Hf Hg. unfold write_unit. assert (Hj : forall d, Y d /\ pending buf d -> journaled [] d) by (intros d [_ Hp]; by eapply pending_journaled).
  eapply (triple_bind _ _ _ _ (fun c d => contents (file_digest f) = Some c /\ (Y d /\ pending buf d))); [apply triple_of_res; [|done]; by intros c d Hc%ok_or_ok|].
  intros c. apply triple_pure. intros Hc. eapply (triple_bind _ _ _ _ (fun b d => validate_content c f = Ok b /\ (Y d /\ pending buf d))); [by apply triple_of_res|].
  intros b. apply triple_pure. intros [Hd Hz]%content_validated; [|intros v ->; auto]. rewrite <- Hd.
  assert (Hw : wanted b (digest_of b)) by (split; [done|]; exists f; by rewrite Hd).
  apply triple_from. intros d Hs. eapply triple_weaken; [apply (batch_write_ok (blob_name (digest_of b)) b d)| |done| |].
  - intros d' Hd'. eapply Hj, unit_kept; eauto.
  - intros [] d' (tmp & i & Hr). destruct (renamed_bound tmp b d i d' Hw Hr) as (He & Hjo & Hb). destruct Hs as [Hy Hp].
    split; [split; [|done]|by eapply pending_kept]. eapply HY; [|exact He|done]. by destruct Hp as (bs & _ & Ha & _).
  - intros d' Hd'. eapply Hj, unit_kept; eauto.
Qed.

Lemma bound_lasts digest : lasts (fun d => bound true (names d) d digest).
Proof. intros d d' Ha He Hb. by eapply names_kept. Qed.
Lemma landed_lasts digest : lasts (fun d => landed d digest).
Proof. intros d d' Ha He Hb. by eapply landed_kept. Qed.

(** One task of the small lane. *)
Lemma small_task_ok Y fetch_batch st batch :
  lasts Y -> (forall f, f ∈ batch -> f ∈ manifest) ->
  (forall k contents digest v, fetch_batch k batch = Ok contents -> contents digest = Some (Verified v) -> genuine v) ->
  triple (journaled []) (fun d => Y d /\ pending (pending_records st) d) (small_task env fetch_batch st batch)
    (fun st' d => (Y d /\ Forall (fun f => landed d (file_digest f)) batch) /\ pending (pending_records st') d) (journaled []).
Proof.
  intros HY Hb Hg. unfold small_task. assert (Hj : forall d, Y d /\ pending (pending_records st) d -> journaled [] d) by (intros d [_ Hp]; by eapply pending_journaled).
  eapply triple_bind; [by apply asked_ok|]. intros contents. apply triple_pure. intros [k Hk]. apply triple_gate; [done|].
  eapply (triple_bind _ _ _ _ (fun _ d => (Y d /\ Forall (fun f => bound true (names d) d (file_digest f)) batch) /\ pending (pending_records st) d)).
  { eapply triple_weaken; [apply (triple_fold _ _ (fun done0 _ d => (Y d /\ Forall (fun f => bound true (names d) d (file_digest f)) done0) /\ pending (pending_records st) d) (journaled []))|done|naive_solver|done|done].
    intros done0 [] f rest E. eapply triple_weaken; [apply (write_unit_ok (fun d => Y d /\ Forall (fun f => bound true (names d) d (file_digest f)) done0) contents (pending_records st) f)|done|done| |done].
    - apply lasts_and; [done|]. apply (lasts_each (fun f d => bound true (names d) d (file_digest f))). intros g. apply bound_lasts.
    - apply Hb. rewrite E. apply elem_of_app. right. left.
    - intros v Hv. eauto.
    - intros [] d [[[Hy Hd] Hf] Hp]. split; [|done]. split; [done|]. apply Forall_app. auto. }
  intros []. eapply (triple_bind _ _ _ _ (fun _ d => (Y d /\ Forall (fun f => landed d (file_digest f)) batch) /\ pending (pending_records st) d)).
  { apply triple_sys. intros d [[Hy Hd] Hp]. destruct (synced_landed d) as (He & Hjo & Hl).
    pose proof (pending_kept _ _ _ He Hjo Hp) as Hp'. split_and!; try (by eapply pending_journaled). intros [] _. split; [split|done].
    - eapply HY; [|exact He|done]. by destruct Hp as (bs & _ & Ha & _).
    - eapply list.Forall_impl; [exact Hd|]. intros f. apply Hl. }
  intros []. eapply triple_weaken; [apply (records_ok (fun d => Y d /\ Forall (fun f => landed d (file_digest f)) batch) st batch)|done| |done|done].
  - apply lasts_aside, lasts_and; [done|]. apply (lasts_each (fun f d => landed d (file_digest f))). intros f. apply landed_lasts.
  - intros d [[Hy Hl] Hp]. split_and!; [done|done|done|]. rewrite list.Forall_forall in Hl |- *. intros f Hf. apply landed_settled; auto.
Qed.

(** A content that is written whole. *)
Lemma whole_ok Y buf b d (c : M unit) :
  lasts Y -> wanted b (digest_of b) -> Y d /\ pending buf d ->
  triple (writing_any Content (blob_name (digest_of b)) b d) (eq d) c (fun _ => written Content (blob_name (digest_of b)) b d)
    (writing_any Content (blob_name (digest_of b)) b d) ->
  triple (journaled []) (eq d) c (fun _ d => (Y d /\ landed d (digest_of b)) /\ pending buf d) (journaled []).
Proof.
  intros HY Hw Hs Hc. assert (Hj : forall d', writing_any Content (blob_name (digest_of b)) b d d' -> journaled [] d').
  { intros d' Hd'. eapply pending_journaled, unit_kept; eauto. }
  eapply triple_weaken; [exact Hc|exact Hj|done| |exact Hj]. intros [] d' Hd'. destruct (written_landed b d d' Hw Hd') as (He & Hjo & Hl).
  destruct Hs as [Hy Hp]. split; [split; [|done]|by eapply pending_kept]. eapply HY; [|exact He|done]. by destruct Hp as (bs & _ & Ha & _).
Qed.

Context `{ChunkCodec} (Hchunk : 0 < CHUNK_SIZE) (Hsizes : Forall (fun f => 0 <= file_size f) manifest).

Lemma verified_wanted f b : f ∈ manifest -> verified f b -> wanted b (digest_of b) /\ digest_of b = file_digest f.
Proof using Type. intros Hf [Hd Hz]. split; [|done]. split; [done|]. exists f. by rewrite Hd. Qed.

Lemma stream_lands Y buf src f :
  lasts Y -> f ∈ manifest ->
  triple (journaled []) (fun d => Y d /\ pending buf d) (write_reader_blob env src f)
    (fun _ d => (Y d /\ landed d (file_digest f)) /\ pending buf d) (journaled []).
Proof using Hchunk Hsizes.
  intros HY Hf. apply triple_from. intros d Hs. assert (Hsize : 0 <= file_size f) by (rewrite list.Forall_forall in Hsizes; auto).
  destruct (Hs) as [Hy Hp]. assert (Ha : apart d) by (by destruct Hp as (bs & _ & Ha & _)).
  assert (Hkept : forall d', evolves d d' /\ journal d' = journal d -> Y d' /\ pending buf d').
  { intros d' [He Hjo]. split; [by eapply HY|by eapply pending_kept]. }
  assert (Hj : forall d', publishing_any f d d' -> journaled [] d').
  { intros d' (id & Hd'). eapply pending_journaled, Hkept. destruct Hd' as [Hu|(b & Hv & Hw)].
    - eapply unpublished_evolves; [intros ? ?; by eapply (tmp_hidden (name f) id)|exact Hu].
    - destruct (verified_wanted f b Hf Hv) as [Hb E]. unfold name in Hw. rewrite <- E in Hw. by eapply writing_evolves. }
  eapply triple_weaken; [apply (stream_ok env src f d Hchunk Hsize)|exact Hj|done| |exact Hj].
  intros [] d' (b & Hv & Hw). destruct (verified_wanted f b Hf Hv) as [Hb E]. unfold name in Hw. rewrite <- E in Hw |- *.
  destruct (written_landed b d d' Hb Hw) as (He & Hjo & Hl). destruct (Hkept d' (conj He Hjo)). done.
Qed.

(** One task of the large lane. *)
Lemma large_task_ok Y fetch_large source st f :
  lasts Y -> f ∈ manifest ->
  triple (journaled []) (fun d => Y d /\ pending (pending_records st) d) (large_task env fetch_large source st f)
    (fun st' d => (Y d /\ landed d (file_digest f)) /\ pending (pending_records st') d) (journaled []).
Proof using Hchunk Hsizes.
  intros HY Hf. assert (Hj : forall d, Y d /\ pending (pending_records st) d -> journaled [] d) by (intros d [_ Hp]; by eapply pending_journaled).
  assert (Hwhole : triple (journaled []) (fun d => Y d /\ pending (pending_records st) d) (fetch_whole env fetch_large f)
    (fun _ d => (Y d /\ landed d (file_digest f)) /\ pending (pending_records st) d) (journaled [])).
  { unfold fetch_whole. eapply triple_bind; [by apply asked_ok|]. intros b. apply triple_pure. intros _. cbv zeta.
    apply triple_guard; [done|]. intros Hd. unfold ne in Hd. apply negb_false_iff, String.eqb_eq in Hd. apply triple_guard; [done|]. intros Hz%negb_false_iff%Z.eqb_eq.
    destruct (verified_wanted f b Hf (conj Hd Hz)) as [Hw E]. rewrite <- E. apply triple_from. intros d Hs. apply whole_ok; [done|done|done|]. apply write_atomic_spec. }
  unfold large_task. eapply triple_bind.
  { destruct source as [src|]; [|exact Hwhole]. destruct (source_chunk_reads src); [by apply stream_lands|exact Hwhole]. }
  intros []. eapply triple_weaken; [apply (record_ok (fun d => Y d /\ landed d (file_digest f)) st f)|done| |done|done].
  - apply lasts_aside, lasts_and; [done|apply landed_lasts].
  - intros d [[Hy Hl] Hp]. split_and!; [done|done|done|]. by apply landed_settled.
Qed.

(** *** The audit *)

Lemma stored_content d digest size : stored d digest size ->
  exists n, lookup (content_path digest) d = Some n /\ regular n = true /\ digest_of (data n) = digest /\ zlen (data n) = size.
Proof using Type.
  intros (p & n & Hp & Hn & (Hr & Hz & Hd)%blob_ok_facts). apply reject_ok in Hp as [_ [= <-]]. eauto.
Qed.

Lemma stored_present f : f ∈ manifest -> stored d0 (file_digest f) (file_size f) -> present d0 (file_digest f).
Proof using Type.
  intros Hf (n & Hn & Hr & Hd & Hz)%stored_content. unfold lookup in Hn. destruct (names d0 !! _) as [i|] eqn:Ei; [|done]. simpl in Hn.
  exists i, n. split_and!; [done..|]. split; [done|]. by exists f.
Qed.

(** Before contents are written, what is stored was so at the start. *)
Lemma stored_back d digest size : apart d0 -> touches d0 d -> stored d digest size -> stored d0 digest size.
Proof using manifest.
  intros Ha Ht Hst. destruct (stored_content _ _ _ Hst) as (x & _ & _ & Hx & _). destruct Hst as (p & n & Hp & Hn & Hok). exists p, n. split_and!; [done| |done].
  apply reject_ok in Hp as [_ [= <-]]. unfold lookup in Hn |- *. rewrite (to_names _ _ Ht) in Hn. destruct (names d0 !! (Content, blob_name digest)) as [i|] eqn:Ei; [|done].
  simpl in *. assert (Hs : shown (blob_name digest)) by (rewrite <- Hx; apply digest_shown).
  rewrite <- (to_inodes _ _ Ht i); [done|by eapply Ha; eauto|]. pose proof (ev_apart _ _ (touches_evolves _ _ Ht) Ha) as Ha'.
  eapply (Ha' (blob_name digest)); [done|left]. by rewrite (to_names _ _ Ht).
Qed.

Definition auditing (done0 : list SnapshotFile) (a : audit) (d : disk) : Prop :=
  (touches d0 d /\ pending (pending_records (counted a)) d) /\
  (forall digest size x, audited a !! (digest, size) = Some (true, x) -> stored d0 digest size) /\
  (forall f, f ∈ done0 -> stored d0 (file_digest f) (file_size f) \/ f ∈ need a) /\ (forall f, f ∈ need a -> f ∈ done0).

Lemma audit_content_ok d f :
  apart d0 -> touches d0 d -> reads d (audit_content env f) (fun r => r.1 = true -> stored d0 (file_digest f) (file_size f)).
Proof using manifest.
  intros Ha Ht. unfold audit_content. eapply reads_bind; [apply verify_blob_reads|]. intros ok Hok. destruct ok.
  - apply reads_ret. intros _. eapply stored_back; eauto.
  - eapply reads_bind; [apply reads_res_post|]. intros p _. eapply reads_bind; [by apply reads_step_post|]. intros m _. by apply reads_ret.
Qed.

Lemma touches_aside : aside (touches d0).
Proof using Type. intros d d' _ Ht Hd. by eapply touches_trans. Qed.

Lemma audit_file_ok done0 a f :
  apart d0 -> f ∈ manifest ->
  triple (journaled []) (auditing done0 a) (audit_file env a f) (auditing (done0 ++ [f])) (journaled []).
Proof using Type.
  intros Ha Hf. unfold audit_file. cbv zeta. apply triple_from. intros d ((Ht & Hp) & Haud & Hdone & Hneed).
  assert (Hj : journaled [] d) by (by eapply pending_journaled).
  eapply (triple_bind _ _ _ _ (fun r d' => d' = d /\ (r.1 = true -> stored d0 (file_digest f) (file_size f)))).
  { destruct (audited a !! (file_digest f, file_size f)) as [[ok x]|] eqn:E.
    - apply triple_ret. intros d' <-. split; [done|]. simpl. intros ->. by eapply Haud.
    - apply reads_triple; [done|done|by apply audit_content_ok]. }
  intros [ok damaged]. cbn [fst]. eapply (triple_weaken _ _ _ (fun d' => (ok = true -> stored d0 (file_digest f) (file_size f)) /\ d = d')); [|done|naive_solver|done|done].
  apply triple_pure. intros Hok. set (aud := <[_ := _]> (audited a)).
  assert (Haud' : forall digest size x, aud !! (digest, size) = Some (true, x) -> stored d0 digest size).
  { intros digest size x. unfold aud. rewrite lookup_insert_Some. intros [[[= <- <-] [= -> ->]]|[_ Hx]]; [auto|by eapply Haud]. }
  destruct ok.
  - specialize (Hok eq_refl). assert (Hset : settled d f).
    { split_and!; [done| |by left]. apply (names_kept false d0 d); [done|by apply touches_evolves|by apply stored_present]. }
    eapply triple_bind.
    { eapply triple_weaken; [apply (record_appended (touches d0) (pending_records (counted a)) f touches_aside)|done|by intros d' <-|intros x d' Hx; exact Hx|done]. }
    intros [r buf]. cbn [fst snd]. destruct r as [[]|e]; [|apply triple_bind with (Q' := fun _ _ => False); [apply triple_of_run; [done|by intros d' []]|by intros ? ? []]].
    eapply (triple_bind _ _ _ _ (fun _ d' => touches d0 d' /\ pending buf d')); [apply triple_of_run; [|by intros d' []]; intros [] d' _ [_ Hd']; auto|].
    intros []. apply triple_ret. intros d' Hd'. split; [done|]. cbn [audited need]. split_and!; [done| |].
    + intros g [Hg|Hg%list_elem_of_singleton]%elem_of_app; [auto|subst; by left].
    + intros g Hg. apply elem_of_app. auto.
  - apply triple_ret. intros d' <-. split; [done|]. cbn [audited need]. split_and!; [done| |].
    + intros g [Hg|Hg%list_elem_of_singleton]%elem_of_app; [|subst; right; apply elem_of_app; right; left].
      destruct (Hdone g Hg); [by left|right; apply elem_of_app; by left].
    + intros g [Hg|Hg%list_elem_of_singleton]%elem_of_app; apply elem_of_app; [left; auto|subst; right; left].
Qed.

(** *** The pass *)

(** What was stored at the start stays there. *)
Definition resumable (d : disk) : Prop := forall f, f ∈ manifest -> stored d0 (file_digest f) (file_size f) -> present d (file_digest f).

Lemma resumable_lasts : lasts resumable.
Proof using Type. intros d d' Ha He Hd f Hf Hs. eapply names_kept; [done|done|]. by apply Hd. Qed.

(** A lane whose tasks land files of the manifest. *)
Lemma lane_ok {X} (task : progress -> X -> M progress) (files : X -> list SnapshotFile) Y st xs :
  lasts Y ->
  (forall Y st x, lasts Y -> x ∈ xs -> triple (journaled []) (fun d => Y d /\ pending (pending_records st) d) (task st x)
     (fun st' d => (Y d /\ Forall (fun f => landed d (file_digest f)) (files x)) /\ pending (pending_records st') d) (journaled [])) ->
  triple (journaled []) (fun d => Y d /\ pending (pending_records st) d) (fold_m task st xs)
    (fun st' d => (Y d /\ Forall (fun f => landed d (file_digest f)) (concat (files <$> xs))) /\ pending (pending_records st') d) (journaled []).
Proof using Type.
  intros HY Ht. set (J := fun l d => Y d /\ Forall (fun f => landed d (file_digest f)) (concat (files <$> l))).
  assert (HJ : forall l, lasts (J l)).
  { intros l. apply lasts_and; [done|]. apply (lasts_each (fun f d => landed d (file_digest f))). intros f. apply landed_lasts. }
  eapply triple_weaken; [apply (triple_fold _ _ (fun l st d => J l d /\ pending (pending_records st) d) (journaled []))|done| |done|done].
  - intros l st1 x rest E. eapply triple_weaken; [apply (Ht (J l) st1 x); [done|]|done|done| |done].
    + rewrite E. apply elem_of_app. right. left.
    + intros st2 d [[[Hy Hl] Hx] Hp]. split; [|done]. split; [done|]. rewrite fmap_app, concat_app. simpl. rewrite app_nil_r. apply Forall_app. auto.
  - intros d [Hy Hp]. done.
Qed.

Context (fetch_batch : nat -> list SnapshotFile -> Res (string -> option BorrowedBatchContent)).
Context (fetch_large : nat -> SnapshotFile -> Res bytes) (source : option RangeSource).
Context (Hapart : apart d0).
Context (Hgenuine : forall k batch contents digest v, fetch_batch k batch = Ok contents -> contents digest = Some (Verified v) -> genuine v).

Lemma singles {X} (l : list X) : concat ((fun x => [x]) <$> l) = l.
Proof using Type. induction l as [|x l IH]; simpl; [done|by f_equal]. Qed.

(** What is planned is needed, and what is needed is planned. *)
Lemma plan_covers need :
  (forall f, f ∈ need -> f ∈ manifest) ->
  (forall batch f, batch ∈ (plan need).1 -> f ∈ batch -> f ∈ manifest) /\ (forall f, f ∈ (plan need).2 -> f ∈ manifest) /\
  (forall f, f ∈ need -> file_digest f ∈ file_digest <$> concat (plan need).1 \/ file_digest f ∈ file_digest <$> (plan need).2).
Proof using Hsizes.
  intros Hneed. unfold plan. cbn [fst snd]. set (sm := filter _ need). set (lg := filter (fun f => small f = false) need).
  destruct (units_exact sm) as (_ & Hi1 & Hc1). destruct (units_exact lg) as (_ & Hi2 & Hc2).
  assert (Hsm : forall f, f ∈ sm <-> small f = true /\ f ∈ need) by (intros f; unfold sm; by rewrite list_elem_of_filter).
  assert (Hlg : forall f, f ∈ lg <-> small f = false /\ f ∈ need) by (intros f; unfold lg; by rewrite list_elem_of_filter).
  assert (Hf : Forall (fun f => 0 <= file_size f /\ small f = true) (units sm)).
  { rewrite list.Forall_forall. intros f [Hs Hn]%Hi1%Hsm. rewrite list.Forall_forall in Hsizes. auto. }
  destruct (group_exact (units sm) Hf) as [Hg _]. split_and!.
  - intros batch f Hb Hfb. apply Hneed. apply Hsm, Hi1. rewrite <- Hg. apply list_elem_of_In, in_concat. exists batch. by rewrite <- !list_elem_of_In.
  - intros f [_ Hfl]%Hi2%Hlg. by apply Hneed.
  - intros f Hfn. rewrite Hg. destruct (small f) eqn:E; [left; by apply Hc1, Hsm|right; by apply Hc2, Hlg].
Qed.

Lemma digest_landed d l digest :
  Forall (fun f => landed d (file_digest f)) l -> digest ∈ file_digest <$> l -> landed d digest.
Proof using Type. rewrite list.Forall_forall. intros Hl (f & -> & Hf)%list_elem_of_fmap. auto. Qed.

Lemma fill_ok :
  triple (journaled []) (eq d0) (fill_batches env manifest fetch_batch fetch_large source)
    (fun _ d => forall f, f ∈ manifest -> settled d f) (journaled []).
Proof using All.
  assert (Hstart : auditing [] (mkAudit ∅ (mkProgress 0 0 0 0 JournalBuffer_default) []) d0).
  { split; [split; [apply touches_refl|]|split_and!; [intros ? ? ? E; cbn [audited] in E; by rewrite lookup_empty in E|by intros f ?%not_elem_of_nil..]].
    exists []. split; [done|]. split; [done|]. exists []. by rewrite app_nil_r. }
  unfold fill_batches, tagged. eapply (triple_bind _ _ _ _ (auditing manifest)).
  { apply triple_on_error. eapply triple_weaken; [apply (triple_fold _ _ auditing (journaled []) manifest)|done|by intros d <-|done|done].
    intros done0 a f rest E. apply audit_file_ok; [done|]. rewrite E. apply elem_of_app. right. left. }
  intros a. apply triple_from. intros d1 ((Ht & Hp) & _ & Hdone & Hneed). destruct (plan_covers (need a) Hneed) as (Hb & Hl & Hcov).
  destruct (plan (need a)) as [batches large]. cbn [fst snd] in Hb, Hl, Hcov.
  assert (Hres : resumable d1).
  { intros f Hf Hs. apply (names_kept false d0 d1); [done|by apply touches_evolves|by apply stored_present]. }
  eapply triple_bind; [apply triple_on_error|].
  { eapply triple_weaken; [apply (lane_ok (small_task env fetch_batch) id resumable (counted a) batches resumable_lasts)|done|by intros d <-|intros st d Hd; exact Hd|done].
    intros Y st batch HY Hbatch. apply small_task_ok; [done|intros f; by apply (Hb batch)|]. intros k contents digest v. by apply Hgenuine. }
  intros st. rewrite list_fmap_id. eapply triple_bind; [apply triple_on_error|].
  { apply (lane_ok (large_task env fetch_large source) (fun f => [f])).
    - apply lasts_and; [apply resumable_lasts|]. apply (lasts_each (fun f d => landed d (file_digest f))). intros f. apply landed_lasts.
    - intros Y st1 f HY Hf. eapply triple_weaken; [apply (large_task_ok Y fetch_large source st1 f HY (Hl f Hf))|done|done| |done].
      intros st2 d [[Hy Hd] Hp']. split; [|done]. split; [done|]. by constructor. }
  intros st1. eapply (triple_bind _ _ _ _ (fun x d => journaled [] d /\ (x.1 = Ok tt -> forall f, f ∈ manifest -> settled d f))).
  - eapply triple_weaken; [apply (flush_ok (fun d => forall f, f ∈ manifest -> settled d f) (pending_records st1))|done| |intros x d [Hj Hd]; split; [done|]; intros E; by apply Hd|done].
    + intros d d' Ha Htd Hd f Hf. eapply settled_kept; [done|by apply touches_evolves|auto].
    + intros d [[[Hr Hs] Hlg] Hp']. split; [|done]. intros f Hf. destruct (Hdone f Hf) as [Hst|[Hd|Hd]%Hcov].
      * split_and!; [done|by apply Hr|by left].
      * apply landed_settled; [done|]. eapply digest_landed; [exact Hs|exact Hd].
      * apply landed_settled; [done|]. eapply digest_landed; [exact Hlg|]. clear - Hd. by rewrite singles.
  - intros [r buf]. cbn [fst]. eapply (triple_bind _ _ _ _ (fun _ d => forall f, f ∈ manifest -> settled d f)); [|intros []; by apply triple_ret].
    apply triple_on_error, triple_of_run; [|by intros d []]. intros [] d -> [_ Hd]. auto.
Qed.

(** A content of the manifest is there, whole and synced. *)
Definition held (d : disk) (f : SnapshotFile) : Prop :=
  exists b, lookup (content_path (file_digest f)) d = Some (mkInode b true true) /\ wanted b (file_digest f).

End Lands.

(** ** The pass *)

#[local] Hint Resolve quiet_metadata quiet_read quiet_open quiet_write quiet_set_len quiet_sync quiet_sync_dir
  quiet_create quiet_append quiet_remove quiet_rename tmp_not_record blob_name_quiet : quiet.
#[local] Hint Resolve write_quiet ask_keeps append_keeps verify_blob_keeps write_reader_blob_keeps flush_keeps
  blob_name_quiet : keeps.

Section Pass.
Context `{HexCrate} `{Sha256} `{PageCodec} `{CodecScope} `{DescriptorCodec} `{ServingCodec} `{UuidCrate} `{Rfc3339}.
Context `{CommitCodec} `{PinCodec} `{RecordCodec} `{ChunkCodec} (env : environment) (at_ : Location).

Lemma fill_batches_keeps manifest fetch_batch fetch_large source :
  keeps absent (fill_batches env manifest fetch_batch fetch_large source).
Proof.
  pose proof absent_stable as HS. unfold fill_batches, tagged.
  apply keeps_bind; [apply keeps_on_error, keeps_fold; intros a f; unfold audit_file, audit_content; keeping|].
  intros a. destruct (plan (need a)) as [batches large]. apply keeps_bind.
  { apply keeps_on_error, keeps_fold. intros st b. unfold small_task, write_unit, batch_write, batch_finish, record_file, sync_dir. keeping. }
  intros st. apply keeps_bind.
  { apply keeps_on_error, keeps_fold. intros st' f. unfold large_task, fetch_whole, record_file. keeping. }
  intros st'. keeping.
Qed.

Context (Huuid : forall k, is_empty (uuid env k) = false).

(** A hydration by batches ends complete or leaves nothing to believe, from
    any disk, whatever the sources answer and whatever operations fail: a crash
    at any moment leaves the completion record of the start, or no record, or
    one that reads back as exactly these files; once it has returned, the
    record is there and reads back, before and after any crash. *)
Lemma batched_hydration_ends_complete view files closure fetch_batch fetch_large source d0 k0 :
  (forall c, closure = Some c -> vc_files c = files /\ Btree.ordered (vc_pages c) /\
     exists descriptor, from_pages descriptor (vc_pages c) = Ok c) ->
  let (r, s) := hydrate_batches_closure env at_ view files closure fetch_batch fetch_large source (mkWorld d0 k0 []) in
  (forall d d' env', d ∈ past s -> crash d d' -> calm env' ->
     names d' !! COMPLETE = names d0 !! COMPLETE \/ names d' !! COMPLETE = saved d0 !! COMPLETE \/
     lookup COMPLETE d' = None \/
     exists b, lookup COMPLETE d' = Some (mkInode b true true) /\ returns d' (verify_commit env' b) files) /\
  (forall report d' env', r = Ok report -> d' = now s \/ crash (now s) d' -> calm env' ->
     exists b, lookup COMPLETE d' = Some (mkInode b true true) /\ returns d' (verify_commit env' b) files).
Proof using Huuid.
  intros Hclo. pose proof (pass_outcome env at_ Huuid view files closure (src ← source; source_grant src)
    (fill_batches env files fetch_batch fetch_large source) (fun _ => True) d0 k0 Hclo
    (fill_batches_keeps files fetch_batch fetch_large source) ltac:(done)) as Hp.
  assert (Hrun : forall s0, (match closure with Some c => tagged HydrationCommit (of_res (validate_snapshot_view view c))
                                       | None => ret tt end) s0 = (Ok tt, s0) \/
    exists e, (match closure with Some c => tagged HydrationCommit (of_res (validate_snapshot_view view c))
                                | None => ret tt end) s0 = (Err e, s0)).
  { intros s0. destruct closure as [c|]; [|by left]. unfold tagged, on_error, of_res, of_run.
    destruct (validate_snapshot_view view c) as [[]|e]; [by left|right; eauto]. }
  unfold hydrate_batches_closure, bind. destruct (Hrun (mkWorld d0 k0 [])) as [->|[e ->]].
  - destruct (pass _ _ _ _ _ _ _ _) as [r s]. destruct Hp as [Hc Hok]. split; [exact Hc|].
    intros report d' env' Hr Hd He. apply (Hok report d' env' Hr Hd He).
  - split; [|done]. cbn [past]. intros d d' env' Hd. by apply not_elem_of_nil in Hd.
Qed.
End Pass.
End BatchFacts.
