(* ===== verification/OwnedTransport.v ===== *)
(** * OwnedTransport

    [src/snapshot/owned_transport.rs]: the accounted transport of owned reads.
    A response arrives in network chunks; the cursor cuts headers and payloads
    out of them, every frame is admitted to the construction budget before its
    payload is read, data frames go to a sink one at a time, and only an END
    that accounts for every unit, followed by the end of the body, succeeds.
    The budget is shared with other tasks: its answers are an argument. *)

From S2P Require Import Prelude Types Faults Profile Budget Frames.
Local Open Scope string_scope.
Local Open Scope list_scope.
Local Open Scope Z_scope.

(** [treeframe::parse_frame] with the number of bytes it used, the zstd flag and
    the object count limit. The header holds the fields read here, up to byte
    32. *)
Class FrameParser `{Treeframe} : Type := {
  parse_frame : bytes -> result string (Frame * Z);
  FLAG_ZSTD : Z;
  OBJECT_MAX_COUNT : Z;
  HEADER_LEN_sequence : 32 <= HEADER_LEN;
}.

Module Owned.

Definition invalid (m : string) : SnapshotError := SnapshotError_new DigestMismatch m.
Definition limit (m : string) : SnapshotError := SnapshotError_new LimitExceeded m.

(** ** The cursor over network chunks *)

Record WireCursor : Type := mkCursor { current : bytes; offset : Z; rest : list (Res bytes) }.

Fixpoint refill_loop (cur : bytes) (chunks : list (Res bytes)) : Res (bool * WireCursor) :=
  match chunks with
  | [] => Ok (false, mkCursor cur (zlen cur) [])
  | Err e :: _ => Err e
  | Ok chunk :: chunks =>
      if 0 =? zlen chunk then refill_loop chunk chunks else Ok (true, mkCursor chunk 0 chunks)
  end.

(** [WireCursor::refill]. *)
Definition refill (c : WireCursor) : Res (bool * WireCursor) :=
  if offset c =? zlen (current c) then refill_loop (current c) (rest c) else Ok (true, c).

(** The copying loop of [header] and [payload]: up to [want] bytes in [got]. *)
Fixpoint fill (fuel : nat) (msg : string) (want : Z) (got : bytes) (c : WireCursor) : Run (bytes * WireCursor) :=
  if want <=? zlen got then Ok (got, c)
  else match fuel with
       | O => Err OutOfFuel
       | S fuel =>
           let? ' (more, c) := lift (refill c) in
           reject? negb more with Failed (invalid msg) in
           let len := Z.min (want - zlen got) (zlen (current c) - offset c) in
           fill fuel msg want (got ++ slice (current c) (offset c) (offset c + len))
             (mkCursor (current c) (offset c + len) (rest c))
       end.

(** Every iteration copies at least one byte. *)
Definition fill_to (msg : string) (want : Z) (got : bytes) (c : WireCursor) : Run (bytes * WireCursor) :=
  fill (Z.to_nat (want - zlen got)) msg want got c.

Section Transport.
Context `{FrameParser} `{Sha256} (p : profile).
Context (size_of_object size_of_digest size_of_scratch size_of_frame : Z).
(** The answer of the shared construction budget to the k-th admission. *)
Context (admit_buffer : nat -> Z -> Z -> Res unit).

(** [WireCursor::header]. *)
Definition header (c : WireCursor) : Run (option bytes * WireCursor) :=
  let? ' (more, c) := lift (refill c) in
  if negb more then Ok (None, c)
  else let? ' (h, c) := fill_to "truncated TreeFrame header" HEADER_LEN [] c in Ok (Some h, c).

Definition decode_capacity (kind raw : Z) (compressed : bool) : Res Z :=
  let compressed_raw := if compressed then raw else 0 in
  let '(data, tables) :=
    if kind =? KIND_OBJECT then (raw, OBJECT_MAX_COUNT * (size_of_object + size_of_digest))
    else if kind =? KIND_CHUNK then (saturating_sub raw 76, 0)
    else if kind =? KIND_ERROR then (4 * ERROR_MAX_BYTES, 256)
    else (0, 0) in
  ok_or (n ← checked_add compressed_raw data; n ← checked_add n tables;
         checked_add n (size_of_scratch + size_of_frame))
    (limit "frame construction capacity overflow").

Record FrameRequest : Type := mkFrameRequest {
  body : bytes; data_kind : Z; item_count : Z; logical_max : Z; allow_zstd : bool;
}.

(** The response of one exchange: a success status, the declared length, the
    chunks of the body, and the error an envelope of a failed one denotes. *)
Record Response : Type := mkResponse {
  is_success : bool; declared : option Z; chunks : list (Res bytes); envelope : bytes -> SnapshotError;
}.

(** [request_body]: the serializer fails once its output exceeds the admitted
    capacity. *)
Definition request_body (k : nat) (extra : Z) (encoded : bytes) : Res bytes :=
  let cap := Z.min (request_byte_limit p) MAX_JSON_REQUEST_BYTES in
  let? _ := admit_buffer k cap extra in
  reject? cap <? zlen encoded
    with limit "TreeFrame request exceeds the fixed JSON serialization capacity" in
  Ok encoded.

Fixpoint error_body (cap : Z) (got : bytes) (chunks : list (Res bytes)) (envelope : bytes -> SnapshotError)
    : SnapshotError :=
  match chunks with
  | [] => envelope got
  | Err e :: _ => e
  | Ok c :: chunks =>
      if cap - zlen got <? zlen c then limit "JSON error response exceeds the protocol byte budget"
      else error_body cap (got ++ c) chunks envelope
  end.

(** [typed_error]. *)
Definition typed_error (k : nat) (r : Response) : SnapshotError :=
  if match declared r with Some n => response_byte_limit p <? n | None => false end
  then limit "JSON error response exceeds the protocol byte budget"
  else
    let cap := Z.min (response_byte_limit p) MAX_JSON_RESPONSE_BYTES in
    match admit_buffer k cap 0 with
    | Err e => e
    | Ok _ => error_body cap [] (chunks r) (envelope r)
    end.

(** ** Frames *)

Definition is_terminal (kind : Z) : bool := (kind =? KIND_END) || (kind =? KIND_ERROR).
Definition h_kind (h : bytes) : Z := from_le (slice h 6 7).
Definition h_flags (h : bytes) : Z := from_le (slice h 7 8).
Definition h_wire (h : bytes) : Z := from_le (slice h 12 16).
Definition h_raw (h : bytes) : Z := from_le (slice h 16 20).
Definition h_stream (h : bytes) : Z := from_le (slice h 20 24).
Definition h_sequence (h : bytes) : Z := from_le (slice h 24 32).
Definition MAGIC : bytes := as_bytes "MST2".

(** The loop's counters. *)
Record progress : Type := mkProgress {
  stream : option Z; sequence : Z; frames : Z; raw_total : Z; wire_total : Z; units : Z; logical : Z;
  admissions : nat;
}.

Definition header_invalid (r : FrameRequest) (pr : progress) (h : bytes) : bool :=
  negb (bool_decide (slice h 0 4 = MAGIC)) || negb (from_le (slice h 4 6) =? 2)
  || negb (from_le (slice h 8 12) =? HEADER_LEN)
  || negb (Z.land (h_flags h) (Z.lxor 255 FLAG_ZSTD) =? 0)
  || (negb (h_flags h =? 0) && negb (allow_zstd r))
  || (h_stream h =? 0)
  || match stream pr with Some first => negb (first =? h_stream h) | None => false end
  || negb (h_sequence h =? sequence pr)
  || (negb (h_kind h =? data_kind r) && negb (is_terminal (h_kind h)))
  || (is_terminal (h_kind h) && negb (h_flags h =? 0))
  || ((h_flags h =? 0) && negb (h_wire h =? h_raw h)).

Definition frame_raw_max (kind : Z) : Z :=
  if kind =? KIND_OBJECT then OBJECT_MAX_RAW
  else if kind =? KIND_CHUNK then 76 + CHUNK_MAX_LEN
  else if kind =? KIND_END then 48 else ERROR_MAX_BYTES.

Definition unit_overhead (r : FrameRequest) : Z := if data_kind r =? KIND_CHUNK then 76 else 44.

Definition raw_budget (r : FrameRequest) : Res Z :=
  ok_or (n ← checked_mul (item_count r) (unit_overhead r); n ← checked_add n (logical_max r);
         checked_add n ERROR_MAX_BYTES) (limit "frame response budget overflow").

Definition wire_budget (r : FrameRequest) (raw_max : Z) : Res Z :=
  ok_or (n ← checked_mul raw_max 2; checked_add n ((item_count r + 1) * HEADER_LEN))
    (limit "frame response budget overflow").

(** The checks and counters of one header. *)
Definition admit_header (r : FrameRequest) (raw_max wire_max : Z) (pr : progress) (h : bytes) : Res progress :=
  reject? header_invalid r pr h with invalid "invalid endpoint frame header or stream ordering" in
  reject? (frame_raw_max (h_kind h) <? h_raw h) || (frame_wire_limit p <? h_wire h)
    with limit "frame exceeds its payload byte limit" in
  let? raw := ok_or (checked_add (raw_total pr) (h_raw h)) (limit "raw count overflow") in
  let? wire := ok_or (checked_add (wire_total pr) (HEADER_LEN + h_wire h)) (limit "wire count overflow") in
  reject? (item_count r + 2 <? frames pr + 1) || (raw_max <? raw) || (wire_max <? wire)
    with limit "frame response exceeds its request aggregate budget" in
  let? next := ok_or (checked_add (sequence pr) 1) (invalid "sequence overflow") in
  let? extra := decode_capacity (h_kind h) (h_raw h) (negb (h_flags h =? 0)) in
  let? _ := admit_buffer (admissions pr) (HEADER_LEN + h_wire h) extra in
  Ok (mkProgress (Some (h_stream h)) next (frames pr + 1) raw wire (units pr) (logical pr) (S (admissions pr))).

(** One frame: header, admission, payload, parser. *)
Definition read_frame (r : FrameRequest) (raw_max wire_max : Z) (pr : progress) (c : WireCursor)
    : Run (Frame * bytes * progress * WireCursor) :=
  let? ' (h, c) := header c in
  let? h := ok_or h (Failed (invalid "stream missing terminal END")) in
  let? pr := lift (admit_header r raw_max wire_max pr h) in
  let? ' (wire, c) := fill_to "truncated TreeFrame payload" (HEADER_LEN + h_wire h) h c in
  let? ' (f, used) := lift (map_err (fun e => invalid ("frame: " ++ e)) (parse_frame wire)) in
  reject? negb (used =? zlen wire) with Failed (invalid "frame parser did not consume its fixed wire buffer") in
  Ok (f, wire, pr, c).

(** The checks of the END frame. *)
Definition end_matches (r : FrameRequest) (pr : progress) (e : EndFrame) : bool :=
  (request_item_count e =? item_count r) && (unique_unit_count e =? units pr) && (units pr =? item_count r)
  && (logical_bytes e =? logical pr) && bool_decide (request_body_sha256 e = sha256 (body r)).

Section Sink.
Context {S : Type} (sink : S -> Frame -> Res (S * Z * Z)).

Definition add_units (r : FrameRequest) (pr : progress) (n b : Z) : Res progress :=
  reject? u32_max <? units pr + n with invalid "unit count overflow" in
  let? l := ok_or (checked_add (logical pr) b) (invalid "logical count overflow") in
  reject? (item_count r <? units pr + n) || (logical_max r <? l)
    with invalid "unrequested units or excessive logical bytes" in
  Ok (mkProgress (stream pr) (sequence pr) (frames pr) (raw_total pr) (wire_total pr) (units pr + n) l
        (admissions pr)).

Fixpoint consume_loop (fuel : nat) (r : FrameRequest) (raw_max wire_max : Z) (pr : progress) (s : S)
    (c : WireCursor) : Run S :=
  match fuel with
  | O => Err OutOfFuel
  | Datatypes.S fuel =>
      let? ' (f, _, pr, c) := read_frame r raw_max wire_max pr c in
      match f with
      | FEnd e =>
          reject? negb (end_matches r pr e)
            with Failed (invalid "END unit set, logical bytes or request digest differs") in
          let? ' (more, _) := lift (refill c) in
          reject? more with Failed (invalid "bytes after terminal END") in
          Ok s
      | FError code request_id =>
          Err (Failed (SnapshotError_new (from_server code)
            ("server rejected TreeFrame request: " ++ code ++ " (request_id " ++ request_id ++ ")")))
      | f =>
          let? ' (s, n, b) := lift (sink s f) in
          let? pr := lift (add_units r pr n b) in
          consume_loop fuel r raw_max wire_max pr s c
      end
  end.

(** The frame limit stops the loop at the third frame past the items. *)
Definition loop_fuel (r : FrameRequest) : nat := Z.to_nat (item_count r + 3).

(** [consume_frames]; [send] is the exchange, the final sink state stands for
    the receipt. *)
Definition consume_frames (send : bytes -> Res Response) (r : FrameRequest) (s : S) (k : nat) : Run S :=
  let too_large := Failed (limit "owned request exceeds the discovered batch limit") in
  reject? request_item_limit p <? item_count r with too_large in
  let? cap :=
    lift (if data_kind r =? KIND_OBJECT then Ok (object_byte_limit p)
          else if data_kind r =? KIND_CHUNK then Ok (chunk_byte_limit p)
          else Err (invalid "unsupported owned endpoint")) in
  reject? cap <? logical_max r with too_large in
  let? resp := lift (send (body r)) in
  reject? negb (is_success resp) with Failed (typed_error k resp) in
  let? raw_max := lift (raw_budget r) in
  let? wire_max := lift (wire_budget r raw_max) in
  reject? match declared resp with Some n => wire_max <? n | None => false end
    with Failed (limit "frame response exceeds its request byte budget") in
  consume_loop (loop_fuel r) r raw_max wire_max (mkProgress None 0 0 0 0 0 0 k) s (mkCursor [] 0 (chunks resp)).
End Sink.

(** ** Raw bodies *)

Fixpoint raw_loop (cap : Z) (got : bytes) (chunks : list (Res bytes)) : Res bytes :=
  match chunks with
  | [] => Ok got
  | Err e :: _ => Err e
  | Ok c :: chunks =>
      reject? cap - zlen got <? zlen c with Content.body_exceeds in
      raw_loop cap (got ++ c) chunks
  end.

(** [raw_content] into an output buffer of capacity [cap]. *)
Definition raw_content (cap : Z) (k : nat) (send : Res Response) : Res bytes :=
  let? resp := send in
  reject? negb (is_success resp) with typed_error k resp in
  reject? match declared resp with Some n => negb (n =? cap) | None => false end
    with invalid "raw body Content-Length differs from fixed expected size" in
  let? got := raw_loop cap [] (chunks resp) in
  reject? negb (zlen got =? cap) with invalid "raw body is shorter than fixed expected size" in
  Ok got.
End Transport.

(** ** The body as one stream *)

(** The bytes of a body up to its end or its first network error. *)
Fixpoint flat_rest (l : list (Res bytes)) : bytes * option SnapshotError :=
  match l with
  | [] => ([], None)
  | Err e :: _ => ([], Some e)
  | Ok c :: l => (c ++ (flat_rest l).1, (flat_rest l).2)
  end.

Definition flat (c : WireCursor) : bytes * option SnapshotError :=
  (drop (Z.to_nat (offset c)) (current c) ++ (flat_rest (rest c)).1, (flat_rest (rest c)).2).

Definition cursor_ok (c : WireCursor) : Prop := 0 <= offset c <= zlen (current c).

(** Two cursors before the same remaining stream. *)
Definition same_stream (c d : WireCursor) : Prop := cursor_ok c /\ cursor_ok d /\ flat c = flat d.

(** Results that agree, with cursors before the same stream. *)
Definition same_result {A} (a b : Run (A * WireCursor)) : Prop :=
  match a, b with
  | Ok (x, c), Ok (y, d) => x = y /\ same_stream c d
  | Err e, Err e' => e = e'
  | _, _ => False
  end.

(** What [refill] does is a function of the remaining stream. *)
Definition refilled (f : bytes * option SnapshotError) (r : Res (bool * WireCursor)) : Prop :=
  match f with
  | ([], Some e) => r = Err e
  | ([], None) => exists c, r = Ok (false, c) /\ cursor_ok c /\ flat c = f
  | _ => exists c, r = Ok (true, c) /\ cursor_ok c /\ flat c = f /\ offset c < zlen (current c)
  end.

Lemma refill_loop_spec cur l : refilled (flat_rest l) (refill_loop cur l).
Proof.
  revert cur. induction l as [|[c|e] l IH]; intros cur; simpl; [| |done].
  { eexists. split_and!; [done|unfold cursor_ok; simpl; pose proof (zlen_nonneg cur); lia|].
    unfold flat. simpl. rewrite drop_ge; [done|]. unfold zlen. lia. }
  destruct (Z.eqb_spec 0 (zlen c)) as [Hz|Hz].
  - assert (c = []) as -> by (destruct c; [done|unfold zlen in Hz; simpl in Hz; lia]). simpl.
    specialize (IH []). by destruct (flat_rest l).
  - destruct c as [|b c]; [done|]. simpl. eexists. split_and!; [done|..]; unfold cursor_ok, flat; simpl;
      [unfold zlen; simpl; lia|done|unfold zlen; simpl; lia].
Qed.

Lemma refill_spec c : cursor_ok c -> refilled (flat c) (refill c).
Proof.
  intros Hc. unfold refill. destruct (Z.eqb_spec (offset c) (zlen (current c))) as [E|E].
  - replace (flat c) with (flat_rest (rest c)); [apply refill_loop_spec|]. unfold flat.
    rewrite drop_ge by (unfold zlen in E; lia). by destruct (flat_rest (rest c)).
  - unfold cursor_ok in Hc. unfold refilled. destruct (flat c) as [f e] eqn:Hf. destruct f as [|b f].
    + exfalso. apply E. unfold flat in Hf. injection Hf as Hf _. apply app_eq_nil in Hf as [Hf _].
      apply (f_equal (@length Z)) in Hf. rewrite length_drop in Hf. simpl in Hf. unfold zlen in *. lia.
    + exists c. split_and!; [done|done|done|lia].
Qed.

Definition stopped (msg : string) (f : bytes * option SnapshotError) : SnapshotError := default (invalid msg) f.2.

(** What [fill] does is a function of the remaining stream. *)
Definition filled (msg : string) (need : Z) (got : bytes) (f : bytes * option SnapshotError)
    (r : Run (bytes * WireCursor)) : Prop :=
  if need <=? zlen f.1
  then exists c, r = Ok (got ++ take (Z.to_nat need) f.1, c) /\ cursor_ok c /\
                 flat c = (drop (Z.to_nat need) f.1, f.2)
  else r = Err (Failed (stopped msg f)).

Lemma filled_zero msg need got c :
  cursor_ok c -> need = 0 -> filled msg need got (flat c) (Ok (got, c)).
Proof.
  intros Hc ->. unfold filled. destruct (Z.leb_spec 0 (zlen (flat c).1)); [|pose proof (zlen_nonneg (flat c).1); lia].
  exists c. rewrite app_nil_r. split_and!; [done|done|]. by destruct (flat c).
Qed.

(** Advancing inside the current chunk. *)
Lemma advance_spec c len :
  cursor_ok c -> 0 <= len <= zlen (current c) - offset c ->
  let c' := mkCursor (current c) (offset c + len) (rest c) in
  let piece := slice (current c) (offset c) (offset c + len) in
  cursor_ok c' /\ zlen piece = len /\ flat c = (piece ++ (flat c').1, (flat c').2).
Proof.
  intros Hc Hlen c' piece. unfold cursor_ok in *. split_and!.
  - simpl. lia.
  - simpl. lia.
  - unfold piece. rewrite zlen_slice; lia.
  - unfold flat, c', piece, slice. cbn [current offset rest fst snd]. rewrite app_assoc. f_equal. f_equal.
    replace (Z.to_nat (offset c + len - offset c)) with (Z.to_nat len) by lia.
    replace (Z.to_nat (offset c + len)) with (Z.to_nat (offset c) + Z.to_nat len)%nat by lia.
    rewrite <- drop_drop. by rewrite take_drop.
Qed.

(** Taking a piece first does not change what is filled. *)
Lemma filled_app msg need got piece f e r :
  zlen piece <= need -> filled msg (need - zlen piece) (got ++ piece) (f, e) r ->
  filled msg need got (piece ++ f, e) r.
Proof.
  unfold filled. cbn [fst snd]. intros Hle. rewrite zlen_app.
  destruct (Z.leb_spec (need - zlen piece) (zlen f)); destruct (Z.leb_spec need (zlen piece + zlen f)); try lia; [|done].
  intros (c & -> & Hc & Hf). exists c.
  assert (Z.to_nat need = length piece + Z.to_nat (need - zlen piece))%nat as -> by (unfold zlen in *; lia).
  rewrite take_app_add, drop_app_add, <- app_assoc. done.
Qed.

Lemma fill_spec fuel msg want got c :
  cursor_ok c -> zlen got <= want -> want - zlen got <= Z.of_nat fuel ->
  filled msg (want - zlen got) got (flat c) (fill fuel msg want got c).
Proof.
  revert got c. induction fuel as [|fuel IH]; intros got c Hc Hg Hf; cbn [fill].
  { destruct (Z.leb_spec want (zlen got)); [|lia]. apply filled_zero; [done|lia]. }
  destruct (Z.leb_spec want (zlen got)) as [Hle|Hlt]; [apply filled_zero; [done|lia]|].
  pose proof (refill_spec c Hc) as Hr. unfold refilled in Hr. destruct (flat c) as [[|b f] e].
  { unfold filled. cbn [fst snd]. destruct (Z.leb_spec (want - zlen got) (zlen (@nil Z))); [change (zlen (@nil Z)) with 0 in *; lia|].
    destruct e as [e|]; [by rewrite Hr|]. by destruct Hr as (c' & -> & _). }
  destruct Hr as (c' & -> & Hc' & Hfl & Hoff). cbn [lift map_err rbind negb].
  set (len := Z.min (want - zlen got) (zlen (current c') - offset c')).
  destruct (advance_spec c' len Hc') as (Hc2 & Hpiece & Hflat); [unfold len; lia|].
  rewrite <- Hfl, Hflat. apply filled_app; [unfold len in *; lia|].
  match goal with |- filled _ (_ - zlen ?p) _ _ _ => replace (want - zlen got - zlen p) with (want - zlen (got ++ p))
    by (rewrite zlen_app; lia) end.
  rewrite <- surjective_pairing. apply IH; [done|rewrite zlen_app, Hpiece; unfold len; lia|].
  rewrite zlen_app, Hpiece. unfold len in *. lia.
Qed.

Lemma fill_to_spec msg want got c :
  cursor_ok c -> zlen got <= want -> filled msg (want - zlen got) got (flat c) (fill_to msg want got c).
Proof. intros. unfold fill_to. apply fill_spec; [done|done|lia]. Qed.

Section Theorems.
Context `{HP : FrameParser} `{Sha256} (p : profile).
Context (size_of_object size_of_digest size_of_scratch size_of_frame : Z).
Context (admit_buffer : nat -> Z -> Z -> Res unit).

Abbreviation admit_header := (admit_header p size_of_object size_of_digest size_of_scratch size_of_frame admit_buffer).
Abbreviation read_frame := (read_frame p size_of_object size_of_digest size_of_scratch size_of_frame admit_buffer).

(** *** One header, as a function of the stream *)

Definition stream_header (f : bytes * option SnapshotError) : Run (option bytes) :=
  match f with
  | ([], None) => Ok None
  | ([], Some e) => Err (Failed e)
  | (b, e) => if HEADER_LEN <=? zlen b then Ok (Some (take (Z.to_nat HEADER_LEN) b))
              else Err (Failed (stopped "truncated TreeFrame header" f))
  end.

Lemma header_spec c :
  cursor_ok c ->
  match stream_header (flat c) with
  | Err e => header c = Err e
  | Ok None => exists c', header c = Ok (None, c') /\ cursor_ok c' /\ flat c' = flat c
  | Ok (Some h) => exists c', header c = Ok (Some h, c') /\ cursor_ok c' /\
                     flat c' = (drop (Z.to_nat HEADER_LEN) (flat c).1, (flat c).2)
  end.
Proof using HP.
  intros Hc. unfold header. pose proof (refill_spec c Hc) as Hr. pose proof HEADER_LEN_sequence as Hh.
  unfold refilled in Hr. destruct (flat c) as [[|b f] e].
  { destruct e; simpl; [by rewrite Hr|]. destruct Hr as (c' & -> & ? & ?). by exists c'. }
  destruct Hr as (c' & -> & Hc' & Hf & _). cbn [lift map_err rbind negb].
  pose proof (fill_to_spec "truncated TreeFrame header" HEADER_LEN [] c' Hc') as Hfill.
  change (zlen (@nil Z)) with 0 in Hfill. rewrite Z.sub_0_r, Hf in Hfill. specialize (Hfill ltac:(lia)).
  unfold filled in Hfill. cbn [fst snd] in *. unfold stream_header.
  destruct (Z.leb_spec HEADER_LEN (zlen (b :: f))); [|by rewrite Hfill].
  destruct Hfill as (c2 & -> & ? & ?). by exists c2.
Qed.

(** *** One frame, as a function of the stream *)

Definition stream_frame (r : FrameRequest) (raw_max wire_max : Z) (pr : progress) (f : bytes * option SnapshotError)
    : Run (Frame * bytes * progress) :=
  let? h := stream_header f in
  let? h := ok_or h (Failed (invalid "stream missing terminal END")) in
  let? pr := lift (admit_header r raw_max wire_max pr h) in
  let n := Z.max HEADER_LEN (HEADER_LEN + h_wire h) in
  reject? zlen f.1 <? n with Failed (stopped "truncated TreeFrame payload" f) in
  let wire := take (Z.to_nat n) f.1 in
  let? ' (fr, used) := lift (map_err (fun e => invalid ("frame: " ++ e)) (parse_frame wire)) in
  reject? negb (used =? zlen wire) with Failed (invalid "frame parser did not consume its fixed wire buffer") in
  Ok (fr, wire, pr).

Lemma stream_header_some f h :
  stream_header f = Ok (Some h) -> h = take (Z.to_nat HEADER_LEN) f.1 /\ HEADER_LEN <= zlen f.1.
Proof using Type.
  unfold stream_header. destruct f as [[|b f] [e|]]; try done; cbn [fst];
    destruct (Z.leb_spec HEADER_LEN (zlen (b :: f))); intros; simplify_eq; done.
Qed.

Lemma read_frame_spec r raw_max wire_max pr c :
  cursor_ok c ->
  match stream_frame r raw_max wire_max pr (flat c) with
  | Err e => read_frame r raw_max wire_max pr c = Err e
  | Ok (f, wire, pr') => exists c', read_frame r raw_max wire_max pr c = Ok (f, wire, pr', c') /\ cursor_ok c' /\
                           flat c' = (drop (length wire) (flat c).1, (flat c).2)
  end.
Proof using Type.
  intros Hc. unfold stream_frame, Owned.read_frame. pose proof (header_spec c Hc) as Hh.
  destruct (stream_header (flat c)) as [[h|]|e] eqn:Hsh; cbn [rbind ok_or] in *; [| |by rewrite Hh].
  2:{ by destruct Hh as (c' & -> & _). }
  apply stream_header_some in Hsh as [Eh Hlen]. destruct Hh as (c1 & -> & Hc1 & Hf1). cbn [rbind ok_or].
  destruct (admit_header r raw_max wire_max pr h) as [pr'|e]; cbn [lift map_err rbind]; [|done].
  pose proof HEADER_LEN_sequence as Hpos.
  assert (Hh : zlen h = HEADER_LEN) by (subst h; unfold zlen in *; rewrite length_take; lia).
  set (want := HEADER_LEN + h_wire h) in *.
  assert (Hfill : filled "truncated TreeFrame payload" (Z.max HEADER_LEN want - zlen h) h (flat c1)
            (fill_to "truncated TreeFrame payload" want h c1)).
  { destruct (Z.le_gt_cases HEADER_LEN want).
    - rewrite Z.max_r by lia. apply fill_to_spec; [done|lia].
    - rewrite Z.max_l by lia. unfold fill_to. replace (Z.to_nat (want - zlen h)) with 0%nat by lia. cbn [fill].
      destruct (Z.leb_spec want (zlen h)); [|lia]. apply filled_zero; [done|lia]. }
  set (n := Z.max HEADER_LEN want) in *. unfold filled in Hfill. rewrite Hf1 in Hfill. cbn [fst snd] in Hfill.
  replace (n - zlen h <=? zlen (drop (Z.to_nat HEADER_LEN) (flat c).1)) with (negb (zlen (flat c).1 <? n)) in Hfill.
  2:{ assert (zlen (drop (Z.to_nat HEADER_LEN) (flat c).1) = zlen (flat c).1 - HEADER_LEN) as ->.
      { unfold zlen in *. rewrite length_drop. lia. }
      destruct (Z.ltb_spec (zlen (flat c).1) n); destruct (Z.leb_spec (n - zlen h) (zlen (flat c).1 - HEADER_LEN)); simpl; lia. }
  destruct (Z.ltb_spec (zlen (flat c).1) n) as [Hlt|Hge]; cbn [negb] in Hfill; [by rewrite Hfill|].
  destruct Hfill as (c2 & -> & Hc2 & Hf2). cbn [rbind].
  assert (Hwire : h ++ take (Z.to_nat (n - zlen h)) (drop (Z.to_nat HEADER_LEN) (flat c).1) = take (Z.to_nat n) (flat c).1).
  { rewrite Eh, Hh at 1. replace (Z.to_nat n) with (Z.to_nat HEADER_LEN + Z.to_nat (n - HEADER_LEN))%nat by lia.
    by rewrite take_take_drop. }
  rewrite Hwire. destruct (parse_frame (take (Z.to_nat n) (flat c).1)) as [[f used]|e]; cbn [lift map_err rbind]; [|done].
  destruct (negb (used =? zlen (take (Z.to_nat n) (flat c).1))); [done|]. exists c2. split_and!; [done|done|].
  rewrite Hf2, drop_drop. do 2 f_equal. rewrite length_take. unfold zlen in *. lia.
Qed.

(** *** The loop, as a function of the stream *)

Section Loop.
Context {S : Type} (sink : S -> Frame -> Res (S * Z * Z)).
Abbreviation consume_loop :=
  (consume_loop p size_of_object size_of_digest size_of_scratch size_of_frame admit_buffer sink).
Abbreviation consume_frames :=
  (consume_frames p size_of_object size_of_digest size_of_scratch size_of_frame admit_buffer sink).

Lemma consume_loop_same fuel r raw_max wire_max pr s c d :
  same_stream c d ->
  consume_loop fuel r raw_max wire_max pr s c = consume_loop fuel r raw_max wire_max pr s d.
Proof using HP.
  revert pr s c d. induction fuel as [|fuel IH]; intros pr s c d (Hc & Hd & E); [done|].
  cbn [Owned.consume_loop].
  pose proof (read_frame_spec r raw_max wire_max pr c Hc) as Rc.
  pose proof (read_frame_spec r raw_max wire_max pr d Hd) as Rd.
  rewrite <- E in Rd. destruct (stream_frame r raw_max wire_max pr (flat c)) as [[[f wire] pr']|e]; [|by rewrite Rc, Rd].
  destruct Rc as (c' & -> & Hc' & Ec), Rd as (d' & -> & Hd' & Ed). cbn [rbind].
  assert (Hsame : same_stream c' d') by (split_and!; [done|done|by rewrite Ec, Ed]).
  destruct f as [pages|objects|m fid i b|e|code id]; [| | | |done].
  all: try (destruct (sink s _) as [[[s' n] b']|]; cbn [lift map_err rbind]; [|done];
            destruct (add_units r pr' n b'); cbn [lift map_err rbind]; [by apply IH|done]).
  destruct (negb (end_matches r pr' e)); [done|].
  pose proof (refill_spec c' Hc') as Fc. pose proof (refill_spec d' Hd') as Fd. rewrite <- (proj2 (proj2 Hsame)) in Fd.
  unfold refilled in Fc, Fd. destruct (flat c') as [[|x f] [e'|]].
  - by rewrite Fc, Fd.
  - by destruct Fc as (? & -> & _), Fd as (? & -> & _).
  - by destruct Fc as (? & -> & _), Fd as (? & -> & _).
  - by destruct Fc as (? & -> & _), Fd as (? & -> & _).
Qed.

(** A data frame goes to the sink; the terminal ones do not. *)
Definition is_data (f : Frame) : Prop :=
  match f with FEnd _ | FError _ _ => False | _ => True end.

(** The sink over a list of frames, with its counts. *)
Definition deliver (st : S * Z * Z) (f : Frame) : Res (S * Z * Z) :=
  let '(s, u, l) := st in
  let? ' (s, n, b) := sink s f in Ok (s, u + n, l + b).

Definition wire_of (w : bytes) (f : Frame) : Prop := parse_frame w = Ok (f, zlen w).

Lemma from_le_nonneg b : Forall is_byte b -> 0 <= from_le b.
Proof using Type. induction 1 as [|x b Hx _ IH]; unfold is_byte in *; simpl; lia. Qed.

Lemma stream_frame_ok r raw_max wire_max pr f fr wire pr' :
  Forall is_byte f.1 -> stream_frame r raw_max wire_max pr f = Ok (fr, wire, pr') ->
  wire_of wire fr /\ f.1 = wire ++ drop (length wire) f.1 /\
  wire_total pr' = wire_total pr + zlen wire /\ wire_total pr' <= wire_max /\
  units pr' = units pr /\ logical pr' = logical pr /\ frames pr' = frames pr + 1 /\ frames pr' <= item_count r + 2.
Proof using HP.
  intros Hb Hf. unfold stream_frame in Hf. apply rbind_ok in Hf as (o & Hh & Hf).
  apply rbind_ok in Hf as (h & Hs & Hf). apply ok_or_ok in Hs. subst o.
  apply stream_header_some in Hh as [Eh Hlen].
  apply rbind_ok in Hf as (pr1 & Hadm & Hf). unfold lift in Hadm. apply map_err_ok in Hadm. cbv zeta in Hf.
  apply reject_ok in Hf as [Hn Hf]. apply Z.ltb_ge in Hn.
  apply rbind_ok in Hf as ([fr1 used] & Hp & Hf). unfold lift in Hp. rewrite !map_err_ok in Hp.
  apply reject_ok in Hf as [Hu Hf]. apply negb_false_iff, Z.eqb_eq in Hu. simplify_eq.
  set (hd := take (Z.to_nat HEADER_LEN) f.1) in *. set (n := Z.max HEADER_LEN (HEADER_LEN + h_wire hd)) in *.
  assert (Hw : 0 <= h_wire hd).
  { unfold h_wire, slice. by apply from_le_nonneg, Forall_take, Forall_drop, Forall_take. }
  pose proof HEADER_LEN_sequence as Hpos.
  assert (Hzl : zlen (take (Z.to_nat n) f.1) = HEADER_LEN + h_wire hd).
  { unfold zlen in *. rewrite length_take. unfold n in *. lia. }
  split_and!; [done| |..].
  { rewrite length_take, Nat.min_l by (unfold zlen in *; lia). by rewrite take_drop. }
  all: unfold Owned.admit_header in Hadm; inv_ok; bools; split_all;
    repeat match goal with Hx : checked_add _ _ = Some _ |- _ => apply checked_add_some in Hx as [-> _] end;
    subst pr'; simpl; rewrite ?Hzl; lia.
Qed.

(** The stream is data frames, each given to the sink in order, then an END
    frame that accounts for all of them, then the end of the body. *)
Definition consumed (r : FrameRequest) (wire_max : Z) (pr : progress) (s s' : S) (f : bytes * option SnapshotError)
    : Prop :=
  exists ws fs w e l, f = (concat ws ++ w, None) /\
    Forall2 wire_of ws fs /\ Forall is_data fs /\ wire_of w (FEnd e) /\
    for_each deliver (s, units pr, logical pr) fs = Ok (s', item_count r, l) /\
    request_item_count e = item_count r /\ unique_unit_count e = item_count r /\
    logical_bytes e = l /\ request_body_sha256 e = sha256 (body r) /\
    (logical pr <= logical_max r -> l <= logical_max r) /\
    wire_total pr + zlen (concat ws ++ w) <= wire_max.

Lemma consumed_data r wire_max pr pr' pr1 s s1 s' n b wire f rest e :
  wire_of wire f -> is_data f -> sink s f = Ok (s1, n, b) -> add_units r pr' n b = Ok pr1 ->
  units pr' = units pr -> logical pr' = logical pr -> wire_total pr' = wire_total pr + zlen wire ->
  consumed r wire_max pr1 s1 s' (rest, e) -> consumed r wire_max pr s s' (wire ++ rest, e).
Proof using Type.
  intros Hw Hd Hs Ha Hu Hl Hwt (ws & fs & w & en & l & [= -> ->] & Hws & Hdata & Hend & Hdel & ? & ? & ? & ? & Hlm & Htot).
  unfold add_units in Ha. inv_ok. bools. split_all.
  match goal with Hx : checked_add _ _ = Some _ |- _ => apply checked_add_some in Hx as [-> _] end. subst pr1.
  cbn [units logical wire_total] in *.
  exists (wire :: ws), (f :: fs), w, en, l. simpl concat. rewrite <- app_assoc. split_and!; try done; try (by constructor).
  - cbn [for_each]. unfold deliver at 1. rewrite Hs. cbn [rbind]. by rewrite <- Hu, <- Hl.
  - intros _. apply Hlm. lia.
  - rewrite zlen_app. lia.
Qed.

Lemma consume_loop_ok fuel r raw_max wire_max pr s c s' :
  cursor_ok c -> Forall is_byte (flat c).1 ->
  consume_loop fuel r raw_max wire_max pr s c = Ok s' -> consumed r wire_max pr s s' (flat c).
Proof using HP.
  revert pr s c. induction fuel as [|fuel IH]; intros pr s c Hc Hb Hf; [done|]. cbn [Owned.consume_loop] in Hf.
  pose proof (read_frame_spec r raw_max wire_max pr c Hc) as Rc.
  destruct (stream_frame r raw_max wire_max pr (flat c)) as [[[f wire] pr']|e] eqn:Hsf; [|by rewrite Rc in Hf].
  apply stream_frame_ok in Hsf as (Hwire & Hsplit & Hwt & Hmax & Hu & Hl & _); [|done].
  destruct Rc as (c' & Rc & Hc' & Ec). rewrite Rc in Hf. cbn [rbind] in Hf. clear Rc.
  assert (Hb' : Forall is_byte (flat c').1) by (rewrite Ec; by apply Forall_drop).
  assert (Hflat : flat c = (wire ++ (flat c').1, (flat c').2)).
  { rewrite Ec. cbn [fst snd]. rewrite <- Hsplit. by destruct (flat c). }
  assert (Hdata : is_data f -> (let? ' (s, n, b) := lift (sink s f) in let? pr := lift (add_units r pr' n b) in
             consume_loop fuel r raw_max wire_max pr s c') = Ok s' -> consumed r wire_max pr s s' (flat c)).
  { intros Hd Hrun. apply rbind_ok in Hrun as ([[s1 n] b] & Hsink & Hrun). apply rbind_ok in Hrun as (pr1 & Hadd & Hrun).
    unfold lift in Hsink, Hadd. apply map_err_ok in Hsink, Hadd. rewrite Hflat.
    eapply consumed_data; try done. rewrite <- surjective_pairing. by apply IH. }
  destruct f as [pages|objects|m fid i b|e|code id]; [by apply Hdata..| |done].
  apply reject_ok in Hf as [He Hf]. apply negb_false_iff in He. unfold end_matches in He. bools. split_all.
  match goal with Hx : bool_decide _ = true |- _ => apply bool_decide_eq_true in Hx end.
  apply rbind_ok in Hf as ([more c2] & Hr & Hf). unfold lift in Hr. apply map_err_ok in Hr.
  apply reject_ok in Hf as [-> Hf]. simplify_eq.
  pose proof (refill_spec c' Hc') as Fc. rewrite Hr in Fc. unfold refilled in Fc.
  destruct (flat c') as [[|x g] [e'|]]; [done| |by destruct Fc as (? & [=] & _)..].
  exists [], [], wire, e, (logical pr). rewrite Hflat. cbn [fst snd concat]. rewrite app_nil_r.
  cbn [for_each app]. split_and!; try done; try congruence; try lia.
Qed.

Lemma header_clean c : cursor_ok c -> clean (header c).
Proof using HP.
  intros Hc. pose proof (header_spec c Hc) as Hs.
  assert (clean (stream_header (flat c))) as Hcl.
  { unfold stream_header. destruct (flat c) as [[|b f] [e|]]; try done; by destruct (HEADER_LEN <=? zlen (b :: f)). }
  destruct (stream_header (flat c)) as [[h|]|e]; [| |by rewrite Hs].
  - by destruct Hs as (? & -> & _).
  - by destruct Hs as (? & -> & _).
Qed.

Lemma stream_frame_clean r raw_max wire_max pr f : clean (stream_frame r raw_max wire_max pr f).
Proof using Type.
  unfold stream_frame. apply clean_bind.
  { unfold stream_header. destruct f as [[|b f] [e|]]; try done; by destruct (HEADER_LEN <=? zlen (b :: f)). }
  intros h _. apply clean_bind; [auto with rust|]. intros h' _. apply clean_bind; [auto with rust|]. intros pr' _. cbv zeta.
  apply clean_reject. intros _. apply clean_bind; [auto with rust|]. intros [fr used] _. by apply clean_reject.
Qed.

Lemma consume_loop_clean fuel r raw_max wire_max pr s c :
  cursor_ok c -> Forall is_byte (flat c).1 -> item_count r + 2 < Z.of_nat fuel + frames pr ->
  frames pr <= item_count r + 2 ->
  clean (consume_loop fuel r raw_max wire_max pr s c).
Proof using HP.
  revert pr s c. induction fuel as [|fuel IH]; intros pr s c Hc Hb Hf Hle; [lia|]. cbn [Owned.consume_loop].
  pose proof (read_frame_spec r raw_max wire_max pr c Hc) as Rc.
  pose proof (stream_frame_clean r raw_max wire_max pr (flat c)) as Hcl.
  destruct (stream_frame r raw_max wire_max pr (flat c)) as [[[f wire] pr']|e] eqn:Hsf; [|by rewrite Rc].
  apply stream_frame_ok in Hsf as (_ & _ & _ & _ & _ & _ & Hfr & Hmax); [|done].
  destruct Rc as (c' & -> & Hc' & Ec). cbn [rbind].
  assert (Hb' : Forall is_byte (flat c').1) by (rewrite Ec; by apply Forall_drop).
  assert (Hdata : clean (let? ' (s, n, b) := lift (sink s f) in let? pr := lift (add_units r pr' n b) in
             consume_loop fuel r raw_max wire_max pr s c')).
  { apply clean_bind; [auto with rust|]. intros [[s1 n] b] _. apply clean_bind; [auto with rust|]. intros pr1 Ha.
    unfold lift, add_units in Ha. inv_ok. subst pr1. apply IH; simpl; [done|done|lia|lia]. }
  destruct f as [pages|objects|m fid i b|e|code id]; try done.
  apply clean_reject. intros _. apply clean_bind; [auto with rust|]. intros [more c2] _. by apply clean_reject.
Qed.

Lemma start_stream l : cursor_ok (mkCursor [] 0 l) /\ flat (mkCursor [] 0 l) = flat_rest l.
Proof using Type. split; [by split|]. unfold flat. simpl. by destruct (flat_rest l). Qed.

(** The inputs of a server are bytes. *)
Definition sends_bytes (send : bytes -> Res Response) : Prop :=
  forall b resp, send b = Ok resp -> Forall is_byte (flat_rest (chunks resp)).1.

(** The response of an exchange that succeeds is consumed whole. *)
Lemma consume_frames_run send r s k s' :
  sends_bytes send -> consume_frames send r s k = Ok s' ->
  exists resp, send (body r) = Ok resp /\ is_success resp = true /\
    consumed r (2 * (item_count r * unit_overhead r + logical_max r + ERROR_MAX_BYTES) + (item_count r + 1) * HEADER_LEN)
      (mkProgress None 0 0 0 0 0 0 k) s s' (flat_rest (chunks resp)).
Proof using HP.
  intros Hbytes Hc. unfold Owned.consume_frames in Hc. cbv zeta in Hc.
  apply reject_ok in Hc as [_ Hc]. apply rbind_ok in Hc as (cap & _ & Hc). apply reject_ok in Hc as [_ Hc].
  apply rbind_ok in Hc as (resp & Hs & Hc). unfold lift in Hs. apply map_err_ok in Hs.
  apply reject_ok in Hc as [Hok Hc]. apply negb_false_iff in Hok.
  apply rbind_ok in Hc as (rm & Hrm & Hc). apply rbind_ok in Hc as (wm & Hwm & Hc). apply reject_ok in Hc as [_ Hc].
  unfold lift, raw_budget, wire_budget in Hrm, Hwm. rewrite map_err_ok, ok_or_ok in Hrm, Hwm.
  apply bind_Some in Hrm as (n1 & [-> _]%checked_mul_some & Hrm). apply bind_Some in Hrm as (n2 & [-> _]%checked_add_some & [-> _]%checked_add_some).
  apply bind_Some in Hwm as (n3 & [-> _]%checked_mul_some & [-> _]%checked_add_some).
  destruct (start_stream (chunks resp)) as [Hcur Hflat]. exists resp. split_and!; [done|done|].
  apply consume_loop_ok in Hc; [|done|rewrite Hflat; by eapply Hbytes]. rewrite Hflat in Hc.
  destruct Hc as (ws & fs & w & e & l & Hc). exists ws, fs, w, e, l. cbn [wire_total] in *. split_and!; try apply Hc. lia.
Qed.

(** C18: an owned exchange succeeds only on a complete, exact response. The body is
    whole frames and nothing else: data frames, each parsed from exactly its
    bytes and given to the sink once and in order, then an END frame that names
    the requested item count, the units and logical bytes the sink reported
    and the hash of the request, then the end of the body; the units are
    exactly the items, and logical and wire bytes stay within the budget
    computed from the request. *)
Theorem consume_frames_exact send r s k s' :
  sends_bytes send -> consume_frames send r s k = Ok s' ->
  exists resp ws fs w e l, send (body r) = Ok resp /\ is_success resp = true /\
    flat_rest (chunks resp) = (concat ws ++ w, None) /\
    Forall2 wire_of ws fs /\ Forall is_data fs /\ wire_of w (FEnd e) /\
    for_each deliver (s, 0, 0) fs = Ok (s', item_count r, l) /\
    request_item_count e = item_count r /\ unique_unit_count e = item_count r /\ logical_bytes e = l /\
    request_body_sha256 e = sha256 (body r) /\
    (0 <= logical_max r -> l <= logical_max r) /\
    zlen (concat ws ++ w) <=
      2 * (item_count r * unit_overhead r + logical_max r + ERROR_MAX_BYTES) + (item_count r + 1) * HEADER_LEN.
Proof using HP.
  intros Hbytes Hc. apply consume_frames_run in Hc as (resp & Hs & Hok & ws & fs & w & e & l & Hc); [|done].
  exists resp, ws, fs, w, e, l. cbn [units logical wire_total] in *. split_and!; try apply Hc; done.
Qed.

Lemma error_body_same cap got l f :
  zlen got <= cap ->
  error_body cap got l f =
  if cap <? zlen got + zlen (flat_rest l).1 then limit "JSON error response exceeds the protocol byte budget"
  else default (f (got ++ (flat_rest l).1)) (flat_rest l).2.
Proof using Type.
  revert got. induction l as [|[c|e] l IH]; intros got Hg; cbn [error_body flat_rest fst snd default].
  - change (zlen (@nil Z)) with 0. rewrite app_nil_r. by destruct (Z.ltb_spec cap (zlen got + 0)); [lia|].
  - rewrite zlen_app. pose proof (zlen_nonneg (flat_rest l).1). destruct (Z.ltb_spec (cap - zlen got) (zlen c)).
    + by destruct (Z.ltb_spec cap (zlen got + (zlen c + zlen (flat_rest l).1))); [|lia].
    + rewrite IH by (rewrite zlen_app; lia). by rewrite zlen_app, Z.add_assoc, app_assoc.
  - change (zlen (@nil Z)) with 0. by destruct (Z.ltb_spec cap (zlen got + 0)); [lia|].
Qed.

Lemma typed_error_same k x y :
  0 <= response_byte_limit p -> declared x = declared y -> flat_rest (chunks x) = flat_rest (chunks y) ->
  (forall b, envelope x b = envelope y b) -> typed_error p admit_buffer k x = typed_error p admit_buffer k y.
Proof using Type.
  intros Hp E1 E2 E3. unfold typed_error. rewrite E1.
  match goal with |- (if ?b then _ else _) = _ => destruct b; [done|] end.
  destruct (admit_buffer k _ 0); [|done].
  rewrite !error_body_same by (change (zlen (@nil Z)) with 0; unfold MAX_JSON_RESPONSE_BYTES; lia).
  by rewrite E2, E3.
Qed.

(** How the network cuts a response is irrelevant. Two exchanges that deliver
    the same bytes, and end the same way, give the same result: the same sink
    state or the same error. *)
Lemma network_cuts_irrelevant send send' r s k :
  0 <= response_byte_limit p ->
  (forall b, match send b, send' b with
             | Ok x, Ok y => is_success x = is_success y /\ declared x = declared y /\
                             flat_rest (chunks x) = flat_rest (chunks y) /\
                             forall b, envelope x b = envelope y b
             | Err e, Err e' => e = e'
             | _, _ => False
             end) ->
  consume_frames send r s k = consume_frames send' r s k.
Proof using HP.
  intros Hp Hs. unfold Owned.consume_frames. specialize (Hs (body r)).
  destruct (send (body r)) as [x|e], (send' (body r)) as [y|e']; try done; [|by subst e'].
  destruct Hs as (E1 & E2 & E3 & E4). cbn [lift map_err rbind].
  rewrite (typed_error_same k x y), E1, E2 by done.
  destruct (start_stream (chunks x)) as [Hx Hfx], (start_stream (chunks y)) as [Hy Hfy].
  destruct (request_item_limit p <? item_count r); [done|].
  match goal with |- rbind ?a _ = _ => destruct a; cbn [rbind]; [|done] end.
  match goal with |- (if ?b then _ else _) = _ => destruct b; [done|] end.
  destruct (negb (is_success y)); [done|].
  destruct (raw_budget r) as [rm|]; cbn [lift map_err rbind]; [|done].
  destruct (wire_budget r rm) as [wm|]; cbn [lift map_err rbind]; [|done].
  match goal with |- (if ?b then _ else _) = _ => destruct b; [done|] end.
  apply consume_loop_same. split_and!; [done|done|congruence].
Qed.

(** The exchange ends in a receipt or a client error: the copying loops advance
    and the frame limit ends the frame loop. *)
Lemma consume_frames_clean send r s k :
  sends_bytes send -> 0 <= item_count r -> clean (consume_frames send r s k).
Proof using HP.
  intros Hbytes Hn. unfold Owned.consume_frames. cbv zeta. apply clean_reject. intros _.
  apply clean_bind; [auto with rust|]. intros cap _. apply clean_reject. intros _.
  apply clean_bind; [auto with rust|]. intros resp Hs. unfold lift in Hs. apply map_err_ok in Hs.
  apply clean_reject. intros _. apply clean_bind; [auto with rust|]. intros rm _.
  apply clean_bind; [auto with rust|]. intros wm _. apply clean_reject. intros _.
  destruct (start_stream (chunks resp)) as [Hcur Hflat].
  apply consume_loop_clean; [done|rewrite Hflat; by eapply Hbytes|unfold loop_fuel; simpl; lia|simpl; lia].
Qed.
End Loop.

Lemma raw_loop_ok cap got l out :
  raw_loop cap got l = Ok out -> out = got ++ (flat_rest l).1 /\ (flat_rest l).2 = None.
Proof using Type.
  revert got. induction l as [|[c|e] l IH]; intros got Hr; cbn [raw_loop] in Hr; [| |done].
  { simplify_eq. by rewrite app_nil_r. }
  apply reject_ok in Hr as [_ Hr]. apply IH in Hr as [-> Hn]. cbn [flat_rest fst snd]. by rewrite app_assoc.
Qed.

(** A raw body is accepted only when it is complete and has the fixed size. *)
Lemma raw_content_ok cap k send out :
  raw_content p admit_buffer cap k send = Ok out ->
  exists resp, send = Ok resp /\ is_success resp = true /\ flat_rest (chunks resp) = (out, None) /\ zlen out = cap.
Proof using Type.
  unfold raw_content. intros Hr. inv_ok. bools. subst. exists x.
  match goal with Hx : raw_loop _ _ _ = Ok _ |- _ => apply raw_loop_ok in Hx as [-> Hn] end.
  split_and!; try done. simpl. rewrite <- Hn. by destruct (flat_rest (chunks x)).
Qed.
End Theorems.
End Owned.
