(* ===== verification/Lru.v ===== *)
(** * Lru

    The fixed-size tables of [src/snapshot/owned_range.rs]: [ChunkCache] and
    [LeafCache] are the same code over two entry types. Entries sit in an
    inline array of options, oldest first; a hit moves its entry to the end, an
    insertion replaces the entry of the same index and evicts the oldest when
    the table is full. [None] is a panic: an [unwrap] on an empty slot or an
    index outside the array. The refinement to a list of entries shows there is
    none. *)

From S2P Require Import Prelude.
Local Open Scope Z_scope.

Module Lru.
Section Table.
Context {A : Type} (key : A -> Z) (capacity : nat).

Record table : Type := mkTable { slots : list (option A); len : nat }.

Definition new : table := mkTable (replicate capacity None) 0.

(** [self.entries[slot].take()], [self.entries[slot] = entry] and
    [self.entries[..len]]; each panics outside the array. *)
Definition take_slot (sl : list (option A)) (slot : nat) : option (option A * list (option A)) :=
  entry ← sl !! slot; Some (entry, <[slot := None]> sl).

Definition set_slot (sl : list (option A)) (slot : nat) (entry : option A) : option (list (option A)) :=
  if decide (slot < length sl)%nat then Some (<[slot := entry]> sl) else None.

Definition prefix (sl : list (option A)) (n : nat) : option (list (option A)) :=
  if decide (n <= length sl)%nat then Some (take n sl) else None.

(** [self.entries[slot] = self.entries[slot + 1].take()]. *)
Definition shift (sl : list (option A)) (slot : nat) : option (list (option A)) :=
  '(entry, sl) ← take_slot sl (S slot); set_slot sl slot entry.

Fixpoint shifts (slots : list nat) (sl : list (option A)) : option (list (option A)) :=
  match slots with
  | [] => Some sl
  | slot :: slots => sl ← shift sl slot; shifts slots sl
  end.

(** [self.len - 1], the end of the loop, underflows on an empty table. *)
Definition remove (index : nat) (t : table) : option (A * table) :=
  '(taken, sl) ← take_slot (slots t) index;
  owner ← taken;
  last ← match len t with O => None | S last => Some last end;
  sl ← shifts (seq index (last - index)) sl;
  Some (owner, mkTable sl last).

(** [entries[..len].iter().position(|entry| entry.as_ref().unwrap().index == index)]. *)
Fixpoint position (index : Z) (l : list (option A)) : option (option nat) :=
  match l with
  | [] => Some None
  | None :: _ => None
  | Some a :: l => if key a =? index then Some (Some 0%nat) else option_map (option_map S) (position index l)
  end.

(** [self.entries[self.len] = Some(owner); self.len += 1]. *)
Definition push (a : A) (t : table) : option table :=
  sl ← set_slot (slots t) (len t) (Some a);
  Some (mkTable sl (S (len t))).

Definition get (index : Z) (t : table) : option (option A * table) :=
  live ← prefix (slots t) (len t);
  slot ← position index live;
  match slot with
  | None => Some (None, t)
  | Some slot => '(owner, t) ← remove slot t; t ← push owner t; Some (Some owner, t)
  end.

Definition insert (a : A) (t : table) : option table :=
  live ← prefix (slots t) (len t);
  slot ← position (key a) live;
  t ← match slot with None => Some t | Some slot => snd <$> remove slot t end;
  t ← if (len t =? capacity)%nat then snd <$> remove 0 t else Some t;
  push a t.

Definition clear (t : table) : table := mkTable (replicate (length (slots t)) None) 0.

(** ** The table as a list, oldest first *)

Definition rep (t : table) (l : list A) : Prop :=
  slots t = (Some <$> l) ++ replicate (capacity - length l) None /\ len t = length l /\ (length l <= capacity)%nat.

(** The entry of an index, and the list without it. *)
Fixpoint take_out (index : Z) (l : list A) : option (A * list A) :=
  match l with
  | [] => None
  | a :: l => if key a =? index then Some (a, l) else '(b, l) ← take_out index l; Some (b, a :: l)
  end.

Definition touch (index : Z) (l : list A) : option A * list A :=
  match take_out index l with
  | None => (None, l)
  | Some (a, l) => (Some a, l ++ [a])
  end.

Definition without (index : Z) (l : list A) : list A :=
  match take_out index l with None => l | Some (_, l) => l end.

Definition evict (l : list A) : list A := if (length l =? capacity)%nat then tail l else l.

Definition replace (a : A) (l : list A) : list A := evict (without (key a) l) ++ [a].

Lemma take_slot_at pre e tl : take_slot (pre ++ e :: tl) (length pre) = Some (e, pre ++ None :: tl).
Proof. unfold take_slot. rewrite list_lookup_middle by done. simpl. by rewrite insert_app_r_alt, Nat.sub_diag by lia. Qed.

Lemma set_slot_at pre e e' tl : set_slot (pre ++ e :: tl) (length pre) e' = Some (pre ++ e' :: tl).
Proof.
  unfold set_slot. rewrite decide_True by (rewrite length_app; simpl; lia).
  by rewrite insert_app_r_alt, Nat.sub_diag by lia.
Qed.

Lemma shift_at pre e x tl : shift (pre ++ e :: x :: tl) (length pre) = Some (pre ++ x :: None :: tl).
Proof.
  unfold shift. pose proof (take_slot_at (pre ++ [e]) x tl) as Ht. rewrite <- app_assoc, length_app, Nat.add_1_r in Ht.
  simpl in Ht. rewrite Ht. simpl. rewrite <- app_assoc. apply set_slot_at.
Qed.

Lemma shift_loop pre rest tl :
  shifts (seq (length pre) (length rest)) (pre ++ None :: (Some <$> rest) ++ tl) =
  Some (pre ++ (Some <$> rest) ++ None :: tl).
Proof.
  revert pre. induction rest as [|x rest IH]; intros pre; [done|]. rewrite fmap_cons. cbn [length seq shifts app].
  rewrite shift_at. simpl. specialize (IH (pre ++ [Some x])). rewrite length_app, Nat.add_1_r, <- app_assoc in IH.
  simpl in IH. rewrite IH. by rewrite <- app_assoc.
Qed.

Lemma remove_rep t pre a rest :
  rep t (pre ++ a :: rest) -> exists t', remove (length pre) t = Some (a, t') /\ rep t' (pre ++ rest).
Proof.
  intros (Hs & Hl & Hc). rewrite length_app in Hl, Hc. simpl in Hl, Hc. unfold remove.
  assert (slots t = (Some <$> pre) ++ Some a :: (Some <$> rest) ++ replicate (capacity - length (pre ++ a :: rest)) None) as Hs'.
  { rewrite Hs, fmap_app. simpl. by rewrite <- app_assoc. }
  pose proof (take_slot_at (Some <$> pre) (Some a) ((Some <$> rest) ++ replicate (capacity - length (pre ++ a :: rest)) None)) as Htk.
  pose proof (shift_loop (Some <$> pre) rest (replicate (capacity - length (pre ++ a :: rest)) None)) as Hsh.
  rewrite length_fmap in Htk, Hsh. rewrite Hs', Htk, Hl. simpl. rewrite Nat.add_succ_r. simpl.
  replace (length pre + length rest - length pre)%nat with (length rest) by lia. rewrite Hsh. simpl.
  eexists. split; [done|]. unfold rep. simpl. rewrite !length_app. simpl. split_and!; [|lia|lia].
  rewrite fmap_app, <- app_assoc. do 2 f_equal.
  replace (capacity - (length pre + length rest))%nat with (S (capacity - (length pre + S (length rest)))) by lia. done.
Qed.

(** The first entry of an index splits the list. *)
Lemma position_spec index l :
  match take_out index l with
  | None => position index (Some <$> l) = Some None /\ Forall (fun a => key a <> index) l
  | Some (a, l') => exists pre rest, l = pre ++ a :: rest /\ l' = pre ++ rest /\ key a = index /\
                      position index (Some <$> l) = Some (Some (length pre))
  end.
Proof.
  induction l as [|a l IH]; [done|]. rewrite fmap_cons. cbn [take_out position].
  destruct (Z.eqb_spec (key a) index) as [E|E].
  { exists [], l. done. }
  destruct (take_out index l) as [[b l']|]; cbn [mbind option_bind].
  - destruct IH as (pre & rest & -> & -> & ? & ->). by exists (a :: pre), rest.
  - destruct IH as [-> ?]. split; [done|by constructor].
Qed.

Lemma rep_live t l : rep t l -> prefix (slots t) (len t) = Some (Some <$> l).
Proof.
  intros (-> & -> & _). unfold prefix. rewrite decide_True by (rewrite length_app, length_fmap; lia).
  by rewrite take_app_length' by by rewrite length_fmap.
Qed.

Lemma rep_length t l : rep t l -> length (slots t) = capacity.
Proof. intros (-> & _ & ?). rewrite length_app, length_fmap, length_replicate. lia. Qed.

Lemma push_rep t l a : rep t l -> (length l < capacity)%nat -> exists t', push a t = Some t' /\ rep t' (l ++ [a]).
Proof.
  intros Hr Hlt. pose proof (rep_length _ _ Hr) as Hlen. destruct Hr as (Hs & Hl & _). unfold push, set_slot.
  rewrite decide_True by lia. eexists. split; [done|]. unfold rep. simpl. rewrite length_app, Hs, Hl. simpl.
  split_and!; [|lia|lia]. rewrite insert_app_r_alt by (rewrite length_fmap; lia). rewrite length_fmap, Nat.sub_diag.
  replace (capacity - length l)%nat with (S (capacity - (length l + 1))) by lia. simpl.
  by rewrite fmap_app, <- app_assoc.
Qed.

Lemma new_rep : rep new [].
Proof. unfold rep, new. simpl. rewrite Nat.sub_0_r. split_and!; [done|done|lia]. Qed.

Lemma clear_rep t l : rep t l -> rep (clear t) [].
Proof.
  intros Hr. unfold clear. rewrite (rep_length _ _ Hr). apply new_rep.
Qed.

Lemma get_rep t l index :
  rep t l -> exists t', get index t = Some (fst (touch index l), t') /\ rep t' (snd (touch index l)).
Proof.
  intros Hr. unfold get, touch. rewrite (rep_live _ _ Hr). cbn [mbind option_bind]. pose proof (position_spec index l) as Hp.
  destruct (take_out index l) as [[a l']|]; [|destruct Hp as [-> _]; by exists t].
  destruct Hp as (pre & rest & -> & -> & _ & ->). simpl.
  destruct (remove_rep _ _ _ _ Hr) as (t1 & -> & Hr1). simpl.
  destruct (push_rep t1 (pre ++ rest) a Hr1) as (t2 & -> & Hr2); [|by exists t2].
  destruct Hr as (_ & _ & Hc). rewrite length_app in *. simpl in Hc. lia.
Qed.

Lemma insert_rep t l a : (0 < capacity)%nat -> rep t l -> exists t', insert a t = Some t' /\ rep t' (replace a l).
Proof.
  intros Hpos Hr. unfold insert, replace, without. rewrite (rep_live _ _ Hr). cbn [mbind option_bind]. pose proof (position_spec (key a) l) as Hp.
  assert (Hsecond : forall t l, rep t l ->
    exists t', (t0 ← (if (len t =? capacity)%nat then snd <$> remove 0 t else Some t); push a t0) = Some t' /\
               rep t' (evict l ++ [a])).
  { clear - Hpos. intros t l Hr. pose proof Hr as (_ & Hl & Hc). rewrite Hl. unfold evict.
    destruct (Nat.eqb_spec (length l) capacity) as [E|E]; [|apply (push_rep t l a Hr); lia].
    destruct l as [|x l]; [simpl in E; lia|].
    destruct (remove_rep t [] x l Hr) as (t1 & Hrm & Hr1). simpl in Hrm. rewrite Hrm. simpl.
    apply (push_rep t1 l a Hr1). simpl in E. lia. }
  destruct (take_out (key a) l) as [[b l']|].
  - destruct Hp as (pre & rest & -> & -> & _ & ->). simpl.
    destruct (remove_rep _ _ _ _ Hr) as (t1 & -> & Hr1). simpl. by apply Hsecond.
  - destruct Hp as [-> _]. simpl. by apply Hsecond.
Qed.

(** ** What the list operations do *)

Lemma take_out_perm index l a l' : take_out index l = Some (a, l') -> l ≡ₚ a :: l' /\ key a = index.
Proof.
  revert a l'. induction l as [|x l IH]; intros a l' H; simpl in H; [done|].
  destruct (Z.eqb_spec (key x) index); [by simplify_eq|].
  destruct (take_out index l) as [[b k]|]; simpl in H; simplify_eq.
  destruct (IH _ _ eq_refl) as [Hp ?]. split; [|done]. rewrite Hp. apply Permutation_swap.
Qed.

(** Entries that hold of every entry keep holding; nothing else appears. *)
Lemma touch_forall P index l : Forall P l -> Forall P (snd (touch index l)) /\ (forall a, fst (touch index l) = Some a -> P a /\ key a = index).
Proof.
  intros Hl. unfold touch. destruct (take_out index l) as [[a l']|] eqn:E; [|by split].
  apply take_out_perm in E as [Hp Hk]. rewrite Hp in Hl. inversion Hl; subst. simpl. split.
  - apply Forall_app. split; [done|by constructor].
  - by intros b [= <-].
Qed.

Lemma replace_forall P a l : Forall P l -> P a -> Forall P (replace a l).
Proof.
  intros Hl Ha. unfold replace, without, evict. apply Forall_app. split; [|by constructor].
  assert (Forall P (match take_out (key a) l with None => l | Some (_, l0) => l0 end)) as Hw.
  { destruct (take_out (key a) l) as [[b l']|] eqn:E; [|done]. apply take_out_perm in E as [Hp _].
    rewrite Hp in Hl. by inversion Hl. }
  destruct (length _ =? capacity)%nat; [|done]. by destruct Hw.
Qed.

Lemma touch_keys index l : NoDup (key <$> l) -> NoDup (key <$> snd (touch index l)) /\ length (snd (touch index l)) = length l.
Proof.
  unfold touch. destruct (take_out index l) as [[a l']|] eqn:E; [|done].
  apply take_out_perm in E as [Hp _]. simpl. rewrite <- Permutation_cons_append, <- Hp. done.
Qed.

Lemma without_keys index l : NoDup (key <$> l) -> NoDup (key <$> without index l) /\ index ∉ key <$> without index l.
Proof.
  intros Hnd. unfold without. pose proof (position_spec index l) as Hp.
  destruct (take_out index l) as [[a l']|] eqn:E.
  - apply take_out_perm in E as [Hpm Hk]. rewrite Hpm in Hnd. simpl in Hnd. apply list.NoDup_cons in Hnd as [Hn Hnd].
    by rewrite <- Hk.
  - destruct Hp as [_ Hall]. split; [done|]. intros (a & -> & Ha)%list_elem_of_fmap.
    rewrite List.Forall_forall in Hall. by apply (Hall a); [apply list_elem_of_In|].
Qed.

Lemma replace_keys a l :
  (0 < capacity)%nat -> NoDup (key <$> l) -> (length l <= capacity)%nat ->
  NoDup (key <$> replace a l) /\ (length (replace a l) <= capacity)%nat.
Proof.
  intros Hpos Hnd Hlen. destruct (without_keys (key a) l Hnd) as [Hw Hn]. unfold replace.
  assert (Hwl : (length (without (key a) l) <= capacity)%nat).
  { unfold without. destruct (take_out (key a) l) as [[b l']|] eqn:E; [|done].
    apply take_out_perm in E as [Hp _]. rewrite Hp in Hlen. simpl in Hlen. lia. }
  unfold evict. destruct (Nat.eqb_spec (length (without (key a) l)) capacity) as [E|E].
  - destruct (without (key a) l) as [|x w]; [simpl in E; lia|]. simpl in *. rewrite fmap_app, length_app. simpl.
    split; [|lia]. apply list.NoDup_cons in Hw as [_ Hw]. apply NoDup_snoc; [done|]. set_solver.
  - rewrite fmap_app, length_app. simpl. split; [|lia]. by apply NoDup_snoc.
Qed.

(** ** Runs of operations *)

Inductive op : Type := Get (index : Z) | Insert (a : A) | Clear.

(** The answer of an operation ([None] for the ones that have none) and the
    table after it. *)
Definition apply_op (t : table) (o : op) : option (option A * table) :=
  match o with
  | Get index => get index t
  | Insert a => t ← insert a t; Some (None, t)
  | Clear => Some (None, clear t)
  end.

Fixpoint run_ops (t : table) (ops : list op) : option (list (option A) * table) :=
  match ops with
  | [] => Some ([], t)
  | o :: ops => '(a, t) ← apply_op t o; '(rest, t) ← run_ops t ops; Some (a :: rest, t)
  end.

(** The same on the list of entries, oldest first. *)
Definition list_op (l : list A) (o : op) : option A * list A :=
  match o with
  | Get index => touch index l
  | Insert a => (None, replace a l)
  | Clear => (None, [])
  end.

Fixpoint list_ops (l : list A) (ops : list op) : list (option A) * list A :=
  match ops with
  | [] => ([], l)
  | o :: ops => let (a, l) := list_op l o in let (rest, l) := list_ops l ops in (a :: rest, l)
  end.

Lemma apply_op_rep t l o :
  (0 < capacity)%nat -> rep t l -> exists t', apply_op t o = Some (fst (list_op l o), t') /\ rep t' (snd (list_op l o)).
Proof.
  intros Hpos Hr. destruct o as [index|a|]; simpl.
  - by apply get_rep.
  - destruct (insert_rep t l a Hpos Hr) as (t' & -> & ?). by exists t'.
  - exists (clear t). split; [done|by eapply clear_rep].
Qed.

Lemma list_op_keys l o :
  (0 < capacity)%nat -> NoDup (key <$> l) -> (length l <= capacity)%nat ->
  NoDup (key <$> snd (list_op l o)) /\ (length (snd (list_op l o)) <= capacity)%nat.
Proof.
  intros Hpos Hnd Hlen. destruct o as [index|a|]; simpl.
  - destruct (touch_keys index l Hnd) as [? ->]. done.
  - by apply replace_keys.
  - split; [constructor|lia].
Qed.

(** C31: the inline cache tables are bounded recency lists. From an empty table,
    every sequence of lookups, insertions and clears runs without an unwrap of
    an empty slot or an index outside the array, and answers exactly like the
    list of entries in which a hit or an insertion moves its entry to the end,
    an insertion replaces the entry of the same index, and the oldest entry is
    dropped when the table is full; the list never exceeds the capacity and
    never holds an index twice. *)
Theorem lru_refines_list ops :
  (0 < capacity)%nat ->
  exists t', run_ops new ops = Some (fst (list_ops [] ops), t') /\ rep t' (snd (list_ops [] ops)) /\
    (length (snd (list_ops [] ops)) <= capacity)%nat /\ NoDup (key <$> snd (list_ops [] ops)).
Proof.
  intros Hpos.
  assert (Hgen : forall t l, rep t l -> NoDup (key <$> l) ->
    exists t', run_ops t ops = Some (fst (list_ops l ops), t') /\ rep t' (snd (list_ops l ops)) /\
      (length (snd (list_ops l ops)) <= capacity)%nat /\ NoDup (key <$> snd (list_ops l ops))).
  { induction ops as [|o ops IH]; intros t l Hr Hnd; simpl.
    - exists t. split_and!; [done|done|apply Hr|done].
    - destruct (apply_op_rep t l o Hpos Hr) as (t1 & -> & Hr1).
      destruct (list_op_keys l o Hpos Hnd (proj2 (proj2 Hr))) as [Hnd1 _].
      destruct (list_op l o) as [a l1]. simpl in *.
      destruct (IH t1 l1 Hr1 Hnd1) as (t2 & -> & ?). destruct (list_ops l1 ops) as [rest l2]. simpl in *. by exists t2. }
  apply Hgen; [apply new_rep|constructor].
Qed.
End Table.
End Lru.
