(* ===== verification/OwnedRange.v ===== *)
(** * OwnedRange

    [src/snapshot/owned_range.rs]: range reads of large files from
    authenticated chunks. A reader keeps two bounded tables, of chunk-map leaves
    and of chunks; a range is assembled from the chunks that cover it, each
    fetched over the owned transport, checked against the digest its leaf
    gives it, and cached. The reader's methods are concurrent: every lock is
    held only for one table operation, so that other tasks may change the
    tables at every [await]; the argument [env] is their effect. *)

From S2P Require Import Prelude Types Faults Text Profile Frames ChunkMap OwnedTransport Lru.
Import Digests Scope.
Local Open Scope string_scope.
Local Open Scope list_scope.
Local Open Scope Z_scope.

(** [mst2_codec::chunkmap]: the page size, and [ChunkMap::chunk_len] of a map
    given by its file digest, size and root: the chunk size, or what is left
    for the last chunk. *)
Class ChunkLengths `{ChunkCodec} : Type := {
  CHUNKS_PER_PAGE : Z;
  codec_chunk_len : list Z -> Z -> list Z -> Z -> result string Z;
  CHUNK_SIZE_pos : 0 < CHUNK_SIZE;
  CHUNKS_PER_PAGE_pos : 0 < CHUNKS_PER_PAGE;
  chunk_len_spec : forall c size root i n, codec_chunk_len c size root i = Ok n ->
    0 <= i -> i * CHUNK_SIZE < size /\ n = Z.min CHUNK_SIZE (size - i * CHUNK_SIZE);
}.

Module Range.

Definition CACHED_CHUNKS : nat := 16.
Definition CACHED_LEAVES : nat := 16.
Definition invalid (m : string) : SnapshotError := SnapshotError_new DigestMismatch m.

Record VerifiedChunk : Type := mkChunk { c_bytes : bytes; c_map : bytes; c_index : Z; c_digest : bytes }.
Abbreviation ChunkCache := (Lru.table (A := VerifiedChunk)).
Abbreviation LeafCache := (Lru.table (A := Z * list bytes)).

(** The leaf table repeats the code of the chunk table, with the page number of
    an entry as its index. *)
Definition leaf_new : LeafCache := Lru.new CACHED_LEAVES.
Definition leaf_remove : nat -> LeafCache -> option (Z * list bytes * LeafCache) := Lru.remove.
Definition leaf_get : Z -> LeafCache -> option (option (Z * list bytes) * LeafCache) := Lru.get fst.
Definition leaf_insert : Z * list bytes -> LeafCache -> option LeafCache := Lru.insert fst CACHED_LEAVES.

Section Publish.
Context `{Sha256}.

(** [VerifiedChunk::publish]. *)
Definition publish_chunk (b : bytes) (map : bytes) (index : Z) (digest : bytes) (expected : Z) : Res VerifiedChunk :=
  reject? negb (zlen b =? expected) || negb (bool_decide (sha256 b = digest))
    with invalid "chunk differs from its authenticated digest and map length" in
  Ok (mkChunk b map index digest).

(** [VerifiedRange::publish]. *)
Definition publish_range (b : bytes) (expected : Z) : Res bytes :=
  reject? negb (zlen b =? expected) with invalid "incomplete verified range coverage" in Ok b.
End Publish.

(** [FileAuthority]: what vouches for the file. *)
Inductive FileAuthority : Type :=
  | FullRootMember
  | ProvenPath (file : SnapshotFile)
  | OnlinePath (file : SnapshotFile).

(** ** The reader *)

Record state : Type := mkState { leaves : LeafCache; chunks : ChunkCache; clock : nat }.

Definition M (A : Type) : Type := state -> Run A * state.
Definition ret {A} (a : A) : M A := fun s => (Ok a, s).
Definition bind {A B} (c : M A) (k : A -> M B) : M B := fun s =>
  match c s with
  | (Ok a, s) => k a s
  | (Err e, s) => (Err e, s)
  end.
Definition of_run {A} (r : Run A) : M A := fun s => (r, s).
Definition now : M nat := fun s => (Ok (clock s), s).
Definition of_res {A} (r : Res A) : M A := of_run (lift r).

Notation "'let*' x := c 'in' k" := (bind c (fun x => k))
  (at level 10, x name, c at level 150, k at level 200).
Notation "'run*' c 'in' k" := (bind c (fun _ => k)) (at level 10, c at level 150, k at level 200).

Fixpoint fold_m {A X} (f : A -> X -> M A) (a : A) (l : list X) : M A :=
  match l with
  | [] => ret a
  | x :: l => let* a := f a x in fold_m f a l
  end.

Section Reader.
Context `{HexCrate} `{FrameParser} `{ChunkLengths} `{Sha256} (p : profile).
Context (file : SnapshotFile) (map : VerifiedChunkMap) (authority : FileAuthority) (zstd : bool).
(** What the environment answers at a given time: membership and proof checks,
    the lease, the leaf endpoint, the budgets, the transport; and what other
    tasks do to the tables meanwhile. *)
Context (member proven online : nat -> Res unit) (lease_status renew_lease : nat -> Res unit).
Context (map_page : nat -> Z -> Res (list bytes)).
Context (admit_out : nat -> Z -> Z -> Res unit) (admit_buffer : nat -> Z -> Z -> Res unit).
Context (send : nat -> bytes -> Res Owned.Response) (encode : Z -> bytes) (env : nat -> state -> state).
Context (size_of_object size_of_digest size_of_scratch size_of_frame size_of_chunk size_of_range size_of_request : Z).

(** An [await]: other tasks run, then the answer arrives. *)
Definition ask {A} (q : nat -> Res A) : M A := fun s =>
  let s := env (clock s) s in
  (lift (q (clock s)), mkState (leaves s) (chunks s) (S (clock s))).

(** A locked operation on a table; a panic keeps the table. *)
Definition with_chunks {A} (f : ChunkCache -> option (A * ChunkCache)) : M A := fun s =>
  match f (chunks s) with
  | Some (a, t) => (Ok a, mkState (leaves s) t (clock s))
  | None => (Err Panicked, s)
  end.
Definition with_leaves {A} (f : LeafCache -> option (A * LeafCache)) : M A := fun s =>
  match f (leaves s) with
  | Some (a, t) => (Ok a, mkState t (chunks s) (clock s))
  | None => (Err Panicked, s)
  end.

(** [FileAuthority::validate]. *)
Definition authority_validate : M unit :=
  match authority with
  | FullRootMember => ask member
  | ProvenPath f =>
      if bool_decide (f = file) then ask proven
      else of_res (Err (invalid "range tuple differs from its retained file authority"))
  | OnlinePath f =>
      if bool_decide (f = file) then ask online
      else of_res (Err (invalid "range tuple differs from its retained file authority"))
  end.

Definition validate_file : M unit := authority_validate.

(** [admit_output]: a refused admission clears the chunk table and tries once
    more. *)
Definition admit_output (cap extra : Z) : M unit := fun s =>
  match ask (fun k => admit_out k cap extra) s with
  | (Err (Failed e), s) =>
      if bool_decide (code e = LimitExceeded) then
        (run* with_chunks (fun t => Some (tt, Lru.clear t)) in ask (fun k => admit_out k cap extra)) s
      else (Err (Failed e), s)
  | r => r
  end.

(** [ensure_leaf]. *)
Definition ensure_leaf (page : Z) : M (list bytes) :=
  run* validate_file in
  run* ask lease_status in
  let* hit := with_leaves (leaf_get page) in
  match hit with
  | Some (_, digests) => ret digests
  | None =>
      run* ask renew_lease in
      let* digests := ask (fun k => map_page k page) in
      run* validate_file in
      run* ask lease_status in
      run* with_leaves (fun t => t ← leaf_insert (page, digests) t; Some (tt, t)) in
      ret digests
  end.

(** The sink of a chunk exchange: whether the chunk was seen, and the output. *)
Definition chunk_sink (mid fid : bytes) (index expected : Z) (st : bool * bytes) (f : Frame)
    : Res (bool * bytes * Z * Z) :=
  let '(seen, out) := st in
  match f with
  | FChunk m fc i b =>
      reject? seen || negb (bool_decide (m = mid)) || negb (bool_decide (fc = fid)) || negb (i =? index)
              || negb (zlen b =? expected) with invalid "unrequested duplicate or short range chunk" in
      reject? expected - zlen out <? zlen b with invalid "body exceeds its fixed expected size" in
      Ok (true, out ++ b, 1, zlen b)
  | _ => Err (invalid "range data is not a chunk")
  end.

(** [VerifiedChunkMap::chunk_len]. *)
Definition chunk_len (index : Z) : Res Z :=
  let? c := parse_digest (vm_file_content_id map) in
  map_err (fun e => SnapshotError_new Internal ("chunk codec: " ++ e))
    (codec_chunk_len c (vm_file_size map) (vm_pages_root map) index).

(** The exchange for one chunk. *)
Definition fetch_chunk (index expected : Z) (mid fid : bytes) : M bytes :=
  let* k := now in
  let* body := of_res (Owned.request_body p admit_buffer k size_of_request (encode index)) in
  run* ask renew_lease in
  let* k := now in
  let* st := of_run (Owned.consume_frames p size_of_object size_of_digest size_of_scratch size_of_frame admit_buffer
    (chunk_sink mid fid index expected) (send k) (Owned.mkFrameRequest body KIND_CHUNK 1 expected zstd) (false, []) k) in
  if negb (fst st) then of_res (Err (invalid "range response omitted requested chunk")) else ret (snd st).

(** [ensure_chunk]. *)
Definition ensure_chunk (index : Z) : M VerifiedChunk :=
  run* validate_file in
  run* ask lease_status in
  let* hit := with_chunks (Lru.get c_index index) in
  match hit with
  | Some owner => ret owner
  | None =>
      let* digests := ensure_leaf (index / CHUNKS_PER_PAGE) in
      let* want := of_res (ok_or (digests !! Z.to_nat (index mod CHUNKS_PER_PAGE))
                             (invalid "authenticated leaf omits requested chunk")) in
      let* mid := of_res (parse_digest (vm_map_id map)) in
      let* fid := of_res (parse_digest (file_digest file)) in
      let* expected := of_res (chunk_len index) in
      run* admit_output expected size_of_chunk in
      let* out := fetch_chunk index expected mid fid in
      run* validate_file in
      let* owner := of_res (publish_chunk out mid index want expected) in
      if negb (bool_decide (c_map owner = mid)) || negb (bool_decide (c_digest owner = want))
      then of_res (Err (invalid "verified chunk cache identity changed"))
      else
        run* validate_file in
        run* ask lease_status in
        run* with_chunks (fun t => t ← Lru.insert c_index CACHED_CHUNKS owner t; Some (tt, t)) in
        ret owner
  end.

(** The chunk indices [first..=last]. *)
Definition chunk_indices (offset stop : Z) : list Z :=
  let first := offset / CHUNK_SIZE in
  (fun i => first + i) <$> zrange (Z.to_nat ((stop - 1) / CHUNK_SIZE - first + 1)).

(** One chunk's part of the range, appended to the output. *)
Definition append_part (offset stop returned : Z) (out : bytes) (index : Z) : M bytes :=
  let* chunk := ensure_chunk index in
  let start := index * CHUNK_SIZE in
  let from := saturating_sub offset start in
  let to := Z.min (stop - start) (zlen (c_bytes chunk)) in
  if (from <=? to) && (to <=? zlen (c_bytes chunk)) then
    let part := slice (c_bytes chunk) from to in
    if returned - zlen out <? zlen part then of_res (Err (invalid "body exceeds its fixed expected size"))
    else ret (out ++ part)
  else of_res (Err (invalid "verified chunk does not cover requested range")).

(** [read_range_owned]. *)
Definition read_range_owned (offset length : Z) : M bytes :=
  run* validate_file in
  let returned := if file_size file <=? offset then 0 else Z.min length (file_size file - offset) in
  if MAX_BUFFERED_FILE_BYTES <? returned then
    of_res (Err (SnapshotError_new LimitExceeded "owned range output exceeds 64 MiB"))
  else
    run* admit_output returned size_of_range in
    if returned =? 0 then
      run* validate_file in of_res (publish_range [] 0)
    else
      let stop := offset + returned in
      let* out := fold_m (append_part offset stop returned) [] (chunk_indices offset stop) in
      run* validate_file in
      of_res (publish_range out returned).
End Reader.

(** ** A Hoare logic for the reader *)

(** From a state in [I], [c] ends in a state in [I], with a result in [Q] or a
    client error; it does not panic. *)
Definition triple (I : state -> Prop) {A} (c : M A) (Q : A -> Prop) : Prop :=
  forall s, I s -> let (r, s') := c s in I s' /\ match r with Ok a => Q a | Err (Failed _) => True | Err _ => False end.

Section Logic.
Context (I : state -> Prop).

Lemma now_ok : triple I now (fun _ => True).
Proof. by intros s Hs. Qed.

Lemma tables_ret {A} (a : A) (Q : A -> Prop) : Q a -> triple I (ret a) Q.
Proof. intros Hq s Hs. simpl. done. Qed.

Lemma tables_bind {A B} (c : M A) (k : A -> M B) P Q :
  triple I c P -> (forall a, P a -> triple I (k a) Q) -> triple I (bind c k) Q.
Proof.
  intros Hc Hk s Hs. unfold bind. pose proof (Hc s Hs) as H1. destruct (c s) as [[a|[e| |]] s'].
  - destruct H1 as [Hs' Hp]. exact (Hk a Hp s' Hs').
  - done.
  - by destruct H1.
  - by destruct H1.
Qed.

Lemma tables_of_run {A} (r : Run A) (Q : A -> Prop) : clean r -> (forall a, r = Ok a -> Q a) -> triple I (of_run r) Q.
Proof. intros Hc Hq s Hs. simpl. split; [done|]. destruct r as [a|[e| |]]; auto. Qed.

Lemma tables_of_res {A} (r : Res A) (Q : A -> Prop) : (forall a, r = Ok a -> Q a) -> triple I (of_res r) Q.
Proof.
  intros Hq. apply tables_of_run; [apply clean_lift|]. intros a Ha. apply Hq. unfold lift in Ha. by apply map_err_ok in Ha.
Qed.

Lemma tables_weaken {A} (c : M A) (P Q : A -> Prop) : triple I c P -> (forall a, P a -> Q a) -> triple I c Q.
Proof.
  intros Hc Hpq s Hs. pose proof (Hc s Hs) as H1. destruct (c s) as [[a|[e| |]] s']; naive_solver.
Qed.

(** A fold keeps a property indexed by what was processed. *)
Lemma tables_fold {A X} (f : A -> X -> M A) (P : list X -> A -> Prop) xs :
  (forall done a x rest, xs = done ++ x :: rest -> P done a -> triple I (f a x) (P (done ++ [x]))) ->
  forall done rest a, xs = done ++ rest -> P done a -> triple I (fold_m f a rest) (P xs).
Proof.
  intros Hf done rest. revert done. induction rest as [|x rest IH]; intros done a Hx Hp; simpl.
  - apply tables_ret. rewrite app_nil_r in Hx. by subst.
  - eapply tables_bind; [by eapply Hf|]. intros b Hb. apply (IH (done ++ [x])); [|done]. by rewrite <- app_assoc.
Qed.
End Logic.

(** ** Reads return the bytes of the file *)

Section Sound.
Context `{HexCrate} `{FrameParser} `{HL : ChunkLengths} `{Sha256} `{HK : !KnownBytes} (p : profile).
Context (file : SnapshotFile) (map : VerifiedChunkMap) (authority : FileAuthority) (zstd : bool).
Context (member proven online : nat -> Res unit) (lease_status renew_lease : nat -> Res unit).
Context (map_page : nat -> Z -> Res (list bytes)).
Context (admit_out : nat -> Z -> Z -> Res unit) (admit_buffer : nat -> Z -> Z -> Res unit).
Context (send : nat -> bytes -> Res Owned.Response) (encode : Z -> bytes) (env : nat -> state -> state).
Context (size_of_object size_of_digest size_of_scratch size_of_frame size_of_chunk size_of_range size_of_request : Z).
(** The file the digests of the chunk map describe. *)
Context (content : bytes).

Definition chunk_of (i : Z) : bytes := slice content (i * CHUNK_SIZE) (Z.min ((i + 1) * CHUNK_SIZE) (zlen content)).

(** The digests of a leaf page are those of the file's chunks. *)
Definition leaf_good (l : Z * list bytes) : Prop :=
  forall i d, i / CHUNKS_PER_PAGE = l.1 -> 0 <= i -> i * CHUNK_SIZE < zlen content ->
  l.2 !! Z.to_nat (i mod CHUNKS_PER_PAGE) = Some d -> d = sha256 (chunk_of i).

Definition chunk_good (c : VerifiedChunk) : Prop :=
  0 <= c_index c /\ c_index c * CHUNK_SIZE < zlen content /\
  zlen (c_bytes c) = Z.min CHUNK_SIZE (zlen content - c_index c * CHUNK_SIZE) /\
  c_bytes c = chunk_of (c_index c).

(** Both tables are within their sizes and hold authentic entries only. *)
Definition caches_ok (s : state) : Prop :=
  exists ls cs, Lru.rep CACHED_LEAVES (leaves s) ls /\ Lru.rep CACHED_CHUNKS (chunks s) cs /\
    Forall leaf_good ls /\ Forall chunk_good cs.

(** What is relied on: other tasks keep the tables good, the leaf endpoint
    returns authenticated leaves, the server sends bytes, the map is the file's,
    and SHA-256 tells the chunks of the file from what the server sends for
    them. *)
Record relies : Prop := {
  rely_env : forall k s, caches_ok s -> caches_ok (env k s);
  rely_leaf : forall k page ds, map_page k page = Ok ds -> leaf_good (page, ds);
  rely_bytes : forall k, Owned.sends_bytes (send k);
  rely_size : vm_file_size map = zlen content /\ file_size file = zlen content;
  rely_chunks : forall i, 0 <= i -> i * CHUNK_SIZE < zlen content -> occurs (chunk_of i);
  rely_answers : forall k b resp pre w post m fc i c, send k b = Ok resp ->
    (Owned.flat_rest (Owned.chunks resp)).1 = pre ++ w ++ post -> Owned.wire_of w (FChunk m fc i c) -> occurs c;
}.

Context (HR : relies).

Abbreviation hoare := (triple caches_ok).
Abbreviation ask := (ask env).

Lemma ask_ok {A} (q : nat -> Res A) (Q : A -> Prop) : (forall k a, q k = Ok a -> Q a) -> hoare (ask q) Q.
Proof using HR.
  intros Hq s Hs. unfold Range.ask. pose proof (rely_env HR (clock s) s Hs) as (ls & cs & ? & ? & ? & ?).
  split; [by exists ls, cs|]. destruct (q (clock (env (clock s) s))) as [a|e] eqn:E; simpl; [by eapply Hq|done].
Qed.

Lemma get_chunk_ok index : hoare (with_chunks (Lru.get c_index index))
  (fun hit => forall c, hit = Some c -> chunk_good c /\ c_index c = index).
Proof using Type.
  clear HR. intros s (ls & cs & Hl & Hc & Hls & Hcs). unfold with_chunks.
  destruct (Lru.get_rep c_index CACHED_CHUNKS (chunks s) cs index Hc) as (t & -> & Ht).
  destruct (Lru.touch_forall c_index chunk_good index cs Hcs) as [Hall Hhit].
  split; [by exists ls, (Lru.touch c_index index cs).2|]. intros c E. by apply Hhit.
Qed.

Lemma get_leaf_ok page : hoare (with_leaves (leaf_get page))
  (fun hit => forall l, hit = Some l -> leaf_good l /\ l.1 = page).
Proof using Type.
  clear HR. intros s (ls & cs & Hl & Hc & Hls & Hcs). unfold with_leaves, leaf_get.
  destruct (Lru.get_rep fst CACHED_LEAVES (leaves s) ls page Hl) as (t & -> & Ht).
  destruct (Lru.touch_forall fst leaf_good page ls Hls) as [Hall Hhit].
  split; [by exists (Lru.touch fst page ls).2, cs|]. intros l E. by apply Hhit.
Qed.

Lemma insert_chunk_ok c : chunk_good c ->
  hoare (with_chunks (fun t => t ← Lru.insert c_index CACHED_CHUNKS c t; Some (tt, t))) (fun _ => True).
Proof using Type.
  clear HR. intros Hg s (ls & cs & Hl & Hc & Hls & Hcs). unfold with_chunks.
  destruct (Lru.insert_rep c_index CACHED_CHUNKS (chunks s) cs c) as (t & -> & Ht); [unfold CACHED_CHUNKS; lia|done|].
  simpl. split; [|done]. exists ls, (Lru.replace c_index CACHED_CHUNKS c cs). split_and!; [done|done|done|].
  by apply Lru.replace_forall.
Qed.

Lemma insert_leaf_ok l : leaf_good l ->
  hoare (with_leaves (fun t => t ← leaf_insert l t; Some (tt, t))) (fun _ => True).
Proof using Type.
  clear HR. intros Hg s (ls & cs & Hl & Hc & Hls & Hcs). unfold with_leaves, leaf_insert.
  destruct (Lru.insert_rep fst CACHED_LEAVES (leaves s) ls l) as (t & -> & Ht); [unfold CACHED_LEAVES; lia|done|].
  simpl. split; [|done]. exists (Lru.replace fst CACHED_LEAVES l ls), cs. split_and!; [done|done| |done].
  by apply Lru.replace_forall.
Qed.

Lemma clear_chunks_ok : hoare (with_chunks (fun t => Some (tt, Lru.clear t))) (fun _ => True).
Proof using Type.
  clear HR. intros s (ls & cs & Hl & Hc & Hls & Hcs). simpl. split; [|done]. exists ls, []. split_and!; [done| |done|done].
  by eapply Lru.clear_rep.
Qed.

Lemma any_ok {A} (q : nat -> Res A) : hoare (ask q) (fun _ => True).
Proof using HR. by apply ask_ok. Qed.

Lemma validate_ok : hoare (validate_file file authority member proven online env) (fun _ => True).
Proof using HR.
  unfold validate_file, authority_validate. destruct authority; [apply any_ok|..];
    (case_bool_decide; [apply any_ok|by apply tables_of_res]).
Qed.

Lemma admit_output_ok cap extra : hoare (admit_output admit_out env cap extra) (fun _ => True).
Proof using HR.
  intros s Hs. unfold admit_output. pose proof (any_ok (fun k => admit_out k cap extra) s Hs) as Ha.
  destruct (ask (fun k => admit_out k cap extra) s) as [[u|[e| |]] s']; [done| |by destruct Ha..].
  destruct Ha as [Hs' _]. case_bool_decide; [|done].
  assert (hoare (run* with_chunks (fun t => Some (tt, Lru.clear t)) in ask (fun k => admit_out k cap extra))
            (fun _ => True)) as Hagain; [|exact (Hagain s' Hs')].
  eapply tables_bind; [apply clear_chunks_ok|]. intros _ _. apply any_ok.
Qed.

Lemma ensure_leaf_ok page :
  hoare (ensure_leaf file authority member proven online lease_status renew_lease map_page env page)
    (fun ds => leaf_good (page, ds)).
Proof using HR.
  unfold ensure_leaf. eapply tables_bind; [apply validate_ok|]. intros _ _.
  eapply tables_bind; [apply any_ok|]. intros _ _. eapply tables_bind; [apply get_leaf_ok|]. intros [[pg ds]|] Hhit.
  - apply tables_ret. destruct (Hhit _ eq_refl) as [Hg E]. simpl in E. by subst.
  - eapply tables_bind; [apply any_ok|]. intros _ _.
    eapply tables_bind; [apply (ask_ok _ (fun ds => leaf_good (page, ds))); intros k ds; apply (rely_leaf HR)|].
    intros ds Hds. eapply tables_bind; [apply validate_ok|]. intros _ _. eapply tables_bind; [apply any_ok|]. intros _ _.
    eapply tables_bind; [by apply insert_leaf_ok|]. intros _ _. by apply tables_ret.
Qed.

(** The sink takes one chunk. *)
Lemma sink_takes_one mid fid index expected fs st u n :
  for_each (Owned.deliver (chunk_sink mid fid index expected)) (false, [], 0, 0) fs = Ok (st, u, n) -> fst st = true ->
  exists m fc i, fs = [FChunk m fc i (snd st)].
Proof using Type.
  clear HR. destruct fs as [|f fs]; cbn [for_each]; [by intros [= <- _ _]|]. intros Hf Hst. apply rbind_ok in Hf as ([[st1 u1] n1] & H1' & Hf).
  unfold Owned.deliver in H1'. apply rbind_ok in H1' as ([[st2 n2] b2] & Hs & E). simplify_eq. unfold chunk_sink in Hs.
  destruct f as [| |m fc i c| |]; try done. apply reject_ok in Hs as [_ Hs]. apply reject_ok in Hs as [_ Hs]. simplify_eq.
  destruct fs as [|f fs]; cbn [for_each] in Hf; [by simplify_eq; exists m, fc, i|].
  apply rbind_ok in Hf as ([[st3 u3] n3] & H3' & _). unfold Owned.deliver, chunk_sink in H3'. by destruct f.
Qed.

Lemma fetch_chunk_ok index expected mid fid :
  hoare (fetch_chunk p zstd renew_lease admit_buffer send encode env
           size_of_object size_of_digest size_of_scratch size_of_frame size_of_request index expected mid fid)
    occurs.
Proof using HR.
  unfold fetch_chunk. eapply tables_bind; [apply now_ok|]. intros k _.
  eapply tables_bind; [by apply (tables_of_res _ _ (fun _ => True))|]. intros body _.
  eapply tables_bind; [apply any_ok|]. intros _ _. eapply tables_bind; [apply now_ok|]. intros k' _.
  eapply tables_bind.
  { apply (tables_of_run _ _ (fun st => fst st = true -> occurs (snd st))); [apply Owned.consume_frames_clean; [apply (rely_bytes HR)|simpl; lia]|].
    intros st (resp & Hs & _ & ws & fs & w & e & l & Hflat & Hw & _ & _ & Hd & _)%Owned.consume_frames_run Hst; [|apply (rely_bytes HR)].
    apply sink_takes_one in Hd as (m & fc & i & ->); [|done]. apply Forall2_cons_inv_r in Hw as (w1 & ws1 & Hw1 & Hnil & ->).
    apply Forall2_nil_inv_r in Hnil as ->. eapply (rely_answers HR k' _ resp [] w1 w); [done| |done]. rewrite Hflat. simpl. by rewrite app_nil_r. }
  intros st Hst. destruct (fst st) eqn:E; simpl; [apply tables_ret; auto|by apply tables_of_res].
Qed.

Lemma chunk_len_ok index n :
  0 <= index -> chunk_len map index = Ok n ->
  index * CHUNK_SIZE < zlen content /\ n = Z.min CHUNK_SIZE (zlen content - index * CHUNK_SIZE).
Proof using HR.
  intros Hi Hn. unfold chunk_len in Hn. inv_ok. apply chunk_len_spec in Hn; [|done].
  by rewrite (proj1 (rely_size HR)) in Hn.
Qed.

Lemma ensure_chunk_ok index :
  0 <= index ->
  hoare (ensure_chunk p file map authority zstd member proven online lease_status renew_lease map_page admit_out
           admit_buffer send encode env size_of_object size_of_digest size_of_scratch size_of_frame size_of_chunk
           size_of_request index)
    (fun c => chunk_good c /\ c_index c = index).
Proof using HR.
  intros Hi. unfold ensure_chunk. eapply tables_bind; [apply validate_ok|]. intros _ _.
  eapply tables_bind; [apply any_ok|]. intros _ _. eapply tables_bind; [apply get_chunk_ok|]. intros [c|] Hhit.
  { apply tables_ret. by apply Hhit. }
  eapply tables_bind; [apply ensure_leaf_ok|]. intros ds Hds.
  eapply tables_bind; [apply (tables_of_res _ _ (fun d => ds !! Z.to_nat (index mod CHUNKS_PER_PAGE) = Some d));
                       by intros d ?%ok_or_ok|]. intros want Hwant.
  eapply tables_bind; [by apply (tables_of_res _ _ (fun _ => True))|]. intros mid _.
  eapply tables_bind; [by apply (tables_of_res _ _ (fun _ => True))|]. intros fid _.
  eapply tables_bind; [apply (tables_of_res _ _ (fun n => chunk_len map index = Ok n)); done|]. intros expected Hlen.
  apply chunk_len_ok in Hlen as [Hin Hlen]; [|done].
  eapply tables_bind; [apply admit_output_ok|]. intros _ _. eapply tables_bind; [apply fetch_chunk_ok|]. intros out Hout.
  eapply tables_bind; [apply validate_ok|]. intros _ _.
  eapply tables_bind; [apply (tables_of_res _ _ (fun c => chunk_good c /\ c_index c = index))|].
  { intros c Hc. unfold publish_chunk in Hc. inv_ok. bools. split_all. subst c.
    match goal with Hx : bool_decide _ = true |- _ => apply bool_decide_eq_true in Hx end.
    split; [|done]. split_and!; simpl; [done|done|lia|]. subst want.
    apply occurs_inj; [done|by apply (rely_chunks HR)|]. exact (Hds index _ eq_refl Hi Hin Hwant). }
  intros c [Hg Hci]. destruct (_ || _); [by apply tables_of_res|].
  eapply tables_bind; [apply validate_ok|]. intros _ _. eapply tables_bind; [apply any_ok|]. intros _ _.
  eapply tables_bind; [by apply insert_chunk_ok|]. intros _ _. by apply tables_ret.
Qed.

(** *** Assembling a range *)

Lemma chunk_indices_at offset stop pre i rest :
  chunk_indices offset stop = pre ++ i :: rest -> 0 <= offset ->
  i = offset / CHUNK_SIZE + zlen pre /\ zlen pre <= (stop - 1) / CHUNK_SIZE - offset / CHUNK_SIZE.
Proof using Type.
  clear HR. intros Hx Ho. assert (chunk_indices offset stop !! length pre = Some i) as Hi.
  { rewrite Hx. by rewrite lookup_app_r, Nat.sub_diag by lia. }
  unfold chunk_indices, zrange in Hi. rewrite !list_lookup_fmap in Hi.
  destruct (seq 0 _ !! length pre) as [n|] eqn:Hn; [|done]. apply lookup_seq in Hn as [-> Hlt]. simpl in Hi.
  injection Hi as <-. unfold zlen. lia.
Qed.

Lemma chunk_indices_length offset stop :
  0 <= offset -> offset < stop -> zlen (chunk_indices offset stop) = (stop - 1) / CHUNK_SIZE - offset / CHUNK_SIZE + 1.
Proof using HL.
  clear HR. intros. pose proof CHUNK_SIZE_pos.
  assert (offset / CHUNK_SIZE <= (stop - 1) / CHUNK_SIZE) by (apply Z.div_le_mono; lia).
  unfold zlen, chunk_indices, zrange. rewrite !length_fmap, length_seq. lia.
Qed.

(** What has been assembled after [n] chunks. *)
Definition assembled (offset stop n : Z) : bytes :=
  slice content offset (Z.min stop ((offset / CHUNK_SIZE + n) * CHUNK_SIZE)).

Lemma assembled_step offset stop n part :
  0 <= offset -> offset < stop -> stop <= zlen content -> 0 <= n <= (stop - 1) / CHUNK_SIZE - offset / CHUNK_SIZE ->
  let start := (offset / CHUNK_SIZE + n) * CHUNK_SIZE in
  part = slice (chunk_of (offset / CHUNK_SIZE + n)) (saturating_sub offset start)
           (Z.min (stop - start) (Z.min CHUNK_SIZE (zlen content - start))) ->
  assembled offset stop n ++ part = assembled offset stop (n + 1).
Proof using HL.
  clear HR. intros Ho Hlt Hs Hn start ->. pose proof CHUNK_SIZE_pos as Hpos.
  set (i := offset / CHUNK_SIZE + n) in *. unfold saturating_sub.
  assert (Hi : 0 <= i) by (unfold i; pose proof (Z.div_pos offset CHUNK_SIZE); lia).
  assert (Hstart : start <= stop - 1).
  { assert (i <= (stop - 1) / CHUNK_SIZE) by (unfold i; lia).
    pose proof (Z.mul_div_le (stop - 1) CHUNK_SIZE Hpos). unfold start. nia. }
  assert (Hnext : offset < start + CHUNK_SIZE).
  { pose proof (Z.mul_succ_div_gt offset CHUNK_SIZE Hpos). unfold start, i. nia. }
  unfold chunk_of. rewrite slice_slice by (unfold start in *; lia).
  unfold assembled. fold i. replace ((offset / CHUNK_SIZE + (n + 1)) * CHUNK_SIZE) with (start + CHUNK_SIZE) by (unfold start, i; lia).
  fold start. replace (start + Z.min (stop - start) (Z.min CHUNK_SIZE (zlen content - start)))
    with (Z.min stop (start + CHUNK_SIZE)) by lia.
  rewrite Z.min_r by lia. destruct (Z.le_gt_cases start offset).
  - rewrite slice_nil by lia. simpl. f_equal. lia.
  - replace (start + Z.max (offset - start) 0) with start by lia. apply slice_app; lia.
Qed.

Lemma append_part_ok offset stop out pre i rest :
  0 <= offset -> offset < stop -> stop <= zlen content -> chunk_indices offset stop = pre ++ i :: rest ->
  out = assembled offset stop (zlen pre) ->
  hoare (append_part p file map authority zstd member proven online lease_status renew_lease map_page admit_out
           admit_buffer send encode env size_of_object size_of_digest size_of_scratch size_of_frame size_of_chunk
           size_of_request offset stop (stop - offset) out i)
    (fun out => out = assembled offset stop (zlen (pre ++ [i]))).
Proof using HR.
  intros Ho Hlt Hs Hx ->. apply chunk_indices_at in Hx as [Hi Hpre]; [|done]. unfold append_part.
  assert (0 <= i) by (subst i; pose proof (Z.div_pos offset CHUNK_SIZE); pose proof CHUNK_SIZE_pos;
                      pose proof (zlen_nonneg pre); lia).
  eapply tables_bind; [by apply ensure_chunk_ok|]. intros c [Hg Hc]. cbv zeta.
  destruct (_ && _); [|by apply tables_of_res]. destruct (_ <? _); [by apply tables_of_res|]. apply tables_ret.
  destruct Hg as (_ & _ & Hlen & Hb). rewrite zlen_app. change (zlen [i]) with 1. rewrite Hlen, Hc, Hb, Hc.
  pose proof (zlen_nonneg pre). rewrite Hi in *. apply assembled_step; [done|done|done|lia|done].
Qed.

Lemma read_range_ok offset length :
  0 <= offset -> 0 <= length ->
  hoare (read_range_owned p file map authority zstd member proven online lease_status renew_lease map_page admit_out
           admit_buffer send encode env size_of_object size_of_digest size_of_scratch size_of_frame size_of_chunk
           size_of_range size_of_request offset length)
    (fun b => b = slice content offset (offset + length)).
Proof using HR.
  intros Ho Hl. unfold read_range_owned. rewrite (proj2 (rely_size HR)).
  eapply tables_bind; [apply validate_ok|]. intros _ _. cbv zeta.
  set (returned := if zlen content <=? offset then 0 else Z.min length (zlen content - offset)).
  assert (Hret : 0 <= returned /\ slice content offset (offset + returned) = slice content offset (offset + length) /\
                 (0 < returned -> offset + returned <= zlen content)).
  { unfold returned. destruct (Z.leb_spec (zlen content) offset).
    - split_and!; [lia| |lia]. rewrite slice_nil by lia. symmetry. rewrite slice_clip. apply slice_nil. lia.
    - split_and!; [lia| |lia]. rewrite (slice_clip content offset (offset + length)). f_equal. lia. }
  destruct Hret as (Hpos & Heq & Hin). destruct (_ <? _); [by apply tables_of_res|].
  eapply tables_bind; [apply admit_output_ok|]. intros _ _. destruct (Z.eqb_spec returned 0) as [E|E].
  - eapply tables_bind; [apply validate_ok|]. intros _ _. apply tables_of_res. intros b Hb.
    unfold publish_range in Hb. inv_ok. subst b. rewrite <- Heq, E. by rewrite slice_nil by lia.
  - eapply tables_bind.
    + apply (tables_fold caches_ok _ (fun done out => out = assembled offset (offset + returned) (zlen done))
               (chunk_indices offset (offset + returned))) with (done := []); [|done|].
      * intros pre out i rest Hx Hout. replace returned with (offset + returned - offset) at 2 by lia.
        eapply append_part_ok; eauto; lia.
      * unfold assembled. change (zlen (@nil Z)) with 0. rewrite slice_nil; [done|].
        pose proof CHUNK_SIZE_pos. pose proof (Z.mul_div_le offset CHUNK_SIZE). lia.
    + intros out Hout. eapply tables_bind; [apply validate_ok|]. intros _ _. apply tables_of_res. intros b Hb.
      unfold publish_range in Hb. inv_ok. subst b. rewrite Hout, <- Heq. unfold assembled. f_equal. rewrite chunk_indices_length by lia.
      pose proof CHUNK_SIZE_pos as Hcs. pose proof (Z.mul_succ_div_gt (offset + returned - 1) CHUNK_SIZE Hcs). lia.
Qed.

(** C14: a range read returns the bytes of the file. Whatever the server sends and
    whatever other readers of the same file do to the shared tables meanwhile,
    as long as leaves are authenticated, a range read ends in a client error or
    in exactly the bytes of the file in that range (clipped at its end); it
    never unwraps an empty slot, and the tables keep their bounds and hold only
    chunks of this file. SHA-256 is assumed to tell the chunks of the file from
    the byte strings that the server sends for them. *)
Theorem range_read_sound offset length s r s' :
  0 <= offset -> 0 <= length -> caches_ok s ->
  read_range_owned p file map authority zstd member proven online lease_status renew_lease map_page admit_out
    admit_buffer send encode env size_of_object size_of_digest size_of_scratch size_of_frame size_of_chunk
    size_of_range size_of_request offset length s = (r, s') ->
  caches_ok s' /\
  match r with
  | Ok b => b = slice content offset (offset + length)
  | Err (Failed _) => True
  | Err _ => False
  end.
Proof using HR.
  intros Ho Hl Hs Hr. pose proof (read_range_ok offset length Ho Hl s Hs) as Hc. by rewrite Hr in Hc.
Qed.
End Sound.

(** ** Opening *)

Section Open.
Context `{HexCrate} `{ChunkCodec} `{CodecScope}.

(** [open_file]: [reserve] admits the chunk table, [authority_ok] is the final
    [FileAuthority::validate]. *)
Definition open_file (file : SnapshotFile) (reserve renew : Res unit) (chunk_map : Res VerifiedChunkMap)
    (authority_ok : Res unit) : Res (VerifiedChunkMap * state) :=
  reject? negb (in_range (OBJECT_CAP + 1) (file_size file) MAX_FILE_SIZE)
    with SnapshotError_new LimitExceeded "owned chunk range requires a large file within 8 TiB" in
  let? _ := reserve in
  let? _ := renew in
  let? map := chunk_map in
  reject? negb (vm_file_size map =? file_size file) with invalid "chunk map differs from fixed file size" in
  let? _ := authority_ok in
  Ok (map, mkState leaf_new (Lru.new CACHED_CHUNKS) 0).

(** [OwnedChunkedFile::open]: [member] is the fixed-root member at [path]; the
    file that is opened is its entry, under the requested path. *)
Definition open (p : profile) (scope path digest : string) (size : Z) (member : Res SnapshotFile)
    (open_as : SnapshotFile -> Res (VerifiedChunkMap * state)) : Res (SnapshotFile * VerifiedChunkMap * state) :=
  let? _ := validate_relative_path scope path in
  let? _ := validate_file_size p size in
  reject? negb (in_range (OBJECT_CAP + 1) size MAX_FILE_SIZE)
    with SnapshotError_new LimitExceeded "owned chunk range requires a large file within 8 TiB" in
  let? file := member in
  reject? negb (String.eqb (file_digest file) digest) || negb (file_size file =? size)
    with invalid "range tuple differs from the fixed-root file" in
  let file := mkFile path (file_kind file) (file_size file) (file_digest file) in
  let? ' (map, s) := open_as file in
  Ok (file, map, s).

(** [open_proven], [open_online_path]: the retained authority vouches for the
    file before its map is requested. *)
Definition open_vouched (vouched : Res unit) (file : SnapshotFile)
    (open_as : SnapshotFile -> Res (VerifiedChunkMap * state)) : Res (SnapshotFile * VerifiedChunkMap * state) :=
  let? _ := vouched in
  let? ' (map, s) := open_as file in
  Ok (file, map, s).

(** [fully_cached]. *)
Definition fully_cached (map : VerifiedChunkMap) (s : state) : bool :=
  Z.of_nat (Lru.len (chunks s)) =? vm_chunk_count map.

(** A reader starts with empty tables and the map of a file of that size. *)
Lemma open_file_ok `{ChunkLengths} `{Sha256} file reserve renew chunk_map authority_ok content map s :
  open_file file reserve renew chunk_map authority_ok = Ok (map, s) ->
  caches_ok content s /\ vm_file_size map = file_size file /\ OBJECT_CAP < file_size file <= MAX_FILE_SIZE.
Proof.
  unfold open_file. intros Ho. inv_ok. bools. simplify_eq. split_and!; try lia.
  exists [], []. split_and!; [apply Lru.new_rep|apply Lru.new_rep|done|done].
Qed.
End Open.
End Range.
