(* ===== verification/UpperDiff.v ===== *)
(** * UpperDiff

    [src/snapshot/upper_diff.rs]: the bounded diff of a writable upper layer
    against the fixed snapshot's metadata, for OCI whiteouts and opaque
    directories. The facts collected from the upper directory, the outcome of
    the final verification and of the pause checks are arguments; the fixed
    lower layer is an interface ([Lower]) with the contract its namespace
    index gives ([LowerSpec]). *)

From S2P Require Import Prelude Types Profile Btree.
Import Scope.
Local Open Scope string_scope.
Local Open Scope list_scope.
Local Open Scope Z_scope.

Record DiffLimits : Type := mkLimits { max_nodes : Z; max_bytes : Z; max_depth : Z }.

Definition DiffLimits_default : DiffLimits :=
  {| max_nodes := 100000; max_bytes := 4 * 1024 * 1024 * 1024; max_depth := 256 |}.

Inductive UpperNodeIdentity : Type :=
  | UDirectory (mode uid gid : Z)
  | URegular (mode uid gid size : Z) (content_digest : string)
  | USymlink (mode uid gid size : Z) (content_digest : string).

Inductive UpperChangeKind : Type := Added | Modified | Deleted.

Record UpperChange : Type := mkChange {
  ch_rel_path : string; ch_kind : UpperChangeKind;
  ch_base : option SnapshotNodeIdentity; ch_upper : option UpperNodeIdentity;
}.

Record DiffMeters : Type := mkMeters {
  upper_nodes : Z; hash_bytes : Z; lower_queries : Z; lower_directory_entries : Z; xattr_checks : Z;
}.

Record Fingerprint : Type := mkFingerprint {
  fp_dev : Z; fp_ino : Z; fp_mode : Z; fp_size : Z; fp_nlink : Z; fp_uid : Z; fp_gid : Z;
  fp_mtime : Z * Z; fp_ctime : Z * Z;
}.

#[export] Instance fingerprint_eq_dec : EqDecision Fingerprint.
Proof. solve_decision. Defined.

(** [unix::Fact] and [unix::Scanned], less the host file descriptors. *)
Record Fact : Type := mkFact {
  fact_identity : UpperNodeIdentity; children : list string; fingerprint : Fingerprint;
}.
Record Scanned : Type := mkScanned { facts : gmap string Fact; scan_meters : DiffMeters }.

Record UpperDiff : Type := mkDiff { changes : list UpperChange; meters : DiffMeters }.

(** The fixed lower layer, as the diff queries it. *)
Class Lower : Type := {
  path_state : string -> Res SnapshotPathState;
  directory_entries : string -> Res (list SnapshotDirectoryEntry);
  validate_metadata_path : string -> Res unit;
}.

Module Diff.

Definition is_clean (d : UpperDiff) : bool := match changes d with [] => true | _ => false end.

Definition unknown (m : string) : SnapshotError := SnapshotError_new IntegrityError m.
Definition budget (m : string) : SnapshotError := SnapshotError_new ProofBudgetExceeded m.

(** Indexing a [BTreeMap] with a missing key panics. *)
Definition index_panic : SnapshotError := SnapshotError_new Internal "panic: no entry found for key".

(** [UpperNodeIdentity::matches] for the mount owner [(uid, gid)]. *)
Definition owner_of (u : UpperNodeIdentity) : Z * Z :=
  match u with
  | UDirectory _ uid gid | URegular _ uid gid _ _ | USymlink _ uid gid _ _ => (uid, gid)
  end.

Definition matches (owner : Z * Z) (u : UpperNodeIdentity) (base : SnapshotNodeIdentity) : bool :=
  if negb (fst (owner_of u) =? fst owner) || negb (snd (owner_of u) =? snd owner) then false
  else match u, base with
       | UDirectory m _ _, Directory _ => m =? mode base
       | URegular m _ _ size digest, (Regular _ _ | Executable _ _)
       | USymlink m _ _ size digest, Symlink _ _ =>
           (m =? mode base) && bool_decide (content base = Some (size, digest))
       | _, _ => false
       end.

(** [upper_diff::join]. *)
Definition join (parent name : string) : string :=
  if is_empty parent then name else (parent ++ "/" ++ name)%string.

Definition WH : string := ".wh.".
Definition OPAQUE : string := ".wh..wh..opq".

Definition hidden (name : string) : bool := starts_with WH name.
Definition is_dir (u : UpperNodeIdentity) : bool := match u with UDirectory _ _ _ => true | _ => false end.
Definition is_base_dir (b : option SnapshotNodeIdentity) : bool :=
  match b with Some (Directory _) => true | _ => false end.
Definition empty_regular (u : UpperNodeIdentity) : bool :=
  match u with URegular _ _ _ size _ => size =? 0 | _ => false end.

Definition add_query (m : DiffMeters) : DiffMeters :=
  {| upper_nodes := upper_nodes m; hash_bytes := hash_bytes m; lower_queries := lower_queries m + 1;
     lower_directory_entries := lower_directory_entries m; xattr_checks := xattr_checks m |}.
Definition set_entries (n : Z) (m : DiffMeters) : DiffMeters :=
  {| upper_nodes := upper_nodes m; hash_bytes := hash_bytes m; lower_queries := lower_queries m;
     lower_directory_entries := n; xattr_checks := xattr_checks m |}.

(** The loop state: the meters, the ordered changes, and the stack of
    directories [(path, inherited_opaque, lower_directory)], top first. *)
Definition Changes : Type := list (string * UpperChange).
Record State : Type := mkState {
  st_meters : DiffMeters; st_changes : Changes; st_pending : list (string * bool * bool);
}.

Definition deleted (path : string) (base : SnapshotNodeIdentity) : UpperChange :=
  mkChange path Deleted (Some base) None.
Definition upserted (path : string) (base : option SnapshotNodeIdentity) (u : UpperNodeIdentity) : UpperChange :=
  mkChange path (match base with Some _ => Modified | None => Added end) base (Some u).

(** The points where [scan_upper] asks the pause whether it is still certain. *)
Inductive Check : Type := AtStart | AfterDirectory (k : nat) | AtEnd.

Section Scan.
Context `{CodecScope} `{Lower} (owner : Z * Z) (limits : DiffLimits).

(** [upper_diff::base_at]. *)
Definition base_at (path : string) (parent_directory : bool) (m : DiffMeters)
    : Res (option SnapshotNodeIdentity * DiffMeters) :=
  let? _ := validate_metadata_path path in
  if negb parent_directory then Ok (None, m)
  else
    let? s := path_state path in
    Ok (match s with Present i => Some i | AbsentProven => None end, add_query m).

(** One name of a directory: the body of the inner [for]. *)
Definition scan_name (fs : gmap string Fact) (directory : string) (opaque lower_directory : bool)
    (visible : list string) (st : State) (name : string) : Res State :=
  let path := join directory name in
  let? fact := ok_or (fs !! path) index_panic in
  let node := fact_identity fact in
  match strip_prefix WH name with
  | Some target =>
      reject? negb (empty_regular node)
        with unknown "OCI whiteout/opaque marker must be an empty regular file" in
      if String.eqb name OPAQUE then Ok st
      else
        let? _ := validate_scope ("/" ++ target)%string in
        reject? is_empty target || one_of target visible
          with unknown "invalid or conflicting OCI whiteout target" in
        let target_path := join directory target in
        let? '(base, m) := base_at target_path lower_directory (st_meters st) in
        Ok {| st_meters := m;
              st_changes := match base with
                            | Some b => Btree.put (st_changes st) target_path (deleted target_path b)
                            | None => st_changes st
                            end;
              st_pending := st_pending st |}
  | None =>
      let? '(base, m) := base_at path lower_directory (st_meters st) in
      let same := match base with Some b => matches owner node b | None => false end in
      Ok {| st_meters := m;
            st_changes := if same then st_changes st else Btree.put (st_changes st) path (upserted path base node);
            st_pending := if is_dir node then (path, opaque, is_base_dir base) :: st_pending st
                          else st_pending st |}
  end.

(** One iteration of the [while let]: a directory popped from the stack. *)
Definition scan_directory (fs : gmap string Fact) (st : State) (directory : string)
    (inherited_opaque lower_directory : bool) : Res State :=
  let? fact := ok_or (fs !! directory) index_panic in
  let names := children fact in
  let opaque := inherited_opaque || one_of OPAQUE names in
  let visible := filter (fun n => hidden n = false) names in
  let? st := for_each (scan_name fs directory opaque lower_directory visible) st names in
  let? st :=
    if opaque && lower_directory then
      let m := add_query (st_meters st) in
      let? entries := directory_entries directory in
      let? total := ok_or (checked_add (lower_directory_entries m) (zlen entries))
                      (budget "lower entry meter overflow") in
      reject? max_nodes limits <? total with budget "opaque lower metadata entry budget exceeded" in
      Ok {| st_meters := set_entries total m;
            st_changes := fold_left (fun c e =>
              if one_of (entry_name e) visible then c
              else Btree.put c (join directory (entry_name e))
                     (deleted (join directory (entry_name e)) (entry_identity e)))
              entries (st_changes st);
            st_pending := st_pending st |}
    else Ok st in
  reject? max_nodes limits <? zlen (st_changes st) with budget "upper diff result budget exceeded" in
  Ok st.

(** The [while let] loop; [certain] answers each [ensure_certain]. [None] is
    running out of fuel. *)
Fixpoint drain (certain : Check -> result string unit) (fs : gmap string Fact) (fuel k : nat) (st : State)
    : option (Res State) :=
  match st_pending st with
  | [] => Some (Ok st)
  | (directory, opq, low) :: pending =>
      match fuel with
      | O => None
      | S fuel =>
          let st := {| st_meters := st_meters st; st_changes := st_changes st; st_pending := pending |} in
          match rbind (scan_directory fs st directory opq low)
                  (fun st => rbind (map_err unknown (certain (AfterDirectory k))) (fun _ => Ok st)) with
          | Ok st => drain certain fs fuel (S k) st
          | Err e => Some (Err e)
          end
      end
  end.

(** [upper_diff::scan_upper]: [collected] is the outcome of [unix::collect],
    [verified] that of [unix::verify]. The fuel is the number of upper nodes. *)
Definition scan_upper (certain : Check -> result string unit) (collected : Res Scanned) (verified : Res unit)
    : option (Res UpperDiff) :=
  let start : Res State :=
    let? _ := map_err unknown (certain AtStart) in
    reject? (max_nodes limits =? 0) || (256 <? max_depth limits)
      with SnapshotError_new InvalidRequest "invalid upper diff bounds" in
    let? scanned := collected in
    let m := add_query (scan_meters scanned) in
    let? s := path_state "" in
    let? root_base := match s with
                      | Present (Directory r) => Ok (Directory r)
                      | _ => Err (unknown "fixed lower scope root is not a proved directory")
                      end in
    let? root := ok_or (facts scanned !! "") index_panic in
    Ok {| st_meters := m;
          st_changes := if matches owner (fact_identity root) root_base then []
                        else Btree.put [] "" (mkChange "" Modified (Some root_base) (Some (fact_identity root)));
          st_pending := [("", false, true)] |} in
  match start, collected with
  | Ok st, Ok scanned =>
      match drain certain (facts scanned) (size (facts scanned)) 0 st with
      | None => None
      | Some (Err e) => Some (Err e)
      | Some (Ok st) => Some (
          let? _ := verified in
          let? _ := map_err unknown (certain AtEnd) in
          Ok {| changes := snd <$> st_changes st; meters := st_meters st |})
      end
  | Err e, _ | _, Err e => Some (Err e)
  end.
End Scan.

(** ** Paths *)

Definition name_ok (n : string) : Prop := n <> "" /\ Forall (fun b => b <> 47) (as_bytes n).

Lemma join_bytes p n : p <> "" -> as_bytes (join p n) = as_bytes p ++ 47 :: as_bytes n.
Proof.
  intros Hp. unfold join, is_empty. destruct (String.eqb_spec p ""); [done|]. by rewrite !as_bytes_app.
Qed.

Lemma join_nonempty p n : n <> "" -> join p n <> "".
Proof.
  intros Hn Hj. unfold join, is_empty in Hj. destruct (String.eqb_spec p ""); [done|].
  by destruct p.
Qed.

Lemma join_inj p n q m : name_ok n -> name_ok m -> join p n = join q m -> p = q /\ n = m.
Proof.
  intros [_ Hn] [_ Hm] Hj.
  assert (Hroot : forall r x y, Forall (fun b => b <> 47) (as_bytes x) -> r <> "" -> x <> join r y).
  { intros r x y Hx Hr ->. rewrite join_bytes in Hx by done. apply Forall_app in Hx as [_ Hx]. by inversion Hx. }
  destruct (decide (p = "")) as [->|Hp], (decide (q = "")) as [->|Hq].
  - done.
  - by apply Hroot in Hj.
  - symmetry in Hj. by apply Hroot in Hj.
  - apply (f_equal as_bytes) in Hj. rewrite !join_bytes in Hj by done.
    apply last_separator in Hj as [H1 H2]; [|done..]. split; by apply (inj as_bytes).
Qed.

(** A path from its components, below a directory. *)
Definition path_of (d : string) (ps : list string) : string := fold_left join ps d.

(** ** What the collected facts and the lower layer promise *)

(** [unix::collect] records every child it lists, once, under a file name. *)
Record facts_wf (fs : gmap string Fact) : Prop := {
  wf_root : exists f, fs !! "" = Some f /\ is_dir (fact_identity f) = true;
  wf_child : forall p f n, fs !! p = Some f -> n ∈ children f -> name_ok n /\ is_Some (fs !! join p n);
  wf_nodup : forall p f, fs !! p = Some f -> NoDup (children f);
}.

(** The fixed lower layer answers for one namespace [base]: path states and
    listings agree with it, and only a directory has entries. *)
Class LowerSpec `{Lower} (base : string -> option SnapshotNodeIdentity) : Prop := {
  spec_path : forall p s, path_state p = Ok s ->
    s = match base p with Some i => Present i | None => AbsentProven end;
  spec_entries : forall p es, directory_entries p = Ok es -> forall e,
    e ∈ es <-> name_ok (entry_name e) /\ base (join p (entry_name e)) = Some (entry_identity e);
  spec_parent : forall p n i, name_ok n -> base (join p n) = Some i -> is_base_dir (base p) = true;
}.

(** ** One directory *)

Lemma strip_WH name t : strip_prefix WH name = Some t <-> name = (WH ++ t)%string.
Proof. apply strip_prefix_some. Qed.

Lemma hidden_WH t : hidden (WH ++ t) = true.
Proof. unfold hidden, starts_with. by rewrite (proj2 (strip_WH _ t) eq_refl). Qed.

Lemma hidden_false name : hidden name = false <-> strip_prefix WH name = None.
Proof. unfold hidden, starts_with. by destruct (strip_prefix WH name). Qed.

Lemma WH_inj s t : (WH ++ s)%string = (WH ++ t)%string -> s = t.
Proof. by intros [= ?]. Qed.

Lemma target_ok t : name_ok (WH ++ t) -> t <> "" -> name_ok t.
Proof. intros [_ Hf] Ht. split; [done|]. rewrite as_bytes_app in Hf. by apply Forall_app in Hf as [_ ?]. Qed.

Section Directory.
Context `{CodecScope} `{Lower} (owner : Z * Z).
Context (base : string -> option SnapshotNodeIdentity) `{!LowerSpec base}.
Context (fs : gmap string Fact) (D : string) (ch : list string).

Definition vis : list string := filter (fun n => hidden n = false) ch.
Definition low : bool := is_base_dir (base D).

(** The change an upper node at [path] is, if it is one. *)
Definition node_change (path : string) : option UpperChange :=
  match fs !! path with
  | Some f => match base path with
              | Some b => if matches owner (fact_identity f) b then None
                          else Some (upserted path (Some b) (fact_identity f))
              | None => Some (upserted path None (fact_identity f))
              end
  | None => None
  end.

Definition deleted_at (path : string) : option UpperChange := deleted path <$> base path.

(** The change at the name [n] of the directory, given its upper names [ns]. *)
Definition names_change (ns : list string) (o : bool) (n : string) : option UpperChange :=
  if decide (n ∈ ns /\ hidden n = false) then node_change (join D n)
  else if bool_decide ((WH ++ n)%string ∈ ns /\ (WH ++ n)%string <> OPAQUE) || o then deleted_at (join D n)
  else None.

(** The subdirectories the names push, in order. *)
Definition subdir (o : bool) (n : string) : option (string * bool * bool) :=
  if hidden n then None
  else match fs !! join D n with
       | Some f => if is_dir (fact_identity f) then Some (join D n, o, is_base_dir (base (join D n))) else None
       | None => None
       end.

Lemma base_below_low n : name_ok n -> low = false -> base (join D n) = None.
Proof using LowerSpec0.
  unfold low. intros Hn Hl. destruct (base (join D n)) as [i|] eqn:Hb; [|done].
  by rewrite (spec_parent D n i Hn Hb) in Hl.
Qed.

Lemma base_at_ok n m b m' :
  name_ok n -> base_at (join D n) low m = Ok (b, m') -> b = base (join D n).
Proof using LowerSpec0.
  intros Hn Hb. unfold base_at in Hb. inv_ok. destruct low eqn:Hl; simpl in Hb.
  - inv_ok. match goal with Hp : path_state _ = Ok _ |- _ => apply spec_path in Hp as -> end.
    simplify_eq. by destruct (base (join D n)).
  - simplify_eq. by rewrite base_below_low.
Qed.

(** The effect of one name on the changes. *)
Lemma scan_name_ok o st name st' :
  name_ok name -> name ∈ ch -> scan_name owner fs D o low vis st name = Ok st' ->
  st_pending st' = option_list (subdir o name) ++ st_pending st /\
  (if hidden name then
    exists t, name = (WH ++ t)%string /\
      (if decide (name = OPAQUE) then st_changes st' = st_changes st
      else name_ok t /\ (t ∉ vis) /\
        forall k, Btree.get (st_changes st') k =
          if decide (k = join D t) then match deleted_at k with Some c => Some c | None => Btree.get (st_changes st) k end
          else Btree.get (st_changes st) k)
  else
    forall k, Btree.get (st_changes st') k =
      if decide (k = join D name) then match node_change k with Some c => Some c | None => Btree.get (st_changes st) k end
      else Btree.get (st_changes st) k).
Proof using All.
  intros Hok Hch Hs. unfold scan_name in Hs. apply rbind_ok in Hs as (f & Hf%ok_or_ok & Hs).
  destruct (strip_prefix WH name) as [t|] eqn:Hstrip.
  - assert (Hn := proj1 (strip_WH _ _) Hstrip). subst name. unfold subdir. rewrite hidden_WH.
    apply reject_ok in Hs as [_ Hs]. destruct (String.eqb_spec (WH ++ t) OPAQUE) as [E|E].
    { injection Hs as <-. split; [done|]. exists t. split; [done|]. by rewrite decide_True. }
    apply rbind_ok in Hs as (_ & _ & Hs). apply reject_ok in Hs as [Hg Hs]. apply rbind_ok in Hs as ([b m] & Hb & Hs).
    injection Hs as <-. simpl. split; [done|]. exists t. split; [done|]. rewrite decide_False by done.
    apply orb_false_iff in Hg as [Ht Hv]. unfold is_empty in Ht. apply String.eqb_neq in Ht.
    assert (Htok : name_ok t) by (by apply target_ok). apply base_at_ok in Hb as ->; [|done].
    split_and!; [done| |]. { intros Hin%one_of_true. congruence. }
    intros k. unfold deleted_at. destruct (decide (k = join D t)) as [->|Hk].
    + destruct (base (join D t)); simpl; [|done]. by rewrite Btree.get_put, decide_True.
    + destruct (base (join D t)); [|done]. by rewrite Btree.get_put, decide_False.
  - assert (Hh : hidden name = false) by (by apply hidden_false). rewrite Hh. unfold subdir. rewrite Hh, Hf.
    apply rbind_ok in Hs as ([b m] & Hb & Hs). apply base_at_ok in Hb as ->; [|done]. injection Hs as <-. simpl.
    split; [by destruct (is_dir (fact_identity f))|]. intros k. unfold node_change.
    destruct (decide (k = join D name)) as [->|Hk].
    + rewrite Hf. destruct (base (join D name)) as [i|]; [destruct (matches owner (fact_identity f) i); [done|]|];
        by rewrite Btree.get_put, decide_True.
    + destruct (base (join D name)) as [i|]; [destruct (matches owner (fact_identity f) i); [done|]|];
        by rewrite Btree.get_put, decide_False.
Qed.

Lemma names_change_ext ns ns' o n :
  (n ∈ ns /\ hidden n = false <-> n ∈ ns' /\ hidden n = false) ->
  ((WH ++ n)%string ∈ ns /\ (WH ++ n)%string <> OPAQUE <-> (WH ++ n)%string ∈ ns' /\ (WH ++ n)%string <> OPAQUE) ->
  names_change ns o n = names_change ns' o n.
Proof.
  intros H1 H2. unfold names_change. rewrite (bool_decide_ext _ _ H2).
  destruct (decide (n ∈ ns /\ hidden n = false)), (decide (n ∈ ns' /\ hidden n = false)); tauto || done.
Qed.

Lemma names_change_none ns n :
  ~ (n ∈ ns /\ hidden n = false) -> ~ ((WH ++ n)%string ∈ ns /\ (WH ++ n)%string <> OPAQUE) ->
  names_change ns false n = None.
Proof. intros H1 H2. unfold names_change. by rewrite decide_False, bool_decide_false. Qed.

(** The keys below the directory. *)
Definition below (k : string) : Prop := exists n, name_ok n /\ k = join D n.

(** The changes after the names [ns], started where the directory had none. *)
Record names_done (c : Changes) (ns : list string) (c' : Changes) : Prop := {
  nd_target : forall n, (WH ++ n)%string ∈ ns -> (WH ++ n)%string <> OPAQUE -> n ∉ vis;
  nd_outside : forall k, below k \/ Btree.get c' k = Btree.get c k;
  nd_inside : forall n, name_ok n -> Btree.get c' (join D n) = names_change ns false n;
}.

Lemma elem_of_snoc (n x : string) ns : n ∈ ns ++ [x] <-> n ∈ ns \/ n = x.
Proof. by rewrite elem_of_app, list_elem_of_singleton. Qed.

Lemma names_done_opaque c ns c' :
  names_done c ns c' -> names_done c (ns ++ [OPAQUE]) c'.
Proof.
  assert (Hop : hidden OPAQUE = true) by done.
  intros [HW HO HC]. split; [|done|].
  - intros n [?|?]%elem_of_snoc Hne; [by apply HW|done].
  - intros n Hn. rewrite HC by done. apply names_change_ext; rewrite elem_of_snoc.
    + split; [tauto|]. intros [[?| ->] ?]; [done|congruence].
    + split; [tauto|]. intros [[?|?] ?]; done.
Qed.

Lemma names_done_whiteout c ns c1 c2 t :
  (forall n, n ∈ ns -> n ∈ ch) -> (WH ++ t)%string ∉ ns -> (WH ++ t)%string <> OPAQUE ->
  name_ok t -> t ∉ vis -> names_done c ns c1 ->
  (forall k, Btree.get c2 k =
     if decide (k = join D t) then match deleted_at k with Some c => Some c | None => Btree.get c1 k end
     else Btree.get c1 k) ->
  names_done c (ns ++ [(WH ++ t)%string]) c2.
Proof.
  intros Hch Hxn E Ht Htv [HW HO HC] Heff. pose proof (hidden_WH t) as Hh.
  assert (Hself : t <> (WH ++ t)%string).
  { intros He%(f_equal (fun s => length (as_bytes s))). rewrite as_bytes_app, length_app in He. simpl in He. lia. }
  split.
  - intros n [Hin|Hin%WH_inj]%elem_of_snoc Hne; [by apply HW|congruence].
  - intros k. rewrite Heff. destruct (decide (k = join D t)) as [->|]; [left; by exists t|apply HO].
  - intros n Hn. rewrite Heff. destruct (decide (join D n = join D t)) as [Hj|Hj]; rewrite HC by done.
    + apply join_inj in Hj as [_ ->]; [|done..].
      assert (Hnv : ~ (t ∈ ns /\ hidden t = false)).
      { intros [Hin Hv]. apply Htv. apply list_elem_of_filter. auto. }
      rewrite names_change_none by (done || tauto).
      unfold names_change. rewrite decide_False by (rewrite elem_of_snoc; tauto).
      rewrite bool_decide_true by (rewrite elem_of_snoc; auto). cbn [orb]. by destruct (deleted_at _).
    + apply names_change_ext; rewrite elem_of_snoc.
      * split; [tauto|]. intros [[?| ->] ?]; [done|congruence].
      * split; [tauto|]. intros [[?| ->%WH_inj] ?]; done.
Qed.

Lemma names_done_visible c ns c1 c2 x :
  x ∉ ns -> x ∈ vis -> hidden x = false -> name_ok x -> names_done c ns c1 ->
  (forall k, Btree.get c2 k =
     if decide (k = join D x) then match node_change k with Some c => Some c | None => Btree.get c1 k end
     else Btree.get c1 k) ->
  names_done c (ns ++ [x]) c2.
Proof.
  intros Hxn Hxv Hh Hx [HW HO HC] Heff.
  assert (Hnx : forall n, (WH ++ n)%string <> x) by (intros n <-; by rewrite hidden_WH in Hh).
  split.
  - intros n [Hin|Hin]%elem_of_snoc Hne; [by apply HW|by apply Hnx in Hin].
  - intros k. rewrite Heff. destruct (decide (k = join D x)) as [->|]; [left; by exists x|apply HO].
  - intros n Hn. rewrite Heff. destruct (decide (join D n = join D x)) as [Hj|Hj]; rewrite HC by done.
    + apply join_inj in Hj as [_ ->]; [|done..].
      rewrite names_change_none by (tauto || (intros [Hin Hne]; by apply (HW _ Hin Hne))).
      unfold names_change. rewrite decide_True by (rewrite elem_of_snoc; auto). by destruct (node_change _).
    + apply names_change_ext; rewrite elem_of_snoc.
      * split; [tauto|]. intros [[?| ->] ?]; done.
      * split; [tauto|]. intros [[?|Hin] ?]; [done|]. by apply Hnx in Hin.
Qed.

(** The inner loop over a prefix [ns] of the names. *)
Lemma scan_names_ok o ns st st' :
  Forall name_ok ns -> (forall n, n ∈ ns -> n ∈ ch) -> NoDup ns ->
  (forall n, name_ok n -> Btree.get (st_changes st) (join D n) = None) ->
  for_each (scan_name owner fs D o low vis) st ns = Ok st' ->
  st_pending st' = reverse (omap (subdir o) ns) ++ st_pending st /\
  names_done (st_changes st) ns (st_changes st').
Proof using All.
  intros Hok Hch Hnd Hnone. revert st'. induction ns as [|x ns IH] using rev_ind; intros st' Hs.
  { simpl in Hs. injection Hs as <-. split; [done|]. split; [by intros n ?%elem_of_nil|by right|].
    intros n Hn. rewrite Hnone, names_change_none by (done || (intros [?%elem_of_nil _]; done)). done. }
  apply Forall_app in Hok as [Hok1 Hokx]. inversion Hokx as [|? ? Hx _]; subst.
  apply list.NoDup_app in Hnd as (Hnd & Hdis & _).
  assert (Hxn : x ∉ ns) by (intros Hin; apply (Hdis x Hin); by left).
  assert (Hxc : x ∈ ch) by (apply Hch, elem_of_snoc; by right).
  assert (Hch1 : forall n, n ∈ ns -> n ∈ ch) by (intros n Hn; apply Hch, elem_of_snoc; by left).
  rewrite for_each_app in Hs. apply rbind_ok in Hs as (s1 & Hs1 & Hs).
  destruct (IH Hok1 Hch1 Hnd s1 Hs1) as [HP HD]. apply rbind_ok in Hs as (s2 & Hs2 & [= <-]).
  apply scan_name_ok in Hs2 as [HP2 Heff]; [|done..]. split.
  { rewrite HP2, HP, omap_app, reverse_app, app_assoc. f_equal. simpl. by destruct (subdir o x). }
  destruct (hidden x) eqn:Hh.
  - destruct Heff as (t & -> & Heff). destruct (decide _) as [E|E].
    + rewrite E, Heff. by apply names_done_opaque.
    + destruct Heff as (Ht & Htv & Heff). by eapply names_done_whiteout.
  - eapply names_done_visible; eauto. by apply list_elem_of_filter.
Qed.

(** The opaque sweep over listed lower entries. *)
Definition sweep (c : Changes) (e : SnapshotDirectoryEntry) : Changes :=
  if one_of (entry_name e) vis then c
  else Btree.put c (join D (entry_name e)) (deleted (join D (entry_name e)) (entry_identity e)).

Lemma sweep_get es c k :
  (exists e, e ∈ es /\ (entry_name e ∉ vis) /\ k = join D (entry_name e) /\
     Btree.get (fold_left sweep es c) k = Some (deleted k (entry_identity e))) \/
  ((forall e, e ∈ es -> entry_name e ∉ vis -> k <> join D (entry_name e)) /\
     Btree.get (fold_left sweep es c) k = Btree.get c k).
Proof.
  revert c. induction es as [|e es IH]; intros c; simpl.
  { right. split; [by intros e ?%elem_of_nil|done]. }
  destruct (IH (sweep c e)) as [(e' & Hin & Hv & Hk & Hg)|[Hno Hg]].
  { left. exists e'. split_and!; try done. by right. }
  rewrite Hg. unfold sweep. destruct (one_of (entry_name e) vis) eqn:Hone.
  - apply one_of_true in Hone. right. split; [|done].
    intros e' [->|Hin]%elem_of_cons Hv; [done|by apply Hno].
  - assert (entry_name e ∉ vis) by (intros Hin%one_of_true; congruence).
    rewrite Btree.get_put. destruct (decide (k = join D (entry_name e))) as [->|Hk].
    + left. exists e. split_and!; try done. by left.
    + right. split; [|done]. intros e' [->|Hin]%elem_of_cons Hv; [done|by apply Hno].
Qed.

(** The changes at the names of a directory once its sweep is done. *)
Lemma sweep_change o es c n :
  directory_entries D = Ok es -> name_ok n ->
  Btree.get c (join D n) = names_change ch false n ->
  Btree.get (fold_left sweep es c) (join D n) = names_change ch (o || true) n.
Proof using LowerSpec0.
  intros Hes Hn Hc. rewrite orb_true_r.
  assert (Hin := spec_entries D es Hes).
  destruct (decide (n ∈ ch /\ hidden n = false)) as [Hv|Hv].
  - unfold names_change in *. rewrite decide_True in * by done. rewrite <- Hc.
    destruct (sweep_get es c (join D n)) as [(e & He & Hnv & Hj & _)|[_ ?]]; [|done].
    apply Hin in He as [Hok _]. apply join_inj in Hj as [_ ->]; [|done..].
    destruct Hnv. apply list_elem_of_filter. tauto.
  - unfold names_change. rewrite decide_False, orb_true_r by done.
    assert (Hnv : n ∉ vis) by (intros [? ?]%list_elem_of_filter; tauto).
    destruct (sweep_get es c (join D n)) as [(e & He & _ & Hj & ->)|[Hno ->]].
    + apply Hin in He as [Hok He]. apply join_inj in Hj as [_ ->]; [|done..]. unfold deleted_at. by rewrite He.
    + assert (Hb : base (join D n) = None).
      { destruct (base (join D n)) as [i|] eqn:Hb; [|done].
        destruct (Hno {| entry_name := n; entry_identity := i |}); [by apply Hin|done|done]. }
      unfold deleted_at. rewrite Hb. unfold names_change in Hc. rewrite decide_False in Hc by done.
      rewrite Hc. unfold deleted_at. rewrite Hb. by destruct (_ || _).
Qed.

Lemma scan_directory_ok limits inh f st st' :
  fs !! D = Some f -> children f = ch -> Forall name_ok ch -> NoDup ch ->
  (forall n, name_ok n -> Btree.get (st_changes st) (join D n) = None) ->
  scan_directory owner limits fs st D inh low = Ok st' ->
  st_pending st' = reverse (omap (subdir (inh || one_of OPAQUE ch)) ch) ++ st_pending st /\
  (forall k, below k \/ Btree.get (st_changes st') k = Btree.get (st_changes st) k) /\
  (forall n, name_ok n ->
     Btree.get (st_changes st') (join D n) = names_change ch (inh || one_of OPAQUE ch) n).
Proof using All.
  intros Hf Hc Hok Hnd Hnone Hs. unfold scan_directory in Hs. rewrite Hf in Hs. cbn [ok_or rbind] in Hs.
  rewrite Hc in Hs. change (filter _ ch) with vis in Hs. set (o := inh || one_of OPAQUE ch) in *.
  apply rbind_ok in Hs as (s1 & Hs1 & Hs).
  apply scan_names_ok in Hs1 as [HP [_ HO HC]]; [|done..].
  apply rbind_ok in Hs as (s2 & Hs2 & Hs). apply reject_ok in Hs as [_ [= <-]].
  destruct (o && low) eqn:Hol.
  - apply andb_true_iff in Hol as [Ho Hl]. inv_ok.
    match goal with Hx : directory_entries D = Ok ?es |- _ => rename Hx into Hes; rename es into entries end.
    assert (Hsw : st_changes s2 = fold_left sweep entries (st_changes s1)) by (by subst s2).
    split; [by subst s2|]. rewrite Hsw. assert (Hin := spec_entries D _ Hes). split.
    + intros k. destruct (sweep_get entries (st_changes s1) k) as [(e & He & _ & -> & _)|[_ ->]]; [|by apply HO].
      apply Hin in He as [Hn _]. left. by eexists.
    + intros n Hn. rewrite Ho. rewrite <- (orb_true_r true). apply sweep_change; auto.
  - injection Hs2 as <-. split_and!; [done..|]. intros n Hn. rewrite HC by done.
    apply andb_false_iff in Hol as [->|Hl]; [done|].
    unfold names_change. destruct (decide _); [done|]. unfold deleted_at. rewrite base_below_low by done. simpl.
    by destruct (_ || false), (_ || o).
Qed.

(** The paths the names push are theirs, each once. *)
Lemma subdir_some o n x : subdir o n = Some x ->
  x = (join D n, o, is_base_dir (base (join D n))) /\ hidden n = false /\
  exists f, fs !! join D n = Some f /\ is_dir (fact_identity f) = true.
Proof.
  unfold subdir. destruct (hidden n) eqn:Hh; [done|]. destruct (fs !! join D n) as [f|]; [|done].
  destruct (is_dir (fact_identity f)) eqn:Hd; [|done]. intros [= <-]. eauto.
Qed.

Lemma subdirs_nodup o ns :
  Forall name_ok ns -> NoDup ns -> NoDup (omap (subdir o) ns).*1.*1.
Proof.
  intros Hok Hnd. induction Hnd as [|n ns Hn Hnd IH]; [constructor|].
  inversion Hok as [|? ? Hn1 Hok1]; subst. simpl. destruct (subdir o n) as [x|] eqn:Hx; [|by apply IH].
  simpl. constructor; [|by apply IH]. apply subdir_some in Hx as (-> & _). simpl.
  intros ([y b] & Hy & ([[z b'] b''] & Hz & Hin)%list_elem_of_fmap)%list_elem_of_fmap. simplify_eq/=.
  apply list_elem_of_omap in Hin as (m & Hm & Hs). apply subdir_some in Hs as ([= Hj _ _] & _).
  rewrite Forall_forall in Hok1. apply join_inj in Hj as [_ <-]; [done..|]. by apply Hok1, list_elem_of_In.
Qed.
End Directory.

(** Every map the loop builds is ordered. *)
Section Ordered.
Context `{CodecScope} `{Lower} (owner : Z * Z) (limits : DiffLimits).

Lemma scan_directory_ordered fs st d inh l st' :
  Btree.ordered (st_changes st) -> scan_directory owner limits fs st d inh l = Ok st' ->
  Btree.ordered (st_changes st').
Proof.
  intros Ho Hs. unfold scan_directory in Hs. apply rbind_ok in Hs as (f & _ & Hs).
  apply rbind_ok in Hs as (s1 & Hs1 & Hs). apply rbind_ok in Hs as (s2 & Hs2 & Hs).
  apply reject_ok in Hs as [_ [= <-]].
  assert (Btree.ordered (st_changes s1)) as Ho1.
  { eapply (for_each_inv _ (fun st => Btree.ordered (st_changes st))); [|exact Ho|exact Hs1].
    clear Ho Hs1 Hs2 st. intros st n st' Ho _ Hn. unfold scan_name in Hn. apply rbind_ok in Hn as (g & _ & Hn).
    destruct (strip_prefix WH n).
    - apply reject_ok in Hn as [_ Hn]. destruct (String.eqb n OPAQUE); [by injection Hn as <-|].
      apply rbind_ok in Hn as (_ & _ & Hn). apply reject_ok in Hn as [_ Hn].
      apply rbind_ok in Hn as ([b m] & _ & [= <-]). simpl. destruct b; [by apply Btree.put_ordered|done].
    - apply rbind_ok in Hn as ([b m] & _ & [= <-]). simpl.
      destruct (match b with Some _ => _ | None => _ end); [done|by apply Btree.put_ordered]. }
  destruct (_ && l); [|by injection Hs2 as <-]. inv_ok. subst s2. simpl. revert Ho1. generalize (st_changes s1).
  clear. induction x as [|e es IH]; intros c Hc; simpl; [done|]. apply IH.
  destruct (one_of _ _); [done|by apply Btree.put_ordered].
Qed.
End Ordered.

(** What a scan reads is what it collected; what it reports is bounded. *)
Section Resources.
Context `{CodecScope} `{Lower} (owner : Z * Z) (limits : DiffLimits).

Definition same_reads (m m' : DiffMeters) : Prop := upper_nodes m' = upper_nodes m /\ hash_bytes m' = hash_bytes m.

Lemma base_at_reads path l m b m' : base_at path l m = Ok (b, m') -> same_reads m m'.
Proof.
  unfold base_at. intros Hb. apply rbind_ok in Hb as (_ & _ & Hb). destruct (negb l); [by injection Hb as _ <-|].
  apply rbind_ok in Hb as (s & _ & [= _ <-]). done.
Qed.

Lemma scan_name_reads fs d o l v st n st' :
  scan_name owner fs d o l v st n = Ok st' -> same_reads (st_meters st) (st_meters st').
Proof.
  unfold scan_name. intros Hn. apply rbind_ok in Hn as (f & _ & Hn). destruct (strip_prefix WH n).
  - apply reject_ok in Hn as [_ Hn]. destruct (String.eqb n OPAQUE); [by injection Hn as <-|].
    apply rbind_ok in Hn as (_ & _ & Hn). apply reject_ok in Hn as [_ Hn].
    apply rbind_ok in Hn as ([b m] & Hb%base_at_reads & [= <-]). done.
  - by apply rbind_ok in Hn as ([b m] & Hb%base_at_reads & [= <-]).
Qed.

Lemma scan_directory_bounded fs st d inh l st' :
  scan_directory owner limits fs st d inh l = Ok st' ->
  same_reads (st_meters st) (st_meters st') /\ zlen (st_changes st') <= max_nodes limits.
Proof.
  unfold scan_directory. intros Hs. apply rbind_ok in Hs as (f & _ & Hs). apply rbind_ok in Hs as (s1 & Hs1 & Hs).
  apply rbind_ok in Hs as (s2 & Hs2 & Hs). apply reject_ok in Hs as [Hz%Z.ltb_ge [= <-]]. split; [|done].
  assert (Hr1 : same_reads (st_meters st) (st_meters s1)).
  { eapply (for_each_inv _ (fun s => same_reads (st_meters st) (st_meters s))); [|done|exact Hs1].
    intros s n s' [Ha Hb] _ [Hc Hd]%scan_name_reads. split; congruence. }
  destruct (_ && l); [|by injection Hs2 as <-]. inv_ok. by subst s2.
Qed.

Lemma drain_bounded certain fs fuel k st st' :
  st_pending st <> [] -> drain owner limits certain fs fuel k st = Some (Ok st') ->
  same_reads (st_meters st) (st_meters st') /\ zlen (st_changes st') <= max_nodes limits.
Proof.
  revert k st. induction fuel as [|fuel IH]; intros k st Hne Hd; simpl in Hd;
    destruct (st_pending st) as [|[[D o] l] Q]; [done..|].
  destruct (scan_directory _ _ _ _ D o l) as [s1|e] eqn:Hs; simpl in Hd; [|done].
  destruct (map_err unknown (certain (AfterDirectory k))); simpl in Hd; [|done].
  apply scan_directory_bounded in Hs as [[Ha Hb] Hz]. simpl in *.
  destruct (st_pending s1) as [|x Q1] eqn:Hp.
  - destruct fuel; simpl in Hd; rewrite Hp in Hd; by injection Hd as <-.
  - apply IH in Hd as [[Hc He] Hz']; [|by rewrite Hp]. split; [split; congruence|done].
Qed.

Lemma scan_upper_bounded certain scanned verified d :
  scan_upper owner limits certain (Ok scanned) verified = Some (Ok d) ->
  same_reads (scan_meters scanned) (meters d) /\ zlen (changes d) <= max_nodes limits.
Proof.
  unfold scan_upper. destruct (rbind (map_err unknown (certain AtStart)) _) as [st|e] eqn:Hst; [|done].
  inv_ok. match goal with Hx : _ = st |- _ => rename Hx into Est end.
  destruct (drain _ _ _ _ _ _ st) as [[st'|e]|] eqn:Hd; [|done..]. intros [= Hd']. inv_ok. subst d. simpl.
  apply drain_bounded in Hd as [[Ha Hb] Hz]; [|by subst st]. unfold zlen in *. rewrite length_fmap.
  split; [|done]. subst st. simpl in *. by subst.
Qed.
End Resources.

(** ** The whole scan *)
Section Whole.
Context `{CodecScope} `{Lower} (owner : Z * Z) (limits : DiffLimits).
Context (base : string -> option SnapshotNodeIdentity) `{!LowerSpec base}.
Context (fs : gmap string Fact) (Hwf : facts_wf fs).

Definition opaque_in (o : bool) (f : Fact) : bool := o || one_of OPAQUE (children f).

(** The upper directories visible in the merged view, with whether an opaque
    ancestor hides the lower layer below them. *)
Inductive reach : string -> bool -> Prop :=
  | reach_root : reach "" false
  | reach_child D o f n x : reach D o -> fs !! D = Some f -> n ∈ children f ->
      subdir base fs D (opaque_in o f) n = Some x -> reach x.1.1 x.1.2.

Lemma reach_fact D o : reach D o -> exists f, fs !! D = Some f /\ is_dir (fact_identity f) = true.
Proof using Hwf.
  intros Hr. destruct Hr as [|D o f n x _ _ _ Hx]; [by apply wf_root|].
  apply subdir_some in Hx as (-> & _ & ?). done.
Qed.

(** The change the scan must record at the name [n] of the directory [D]. *)
Definition change_at (D : string) (o : bool) (f : Fact) (n : string) : option UpperChange :=
  names_change owner base fs D (children f) (opaque_in o f) n.

Definition pending_paths (st : State) : list string := (st_pending st).*1.*1.

Record inv (rootc : option UpperChange) (P : list (string * bool)) (st : State) : Prop := {
  inv_done : forall D o, (D, o) ∈ P -> reach D o;
  inv_pend : forall D o l, (D, o, l) ∈ st_pending st -> reach D o /\ l = is_base_dir (base D);
  inv_nodup : NoDup (P.*1 ++ pending_paths st);
  inv_parent : forall p, p ∈ P.*1 ++ pending_paths st ->
    p = "" \/ exists D n, D ∈ P.*1 /\ name_ok n /\ p = join D n;
  inv_root : ("", false) ∈ P \/ ("", false) ∈ (st_pending st).*1;
  inv_closed : forall D o f n x, (D, o) ∈ P -> fs !! D = Some f -> n ∈ children f ->
    subdir base fs D (opaque_in o f) n = Some x -> x.1 ∈ P \/ x.1 ∈ (st_pending st).*1;
  inv_change : forall D o f n, (D, o) ∈ P -> fs !! D = Some f -> name_ok n ->
    Btree.get (st_changes st) (join D n) = change_at D o f n;
  inv_keys : forall k c, Btree.get (st_changes st) k = Some c ->
    k = "" \/ exists D n, D ∈ P.*1 /\ name_ok n /\ k = join D n;
  inv_rootc : Btree.get (st_changes st) "" = rootc;
  inv_ordered : Btree.ordered (st_changes st);
}.

Lemma dir_names D f : fs !! D = Some f -> Forall name_ok (children f) /\ NoDup (children f).
Proof using Hwf.
  intros Hf. split; [|by eapply wf_nodup]. apply Forall_forall. intros n Hn%list_elem_of_In.
  by eapply wf_child.
Qed.

(** A path already seen is not below a directory not yet processed. *)
Lemma fresh_below rootc P st D o l Q n :
  inv rootc P st -> st_pending st = (D, o, l) :: Q -> name_ok n -> join D n ∉ P.*1 ++ pending_paths st.
Proof using Type.
  intros Hi Hp Hn Hin. apply (inv_parent _ _ _ Hi) in Hin as [Hr|(D' & m & HD & Hm & Hj)].
  - by destruct (join_nonempty D n (proj1 Hn)).
  - apply join_inj in Hj as [<- _]; [|done..]. pose proof (inv_nodup _ _ _ Hi) as Hnd.
    unfold pending_paths in Hnd. rewrite Hp in Hnd. apply list.NoDup_app in Hnd as (_ & Hd & _).
    apply (Hd D HD). by left.
Qed.

Lemma no_key_below rootc P st D o l Q n :
  inv rootc P st -> st_pending st = (D, o, l) :: Q -> name_ok n -> Btree.get (st_changes st) (join D n) = None.
Proof using Type.
  intros Hi Hp Hn. destruct (Btree.get _ _) as [c|] eqn:Hg; [|done].
  apply (inv_keys _ _ _ Hi) in Hg as [Hr|(D' & m & HD & Hm & Hj)].
  - by destruct (join_nonempty D n (proj1 Hn)).
  - apply join_inj in Hj as [<- _]; [|done..]. pose proof (inv_nodup _ _ _ Hi) as Hnd.
    unfold pending_paths in Hnd. rewrite Hp in Hnd. apply list.NoDup_app in Hnd as (_ & Hd & _).
    destruct (Hd D HD). by left.
Qed.

Lemma subdirs_in D o f x :
  fs !! D = Some f -> x ∈ omap (subdir base fs D (opaque_in o f)) (children f) ->
  exists n, n ∈ children f /\ name_ok n /\ subdir base fs D (opaque_in o f) n = Some x /\ x.1.1 = join D n.
Proof using Hwf.
  intros Hf (n & Hn & Hx)%list_elem_of_omap. exists n. split_and!; [done| |done|].
  - by eapply wf_child.
  - by apply subdir_some in Hx as (-> & _).
Qed.

(** One iteration: the directory [D] popped, its names scanned. *)
Section Step.
Context (rootc : option UpperChange) (P : list (string * bool)) (st st' : State).
Context (D : string) (o l : bool) (Q : list (string * bool * bool)) (f : Fact).
Context (Hi : inv rootc P st) (Hp : st_pending st = (D, o, l) :: Q) (Hf : fs !! D = Some f).

Let new := omap (subdir base fs D (opaque_in o f)) (children f).

Context (HP : st_pending st' = reverse new ++ Q).
Context (HO : forall k, below D k \/ Btree.get (st_changes st') k = Btree.get (st_changes st) k).
Context (HC : forall n, name_ok n -> Btree.get (st_changes st') (join D n) = change_at D o f n).

Lemma step_unseen : D ∉ P.*1.
Proof using Hi Hp.
  intros Hin. pose proof (inv_nodup _ _ _ Hi) as Hnd. unfold pending_paths in Hnd. rewrite Hp in Hnd.
  apply list.NoDup_app in Hnd as (_ & Hd & _). apply (Hd D Hin). by left.
Qed.

Lemma step_cases D' o' : (D', o') ∈ (D, o) :: P -> (D' = D /\ o' = o) \/ (D' <> D /\ (D', o') ∈ P).
Proof using Hi Hp.
  intros [[= -> ->]|Hin]%elem_of_cons; [by left|right]. split; [|done].
  intros ->. apply step_unseen. apply list_elem_of_fmap. by exists (D, o').
Qed.

Lemma step_pending y : y ∈ (st_pending st').*1 <-> y ∈ new.*1 \/ y ∈ Q.*1.
Proof using HP. by rewrite HP, fmap_app, elem_of_app, fmap_reverse, elem_of_reverse. Qed.

Lemma step_new p : p ∈ new.*1.*1 -> exists n, name_ok n /\ p = join D n.
Proof using Hf Hwf.
  intros ([q b] & -> & (x & Hx & Hin)%list_elem_of_fmap)%list_elem_of_fmap.
  destruct (subdirs_in D o f _ Hf Hin) as (n & _ & Hn & _ & Hj). exists n. split; [done|]. by rewrite <- Hj, <- Hx.
Qed.

Lemma step_seen p : p ∈ ((D, o) :: P).*1 ++ pending_paths st' ->
  p ∈ new.*1.*1 \/ p ∈ P.*1 ++ pending_paths st.
Proof using HP Hp.
  unfold pending_paths. rewrite HP, Hp, !fmap_app, !fmap_reverse, fmap_cons, !elem_of_app, elem_of_reverse,
    !elem_of_cons, fmap_cons. simpl. rewrite elem_of_cons. tauto.
Qed.

Lemma step_nodup : NoDup (((D, o) :: P).*1 ++ pending_paths st').
Proof using Hi Hp Hf HP Hwf.
  pose proof (inv_nodup _ _ _ Hi) as Hnd. destruct (dir_names D f Hf) as [Hok Hndc].
  assert (Hperm : ((D, o) :: P).*1 ++ pending_paths st' ≡ₚ new.*1.*1 ++ (P.*1 ++ pending_paths st)).
  { unfold pending_paths. rewrite HP, Hp, !fmap_app, !fmap_reverse, reverse_Permutation. simpl. solve_Permutation. }
  rewrite Hperm. apply list.NoDup_app. split_and!; [by apply subdirs_nodup| |done].
  intros p (n & Hn & ->)%step_new. by eapply fresh_below.
Qed.

Lemma step_change D' o' g n :
  (D', o') ∈ (D, o) :: P -> fs !! D' = Some g -> name_ok n ->
  Btree.get (st_changes st') (join D' n) = change_at D' o' g n.
Proof using Hi Hp Hf HO HC.
  intros [[-> ->]|[Hne Hin]]%step_cases Hg Hn; [simplify_eq; auto|].
  destruct (HO (join D' n)) as [(m & Hm & Hj)|Heq].
  - by apply join_inj in Hj as [? _].
  - rewrite Heq. by eapply inv_change.
Qed.

Lemma step_keys k c : Btree.get (st_changes st') k = Some c ->
  k = "" \/ exists D' n, D' ∈ ((D, o) :: P).*1 /\ name_ok n /\ k = join D' n.
Proof using Hi HO.
  intros Hk. destruct (HO k) as [(n & Hn & ->)|Heq]; [right; exists D, n; split_and!; [by left|done..]|].
  rewrite Heq in Hk. apply (inv_keys _ _ _ Hi) in Hk as [?|(D' & n & ? & ? & ?)]; [by left|right].
  exists D', n. split_and!; [by right|done..].
Qed.

Lemma step_closed D' o' g n x :
  (D', o') ∈ (D, o) :: P -> fs !! D' = Some g -> n ∈ children g ->
  subdir base fs D' (opaque_in o' g) n = Some x -> x.1 ∈ (D, o) :: P \/ x.1 ∈ (st_pending st').*1.
Proof using Hi Hp Hf HP.
  rewrite step_pending. intros [[-> ->]|[Hne Hin]]%step_cases Hg Hn Hx.
  - simplify_eq. right. left. apply list_elem_of_fmap. exists x. split; [done|]. apply list_elem_of_omap. eauto.
  - destruct (inv_closed _ _ _ Hi _ _ _ _ _ Hin Hg Hn Hx) as [?|Hq]; [left; by right|].
    rewrite Hp in Hq. apply elem_of_cons in Hq as [Hq|Hq]; [left; rewrite Hq; by left|auto].
Qed.

Lemma step_keeps_inv : reach D o -> Btree.ordered (st_changes st') -> inv rootc ((D, o) :: P) st'.
Proof using Hi Hp Hf HP HO HC Hwf.
  intros HrD Hord. split; eauto using step_nodup, step_change, step_keys, step_closed.
  - intros D' o' [[-> ->]|[_ ?]]%step_cases; [done|by eapply inv_done].
  - intros D' o' l'. rewrite HP, elem_of_app, elem_of_reverse. intros [Hx|Hx].
    + destruct (subdirs_in D o f _ Hf Hx) as (n & Hn & _ & Hx' & Hj). simpl in Hj. subst D'.
      pose proof (reach_child _ _ _ _ _ HrD Hf Hn Hx') as Hr. simpl in Hr.
      apply subdir_some in Hx' as ([= _ <-] & _). done.
    + apply (inv_pend _ _ _ Hi). rewrite Hp. by right.
  - intros p [Hnew|Hold]%step_seen.
    { apply step_new in Hnew as (n & Hn & ->). right. exists D, n. split_and!; [by left|done..]. }
    apply (inv_parent _ _ _ Hi) in Hold as [?|(D' & n & ? & ? & ?)]; [by left|right].
    exists D', n. split_and!; [by right|done..].
  - rewrite step_pending. destruct (inv_root _ _ _ Hi) as [?|Hr]; [left; by right|].
    rewrite Hp in Hr. apply elem_of_cons in Hr as [Hr|Hr]; [left; rewrite Hr; by left|auto].
  - destruct (HO "") as [(n & [Hn _] & Hj)| ->]; [|by eapply inv_rootc].
    symmetry in Hj. by apply join_nonempty in Hj.
Qed.
End Step.

Lemma inv_step rootc P st D o l Q st' :
  inv rootc P st -> st_pending st = (D, o, l) :: Q ->
  scan_directory owner limits fs {| st_meters := st_meters st; st_changes := st_changes st; st_pending := Q |}
    D o l = Ok st' ->
  inv rootc ((D, o) :: P) st'.
Proof using Hwf LowerSpec0.
  intros Hi Hp Hs. destruct (inv_pend _ _ _ Hi D o l) as [HrD ->]; [rewrite Hp; by left|].
  destruct (reach_fact D o HrD) as (f & Hf & _). destruct (dir_names D f Hf) as [Hok Hndc].
  assert (Hord : Btree.ordered (st_changes st'))
    by (eapply scan_directory_ordered; [|exact Hs]; exact (inv_ordered _ _ _ Hi)).
  apply (scan_directory_ok owner base fs D (children f) limits o f) in Hs as (HP & HO & HC); [|done..|].
  - by eapply step_keeps_inv.
  - intros n Hn. exact (no_key_below _ _ _ _ _ _ _ n Hi Hp Hn).
Qed.

(** The directories seen are upper nodes, each once: the number of upper nodes
    bounds the iterations. *)
Lemma seen_bound rootc P st : inv rootc P st -> (length P + length (st_pending st) <= size fs)%nat.
Proof using Hwf.
  intros Hi. pose proof (inv_nodup _ _ _ Hi) as Hnd.
  assert (Hsub : list_to_set (P.*1 ++ pending_paths st) ⊆ dom fs).
  { intros p Hp%elem_of_list_to_set. apply elem_of_dom.
    assert (exists o, reach p o) as [o Hr].
    { apply elem_of_app in Hp as [([q o] & -> & Hin)%list_elem_of_fmap|Hp].
      - exists o. by eapply inv_done.
      - apply list_elem_of_fmap in Hp as ([q o] & -> & ([[q' o'] l] & [= -> ->] & Hin)%list_elem_of_fmap).
        exists o'. by eapply inv_pend. }
    destruct (reach_fact _ _ Hr) as (f & -> & _). by eexists. }
  apply subseteq_size in Hsub. rewrite size_list_to_set, length_app, size_dom in Hsub by done.
  unfold pending_paths in Hsub. by rewrite !length_fmap in Hsub.
Qed.

Lemma drain_ok certain rootc fuel k P st :
  inv rootc P st -> (size fs <= fuel + length P)%nat ->
  match drain owner limits certain fs fuel k st with
  | None => False
  | Some (Err _) => True
  | Some (Ok st') => st_pending st' = [] /\ exists P', inv rootc P' st'
  end.
Proof using Hwf LowerSpec0.
  revert k P st. induction fuel as [|fuel IH]; intros k P st Hi Hfuel; simpl;
    destruct (st_pending st) as [|[[D o] l] Q] eqn:Hp; eauto.
  { pose proof (seen_bound _ _ _ Hi) as Hb. rewrite Hp in Hb. simpl in Hb. lia. }
  destruct (scan_directory _ _ _ _ D o l) as [s1|e] eqn:Hs; simpl; [|done].
  destruct (map_err unknown (certain (AfterDirectory k))) as [?|e]; simpl; [|done].
  apply (IH _ ((D, o) :: P)); [by eapply inv_step|]. simpl. lia.
Qed.

(** When the stack is empty every visible upper directory has been processed. *)
Lemma drained rootc P st D o :
  inv rootc P st -> st_pending st = [] -> reach D o -> (D, o) ∈ P.
Proof using Type.
  intros Hi Hp Hr. induction Hr as [|D o f n x Hr IH Hf Hn Hx].
  - destruct (inv_root _ _ _ Hi) as [?|Hq]; [done|]. rewrite Hp in Hq. by apply elem_of_nil in Hq.
  - destruct (inv_closed _ _ _ Hi _ _ _ _ _ IH Hf Hn Hx) as [?|Hq]; [by destruct x as [[? ?] ?]|].
    rewrite Hp in Hq. by apply elem_of_nil in Hq.
Qed.

(** ** The merged view *)

(** What a path shows when the upper layer is mounted over the fixed one: an
    upper node, the lower layer unchanged, or nothing. *)
Inductive View : Type := VUpper (u : UpperNodeIdentity) | VLower | VAbsent.

Fixpoint effective (D : string) (o : bool) (ps : list string) : View :=
  match fs !! D with
  | None => VAbsent
  | Some f =>
      match ps with
      | [] => VUpper (fact_identity f)
      | n :: ps =>
          if negb (is_dir (fact_identity f)) then VAbsent
          else if bool_decide (n ∈ children f /\ hidden n = false) then effective (join D n) (opaque_in o f) ps
          else if bool_decide ((WH ++ n)%string ∈ children f /\ (WH ++ n)%string <> OPAQUE) || opaque_in o f
          then VAbsent
          else VLower
      end
  end.

Definition upper_of (v : View) : option UpperNodeIdentity := match v with VUpper u => Some u | _ => None end.

(** The merged view shows at a path what the fixed snapshot has there. *)
Definition agrees (v : View) (b : option SnapshotNodeIdentity) : Prop :=
  match v with
  | VUpper u => exists i, b = Some i /\ matches owner u i = true
  | VLower => True
  | VAbsent => b = None
  end.

Definition kind_of (b : option SnapshotNodeIdentity) (u : option UpperNodeIdentity) : UpperChangeKind :=
  match u, b with None, _ => Deleted | Some _, Some _ => Modified | Some _, None => Added end.

Lemma base_none_below D ps : Forall name_ok ps -> is_base_dir (base D) = false -> ps <> [] ->
  base (path_of D ps) = None.
Proof using LowerSpec0.
  revert D. induction ps as [|n ps IH]; intros D Hok Hd Hne; [done|]. inversion Hok as [|? ? Hn Hok1]; subst.
  assert (Hb : base (join D n) = None).
  { destruct (base (join D n)) as [i|] eqn:Hb; [|done]. by rewrite (spec_parent D n i Hn Hb) in Hd. }
  destruct ps as [|m ps]; [done|]. apply (IH (join D n)); [done|by rewrite Hb|done].
Qed.

Lemma matches_not_dir u b : matches owner u b = true -> is_dir u = false -> is_base_dir (Some b) = false.
Proof. unfold matches. destruct (_ || _); [done|]. by destruct u, b. Qed.

(** The change recorded at a name is the difference between the merged view
    and the fixed snapshot there. *)
Lemma change_at_view D o f n :
  reach D o -> fs !! D = Some f -> name_ok n ->
  let v := effective D o [n] in let b := base (join D n) in
  match change_at D o f n with
  | None => agrees v b
  | Some c => ~ agrees v b /\ c = mkChange (join D n) (kind_of b (upper_of v)) b (upper_of v)
  end.
Proof using Hwf.
  intros Hr Hf Hn. destruct (reach_fact D o Hr) as (f' & Hf' & Hd). simplify_eq. cbn [effective]. rewrite Hf, Hd.
  unfold change_at, names_change. cbn [negb]. destruct (decide (n ∈ children f /\ hidden n = false)) as [Hv|Hv].
  - rewrite bool_decide_true by done. destruct (wf_child fs Hwf D f n Hf (proj1 Hv)) as [_ [g Hg]].
    unfold node_change. rewrite Hg. destruct (base (join D n)) as [i|]; [destruct (matches _ _ i) eqn:Hm|].
    + by exists i.
    + split; [|done]. intros (j & [= <-] & Hj). congruence.
    + split; [|done]. by intros (j & ? & _).
  - rewrite (bool_decide_false (n ∈ children f /\ hidden n = false)) by done. destruct (_ || _); [|done]. unfold deleted_at.
    destruct (base (join D n)) as [i|]; simpl; [split; [by intros ?|done]|done].
Qed.

(** A visible upper directory is reached by its components. *)
Lemma reach_path D o : reach D o -> exists ps, Forall name_ok ps /\ D = path_of "" ps /\
  forall qs, effective "" false (ps ++ qs) = effective D o qs.
Proof using Hwf.
  intros Hr. induction Hr as [|D o f n x Hr IH Hf Hn Hx]; [by exists []|].
  destruct IH as (ps & Hok & -> & Heff). destruct (reach_fact _ _ Hr) as (f' & Hf' & Hd). simplify_eq.
  apply subdir_some in Hx as (-> & Hh & _). simpl.
  exists (ps ++ [n]). split_and!.
  - apply Forall_app. split; [done|]. constructor; [|done]. by eapply wf_child.
  - unfold path_of. by rewrite fold_left_app.
  - intros qs. rewrite <- app_assoc. rewrite Heff. cbn [effective app]. rewrite Hf, Hd. simpl.
    by rewrite bool_decide_true.
Qed.

Section Result.
Context (rootc : option UpperChange) (P : list (string * bool)) (st : State).
Context (Hi : inv rootc P st) (Hempty : st_pending st = []).

Lemma recorded D o f n : reach D o -> fs !! D = Some f -> name_ok n ->
  Btree.get (st_changes st) (join D n) = change_at D o f n.
Proof using Hi Hempty. intros Hr Hf Hn. eapply inv_change; eauto. by eapply drained. Qed.

(** Completeness below a visible upper directory: the merged view agrees with
    the snapshot at a path, or a change is recorded there or above. *)
Lemma covered D o ps : reach D o -> Forall name_ok ps -> ps <> [] ->
  agrees (effective D o ps) (base (path_of D ps)) \/
  exists qs, qs `prefix_of` ps /\ qs <> [] /\ is_Some (Btree.get (st_changes st) (path_of D qs)).
Proof using Hi Hempty Hwf LowerSpec0.
  revert D o. induction ps as [|n ps IH]; intros D o Hr Hok Hne; [done|].
  inversion Hok as [|? ? Hn Hok1]; subst. destruct (reach_fact D o Hr) as (f & Hf & Hd).
  pose proof (change_at_view D o f n Hr Hf Hn) as Hcv. pose proof (recorded D o f n Hr Hf Hn) as Hrec.
  destruct (change_at D o f n) as [c|].
  { right. exists [n]. split_and!; [by apply prefix_cons, prefix_nil|done|]. simpl. rewrite Hrec. by eexists. }
  destruct ps as [|m ps]; [by left|]. cbn [effective] in Hcv |- *. rewrite Hf, Hd in *. cbn [negb] in *.
  destruct (bool_decide (n ∈ children f /\ hidden n = false)) eqn:Hv.
  - apply bool_decide_eq_true in Hv as [Hv1 Hv2]. destruct (wf_child fs Hwf D f n Hf Hv1) as [_ [g Hg]].
    rewrite Hg in Hcv. destruct Hcv as (i & Hbi & Hm).
    destruct (is_dir (fact_identity g)) eqn:Hgd.
    + assert (Hr' : reach (join D n) (opaque_in o f)).
      { eapply (reach_child _ _ _ n (join D n, opaque_in o f, _) Hr Hf Hv1). unfold subdir. by rewrite Hv2, Hg, Hgd. }
      destruct (IH _ _ Hr' Hok1 ltac:(done)) as [?|(qs & Hq & _ & Hs)]; [by left|right].
      exists (n :: qs). split_and!; [by apply prefix_cons|done|done].
    + left. cbn [effective]. rewrite Hg, Hgd. apply (base_none_below (join D n) (m :: ps)); [done| |done].
      rewrite Hbi. by eapply matches_not_dir.
  - destruct (_ || _); [|by left]. left. apply (base_none_below (join D n) (m :: ps)); [done| |done]. simpl in Hcv. by rewrite Hcv.
Qed.

(** Soundness: a recorded change is the root's, or a difference at a path. *)
Lemma sound k c : Btree.get (st_changes st) k = Some c ->
  (k = "" /\ rootc = Some c) \/
  exists ps, Forall name_ok ps /\ ps <> [] /\ k = path_of "" ps /\
    let v := effective "" false ps in let b := base k in
    ~ agrees v b /\ c = mkChange k (kind_of b (upper_of v)) b (upper_of v).
Proof using Hi Hwf.
  intros Hk. destruct (inv_keys _ _ _ Hi _ _ Hk) as [->|(D & n & HD & Hn & ->)].
  { left. split; [done|]. by rewrite <- (inv_rootc _ _ _ Hi). }
  right. apply list_elem_of_fmap in HD as ([D' o] & -> & Hin). simpl in *.
  pose proof (inv_done _ _ _ Hi _ _ Hin) as Hr. destruct (reach_fact _ _ Hr) as (f & Hf & _).
  destruct (reach_path _ _ Hr) as (ps & Hok & Hps & Heff). exists (ps ++ [n]).
  pose proof (change_at_view _ _ _ _ Hr Hf Hn) as Hcv.
  rewrite (inv_change _ _ _ Hi _ _ _ _ Hin Hf Hn) in Hk. rewrite Hk in Hcv. split_and!.
  - apply Forall_app. split; [done|]. constructor; [done|constructor].
  - by destruct ps.
  - unfold path_of in *. rewrite fold_left_app. simpl. by rewrite <- Hps.
  - simpl. rewrite Heff. apply Hcv.
  - simpl. rewrite Heff. apply Hcv.
Qed.
End Result.

(** The change at the scope root. *)
Definition root_change (root : Fact) (b : SnapshotNodeIdentity) : option UpperChange :=
  if matches owner (fact_identity root) b then None
  else Some (mkChange "" Modified (Some b) (Some (fact_identity root))).

Lemma inv_start m root b :
  is_base_dir (base "") = true -> fs !! "" = Some root ->
  inv (root_change root b) []
    {| st_meters := m;
       st_changes := if matches owner (fact_identity root) b then []
                     else Btree.put [] "" (mkChange "" Modified (Some b) (Some (fact_identity root)));
       st_pending := [("", false, true)] |}.
Proof using Type.
  intros Hb Hroot. split; simpl; try by intros * ?%elem_of_nil.
  - intros D o l [= -> -> ->]%list_elem_of_singleton. split; [constructor|congruence].
  - repeat constructor. by intros ?%elem_of_nil.
  - intros p ->%list_elem_of_singleton. by left.
  - right. by left.
  - intros k c. destruct (matches _ _ _); simpl; [done|]. destruct (String.eqb_spec k ""); [by left|done].
  - unfold root_change. by destruct (matches _ _ _).
  - unfold Btree.ordered. destruct (matches _ _ _); simpl; repeat constructor.
Qed.

Lemma scan_upper_cases certain scanned verified :
  facts scanned = fs ->
  match scan_upper owner limits certain (Ok scanned) verified with
  | None => False
  | Some (Err _) => True
  | Some (Ok d) => exists root r P st, fs !! "" = Some root /\ base "" = Some (Directory r) /\
      inv (root_change root (Directory r)) P st /\ st_pending st = [] /\ changes d = snd <$> st_changes st
  end.
Proof using Hwf LowerSpec0.
  intros Hfs. destruct (wf_root fs Hwf) as (root & Hroot & _). unfold scan_upper.
  destruct (map_err unknown (certain AtStart)); cbn [rbind]; [|done].
  destruct ((max_nodes limits =? 0) || _); [done|].
  destruct (path_state "") as [s|e] eqn:Hs; cbn [rbind]; [|done]. apply spec_path in Hs.
  destruct s as [[r| | | ]|]; cbn [rbind]; try done. rewrite Hfs, Hroot. cbn [rbind ok_or].
  assert (Hbase : base "" = Some (Directory r)) by (by destruct (base ""); simplify_eq).
  match goal with |- context [drain _ _ _ _ _ _ ?st0] => set (st := st0) end.
  assert (Hi : inv (root_change root (Directory r)) [] st) by (apply inv_start; [by rewrite Hbase|done]).
  pose proof (drain_ok certain _ (size fs) 0 [] st Hi ltac:(simpl; lia)) as Hd.
  destruct (drain _ _ _ _ _ _ st) as [[s'|e]|]; [|done..]. destruct Hd as [Hp [P HP]].
  destruct verified; simpl; [|done]. destruct (map_err unknown (certain AtEnd)); simpl; [|done]. eauto 10.
Qed.

(** The changes of a diff are exactly the recorded ones. *)
Lemma in_changes d st P rootc c :
  inv rootc P st -> changes d = snd <$> st_changes st ->
  c ∈ changes d <-> exists k, Btree.get (st_changes st) k = Some c.
Proof using Type.
  intros Hi ->. rewrite list_elem_of_fmap. setoid_rewrite (Btree.get_elem _ _ _ (inv_ordered _ _ _ Hi)).
  split; [intros ([k c'] & -> & Hin); by exists k|]. intros [k Hin]. by exists (k, c).
Qed.

Lemma root_change_view root r :
  fs !! "" = Some root -> base "" = Some (Directory r) ->
  match root_change root (Directory r) with
  | None => agrees (effective "" false []) (base "")
  | Some c => c = mkChange "" Modified (base "") (Some (fact_identity root)) /\
              ~ agrees (effective "" false []) (base "")
  end.
Proof using Type.
  intros Hroot Hbase. unfold root_change. simpl. rewrite Hroot, Hbase.
  destruct (matches _ _ _) eqn:Hm; [by eexists|]. split; [done|]. intros (i & [= <-] & ?). congruence.
Qed.

Lemma diff_sound root r P st d c :
  fs !! "" = Some root -> base "" = Some (Directory r) ->
  inv (root_change root (Directory r)) P st -> changes d = snd <$> st_changes st -> c ∈ changes d ->
  exists ps, Forall name_ok ps /\
    let path := path_of "" ps in let v := effective "" false ps in
    c = mkChange path (kind_of (base path) (upper_of v)) (base path) (upper_of v) /\ ~ agrees v (base path).
Proof using Hwf.
  intros Hroot Hbase Hi Hch [k Hk]%(in_changes d st P _ c Hi Hch).
  destruct (sound _ _ _ Hi _ _ Hk) as [[-> Hrootc]|(ps & Hok & _ & -> & Hag & Hcv)]; [|by exists ps].
  pose proof (root_change_view root r Hroot Hbase) as Hrc. rewrite Hrootc in Hrc. destruct Hrc as [-> Hag].
  exists []. split; [done|]. split; [|done]. simpl. by rewrite Hroot, Hbase.
Qed.

Lemma diff_complete root r P st d ps :
  fs !! "" = Some root -> base "" = Some (Directory r) ->
  inv (root_change root (Directory r)) P st -> st_pending st = [] ->
  changes d = snd <$> st_changes st -> Forall name_ok ps ->
  agrees (effective "" false ps) (base (path_of "" ps)) \/
  exists c qs, c ∈ changes d /\ qs `prefix_of` ps /\ ch_rel_path c = path_of "" qs.
Proof using Hwf LowerSpec0.
  intros Hroot Hbase Hi Hp Hch Hok. pose proof (root_change_view root r Hroot Hbase) as Hrc.
  destruct (decide (ps = [])) as [->|Hne].
  - destruct (root_change root (Directory r)) as [c|] eqn:Hx; [right|by left].
    exists c, []. split_and!; [apply (in_changes d st P _ c Hi Hch); exists ""; by eapply inv_rootc|done|].
    by destruct Hrc as [-> _].
  - destruct (covered _ _ _ Hi Hp "" false ps reach_root Hok Hne) as [?|(qs & Hq & Hqne & [c Hc])]; [by left|right].
    exists c, qs. split_and!; [apply (in_changes d st P _ c Hi Hch); by eexists|done|].
    destruct (sound _ _ _ Hi _ _ Hc) as [[E Hrootc]|(ps' & _ & _ & _ & _ & ->)]; [|done].
    rewrite Hrootc in Hrc. destruct Hrc as [-> _]. by rewrite E.
Qed.

End Whole.
End Diff.
