(* ===== verification/UpperScan.v ===== *)
(** * UpperScan

    The [unix] half of [src/snapshot/upper_diff.rs]: collecting the facts of
    the upper directory from the host, and verifying them again before the diff
    is returned. The host is an interface ([Host]) whose answers may differ at
    every call: each query carries the value of a logical clock. Linux is
    modelled ([no_symlink_xattrs] through [llistxattr]). *)

From Stdlib Require Import Sorted.
From stdpp Require Import sorting.
From S2P Require Import Prelude Types Text Profile Btree UpperDiff.
Import Digests Scope Diff.
Local Open Scope string_scope.
Local Open Scope list_scope.
Local Open Scope Z_scope.

(** The operating system, as the scan queries it about a path below the anchored
    root; errors are [io::Error] texts. A directory stream yields its names
    ([None] one that is not UTF-8) and then ends or fails. *)
Class Host : Type := {
  host_open_root : nat -> Res unit;
  host_open : nat -> string -> result string unit;
  host_stat_fd : nat -> string -> result string Fingerprint;
  host_stat_at : nat -> string -> result string Fingerprint;
  host_readdir : nat -> string -> list (option string) * option string;
  host_xattrs : nat -> string -> Z;
  host_errno : nat -> string;
  host_read : nat -> string -> result string (list Z);
  host_readlink : nat -> string -> result string (list Z);
  (** POSIX: a directory entry is a nonempty name without a slash. *)
  host_names : forall k d n, Some n ∈ fst (host_readdir k d) -> name_ok n;
}.

Module Upper.

Definition S_IFMT : Z := 61440.
Definition S_IFDIR : Z := 16384.
Definition S_IFREG : Z := 32768.
Definition S_IFLNK : Z := 40960.
Definition MODE_BITS : Z := 4095.

(** ** The scan as a stateful, fallible program *)
Record Scan : Type := mkScan { sc_facts : gmap string Fact; sc_meters : DiffMeters; sc_clock : nat }.

Definition M (A : Type) : Type := Scan -> Res (A * Scan).
Definition ret {A} (a : A) : M A := fun s => Ok (a, s).
Definition fail {A} (e : SnapshotError) : M A := fun _ => Err e.
Definition bind {A B} (c : M A) (k : A -> M B) : M B := fun s => let? '(a, s) := c s in k a s.
Definition lift {A} (r : Res A) : M A := fun s => let? a := r in Ok (a, s).
Definition gets {A} (f : Scan -> A) : M A := fun s => Ok (f s, s).
Definition update (f : Scan -> Scan) : M unit := fun s => Ok (tt, f s).
Definition ensure (b : bool) (e : SnapshotError) : M unit := if b then ret tt else fail e.

Notation "'let*' x := c 'in' k" := (bind c (fun x => k))
  (at level 10, x name, c at level 150, k at level 200).
Notation "'run*' c 'in' k" := (bind c (fun _ => k)) (at level 10, c at level 150, k at level 200).

Fixpoint for_m {A} (f : A -> M unit) (l : list A) : M unit :=
  match l with [] => ret tt | a :: l => run* f a in for_m f l end.

Definition set_facts (g : gmap string Fact -> gmap string Fact) : M unit :=
  update (fun s => {| sc_facts := g (sc_facts s); sc_meters := sc_meters s; sc_clock := sc_clock s |}).
Definition set_meters (g : DiffMeters -> DiffMeters) : M unit :=
  update (fun s => {| sc_facts := sc_facts s; sc_meters := g (sc_meters s); sc_clock := sc_clock s |}).

Definition io_error (m : string) : SnapshotError := unknown ("upper filesystem state is unproved: " ++ m).

Section Collect.
Context `{Sha256} `{HexCrate} `{CodecScope} `{Host} (limits : DiffLimits).

(** Ask the host: every query advances the clock. *)
Definition ask {A} (q : nat -> Res A) : M A := fun s =>
  let? a := q (sc_clock s) in
  Ok (a, {| sc_facts := sc_facts s; sc_meters := sc_meters s; sc_clock := S (sc_clock s) |}).

Definition stat_fd (p : string) : M Fingerprint := ask (fun k => map_err io_error (host_stat_fd k p)).
Definition stat_at (p : string) : M Fingerprint := ask (fun k => map_err io_error (host_stat_at k p)).
Definition open_at (p : string) : M unit := ask (fun k => map_err io_error (host_open k p)).

(** [unix::xattr_result] on the host's count. *)
Definition no_xattrs (p : string) : M unit :=
  let* count := ask (fun k => Ok (host_xattrs k p)) in
  let* errno := ask (fun k => Ok (host_errno k)) in
  run* set_meters (fun m => {| upper_nodes := upper_nodes m; hash_bytes := hash_bytes m;
       lower_queries := lower_queries m; lower_directory_entries := lower_directory_entries m;
       xattr_checks := xattr_checks m + 1 |}) in
  run* ensure (0 <=? count) (io_error errno) in
  run* ensure (count <=? 65536) (budget "upper xattr name budget exceeded") in
  ensure (count =? 0) (SnapshotError_new UnsupportedEntry
    "upper xattrs cannot be represented by the fixed snapshot profile").

(** [unix::consume_bytes]. *)
Definition consume_bytes (size : Z) : M unit :=
  let* m := gets sc_meters in
  let* total := lift (ok_or (t ← checked_add (hash_bytes m) size; if t <=? max_bytes limits then Some t else None)
                      (budget "upper streaming byte budget exceeded")) in
  set_meters (fun m => {| upper_nodes := upper_nodes m; hash_bytes := total;
    lower_queries := lower_queries m; lower_directory_entries := lower_directory_entries m;
    xattr_checks := xattr_checks m |}).

Fixpoint adjacent_equal (l : list string) : bool :=
  match l with
  | a :: (b :: _) as rest => String.eqb a b || adjacent_equal rest
  | _ => false
  end.

Definition str_le (s t : string) : Prop := String.compare s t <> Gt.
#[local] Instance str_le_dec : RelDecision str_le.
Proof. intros s t. unfold str_le. destruct (String.compare s t); [left|left|right]; congruence. Defined.

(** [unix::names]: at most [remaining] names, valid, sorted by bytes, distinct. *)
Definition names (d : string) (remaining : Z) : M (list string) :=
  run* open_at d in
  let* stream := ask (fun k => Ok (host_readdir k d)) in
  let* out := lift (for_each (fun out entry =>
       reject? remaining <=? zlen out with budget "upper node budget exceeded" in
       let? name := ok_or entry (unknown "non-UTF-8 upper filename") in
       let? _ := validate_scope ("/" ++ name)%string in
       Ok (out ++ [name])) [] (fst stream)) in
  run* match snd stream with Some m => fail (io_error m) | None => ret tt end in
  run* ensure (negb (adjacent_equal (merge_sort str_le out))) (unknown "duplicate upper directory name") in
  ret (merge_sort str_le out).

(** [unix::regular]. *)
Definition regular (p : string) (before : Fingerprint) : M UpperNodeIdentity :=
  run* ensure (0 <=? fp_size before) (unknown "negative upper file size") in
  let size := fp_size before in
  run* consume_bytes size in
  run* open_at p in
  let* opened := stat_fd p in
  run* ensure (bool_decide (opened = before)) (unknown "upper file replaced before hashing") in
  run* no_xattrs p in
  let* bytes := ask (fun k => map_err io_error (host_read k p)) in
  run* ensure (zlen bytes <=? size) (unknown "upper file grew while hashing") in
  run* ensure (zlen bytes =? size) (unknown "upper file changed during hashing") in
  let* fd := stat_fd p in
  run* ensure (bool_decide (fd = before)) (unknown "upper file changed during hashing") in
  let* at_ := stat_at p in
  run* ensure (bool_decide (at_ = before)) (unknown "upper file changed during hashing") in
  ret (URegular (Z.land (fp_mode before) MODE_BITS) (fp_uid before) (fp_gid before) size
         ("sha256:" ++ hex_encode (sha256 bytes))%string).

(** [unix::symlink]. *)
Definition symlink (p : string) (before : Fingerprint) : M UpperNodeIdentity :=
  run* ensure (in_range 1 (fp_size before) 4095) (budget "upper symlink exceeds serving profile") in
  run* consume_bytes (fp_size before) in
  run* no_xattrs p in
  let* at1 := stat_at p in
  run* ensure (bool_decide (at1 = before)) (unknown "upper symlink changed during xattr check") in
  let* target := ask (fun k => map_err io_error (host_readlink k p)) in
  run* ensure (zlen target =? fp_size before) (unknown "upper symlink changed during scan") in
  let* at2 := stat_at p in
  run* ensure (bool_decide (at2 = before)) (unknown "upper symlink changed during scan") in
  ret (USymlink (Z.land (fp_mode before) MODE_BITS) (fp_uid before) (fp_gid before) (fp_size before)
         ("sha256:" ++ hex_encode (sha256 target))%string).

Definition directory_identity (fp : Fingerprint) : UpperNodeIdentity :=
  UDirectory (Z.land (fp_mode fp) MODE_BITS) (fp_uid fp) (fp_gid fp).

(** The identity of one child, by the kind of its fingerprint. *)
Definition child_identity (p : string) (fp : Fingerprint) : M UpperNodeIdentity :=
  let kind := Z.land (fp_mode fp) S_IFMT in
  if kind =? S_IFDIR then
    run* open_at p in
    let* opened := stat_fd p in
    run* ensure (bool_decide (opened = fp)) (unknown "upper directory replaced while opening") in
    ret (directory_identity fp)
  else if kind =? S_IFREG then regular p fp
  else if kind =? S_IFLNK then symlink p fp
  else fail (SnapshotError_new UnsupportedEntry "unsupported upper node kind").

Definition set_children (ch : list string) (f : Fact) : Fact :=
  {| fact_identity := fact_identity f; children := ch; fingerprint := fingerprint f |}.

(** The body of the loop over children; [descend] is the recursive call. *)
Definition collect_child (descend : string -> M unit) (path name : string) : M unit :=
  let* n := gets (fun s => Z.of_nat (size (sc_facts s))) in
  run* ensure (n <? max_nodes limits) (budget "upper node budget exceeded") in
  let child_path := join path name in
  run* lift (validate_scope ("/" ++ child_path)%string) in
  let* fp := stat_at child_path in
  let* identity := child_identity child_path fp in
  run* set_facts (insert child_path {| fact_identity := identity; children := []; fingerprint := fp |}) in
  if is_dir identity then
    run* descend child_path in
    let* again := stat_at child_path in
    ensure (bool_decide (again = fp)) (unknown "upper directory entry changed during scan")
  else ret tt.

(** [unix::collect_directory]; [room] is [max_depth + 1 - depth], so that no
    room left is [depth > max_depth]. *)
Fixpoint collect_directory (room : nat) (path : string) : M unit :=
  match room with
  | O => fail (budget "upper directory depth budget exceeded")
  | S room =>
      let* before := stat_fd path in
      run* no_xattrs path in
      let* n := gets (fun s => Z.of_nat (size (sc_facts s))) in
      let* ch := names path (saturating_sub (max_nodes limits) n) in
      run* set_facts (alter (set_children ch) path) in
      run* for_m (collect_child (collect_directory room) path) ch in
      let* after := stat_fd path in
      ensure (bool_decide (after = before)) (unknown "upper directory changed during enumeration")
  end.

Definition no_meters : DiffMeters := mkMeters 0 0 0 0 0.

(** [unix::collect], started when the clock shows [k]; also the clock after.
    The duplicate of the root descriptor kept for verification is not state here. *)
Definition collect (k : nat) : Res (Scanned * nat) :=
  let? '(fp, s) := (run* ask host_open_root in stat_fd "") {| sc_facts := ∅; sc_meters := no_meters; sc_clock := k |} in
  let start := {| sc_facts := {[ "" := {| fact_identity := directory_identity fp; children := []; fingerprint := fp |} ]};
                  sc_meters := sc_meters s; sc_clock := sc_clock s |} in
  let? '(_, s) := collect_directory (Z.to_nat (max_depth limits + 1)) "" start in
  let m := sc_meters s in
  Ok ({| facts := sc_facts s;
         scan_meters := {| upper_nodes := Z.of_nat (size (sc_facts s)); hash_bytes := hash_bytes m;
           lower_queries := lower_queries m; lower_directory_entries := lower_directory_entries m;
           xattr_checks := xattr_checks m |} |}, sc_clock s).
End Collect.

(** ** Reasoning about the program *)

Lemma bind_ok {A B} (c : M A) (k : A -> M B) s b s' :
  bind c k s = Ok (b, s') <-> exists a s1, c s = Ok (a, s1) /\ k a s1 = Ok (b, s').
Proof.
  unfold bind. rewrite rbind_ok. split; [intros ([a s1] & ? & ?); eauto|intros (a & s1 & ? & ?); by exists (a, s1)].
Qed.

Lemma ensure_ok b e s x s' : ensure b e s = Ok (x, s') <-> b = true /\ s' = s.
Proof. unfold ensure, ret, fail. destruct x, b; naive_solver. Qed.

(** [c] keeps [P]: every successful run of [c] from a state with [P] ends in one. *)
Definition keeps (P : Scan -> Prop) {A} (c : M A) : Prop := forall s a s', P s -> c s = Ok (a, s') -> P s'.

Lemma host_keeps_bind P {A B} (c : M A) (k : A -> M B) : keeps P c -> (forall a, keeps P (k a)) -> keeps P (bind c k).
Proof. intros Hc Hk s b s' HP (a & s1 & H1 & H2)%bind_ok. by eapply Hk; [eapply Hc|]. Qed.

Lemma host_keeps_ret P {A} (a : A) : keeps P (ret a).
Proof. by intros s b s' HP [= _ <-]. Qed.

Lemma host_keeps_fail P {A} e : keeps P (@fail A e).
Proof. by intros s b s' HP [=]. Qed.

Lemma keeps_lift P {A} (r : Res A) : keeps P (lift r).
Proof. intros s b s' HP Hl. unfold lift in Hl. inv_ok. by simplify_eq. Qed.

Lemma keeps_gets P {A} (f : Scan -> A) : keeps P (gets f).
Proof. by intros s b s' HP [= _ <-]. Qed.

Lemma keeps_ensure P b e : keeps P (ensure b e).
Proof. by intros s x s' HP [_ ->]%ensure_ok. Qed.

Lemma keeps_for P {A} (f : A -> M unit) l : (forall a, a ∈ l -> keeps P (f a)) -> keeps P (for_m f l).
Proof.
  induction l as [|a l IH]; simpl; intros Hf; [apply host_keeps_ret|].
  apply host_keeps_bind; [apply Hf; by left|]. intros _. apply IH. intros b Hb. apply Hf. by right.
Qed.

Section Facts.
Context `{Sha256} `{HexCrate} `{CodecScope} `{Host} (limits : DiffLimits).

(** The facts recorded so far are [fs], and the bytes hashed are within budget. *)
Definition at_facts (fs : gmap string Fact) (s : Scan) : Prop :=
  sc_facts s = fs /\ 0 <= hash_bytes (sc_meters s) <= max_bytes limits.

Lemma keeps_ask fs {A} (q : nat -> Res A) : keeps (at_facts fs) (ask q).
Proof. intros s a s' HP Hq. unfold ask in Hq. inv_ok. by simplify_eq. Qed.

Lemma keeps_meters fs g : (forall m, hash_bytes (g m) = hash_bytes m) -> keeps (at_facts fs) (set_meters g).
Proof. intros Hg s a s' [HP HB] [= _ <-]. split; [done|]. simpl. by rewrite Hg. Qed.

Lemma keeps_no_xattrs fs p : keeps (at_facts fs) (no_xattrs p).
Proof.
  unfold no_xattrs. repeat (apply host_keeps_bind; [first [apply keeps_ask|apply keeps_ensure|by apply keeps_meters]|intros ?]).
  apply keeps_ensure.
Qed.

Lemma keeps_consume fs n : 0 <= n -> keeps (at_facts fs) (consume_bytes limits n).
Proof.
  intros Hn s a s' [HF HB] Hc. unfold consume_bytes in Hc. apply bind_ok in Hc as (m & s1 & [= <- <-] & Hc).
  apply bind_ok in Hc as (t & s2 & Ht & [= _ <-]). unfold lift in Ht.
  apply rbind_ok in Ht as (v & Hv%ok_or_ok & [= <- <-]). split; [done|]. simpl.
  apply bind_Some in Hv as (u & [-> _]%checked_add_some & Hv). destruct (Z.leb_spec (hash_bytes (sc_meters s) + n)
    (max_bytes limits)); simplify_eq. lia.
Qed.

Ltac keep_steps := repeat first [ apply keeps_no_xattrs | apply host_keeps_bind; [|intros ?] | apply keeps_ask | apply keeps_ensure
  | apply host_keeps_ret | apply host_keeps_fail | apply keeps_lift | apply keeps_gets ].

Lemma keeps_names fs d n : keeps (at_facts fs) (names d n).
Proof. unfold names. keep_steps. by destruct (snd a0); [apply host_keeps_fail|apply host_keeps_ret]. Qed.

(** A guard that succeeded may be assumed by what follows. *)
Lemma keeps_guard P {A} b e (k : unit -> M A) : (b = true -> keeps P (k tt)) -> keeps P (bind (ensure b e) k).
Proof.
  intros Hk s a s' HP ([] & s1 & [Hb ->]%ensure_ok & Hr)%bind_ok. by eapply Hk.
Qed.

Lemma keeps_identity fs p fp : keeps (at_facts fs) (child_identity limits p fp).
Proof.
  unfold child_identity. destruct (_ =? S_IFDIR); [keep_steps|].
  destruct (_ =? S_IFREG); [|destruct (_ =? S_IFLNK); [|keep_steps]].
  - unfold regular. apply keeps_guard. intros Hs%Z.leb_le.
    apply host_keeps_bind; [by apply keeps_consume|intros ?]. keep_steps.
  - unfold symlink. apply keeps_guard. intros Hs%in_range_true.
    apply host_keeps_bind; [apply keeps_consume; lia|intros ?]. keep_steps.
Qed.

(** ** Well-formed facts *)

Definition plen (p : string) : nat := length (as_bytes p).

Lemma plen_join p n : name_ok n -> (plen p < plen (join p n))%nat.
Proof.
  intros [Hn _]. unfold plen. destruct (decide (p = "")) as [->|Hp].
  - destruct n; [done|]. simpl. lia.
  - rewrite join_bytes, length_app by done. simpl. lia.
Qed.

(** A path whose fact, if any, has its children recorded. *)
Definition closed_at (fs : gmap string Fact) (p : string) : Prop :=
  forall f, fs !! p = Some f -> NoDup (children f) /\
    forall n, n ∈ children f -> name_ok n /\ is_Some (fs !! join p n).

Lemma closed_mono fs fs' p :
  closed_at fs p -> fs' !! p = fs !! p -> (forall q, is_Some (fs !! q) -> is_Some (fs' !! q)) -> closed_at fs' p.
Proof.
  intros Hc He Hm f Hf. rewrite He in Hf. destruct (Hc f Hf) as [Hnd Hch]. split; [done|].
  intros n Hn. destruct (Hch n Hn). auto.
Qed.

(** *** Listing *)

Lemma listed_from (r : Z) (stream : list (option string)) acc out :
  for_each (fun out entry =>
       reject? r <=? zlen out with budget "upper node budget exceeded" in
       let? name := ok_or entry (unknown "non-UTF-8 upper filename") in
       let? _ := validate_scope ("/" ++ name)%string in
       Ok (out ++ [name])) acc stream = Ok out ->
  forall n, n ∈ out -> n ∈ acc \/ Some n ∈ stream.
Proof.
  revert acc. induction stream as [|e l IH]; intros acc Hf n Hn; simpl in Hf; [injection Hf as <-; by left|].
  apply rbind_ok in Hf as (acc' & Ha & Hf). inv_ok. subst acc'.
  destruct (IH _ Hf n Hn) as [[Hin|Hin]%elem_of_snoc|Hin]; [by left|right; subst; by left|right; by right].
Qed.

Lemma sorted_strict l : Sorted str_le l -> adjacent_equal l = false -> Sorted str_lt l.
Proof.
  induction 1 as [|a l Hs IH Hd]; intros Ha; [constructor|]. destruct Hd as [|b l Hab]; [by repeat constructor|].
  simpl in Ha. apply orb_false_iff in Ha as [Hab' Ha]. constructor; [by apply IH|]. constructor.
  unfold str_le, str_lt in *. destruct (String.compare a b) eqn:Hc; [|done|done].
  apply str_compare_eq in Hc as ->. by rewrite String.eqb_refl in Hab'.
Qed.

#[local] Instance str_le_total : Total str_le.
Proof.
  intros s t. unfold str_le. destruct (String.compare s t) eqn:Hc; [by left..|right].
  apply str_compare_gt in Hc. unfold str_lt in Hc. by rewrite Hc.
Qed.

Lemma strict_nodup l : Sorted str_lt l -> NoDup l.
Proof.
  intros Hs. apply Sorted_StronglySorted in Hs; [|intros a b c; apply transitivity].
  induction Hs as [|a l Hs IH Hall]; constructor; [|done].
  intros Hin. rewrite Forall_forall in Hall. apply list_elem_of_In, Hall in Hin. by apply str_lt_irrefl in Hin.
Qed.

(** What [names] returns: file names, each once. *)
Lemma names_ok d r s ch s' : names d r s = Ok (ch, s') -> Forall name_ok ch /\ NoDup ch.
Proof.
  unfold names. intros Hn. apply bind_ok in Hn as (? & s1 & _ & Hn). apply bind_ok in Hn as (st & s2 & Hst & Hn).
  unfold ask in Hst. simpl in Hst. injection Hst as <- <-.
  apply bind_ok in Hn as (out & s3 & Hout & Hn). apply bind_ok in Hn as (? & s4 & _ & Hn).
  apply bind_ok in Hn as (? & s5 & [Hadj _]%ensure_ok & [= <- <-]). unfold lift in Hout.
  apply rbind_ok in Hout as (o & Ho & [= <- <-]). split.
  - apply Forall_forall. intros n Hin%list_elem_of_In. rewrite merge_sort_Permutation in Hin.
    destruct (listed_from _ _ _ _ Ho n Hin) as [?%elem_of_nil|Hs]; [done|]. by eapply host_names.
  - apply strict_nodup, sorted_strict; [apply Sorted_merge_sort; apply _|by apply negb_true_iff].
Qed.

(** *** Collecting *)

Definition bounded (s : Scan) : Prop :=
  Z.of_nat (size (sc_facts s)) <= max_nodes limits /\ 0 <= hash_bytes (sc_meters s) <= max_bytes limits.

Lemma quiet_facts {A} (c : M A) s a s' :
  (forall fs, keeps (at_facts fs) c) -> c s = Ok (a, s') -> bounded s -> sc_facts s' = sc_facts s /\ bounded s'.
Proof.
  intros Hk Hc [Hn Hb]. destruct (Hk (sc_facts s) s a s' (conj eq_refl Hb) Hc) as [He Hb'].
  split; [done|]. split; [by rewrite He|done].
Qed.

(** What collecting below [path] does to the facts, while the paths [opn] are
    still being collected: they are left alone, every other path ends closed. *)
Record collected (opn : string -> Prop) (path : string) (s s' : Scan) : Prop := {
  co_mono : forall q, is_Some (sc_facts s !! q) -> is_Some (sc_facts s' !! q);
  co_short : forall q, (plen q < plen path)%nat -> sc_facts s' !! q = sc_facts s !! q;
  co_self : forall f, sc_facts s !! path = Some f -> exists g, sc_facts s' !! path = Some g /\
    fact_identity g = fact_identity f;
  co_closed : forall q, ~ opn q -> closed_at (sc_facts s') q;
  co_bounded : bounded s';
}.

(** The recursive call, as the loop over children uses it. *)
Definition descends (descend : string -> M unit) : Prop :=
  forall opn path s s', (forall q, opn q -> (plen q < plen path)%nat) ->
    (forall q, ~ opn q -> closed_at (sc_facts s) q) -> is_Some (sc_facts s !! path) -> bounded s ->
    descend path s = Ok (tt, s') -> collected opn path s s'.

(** One child: recorded, closed, and nothing shorter touched. *)
Record children_done (opn : string -> Prop) (path : string) (l : list string) (s s' : Scan) : Prop := {
  cd_mono : forall q, is_Some (sc_facts s !! q) -> is_Some (sc_facts s' !! q);
  cd_short : forall q, (plen q <= plen path)%nat -> sc_facts s' !! q = sc_facts s !! q;
  cd_closed : forall q, ~ opn q -> q <> path -> closed_at (sc_facts s') q;
  cd_done : forall n, n ∈ l -> is_Some (sc_facts s' !! join path n);
  cd_bounded : bounded s';
}.

Lemma closed_insert (opn : string -> Prop) (path child : string) fs id fp :
  (forall q, ~ opn q -> q <> path -> closed_at fs q) ->
  forall q, ~ (opn q \/ q = path) ->
    closed_at (<[child := {| fact_identity := id; children := []; fingerprint := fp |}]> fs) q.
Proof.
  intros Hc q Hq. destruct (decide (q = child)) as [->|Hne].
  - intros f Hf. rewrite lookup_insert in Hf. rewrite decide_True in Hf by done. injection Hf as <-.
    split; [constructor|]. intros n Hn. by apply elem_of_nil in Hn.
  - eapply closed_mono; [apply Hc; tauto|by rewrite lookup_insert_ne|].
    intros r Hr. rewrite lookup_insert. by destruct (decide (child = r)).
Qed.

Lemma collect_child_ok descend opn path n s s' :
  descends descend -> name_ok n -> (forall q, opn q -> (plen q < plen path)%nat) ->
  (forall q, ~ opn q -> q <> path -> closed_at (sc_facts s) q) -> bounded s ->
  collect_child limits descend path n s = Ok (tt, s') -> children_done opn path [n] s s'.
Proof.
  intros Hdes Hn Hopn Hcl Hb Hc. pose proof (plen_join path n Hn) as Hlen. unfold collect_child in Hc.
  apply bind_ok in Hc as (k & s0 & [= <- <-] & Hc). apply bind_ok in Hc as ([] & s1 & [Hroom ->]%ensure_ok & Hc).
  apply Z.ltb_lt in Hroom. cbv zeta in Hc. apply bind_ok in Hc as ([] & s1 & Hv & Hc).
  apply quiet_facts in Hv as [E1 B1]; [|intros fs; apply keeps_lift|done].
  apply bind_ok in Hc as (fp & s2 & Hst & Hc). apply quiet_facts in Hst as [E2 B2]; [|intros fs; apply keeps_ask|done].
  apply bind_ok in Hc as (id & s3 & Hid & Hc). apply quiet_facts in Hid as [E3 B3]; [|intros fs; apply keeps_identity|done].
  apply bind_ok in Hc as ([] & s4 & [= <-] & Hc). rewrite E1 in E2. rewrite E2 in E3. clear E1 E2 B1 B2.
  match type of Hc with _ ?st = _ => set (s4 := st) in Hc end.
  assert (Hnew : children_done opn path [n] s s4 /\ forall q, ~ (opn q \/ q = path) -> closed_at (sc_facts s4) q).
  { assert (Hclosed : forall q, ~ (opn q \/ q = path) -> closed_at (sc_facts s4) q)
      by (apply closed_insert; by rewrite E3).
    split; [|done]. split.
    - intros q Hq. simpl. rewrite E3, lookup_insert. by destruct (decide (join path n = q)).
    - intros q Hq. simpl. rewrite E3, lookup_insert_ne; [done|]. intros <-. lia.
    - intros q H1q H2q. apply Hclosed. tauto.
    - intros m ->%list_elem_of_singleton. simpl. rewrite lookup_insert, decide_True by done. by eexists.
    - destruct B3 as [_ B3]. split; [|done]. simpl. rewrite E3, map_size_insert.
      destruct (sc_facts s !! join path n); simpl; lia. }
  destruct Hnew as [Hnew Hclosed]. clearbody s4. destruct (is_dir id); [|by injection Hc as <-].
  apply bind_ok in Hc as ([] & s5 & Hd & Hc).
  apply (Hdes (fun q => opn q \/ q = path)) in Hd; cycle 1.
  { intros q [?%Hopn| ->]; lia. } { done. } { apply (cd_done _ _ _ _ _ Hnew). by left. } { by eapply cd_bounded. }
  destruct Hd as [Dm Ds _ Dc Db]. destruct Hnew as [Nm Ns Nc Nd Nb].
  apply bind_ok in Hc as (fp2 & s6 & Hst & [_ ->]%ensure_ok).
  apply quiet_facts in Hst as [E6 B6]; [|intros fs; apply keeps_ask|done].
  split; rewrite ?E6; auto.
  - intros q Hq. rewrite Ds by lia. by apply Ns.
  - intros q H1q H2q. apply Dc. tauto.
Qed.

Lemma collect_children_ok descend opn path l s s' :
  descends descend -> Forall name_ok l -> (forall q, opn q -> (plen q < plen path)%nat) ->
  (forall q, ~ opn q -> q <> path -> closed_at (sc_facts s) q) -> bounded s ->
  for_m (collect_child limits descend path) l s = Ok (tt, s') -> children_done opn path l s s'.
Proof.
  intros Hdes Hok Hopn. revert s. induction Hok as [|n l Hn Hok IH]; intros s Hcl Hb Hf; simpl in Hf.
  { injection Hf as <-. split; try done. by intros n ?%elem_of_nil. }
  apply bind_ok in Hf as ([] & s1 & H1f & Hf).
  destruct (collect_child_ok _ opn _ _ _ _ Hdes Hn Hopn Hcl Hb H1f) as [Am As Ac Ad Ab].
  destruct (IH s1 Ac Ab Hf) as [Bm Bs Bc Bd Bb]. split; auto.
  - intros q Hq. rewrite Bs by done. by apply As.
  - intros m [->|Hm]%elem_of_cons; [|by apply Bd]. apply Bm, Ad. by left.
Qed.

Lemma collect_directory_ok room : descends (collect_directory limits room).
Proof.
  induction room as [|room IH]; intros opn path s s' Hopn Hcl [f Hf] Hb Hc; [done|].
  cbn [collect_directory] in Hc.
  apply bind_ok in Hc as (fp & s1 & Hst & Hc). apply quiet_facts in Hst as [E1 B1]; [|intros fs; apply keeps_ask|done].
  apply bind_ok in Hc as ([] & s2 & Hx & Hc). apply quiet_facts in Hx as [E2 B2]; [|intros fs; apply keeps_no_xattrs|done].
  apply bind_ok in Hc as (k & s2' & [= _ <-] & Hc). apply bind_ok in Hc as (ch & s3 & Hnames & Hc).
  pose proof (names_ok _ _ _ _ _ Hnames) as [Hok Hnd].
  apply quiet_facts in Hnames as [E3 B3]; [|intros fs; apply keeps_names|done].
  rewrite E1 in E2. rewrite E2 in E3. clear E1 E2 B1 B2 Hb.
  apply bind_ok in Hc as ([] & s4 & [= <-] & Hc).
  match type of Hc with _ ?st = _ => set (s4 := st) in Hc end.
  assert (F4 : sc_facts s4 = alter (set_children ch) path (sc_facts s)) by (simpl; by rewrite E3).
  assert (Hdom : forall q, is_Some (sc_facts s4 !! q) <-> is_Some (sc_facts s !! q)).
  { intros q. rewrite F4, <- !elem_of_dom, dom_alter. done. }
  assert (B4 : bounded s4).
  { destruct B3 as [Bn Bb]. split; [|done]. rewrite F4, <- size_dom, dom_alter, size_dom. by rewrite <- E3. }
  clearbody s4. apply bind_ok in Hc as ([] & s5 & Hloop & Hc).
  apply (collect_children_ok _ opn) in Hloop as [Lm Ls Lc Ld Lb]; [|done..| |done].
  2:{ intros q H1q H2q. eapply closed_mono; [by apply Hcl|by rewrite F4, lookup_alter_ne|]. intros r. by apply Hdom. }
  apply bind_ok in Hc as (fp2 & s6 & Hst & [_ ->]%ensure_ok).
  apply quiet_facts in Hst as [E6 B6]; [|intros fs; apply keeps_ask|done].
  assert (Hself : sc_facts s5 !! path = Some (set_children ch f)).
  { rewrite Ls by done. by rewrite F4, lookup_alter, decide_True, Hf. }
  split; rewrite ?E6; auto.
  - intros q Hq. apply Lm, Hdom, Hq.
  - intros q Hq. rewrite Ls by lia. rewrite F4, lookup_alter_ne; [done|]. intros <-. lia.
  - intros g Hg. simplify_eq. eauto.
  - intros q Hq. destruct (decide (q = path)) as [->|]; [|by apply Lc].
    intros g Hg. simplify_eq. simpl. split; [done|]. intros n Hn. split; [|by apply Ld].
    rewrite Forall_forall in Hok. by apply Hok, list_elem_of_In.
Qed.

(** The limits are a [usize] and a [u64]; [scan_upper] refuses no nodes. *)
Lemma collect_wf k scanned k' :
  1 <= max_nodes limits -> 0 <= max_bytes limits -> collect limits k = Ok (scanned, k') ->
  facts_wf (facts scanned) /\ upper_nodes (scan_meters scanned) <= max_nodes limits /\
  hash_bytes (scan_meters scanned) <= max_bytes limits.
Proof.
  intros Hn Hb Hc. unfold collect in Hc. apply rbind_ok in Hc as ([fp s0] & Hopen & Hc).
  assert (Hm : sc_meters s0 = no_meters).
  { apply bind_ok in Hopen as (? & s1 & Ho & Hst). unfold stat_fd, ask in Ho, Hst. inv_ok. by simplify_eq. }
  apply rbind_ok in Hc as ([[] s1] & Hd & [= <- _]). simpl.
  match type of Hd with _ ?st = _ => set (start := st) in Hd end.
  assert (Hclosed : forall q, closed_at (sc_facts start) q).
  { intros q f Hf. simpl in Hf. apply lookup_singleton_Some in Hf as [_ <-]. simpl.
    split; [constructor|]. intros n Hx. by apply elem_of_nil in Hx. }
  assert (Hstart : bounded start).
  { unfold bounded. simpl. rewrite Hm, map_size_singleton. simpl. lia. }
  apply (collect_directory_ok _ (fun _ => False)) in Hd as [_ _ Dself Dcl [Bn Bb]]; [|done..|by eexists|done].
  destruct (Dself {| fact_identity := directory_identity fp; children := []; fingerprint := fp |} eq_refl)
    as (g & Hg & Hid). split_and!; [|lia..]. split.
  - exists g. by rewrite Hg, Hid.
  - intros p f n Hf Hx. destruct (Dcl p ltac:(tauto) f Hf) as [_ Hch]. auto.
  - intros p f Hf. by destruct (Dcl p ltac:(tauto) f Hf).
Qed.
End Facts.

(** ** The diff of a host directory *)
Section Diff.
Context `{Sha256} `{HexCrate} `{CodecScope} `{Host} `{Lower} (owner : Z * Z) (limits : DiffLimits).
Context (base : string -> option SnapshotNodeIdentity) `{!LowerSpec base}.
Context (Hnodes : is_usize (max_nodes limits)) (Hbytes : is_u64 (max_bytes limits)).

(** [scan_upper] on a collection started when the clock shows [k]. *)
Definition scan (certain : Check -> result string unit) (k : nat) (verified : Res unit) : option (Res UpperDiff) :=
  scan_upper owner limits certain (let? '(scanned, _) := collect limits k in Ok scanned) verified.

(** A scan that returns a diff collected well-formed facts within its limits. *)
Lemma scan_collected certain k verified d :
  scan certain k verified = Some (Ok d) ->
  exists scanned k', collect limits k = Ok (scanned, k') /\ facts_wf (facts scanned) /\
    upper_nodes (scan_meters scanned) <= max_nodes limits /\ hash_bytes (scan_meters scanned) <= max_bytes limits /\
    scan_upper owner limits certain (Ok scanned) verified = Some (Ok d).
Proof using Hnodes Hbytes.
  unfold scan. destruct (collect limits k) as [[scanned k']|e] eqn:Hc; simpl.
  - intros Hs. exists scanned, k'. split; [done|].
    assert (max_nodes limits <> 0).
    { intros E. unfold scan_upper in Hs. rewrite E in Hs. by destruct (map_err unknown (certain AtStart)). }
    destruct (collect_wf limits k scanned k') as (? & ? & ?); unfold is_usize, is_u64 in *; [lia..|done|].
    by split_and!.
  - unfold scan_upper. destruct (map_err unknown (certain AtStart)); simpl; [|done]. by destruct (_ || _).
Qed.

Lemma scan_returns certain k verified : scan certain k verified <> None.
Proof using Hnodes Hbytes LowerSpec0.
  unfold scan. destruct (collect limits k) as [[scanned k']|e] eqn:Hc; simpl.
  - destruct (decide (max_nodes limits = 0)) as [E|Hne].
    + unfold scan_upper. rewrite E. by destruct (map_err unknown (certain AtStart)).
    + destruct (collect_wf limits k scanned k') as (Hwf & _); unfold is_usize, is_u64 in *; [lia..|done|].
      pose proof (scan_upper_cases owner limits base _ Hwf certain scanned verified eq_refl) as Hx.
      by destruct (scan_upper _ _ _ _ _).
  - unfold scan_upper. destruct (map_err unknown (certain AtStart)); simpl; [|done]. by destruct (_ || _).
Qed.

(** C32: the upper scan always ends, within its limits. Whatever the host answers,
    the scan returns a diff or an error after at most one iteration per upper
    node and [max_depth] nested directories; a diff it returns was computed from
    at most [max_nodes] nodes and [max_bytes] hashed bytes, and reports at most
    [max_nodes] changes. *)
Theorem scan_bounded certain k verified :
  exists r, scan certain k verified = Some r /\
    forall d, r = Ok d -> upper_nodes (meters d) <= max_nodes limits /\ hash_bytes (meters d) <= max_bytes limits /\
      zlen (changes d) <= max_nodes limits.
Proof using Hnodes Hbytes LowerSpec0.
  destruct (scan certain k verified) as [[d|e]|] eqn:Hs.
  - exists (Ok d). split; [done|]. intros d' [= <-].
    apply scan_collected in Hs as (scanned & k' & _ & _ & Hn & Hb & Hs).
    apply scan_upper_bounded in Hs as [[Ea Eb] Hz]. rewrite Ea, Eb. done.
  - exists (Err e). by split.
  - exfalso. by eapply scan_returns.
Qed.

(** C2: the upper diff is exact. Every reported change is at a path where the
    merged view of the collected upper layer over the fixed snapshot differs
    from the snapshot, with the snapshot's identity, the upper identity and the
    kind that difference has; and at every path where the merged view differs, a
    change is reported there or at one of its ancestors. Whiteouts, opaque
    directories and their inheritance are included. *)
Theorem upper_diff_exact certain k verified d :
  scan certain k verified = Some (Ok d) ->
  exists scanned k', collect limits k = Ok (scanned, k') /\
  let view := effective (facts scanned) "" false in
  (forall c, c ∈ changes d -> exists ps, Forall name_ok ps /\
     let path := path_of "" ps in
     c = mkChange path (kind_of (base path) (upper_of (view ps))) (base path) (upper_of (view ps)) /\
     ~ agrees owner (view ps) (base path)) /\
  (forall ps, Forall name_ok ps ->
     agrees owner (view ps) (base (path_of "" ps)) \/
     exists c qs, c ∈ changes d /\ qs `prefix_of` ps /\ ch_rel_path c = path_of "" qs).
Proof using Hnodes Hbytes LowerSpec0.
  intros (scanned & k' & Hc & Hwf & _ & _ & Hs)%scan_collected. exists scanned, k'. split; [done|].
  pose proof (scan_upper_cases owner limits base _ Hwf certain scanned verified eq_refl) as Hx. rewrite Hs in Hx.
  destruct Hx as (root & r & P & st & Hroot & Hbase & Hi & Hp & Hch). split; intros.
  - by eapply diff_sound.
  - by eapply diff_complete.
Qed.

End Diff.
End Upper.
