(* ===== verification/SubtreeSums.v ===== *)
(** * SubtreeSums

    What a subtree of a snapshot amounts to: its files, its pages and the
    number of its entries, added up over directories in any order. Files are
    compared up to their order, pages as sets. A root page determines the
    amount of its subtree, among byte strings that page ids tell apart. *)

From S2P Require Import Prelude Types Faults Text Profile Btree Frames Wire Closure ClosureExact ClosureTree Disk Records Durable Incremental.
Import Digests Profile.Scope Closure ClosureExact ClosureTree Incremental.
Local Open Scope string_scope.
Local Open Scope list_scope.
Local Open Scope Z_scope.

Module SubtreeSums.

Record amount : Type := mkAmount { a_files : list SnapshotFile; a_pages : gset string; a_count : Z }.

#[export] Instance amount_equiv : Equiv amount := fun a b =>
  a_files a ≡ₚ a_files b /\ a_pages a = a_pages b /\ a_count a = a_count b.
#[export] Instance amount_equivalence : Equivalence (≡@{amount}).
Proof.
  split; [by intros a|intros a b (?&?&?); by split_and!|].
  intros a b c (E1&E2&E3) (F1&F2&F3). split_and!; [by rewrite E1|congruence..].
Qed.

Definition plus (a b : amount) : amount :=
  mkAmount (a_files a ++ a_files b) (a_pages a ∪ a_pages b) (a_count a + a_count b).
Definition zero : amount := mkAmount [] ∅ 0.
Definition sum (l : list amount) : amount := foldr plus zero l.
Infix "⊕" := plus (at level 50, left associativity).

#[export] Instance plus_proper : Proper ((≡) ==> (≡) ==> (≡)) plus.
Proof. intros a b (E1&E2&E3) c d (F1&F2&F3). unfold plus. split_and!; simpl; [by rewrite E1, F1|congruence..]. Qed.

(** Sums are compared field by field. *)
Ltac amounts := split_and!; simpl; [solve_Permutation|set_solver|lia].

Lemma plus_comm a b : a ⊕ b ≡ b ⊕ a.
Proof. split_and!; simpl; [apply Permutation_app_comm|set_solver|lia]. Qed.
Lemma plus_assoc a b c : a ⊕ (b ⊕ c) ≡ a ⊕ b ⊕ c.
Proof. split_and!; simpl; [by rewrite app_assoc|set_solver|lia]. Qed.
Lemma plus_zero a : a ⊕ zero ≡ a.
Proof. split_and!; simpl; [by rewrite app_nil_r|set_solver|lia]. Qed.

Lemma sum_app l k : sum (l ++ k) ≡ sum l ⊕ sum k.
Proof.
  induction l as [|a l IH]; simpl.
  - split_and!; simpl; [done|set_solver|lia].
  - by rewrite IH, plus_assoc.
Qed.

#[export] Instance sum_perm : Proper ((≡ₚ) ==> (≡)) sum.
Proof.
  induction 1 as [|a l k _ IH|a b l|l k m _ IH1 _ IH2]; simpl; [done|by rewrite IH| |by rewrite IH1].
  rewrite !plus_assoc. by rewrite (plus_comm a b).
Qed.

(** ** The amount of a subtree *)

Section Trees.
Context `{HexCrate} `{PageCodec} `{CodecScope}.

Definition amt_at (rel : string) (t : tree) : amount :=
  mkAmount (files_at rel t) (list_to_set (pages_of t)) (count_of t).
(** A subdirectory, seen from the directory it is in. *)
Definition amt_kid (d : tree) : amount := amt_at (t_name d) d.

Definition own_amount (rel : string) (id : string) (own : list (string * Entry)) (dirs : list tree) : amount :=
  mkAmount ((fun ne => file_of (join_path rel ne.1) ne.2) <$> own) {[id]} (zlen own + zlen dirs).

Lemma sum_files {A} (f : A -> amount) l : a_files (sum (f <$> l)) = concat ((fun x => a_files (f x)) <$> l).
Proof. induction l as [|x l IH]; [done|]. rewrite !fmap_cons, concat_cons, <- IH. done. Qed.
Lemma sum_pages {A} (f : A -> amount) (g : A -> list string) l :
  (forall x, a_pages (f x) = list_to_set (g x)) -> a_pages (sum (f <$> l)) = list_to_set (concat (g <$> l)).
Proof.
  intros Hg. induction l as [|x l IH]; [done|]. rewrite !fmap_cons, concat_cons, list_to_set_app_L, <- IH, <- Hg. done.
Qed.
Lemma sum_count (f : tree -> amount) (g : tree -> Z) l :
  (forall x, a_count (f x) = g x) -> a_count (sum (f <$> l)) = total g l.
Proof. intros Hg. induction l as [|x l IH]; [done|]. rewrite fmap_cons. simpl. by rewrite IH, Hg. Qed.
Lemma amt_node rel name id own dirs subs :
  amt_at rel (Tree name id own dirs subs) ≡
  own_amount rel id own dirs ⊕ sum ((fun d => amt_at (join_path rel (t_name d)) d) <$> dirs) ⊕ sum (amt_at rel <$> subs).
Proof.
  split_and!; cbn [plus a_files a_pages a_count amt_at own_amount].
  - cbn [files_at]. rewrite !sum_files. cbn [amt_at a_files]. by rewrite app_assoc.
  - rewrite !(sum_pages _ pages_of) by done. cbn [pages_of]. rewrite list_to_set_cons, list_to_set_app_L. set_solver.
  - rewrite !(sum_count _ count_of) by done. cbn [count_of]. rewrite total_succ. lia.
Qed.

(** ** Names and paths *)

(** One component of a path. *)
Definition component (name : string) : Prop := name <> "" /\ 47 ∉ as_bytes name.
(** A path without a leading slash. *)
Definition plain_path (p : string) : Prop := trim_start_slash p = p.

Fixpoint plain (t : tree) : Prop :=
  let (_, _, own, dirs, subs) := t in
  Forall (fun ne => component ne.1) own /\ all (fun d => component (t_name d) /\ plain d) dirs /\ all plain subs.

Lemma plain_inv name id own dirs subs :
  plain (Tree name id own dirs subs) <->
  Forall (fun ne => component ne.1) own /\ Forall (fun d => component (t_name d) /\ plain d) dirs /\ Forall plain subs.
Proof. cbn [plain]. by rewrite !all_Forall. Qed.

Lemma plain_app n x : n <> "" -> plain_path n -> plain_path (n ++ x)%string.
Proof.
  unfold plain_path. destruct n as [|c n]; [done|]. intros _. simpl. destruct (Ascii.eqb c "/"); [|done].
  intros Hn. exfalso. assert (Hlen : forall s, (String.length (trim_start_slash s) <= String.length s)%nat).
  { induction s as [|d s IH]; simpl; [done|]. destruct (Ascii.eqb d "/"); simpl; lia. }
  specialize (Hlen n). rewrite Hn in Hlen. simpl in Hlen. lia.
Qed.

Lemma component_plain n : component n -> plain_path n.
Proof.
  intros [Hne Hs]. unfold plain_path. destruct n as [|c n]; [done|]. simpl.
  destruct (Ascii.eqb_spec c "/") as [->|]; [|done]. exfalso. apply Hs. simpl. left.
Qed.

Lemma join_path_plain p n : plain_path p -> component n -> plain_path (join_path p n) /\ join_path p n <> "".
Proof.
  intros Hp Hn. unfold join_path. destruct p as [|c p]; simpl.
  - split; [by apply component_plain|apply Hn].
  - split; [|done]. apply (plain_app (String c p) ("/" ++ n)); done.
Qed.

(** A path below the directory [base]. *)
Definition below_base (base rel : string) : string :=
  (if is_empty rel then base else base ++ "/" ++ rel)%string.

Lemma join_below base rel n :
  base <> "" -> join_path (below_base base rel) n = (base ++ "/" ++ join_path rel n)%string.
Proof.
  intros Hb. unfold join_path, below_base. destruct rel as [|c rel]; simpl.
  - by destruct base.
  - destruct base as [|d base]; [done|]. simpl. f_equal.
    induction base as [|x base IH]; simpl; [done|]. f_equal. apply IH. done.
Qed.

Lemma with_prefix_plain base p :
  component base -> plain_path p -> p <> "" -> with_prefix p base = (base ++ "/" ++ p)%string.
Proof.
  intros Hb Hp Hne. unfold with_prefix. rewrite (component_plain _ Hb : trim_start_slash base = base).
  rewrite (Hp : trim_start_slash p = p). destruct Hb as [Hb _]. by destruct base, p.
Qed.

Lemma rebase_file base rel n e :
  component base -> plain_path rel -> component n ->
  rebase base (file_of (join_path rel n) e) = file_of (join_path (below_base base rel) n) e.
Proof.
  intros Hb Hr Hn. unfold rebase, file_of. simpl. destruct (join_path_plain rel n Hr Hn) as [Hp Hne].
  rewrite with_prefix_plain by done. rewrite join_below by apply Hb. done.
Qed.

Lemma below_join base rel n :
  base <> "" -> component n -> plain_path rel -> join_path (below_base base rel) n = below_base base (join_path rel n).
Proof.
  intros Hb Hn Hr. rewrite join_below by done. unfold below_base.
  destruct (join_path_plain rel n Hr Hn) as [_ Hne]. by destruct (join_path rel n).
Qed.

Lemma concat_ext {A B} (f g : A -> list B) (h : list B -> list B) l :
  (forall a b, h (a ++ b) = h a ++ h b) -> h [] = [] -> Forall (fun x => h (f x) = g x) l ->
  h (concat (f <$> l)) = concat (g <$> l).
Proof.
  intros Happ Hnil. induction 1 as [|x l Hx _ IH]; [done|]. rewrite !fmap_cons, !concat_cons, Happ, IH, Hx. done.
Qed.

(** Moving the files of a subtree into [base] lists them from the directory
    above. *)
Definition moves (g : SnapshotFile -> SnapshotFile) (base : string) : Prop :=
  forall rel n e, plain_path rel -> component n ->
  g (file_of (join_path rel n) e) = file_of (join_path (below_base base rel) n) e.

Lemma moved_files g base u :
  moves g base -> base <> "" -> plain u -> forall rel, plain_path rel ->
  g <$> files_at rel u = files_at (below_base base rel) u.
Proof.
  intros Hg Hb. induction u as [name id own dirs subs IHd IHs] using tree_induction.
  intros (Ho & Hd & Hs)%plain_inv rel Hr. cbn [files_at]. rewrite !fmap_app. f_equal; [|f_equal].
  - rewrite <- list_fmap_compose. apply list_fmap_ext. intros i ne Hi. simpl. apply Hg; [done..|].
    rewrite list.Forall_forall in Ho. apply (Ho ne). by eapply list_elem_of_lookup_2.
  - apply (concat_ext _ _ (fmap g)); [apply fmap_app|done|].
    apply list.Forall_forall. intros d Hin. rewrite list.Forall_forall in IHd, Hd.
    destruct (Hd d Hin) as [Hc Hp]. rewrite (below_join base rel) by done.
    apply IHd; [done|done|]. by apply join_path_plain.
  - apply (concat_ext _ _ (fmap g)); [apply fmap_app|done|].
    apply list.Forall_forall. intros d Hin. rewrite list.Forall_forall in IHs, Hs. by apply IHs; auto.
Qed.

Lemma rebase_files base u :
  component base -> plain u -> forall rel, plain_path rel ->
  rebase base <$> files_at rel u = files_at (below_base base rel) u.
Proof.
  intros Hb. apply moved_files; [|apply Hb]. intros rel n e Hr Hn. by apply rebase_file.
Qed.

(** The names in pages are path components. *)
Definition component_names (pages : list (string * bytes)) : Prop :=
  forall id pg e name, page_at pages id = Some pg -> e ∈ page_entries pg -> from_utf8 (ent_name e) = Some name -> component name.

Lemma plain_tree pages t : component_names pages -> grows pages t -> plain t.
Proof.
  intros Hc. induction t as [name id own dirs subs IHd IHs] using tree_induction.
  intros [(pg & nes & Hpg & Hn & Ho & Ed & _) [Hd Hs]]%grows_inv. rewrite list.Forall_forall in IHd, IHs, Hd, Hs.
  assert (Hne : forall ne, ne ∈ nes -> component ne.1).
  { intros ne Hin. apply mapM_Some in Hn. apply list_elem_of_lookup_1 in Hin as [i Hi].
    destruct (Forall2_lookup_r _ _ _ _ _ Hn Hi) as (e & He & Hx). apply list_elem_of_lookup_2 in He. unfold named in Hx.
    apply bind_Some in Hx as (n & Hu & [= <-]). by eapply Hc. }
  apply plain_inv. split_and!; apply list.Forall_forall.
  - intros ne Hin. rewrite Ho in Hin. apply list_elem_of_filter in Hin as [_ Hin]. auto.
  - intros d Hin. split; [|auto]. apply (list_elem_of_fmap_2 (fun d => (t_name d, t_id d))) in Hin. rewrite Ed in Hin.
    apply list_elem_of_fmap in Hin as (ne & E & Hin). injection E as -> _. apply list_elem_of_filter in Hin as [_ Hin]. auto.
  - auto.
Qed.

(** ** A page determines its subtree *)

(** The byte strings at hand: page ids tell them apart. *)
Class KnownPages : Type := {
  known : bytes -> Prop;
  known_inj : forall a b, known a -> known b -> page_id a = page_id b -> a = b;
}.
Context `{!KnownPages}.

(** Every page is stored under its own id. *)
Definition page_ok (pages : list (string * bytes)) : Prop :=
  forall id b, Btree.get pages id = Some b -> known b /\ parse_digest id = Ok (page_id b).

Lemma pages_agree p id b b' :
  page_ok p -> Btree.get p id = Some b -> known b' -> parse_digest id = Ok (page_id b') -> b = b'.
Proof.
  intros Hp Hb Hk Hb'. destruct (Hp _ _ Hb) as [Hk' E]. rewrite Hb' in E. injection E as E. by apply known_inj.
Qed.

Lemma page_at_get p id pg : page_at p id = Some pg -> exists b, Btree.get p id = Some b /\ decode_page b = Ok pg.
Proof.
  unfold page_at. intros E. apply bind_Some in E as (b & Hb & E). exists b. split; [done|].
  destruct (decode_page b); by simplify_eq.
Qed.

Lemma page_at_agree p q id pg pg' :
  page_ok p -> page_ok q -> page_at p id = Some pg -> page_at q id = Some pg' -> pg = pg'.
Proof.
  intros Hp Hq (b & Hb & E)%page_at_get (b' & Hb' & E')%page_at_get. destruct (Hq _ _ Hb') as [Hk Hd].
  assert (b = b') as -> by (by apply (pages_agree p id)). congruence.
Qed.

Definition same_subtree (u u' : tree) : Prop := forall rel, amt_at rel u = amt_at rel u'.

Lemma same_subtrees q dirs dirs' :
  Forall (fun u => forall u', grows q u' -> t_id u = t_id u' -> same_subtree u u') dirs ->
  Forall (grows q) dirs' -> t_id <$> dirs = t_id <$> dirs' -> Forall2 same_subtree dirs dirs'.
Proof.
  intros IH Hg. revert dirs IH. induction Hg as [|d' dirs' Hd _ IHl]; intros [|d dirs] IH E; try done.
  rewrite !fmap_cons in E. injection E as E1 E2. apply list.Forall_cons in IH as [Hone Hrest]. constructor; auto.
Qed.

Lemma same_sums (f : tree -> string) dirs dirs' :
  f <$> dirs = f <$> dirs' -> Forall2 same_subtree dirs dirs' ->
  (forall rel, concat ((fun d => files_at (rel (f d)) d) <$> dirs) = concat ((fun d => files_at (rel (f d)) d) <$> dirs')) /\
  (list_to_set (concat (pages_of <$> dirs)) : gset string) = list_to_set (concat (pages_of <$> dirs')) /\
  zlen dirs = zlen dirs' /\ total count_of dirs = total count_of dirs'.
Proof.
  intros E Hs. induction Hs as [|d d' dirs dirs' Hd _ IH]; [done|]. rewrite !fmap_cons in E. injection E as E1 E2.
  destruct (IH E2) as (F1 & F2 & F3 & F4). unfold same_subtree, amt_at in Hd.
  split_and!.
  - intros rel. rewrite !fmap_cons, !concat_cons, E1, F1. specialize (Hd (rel (f d'))). by injection Hd as -> _ _.
  - rewrite !fmap_cons, !concat_cons, !list_to_set_app_L, F2. specialize (Hd ""). by injection Hd as _ -> _.
  - unfold zlen in *. simpl. lia.
  - simpl. specialize (Hd ""). injection Hd as _ _ ->. by rewrite F4.
Qed.

Lemma grows_same p q u u' :
  page_ok p -> page_ok q -> grows p u -> grows q u' -> t_id u = t_id u' -> same_subtree u u'.
Proof.
  intros Hp Hq. revert u'. induction u as [name id own dirs subs IHd IHs] using tree_induction.
  intros [name' id' own' dirs' subs'] [(pg & nes & Hpg & Hn & Ho & Ed & Es) [Hd Hs]]%grows_inv
    [(pg' & nes' & Hpg' & Hn' & Ho' & Ed' & Es') [Hd' Hs']]%grows_inv E. simpl in E. subst id'.
  assert (pg' = pg) as -> by (symmetry; by apply (page_at_agree p q id)).
  assert (nes' = nes) as -> by congruence. assert (own' = own) as -> by congruence.
  assert (Eid : t_id <$> dirs = t_id <$> dirs' /\ t_name <$> dirs = t_name <$> dirs').
  { rewrite <- Ed' in Ed. split; [apply (f_equal (fmap snd)) in Ed|apply (f_equal (fmap fst)) in Ed];
      rewrite <- !list_fmap_compose in Ed; exact Ed. }
  destruct Eid as [Eid Enm]. rewrite list.Forall_forall in IHd, IHs, Hd, Hs.
  assert (Sd : Forall2 same_subtree dirs dirs') by (apply (same_subtrees q); [apply list.Forall_forall|..]; auto).
  assert (Ss : Forall2 same_subtree subs subs') by (apply (same_subtrees q); [apply list.Forall_forall; auto|done|congruence]).
  intros rel. destruct (same_sums t_name dirs dirs' Enm Sd) as (F1 & F2 & F3 & F4).
  destruct (same_sums t_id subs subs') as (G1 & G2 & _ & G4); [congruence|done|].
  unfold amt_at. f_equal.
  - cbn [files_at]. f_equal. f_equal; [exact (F1 (join_path rel))|exact (G1 (fun _ => rel))].
  - cbn [pages_of]. by rewrite !list_to_set_cons, !list_to_set_app_L, F2, G2.
  - cbn [count_of]. rewrite !total_succ. lia.
Qed.
End Trees.
End SubtreeSums.
