(* ===== verification/SubtreeFacts.v ===== *)
(** * SubtreeFacts

    The summaries a full refresh publishes ([ClosureFacts]) are the amounts of
    the subtrees of [SubtreeSums]: every summary of an accepted closure lists
    the tree that its root page unfolds to. *)

From S2P Require Import Prelude Types Faults Text Profile Btree Frames Wire Closure ClosureExact ClosureFacts ClosureTree Disk Records Durable Incremental SubtreeSums.
Import Digests Profile.Scope Closure ClosureExact ClosureFacts ClosureTree Incremental SubtreeSums.
Local Open Scope string_scope.
Local Open Scope list_scope.
Local Open Scope Z_scope.

Module SubtreeFacts.

Definition rename_root (name : string) (t : tree) : tree :=
  let (_, id, own, dirs, subs) := t in Tree name id own dirs subs.

Section Trees.
Context `{HexCrate} `{PageCodec} `{CodecScope} (pages : list (string * bytes)).
Context (Hnames : component_names pages).

Lemma rename_same name t :
  t_name (rename_root name t) = name /\ t_id (rename_root name t) = t_id t /\
  (grows pages t -> grows pages (rename_root name t)) /\ amt_at "" (rename_root name t) = amt_at "" t /\
  files_at "" (rename_root name t) = files_at "" t /\ pages_of (rename_root name t) = pages_of t /\
  count_of (rename_root name t) = count_of t.
Proof. by destruct t. Qed.

(** A summary that lists a tree. *)
Definition fact_amount (f : VerifiedSubtreeFacts) : amount :=
  mkAmount (fact_files f) (list_to_set (page_ids f)) (total_entries f).
Definition fact_tree (f : VerifiedSubtreeFacts) : Prop :=
  exists t, grows pages t /\ t_id t = root_page_id f /\ fact_amount f ≡ amt_at "" t.
Definition memo_trees (memo : gmap string VerifiedSubtreeFacts) : Prop :=
  forall r f, memo !! r = Some f -> root_page_id f = r /\ fact_tree f.

(** The names of a page tree are path components. *)
Lemma skel_names k e name :
  skel_ok pages k -> e ∈ skel_entries k -> from_utf8 (ent_name e) = Some name -> component name.
Proof using Hnames.
  induction k as [id es subs IH] using skel_induction. intros [(pg & Hpg & -> & _) Hok]%skel_ok_inv He Hu.
  cbn [skel_entries] in He. apply elem_of_app in He as [He|He]; [by eapply Hnames|].
  apply list_elem_of_In, in_concat in He as (l & Hl%list_elem_of_In & He%list_elem_of_In). apply list_elem_of_fmap in Hl as (k & -> & Hk).
  rewrite list.Forall_forall in IH, Hok. by eapply IH; eauto.
Qed.

(** The summary of some entries of a directory. *)
Definition summed (base : gset string) (es : list Entry) (s : summary) : Prop :=
  memo_trees (s_memo s) /\
  exists nes ts, mapM named es = Some nes /\ Forall2 (planted pages) (filter is_dir nes) ts /\
    s_files s ≡ₚ own_files "" nes ++ sub_files "" ts /\
    (forall x, x ∈ s_pages s <-> x ∈ base \/ x ∈ concat (pages_of <$> ts)) /\
    s_total s = zlen nes + total count_of ts.

Lemma named_snoc es e nes name :
  mapM named es = Some nes -> from_utf8 (ent_name e) = Some name -> mapM named (es ++ [e]) = Some (nes ++ [(name, e)]).
Proof using Type.
  intros Hn Hu. apply mapM_Some in Hn. apply mapM_Some. apply Forall2_app; [done|]. constructor; [|constructor].
  unfold named. by rewrite Hu.
Qed.

Lemma with_path_moves name : name <> "" -> moves (fun f => with_path (name ++ "/" ++ rel_path f) f) name.
Proof using Type. intros Hn rel n e _ _. unfold with_path, file_of. simpl. by rewrite join_below. Qed.

(** The files of a summarized subdirectory, from the directory above. *)
Lemma child_files name t :
  component name -> plain t ->
  (fun f => with_path (name ++ "/" ++ rel_path f)%string f) <$> files_at "" t = files_at name t.
Proof using Type.
  intros Hc Hp. rewrite (moved_files _ name) by (apply Hp || apply Hc || done || by apply with_path_moves, Hc). done.
Qed.

Lemma summarize_tree base es e facts s s' :
  (forall name, from_utf8 (ent_name e) = Some name -> component name) ->
  (forall memo f memo', memo_trees memo -> facts (digest (child_root e)) memo = Ok (f, memo') ->
     memo_trees memo' /\ memo' !! digest (child_root e) = Some f) ->
  summed base es s -> summarize facts s e = Ok s' -> summed base (es ++ [e]) s'.
Proof using Hnames.
  intros Hcomp Hfacts (Hm & nes & ts & Hn & Hp & Hf & Hpg & Ht) Hs. unfold summarize in Hs.
  apply rbind_ok in Hs as (n1 & Hn1 & Hs). apply ok_or_ok, checked_add_some in Hn1 as [-> _].
  apply rbind_ok in Hs as (name & Hname & Hs). apply ok_or_ok in Hname. pose proof (named_snoc _ _ _ _ Hn Hname) as Hn'.
  unfold summed, own_files, sub_files in *. case_bool_decide as Hk.
  - apply rbind_ok in Hs as ([child memo] & Hch & Hs). apply Hfacts in Hch as [Hm' Hl]; [|done].
    destruct (Hm' _ _ Hl) as [Er (t & Hg & Hid & Ef & Ep & Ec)]. simpl in Ef, Ep, Ec.
    apply rbind_ok in Hs as (n2 & Hn2 & Hs). apply ok_or_ok, checked_add_some in Hn2 as [-> _]. simplify_eq.
    destruct (rename_same name t) as (Rn & Ri & Rg & _ & Rf & Rp & Rc). split; [done|].
    exists (nes ++ [(name, e)]), (ts ++ [rename_root name t]). cbn [s_files s_pages s_total]. split_and!.
    + done.
    + rewrite list.filter_app, filter_cons_True by done. apply Forall2_app; [done|]. constructor; [|constructor].
      split_and!; [done|simpl; congruence|auto].
    + rewrite list.filter_app, filter_cons_False by (intros Hx; by apply Hx). rewrite filter_nil, app_nil_r, fmap_app, concat_app.
      rewrite Hf, <- app_assoc. f_equiv. f_equiv. rewrite Ef. simpl. rewrite app_nil_r, Rn.
      rewrite child_files by (auto || by eapply plain_tree). unfold join_path. simpl. by destruct t.
    + intros x. rewrite elem_of_union, Hpg, Ep, elem_of_list_to_set, fmap_app, concat_app, elem_of_app. simpl.
      rewrite app_nil_r, Rp. tauto.
    + rewrite Ht, total_app, zlen_app. simpl. rewrite Rc, Ec. unfold zlen. simpl. lia.
  - simplify_eq. split; [done|]. exists (nes ++ [(name, e)]), ts. cbn [s_files s_pages s_total]. split_and!.
    + done.
    + by rewrite list.filter_app, filter_cons_False, filter_nil, app_nil_r.
    + rewrite list.filter_app, filter_cons_True by done. rewrite Hf, fmap_app. simpl. solve_Permutation.
    + done.
    + rewrite Ht, zlen_app. unfold zlen. simpl. lia.
Qed.

Lemma summarize_trees base todo facts : forall es s s',
  (forall e name, e ∈ todo -> from_utf8 (ent_name e) = Some name -> component name) ->
  (forall root memo f memo', memo_trees memo -> facts root memo = Ok (f, memo') ->
     memo_trees memo' /\ memo' !! root = Some f) ->
  summed base es s -> for_each (summarize facts) s todo = Ok s' -> summed base (es ++ todo) s'.
Proof using Hnames.
  induction todo as [|e todo IH]; intros es s s' Hc Hfacts Hs Hf; cbn [for_each] in Hf.
  { simplify_eq. by rewrite app_nil_r. }
  apply rbind_ok in Hf as (s1 & Hone & Hf). rewrite (app_assoc es [e] todo : es ++ e :: todo = _).
  eapply IH; [intros; eapply Hc; eauto; by right|done| |exact Hf].
  eapply summarize_tree; [intros; eapply Hc; eauto; left|eauto|exact Hs|exact Hone].
Qed.

Context (v : ClosureValidator) (Hdec : forall id, decoded v !! id = page_at pages id) (Hmemo : memo_tree pages v).

Lemma subtree_facts_tree fuel page_fuel : forall root memo f memo',
  memo_trees memo -> subtree_facts v fuel page_fuel root memo = Ok (f, memo') ->
  memo_trees memo' /\ memo' !! root = Some f.
Proof using Hnames Hdec Hmemo.
  induction fuel as [|fuel IH]; intros root memo f memo' Hm Hf; [done|].
  cbn [subtree_facts] in Hf. destruct (memo !! root) as [f0|] eqn:E; [by simplify_eq|].
  apply rbind_ok in Hf as (base & Hb & Hf). pose proof (radix_page_ids_below pages v Hdec _ _ _ Hb) as Hbase.
  apply rbind_ok in Hf as (es & Hes & Hf). apply ok_or_ok in Hes. destruct (Hmemo _ _ Hes) as (k & Ek & Hk & Hperm).
  apply rbind_ok in Hf as (s & Hs & Hf). simplify_eq.
  apply (summarize_trees base es _ []) in Hs as (Hm' & nes & ts & Hn & Hp & Hfl & Hpg & Hct); [|  |done|].
  2:{ intros e name He. rewrite Hperm in He. by apply (skel_names k). }
  2:{ split; [done|]. exists [], []. split_and!; [done|constructor|done| |done]. simpl. intros x. set_solver. }
  simpl in Hn. split; [|by rewrite lookup_insert_eq].
  intros r g [[<- <-]|[_ Hr]]%lookup_insert_Some; [|by apply Hm']. split; [done|].
  destruct (named_perm pages _ _ _ _ Hperm Hn Hp) as (nes' & ts' & Hn' & Hp' & Pn & Pt).
  destruct (graft pages k "" nes' ts' Hk Hn' Hp') as (t & _ & Hid & Hg & _ & Hft & Hpt & Hc).
  exists t. split; [done|]. split; [done|]. split_and!; unfold fact_amount, amt_at; cbn [a_files a_pages a_count fact_files page_ids total_entries].
  - rewrite sort_by_perm, Hfl, Hft. unfold own_files, sub_files. by rewrite Pn, Pt.
  - apply set_eq. intros x. rewrite !elem_of_list_to_set, elem_sorted_set, Hpg, Hbase, Hpt. by rewrite Pt.
  - rewrite Hct, Hc. unfold zlen. rewrite Pn. f_equal. clear - Pt. induction Pt; simpl; lia.
Qed.
End Trees.

(** Every summary of an accepted closure lists the tree of its root page. *)
Lemma facts_are_trees `{HexCrate} `{PageCodec} `{CodecScope} `{DescriptorCodec} `{ServingCodec} `{UuidCrate} d pages c facts :
  Btree.ordered pages -> component_names pages -> with_subtree_facts d pages = Ok (c, facts) ->
  from_pages d pages = Ok c /\ Forall (fact_tree pages) facts.
Proof.
  intros Hord Hnames Hf. unfold with_subtree_facts in Hf. apply rbind_ok in Hf as ([c' v] & Hv & Hf).
  apply rbind_ok in Hf as (memo & Hmemo & Hf). simplify_eq.
  pose proof (validated_facts _ _ _ _ Hord Hv) as (Hdec & _). destruct (validated_tree _ _ _ _ _ _ _ _ Hord Hv) as [Htree _].
  split; [unfold from_pages; by rewrite Hv|]. rewrite sort_by_perm. apply Forall_fmap, List.Forall_forall.
  intros [r f] Hin%list_elem_of_In%elem_of_map_to_list. simpl.
  enough (Hm : memo_trees pages memo) by (by destruct (Hm r f Hin)).
  apply (for_each_inv _ (memo_trees pages)) in Hmemo; [done| |].
  - intros m root m' Hm _ Hstep. apply rbind_ok in Hstep as ([f' m''] & Hstep & E). simplify_eq.
    by apply (subtree_facts_tree pages Hnames v Hdec Htree) in Hstep as [? _].
  - intros r' f' Hr. by rewrite lookup_empty in Hr.
Qed.
End SubtreeFacts.
