(* ===== verification/IncrementalFacts.v ===== *)
(** * IncrementalFacts

    The incremental refresh lists exactly the files of its snapshot, whatever
    the cache holds and the server answers, as long as the index holds records
    of real subtrees; the records it stages are such records again; and it
    ends. The invariant of the walk: in every directory under way, what was
    collected, what the pending pages list and what the pending subdirectories
    amount to add up to the whole directory. *)

From S2P Require Import Prelude Types Faults Text Profile Btree Frames Wire Metadata Closure ClosureExact ClosureTree Disk DiskLogic Records Durable Incremental SubtreeSums.
Import Digests Profile.Scope Metadata Closure ClosureExact ClosureTree Disk DiskLogic Records Incremental SubtreeSums.
Local Open Scope string_scope.
Local Open Scope list_scope.
Local Open Scope Z_scope.

Module IncrementalFacts.

(** ** The cache of a scope *)

Section Index.
Context `{HexCrate} `{PageCodec} `{CodecScope} `{Serde index} `{!KnownPages}.

(** A record of a subtree: whatever pages its root page unfolds in, it lists
    that subtree. *)
Definition sound (r : ClosureRecord) : Prop :=
  forall q u, page_ok q -> grows q u -> plain u -> t_id u = cr_root_page_id r ->
    mkAmount (cr_files r) (list_to_set (cr_page_ids r)) (cr_total_entries r) ≡ amt_at "" u.
Definition sound_index (m : index) : Prop := map_Forall (fun _ r => sound r) m.

(** What may be written to a name of the cache: an index with [J] to the index,
    known bytes to a page. *)
Definition fits (J : index -> Prop) (p : path) (b : bytes) : Prop :=
  (p = (Scope, INDEX_FILE) -> forall m, from_json b = Ok m -> J m) /\
  (p.1 = Pages -> known b).

(** The names that are read. *)
Definition used (p : path) : Prop :=
  p = (Scope, INDEX_FILE) \/ exists id, Forall is_byte id /\ p = (Pages, hex_encode id).

(** Every file of the cache fits its name, and is durable where that is asked
    for. Nothing says that a page is the one its name promises. *)
Definition cache_with (J : index -> Prop) (durable : Prop) (d : disk) : Prop :=
  forall p i, used p -> names d !! p = Some i \/ saved d !! p = Some i ->
  exists n, inodes d !! i = Some n /\ (durable -> synced n = true) /\ fits J p (data n).

Lemma cache_crash J d d' : cache_with J True d -> crash d d' -> cache_with J True d'.
Proof.
  intros Hd (Hs & Hn & Hi) p i Hu Hor. assert (Hor' : names d' !! p = Some i) by (rewrite <- Hs in Hor; by destruct Hor).
  destruct (Hd p i Hu) as (n & E & Hy & Hm).
  { destruct (Hn p) as [Hx|Hx]; rewrite Hx in Hor'; auto. }
  destruct (Hi _ _ E) as (b & E' & Hb). exists (mkInode b (regular n) true). split_and!; [done|done|].
  simpl. by rewrite (Hb (Hy I)).
Qed.

(** Writing a file that fits. *)
Lemma cache_writing J durable D name tmp b d d' :
  ~ used (D, tmp) -> fits J (D, name) b -> cache_with J durable d -> writing D name tmp b d d' -> cache_with J durable d'.
Proof.
  intros Htmp Hb Hd (i & (Hi1 & Hi2) & Hin & Hc) p j Hu Hor.
  assert (Hold : names d !! p = Some j \/ saved d !! p = Some j ->
    exists n, inodes d' !! j = Some n /\ (durable -> synced n = true) /\ fits J p (data n)).
  { intros Hj. rewrite Hin; [by apply Hd|]. intros ->. destruct (Hi2 p). tauto. }
  destruct Hc as [[Hn Hs]|(Ht & Hn & Hni & Hs)].
  { apply Hold. rewrite Hs in Hor. rewrite Hn in Hor by (intros ->; by apply Htmp). done. }
  assert (Hj : p = (D, name) /\ j = i \/ names d !! p = Some j \/ saved d !! p = Some j).
  { assert (Hnew : names d' !! p = Some j -> p = (D, name) /\ j = i \/ names d !! p = Some j).
    { rewrite Hn. intros [[<- <-]|[_ ?]]%lookup_insert_Some; auto. }
    destruct Hor as [Hor|Hor]; [by apply Hnew in Hor as [?|?]; auto|].
    destruct Hs as [Hs|Hs]; rewrite Hs in Hor; [by auto|]. case_decide; [|by auto]. by apply Hnew in Hor as [?|?]; auto. }
  destruct Hj as [[-> ->]|Hj]; [|by apply Hold]. by exists (mkInode b true true).
Qed.
End Index.

(** The cache of a scope whose records can be relied on. *)
Abbreviation cache_ok := (cache_with sound_index True).

(** ** Pages *)

Section Pages.
Context `{HexCrate} `{PageCodec} `{PageBytes} `{Serde index} `{CodecScope} `{!KnownPages} (env : environment) (managed : bool).
Context {J : index -> Prop} {durable : Prop}.

Lemma write_atomic_clean D name b s : clean (write_atomic env D name b s).1.
Proof.
  revert s. unfold write_atomic. do 3 apply clean_gate. apply clean_bind_m; [done|]. intros id. cbv zeta.
  assert (Hw : forall s, clean (write_page_file env D name (tmp_name name id) b s).1).
  { unfold write_page_file. repeat (apply clean_bind_m; [intros ?; apply clean_sys|intros ?]). intros ?. apply clean_sys. }
  intros s. unfold bind, attempt. specialize (Hw s). destruct (write_page_file _ _ _ _ _ s) as [[[]|e] s1]; [done|].
  unfold step. destruct (fault env (clock s1)) as [[[] ?]|]; [exact Hw..|]. by destruct (do_remove _ _).
Qed.

Lemma write_page_file_ok D name tmp b d :
  triple (writing D name tmp b d) (eq d) (write_page_file env D name tmp b) (fun _ => writing D name tmp b d)
    (writing D name tmp b d).
Proof.
  unfold write_page_file. eapply triple_bind; [apply create_stage|]. intros i.
  eapply triple_bind; [apply write_stage|]. intros []. eapply triple_bind; [apply sync_stage|]. intros [].
  eapply triple_weaken; [apply rename_stage|done|done| |done]. intros [] d1. apply renamed_writing.
Qed.

(** Temporary names are not read. *)
Lemma tmp_unused D name id : ~ used (D, tmp_name name id).
Proof.
  intros [[= _ E]|(x & Hx & [= _ E])]. rewrite hex_encode_lower in E. apply (f_equal as_bytes) in E.
  rewrite as_bytes_hex32 in E by done. pose proof (hex_bytes_lower x Hx) as Hh. rewrite <- E in Hh.
  by apply list.Forall_cons in Hh as [Hh _].
Qed.

(** A file that fits is written. *)
Lemma write_atomic_attains D name b : fits J (D, name) b -> attains (cache_with J durable) (write_atomic env D name b) (fun _ => True).
Proof.
  intros Hb. apply attains_triple; [apply write_atomic_clean|]. intros d Hd.
  assert (Hw : forall d', writing_any D name b d d' -> (cache_with J durable) d').
  { intros d' (id & Hw). eapply cache_writing; [apply tmp_unused|done..]. }
  eapply (triple_weaken _ (writing_any D name b d) _ (eq d) _ _ (fun _ => writing_any D name b d) _ (writing_any D name b d)); auto.
  unfold write_atomic. do 3 (apply triple_gate; [apply writing_start|]). apply triple_uuid. intros id. cbv zeta.
  intros s Hs. pose proof (guarded_write env D name id b d (write_page_file env D name (tmp_name name id) b) (writing_any D name b d)) as Hg.
  assert (Hp : triple (writing D name (tmp_name name id) b d) (eq d) (write_page_file env D name (tmp_name name id) b)
    (fun _ => writing_any D name b d) (writing D name (tmp_name name id) b d)).
  { eapply triple_weaken; [apply write_page_file_ok|done|done| |done]. intros [] d1 Hd1. by exists id. }
  specialize (Hg Hp s Hs). unfold bind in *. by destruct (attempt _ s) as [[[[]|]|] ?].
Qed.

Lemma remove_cache p d : (cache_with J durable) d -> (cache_with J durable) (do_remove p d).2.
Proof.
  intros Hd. unfold do_remove. destruct (names d !! p); [|done]. intros q i Hu Hor. apply Hd; [done|]. simpl in Hor.
  destruct Hor as [Hor|Hor]; [left|by right]. by apply lookup_delete_Some in Hor as [_ ?].
Qed.
Lemma open_cache p d : (cache_with J durable) d -> (cache_with J durable) (do_open p d).2.
Proof. unfold do_open. by destruct (names d !! p). Qed.

(** What is read from a name fits it. *)
Lemma read_fits p d b : (cache_with J durable) d -> used p -> (do_read p d).1 = Ok b -> fits J p b.
Proof.
  intros Hd Hu. unfold do_read, lookup. cbn [fst]. destruct (names d !! p) as [i|] eqn:Ei; simpl; [|done].
  destruct (Hd p i Hu) as (n & En & _ & Hf); [by left|]. rewrite En. destruct (regular n); [|done]. by intros [= <-].
Qed.

(** A cached page is known and hashes to its name. *)
Lemma read_page_verified_ok page :
  attains (cache_with J durable) (read_page_verified env managed page) (fun o => forall b, o = Some b -> known b /\ parse_digest page = Ok (page_id b)).
Proof.
  unfold read_page_verified. apply attains_gate. destruct (parse_digest page) as [want|e] eqn:Hw; [|by apply attains_ret].
  cbv zeta. apply (attains_bind _ _ (fun _ => True)); [apply attains_step; auto using open_cache|]. intros [f|[]] _;
    [|by apply attains_ret|by apply attains_fail|by apply attains_fail].
  apply (attains_bind _ _ (fun _ => True)); [by apply attains_sys|]. intros [r len] _.
  destruct (_ <? len); [by apply attains_ret|].
  apply (attains_bind _ _ (fun b => known b)).
  { apply (attains_bind _ _ (fun r => forall b, r = Ok b -> known b)).
    - apply attains_step; [|done]. intros d Hd. split; [done|]. intros b Hb. apply (read_fits _ d) in Hb; [by apply Hb|done|].
      right. exists want. apply parse_digest_ok in Hw as (_ & _ & ?). done.
    - intros x Hx. apply attains_of_res. intros b Hb%map_err_ok. by apply Hx. }
  intros b Hb. destruct (Z.ltb_spec PAGE_MAX_BYTES (zlen (take (Z.to_nat (PAGE_MAX_BYTES + 1)) b))) as [|Hlen]; [by apply attains_ret|].
  assert (Et : take (Z.to_nat (PAGE_MAX_BYTES + 1)) b = b).
  { apply take_ge. unfold zlen in Hlen. rewrite length_take in Hlen. lia. }
  rewrite Et. destruct (decide _) as [E|E].
  - apply attains_ret. intros b' [= <-]. by rewrite E.
  - apply (attains_bind _ _ (fun _ => True)); [|by intros; apply attains_ret].
    destruct managed; [by apply attains_ret|]. apply (attains_bind _ _ (fun _ => True)); [|by intros; apply attains_ret].
    apply attains_step; auto using remove_cache.
Qed.

Lemma put_page_attains page b : known b -> attains (cache_with J durable) (put_page env page b) (fun _ => True).
Proof.
  intros Hb. unfold put_page. apply (attains_bind _ _ (fun _ => True)); [by apply attains_of_res|]. intros.
  apply write_atomic_attains. by split.
Qed.

Lemma all_cached_attains ids : attains (cache_with J durable) (all_cached env managed ids) (fun _ => True).
Proof.
  induction ids as [|id ids IH]; [by apply attains_ret|]. cbn [all_cached].
  eapply attains_bind; [apply read_page_verified_ok|]. intros [b|] _; [done|by apply attains_ret].
Qed.
End Pages.

(** ** Directories under way *)

(** Their states with their trees, by path. *)
Abbreviation plan := (gmap string (DirState * tree)).

Definition kid_map (X : string) (P : plan) : gmap string tree :=
  omap (fun e => if decide (ds_parent e.1 = Some X) then Some e.2 else None) P.
(** The subdirectories of [X] that are under way. *)
Definition kids (X : string) (P : plan) : list tree := (map_to_list (kid_map X P)).*2.

Lemma kid_map_lookup X (P : plan) C :
  kid_map X P !! C = e ← P !! C; if decide (ds_parent e.1 = Some X) then Some e.2 else None.
Proof. unfold kid_map. by rewrite lookup_omap. Qed.

Lemma kids_same X (P : plan) D st st' T :
  P !! D = Some (st, T) -> ds_parent st' = ds_parent st -> kids X (<[D := (st', T)]> P) = kids X P.
Proof.
  intros HD E. unfold kids. f_equal. f_equal. apply map_eq. intros C. rewrite !kid_map_lookup.
  destruct (decide (C = D)) as [->|]; [|by rewrite lookup_insert_ne]. rewrite lookup_insert_eq, HD. simpl. by rewrite E.
Qed.

Lemma kids_new X (P : plan) C st T :
  P !! C = None ->
  kids X (<[C := (st, T)]> P) ≡ₚ (if decide (ds_parent st = Some X) then [T] else []) ++ kids X P.
Proof.
  intros HC. unfold kids. assert (HN : kid_map X P !! C = None) by (by rewrite kid_map_lookup, HC). case_decide as Hp.
  - assert (kid_map X (<[C := (st, T)]> P) = <[C := T]> (kid_map X P)) as ->.
    { apply map_eq. intros i. rewrite kid_map_lookup. destruct (decide (i = C)) as [->|].
      - rewrite !lookup_insert_eq. simpl. by rewrite decide_True.
      - by rewrite !lookup_insert_ne, kid_map_lookup. }
    by rewrite map_to_list_insert.
  - assert (kid_map X (<[C := (st, T)]> P) = kid_map X P) as ->; [|done].
    apply map_eq. intros i. rewrite !kid_map_lookup. destruct (decide (i = C)) as [->|]; [|by rewrite lookup_insert_ne].
    rewrite lookup_insert_eq, HC. simpl. by rewrite decide_False.
Qed.

Lemma kids_del X (P : plan) C st T :
  P !! C = Some (st, T) ->
  kids X P ≡ₚ (if decide (ds_parent st = Some X) then [T] else []) ++ kids X (delete C P).
Proof.
  intros HC. rewrite <- (insert_delete_id P C (st, T)) at 1 by done. apply kids_new. apply lookup_delete_eq.
Qed.

Lemma kids_elem X (P : plan) T : T ∈ kids X P -> exists C st, P !! C = Some (st, T) /\ ds_parent st = Some X.
Proof.
  unfold kids. intros ([C T'] & -> & Hin)%list_elem_of_fmap. apply elem_of_map_to_list in Hin.
  rewrite kid_map_lookup in Hin. apply bind_Some in Hin as ([st T] & HC & E). simpl in E. case_decide; simplify_eq.
  by exists C, st.
Qed.

Lemma nodup_perm {A} (l k : list A) : NoDup l -> l ≡ₚ k -> NoDup k.
Proof. by intros Hl <-. Qed.

Lemma plan_keys (P : plan) D st st' T T' :
  P !! D = Some (st, T) -> (map_to_list (<[D := (st', T')]> P)).*1 ≡ₚ (map_to_list P).*1.
Proof.
  intros HD. rewrite <- (insert_delete_id P D (st, T)) at 2 by done. rewrite <- insert_delete_eq.
  by rewrite !map_to_list_insert by apply lookup_delete_eq.
Qed.

(** A page to visit, the path of its directory and the tree it unfolds to. *)
Record job : Type := mkJob { j_item : Item; j_path : string; j_tree : tree }.
Definition jobs_of (D : string) (G : list job) : list job := filter (fun j => it_dir (j_item j) = D) G.
Definition load (G : list job) : nat := total_nat weight (j_tree <$> G).

Lemma total_nat_app f l k : total_nat f (l ++ k) = (total_nat f l + total_nat f k)%nat.
Proof. induction l as [|x l IH]; [done|]. simpl. rewrite IH. lia. Qed.

Section Invariant.
Context `{HexCrate} `{PageCodec} `{CodecScope} `{!KnownPages}.
Context (pages : list (string * bytes)) (t0 : tree).

Definition got (st : DirState) : amount := mkAmount (ds_files st) (ds_pages st) (ds_total st).
Definition jobs_amount (D : string) (G : list job) : amount := sum ((fun j => amt_at "" (j_tree j)) <$> jobs_of D G).
Definition kids_amount (D : string) (P : plan) : amount := sum (amt_kid <$> kids D P).
(** The subdirectories of [D0] that are known but not yet enqueued. *)
Definition loose (D0 : string) (l : list tree) (D : string) : list tree := if decide (D = D0) then l else [].

Definition tree_ok (u : tree) : Prop := grows pages u /\ plain u.

Record state_ok (G : list job) (D0 : string) (l : list tree) (P : plan) (D : string) (st : DirState) (T : tree) : Prop := {
  so_balance : got st ⊕ jobs_amount D G ⊕ kids_amount D P ⊕ sum (amt_kid <$> loose D0 l D) ≡ amt_at "" T;
  so_pages : ds_pending_pages st = zlen (jobs_of D G);
  so_children : ds_pending_children st = zlen (kids D P);
  so_root : ds_root st = t_id T;
  so_base : ds_base st = t_name T;
  so_tree : tree_ok T;
  so_path : exists p, plain_path p /\ D = ("/" ++ p)%string;
  so_parent : match ds_parent st with
              | None => D = "/" /\ T = t0
              | Some Q => is_Some (P !! Q) /\ (String.length Q < String.length D)%nat /\ component (ds_base st)
              end;
}.

Definition job_ok (P : plan) (j : job) : Prop :=
  plain_path (j_path j) /\ it_dir (j_item j) = ("/" ++ j_path j)%string /\ it_expected (j_item j) = t_id (j_tree j) /\
  tree_ok (j_tree j) /\ is_Some (P !! it_dir (j_item j)).

Definition absolute (l : list SnapshotDirectory) : list string := (fun d => "/" ++ dir_path d)%string <$> l.
Definition job_paths (j : job) : list string := absolute (dirs_below (j_path j) (j_tree j)).

Record inv (G : list job) (p0 : string) (l : list tree) (w : walk) (P : plan) : Prop := {
  in_states : w_states w = fst <$> P;
  in_plan : map_Forall (fun D e => state_ok G ("/" ++ p0)%string l P D e.1 e.2) P;
  in_jobs : Forall (job_ok P) G;
  in_loose : Forall (fun d => tree_ok d /\ component (t_name d)) l;
  in_distinct : NoDup ((map_to_list P).*1 ++ concat (job_paths <$> G) ++ absolute (sub_dirs p0 l));
  in_root : (exists st, P !! "/" = Some (st, t0) /\ ds_parent st = None) \/ w_out w ≡ₚ files_at "" t0;
  in_sound : sound_index (tx_records (w_tx w));
}.

(** A state elsewhere is not concerned by a change. *)
Lemma state_ok_frame G G' D0 D1 l l' P P' D st T :
  loose D1 l' D = loose D0 l D -> jobs_of D G' ≡ₚ jobs_of D G -> kids D P' ≡ₚ kids D P ->
  (forall Q, ds_parent st = Some Q -> is_Some (P !! Q) -> is_Some (P' !! Q)) ->
  state_ok G D0 l P D st T -> state_ok G' D1 l' P' D st T.
Proof.
  intros Hl HG HP HQ [B1 B2 B3 B4 B5 B6 B7 B8]. split; [|by unfold zlen; rewrite HG|by unfold zlen; rewrite HP|done..|].
  - unfold jobs_amount, kids_amount in *. by rewrite HG, HP, Hl.
  - destruct (ds_parent st) as [Q|]; [|done]. destruct B8 as (? & ? & ?). split_and!; auto.
Qed.

Lemma loose_ne D0 l D : D <> D0 -> loose D0 l D = [].
Proof. intros. unfold loose. by rewrite decide_False. Qed.
Lemma loose_nil D0 D : loose D0 [] D = [].
Proof. unfold loose. by case_decide. Qed.
Lemma loose_eq D0 l : loose D0 l D0 = l.
Proof. unfold loose. by rewrite decide_True. Qed.

Lemma plan_state G p0 l w P D st T :
  inv G p0 l w P -> P !! D = Some (st, T) -> state_ok G ("/" ++ p0)%string l P D st T.
Proof. intros Hi HD. exact (in_plan _ _ _ _ _ Hi D (st, T) HD). Qed.
End Invariant.
End IncrementalFacts.
