(* ===== verification/IncrementalWalk.v ===== *)
(** * IncrementalWalk

    The steps of the incremental refresh keep the invariant of its walk:
    enqueueing a directory or reusing its record, handing a complete directory
    to its parent, and visiting a page. *)

From S2P Require Import Prelude Types Faults Text Profile Btree Frames Wire Metadata Closure ClosureExact ClosureTree Disk DiskLogic Records Durable Incremental SubtreeSums IncrementalFacts.
Import Digests Profile.Scope Metadata Closure ClosureExact ClosureTree Disk DiskLogic Records Incremental SubtreeSums IncrementalFacts.
Local Open Scope string_scope.
Local Open Scope list_scope.
Local Open Scope Z_scope.

Module IncrementalWalk.

Section Walk.
Context `{HexCrate} `{PageCodec} `{PageBytes} `{Serde index} (env : environment) (managed : bool).
Context `{CodecScope} `{!KnownPages} (scope auth_domain snapshot_id : string) (codec : Z).
Context (pages : list (string * bytes)) (t0 : tree).

Abbreviation inv := (inv pages t0).
Abbreviation state_ok := (state_ok pages t0).

(** ** Records *)

Lemma sound_set_pin r pin : sound r -> sound (set_pin r pin).
Proof using Type. done. Qed.

(** The record of a subtree of the snapshot. *)
Lemma sound_of_tree r u :
  page_ok pages -> tree_ok pages u -> cr_root_page_id r = t_id u ->
  mkAmount (cr_files r) (list_to_set (cr_page_ids r)) (cr_total_entries r) ≡ amt_at "" u -> sound r.
Proof using Type.
  intros Hpages [Hg Hp] Er Ha q v Hq Hv Hpv Ev. assert (Hs : same_subtree u v) by (apply (grows_same pages q); congruence || done).
  by rewrite Ha, (Hs "").
Qed.

Lemma put_record_sound tx r : sound_index (tx_records tx) -> sound r -> sound_index (tx_records (put_record tx r)).
Proof using Type. intros Hs Hr. unfold put_record. case_decide; [done|]. by apply map_Forall_insert_2. Qed.

(** A reused record lists the subtree of the directory; its pin is renewed. *)
Lemma try_reuse_ok root dir tx u :
  page_ok pages -> sound_index (tx_records tx) -> tree_ok pages u -> t_id u = root ->
  attains cache_ok (try_reuse env managed scope auth_domain snapshot_id codec root dir tx) (fun rt =>
    sound_index (tx_records rt.2) /\
    forall ru, rt.1 = Some ru -> mkAmount (ru_files ru) (list_to_set (ru_page_ids ru)) (ru_total ru) ≡ amt_at "" u).
Proof using Type.
  intros Hpages Hs [Hg Hp] Hu. unfold try_reuse. eapply (attains_bind _ _ (fun _ => True)); [by apply attains_of_res|]. intros _ _.
  destruct (tx_records tx !! root) as [r|] eqn:Hr; [|by apply attains_ret].
  match goal with |- attains cache_ok (if ?b then _ else _) _ => destruct b eqn:Hb end; [by apply attains_ret|].
  rewrite !orb_false_iff, !negb_false_iff in Hb. destruct Hb as [[_ Er%String.eqb_eq] _].
  eapply attains_bind; [apply all_cached_attains|]. intros [] _; cbn [negb]; [|by apply attains_ret].
  pose proof (Hs root r Hr pages u Hpages Hg Hp ltac:(congruence)) as Ha. apply attains_ret. split.
  - destruct (String.eqb _ _); simpl; [done|]. apply map_Forall_insert_2; [|done]. by apply sound_set_pin, (Hs root).
  - intros ru [= <-]. exact Ha.
Qed.

(** ** Handing over *)

Lemma hand_over_ok Q base ids files tot states ps T :
  states !! Q = Some ps -> 0 < ds_pending_children ps ->
  mkAmount files ids tot ≡ amt_at "" T -> t_name T = base -> component base -> plain T ->
  clean (hand_over Q base ids files tot states) /\
  forall s', hand_over Q base ids files tot states = Ok s' -> exists ps', s' = <[Q := ps']> states /\
    got ps' ≡ got ps ⊕ amt_kid T /\ ds_base ps' = ds_base ps /\ ds_parent ps' = ds_parent ps /\
    ds_root ps' = ds_root ps /\ ds_pending_pages ps' = ds_pending_pages ps /\
    ds_pending_children ps' = ds_pending_children ps - 1.
Proof using Type.
  intros HQ Hpos (Ef & Ei & Et) En Hc Hp. unfold hand_over. rewrite HQ. simpl in Ef, Ei, Et. split.
  { apply clean_bind; [by destruct (checked_add _ _)|]. intros s _. destruct (Z.leb_spec (ds_pending_children ps) 0); [lia|done]. }
  intros s' Hs. inv_ok. subst s'. eexists. split; [done|]. split_and!; try done.
  match goal with Ha : checked_add _ _ = Some _ |- _ => apply checked_add_some in Ha as [-> _] end. subst. split_and!; simpl; [|set_solver|lia].
  rewrite Ef. by rewrite rebase_files.
Qed.
(** ** Changes of the plan *)

(** Directories that are not under way have no page to visit and no child. *)
Lemma no_jobs G p0 l w P D : inv G p0 l w P -> P !! D = None -> jobs_of D G = [].
Proof using Type.
  intros Hi HD. unfold jobs_of. destruct (filter _ G) as [|j k] eqn:E; [done|]. exfalso.
  assert (Hj : j ∈ filter (fun j => it_dir (j_item j) = D) G) by (rewrite E; left).
  apply list_elem_of_filter in Hj as [Ed Hj]. pose proof (in_jobs _ _ _ _ _ _ _ Hi) as Hall.
  rewrite list.Forall_forall in Hall. destruct (Hall j Hj) as (_ & _ & _ & _ & [x Hx]). congruence.
Qed.

Lemma no_kids G p0 l w P D : inv G p0 l w P -> P !! D = None -> kids D P = [].
Proof using Type.
  intros Hi HD. destruct (kids D P) as [|T k] eqn:E; [done|]. exfalso.
  destruct (kids_elem D P T) as (C & st & HC & Ep); [rewrite E; left|].
  pose proof (so_parent _ _ _ _ _ _ _ _ _ (plan_state _ _ _ _ _ _ _ _ _ _ Hi HC)) as Hp. rewrite Ep in Hp.
  destruct Hp as [[x Hx] _]. congruence.
Qed.

(** The state of one directory under way changes. *)
Lemma set_state G G' p0 p1 l l' w w' P D st st' T :
  inv G p0 l w P -> P !! D = Some (st, T) -> ds_parent st' = ds_parent st ->
  state_ok G' ("/" ++ p1) l' (<[D := (st', T)]> P) D st' T ->
  (forall X, X <> D -> jobs_of X G' = jobs_of X G /\ loose ("/" ++ p1) l' X = loose ("/" ++ p0) l X) ->
  Forall (job_ok pages P) G' -> Forall (fun d => tree_ok pages d /\ component (t_name d)) l' ->
  NoDup ((map_to_list P).*1 ++ concat (job_paths <$> G') ++ absolute (sub_dirs p1 l')) ->
  w_states w' = <[D := st']> (w_states w) -> w_out w' = w_out w -> sound_index (tx_records (w_tx w')) ->
  inv G' p1 l' w' (<[D := (st', T)]> P).
Proof using Type.
  intros Hi HD Ep Hst Hfr Hj Hl Hnd Es Eo Hs. split; try done.
  - by rewrite Es, (in_states _ _ _ _ _ _ _ Hi), fmap_insert.
  - intros X [sx TX] HX. apply lookup_insert_Some in HX as [[<- E]|[Hne HX]]; [by injection E as <- <-|].
    destruct (Hfr X) as [HG El]; [done|]. simpl.
    eapply state_ok_frame; [done|by rewrite HG|by rewrite (kids_same X P D st st' T)| |exact (plan_state _ _ _ _ _ _ _ _ _ _ Hi HX)].
    intros Q _ HQ. destruct (decide (Q = D)) as [->|]; [by rewrite lookup_insert_eq|by rewrite lookup_insert_ne].
  - eapply list.Forall_impl; [exact Hj|]. intros j (? & ? & ? & ? & Hx). split_and!; try done.
    destruct (decide (it_dir (j_item j) = D)) as [->|]; [by rewrite lookup_insert_eq|by rewrite lookup_insert_ne].
  - by rewrite (plan_keys P D st).
  - rewrite Eo. destruct (in_root _ _ _ _ _ _ _ Hi) as [(s0 & Hr & En)|?]; [left|by right].
    destruct (decide (D = "/")) as [->|].
    + exists st'. rewrite lookup_insert_eq. rewrite Hr in HD. injection HD as <- <-. split; [done|congruence].
    + exists s0. by rewrite lookup_insert_ne.
Qed.
(** ** Enqueueing *)

Lemma child_longer p n : component n -> (String.length ("/" ++ p) < String.length ("/" ++ join_path p n))%nat.
Proof using Type.
  intros [Hn _]. unfold join_path. destruct p as [|c p]; simpl.
  - destruct n; [done|simpl; lia].
  - enough (String.length p < String.length (p ++ String "/" n))%nat by (simpl in *; lia).
    clear. induction p as [|x p IH]; simpl; lia.
Qed.

Lemma absolute_cons p0 d l :
  absolute (sub_dirs p0 (d :: l)) =
  ("/" ++ join_path p0 (t_name d))%string :: absolute (dirs_below (join_path p0 (t_name d)) d) ++ absolute (sub_dirs p0 l).
Proof using Type. unfold absolute, sub_dirs. by rewrite fmap_cons, concat_cons, fmap_app, fmap_cons. Qed.

Definition await_one (st : DirState) : DirState :=
  mkState (ds_base st) (ds_parent st) (ds_root st) (ds_pages st) (ds_files st) (ds_total st) (ds_pending_pages st)
    (ds_pending_children st + 1).

Lemma await_child_known D st states :
  states !! D = Some st -> await_child (Some D) states = <[D := await_one st]> states.
Proof using Type.
  intros HD. simpl. apply map_eq. intros i. destruct (decide (i = D)) as [->|].
  - by rewrite lookup_alter_eq, lookup_insert_eq, HD.
  - by rewrite lookup_alter_ne, lookup_insert_ne.
Qed.

(** A subdirectory that is not reused is under way with its root page. *)
Definition kid_job (p0 : string) (d : tree) : job :=
  mkJob (mkPageItem ("/" ++ join_path p0 (t_name d)) [] (t_id d)) (join_path p0 (t_name d)) d.

Section NewKid.
Context (G : list job) (p0 : string) (d : tree) (l : list tree) (w : walk) (P : plan) (st : DirState) (T : tree).
#[local] Abbreviation D := ("/" ++ p0)%string.
#[local] Abbreviation C := ("/" ++ join_path p0 (t_name d))%string.
#[local] Abbreviation new := (mkState (t_name d) (Some D) (t_id d) ∅ [] 0 1 0).
#[local] Abbreviation P' := (<[C := (new, d)]> (<[D := (await_one st, T)]> P)).
Context (Hi : inv G p0 (d :: l) w P) (HD : P !! D = Some (st, T)).

Lemma kid_ok : tree_ok pages d /\ component (t_name d).
Proof using Hi. pose proof (in_loose _ _ _ _ _ _ _ Hi) as Hl. by apply list.Forall_cons in Hl as [? _]. Qed.

Lemma kid_fresh : P !! C = None.
Proof using Hi.
  pose proof (in_distinct _ _ _ _ _ _ _ Hi) as Hnd. rewrite absolute_cons in Hnd.
  apply eq_None_not_Some. intros [x Hx]. apply list.NoDup_app in Hnd as (_ & Hd' & _). apply (Hd' C).
  - apply list_elem_of_fmap. exists (C, x). split; [done|]. by apply elem_of_map_to_list.
  - apply elem_of_app. right. left.
Qed.

Lemma kid_ne : C <> D.
Proof using Hi HD. intros E. pose proof kid_fresh as HN. rewrite E in HN. congruence. Qed.

Lemma kid_new : <[D := (await_one st, T)]> P !! C = None.
Proof using Hi HD. rewrite lookup_insert_ne by (intros E; by apply kid_ne). apply kid_fresh. Qed.

Lemma kid_kept Q : is_Some (P !! Q) -> is_Some (P' !! Q).
Proof using Hi HD.
  intros HQ. destruct (decide (Q = C)) as [->|]; [by rewrite lookup_insert_eq|rewrite lookup_insert_ne by done].
  destruct (decide (Q = D)) as [->|]; [by rewrite lookup_insert_eq|by rewrite lookup_insert_ne].
Qed.

Lemma kid_plain : plain_path p0.
Proof using Hi HD.
  destruct (so_path _ _ _ _ _ _ _ _ _ (plan_state _ _ _ _ _ _ _ _ _ _ Hi HD)) as (p & Hp & E). by injection E as ->.
Qed.

Lemma kid_jobs X : jobs_of X (G ++ [kid_job p0 d]) = jobs_of X G ++ (if decide (X = C) then [kid_job p0 d] else []).
Proof using Type.
  unfold jobs_of. rewrite list.filter_app. f_equal. case_decide as E.
  - by rewrite filter_cons_True, filter_nil by done.
  - rewrite filter_cons_False, filter_nil; [done|]. intros E'. by apply E.
Qed.

Lemma kid_kids X : kids X P' ≡ₚ (if decide (X = D) then [d] else []) ++ kids X P.
Proof using Hi HD.
  rewrite kids_new by apply kid_new. rewrite (kids_same X P D st) by done. simpl. repeat case_decide; congruence || done.
Qed.

Lemma kid_state : state_ok (G ++ [kid_job p0 d]) D l P' C new d.
Proof using Hi HD.
  pose proof kid_ok as [Hd Hc]. pose proof kid_ne as Hne.
  assert (Hj : jobs_of C (G ++ [kid_job p0 d]) = [kid_job p0 d])
    by (by rewrite kid_jobs, (no_jobs _ _ _ _ _ C Hi kid_fresh), decide_True).
  assert (Hk : kids C P' ≡ₚ []) by (by rewrite kid_kids, (no_kids _ _ _ _ _ C Hi kid_fresh), decide_False).
  split; try done.
  - unfold jobs_amount, kids_amount. rewrite Hj, Hk, loose_ne by done. simpl. amounts.
  - by rewrite Hj.
  - unfold zlen. by rewrite Hk.
  - exists (join_path p0 (t_name d)). split; [|done]. apply join_path_plain; [apply kid_plain|done].
  - cbn [ds_parent ds_base]. split_and!; [|by apply child_longer|done]. apply kid_kept. by rewrite HD.
Qed.

Lemma await_state : state_ok (G ++ [kid_job p0 d]) D l P' D (await_one st) T.
Proof using Hi HD.
  pose proof (plan_state _ _ _ _ _ _ _ _ _ _ Hi HD) as [B1 B2 B3 B4 B5 B6 B7 B8].
  assert (Hj : jobs_of D (G ++ [kid_job p0 d]) = jobs_of D G)
    by (rewrite kid_jobs, decide_False, app_nil_r by (intros E; by apply kid_ne); done).
  split; try done.
  - unfold jobs_amount, kids_amount in *. rewrite Hj, kid_kids, loose_eq, decide_True by done. rewrite loose_eq in B1.
    rewrite <- B1. cbn [app]. rewrite !fmap_cons. cbn [sum foldr].
    change (foldr plus zero) with sum. change (got (await_one st)) with (got st).
    generalize (sum (amt_kid <$> kids D P)) (sum (amt_kid <$> l)). intros a b. amounts.
  - by rewrite Hj.
  - unfold zlen in *. rewrite kid_kids, decide_True by done. simpl in *. lia.
  - destruct (ds_parent st) as [Q|] eqn:Eq; simpl; rewrite Eq; [|done]. destruct B8 as (? & ? & ?).
    split_and!; auto using kid_kept.
Qed.

Lemma add_kid w' :
  w_states w' = <[C := new]> (<[D := await_one st]> (w_states w)) -> w_out w' = w_out w ->
  sound_index (tx_records (w_tx w')) -> inv (G ++ [kid_job p0 d]) p0 l w' P'.
Proof using Hi HD.
  intros Es Eo Hs. pose proof kid_ok as [Hd Hc]. split.
  - by rewrite Es, (in_states _ _ _ _ _ _ _ Hi), !fmap_insert.
  - intros X [sx TX] HX. apply lookup_insert_Some in HX as [[<- E]|[HXC HX]]; [injection E as <- <-; exact kid_state|].
    apply lookup_insert_Some in HX as [[<- E]|[HXD HX]]; [injection E as <- <-; exact await_state|].
    simpl. apply (state_ok_frame pages t0 G _ D _ (d :: l) _ P); [by rewrite !loose_ne| | |by auto using kid_kept|].
    + by rewrite kid_jobs, decide_False, app_nil_r.
    + by rewrite kid_kids, decide_False.
    + exact (plan_state _ _ _ _ _ _ _ _ _ _ Hi HX).
  - apply Forall_app. split.
    + eapply list.Forall_impl; [exact (in_jobs _ _ _ _ _ _ _ Hi)|]. intros j (? & ? & ? & ? & ?).
      split_and!; auto using kid_kept.
    + constructor; [|constructor]. split_and!; try done; simpl; [|by rewrite lookup_insert_eq].
      apply join_path_plain; [apply kid_plain|done].
  - pose proof (in_loose _ _ _ _ _ _ _ Hi) as Hl. by apply list.Forall_cons in Hl as [_ ?].
  - rewrite fmap_app, concat_app. simpl. rewrite app_nil_r. unfold job_paths at 2. simpl.
    assert ((map_to_list P').*1 ≡ₚ C :: (map_to_list P).*1) as ->.
    { rewrite map_to_list_insert by apply kid_new. rewrite fmap_cons. by rewrite (plan_keys P D st). }
    pose proof (in_distinct _ _ _ _ _ _ _ Hi) as Hnd. rewrite absolute_cons in Hnd.
    eapply nodup_perm; [exact Hnd|]. solve_Permutation.
  - rewrite Eo. destruct (in_root _ _ _ _ _ _ _ Hi) as [(s0 & Hr & En)|?]; [left|by right].
    assert (C <> "/") by (intros E; pose proof kid_fresh as HN; rewrite E in HN; congruence).
    rewrite lookup_insert_ne by done. destruct (decide (D = "/")) as [E0|].
    + exists (await_one st). rewrite E0, lookup_insert_eq. rewrite E0, Hr in HD. by injection HD as <- <-.
    + exists s0. by rewrite lookup_insert_ne.
  - done.
Qed.
End NewKid.
(** A reused subdirectory is handed over at once. *)
Lemma reuse_kid G p0 d l w w' P st st' T :
  let D := ("/" ++ p0)%string in
  inv G p0 (d :: l) w P -> P !! D = Some (st, T) -> got st' ≡ got st ⊕ amt_kid d ->
  ds_base st' = ds_base st -> ds_parent st' = ds_parent st -> ds_root st' = ds_root st ->
  ds_pending_pages st' = ds_pending_pages st -> ds_pending_children st' = ds_pending_children st ->
  w_states w' = <[D := st']> (w_states w) -> w_out w' = w_out w -> sound_index (tx_records (w_tx w')) ->
  inv G p0 l w' (<[D := (st', T)]> P).
Proof using Type.
  intros D Hi HD Eg Eb Ep Er Epp Epc Es Eo Hs.
  pose proof (plan_state _ _ _ _ _ _ _ _ _ _ Hi HD) as [B1 B2 B3 B4 B5 B6 B7 B8].
  eapply set_state; try done.
  - split; try congruence || done.
    + unfold kids_amount in *. rewrite (kids_same D P D st) by done. rewrite <- B1, Eg. fold D. rewrite !loose_eq, fmap_cons.
      cbn [sum foldr]. change (foldr plus zero) with sum.
      generalize (sum (amt_kid <$> l)) (sum (amt_kid <$> kids D P)). intros a b. amounts.
    + rewrite (kids_same D P D st) by done. congruence.
    + rewrite Ep. destruct (ds_parent st) as [Q|]; [|done]. destruct B8 as ([x HQ] & Hlen & ?). rewrite Eb.
      split_and!; [|done|done]. rewrite lookup_insert_ne by (intros E; rewrite E in Hlen; lia). by rewrite HQ.
  - intros X HX. by rewrite !loose_ne.
  - apply (in_jobs _ _ _ _ _ _ _ Hi).
  - pose proof (in_loose _ _ _ _ _ _ _ Hi) as Hl. by apply list.Forall_cons in Hl as [_ ?].
  - pose proof (in_distinct _ _ _ _ _ _ _ Hi) as Hnd. rewrite absolute_cons in Hnd.
    eapply sublist_NoDup; [exact Hnd|]. apply sublist_app; [done|]. apply sublist_app; [done|].
    apply sublist_cons, sublist_inserts_l. done.
Qed.

(** [enqueue_dir!] for a subdirectory. *)
Definition enqueued (G : list job) (p0 : string) (l : list tree) (w : walk) (bound : nat) (w' : walk) : Prop :=
  exists new P', inv (G ++ new) p0 l w' P' /\ w_frontier w' = w_frontier w ++ (j_item <$> new) /\
    is_Some (P' !! ("/" ++ p0)%string) /\ (load new <= bound)%nat.

Lemma enqueue_kid G p0 d l w P :
  page_ok pages -> inv G p0 (d :: l) w P -> is_Some (P !! ("/" ++ p0)%string) ->
  attains cache_ok (enqueue_dir env managed scope auth_domain snapshot_id codec ("/" ++ join_path p0 (t_name d)) (t_id d)
            (Some ("/" ++ p0)%string) (t_name d) w) (enqueued G p0 l w (weight d)).
Proof using Type.
  intros Hpages Hi [[st T] HD]. unfold enqueue_dir. eapply (attains_bind _ _ (fun _ => True)); [by apply attains_of_res|].
  intros _ _. assert (Hst : w_states w !! ("/" ++ p0)%string = Some st)
    by (rewrite (in_states _ _ _ _ _ _ _ Hi), lookup_fmap, HD; done).
  pose proof (kid_ok _ _ _ _ _ _ Hi) as [[Hg Hpl] Hc].
  rewrite (await_child_known _ st) by done. cbn [w_out w_states w_frontier w_tx].
  eapply attains_bind; [apply (try_reuse_ok _ _ _ d); [done|apply (in_sound _ _ _ _ _ _ _ Hi)|done|done]|].
  intros [[ru|] tx] [Htx Hru]; simpl in Htx, Hru.
  - specialize (Hru _ eq_refl). unfold finish_from_record. cbn [w_out w_states w_frontier w_tx].
    pose proof (so_children _ _ _ _ _ _ _ _ _ (plan_state _ _ _ _ _ _ _ _ _ _ Hi HD)) as Hch.
    edestruct (hand_over_ok ("/" ++ p0) (t_name d) (list_to_set (ru_page_ids ru)) (ru_files ru) (ru_total ru)
      (<[("/" ++ p0)%string := await_one st]> (w_states w)) (await_one st) d) as [Hcl Hok]; try done.
    { by rewrite lookup_insert_eq. }
    { simpl. rewrite Hch. unfold zlen. lia. }
    apply attains_of_run; [by apply clean_bind|]. intros w' Hw. apply rbind_ok in Hw as (s' & Hs & [= <-]).
    apply Hok in Hs as (st' & -> & Eg & Eb & Ep & Er & Epp & Epc). rewrite insert_insert_eq.
    exists [], (<[("/" ++ p0)%string := (st', T)]> P). rewrite app_nil_r. split_and!.
    + eapply reuse_kid; try done. rewrite Epc. simpl. lia.
    + simpl. by rewrite app_nil_r.
    + by rewrite lookup_insert_eq.
    + apply Nat.le_0_l.
  - apply attains_ret. eexists [kid_job p0 d], _. split_and!.
    + by eapply (add_kid _ _ _ _ _ _ _ _ Hi HD).
    + done.
    + eapply kid_kept; [exact Hi|exact HD|]. by rewrite HD.
    + unfold load. simpl. lia.
Qed.

Lemma load_app G G' : load (G ++ G') = (load G + load G')%nat.
Proof using Type. unfold load. by rewrite fmap_app, total_nat_app. Qed.

(** The subdirectories of a page. *)
Lemma enqueue_kids dirs : forall G p0 w P,
  page_ok pages -> inv G p0 dirs w P -> is_Some (P !! ("/" ++ p0)%string) ->
  attains cache_ok (fold_m (fun w c => let '(path, base, root) := c in
            enqueue_dir env managed scope auth_domain snapshot_id codec path root (Some ("/" ++ p0)%string) base w) w
            ((fun d => (("/" ++ join_path p0 (t_name d))%string, t_name d, t_id d)) <$> dirs))
         (enqueued G p0 [] w (total_nat weight dirs)).
Proof using Type.
  induction dirs as [|d dirs IH]; intros G p0 w P Hpages Hi HD.
  { apply attains_ret. exists [], P. rewrite !app_nil_r. split_and!; try done. }
  rewrite fmap_cons. cbn [fold_m]. eapply attains_bind; [by eapply enqueue_kid|].
  intros w1 (n1 & P1 & Hi1 & Ef1 & HD1 & Hl1). eapply attains_weaken; [by apply (IH (G ++ n1) p0 w1 P1)|].
  intros w2 (n2 & P2 & Hi2 & Ef2 & HD2 & Hl2). exists (n1 ++ n2), P2. split_and!; [by rewrite app_assoc| |done|].
  - by rewrite Ef2, Ef1, fmap_app, app_assoc.
  - rewrite load_app. simpl. lia.
Qed.
(** ** Visiting a page *)

Lemma digest_text id : digest_string id = digest id.
Proof using Type. unfold digest_string, digest. by rewrite hex_encode_lower. Qed.

(** The directories that entries name, as [visit] enqueues them. *)
Definition named_dir (p : string) (ne : string * Entry) : string * string * string :=
  (("/" ++ join_path p ne.1)%string, ne.1, digest (child_root ne.2)).

Lemma entry_path p n :
  plain_path p ->
  (if String.eqb ("/" ++ p) "/" then n else trim_start_slash ("/" ++ p) ++ "/" ++ n)%string = join_path p n.
Proof using Type.
  intros Hp. unfold join_path. destruct p as [|c p]; [done|].
  change (trim_start_slash ("/" ++ String c p)) with (trim_start_slash (String c p)).
  by rewrite (Hp : trim_start_slash _ = _).
Qed.

Lemma handle_entry_ok p l e l' :
  plain_path p -> handle_entry ("/" ++ p) l e = Ok l' -> exists ne, named e = Some ne /\
    l_total l' = l_total l + 1 /\
    l_files l' = l_files l ++ ((fun ne => file_of (join_path "" ne.1) ne.2) <$> filter (fun ne => ~ is_dir ne) [ne]) /\
    l_dirs l' = l_dirs l ++ (named_dir p <$> filter is_dir [ne]).
Proof using Type.
  intros Hp Hl. unfold handle_entry in Hl. apply rbind_ok in Hl as (n & Hn & Hl). apply ok_or_ok in Hn. cbv zeta in Hl.
  rewrite entry_path in Hl by done. apply rbind_ok in Hl as (tot & Ht & Hl).
  apply ok_or_ok, checked_add_some in Ht as [-> _]. injection Hl as <-.
  exists (n, e). split; [unfold named; by rewrite Hn|]. rewrite !digest_text. case_bool_decide as Hk.
  - rewrite filter_cons_False, filter_nil by (intros Hx; by apply Hx). rewrite filter_cons_True, filter_nil by done.
    simpl. by rewrite app_nil_r.
  - rewrite filter_cons_True, filter_nil by done. rewrite filter_cons_False, filter_nil by done.
    simpl. by rewrite app_nil_r.
Qed.

Lemma handle_entries_ok p es : forall l nes l',
  plain_path p -> mapM named es = Some nes -> for_each (handle_entry ("/" ++ p)) l es = Ok l' ->
  l_total l' = l_total l + zlen nes /\
  l_files l' = l_files l ++ ((fun ne => file_of (join_path "" ne.1) ne.2) <$> filter (fun ne => ~ is_dir ne) nes) /\
  l_dirs l' = l_dirs l ++ (named_dir p <$> filter is_dir nes).
Proof using Type.
  induction es as [|e es IH]; intros l nes l' Hp Hn Hf; simpl in Hn.
  { injection Hn as <-. injection Hf as <-. rewrite !filter_nil, !app_nil_r. split_and!; [unfold zlen; simpl; lia|done..]. }
  apply bind_Some in Hn as (ne & Hne & Hn). apply bind_Some in Hn as (nes' & Hnes & [= <-]).
  cbn [for_each] in Hf. apply rbind_ok in Hf as (l1 & Hl1 & Hf).
  apply handle_entry_ok in Hl1 as (ne' & Hne' & Et & Ef & Ed); [|done]. assert (ne' = ne) as -> by congruence.
  apply (IH _ nes') in Hf as (Et' & Ef' & Ed'); [|done..]. rewrite Et', Ef', Ed', Et, Ef, Ed.
  change (ne :: nes') with ([ne] ++ nes'). rewrite !list.filter_app, !fmap_app, !app_assoc.
  split_and!; [|done|done]. unfold zlen. rewrite length_app. simpl. lia.
Qed.
(** The pages below a visited page. *)
Definition below_job (D p : string) (j : job) : Prop :=
  it_dir (j_item j) = D /\ j_path j = p /\ it_expected (j_item j) = t_id (j_tree j).

Lemma below_jobs_of D p js : Forall (below_job D p) js -> jobs_of D js = js.
Proof using Type.
  unfold jobs_of. induction 1 as [|j js (E & _) _ IH]; [done|]. by rewrite filter_cons_True, IH.
Qed.
Lemma below_jobs_ne D p js X : Forall (below_job D p) js -> X <> D -> jobs_of X js = [].
Proof using Type.
  intros Hj Hne. unfold jobs_of. induction Hj as [|j js (E & _) _ IH]; [done|]. rewrite filter_cons_False, IH; [done|congruence].
Qed.
Lemma below_jobs_paths D p js :
  Forall (below_job D p) js -> concat (job_paths <$> js) = absolute (concat (dirs_below p <$> (j_tree <$> js))).
Proof using Type.
  unfold absolute. induction 1 as [|j js (_ & E & _) _ IH]; [done|].
  rewrite !fmap_cons, !concat_cons, fmap_app, IH. unfold job_paths, absolute. by rewrite E.
Qed.

Lemma visited_paths p name id own dirs subs it :
  job_paths (mkJob it p (Tree name id own dirs subs)) = absolute (sub_dirs p dirs) ++ absolute (concat (dirs_below p <$> subs)).
Proof using Type. unfold job_paths, absolute, sub_dirs. cbn [j_path j_tree dirs_below]. by rewrite fmap_app. Qed.

(** The page is accounted for, the directories it names are known. *)
Lemma visit_state j G p0 p w w' P st st' T name id own dirs subs js :
  let D := ("/" ++ p)%string in
  inv (j :: G) p0 [] w P -> it_dir (j_item j) = D -> j_path j = p -> j_tree j = Tree name id own dirs subs ->
  P !! D = Some (st, T) -> Forall (below_job D p) js -> j_tree <$> js = subs ->
  got st' ≡ got st ⊕ own_amount "" id own dirs -> ds_base st' = ds_base st -> ds_parent st' = ds_parent st ->
  ds_root st' = ds_root st -> ds_pending_pages st' = ds_pending_pages st + zlen subs - 1 ->
  ds_pending_children st' = ds_pending_children st ->
  w_states w' = <[D := st']> (w_states w) -> w_out w' = w_out w -> sound_index (tx_records (w_tx w')) ->
  inv (G ++ js) p dirs w' (<[D := (st', T)]> P).
Proof using Type.
  intros D Hi Ed Ej Et HD Hjs Esub Eg Eb Ep Er Epp Epc Es Eo Hs.
  pose proof (plan_state _ _ _ _ _ _ _ _ _ _ Hi HD) as [B1 B2 B3 B4 B5 B6 B7 B8].
  assert (EG : jobs_of D (j :: G) = j :: jobs_of D G) by (unfold jobs_of; by rewrite filter_cons_True).
  assert (EG' : jobs_of D (G ++ js) = jobs_of D G ++ js).
  { rewrite <- (below_jobs_of D p js) at 2 by done. unfold jobs_of. by rewrite list.filter_app. }
  pose proof (in_jobs _ _ _ _ _ _ _ Hi) as Hj. apply list.Forall_cons in Hj as [(Hpl & _ & _ & [Hg Hp] & _) Hj].
  rewrite Et in Hg, Hp. apply grows_inv in Hg as (_ & Hgd & Hgs). apply plain_inv in Hp as (_ & Hpd & Hps).
  rewrite list.Forall_forall in Hgd, Hgs, Hpd, Hps.
  eapply set_state; try done.
  - split; try congruence || done.
    + unfold jobs_amount, kids_amount in *. rewrite (kids_same D P D st) by done. rewrite EG', <- B1, EG, Eg. fold D.
      rewrite loose_eq, loose_nil, !fmap_app, sum_app, fmap_cons. cbn [sum foldr]. change (foldr plus zero) with sum.
      rewrite Et, amt_node. replace ((fun j => amt_at "" (j_tree j)) <$> js) with (amt_at "" <$> subs)
        by (by rewrite <- Esub, <- list_fmap_compose).
      change ((fun d => amt_at (join_path "" (t_name d)) d) <$> dirs) with (amt_kid <$> dirs).
      generalize (sum (amt_kid <$> dirs)) (sum (amt_kid <$> kids D P)) (sum (amt_at "" <$> subs))
        (sum ((fun j => amt_at "" (j_tree j)) <$> jobs_of D G)) (own_amount "" id own dirs). intros a b c e f.
      rewrite plus_zero. amounts.
    + rewrite Epp, B2, EG, EG', <- Esub. unfold zlen. rewrite length_app, length_fmap. simpl. lia.
    + rewrite (kids_same D P D st) by done. congruence.
    + rewrite Ep. destruct (ds_parent st) as [Q|]; [|done]. destruct B8 as ([x HQ] & Hlen & ?). rewrite Eb.
      split_and!; [|done|done]. rewrite lookup_insert_ne by (intros E; rewrite E in Hlen; lia). by rewrite HQ.
  - intros X HX. rewrite loose_ne, loose_nil by done. split; [|done].
    unfold jobs_of. rewrite list.filter_app, filter_cons_False by congruence. fold (jobs_of X G) (jobs_of X js).
    by rewrite (below_jobs_ne D p js X), app_nil_r.
  - apply Forall_app. split; [done|]. apply list.Forall_forall. intros k Hk. rewrite list.Forall_forall in Hjs.
    destruct (Hjs k Hk) as (E1 & E2 & E3). assert (j_tree k ∈ subs) by (rewrite <- Esub; by apply list_elem_of_fmap_2).
    split_and!; [by rewrite E2, <- Ej|by rewrite E1, E2|done|split; auto|rewrite E1, HD; done].
  - apply list.Forall_forall. intros d Hd. destruct (Hpd d Hd). split; [split|]; auto.
  - pose proof (in_distinct _ _ _ _ _ _ _ Hi) as Hnd. destruct j as [it p' t']. simpl in Ej, Et. subst p' t'.
    rewrite fmap_cons, concat_cons, visited_paths in Hnd. rewrite fmap_app, concat_app, (below_jobs_paths D p js), Esub by done.
    unfold sub_dirs at 2 in Hnd. simpl in Hnd. eapply nodup_perm; [exact Hnd|]. solve_Permutation.
Qed.
(** Pages by id, each hashed. *)
Definition verified (by_id : gmap string bytes) : Prop :=
  map_Forall (fun id b => known b /\ parse_digest id = Ok (page_id b)) by_id.

(** A verified page is the page of the snapshot. *)
Lemma verified_page by_id id b pg :
  page_ok pages -> verified by_id -> by_id !! id = Some b -> page_at pages id = Some pg -> decode_page b = Ok pg.
Proof using Type.
  intros Hok Hv Hb (b' & Hb' & Hd)%page_at_get. destruct (Hv id b Hb) as [Hk He].
  by rewrite <- (pages_agree pages id b' b).
Qed.

Lemma named_split (nes : list (string * Entry)) :
  zlen nes = zlen (filter (fun ne => ~ is_dir ne) nes) + zlen (filter is_dir nes).
Proof using Type.
  unfold zlen. induction nes as [|ne nes IH]; [done|]. destruct (decide (is_dir ne)) as [Hd|Hd].
  - rewrite (filter_cons_True is_dir), filter_cons_False by (done || by intros Hx). simpl. lia.
  - rewrite (filter_cons_False is_dir), filter_cons_True by done. simpl. lia.
Qed.

(** The requests for the pages below. *)
Definition child_job (D p : string) (route : list Z) (c : BranchChild) (t : tree) : job :=
  mkJob (mkPageItem D (route ++ [label c]) (digest_string (child_page_id c))) p t.

Lemma child_jobs D p route children subs :
  t_id <$> subs = (fun c => digest (child_page_id c)) <$> children ->
  exists js, Forall (below_job D p) js /\ j_tree <$> js = subs /\
    j_item <$> js = (fun c => mkPageItem D (route ++ [label c]) (digest_string (child_page_id c))) <$> children.
Proof using Type.
  revert subs. induction children as [|c cs IH]; intros [|t ts] E; try done.
  { exists []. split_and!; [constructor|done|done]. }
  rewrite !fmap_cons in E. injection E as E1 E2. destruct (IH ts E2) as (js & Hj & Et & Ei).
  exists (child_job D p route c t :: js). split_and!; [|by rewrite fmap_cons, Et|by rewrite !fmap_cons, Ei].
  constructor; [|done]. split_and!; [done|done|]. simpl. by rewrite digest_text.
Qed.

Lemma visit_ok by_id j G p0 w P :
  page_ok pages -> verified by_id -> inv (j :: G) p0 [] w P ->
  attains cache_ok (visit env managed scope auth_domain snapshot_id codec by_id w (j_item j)) (fun w' => exists new p P',
    inv (G ++ new) p [] w' P' /\ w_frontier w' = w_frontier w ++ (j_item <$> new) /\
    (load new < weight (j_tree j))%nat).
Proof using Type.
  intros Hok Hv Hi. pose proof (in_jobs _ _ _ _ _ _ _ Hi) as Hj. apply list.Forall_cons in Hj as [Hj _].
  destruct Hj as (Hpl & Ed & Ee & [Hg Hp] & [[st T] HD]). unfold visit.
  set (D := it_dir (j_item j)) in *. destruct (j_tree j) as [name id own dirs subs] eqn:Et. simpl in Ee. rewrite Ee.
  apply grows_inv in Hg as ((pg & nes & Hpg & Hn & Ho & Edirs & Esubs) & _).
  eapply attains_bind; [apply (attains_of_res _ (fun b => by_id !! id = Some b)); by intros b ?%ok_or_ok|].
  intros b Hb. rewrite (verified_page by_id id b pg) by done.
  eapply attains_bind; [apply (attains_of_res _ (eq pg)); by intros ? [= <-]|]. intros _ <-.
  assert (Hst : w_states w !! D = Some st) by (rewrite (in_states _ _ _ _ _ _ _ Hi), lookup_fmap, HD; done).
  rewrite Hst. eapply attains_bind; [apply (attains_of_res _ (eq st)); by intros ? [= <-]|]. intros _ <-.
  set (chs := match pg with Leaf _ => [] | Branch _ _ children => children end).
  assert (match pg with Leaf es => (es, []) | Branch _ terminal children => (option_list terminal, children) end =
    (page_entries pg, chs)) as -> by (by destruct pg).
  assert (Ech : page_children pg = (fun c => digest (child_page_id c)) <$> chs) by (by destruct pg).
  destruct (child_jobs D (j_path j) (it_route (j_item j)) chs subs) as (js & Hjs & Ejt & Eji); [congruence|].
  eapply attains_bind; [apply (attains_of_res _ (fun l => for_each (handle_entry D) (mkListed (ds_total st) (ds_files st) []) (page_entries pg) = Ok l)); done|].
  intros l Hl. rewrite Ed in Hl. apply (handle_entries_ok _ _ _ nes) in Hl as (El1 & El2 & El3); [|done..].
  simpl in El1, El2, El3. cbv zeta. rewrite <- Eji, El1, El2, El3.
  assert ((named_dir (j_path j) <$> filter is_dir nes) =
    ((fun d => (("/" ++ join_path (j_path j) (t_name d))%string, t_name d, t_id d)) <$> dirs)) as ->.
  { transitivity ((fun ni => (("/" ++ join_path (j_path j) ni.1)%string, ni.1, ni.2)) <$> ((fun d => (t_name d, t_id d)) <$> dirs)).
    - by rewrite Edirs, <- list_fmap_compose.
    - by rewrite <- list_fmap_compose. }
  rewrite Ed. match goal with |- context [<[_ := ?x]> (w_states w)] => set (st1 := x) end.
  match goal with |- attains cache_ok (fold_m _ ?x _) _ => set (w1 := x) end.
  assert (Hlen : zlen chs = zlen subs).
  { unfold zlen. rewrite <- (length_fmap t_id subs), Esubs, Ech, length_fmap. done. }
  assert (Hi1 : inv (G ++ js) (j_path j) dirs w1 (<[D := (st1, T)]> P)).
  { rewrite Ed. eapply (visit_state j G p0 (j_path j) w w1 P st st1 T name id own dirs subs js);
      try done; [by rewrite <- Ed|by rewrite <- Ed| | |exact (in_sound _ _ _ _ _ _ _ Hi)].
    - split_and!; simpl; [by rewrite Ho|set_solver|]. rewrite Ho. rewrite (named_split nes).
      unfold zlen. rewrite <- (length_fmap (fun d => (t_name d, t_id d)) dirs), Edirs, length_fmap. lia.
    - simpl. rewrite Hlen. pose proof (so_pages _ _ _ _ _ _ _ _ _ (plan_state _ _ _ _ _ _ _ _ _ _ Hi HD)) as Hpp.
      unfold jobs_of in Hpp. rewrite filter_cons_True in Hpp by done. unfold zlen in *. simpl in Hpp. lia. }
  eapply attains_weaken; [eapply (enqueue_kids dirs (G ++ js) (j_path j) w1); [done|exact Hi1|]|].
  { rewrite <- Ed, lookup_insert_eq. done. }
  intros w2 (new & P' & Hi2 & Ef & _ & Hl). exists (js ++ new), (j_path j), P'. split_and!.
  - by rewrite app_assoc.
  - rewrite Ef. simpl. by rewrite fmap_app, app_assoc.
  - rewrite load_app. unfold load at 1. rewrite Ejt. simpl. lia.
Qed.
End Walk.
End IncrementalWalk.
