(* ===== verification/IncrementalExact.v ===== *)
(** * IncrementalExact

    The incremental refresh as a whole: completed directories leave the plan
    with a sound record, every batch makes the pending work smaller, and the
    listing at the end is the listing of the snapshot. *)

From S2P Require Import Prelude Types Faults Text Profile Btree Frames Wire Metadata Closure ClosureExact ClosureTree Disk DiskLogic Records Durable Incremental SubtreeSums IncrementalFacts IncrementalWalk.
Import Digests Profile.Scope Metadata Closure ClosureExact ClosureTree Disk DiskLogic Records Incremental SubtreeSums IncrementalFacts IncrementalWalk.
Local Open Scope string_scope.
Local Open Scope list_scope.
Local Open Scope Z_scope.

Module IncrementalExact.

Lemma key_elem (P : plan) X : X ∈ (map_to_list P).*1 <-> is_Some (P !! X).
Proof.
  rewrite list_elem_of_fmap. split.
  - intros ([k e] & -> & Hin%elem_of_map_to_list). simpl. by rewrite Hin.
  - intros [e He]. exists (X, e). split; [done|]. by apply elem_of_map_to_list.
Qed.

Lemma keys_del (P : plan) D e : P !! D = Some e -> (map_to_list P).*1 ≡ₚ D :: (map_to_list (delete D P)).*1.
Proof. intros HD. by rewrite <- (map_to_list_delete P D e) by done. Qed.

Section Complete.
Context `{HexCrate} `{PageCodec} `{PageBytes} `{Serde index} (env : environment) (managed : bool).
Context `{CodecScope} `{!KnownPages} (scope auth_domain snapshot_id : string) (codec : Z).
Context (pages : list (string * bytes)) (t0 : tree).

Abbreviation inv := (inv pages t0).
Abbreviation state_ok := (state_ok pages t0).

(** A directory that awaits nothing has collected its whole subtree. *)
Lemma finished_got G D0 P D st T :
  state_ok G D0 [] P D st T -> finished st -> got st ≡ amt_at "" T /\ jobs_of D G = [] /\ kids D P = [].
Proof using Type.
  intros [B1 B2 B3 _ _ _ _ _] [F1 F2]. rewrite B2 in F1. rewrite B3 in F2. unfold zlen in *.
  assert (Hj : jobs_of D G = []) by (apply nil_length_inv; lia). assert (Hk : kids D P = []) by (apply nil_length_inv; lia).
  split_and!; [|done|done]. rewrite <- B1. unfold jobs_amount, kids_amount. rewrite Hj, Hk, loose_nil. simpl. by rewrite !plus_zero.
Qed.

(** A finished directory leaves the plan. *)
Lemma leave G p0 w w' P P' D st T :
  inv G p0 [] w P -> P !! D = Some (st, T) -> finished st ->
  (map_to_list P').*1 ≡ₚ (map_to_list (delete D P)).*1 -> w_states w' = fst <$> P' ->
  map_Forall (fun X e => state_ok G ("/" ++ p0)%string [] P' X e.1 e.2) P' ->
  (exists s0, P' !! "/" = Some (s0, t0) /\ ds_parent s0 = None) \/ w_out w' ≡ₚ files_at "" t0 ->
  sound_index (tx_records (w_tx w')) -> inv G p0 [] w' P'.
Proof using Type.
  intros Hi HD Hf Ek Es Hall Hr Hs. split; try done.
  - apply list.Forall_forall. intros j Hj. pose proof (in_jobs _ _ _ _ _ _ _ Hi) as Hjs. rewrite list.Forall_forall in Hjs.
    destruct (Hjs j Hj) as (? & ? & ? & ? & Hin). split_and!; try done.
    apply key_elem. rewrite Ek. apply key_elem. rewrite lookup_delete_ne; [done|]. intros E.
    destruct (finished_got _ _ _ _ _ _ (plan_state _ _ _ _ _ _ _ _ _ _ Hi HD) Hf) as (_ & Hnil & _).
    assert (Hj' : j ∈ jobs_of D G) by (by apply list_elem_of_filter). rewrite Hnil in Hj'. by apply not_elem_of_nil in Hj'.
  - rewrite Ek. pose proof (in_distinct _ _ _ _ _ _ _ Hi) as Hnd. rewrite (keys_del P D (st, T)) in Hnd by done.
    by apply list.NoDup_cons in Hnd as [_ ?].
Qed.
(** Nothing else depends on it but its parent. *)
Lemma others_keep G p0 w P P' D st T X sx TX :
  inv G p0 [] w P -> P !! D = Some (st, T) -> finished st ->
  (forall Q, Q <> D -> is_Some (P !! Q) -> is_Some (P' !! Q)) -> kids X P' ≡ₚ kids X P ->
  P !! X = Some (sx, TX) -> state_ok G ("/" ++ p0)%string [] P' X sx TX.
Proof using Type.
  intros Hi HD Hf Hkeep Hk HX. pose proof (plan_state _ _ _ _ _ _ _ _ _ _ Hi HX) as Hst.
  eapply (state_ok_frame _ _ G _ _ _ [] _ P); [done|done|done| |done].
  intros Q EQ HQ. apply Hkeep; [|done]. intros ->.
  destruct (finished_got _ _ _ _ _ _ (plan_state _ _ _ _ _ _ _ _ _ _ Hi HD) Hf) as (_ & _ & Hnil).
  pose proof (kids_del D P X sx TX HX) as Hx. rewrite decide_True, Hnil in Hx by done.
  by apply Permutation_nil_cons in Hx.
Qed.

(** The record a finished directory stages. *)
Lemma staged_sound G p0 w P D st T :
  page_ok pages -> inv G p0 [] w P -> P !! D = Some (st, T) -> finished st ->
  sound (mkRecord auth_domain codec POLICY_REVISION (ds_root st) (sort_by id (elements (ds_pages st))) (ds_total st)
           (ds_files st) snapshot_id).
Proof using Type.
  intros Hok Hi HD Hf. pose proof (plan_state _ _ _ _ _ _ _ _ _ _ Hi HD) as Hst.
  destruct (finished_got _ _ _ _ _ _ Hst Hf) as (Hg & _ & _). destruct Hst as [_ _ _ B4 _ B6 _ _].
  apply (sound_of_tree pages _ T); [done|done|done|]. simpl.
  rewrite <- Hg. split_and!; simpl; [done| |done]. apply set_eq. intros x.
  by rewrite elem_of_list_to_set, sort_by_perm, elem_of_elements.
Qed.
(** The parent of a finished directory counts its subtree. *)
Lemma parent_keeps G p0 w P D st T Q ps ps' TQ :
  inv G p0 [] w P -> P !! D = Some (st, T) -> finished st -> ds_parent st = Some Q -> P !! Q = Some (ps, TQ) ->
  got ps' ≡ got ps ⊕ amt_kid T -> ds_base ps' = ds_base ps -> ds_parent ps' = ds_parent ps ->
  ds_root ps' = ds_root ps -> ds_pending_pages ps' = ds_pending_pages ps ->
  ds_pending_children ps' = ds_pending_children ps - 1 -> D <> Q ->
  state_ok G ("/" ++ p0)%string [] (<[Q := (ps', TQ)]> (delete D P)) Q ps' TQ.
Proof using Type.
  intros Hi HD Hf Ep HQ Eg Eb Epp Er Epg Epc Hne.
  pose proof (plan_state _ _ _ _ _ _ _ _ _ _ Hi HQ) as [B1 B2 B3 B4 B5 B6 B7 B8].
  assert (HQ' : delete D P !! Q = Some (ps, TQ)) by (by rewrite lookup_delete_ne).
  assert (Hk : kids Q P ≡ₚ T :: kids Q (<[Q := (ps', TQ)]> (delete D P))).
  { rewrite (kids_same Q _ Q ps) by done. rewrite (kids_del Q P D st T) by done. by rewrite decide_True. }
  split; try congruence || done.
  - unfold kids_amount in *. rewrite Hk in B1. rewrite <- B1, Eg, loose_nil, fmap_cons. cbn [sum foldr].
    change (foldr plus zero) with sum. generalize (sum (amt_kid <$> kids Q (<[Q := (ps', TQ)]> (delete D P)))). intros a.
    change (sum (amt_kid <$> [])) with zero. rewrite !plus_zero. amounts.
  - rewrite Epc, B3. unfold zlen. rewrite Hk. simpl. lia.
  - rewrite Epp, Eb. destruct (ds_parent ps) as [R|] eqn:ER; [|done]. destruct B8 as (HR & Hlen & ?). split_and!; [|done|done].
    rewrite lookup_insert_ne by (intros E; rewrite E in Hlen; lia). rewrite lookup_delete_ne; [done|]. intros ->.
    destruct (finished_got _ _ _ _ _ _ (plan_state _ _ _ _ _ _ _ _ _ _ Hi HD) Hf) as (_ & _ & Hnil).
    pose proof (kids_del R P Q ps TQ HQ) as Hx. rewrite decide_True, Hnil in Hx by done.
    by apply Permutation_nil_cons in Hx.
Qed.

Section Completion.
Context (G : list job) (p0 : string) (w : walk) (P : plan) (D : string) (st : DirState) (T : tree).
Context (Hok : page_ok pages) (Hi : inv G p0 [] w P) (HD : P !! D = Some (st, T)) (Hf : finished st).

Lemma completed_got : got st ≡ amt_at "" T.
Proof using Hi HD Hf. apply (finished_got _ _ _ _ _ _ (plan_state _ _ _ _ _ _ _ _ _ _ Hi HD) Hf). Qed.

Lemma completed_pages : (list_to_set (sort_by id (elements (ds_pages st))) : gset string) = ds_pages st.
Proof using Type. apply set_eq. intros x. by rewrite elem_of_list_to_set, sort_by_perm, elem_of_elements. Qed.

Lemma completed_size : size (w_states w) = S (size (delete D (w_states w))).
Proof using Hi HD.
  assert (Hw : w_states w !! D = Some st) by (rewrite (in_states _ _ _ _ _ _ _ Hi), lookup_fmap, HD; done).
  rewrite <- (insert_delete_id (w_states w) D st) at 1 by done. by rewrite map_size_insert_None by apply lookup_delete_eq.
Qed.

Definition completes (c : Run walk) : Prop :=
  clean c /\ forall w', c = Ok w' ->
    w_frontier w' = w_frontier w /\ size (w_states w) = S (size (w_states w')) /\ exists P', inv G p0 [] w' P'.

Lemma staged : sound_index (tx_records (put_record (w_tx w)
  (mkRecord auth_domain codec POLICY_REVISION (ds_root st) (sort_by id (elements (ds_pages st))) (ds_total st)
     (ds_files st) snapshot_id))).
Proof using Hok Hi HD Hf. apply put_record_sound; [apply (in_sound _ _ _ _ _ _ _ Hi)|by eapply staged_sound]. Qed.

Lemma complete_root :
  ds_parent st = None -> completes (complete auth_domain snapshot_id codec D st w).
Proof using Hok Hi HD Hf.
  intros Ep. unfold complete. cbv zeta. pose proof (so_parent _ _ _ _ _ _ _ _ _ (plan_state _ _ _ _ _ _ _ _ _ _ Hi HD)) as Hp.
  rewrite Ep in *. destruct Hp as [ED ET]. split; [done|]. intros w' [= <-]. cbn [w_frontier w_states].
  split_and!; [done|apply completed_size|exists (delete D P)]. eapply (leave _ _ _ _ _ _ _ _ _ Hi HD Hf); [done| | | |apply staged].
  - cbn [w_states]. by rewrite (in_states _ _ _ _ _ _ _ Hi), fmap_delete.
  - intros X [sx TX] HX. apply lookup_delete_Some in HX as [HXD HX]. apply (others_keep G p0 w P _ D st T); try done.
    + intros R HR HR'. by rewrite lookup_delete_ne.
    + rewrite (kids_del X P D st T) by done. rewrite decide_False; [done|congruence].
  - right. cbn [w_out]. rewrite <- ET. exact (proj1 completed_got).
Qed.

Lemma parent_waits Q ps TQ :
  ds_parent st = Some Q -> P !! Q = Some (ps, TQ) -> 0 < ds_pending_children ps.
Proof using Hi HD.
  intros Ep HQ. rewrite (so_children _ _ _ _ _ _ _ _ _ (plan_state _ _ _ _ _ _ _ _ _ _ Hi HQ)).
  pose proof (kids_del Q P D st T HD) as Hk. rewrite decide_True in Hk by done. unfold zlen. rewrite Hk. simpl. lia.
Qed.

Lemma hands_over Q ps ps' TQ w' :
  ds_parent st = Some Q -> P !! Q = Some (ps, TQ) -> D <> Q ->
  got ps' ≡ got ps ⊕ amt_kid T -> ds_base ps' = ds_base ps -> ds_parent ps' = ds_parent ps ->
  ds_root ps' = ds_root ps -> ds_pending_pages ps' = ds_pending_pages ps ->
  ds_pending_children ps' = ds_pending_children ps - 1 ->
  w_states w' = <[Q := ps']> (delete D (w_states w)) -> w_out w' = w_out w -> sound_index (tx_records (w_tx w')) ->
  inv G p0 [] w' (<[Q := (ps', TQ)]> (delete D P)).
Proof using Hi HD Hf.
  intros Ep HQ Hne Eg Eb Epp Er Epg Epc Es Eo Hs.
  assert (HQ' : delete D P !! Q = Some (ps, TQ)) by (by rewrite lookup_delete_ne).
  eapply (leave _ _ _ _ _ _ _ _ _ Hi HD Hf); [by eapply plan_keys| | | |done].
  - by rewrite Es, (in_states _ _ _ _ _ _ _ Hi), fmap_insert, fmap_delete.
  - intros X [sx TX] HX. apply lookup_insert_Some in HX as [[<- [= <- <-]]|[HXQ HX]]; [by eapply parent_keeps|].
    apply lookup_delete_Some in HX as [HXD HX]. apply (others_keep G p0 w P _ D st T); try done.
    + intros R HR HR'. destruct (decide (R = Q)) as [->|]; [by rewrite lookup_insert_eq|].
      by rewrite lookup_insert_ne, lookup_delete_ne by done.
    + rewrite (kids_same X _ Q ps) by done. rewrite (kids_del X P D st T) by done. rewrite decide_False; [done|congruence].
  - rewrite Eo. destruct (in_root _ _ _ _ _ _ _ Hi) as [(s0 & Hr & En)|?]; [left|by right]. destruct (decide (Q = "/")) as [->|].
    + exists ps'. rewrite lookup_insert_eq. rewrite Hr in HQ. injection HQ as <- <-. split; [done|congruence].
    + exists s0. rewrite lookup_insert_ne, lookup_delete_ne; [done| |done]. intros ->. congruence.
Qed.

Lemma complete_child Q :
  ds_parent st = Some Q -> completes (complete auth_domain snapshot_id codec D st w).
Proof using Hok Hi HD Hf.
  intros Ep. pose proof (plan_state _ _ _ _ _ _ _ _ _ _ Hi HD) as Hst. pose proof (so_parent _ _ _ _ _ _ _ _ _ Hst) as Hp.
  unfold complete. cbv zeta. rewrite Ep in *. destruct Hp as ([[ps TQ] HQ] & Hlen & Hc).
  assert (Hne : D <> Q) by (intros E; rewrite E in Hlen; lia).
  assert (Hps : delete D (w_states w) !! Q = Some ps)
    by (rewrite lookup_delete_ne, (in_states _ _ _ _ _ _ _ Hi), lookup_fmap, HQ by done; done).
  edestruct (hand_over_ok Q (ds_base st) (list_to_set (sort_by id (elements (ds_pages st)))) (ds_files st) (ds_total st)
    (delete D (w_states w)) ps T) as [Hcl Hho]; [done|by eapply parent_waits| |by symmetry; apply (so_base _ _ _ _ _ _ _ _ _ Hst)|done| |].
  { rewrite completed_pages. exact completed_got. }
  { apply (so_tree _ _ _ _ _ _ _ _ _ Hst). }
  split; [by apply clean_bind|]. intros w' Hw'. apply rbind_ok in Hw' as (s' & Hs' & [= <-]).
  apply Hho in Hs' as (ps' & -> & Eg & Eb & Epp & Er & Epg & Epc). cbn [w_frontier w_states].
  split_and!; [done| |].
  - rewrite completed_size, map_size_insert_Some; [done|by rewrite Hps].
  - eexists. eapply (hands_over Q ps); try done. apply staged.
Qed.

Lemma complete_ok : completes (complete auth_domain snapshot_id codec D st w).
Proof using Hok Hi HD Hf. destruct (ds_parent st) as [Q|] eqn:E; [by eapply complete_child|by apply complete_root]. Qed.
End Completion.
End Complete.

(** Without pages to visit, the directories with the longest paths are
    finished. *)
Lemma long_keys (P : plan) : exists N, forall D, is_Some (P !! D) -> (String.length D <= N)%nat.
Proof.
  exists (foldr Nat.max 0%nat (String.length <$> (map_to_list P).*1)). intros D HD%key_elem.
  induction ((map_to_list P).*1) as [|X l IH]; [by apply not_elem_of_nil in HD|]. rewrite fmap_cons. simpl.
  apply elem_of_cons in HD as [->|HD]; [lia|]. specialize (IH HD). lia.
Qed.

Section Refresh.
Context `{HexCrate} `{PageCodec} `{PageBytes} `{Serde index} (env : environment) (managed : bool).
Context `{CodecScope} `{!KnownPages} (scope auth_domain snapshot_id : string) (codec : Z).
Context (fetch_pages : nat -> list MetadataPageItem -> Res (list (bytes * bytes))) (choose : nat -> nat).
Context (pages : list (string * bytes)) (t0 : tree) (Hok : page_ok pages).
(** Page ids are bytes, and answers are known. *)
Context (Hanswers : forall k items answer, fetch_pages k items = Ok answer -> Forall (fun p => known p.2) answer).
Context (Hbytes : forall b, length (page_id b) = 32%nat /\ Forall is_byte (page_id b)).

Abbreviation inv := (inv pages t0).

Definition nothing_finished (w : walk) : Prop := forall D st, w_states w !! D = Some st -> ~ finished st.

Lemma nothing_pending p0 w P : inv [] p0 [] w P -> nothing_finished w -> P = ∅.
Proof using Type.
  intros Hi Hnf. destruct (long_keys P) as [N HN]. apply map_empty. intros D. apply eq_None_not_Some. intros HD.
  remember (N - String.length D)%nat as k eqn:Ek. revert D Ek HD. induction k as [k IH] using lt_wf_ind. intros D Ek [[st T] HD].
  pose proof (plan_state _ _ _ _ _ _ _ _ _ _ Hi HD) as [_ B2 B3 _ _ _ _ _]. destruct (kids D P) as [|K ks] eqn:EK.
  - apply (Hnf D st); [rewrite (in_states _ _ _ _ _ _ _ Hi), lookup_fmap, HD; done|]. by split.
  - destruct (kids_elem D P K) as (C & sc & HC & Ep); [rewrite EK; left|].
    pose proof (so_parent _ _ _ _ _ _ _ _ _ (plan_state _ _ _ _ _ _ _ _ _ _ Hi HC)) as Hp. rewrite Ep in Hp.
    destruct Hp as (_ & Hlen & _). pose proof (HN C (ex_intro _ _ HC)). apply (IH (N - String.length C)%nat ltac:(lia) C); [done|by rewrite HC].
Qed.

(** The cascade completes every finished directory. *)
Lemma cascade_ok G p0 fuel : forall w P,
  (size (w_states w) <= fuel)%nat -> inv G p0 [] w P ->
  attains cache_ok (cascade auth_domain snapshot_id codec choose fuel w) (fun w' =>
    w_frontier w' = w_frontier w /\ nothing_finished w' /\ exists P', inv G p0 [] w' P').
Proof using Hok.
  induction fuel as [|fuel IH]; intros w P Hsz Hi; cbn [cascade]; cbv zeta.
  all: destruct (map_to_list (filter (fun ks => finished ks.2) (w_states w))) as [|first ready] eqn:Er.
  1,3: apply attains_ret; split_and!; [done| |by exists P]; apply map_to_list_empty_iff in Er;
    intros D st HD Hf; apply (map_filter_empty_not_lookup _ _ _ _ Er Hf HD).
  - assert (Hin : first ∈ map_to_list (filter (fun ks => finished ks.2) (w_states w))) by (rewrite Er; left).
    destruct first as [D st]. apply elem_of_map_to_list, map_lookup_filter_Some in Hin as [HD _].
    assert (E0 : w_states w = ∅) by (apply map_size_empty_inv; lia). by rewrite E0, lookup_empty in HD.
  - eapply attains_bind; [by apply (attains_ask _ (fun _ => True))|]. intros k _.
    destruct (default first _) as [D st] eqn:Ed.
    assert (Hin : (D, st) ∈ first :: ready).
    { destruct ((first :: ready) !! _) as [x|] eqn:Ex; simpl in Ed; subst; [by eapply list_elem_of_lookup_2|left]. }
    rewrite <- Er in Hin. apply elem_of_map_to_list, map_lookup_filter_Some in Hin as [Hw Hf]. simpl in Hf.
    assert (HD : exists T, P !! D = Some (st, T)).
    { rewrite (in_states _ _ _ _ _ _ _ Hi), lookup_fmap in Hw. destruct (P !! D) as [[st' T]|]; [|done]. simpl in Hw.
      injection Hw as ->. by exists T. }
    destruct HD as [T HD]. destruct (complete_ok auth_domain snapshot_id codec pages t0 G p0 w P D st T) as [Hcl Hc]; [done..|].
    apply (attains_bind _ _ (fun w1 => complete auth_domain snapshot_id codec D st w = Ok w1)); [by apply attains_of_run|].
    intros w1 Hw1. apply Hc in Hw1 as (Ef & Es & P1 & Hi1).
    eapply attains_weaken; [apply (IH w1 P1); [lia|done]|]. intros w2 (Ef2 & Hn & HP). split_and!; [congruence|done|done].
Qed.

(** ** A batch *)

Lemma gather_ok g it :
  verified (g_bytes g) -> attains cache_ok (gather env managed scope g it) (fun g' => verified (g_bytes g')).
Proof using Type.
  intros Hg. unfold gather. eapply (attains_bind _ _ (fun _ => True)); [by apply attains_of_res|]. intros _ _. cbv zeta.
  apply attains_guard. intros _. destruct (g_bytes g !! it_expected it) as [b|]; [by apply attains_ret|].
  eapply attains_bind; [apply read_page_verified_ok|]. intros [b|] Hb; apply attains_ret; [|done].
  apply map_Forall_insert_2; [by apply Hb|done].
Qed.

Lemma receive_ok ok by_id page :
  verified by_id -> known page.2 -> attains cache_ok (receive env ok by_id page) verified.
Proof using Hbytes.
  intros Hv Hk. unfold receive. destruct page as [pid b]. simpl in Hk. cbv zeta. apply attains_guard. intros Hg.
  apply orb_false_iff in Hg as [_ Hid]. apply negb_false_iff, bool_decide_eq_true in Hid.
  eapply attains_bind; [by apply put_page_attains|]. intros _ _. apply attains_ret.
  apply map_Forall_insert_2; [|done]. split; [done|]. rewrite <- Hid. apply parse_digest_ok. split; [done|]. apply Hbytes.
Qed.

Lemma visits_ok by_id : forall GB GF p0 w P,
  verified by_id -> inv (GB ++ GF) p0 [] w P -> w_frontier w = j_item <$> GF ->
  attains cache_ok (fold_m (visit env managed scope auth_domain snapshot_id codec by_id) w (j_item <$> GB)) (fun w' =>
    exists G' p P', inv G' p [] w' P' /\ w_frontier w' = j_item <$> G' /\ (load G' + length GB <= load (GB ++ GF))%nat).
Proof using Hok.
  induction GB as [|j GB IH]; intros GF p0 w P Hv Hi Hfr.
  { apply attains_ret. exists GF, p0, P. split_and!; [done|done|simpl; lia]. }
  rewrite fmap_cons. cbn [fold_m]. eapply attains_bind; [by apply (visit_ok env managed scope auth_domain snapshot_id codec pages t0 by_id j (GB ++ GF) p0 w P)|].
  intros w1 (new & p1 & P1 & Hi1 & Hf1 & Hl1). rewrite <- app_assoc in Hi1.
  eapply attains_weaken; [apply (IH (GF ++ new) p1 w1 P1); [done|done|by rewrite Hf1, Hfr, fmap_app]|].
  intros w2 (G' & p & P' & Hi2 & Hf2 & Hl2). exists G', p, P'. split_and!; [done|done|].
  change ((j :: GB) ++ GF) with ([j] ++ (GB ++ GF)). rewrite !load_app in *. simpl length.
  unfold load at 2. simpl. lia.
Qed.

Lemma round_ok routes G p0 w P :
  inv G p0 [] w P -> w_frontier w = j_item <$> G -> G <> [] ->
  attains cache_ok (round env managed scope auth_domain snapshot_id codec fetch_pages choose routes w) (fun rw =>
    exists G' p P', inv G' p [] rw.2 P' /\ w_frontier rw.2 = j_item <$> G' /\ (load G' < load G)%nat /\ nothing_finished rw.2).
Proof using Hok Hanswers Hbytes.
  intros Hi Hfr Hne. unfold round. cbv zeta.
  apply (attains_bind _ _ (fun g => verified (g_bytes g))).
  { apply (attains_fold _ (fun _ _ g => verified (g_bytes g))); [|apply map_Forall_empty]. intros. by apply gather_ok. }
  intros g Hg. apply (attains_bind _ _ (Forall (fun p : bytes * bytes => known p.2))).
  { case_bool_decide; [by apply attains_ret|]. apply attains_gate. apply attains_ask. eauto. }
  intros answer Ha. apply (attains_bind _ _ verified).
  { apply (attains_fold _ (fun _ _ => verified)); [|done]. intros done0 m p rest -> Hm. apply receive_ok; [done|].
    rewrite list.Forall_forall in Ha. apply Ha. set_solver. }
  intros by_id Hv. rewrite Hfr, <- fmap_take, <- fmap_drop.
  set (GB := take PAGE_BATCH G). set (GF := drop PAGE_BATCH G).
  assert (EG : G = GB ++ GF) by (symmetry; apply take_drop).
  assert (Hlen : (0 < length GB)%nat) by (unfold GB; rewrite length_take; destruct G; [done|simpl; unfold PAGE_BATCH; lia]).
  eapply attains_bind; [apply (visits_ok by_id GB GF p0 _ P); [done| |done]|].
  { rewrite <- EG. by destruct Hi; split. }
  intros w1 (G' & p & P' & Hi1 & Hf1 & Hl1). eapply attains_bind; [by apply (cascade_ok G' p _ w1 P')|].
  intros w2 (Hf2 & Hn & P2 & Hi2). apply attains_ret. exists G', p, P2. split_and!; simpl; [done|congruence| |done].
  rewrite EG. lia.
Qed.

(** ** The walk *)

Definition listed_all (w : walk) : Prop := w_out w ≡ₚ files_at "" t0 /\ sound_index (tx_records (w_tx w)).

Lemma rounds_ok fuel : forall routes G p0 w P,
  (load G <= fuel)%nat -> inv G p0 [] w P -> w_frontier w = j_item <$> G -> (G = [] -> nothing_finished w) ->
  attains cache_ok (rounds env managed scope auth_domain snapshot_id codec fetch_pages choose fuel routes w) listed_all.
Proof using Hok Hanswers Hbytes.
  induction fuel as [|fuel IH]; intros routes G p0 w P Hl Hi Hfr Hn.
  all: destruct G as [|j G]; cbn [rounds]; rewrite Hfr.
  1,3: apply attains_ret; pose proof (nothing_pending _ _ _ Hi (Hn eq_refl)) as ->;
    split; [|apply (in_sound _ _ _ _ _ _ _ Hi)]; destruct (in_root _ _ _ _ _ _ _ Hi) as [(s0 & Hr & _)|]; [|done];
    by rewrite lookup_empty in Hr.
  - exfalso. unfold load in Hl. simpl in Hl. destruct (j_tree j). simpl in Hl. lia.
  - rewrite fmap_cons. eapply attains_bind; [by apply (round_ok routes (j :: G) p0 w P)|].
    intros [routes' w'] (G' & p & P' & Hi' & Hf' & Hl' & Hn'). simpl in *. apply (IH routes' G' p w' P'); [lia|done|done|auto].
Qed.

(** The root directory. *)
Context (root : string) (Hroot : t_id t0 = root) (Hname : t_name t0 = "") (Htree : tree_ok pages t0).
Context (Hdistinct : NoDup ("/" :: absolute (dirs_below "" t0))).

Lemma enqueue_root tx :
  sound_index (tx_records tx) ->
  attains cache_ok (enqueue_dir env managed scope auth_domain snapshot_id codec "/" root None "" (mkWalk [] ∅ [] tx)) (fun w =>
    exists G P, inv G "" [] w P /\ w_frontier w = j_item <$> G /\ (load G <= weight t0)%nat /\ (G = [] -> nothing_finished w)).
Proof using Hok Hanswers Hbytes Hroot Hname Htree Hdistinct.
  intros Htx. unfold enqueue_dir. eapply (attains_bind _ _ (fun _ => True)); [by apply attains_of_res|]. intros _ _.
  cbn [await_child w_out w_states w_frontier w_tx].
  eapply attains_bind; [by apply (try_reuse_ok env managed scope auth_domain snapshot_id codec pages root "/" tx t0)|].
  intros [[ru|] tx'] [Hs Hru]; simpl in Hs, Hru; cbn [w_out w_states w_frontier w_tx].
  - destruct (Hru _ eq_refl) as (Ef & _). simpl in Ef. apply attains_of_run; [done|]. intros w [= <-].
    exists [], ∅. split_and!; [|done|apply Nat.le_0_l|intros _ D st HD; cbn [w_states] in HD; by rewrite lookup_empty in HD].
    split; [cbn [w_states]; by rewrite fmap_empty|apply map_Forall_empty|constructor|constructor| |by right|done].
    rewrite map_to_list_empty. constructor.
  - apply attains_ret. set (st := mkState "" None root ∅ [] 0 1 0). set (j := mkJob (mkPageItem "/" [] root) "" t0).
    assert (Hk : kids "/" (<["/" := (st, t0)]> ∅) = []) by (apply Permutation_nil; by rewrite kids_new).
    exists [j], (<["/" := (st, t0)]> ∅). split_and!; [|done|unfold load; simpl; lia|done]. split.
    + cbn [w_states]. by rewrite fmap_insert, fmap_empty.
    + intros D e [[<- <-]|[_ HD]]%lookup_insert_Some; [|by rewrite lookup_empty in HD]. cbn [fst snd].
      assert (Hj : jobs_of "/" [j] = [j]) by done. split; try done.
      * unfold jobs_amount, kids_amount. rewrite Hj, Hk, loose_nil. simpl. amounts.
      * by exists "".
    + constructor; [|constructor]. split_and!; try done; by rewrite lookup_insert_eq.
    + constructor.
    + rewrite insert_empty, map_to_list_singleton. simpl. unfold job_paths, absolute, sub_dirs. simpl. by rewrite !app_nil_r.
    + left. exists st. by rewrite lookup_insert_eq.
    + done.
Qed.

Lemma acquire_ok fuel tx :
  (weight t0 <= fuel)%nat -> sound_index (tx_records tx) ->
  attains cache_ok (acquire env managed scope auth_domain snapshot_id root codec fetch_pages choose fuel tx) (fun ft =>
    ft.1 ≡ₚ files_at "" t0 /\ sound_index (tx_records ft.2)).
Proof using Hok Hanswers Hbytes Hroot Hname Htree Hdistinct.
  intros Hfuel Htx. unfold acquire. eapply attains_bind; [by apply enqueue_root|]. intros w (G & P & Hi & Hfr & Hl & Hn).
  eapply attains_bind; [apply (rounds_ok fuel ∅ G "" w P); [lia|done..]|]. intros w' [Ho Hs]. by apply attains_ret.
Qed.
End Refresh.

(** ** The walk below any root *)

(** Whatever the root leads to, a walk writes known pages only, however it
    ends. *)
Section AnyRoot.
Context `{HexCrate} `{PageCodec} `{PageBytes} `{Serde index} (env : environment) (managed : bool).
Context `{CodecScope} `{!KnownPages} (scope auth_domain snapshot_id root : string) (codec : Z).
Context (fetch_pages : nat -> list MetadataPageItem -> Res (list (bytes * bytes))) (choose : nat -> nat).
Context (Hanswers : forall k items answer, fetch_pages k items = Ok answer -> Forall (fun p => known p.2) answer).
Context {J : index -> Prop} {durable : Prop}.
Abbreviation kept := (maintains (cache_with J durable)).

Lemma enqueue_kept dir expected parent base w :
  kept (enqueue_dir env managed scope auth_domain snapshot_id codec dir expected parent base w) (fun _ => True).
Proof using Type.
  unfold enqueue_dir. eapply (maintains_bind _ _ (fun _ => True)); [by apply maintains_of_res|]. intros _ _. cbv zeta.
  apply (maintains_bind _ _ (fun _ => True)); [|intros [[u|] tx] _; [by apply maintains_of_run|by apply maintains_ret]].
  unfold try_reuse. eapply (maintains_bind _ _ (fun _ => True)); [by apply maintains_of_res|]. intros _ _.
  destruct (tx_records _ !! expected); [|by apply maintains_ret]. destruct (_ || _); [by apply maintains_ret|].
  eapply maintains_bind; [apply attains_maintains, all_cached_attains|]. intros [] _; by apply maintains_ret.
Qed.

Lemma visit_kept by_id w it : kept (visit env managed scope auth_domain snapshot_id codec by_id w it) (fun _ => True).
Proof using Type.
  unfold visit. cbv zeta. do 3 (eapply (maintains_bind _ _ (fun _ => True)); [by apply maintains_of_res|]; intros ? _).
  destruct (match _ with Leaf es => _ | Branch _ _ _ => _ end) as [es children].
  eapply (maintains_bind _ _ (fun _ => True)); [by apply maintains_of_res|]. intros l _.
  apply (maintains_fold _ (fun _ => True) (fun _ => True)); [|by apply Forall_true|done]. intros w' [[path base] r] _ _. apply enqueue_kept.
Qed.

Lemma cascade_kept fuel : forall w, kept (cascade auth_domain snapshot_id codec choose fuel w) (fun _ => True).
Proof using Type.
  induction fuel as [|fuel IH]; intros w; cbn [cascade]; cbv zeta; destruct (map_to_list _) as [|first ready];
    try (by apply maintains_ret); [by apply maintains_of_run|].
  eapply (maintains_bind _ _ (fun _ => True)); [by apply attains_maintains, attains_ask|]. intros k _.
  destruct (default first _) as [D st]. eapply (maintains_bind _ _ (fun _ => True)); [by apply maintains_of_run|]. intros w' _. apply IH.
Qed.

Lemma round_kept routes w :
  kept (round env managed scope auth_domain snapshot_id codec fetch_pages choose routes w) (fun _ => True).
Proof using Hanswers.
  unfold round. cbv zeta. apply (maintains_bind _ _ (fun _ => True)).
  { apply (maintains_fold _ (fun _ => True) (fun _ => True)); [|by apply Forall_true|done]. intros g it _ _. unfold gather.
    eapply (maintains_bind _ _ (fun _ => True)); [by apply maintains_of_res|]. intros _ _. cbv zeta. apply maintains_guard. intros _.
    destruct (g_bytes g !! _); [by apply maintains_ret|].
    eapply maintains_bind; [apply attains_maintains, read_page_verified_ok|]. intros o _. by apply maintains_ret. }
  intros g _. apply (maintains_bind _ _ (Forall (fun p : bytes * bytes => known p.2))).
  { case_bool_decide; [by apply maintains_ret|]. apply maintains_gate, attains_maintains, attains_ask. eauto. }
  intros answer Ha. apply (maintains_bind _ _ (fun _ => True)).
  { apply (maintains_fold _ (fun _ => True) (fun p : bytes * bytes => known p.2)); [|done|done]. intros m [pid b] _ Hk. unfold receive. cbv zeta.
    apply maintains_guard. intros _. eapply maintains_bind; [by apply attains_maintains, put_page_attains|]. intros _ _. by apply maintains_ret. }
  intros by_id _. apply (maintains_bind _ _ (fun _ => True)).
  { apply (maintains_fold _ (fun _ => True) (fun _ => True)); [|by apply Forall_true|done]. intros. apply visit_kept. }
  intros w1 _. eapply maintains_bind; [apply cascade_kept|]. intros w2 _. by apply maintains_ret.
Qed.

Lemma acquire_kept fuel tx :
  kept (acquire env managed scope auth_domain snapshot_id root codec fetch_pages choose fuel tx) (fun _ => True).
Proof using Hanswers.
  unfold acquire. eapply maintains_bind; [apply enqueue_kept|]. intros w _.
  apply (maintains_bind _ _ (fun _ => True)); [|intros; by apply maintains_ret]. generalize (∅ : gmap (string * list Z) string) as routes.
  revert w. induction fuel as [|fuel IH]; intros w routes; cbn [rounds]; destruct (w_frontier w); try (by apply maintains_ret); [by apply maintains_of_run|].
  eapply maintains_bind; [apply round_kept|]. intros [routes' w'] _. apply IH.
Qed.
End AnyRoot.

(** ** The index transaction *)

Section Transaction.
Context `{HexCrate} `{PageCodec} `{PageBytes} `{Serde index} `{CodecScope} `{!KnownPages} (env : environment).

Lemma load_records_with (J : index -> Prop) durable : J ∅ -> attains (cache_with J durable) (load_records env) J.
Proof.
  intros HJ. unfold load_records. apply (attains_bind _ _ (fun r => forall b m, r = Ok b -> from_json b = Ok m -> J m)).
  - apply attains_step; [|done]. intros d Hd. split; [done|]. intros b m Hb. apply (read_fits (J := J) (durable := durable) _ d) in Hb; [|done|by left].
    by apply Hb.
  - intros [b|[]] Hb; [|by apply attains_ret|apply attains_fail|apply attains_fail].
    apply attains_ret. destruct (from_json b) as [m|] eqn:E; [by eapply Hb|done].
Qed.

Lemma store_records_with (J : index -> Prop) durable m : J m -> attains (cache_with J durable) (store_records env m) (fun _ => True).
Proof.
  intros Hm. unfold store_records. apply (attains_bind _ _ (fun b => from_json b = Ok m)).
  { apply attains_of_res. intros b Hb%map_err_ok. by apply json_round_trip. }
  intros b Hb. apply (attains_bind _ _ (fun _ => True)); [apply write_atomic_attains; split; [|done]; intros _ m' Hm'; by assert (m' = m) as -> by congruence|].
  intros _ _. apply attains_sys. intros d Hd p i Hu Hor. apply Hd; [done|]. rewrite sync_dir_saved in Hor. simpl in Hor.
  case_decide; tauto.
Qed.

Lemma load_records_ok : attains cache_ok (load_records env) sound_index.
Proof. apply load_records_with, map_Forall_empty. Qed.

Lemma store_records_ok m : sound_index m -> attains cache_ok (store_records env m) (fun _ => True).
Proof. apply store_records_with. Qed.

Context (pin_inventory : nat -> Res (list (string * Durable.PinAudit))).

Lemma sync_transaction_ok : attains cache_ok (sync_transaction env pin_inventory) (fun tx => sound_index (tx_records tx)).
Proof.
  unfold sync_transaction. apply attains_gate. eapply attains_bind; [apply load_records_ok|]. intros m Hm.
  eapply (attains_bind _ _ (fun _ => True)); [by apply attains_ask|]. intros inventory _. by apply attains_ret.
Qed.

Lemma commit_records_ok tx : sound_index (tx_records tx) -> attains cache_ok (commit env tx) (fun _ => True).
Proof. intros Hm. unfold commit. destruct (tx_dirty tx); [by apply store_records_ok|by apply attains_ret]. Qed.

Lemma drop_records_ok pin : attains cache_ok (drop_records_for_pin env pin_inventory pin) (fun _ => True).
Proof.
  unfold drop_records_for_pin, index_lock, try_transaction. apply (attains_bind _ _ (fun _ => True)).
  { apply (attains_bind _ _ (fun _ => True)); [apply attains_gate; by apply attains_still|]. intros free _.
    apply attains_guard. intros _. by apply attains_ret. }
  intros _ _. apply (attains_bind _ _ (fun _ => True)); [by apply attains_ask|]. intros inventory _.
  destruct (existsb _ inventory); [by apply attains_ret|]. eapply attains_bind; [apply load_records_ok|]. intros m Hm. cbv zeta.
  apply (attains_bind _ _ (fun _ => True)); [|by intros; apply attains_ret]. apply store_records_ok.
  intros k r [Hk _]%map_lookup_filter_Some. by apply (Hm k).
Qed.
End Transaction.

(** ** Any history of a scope *)

Section Trees.
Context `{HexCrate} `{PageCodec} `{CodecScope} (pages : list (string * bytes)).

(** Enough for the number of pages a root page unfolds to. *)
Definition enough (root : string) (fuel : nat) : Prop :=
  forall t, grows pages t -> t_id t = root -> (weight t <= fuel)%nat.

Lemma weights_same (us us' : list tree) :
  Forall (fun u => grows pages u -> forall u', grows pages u' -> t_id u = t_id u' -> weight u = weight u') us ->
  Forall (grows pages) us -> Forall (grows pages) us' -> t_id <$> us = t_id <$> us' ->
  total_nat weight us = total_nat weight us'.
Proof using Type.
  revert us'. induction us as [|u us IH]; intros [|u' us'] Hi Hg Hg' E; try done.
  apply list.Forall_cons in Hi as [I1 I2]. apply list.Forall_cons in Hg as [G1 G2]. apply list.Forall_cons in Hg' as [G1' G2'].
  rewrite !fmap_cons in E. injection E as E1 E2. simpl. rewrite (I1 G1 u') by done. by rewrite (IH us').
Qed.

Lemma grows_weight u : grows pages u -> forall u', grows pages u' -> t_id u = t_id u' -> weight u = weight u'.
Proof using Type.
  induction u as [name id own dirs subs IHd IHs] using tree_induction.
  intros [(pg & nes & Hpg & Hn & Ho & Ed & Es) [Hd Hs]]%grows_inv [name' id' own' dirs' subs']
    [(pg' & nes' & Hpg' & Hn' & Ho' & Ed' & Es') [Hd' Hs']]%grows_inv E. simpl in E. subst id'.
  assert (pg' = pg) as -> by congruence. assert (nes' = nes) as -> by congruence.
  cbn [weight]. f_equal. f_equal; (apply weights_same; [done..|]); [|congruence].
  rewrite <- Ed' in Ed. apply (f_equal (fmap snd)) in Ed. by rewrite <- !list_fmap_compose in Ed.
Qed.

Lemma enough_weight t fuel : grows pages t -> (weight t <= fuel)%nat -> enough (t_id t) fuel.
Proof using Type. intros Ht Hf u Hu E. by rewrite (grows_weight u Hu t). Qed.
End Trees.
End IncrementalExact.
