(* ===== verification/CollectorExact.v ===== *)
(** * CollectorExact

    The collector of pages returns exactly the pages of the closure, whatever
    the source of cached pages holds and the server answers, and ends: the
    pages still to visit are subtrees of the closure's tree, and every batch
    replaces some of them by their parts. *)

From S2P Require Import Prelude Types Faults Text Profile Btree Frames Wire Metadata Capacity Closure ClosureExact ClosureTree Disk DiskLogic Records Durable Incremental SubtreeSums IncrementalFacts IncrementalWalk Collector.
Import Digests Profile.Scope Metadata Capacity Closure ClosureExact ClosureTree Disk DiskLogic Records Incremental SubtreeSums IncrementalFacts IncrementalWalk Collector.
Local Open Scope string_scope.
Local Open Scope list_scope.
Local Open Scope Z_scope.

Module CollectorExact.

(** What a collector relies on: cached bytes are known and hash to their name,
    and keeping known bytes does no harm. *)
Class SourceSpec `{HexCrate} `{PageCodec} `{!KnownPages} (I : disk -> Prop) (source : SnapshotPageSource) : Prop := {
  cached_ok : forall id, attains I (cached_page source id) (fun o => forall b, o = Some b -> known b /\ parse_digest id = Ok (page_id b));
  received_ok : forall id b, known b -> attains I (received_page source id b) (fun _ => True);
}.

#[export] Instance network_source `{HexCrate} `{PageCodec} `{!KnownPages} I : SourceSpec I NetworkPages.
Proof. split; intros; by apply attains_ret. Qed.

#[export] Instance scope_source `{HexCrate} `{PageCodec} `{PageBytes} `{Serde index} `{CodecScope} `{!KnownPages} J durable env managed :
  SourceSpec (cache_with J durable) (ScopePages env managed).
Proof. split; intros; [apply read_page_verified_ok|by apply put_page_attains]. Qed.

(** ** The tree has every reachable page *)

Section Reach.
Context `{HexCrate} `{PageCodec} `{CodecScope} (pages : list (string * bytes)).

Definition within (t : tree) (u : tree) : Prop := grows pages u /\ forall x, x ∈ pages_of u -> x ∈ pages_of t.

Lemma within_refl t : grows pages t -> within t t.
Proof using Type. by split. Qed.
Lemma within_trans t u w : within t u -> within u w -> within t w.
Proof using Type. intros [_ Hu] [Hg Hw]. split; auto. Qed.

Lemma elem_concat {A B} (f : A -> list B) l x : x ∈ concat (f <$> l) <-> exists a, a ∈ l /\ x ∈ f a.
Proof.
  induction l as [|a l IH]; [set_solver|]. rewrite fmap_cons, concat_cons, elem_of_app, IH. setoid_rewrite elem_of_cons.
  split; [intros [?|(b & ? & ?)]; eauto|intros (b & [->|?] & ?); eauto].
Qed.

Lemma within_parts name id own dirs subs :
  grows pages (Tree name id own dirs subs) -> Forall (within (Tree name id own dirs subs)) (dirs ++ subs).
Proof using Type.
  intros [_ [Hd Hs]]%grows_inv. apply list.Forall_forall. intros u Hu. split.
  - rewrite list.Forall_forall in Hd, Hs. apply elem_of_app in Hu as [?|?]; auto.
  - intros x Hx. cbn [pages_of]. apply elem_of_cons. right. rewrite <- concat_app, <- fmap_app. apply elem_concat. eauto.
Qed.

Lemma below_within t x : grows pages t -> below pages (t_id t) x -> x ∈ pages_of t.
Proof using Type.
  intros Hg Hb. remember (t_id t) as r eqn:Er. revert t Hg Er.
  induction Hb as [r|r prefix terminal children c x Hp Hc _ IH]; intros [name id own dirs subs] Hg Er; simpl in Er; subst r.
  { left. }
  pose proof (within_parts _ _ _ _ _ Hg) as Hw. apply grows_inv in Hg as [(pg & nes & Hpg & _ & _ & _ & Es) _].
  assert (pg = Branch prefix terminal children) as -> by congruence. simpl in Es.
  apply (list_elem_of_fmap_2 (fun c => digest (child_page_id c))) in Hc. rewrite <- Es in Hc.
  apply list_elem_of_fmap in Hc as (u & E & Hu). rewrite list.Forall_forall in Hw.
  destruct (Hw u) as [Hgu Hin]; [apply elem_of_app; by right|]. apply Hin, IH; [done|congruence].
Qed.

Lemma dir_within t e : grows pages t -> in_radix pages (t_id t) e -> ent_kind e = EDirectory ->
  exists u, t_id u = digest (child_root e) /\ within t u.
Proof using Type.
  intros Hg He Hk. remember (t_id t) as r eqn:Er. revert t Hg Er.
  assert (Hown : forall t pg, grows pages t -> page_at pages (t_id t) = Some pg -> e ∈ page_entries pg ->
    exists u, t_id u = digest (child_root e) /\ within t u).
  { intros [name id own dirs subs] pg Hg Hpg Hin. pose proof (within_parts _ _ _ _ _ Hg) as Hw.
    apply grows_inv in Hg as [(pg' & nes & Hpg' & Hn & _ & Ed & _) _]. assert (pg' = pg) as -> by (simpl in Hpg; congruence).
    apply mapM_Some in Hn. apply list_elem_of_lookup_1 in Hin as [i Hi]. destruct (Forall2_lookup_l _ _ _ _ _ Hn Hi) as ([n e'] & Hi' & Hx).
    unfold named in Hx. apply bind_Some in Hx as (n' & _ & [= <- <-]). apply list_elem_of_lookup_2 in Hi'.
    assert (Hd : (n', digest (child_root e)) ∈ (fun d => (t_name d, t_id d)) <$> dirs).
    { rewrite Ed. apply list_elem_of_fmap. exists (n', e). split; [done|]. by apply list_elem_of_filter. }
    apply list_elem_of_fmap in Hd as (u & E & Hu). injection E as _ E. rewrite list.Forall_forall in Hw.
    exists u. split; [done|]. apply Hw, elem_of_app. by left. }
  induction He as [r es e Hp He|r prefix e children Hp|r prefix terminal children c e Hp Hc _ IH]; intros t Hg ->.
  - by apply (Hown t _ Hg Hp).
  - apply (Hown t _ Hg Hp). simpl. left.
  - destruct t as [name id own dirs subs]. pose proof (within_parts _ _ _ _ _ Hg) as Hw.
    apply grows_inv in Hg as [(pg & nes & Hpg & _ & _ & _ & Es) _]. simpl in Hp. assert (pg = Branch prefix terminal children) as -> by congruence.
    simpl in Es. apply (list_elem_of_fmap_2 (fun c => digest (child_page_id c))) in Hc. rewrite <- Es in Hc.
    apply list_elem_of_fmap in Hc as (u & E & Hu). rewrite list.Forall_forall in Hw.
    assert (Hwu : within (Tree name id own dirs subs) u) by (apply Hw, elem_of_app; by right).
    destruct (IH Hk Hown u) as (w & Ew & Hww); [apply Hwu|congruence|]. exists w. split; [done|]. by eapply within_trans.
Qed.

Lemma reachable_within t x : grows pages t -> reachable_page pages (t_id t) x -> x ∈ pages_of t.
Proof using Type.
  intros Hg (p & r & Hd & Hb). enough (exists u, t_id u = r /\ within t u) as (u & <- & Hgu & Hin) by (by apply Hin, below_within).
  clear Hb. induction Hd as [|p r e name _ IH He Hk _]; [exists t; by auto using within_refl|].
  destruct (IH) as (u & <- & Hu). destruct (dir_within u e) as (w & Ew & Hw); [apply Hu|done|done|].
  exists w. split; [done|]. by eapply within_trans.
Qed.

(** The pages of a tree are stored. *)
Lemma tree_stored t x : grows pages t -> x ∈ pages_of t -> is_Some (page_at pages x).
Proof using Type.
  induction t as [name id own dirs subs IHd IHs] using tree_induction. intros [(pg & _ & Hpg & _) [Hd Hs]]%grows_inv Hx.
  cbn [pages_of] in Hx. rewrite elem_of_cons, elem_of_app, !elem_concat in Hx. rewrite list.Forall_forall in IHd, IHs, Hd, Hs.
  destruct Hx as [->|[(u & Hu & Hx)|(u & Hu & Hx)]]; eauto.
Qed.
End Reach.

(** ** Collecting *)

Section Collecting.
Context `{HexCrate} `{PageCodec} `{PageBytes} `{CodecScope} `{!KnownPages} (I : disk -> Prop) (env : environment) (instant : nat -> Z).
Context (scope : string) (p : profile) (features_pages : bool).
Context (fetch_pages : nat -> list MetadataPageItem -> Res (list (bytes * bytes))) (source : SnapshotPageSource) `{!SourceSpec I source}.
Context (pages : list (string * bytes)) (t0 : tree) (Hok : page_ok pages) (Htree : grows pages t0).
Context (Hanswers : forall k items answer, fetch_pages k items = Ok answer -> Forall (fun p => known p.2) answer).
Context (Hbytes : forall b, length (page_id b) = 32%nat /\ Forall is_byte (page_id b)).
Context (Hlimit : 0 < metadata_item_limit p).

(** The tables hold pages of the closure, and routes lead to such pages. *)
Definition stored_ok (c : collection) : Prop :=
  Btree.ordered (cl_bytes c) /\ (forall id b, Btree.get (cl_bytes c) id = Some b -> Btree.get pages id = Some b) /\
  (forall id, cl_decoded c !! id = page_at (cl_bytes c) id) /\
  map_Forall (fun _ id => id ∈ pages_of t0) (cl_routes c).

Definition grown (c c' : collection) : Prop :=
  forall id, is_Some (Btree.get (cl_bytes c) id) -> is_Some (Btree.get (cl_bytes c') id).

Lemma grown_refl c : grown c c.
Proof using Type. by intros id. Qed.
Lemma grown_trans c c' c'' : grown c c' -> grown c' c'' -> grown c c''.
Proof using Type. intros H1' H2' id Hid. auto. Qed.

Lemma page_at_put id pg b m x :
  decode_page b = Ok pg -> page_at (Btree.put m id b) x = if decide (x = id) then Some pg else page_at m x.
Proof using Type. intros Hd. unfold page_at. rewrite Btree.get_put. case_decide; [|done]. simpl. by rewrite Hd. Qed.

Lemma add_page_ok id pg b budget c :
  stored_ok c -> Btree.get pages id = Some b -> decode_page b = Ok pg -> stored_ok (add_page id pg b budget c) /\ grown c (add_page id pg b budget c).
Proof using Type.
  intros (Ho & Hs & Hd & Hr) Hb Hpg. split; [split_and!|]; cbn [add_page cl_bytes cl_decoded cl_routes].
  - by apply Btree.put_ordered.
  - intros x bx. rewrite Btree.get_put. case_decide; [by intros [= <-]; subst|auto].
  - intros x. rewrite (page_at_put id pg) by done. case_decide as E; [subst; by rewrite lookup_insert_eq|].
    by rewrite lookup_insert_ne by done.
  - done.
  - intros x Hx. cbn [add_page cl_bytes]. rewrite Btree.get_put. by case_decide.
Qed.

Lemma charge_ok f o : (forall b, attains I (f b) (fun _ => True)) -> attains I (charge f o) (fun _ => True).
Proof using Type.
  intros Hf. unfold charge. destruct o as [b|]; [|by apply attains_ret].
  eapply attains_bind; [apply Hf|]. intros. by apply attains_ret.
Qed.
Lemma check_ok b : attains I (budget_check instant b) (fun _ => True).
Proof using Type.
  unfold budget_check. eapply (attains_bind _ _ (fun _ => True)); [by apply attains_ask|]. intros t _.
  apply attains_guard. intros _. by apply attains_ret.
Qed.
Lemma allocate_ok n b : attains I (budget_allocate instant n b) (fun _ => True).
Proof using Type.
  unfold budget_allocate. eapply attains_bind; [apply check_ok|]. intros _ _.
  eapply (attains_bind _ _ (fun _ => True)); [by apply attains_of_res|]. intros m _. apply attains_guard. intros _. by apply attains_ret.
Qed.
Lemma route_ok dl rl b : attains I (budget_route instant dl rl b) (fun _ => True).
Proof using Type.
  unfold budget_route. eapply (attains_bind _ _ (fun _ => True)); [by apply attains_of_res|]. intros m _.
  apply attains_guard. intros _. apply allocate_ok.
Qed.
Lemma page_ok_budget id bs b : attains I (budget_page instant id bs b) (fun _ => True).
Proof using Type.
  unfold budget_page. eapply attains_bind; [apply check_ok|]. intros _ _. apply attains_guard. intros _.
  case_bool_decide; [by apply attains_ret|]. apply attains_guard. intros _.
  eapply (attains_bind _ _ (fun _ => True)); [by apply attains_of_res|]. intros m _. apply attains_guard. intros _.
  eapply attains_bind; [apply allocate_ok|]. intros. by apply attains_ret.
Qed.

(** A page of the closure that is known is the stored one. *)
Lemma known_stored id b :
  id ∈ pages_of t0 -> known b -> parse_digest id = Ok (page_id b) -> Btree.get pages id = Some b.
Proof using Hok Htree.
  intros Hin Hk Hp. destruct (tree_stored pages t0 id Htree Hin) as [pg Hpg].
  apply page_at_get in Hpg as (b' & Hb' & _). rewrite Hb'. f_equal. by apply (pages_agree pages id).
Qed.

Lemma from_cache_ok f c :
  stored_ok c -> pf_expected f ∈ pages_of t0 ->
  attains I (from_cache instant source f c) (fun c' => stored_ok c' /\ grown c c').
Proof using Hok Htree SourceSpec0.
  intros Hc Hin. unfold from_cache. destruct (has_page _ c); [apply attains_ret; auto using grown_refl|].
  eapply attains_bind; [apply cached_ok|]. intros [b|] Hb; [|apply attains_ret; auto using grown_refl].
  destruct (Hb _ eq_refl) as [Hk Hp]. eapply attains_bind; [apply charge_ok; intros; apply page_ok_budget|]. intros budget _.
  apply (attains_bind _ _ (fun pg => decode_page b = Ok pg)); [by apply attains_of_res|]. intros pg Hpg.
  apply attains_ret. apply add_page_ok; [done|by apply known_stored|done].
Qed.

Lemma prepared_ok r f :
  stored_ok (rq_tables r) -> pf_expected f ∈ pages_of t0 ->
  attains I (prepare instant scope p source r f) (fun r' => stored_ok (rq_tables r') /\ grown (rq_tables r) (rq_tables r')).
Proof using Hok Htree SourceSpec0.
  intros (Ho & Hs & Hd & Hr) Hin. unfold prepare. eapply (attains_bind _ _ (fun _ => True)); [by apply attains_of_res|]. intros _ _.
  eapply (attains_bind _ _ (fun _ => True)); [by apply attains_of_res|]. intros _ _. apply attains_guard. intros _.
  eapply attains_bind; [apply from_cache_ok; [|done]|].
  { split_and!; [done..|]. by apply map_Forall_insert_2. }
  intros c' [Hc' Hg]. apply attains_ret. by destruct (_ || _).
Qed.

Lemma allowed_ok routes items : map_Forall (fun _ id => id ∈ pages_of t0) routes -> forall id, id ∈ allowed routes items -> id ∈ pages_of t0.
Proof using Type.
  intros Hr id. unfold allowed. rewrite elem_of_list_to_set, elem_concat. intros (i & _ & (n & _ & Hn)%list_elem_of_omap).
  by eapply Hr.
Qed.

Lemma accept_page_ok ok c page :
  stored_ok c -> known page.2 -> (forall id, id ∈ ok -> id ∈ pages_of t0) ->
  attains I (accept_page instant source ok c page) (fun c' => stored_ok c' /\ grown c c').
Proof using Hok Htree SourceSpec0 Hbytes.
  intros Hc Hk Hall. unfold accept_page. destruct page as [pid b]. simpl in Hk. cbv zeta.
  apply attains_guard. intros Hin%negb_false_iff%bool_decide_eq_true. apply attains_guard. intros Hid%negb_false_iff%bool_decide_eq_true.
  eapply attains_bind; [apply charge_ok; intros; apply page_ok_budget|]. intros budget _.
  apply (attains_bind _ _ (fun pg => decode_page b = Ok pg)); [by apply attains_of_res|]. intros pg Hpg.
  eapply attains_bind; [by apply received_ok|]. intros _ _. apply attains_ret.
  apply add_page_ok; [done| |done]. apply known_stored; [auto|done|]. rewrite <- Hid. apply parse_digest_ok. split; [done|]. apply Hbytes.
Qed.

(** ** Expanding *)

(** The items to visit and the subtrees they stand for. *)
Definition tracks (fr : list PageFrontier) (G : list tree) : Prop :=
  pf_expected <$> fr = t_id <$> G /\ Forall (within pages t0) G.

Definition dir_entries (es : list Entry) : list Entry := filter (fun e => ent_kind e = EDirectory) es.

Lemma dir_entries_named es nes :
  mapM named es = Some nes ->
  (fun ne => digest (child_root ne.2)) <$> filter is_dir nes = (fun e => digest (child_root e)) <$> dir_entries es.
Proof using Type.
  intros Hn. apply mapM_Some in Hn. induction Hn as [|e ne es nes Hx _ IH]; [done|]. unfold named in Hx.
  apply bind_Some in Hx as (n & _ & [= <-]). unfold dir_entries in *. rewrite !filter_cons.
  destruct (decide (is_dir (n, e))) as [Hd|Hd], (decide (ent_kind e = EDirectory)) as [Hk|Hk]; try done.
  rewrite !fmap_cons. simpl. by rewrite IH.
Qed.

Lemma collect_directories_ok dir es : forall fr budget,
  attains I (fold_m (collect_directory instant dir) (fr, budget) es) (fun st =>
    exists new, st.1 = fr ++ new /\ pf_expected <$> new = (fun e => digest (child_root e)) <$> dir_entries es).
Proof using Type.
  induction es as [|e es IH]; intros fr budget; cbn [fold_m].
  { apply attains_ret. exists []. by rewrite app_nil_r. }
  unfold dir_entries. rewrite filter_cons. unfold collect_directory at 1. case_bool_decide as Hk; cbn [negb].
  - eapply (attains_bind _ _ (fun st => exists f, st.1 = fr ++ [f] /\ pf_expected f = digest (child_root e))).
    { eapply attains_bind; [apply charge_ok; intros; apply route_ok|]. intros b _.
      eapply (attains_bind _ _ (fun _ => True)); [by apply attains_of_res|]. intros name _. cbv zeta. apply attains_ret.
      eexists. split; [done|]. apply digest_text. }
    intros [fr' b'] (f & Ef & Ex). simpl in Ef. subst fr'. eapply attains_weaken; [apply IH|].
    intros st (new & E & Enew). exists (f :: new). rewrite decide_True by done. rewrite !fmap_cons, Ex, Enew.
    split; [|done]. by rewrite E, <- app_assoc.
  - eapply (attains_bind _ _ (fun st => st.1 = fr)); [by apply attains_ret|]. intros [fr' b'] E. simpl in E. subst fr'.
    rewrite decide_False by done. apply IH.
Qed.

Lemma collected_children_ok f cs : forall fr budget,
  attains I (fold_m (collect_child instant f) (fr, budget) cs) (fun st =>
    exists new, st.1 = fr ++ new /\ pf_expected <$> new = (fun c => digest (child_page_id c)) <$> cs).
Proof using Type.
  induction cs as [|c cs IH]; intros fr budget; cbn [fold_m].
  { apply attains_ret. exists []. by rewrite app_nil_r. }
  unfold collect_child at 1.
  eapply (attains_bind _ _ (fun st => exists f', st.1 = fr ++ [f'] /\ pf_expected f' = digest (child_page_id c))).
  { eapply attains_bind; [apply charge_ok; intros; apply route_ok|]. intros b _. apply attains_ret.
    eexists. split; [done|]. apply digest_text. }
  intros [fr' b'] (f' & Ef & Ex). simpl in Ef. subst fr'. eapply attains_weaken; [apply IH|].
  intros st (new & E & Enew). exists (f' :: new). rewrite !fmap_cons, Ex, Enew. split; [|done]. by rewrite E, <- app_assoc.
Qed.

(** The subtrees that a visited page makes way for. *)
Definition parts (u : tree) : list tree := let (_, _, _, dirs, subs) := u in dirs ++ subs.

Lemma parts_within u : within pages t0 u -> Forall (within pages t0) (parts u).
Proof using Type.
  intros Hu. pose proof (proj1 Hu) as Hg. destruct u as [name id own dirs subs]. apply within_parts in Hg.
  eapply list.Forall_impl; [exact Hg|]. intros w Hw. by eapply within_trans.
Qed.

Lemma parts_pages u x : x ∈ pages_of u <-> x = t_id u \/ x ∈ concat (pages_of <$> parts u).
Proof using Type. destruct u as [name id own dirs subs]. cbn [pages_of parts t_id]. by rewrite fmap_app, concat_app, elem_of_cons. Qed.

Lemma parts_weight u : weight u = S (total_nat weight (parts u)).
Proof using Type. destruct u as [name id own dirs subs]. cbn [weight parts]. by rewrite total_nat_app. Qed.

Lemma parts_expected u pg :
  grows pages u -> page_at pages (t_id u) = Some pg ->
  t_id <$> parts u = ((fun e => digest (child_root e)) <$> dir_entries (page_entries pg)) ++ page_children pg.
Proof using Type.
  destruct u as [name id own dirs subs]. intros [(pg' & nes & Hpg' & Hn & _ & Ed & Es) _]%grows_inv Hpg. cbn [t_id] in Hpg.
  assert (pg' = pg) as -> by congruence. cbn [parts]. rewrite fmap_app, Es. f_equal.
  rewrite <- (dir_entries_named _ nes) by done. apply (f_equal (fmap snd)) in Ed. by rewrite <- !list_fmap_compose in Ed.
Qed.

Lemma expand_ok fr c f u :
  stored_ok c -> has_page (pf_expected f) c = true -> pf_expected f = t_id u -> within pages t0 u ->
  attains I (expand instant (fr, c) f) (fun st =>
    exists new, st.1 = fr ++ new /\ tracks new (parts u) /\ stored_ok st.2 /\ cl_bytes st.2 = cl_bytes c /\ cl_decoded st.2 = cl_decoded c).
Proof using Type.
  intros Hc Hhas Ef Hu. unfold expand. apply attains_guard. intros _. cbv zeta. cbn [add_expanded cl_decoded cl_budget].
  unfold has_page in Hhas. apply bool_decide_eq_true in Hhas as [pg Hpg].
  apply (attains_bind _ _ (fun pg' => pg' = pg)); [apply attains_of_run; rewrite Hpg; [done|by intros ? [= <-]]|]. intros ? ->.
  assert (Hpage : page_at pages (t_id u) = Some pg).
  { destruct Hc as (_ & Hs & Hd & _). rewrite Hd, Ef in Hpg. apply page_at_get in Hpg as (b & Hb & Hpg).
    unfold page_at. rewrite (Hs _ _ Hb). simpl. by rewrite Hpg. }
  pose proof (parts_expected u pg (proj1 Hu) Hpage) as Hparts.
  eapply (attains_bind _ _ (fun st => exists new, st.1 = fr ++ new /\ pf_expected <$> new = t_id <$> parts u)).
  { destruct pg as [es|prefix terminal children]; cbn [page_entries page_children] in Hparts.
    - rewrite app_nil_r in Hparts. rewrite Hparts. apply collect_directories_ok.
    - eapply attains_bind; [apply collect_directories_ok|]. intros [fr1 b1] (n1 & E1 & X1). simpl in E1. subst fr1.
      eapply attains_weaken; [apply collected_children_ok|]. intros st (n2 & E2 & X2). exists (n1 ++ n2).
      rewrite E2, Hparts, fmap_app, X1, X2, app_assoc. done. }
  intros [fr' budget] (new & E & X). apply attains_ret. exists new. simpl in E. subst fr'. split_and!; [done|split; [done|by apply parts_within]| |done|done].
  destruct Hc as (? & ? & ? & ?). by split_and!.
Qed.

Definition covers (c : collection) (G : list tree) : Prop :=
  forall x, x ∈ pages_of t0 -> is_Some (Btree.get (cl_bytes c) x) \/ x ∈ concat (pages_of <$> G).

Lemma tracks_app fr fr' G G' : tracks fr G -> tracks fr' G' -> tracks (fr ++ fr') (G ++ G').
Proof using Type. intros [E F] [E' F']. split; [by rewrite !fmap_app, E, E'|by apply Forall_app]. Qed.

Lemma expands_ok : forall batch GB fr GF c,
  tracks batch GB -> tracks fr GF -> stored_ok c -> Forall (fun f => has_page (pf_expected f) c = true) batch ->
  covers c (GB ++ GF) ->
  attains I (fold_m (expand instant) (fr, c) batch) (fun st =>
    exists G, tracks st.1 G /\ stored_ok st.2 /\ covers st.2 G /\
      (total_nat weight G + length GB <= total_nat weight (GB ++ GF))%nat).
Proof using Type.
  induction batch as [|f batch IH]; intros [|u GB] fr GF c [Eb Hb] Hf Hc Hhas Hcov; try done; cbn [fold_m].
  { apply attains_ret. exists GF. split_and!; [done..|simpl; lia]. }
  rewrite !fmap_cons in Eb. injection Eb as Ef Eb. apply list.Forall_cons in Hb as [Hu Hb]. apply list.Forall_cons in Hhas as [Hh Hhas].
  eapply attains_bind; [by apply (expand_ok fr c f u)|]. intros [fr' c'] (new & E & Hnew & Hc' & Ebytes & Edec). cbn [fst snd] in *. subst fr'.
  eapply attains_weaken; [apply (IH GB (fr ++ new) (GF ++ parts u) c')|].
  - by split.
  - by apply tracks_app.
  - done.
  - eapply list.Forall_impl; [exact Hhas|]. intros g. unfold has_page. by rewrite Edec.
  - intros x Hx. rewrite Ebytes. destruct (Hcov x Hx) as [?|Hin]; [by left|]. rewrite fmap_app, concat_app in Hin. cbn in Hin.
    rewrite !fmap_app, !concat_app, !elem_of_app. rewrite <- app_assoc, !elem_of_app, parts_pages in Hin.
    destruct Hin as [[->|?]|[?|?]]; auto. left. unfold has_page in Hh. apply bool_decide_eq_true in Hh as [pg Hpg].
    destruct Hc as (_ & _ & Hd & _). rewrite Hd, Ef in Hpg. apply page_at_get in Hpg as (b & -> & _). done.
  - intros st (G & Ht & Hs & Hv & Hl). exists G. split_and!; [done..|]. rewrite !total_nat_app in *. simpl. rewrite (parts_weight u). lia.
Qed.

Lemma complete_batch_ok c batch : complete_batch c batch = Ok tt -> Forall (fun f => has_page (pf_expected f) c = true) batch.
Proof using Type.
  unfold complete_batch. induction batch as [|f batch IH]; intros Hx; [done|]. cbn [for_each] in Hx.
  apply rbind_ok in Hx as ([] & Hone & Hx). apply reject_ok in Hone as [Hone%negb_false_iff _]. constructor; auto.
Qed.

Lemma collect_round_ok fr G c :
  tracks fr G -> fr <> [] -> stored_ok c -> covers c G ->
  attains I (collect_round env instant scope p fetch_pages source fr c) (fun st =>
    exists G', tracks st.1 G' /\ stored_ok st.2 /\ covers st.2 G' /\ (total_nat weight G' < total_nat weight G)%nat).
Proof using Hok Htree SourceSpec0 Hbytes Hanswers Hlimit.
  intros [Etr Hw] Hne Hc Hcov. unfold collect_round. eapply attains_bind.
  { apply charge_ok. intros b. eapply attains_bind; [apply check_ok|]. intros. by apply attains_ret. }
  intros budget _. cbv zeta. set (n := Nat.min PAGES_BATCH (Z.to_nat (metadata_item_limit p))).
  assert (Hn : (0 < n)%nat) by (unfold n, PAGES_BATCH; lia).
  assert (Hc0 : stored_ok (set_budget budget c)) by (destruct Hc as (? & ? & ? & ?); by split_and!).
  eapply (attains_bind _ _ (fun r => stored_ok (rq_tables r) /\ grown c (rq_tables r))).
  { apply (attains_fold _ (fun _ _ r => stored_ok (rq_tables r) /\ grown c (rq_tables r))); [|by split; [|intros id]].
    intros done0 r f rest E [Hr Hg]. eapply attains_weaken; [apply prepared_ok; [done|]|].
    - assert (Hin : pf_expected f ∈ pf_expected <$> fr).
      { apply list_elem_of_fmap_2. eapply elem_of_submseteq; [|apply sublist_submseteq, (sublist_take fr n)]. rewrite E. set_solver. }
      rewrite Etr in Hin. apply list_elem_of_fmap in Hin as (u & -> & Hu). rewrite list.Forall_forall in Hw.
      apply (Hw u Hu). destruct u. left.
    - intros r' [Hr' Hg']. split; [done|]. by eapply grown_trans. }
  intros r [Hr Hg]. apply (attains_bind _ _ (Forall (fun p : bytes * bytes => known p.2))).
  { case_bool_decide; [by apply attains_ret|]. apply attains_gate. apply attains_ask. eauto. }
  intros answer Ha. apply (attains_bind _ _ (fun c' => stored_ok c' /\ grown c c')).
  { apply (attains_fold _ (fun _ _ c' => stored_ok c' /\ grown c c')); [|by split].
    intros done0 c1 pg rest -> [Hc1 Hg1]. eapply attains_weaken; [apply accept_page_ok; [done| |]|].
    - rewrite list.Forall_forall in Ha. apply Ha. set_solver.
    - destruct Hr as (_ & _ & _ & Hroutes). by apply allowed_ok.
    - intros c2 [Hc2 Hg2]. split; [done|]. by eapply grown_trans. }
  intros c1 [Hc1 Hg1]. apply (attains_bind _ _ (fun _ => Forall (fun f => has_page (pf_expected f) c1 = true) (take n fr))).
  { apply attains_of_res. intros []. apply complete_batch_ok. }
  intros _ Hhas. assert (EG : G = take n G ++ drop n G) by (symmetry; apply take_drop).
  eapply attains_weaken; [apply (expands_ok (take n fr) (take n G) (drop n fr) (drop n G) c1)|].
  - split; [by rewrite !fmap_take, Etr|by apply Forall_take].
  - split; [by rewrite !fmap_drop, Etr|by apply Forall_drop].
  - done.
  - done.
  - rewrite <- EG. intros x Hx. destruct (Hcov x Hx) as [?|?]; auto.
  - intros st (G' & Ht & Hs & Hv & Hl). exists G'. split_and!; [done..|]. rewrite <- EG in Hl.
    assert (0 < length (take n G))%nat; [|lia]. rewrite length_take.
    assert (length G = length fr) as -> by (apply (f_equal length) in Etr; by rewrite !length_fmap in Etr).
    destruct fr; [done|]. simpl. lia.
Qed.

Lemma collect_rounds_ok fuel : forall fr G c,
  (total_nat weight G <= fuel)%nat -> tracks fr G -> stored_ok c -> covers c G ->
  attains I (collect_rounds env instant scope p fetch_pages source fuel fr c) (fun c' => stored_ok c' /\ covers c' []).
Proof using Hok Htree SourceSpec0 Hbytes Hanswers Hlimit.
  induction fuel as [|fuel IH]; intros [|f fr] G c Hl Ht Hc Hcov; cbn [collect_rounds].
  1,3: apply attains_ret; split; [done|]; destruct Ht as [E _]; by destruct G.
  - exfalso. destruct Ht as [E _]. destruct G as [|u G]; [done|]. simpl in Hl. rewrite parts_weight in Hl. lia.
  - eapply attains_bind; [by apply (collect_round_ok (f :: fr) G c)|]. intros [fr' c'] (G' & Ht' & Hc' & Hcov' & Hl').
    cbn [fst snd] in *. apply (IH fr' G' c'); [lia|done..].
Qed.

(** The collected pages are those of the tree. *)
Lemma snapshot_pages_ok root fuel budget :
  Btree.ordered pages -> (forall id, id ∈ pages.*1 -> id ∈ pages_of t0) -> t_id t0 = root -> (weight t0 <= fuel)%nat ->
  attains I (snapshot_pages env instant scope root p features_pages fetch_pages source fuel budget) (fun ps => ps = pages).
Proof using Hok Htree SourceSpec0 Hbytes Hanswers Hlimit.
  intros Hord Hall Hroot Hfuel. unfold snapshot_pages. apply attains_guard. intros _. apply attains_gate.
  eapply attains_bind; [apply charge_ok; intros; apply route_ok|]. intros b _.
  eapply attains_bind; [apply (collect_rounds_ok fuel _ [t0])|].
  - simpl. lia.
  - split; [by rewrite <- Hroot|]. constructor; [by apply within_refl|constructor].
  - split_and!; [constructor|done|done|apply map_Forall_empty].
  - intros x Hx. right. simpl. by rewrite app_nil_r.
  - intros c [(Ho & Hs & _) Hcov]. apply attains_ret. apply Btree.ordered_ext; [done|done|]. intros id bs.
    rewrite <- !Btree.get_elem by done. split; [apply Hs|]. intros Hb. pose proof (Hall id (Btree.get_key _ _ _ Hb)) as Hin.
    destruct (Hcov id Hin) as [[b' Hb']|Hx]; [|by apply not_elem_of_nil in Hx]. rewrite Hb'. apply Hs in Hb'. congruence.
Qed.
End Collecting.

(** ** Collecting below any root *)

(** Whatever the root leads to, what is collected is stored under its own id,
    and the disk keeps its invariant at every operation, however the collection
    ends. *)
Section AnyRoot.
Context `{HexCrate} `{PageCodec} `{PageBytes} `{CodecScope} `{!KnownPages} (I : disk -> Prop) (env : environment) (instant : nat -> Z).
Context (scope : string) (p : profile) (features_pages : bool).
Context (fetch_pages : nat -> list MetadataPageItem -> Res (list (bytes * bytes))) (source : SnapshotPageSource) `{!SourceSpec I source}.
Context (Hanswers : forall k items answer, fetch_pages k items = Ok answer -> Forall (fun p => known p.2) answer).
Context (Hbytes : forall b, length (page_id b) = 32%nat /\ Forall is_byte (page_id b)).

Definition collected (c : collection) : Prop := Btree.ordered (cl_bytes c) /\ page_ok (cl_bytes c).

Lemma add_page_collected id pg b budget c :
  collected c -> known b -> parse_digest id = Ok (page_id b) -> collected (add_page id pg b budget c).
Proof using Type.
  intros [Ho Hp] Hk Hid. split; cbn [add_page cl_bytes]; [by apply Btree.put_ordered|]. intros x bx. rewrite Btree.get_put.
  case_decide; [by intros [= <-]; subst|apply Hp].
Qed.

Lemma budget_maintained f o : (forall b, attains I (f b) (fun _ => True)) -> maintains I (charge f o) (fun _ => True).
Proof using Type. intros Hf. by apply attains_maintains, charge_ok. Qed.

Lemma prepare_collected r f :
  collected (rq_tables r) -> maintains I (prepare instant scope p source r f) (fun r' => collected (rq_tables r')).
Proof using SourceSpec0.
  intros Hr. unfold prepare. eapply (maintains_bind _ _ (fun _ => True)); [by apply maintains_of_res|]. intros _ _.
  eapply (maintains_bind _ _ (fun _ => True)); [by apply maintains_of_res|]. intros _ _. apply maintains_guard. intros _.
  apply (maintains_bind _ _ collected); [|intros c Hc; apply maintains_ret; by destruct (_ || _)].
  unfold from_cache. destruct (has_page _ _); [by apply maintains_ret|].
  eapply maintains_bind; [apply attains_maintains, cached_ok|]. intros [b|] Hb; [|by apply maintains_ret]. destruct (Hb _ eq_refl) as [Hk Hid].
  eapply maintains_bind; [apply budget_maintained; intros; apply page_ok_budget|]. intros budget _.
  eapply (maintains_bind _ _ (fun _ => True)); [by apply maintains_of_res|]. intros pg _. apply maintains_ret. by apply add_page_collected.
Qed.

Lemma accept_page_collected ok c page :
  collected c -> known page.2 -> maintains I (accept_page instant source ok c page) collected.
Proof using SourceSpec0 Hbytes.
  intros Hc Hk. unfold accept_page. destruct page as [pid b]. simpl in Hk. cbv zeta. apply maintains_guard. intros _.
  apply maintains_guard. intros Hid%negb_false_iff%bool_decide_eq_true.
  eapply maintains_bind; [apply budget_maintained; intros; apply page_ok_budget|]. intros budget _.
  eapply (maintains_bind _ _ (fun _ => True)); [by apply maintains_of_res|]. intros pg _.
  eapply maintains_bind; [by apply attains_maintains, received_ok|]. intros _ _. apply maintains_ret.
  apply add_page_collected; [done|done|]. rewrite <- Hid. apply parse_digest_ok. split; [done|]. apply Hbytes.
Qed.

Lemma expand_collected st f : collected st.2 -> maintains I (expand instant st f) (fun st' => collected st'.2).
Proof using Type.
  destruct st as [fr c]. intros Hc. unfold expand. apply maintains_guard. intros _. cbv zeta.
  eapply (maintains_bind _ _ (fun _ => True)); [by apply maintains_of_run|]. intros pg _.
  eapply (maintains_bind _ _ (fun _ => True)); [|intros [fr' b] _; by apply maintains_ret].
  destruct pg as [es|prefix terminal children].
  - eapply attains_maintains, attains_weaken; [apply collect_directories_ok|done].
  - eapply maintains_bind; [apply attains_maintains, collect_directories_ok|]. intros [fr1 b1] _.
    eapply attains_maintains, attains_weaken; [apply collected_children_ok|done].
Qed.

Lemma collect_round_collected fr c :
  collected c -> maintains I (collect_round env instant scope p fetch_pages source fr c) (fun st => collected st.2).
Proof using SourceSpec0 Hbytes Hanswers.
  intros Hc. unfold collect_round. eapply maintains_bind.
  { apply budget_maintained. intros b. eapply attains_bind; [apply check_ok|]. intros. by apply attains_ret. }
  intros budget _. cbv zeta. eapply maintains_bind.
  { apply (maintains_fold _ (fun r => collected (rq_tables r)) (fun _ => True)); [intros r f Hr _; by apply prepare_collected|by apply Forall_true|done]. }
  intros r Hr. apply (maintains_bind _ _ (Forall (fun p : bytes * bytes => known p.2))).
  { case_bool_decide; [by apply maintains_ret|]. apply maintains_gate, attains_maintains, attains_ask. eauto. }
  intros answer Ha. eapply maintains_bind.
  { apply (maintains_fold _ collected (fun p : bytes * bytes => known p.2)); [intros; by apply accept_page_collected|done|exact Hr]. }
  intros c1 Hc1. eapply (maintains_bind _ _ (fun _ => True)); [by apply maintains_of_res|]. intros _ _.
  apply (maintains_fold _ (fun st => collected st.2) (fun _ => True)); [intros st f Hs _; by apply expand_collected|by apply Forall_true|done].
Qed.

Lemma snapshot_pages_collected root fuel budget :
  maintains I (snapshot_pages env instant scope root p features_pages fetch_pages source fuel budget) (fun ps => Btree.ordered ps /\ page_ok ps).
Proof using SourceSpec0 Hbytes Hanswers.
  unfold snapshot_pages. apply maintains_guard. intros _. apply maintains_gate.
  eapply maintains_bind; [apply budget_maintained; intros; apply route_ok|]. intros b _.
  assert (Hgen : forall fr c, collected c -> maintains I (collect_rounds env instant scope p fetch_pages source fuel fr c) collected).
  { induction fuel as [|fuel IH]; intros [|f fr] c Hc; cbn [collect_rounds]; try by apply maintains_ret.
    - by apply maintains_of_run.
    - eapply maintains_bind; [by apply (collect_round_collected (f :: fr))|]. intros [fr' c'] Hc'. by apply IH. }
  eapply maintains_bind; [apply Hgen; by split; [constructor|]|]. intros c Hc. by apply maintains_ret.
Qed.
End AnyRoot.
End CollectorExact.
