(* ===== verification/CollectorBounds.v ===== *)
(** * CollectorBounds

    A collection under a budget stays within it, whatever the server answers,
    also for roots that are no closure at all: the pages it keeps, their sizes
    and the routes it follows are bounded, and it ends. *)

From S2P Require Import Prelude Types Faults Text Profile Btree Frames Wire Metadata Capacity Closure ClosureExact ClosureTree Disk DiskLogic Records Durable Incremental SubtreeSums IncrementalFacts Collector CollectorExact.
Import Digests Profile.Scope Metadata Capacity Closure Disk DiskLogic Records Incremental SubtreeSums IncrementalFacts Collector CollectorExact.
Local Open Scope string_scope.
Local Open Scope list_scope.
Local Open Scope Z_scope.

Module CollectorBounds.

Definition total_bytes (m : list (string * bytes)) : Z := foldr (fun e n => zlen e.2 + n) 0 m.

Lemma total_put m k v : Btree.get m k = None -> total_bytes (Btree.put m k v) = total_bytes m + zlen v /\ zlen (Btree.put m k v) = zlen m + 1.
Proof.
  unfold total_bytes, zlen. induction m as [|[k' v'] m IH]; simpl; [lia|]. destruct (String.eqb_spec k k') as [|Hne]; [done|]. intros Hg.
  destruct (IH Hg) as [E1 E2]. destruct (String.compare k k') eqn:Ec; simpl; try lia.
  by apply str_compare_eq in Ec.
Qed.

Lemma put_same (m : list (string * bytes)) k v : Btree.get m k = Some v -> Btree.ordered m -> Btree.put m k v = m.
Proof.
  intros Hg Hm. apply Btree.ordered_ext; [by apply Btree.put_ordered|done|]. intros j w.
  rewrite <- !Btree.get_elem by (done || by apply Btree.put_ordered). rewrite Btree.get_put. case_decide; [subst; by rewrite Hg|done].
Qed.

Section Bounds.
Context `{HexCrate} `{PageCodec} `{PageBytes} `{CodecScope} `{!KnownPages} (I : disk -> Prop) (env : environment) (instant : nat -> Z).
Context (scope : string) (p : profile) (features_pages : bool).
Context (fetch_pages : nat -> list MetadataPageItem -> Res (list (bytes * bytes))) (source : SnapshotPageSource) `{!SourceSpec I source}.
Context (Hanswers : forall k items answer, fetch_pages k items = Ok answer -> Forall (fun p => known p.2) answer).
Context (Hbytes : forall b, length (page_id b) = 32%nat /\ Forall is_byte (page_id b)).
Context (Hlimit : 0 < metadata_item_limit p) (lim : CacheLimits).

(** The budget accounts for the tables. *)
Record accounted (c : collection) (b : PageCollectionBudget) : Prop := {
  ac_budget : cl_budget c = Some b;
  ac_limits : pb_limits b = lim;
  ac_pages : pb_pages b = list_to_set (cl_bytes c).*1;
  ac_bytes : pb_bytes b = total_bytes (cl_bytes c) /\ total_bytes (cl_bytes c) <= Z.max 0 (max_metadata_bytes lim);
  ac_count : zlen (cl_bytes c) <= Z.max 0 (max_entries lim);
  ac_routes : pb_routes b <= Z.max 0 (max_root_nodes lim);
  ac_ordered : Btree.ordered (cl_bytes c);
  ac_each : forall id bs, Btree.get (cl_bytes c) id = Some bs -> known bs /\ parse_digest id = Ok (page_id bs) /\ zlen bs <= PAGE_MAX_BYTES;
}.
(** [n] routes were charged. *)
Definition routes (c : collection) (n : Z) : Prop := exists b, accounted c b /\ pb_routes b = n.

Lemma allocate_same n b :
  attains I (budget_allocate instant n b) (fun b' =>
    pb_limits b' = pb_limits b /\ pb_routes b' = pb_routes b /\ pb_bytes b' = pb_bytes b /\ pb_pages b' = pb_pages b).
Proof using Type.
  unfold budget_allocate. eapply attains_bind; [apply check_ok|]. intros _ _.
  eapply (attains_bind _ _ (fun _ => True)); [by apply attains_of_res|]. intros m _. apply attains_guard. intros _. by apply attains_ret.
Qed.

Lemma route_charged dl rl b :
  attains I (budget_route instant dl rl b) (fun b' =>
    pb_limits b' = pb_limits b /\ pb_routes b' = pb_routes b + 1 /\ pb_routes b' <= max_root_nodes (pb_limits b) /\
    pb_bytes b' = pb_bytes b /\ pb_pages b' = pb_pages b).
Proof using Type.
  unfold budget_route. apply (attains_bind _ _ (fun r => r = pb_routes b + 1)).
  { apply attains_of_res. by intros a [-> _]%ok_or_ok%checked_add_some. }
  intros r ->. apply attains_guard. intros Hr. eapply attains_weaken; [apply allocate_same|].
  intros b' (E1 & E2 & E3 & E4). simpl in *. split_and!; [done|done|lia|done|done].
Qed.

Lemma page_charged id bs b :
  attains I (budget_page instant id bs b) (fun b' => zlen bs <= PAGE_MAX_BYTES /\ pb_limits b' = pb_limits b /\ pb_routes b' = pb_routes b /\
    ((id ∈ pb_pages b /\ b' = b) \/
     ((id ∉ pb_pages b) /\ pb_pages b' = {[id]} ∪ pb_pages b /\ pb_bytes b' = pb_bytes b + zlen bs /\
      pb_bytes b' <= max_metadata_bytes (pb_limits b) /\ Z.of_nat (size (pb_pages b)) < max_entries (pb_limits b)))).
Proof using Type.
  unfold budget_page. eapply attains_bind; [apply check_ok|]. intros _ _. apply attains_guard. intros Hsz.
  case_bool_decide as Hin; [apply attains_ret; split_and!; [lia|done|done|by left]|]. apply attains_guard. intros Hn.
  apply (attains_bind _ _ (fun r => r = pb_bytes b + zlen bs)).
  { apply attains_of_res. by intros a [-> _]%ok_or_ok%checked_add_some. }
  intros total ->. apply attains_guard. intros Ht. eapply attains_bind; [apply allocate_same|]. intros b' (E1 & E2 & E3 & E4).
  apply attains_ret. simpl in *. split_and!; [lia|done|done|]. right. rewrite E4, E3. split_and!; [done|done|done|lia|lia].
Qed.

(** A page is kept once. *)
Lemma charge_page id bs pg c n :
  routes c n -> known bs -> parse_digest id = Ok (page_id bs) ->
  attains I (charge (budget_page instant id bs) (cl_budget c)) (fun budget => routes (add_page id pg bs budget c) n).
Proof using Type.
  intros (b & Hb & En) Hk Hid. rewrite (ac_budget _ _ Hb). cbn [charge]. eapply attains_bind; [apply page_charged|].
  intros b' (Hsz & El & Er & Hc). apply attains_ret. exists b'. split; [|congruence]. destruct Hb as [A1 A2 A3 [A4 A5] A6 A7 A8 A9].
  assert (Heach : forall j w, Btree.get (Btree.put (cl_bytes c) id bs) j = Some w ->
    known w /\ parse_digest j = Ok (page_id w) /\ zlen w <= PAGE_MAX_BYTES).
  { intros j w. rewrite Btree.get_put. case_decide; [intros [= <-]; by subst|apply A9]. }
  destruct Hc as [[Hin ->]|(Hout & Ep & Eb & Hmb & Hme)].
  - assert (Hsame : Btree.put (cl_bytes c) id bs = cl_bytes c).
    { apply put_same; [|done]. rewrite A3, elem_of_list_to_set in Hin. apply list_elem_of_fmap in Hin as ([j w] & -> & Hin).
      apply Btree.get_elem in Hin; [|done]. simpl in *. rewrite Hin. f_equal. destruct (A9 _ _ Hin) as (Hkw & Hpw & _).
      apply known_inj; [done|done|]. rewrite Hid in Hpw. by injection Hpw. }
    split; cbn [add_page cl_bytes cl_budget]; rewrite ?Hsame; auto.
  - assert (Hnone : Btree.get (cl_bytes c) id = None).
    { destruct (Btree.get (cl_bytes c) id) as [w|] eqn:E; [|done]. exfalso. apply Hout. rewrite A3, elem_of_list_to_set.
      by eapply Btree.get_key. }
    destruct (total_put _ _ bs Hnone) as [T1 T2].
    assert (Hsize : Z.of_nat (size (pb_pages b)) = zlen (cl_bytes c)).
    { rewrite A3, size_list_to_set by by apply Btree.ordered_nodup. by rewrite length_fmap. }
    split; cbn [add_page cl_bytes cl_budget]; [done|congruence| |rewrite T1; rewrite A2 in *; lia|rewrite T2; rewrite A2 in *; lia|by rewrite Er| |done].
    + rewrite Ep, A3. apply set_eq. intros x. rewrite elem_of_union, elem_of_singleton, !elem_of_list_to_set.
      split; [|intros [?|?]%Btree.put_keys; auto]. intros [->|Hx].
      * apply (Btree.get_key _ id bs). rewrite Btree.get_put. by rewrite decide_True.
      * apply list_elem_of_fmap in Hx as ([j w] & -> & Hx). apply Btree.get_elem in Hx; [|done]. cbn [fst].
        assert (exists w', Btree.get (Btree.put (cl_bytes c) id bs) j = Some w') as [w' Hw'].
        { rewrite Btree.get_put. case_decide; eauto. }
        by eapply Btree.get_key.
    + by apply Btree.put_ordered.
Qed.

Lemma same_tables c c' n : cl_bytes c' = cl_bytes c -> cl_budget c' = cl_budget c -> routes c n -> routes c' n.
Proof using Type. intros E1 E2 (b & [A1 A2 A3 A4 A5 A6 A7 A8] & En). exists b. split; [|done]. split; by rewrite ?E1, ?E2. Qed.

Definition kept (c c' : collection) : Prop := forall id, is_Some (cl_decoded c !! id) -> is_Some (cl_decoded c' !! id).

Lemma prepare_bounded r f n :
  routes (rq_tables r) n -> attains I (prepare instant scope p source r f) (fun r' => routes (rq_tables r') n).
Proof using SourceSpec0.
  intros Hn. unfold prepare. eapply (attains_bind _ _ (fun _ => True)); [by apply attains_of_res|]. intros _ _.
  eapply (attains_bind _ _ (fun _ => True)); [by apply attains_of_res|]. intros _ _. apply attains_guard. intros _.
  apply (attains_bind _ _ (fun c => routes c n)).
  - assert (Hr : routes (add_route f (rq_tables r)) n) by (by apply (same_tables (rq_tables r))).
    unfold from_cache. destruct (has_page _ _); [by apply attains_ret|]. eapply attains_bind; [apply cached_ok|].
    intros [b|] Hb; [|by apply attains_ret]. destruct (Hb _ eq_refl) as [Hk Hp].
    eapply attains_bind; [by apply (charge_page _ _ (Leaf []) _ n)|]. intros budget Hbu.
    eapply (attains_bind _ _ (fun _ => True)); [by apply attains_of_res|]. intros pg _. apply attains_ret.
    by apply (same_tables (add_page (pf_expected f) (Leaf []) b budget (add_route f (rq_tables r)))).
  - intros c Hc. apply attains_ret. by destruct (_ || _).
Qed.

Lemma accept_bounded ok c page n :
  routes c n -> known page.2 -> attains I (accept_page instant source ok c page) (fun c' => routes c' n).
Proof using SourceSpec0 Hbytes.
  intros Hn Hk. unfold accept_page. destruct page as [pid b]. simpl in Hk. cbv zeta.
  apply attains_guard. intros _. apply attains_guard. intros Hid%negb_false_iff%bool_decide_eq_true.
  eapply attains_bind; [apply (charge_page _ _ (Leaf []) _ n); [done|done|]|].
  { rewrite <- Hid. apply parse_digest_ok. split; [done|]. apply Hbytes. }
  intros budget Hbu. eapply (attains_bind _ _ (fun _ => True)); [by apply attains_of_res|]. intros pg _.
  eapply attains_bind; [by apply received_ok|]. intros _ _. apply attains_ret.
  by apply (same_tables (add_page (digest_string pid) (Leaf []) b budget c)).
Qed.

Lemma charge_route dl rl budget c n :
  routes (set_budget budget c) n ->
  attains I (charge (budget_route instant dl rl) budget) (fun budget' => routes (set_budget budget' c) (n + 1)).
Proof using Type.
  intros (b & [A1 A2 A3 A4 A5 A6 A7 A8] & En). simpl in A1. subst budget. cbn [charge]. eapply attains_bind; [apply route_charged|].
  intros b' (E1 & E2 & E3 & E4 & E5). apply attains_ret. exists b'. split; [|lia].
  split; simpl in *; [done|congruence|congruence|by rewrite E4| done|rewrite A2 in E3; lia|done|done].
Qed.

Lemma directories_bounded dir es c : forall fr budget n,
  routes (set_budget budget c) n ->
  attains I (fold_m (collect_directory instant dir) (fr, budget) es) (fun st =>
    exists new, st.1 = fr ++ new /\ routes (set_budget st.2 c) (n + zlen new)).
Proof using Type.
  induction es as [|e es IH]; intros fr budget n Hn; cbn [fold_m].
  { apply attains_ret. exists []. rewrite app_nil_r. split; [done|]. cbn [snd]. by rewrite Z.add_0_r. }
  apply (attains_bind _ _ (fun st => exists new, st.1 = fr ++ new /\ routes (set_budget st.2 c) (n + zlen new))).
  - unfold collect_directory. case_bool_decide; cbn [negb].
    + eapply attains_bind; [by apply (charge_route _ _ _ c n)|]. intros b Hb.
      eapply (attains_bind _ _ (fun _ => True)); [by apply attains_of_res|]. intros name _. cbv zeta. apply attains_ret.
      eexists [_]. split; [done|]. by cbn [snd].
    + apply attains_ret. exists []. rewrite app_nil_r. split; [done|]. cbn [snd]. by rewrite Z.add_0_r.
  - intros [fr' b'] (new & E & Hb). cbn [fst snd] in E, Hb. subst fr'. eapply attains_weaken; [by apply (IH _ _ _ Hb)|].
    intros st (new' & E & Hb'). exists (new ++ new'). rewrite app_assoc, zlen_app, Z.add_assoc. done.
Qed.

Lemma children_bounded f cs c : forall fr budget n,
  routes (set_budget budget c) n ->
  attains I (fold_m (collect_child instant f) (fr, budget) cs) (fun st =>
    exists new, st.1 = fr ++ new /\ routes (set_budget st.2 c) (n + zlen new)).
Proof using Type.
  induction cs as [|ch cs IH]; intros fr budget n Hn; cbn [fold_m].
  { apply attains_ret. exists []. rewrite app_nil_r. split; [done|]. cbn [snd]. by rewrite Z.add_0_r. }
  apply (attains_bind _ _ (fun st => exists new, st.1 = fr ++ new /\ routes (set_budget st.2 c) (n + zlen new))).
  - unfold collect_child. eapply attains_bind; [by apply (charge_route _ _ _ c n)|]. intros b Hb. apply attains_ret.
    eexists [_]. split; [done|]. by cbn [snd].
  - intros [fr' b'] (new & E & Hb). cbn [fst snd] in E, Hb. subst fr'. eapply attains_weaken; [by apply (IH _ _ _ Hb)|].
    intros st (new' & E & Hb'). exists (new ++ new'). rewrite app_assoc, zlen_app, Z.add_assoc. done.
Qed.

Lemma expand_bounded fr c f n :
  routes c n -> has_page (pf_expected f) c = true ->
  attains I (expand instant (fr, c) f) (fun st => exists new, st.1 = fr ++ new /\ routes st.2 (n + zlen new) /\ cl_decoded st.2 = cl_decoded c).
Proof using Type.
  intros Hn Hhas. unfold expand. apply attains_guard. intros _. cbv zeta. cbn [add_expanded cl_decoded cl_budget].
  unfold has_page in Hhas. apply bool_decide_eq_true in Hhas as [pg Hpg].
  apply (attains_bind _ _ (fun pg' => pg' = pg)); [apply attains_of_run; rewrite Hpg; [done|by intros ? [= <-]]|]. intros ? ->.
  assert (Hn' : routes (set_budget (cl_budget c) (add_expanded f c)) n) by (by apply (same_tables c)).
  eapply (attains_bind _ _ (fun st => exists new, st.1 = fr ++ new /\ routes (set_budget st.2 (add_expanded f c)) (n + zlen new))).
  { destruct pg as [es|prefix terminal children]; [by apply directories_bounded|].
    eapply attains_bind; [by apply (directories_bounded _ _ (add_expanded f c) _ _ n)|]. intros [fr1 b1] (new & E & Hb). cbn [fst snd] in E, Hb. subst fr1.
    eapply attains_weaken; [by apply (children_bounded _ _ (add_expanded f c) _ _ _ Hb)|].
    intros st (new' & E & Hb'). exists (new ++ new'). rewrite app_assoc, zlen_app, Z.add_assoc. done. }
  intros [fr' budget] (new & E & Hb). cbn [fst snd] in E, Hb. subst fr'. apply attains_ret. by exists new.
Qed.

Lemma expands_bounded : forall batch fr c n,
  routes c n -> Forall (fun f => has_page (pf_expected f) c = true) batch ->
  attains I (fold_m (expand instant) (fr, c) batch) (fun st => exists m, routes st.2 (n + m) /\ zlen st.1 = zlen fr + m).
Proof using Type.
  induction batch as [|f batch IH]; intros fr c n Hn Hhas; cbn [fold_m].
  { apply attains_ret. exists 0. cbn [fst snd]. rewrite !Z.add_0_r. done. }
  apply list.Forall_cons in Hhas as [Hh Hhas]. eapply attains_bind; [by apply (expand_bounded fr c f n)|].
  intros [fr' c'] (new & E & Hb & Ed). cbn [fst snd] in *. subst fr'. eapply attains_weaken; [apply (IH _ _ _ Hb)|].
  - eapply list.Forall_impl; [exact Hhas|]. intros g. unfold has_page. by rewrite Ed.
  - intros st (m & Hm & El). exists (zlen new + m). rewrite Z.add_assoc. split; [done|]. rewrite El, zlen_app. lia.
Qed.

Lemma round_bounded fr c n :
  fr <> [] -> routes c n ->
  attains I (collect_round env instant scope p fetch_pages source fr c) (fun st => exists m, routes st.2 (n + m) /\ zlen st.1 < zlen fr + m).
Proof using SourceSpec0 Hbytes Hanswers Hlimit.
  intros Hne Hn. unfold collect_round. pose proof Hn as (b0 & Hb0 & _). rewrite (ac_budget _ _ Hb0). cbn [charge].
  apply (attains_bind _ _ (fun budget => budget = Some b0)).
  { eapply (attains_bind _ _ (fun b => b = b0)); [|intros ? ->; by apply attains_ret].
    eapply attains_bind; [apply check_ok|]. intros. by apply attains_ret. }
  intros ? ->. cbv zeta. set (k := Nat.min PAGES_BATCH (Z.to_nat (metadata_item_limit p))).
  assert (Hk : (0 < k)%nat) by (unfold k, PAGES_BATCH; lia).
  apply (attains_bind _ _ (fun r => routes (rq_tables r) n)).
  { apply (attains_fold _ (fun _ _ r => routes (rq_tables r) n)); [intros; by apply prepare_bounded|].
    apply (same_tables c); [done| |done]. simpl. by rewrite (ac_budget _ _ Hb0). }
  intros r Hr. apply (attains_bind _ _ (Forall (fun p : bytes * bytes => known p.2))).
  { case_bool_decide; [by apply attains_ret|]. apply attains_gate. apply attains_ask. eauto. }
  intros answer Ha. apply (attains_bind _ _ (fun c' => routes c' n)).
  { apply (attains_fold _ (fun _ _ c' => routes c' n)); [|done]. intros done0 c1 pg rest -> Hc1. apply accept_bounded; [done|].
    rewrite list.Forall_forall in Ha. apply Ha. set_solver. }
  intros c1 Hc1. apply (attains_bind _ _ (fun _ => Forall (fun f => has_page (pf_expected f) c1 = true) (take k fr))).
  { apply attains_of_res. intros []. apply complete_batch_ok. }
  intros _ Hhas. eapply attains_weaken; [by apply (expands_bounded _ (drop k fr) c1 n)|].
  intros st (m & Hm & El). exists m. split; [done|]. rewrite El. unfold zlen. rewrite length_drop. destruct fr; [done|]. simpl. lia.
Qed.

Lemma rounds_bounded fuel : forall fr c n,
  Z.max 0 (max_root_nodes lim) - n + zlen fr <= Z.of_nat fuel -> routes c n ->
  attains I (collect_rounds env instant scope p fetch_pages source fuel fr c) (fun c' => exists m, routes c' m).
Proof using SourceSpec0 Hbytes Hanswers Hlimit.
  induction fuel as [|fuel IH]; intros [|f fr] c n Hl Hn; cbn [collect_rounds].
  1,3: apply attains_ret; by exists n.
  - exfalso. destruct Hn as (b & Hb & En). pose proof (ac_routes _ _ Hb). unfold zlen in Hl. simpl in Hl. lia.
  - eapply attains_bind; [by apply (round_bounded (f :: fr) c n)|]. intros [fr' c'] (m & Hm & El). cbn [fst snd] in *.
    apply (IH fr' c' (n + m)); [lia|done].
Qed.

Lemma snapshot_pages_bounded root fuel deadline :
  Z.max 0 (max_root_nodes lim) <= Z.of_nat fuel ->
  attains I (snapshot_pages env instant scope root p features_pages fetch_pages source fuel (Some (mkPageBudget lim deadline 0 0 0 ∅)))
    (fun ps => Btree.ordered ps /\ zlen ps <= Z.max 0 (max_entries lim) /\ total_bytes ps <= Z.max 0 (max_metadata_bytes lim) /\
       forall id bs, (id, bs) ∈ ps -> parse_digest id = Ok (page_id bs) /\ zlen bs <= PAGE_MAX_BYTES).
Proof using SourceSpec0 Hbytes Hanswers Hlimit.
  intros Hfuel. unfold snapshot_pages. apply attains_guard. intros _. apply attains_gate.
  set (b0 := mkPageBudget lim deadline 0 0 0 ∅). set (c0 := mkCollection ∅ [] ∅ ∅ (Some b0)).
  assert (Hstart : routes (set_budget (Some b0) c0) 0).
  { exists b0. split; [|done]. split; simpl; try done; [unfold total_bytes; simpl; lia|unfold zlen; simpl; lia|lia|constructor]. }
  eapply attains_bind; [by apply (charge_route _ _ _ c0 0)|]. intros budget Hb.
  eapply attains_bind; [apply (rounds_bounded fuel _ _ 1); [|exact Hb]|]; [unfold zlen; simpl; lia|].
  intros c (m & b & [A1 A2 A3 [A4 A5] A6 A7 A8 A9] & _). apply attains_ret. split_and!; [done|done|done|].
  intros id bs Hin%Btree.get_elem; [|done]. by destruct (A9 _ _ Hin) as (_ & ? & ?).
Qed.
End Bounds.

Section ForCache.
Context `{HexCrate} `{PageCodec} `{PageBytes} `{CodecScope} `{DescriptorCodec} `{ServingCodec} `{UuidCrate} `{!KnownPages}.
Context (page_id_bytes : forall b, length (page_id b) = 32%nat /\ Forall is_byte (page_id b)).

Lemma canonical_bounded b pages mn mb dl now c :
  Btree.ordered pages -> from_canonical_pages_bounded b pages mn mb dl now = Ok c ->
  vc_descriptor_bytes c = b /\ vc_pages c = pages /\ zlen (vc_directories c) + zlen (vc_files c) <= Z.max 0 mn.
Proof using Type.
  intros Hord Hb. unfold from_canonical_pages_bounded in Hb. apply rbind_ok in Hb as (sv & _ & Hb). apply rbind_ok in Hb as (id & _ & Hb).
  apply rbind_ok in Hb as ([c' v] & Hv & Hb). apply reject_ok in Hb as [Hbytes%negb_false_iff%bool_decide_eq_true [= <-]].
  pose proof (ClosureExact.closure_within_limits _ _ _ _ _ _ _ _ Hord Hv) as (Hn & _).
  apply ClosureExact.validated in Hv as (_ & _ & _ & _ & _ & _ & _ & _ & Ec); [|done]. split_and!; [done|by rewrite Ec|done].
Qed.

(** C24: a closure acquired for the managed cache costs no more than its limits
    allow, whatever the server answers: it takes at most as many batches as
    there may be nodes, never panics, and what it returns has at most the
    permitted pages, page bytes and logical nodes, every page within the page
    size and stored under its own id. The page ids are assumed to tell the page
    bytes that occur apart. *)
Theorem collection_bounded env instant reachable d p features fetch_pages limits fuel s :
  (forall k items answer, fetch_pages k items = Ok answer -> Forall (fun p => known p.2) answer) ->
  0 < metadata_item_limit p -> 0 <= PAGE_MAX_DEPTH -> Z.max 0 (max_root_nodes limits) <= Z.of_nat fuel ->
  match (snapshot_closure_for_cache env instant reachable d p features fetch_pages limits fuel s).1 with
  | Ok c => zlen (vc_pages c) <= Z.max 0 (max_entries limits) /\ total_bytes (vc_pages c) <= Z.max 0 (max_metadata_bytes limits) /\
      zlen (vc_directories c) + zlen (vc_files c) <= Z.max 0 (max_root_nodes limits) /\
      canonical_descriptor d = Ok (vc_descriptor_bytes c) /\
      forall id bs, (id, bs) ∈ vc_pages c -> parse_digest id = Ok (page_id bs) /\ zlen bs <= PAGE_MAX_BYTES
  | Err (Failed _) => True
  | Err _ => False
  end.
Proof using page_id_bytes.
  intros Hans Hp Hmax Hfuel.
  assert (Hx : attains (fun _ => True) (snapshot_closure_for_cache env instant reachable d p features fetch_pages limits fuel) (fun c =>
    zlen (vc_pages c) <= Z.max 0 (max_entries limits) /\ total_bytes (vc_pages c) <= Z.max 0 (max_metadata_bytes limits) /\
    zlen (vc_directories c) + zlen (vc_files c) <= Z.max 0 (max_root_nodes limits) /\
    canonical_descriptor d = Ok (vc_descriptor_bytes c) /\
    forall id bs, (id, bs) ∈ vc_pages c -> parse_digest id = Ok (page_id bs) /\ zlen bs <= PAGE_MAX_BYTES));
    [|by destruct (Hx s Logic.I)].
  unfold snapshot_closure_for_cache. apply (attains_bind _ _ (fun _ => True)); [by apply attains_of_res|]. intros _ _.
  apply (attains_bind _ _ (fun _ => True)); [by apply attains_ask|]. intros t _. cbv zeta.
  eapply attains_bind; [by apply (snapshot_pages_bounded (fun _ => True) env instant _ p features fetch_pages NetworkPages)|].
  intros pages (Hord & Hc & Hb & He). apply (attains_bind _ _ (fun b => canonical_descriptor d = Ok b)); [by apply attains_of_res|].
  intros b Hd. apply (attains_bind _ _ (fun c => vc_descriptor_bytes c = b /\ vc_pages c = pages /\
    zlen (vc_directories c) + zlen (vc_files c) <= Z.max 0 (max_root_nodes limits))).
  { apply attains_still; [done|]. intros s'. unfold timed. simpl. destruct (from_canonical_pages_bounded _ _ _ _ _ _) as [c|e] eqn:E.
    - by eapply canonical_bounded.
    - pose proof (ClosureExact.canonical_clean b pages (max_root_nodes limits) (max_inventory_bytes limits) (Some (t + max_scan_millis limits))
        (fun n => instant (Disk.clock s' + n)%nat) Hord Hmax) as Hcl. rewrite E in Hcl. by destruct e. }
  intros c (E1 & E2 & E3). apply (attains_bind _ _ (fun _ => True)); [by apply attains_of_res|]. intros _ _.
  apply attains_gate. apply attains_ret. rewrite E1, E2. by split_and!.
Qed.
End ForCache.
End CollectorBounds.
