(* ===== verification/RefreshHistory.v ===== *)
(** * RefreshHistory

    What refreshes guarantee. A full refresh returns the closure of its snapshot
    from any cache at all. A refresh of files trusts the records of the index,
    so it depends on what the scope went through: its guarantee and that of the
    index hold after any history of full refreshes of any snapshots, refreshes
    of files that end before their commit, refreshes of files of snapshots with
    an accepted closure, releases, damage to pages and crashes. The restriction
    of the third kind is needed: see [invalid_refresh_poisons]. *)

From S2P Require Import Prelude Types Faults Text Profile Btree Frames Wire Metadata Capacity Closure ClosureExact ClosureFacts ClosureTree Disk DiskLogic Records Durable Incremental SubtreeSums SubtreeFacts IncrementalFacts IncrementalWalk IncrementalExact Collector CollectorExact.
Import Digests Profile.Scope Metadata Closure ClosureExact ClosureFacts ClosureTree Disk DiskLogic Records Incremental SubtreeSums SubtreeFacts IncrementalFacts IncrementalWalk IncrementalExact Collector CollectorExact.
Local Open Scope string_scope.
Local Open Scope list_scope.
Local Open Scope Z_scope.

Module RefreshHistory.

Section History.
Context `{HexCrate} `{PageCodec} `{PageBytes} `{Serde index} `{CodecScope} `{DescriptorCodec} `{ServingCodec} `{UuidCrate}.
(** The page bytes that occur; page ids are 32 bytes, and the names of their
    entries are single path components, as the codec demands. *)
Context `{!KnownPages} (page_id_bytes : forall b, length (page_id b) = 32%nat /\ Forall is_byte (page_id b)).
Context (known_names : forall b pg e name,
  known b -> decode_page b = Ok pg -> e ∈ page_entries pg -> from_utf8 (ent_name e) = Some name -> component name).

(** A snapshot whose closure the validator accepts. *)
Definition accepted (d : Descriptor) (pages : list (string * bytes)) (c : ValidatedSnapshotClosure) : Prop :=
  Btree.ordered pages /\ from_pages d pages = Ok c /\ Forall (fun p => known p.2) pages.

Lemma names_of pages : page_ok pages -> component_names pages.
Proof using known_names.
  intros Hok id pg e name (b & Hb & Hd)%page_at_get. apply Hok in Hb as [Hk _]. by apply (known_names b).
Qed.

Definition answers_known (fetch_pages : nat -> list MetadataPageItem -> Res (list (bytes * bytes))) : Prop :=
  forall k items answer, fetch_pages k items = Ok answer -> Forall (fun p => known p.2) answer.

Lemma accepted_pages d pages c : accepted d pages c -> page_ok pages.
Proof using Type.
  intros (Hord & Hv & Hk) id b Hb%Btree.get_elem; [|done]. unfold from_pages in Hv. apply rbind_ok in Hv as ([c' v] & Hv & _).
  apply validated in Hv as (_ & _ & _ & _ & _ & Hp & _); [|done]. split; [|by apply Hp].
  rewrite list.Forall_forall in Hk. by apply (Hk (id, b)).
Qed.

Lemma sync_ok env managed pin_inventory scope auth_domain snapshot_id codec fetch_pages choose d pages c fuel :
  accepted d pages c -> answers_known fetch_pages -> enough pages (metadata_root d) fuel ->
  attains cache_ok (sync env managed pin_inventory scope auth_domain snapshot_id (metadata_root d) codec fetch_pages choose fuel)
    (fun files => files ≡ₚ vc_files c).
Proof using page_id_bytes known_names.
  intros Hacc Hans Hfuel. pose proof (accepted_pages _ _ _ Hacc) as Hok. destruct Hacc as (Hord & Hv & _).
  destruct (closure_tree d pages c Hord Hv) as (t & Hname & Hid & Hg & Hd & Hf & Hnd).
  assert (Hdist : NoDup ("/" :: absolute (dirs_below "" t))).
  { apply list.NoDup_app in Hnd as (Hnd & _ & _). rewrite Hd in Hnd. rewrite fmap_cons in Hnd. simpl in Hnd.
    apply (NoDup_fmap_2 (fun p => "/" ++ p)%string) in Hnd. rewrite fmap_cons, <- list_fmap_compose in Hnd. exact Hnd. }
  unfold sync. apply attains_gate. eapply attains_bind; [apply sync_transaction_ok|]. intros tx Htx.
  eapply attains_bind.
  { apply (acquire_ok env managed scope auth_domain snapshot_id codec fetch_pages choose pages t Hok Hans page_id_bytes); try done.
    - split; [done|]. apply (plain_tree pages); [by apply names_of|done].
    - by apply Hfuel. }
  intros [files tx'] [Hfiles Htx']. simpl in Hfiles, Htx'. apply (attains_bind _ _ (fun _ => True)); [by apply attains_of_res|].
  intros _ _. apply (attains_bind _ _ (fun _ => True)); [by apply commit_records_ok|]. intros _ _. apply attains_ret. by rewrite Hfiles, Hf.
Qed.

(** ** Full refreshes *)

(** Every page of an accepted closure is in its tree. *)
Lemma accepted_tree d pages c :
  accepted d pages c -> exists t, t_id t = metadata_root d /\ grows pages t /\ forall id, id ∈ pages.*1 -> id ∈ pages_of t.
Proof using Type.
  intros (Hord & Hv & _). destruct (closure_tree d pages c Hord Hv) as (t & _ & Hid & Hg & _).
  exists t. split_and!; [done|done|]. intros id Hin. apply (reachable_within pages t); [done|]. rewrite Hid.
  unfold from_pages in Hv. apply rbind_ok in Hv as ([c' v] & Hv & _). apply validated in Hv as (_ & Hp & _); [|done]. by apply Hp.
Qed.

Lemma collected_ok I env instant scope p features fetch_pages source `{!SourceSpec I source} d pages c fuel budget :
  accepted d pages c -> answers_known fetch_pages -> enough pages (metadata_root d) fuel -> 0 < metadata_item_limit p ->
  attains I (snapshot_pages env instant scope (metadata_root d) p features fetch_pages source fuel budget) (fun ps => ps = pages).
Proof using page_id_bytes.
  intros Hacc Hans Hf Hp. pose proof (accepted_pages _ _ _ Hacc) as Hok. destruct (accepted_tree _ _ _ Hacc) as (t & Hid & Hg & Hall).
  destruct Hacc as (Hord & _). by eapply (snapshot_pages_ok I _ _ _ _ _ _ _ pages t); eauto.
Qed.

(** The records made of the summaries list their subtrees. *)
Lemma fact_record_sound pages auth_domain snapshot_id codec f :
  page_ok pages -> fact_tree pages f -> sound (fact_record auth_domain snapshot_id codec f).
Proof using Type.
  intros Hok (t & Hg & Hid & Ea) q u Hq Hu _ E. simpl in E. cbn [fact_record cr_files cr_page_ids cr_total_entries].
  change (fact_amount f ≡ amt_at "" u). rewrite Ea.
  rewrite (grows_same pages q t u Hok Hq Hg Hu (eq_trans Hid (eq_sym E)) ""). done.
Qed.

Lemma full_put_sound rs : forall tx,
  Forall sound rs -> sound_index (fp_records tx) -> sound_index (fp_records (fold_left full_put_record rs tx)).
Proof using Type.
  induction rs as [|r rs IH]; intros tx Hrs Htx; [done|]. apply list.Forall_cons in Hrs as [Hr Hrs]. simpl. apply IH; [done|].
  unfold full_put_record. case_decide; [done|]. by apply map_Forall_insert_2.
Qed.

(** A disk with any index and any page files: a name of the cache denotes a
    file, a page file holds bytes that occur, and nothing is asked of which page
    lies under which name. *)
Definition any_cache : disk -> Prop := cache_with (fun _ => True) False.

Lemma cache_any d : cache_ok d -> any_cache d.
Proof using Type. intros Hd p i Hu Hor. destruct (Hd p i Hu Hor) as (n & En & _ & _ & Hk). exists n. by split_and!. Qed.

Lemma sync_snapshot_ok env managed instant p features auth_domain snapshot_id codec fetch_pages d pages c fuel :
  accepted d pages c -> answers_known fetch_pages -> enough pages (metadata_root d) fuel -> 0 < metadata_item_limit p ->
  0 <= PAGE_MAX_DEPTH ->
  attains any_cache (sync_snapshot env managed instant d p features auth_domain snapshot_id codec fetch_pages fuel) (fun c' => c' = c).
Proof using page_id_bytes known_names.
  intros Hacc Hans Hf Hp Hmax. unfold sync_snapshot. apply attains_gate. apply attains_guard. intros _. apply attains_gate.
  eapply attains_bind; [apply (collected_ok any_cache env instant _ _ _ _ (ScopePages env managed) (SourceSpec0 := scope_source _ _ _ _) d pages c); done|].
  intros ? ->. pose proof (names_of _ (accepted_pages _ _ _ Hacc)) as Hnames. destruct Hacc as (Hord & Hv & _).
  apply (attains_bind _ _ (fun cf => cf.1 = c)).
  { apply attains_of_run; [by apply facts_clean|]. intros [c' facts] Hx. apply facts_are_trees in Hx as [Hc _]; [|done|done].
    simpl. congruence. }
  intros [c' facts] Ec. simpl in Ec. subst c'. apply (attains_bind _ _ (fun _ => True)); [by apply attains_of_res|]. intros _ _.
  apply (attains_bind _ _ (fun _ => True)).
  { unfold full_proof_transaction. apply attains_gate. eapply attains_bind; [by apply load_records_with|]. intros m Hm. by apply attains_ret. }
  intros tx _. apply attains_gate. cbv zeta. apply attains_gate.
  apply (attains_bind _ _ (fun _ => True)); [|by intros; apply attains_ret]. unfold full_commit.
  destruct (fp_dirty _); [|by apply attains_ret]. by apply store_records_with.
Qed.

(** Whatever the snapshot, a full refresh stores sound records only. *)
Lemma sync_snapshot_kept env managed instant p features auth_domain snapshot_id codec fetch_pages d fuel :
  answers_known fetch_pages ->
  maintains cache_ok (sync_snapshot env managed instant d p features auth_domain snapshot_id codec fetch_pages fuel) (fun _ => True).
Proof using page_id_bytes known_names.
  intros Hans. unfold sync_snapshot. apply maintains_gate. apply maintains_guard. intros _. apply maintains_gate.
  eapply maintains_bind; [apply (snapshot_pages_collected cache_ok env instant _ _ _ _ (ScopePages env managed)); done|]. intros pages [Hord Hok].
  apply (maintains_bind _ _ (fun cf => Forall (fact_tree pages) cf.2)).
  { apply maintains_of_run. intros [c facts] Hx. apply facts_are_trees in Hx as [_ Ht]; [done|done|by apply names_of]. }
  intros [c facts] Hfacts. simpl in Hfacts. apply (maintains_bind _ _ (fun _ => True)); [by apply maintains_of_res|]. intros _ _.
  apply (maintains_bind _ _ (fun tx => sound_index (fp_records tx))).
  { unfold full_proof_transaction. apply maintains_gate. eapply maintains_bind; [apply attains_maintains, load_records_ok|]. intros m Hm. by apply maintains_ret. }
  intros tx Htx. apply maintains_gate. cbv zeta. apply maintains_gate.
  apply (maintains_bind _ _ (fun _ => True)); [|by intros; apply maintains_ret]. unfold full_commit.
  destruct (fp_dirty _); [|by apply maintains_ret]. apply attains_maintains, store_records_ok, full_put_sound; [|done].
  apply Forall_fmap. eapply list.Forall_impl; [exact Hfacts|]. intros f Hft. by eapply fact_record_sound.
Qed.

(** ** Refreshes of files up to their commit *)

(** [sync] before its commit. *)
Definition walk_only env managed pin_inventory scope auth_domain snapshot_id root codec fetch_pages choose fuel
    : M (list SnapshotFile * ClosureTransaction) :=
  run* gate env in
  let* tx := sync_transaction env pin_inventory in
  acquire env managed scope auth_domain snapshot_id root codec fetch_pages choose fuel tx.

(** A refresh walks, validates the paths and commits. *)
Lemma sync_walks env managed pin_inventory scope auth_domain snapshot_id root codec fetch_pages choose fuel s :
  sync env managed pin_inventory scope auth_domain snapshot_id root codec fetch_pages choose fuel s =
  (let* ' (files, tx) := walk_only env managed pin_inventory scope auth_domain snapshot_id root codec fetch_pages choose fuel in
   run* of_res (for_each (fun _ f => validate_relative_path scope (rel_path f)) tt files) in
   run* commit env tx in
   ret files) s.
Proof using Type.
  unfold sync, walk_only, bind. destruct (gate env s) as [[[]|] s1]; [|done]. by destruct (sync_transaction _ _ s1) as [[tx|] s2].
Qed.

Lemma walk_only_kept env managed pin_inventory scope auth_domain snapshot_id root codec fetch_pages choose fuel :
  answers_known fetch_pages ->
  maintains cache_ok (walk_only env managed pin_inventory scope auth_domain snapshot_id root codec fetch_pages choose fuel) (fun _ => True).
Proof using Type.
  intros Hans. unfold walk_only. apply maintains_gate. eapply maintains_bind; [apply attains_maintains, sync_transaction_ok|].
  intros tx _. by apply acquire_kept.
Qed.

(** ** Any history *)

(** The disks a program passes through, from a fresh log. *)
Definition passes {A} (c : M A) (d d' : disk) : Prop :=
  exists k s, s = mkWorld d k [] /\ (d' = now (c s).2 \/ d' ∈ past (c s).2).

(** Pages are damaged or lost, or the index is: a page file may hold any bytes
    that occur under any name; the index is as before, or no index at all. *)
Definition damaged (d d' : disk) : Prop :=
  (forall id i, Forall is_byte id ->
     names d' !! (Pages, hex_encode id) = Some i \/ saved d' !! (Pages, hex_encode id) = Some i ->
     exists n, inodes d' !! i = Some n /\ synced n = true /\ known (data n)) /\
  (forall i, names d' !! (Scope, INDEX_FILE) = Some i \/ saved d' !! (Scope, INDEX_FILE) = Some i ->
     exists n, inodes d' !! i = Some n /\ synced n = true /\
       ((forall m, from_json (data n) <> Ok m) \/
        (names d !! (Scope, INDEX_FILE) = Some i \/ saved d !! (Scope, INDEX_FILE) = Some i) /\ inodes d !! i = Some n)).

(** The disks of a scope whose cache is empty at first, at any point of any
    sequence of: refreshes of the files of snapshots with an accepted closure;
    refreshes of the files of any snapshots that do not come to their commit;
    full refreshes of any snapshots; releases of pins; damage; and crashes. *)
Inductive reached : disk -> Prop :=
  | reached_new d : (forall p, used p -> names d !! p = None /\ saved d !! p = None) -> reached d
  | reached_sync env managed pin_inventory scope auth_domain snapshot_id codec fetch_pages choose fuel desc pages c d d' :
      reached d -> accepted desc pages c -> answers_known fetch_pages -> enough pages (metadata_root desc) fuel ->
      passes (sync env managed pin_inventory scope auth_domain snapshot_id (metadata_root desc) codec fetch_pages choose fuel)
        d d' -> reached d'
  | reached_walk env managed pin_inventory scope auth_domain snapshot_id root codec fetch_pages choose fuel d d' :
      reached d -> answers_known fetch_pages ->
      passes (walk_only env managed pin_inventory scope auth_domain snapshot_id root codec fetch_pages choose fuel) d d' ->
      reached d'
  | reached_full env managed instant p features auth_domain snapshot_id codec fetch_pages fuel desc d d' :
      reached d -> answers_known fetch_pages ->
      passes (sync_snapshot env managed instant desc p features auth_domain snapshot_id codec fetch_pages fuel) d d' ->
      reached d'
  | reached_release env pin_inventory pin d d' :
      reached d -> passes (drop_records_for_pin env pin_inventory pin) d d' -> reached d'
  | reached_damage d d' : reached d -> damaged d d' -> reached d'
  | reached_crash d d' : reached d -> crash d d' -> reached d'.

Lemma passes_kept {A} (c : M A) Q d d' : maintains cache_ok c Q -> cache_ok d -> passes c d d' -> cache_ok d'.
Proof using Type.
  intros Hc Hd (k & s & -> & Hd'). pose proof (Hc (mkWorld d k []) Hd) as Hx. destruct (c (mkWorld d k [])) as [r s']. simpl in *.
  destruct Hx as [(new & En & Hnew) Hr]. destruct Hd' as [->|Hin]; [by destruct r; [apply Hr|]|].
  rewrite En in Hin. simpl in Hin. rewrite list.Forall_forall in Hnew. by apply Hnew.
Qed.

Lemma damaged_cache d d' : cache_ok d -> damaged d d' -> cache_ok d'.
Proof using Type.
  intros Hd [Hp Hx] p i [->|(id & Hid & ->)] Hor.
  - destruct (Hx i Hor) as (n & En & Hs & Hn). exists n. split_and!; [done|done|]. split; [|done]. intros _ m Hm.
    destruct Hn as [Hn|[Hor' En']]; [by destruct (Hn m)|]. destruct (Hd (Scope, INDEX_FILE) i) as (n' & E & _ & [Hf _]); [by left|done|].
    apply Hf; [done|]. by assert (n' = n) as -> by congruence.
  - destruct (Hp id i Hid Hor) as (n & En & Hs & Hk). exists n. by split_and!.
Qed.

Lemma reached_cache d : reached d -> cache_ok d.
Proof using page_id_bytes known_names.
  induction 1 as [d Hn|env managed pin_inventory scope auth_domain snapshot_id codec fetch_pages choose fuel desc pages c d d' _ IH Hacc Hans Hf Hp|env managed pin_inventory scope auth_domain snapshot_id root codec fetch_pages choose fuel d d' _ IH Hans Hp|env managed instant p features auth_domain snapshot_id codec fetch_pages fuel desc d d' _ IH Hans Hp|env pin_inventory pin d d' _ IH Hp|d d' _ IH Hd|d d' _ IH Hc].
  - intros p i Hu [Hi|Hi]; destruct (Hn p Hu); congruence.
  - eapply passes_kept; [|exact IH|exact Hp]. by eapply attains_maintains, sync_ok.
  - eapply passes_kept; [|exact IH|exact Hp]. by apply walk_only_kept.
  - eapply passes_kept; [|exact IH|exact Hp]. by apply sync_snapshot_kept.
  - eapply passes_kept; [apply attains_maintains, drop_records_ok|exact IH|exact Hp].
  - by eapply damaged_cache.
  - by eapply cache_crash.
Qed.

(** C4: a refresh of files ends without a panic, and when it succeeds it lists
    exactly the files of the closure of its snapshot, which is one the closure
    validator accepts. This holds whatever the server answers and after any
    history of the scope made of full refreshes of any snapshots, refreshes of
    files that committed for accepted snapshots or did not commit at all,
    releases of pins, lost, swapped or damaged page files, a lost or unreadable
    index, and crashes at any operation. The page ids are assumed to tell the
    page bytes that occur apart. *)
Theorem refresh_exact env managed pin_inventory scope auth_domain snapshot_id codec fetch_pages choose fuel d pages c s :
  reached (now s) -> accepted d pages c -> answers_known fetch_pages -> enough pages (metadata_root d) fuel ->
  match (sync env managed pin_inventory scope auth_domain snapshot_id (metadata_root d) codec fetch_pages choose fuel s).1 with
  | Ok files => files ≡ₚ vc_files c
  | Err (Failed _) => True
  | Err _ => False
  end.
Proof using page_id_bytes known_names.
  intros Hr Hacc Hans Hf. apply reached_cache in Hr.
  by destruct (sync_ok env managed pin_inventory scope auth_domain snapshot_id codec fetch_pages choose d pages c fuel Hacc Hans Hf s Hr).
Qed.

(** C5: a full refresh of a snapshot that the validator accepts collects exactly
    the pages of its closure and returns exactly that closure, or fails with a
    client error, and it never panics: no index, no page file under whatever
    name and no answer of the server can make it collect or return anything
    else. The page ids are assumed to tell the page bytes that occur apart. *)
Theorem full_refresh_exact env managed instant p features auth_domain snapshot_id codec fetch_pages fuel d pages c s :
  any_cache (now s) -> accepted d pages c -> answers_known fetch_pages -> enough pages (metadata_root d) fuel ->
  0 < metadata_item_limit p -> 0 <= PAGE_MAX_DEPTH ->
  match (snapshot_pages env instant (Wire.scope d) (metadata_root d) p features fetch_pages (ScopePages env managed) fuel None s).1 with
  | Ok collected => collected = pages
  | Err (Failed _) => True
  | Err _ => False
  end /\
  match (sync_snapshot env managed instant d p features auth_domain snapshot_id codec fetch_pages fuel s).1 with
  | Ok c' => c' = c
  | Err (Failed _) => True
  | Err _ => False
  end.
Proof using page_id_bytes known_names.
  intros Hr Hacc Hans Hf Hp Hmax. split.
  - by destruct (collected_ok any_cache env instant (Wire.scope d) p features fetch_pages (ScopePages env managed)
      (SourceSpec0 := scope_source _ _ _ _) d pages c fuel None Hacc Hans Hf Hp s Hr).
  - by destruct (sync_snapshot_ok env managed instant p features auth_domain snapshot_id codec fetch_pages d pages c fuel Hacc Hans Hf Hp Hmax s Hr).
Qed.

(** C22: every record of the index of a scope lists exactly the subtree of its
    root page, its files, its pages and its entry count, in any set of pages
    that the page unfolds in, after any history of the scope made of full
    refreshes of any snapshots, refreshes of files that committed for accepted
    snapshots or did not commit at all, releases of pins, damage to page files
    or loss of the index, and crashes. *)
Theorem index_stays_sound d n m root r pages u :
  reached d -> lookup (Scope, INDEX_FILE) d = Some n -> from_json (data n) = Ok m -> m !! root = Some r ->
  page_ok pages -> grows pages u -> t_id u = cr_root_page_id r ->
  cr_files r ≡ₚ files_at "" u /\ cr_total_entries r = count_of u /\ forall id, id ∈ cr_page_ids r <-> id ∈ pages_of u.
Proof using page_id_bytes known_names.
  intros Hr Hl Hm Hroot Hok Hg E. apply reached_cache in Hr.
  unfold lookup in Hl. destruct (names d !! (Scope, INDEX_FILE)) as [i|] eqn:Ei; simpl in Hl; [|done].
  destruct (Hr (Scope, INDEX_FILE) i) as (n' & En & _ & [Hs _]); [by left|by left|]. assert (n' = n) as -> by congruence.
  assert (Hp : plain u) by (apply (plain_tree pages); [by apply names_of|done]).
  destruct (Hs eq_refl m Hm root r Hroot pages u Hok Hg Hp E) as (Ef & Ep & Et). simpl in Ef, Ep, Et.
  split_and!; [done|done|]. intros id. by rewrite <- (elem_of_list_to_set (C := gset string)), Ep, elem_of_list_to_set.
Qed.
End History.
End RefreshHistory.
