(* ===== verification/Instances.v ===== *)
(** * Instances

    Concrete instances of the parameters that stand for third-party code, used
    only to exhibit inputs on which the theorems' hypotheses hold: a checksum
    with the type of SHA-256, a working hex decoder, a permissive scope check,
    frame, page and descriptor codecs with their round trips. *)

From S2P Require Import Prelude Types Text Profile Frames Json Wire Authority ChunkMap.
From S2P Require Import Closure OwnedTransport OwnedRange.
Import Digests Scope.
Local Open Scope string_scope.
Local Open Scope list_scope.
Local Open Scope Z_scope.

(** A 32-byte checksum: the sum of the bytes, repeated. *)
Definition checksum (b : list Z) : list Z := replicate 32 (fold_left Z.add b 0 mod 256).

Lemma checksum_length b : length (checksum b) = 32%nat.
Proof. apply length_replicate. Qed.

Lemma checksum_bytes b : Forall is_byte (checksum b).
Proof.
  apply Forall_replicate. unfold is_byte. apply Z.mod_pos_bound. lia.
Qed.

Definition toy_sha : Sha256 :=
  {| sha256 := checksum; sha256_length := checksum_length; sha256_bytes := checksum_bytes |}.

(** Pairs of hex digits to bytes. *)
Fixpoint unhex_pairs (l : list Z) : option (list Z) :=
  match l with
  | [] => Some []
  | a :: b :: l => t ← unhex_pairs l; Some (unhex a * 16 + unhex b :: t)
  | _ => None
  end.

Lemma unhex_pairs_render b : Forall is_byte b -> unhex_pairs (as_bytes (hex32 b)) = Some b.
Proof.
  intros Hb. rewrite as_bytes_hex32 by done. induction Hb as [|x b Hx Hb IH]; [done|].
  change ((x :: b) ≫= hex_byte) with (hex_byte x ++ (b ≫= hex_byte)). unfold hex_byte at 1. simpl app.
  cbn [unhex_pairs]. rewrite IH. cbn. unfold is_byte in Hx.
  destruct (hex_digit_range (x / 16)) as [_ ->]; [dlia|].
  destruct (hex_digit_range (x mod 16)) as [_ ->]; [dlia|]. do 2 f_equal. dlia.
Qed.

Definition toy_hex : HexCrate :=
  {| hex_decode := fun s => unhex_pairs (as_bytes s); hex_encode := hex32;
     hex_decode_lower := unhex_pairs_render; hex_encode_lower := fun b => eq_refl |}.

(** A list of byte strings with different checksums. *)
Definition toy_known_bytes (l : list (list Z)) (Hl : bool_decide (NoDup (checksum <$> l)) = true) : KnownBytes (H := toy_sha).
Proof.
  refine {| occurs := fun b => b ∈ l |}. apply bool_decide_eq_true in Hl. intros a b Ha Hb E.
  apply list_elem_of_lookup_1 in Ha as [i Hi]. apply list_elem_of_lookup_1 in Hb as [j Hj].
  assert (i = j) as ->; [|congruence].
  apply (NoDup_lookup (checksum <$> l) i j (checksum a)); [done|by rewrite list_lookup_fmap, Hi|].
  rewrite list_lookup_fmap, Hj. simpl. exact (f_equal Some (eq_sym E)).
Defined.

Definition toy_scope : CodecScope := {| codec_validate_scope := fun _ => None |}.

(** A codec with 20-byte headers that reads every stream as [fs]. *)
Definition toy_codec (fs : list Frame) : Treeframe.
Proof.
  refine {| HEADER_LEN := 20; ERROR_MAX_BYTES := 4096; META_MAX_RAW := 65536; OBJECT_MAX_RAW := 1048576;
            CHUNK_MAX_LEN := 1048576; OBJECT_MAX_LEN := 262144;
            KIND_META := 1; KIND_OBJECT := 2; KIND_CHUNK := 3; KIND_END := 4; KIND_ERROR := 5;
            PAGE_MAX_BYTES := 16384; MAX_DEPTH := 255; parse_stream := fun _ => Ok fs |}.
  done.
Defined.

(** A descriptor codec whose snapshot identity is the checksum of the scope
    and the metadata root. *)
Definition toy_descriptor : DescriptorCodec.
Proof.
  refine {| SCHEMA_VERSION := 2; METADATA_CODEC := 1; MATERIALIZATION_POLICY_GIT_RAW_V1 := 1;
            FS_SEMANTICS_LINUX_CODE_V1 := 1; ACCESS_PROJECTION_EXACT_FULL := 0;
            serving_snapshot_id := fun s => Ok (checksum (as_bytes (sd_scope s) ++ sd_metadata_root s)) |}.
  intros s i [= <-]. apply checksum_bytes.
Defined.

Definition toy_uuid : UuidCrate := {| uuid_parse_str := fun s => Some (as_bytes s); uuid_to_string := of_bytes |}.

(** Instants ordered by the last digit of the year. *)
Definition toy_time : Rfc3339 := {| rfc3339_parse := fun s => as_bytes s !! 3%nat |}.

Definition toy_url : Lease.UrlCrate :=
  {| Lease.Url := string; Lease.url_parse := Some; Lease.url_scheme := fun _ => "https";
     Lease.url_host_str := fun _ => Some "host"; Lease.url_username := fun _ => "";
     Lease.url_password := fun _ => None; Lease.url_query := fun _ => None; Lease.url_fragment := fun _ => None;
     Lease.url_cannot_be_a_base := fun _ => false; Lease.url_path := fun _ => "";
     Lease.url_set_path := fun u p => (u ++ p)%string; Lease.url_as_str := fun u => u |}.

(** A record format: the binding's fields as one number. *)
Definition binding_fields (b : CacheBinding) : Z * string * string * option string :=
  (cb_revision b, cb_domain b, cb_scope b, cb_snapshot_id b).

Definition binding_read (x : list Z) : option CacheBinding :=
  match x with
  | [Z.pos p] => '(r, d, s, i) ← decode (A := Z * string * string * option string) p; Some (mkBinding r d s i)
  | _ => None
  end.

Definition toy_binding : BindingJson.
Proof.
  refine {| to_vec := fun b => Ok [Z.pos (encode (binding_fields b))]; from_slice := binding_read |}.
  intros b x [= <-]. unfold binding_read. rewrite decode_encode. by destruct b.
Defined.

(** One-page chunk maps. *)
Definition toy_chunk : ChunkCodec.
Proof.
  refine {| CHUNK_SIZE := 1048576;
            chunk_map_new := fun c s r => Ok (div_ceil s 1048576, 1, checksum (c ++ r));
            expected_count := fun n _ => n;
            leaf_decode := fun b => Ok (mkLeaf 0 [b]);
            leaf_hash := fun l => Ok (checksum (concat (chunk_sha256 l)));
            verify_leaf := fun _ _ _ _ _ => Ok tt |}.
  intros c s r n q i [= _ _ <-]. split; [apply checksum_length|apply checksum_bytes].
Defined.

(** Leaf pages: the entries as one number; branch pages: the children as one
    number and a zero. *)
Definition kind_number (k : EntryKind) : Z :=
  match k with EDirectory => 0 | ERegular => 1 | EExecutable => 2 | ESymlink => 3 end.
Definition number_kind (k : Z) : EntryKind :=
  if k =? 0 then EDirectory else if k =? 1 then ERegular else if k =? 2 then EExecutable else ESymlink.

Definition entry_tuple (e : Entry) : list Z * Z * Z * list Z * list Z :=
  (ent_name e, kind_number (ent_kind e), ent_size e, content_id e, child_root e).
Definition tuple_entry (t : list Z * Z * Z * list Z * list Z) : Entry :=
  let '(n, k, s, c, r) := t in mkEntry n (number_kind k) s c r.

Definition page_read (b : list Z) : result string (Page * Z) :=
  match b with
  | [Z.pos p] =>
      match decode (A := list (list Z * Z * Z * list Z * list Z)) p with
      | Some ts => Ok (Leaf (tuple_entry <$> ts), 1)
      | None => Err "leaf"
      end
  | [Z.pos p; 0] =>
      match decode (A := list (Z * Z * list Z)) p with
      | Some cs => Ok (Branch [] None ((fun '(l, n, i) => mkChild l n i) <$> cs), 2)
      | None => Err "branch"
      end
  | _ => Err "page"
  end.

Definition toy_pages : PageCodec :=
  {| page_id := checksum; page_decode := page_read; entry_decode := fun _ _ => Err "entry";
     page_build := fun es => Ok [Z.pos (encode (entry_tuple <$> es))]; PAGE_MAX_DEPTH := 255 |}.

(** Serving descriptors as one number. *)
Definition serving_read (b : list Z) : result string ServingDescriptor :=
  match b with
  | [Z.pos p] =>
      match decode (A := list Z * list Z * string * list Z) p with
      | Some (i, v, s, r) => Ok (mkServing i v s r)
      | None => Err "serving"
      end
  | _ => Err "serving"
  end.

Definition toy_serving : ServingCodec.
Proof.
  refine {| serving_encode := fun s =>
              Ok [Z.pos (encode (sd_instance_uuid s, sd_namespace_view_id s, sd_scope s, sd_metadata_root s))];
            serving_decode := serving_read |}.
  intros s b [= <-]. unfold serving_read. rewrite decode_encode. by destruct s.
Defined.

(** Frames with 32-byte headers: a chunk is its bytes, an END is three counters
    and a hash. *)
Definition toy_frames : Treeframe.
Proof.
  refine {| HEADER_LEN := 32; ERROR_MAX_BYTES := 4096; META_MAX_RAW := 65536; OBJECT_MAX_RAW := 1048576;
            CHUNK_MAX_LEN := 1048576; OBJECT_MAX_LEN := 262144;
            KIND_META := 1; KIND_OBJECT := 2; KIND_CHUNK := 3; KIND_END := 4; KIND_ERROR := 5;
            PAGE_MAX_BYTES := 16384; MAX_DEPTH := 255; parse_stream := fun _ => Err "unused" |}.
  done.
Defined.

Definition frame_read (b : list Z) : result string (Frame * Z) :=
  if negb (nth 12 b 0 =? zlen b - 32) then Err "length" else
  match Owned.h_kind b, drop 32 b with
  | 3, c => Ok (FChunk (checksum [1]) (checksum [2]) 0 c, zlen b)
  | 4, i :: u :: l :: h => Ok (FEnd (mkEnd i u l h), zlen b)
  | _, _ => Err "frame"
  end.

Definition toy_parser : FrameParser (H := toy_frames).
Proof. refine {| parse_frame := frame_read; FLAG_ZSTD := 1; OBJECT_MAX_COUNT := 128 |}. done. Defined.

Definition toy_lengths : ChunkLengths (H := toy_chunk).
Proof.
  refine (Build_ChunkLengths toy_chunk 256
            (fun _ size _ i => if i * 1048576 <? size then Ok (Z.min 1048576 (size - i * 1048576)) else Err "chunk")
            _ _ _); [done|done|].
  intros c size root i n Hn Hi. change CHUNK_SIZE with 1048576.
  destruct (Z.ltb_spec (i * 1048576) size); [|done]. by injection Hn as <-.
Defined.
