(* ===== verification/Witnesses.v ===== *)
(** * Witnesses

    For every property with hypotheses, a concrete input on which they hold,
    with the property applied there. *)

From Stdlib Require Import Sorted.
From S2P Require Import Prelude Types Text Fence Budget Profile Btree Directory Namespace Coordinator.
From S2P Require Import Frames Units Metadata CasScan CasCache Json Wire Authority ChunkMap.
From S2P Require Import UpperDiff UpperScan Requests RequestFacts Instances.
Local Open Scope string_scope.
Local Open Scope list_scope.
Local Open Scope Z_scope.

#[local] Existing Instances toy_sha toy_hex toy_scope toy_descriptor toy_uuid toy_time toy_url toy_binding toy_chunk.

(** Decide a closed equation by evaluation. *)
Ltac now_compute := vm_compute; reflexivity.

(** ** Mutation fence *)

Lemma fence_run max f es f' : Fence.reachable max f -> Fence.run f es = Some f' -> Fence.reachable max f'.
Proof.
  revert f. induction es as [|e es IH]; intros f Hf Hr; simpl in Hr; [by simplify_eq|].
  destruct (Fence.step f e) as [[f1 o]|] eqn:Hs; [|done]. by eapply IH; [eapply Fence.reach_step|].
Qed.

Definition fence0 : Fence.MutationFence :=
  {| Fence.sealed := false; Fence.uncertain := false; Fence.capacity := 1;
     Fence.cleanup_capacity := 1; Fence.tasks := ∅ |}.
Definition fence_after (es : list Fence.event) : Fence.MutationFence := default fence0 (Fence.run fence0 es).

Lemma fence_after_reachable es :
  Fence.run fence0 es = Some (fence_after es) -> Fence.reachable 1 (fence_after es).
Proof. intros Hr. eapply fence_run; [|exact Hr]. by apply Fence.reach_new. Qed.

(** A pause granted on an idle fence, then a queued mutation. *)
Definition paused_fence : Fence.MutationFence :=
  fence_after [Fence.PauseCall 1; Fence.WriteLock 1; Fence.AdmitCall 2 false].

Lemma pause_excludes_mutations_witness :
  Fence.tasks paused_fence !! 1%nat = Some Fence.Paused /\
  (forall j t, Fence.tasks paused_fence !! j = Some t ->
     Fence.is_admitted t = false /\ (t = Fence.Paused -> j = 1%nat)).
Proof.
  split; [now_compute|]. apply (Fence.pause_excludes_mutations 1 paused_fence 1); [|now_compute].
  apply fence_after_reachable. now_compute.
Defined.

Lemma admission_bounded_witness :
  exists f', Fence.step paused_fence (Fence.AdmitCall 3 true) = Some (f', Fence.Pending).
Proof.
  apply (Fence.admission_bounded 1 paused_fence 3); [|now_compute].
  apply fence_after_reachable. now_compute.
Defined.

(** A sealed fence that later refuses the queued mutation. *)
Lemma fence_latches_witness :
  Fence.sealed (fence_after [Fence.PauseCall 1; Fence.WriteLock 1; Fence.Seal 1; Fence.AdmitCall 2 false;
                             Fence.DropPause 1; Fence.ReadLock 2]) = true.
Proof.
  refine (proj1 (proj1 (Fence.fence_latches
           (fence_after [Fence.PauseCall 1; Fence.WriteLock 1; Fence.Seal 1])
           [Fence.AdmitCall 2 false; Fence.DropPause 1; Fence.ReadLock 2] _ _) _)); now_compute.
Defined.

(** ** Content budgets *)
Import Content.

Definition demo_limits : ContentBudgetLimits := {| output_bytes := 4096; construction_bytes := 2048 |}.
Definition budget_scope : Process := set_scope process_budget 0 (ContentBudget_new demo_limits).
Definition budget_used : Process := snd (reserve budget_scope 0 Output 1500 7).

Lemma budget_scope_reachable : reachable budget_scope.
Proof. apply reach_scope; [apply reach_start|now_compute|done|done|now_compute]. Qed.

Lemma budget_used_reachable : reachable budget_used.
Proof.
  eapply (reach_reserve budget_scope 0 Output 1500 7); [apply budget_scope_reachable|now_compute|done|].
  apply surjective_pairing.
Qed.

Lemma usage_is_live_reservations_witness :
  exists b, scopes budget_used !! 0%nat = Some b /\
    usage b = {| used_output := held (in_scope 0 Output) budget_used * CREDIT;
                 used_construction := held (in_scope 0 Construction) budget_used * CREDIT |}.
Proof.
  eexists. split; [now_compute|].
  apply (usage_is_live_reservations budget_used 0); [apply budget_used_reachable|now_compute..].
Defined.

Lemma reserve_atomic_witness :
  exists r w', reserve budget_scope 0 Output 1500 7 = (r, w') /\
  ((r = Ok tt /\ exists b k, scopes budget_scope !! 0%nat = Some b /\ 1500 <= k * CREDIT < 1500 + CREDIT /\
     k <= free b Output /\ k <= p_free budget_scope Output /\ p_free w' Output = p_free budget_scope Output - k /\
     scopes w' !! 0%nat = Some (set_free b Output (free b Output - k))) \/
   (r = Err Permits.capacity_limit /\ (forall c, p_free w' c = p_free budget_scope c) /\
     live w' = live budget_scope /\ (forall s', scopes w' !! s' = scopes budget_scope !! s'))).
Proof.
  exists (fst (reserve budget_scope 0 Output 1500 7)), (snd (reserve budget_scope 0 Output 1500 7)).
  split; [apply surjective_pairing|].
  apply (reserve_atomic budget_scope 0 Output 1500 7); [lia|apply surjective_pairing].
Defined.

Lemma buffer_admission_witness :
  exists b w', AccountedBuffer_new 64 Some budget_scope 0 Output 100 0 3 = (Ok b, w') /\
    bytes b = [] /\ capacity b = 100 /\
    exists r, live w' !! reservation b = Some r /\ 100 + 0 <= r_credits r * CREDIT.
Proof.
  eexists _, _. split; [now_compute|].
  eapply (buffer_admission 64 Some budget_scope 0 Output 100 0 3 (Ok _)); [lia..|now_compute|now_compute].
Defined.

Definition demo_buffer : AccountedBuffer := {| bytes := [1]; capacity := 4; reservation := 0 |}.

Lemma appends_are_concatenation_witness :
  for_each append demo_buffer [[2]; [3; 4]] =
  Ok {| bytes := [1; 2; 3; 4]; capacity := 4; reservation := 0 |}.
Proof.
  apply (appends_are_concatenation demo_buffer [[2]; [3; 4]]); [by vm_compute|].
  split; [by vm_compute|reflexivity].
Defined.

(** ** Profile and paths *)

Definition demo_features : CanonicalCapabilityFeatures := mkFeatures true true true true true true true true true true.
Definition demo_cap_limits : CapabilityLimits :=
  {| max_file_bytes := 0; max_path_bytes := 4096; max_path_components := 256; metadata_page_bytes := 16384;
     metadata_leaf_entries := 128; max_json_request_bytes := 131072; max_json_response_bytes := 1048576;
     max_directory_entries := 256; max_request_items := 128; max_metadata_items := 64;
     small_object_bytes := 262144; small_batch_bytes := 8388608; object_frame_raw_bytes := 1048576;
     chunk_frame_raw_bytes := 1048652; frame_wire_bytes := 2097152; zstd_window_bytes := 8388608;
     chunk_size := 1048576; chunk_batch_bytes := 134217728 |}.
Definition demo_wire : CanonicalWire :=
  {| w_protocol_versions := [2]; w_metadata_codecs := [1]; w_frame_encodings := ["identity"; "zstd"];
     w_features := demo_features;
     w_wire_limits := {| w_max_file_bytes := "1048576"; w_limits := demo_cap_limits |} |}.

Lemma discovery_only_lowers_witness :
  exists a, check_canonical demo_wire = Ok a /\
    Forall (fun p => 0 < fst p <= snd p) (effective_limits (with_advertisement a)).
Proof.
  eexists. split; [now_compute|].
  eapply (discovery_only_lowers demo_wire); [|now_compute].
  by repeat (apply Forall_cons_iff; split).
Defined.

(** ** Directories *)

Definition digest_a : string := Digests.digest_string (checksum [1]).

Definition demo_entry (n : string) : Dir.DirEntry :=
  {| Dir.name := n; Dir.fs_kind := "regular"; Dir.size := Some "3"; Dir.content_digest := Some digest_a;
     Dir.e_directory_root := None |}.
Definition demo_page (start : option string) (n : string) (cursor : option string) : Dir.DirectoryResponse :=
  {| Dir.snapshot_id := "s"; Dir.path := "/d"; Dir.metadata_root := digest_a; Dir.directory_root := digest_a;
     Dir.node_class := "native_tree"; Dir.lifecycle := "mutable"; Dir.range_start_exclusive := start;
     Dir.entries := [demo_entry n]; Dir.entry_count := "2"; Dir.next_cursor := cursor; Dir.proof_pages := [] |}.
(** Two pages, linked by a cursor. *)
Definition demo_fetch (i : nat) (limit : Z) (cursor : option string) : Res Dir.DirectoryResponse :=
  match i with
  | O => Ok (demo_page None "a" (Some "c1"))
  | _ => Ok (demo_page (Some "a") "b" None)
  end.

Lemma enumeration_complete_witness :
  exists r, Dir.directory_page None "/" "s" digest_a (fun _ => Ok tt) demo_fetch 3 "/d" 10 = Some (Ok r) /\
    StronglySorted str_lt (Dir.names (Dir.entries r)) /\ zlen (Dir.entries r) = 2.
Proof.
  eexists. split; [now_compute|]. split; [|now_compute].
  eapply (Dir.enumeration_complete None "/" "s" digest_a "/d" 10 (fun _ => Ok tt) demo_fetch 3). now_compute.
Defined.

Definition demo_node : Lookup.LookupNode :=
  {| Lookup.n_name := Some "link"; Lookup.n_fs_kind := "symlink"; Lookup.n_size := Some "12";
     Lookup.n_content_digest := Some digest_a; Lookup.n_directory_root := None |}.

Lemma lookup_node_typed_witness :
  exists i, Lookup.identity_of demo_node = Some i /\ Lookup.identity_wf i.
Proof. apply (Lookup.lookup_node_typed demo_node "/dir/link"). now_compute. Defined.

(** ** Fetch coordinator *)
Definition demo_file (p : string) : SnapshotFile :=
  {| rel_path := p; file_kind := "regular"; file_size := 3; file_digest := digest_a |}.
Definition demo_files : gmap string SnapshotFile := Coord.membership_index [demo_file "a"; demo_file "b"].
Definition coord_step := Coord.step "/" demo_files true.

Fixpoint coord_run (c : Coord.FetchCoordinator) (es : list Coord.event) : option Coord.FetchCoordinator :=
  match es with [] => Some c | e :: es => c ← coord_step e c; coord_run c es end.

Lemma coord_run_reachable l c es c' :
  Coord.reachable "/" demo_files true l c -> coord_run c es = Some c' ->
  Coord.reachable "/" demo_files true l c'.
Proof.
  revert c. induction es as [|e es IH]; intros c Hc Hr; simpl in Hr; [by simplify_eq|].
  apply bind_Some in Hr as (c1 & Hs & Hr). by eapply IH; [eapply Coord.reach_step|].
Qed.

Definition coord_limits := Coord.FetchCoordinatorLimits_default.
(** Two aliases of one content join one flight; the first caller leaves. *)
Definition shared_events : list Coord.event :=
  [Coord.Admit (demo_file "a"); Coord.Join (Ok tt) (demo_file "a");
   Coord.Admit (demo_file "b"); Coord.Join (Ok tt) (demo_file "b"); Coord.DropRegistration 1].
Definition coord_shared : Coord.FetchCoordinator :=
  default (Coord.new_with_limits coord_limits) (coord_run (Coord.new_with_limits coord_limits) shared_events).
(** Then the leader completes and the remaining waiter holds its bytes. *)
Definition coord_done : Coord.FetchCoordinator :=
  default coord_shared (coord_run coord_shared [Coord.Complete 2 false false (Ok [7; 8; 9])]).

Lemma coord_shared_reachable : Coord.reachable "/" demo_files true coord_limits coord_shared.
Proof.
  eapply (coord_run_reachable coord_limits _ shared_events); [apply Coord.reach_init|now_compute].
Qed.

Lemma coord_done_reachable : Coord.reachable "/" demo_files true coord_limits coord_done.
Proof.
  apply (coord_run_reachable coord_limits coord_shared [Coord.Complete 2 false false (Ok [7; 8; 9])]);
    [apply coord_shared_reachable|now_compute].
Qed.

Lemma coord_limits_ok : Coord.limits_ok coord_limits.
Proof. by vm_compute. Qed.

Lemma single_flight_witness :
  Coord.guards coord_shared !! 2 = Some (demo_file "a") /\
  (2 ∈ Coord.cancelled coord_shared <->
     forall id r, Coord.registrations coord_shared !! id = Some r -> Coord.r_flight r <> 2).
Proof.
  split; [now_compute|].
  apply (Coord.single_flight "/" demo_files true coord_limits coord_shared) with (f := demo_file "a");
    [apply coord_limits_ok|apply coord_shared_reachable|now_compute].
Defined.

Lemma waiters_served_witness : is_Some (Coord.delivered coord_done !! 3).
Proof.
  eapply (Coord.waiters_served "/" demo_files true coord_limits coord_done 3);
    [apply coord_limits_ok|apply coord_done_reachable|now_compute|now_compute].
Defined.

Lemma permits_exact_witness :
  Coord.counts coord_limits coord_shared = (Coord.live_jobs coord_shared, Coord.live_callers coord_shared).
Proof.
  apply (Coord.permits_exact "/" demo_files true coord_limits coord_shared);
    [apply coord_limits_ok|apply coord_shared_reachable].
Defined.

(** ** TreeFrame transport *)

Lemma batches_partition_witness :
  match Batches.request_batches 10 20 2 (fun n => n) [3; 4; 5] with
  | Ok bs => concat bs = [3; 4; 5] /\ Forall (Batches.batch_ok 10 20 2 (fun n => n)) bs /\
             Forall (fun x => 10 + x <= 20) [3; 4; 5]
  | Err _ => exists x, x ∈ [3; 4; 5] /\ 20 < 10 + x
  end.
Proof. apply (Batches.batches_partition 10 20 2 (fun n => n) [3; 4; 5]). lia. Defined.

(** One END header with an empty payload. *)
Definition end_header : list Z := replicate 6 0 ++ [4] ++ replicate 13 0.

Definition unit_body {A} (items : list A) : list Z := [1; 2].
Definition end_frame : Frame :=
  FEnd {| request_item_count := 1; unique_unit_count := 1; logical_bytes := 1;
          request_body_sha256 := checksum [1; 2] |}.
Definition demo_send (b : list Z) : Res Response.Answer :=
  Ok {| Response.ok_status := true; Response.headers := Ok tt; Response.content_length := Some 20;
        Response.chunks := [take 5 end_header; drop 5 end_header];
        Response.http_error := fun _ => limit_err "" |}.

Lemma response_within_budget_witness :
  exists segs, concat segs = end_header /\
    Forall (Response.segment_ok (H := toy_codec [end_frame]) None 3) segs.
Proof.
  pose proof (Response.response_within_budget (H := toy_codec [end_frame]) None end_header "chunks" "CHUNK" 3
    {| Response.units := 1; Response.raw_bytes := 100; Response.wire_bytes := 300 |}) as Hw.
  destruct Hw as [_ Hw]; [by repeat constructor|].
  destruct (Hw [end_frame]) as (_ & segs & Hc & Hs & _); [now_compute|]. by exists segs.
Defined.

Lemma exchange_bounded_witness :
  exists b, Response.post_treeframe None demo_send [1; 2] 64 = Ok b /\ zlen b <= 64.
Proof.
  exists end_header. split; [now_compute|].
  apply (Response.exchange_bounded None demo_send [1; 2] 64); [lia|now_compute].
Defined.

Lemma end_binds_request_witness :
  exists e, list.last [end_frame] = Some (FEnd e) /\ request_item_count e = 1 /\
    (1, 1) = (unique_unit_count e, logical_bytes e).
Proof.
  apply (Response.end_binds_request [end_frame] [1; 2] [1; 2] 1 1 (1, 1) (1, 1)); now_compute.
Defined.

(** ** Content endpoints *)

Definition chunk_item : Chunks.ChunkRequest :=
  {| Chunks.path := "a"; Chunks.expected_digest := digest_a; Chunks.map_id := digest_a; Chunks.chunk_index := 0 |}.
Definition chunk_codec : Treeframe := toy_codec [FChunk (checksum [1]) (checksum [1]) 0 [5]; end_frame].
Definition demo_chunks := Chunks.chunks (H0 := chunk_codec) None demo_send 10 (fun _ => 5) unit_body [chunk_item] None.

Lemma chunks_exact_witness :
  exists us, demo_chunks = Ok us /\ NoDup (Chunks.unit_key <$> us) /\ zlen us = 1.
Proof.
  eexists. split; [now_compute|]. split; [|now_compute].
  eapply (Chunks.chunks_exact (H0 := chunk_codec) None demo_send 10 (fun _ => 5) unit_body [chunk_item] None).
  now_compute.
Defined.

Definition object_codec : Treeframe := toy_codec [FObject [(checksum [1], [5])]; end_frame].
Definition demo_objects :=
  Objects.objects (H0 := object_codec) None demo_send 10 (fun _ => 5) unit_body [("a", digest_a)] None.

Lemma objects_exact_witness :
  exists out, demo_objects = Ok out /\
    forall d, is_Some (out !! d) <-> exists item, item ∈ [("a", digest_a)] /\ Digests.parse_digest item.2 = Ok d.
Proof.
  eexists. split; [now_compute|].
  apply (Objects.objects_exact (H0 := object_codec) None demo_send 10 (fun _ => 5) unit_body [("a", digest_a)] None).
  now_compute.
Defined.

Definition page_item : Metadata.MetadataPageItem :=
  {| Metadata.directory_path := "/"; Metadata.route := [7]; Metadata.expected_digest := Some digest_a |}.
(** A leaf terminal and the branch page that leads to it under label 7. *)
Definition page_codec : Treeframe :=
  toy_codec [FMeta [(checksum [1], [9]); (checksum [2], [8])];
             FEnd {| request_item_count := 1; unique_unit_count := 2; logical_bytes := 2;
                     request_body_sha256 := checksum [1; 2] |}].
Definition demo_children (data : list Z) : result string (list (Z * list Z)) :=
  if bool_decide (data = [8]) then Ok [(7, checksum [1])] else Ok [].

Lemma metadata_pages_witnessed_witness :
  exists pages,
    Metadata.metadata_pages_batch (H0 := page_codec) demo_children None demo_send unit_body [page_item] = Ok pages /\
    (forall id, id ∈ pages.*1 <-> exists item, item ∈ [page_item] /\ Metadata.on_route demo_children pages item id).
Proof.
  eexists. split; [now_compute|].
  eapply (Metadata.metadata_pages_witnessed (H0 := page_codec) demo_children None demo_send unit_body [page_item]);
    now_compute.
Defined.

(** ** Local content store *)

Definition cas_body : list Z := [10; 20; 30; 40].
Definition cas_digest : string := Digests.digest_string (checksum cas_body).
(** The object read in two pieces with an interruption, then seekable. *)
Definition cas_env : Cache.Env :=
  {| Cache.cold_events := [Cas.ReadBytes [10; 20]; Cas.Interrupted; Cas.ReadBytes [30; 40]];
     Cache.seek_events := fun _ => Ok [Cas.ReadBytes [10]; Cas.ReadBytes [20; 30; 40]];
     Cache.closing_metadata := Ok tt; Cache.canonical_domain := Some ("/cas", 4);
     Cache.digest_capacity := Some 1; Cache.warm_scratch := true |}.
Definition cas_cache : Cache.Cache := Cache.Cache_new 100000 1000.

(** The byte strings that occur: all that reading in pieces of any size may
    deliver. *)
Definition cas_known : KnownBytes (H := toy_sha).
Proof. refine (toy_known_bytes (Cas.deliveries (Cache.cold_events cas_env)) _). now_compute. Defined.

Lemma cas_reads : Cache.reads_occur (HK := cas_known) cas_env.
Proof.
  split; [by apply list.Forall_forall|]. intros pos ev [= <-]. apply list.Forall_forall. intros b Hb.
  assert (Hall : forallb (fun b => bool_decide (b ∈ Cas.deliveries (Cache.cold_events cas_env)))
    (Cas.deliveries [Cas.ReadBytes [10]; Cas.ReadBytes [20; 30; 40]]) = true) by now_compute.
  rewrite forallb_Forall, list.Forall_forall in Hall. exact (bool_decide_eq_true_1 _ (Hall b Hb)).
Qed.
Lemma cas_file : Cas.file_occurs (HK := cas_known) cas_body.
Proof.
  assert (Hin : bool_decide (cas_body ∈ Cas.deliveries (Cache.cold_events cas_env)) = true) by now_compute.
  apply bool_decide_eq_true in Hin. split; [exact Hin|]. intros i Hi. destruct (Z.eq_dec i 0) as [->|Hne].
  - rewrite slice_clip. exact Hin.
  - rewrite slice_clip, slice_nil by (change (zlen cas_body) with 4; unfold Cas.CHUNK_SIZE; lia). apply Cas.deliveries_nil.
Qed.

Lemma indexed_read_sound_witness :
  exists c, Cache.read_with_cache cas_env (Cache.Opened (Ok tt)) cas_digest 4 1 2 cas_cache = (Ok (Some [20; 30]), c) /\
    Cache.cache_ok (HK := cas_known) c /\ [20; 30] = slice cas_body 1 (1 + 2).
Proof.
  assert (Hr : exists c, Cache.read_with_cache cas_env (Cache.Opened (Ok tt)) cas_digest 4 1 2 cas_cache = (Ok (Some [20; 30]), c))
    by (eexists; now_compute).
  destruct Hr as [c Hr]. exists c. split; [exact Hr|].
  assert (H4 : is_u64 4) by (unfold is_u64, u64_max; lia). assert (H1 : is_u64 1) by (unfold is_u64, u64_max; lia).
  assert (H2 : is_usize 2) by (unfold is_usize, usize_max, u64_max; lia).
  pose proof (Cache.indexed_read_sound (HK := cas_known) cas_env (Cache.Opened (Ok tt)) cas_body cas_digest 4 1 2 cas_cache
    (Ok (Some [20; 30])) c (Cache.cache_ok_new 100000 1000) H4 H1 H2 cas_reads cas_file eq_refl eq_refl Hr) as [Hc Hs].
  split; [exact Hc|]. exact (Hs _ eq_refl).
Defined.

Definition cas_reserved : Cache.Cache := snd (Cache.reserve 100 cas_cache).


(** ** Wire contracts *)

Definition root_digest : string := Digests.digest_string (checksum [7]).
Definition demo_snapshot : string := Digests.digest_string (checksum (as_bytes "/work" ++ checksum [7])).
Definition demo_uuid : string := "11111111-1111-4111-8111-111111111111".

Definition demo_descriptor : Descriptor :=
  mkDescriptor 2 1 demo_uuid digest_a "/work" 1 1 0 root_digest demo_snapshot.

Definition descriptor_json : json :=
  JObj [("schema_version", JNum 2); ("metadata_codec", JNum 1); ("instance_id", JStr demo_uuid);
        ("namespace_view_id", JStr digest_a); ("scope", JStr "/work"); ("materialization_policy", JNum 1);
        ("fs_semantics", JNum 1); ("access_projection", JNum 0); ("metadata_root", JStr root_digest);
        ("snapshot_id", JStr demo_snapshot)].

Definition wrapper_json : json :=
  JObj [("snapshot_id", JStr demo_snapshot); ("descriptor", descriptor_json); ("lease_id", JStr "l");
        ("lease_expires_at", JStr "later")].

(** One canonical error envelope, whatever the bytes. *)
Definition error_json : json :=
  JObj [("error", JObj [("code", JStr "LEASE_EXPIRED"); ("message", JStr "m"); ("request_id", JStr "r1");
                        ("retryable", JBool false)])].

Lemma canonical_error_bound_witness :
  exists s, ErrorWire.from_wire s = Some ErrorWire.C_LeaseExpired /\ ErrorWire.expected_status s = Some 410.
Proof.
  destruct (ErrorWire.canonical_error_bound (fun _ => Some error_json) [] 410
              (ErrorWire.mkCanonicalError ErrorWire.C_LeaseExpired "m" "r1" false 410)) as (_ & _ & H).
  apply H.
  now_compute.
Defined.

Lemma descriptor_identity_witness :
  snapshot_id demo_descriptor = demo_snapshot /\ exists s, Descriptors.serves demo_descriptor s.
Proof.
  destruct (Descriptors.descriptor_identity descriptor_json wrapper_json demo_snapshot demo_descriptor demo_descriptor)
    as (H1 & _ & H2 & _); [now_compute..|]. by split.
Defined.

Definition demo_request : ResolveRequest := mkRequest (View digest_a) "/work" Lazy 60.

Definition grant_json : json :=
  JObj [("grant_id", JStr "g"); ("snapshot_id", JStr demo_snapshot); ("actor_domain_id", JStr "a");
        ("expires_at", JStr "2029-01-01T00:00:00Z"); ("policy", JStr "trusted_local_export_v1")].

Definition resolve_json : json :=
  JObj [("descriptor", descriptor_json); ("publication_sequence", JStr "7"); ("writer_epoch", JStr "1");
        ("lease_id", JStr "lease"); ("lease_expires_at", JStr "2023-01-01T00:00:00Z");
        ("authorization_epoch", JStr "3"); ("resolved_at", JStr "2022-01-01T00:00:00Z");
        ("delivery", JStr "lazy"); ("offline_grant", grant_json)].

Definition demo_resolved : ResolveResponse :=
  mkResponse demo_descriptor "lease" "2023-01-01T00:00:00Z" "7" "3"
    (Some (mkGrant "g" demo_snapshot "a" "2029-01-01T00:00:00Z" "trusted_local_export_v1")).

Lemma resolve_bound_witness :
  scope (rs_descriptor demo_resolved) = rq_scope demo_request /\
  namespace_view_id (rs_descriptor demo_resolved) = digest_a.
Proof.
  destruct (Resolve.resolve_bound resolve_json demo_request true demo_resolved) as (H1 & H2 & _);
    [now_compute|by left|]. split; [exact H1|by apply H2].
Defined.

(** ** Authority *)

Definition demo_context : AuthorizedSnapshotContext :=
  match Context.new "https://h" "cred" "/work" demo_descriptor "3" "7" with
  | Ok c => c
  | Err _ => mkContext demo_descriptor 0 0 ""
  end.

Lemma cache_partition_witness :
  collide (Context.scope_preimage demo_descriptor) (Context.scope_preimage demo_descriptor) \/
  collide (Context.domain_preimage "https://h" "cred" (authorization_epoch demo_context) demo_descriptor)
    (Context.domain_preimage "https://h" "cred" (authorization_epoch demo_context) demo_descriptor) \/
  ("https://h" = "https://h" /\ "cred" = "cred" /\ instance_id demo_descriptor = demo_uuid /\
   authorization_epoch demo_context = authorization_epoch demo_context /\ "/work" = "/work" /\
   demo_snapshot = demo_snapshot).
Proof.
  eapply (Context.cache_partition ["cache"] _ "https://h" "https://h" "cred" "cred" "/work" "/work"
            demo_descriptor demo_descriptor "3" "3" "7" "7" demo_context demo_context "https://h" "https://h");
    [now_compute..| | |].
  - repeat constructor; vm_compute; discriminate.
  - unfold Context.view_cache_dir. now_compute.
  - now_compute.
Defined.

Definition calm : Binding.Env :=
  {| Binding.io_guard := Ok tt; Binding.fails := fun _ => None; Binding.admission := Ok None; Binding.cleanup := true |}.
(** A run whose rename fails, leaving the temporary behind. *)
Definition torn : Binding.Env :=
  {| Binding.io_guard := Ok tt; Binding.admission := Ok None; Binding.cleanup := true;
     Binding.fails := fun s => match s with Binding.Rename => Some "EIO" | _ => None end |}.
Definition bare : Binding.CacheDir := {| Binding.authority := None; Binding.entries := ∅ |}.
Definition ours : CacheBinding := Context.scope_binding demo_context.
Definition theirs : CacheBinding := mkBinding 1 "other" "/work" None.

Lemma binding_first_wins_witness :
  exists x, Binding.authority (fst (Binding.bind_all bare [(torn, theirs); (calm, ours); (calm, theirs); (calm, ours)]))
              = Some x /\ from_slice x = Some ours.
Proof.
  refine (proj2 (Binding.binding_first_wins bare [(torn, theirs); (calm, ours); (calm, theirs); (calm, ours)]
                   ours ours _ _)); vm_compute; left.
Defined.

Lemma bound_scope_retained_witness :
  Binding.validate_retention_scope (Context.scope_cache_dir demo_context ["cache"]) true
    (fst (Binding.bind_directory calm bare ours)) = Ok tt.
Proof.
  eapply (Binding.bound_scope_retained "https://h" "cred" "/work" demo_descriptor "3" "7" demo_context calm bare);
    [now_compute..|].
  vm_compute. discriminate.
Defined.

(** ** Chunk maps *)

Definition map_root : list Z := checksum [2].
Definition demo_map_id : string := Digests.digest_string (checksum (checksum [1] ++ map_root)).

Definition map_json : json :=
  JObj [("snapshot_id", JStr "s"); ("path", JStr "/f");
        ("map", JObj [("schema_version", JNum 2); ("file_content_id", JStr digest_a); ("file_size", JStr "3");
                      ("chunk_size", JNum 1048576); ("chunk_count", JStr "1"); ("page_count", JStr "1");
                      ("pages_root", JStr (Digests.digest_string map_root)); ("map_id", JStr demo_map_id)])].

Definition demo_map : VerifiedChunkMap := mkMap digest_a demo_map_id 3 1 1 map_root.

Lemma chunk_map_usable_witness : exists url, ChunkMaps.page_request None "s" "/f" digest_a demo_map 0 true = Ok url.
Proof. apply (ChunkMaps.chunk_map_usable None "s" "/f" digest_a (fun _ => Ok map_json)); now_compute. Defined.

Definition page_json : json :=
  JObj [("map_id", JStr demo_map_id); ("page_index", JStr "0"); ("leaf_base64", JStr "AAAA");
        ("proof", JArr [JObj [("side", JStr "left"); ("sibling_pages", JStr "1"); ("digest", JStr digest_a)]])].

Lemma chunk_map_page_proved_witness :
  leaf_page_index (mkLeaf 0 [[0; 0; 0]]) = 0 /\
  exists hash proof, leaf_hash (mkLeaf 0 [[0; 0; 0]]) = Ok hash /\ zlen proof <= 32 /\
    verify_leaf (vm_page_count demo_map) 0 hash proof (vm_pages_root demo_map) = Ok tt.
Proof.
  destruct (ChunkMaps.chunk_map_page_proved None "s" "/f" digest_a demo_map 0 true (fun _ => Ok page_json)
              (mkLeaf 0 [[0; 0; 0]])) as (_ & _ & H1 & _ & _ & H2); [now_compute|]. by split.
Defined.

(** ** Upper diff *)

(** A lower layer with one file, and an opaque upper root with another. *)
Definition demo_base (p : string) : option SnapshotNodeIdentity :=
  if String.eqb p "" then Some (Directory "r") else if String.eqb p "a" then Some (Regular 3 "da") else None.

Definition toy_lower : Lower :=
  {| path_state := fun p => Ok (match demo_base p with Some i => Present i | None => AbsentProven end);
     directory_entries := fun p =>
       if String.eqb p "" then Ok [{| entry_name := "a"; entry_identity := Regular 3 "da" |}]
       else Err (SnapshotError_new PathNotFound "absent");
     validate_metadata_path := fun _ => Ok tt |}.
#[local] Existing Instance toy_lower.

Lemma a_ok : Diff.name_ok "a".
Proof. split; [done|]. repeat constructor. done. Qed.

Lemma demo_base_child p n i : Diff.name_ok n -> demo_base (Diff.join p n) = Some i ->
  p = "" /\ n = "a" /\ i = Regular 3 "da".
Proof.
  intros Hn Hb. unfold demo_base in Hb.
  destruct (String.eqb_spec (Diff.join p n) "") as [E|_]; [by apply Diff.join_nonempty in E; [|apply Hn]|].
  destruct (String.eqb_spec (Diff.join p n) "a") as [E|_]; [|done]. simplify_eq.
  apply (Diff.join_inj p n "" "a") in E as [-> ->]; auto using a_ok.
Qed.

#[local] Instance demo_lower_spec : Diff.LowerSpec demo_base.
Proof.
  split.
  - by intros p s [= <-].
  - intros p es Hes e. simpl in Hes. destruct (String.eqb_spec p "") as [->|]; [|done]. injection Hes as <-.
    rewrite list_elem_of_singleton. split; [intros ->; split; [apply a_ok|done]|].
    intros [Hn Hb]. apply demo_base_child in Hb as (_ & H2 & H3); [|done]. destruct e; simpl in *. by subst.
  - intros p n i Hn Hb. by apply demo_base_child in Hb as (-> & _).
Qed.

(** A host that never changes: an opaque root with one file [b]. *)
Definition fp_dir : Fingerprint := mkFingerprint 1 1 16877 0 2 0 0 (0, 0) (0, 0).
Definition fp_marker : Fingerprint := mkFingerprint 1 2 33188 0 1 0 0 (0, 0) (0, 0).
Definition fp_b : Fingerprint := mkFingerprint 1 3 33188 1 1 0 0 (0, 0) (0, 0).
Definition fp_of (p : string) : Fingerprint :=
  if String.eqb p "" then fp_dir else if String.eqb p "b" then fp_b else fp_marker.

Definition toy_host (ns : list string) (Hns : Forall Diff.name_ok ns) : Host.
Proof.
  refine {| host_open_root := fun _ => Ok tt; host_open := fun _ _ => Ok tt;
            host_stat_fd := fun _ p => Ok (fp_of p); host_stat_at := fun _ p => Ok (fp_of p);
            host_readdir := fun _ _ => (Some <$> ns, None); host_xattrs := fun _ _ => 0;
            host_errno := fun _ => ""; host_read := fun _ p => Ok (if String.eqb p "b" then [98] else []);
            host_readlink := fun _ _ => Err "EINVAL" |}.
  intros k d n (m & [= ->] & Hm)%list_elem_of_fmap. rewrite Forall_forall in Hns. by apply Hns, list_elem_of_In.
Defined.

Lemma demo_names_ok : Forall Diff.name_ok ["b"; ".wh..wh..opq"].
Proof. repeat constructor; done. Qed.

Definition busy_host : Host := toy_host ["b"; ".wh..wh..opq"] demo_names_ok.

Definition calm_check (_ : Diff.Check) : result string unit := Ok tt.
Definition scan_of (h : Host) : option (Res UpperDiff) :=
  Upper.scan (H2 := h) (0, 0) DiffLimits_default calm_check 0 (Ok tt).
Definition diff_of (h : Host) : UpperDiff :=
  match scan_of h with Some (Ok d) => d | _ => {| changes := []; meters := Upper.no_meters |} end.

Lemma default_nodes : is_usize (max_nodes DiffLimits_default).
Proof. by vm_compute. Qed.
Lemma default_bytes : is_u64 (max_bytes DiffLimits_default).
Proof. by vm_compute. Qed.

Lemma scan_bounded_witness :
  exists r, scan_of busy_host = Some r /\
    forall d, r = Ok d -> upper_nodes (meters d) <= 100000 /\ hash_bytes (meters d) <= 4294967296 /\
      zlen (changes d) <= 100000.
Proof.
  exact (Upper.scan_bounded (H2 := busy_host) (0, 0) DiffLimits_default demo_base default_nodes default_bytes
           calm_check 0 (Ok tt)).
Defined.

(** The opaque root hides [a], so the diff reports it deleted. *)
Lemma upper_diff_exact_witness :
  exists c qs, c ∈ changes (diff_of busy_host) /\ qs `prefix_of` ["a"] /\ ch_rel_path c = Diff.path_of "" qs.
Proof.
  destruct (Upper.upper_diff_exact (H2 := busy_host) (0, 0) DiffLimits_default demo_base default_nodes default_bytes
              calm_check 0 (Ok tt) (diff_of busy_host)) as (scanned & k' & Hc & _ & H); [now_compute|].
  destruct (H ["a"]) as [Ha|Hx]; [constructor; [apply a_ok|constructor]| |exact Hx].
  revert Ha. vm_compute in Hc. injection Hc as <- _. by vm_compute.
Defined.

(** ** Requests

    A client whose first attempt meets a busy gateway and whose second one is
    answered: its exchanges, its receipt and its lookup. *)

Import Counters Requests RequestFacts Resolve.

Definition lookup_json : json :=
  JObj [("snapshot_id", JStr "s");
        ("results", JArr [JObj [("path", JStr "/dir/link"); ("status", JStr "found");
                                ("node", JObj [("fs_kind", JStr "symlink"); ("name", JStr "link"); ("size", JStr "12");
                                               ("content_digest", JStr digest_a)])];
                          JObj [("path", JStr "/none"); ("status", JStr "absent")]])].

(** One byte stands for one document. *)
#[export] Instance toy_http : HttpCrate := {|
  json_read b := match b with
                 | [1] => Ok resolve_json
                 | [2] => Ok lookup_json
                 | _ => Err "expected value"
                 end;
  json_duplicate _ := "duplicate JSON key";
  json_mismatch _ := "invalid type";
  json_write _ := [0];
  status_text := u64_to_string;
|}.

(** The second operation is the first exchange: a gateway refuses it. Every
    answer repeats the id it was asked with. *)
Definition busy_gateway (body : list Z) : network :=
  mkNetwork (fun _ => None) (fun _ => true) Z.of_nat (fun _ => Some 7) (fun _ => true) (fun _ => true)
    (fun k r => let ids := (fun v => ("x-request-id", v)) <$> get_all "x-request-id" (hr_headers r) in
                if (k =? 2)%nat then Ok (mkHttpResponse 503 ids None [Ok [9]]) else Ok (mkHttpResponse 200 ids None [Ok body])).

Definition quiet_net : net := mkNet 0 [] {[0%nat := Some "t"; 1%nat := None]} 5 0 0.
Definition demo_client : Mst2Client := mkClient REQUEST_TIMEOUT "https://h" 0 1 None None.

Lemma clock_runs body i j : (i <= j)%nat -> w_now (busy_gateway body) i <= w_now (busy_gateway body) j.
Proof. simpl. lia. Qed.

Definition demo_get : Request := get_request "https://h/api/v2/snapshots/capabilities".

Lemma requests_disciplined_witness :
  exists r s' new, send_retrying_with_receipt (busy_gateway [1]) demo_client demo_get None quiet_net = (r, s') /\
    zlen (exchanges new) = 2 /\ paused new = 47 /\ net_retries s' = 6 /\ net_trace s' = new /\
    Forall (fun x => get_all "authorization" (hr_headers x.1) = ["Bearer t"]) (exchanges new) /\
    course (busy_gateway [1]) None (w_now (busy_gateway [1]) 0) REQUEST_TIMEOUT (identified demo_client (net_cells quiet_net) demo_get) 0 None new r.
Proof.
  destruct (requests_disciplined (busy_gateway [1]) demo_client demo_get None quiet_net (clock_runs [1])) as (r & s' & new & E & _ & Et & _ & Hc & _);
    [vm_compute; discriminate|exact I|split; vm_compute; discriminate|].
  exists r, s', new. split; [exact E|]. simpl in Et.
  assert (Hv : match send_retrying_with_receipt (busy_gateway [1]) demo_client demo_get None quiet_net with
               | (_, s') => zlen (exchanges (net_trace s')) = 2 /\ paused (net_trace s') = 47 /\ net_retries s' = 6 /\
                            forallb (fun x => bool_decide (get_all "authorization" (hr_headers x.1) = ["Bearer t"])) (exchanges (net_trace s')) = true
               end) by (vm_compute; repeat split; reflexivity).
  rewrite E, Et in Hv. destruct Hv as (H1 & H2 & H3 & H4). split; [exact H1|]. split; [exact H2|]. split; [exact H3|]. split; [exact Et|].
  split; [|exact Hc]. apply list.Forall_forall. intros x Hx. rewrite forallb_Forall, list.Forall_forall in H4. specialize (H4 x Hx).
  by apply bool_decide_eq_true in H4.
Defined.

Definition demo_receipt : ResolveTraceReceipt := mkReceipt "run/1" ["run/1:a1"; "run/1:a2"] "run/1:a2" 1.

Lemma observed_resolve_exact_witness :
  exists s' answer, observed (busy_gateway [1]) demo_client demo_request "run/1" true quiet_net = (Ok (demo_resolved, demo_receipt), s') /\
    get_all "x-request-id" (hp_headers answer) = ["run/1:a2"] /\ (exists b v, body_of answer b /\ parse_value b = Ok v) /\
    scope (rs_descriptor demo_resolved) = "/work".
Proof.
  assert (E : (observed (busy_gateway [1]) demo_client demo_request "run/1" true quiet_net).1 = Ok (demo_resolved, demo_receipt)) by now_compute.
  destruct (observed (busy_gateway [1]) demo_client demo_request "run/1" true quiet_net) as [r s'] eqn:Er. simpl in E. subst r.
  destruct (observed_resolve_exact (busy_gateway [1]) demo_client demo_request "run/1" true quiet_net demo_resolved demo_receipt s' (clock_runs [1]))
    as (new & before & q & answer & b & v & _ & _ & _ & _ & _ & _ & _ & _ & _ & Hecho & Hb & Hv & _ & Ha); [vm_compute; discriminate|exact Er|].
  exists s', answer. split; [reflexivity|]. split; [exact Hecho|]. split; [exists b, v; split; [exact Hb|exact Hv]|].
  apply (Ha (or_intror eq_refl)).
Defined.

Definition demo_answer : LookupResponse :=
  mkLookup "s" [mkResult "/dir/link" "found" (Some demo_node); mkResult "/none" "absent" None].

Lemma lookup_bound_witness :
  exists s', lookup (busy_gateway [2]) demo_client "s" ["/dir/link"; "/none"] quiet_net = (Ok demo_answer, s') /\
    Forall (typed_result None) (lk_results demo_answer).
Proof.
  assert (E : (lookup (busy_gateway [2]) demo_client "s" ["/dir/link"; "/none"] quiet_net).1 = Ok demo_answer) by now_compute.
  destruct (lookup (busy_gateway [2]) demo_client "s" ["/dir/link"; "/none"] quiet_net) as [r s'] eqn:Er. simpl in E. subst r.
  exists s'. split; [reflexivity|].
  apply (lookup_bound (busy_gateway [2]) demo_client "s" ["/dir/link"; "/none"] quiet_net demo_answer s'). exact Er.
Defined.
