(* ===== verification/ReadWitnesses.v ===== *)
(** * ReadWitnesses

    Concrete inputs for the properties of closures, owned exchanges, cache
    tables and range reads: a snapshot of two directories and a file, and a
    chunk delivered in pieces by the network. *)

From Stdlib Require Import Sorted.
From S2P Require Import Prelude Types Faults Text Profile Btree Frames Wire ChunkMap.
From S2P Require Import Closure ClosureExact ClosureFacts OwnedTransport Lru OwnedRange Instances Witnesses.
Import Closure ClosureExact ClosureFacts.
Local Open Scope string_scope.
Local Open Scope list_scope.
Local Open Scope Z_scope.

#[local] Existing Instances toy_sha toy_hex toy_scope toy_descriptor toy_uuid toy_chunk.
#[local] Existing Instances toy_pages toy_serving toy_frames toy_parser toy_lengths.

(** ** A snapshot: a/f with three bytes below the root *)

Definition page_of (es : list Entry) : list Z := [Z.pos (encode (entry_tuple <$> es))].
Definition sub_page : list Z := page_of [mkEntry [102] ERegular 3 (checksum [9]) []].
Definition root_page : list Z := page_of [mkEntry [97] EDirectory 0 [] (checksum sub_page)].
Definition name_of (b : list Z) : string := digest (checksum b).
Definition tree_pages : list (string * list Z) := sort_by fst [(name_of sub_page, sub_page); (name_of root_page, root_page)].

Definition tree_serving : ServingDescriptor :=
  mkServing (as_bytes demo_uuid) (checksum [3]) "/work" (checksum root_page).
Definition tree_descriptor : Descriptor :=
  descriptor_of tree_serving (checksum (as_bytes "/work" ++ checksum root_page)).

Definition tree_closure : ValidatedSnapshotClosure :=
  mkClosure tree_descriptor [Z.pos (encode (as_bytes demo_uuid, checksum [3], "/work", checksum root_page))] tree_pages
    [mkDir "" (name_of root_page); mkDir "a" (name_of sub_page)]
    [mkFile "a/f" "regular" 3 (digest (checksum [9]))].

Lemma tree_ordered : Btree.ordered tree_pages.
Proof. apply sort_by_strict. apply (bool_decide_unpack _). now_compute. Qed.
Lemma tree_opens : from_pages tree_descriptor tree_pages = Ok tree_closure.
Proof. now_compute. Qed.

Definition tree_run := validate_pages_bounded tree_descriptor tree_pages 3 100000 (Some 5) (fun _ => 4).
Definition tree_validator : ClosureValidator :=
  match tree_run with Ok (_, v) => v | Err _ => mkValidator ∅ ∅ ∅ ∅ ∅ [] [] 0 0 end.

Lemma tree_validates :
  validate_pages_bounded tree_descriptor tree_pages 3 100000 (Some 5) (fun _ => 4) = Ok (tree_closure, tree_validator).
Proof. now_compute. Qed.

Lemma closure_exact_witness :
  tree_run = Ok (tree_closure, tree_validator) /\
  file_from tree_pages "" (metadata_root tree_descriptor) (mkFile "a/f" "regular" 3 (digest (checksum [9]))) /\
  reachable_page tree_pages (metadata_root tree_descriptor) (name_of sub_page).
Proof.
  split; [exact tree_validates|].
  pose proof (closure_exact tree_descriptor tree_pages 3 100000 (Some 5) (fun _ => 4) tree_closure tree_validator
                tree_ordered tree_validates) as (_ & Hp & _ & Hf & _).
  split; [apply Hf; left|apply Hp; vm_compute; right; left].
Defined.

Lemma closure_within_limits_witness :
  tree_run = Ok (tree_closure, tree_validator) /\
  zlen (vc_directories tree_closure) + zlen (vc_files tree_closure) <= 3.
Proof.
  split; [exact tree_validates|].
  exact (proj1 (closure_within_limits tree_descriptor tree_pages 3 100000 (Some 5) (fun _ => 4) tree_closure
                  tree_validator tree_ordered tree_validates)).
Defined.

Lemma closure_reopens_witness :
  from_canonical_pages (vc_descriptor_bytes tree_closure) tree_pages = Ok tree_closure.
Proof. exact (proj1 (closure_reopens tree_descriptor tree_pages tree_closure tree_opens)). Defined.

Definition tree_facts : list VerifiedSubtreeFacts :=
  match with_subtree_facts tree_descriptor tree_pages with Ok (_, f) => f | Err _ => [] end.

Lemma subtree_facts_exact_witness :
  with_subtree_facts tree_descriptor tree_pages = Ok (tree_closure, tree_facts) /\
  length tree_facts = 2%nat /\ Forall (fact_ok tree_pages) tree_facts.
Proof.
  assert (Hf : with_subtree_facts tree_descriptor tree_pages = Ok (tree_closure, tree_facts)) by now_compute.
  split_and!; [exact Hf|now_compute|].
  exact (proj1 (proj2 (subtree_facts_exact tree_descriptor tree_pages tree_closure tree_facts tree_ordered Hf))).
Defined.

Lemma closure_total_witness : clean (with_subtree_facts tree_descriptor tree_pages).
Proof.
  refine (proj2 (closure_total tree_descriptor tree_pages 3 100000 None (fun _ => 0) tree_ordered _)). done.
Defined.

(** ** A chunk delivered in two pieces, then END *)

Definition frame_bytes (kind sequence : Z) (payload : list Z) : list Z :=
  let n := zlen payload in
  Owned.MAGIC ++ [2; 0; kind; 0; 32; 0; 0; 0; n; 0; 0; 0; n; 0; 0; 0; 1; 0; 0; 0; sequence; 0; 0; 0; 0; 0; 0; 0] ++ payload.

Definition chunk_request : list Z := [11; 12].
Definition chunk_response (cut : nat) : Owned.Response :=
  let body := frame_bytes 3 0 [5; 6; 7] ++ frame_bytes 4 1 ([1; 1; 3] ++ checksum chunk_request) in
  Owned.mkResponse true None [Ok (take cut body); Ok []; Ok (drop cut body)] (fun _ => SnapshotError_new Internal "").

Definition demo_sink := Range.chunk_sink (checksum [1]) (checksum [2]) 0 3.
Definition frame_request : Owned.FrameRequest := Owned.mkFrameRequest chunk_request 3 1 3 false.
Definition exchange (cut : nat) : Run (bool * list Z) :=
  Owned.consume_frames None 1 1 1 1 (fun _ _ _ => Ok tt) demo_sink (fun _ => Ok (chunk_response cut)) frame_request
    (false, []) 0.

Lemma consume_frames_exact_witness :
  exchange 7 = Ok (true, [5; 6; 7]) /\
  exists ws w, (Owned.flat_rest (Owned.chunks (chunk_response 7))).1 = concat ws ++ w /\
    zlen (concat ws ++ w) <= 2 * (1 * 76 + 3 + 4096) + 2 * 32.
Proof.
  assert (He : exchange 7 = Ok (true, [5; 6; 7])) by now_compute. split; [exact He|].
  destruct (Owned.consume_frames_exact None 1 1 1 1 (fun _ _ _ => Ok tt) demo_sink (fun _ => Ok (chunk_response 7))
              frame_request (false, []) 0 (true, [5; 6; 7])) as (resp & ws & fs & w & e & l & Hs & _ & Hf & H).
  - intros b resp [= <-]. unfold is_byte. vm_compute. repeat constructor; done.
  - exact He.
  - injection Hs as <-. exists ws, w. rewrite Hf. split; [reflexivity|]. apply H.
Defined.

Lemma network_cuts_irrelevant_witness : exchange 7 = exchange 33.
Proof.
  apply (Owned.network_cuts_irrelevant None 1 1 1 1 (fun _ _ _ => Ok tt) demo_sink); [done|].
  intros b. split_and!; now_compute.
Defined.

(** ** Cache tables *)

Lemma lru_refines_list_witness :
  exists t, Lru.run_ops (A := Z * Z) fst 2 (Lru.new 2)
    [Lru.Insert (1, 10); Lru.Insert (2, 20); Lru.Get 1; Lru.Insert (3, 30); Lru.Get 2; Lru.Get 1]
    = Some ([None; None; Some (1, 10); None; None; Some (1, 10)], t).
Proof.
  destruct (Lru.lru_refines_list (A := Z * Z) fst 2
    [Lru.Insert (1, 10); Lru.Insert (2, 20); Lru.Get 1; Lru.Insert (3, 30); Lru.Get 2; Lru.Get 1]) as (t & Ht & _);
    [lia|]. exists t. exact Ht.
Defined.

(** ** A range of a three-byte file *)

Definition range_content : list Z := [5; 6; 7].
Definition range_file : SnapshotFile := mkFile "f" "regular" 3 (digest (checksum [2])).
Definition range_map : VerifiedChunkMap := mkMap (digest (checksum [2])) (digest (checksum [1])) 3 1 1 (checksum [3]).
Definition fine : nat -> Res unit := fun _ => Ok tt.
Definition range_leaf (_ : nat) (page : Z) : Res (list (list Z)) :=
  if page =? 0 then Ok [checksum range_content] else Err (SnapshotError_new Internal "").
Definition range_env (_ : nat) (s : Range.state) : Range.state := s.
Definition range_send (_ : nat) (_ : list Z) : Res Owned.Response := Ok (chunk_response 40).
Definition range_start : Range.state :=
  Range.mkState (Lru.new Range.CACHED_LEAVES) (Lru.new Range.CACHED_CHUNKS) 0.

Definition range_read : Run (list Z) * Range.state :=
  Range.read_range_owned None range_file range_map Range.FullRootMember false fine fine fine fine fine range_leaf
    (fun _ _ _ => Ok tt) (fun _ _ _ => Ok tt) range_send (fun _ => chunk_request) range_env 1 1 1 1 1 1 1 1 9 range_start.

(** No part of the response is a frame with another chunk that is not empty. *)
Definition range_bytes : list Z := (Owned.flat_rest (Owned.chunks (chunk_response 40))).1.
Definition part_ok (w : list Z) : bool :=
  match parse_frame w with
  | Ok (FChunk _ _ _ c, n) => negb (n =? zlen w) || bool_decide (c ∈ [range_content; []])
  | _ => true
  end.
Lemma range_parts :
  forallb (fun a => forallb (fun n => part_ok (take n (drop a range_bytes))) (seq 0 (S (length range_bytes))))
    (seq 0 (S (length range_bytes))) = true.
Proof. now_compute. Qed.

Lemma range_part pre w post : range_bytes = pre ++ w ++ post -> part_ok w = true.
Proof.
  intros E. assert (w = take (length w) (drop (length pre) range_bytes)) as -> by (rewrite E, drop_app_length; by rewrite take_app_length).
  pose proof range_parts as Hall. rewrite forallb_Forall, list.Forall_forall in Hall.
  assert (Hlen : (length pre + length w <= length range_bytes)%nat) by (rewrite E, !length_app; lia).
  specialize (Hall (length pre)). rewrite elem_of_seq, forallb_Forall, list.Forall_forall in Hall.
  apply Hall; [lia|]. apply elem_of_seq. lia.
Qed.

Definition range_known : KnownBytes (H := toy_sha).
Proof. refine (toy_known_bytes [range_content; []] _). now_compute. Defined.
#[local] Existing Instance range_known.

Lemma range_relies : Range.relies range_file range_map range_leaf range_send range_env range_content.
Proof.
  split.
  - done.
  - intros k page ds Hd i d Hi Hpos Hsize Hds. unfold range_leaf in Hd. destruct (Z.eqb_spec page 0) as [->|]; [|done].
    simplify_eq. change (zlen range_content) with 3 in Hsize. change CHUNK_SIZE with 1048576 in Hsize.
    assert (i = 0) as -> by lia. vm_compute in Hds. simplify_eq. now_compute.
  - intros k b resp [= <-]. unfold is_byte. vm_compute. repeat constructor; done.
  - split; now_compute.
  - intros i Hi Hlt. change (zlen range_content) with 3 in Hlt. change CHUNK_SIZE with 1048576 in Hlt.
    assert (i = 0) as -> by lia. left.
  - intros k b resp pre w post m fc i c [= <-] E Hw. apply range_part in E. unfold part_ok in E.
    unfold Owned.wire_of in Hw. rewrite Hw, Z.eqb_refl in E. by apply bool_decide_eq_true in E.
Qed.

Lemma range_read_sound_witness :
  fst range_read = Ok [6; 7] /\
  [6; 7] = slice range_content 1 (1 + 9).
Proof.
  assert (Hr : range_read = (Ok [6; 7], snd range_read)).
  { rewrite (surjective_pairing range_read) at 1. by f_equal. }
  split; [now_compute|].
  refine (proj2 (Range.range_read_sound None range_file range_map Range.FullRootMember false fine fine fine fine fine
    range_leaf (fun _ _ _ => Ok tt) (fun _ _ _ => Ok tt) range_send (fun _ => chunk_request) range_env 1 1 1 1 1 1 1
    range_content range_relies 1 9 range_start _ _ _ _ _ Hr)); [done|done|].
  exists [], []. split_and!; [apply Lru.new_rep|apply Lru.new_rep|constructor|constructor].
Defined.
