(* ===== verification/DurableWitnesses.v ===== *)
(** * DurableWitnesses

    Concrete inputs for the properties of the journal, the durable store and
    the workspace pins: record codecs with their round trips, and a store that
    commits the snapshot of [ReadWitnesses], reopens it and releases it. *)

From S2P Require Import Prelude Types Faults Text Profile Btree Frames Wire Closure Disk DiskLogic Journal JournalFacts Records Pins Durable DurableFacts CommitFacts PinFacts Hydrate HydrateFacts StreamFacts Batches BatchFacts Instances Witnesses ReadWitnesses.
Import Digests Closure Disk DiskLogic Journal JournalFacts Records Pins Durable DurableFacts CommitFacts PinFacts.
Import Hydrate HydrateFacts StreamFacts Batches BatchFacts.
Local Open Scope string_scope.
Local Open Scope list_scope.
Local Open Scope Z_scope.

#[local] Existing Instances toy_sha toy_hex toy_scope toy_descriptor toy_uuid toy_pages toy_serving toy_time toy_chunk.

(** ** Codecs: the fields of a record as numbers *)

Definition toy_serde {T} (f : T -> list positive) (g : list positive -> option T) (Hg : forall x, g (f x) = Some x) : Serde T.
Proof.
  refine {| to_json := fun x => Ok (Zpos <$> f x);
            from_json := fun b => match g (Z.to_pos <$> b) with Some x => Ok x | None => Err "json" end |}.
  intros x b [= <-]. rewrite <- list_fmap_compose. assert (Z.to_pos ∘ Zpos <$> f x = f x) as ->.
  { induction (f x) as [|p l IH]; [done|]. cbn. by f_equal. }
  by rewrite Hg.
Defined.

#[local] Instance SnapshotFile_countable : Countable SnapshotFile.
Proof.
  refine (inj_countable' (fun f => (rel_path f, file_kind f, file_size f, file_digest f))
            (fun '(p, k, s, d) => mkFile p k s d) _). by intros [].
Defined.
#[local] Instance BlobDependency_countable : Countable BlobDependency.
Proof. refine (inj_countable' (fun b => (b_digest b, b_size b)) (fun '(d, s) => mkBlob d s) _). by intros []. Defined.
#[local] Instance PageDependency_countable : Countable PageDependency.
Proof. refine (inj_countable' (fun b => (p_page_id b, p_size b)) (fun '(d, s) => mkPage d s) _). by intros []. Defined.
#[local] Instance SnapshotDirectory_countable : Countable SnapshotDirectory.
Proof. refine (inj_countable' (fun b => (dir_path b, directory_root b)) (fun '(d, s) => mkDir d s) _). by intros []. Defined.
#[local] Instance CompletionKind_countable : Countable CompletionKind.
Proof.
  refine (inj_countable' (fun k => bool_decide (k = FileClosure)) (fun b : bool => if b then FileClosure else FullSnapshot) _).
  by intros [].
Defined.

Ltac toy_law := intros []; cbn -[encode decode]; rewrite !decode_encode; reflexivity.

Definition toy_view : Serde ViewMeta.
Proof.
  refine (toy_serde (fun v => [encode (v_snapshot_id v); encode (v_namespace_view_id v); encode (v_scope v); encode (v_lease_id v)])
    (fun l => match l with
              | [a; b; c; d] => a ← decode a; b ← decode b; c ← decode c; d ← decode d; Some (mkView a b c d)
              | _ => None end) _).
  toy_law.
Defined.

Definition toy_manifest : Serde (list SnapshotFile).
Proof.
  refine (toy_serde (fun l => [encode l]) (fun l => match l with [a] => decode a | _ => None end) _).
  intros x. by rewrite decode_encode.
Defined.

Definition toy_marker : Serde CompleteMarker.
Proof.
  refine (toy_serde (fun m => [encode (m_revision m); encode (m_kind m); encode (m_snapshot_id m);
      encode (m_namespace_view_id m); encode (m_view_digest m); encode (m_manifest_digest m); encode (m_pin_digest m);
      encode (m_grant_digest m); encode (m_files m); encode (m_bytes m); encode (m_hydrated_at m)])
    (fun l => match l with
              | [a; b; c; d; e; f; g; h; i; j; k] =>
                  a ← decode a; b ← decode b; c ← decode c; d ← decode d; e ← decode e; f ← decode f; g ← decode g;
                  h ← decode h; i ← decode i; j ← decode j; k ← decode k; Some (mkMarker a b c d e f g h i j k)
              | _ => None end) _).
  toy_law.
Defined.

Definition toy_pin : Serde PinRecord.
Proof.
  refine (toy_serde (fun m => [encode (pin_revision m); encode (pin_id m); encode (pin_snapshot_id m);
      encode (pin_namespace_view_id m); encode (pin_scope m); encode (pin_lease_id m); encode (pin_view_digest m);
      encode (pin_manifest_digest m); encode (pin_blobs m); encode (pin_grant_digest m); encode (pinned_at m)])
    (fun l => match l with
              | [a; b; c; d; e; f; g; h; i; j; k] =>
                  a ← decode a; b ← decode b; c ← decode c; d ← decode d; e ← decode e; f ← decode f; g ← decode g;
                  h ← decode h; i ← decode i; j ← decode j; k ← decode k; Some (mkPin a b c d e f g h i j k)
              | _ => None end) _).
  toy_law.
Defined.

Definition toy_snapshot_marker : Serde SnapshotCompleteMarker.
Proof.
  refine (toy_serde (fun m => [encode (sm_revision m); encode (sm_kind m); encode (sm_snapshot_id m);
      encode (sm_namespace_view_id m); encode (sm_view_digest m); encode (sm_manifest_digest m);
      encode (sm_descriptor_digest m); encode (sm_index_digest m); encode (sm_pin_digest m); encode (sm_grant_digest m);
      encode (sm_files m); encode (sm_directories m); encode (sm_pages m); encode (sm_bytes m); encode (sm_hydrated_at m)])
    (fun l => match l with
              | [a; b; c; d; e; f; g; h; i; j; k; m; n; o; p] =>
                  a ← decode a; b ← decode b; c ← decode c; d ← decode d; e ← decode e; f ← decode f; g ← decode g;
                  h ← decode h; i ← decode i; j ← decode j; k ← decode k; m ← decode m; n ← decode n; o ← decode o;
                  p ← decode p; Some (mkSnapshotMarker a b c d e f g h i j k m n o p)
              | _ => None end) _).
  toy_law.
Defined.

Definition toy_snapshot_pin : Serde SnapshotPinRecord.
Proof.
  refine (toy_serde (fun m => [encode (sp_revision m); encode (sp_pin_id m); encode (sp_snapshot_id m);
      encode (sp_namespace_view_id m); encode (sp_scope m); encode (sp_lease_id m); encode (sp_view_digest m);
      encode (sp_manifest_digest m); encode (sp_descriptor_digest m); encode (sp_index_digest m); encode (sp_pages m);
      encode (sp_blobs m); encode (sp_grant_digest m); encode (sp_pinned_at m)])
    (fun l => match l with
              | [a; b; c; d; e; f; g; h; i; j; k; m; n; o] =>
                  a ← decode a; b ← decode b; c ← decode c; d ← decode d; e ← decode e; f ← decode f; g ← decode g;
                  h ← decode h; i ← decode i; j ← decode j; k ← decode k; m ← decode m; n ← decode n; o ← decode o;
                  Some (mkSnapshotPin a b c d e f g h i j k m n o)
              | _ => None end) _).
  toy_law.
Defined.

Definition toy_index : Serde MetadataIndex.
Proof.
  refine (toy_serde (fun m => [encode (i_revision m); encode (i_pages m); encode (i_directories m)])
    (fun l => match l with
              | [a; b; c] => a ← decode a; b ← decode b; c ← decode c; Some (mkIndex a b c)
              | _ => None end) _).
  toy_law.
Defined.

Definition toy_grant : Serde OfflineGrant.
Proof.
  refine (toy_serde (fun g => [encode (grant_id g); encode (grant_snapshot_id g); encode (actor_domain_id g);
      encode (expires_at g); encode (policy g)])
    (fun l => match l with
              | [a; b; c; d; e] => a ← decode a; b ← decode b; c ← decode c; d ← decode d; e ← decode e; Some (mkGrant a b c d e)
              | _ => None end) _).
  toy_law.
Defined.

Definition toy_header (b : bytes) : result string Z :=
  match b with
  | z :: _ => match decode (A := Z) (Z.to_pos z) with Some r => Ok r | None => Err "header" end
  | [] => Err "header"
  end.

Definition toy_commits : CommitCodec.
Proof.
  refine {| view_json := toy_view; manifest_json := toy_manifest; marker_json := toy_marker; pin_json := toy_pin;
            snapshot_marker_json := toy_snapshot_marker; snapshot_pin_json := toy_snapshot_pin; index_json := toy_index;
            grant_json := toy_grant; header_json := toy_header |}.
  - intros m b [= <-]. cbn -[encode decode]. by rewrite decode_encode.
  - intros m b [= <-]. cbn -[encode decode]. by rewrite decode_encode.
Defined.

#[local] Instance WorkspaceBinding_countable : Countable WorkspaceBinding.
Proof.
  refine (inj_countable' (fun b => [encode (wb_revision b); encode (workspace_id b); encode (wb_snapshot_id b);
      encode (wb_scope b); encode (auth_domain b)])
    (fun l => match l with
              | [a; b; c; d; e] =>
                  mkWorkspace (default 0 (decode a)) (default "" (decode b)) (default "" (decode c)) (default "" (decode d))
                    (default "" (decode e))
              | _ => mkWorkspace 0 "" "" "" "" end) _).
  intros []. cbn -[encode decode]. by rewrite !decode_encode.
Defined.

Definition toy_workspaces : PinCodec.
Proof.
  refine {| binding_json := toy_serde (fun b => [encode b]) (fun l => match l with [a] => decode a | _ => None end) _;
            registration_json := toy_serde (fun g => [encode (rg_binding g); encode (bool_decide (rg_state g = Active))])
              (fun l => match l with
                        | [a; b] => a ← decode a; b ← decode b; Some (mkRegistration a (if b : bool then Active else Released))
                        | _ => None end) _;
            release_json := toy_serde (fun r => [encode (rl_binding r); encode (operation_id r);
                encode (match phase r with Revoking => true | Revoked => false end)])
              (fun l => match l with
                        | [a; b; c] => a ← decode a; b ← decode b; c ← decode c;
                                       Some (mkRelease a b (if c : bool then Revoking else Revoked))
                        | _ => None end) _;
            authority_json := toy_serde (fun a => [encode (au_revision a); encode (au_domain a); encode (au_scope a); encode (au_snapshot a)])
              (fun l => match l with
                        | [a; b; c; d] => a ← decode a; b ← decode b; c ← decode c; d ← decode d; Some (mkAuthority a b c d)
                        | _ => None end) _ |}.
  - intros x. by rewrite decode_encode.
  - intros [b s]. cbn -[encode decode]. rewrite !decode_encode. by destruct s.
  - intros [b o p]. cbn -[encode decode]. rewrite !decode_encode. by destruct p.
  - toy_law.
Defined.

(** Journal records: a brace and the bits of the fields. *)
Fixpoint bits (p : positive) : bytes :=
  match p with xH => [] | xO p => 48 :: bits p | xI p => 49 :: bits p end.
Fixpoint from_bits (l : bytes) : positive :=
  match l with [] => xH | b :: l => if b =? 49 then xI (from_bits l) else xO (from_bits l) end.

Lemma from_bits_bits p : from_bits (bits p) = p.
Proof. induction p as [p IH|p IH|]; cbn; by rewrite ?IH. Qed.
Lemma bits_ascii p : Forall (fun b => b = 48 \/ b = 49) (bits p).
Proof. induction p; cbn; auto. Qed.
Lemma ascii_valid l : Forall (fun b => 0 <= b < 128) l -> utf8_valid l = true.
Proof.
  unfold utf8_valid. induction 1 as [|b l Hb Hl IH]; [done|]. cbn [length utf8_valid_in].
  assert (scalar (b :: l) = Some l) as ->; [|done]. unfold scalar.
  by rewrite (proj2 (in_range_true 0 b 127)) by lia.
Qed.

Definition record_number (r : FileRecord) : positive := encode (rec_path r, rec_digest r, rec_size r).

Definition toy_records : RecordCodec.
Proof.
  refine {| record_to_vec := fun r => Ok (123 :: bits (record_number r));
            record_from_str := fun b => match decode (A := string * string * Z) (from_bits (tail b)) with
                                        | Some (p, d, s) => Ok (mkRecord p d s) | None => Err "record" end |}.
  - intros r b [= <-]. cbn [tail]. rewrite from_bits_bits. unfold record_number. rewrite decode_encode. by destruct r.
  - intros r b [= <-]. pose proof (bits_ascii (record_number r)) as Hb. split_and!; [done| |].
    + intros Hin. apply elem_of_cons in Hin as [?|Hin]; [done|]. rewrite list.Forall_forall in Hb. destruct (Hb 10 Hin); done.
    + apply ascii_valid. constructor; [lia|]. eapply Forall_impl; [|exact Hb]. intros z [->| ->]; lia.
Defined.

#[local] Existing Instances toy_commits toy_workspaces toy_records.

(** ** The journal *)

Definition demo_records : list FileRecord := [mkRecord "a" "x" 1; mkRecord "b" "y" 2].
Definition demo_lines : list bytes := (fun r => 123 :: bits (record_number r)) <$> demo_records.

Lemma demo_encodes : encodes demo_records demo_lines.
Proof. repeat constructor. Qed.

Definition empty_disk : disk := mkDisk ∅ ∅ ∅.
Definition calm_env : environment :=
  mkEnv (fun _ => None) (fun _ => None) (fun _ => false) (fun _ => demo_uuid) (fun _ => 7).

Lemma calm_env_calm : calm calm_env.
Proof. done. Qed.

Lemma journal_torn_tail_witness :
  exists k, (k <= 2)%nat /\
    parse_journal (take 30 (lines_of demo_lines)) = Ok (records_map (take k demo_records)).
Proof.
  destruct (journal_torn_tail demo_records demo_lines 30 demo_encodes) as (k & Hk & _ & Hp & _).
  exists k. split; [exact Hk|exact Hp].
Defined.


(** ** A commit *)

Definition tree_file : path := (Content, hex32 (checksum [9])).
Definition demo_disk : disk :=
  mkDisk {[0%nat := mkInode [3; 3; 3] true false]} {[tree_file := 0%nat]} ∅.
Definition somewhere : Location := mkLocation [] true.
Definition demo_view : ViewMeta :=
  mkView (snapshot_id tree_descriptor) (namespace_view_id tree_descriptor) (scope tree_descriptor) "lease".

Definition demo_commit (closure : option ValidatedSnapshotClosure) : Run HydrateReport * world :=
  finish_hydration_commit calm_env somewhere demo_view (vc_files tree_closure) closure None (1, 0, 0) (mkWorld demo_disk 0 []).

Lemma demo_absent : durable_at demo_disk COMPLETE None.
Proof. split; now_compute. Qed.
Lemma demo_report : (demo_commit (Some tree_closure)).1 = Ok (mkReport (snapshot_id tree_descriptor) 1 1 0 0 3 true FullSnapshot).
Proof. now_compute. Qed.
Lemma demo_view_valid : validate_view_policy demo_view true = Ok tt.
Proof. now_compute. Qed.

Lemma demo_closure c : Some tree_closure = Some c ->
  vc_files c = vc_files tree_closure /\ Btree.ordered (vc_pages c) /\ exists d, from_pages d (vc_pages c) = Ok c.
Proof. intros [= <-]. split_and!; [done|exact tree_ordered|]. exists tree_descriptor. exact tree_opens. Qed.

(** The commit returns, and its record reads back as its one file. *)
Lemma commit_atomic_witness :
  exists b, lookup COMPLETE (now (demo_commit (Some tree_closure)).2) = Some (mkInode b true true) /\
    returns (now (demo_commit (Some tree_closure)).2) (verify_commit calm_env b) (vc_files tree_closure).
Proof.
  pose proof (commit_atomic calm_env somewhere (fun _ => eq_refl) demo_view (vc_files tree_closure) (Some tree_closure)
                None (1, 0, 0) demo_disk 0 demo_view_valid demo_closure demo_absent) as Hc.
  pose proof demo_report as Hr. unfold demo_commit in *.
  destruct (finish_hydration_commit _ _ _ _ _ _ _ _) as [r s].
  exact (proj2 Hc _ (now s) calm_env Hr (or_introl eq_refl) calm_env_calm).
Defined.

(** ** A hydration of an empty store *)

Definition demo_hydration : Run HydrateReport * world :=
  hydrate_file_closure calm_env somewhere demo_view (vc_files tree_closure) (Some tree_closure)
    (fun _ _ => Ok [3; 3; 3]) None (mkWorld empty_disk 0 []).

Lemma demo_hydrates : demo_hydration.1 = Ok (mkReport (snapshot_id tree_descriptor) 1 1 0 0 3 true FullSnapshot).
Proof. now_compute. Qed.

Lemma hydration_ends_complete_witness :
  exists b, lookup COMPLETE (now demo_hydration.2) = Some (mkInode b true true) /\
    returns (now demo_hydration.2) (verify_commit calm_env b) (vc_files tree_closure).
Proof.
  pose proof (hydration_ends_complete calm_env somewhere (fun _ => eq_refl) demo_view (vc_files tree_closure) (Some tree_closure)
                (fun _ _ => Ok [3; 3; 3]) None empty_disk 0 demo_closure) as Hc.
  pose proof demo_hydrates as Hr. unfold demo_hydration in *. destruct (hydrate_file_closure _ _ _ _ _ _ _ _) as [r s].
  exact (proj2 (proj2 Hc _ (now s) calm_env Hr (or_introl eq_refl) calm_env_calm)).
Defined.

(** By batches: three needed files, two of them the same content. *)
Definition demo_need : list SnapshotFile :=
  [mkFile "a" "regular" 3 "y"; mkFile "b" "regular" 300000 "z"; mkFile "c" "regular" 3 "y"].

Lemma batches_planned_witness :
  plan demo_need = ([[mkFile "a" "regular" 3 "y"]], [mkFile "b" "regular" 300000 "z"]) /\
  NoDup (file_digest <$> concat (plan demo_need).1).
Proof.
  split; [now_compute|].
  assert (Hs : Forall (fun f => 0 <= file_size f) demo_need) by (repeat constructor; done).
  pose proof (batches_planned demo_need Hs) as Hp. destruct (plan demo_need) as [b l]. exact (proj1 Hp).
Defined.

Definition demo_batches : Run HydrateReport * world :=
  hydrate_batches_closure calm_env somewhere demo_view (vc_files tree_closure) (Some tree_closure)
    (fun _ _ => Ok (fun _ => Some (Raw [3; 3; 3]))) (fun _ _ => Ok []) None (mkWorld empty_disk 0 []).

Lemma demo_batches_ok : demo_batches.1 = Ok (mkReport (snapshot_id tree_descriptor) 1 1 0 0 3 true FullSnapshot).
Proof. now_compute. Qed.

Lemma batched_hydration_ends_complete_witness :
  exists b, lookup COMPLETE (now demo_batches.2) = Some (mkInode b true true) /\
    returns (now demo_batches.2) (verify_commit calm_env b) (vc_files tree_closure).
Proof.
  pose proof (batched_hydration_ends_complete calm_env somewhere (fun _ => eq_refl) demo_view (vc_files tree_closure)
                (Some tree_closure) (fun _ _ => Ok (fun _ => Some (Raw [3; 3; 3]))) (fun _ _ => Ok []) None empty_disk 0
                demo_closure) as Hc.
  pose proof demo_batches_ok as Hr. unfold demo_batches in *.
  destruct (hydrate_batches_closure _ _ _ _ _ _ _ _ _) as [r s].
  exact (proj2 Hc _ (now s) calm_env Hr (or_introl eq_refl) calm_env_calm).
Defined.

Definition demo_fill : Run (Z * Z * Z) * world :=
  fill_batches calm_env (vc_files tree_closure) (fun _ _ => Ok (fun _ => Some (Raw [3; 3; 3]))) (fun _ _ => Ok []) None (mkWorld empty_disk 0 []).

Lemma demo_fill_ok : demo_fill.1 = Ok (1, 0, 0).
Proof. now_compute. Qed.


(** A file streamed in one range. *)
Definition demo_source : RangeSource := mkSource true true (fun _ _ => Ok tt) (fun _ _ _ _ => Ok [3; 3; 3]) None.
Definition demo_file : SnapshotFile := mkFile "a/f" "regular" 3 (digest_of [3; 3; 3]).
Definition demo_stream : Run unit * world := write_reader_blob calm_env demo_source demo_file (mkWorld empty_disk 0 []).

Lemma demo_streams : demo_stream.1 = Ok tt.
Proof. now_compute. Qed.
Lemma demo_target : blob_path (file_digest demo_file) = Ok (target demo_file).
Proof. now_compute. Qed.

Lemma large_file_published_witness :
  exists b, verified demo_file b /\ lookup (target demo_file) (now demo_stream.2) = Some (mkInode b true true).
Proof.
  pose proof (large_file_published calm_env demo_source demo_file empty_disk 0 ltac:(done) ltac:(done) demo_target) as Hs.
  pose proof demo_streams as Hr. unfold demo_stream in *. destruct (write_reader_blob _ _ _ _) as [r s].
  exact (proj2 (proj2 Hs) (now s) Hr (or_introl eq_refl)).
Defined.

Definition demo_reopened : Run (option (list SnapshotFile)) * world :=
  completed_manifest_locked calm_env somewhere (demo_commit (Some tree_closure)).2.

Lemma demo_reopens_files : demo_reopened.1 = Ok (Some (vc_files tree_closure)).
Proof. now_compute. Qed.
Lemma demo_reopens : completed_manifest_locked calm_env somewhere (demo_commit (Some tree_closure)).2 =
  (Ok (Some (vc_files tree_closure)), demo_reopened.2).
Proof. fold demo_reopened. rewrite <- demo_reopens_files. apply surjective_pairing. Qed.

Lemma completion_sound_witness :
  now demo_reopened.2 = now (demo_commit (Some tree_closure)).2 /\ NoDup (rel_path <$> vc_files tree_closure).
Proof.
  pose proof (completion_sound calm_env somewhere (demo_commit (Some tree_closure)).2 demo_reopened.2
                (vc_files tree_closure) demo_reopens) as (Hd & Hn & _).
  split; [exact Hd|exact Hn].
Defined.

(** ** A release *)

Definition files_disk (l : list (path * bytes)) : disk :=
  let t := list_to_map (imap (fun i e => (e.1, i)) l) in
  mkDisk (list_to_map (imap (fun i e => (i, mkInode e.2 true true)) l)) t t.

Definition json {T} `{Serde T} (x : T) : bytes := match to_json x with Ok b => b | Err _ => [] end.

Definition demo_owner : WorkspaceBinding := mkWorkspace 1 demo_uuid (snapshot_id tree_descriptor) "/work" "domain".
Definition owners : Location := mkLocation [demo_uuid; "owners"; hex32 (checksum (as_bytes "/work" ++ checksum root_page))] true.
Definition owned_disk : disk :=
  files_disk [((Root, OWNER_FILE), json demo_owner);
              ((Scope, "authority.json"), json (mkAuthority 1 "domain" "/work" None));
              ((Content, "authority.json"), json (mkAuthority 1 "domain" "/work" None));
              ((Root, "authority.json"), json (mkAuthority 1 "domain" "/work" (Some (snapshot_id tree_descriptor))));
              (registration_file demo_uuid, json (mkRegistration demo_owner Active));
              ((Root, VIEW_FILE), json demo_view); (COMPLETED, [1]); (PINNED, [2])].

Definition demo_release : Run ReleaseLocalPinReceipt * world :=
  release_local_pin calm_env owners (mkWorld owned_disk 0 []).

Lemma demo_allowed : (complete_allowed calm_env owners (mkWorld owned_disk 0 [])).1 = Ok true.
Proof. now_compute. Qed.
Lemma demo_released : demo_release.1 = Ok (mkReceipt demo_uuid (snapshot_id tree_descriptor) demo_uuid).
Proof. now_compute. Qed.

(** The claim counts before its release and not after it. *)
Lemma release_revokes_witness :
  (complete_allowed calm_env owners (mkWorld owned_disk 0 [])).1 = Ok true /\
  disallowed owners (now demo_release.2) /\ lookup COMPLETED (now demo_release.2) = None.
Proof.
  split; [exact demo_allowed|]. pose proof (release_revokes owners calm_env owned_disk 0) as Hr.
  pose proof demo_released as Hok. unfold demo_release in *. destruct (release_local_pin _ _ _) as [r s].
  destruct (proj2 Hr _ (now s) Hok (or_introl eq_refl)) as (Hd & Hc & _). split; [exact Hd|exact Hc].
Defined.
