(* ===== verification/CacheWitnesses.v ===== *)
(** * CacheWitnesses

    Concrete inputs for the properties of the scope cache: the snapshot of
    [ReadWitnesses] is refreshed into an empty cache and again from the records
    of the first refresh. *)

From S2P Require Import Prelude Types Faults Text Profile Btree Frames Wire Metadata Capacity Closure ClosureExact ClosureTree Disk Records Durable Incremental Collector SubtreeSums IncrementalFacts IncrementalWalk IncrementalExact CollectorBounds RefreshHistory Instances Witnesses ReadWitnesses DurableWitnesses.
Import Digests Capacity Closure ClosureExact ClosureTree Disk Records Incremental Collector SubtreeSums IncrementalFacts IncrementalExact CollectorBounds RefreshHistory.
Local Open Scope string_scope.
Local Open Scope list_scope.
Local Open Scope Z_scope.

#[local] Existing Instances toy_sha toy_hex toy_scope toy_descriptor toy_uuid toy_pages toy_serving.
#[local] Existing Instance SnapshotFile_countable.

#[local] Instance ClosureRecord_countable : Countable ClosureRecord.
Proof.
  refine (inj_countable'
    (fun r => (cr_auth_domain r, cr_metadata_codec r, cr_policy_revision r, cr_root_page_id r, cr_page_ids r,
               cr_total_entries r, cr_files r, cr_pin_ref r))
    (fun '(a, b, c, d, e, f, g, h) => mkRecord a b c d e f g h) _). by intros [].
Defined.

(** The index as one number. *)
Definition toy_records : Serde (gmap string ClosureRecord).
Proof.
  refine (toy_serde (fun m => [encode (map_to_list m)])
    (fun l => match l with [a] => list_to_map <$> decode (A := list (string * ClosureRecord)) a | _ => None end) _).
  intros m. rewrite decode_encode. simpl. by rewrite list_to_map_to_list.
Defined.
#[local] Existing Instance toy_records.

Definition toy_page_bytes : PageBytes := {| PAGE_MAX_BYTES := 65536 |}.
#[local] Existing Instance toy_page_bytes.

(** The pages that occur are those of the snapshot. *)
Lemma pages_differ : bool_decide (checksum sub_page = checksum root_page) = false.
Proof. now_compute. Qed.

Definition toy_known : KnownPages.
Proof.
  refine {| known := fun b => b = sub_page \/ b = root_page |}. pose proof (bool_decide_eq_false_1 _ pages_differ) as Hne.
  intros a b [->| ->] [->| ->] E; [reflexivity|exfalso; exact (Hne E)|exfalso; exact (Hne (eq_sym E))|reflexivity].
Defined.
#[local] Existing Instance toy_known.

Lemma toy_page_id b : length (page_id b) = 32%nat /\ Forall is_byte (page_id b).
Proof. split; [apply checksum_length|apply checksum_bytes]. Qed.

(** A server that answers with the pages asked for. *)
Definition serve (_ : nat) (items : list Metadata.MetadataPageItem) : Res (list (bytes * bytes)) :=
  Ok ((fun b => (checksum b, b)) <$>
        filter (fun b => existsb (fun i => bool_decide (Metadata.expected_digest i = Some (name_of b))) items = true)
          [sub_page; root_page]).
(** A server that answers nothing. *)
Definition silent_server (_ : nat) (_ : list Metadata.MetadataPageItem) : Res (list (bytes * bytes)) := Ok [].

Definition demo_pins (_ : nat) : Res (list (string * Durable.PinAudit)) := Ok [("owner", Durable.AuditActive "snapshot-1")].

Definition refresh (server : nat -> list Metadata.MetadataPageItem -> Res (list (bytes * bytes))) (s : world) :=
  sync calm_env false demo_pins "/work" "domain" "snapshot-1"
    (metadata_root tree_descriptor) 1 server (fun _ => 0%nat) 2 s.

Definition empty_disk : disk := mkDisk ∅ ∅ ∅.
(** The disk after the first refresh. *)
Definition after_first : disk := now (refresh serve (mkWorld empty_disk 0 [])).2.
Definition again (server : nat -> list Metadata.MetadataPageItem -> Res (list (bytes * bytes))) :=
  refresh server (mkWorld after_first 0 []).

(** The tree of the snapshot. *)
Definition sub_entry : Entry := mkEntry [102] ERegular 3 (checksum [9]) [].
Definition root_entry : Entry := mkEntry [97] EDirectory 0 [] (checksum sub_page).
Definition sub_tree : tree := Tree "a" (name_of sub_page) [("f", sub_entry)] [] [].
Definition whole_tree : tree := Tree "" (name_of root_page) [] [sub_tree] [].

Lemma sub_grows : grows tree_pages sub_tree.
Proof.
  apply grows_inv. split; [|split; constructor].
  exists (Leaf [sub_entry]), [("f", sub_entry)]. split_and!; now_compute.
Qed.
Lemma tree_grows : grows tree_pages whole_tree.
Proof.
  apply grows_inv. split; [|split; [constructor; [exact sub_grows|constructor]|constructor]].
  exists (Leaf [root_entry]), [("a", root_entry)]. split_and!; now_compute.
Qed.

Lemma demo_enough : enough tree_pages (metadata_root tree_descriptor) 2.
Proof. apply (enough_weight tree_pages whole_tree); [exact tree_grows|]. simpl. lia. Qed.

Lemma demo_answers : answers_known serve /\ answers_known silent_server.
Proof.
  split; [|by intros k items answer [= <-]]. intros k items answer [= <-]. apply list.Forall_forall. intros p Hp.
  apply list_elem_of_fmap in Hp as (b & -> & Hb). apply list_elem_of_filter in Hb as [_ Hb]. simpl.
  apply elem_of_cons in Hb as [Hb|Hb]; [by left|]. apply list_elem_of_singleton in Hb. by right.
Qed.

Lemma demo_names b pg e name :
  known b -> decode_page b = Ok pg -> e ∈ page_entries pg -> from_utf8 (ent_name e) = Some name -> component name.
Proof.
  intros Hb Hd He Hn. assert (Hcases : pg = Leaf [sub_entry] \/ pg = Leaf [root_entry]).
  { destruct Hb as [-> | ->]; [left|right]; vm_compute in Hd; by injection Hd as <-. }
  destruct Hcases as [->| ->]; apply list_elem_of_singleton in He as ->; vm_compute in Hn; injection Hn as <-;
    (split; [done|]); apply (bool_decide_unpack _); now_compute.
Qed.

Lemma demo_accepted : accepted tree_descriptor tree_pages tree_closure.
Proof.
  split_and!; [exact tree_ordered|exact tree_opens|]. apply list.Forall_forall. intros p Hp.
  unfold tree_pages in Hp. rewrite sort_by_perm in Hp. apply elem_of_cons in Hp as [->|Hp]; [by left|].
  apply list_elem_of_singleton in Hp as ->. by right.
Qed.

Lemma passes_end {A} (c : M A) d k : passes c d (now (c (mkWorld d k [])).2).
Proof. exists k, (mkWorld d k []). split; [reflexivity|left; reflexivity]. Qed.
Lemma reached_world d k : reached d -> reached (now (mkWorld d k [])).
Proof. done. Qed.

Lemma empty_reached : reached empty_disk.
Proof. apply reached_new. intros p _. split; apply lookup_empty. Qed.

Lemma demo_reached : reached after_first.
Proof.
  unfold after_first, refresh. eapply reached_sync; [exact empty_reached|exact demo_accepted|exact (proj1 demo_answers)|exact demo_enough|].
  apply passes_end.
Qed.

Definition demo_files : list SnapshotFile := [mkFile "a/f" "regular" 3 (digest (checksum [9]))].

(** The same disk with the bytes of one page under the name of the other. *)
Definition sub_file : path := (Pages, hex_encode (checksum sub_page)).
Definition sub_inode : nat := default 0%nat (names after_first !! sub_file).
Definition swapped : disk :=
  mkDisk (<[sub_inode := mkInode root_page true true]> (inodes after_first)) (names after_first) (saved after_first).

Lemma swapping_reached d i b :
  reached d -> known b ->
  ~ (names d !! (Scope, INDEX_FILE) = Some i \/ saved d !! (Scope, INDEX_FILE) = Some i) ->
  reached (mkDisk (<[i := mkInode b true true]> (inodes d)) (names d) (saved d)).
Proof.
  intros Hr Hb Hi. pose proof (reached_cache toy_page_id demo_names _ Hr) as Hc. apply (reached_damage d); [exact Hr|]. split; simpl.
  - intros id j Hid Hor. destruct (Hc (Pages, hex_encode id) j) as (n & En & Hs & [_ Hk]); [right; by exists id|exact Hor|].
    destruct (decide (j = i)) as [->|Hj]; [exists (mkInode b true true); rewrite lookup_insert_eq; by split_and!|].
    exists n. rewrite lookup_insert_ne by done. split_and!; [done|by apply Hs|by apply Hk].
  - intros j Hor. destruct (Hc (Scope, INDEX_FILE) j) as (n & En & Hs & _); [by left|exact Hor|].
    exists n. rewrite lookup_insert_ne by (intros ->; by apply Hi). split_and!; [done|by apply Hs|by right].
Qed.

Lemma swapped_reached : reached swapped.
Proof.
  apply swapping_reached; [exact demo_reached|by right|].
  apply (bool_decide_eq_false_1 (names after_first !! (Scope, INDEX_FILE) = Some sub_inode \/ saved after_first !! (Scope, INDEX_FILE) = Some sub_inode)).
  now_compute.
Qed.

(** The second refresh needs no answer: it reuses the record of the first. With
    a page swapped, it goes back to the server. *)
Lemma refresh_exact_witness :
  (refresh silent_server (mkWorld empty_disk 0 [])).1 <> Ok demo_files /\ (again silent_server).1 = Ok demo_files /\
  demo_files ≡ₚ vc_files tree_closure /\
  (refresh silent_server (mkWorld swapped 0 [])).1 <> Ok demo_files /\ (refresh serve (mkWorld swapped 0 [])).1 = Ok demo_files.
Proof.
  split; [vm_compute; discriminate|]. assert (E : (again silent_server).1 = Ok demo_files) by now_compute. split; [exact E|].
  pose proof (refresh_exact toy_page_id demo_names calm_env false demo_pins "/work" "domain"
    "snapshot-1" 1 serve (fun _ => 0%nat) 2 tree_descriptor tree_pages tree_closure (mkWorld swapped 0 [])
    (reached_world swapped 0 swapped_reached) demo_accepted (proj1 demo_answers) demo_enough) as Hr.
  assert (E' : (refresh serve (mkWorld swapped 0 [])).1 = Ok demo_files) by now_compute.
  unfold refresh in E'. rewrite E' in Hr. split; [exact Hr|]. split; [vm_compute; discriminate|exact E'].
Defined.

(** The index after the first refresh. *)
Definition demo_inode : inode := default (mkInode [] true true) (lookup (Scope, INDEX_FILE) after_first).
Definition demo_index : gmap string ClosureRecord :=
  match from_json (data demo_inode) with Ok m => m | Err _ => ∅ end.
Definition demo_record : ClosureRecord := default (mkRecord "" 0 0 "" [] 0 [] "") (demo_index !! name_of root_page).

Lemma demo_stored : lookup (Scope, INDEX_FILE) after_first = Some demo_inode.
Proof.
  assert (E : bool_decide (is_Some (lookup (Scope, INDEX_FILE) after_first)) = true) by now_compute.
  apply bool_decide_eq_true in E as [n E]. unfold demo_inode. by rewrite E.
Qed.
Lemma demo_reads : from_json (data demo_inode) = Ok demo_index.
Proof.
  assert (E : is_ok (from_json (T := gmap string ClosureRecord) (data demo_inode)) = true) by now_compute.
  unfold demo_index. by destruct (from_json (data demo_inode)).
Qed.
Lemma demo_recorded : demo_index !! name_of root_page = Some demo_record.
Proof.
  assert (E : bool_decide (is_Some (demo_index !! name_of root_page)) = true) by now_compute.
  apply bool_decide_eq_true in E as [r E]. unfold demo_record. by rewrite E.
Qed.

Lemma index_stays_sound_witness :
  size demo_index = 2%nat /\ cr_pin_ref demo_record = "snapshot-1" /\
  cr_files demo_record ≡ₚ files_at "" whole_tree /\ cr_total_entries demo_record = 2.
Proof.
  split; [now_compute|]. split; [now_compute|].
  pose proof demo_stored as E1. pose proof demo_reads as E2. pose proof demo_recorded as E3.
  assert (E4 : t_id whole_tree = cr_root_page_id demo_record) by now_compute.
  destruct (index_stays_sound toy_page_id demo_names after_first demo_inode demo_index (name_of root_page) demo_record tree_pages whole_tree
    demo_reached E1 E2 E3 (accepted_pages _ _ _ demo_accepted) tree_grows E4) as (Hf & Ht & _).
  split; [exact Hf|]. rewrite Ht. now_compute.
Defined.

(** A full refresh from the cache of the first refresh, without the server, and
    from the one with a swapped page, with it. *)
Definition full_refresh server := sync_snapshot calm_env false (fun _ => 0) tree_descriptor None true "domain" "snapshot-1" 1 server 2.

Lemma swapped_any : any_cache swapped.
Proof. exact (cache_any _ (reached_cache toy_page_id demo_names _ swapped_reached)). Qed.

Lemma full_refresh_exact_witness :
  is_ok (full_refresh silent_server (mkWorld empty_disk 0 [])).1 = false /\
  is_ok (full_refresh silent_server (mkWorld after_first 0 [])).1 = true /\
  (full_refresh serve (mkWorld swapped 0 [])).1 = Ok tree_closure.
Proof.
  split; [now_compute|]. split; [now_compute|]. assert (E : is_ok (full_refresh serve (mkWorld swapped 0 [])).1 = true) by now_compute.
  pose proof (full_refresh_exact toy_page_id demo_names calm_env false (fun _ => 0) None true "domain" "snapshot-1" 1 serve 2
    tree_descriptor tree_pages tree_closure (mkWorld swapped 0 []) swapped_any demo_accepted
    (proj1 demo_answers) demo_enough ltac:(reflexivity) ltac:(vm_compute; discriminate)) as [_ Hr].
  unfold full_refresh in *. destruct (sync_snapshot _ _ _ _ _ _ _ _ _ _ _ _).1 as [c'|e]; [by rewrite Hr|discriminate E].
Defined.

(** ** A snapshot without a valid closure *)

(** The pages of the codec above under ids of four repeated bytes. *)
Definition spread (b : list Z) : list Z :=
  let n := fold_left Z.add b 0 mod (2 ^ 32 - 5) in
  concat (replicate 8 [n mod 256; n / 2 ^ 8 mod 256; n / 2 ^ 16 mod 256; n / 2 ^ 24 mod 256]).
Definition spread_pages : PageCodec :=
  {| page_id := spread; page_decode := page_read; entry_decode := fun _ _ => Err "entry";
     page_build := fun es => Ok (page_of es); PAGE_MAX_DEPTH := 255 |}.

Section Invalid.
#[local] Existing Instance spread_pages.

(** Two leaves below one branch page both hold a directory named d, with
    different pages. Every page decodes, and the validator refuses the whole. *)
Definition file_page (name : Z) : list Z := page_of [mkEntry [name] ERegular 3 (checksum [9]) []].
Definition dir_page (b : list Z) : list Z := page_of [mkEntry [100] EDirectory 0 [] (spread b)].
Definition twice_page : list Z :=
  [Z.pos (encode [(97, 1, spread (dir_page (file_page 120))); (98, 1, spread (dir_page (file_page 121)))]); 0].
Definition once_page : list Z := dir_page (file_page 121).

Definition stored (pages : list (list Z)) : list (string * list Z) := sort_by fst ((fun b => (digest (spread b), b)) <$> pages).
Definition twice_pages := stored [file_page 120; file_page 121; dir_page (file_page 120); dir_page (file_page 121); twice_page].
Definition once_pages := stored [file_page 121; once_page].
Definition rooted (root : list Z) : Descriptor :=
  descriptor_of (mkServing (as_bytes demo_uuid) (checksum [3]) "/work" (spread root)) (checksum (as_bytes "/work" ++ spread root)).

(** A server that has all of them, and a refresh of the files below a root. *)
Definition serve_all (_ : nat) (items : list Metadata.MetadataPageItem) : Res (list (bytes * bytes)) :=
  Ok ((fun b => (spread b, b)) <$>
        filter (fun b => existsb (fun i => bool_decide (Metadata.expected_digest i = Some (digest (spread b)))) items = true) twice_pages.*2).
Definition refresh_below (snapshot : string) (root : list Z) (s : world) :=
  sync calm_env false demo_pins "/work" "domain" snapshot (metadata_root (rooted root)) 1 serve_all (fun _ => 0%nat) 20 s.
(** The page of d/x is in the cache, from a snapshot that is no longer pinned. *)
Definition before_twice : disk := now (refresh_below "snapshot-0" (dir_page (file_page 120)) (mkWorld empty_disk 0 [])).2.
Definition after_twice : disk := now (refresh_below "snapshot-1" twice_page (mkWorld before_twice 0 [])).2.
Definition listing (names : list string) : list SnapshotFile := (fun n => mkFile n "regular" 3 (digest (checksum [9]))) <$> names.

(** A refresh of files does not refuse that snapshot when the pages are cached:
    it commits, and lists nothing. The record it stored for the page of the
    second directory lists the files of both, and the next refresh of a valid
    snapshot with that page returns a file that the snapshot does not have. *)
Lemma invalid_refresh_poisons :
  is_ok (from_pages (rooted twice_page) twice_pages) = false /\
  (refresh_below "snapshot-1" twice_page (mkWorld before_twice 0 [])).1 = Ok [] /\
  (vc_files <$> (match from_pages (rooted once_page) once_pages with Ok c => Some c | Err _ => None end)) = Some (listing ["d/y"]) /\
  (refresh_below "snapshot-1" once_page (mkWorld before_twice 0 [])).1 = Ok (listing ["d/y"]) /\
  (refresh_below "snapshot-1" once_page (mkWorld after_twice 0 [])).1 = Ok (listing ["d/x"; "d/y"]).
Proof. split_and!; now_compute. Qed.
End Invalid.

(** A closure acquired within tight limits. *)
Definition tight : CacheLimits := mkCacheLimits 1000000 100000 2 1 100000 100000 4 100000 1000 1 1.
Definition acquired := snapshot_closure_for_cache calm_env (fun _ => 0) (fun _ => true) tree_descriptor None true serve tight 4.

Lemma collection_bounded_witness :
  is_ok (acquired (mkWorld empty_disk 0 [])).1 = true /\
  match (acquired (mkWorld empty_disk 0 [])).1 with
  | Ok c => zlen (vc_pages c) <= 2 /\ zlen (vc_directories c) + zlen (vc_files c) <= 4
  | Err _ => False
  end.
Proof.
  assert (E : is_ok (acquired (mkWorld empty_disk 0 [])).1 = true) by now_compute. split; [exact E|].
  pose proof (collection_bounded toy_page_id calm_env (fun _ => 0) (fun _ => true) tree_descriptor None true serve tight 4
    (mkWorld empty_disk 0 []) (proj1 demo_answers) ltac:(reflexivity) ltac:(vm_compute; discriminate) ltac:(vm_compute; discriminate)) as Hr.
  unfold acquired in *. destruct (snapshot_closure_for_cache _ _ _ _ _ _ _ _ _ _).1 as [c|e]; [|discriminate E].
  destruct Hr as (H1 & _ & H3 & _). split; [exact H1|exact H3].
Defined.
