(* ===== verification/RetentionWitnesses.v ===== *)
(** * RetentionWitnesses

    A managed scope with one live workspace, the contents and pages it needs,
    and one content and one page that nothing needs: its collection. *)

From S2P Require Import Prelude Types Faults Text Profile Btree Frames Wire Closure Disk Records Pins Durable Capacity Incremental ScopeTree Owners Inventory Retention InventoryFacts OwnersFacts ProtectionFacts RetentionFacts CollectionFacts CollectionSafe Instances Witnesses ReadWitnesses DurableWitnesses CacheWitnesses.
Import Pins Owners Digests Closure Records Capacity ScopeTree Inventory Retention InventoryFacts OwnersFacts ProtectionFacts CollectionSafe.
Local Open Scope string_scope.
Local Open Scope list_scope.
Local Open Scope Z_scope.

#[local] Existing Instances toy_sha toy_hex toy_scope toy_descriptor toy_uuid toy_pages toy_serving toy_page_bytes.
#[local] Existing Instances toy_commits toy_workspaces PageDependency_countable WorkspaceBinding_countable.

Definition limit_fields (l : CacheLimits) : list Z :=
  [max_bytes l; proof_headroom_bytes l; max_entries l; max_owners l; max_inventory_bytes l; max_metadata_bytes l;
   max_root_nodes l; max_record_bytes l; max_scan_millis l; max_delete_entries l; max_delete_bytes l].
Definition limits_of (l : list Z) : option CacheLimits :=
  match l with
  | [a; b; c; d; e; f; g; h; i; j; k] => Some (mkCacheLimits a b c d e f g h i j k)
  | _ => None
  end.

Definition toy_retention : RetentionCodec.
Proof.
  refine {| policy_json := toy_serde (fun p => [encode (cp_revision p); encode (limit_fields (cp_limits p))])
              (fun l => match l with [a; b] => a ← decode a; b ← decode b; b ← limits_of b; Some (mkPolicy a b) | _ => None end) _;
            charges_json := toy_serde (fun c => [encode (ch_revision c); encode (ch_bytes c); encode (ch_entries c)])
              (fun l => match l with
                        | [a; b; c] => a ← decode a; b ← decode b; c ← decode c; Some (mkCharges a b c)
                        | _ => None end) _;
            writer_json := toy_serde (fun w => [encode (wi_revision w); encode (wi_operation w); encode (wi_directory w);
                encode (wi_final w); encode (wi_temporary w); encode (wi_maximum w)])
              (fun l => match l with
                        | [a; b; c; d; e; f] => a ← decode a; b ← decode b; c ← decode c; d ← decode d; e ← decode e;
                                                f ← decode f; Some (mkWriter a b c d e f)
                        | _ => None end) _;
            hydration_json := toy_serde (fun w => [encode (hi_revision w); encode (hi_operation w); encode (hi_binding w);
                encode (hi_maximum w)])
              (fun l => match l with
                        | [a; b; c; d] => a ← decode a; b ← decode b; c ← decode c; d ← decode d; Some (mkHydration a b c d)
                        | _ => None end) _;
            use_json := toy_serde (fun u => [encode (wu_revision u); encode (wu_binding u); encode (wu_retired u);
                encode (wu_descriptor u); encode (wu_pages u)])
              (fun l => match l with
                        | [a; b; c; d; e] => a ← decode a; b ← decode b; c ← decode c; d ← decode d; e ← decode e;
                                             Some (mkUse a b c d e)
                        | _ => None end) _ |}.
  - intros [r []]. cbn -[encode decode limit_fields]. rewrite !decode_encode. reflexivity.
  - toy_law.
  - toy_law.
  - toy_law.
  - toy_law.
Defined.
#[local] Existing Instance toy_retention.

(** ** The scope *)

Definition demo_limits : CacheLimits :=
  mkCacheLimits 1000000 100000 100 4 1000000 100000 10 100000 1000 8 1000.
Definition demo_sid : string := hex32 (checksum (as_bytes "/work" ++ checksum root_page)).
Definition demo_root : rpath := owner_root demo_sid demo_uuid.
Definition needed_blob : string := hex32 (checksum [9]).
Definition stale_name : string := hex32 (checksum [77]).
Definition demo_use : WorkspaceUse :=
  mkUse 1 demo_owner false (Some (digest_of (vc_descriptor_bytes tree_closure))) (page_dependencies tree_closure).

Definition file (p : rpath) (b : bytes) : rpath * node := (p, Regular (mkIdentity (zlen b) 1) b).
Definition folder (p : rpath) : rpath * node := (p, Folder).
Definition scope_entries : list (rpath * node) :=
  [file [POLICY] (json (mkPolicy 1 demo_limits)); file [LEDGER] (json (mkCharges 1 0 0));
   file ["authority.json"] (json (mkAuthority 1 "domain" "/work" None));
   folder ["blobs"]; file ["blobs"; "authority.json"] (json (mkAuthority 1 "domain" "/work" None));
   file ["blobs"; needed_blob] [9]; file ["blobs"; stale_name] [7; 7];
   folder ["pages"]; file ["pages"; hex32 (checksum root_page)] root_page; file ["pages"; stale_name] [7];
   folder [REGISTRY_DIR]; file [REGISTRY_DIR; (demo_uuid ++ ".json")%string] (json (mkRegistration demo_owner Active));
   folder [demo_sid]; folder [demo_sid; "owners"]; folder demo_root;
   file (demo_root ++ ["authority.json"]) (json (mkAuthority 1 "domain" "/work" (Some (snapshot_id tree_descriptor))));
   file (demo_root ++ [OWNER_FILE]) (json demo_owner); file (demo_root ++ [".hydrate.lock"]) [];
   file (demo_root ++ [USE_RECORD]) (json demo_use); folder (demo_root ++ [RETENTION_DIR]);
   file (demo_root ++ [RETENTION_DIR; "descriptor.msd2"]) (vc_descriptor_bytes tree_closure);
   folder (demo_root ++ [RETENTION_DIR; "pages"]);
   file (demo_root ++ [RETENTION_DIR; "pages"; hex32 (checksum sub_page)]) sub_page;
   file (demo_root ++ [RETENTION_DIR; "pages"; hex32 (checksum root_page)]) root_page].
Definition demo_tree : tree := list_to_map scope_entries.

Definition calm_host : host :=
  mkHost (fun _ => None) (fun _ => None) (fun _ => 0) (fun _ l => l) (fun _ => "uuid") (fun _ => 2) (fun _ => true).
Definition demo_scope : state := mkScope demo_tree 0 [].
Definition demo_collection := collect_scope calm_host 20 (Ok false) demo_scope.

(** Well-formedness of a listed tree. *)
Definition wf_entry (t : tree) (e : rpath * node) : bool :=
  match e.1 with
  | [] => false
  | _ => match parent e.1 with [] => true | q => match t !! q with Some Folder => true | _ => false end end
  end && match e.2 with Regular id b => id_size id =? zlen b | _ => true end.

Lemma wf_checked (l : list (rpath * node)) :
  forallb (wf_entry (list_to_map l)) l = true -> wf_tree (list_to_map l).
Proof.
  intros Hall. rewrite forallb_Forall, list.Forall_forall in Hall.
  assert (Hin : forall p n, (list_to_map l : tree) !! p = Some n -> wf_entry (list_to_map l) (p, n) = true).
  { intros p n Hp. apply Hall. by apply elem_of_list_to_map_2. }
  split.
  - destruct ((list_to_map l : tree) !! []) as [n|] eqn:E; [|done]. by apply Hin in E.
  - intros p m [n Hn]. apply Hin in Hn. unfold wf_entry in Hn. simpl in Hn. apply andb_true_iff in Hn as [Hn _].
    unfold parent in Hn. rewrite length_app, Nat.add_sub, take_app_length in Hn.
    destruct p as [|x p]; [by left|right]. simpl in Hn. destruct (_ !! _) as [[]|] eqn:E; done.
  - intros p id b Hp. apply Hin in Hp. unfold wf_entry in Hp. apply andb_true_iff in Hp as [_ Hp]. simpl in Hp. lia.
Qed.

Lemma demo_wf : wf_tree demo_tree.
Proof. apply wf_checked. now_compute. Qed.


(** The workspace is live: its stored pages prove the closure. *)
Lemma elem_tree_pages id b : (id, b) ∈ tree_pages <-> (id, b) = (name_of sub_page, sub_page) \/ (id, b) = (name_of root_page, root_page).
Proof. unfold tree_pages. rewrite sort_by_perm, elem_of_cons, list_elem_of_singleton. done. Qed.

Lemma demo_page_files :
  file_at demo_tree (demo_root ++ [RETENTION_DIR; "pages"; hex32 (checksum sub_page)]) sub_page /\
  file_at demo_tree (demo_root ++ [RETENTION_DIR; "pages"; hex32 (checksum root_page)]) root_page.
Proof. split; eexists; now_compute. Qed.

Lemma demo_digests : parse_digest (name_of sub_page) = Ok (checksum sub_page) /\ parse_digest (name_of root_page) = Ok (checksum root_page).
Proof. split; now_compute. Qed.

Lemma demo_stored_pages : stored_pages demo_tree demo_root (wu_pages demo_use) tree_pages.
Proof.
  destruct demo_page_files as [Hs Hr]. destruct demo_digests as [Ds Dr]. split; [exact tree_ordered|]. intros id b.
  unfold demo_use, page_dependencies, tree_closure. cbn [wu_pages vc_pages]. split.
  - intros Hin. exists (mkPage id (zlen b)), (checksum b). split_and!.
    + apply list_elem_of_fmap. exists (id, b). split; [reflexivity|exact Hin].
    + reflexivity.
    + apply elem_tree_pages in Hin as [[= -> ->]|[= -> ->]]; [exact Ds|exact Dr].
    + apply elem_tree_pages in Hin as [[= -> ->]|[= -> ->]]; [exact Hs|exact Hr].
  - intros (d & dg & ([i x] & -> & Hx)%list_elem_of_fmap & <- & Hdg & Hf). simpl in *. apply elem_tree_pages.
    apply elem_tree_pages in Hx as [[= -> ->]|[= -> ->]].
    + rewrite Ds in Hdg. injection Hdg as <-. rewrite (file_at_det _ _ _ _ Hf Hs). left. reflexivity.
    + rewrite Dr in Hdg. injection Hdg as <-. rewrite (file_at_det _ _ _ _ Hf Hr). right. reflexivity.
Qed.

Lemma demo_live : live demo_tree demo_root tree_closure.
Proof.
  exists demo_sid, demo_uuid, demo_use, (vc_descriptor_bytes tree_closure), tree_pages, 3, 100000, None, (fun _ => 0).
  split_and!; [reflexivity| |reflexivity| |exact demo_stored_pages|now_compute].
  - exists (json demo_use). split; [eexists; now_compute|]. apply (json_round_trip demo_use). reflexivity.
  - eexists. now_compute.
Qed.

Lemma demo_depth : 0 <= PAGE_MAX_DEPTH.
Proof. vm_compute. discriminate. Qed.

(** The stale content is gone, the needed one is kept. *)
Lemma collection_keeps_live_witness :
  live demo_tree demo_root tree_closure /\ demo_tree !! ["blobs"; stale_name] <> None /\
  s_tree demo_collection.2 !! ["blobs"; stale_name] = None /\
  clean demo_collection.1 /\ keeps_live demo_tree (s_tree demo_collection.2).
Proof.
  split_and!; [exact demo_live|vm_compute; discriminate|now_compute| |];
    destruct (collection_keeps_live calm_host 20 (Ok false) demo_scope demo_wf eq_refl (fun _ _ => reflexivity _) demo_depth) as [Hc Hall].
  - exact Hc.
  - apply list.Forall_cons in Hall as [[_ Hk] _]. exact Hk.
Defined.

Lemma ledger_covers_witness :
  demo_collection.1 = Ok (mkReport 26 2 3 (tree_charge demo_tree - 3)) /\
  exists c, stored (s_tree demo_collection.2) (T := Charges) [LEDGER] c /\ tree_charge (s_tree demo_collection.2) <= ch_bytes c.
Proof.
  assert (Hr : demo_collection.1 = Ok (mkReport 26 2 3 (tree_charge demo_tree - 3))) by now_compute. split; [exact Hr|].
  generalize (mkReport 26 2 3 (tree_charge demo_tree - 3)), (eq_refl : scanned_entries (mkReport 26 2 3 (tree_charge demo_tree - 3)) = 26), Hr.
  clear Hr. intros r Hscan Hr. unfold demo_collection in *.
  destruct (ledger_covers calm_host 20 (Ok false) demo_scope r demo_wf eq_refl (fun _ _ => reflexivity _) demo_depth Hr)
    as [[E _]|(c & Hc & _ & [Hb _] & _)]; [rewrite E in Hscan; discriminate Hscan|]. exists c. split; [exact Hc|exact Hb].
Defined.
