(* ===== verification/Admission.v ===== *)
(** * Admission

    [src/snapshot/cache_retention.rs], the writers of a managed scope: a scope
    is configured with limits and a ledger that charges what is there; every
    write is charged to the ledger, or to a reservation that was, and declared
    by an intent before its temporary file exists; a hydration reserves all it
    may write; a workspace records what it uses. With them the writers of
    [durable.rs] that are admitted this way: [write_atomic],
    [CasBatchWriter::write], [write_reader_blob_stream], [append_journal_bytes]
    and [compact_journal]. The state of the process
    is its live reservations and the table that finds them by owner. Locks and
    authority checks are gates; a reservation holds the fence of its scope. *)

From S2P Require Import Prelude Types Faults Text Profile Btree Frames Wire ChunkMap Closure Disk Records Pins Journal Durable Capacity Incremental ScopeTree Owners Inventory Retention.
Import Pins Owners Digests Scope Closure Records Capacity ScopeTree Inventory Retention.
Local Open Scope string_scope.
Local Open Scope list_scope.
Local Open Scope Z_scope.

Module Admission.

Definition INTENT_CHARGE : Z := CONTROL_BYTES + 3 * ENTRY_CHARGE.

#[export] Instance WorkspaceUse_eq_dec : EqDecision WorkspaceUse.
Proof. solve_decision. Defined.

(** ** Directories and writers of the store *)

Section Files.
Context (h : host).

(** [durable::io_err]. *)
Definition io_err (e : io_error) : SnapshotError := SnapshotError_new Internal ("local store: " ++ message (io_error_of e)).
Definition local_io {A : Type} (c : W (result io_error A)) : W A := let* r := c in of_res (map_err io_err r).

(** [fs::metadata] of a directory; the scope itself is there. *)
Definition dir_stat (p : rpath) : W (result io_error node) :=
  look h (fun t => match p with [] => Ok Folder | _ => ok_or (t !! p) NotFound end).

Definition sync_dir (p : rpath) : W unit :=
  local_io (look h (fun t => match p with [] => Ok tt | _ => let? _ := ok_or (t !! p) NotFound in Ok tt end)).

(** One directory of [create_dir_all]. *)
Definition make_dir (p : rpath) : W (result io_error unit) :=
  change h (fun _ t => match t !! p with
                       | Some Folder => (Ok tt, t)
                       | Some _ => (Err AlreadyExists, t)
                       | None => if in_folder t p then (Ok tt, <[p := Folder]> t) else (Err NotFound, t)
                       end).

Fixpoint make_dirs (l : list rpath) : W (result io_error unit) :=
  match l with
  | [] => ret (Ok tt)
  | p :: l =>
      let* r := make_dir p in
      match r with Ok _ => make_dirs l | Err e => ret (Err e) end
  end.

(** [validate_directory_chain], from the path up. *)
Fixpoint validate_directory_chain (up : list rpath) : W (result io_error unit) :=
  match up with
  | [] => ret (Ok tt)
  | d :: up =>
      let* n := dir_stat d in
      match n with
      | Ok Folder => ret (Ok tt)
      | Ok _ => ret (Err (OtherError "directory component is not a directory"))
      | Err NotFound => validate_directory_chain up
      | Err e => ret (Err e)
      end
  end.

(** [secure_fs::create_dir_all_no_symlink]. *)
Definition create_dir_all_no_symlink (p : rpath) : W (result io_error unit) :=
  let* r := validate_directory_chain (ancestors p) in
  match r with
  | Err e => ret (Err e)
  | Ok _ =>
      let* r := make_dirs (drop 1 (reverse (ancestors p))) in
      match r with
      | Err e => ret (Err e)
      | Ok _ => validate_directory_chain (ancestors p)
      end
  end.

(** The loop of [create_dirs_durable]. *)
Fixpoint missing_dirs (up : list rpath) : W (list rpath) :=
  match up with
  | [] => ret []
  | d :: up =>
      let* n := dir_stat d in
      match n with
      | Ok Folder => ret []
      | Ok _ => fail (io_err (OtherError "store path is not a directory"))
      | Err NotFound => let* m := missing_dirs up in ret (d :: m)
      | Err e => fail (io_err e)
      end
  end.

Definition create_dirs_durable (p : rpath) : W unit :=
  let* missing := missing_dirs (ancestors p) in
  run* local_io (create_dir_all_no_symlink p) in
  fold_w (fun _ d => run* sync_dir d in sync_dir (parent d)) tt (reverse missing).

(** [write_all] of a file opened for appending. *)
Definition append_all (p : rpath) (b : bytes) : W (result io_error unit) :=
  change h (fun k t => match t !! p with
                       | Some (Regular _ old) =>
                           (Ok tt, <[p := Regular (mkIdentity (zlen (old ++ b)) (h_stamp h k)) (old ++ b)]> t)
                       | _ => (Err NotFound, t)
                       end).
End Files.

(** ** The process *)

Record HydrationBudget : Type := mkBudget {
  hb_scope : rpath; hb_owner_root : rpath; hb_operation : string; hb_remaining : Z; hb_proof : bool;
}.

(** The live reservations, and [owner_budgets]. *)
Record process : Type := mkProcess { live_budgets : gmap nat HydrationBudget; owner_budgets : gmap rpath nat }.
Definition no_budgets : process := mkProcess ∅ ∅.

(** Programs of the process: its state survives an error. *)
Definition M (A : Type) : Type := process -> W (Run A * process).
Definition mret {A : Type} (a : A) : M A := fun p => ret (Ok a, p).
Definition mbind {A B : Type} (c : M A) (k : A -> M B) : M B := fun p =>
  let* x := c p in
  match x with
  | (Ok a, p) => k a p
  | (Err e, p) => ret (Err e, p)
  end.
Definition mfail {A : Type} (e : SnapshotError) : M A := fun p => ret (Err (Failed e), p).
Definition mrun {A : Type} (c : W A) : M A := fun p => let* r := attempt c in ret (r, p).
Definition mtry {A : Type} (c : M A) : M (Run A) := fun p => let* x := c p in ret (Ok x.1, x.2).
Definition mof {A : Type} (r : Run A) : M A := fun p => ret (r, p).
Definition current : M process := fun p => ret (Ok p, p).
Definition update (f : process -> process) : M unit := fun p => ret (Ok tt, f p).

Fixpoint mfold {A X : Type} (f : A -> X -> M A) (a : A) (l : list X) : M A :=
  match l with
  | [] => mret a
  | x :: l => mbind (f a x) (fun a => mfold f a l)
  end.

Notation "'let^' x := c 'in' k" := (mbind c (fun x => k))
  (at level 10, x name, c at level 150, k at level 200).
Notation "'run^' c 'in' k" := (mbind c (fun _ => k)) (at level 10, c at level 150, k at level 200).
Notation "'guard^' b 'with' e 'in' k" := (if b then mfail e else k) (at level 10, b at level 150, e at level 150, k at level 200).

Definition set_remaining (n : Z) (b : HydrationBudget) : HydrationBudget :=
  mkBudget (hb_scope b) (hb_owner_root b) (hb_operation b) n (hb_proof b).

(** A reservation that is held. *)
Definition budget (id : nat) : M HydrationBudget :=
  let^ p := current in mof (ok_or (live_budgets p !! id) Panicked).

(** [directory_budget], [owner_budget]. *)
Definition directory_budget (p : process) (directory : rpath) : option nat :=
  head (omap (fun root => id ← owner_budgets p !! root; _ ← live_budgets p !! id; Some id) (take 4 (ancestors directory))).

(** The temporary of a name. *)
Definition temporary_of (name id : string) : string := "." ++ name ++ ".tmp." ++ id.

(** [Path::to_str] with the separators of a record. *)
Fixpoint replace_char (a b : ascii) (s : string) : string :=
  match s with
  | EmptyString => EmptyString
  | String c s => String (if Ascii.eqb c a then b else c) (replace_char a b s)
  end.
Definition relative_string (p : rpath) : string := replace_char "\"%char "/"%char (String.concat "/" p).

Record WriteAdmission : Type := mkAdmission {
  wa_scope : rpath; wa_directory : rpath; wa_intent : option string; wa_temporary : string; wa_budget : option nat;
}.
Definition temporary_path (a : WriteAdmission) : rpath := wa_directory a ++ [wa_temporary a].

Section Admit.
Context `{RetentionCodec} (h : host) (outer : Res unit).

(** ** Scopes *)

(** The loop of [managed_scope]. *)
Fixpoint first_policy (up : list rpath) : W (option rpath) :=
  match up with
  | [] => ret None
  | d :: up =>
      let* n := stat h (d ++ [POLICY]) in
      match n with
      | Ok (Regular _ _) => run* policy_of h d in ret (Some d)
      | Ok _ => fail (integrity "managed cache policy is not a regular file")
      | Err NotFound => first_policy up
      | Err e => fail (io_error_of e)
      end
  end.

(** [managed_scope]; nothing above the directory is managed, or a policy there
    cannot be read, as [outer] says. *)
Definition managed_scope (p : rpath) : W (option rpath) :=
  let* found := first_policy (take 9 (ancestors p)) in
  match found with
  | Some scope => ret (Some scope)
  | None => if (length (ancestors p) <? 9)%nat then run* of_res outer in ret None else ret None
  end.

Definition io_guard (p : rpath) : W unit :=
  let* scope := managed_scope p in
  match scope with
  | Some scope => lock_in h scope FENCE
  | None => ret tt
  end.

Definition inventory_limits (scope : rpath) : W CacheLimits :=
  let* managed := managed_scope scope in
  match managed with
  | Some _ => policy_of h scope
  | None => ret CacheLimits_default
  end.

(** [serialized_size]. *)
Definition serialized_size {T : Type} `{Serde T} (value : T) (maximum : Z) : Res Z :=
  match to_json value with
  | Ok b => reject? maximum <? zlen b with limit "cache serialization budget exceeded" in Ok (zlen b)
  | Err _ => Err (limit "cache serialization budget exceeded")
  end.

(** What a writer of a class may fill. *)
Definition byte_capacity (l : CacheLimits) (emergency proof : bool) : Z :=
  if emergency then max_bytes l
  else if proof then max_bytes l - proof_headroom_bytes l / 4
  else max_bytes l - proof_headroom_bytes l.

(** A charge on the ledger, within the capacity of the writer's class; the sum
    of a charge is taken once the ledger is read, and the messages are those
    of the caller. *)
Definition charge_ledger (scope : rpath) (l : CacheLimits) (charge : Res Z) (entries : Z) (emergency proof : bool)
    (over_bytes over_entries exhausted : string) : W unit :=
  let* c := read_record h (T := Charges) (scope ++ [LEDGER]) CONTROL_BYTES in
  guard* negb (ch_revision c =? 1) with integrity "unsupported cache charge ledger" in
  let* bytes := of_res charge in
  let* b := of_res (ok_or (checked_add (ch_bytes c) bytes) (limit over_bytes)) in
  let* e := of_res (ok_or (checked_add (ch_entries c) entries) (limit over_entries)) in
  guard* (byte_capacity l emergency proof <? b) || (entry_capacity l emergency proof <? e) with limit exhausted in
  raw_atomic h scope LEDGER (mkCharges (ch_revision c) b e).

(** ** Writers *)

(** [WriteAdmission::declared]. *)
Definition declared (scope directory : rpath) (final_name : string) (maximum : Z) (budget : option nat)
    : W WriteAdmission :=
  let* relative := of_res (ok_or (below_path scope directory) (integrity "writer escaped managed scope")) in
  guard* negb (forallb is_utf8 relative) with integrity "managed cache directory is not UTF-8" in
  let* id := new_uuid h in
  let intent_name := (id ++ ".json")%string in
  let temporary := temporary_of final_name id in
  run* raw_atomic h (scope ++ [INTENTS]) intent_name
         (mkWriter 1 id (relative_string relative) final_name temporary maximum) in
  ret (mkAdmission scope directory (Some intent_name) temporary budget).

(** The last part of [HydrationBudget::consume]: an unplanned write. *)
Definition extend (b : HydrationBudget) (bytes : Z) : W unit :=
  let scope := hb_scope b in
  run* lock_in h scope ADMISSION_LOCK in
  let* limits := policy_of h scope in
  run* charge_ledger scope limits (Ok bytes) 3 false (hb_proof b) "cache repair reservation overflow"
         "cache repair entry reservation overflow" "managed cache repair capacity exhausted" in
  let name := (hb_operation b ++ ".hydrate.json")%string in
  let* intent := read_record h (T := HydrationIntent) (scope ++ [INTENTS; name]) CONTROL_BYTES in
  let* total := of_res (ok_or (checked_add (hi_maximum intent) bytes) (limit "hydration intent reservation overflow")) in
  raw_atomic h (scope ++ [INTENTS]) name (mkHydration (hi_revision intent) (hi_operation intent) (hi_binding intent) total).

(** [HydrationBudget::consume]. *)
Definition consume (id : nat) (bytes : Z) : M unit :=
  let^ b := budget id in
  if bytes <=? hb_remaining b
  then update (fun p => mkProcess (<[id := set_remaining (hb_remaining b - bytes) b]> (live_budgets p)) (owner_budgets p))
  else mrun (extend b bytes).

(** The admission of a writer without a reservation. *)
Definition admit_single (scope directory : rpath) (limits : CacheLimits) (final_name : string) (maximum : Z)
    : W WriteAdmission :=
  run* lock_in h scope ADMISSION_LOCK in
  let* relative := of_res (ok_or (below_path scope directory) (integrity "writer escaped managed scope")) in
  let emergency := String.eqb final_name USE_RECORD || String.eqb final_name "LOCAL_PIN_REVOKE"
                   || bool_decide (file_name relative = Some REGISTRY_DIR) in
  let proof := existsb (String.eqb RETENTION_DIR) relative in
  let charge := ok_or (checked_add maximum INTENT_CHARGE) (limit "cache write reservation overflow") in
  run* charge_ledger scope limits charge 3 emergency proof "cache charge ledger overflow" "cache entry charge overflow"
         "managed cache capacity exhausted; collect and retry" in
  declared scope directory final_name maximum None.

(** [WriteAdmission::begin_with_budget]. *)
Definition begin_with_budget (directory : rpath) (final_name : string) (maximum : Z) (reservation : option nat)
    : M (option WriteAdmission) :=
  let^ scope := mrun (managed_scope directory) in
  match scope with
  | None => mret None
  | Some scope =>
      run^ mrun (lock_in h scope FENCE) in
      let^ limits := mrun (policy_of h scope) in
      run^ mof (lift (validate_child final_name)) in
      match reservation with
      | Some id =>
          let^ b := budget id in
          guard^ negb (bool_decide (hb_scope b = scope)) with integrity "hydration reservation crosses managed scopes" in
          let^ charge := mof (ok_or (checked_add maximum INTENT_CHARGE) (Failed (limit "cache reservation overflow"))) in
          run^ consume id charge in
          let^ a := mrun (declared scope directory final_name maximum (Some id)) in
          mret (Some a)
      | None => let^ a := mrun (admit_single scope directory limits final_name maximum) in mret (Some a)
      end
  end.

(** [WriteAdmission::begin]. *)
Definition begin (directory : rpath) (final_name : string) (maximum : Z) : M (option WriteAdmission) :=
  let^ p := current in begin_with_budget directory final_name maximum (directory_budget p directory).

(** [Drop for WriteAdmission]. *)
Definition drop_admission (a : WriteAdmission) : W unit :=
  let* r := remove_file h (temporary_path a) in
  let* removed := match r with
                  | Ok _ => let* s := attempt (sync_dir h (wa_directory a)) in ret (is_ok s)
                  | Err NotFound => ret true
                  | Err _ => ret false
                  end in
  match removed, wa_intent a with
  | true, Some intent =>
      let* r := remove_file h (wa_scope a ++ [INTENTS; intent]) in
      if is_ok r then run* attempt (sync_dir h (wa_scope a ++ [INTENTS])) in ret tt else ret tt
  | _, _ => ret tt
  end.
Definition retire (a : option WriteAdmission) : W unit :=
  match a with Some a => drop_admission a | None => ret tt end.

(** The temporary of an admitted or of an unmanaged writer; [pid] is
    [std::process::id]. *)
Definition writer_temporary (pid : string) (directory : rpath) (name : string) (a : option WriteAdmission) : W rpath :=
  match a with
  | Some a => ret (temporary_path a)
  | None => let* id := new_uuid h in ret (directory ++ [temporary_of name (pid ++ "-" ++ id)%string])
  end.

Context (pid : string).

(** [durable::write_atomic_with_budget]. *)
Definition write_atomic_with_budget (dir : rpath) (name : string) (data : bytes) (reservation : option nat) : M unit :=
  run^ mrun (io_guard dir) in
  run^ mrun (create_dirs_durable h dir) in
  let^ admission := match reservation with
                    | Some _ => begin_with_budget dir name (zlen data) reservation
                    | None => begin dir name (zlen data)
                    end in
  let^ tmp := mrun (writer_temporary pid dir name admission) in
  let^ result := mtry (mrun (
    run* local_io (create_new h tmp) in
    run* local_io (write_all h tmp data) in
    run* local_io (sync_all h) in
    run* local_io (rename h tmp (dir ++ [name])) in
    sync_dir h dir)) in
  run^ (if is_ok result then mret tt else run^ mtry (mrun (local_io (remove_file h tmp))) in mret tt) in
  run^ mrun (retire admission) in
  mof result.

Definition write_atomic (dir : rpath) (name : string) (data : bytes) : M unit :=
  write_atomic_with_budget dir name data None.

(** [CasBatchWriter::write]; the pending file is removed in every case. *)
Definition cas_batch_write (dir : rpath) (name : string) (data : bytes) (reservation : option nat) : M unit :=
  let^ admission := begin_with_budget dir name (zlen data) reservation in
  let^ tmp := mrun (writer_temporary pid dir name admission) in
  let^ result := mtry (mrun (
    run* local_io (create_new h tmp) in
    run* local_io (write_all h tmp data) in
    run* local_io (sync_all h) in
    local_io (rename h tmp (dir ++ [name])))) in
  run^ mtry (mrun (local_io (remove_file h tmp))) in
  run^ mrun (retire admission) in
  mof result.

(** [append_journal_bytes] of the store at [root]. *)
Definition append_journal_bytes (root : rpath) (data : bytes) : M unit :=
  if bool_decide (data = []) then mret tt
  else
    let^ admission := begin root Journal.JOURNAL_FILE (zlen data) in
    let journal := root ++ [Journal.JOURNAL_FILE] in
    let^ result := mtry (mrun (
      run* local_io (open_rw_create h journal) in
      run* local_io (append_all h journal data) in
      run* local_io (sync_all h) in
      sync_dir h root)) in
    run^ mrun (retire admission) in
    mof result.

(** ** Scopes and pressure *)

Context (base : Z).

(** [configure_scope]; the scope directory is there. *)
Definition configure_scope (limits : CacheLimits) : W unit :=
  run* of_res (validate_limits (h_reachable h) limits) in
  let initialize : W unit :=
    run* lock h FENCE in
    run* gate h in
    run* lock h ADMISSION_LOCK in
    let* n := stat h [POLICY] in
    match n with
    | Ok _ =>
        let* now := policy h in
        if bool_decide (now = limits) then ret tt
        else fail (busy "managed cache capacity policy differs from its existing scope")
    | Err NotFound =>
        let* v := scan h base limits in
        let* bytes := of_res (ok_or (checked_add (in_bytes v) (8 * ENTRY_CHARGE + CONTROL_BYTES))
                                (limit "managed cache byte count overflow")) in
        guard* (max_bytes limits <? bytes) || (max_entries limits <? saturating_add (in_entries v) 8)
          with limit "existing cache exceeds managed capacity" in
        run* io (create_dir_all_no_symlink h [INTENTS]) in
        run* raw_atomic h [] LEDGER (mkCharges 1 bytes (in_entries v + 8)) in
        raw_atomic h [] POLICY (mkPolicy 1 limits)
    | Err e => fail (io_error_of e)
    end in
  let* n := stat h [POLICY] in
  match n with
  | Ok _ =>
      run* io (open_regular h [FENCE]) in
      run* gate h in
      run* gate h in
      let* now := policy h in
      if bool_decide (now = limits) then ret tt else initialize
  | Err NotFound => initialize
  | Err e => fail (io_error_of e)
  end.

(** [cache_pressure] of the scope directory. *)
Definition cache_pressure : W bool :=
  let* managed := managed_scope [] in
  match managed with
  | None => ret false
  | Some _ =>
      run* lock h FENCE in
      let* limits := policy h in
      let* c := read_record h (T := Charges) [LEDGER] CONTROL_BYTES in
      guard* negb (ch_revision c =? 1) with integrity "unsupported cache charge ledger" in
      ret (((max_bytes limits - proof_headroom_bytes limits) / 4 * 3 <=? ch_bytes c) || (max_entries limits / 4 * 3 <=? ch_entries c))
  end.
End Admit.

(** ** Reservations and uses of a workspace *)

Section Workspace.
Context `{HexCrate} `{Sha256} `{PageBytes} `{UuidCrate} `{CommitCodec} `{PinCodec} `{RetentionCodec}.
Context (h : host) (outer : Res unit) (pid : string) (sid id : string).

(** The store: its root is the owner directory, its contents are those of the
    scope. *)
Let root : rpath := owner_root sid id.
Let content : rpath := ["blobs"].

(** [try_transaction], [transaction]. *)
Definition transaction : W unit :=
  run* io_guard h outer content in
  run* local_io (open_rw_create h (root ++ [".hydrate.lock"])) in
  gate h.

(** [HydrationBudget::reserve_charge]. *)
Definition reserve_charge (scope : rpath) (binding : WorkspaceBinding) (limits : CacheLimits) (charge entries : Z)
    (proof : bool) : M nat :=
  run^ mrun (lock_in h scope ADMISSION_LOCK) in
  run^ mrun (charge_ledger h scope limits (Ok charge) entries false proof "cache charge ledger overflow"
               "cache entry charge overflow" "managed hydration capacity exhausted before publication") in
  let^ operation := mrun (new_uuid h) in
  run^ mrun (raw_atomic h (scope ++ [INTENTS]) (operation ++ ".hydrate.json")%string
               (mkHydration 1 operation binding charge)) in
  let^ p := current in
  let fresh_id := fresh (dom (live_budgets p) : gset nat) in
  run^ update (fun p => mkProcess (<[fresh_id := mkBudget scope root operation charge proof]> (live_budgets p))
                          (<[root := fresh_id]> (owner_budgets p))) in
  mret fresh_id.

(** [Drop for HydrationBudget]. *)
Definition drop_budget (n : nat) : M unit :=
  let^ p := current in
  match live_budgets p !! n with
  | None => mret tt
  | Some b =>
      run^ update (fun p => mkProcess (delete n (live_budgets p))
                              (if bool_decide (owner_budgets p !! hb_owner_root b = Some n)
                               then delete (hb_owner_root b) (owner_budgets p) else owner_budgets p)) in
      mrun (let* r := remove_file h (hb_scope b ++ [INTENTS; (hb_operation b ++ ".hydrate.json")%string]) in
            if is_ok r then run* attempt (sync_dir h (hb_scope b ++ [INTENTS])) in ret tt else ret tt)
  end.

(** One file of the loop of [reserve]. *)
Record missing : Type := mkMissing { mi_unique : gset string; mi_bytes : Z; mi_objects : Z }.

Definition missing_file (m : missing) (f : SnapshotFile) : W missing :=
  let* digest := of_res (parse_digest (file_digest f)) in
  let name := hex_encode digest in
  if bool_decide (name ∈ mi_unique m) then ret m
  else
    let* n := stat h (content ++ [name]) in
    let present := match n with Ok (Regular i _) => id_size i =? file_size f | _ => false end in
    if present then ret (mkMissing ({[name]} ∪ mi_unique m) (mi_bytes m) (mi_objects m))
    else
      let* bytes := of_res (ok_or (checked_add (mi_bytes m) (file_size f)) (limit "hydration reservation overflow")) in
      ret (mkMissing ({[name]} ∪ mi_unique m) bytes (mi_objects m + 1)).

Definition sum_pages (pages : list (string * bytes)) (over : string) : Res Z :=
  for_each (fun n p => ok_or (checked_add n (zlen (snd p))) (limit over)) 0 pages.

(** The charge and the entries of a hydration. *)
Definition hydration_charge (m : missing) (manifest_bytes files : Z) (pages : list (string * bytes)) : Run (Z * Z) :=
  let? proof_bytes := lift (sum_pages pages "metadata reservation overflow") in
  let journal_chunks := manifest_bytes / (128 * 1024) + files / 64 + 2 in
  let? control := ok_or (n ← checked_add (zlen pages) journal_chunks; checked_add n 64)
                    (Failed (limit "hydration control reservation overflow")) in
  let? manifests := ok_or (checked_mul manifest_bytes 16) (Failed (limit "hydration metadata reservation overflow")) in
  let overflow := Failed (limit "hydration reservation overflow") in
  let? metadata := ok_or (n ← checked_add (mi_bytes m) manifests; k ← checked_mul proof_bytes 3; checked_add n k) overflow in
  let? writes := ok_or (checked_add (mi_objects m) control) Panicked in
  let? charge := ok_or (k ← checked_mul writes INTENT_CHARGE; checked_add metadata k) overflow in
  let? entries := ok_or (n ← checked_mul writes 3; checked_add n 8) (Failed (limit "cache entry reservation overflow")) in
  Ok (charge, entries).

(** [HydrationBudget::reserve]. *)
Definition reserve (manifest : list SnapshotFile) (closure : option ValidatedSnapshotClosure) : M (option nat) :=
  let^ scope := mrun (managed_scope h outer content) in
  match scope with
  | None => mret None
  | Some scope =>
      run^ mrun (lock_in h scope FENCE) in
      let^ binding := mrun (require_owner h sid id) in
      run^ mrun (validate_store h binding sid id) in
      let^ limits := mrun (policy_of h scope) in
      guard^ max_root_nodes limits <? zlen manifest with limit "hydration reservation entry budget exceeded" in
      let^ manifest_bytes := mof (lift (serialized_size manifest (max_inventory_bytes limits))) in
      let^ m := mrun (fold_w missing_file (mkMissing ∅ 0 0) manifest) in
      let^ total := mof (hydration_charge m manifest_bytes (zlen manifest)
                           (match closure with Some c => vc_pages c | None => [] end)) in
      let^ n := reserve_charge scope binding limits total.1 total.2 false in
      mret (Some n)
  end.

(** [HydrationBudget::reserve_root]. *)
Definition reserve_root (scope : rpath) (limits : CacheLimits) (binding : WorkspaceBinding)
    (closure : ValidatedSnapshotClosure) (record_bytes : Z) : M nat :=
  run^ mrun (lock_in h scope FENCE) in
  let over := limit "root reservation overflow" in
  let^ writes := mof (ok_or (checked_add (zlen (vc_pages closure)) 2) (Failed over)) in
  let^ bytes := mof (lift (sum_pages (vc_pages closure) "root reservation overflow")) in
  let^ charge := mof (ok_or (n ← checked_add bytes (zlen (vc_descriptor_bytes closure)); n ← checked_add n record_bytes;
                             k ← checked_mul writes INTENT_CHARGE; checked_add n k) (Failed over)) in
  let^ entries := mof (ok_or (n ← checked_mul writes 3; checked_add n 8) (Failed (limit "root entry reservation overflow"))) in
  reserve_charge scope binding limits charge entries true.

(** [write_use]. *)
Definition write_use (record : WorkspaceUse) : M unit :=
  let^ scope := mrun (managed_scope h outer content) in
  run^ match scope with
       | Some scope =>
           let^ limits := mrun (policy_of h scope) in
           run^ mof (lift (serialized_size record (max_record_bytes limits))) in
           mret tt
       | None => mret tt
       end in
  let^ b := mof (lift (map_err json_error (to_json record))) in
  write_atomic h outer pid root USE_RECORD b.

(** [read_optional_record] of the use. *)
Definition optional_use (limits : CacheLimits) : W (option WorkspaceUse) :=
  let* b := read_optional_bytes h (root ++ [USE_RECORD]) (max_record_bytes limits) in
  match b with
  | None => ret None
  | Some b => of_res (let? u := from_slice b in Ok (Some u))
  end.

Definition register_cache_use (binding : WorkspaceBinding) : M unit :=
  let^ scope := mrun (managed_scope h outer content) in
  match scope with
  | None => mret tt
  | Some _ =>
      let^ scope := mrun (managed_scope h outer content) in
      let^ scope := mof (ok_or scope Panicked) in
      let^ limits := mrun (policy_of h scope) in
      let^ record := mrun (optional_use limits) in
      match record with
      | Some u =>
          if (wu_revision u =? 1) && bool_decide (wu_binding u = binding) then
            if wu_retired u then write_use (mkUse (wu_revision u) (wu_binding u) false None []) else mret tt
          else mfail (integrity "workspace cache use binding changed")
      | None => write_use (mkUse 1 binding false None [])
      end
  end.

Definition cache_retention_known : W bool :=
  let* scope := managed_scope h outer content in
  match scope with
  | None => ret false
  | Some scope =>
      run* transaction in
      let* binding := require_owner h sid id in
      let* limits := policy_of h scope in
      let* u := read_record h (T := WorkspaceUse) (root ++ [USE_RECORD]) (max_record_bytes limits) in
      guard* negb (wu_revision u =? 1) || negb (bool_decide (wu_binding u = binding)) with integrity "cache use binding changed" in
      ret (negb (wu_retired u) && bool_decide (is_Some (wu_descriptor u)))
  end.

(** The comparison of the stored proof with the closure. *)
Definition stored_page (pages_dir : rpath) (same : bool) (p : string * bytes) : W bool :=
  let* digest := of_res (parse_digest p.1) in
  let* b := read_optional_bytes h (pages_dir ++ [hex_encode digest]) PAGE_MAX_BYTES in
  ret (same && bool_decide (b = Some p.2)).

Definition stored_proof (directory : rpath) (limits : CacheLimits) (closure : ValidatedSnapshotClosure) : W bool :=
  let* b := read_optional_bytes h (directory ++ ["descriptor.msd2"]) (max_record_bytes limits) in
  fold_w (stored_page (directory ++ ["pages"])) (bool_decide (b = Some (vc_descriptor_bytes closure))) (vc_pages closure).

(** The record a promotion leaves, within the limits of the scope. *)
Definition promoted_use (limits : CacheLimits) (binding : WorkspaceBinding) (closure : ValidatedSnapshotClosure)
    : Res (WorkspaceUse * bytes) :=
  reject? (max_entries limits <? zlen (vc_pages closure))
          || (max_root_nodes limits <? saturating_add (zlen (vc_files closure)) (zlen (vc_directories closure)))
    with limit "retention root entry budget exceeded" in
  let? total := sum_pages (vc_pages closure) "retention metadata size overflow" in
  reject? max_metadata_bytes limits <? total with limit "retention metadata budget exceeded" in
  reject? max_record_bytes limits <? saturating_add (saturating_mul (zlen (vc_pages closure)) 128) CONTROL_BYTES
    with limit "retention page-record budget exceeded before allocation" in
  let pages := (fun p => mkPage p.1 (zlen p.2)) <$> vc_pages closure in
  let record := mkUse 1 binding false (Some (digest_of (vc_descriptor_bytes closure))) pages in
  let? _ := serialized_size record (max_record_bytes limits) in
  let? encoded := map_err json_error (to_json record) in
  Ok (record, encoded).

(** The publication of the proof and of the record. *)
Definition publish_proof (closure : ValidatedSnapshotClosure) (encoded : bytes) : M unit :=
  let directory := root ++ [RETENTION_DIR] in
  let pages_dir := directory ++ ["pages"] in
  run^ mrun (io (create_dir_all_no_symlink h pages_dir)) in
  run^ mfold (fun _ p => let^ digest := mof (lift (parse_digest p.1)) in
                         write_atomic h outer pid pages_dir (hex_encode digest) p.2) tt (vc_pages closure) in
  run^ write_atomic h outer pid directory "descriptor.msd2" (vc_descriptor_bytes closure) in
  write_atomic h outer pid root USE_RECORD encoded.

Definition retain_snapshot_root (closure : ValidatedSnapshotClosure) : M unit :=
  let^ scope := mrun (managed_scope h outer content) in
  match scope with
  | None => mret tt
  | Some scope =>
      run^ mrun transaction in
      let^ binding := mrun (require_owner h sid id) in
      run^ mrun (validate_store h binding sid id) in
      guard^ negb (String.eqb (snapshot_id (vc_descriptor closure)) (wb_snapshot_id binding))
             || negb (String.eqb (Wire.scope (vc_descriptor closure)) (wb_scope binding))
        with integrity "retention root differs from workspace fixed view" in
      let^ limits := mrun (policy_of h scope) in
      let^ now := mrun (read_record h (T := WorkspaceUse) (root ++ [USE_RECORD]) (max_record_bytes limits)) in
      guard^ negb (wu_revision now =? 1) || negb (bool_decide (wu_binding now = binding)) || wu_retired now
        with integrity "metadata promotion requires the current unretired workspace use" in
      let^ promoted := mof (lift (promoted_use limits binding closure)) in
      let '(record, encoded) := promoted in
      let^ same := (if bool_decide (now = record) then mrun (stored_proof (root ++ [RETENTION_DIR]) limits closure) else mret false) in
      if same then mret tt
      else
        let^ n := reserve_root scope limits (wu_binding record) closure (zlen encoded) in
        let^ result := mtry (publish_proof closure encoded) in
        run^ drop_budget n in
        mof result
  end.

(** [Path::try_exists]. *)
Definition try_exists (p : rpath) : W bool := io (look h (fun t => Ok (bool_decide (is_Some (t !! p))))).

(** The checks of [retire_cache_use]. *)
Definition retirable (scope : rpath) : W WorkspaceUse :=
  run* transaction in
  let* binding := require_owner h sid id in
  let* limits := policy_of h scope in
  let* u := read_record h (T := WorkspaceUse) (root ++ [USE_RECORD]) (max_record_bytes limits) in
  guard* negb (wu_revision u =? 1) || negb (bool_decide (wu_binding u = binding))
    with integrity "retired cache use binding changed" in
  let* complete := try_exists (root ++ ["DURABLE_COMPLETE"]) in
  let* pinned := (if complete then ret true else try_exists (root ++ ["pin.json"])) in
  guard* pinned with integrity "cache use cannot retire a retained complete pin" in
  let* now := read_clock h in
  let* owners := discover_retention_owners h limits (now + max_scan_millis limits) in
  guard* negb (existsb (fun o => bool_decide (ro_binding o = binding) && ro_released o && ro_finished o) owners)
    with integrity "cache use retirement requires completed owner revocation" in
  ret u.

Definition retire_cache_use : M unit :=
  let^ scope := mrun (managed_scope h outer content) in
  match scope with
  | None => mret tt
  | Some scope =>
      let^ u := mrun (retirable scope) in
      write_use (mkUse (wu_revision u) (wu_binding u) true (wu_descriptor u) (wu_pages u))
  end.

Context `{RecordCodec}.

(** [compact_journal]: the size of the manifest is what is admitted, the lines
    of its records are what is written. *)
Definition compact_journal (manifest : list SnapshotFile) : M unit :=
  let^ scope := mrun (managed_scope h outer content) in
  let^ most := match scope with
               | Some scope => let^ limits := mrun (inventory_limits h outer scope) in mret (max_inventory_bytes limits)
               | None => mret u64_max
               end in
  let^ maximum := mof (lift (serialized_size manifest most)) in
  let^ admission := begin h outer root Journal.JOURNAL_FILE maximum in
  let^ tmp := mrun (writer_temporary h pid root Journal.JOURNAL_FILE admission) in
  let^ result := mtry (mrun (
    run* local_io (create_new h tmp) in
    let* lines := of_res (Journal.encode_lines (Journal.record_of <$> manifest)) in
    run* local_io (write_all h tmp lines) in
    run* local_io (sync_all h) in
    run* local_io (rename h tmp (root ++ [Journal.JOURNAL_FILE])) in
    sync_dir h root)) in
  run^ (if is_ok result then mret tt else run^ mtry (mrun (local_io (remove_file h tmp))) in mret tt) in
  run^ mrun (retire h admission) in
  mof result.

(** [admit_owner] of the scope directory. *)
Definition admit_owner : W unit :=
  let* managed := managed_scope h outer [] in
  match managed with
  | None => ret tt
  | Some _ =>
      run* lock h OWNER_ADMISSION_LOCK in
      let* limits := policy h in
      let* now := read_clock h in
      let* owners := discover_retention_owners h limits (now + max_scan_millis limits) in
      guard* (max_owners limits <=? zlen owners)
             && negb (existsb (fun o => String.eqb (workspace_id (ro_binding o)) id) owners)
        with limit "managed workspace owner capacity exhausted" in
      ret tt
  end.
End Workspace.

(** ** Streamed files *)

(** [tag_hydration_error] on the error of a program. *)
Definition tag_failed {A : Type} (stage : HydrationSubstage) (r : Run A) : Run A :=
  match r with Err (Failed e) => Err (Failed (tag_hydration_error stage e)) | _ => r end.
Definition tagged {A : Type} (stage : HydrationSubstage) (c : W A) : W A := fun s => let (r, s) := c s in (tag_failed stage r, s).
Definition mtagged {A : Type} (stage : HydrationSubstage) (c : M A) : M A := fun p => let* x := c p in ret (tag_failed stage x.1, x.2).

Section Stream.
Context `{HexCrate} `{Sha256} `{ChunkCodec} `{RetentionCodec} (h : host) (outer : Res unit) (pid : string).
(** The file, whether two ranges are read at once, and what a range reads as;
    every range is read once. *)
Context (f : SnapshotFile) (prefetch_chunks : bool) (read_range : Z -> Z -> Res bytes).

(** The ranges of one round. *)
Definition read_ranges (offset : Z) : Res (list (Z * Z * bytes)) :=
  let length := Z.min (file_size f - offset) CHUNK_SIZE in
  let next_offset := offset + length in
  if prefetch_chunks && (next_offset <? file_size f) then
    let next_length := Z.min (file_size f - next_offset) CHUNK_SIZE in
    let? first := read_range offset length in
    let? second := read_range next_offset next_length in
    Ok [(offset, length, first); (next_offset, next_length, second)]
  else
    let? first := read_range offset length in
    Ok [(offset, length, first)].

(** One range is hashed and written; the gate is the blocking task. *)
Definition append_range (tmp : rpath) (st : Z * bytes) (r : Z * Z * bytes) : W (Z * bytes) :=
  let '(offset, hashed) := st in
  let '(range_offset, range_length, owner) := r in
  guard* negb (range_offset =? offset) || negb (zlen owner =? range_length)
    with tag_hydration_error LargeChunkRead (integrity_err "streamed chunk does not cover the expected file range") in
  run* gate h in
  run* tagged LargeCasWrite (local_io (append_all h tmp owner)) in
  ret (offset + range_length, hashed ++ owner).

Fixpoint append_ranges (fuel : nat) (tmp : rpath) (offset : Z) (hashed : bytes) : W bytes :=
  if file_size f <=? offset then ret hashed
  else
    match fuel with
    | O => of_run (Err OutOfFuel)
    | S fuel =>
        let* ranges := tagged LargeChunkRead (of_res (read_ranges offset)) in
        let* ' (offset, hashed) := fold_w (append_range tmp) (offset, hashed) ranges in
        append_ranges fuel tmp offset hashed
    end.

(** What the file holds is written, compared with the digest and made durable. *)
Definition stream_into (tmp : rpath) : W unit :=
  let* hashed := append_ranges (Z.to_nat (file_size f)) tmp 0 [] in
  guard* negb (String.eqb (digest_of hashed) (file_digest f))
    with tag_hydration_error LargeChunkRead (SnapshotError_new DigestMismatch
           (rel_path f ++ ": streamed file does not match whole-content digest")) in
  run* gate h in
  tagged LargeCasWrite (local_io (sync_all h)).

(** The temporary file is made, and goes when it cannot be filled. *)
Definition stream_temporary (tmp : rpath) : W unit :=
  run* tagged LargeCasWrite (local_io (create_new h tmp)) in
  let* result := attempt (stream_into tmp) in
  run* (if is_ok result then ret tt else run* attempt (local_io (remove_file h tmp)) in ret tt) in
  of_run result.

(** [write_reader_blob_stream]; once the file is filled, the admission goes
    before what is left of the temporary file. *)
Definition write_reader_blob_stream (dir : rpath) (reservation : option nat) : M unit :=
  run^ mrun (tagged LargeCasWrite (create_dirs_durable h dir)) in
  let name := Durable.blob_name (file_digest f) in
  let^ admission := mtagged LargeCasWrite (begin_with_budget h outer dir name (file_size f) reservation) in
  let^ tmp := mrun (writer_temporary h pid dir name admission) in
  let^ filled := mtry (mrun (stream_temporary tmp)) in
  if is_ok filled then
    let^ published := mtry (mrun (
      run* tagged LargeCasWrite (local_io (rename h tmp (dir ++ [name]))) in
      tagged LargeCasWrite (sync_dir h dir))) in
    run^ mrun (retire h admission) in
    run^ mtry (mrun (local_io (remove_file h tmp))) in
    mof published
  else
    run^ mrun (retire h admission) in
    mof filled.
End Stream.
End Admission.
