(* ===== verification/AdmissionFacts.v ===== *)
(** * AdmissionFacts

    The account of a managed scope: the files in it and the credit that is
    still out are covered by its ledger. Each operation on the tree pays for
    the files it adds. *)

From S2P Require Import Prelude Types Faults Text Profile Btree Frames Wire Closure Disk Records Pins Journal Durable Capacity Incremental ScopeTree Owners Inventory Retention Admission InventoryFacts OwnersFacts.
Import Pins Owners Digests Scope Closure Records Capacity ScopeTree Inventory Retention Admission InventoryFacts OwnersFacts.
Local Open Scope string_scope.
Local Open Scope list_scope.
Local Open Scope Z_scope.

Module AdmissionFacts.

(** ** Sums over a map *)

Section Sums.
Context {K A : Type} `{Countable K} (f : K -> A -> Z).

Definition map_sum (m : gmap K A) : Z := foldr (fun e n => f e.1 e.2 + n) 0 (map_to_list m).
Definition at_key (m : gmap K A) (k : K) : Z := match m !! k with Some a => f k a | None => 0 end.

Lemma map_sum_fresh m k a : m !! k = None -> map_sum (<[k := a]> m) = f k a + map_sum m.
Proof.
  intros Hk. unfold map_sum. pose proof (map_to_list_insert m k a Hk) as Hp.
  change (f k a + foldr _ 0 (map_to_list m)) with (foldr (fun e n => f e.1 e.2 + n) 0 ((k, a) :: map_to_list m)).
  induction Hp; simpl in *; lia.
Qed.
Lemma map_sum_delete m k : map_sum (delete k m) = map_sum m - at_key m k.
Proof.
  unfold at_key. destruct (m !! k) as [a|] eqn:E; [|rewrite delete_id by done; lia].
  rewrite <- (insert_delete_id m k a) at 2 by done. rewrite map_sum_fresh by apply lookup_delete_eq. lia.
Qed.
Lemma map_sum_insert m k a : map_sum (<[k := a]> m) = map_sum m - at_key m k + f k a.
Proof. rewrite <- insert_delete_eq, map_sum_fresh by apply lookup_delete_eq. rewrite map_sum_delete. lia. Qed.
Lemma map_sum_nonneg m : (forall k a, m !! k = Some a -> 0 <= f k a) -> 0 <= map_sum m.
Proof.
  intros Hf. unfold map_sum. assert (Hall : Forall (fun e => 0 <= f e.1 e.2) (map_to_list m)).
  { apply list.Forall_forall. intros [k a] Hin%elem_of_map_to_list. by apply Hf. }
  induction Hall; simpl; lia.
Qed.
End Sums.

(** ** The charge of the files *)

(** Locks, the two records of the scope and the records of reservations, with
    their temporaries, are written without an admission: the reserve of the
    ledger is for them. A reservation is named by a UUID of 36 characters. *)
Definition lock_name (n : string) : bool := bool_decide (is_Some (strip_suffix ".lock" n)).
Fixpoint skip (k : nat) (s : string) : string :=
  match k, s with
  | S k, String _ s => skip k s
  | _, _ => s
  end.
Definition reservation_name (n : string) : bool :=
  starts_with ".hydrate.json" (skip 36 n) || starts_with ".hydrate.json" (skip 37 n).
Definition uncharged (p : rpath) : bool :=
  match file_name p with Some n => lock_name n | None => false end
  || match p with
     | [n] => one_of n [POLICY; LEDGER] || starts_with ("." ++ POLICY ++ ".tmp.") n || starts_with ("." ++ LEDGER ++ ".tmp.") n
     | [dir; n] => String.eqb dir INTENTS && reservation_name n
     | _ => false
     end.

(** Every other regular file counts its size and the fixed charge. *)
Definition weight (p : rpath) (n : node) : Z :=
  match n with
  | Regular id _ => if uncharged p then 0 else ENTRY_CHARGE + id_size id
  | _ => 0
  end.
Definition files_charge (t : tree) : Z := map_sum weight t.

Lemma files_below t : sizes_ok t -> files_charge t <= tree_charge t.
Proof.
  intros Hok. unfold files_charge, map_sum, tree_charge, charge_of.
  assert (Hall : Forall (fun e => weight e.1 e.2 <= ENTRY_CHARGE + node_size e.2) (map_to_list t)).
  { apply list.Forall_forall. intros [p n] Hin%elem_of_map_to_list. unfold weight, ENTRY_CHARGE. simpl.
    destruct n as [id b| |]; simpl; [|lia..]. specialize (Hok _ _ _ Hin). destruct (uncharged p); lia. }
  induction Hall as [|e l He Hl IH]; cbn [foldr fmap list_fmap]; [done|]. fold (charge_of ((fun e => node_size e.2) <$> l)) in *. lia.
Qed.

(** ** Well-formed trees *)

Lemma in_folder_snoc t p n : in_folder t (p ++ [n]) = true <-> p = [] \/ t !! p = Some Folder.
Proof.
  unfold in_folder, parent. rewrite length_app, Nat.add_sub, take_app_length. destruct p as [|x p]; [by split; auto|].
  destruct (t !! (x :: p)) as [[]|]; split; (done || by right || by intros [|]).
Qed.

Lemma wf_in_folder t p : wf_tree t -> is_Some (t !! p) -> in_folder t p = true.
Proof.
  intros Hwf Hp. destruct p as [|n q _] using rev_ind; [done|]. apply in_folder_snoc. by eapply wf_parent.
Qed.

Lemma snoc_self {A : Type} (p : list A) n : p ++ [n] <> p.
Proof. intros E. apply (f_equal length) in E. rewrite length_app in E. simpl in E. lia. Qed.

Lemma wf_insert t p x :
  wf_tree t -> p <> [] -> in_folder t p = true -> (t !! p = Some Folder -> x = Folder) ->
  (forall id b, x = Regular id b -> id_size id = zlen b) -> wf_tree (<[p := x]> t).
Proof.
  intros [Hr Hp Hs] Hne Hin Hdir Hx. split.
  - by rewrite lookup_insert_ne.
  - intros q n Hq. assert (Hq' : q = [] \/ t !! q = Some Folder).
    { destruct (decide (q ++ [n] = p)) as [<-|Hd]; [by apply in_folder_snoc in Hin|]. rewrite lookup_insert_ne in Hq by done. eauto. }
    destruct Hq' as [->|E]; [by left|right]. destruct (decide (p = q)) as [->|Hd].
    + rewrite lookup_insert_eq. f_equal. auto.
    + by rewrite lookup_insert_ne.
  - intros q id b. destruct (decide (p = q)) as [->|Hd]; [rewrite lookup_insert_eq|rewrite lookup_insert_ne by done; apply Hs].
    intros [= ->]. auto.
Qed.

Lemma wf_delete t p : wf_tree t -> t !! p <> Some Folder -> wf_tree (delete p t).
Proof.
  intros [Hr Hp Hs] Hne. split.
  - apply lookup_delete_None. by right.
  - intros q n [x Hx]. apply lookup_delete_Some in Hx as [_ Hx]. destruct (Hp q n) as [->|E]; [eauto|by left|right].
    rewrite lookup_delete_ne; [done|]. by intros ->.
  - intros q id b Hq. apply lookup_delete_Some in Hq as [_ Hq]. eauto.
Qed.

(** ** The account *)

Section Account.
Context `{RetentionCodec}.

(** The limits in the policy of a scope, and its ledger. *)
Definition limited (t : tree) (l : CacheLimits) : Prop :=
  exists p, stored t (T := CapacityPolicy) [POLICY] p /\ cp_limits p = l.
Definition ledger (t : tree) (c : Charges) : Prop := stored t (T := Charges) [LEDGER] c.

(** A scope that is managed with some limits, where a credit [K] beyond the
    files is covered; or one that is not managed. No directory below has a
    policy of its own. *)
Record acct (managed : option CacheLimits) (K : Z) (t : tree) : Prop := {
  ac_wf : wf_tree t;
  ac_root : forall p, is_Some (t !! (p ++ [POLICY])) -> p = [];
  ac_sum : match managed with
           | Some l => exists c, limited t l /\ ledger t c /\ files_charge t + K <= ch_bytes c /\ files_charge t + K <= max_bytes l
           | None => t !! [POLICY] = None
           end;
}.

Lemma stored_same {T} `{Serde T} (t t' : tree) p (x : T) : t' !! p = t !! p -> stored t p x -> stored t' p x.
Proof. intros E (b & (id & Hb) & Hx). exists b. split; [|done]. exists id. by rewrite E. Qed.

Lemma acct_step m K K' t t' :
  acct m K t -> wf_tree t' -> (forall p, is_Some (t' !! (p ++ [POLICY])) -> is_Some (t !! (p ++ [POLICY]))) ->
  t' !! [POLICY] = t !! [POLICY] -> t' !! [LEDGER] = t !! [LEDGER] -> files_charge t' + K' <= files_charge t + K -> acct m K' t'.
Proof.
  intros [Hwf Hroot Hsum] Hwf' Hin Hp Hl Hle. split; [done|auto|].
  destruct m as [l|]; [|by rewrite Hp]. destruct Hsum as (c & (x & Hx & El) & Hc & H1 & H2). exists c.
  split_and!; [exists x; split; [by eapply stored_same|done]|by eapply stored_same|lia|lia].
Qed.

Lemma acct_less m K K' t : K' <= K -> acct m K t -> acct m K' t.
Proof. intros Hle Ht. eapply acct_step; eauto using ac_wf. lia. Qed.

(** A path that no operation of a writer may confuse with the records of the
    scope. *)
Definition plain (p : rpath) : Prop := file_name p <> Some POLICY /\ p <> [LEDGER] /\ p <> [].

Lemma plain_not p q : plain p -> p <> q ++ [POLICY].
Proof. intros (Hp & _) ->. apply Hp. unfold file_name. by rewrite last_snoc. Qed.

Lemma plain_insert m K K' t p x :
  plain p -> acct m K t -> in_folder t p = true -> (t !! p = Some Folder -> x = Folder) ->
  (forall id b, x = Regular id b -> id_size id = zlen b) -> K' + weight p x <= K + at_key weight t p -> acct m K' (<[p := x]> t).
Proof.
  intros Hp Ht Hin Hdir Hx Hle. assert (Hne : p <> [POLICY]) by (by apply (plain_not p [])). destruct Hp as (Hpn & Hl & H0).
  eapply acct_step; [exact Ht|by apply wf_insert; [apply Ht|..]| | | |].
  - intros q Hq. rewrite lookup_insert_ne in Hq; [done|]. by apply plain_not.
  - by rewrite lookup_insert_ne.
  - by rewrite lookup_insert_ne.
  - unfold files_charge. rewrite map_sum_insert. lia.
Qed.

Lemma plain_delete m K t p :
  plain p -> acct m K t -> t !! p <> Some Folder -> acct m (K + at_key weight t p) (delete p t).
Proof.
  intros Hp Ht Hd. assert (Hne : p <> [POLICY]) by (by apply (plain_not p [])). destruct Hp as (Hpn & Hl & H0).
  eapply acct_step; [exact Ht|apply wf_delete; [apply Ht|done]| | | |].
  - intros q [x Hq]. apply lookup_delete_Some in Hq as [_ Hq]. eauto.
  - by rewrite lookup_delete_ne.
  - by rewrite lookup_delete_ne.
  - unfold files_charge. rewrite map_sum_delete. lia.
Qed.

Lemma weight_nonneg t p : wf_tree t -> 0 <= at_key weight t p.
Proof.
  intros Hwf. unfold at_key, weight. destruct (t !! p) as [[id b| |]|] eqn:E; try done.
  destruct (uncharged p); [done|]. rewrite (wf_size _ Hwf _ _ _ E). unfold ENTRY_CHARGE, zlen. lia.
Qed.

(** ** Paying programs *)

(** With a credit of [n] beyond any [K], [c] keeps [K] covered in every tree and
    has [k] left when it succeeds. *)
Definition pays {A : Type} (m : option CacheLimits) (n : Z) (c : W A) (k : Z) (Q : A -> Prop) : Prop :=
  forall K, hoare (acct m K) (acct m (K + n)) c (fun a t => Q a /\ acct m (K + k) t).

Lemma pays_ret {A : Type} m n k (a : A) (Q : A -> Prop) : k <= n -> Q a -> pays m n (ret a) k Q.
Proof. intros Hk Ha K. apply hoare_ret. intros t Ht. split; [done|]. eapply acct_less; [|exact Ht]. lia. Qed.

Lemma pays_bind {A B : Type} m n j k (c : W A) (f : A -> W B) P Q :
  pays m n c j P -> (forall a, P a -> pays m j (f a) k Q) -> pays m n (bind c f) k Q.
Proof. intros Hc Hf K. eapply hoare_bind; [apply Hc|]. intros a. simpl. apply hoare_pure. intros Ha. by apply Hf. Qed.

Lemma pays_frame {A : Type} m n k j (c : W A) Q : 0 <= j -> pays m n c k Q -> pays m (n + j) c (k + j) Q.
Proof.
  intros Hj Hc K. specialize (Hc (K + j)). eapply hoare_invariant; [intros t; apply (acct_less m (K + j)); lia|].
  eapply hoare_pre; [|eapply hoare_weaken; [exact Hc|]].
  - intros t. apply acct_less. lia.
  - intros a t [Ha Ht]. split; [done|]. eapply acct_less; [|exact Ht]. lia.
Qed.

Lemma pays_weaken {A : Type} m n n' k k' (c : W A) (Q Q' : A -> Prop) :
  n - k <= n' - k' -> n <= n' -> pays m n c k Q -> (forall a, Q a -> Q' a) -> pays m n' c k' Q'.
Proof.
  intros Hd Hn Hc Hq. destruct (decide (k' <= k)) as [Hk|Hk].
  - intros K. apply (hoare_pre _ _ (acct m (K + n))); [intros t; apply acct_less; lia|]. eapply hoare_weaken; [apply Hc|].
    intros a t [Ha Ht]. split; [auto|]. eapply acct_less; [|exact Ht]. lia.
  - assert (Hf := pays_frame m n k (k' - k) c Q ltac:(lia) Hc). intros K. specialize (Hf K).
    eapply hoare_pre; [|eapply hoare_weaken; [exact Hf|]].
    + intros t. apply acct_less. lia.
    + intros a t [Ha Ht]. split; [auto|]. eapply acct_less; [|exact Ht]. lia.
Qed.

Lemma pays_sees {A : Type} m n (c : W A) (P : A -> Prop) : 0 <= n -> (forall t, wf_tree t -> sees t c P) -> pays m n c n P.
Proof.
  intros Hn Hc K s Hs. destruct (Hc (s_tree s) (ac_wf _ _ _ Hs) s eq_refl) as (E1 & E2 & E3). split; [exists []; by rewrite app_nil_r|].
  rewrite E1. destruct (c s).1 as [a|[]]; try done. eapply acct_less; [|exact Hs]. lia.
Qed.

Lemma pays_attempt {A : Type} m n k (c : W A) Q :
  0 <= k -> pays m n c k Q ->
  pays m n (attempt c) 0 (fun r => match r with Ok a => Q a | Err (Failed _) => True | Err _ => False end).
Proof.
  intros Hk Hc K. eapply hoare_weaken; [apply hoare_attempt, Hc|]. intros [a|[e| |]] t; simpl; [|intros Ht|done|done].
  - intros [Ha Ht]. split; [done|]. eapply acct_less; [|exact Ht]. lia.
  - split; [done|]. eapply acct_less; [|exact Ht]. lia.
Qed.

Lemma pays_fail {A : Type} m n k e (Q : A -> Prop) : 0 <= n -> pays m n (fail e) k Q.
Proof.
  intros Hn K s Hs. split; [exists []; by rewrite app_nil_r|]. simpl. eapply acct_less; [|exact Hs]. lia.
Qed.

(** ** Operations on the tree *)

Section Operations.
Context (h : host) (m : option CacheLimits).

(** An operation whose failure is an error of the program. *)
Definition io_as {A : Type} (g : io_error -> SnapshotError) (c : W (result io_error A)) : W A :=
  bind c (fun r => of_res (map_err g r)).

(** In every case [K] stays covered, and [k] is left where it succeeds. *)
Definition settles {A : Type} (n k : Z) (f : nat -> tree -> result io_error A * tree) : Prop :=
  forall K j t, acct m (K + n) t -> acct m K (f j t).2 /\ (forall a, (f j t).1 = Ok a -> acct m (K + k) (f j t).2).

Lemma pays_raw {A : Type} (n k : Z) (f : nat -> tree -> result io_error A * tree) :
  0 <= n -> 0 <= k -> settles n k f -> pays m n (change h f) 0 (fun _ => True).
Proof.
  intros Hn Hk Hf K s Hs. assert (Hnow : acct m K (s_tree s)) by (eapply acct_less; [|exact Hs]; lia).
  destruct (Hf K (s_clock s) _ Hs) as [H1 _]. unfold change.
  destruct (h_fault h (s_clock s)) as [[[] e]|]; simpl; [| |destruct (f _ _) as [r t] eqn:Ef; simpl in *];
    rewrite Z.add_0_r; (split; [eexists; split; [done|]; by apply Forall_singleton|done]).
Qed.

Lemma pays_change {A : Type} (g : io_error -> SnapshotError) (n k : Z) (f : nat -> tree -> result io_error A * tree) :
  0 <= n -> settles n k f -> pays m n (io_as g (change h f)) k (fun _ => True).
Proof.
  intros Hn Hf K s Hs. assert (Hnow : acct m K (s_tree s)) by (eapply acct_less; [|exact Hs]; lia).
  destruct (Hf K (s_clock s) _ Hs) as [H1 H2]. unfold io_as, bind, change.
  destruct (h_fault h (s_clock s)) as [[[] e]|]; simpl.
  - split; [eexists; split; [done|]; by apply Forall_singleton|done].
  - split; [eexists; split; [done|]; by apply Forall_singleton|done].
  - destruct (f _ _) as [r t]. simpl in *. split; [eexists; split; [done|]; by apply Forall_singleton|].
    destruct r; simpl; [split; [done|]; by eapply H2|done].
Qed.

Lemma pays_look {A : Type} (g : io_error -> SnapshotError) (n : Z) (f : tree -> result io_error A) : 0 <= n -> pays m n (io_as g (look h f)) n (fun _ => True).
Proof.
  intros Hn. apply pays_sees; [done|]. intros t _. unfold io_as. eapply sees_bind; [apply sees_look|]. intros r _. by apply sees_of_res.
Qed.

(** What a file of some size costs. *)
Definition cost (p : rpath) (size : Z) : Z := if uncharged p then 0 else ENTRY_CHARGE + size.
Definition byte_cost (p : rpath) (size : Z) : Z := if uncharged p then 0 else size.

Lemma cost_nonneg p n : 0 <= n -> 0 <= cost p n.
Proof. unfold cost, ENTRY_CHARGE. destruct (uncharged p); lia. Qed.

Lemma new_file (K k : Z) t p stamp :
  plain p -> acct m (K + cost p 0 + k) t -> t !! p = None -> in_folder t p = true ->
  acct m (K + k) (<[p := Regular (mkIdentity 0 stamp) []]> t).
Proof.
  intros Hp Ht Hnone Hin. eapply plain_insert; [done|exact Ht|done|by rewrite Hnone|by intros id b [= <- <-]|].
  unfold at_key. rewrite Hnone. simpl. unfold cost. destruct (uncharged p); lia.
Qed.

Lemma pays_create (g : io_error -> SnapshotError) p (n k : Z) : plain p -> 0 <= k -> cost p 0 + k <= n -> pays m n (io_as g (create_new h p)) k (fun _ => True).
Proof.
  intros Hp Hk Hn. pose proof (cost_nonneg p 0 ltac:(lia)) as Hc. apply pays_change; [lia|]. intros K j t Ht.
  destruct (t !! p) eqn:E; [split; [eapply acct_less; [|exact Ht]; lia|done]|].
  destruct (in_folder t p) eqn:Ein; [|split; [eapply acct_less; [|exact Ht]; lia|done]].
  assert (Hnew : acct m (K + k) (<[p := Regular (mkIdentity 0 (h_stamp h j)) []]> t)).
  { apply new_file; [done| |done|done]. eapply acct_less; [|exact Ht]. lia. }
  split; [eapply acct_less; [|exact Hnew]; lia|done].
Qed.

Lemma pays_open (g : io_error -> SnapshotError) p (n k : Z) : plain p -> 0 <= k -> cost p 0 + k <= n -> pays m n (io_as g (open_rw_create h p)) k (fun _ => True).
Proof.
  intros Hp Hk Hn. pose proof (cost_nonneg p 0 ltac:(lia)) as Hc. apply pays_change; [lia|]. intros K j t Ht.
  assert (Hsame : acct m K t /\ acct m (K + k) t) by (split; (eapply acct_less; [|exact Ht]; lia)). destruct Hsame as [Hs1 Hs2].
  destruct (t !! p) as [[]|] eqn:E; try (by split). destruct (in_folder t p) eqn:Ein; [|by split].
  assert (Hnew : acct m (K + k) (<[p := Regular (mkIdentity 0 (h_stamp h j)) []]> t)).
  { apply new_file; [done| |done|done]. eapply acct_less; [|exact Ht]. lia. }
  split; [eapply acct_less; [|exact Hnew]; lia|done].
Qed.

(** A file whose bytes are replaced by no more than [size] more. *)
Lemma new_bytes (K k : Z) t p id old stamp b (size : Z) :
  plain p -> acct m (K + byte_cost p size + k) t -> t !! p = Some (Regular id old) -> zlen b <= zlen old + size ->
  acct m (K + k) (<[p := Regular (mkIdentity (zlen b) stamp) b]> t).
Proof.
  intros Hp Ht E Hb. pose proof (ac_wf _ _ _ Ht) as Hwf.
  eapply plain_insert; [done|exact Ht|by apply wf_in_folder; eauto|by rewrite E|by intros i x [= <- <-]|].
  unfold at_key. rewrite E. simpl. rewrite (wf_size _ Hwf _ _ _ E). unfold byte_cost. destruct (uncharged p); lia.
Qed.

Lemma pays_write (g : io_error -> SnapshotError) p b (n k : Z) : plain p -> 0 <= k -> byte_cost p (zlen b) + k <= n -> pays m n (io_as g (write_all h p b)) k (fun _ => True).
Proof.
  intros Hp Hk Hn. pose proof (zlen_nonneg b) as Hb. assert (0 <= byte_cost p (zlen b)) by (unfold byte_cost; destruct (uncharged p); lia).
  apply pays_change; [lia|]. intros K j t Ht.
  destruct (t !! p) as [[id old| |]|] eqn:E; [|split; [eapply acct_less; [|exact Ht]; lia|done]..].
  assert (Hnew : acct m (K + k) (<[p := Regular (mkIdentity (zlen b) (h_stamp h j)) b]> t)).
  { eapply (new_bytes K k t p id old _ _ (zlen b)); [done| |exact E|]; [eapply acct_less; [|exact Ht]; lia|]. pose proof (zlen_nonneg old). lia. }
  split; [eapply acct_less; [|exact Hnew]; lia|done].
Qed.

Lemma pays_append (g : io_error -> SnapshotError) p b (n k : Z) : plain p -> 0 <= k -> byte_cost p (zlen b) + k <= n -> pays m n (io_as g (append_all h p b)) k (fun _ => True).
Proof.
  intros Hp Hk Hn. pose proof (zlen_nonneg b) as Hb. assert (0 <= byte_cost p (zlen b)) by (unfold byte_cost; destruct (uncharged p); lia).
  apply pays_change; [lia|]. intros K j t Ht.
  destruct (t !! p) as [[id old| |]|] eqn:E; [|split; [eapply acct_less; [|exact Ht]; lia|done]..].
  assert (Hnew : acct m (K + k) (<[p := Regular (mkIdentity (zlen (old ++ b)) (h_stamp h j)) (old ++ b)]> t)).
  { eapply (new_bytes K k t p id old _ _ (zlen b)); [done| |exact E|]; [eapply acct_less; [|exact Ht]; lia|]. unfold zlen. rewrite length_app. lia. }
  split; [eapply acct_less; [|exact Hnew]; lia|done].
Qed.

Lemma pays_rename (g : io_error -> SnapshotError) dir a b (n k : Z) :
  plain (dir ++ [a]) -> plain (dir ++ [b]) -> uncharged (dir ++ [a]) = false -> uncharged (dir ++ [b]) = false -> 0 <= k -> k <= n ->
  pays m n (io_as g (rename h (dir ++ [a]) (dir ++ [b]))) k (fun _ => True).
Proof.
  intros Hpa Hpb Hua Hub Hk Hn. apply pays_change; [lia|]. intros K j t Ht.
  assert (Hsame : acct m K t) by (eapply acct_less; [|exact Ht]; lia).
  destruct (t !! (dir ++ [a])) as [[id x| |]|] eqn:Ea; try (by split).
  assert (Hmove : t !! (dir ++ [b]) <> Some Folder ->
    acct m (K + k) (<[dir ++ [b] := Regular id x]> (delete (dir ++ [a]) t))).
  { intros Hb. eapply plain_insert; [done|apply plain_delete; [exact Hpa|exact Ht|by rewrite Ea]| | |by intros i y [= <- <-]; eapply wf_size; [apply Ht|exact Ea]|].
    - apply in_folder_snoc. destruct (wf_parent _ (ac_wf _ _ _ Ht) dir a) as [->|E]; [by rewrite Ea|by left|right].
      rewrite lookup_delete_ne; [done|apply snoc_self].
    - intros Hx. apply lookup_delete_Some in Hx as [_ Hx]. done.
    - unfold weight at 1. rewrite Hub. unfold at_key at 1. rewrite Ea. unfold weight. rewrite Hua.
      pose proof (weight_nonneg (delete (dir ++ [a]) t) (dir ++ [b])) as Hw. unfold weight in Hw.
      specialize (Hw (wf_delete _ _ (ac_wf _ _ _ Ht) ltac:(by rewrite Ea))). lia. }
  destruct (t !! (dir ++ [b])) as [[]|] eqn:Eb; try (by split);
    (split; [eapply acct_less; [|apply Hmove; done]; lia|intros _ _; by apply Hmove]).
Qed.

Lemma remove_settles p (n : Z) : plain p -> 0 <= n ->
  settles n n (fun _ t => match t !! p with
                          | Some Folder => (Err (OtherError "is a directory"), t)
                          | Some _ => (Ok tt, delete p t)
                          | None => (Err NotFound, t)
                          end).
Proof.
  intros Hp Hn K j t Ht. assert (Hsame : acct m K t) by (eapply acct_less; [|exact Ht]; lia).
  assert (Hdel : t !! p <> Some Folder -> acct m (K + n) (delete p t)).
  { intros Hd. eapply acct_less; [|by apply (plain_delete m (K + n))]. pose proof (weight_nonneg t p (ac_wf _ _ _ Ht)). lia. }
  destruct (t !! p) as [[]|] eqn:E; try (by split); (split; [eapply acct_less; [|by apply Hdel]; lia|intros _ _; by apply Hdel]).
Qed.

Lemma make_settles p (n : Z) : plain p -> 0 <= n ->
  settles n n (fun _ t => match t !! p with
                          | Some Folder => (Ok tt, t)
                          | Some _ => (Err AlreadyExists, t)
                          | None => if in_folder t p then (Ok tt, <[p := Folder]> t) else (Err NotFound, t)
                          end).
Proof.
  intros Hp Hn K j t Ht. assert (Hsame : acct m K t) by (eapply acct_less; [|exact Ht]; lia).
  destruct (t !! p) as [[]|] eqn:E; try (by split). destruct (in_folder t p) eqn:Ein; [|by split].
  assert (Hnew : acct m (K + n) (<[p := Folder]> t)).
  { eapply plain_insert; [done|exact Ht|done|done|done|]. unfold at_key. rewrite E. simpl. lia. }
  split; [eapply acct_less; [|exact Hnew]; lia|done].
Qed.
End Operations.
End Account.
End AdmissionFacts.
