(* ===== verification/AdmissionWriters.v ===== *)
(** * AdmissionWriters

    What the programs of one writer pay: locks, directories, the intents and
    the ledger, the publication of a file, and the removal of what is left. *)

From S2P Require Import Prelude Types Faults Text Profile Btree Frames Wire Closure Disk Records Pins Journal Durable Capacity Incremental ScopeTree Owners Inventory Retention Admission InventoryFacts OwnersFacts AdmissionFacts.
Import Pins Owners Digests Scope Closure Records Capacity ScopeTree Inventory Retention Admission InventoryFacts OwnersFacts AdmissionFacts.
Local Open Scope string_scope.
Local Open Scope list_scope.
Local Open Scope Z_scope.

Module AdmissionWriters.

(** ** Names *)

(** The text of a UUID: 36 lower hexadecimal digits and hyphens. *)
Definition uuid_text (id : string) : Prop :=
  str_len id = 36 /\ forallb (fun b => is_lower_hex b || (b =? 45)) (as_bytes id) = true.

(** A directory and a name that the layout of the scope uses for data. *)
Definition place (dir : rpath) : Prop := (length dir <= 8)%nat /\ (POLICY ∉ dir) /\ (LEDGER ∉ dir).
Definition ordinary (dir : rpath) (name : string) : Prop :=
  name <> POLICY /\ uncharged (dir ++ [name]) = false /\
  (forall x id, uuid_text id -> uncharged (dir ++ [temporary_of name (x ++ id)]) = false).

Definition hex_text (id : string) : bool := forallb (fun b => is_lower_hex b || (b =? 45)) (as_bytes id).

Lemma hex_lock x id : id <> "" -> hex_text id = true -> lock_name (x ++ id)%string = false.
Proof.
  intros Hne Hall. unfold lock_name. apply bool_decide_eq_false. intros [y Hy%strip_suffix_some].
  apply (f_equal rev_string) in Hy. rewrite !rev_append in Hy. destruct (rev_string id) as [|c r] eqn:E.
  - apply (f_equal rev_string) in E. rewrite rev_involutive in E. by subst.
  - simpl in Hy. injection Hy as -> _. apply (f_equal rev_string) in E. rewrite rev_involutive in E. subst. unfold hex_text in Hall. simpl in Hall.
    rewrite as_bytes_app, forallb_app in Hall. by apply andb_true_iff in Hall as [_ Hall].
Qed.

Lemma uuid_lock x id : uuid_text id -> lock_name (x ++ id)%string = false.
Proof. intros [Hlen Hall]. apply hex_lock; [|done]. by intros ->. Qed.

Lemma temporary_lock name x id : uuid_text id -> lock_name (temporary_of name (x ++ id)) = false.
Proof. intros Hid. unfold temporary_of. rewrite <- !append_assoc. by apply uuid_lock. Qed.

Lemma uncharged_short p n :
  p <> [] -> lock_name n = false -> (p = [INTENTS] -> reservation_name n = false) -> uncharged (p ++ [n]) = false.
Proof.
  intros Hp Hn Hr. unfold uncharged, file_name. rewrite last_snoc, Hn. simpl. destruct p as [|x [|y [|]]]; [done| |done..]. simpl.
  destruct (String.eqb_spec x INTENTS) as [->|]; [by apply Hr|done].
Qed.

(** Data is in the directories of contents, pages, owners and registrations. *)
Lemma data_ordinary dir name : dir <> [] -> dir <> [INTENTS] -> name <> POLICY -> lock_name name = false -> ordinary dir name.
Proof.
  intros Hd Hi Hn Hl. split_and!; [done|by apply uncharged_short|]. intros x id Hid. apply uncharged_short; [done| |done]. by apply temporary_lock.
Qed.

(** The name of a content or of a page. *)
Lemma digest_name `{HexCrate} text d : parse_digest text = Ok d -> hex_encode d <> POLICY /\ lock_name (hex_encode d) = false.
Proof.
  intros (_ & Hlen & Hd)%parse_digest_ok. rewrite hex_encode_lower.
  assert (Hl : str_len (hex32 d) = 64) by (rewrite str_len_as_bytes, as_bytes_hex32, length_hex_bytes by done; lia).
  split; [by intros E%(f_equal str_len); rewrite Hl in E|]. apply (hex_lock "" (hex32 d)); [by intros E%(f_equal str_len); rewrite Hl in E|].
  unfold hex_text. rewrite as_bytes_hex32, forallb_Forall by done. eapply list.Forall_impl; [by apply hex_bytes_lower|]. intros b Hb. simpl. by rewrite Hb.
Qed.

Lemma plain_snoc dir name : name <> POLICY -> uncharged (dir ++ [name]) = false -> plain (dir ++ [name]).
Proof.
  intros Hn Hu. split_and!.
  - unfold file_name. rewrite last_snoc. congruence.
  - intros E. by rewrite E in Hu.
  - by destruct dir.
Qed.

Lemma temporary_plain dir name x id :
  ordinary dir name -> uuid_text id ->
  plain (dir ++ [temporary_of name (x ++ id)]) /\ uncharged (dir ++ [temporary_of name (x ++ id)]) = false.
Proof. intros (_ & _ & Ht) Hid. specialize (Ht x id Hid). split; [|done]. by apply plain_snoc. Qed.

Lemma uuid_length id : uuid_text id -> String.length id = 36%nat.
Proof. intros [Hlen _]. unfold str_len in Hlen. lia. Qed.

Lemma skip_length k id s : String.length id = k -> skip k (id ++ s) = s.
Proof. revert id. induction k as [|k IH]; intros [|c id] Hk; simpl in *; try done. apply IH. lia. Qed.
Lemma skip_last k id s : String.length id = S k -> exists c, skip k (id ++ s) = String c s.
Proof.
  revert id. induction k as [|k IH]; intros [|c id] Hk; simpl in *; try done; [|apply IH; lia]. by destruct id; [exists c|].
Qed.
Lemma skip_next k s : skip (S k) s = skip 1 (skip k s).
Proof. revert s. induction k as [|k IH]; intros [|c s]; try done. apply IH. Qed.

Lemma intent_name id suffix : uuid_text id -> one_of suffix [".json"; ".hydrate.json"] = true -> (id ++ suffix)%string <> POLICY.
Proof.
  intros [Hlen _] [->|[->|[]%not_elem_of_nil]%elem_of_cons]%one_of_true%elem_of_cons E; apply (f_equal str_len) in E;
    rewrite str_len_as_bytes, as_bytes_app, length_app, Nat2Z.inj_add, <- str_len_as_bytes, Hlen in E; done.
Qed.

(** The intent of a writer is charged. *)
Lemma intent_ordinary id : uuid_text id -> ordinary [INTENTS] (id ++ ".json").
Proof.
  intros Hid. pose proof (uuid_length _ Hid) as Hlen. split_and!; [by apply intent_name| |].
  - apply uncharged_short; [done| |].
    + unfold lock_name. apply bool_decide_eq_false. unfold strip_suffix. rewrite rev_append. by intros [? [=]].
    + intros _. unfold reservation_name. by rewrite (skip_next 36), skip_length.
  - intros x id' Hid'. apply uncharged_short; [done|by apply temporary_lock|]. intros _. unfold reservation_name, temporary_of.
    rewrite append_assoc. change (skip 37 ("." ++ (id ++ (".json" ++ ".tmp." ++ x ++ id')))) with (skip 36 (id ++ (".json" ++ ".tmp." ++ x ++ id'))).
    change (skip 36 ("." ++ (id ++ (".json" ++ ".tmp." ++ x ++ id')))) with (skip 35 (id ++ (".json" ++ ".tmp." ++ x ++ id'))).
    rewrite (skip_length 36) by done. destruct (skip_last 35 id (".json" ++ ".tmp." ++ x ++ id') Hlen) as [c ->].
    unfold starts_with. cbn [strip_prefix]. by destruct (Ascii.eqb "." c).
Qed.

(** The record of a reservation is not, nor is its temporary. *)
Lemma reservation_uncharged id x :
  uuid_text id -> let name := (id ++ ".hydrate.json")%string in
  (plain [INTENTS; name] /\ uncharged [INTENTS; name] = true) /\
  (plain [INTENTS; temporary_of name x] /\ uncharged [INTENTS; temporary_of name x] = true).
Proof.
  intros Hid. pose proof (uuid_length _ Hid) as Hlen. cbv zeta. split; split.
  - split_and!; [|done..]. simpl. intros [= E]. by eapply intent_name in E.
  - unfold uncharged. apply orb_true_iff. right. rewrite String.eqb_refl. unfold reservation_name. by rewrite skip_length.
  - by split_and!.
  - unfold uncharged. apply orb_true_iff. right. rewrite String.eqb_refl. unfold reservation_name, temporary_of.
    apply orb_true_iff. right. rewrite append_assoc.
    change (skip 37 ("." ++ (id ++ (".hydrate.json" ++ ".tmp." ++ x)))) with (skip 36 (id ++ (".hydrate.json" ++ ".tmp." ++ x))).
    by rewrite skip_length.
Qed.

(** ** Programs of a writer *)

Section Writers.
Context `{RetentionCodec} (h : host) (outer : Res unit) (Huuid : forall k, uuid_text (h_uuid h k)).

Lemma sees_stat t p :
  sees t (stat h p) (fun r => (forall n, r = Ok n -> t !! p = Some n) /\ (r = Err NotFound -> t !! p = None)).
Proof using Type.
  intros s Hs. split_and!; [done|done|]. simpl. rewrite Hs. destruct (h_fault _ _) as [[[] e]|]; [done..|].
  unfold ok_or. destruct (t !! p); split; try done. by intros ? [= ->].
Qed.

Lemma sees_bytes t p maximum :
  sees t (read_optional_bytes h p maximum) (fun o => forall b, o = Some b -> file_at t p b).
Proof using Type.
  unfold read_optional_bytes. eapply sees_bind; [apply sees_look|]. intros [[id b]|e] Hb; [|destruct e; try apply sees_fail; by apply sees_ret].
  apply sees_guard. intros _. apply sees_guard. intros Hlen%Z.ltb_ge. apply sees_ret. intros x [= <-].
  assert (Hall : take (Z.to_nat (maximum + 1)) b = b).
  { apply take_ge. unfold zlen in Hlen. rewrite length_take in Hlen. lia. }
  rewrite Hall. specialize (Hb _ eq_refl). destruct (t !! p) as [[]|] eqn:E; simplify_eq. by exists id.
Qed.

Lemma sees_json t {T} `{Serde T} p maximum : sees t (Inventory.read_record h (T := T) p maximum) (fun x => stored t p x).
Proof using Type.
  unfold Inventory.read_record. eapply sees_bind; [apply sees_bytes|]. intros o Ho.
  eapply sees_bind; [apply sees_res_true|]. intros b Hb. unfold ok_or in Hb. destruct o as [b'|]; simplify_eq.
  apply sees_of_res. intros x Hx%map_err_ok. exists b. auto.
Qed.

Lemma sees_limits t : sees t (policy_of h []) (fun l => limited t l /\ validate_limits (h_reachable h) l = Ok tt).
Proof using Type.
  unfold policy_of. eapply sees_bind; [apply sees_json|]. intros p Hp. apply sees_guard. intros _.
  eapply sees_bind; [apply sees_res_true|]. intros [] Hv. apply sees_ret. split; [by exists p|done].
Qed.

Lemma limited_det t l l' : limited t l -> limited t l' -> l = l'.
Proof using Type.
  intros (p & (b & Hb & Hp) & <-) (p' & (b' & Hb' & Hp') & <-). rewrite (file_at_det _ _ _ _ Hb Hb') in Hp. congruence.
Qed.

Lemma limited_acct m K t l : acct m K t -> limited t l -> m = Some l.
Proof using Type.
  intros [_ _ Hsum] Hl. destruct m as [l'|].
  - destruct Hsum as (c & Hl' & _). by rewrite (limited_det _ _ _ Hl Hl').
  - destruct Hl as (p & (b & (i & Hb) & _) & _). congruence.
Qed.

Lemma policy_there m K t : acct m K t -> is_Some (t !! [POLICY]) <-> is_Some m.
Proof using Type.
  intros [_ _ Hsum]. destruct m as [l|]; [|rewrite Hsum; by split; intros []].
  destruct Hsum as (c & (p & (b & (i & Hb) & _) & _) & _). rewrite Hb. by split; eauto.
Qed.

Lemma sees_first_policy m K t up :
  acct m K t ->
  sees t (first_policy h up)
    (fun r => match r with Some s => s = [] /\ is_Some m | None => ([] ∈ up) -> m = None end).
Proof using Type.
  intros Ht. induction up as [|d up IH]; simpl; [by apply sees_ret; intros ?%not_elem_of_nil|].
  eapply sees_bind; [apply sees_stat|]. intros [n|[| |e]] [Hok Hnone]; [|..].
  - destruct n; [|apply sees_fail..]. assert (d = []) as ->.
    { eapply (ac_root _ _ _ Ht). rewrite (Hok _ eq_refl). eauto. }
    eapply sees_bind; [apply sees_limits|]. intros l [Hl _]. apply sees_ret. split; [done|]. rewrite (limited_acct _ _ _ _ Ht Hl). eauto.
  - eapply sees_weaken; [exact IH|]. intros [s|]; [done|]. intros Hin [<-|?]%elem_of_cons; [|auto].
    destruct m; [|done]. destruct (policy_there _ _ _ Ht) as [_ Hp]. destruct Hp as [x Hx]; [eauto|]. simpl in Hnone. rewrite Hnone in Hx; done.
  - apply sees_fail.
  - apply sees_fail.
Qed.

Lemma ancestors_root p : [] ∈ ancestors p.
Proof using Type.
  unfold ancestors. rewrite list_elem_of_fmap. exists 0%nat. split; [by rewrite take_0|]. rewrite elem_of_reverse, elem_of_seq. lia.
Qed.
Lemma ancestors_short p : (length p <= 8)%nat -> take 9 (ancestors p) = ancestors p.
Proof using Type. intros Hp. apply take_ge. unfold ancestors. rewrite length_fmap, length_reverse, length_seq. lia. Qed.

(** The scope of a place is the directory, if that is managed. *)
Lemma sees_scope m K t dir :
  acct m K t -> (length dir <= 8)%nat ->
  sees t (managed_scope h outer dir) (fun r => match r with Some s => s = [] /\ is_Some m | None => m = None end).
Proof using Type.
  intros Ht Hlen. unfold managed_scope. rewrite ancestors_short by done.
  eapply sees_bind; [by eapply sees_first_policy|]. intros [s|] Hs; [by apply sees_ret|]. specialize (Hs (ancestors_root dir)).
  destruct (_ <? _)%nat; [|by apply sees_ret]. eapply sees_bind; [apply sees_res_true|]. intros [] _. by apply sees_ret.
Qed.

(** A reading program that depends on the account. *)
Lemma pays_reads {A : Type} m (n : Z) (c : W A) (P : A -> Prop) :
  0 <= n -> (forall K t, acct m K t -> sees t c P) -> pays m n c n P.
Proof using Type.
  intros Hn Hc K s Hs. destruct (Hc _ _ Hs s eq_refl) as (E1 & E2 & E3). split; [exists []; by rewrite app_nil_r|].
  rewrite E1. destruct (c s).1 as [a|[]]; try done. eapply acct_less; [|exact Hs]. lia.
Qed.

Lemma pays_scope m (n : Z) dir :
  0 <= n -> (length dir <= 8)%nat ->
  pays m n (managed_scope h outer dir) n (fun r => match r with Some s => s = [] /\ is_Some m | None => m = None end).
Proof using Type. intros Hn Hlen. apply pays_reads; [done|]. intros K t Ht. by eapply sees_scope. Qed.

Lemma pays_limits m (n : Z) :
  0 <= n -> pays m n (policy_of h []) n (fun l => m = Some l /\ validate_limits (h_reachable h) l = Ok tt).
Proof using Type.
  intros Hn. apply pays_reads; [done|]. intros K t Ht. eapply sees_weaken; [apply sees_limits|]. intros l [Hl Hv].
  split; [by eapply limited_acct|done].
Qed.

Lemma pays_gate m (n : Z) : 0 <= n -> pays m n (gate h) n (fun _ => True).
Proof using Type.
  intros Hn. apply pays_sees; [done|]. intros t _ s Hs. split_and!; [done|done|]. simpl. by destruct (h_refuse _ _).
Qed.

Lemma lock_cost dir name : lock_name name = true -> cost (dir ++ [name]) 0 = 0.
Proof using Type. intros Hl. unfold cost, uncharged, file_name. by rewrite last_snoc, Hl. Qed.

Lemma lock_plain dir name : lock_name name = true -> plain (dir ++ [name]).
Proof using Type.
  intros Hl. split_and!; [| |by destruct dir].
  - unfold file_name. rewrite last_snoc. by intros [= ->].
  - intros E. apply (f_equal list.last) in E. rewrite last_snoc in E. simpl in E. by injection E as ->.
Qed.

Lemma pays_lock m (n : Z) name : lock_name name = true -> 0 <= n -> pays m n (lock_in h [] name) n (fun _ => True).
Proof using Type.
  intros Hl Hn. unfold lock_in. eapply pays_bind; [|intros _ _; by apply pays_gate].
  apply (pays_open h m io_error_of); [by apply lock_plain|done|]. rewrite lock_cost by done. lia.
Qed.

Lemma pays_uuid m (n : Z) : 0 <= n -> pays m n (new_uuid h) n uuid_text.
Proof using Huuid. intros Hn. apply pays_sees; [done|]. intros t _ s Hs. split_and!; [done|done|]. apply Huuid. Qed.

Lemma pays_res {A : Type} m (n : Z) (r : Res A) : 0 <= n -> pays m n (of_res r) n (fun a => r = Ok a).
Proof using Type. intros Hn. apply pays_sees; [done|]. intros t _. apply sees_res_true. Qed.

Lemma pays_guard {A : Type} m (n k : Z) (b : bool) e (c : W A) Q : 0 <= n -> (b = false -> pays m n c k Q) -> pays m n (if b then fail e else c) k Q.
Proof using Type. intros Hn Hc. destruct b; [by apply pays_fail|auto]. Qed.

(** ** The records of the scope *)

(** A change that neither the records nor the files of the account notice. *)
Record touch (t t' : tree) : Prop := {
  tc_wf : wf_tree t';
  tc_root : forall p, is_Some (t' !! (p ++ [POLICY])) -> is_Some (t !! (p ++ [POLICY]));
  tc_policy : t' !! [POLICY] = t !! [POLICY];
  tc_ledger : t' !! [LEDGER] = t !! [LEDGER];
  tc_files : files_charge t' = files_charge t;
}.

Lemma acct_touch m K t t' : acct m K t -> touch t t' -> acct m K t'.
Proof using Type. intros Ht [Hwf Hr Hp Hl Hf]. eapply acct_step; [exact Ht|done..|lia]. Qed.

Lemma unnoticed (p : rpath) t : uncharged p = true -> at_key weight t p = 0.
Proof using Type. intros Hp. unfold at_key, weight. destruct (t !! p) as [[]|]; try done. by rewrite Hp. Qed.

Lemma touch_file t p i b :
  wf_tree t -> plain p -> uncharged p = true -> in_folder t p = true -> t !! p <> Some Folder -> id_size i = zlen b ->
  touch t (<[p := Regular i b]> t).
Proof using Type.
  intros Hwf Hp Hu Hin Hd Hi. assert (Hne : p <> [POLICY]) by (by apply (plain_not p [])). destruct (Hp) as (_ & Hl & H0).
  split; [apply wf_insert; try done; by intros ? ? [= <- <-]| | | |].
  - intros q Hq. rewrite lookup_insert_ne in Hq; [done|]. by apply plain_not.
  - by rewrite lookup_insert_ne.
  - by rewrite lookup_insert_ne.
  - unfold files_charge. rewrite map_sum_insert, unnoticed by done. simpl. rewrite Hu. lia.
Qed.

Lemma touch_delete t p : wf_tree t -> plain p -> uncharged p = true -> t !! p <> Some Folder -> touch t (delete p t).
Proof using Type.
  intros Hwf Hp Hu Hd. assert (Hne : p <> [POLICY]) by (by apply (plain_not p [])). destruct (Hp) as (_ & Hl & H0).
  split; [by apply wf_delete| | | |].
  - intros q [x Hq]. apply lookup_delete_Some in Hq as [_ Hq]. eauto.
  - by rewrite lookup_delete_ne.
  - by rewrite lookup_delete_ne.
  - unfold files_charge. rewrite map_sum_delete, unnoticed by done. lia.
Qed.

Section Control.
Context (I P Q : tree -> Prop) (dir : rpath) (name : string) {T : Type} `{Serde T} (value : T).
Context (Hname : forall id, plain (dir ++ [temporary_of name id]) /\ uncharged (dir ++ [temporary_of name id]) = true).
Context (HP : forall t, P t -> I t /\ wf_tree t) (HPt : forall t t', P t -> touch t t' -> P t').
Context (HI : forall t, I t -> wf_tree t) (HIt : forall t t', I t -> touch t t' -> I t').
Context (HQ : forall t, Q t -> I t).
Context (Hend : forall t i b, P t -> to_json value = Ok b -> zlen b <= CONTROL_BYTES -> id_size i = zlen b -> t !! (dir ++ [name]) <> Some Folder ->
                  in_folder t (dir ++ [name]) = true -> Q (<[dir ++ [name] := Regular i b]> t)).

(** The steps of [raw_atomic] that may fail. *)
Lemma hoare_replaced id b :
  to_json value = Ok b -> zlen b <= CONTROL_BYTES ->
  hoare I P (bind (io (create_new h (dir ++ [temporary_of name id]))) (fun _ =>
             bind (io (write_all h (dir ++ [temporary_of name id]) b)) (fun _ =>
             bind (io (sync_all h)) (fun _ =>
             bind (io (rename h (dir ++ [temporary_of name id]) (dir ++ [name]))) (fun _ => io (sync_all h)))))) (fun _ => Q).
Proof using Hname HP HPt HQ Hend.
  intros Hj Hlen. destruct (Hname id) as [Hp Hu]. set (tmp := dir ++ [temporary_of name id]) in *.
  set (wrote := fun t => P t /\ exists i, t !! tmp = Some (Regular i b) /\ id_size i = zlen b).
  eapply (hoare_bind _ _ _ (fun _ => P)); [|intros _; eapply (hoare_bind _ _ _ (fun _ => wrote)); [|intros _]].
  - assert (Hnew : forall k t, P t -> P (match t !! tmp with Some _ => (Err AlreadyExists, t) | None =>
        if in_folder t tmp then (Ok tt, <[tmp := Regular (mkIdentity 0 (h_stamp h k)) []]> t) else (Err NotFound, t) end : result io_error unit * tree).2).
    { intros k t Ht. destruct (t !! tmp) eqn:E; [done|]. destruct (in_folder t tmp) eqn:Ein; [|done].
      eapply HPt; [exact Ht|]. apply touch_file; [by apply HP|done..|by rewrite E|done]. }
    apply hoare_change; [intros t Ht; by apply HP|intros k t Ht; apply HP, Hnew, Ht|intros k t a Ht _; by apply Hnew].
  - assert (Hnew : forall k t i old, P t -> t !! tmp = Some (Regular i old) -> wrote (<[tmp := Regular (mkIdentity (zlen b) (h_stamp h k)) b]> t)).
    { intros k t i old Ht E. destruct (HP t Ht) as [_ Hwf]. split.
      - eapply HPt; [exact Ht|]. apply touch_file; try done; [by apply wf_in_folder; eauto|by rewrite E].
      - eexists. by rewrite lookup_insert_eq. }
    apply hoare_change; [intros t Ht; by apply HP| |].
    + intros k t Ht. destruct (t !! tmp) as [[i old| |]|] eqn:E; try (by apply HP). simpl. eapply HP. by eapply Hnew.
    + intros k t a Ht. destruct (t !! tmp) as [[i old| |]|] eqn:E; try done. intros _. by eapply Hnew.
  - assert (Hw : forall t, wrote t -> I t) by (intros t [Ht _]; by apply HP).
    apply (hoare_bind _ _ _ (fun _ => wrote)); [by apply hoare_looks|]. intros _. eapply (hoare_bind _ _ _ (fun _ => Q)); [|intros _; by apply hoare_looks].
    assert (Hmoved : forall t i x, wrote t -> t !! tmp = Some (Regular i x) -> t !! (dir ++ [name]) <> Some Folder -> Q (<[dir ++ [name] := Regular i x]> (delete tmp t))).
    { intros t i x [Ht (i' & E' & Hi)] E Hd. assert (i = i' /\ x = b) as [-> ->] by (split; congruence). apply Hend; [|done..| |].
      - eapply HPt; [exact Ht|]. apply touch_delete; [by apply HP|done|done|by rewrite E'].
      - intros Hx. apply lookup_delete_Some in Hx as [_ Hx]. done.
      - apply in_folder_snoc. destruct (wf_parent _ (proj2 (HP t Ht)) dir (temporary_of name id)) as [->|Ed]; [fold tmp; by rewrite E'|by left|right].
        rewrite lookup_delete_ne; [done|apply snoc_self]. }
    apply hoare_change; [done| |].
    + intros k t Ht. destruct (t !! tmp) as [[i x| |]|] eqn:E; try (by apply Hw).
      destruct (t !! (dir ++ [name])) as [[]|] eqn:En; try (by apply Hw); simpl; apply HQ, Hmoved; try done; by rewrite En.
    + intros k t a Ht. destruct (t !! tmp) as [[i x| |]|] eqn:E; try done.
      destruct (t !! (dir ++ [name])) as [[]|] eqn:En; try done; intros _; apply Hmoved; try done; by rewrite En.
Qed.

Lemma hoare_control : hoare I P (raw_atomic h dir name value) (fun _ => Q).
Proof using Hname HP HPt HI HIt HQ Hend.
  apply hoare_each. intros t0 Ht0. assert (Hi0 : I t0) by (by apply HP). unfold raw_atomic.
  eapply hoare_sees; [done|apply sees_res_true|]. intros _ _. eapply hoare_sees; [done|apply sees_res_true|]. intros b Hb%map_err_ok.
  destruct (CONTROL_BYTES <? zlen b) eqn:Elen.
  { intros s Hs. split; [exists []; by rewrite app_nil_r|]. simpl. by rewrite <- Hs. }
  apply Z.ltb_ge in Elen. eapply (hoare_sees _ _ _ (fun _ => True)); [done|by intros s Hs|]. intros id _.
  eapply hoare_bind.
  - apply hoare_attempt. eapply hoare_pre; [|apply (hoare_replaced id b); done]. by intros t <-.
  - intros [[]|[e| |]]; simpl; [by apply hoare_ret| |by intros s Hs|by intros s Hs].
    destruct (Hname id) as [Hp Hu]. assert (Hdel : forall t, I t -> t !! (dir ++ [temporary_of name id]) <> Some Folder -> I (delete (dir ++ [temporary_of name id]) t)).
    { intros t Ht Hd. eapply HIt; [exact Ht|]. apply touch_delete; auto. }
    assert (Hrem : hoare I I (io (remove_file h (dir ++ [temporary_of name id]))) (fun _ => I)).
    { apply hoare_change; [done| |].
      - intros k t Ht. destruct (t !! (dir ++ [temporary_of name id])) as [[]|] eqn:E; try done; apply Hdel; try done; by rewrite E.
      - intros k t a Ht _. destruct (t !! (dir ++ [temporary_of name id])) as [[]|] eqn:E; try done; apply Hdel; try done; by rewrite E. }
    apply (hoare_bind _ _ _ (fun _ => I)); [|intros r s Hs; split; [exists []; by rewrite app_nil_r|done]].
    eapply hoare_weaken; [apply hoare_attempt, Hrem|]. by intros [[]|[]] t.
Qed.
End Control.

(** ** Charges and intents *)

Lemma record_temporary name id : one_of name [POLICY; LEDGER] = true -> plain [temporary_of name id] /\ uncharged [temporary_of name id] = true.
Proof using Type.
  intros Hn. split; [by split_and!|]. unfold uncharged. apply orb_true_iff. right.
  apply one_of_true, elem_of_cons in Hn as [->|[->|[]%not_elem_of_nil]%elem_of_cons]; reflexivity.
Qed.

Lemma headroom l : validate_limits (h_reachable h) l = Ok tt -> 0 <= proof_headroom_bytes l.
Proof using Type.
  unfold validate_limits. intros [Hv _]%reject_ok. rewrite !orb_false_iff in Hv. unfold CONTROL_BYTES, ENTRY_CHARGE in Hv. lia.
Qed.

Lemma capacity_below l e p : validate_limits (h_reachable h) l = Ok tt -> byte_capacity l e p <= max_bytes l.
Proof using Type. intros Hh%headroom. unfold byte_capacity. pose proof (Z.div_pos (proof_headroom_bytes l) 4). destruct e, p; lia. Qed.

Lemma limited_same t t' l : t' !! [POLICY] = t !! [POLICY] -> limited t l -> limited t' l.
Proof using Type. intros E (p & Hp & El). exists p. split; [by eapply stored_same|done]. Qed.

(** The file of a record is replaced. *)
Lemma record_files t name i b : one_of name [POLICY; LEDGER] = true -> files_charge (<[[name] := Regular i b]> t) = files_charge t.
Proof using Type.
  intros Hn. assert (Hu : uncharged [name] = true).
  { by apply one_of_true, elem_of_cons in Hn as [->|[->|[]%not_elem_of_nil]%elem_of_cons]. }
  unfold files_charge. rewrite map_sum_insert, unnoticed by done. simpl. rewrite Hu. lia.
Qed.

Lemma record_wf t name i b : wf_tree t -> t !! [name] <> Some Folder -> id_size i = zlen b -> wf_tree (<[[name] := Regular i b]> t).
Proof using Type. intros Hwf Hd Hi. apply wf_insert; try done. by intros ? ? [= <- <-]. Qed.

Lemma charge_sum (a b x : Z) (e : SnapshotError) : ok_or (checked_add a b) e = Ok x -> x = a + b.
Proof using Type. unfold ok_or. destruct (checked_add a b) eqn:E; [|done]. intros [= <-]. by apply checked_add_some in E as [-> _]. Qed.

(** A charge is credit. *)
Lemma pays_charge l (n bytes entries : Z) (charge : Res Z) e p m1 m2 m3 :
  validate_limits (h_reachable h) l = Ok tt -> (forall x, charge = Ok x -> x = bytes) -> 0 <= bytes -> 0 <= n ->
  pays (Some l) n (charge_ledger h [] l charge entries e p m1 m2 m3) (n + bytes) (fun _ => True).
Proof using Type.
  intros Hv Hx Hb Hn K. apply hoare_each. intros t Ht. assert (Hi : acct (Some l) K t) by (eapply acct_less; [|exact Ht]; lia).
  unfold charge_ledger. eapply hoare_sees; [done|apply sees_json|]. intros c Hc. simpl in Hc.
  destruct (negb (ch_revision c =? 1)); [intros s Hs; split; [exists []; by rewrite app_nil_r|simpl; by rewrite <- Hs]|].
  eapply hoare_sees; [done|apply sees_res_true|]. intros x ->%Hx.
  eapply hoare_sees; [done|apply sees_res_true|]. intros b Eb. eapply hoare_sees; [done|apply sees_res_true|]. intros es _.
  destruct (_ || _) eqn:Eg; [intros s Hs; split; [exists []; by rewrite app_nil_r|simpl; by rewrite <- Hs]|].
  apply orb_false_iff in Eg as [Eg%Z.ltb_ge _]. pose proof (capacity_below l e p Hv) as Hcap.
  unfold ok_or in Eb. destruct (checked_add _ _) as [b'|] eqn:Ec; [|done]. injection Eb as ->. apply checked_add_some in Ec as [-> _].
  eapply hoare_weaken; [eapply (hoare_pre _ _ (fun t => acct (Some l) (K + n) t /\ ledger t c)); [intros t1 <-; by split|];
    apply (hoare_control _ _ (acct (Some l) (K + (n + bytes))))|by intros].
  - intros id. by apply record_temporary.
  - intros t1 [H1 _]. split; [eapply acct_less; [|exact H1]; lia|apply H1].
  - intros t1 t2 [H1 H2] Htc. split; [by eapply acct_touch|]. eapply stored_same; [apply Htc|done].
  - intros t1 H1. apply H1.
  - intros t1 t2 H1 Htc. by eapply acct_touch.
  - intros t1 H1. eapply acct_less; [|exact H1]. lia.
  - intros t1 i x [[Hwf Hr Hs] Hl] Hj Hlen Hsize Hd _. simpl in Hd |- *. destruct Hs as (c' & Hlim & Hc' & H1 & H2).
    assert (c' = c) as ->.
    { destruct Hl as (y & Hy & Ey), Hc' as (y' & Hy' & Ey'). rewrite (file_at_det _ _ _ _ Hy Hy') in Ey. congruence. }
    split; [by apply record_wf| |].
    + intros q Hq. rewrite lookup_insert_ne in Hq; [by apply Hr|]. intros E. apply (f_equal list.last) in E. by rewrite last_snoc in E.
    + eexists. rewrite record_files by done. split_and!.
      * eapply limited_same; [|exact Hlim]. by rewrite lookup_insert_ne.
      * exists x. split; [exists i; apply lookup_insert_eq|by apply json_round_trip].
      * simpl. lia.
      * lia.
Qed.

Lemma pays_rename_in m g dir a b (n : Z) :
  ordinary dir b -> plain (dir ++ [a]) -> uncharged (dir ++ [a]) = false -> 0 <= n ->
  pays m n (io_as g (rename h (dir ++ [a]) (dir ++ [b]))) n (fun _ => True).
Proof using Type.
  intros (Hb & Hu & _) Ha Hua Hn. apply pays_rename; try done. by apply plain_snoc.
Qed.

(** The record of a reservation costs nothing. *)
Lemma pays_reservation m (n : Z) id {T : Type} `{Serde T} (value : T) :
  uuid_text id -> 0 <= n -> pays m n (raw_atomic h [INTENTS] (id ++ ".hydrate.json")%string value) n (fun _ => True).
Proof using Type.
  intros Hid Hn K. eapply hoare_weaken; [apply (hoare_control _ _ (acct m (K + n)))|by intros].
  - intros x. by apply reservation_uncharged.
  - intros t Ht. split; [eapply acct_less; [|exact Ht]; lia|apply Ht].
  - intros t t' Ht Htc. by eapply acct_touch.
  - intros t Ht. apply Ht.
  - intros t t' Ht Htc. by eapply acct_touch.
  - intros t Ht. eapply acct_less; [|exact Ht]. lia.
  - intros t i b Ht _ _ Hi Hd Hin. eapply acct_touch; [exact Ht|]. destruct (reservation_uncharged id "" Hid) as [[Hp Hu] _].
    by apply touch_file; [apply Ht|..].
Qed.

(** An intent costs its entry and its bytes. *)
Lemma pays_intent m (n k : Z) name {T : Type} `{Serde T} (value : T) :
  ordinary [INTENTS] name -> 0 <= k -> ENTRY_CHARGE + CONTROL_BYTES + k <= n ->
  pays m n (raw_atomic h [INTENTS] name value) k (fun _ => True).
Proof using Huuid.
  intros Ho Hk Hn. unfold CONTROL_BYTES, ENTRY_CHARGE in Hn. assert (0 <= n) by lia. unfold raw_atomic.
  eapply pays_bind; [by apply pays_res|]. intros _ _. eapply pays_bind; [by apply pays_res|]. intros b _. apply pays_guard; [done|].
  unfold CONTROL_BYTES. intros Hb%Z.ltb_ge. eapply pays_bind; [by apply pays_uuid|]. intros id Hid.
  destruct (temporary_plain [INTENTS] name "" id Ho Hid) as [Hp Hu]. change ("" ++ id)%string with id in Hp, Hu.
  fold (temporary_of name id). assert (Hw : pays m n (bind (io (create_new h ([INTENTS] ++ [temporary_of name id]))) (fun _ =>
      bind (io (write_all h ([INTENTS] ++ [temporary_of name id]) b)) (fun _ => bind (io (sync_all h)) (fun _ =>
      bind (io (rename h ([INTENTS] ++ [temporary_of name id]) ([INTENTS] ++ [name]))) (fun _ => io (sync_all h)))))) k (fun _ => True)).
  { eapply (pays_bind _ _ (zlen b + k)); [apply (pays_create h m io_error_of); [done|pose proof (zlen_nonneg b); lia|unfold cost, ENTRY_CHARGE; rewrite Hu; lia]|].
    intros _ _. eapply (pays_bind _ _ k); [apply (pays_write h m io_error_of); [done|done|unfold byte_cost; rewrite Hu; lia]|]. intros _ _.
    eapply (pays_bind _ _ k); [by apply (pays_look h m io_error_of)|]. intros _ _.
    eapply (pays_bind _ _ k); [by apply (pays_rename_in m io_error_of)|]. intros _ _. by apply (pays_look h m io_error_of). }
  intros K. eapply hoare_bind; [apply hoare_attempt, Hw|]. intros [[]|[e| |]]; simpl; [by apply hoare_ret| |by intros s Hs|by intros s Hs].
  apply (hoare_bind _ _ _ (fun _ => acct m K)); [|intros r s Hs; split; [exists []; by rewrite app_nil_r|done]].
  assert (Hrem : pays m 0 (io (remove_file h ([INTENTS] ++ [temporary_of name id]))) 0 (fun _ => True)).
  { apply (pays_change h m io_error_of); [lia|]. by apply remove_settles. }
  apply (hoare_pre _ _ (acct m (K + 0))); [intros t; apply acct_less; lia|].
  eapply hoare_weaken; [apply (pays_attempt m 0 0 _ _ ltac:(lia) Hrem)|]. intros r t [_ Ht]. eapply acct_less; [|exact Ht]. lia.
Qed.

(** ** Admissions *)

(** An admission of a writer of [dir] and [name]. *)
Definition admitted (dir : rpath) (name : string) (b : option nat) (a : WriteAdmission) : Prop :=
  exists id, uuid_text id /\ a = mkAdmission [] dir (Some (id ++ ".json")%string) (temporary_of name id) b.

Lemma pays_declared m (n k : Z) dir name maximum b :
  0 <= k -> ENTRY_CHARGE + CONTROL_BYTES + k <= n -> pays m n (declared h [] dir name maximum b) k (admitted dir name b).
Proof using Huuid.
  intros Hk Hn. assert (0 <= n) by (unfold ENTRY_CHARGE, CONTROL_BYTES in Hn; lia). unfold declared.
  eapply pays_bind; [by apply pays_res|]. intros relative _. apply pays_guard; [done|]. intros _.
  eapply pays_bind; [by apply pays_uuid|]. intros id Hid.
  eapply (pays_bind _ _ k); [apply pays_intent; [by apply intent_ordinary|done|done]|]. intros _ _. apply pays_ret; [lia|]. by exists id.
Qed.

Lemma pays_sync m (n : Z) p : 0 <= n -> pays m n (sync_dir h p) n (fun _ => True).
Proof using Type. intros Hn. by apply (pays_look h m io_err). Qed.

Lemma pays_removed m p : plain p -> pays m 0 (remove_file h p) 0 (fun _ => True).
Proof using Type. intros Hp. apply (pays_raw h m 0 0); [lia|lia|]. by apply remove_settles. Qed.

Lemma pays_tried m {A : Type} (c : W A) (Q : A -> Prop) : pays m 0 c 0 Q -> pays m 0 (attempt c) 0 (fun _ => True).
Proof using Type. intros Hc. eapply pays_weaken; [| |apply (pays_attempt m 0 0 _ _ ltac:(lia) Hc)|done]; lia. Qed.

(** The end of an admission removes files only, and does not fail. *)
Lemma pays_drop m dir name b a : ordinary dir name -> admitted dir name b a -> pays m 0 (drop_admission h a) 0 (fun _ => True).
Proof using Type.
  intros Ho (id & Hid & ->). unfold drop_admission. cbn [wa_scope wa_directory wa_intent wa_temporary temporary_path].
  destruct (temporary_plain dir name "" id Ho Hid) as [Hp _]. change ("" ++ id)%string with id in Hp.
  eapply (pays_bind _ _ 0); [by apply pays_removed|]. intros r _. eapply (pays_bind _ _ 0 0 _ _ (fun _ => True)).
  - destruct r as [[]|[| |]]; try (by apply pays_ret). eapply (pays_bind _ _ 0); [by eapply pays_tried, pays_sync|]. intros s _. by apply pays_ret.
  - intros [] _; [|by apply pays_ret]. eapply (pays_bind _ _ 0); [apply pays_removed|].
    { destruct (intent_ordinary id Hid) as (Hi & Hu & _). by apply (plain_snoc [INTENTS]). }
    intros r' _. destruct (is_ok r'); [|by apply pays_ret]. eapply (pays_bind _ _ 0); [by eapply pays_tried, pays_sync|]. intros _ _. by apply pays_ret.
Qed.

(** An admission without a reservation leaves credit for the file. *)
Lemma pays_single l dir name maximum :
  validate_limits (h_reachable h) l = Ok tt -> 0 <= maximum ->
  pays (Some l) 0 (admit_single h [] dir l name maximum) (ENTRY_CHARGE + maximum) (admitted dir name None).
Proof using Huuid.
  intros Hv Hm. unfold admit_single. eapply (pays_bind _ _ 0); [by apply pays_lock|]. intros _ _.
  eapply (pays_bind _ _ 0); [by apply pays_res|]. intros relative _.
  eapply (pays_bind _ _ (0 + (maximum + INTENT_CHARGE)));
    [apply pays_charge; [done|by intros x ?%charge_sum| |done]; unfold INTENT_CHARGE, CONTROL_BYTES, ENTRY_CHARGE; lia|]. intros _ _.
  apply pays_declared; unfold INTENT_CHARGE, CONTROL_BYTES, ENTRY_CHARGE; lia.
Qed.

(** An unplanned write of a reservation is charged before it is declared. *)
Lemma pays_extend l b bytes :
  hb_scope b = [] -> uuid_text (hb_operation b) -> 0 <= bytes -> pays (Some l) 0 (extend h b bytes) bytes (fun _ => True).
Proof using Huuid.
  intros Hs Hid Hb. unfold extend. rewrite Hs.
  eapply (pays_bind _ _ 0); [by apply pays_lock|]. intros _ _. eapply (pays_bind _ _ 0); [by apply pays_limits|]. intros l' [[= <-] Hv].
  eapply (pays_bind _ _ (0 + bytes)); [apply pays_charge; [done|by intros x [= <-]|done..]|]. intros _ _.
  eapply (pays_bind _ _ (0 + bytes) _ _ _ (fun _ => True)); [apply pays_sees; [lia|]; intros; eapply sees_true, sees_json|]. intros intent _.
  eapply (pays_bind _ _ (0 + bytes)); [apply pays_res; lia|]. intros total _.
  by apply pays_reservation.
Qed.

(** ** Directories *)

Lemma sees_chain t up : sees t (validate_directory_chain h up) (fun _ => True).
Proof using Type.
  induction up as [|d up IH]; simpl; [by apply sees_ret|]. eapply sees_bind; [apply sees_look|].
  intros [[]|[]] _; try (by apply sees_ret). exact IH.
Qed.

Lemma sees_missing t up : sees t (missing_dirs h up) (fun _ => True).
Proof using Type.
  induction up as [|d up IH]; simpl; [by apply sees_ret|]. eapply sees_bind; [apply sees_look|].
  intros [[]|[]] _; try (by apply sees_ret); try apply sees_fail. eapply sees_bind; [exact IH|]. intros l _. by apply sees_ret.
Qed.

Lemma pays_make_dirs m l : Forall plain l -> pays m 0 (make_dirs h l) 0 (fun _ => True).
Proof using Type.
  induction 1 as [|p l Hp Hl IH]; simpl; [by apply pays_ret|]. eapply (pays_bind _ _ 0).
  - apply (pays_raw h m 0 0); [lia|lia|]. by apply make_settles.
  - intros [[]|e] _; [exact IH|by apply pays_ret].
Qed.

Lemma place_prefixes dir : place dir -> Forall plain (drop 1 (reverse (ancestors dir))).
Proof using Type.
  intros (_ & Hp & Hl). unfold ancestors. rewrite <- fmap_reverse, reverse_involutive. apply list.Forall_forall. intros q Hq.
  change (drop 1 ((fun n => take n dir) <$> seq 0 (S (length dir)))) with ((fun n => take n dir) <$> seq 1 (length dir)) in Hq.
  apply list_elem_of_fmap in Hq as (i & -> & Hi%elem_of_seq). split_and!.
  - intros Hx. apply Hp. apply last_Some in Hx as [q Hq]. assert (Hin : POLICY ∈ take i dir) by (rewrite Hq, elem_of_app; right; left).
    by eapply subseteq_take.
  - intros E. apply Hl. assert (Hin : LEDGER ∈ take i dir) by (rewrite E; left). by eapply subseteq_take.
  - intros E%(f_equal length). rewrite length_take in E. simpl in E. lia.
Qed.

Lemma pays_create_dirs m dir : place dir -> pays m 0 (create_dir_all_no_symlink h dir) 0 (fun _ => True).
Proof using Type.
  intros Hd. unfold create_dir_all_no_symlink. eapply (pays_bind _ _ 0); [apply pays_sees; [lia|]; intros; apply sees_chain|].
  intros [[]|e] _; [|by apply pays_ret]. eapply (pays_bind _ _ 0); [by apply pays_make_dirs, place_prefixes|].
  intros [[]|e] _; [|by apply pays_ret]. apply pays_sees; [lia|]. intros. apply sees_chain.
Qed.

Lemma pays_error {A : Type} m (c : W (result io_error A)) (g : io_error -> SnapshotError) :
  pays m 0 c 0 (fun _ => True) -> pays m 0 (io_as g c) 0 (fun _ => True).
Proof using Type.
  intros Hc. unfold io_as. eapply pays_bind; [exact Hc|]. intros r _. eapply pays_weaken; [| |by apply (pays_res m 0)|done]; lia.
Qed.

Lemma pays_create_durable m dir : place dir -> pays m 0 (create_dirs_durable h dir) 0 (fun _ => True).
Proof using Type.
  intros Hd. unfold create_dirs_durable. eapply (pays_bind _ _ 0); [apply pays_sees; [lia|]; intros; apply sees_missing|].
  intros l _. eapply (pays_bind _ _ 0); [by apply (pays_error m _ io_err), pays_create_dirs|]. intros _ _.
  induction (reverse l) as [|d ds IH]; simpl; [by apply pays_ret|].
  eapply (pays_bind _ _ 0); [eapply (pays_bind _ _ 0); [by apply pays_sync|]; intros _ _; by apply pays_sync|]. intros [] _. exact IH.
Qed.

Lemma pays_io_guard m dir : (length dir <= 8)%nat -> pays m 0 (io_guard h outer dir) 0 (fun _ => True).
Proof using Type.
  intros Hd. unfold io_guard. eapply (pays_bind _ _ 0); [by apply pays_scope|]. intros [s|] Hs; [|by apply pays_ret].
  destruct Hs as [-> _]. by apply pays_lock.
Qed.

(** ** Files *)

(** The temporary of a writer. *)
Definition temporary_in (dir : rpath) (name : string) (p : rpath) : Prop :=
  exists a, p = dir ++ [a] /\ plain p /\ uncharged p = false.

Lemma pays_written m dir name data p (n : Z) :
  ordinary dir name -> temporary_in dir name p -> ENTRY_CHARGE + zlen data <= n ->
  pays m n (bind (local_io (create_new h p)) (fun _ => bind (local_io (write_all h p data)) (fun _ =>
            bind (local_io (sync_all h)) (fun _ => local_io (rename h p (dir ++ [name])))))) 0 (fun _ => True).
Proof using Type.
  intros Ho (a & -> & Hp & Hu) Hn. pose proof (zlen_nonneg data) as Hd.
  eapply (pays_bind _ _ (zlen data)); [apply (pays_create h m io_err); [done|done|unfold cost; rewrite Hu; lia]|]. intros _ _.
  eapply (pays_bind _ _ 0); [apply (pays_write h m io_err); [done|done|unfold byte_cost; rewrite Hu; lia]|]. intros _ _.
  eapply (pays_bind _ _ 0); [by apply (pays_look h m io_err)|]. intros _ _. by apply (pays_rename_in m io_err).
Qed.

Lemma pays_appended m dir name data (n : Z) :
  ordinary dir name -> ENTRY_CHARGE + zlen data <= n ->
  pays m n (bind (local_io (open_rw_create h (dir ++ [name]))) (fun _ => bind (local_io (append_all h (dir ++ [name]) data)) (fun _ =>
            bind (local_io (sync_all h)) (fun _ => sync_dir h dir)))) 0 (fun _ => True).
Proof using Type.
  intros (Hne & Hu & _) Hn. pose proof (plain_snoc _ _ Hne Hu) as Hp. pose proof (zlen_nonneg data) as Hd.
  eapply (pays_bind _ _ (zlen data)); [apply (pays_open h m io_err); [done|done|unfold cost; rewrite Hu; lia]|]. intros _ _.
  eapply (pays_bind _ _ 0); [apply (pays_append h m io_err); [done|done|unfold byte_cost; rewrite Hu; lia]|]. intros _ _.
  eapply (pays_bind _ _ 0); [by apply (pays_look h m io_err)|]. intros _ _. by apply pays_sync.
Qed.

Lemma pays_temporary m (n : Z) pid dir name a :
  0 <= n -> ordinary dir name -> (forall x, a = Some x -> exists b, admitted dir name b x) ->
  pays m n (writer_temporary h pid dir name a) n (temporary_in dir name).
Proof using Huuid.
  intros Hn Ho Ha. unfold writer_temporary. destruct a as [a|].
  - apply pays_ret; [done|]. destruct (Ha a eq_refl) as (b & id & Hid & ->). destruct (temporary_plain dir name "" id Ho Hid). by eexists.
  - eapply pays_bind; [by apply pays_uuid|]. intros id Hid. apply pays_ret; [done|].
    destruct (temporary_plain dir name (pid ++ "-") id Ho Hid) as [H1 H2]. rewrite append_assoc in H1, H2. by eexists.
Qed.
End Writers.
End AdmissionWriters.
