(* ===== verification/AdmissionSafe.v ===== *)
(** * AdmissionSafe

    The account of a process: the files of a managed scope and all that its
    live reservations may still write are covered by the ledger, through every
    operation of the admitted writers. *)

From S2P Require Import Prelude Types Faults Text Profile Btree Frames Wire ChunkMap Closure Disk Records Pins Journal Durable Capacity Incremental ScopeTree Owners Inventory Retention Admission InventoryFacts OwnersFacts AdmissionFacts AdmissionWriters.
Import Pins Owners Digests Scope Closure Records Capacity ScopeTree Inventory Retention Admission InventoryFacts OwnersFacts AdmissionFacts AdmissionWriters.
Local Open Scope string_scope.
Local Open Scope list_scope.
Local Open Scope Z_scope.

Module AdmissionSafe.

Section Rules.
Context `{RetentionCodec}.

(** What the live reservations may still write. *)
Definition remaining (p : process) : Z := map_sum (fun _ b => hb_remaining b) (live_budgets p).

(** The live reservations are [D]; they are of the scope. *)
Record alive (m : option CacheLimits) (D : gset nat) (p : process) : Prop := {
  al_dom : dom (live_budgets p) = D;
  al_budget : forall n b, live_budgets p !! n = Some b -> hb_scope b = [] /\ uuid_text (hb_operation b) /\ 0 <= hb_remaining b;
  al_managed : m = None -> D = ∅;
}.

(** The files of the tree are covered. *)
Definition covered (t : tree) : Prop := exists m, acct m 0 t.

(** From [n] of credit beyond the reservations, [c] passes through covered trees
    only; it ends with [k] of credit and the reservations [D'], or in a client
    error with the reservations [E]. *)
Definition runs {A : Type} (m : option CacheLimits) (D : gset nat) (n : Z) (c : M A) (k : Z) (D' : A -> gset nat)
    (E : gset nat) (Q : A -> Prop) : Prop :=
  forall p, alive m D p ->
    hoare covered (acct m (remaining p + n)) (c p)
      (fun x t => match x.1 with
                  | Ok a => Q a /\ alive m (D' a) x.2 /\ acct m (remaining x.2 + k) t
                  | Err (Failed _) => alive m E x.2 /\ acct m (remaining x.2) t
                  | Err _ => False
                  end).

(** The reservations stay. *)
Definition steady {A : Type} (m : option CacheLimits) (D : gset nat) (n : Z) (c : M A) (k : Z) (Q : A -> Prop) : Prop :=
  runs m D n c k (fun _ => D) D Q.

Lemma remaining_nonneg m D p : alive m D p -> 0 <= remaining p.
Proof. intros Hp. apply map_sum_nonneg. intros n b Hb. by apply (al_budget _ _ _ Hp) in Hb as (_ & _ & Hb). Qed.

Lemma acct_covered m K t : 0 <= K -> acct m K t -> covered t.
Proof. intros HK Ht. exists m. by eapply acct_less. Qed.

Lemma acct_free (K K' : Z) t : acct None K t -> acct None K' t.
Proof. intros [Hwf Hr Hs]. by split. Qed.

Lemma runs_ret {A : Type} m (D E : gset nat) (n k : Z) (a : A) (D' : A -> gset nat) (Q : A -> Prop) :
  k <= n -> Q a -> D' a = D -> runs m D n (mret a) k D' E Q.
Proof.
  intros Hk Ha HD p Hp. apply hoare_ret. intros t Ht. simpl. rewrite HD. split_and!; [done|done|]. eapply acct_less; [|exact Ht]. lia.
Qed.

Lemma runs_bind {A B : Type} m (D E : gset nat) (n j k : Z) (c : M A) (f : A -> M B) D1 D2 P Q :
  runs m D n c j D1 E P -> (forall a, P a -> runs m (D1 a) j (f a) k D2 E Q) -> runs m D n (mbind c f) k D2 E Q.
Proof.
  intros Hc Hf p Hp. unfold mbind. eapply hoare_bind; [by apply Hc|]. intros [[a|[e| |]] p1]; simpl.
  - apply hoare_pure. intros Ha. apply hoare_pure. intros Hp1. by apply Hf.
  - apply hoare_ret. done.
  - by intros s Hs.
  - by intros s Hs.
Qed.

Lemma steady_bind {A B : Type} m (D : gset nat) (n j k : Z) (c : M A) (f : A -> M B) D' P Q :
  steady m D n c j P -> (forall a, P a -> runs m D j (f a) k D' D Q) -> runs m D n (mbind c f) k D' D Q.
Proof. apply runs_bind. Qed.

Lemma runs_weaken {A : Type} m (D E : gset nat) (n n' k k' : Z) (c : M A) D' (Q Q' : A -> Prop) :
  n <= n' -> k' <= k -> runs m D n c k D' E Q -> (forall a, Q a -> Q' a) -> runs m D n' c k' D' E Q'.
Proof.
  intros Hn Hk Hc Hq p Hp. apply (hoare_pre _ _ (acct m (remaining p + n))); [intros t; apply acct_less; lia|].
  eapply hoare_weaken; [by apply Hc|]. intros [[a|[e| |]] p1] t; simpl; try done.
  intros (Ha & Hp1 & Ht). split_and!; [auto|done|]. eapply acct_less; [|exact Ht]. lia.
Qed.

(** A program of the tree. *)
Lemma runs_run {A : Type} m (D : gset nat) (n k : Z) (c : W A) (Q : A -> Prop) : 0 <= k -> pays m n c k Q -> steady m D n (mrun c) k Q.
Proof.
  intros Hk Hc p Hp. pose proof (remaining_nonneg _ _ _ Hp) as Hr. unfold mrun.
  eapply hoare_invariant; [intros t; by apply (acct_covered m (remaining p))|].
  eapply hoare_bind; [apply hoare_attempt, Hc|]. intros r. apply hoare_ret. intros t. simpl. destruct r as [a|[]]; try done. by intros [Ha Ht].
Qed.

Lemma runs_try {A : Type} m (D E : gset nat) (n k : Z) (c : M A) (Q : A -> Prop) :
  0 <= k -> steady m D n c k Q ->
  runs m D n (mtry c) 0 (fun _ => D) E (fun r => match r with Ok a => Q a | Err (Failed _) => True | Err _ => False end).
Proof.
  intros Hk Hc p Hp. unfold mtry. eapply hoare_bind; [by apply Hc|]. intros [r p1]. apply hoare_ret. intros t. simpl.
  destruct r as [a|[e| |]]; try done.
  - intros (Ha & Hp1 & Ht). split_and!; [done|done|]. eapply acct_less; [|exact Ht]. lia.
  - intros (Hp1 & Ht). split_and!; [done|done|]. by rewrite Z.add_0_r.
Qed.

Lemma runs_of {A : Type} m (D : gset nat) (n : Z) (r : Run A) : 0 <= n -> clean r -> steady m D n (mof r) n (fun a => r = Ok a).
Proof.
  intros Hn Hr p Hp. apply hoare_ret. intros t Ht. simpl. destruct r as [a|[]]; try done. split; [done|]. eapply acct_less; [|exact Ht]. lia.
Qed.

Lemma runs_res {A : Type} m (D : gset nat) (n : Z) (r : Res A) : 0 <= n -> steady m D n (mof (lift r)) n (fun a => r = Ok a).
Proof.
  intros Hn. eapply runs_weaken; [| |apply (runs_of m D n); [done|apply clean_lift]|]; [lia|lia|]. intros a Ha. by destruct r; simplify_eq/=.
Qed.

Lemma runs_fail {A : Type} m (D : gset nat) (n k : Z) e D' (Q : A -> Prop) : 0 <= n -> runs m D n (mfail e) k D' D Q.
Proof. intros Hn p Hp. apply hoare_ret. intros t Ht. simpl. split; [done|]. eapply acct_less; [|exact Ht]. lia. Qed.

Lemma runs_guard {A : Type} m (D : gset nat) (n k : Z) (b : bool) e (c : M A) D' Q :
  0 <= n -> (b = false -> runs m D n c k D' D Q) -> runs m D n (if b then mfail e else c) k D' D Q.
Proof. intros Hn Hc. destruct b; [by apply runs_fail|auto]. Qed.

(** The process is looked at. *)
Lemma runs_current {B : Type} m (D E : gset nat) (n k : Z) (f : process -> M B) D' Q :
  (forall p, alive m D p -> hoare covered (acct m (remaining p + n)) (f p p)
      (fun x t => match x.1 with
                  | Ok a => Q a /\ alive m (D' a) x.2 /\ acct m (remaining x.2 + k) t
                  | Err (Failed _) => alive m E x.2 /\ acct m (remaining x.2) t
                  | Err _ => False
                  end)) ->
  runs m D n (mbind current f) k D' E Q.
Proof. intros Hf p Hp. unfold mbind, current. eapply hoare_bind; [by apply (hoare_ret _ _ (fun x t => x = (Ok p, p) /\ acct m (remaining p + n) t))|].
  intros x. apply hoare_pure. intros ->. by apply Hf. Qed.

(** The process is changed. *)
Lemma hoare_update {B : Type} (f : process -> process) (g : unit -> M B) p I P Q :
  hoare I P (g tt (f p)) Q -> hoare I P (mbind (update f) g p) Q.
Proof. done. Qed.

Lemma runs_each {A : Type} m (D : gset nat) (n : Z) {X : Type} (f : A -> X -> M A) (xs : list X) a (Q : A -> Prop) :
  0 <= n -> Q a -> (forall a x, x ∈ xs -> Q a -> steady m D n (f a x) n Q) -> steady m D n (mfold f a xs) n Q.
Proof.
  intros Hn. revert a. induction xs as [|x xs IH]; intros a Ha Hf; simpl; [by apply runs_ret|].
  eapply runs_bind; [apply Hf; [left|done]|]. intros a' Ha'. apply IH; [done|]. intros b y Hy. apply Hf. by right.
Qed.
End Rules.

(** ** Writers *)

Section Writers.
Context `{RetentionCodec} (h : host) (outer : Res unit) (pid : string) (Huuid : forall k, uuid_text (h_uuid h k)).

Lemma alive_live m D p id : alive m D p -> id ∈ D -> exists b, live_budgets p !! id = Some b /\ hb_scope b = [] /\
  uuid_text (hb_operation b) /\ 0 <= hb_remaining b.
Proof using Type.
  intros Hp Hid. rewrite <- (al_dom _ _ _ Hp) in Hid. apply elem_of_dom in Hid as [b Hb]. exists b. split; [done|]. by eapply al_budget.
Qed.

Lemma managed_live m (D : gset nat) p id : alive m D p -> id ∈ D -> exists l, m = Some l.
Proof using Type.
  intros Hp Hid. destruct m as [l|]; [by exists l|]. exfalso. pose proof (al_managed _ _ _ Hp eq_refl) as HD. rewrite HD in Hid. by apply elem_of_empty in Hid.
Qed.

(** The remainder of a reservation is credit. *)
Lemma alive_spent m D p id b bytes :
  alive m D p -> live_budgets p !! id = Some b -> bytes <= hb_remaining b ->
  let p' := mkProcess (<[id := set_remaining (hb_remaining b - bytes) b]> (live_budgets p)) (owner_budgets p) in
  alive m D p' /\ remaining p' = remaining p - bytes.
Proof using Type.
  intros Hp Hb Hle. cbv zeta. split.
  - destruct Hp as [Hdom Hall Hm]. split; simpl; [|intros n b'|done].
    + by rewrite dom_insert_lookup_L by eauto.
    + destruct (decide (n = id)) as [->|Hne]; [rewrite lookup_insert_eq; intros [= <-]|rewrite lookup_insert_ne by done; apply Hall].
      destruct (Hall _ _ Hb) as (H1 & H2 & H3). simpl. split_and!; [done|done|lia].
  - unfold remaining. simpl. rewrite map_sum_insert. unfold at_key. rewrite Hb. simpl. lia.
Qed.

Lemma runs_consume m (D : gset nat) id bytes :
  id ∈ D -> 0 <= bytes -> steady m D 0 (consume h id bytes) bytes (fun _ => True).
Proof using Huuid.
  intros Hid Hb p Hp. destruct (alive_live _ _ _ _ Hp Hid) as (b & Eb & Hs & Hop & Hrem). destruct (managed_live _ _ _ _ Hp Hid) as [l ->].
  unfold consume, budget, mbind, current. cbn [bind ret]. unfold bind at 1 2. cbn [ret]. unfold mof. rewrite Eb. cbn [ok_or ret].
  change (hoare covered (acct (Some l) (remaining p + 0))
    ((if bytes <=? hb_remaining b
      then update (fun p => mkProcess (<[id := set_remaining (hb_remaining b - bytes) b]> (live_budgets p)) (owner_budgets p))
      else mrun (extend h b bytes)) p)
    (fun x t => match x.1 with
                | Ok _ => True /\ alive (Some l) D x.2 /\ acct (Some l) (remaining x.2 + bytes) t
                | Err (Failed _) => alive (Some l) D x.2 /\ acct (Some l) (remaining x.2) t
                | Err _ => False
                end)).
  destruct (Z.leb_spec bytes (hb_remaining b)) as [Hle|Hgt].
  - apply hoare_ret. intros t Ht. simpl. destruct (alive_spent _ _ _ _ _ _ Hp Eb Hle) as [Ha Hr]. split_and!; [done|done|].
    eapply acct_less; [|exact Ht]. simpl in Hr. rewrite Hr. lia.
  - exact (runs_run (Some l) D 0 bytes _ _ Hb (pays_extend h Huuid l b bytes Hs Hop Hb) p Hp).
Qed.

Lemma runs_begin_with m (D : gset nat) dir name maximum reservation :
  (length dir <= 8)%nat -> ordinary dir name -> 0 <= maximum -> (forall id, reservation = Some id -> id ∈ D) ->
  steady m D 0 (begin_with_budget h outer dir name maximum reservation) (ENTRY_CHARGE + maximum)
    (fun r => forall a, r = Some a -> exists b, admitted dir name b a).
Proof using Huuid.
  intros Hlen Ho Hmax Hres. unfold begin_with_budget.
  eapply (steady_bind _ _ _ 0); [apply runs_run; [lia|by apply pays_scope]|]. intros [s|] Hs.
  2:{ subst m. intros p Hp. apply hoare_ret. intros t Ht. simpl. split_and!; [done|done|by eapply acct_free]. }
  destruct Hs as [-> _]. eapply (steady_bind _ _ _ 0); [apply runs_run; [lia|by apply pays_lock]|]. intros _ _.
  eapply (steady_bind _ _ _ 0); [apply runs_run; [lia|by apply pays_limits]|]. intros l [-> Hv].
  eapply (steady_bind _ _ _ 0); [by apply runs_res|]. intros _ _. destruct reservation as [id|].
  - specialize (Hres id eq_refl). eapply (steady_bind _ _ _ 0 _ _ _ _ (fun b => hb_scope b = [])).
    { intros p Hp. destruct (alive_live _ _ _ _ Hp Hres) as (b & Eb & Hs & _). unfold budget, mbind, current, mof.
      eapply (hoare_bind _ _ _ (fun x t => x = (Ok p, p) /\ acct (Some l) (remaining p + 0) t)); [by apply hoare_ret|].
      intros x. apply hoare_pure. intros ->. apply hoare_ret. intros t Ht. simpl. rewrite Eb. simpl. done. }
    intros b Hb. apply runs_guard; [done|]. intros _.
    eapply (steady_bind _ _ _ 0); [apply runs_of; [done|by destruct (checked_add _ _)]|]. intros charge Hc.
    unfold ok_or in Hc. destruct (checked_add _ _) eqn:Ec; [|done]. injection Hc as ->. apply checked_add_some in Ec as [-> _].
    eapply (steady_bind _ _ _ (maximum + INTENT_CHARGE)); [apply runs_consume; [done|unfold INTENT_CHARGE, CONTROL_BYTES, ENTRY_CHARGE; lia]|]. intros _ _.
    eapply (steady_bind _ _ _ (ENTRY_CHARGE + maximum)); [apply runs_run; [unfold ENTRY_CHARGE; lia|]|].
    { apply pays_declared; [done|unfold ENTRY_CHARGE; lia|unfold INTENT_CHARGE, ENTRY_CHARGE, CONTROL_BYTES; lia]. }
    intros a Ha. apply runs_ret; [lia| |done]. intros x [= <-]. eauto.
  - eapply (steady_bind _ _ _ (ENTRY_CHARGE + maximum)); [apply runs_run; [unfold ENTRY_CHARGE; lia|by apply pays_single]|].
    intros a Ha. apply runs_ret; [lia| |done]. intros x [= <-]. eauto.
Qed.

Lemma directory_live p dir id : directory_budget p dir = Some id -> id ∈ dom (live_budgets p).
Proof using Type.
  unfold directory_budget. intros Hh%head_Some_elem_of. apply list_elem_of_omap in Hh as (root & _ & Hr).
  destruct (owner_budgets p !! root) as [i|]; simpl in Hr; [|done]. destruct (live_budgets p !! i) eqn:E; simpl in Hr; simplify_eq.
  apply elem_of_dom. eauto.
Qed.

Lemma runs_begin m (D : gset nat) dir name maximum :
  (length dir <= 8)%nat -> ordinary dir name -> 0 <= maximum ->
  steady m D 0 (begin h outer dir name maximum) (ENTRY_CHARGE + maximum)
    (fun r => forall a, r = Some a -> exists b, admitted dir name b a).
Proof using Huuid.
  intros Hlen Ho Hmax. unfold begin. apply runs_current. intros p Hp. eapply runs_begin_with; try done.
  intros id Hid%directory_live. by rewrite (al_dom _ _ _ Hp) in Hid.
Qed.

(** The result of a step that may have failed. *)
Definition ended {A : Type} (r : Run A) : Prop := match r with Ok _ | Err (Failed _) => True | Err _ => False end.

Lemma runs_ended {A : Type} m (D : gset nat) (r : Run A) : ended r -> steady m D 0 (mof r) 0 (fun _ => True).
Proof using Type. intros Hr. eapply runs_weaken; [| |by apply (runs_of m D 0); [|destruct r as [|[]]]|done]; lia. Qed.

Lemma runs_tried {A : Type} m (D : gset nat) (n : Z) (c : W A) Q : pays m n c 0 Q -> steady m D n (mtry (mrun c)) 0 ended.
Proof using Type.
  intros Hc. eapply runs_weaken; [| |apply (runs_try m D D n 0); [lia|by apply runs_run]|]; [lia|lia|]. by intros [|[]].
Qed.

Lemma runs_retire m (D : gset nat) dir name a :
  ordinary dir name -> (forall x, a = Some x -> exists b, admitted dir name b x) -> steady m D 0 (mrun (retire h a)) 0 (fun _ => True).
Proof using Type.
  intros Ho Ha. apply runs_run; [lia|]. unfold retire. destruct a as [a|]; [|by apply pays_ret]. destruct (Ha a eq_refl) as [b Hb]. by eapply pays_drop.
Qed.

Lemma pays_file m dir name data p :
  ordinary dir name -> temporary_in dir name p ->
  pays m (ENTRY_CHARGE + zlen data)
    (bind (local_io (create_new h p)) (fun _ => bind (local_io (write_all h p data)) (fun _ =>
     bind (local_io (sync_all h)) (fun _ => bind (local_io (rename h p (dir ++ [name]))) (fun _ => sync_dir h dir))))) 0 (fun _ => True).
Proof using Type.
  intros Ho (a & -> & Hp & Hu). pose proof (zlen_nonneg data) as Hd.
  eapply (pays_bind _ _ (zlen data)); [apply (pays_create h m io_err); [done|done|unfold cost; rewrite Hu; lia]|]. intros _ _.
  eapply (pays_bind _ _ 0); [apply (pays_write h m io_err); [done|done|unfold byte_cost; rewrite Hu; lia]|]. intros _ _.
  eapply (pays_bind _ _ 0); [by apply (pays_look h m io_err)|]. intros _ _.
  eapply (pays_bind _ _ 0); [by apply (pays_rename_in h m io_err)|]. intros _ _. by apply pays_sync.
Qed.

Lemma pays_remove_in m dir name p : temporary_in dir name p -> pays m 0 (local_io (remove_file h p)) 0 (fun _ => True).
Proof using Type. intros (a & -> & Hp & _). by apply (pays_error m _ io_err), pays_removed. Qed.

Lemma runs_write m (D : gset nat) dir name data reservation :
  place dir -> ordinary dir name -> (forall id, reservation = Some id -> id ∈ D) ->
  steady m D 0 (write_atomic_with_budget h outer pid dir name data reservation) 0 (fun _ => True).
Proof using Huuid.
  intros Hpl Ho Hres. pose proof (zlen_nonneg data) as Hd. destruct (Hpl) as (Hlen & _). assert (HE : 0 <= ENTRY_CHARGE) by done.
  unfold write_atomic_with_budget. eapply (steady_bind _ _ _ 0); [apply runs_run; [lia|by apply pays_io_guard]|]. intros _ _.
  eapply (steady_bind _ _ _ 0); [apply runs_run; [lia|by apply pays_create_durable]|]. intros _ _.
  eapply (steady_bind _ _ _ (ENTRY_CHARGE + zlen data) _ _ _ _ (fun r => forall a, r = Some a -> exists b, admitted dir name b a)).
  { destruct reservation; [by apply runs_begin_with|by apply runs_begin]. }
  intros a Ha. eapply (steady_bind _ _ _ (ENTRY_CHARGE + zlen data)).
  { apply runs_run; [lia|]. apply pays_temporary; [done|lia|done|done]. }
  intros tmp Htmp. eapply (steady_bind _ _ _ 0); [by eapply runs_tried, pays_file|]. intros r Hr.
  eapply (steady_bind _ _ _ 0 _ _ _ _ (fun _ => True)).
  { destruct (is_ok r); [by apply runs_ret|]. eapply (steady_bind _ _ _ 0); [by eapply runs_tried, pays_remove_in|]. intros ? _. by apply runs_ret. }
  intros _ _. eapply (steady_bind _ _ _ 0); [by apply (runs_retire m D dir name)|]. intros _ _. by apply runs_ended.
Qed.

Lemma runs_cas m (D : gset nat) dir name data reservation :
  place dir -> ordinary dir name -> (forall id, reservation = Some id -> id ∈ D) ->
  steady m D 0 (cas_batch_write h outer pid dir name data reservation) 0 (fun _ => True).
Proof using Huuid.
  intros (Hlen & _) Ho Hres. pose proof (zlen_nonneg data) as Hd. assert (HE : 0 <= ENTRY_CHARGE) by done. unfold cas_batch_write.
  eapply (steady_bind _ _ _ (ENTRY_CHARGE + zlen data)); [by apply runs_begin_with|]. intros a Ha.
  eapply (steady_bind _ _ _ (ENTRY_CHARGE + zlen data)).
  { apply runs_run; [lia|]. apply pays_temporary; [done|lia|done|done]. }
  intros tmp Htmp. eapply (steady_bind _ _ _ 0); [eapply runs_tried, pays_written; [done|done|lia]|]. intros r Hr.
  eapply (steady_bind _ _ _ 0); [by eapply runs_tried, pays_remove_in|]. intros _ _.
  eapply (steady_bind _ _ _ 0); [by apply (runs_retire m D dir name)|]. intros _ _. by apply runs_ended.
Qed.

Lemma runs_journal m (D : gset nat) root data :
  (length root <= 8)%nat -> ordinary root Journal.JOURNAL_FILE -> steady m D 0 (append_journal_bytes h outer root data) 0 (fun _ => True).
Proof using Huuid.
  intros Hlen Ho. pose proof (zlen_nonneg data) as Hd. unfold append_journal_bytes. case_bool_decide; [by apply runs_ret|].
  eapply (steady_bind _ _ _ (ENTRY_CHARGE + zlen data)); [by apply runs_begin|]. intros a Ha.
  eapply (steady_bind _ _ _ 0); [eapply runs_tried, pays_appended; [done|lia]|]. intros r Hr.
  eapply (steady_bind _ _ _ 0); [by apply (runs_retire m D root Journal.JOURNAL_FILE)|]. intros _ _. by apply runs_ended.
Qed.
End Writers.

(** ** Streamed files *)

Section Streams.
Context `{HexCrate} `{Sha256} `{ChunkCodec} `{RetentionCodec} (h : host) (outer : Res unit) (pid : string) (Huuid : forall k, uuid_text (h_uuid h k)).
Context (f : SnapshotFile) (prefetch : bool) (read_range : Z -> Z -> Res bytes) (Hchunk : 0 < CHUNK_SIZE).

Lemma pays_tagged {A : Type} m (n k : Z) stage (c : W A) Q : pays m n c k Q -> pays m n (tagged stage c) k Q.
Proof using Type.
  intros Hc K s Hs. specialize (Hc K s Hs). unfold tagged. by destruct (c s) as [[a|[]] s'].
Qed.
Lemma runs_mtagged {A : Type} m (D : gset nat) (n k : Z) stage (c : M A) Q : steady m D n c k Q -> steady m D n (mtagged stage c) k Q.
Proof using Type.
  intros Hc p Hp s Hs. specialize (Hc p Hp s Hs). unfold mtagged, bind. by destruct (c p s) as [[[[a|[]] p']|[]] s'].
Qed.

Lemma pays_append_range m tmp offset hashed ro rl owner (n : Z) :
  plain tmp -> uncharged tmp = false -> 0 <= rl <= n ->
  pays m n (append_range h tmp (offset, hashed) (ro, rl, owner)) (n - rl) (fun st => st.1 = offset + rl).
Proof using Type.
  intros Hp Hu Hl. unfold append_range. apply pays_guard; [lia|].
  intros [_ Hz%negb_false_iff%Z.eqb_eq]%orb_false_iff. eapply (pays_bind _ _ n); [apply pays_gate; lia|]. intros _ _.
  eapply (pays_bind _ _ (n - rl)); [apply pays_tagged, (pays_append h m io_err); [done|lia|unfold byte_cost; rewrite Hu; lia]|].
  intros _ _. by apply pays_ret.
Qed.

Lemma read_ranges_paid m tmp offset hashed ranges :
  plain tmp -> uncharged tmp = false -> 0 <= offset < file_size f -> read_ranges f prefetch read_range offset = Ok ranges ->
  exists o, offset < o <= file_size f /\
    pays m (file_size f - offset) (fold_w (append_range h tmp) (offset, hashed) ranges) (file_size f - o) (fun st => st.1 = o).
Proof using Hchunk.
  intros Hp Hu Ho Hr. unfold read_ranges in Hr. set (len := Z.min (file_size f - offset) CHUNK_SIZE) in *.
  assert (Hone : forall first, pays m (file_size f - offset) (append_range h tmp (offset, hashed) (offset, len, first))
    (file_size f - (offset + len)) (fun st => st.1 = offset + len)).
  { intros first. replace (file_size f - (offset + len)) with (file_size f - offset - len) by lia. apply pays_append_range; [done|done|lia]. }
  destruct (prefetch && _) eqn:Eg.
  - apply rbind_ok in Hr as (first & _ & Hr). apply rbind_ok in Hr as (second & _ & [= <-]).
    apply andb_true_iff in Eg as [_ Eg%Z.ltb_lt]. set (next := Z.min (file_size f - (offset + len)) CHUNK_SIZE).
    exists (offset + len + next). split; [lia|]. cbn [fold_w]. eapply pays_bind; [apply Hone|]. intros [o1 h1] E1. simpl in E1. subst o1.
    eapply (pays_bind _ _ (file_size f - (offset + len + next)) _ _ _ (fun st => st.1 = offset + len + next)); [|intros st Est; by apply pays_ret].
    replace (file_size f - (offset + len + next)) with (file_size f - (offset + len) - next) by lia. apply pays_append_range; [done|done|lia].
  - apply rbind_ok in Hr as (first & _ & [= <-]). exists (offset + len). split; [lia|]. cbn [fold_w].
    eapply pays_bind; [apply Hone|]. intros st Est. by apply pays_ret.
Qed.

Lemma pays_append_ranges m tmp fuel : forall offset hashed,
  plain tmp -> uncharged tmp = false -> (Z.to_nat (file_size f - offset) <= fuel)%nat -> 0 <= offset <= file_size f ->
  pays m (file_size f - offset) (append_ranges h f prefetch read_range fuel tmp offset hashed) 0 (fun _ => True).
Proof using Hchunk.
  induction fuel as [|fuel IH]; intros offset hashed Hp Hu Hfuel Ho; cbn [append_ranges].
  all: destruct (Z.leb_spec (file_size f) offset); [apply pays_ret; [lia|done]|].
  { lia. }
  eapply (pays_bind _ _ (file_size f - offset)); [apply pays_tagged, pays_res; lia|]. intros ranges Hr.
  destruct (read_ranges_paid m tmp offset hashed ranges Hp Hu ltac:(lia) Hr) as (o & Hlt & Hpay).
  eapply pays_bind; [exact Hpay|]. intros [o' h'] Eo. simpl in Eo. subst o'. apply IH; [done|done|lia|lia].
Qed.

Lemma pays_filled m tmp :
  plain tmp -> uncharged tmp = false -> 0 <= file_size f -> pays m (file_size f) (stream_into h f prefetch read_range tmp) 0 (fun _ => True).
Proof using Hchunk.
  intros Hp Hu Hs. unfold stream_into.
  eapply (pays_bind _ _ 0); [rewrite <- (Z.sub_0_r (file_size f)) at 1; apply pays_append_ranges; [done|done|lia|lia]|]. intros hashed _.
  apply pays_guard; [lia|]. intros _. eapply (pays_bind _ _ 0); [by apply pays_gate|]. intros _ _. by apply pays_tagged, (pays_look h m io_err).
Qed.

Lemma pays_run m (r : Run unit) : ended r -> pays m 0 (of_run r) 0 (fun _ => True).
Proof using Type.
  intros Hr K s Hs. split; [exists []; by rewrite app_nil_r|]. destruct r as [|[]]; try done. simpl. by rewrite Z.add_0_r in Hs.
Qed.

Lemma pays_stream m dir name tmp :
  temporary_in dir name tmp -> 0 <= file_size f ->
  pays m (ENTRY_CHARGE + file_size f) (stream_temporary h f prefetch read_range tmp) 0 (fun _ => True).
Proof using Hchunk.
  intros Htmp Hs. destruct (Htmp) as (a & -> & Hp & Hu). unfold stream_temporary.
  eapply (pays_bind _ _ (file_size f)); [apply pays_tagged, (pays_create h m io_err); [done|done|unfold cost; rewrite Hu; lia]|]. intros _ _.
  eapply (pays_bind _ _ 0); [apply (pays_attempt m _ 0); [lia|by apply pays_filled]|]. intros r Hr.
  eapply (pays_bind _ _ 0 0 _ _ (fun _ => True)); [|intros _ _; apply pays_run; by destruct r as [|[]]].
  destruct (is_ok r); [by apply pays_ret|]. eapply (pays_bind _ _ 0); [by eapply pays_tried, pays_remove_in|]. intros _ _. by apply pays_ret.
Qed.

Lemma runs_stream m (D : gset nat) dir reservation :
  place dir -> ordinary dir (Durable.blob_name (file_digest f)) -> 0 <= file_size f -> (forall id, reservation = Some id -> id ∈ D) ->
  steady m D 0 (write_reader_blob_stream h outer pid f prefetch read_range dir reservation) 0 (fun _ => True).
Proof using Huuid Hchunk.
  intros Hpl Ho Hs Hres. destruct (Hpl) as (Hlen & _). assert (HE : 0 <= ENTRY_CHARGE) by done. unfold write_reader_blob_stream. cbv zeta.
  eapply (steady_bind _ _ _ 0); [apply runs_run; [lia|by apply pays_tagged, pays_create_durable]|]. intros _ _.
  eapply (steady_bind _ _ _ (ENTRY_CHARGE + file_size f)); [by apply runs_mtagged, runs_begin_with|]. intros a Ha.
  eapply (steady_bind _ _ _ (ENTRY_CHARGE + file_size f)); [apply runs_run; [lia|]; apply pays_temporary; [done|lia|done|done]|]. intros tmp Htmp.
  assert (Hretire : steady m D 0 (mrun (retire h a)) 0 (fun _ => True)) by (by eapply runs_retire).
  eapply (steady_bind _ _ _ 0); [by eapply runs_tried, pays_stream|]. intros filled Hf. destruct (is_ok filled).
  - eapply (steady_bind _ _ _ 0 _ _ _ _ ended).
    { destruct Htmp as (x & -> & Hp & Hu). eapply runs_tried, (pays_bind _ _ 0); [by apply pays_tagged, (pays_rename_in h m io_err)|].
      intros _ _. by apply pays_tagged, pays_sync. }
    intros r Hr. eapply (steady_bind _ _ _ 0); [exact Hretire|]. intros _ _.
    eapply (steady_bind _ _ _ 0); [by eapply runs_tried, pays_remove_in|]. intros _ _. by apply runs_ended.
  - eapply (steady_bind _ _ _ 0); [exact Hretire|]. intros _ _. by apply runs_ended.
Qed.
End Streams.
End AdmissionSafe.
