(* ===== verification/AdmissionUses.v ===== *)
(** * AdmissionUses

    Reservations and the uses of a workspace keep the account of the process. *)

From S2P Require Import Prelude Types Faults Text Profile Btree Frames Wire ChunkMap Closure Disk Records Pins Journal Durable Capacity Incremental ScopeTree Owners Inventory Retention Admission InventoryFacts OwnersFacts AdmissionFacts AdmissionWriters AdmissionSafe.
Import Pins Owners Digests Scope Closure Records Capacity ScopeTree Inventory Retention Admission InventoryFacts OwnersFacts AdmissionFacts AdmissionWriters AdmissionSafe.
Local Open Scope string_scope.
Local Open Scope list_scope.
Local Open Scope Z_scope.

Module AdmissionUses.

(** ** Sizes *)

(** What fits into memory. *)
Definition in_memory (n : Z) : Prop := n <= 2 ^ 58.

Lemma sum_pages_nonneg pages over n : sum_pages pages over = Ok n -> 0 <= n.
Proof.
  unfold sum_pages. assert (Hgen : forall a, 0 <= a -> for_each (fun n p => ok_or (checked_add n (zlen p.2)) (limit over)) a pages = Ok n -> 0 <= n).
  { induction pages as [|p pages IH]; simpl; intros a Ha Hn; [congruence|]. apply rbind_ok in Hn as (a' & Ha'%ok_or_ok & Hn).
    apply checked_add_some in Ha' as [-> _]. eapply IH; [|exact Hn]. pose proof (zlen_nonneg p.2). lia. }
  by apply Hgen.
Qed.

(** The charge of a hydration is computed without overflow. *)
Lemma hydration_clean m manifest_bytes files pages :
  0 <= mi_objects m -> in_memory (mi_objects m) -> 0 <= manifest_bytes -> in_memory manifest_bytes -> 0 <= files -> in_memory files ->
  in_memory (zlen pages) -> clean (hydration_charge m manifest_bytes files pages).
Proof.
  unfold in_memory. intros Ho Ho' Hb Hb' Hf Hf' Hp. unfold hydration_charge. apply clean_bind; [apply clean_lift|]. intros proof _.
  apply clean_bind; [apply clean_ok_or|]. intros control Hc%ok_or_ok. apply bind_Some in Hc as (n & [-> _]%checked_add_some & [-> _]%checked_add_some).
  apply clean_bind; [apply clean_ok_or|]. intros manifests _. apply clean_bind; [apply clean_ok_or|]. intros metadata _.
  apply clean_bind.
  - apply clean_or_panic. eexists. apply checked_add_some. split; [done|].
    assert (manifest_bytes / (128 * 1024) <= manifest_bytes) by (apply Z.div_le_upper_bound; lia).
    assert (files / 64 <= files) by (apply Z.div_le_upper_bound; lia). unfold u64_max. lia.
  - intros writes _. apply clean_bind; [apply clean_ok_or|]. intros charge _. apply clean_bind; [apply clean_ok_or|]. done.
Qed.

Lemma hydration_nonneg m manifest_bytes files pages r :
  0 <= mi_objects m -> 0 <= mi_bytes m -> 0 <= manifest_bytes -> 0 <= files -> hydration_charge m manifest_bytes files pages = Ok r -> 0 <= r.1.
Proof.
  intros Ho Hm Hb Hf. unfold hydration_charge. intros Hr.
  apply rbind_ok in Hr as (proof & Hpr & Hr). assert (Hproof : 0 <= proof) by (destruct (sum_pages _ _) eqn:E; simplify_eq/=; by eapply sum_pages_nonneg).
  apply rbind_ok in Hr as (control & Hc%ok_or_ok & Hr). apply bind_Some in Hc as (n & [-> _]%checked_add_some & [-> _]%checked_add_some).
  apply rbind_ok in Hr as (manifests & [-> _]%ok_or_ok%checked_mul_some & Hr). apply rbind_ok in Hr as (metadata & Hmd%ok_or_ok & Hr).
  apply bind_Some in Hmd as (a & [-> _]%checked_add_some & Hmd). apply bind_Some in Hmd as (b & [-> _]%checked_mul_some & [-> _]%checked_add_some).
  apply rbind_ok in Hr as (writes & [-> _]%ok_or_ok%checked_add_some & Hr). apply rbind_ok in Hr as (charge & Hch%ok_or_ok & Hr).
  apply bind_Some in Hch as (b & [-> _]%checked_mul_some & [-> _]%checked_add_some). apply rbind_ok in Hr as (entries & _ & [= <-]). simpl.
  pose proof (Z.div_pos manifest_bytes (128 * 1024) ltac:(lia) ltac:(lia)). pose proof (Z.div_pos files 64 ltac:(lia) ltac:(lia)).
  pose proof (zlen_nonneg pages). unfold INTENT_CHARGE, CONTROL_BYTES, ENTRY_CHARGE. lia.
Qed.

Section Uses.
Context `{HexCrate} `{Sha256} `{PageBytes} `{UuidCrate} `{CommitCodec} `{PinCodec} `{RetentionCodec}.
Context (h : host) (outer : Res unit) (pid : string) (sid id : string).
Context (Huuid : forall k, uuid_text (h_uuid h k)) (Horder : forall k l, h_order h k l ≡ₚ l).
Let root : rpath := owner_root sid id.

(** ** Reservations *)

Lemma runs_reserve_charge l (D : gset nat) binding charge entries proof :
  validate_limits (h_reachable h) l = Ok tt -> 0 <= charge ->
  runs (Some l) D 0 (reserve_charge h sid id [] binding l charge entries proof) 0 (fun n => {[n]} ∪ D) D (fun n => n ∉ D).
Proof using Huuid.
  intros Hv Hc. unfold reserve_charge. eapply (steady_bind _ _ _ 0); [apply runs_run; [lia|by apply pays_lock]|]. intros _ _.
  eapply (steady_bind _ _ _ (0 + charge)); [apply runs_run; [lia|apply pays_charge; [done|by intros x [= <-]|done..]]|]. intros _ _.
  eapply (steady_bind _ _ _ (0 + charge)); [apply runs_run; [lia|by apply pays_uuid]|]. intros operation Hop.
  eapply (steady_bind _ _ _ (0 + charge)); [apply runs_run; [lia|by apply pays_reservation]|]. intros _ _.
  apply runs_current. intros p Hp. set (n := fresh (dom (live_budgets p) : gset nat)).
  assert (Hn : n ∉ D) by (rewrite <- (al_dom _ _ _ Hp); apply is_fresh).
  assert (Hnone : live_budgets p !! n = None) by (apply not_elem_of_dom; by rewrite (al_dom _ _ _ Hp)).
  apply hoare_update, hoare_ret. intros t Ht. simpl. split_and!; [done| |].
  - destruct Hp as [Hdom Hall Hm]. split; simpl; [by rewrite dom_insert_L, Hdom| |done]. intros k b.
    destruct (decide (k = n)) as [->|Hne]; [rewrite lookup_insert_eq; by intros [= <-]|rewrite lookup_insert_ne by done; apply Hall].
  - eapply acct_less; [|exact Ht]. unfold remaining. simpl. rewrite map_sum_insert. unfold at_key. rewrite Hnone. simpl. lia.
Qed.

Lemma runs_drop_budget m (D : gset nat) n :
  runs m D 0 (drop_budget h n) 0 (fun _ => D ∖ {[n]}) (D ∖ {[n]}) (fun _ => True).
Proof using Type.
  unfold drop_budget. apply runs_current. intros p Hp. destruct (live_budgets p !! n) as [b|] eqn:Eb.
  2:{ apply hoare_ret. intros t Ht. simpl. split_and!; [done| |done]. destruct Hp as [Hdom Hall Hm].
      assert (Hn : n ∉ D) by (rewrite <- Hdom; by apply not_elem_of_dom). rewrite difference_disjoint_L by (apply disjoint_singleton_r, Hn). by split. }
  destruct (al_budget _ _ _ Hp _ _ Eb) as (Hs & Hop & Hrem). rewrite Hs.
  apply hoare_update.
  match goal with |- hoare _ _ (mrun _ ?q) _ => set (p' := q) end.
  assert (Hp' : alive m (D ∖ {[n]}) p').
  { destruct Hp as [Hdom Hall Hm]. split; simpl.
    - by rewrite dom_delete_L, Hdom.
    - intros k b' Hb'%lookup_delete_Some. destruct Hb' as [_ Hb']. by eapply Hall.
    - intros E. rewrite (Hm E). apply empty_difference_L. }
  assert (Hr : remaining p' = remaining p - hb_remaining b) by (unfold remaining; simpl; rewrite map_sum_delete; unfold at_key; by rewrite Eb).
  eapply hoare_pre; [intros t Ht; eapply (acct_less m _ (remaining p' + 0)); [|exact Ht]; lia|].
  refine (runs_run m (D ∖ {[n]}) 0 0 _ _ ltac:(lia) _ p' Hp'). eapply (pays_bind _ _ 0); [apply pays_removed; by apply (reservation_uncharged _ "")|].
  intros r _. destruct (is_ok r); [|by apply pays_ret]. eapply (pays_bind _ _ 0); [by eapply pays_tried, pays_sync|]. intros _ _. by apply pays_ret.
Qed.

(** The files that are missing are counted once. *)
Lemma sees_missing_files t manifest :
  Forall (fun f => 0 <= file_size f) manifest ->
  sees t (fold_w (missing_file h) (mkMissing ∅ 0 0) manifest) (fun m => 0 <= mi_bytes m /\ 0 <= mi_objects m <= zlen manifest).
Proof using Type.
  intros Hsize. apply (sees_fold _ (fun done m => 0 <= mi_bytes m /\ 0 <= mi_objects m <= zlen done)); [|done].
  intros done0 m f rest E [Hb Ho]. assert (Hf : 0 <= file_size f) by (rewrite list.Forall_forall in Hsize; apply Hsize; rewrite E, elem_of_app; right; left).
  assert (Hlen : zlen (done0 ++ [f]) = zlen done0 + 1) by (unfold zlen; rewrite length_app; simpl; lia). unfold missing_file.
  eapply sees_bind; [apply sees_res_true|]. intros digest _. case_bool_decide; [apply sees_ret; lia|].
  eapply sees_bind; [apply sees_stat|]. intros n _. destruct (match n with Ok _ => _ | Err _ => _ end); [apply sees_ret; simpl; lia|].
  eapply sees_bind; [apply sees_res_true|]. intros bytes Hbytes%ok_or_ok. apply checked_add_some in Hbytes as [-> _]. apply sees_ret. simpl. lia.
Qed.

(** What the manifest and the closure of a hydration are in memory. *)
Definition loaded (manifest : list SnapshotFile) (closure : option ValidatedSnapshotClosure) : Prop :=
  Forall (fun f => 0 <= file_size f) manifest /\ in_memory (zlen manifest) /\
  (forall b, to_json manifest = Ok b -> in_memory (zlen b)) /\
  in_memory (zlen (match closure with Some c => vc_pages c | None => [] end)).

Lemma runs_reserve m (D : gset nat) manifest closure :
  loaded manifest closure ->
  runs m D 0 (reserve h outer sid id manifest closure) 0 (fun r => match r with Some n => {[n]} ∪ D | None => D end) D
    (fun r => forall n, r = Some n -> n ∉ D).
Proof using Huuid.
  intros (Hsize & Hman & Hjson & Hpages). unfold reserve.
  eapply (steady_bind _ _ _ 0); [apply runs_run; [lia|by apply pays_scope; [lia|simpl; lia]]|]. intros [s|] Hs; [destruct Hs as [-> _]|by apply runs_ret].
  eapply (steady_bind _ _ _ 0); [apply runs_run; [lia|by apply pays_lock]|]. intros _ _.
  eapply (steady_bind _ _ _ 0); [apply runs_run; [lia|apply pays_sees; [lia|intros; apply sees_owner]]|]. intros binding _.
  eapply (steady_bind _ _ _ 0); [apply runs_run; [lia|apply pays_sees; [lia|intros; apply sees_store]]|]. intros _ _.
  eapply (steady_bind _ _ _ 0); [apply runs_run; [lia|by apply pays_limits]|]. intros l [-> Hv].
  apply runs_guard; [lia|]. intros _. eapply (steady_bind _ _ _ 0); [by apply runs_res|]. intros mb Hmb.
  assert (Hmb' : 0 <= mb /\ in_memory mb).
  { unfold serialized_size in Hmb. destruct (to_json manifest) as [b|] eqn:E; [|done]. apply reject_ok in Hmb as [_ [= <-]]. auto using zlen_nonneg. }
  eapply (steady_bind _ _ _ 0); [apply runs_run; [lia|apply pays_sees; [lia|intros t _; by apply sees_missing_files]]|]. intros mi (Hb & Ho1 & Ho2).
  eapply (steady_bind _ _ _ 0); [apply runs_of; [lia|apply hydration_clean; try apply zlen_nonneg; try apply Hmb'; try done; unfold in_memory in *; lia]|].
  intros r Hr. assert (0 <= r.1) by (eapply hydration_nonneg; [..|exact Hr]; try apply zlen_nonneg; try apply Hmb'; lia).
  eapply (runs_bind _ _ _ _ 0); [by apply runs_reserve_charge|]. intros n Hn. apply runs_ret; [lia| |done]. by intros n' [= <-].
Qed.

Lemma runs_reserve_root l (D : gset nat) binding closure bytes :
  validate_limits (h_reachable h) l = Ok tt -> 0 <= bytes ->
  runs (Some l) D 0 (reserve_root h sid id [] l binding closure bytes) 0 (fun n => {[n]} ∪ D) D (fun n => n ∉ D).
Proof using Huuid.
  intros Hv Hb. unfold reserve_root. eapply (steady_bind _ _ _ 0); [apply runs_run; [lia|by apply pays_lock]|]. intros _ _.
  eapply (steady_bind _ _ _ 0); [apply runs_of; [lia|apply clean_ok_or]|]. intros writes Hw%ok_or_ok. apply checked_add_some in Hw as [-> _].
  eapply (steady_bind _ _ _ 0); [by apply runs_res|]. intros sum Hsum%sum_pages_nonneg.
  eapply (steady_bind _ _ _ 0); [apply runs_of; [lia|apply clean_ok_or]|]. intros charge Hc%ok_or_ok.
  eapply (steady_bind _ _ _ 0); [apply runs_of; [lia|apply clean_ok_or]|]. intros entries _.
  apply runs_reserve_charge; [done|]. apply bind_Some in Hc as (a & [-> _]%checked_add_some & Hc). apply bind_Some in Hc as (b & [-> _]%checked_add_some & Hc).
  apply bind_Some in Hc as (k & [-> _]%checked_mul_some & [-> _]%checked_add_some).
  pose proof (zlen_nonneg (vc_pages closure)). pose proof (zlen_nonneg (vc_descriptor_bytes closure)).
  unfold INTENT_CHARGE, CONTROL_BYTES, ENTRY_CHARGE. lia.
Qed.

(** ** The journal anew *)

(** A record is written with fewer fields, and shorter names of them, than the
    file it is of. *)
Definition lines_shorter `{RecordCodec} : Prop :=
  forall (manifest : list SnapshotFile) b lines,
    to_json manifest = Ok b -> Journal.encode_lines (Journal.record_of <$> manifest) = Ok lines -> zlen lines <= zlen b.

Lemma pays_inventory m : pays m 0 (inventory_limits h outer []) 0 (fun _ => True).
Proof using Type.
  unfold inventory_limits. eapply (pays_bind _ _ 0); [by apply pays_scope; [lia|simpl; lia]|]. intros [s|] _; [|by apply pays_ret].
  eapply pays_weaken; [| |by apply (pays_limits h m 0)|done]; lia.
Qed.

Lemma runs_compact `{RecordCodec} m (D : gset nat) manifest :
  lines_shorter -> steady m D 0 (compact_journal h outer pid sid id manifest) 0 (fun _ => True).
Proof using Huuid.
  intros Hlines. assert (HE : 0 <= ENTRY_CHARGE) by done. assert (Ho : ordinary root Journal.JOURNAL_FILE) by (by apply data_ordinary).
  unfold compact_journal. fold root. eapply (steady_bind _ _ _ 0); [apply runs_run; [lia|by apply pays_scope; [lia|simpl; lia]]|]. intros s Hs.
  eapply (steady_bind _ _ _ 0 _ _ _ _ (fun _ => True)).
  { destruct s as [s|]; [destruct Hs as [-> _]|by apply runs_ret].
    eapply (steady_bind _ _ _ 0); [apply runs_run; [lia|apply pays_inventory]|]. intros l _. by apply runs_ret. }
  intros most _. eapply (steady_bind _ _ _ 0); [by apply runs_res|]. intros maximum Hmax.
  assert (Hb : exists b, to_json manifest = Ok b /\ maximum = zlen b).
  { unfold serialized_size in Hmax. destruct (to_json manifest) as [b|]; [|done]. apply reject_ok in Hmax as [_ [= <-]]. eauto. }
  destruct Hb as (b & Eb & ->). pose proof (zlen_nonneg b) as Hb.
  eapply (steady_bind _ _ _ (ENTRY_CHARGE + zlen b)); [by apply runs_begin; [|simpl; lia|..]|]. intros a Ha.
  eapply (steady_bind _ _ _ (ENTRY_CHARGE + zlen b)); [apply runs_run; [lia|]; apply pays_temporary; [done|lia|done|done]|]. intros tmp Htmp.
  eapply (steady_bind _ _ _ 0 _ _ _ _ ended).
  { destruct Htmp as (x & -> & Hp & Hu). eapply runs_tried.
    eapply (pays_bind _ _ (zlen b)); [apply (pays_create h m io_err); [done|done|unfold cost; rewrite Hu; lia]|]. intros _ _.
    eapply (pays_bind _ _ (zlen b)); [by apply pays_res|]. intros lines Hl. specialize (Hlines _ _ _ Eb Hl).
    eapply (pays_bind _ _ 0); [apply (pays_write h m io_err); [done|done|unfold byte_cost; rewrite Hu; lia]|]. intros _ _.
    eapply (pays_bind _ _ 0); [by apply (pays_look h m io_err)|]. intros _ _.
    eapply (pays_bind _ _ 0); [by apply (pays_rename_in h m io_err)|]. intros _ _. by apply pays_sync. }
  intros r Hr. eapply (steady_bind _ _ _ 0 _ _ _ _ (fun _ => True)).
  { destruct (is_ok r); [by apply runs_ret|]. eapply (steady_bind _ _ _ 0); [by eapply runs_tried, pays_remove_in|]. intros ? _. by apply runs_ret. }
  intros _ _. eapply (steady_bind _ _ _ 0); [by apply (runs_retire h m D root Journal.JOURNAL_FILE)|]. intros _ _. by apply runs_ended.
Qed.

(** ** Uses *)

Context (Hnames : Forall (fun n => n <> POLICY /\ n <> LEDGER) [sid; id]).

(** The directories of the store. *)
Lemma store_place q : (length q <= 5)%nat -> (POLICY ∉ q) -> (LEDGER ∉ q) -> place (root ++ q).
Proof using Hnames.
  intros Hlen Hp Hl. inversion Hnames as [|? ? [Hs1 Hs2] Hn]; subst. inversion Hn as [|? ? [Hi1 Hi2] _]; subst.
  split_and!; [rewrite length_app; simpl; lia| |]; rewrite elem_of_app; (intros [Hx|Hx]; [|done]); unfold root, owner_root in Hx;
    rewrite !elem_of_cons in Hx; destruct Hx as [E|[E|[E|E%not_elem_of_nil]]]; try done; by subst.
Qed.

Lemma store_ordinary q name : name <> POLICY -> lock_name name = false -> ordinary (root ++ q) name.
Proof using Type. intros Hn Hl. apply data_ordinary; done. Qed.

Lemma runs_store_write m (D : gset nat) q name data :
  (length q <= 5)%nat -> (POLICY ∉ q) -> (LEDGER ∉ q) -> name <> POLICY -> lock_name name = false ->
  steady m D 0 (write_atomic h outer pid (root ++ q) name data) 0 (fun _ => True).
Proof using Huuid Hnames. intros Hlen Hp Hl Hn Hk. apply runs_write; [done|by apply store_place|by apply store_ordinary|done]. Qed.

Lemma pays_transaction m : pays m 0 (transaction h outer sid id) 0 (fun _ => True).
Proof using Type.
  unfold transaction. eapply (pays_bind _ _ 0); [by apply pays_io_guard; simpl; lia|]. intros _ _.
  eapply (pays_bind _ _ 0); [|intros _ _; by apply pays_gate].
  apply (pays_open h m io_err); [by apply (lock_plain root)|lia|]. rewrite (lock_cost root) by done. lia.
Qed.

Lemma pays_owner m : pays m 0 (require_owner h sid id) 0 (fun _ => True).
Proof using Type. apply pays_sees; [lia|]. intros t _. apply sees_owner. Qed.

Lemma pays_record m {T : Type} `{Serde T} p maximum : pays m 0 (Inventory.read_record h (T := T) p maximum) 0 (fun _ => True).
Proof using Type. apply pays_sees; [lia|]. intros t _. eapply sees_true, sees_json. Qed.

Lemma runs_write_use m (D : gset nat) record : steady m D 0 (write_use h outer pid sid id record) 0 (fun _ => True).
Proof using Huuid Hnames.
  unfold write_use. eapply (steady_bind _ _ _ 0); [apply runs_run; [lia|by apply pays_scope; [lia|simpl; lia]]|]. intros s Hs.
  eapply (steady_bind _ _ _ 0 _ _ _ _ (fun _ => True)).
  - destruct s as [s|]; [destruct Hs as [-> _]|by apply runs_ret].
    eapply (steady_bind _ _ _ 0); [apply runs_run; [lia|by apply pays_limits]|]. intros l _.
    eapply (steady_bind _ _ _ 0); [by apply runs_res|]. intros n _. by apply runs_ret.
  - intros _ _. eapply (steady_bind _ _ _ 0); [by apply runs_res|]. intros b _.
    rewrite <- (app_nil_r (owner_root sid id)). by apply runs_store_write; [simpl; lia|apply not_elem_of_nil..|done|].
Qed.

Lemma runs_register m (D : gset nat) binding : steady m D 0 (register_cache_use h outer pid sid id binding) 0 (fun _ => True).
Proof using Huuid Hnames.
  unfold register_cache_use. eapply (steady_bind _ _ _ 0); [apply runs_run; [lia|by apply pays_scope; [lia|simpl; lia]]|].
  intros [s|] Hs; [destruct Hs as [-> Hm]|by apply runs_ret].
  eapply (steady_bind _ _ _ 0); [apply runs_run; [lia|by apply pays_scope; [lia|simpl; lia]]|]. intros s Hs.
  eapply (steady_bind _ _ _ 0 _ _ _ _ (fun s => s = [])).
  { eapply runs_weaken; [| |apply (runs_of m D 0); [lia|]|]; [lia|lia| |].
    - destruct s; [done|]. destruct Hm. congruence.
    - intros x Hx%ok_or_ok. subst s. by destruct Hs. }
  intros ? ->. eapply (steady_bind _ _ _ 0); [apply runs_run; [lia|by apply pays_limits]|]. intros l _.
  eapply (steady_bind _ _ _ 0 _ _ _ _ (fun _ => True)).
  { apply runs_run; [lia|]. apply pays_sees; [lia|]. intros t _. unfold optional_use. eapply sees_bind; [apply sees_bytes|].
    intros [b|] _; [by apply sees_of_res|by apply sees_ret]. }
  intros [u|] _; [|by apply runs_write_use]. destruct (_ && _); [|by apply runs_fail]. destruct (wu_retired u); [by apply runs_write_use|by apply runs_ret].
Qed.

Lemma pays_known m : pays m 0 (cache_retention_known h outer sid id) 0 (fun _ => True).
Proof using Type.
  unfold cache_retention_known. eapply (pays_bind _ _ 0); [by apply pays_scope; [lia|simpl; lia]|].
  intros [s|] Hs; [destruct Hs as [-> _]|by apply pays_ret]. eapply (pays_bind _ _ 0); [apply pays_transaction|]. intros _ _.
  eapply (pays_bind _ _ 0); [apply pays_owner|]. intros b _. eapply (pays_bind _ _ 0); [by apply pays_limits|]. intros l _.
  eapply (pays_bind _ _ 0); [apply pays_record|]. intros u _. apply pays_guard; [lia|]. intros _. by apply pays_ret.
Qed.

Lemma sees_stored_proof t dir l closure : sees t (stored_proof h dir l closure) (fun _ => True).
Proof using Type.
  unfold stored_proof. eapply sees_bind; [apply sees_bytes|]. intros b _. apply (sees_fold _ (fun _ _ => True)); [|done].
  intros done0 same p rest _ _. unfold stored_page. eapply sees_bind; [apply sees_res_true|]. intros d _.
  eapply sees_bind; [apply sees_bytes|]. intros x _. by apply sees_ret.
Qed.

Lemma runs_publish m (D : gset nat) closure encoded : steady m D 0 (publish_proof h outer pid sid id closure encoded) 0 (fun _ => True).
Proof using Huuid Hnames.
  unfold publish_proof. assert (Hplain : forall n, one_of n [RETENTION_DIR; "pages"] = true -> n <> POLICY /\ n <> LEDGER).
  { by intros n [->|[->|[]%not_elem_of_nil]%elem_of_cons]%one_of_true%elem_of_cons. }
  eapply (steady_bind _ _ _ 0); [apply runs_run; [lia|]; apply (pays_error m _ io_error_of), pays_create_dirs; rewrite <- app_assoc; apply store_place; simpl; [lia|..]|].
  1,2: rewrite !elem_of_cons; by intros [|[|?%not_elem_of_nil]].
  intros _ _. eapply (steady_bind _ _ _ 0 _ _ _ _ (fun _ => True)).
  - apply runs_each; [lia|done|]. intros [] [i b] _ _. eapply (steady_bind _ _ _ 0); [by apply runs_res|]. intros d [Hd1 Hd2]%digest_name.
    rewrite <- app_assoc. apply runs_store_write; [simpl; lia| | |done|done]; simpl; rewrite !elem_of_cons; by intros [|[|?%not_elem_of_nil]].
  - intros _ _. eapply (steady_bind _ _ _ 0); [apply runs_store_write; [simpl; lia| | |done|done]; rewrite !elem_of_cons; by intros [|?%not_elem_of_nil]|].
    intros _ _. rewrite <- (app_nil_r (owner_root sid id)). by apply runs_store_write; [simpl; lia|apply not_elem_of_nil..|done|].
Qed.

Lemma runs_retain m (D : gset nat) closure : steady m D 0 (retain_snapshot_root h outer pid sid id closure) 0 (fun _ => True).
Proof using Huuid Hnames.
  unfold retain_snapshot_root. eapply (steady_bind _ _ _ 0); [apply runs_run; [lia|by apply pays_scope; [lia|simpl; lia]]|].
  intros [s|] Hs; [destruct Hs as [-> _]|by apply runs_ret]. eapply (steady_bind _ _ _ 0); [apply runs_run; [lia|apply pays_transaction]|]. intros _ _.
  eapply (steady_bind _ _ _ 0); [apply runs_run; [lia|apply pays_owner]|]. intros binding _.
  eapply (steady_bind _ _ _ 0); [apply runs_run; [lia|apply pays_sees; [lia|intros; apply sees_store]]|]. intros _ _. apply runs_guard; [lia|]. intros _.
  eapply (steady_bind _ _ _ 0); [apply runs_run; [lia|by apply pays_limits]|]. intros l [-> Hv].
  eapply (steady_bind _ _ _ 0); [apply runs_run; [lia|apply pays_record]|]. intros now _. apply runs_guard; [lia|]. intros _.
  eapply (steady_bind _ _ _ 0); [by apply runs_res|]. intros [record encoded] _.
  eapply (steady_bind _ _ _ 0 _ _ _ _ (fun _ => True)).
  { case_bool_decide; [|by apply runs_ret]. apply runs_run; [lia|]. apply pays_sees; [lia|]. intros. apply sees_stored_proof. }
  intros [] _; [by apply runs_ret|]. eapply (runs_bind _ _ _ _ 0); [apply runs_reserve_root; [done|apply zlen_nonneg]|]. intros n Hn.
  assert (HD : ({[n]} ∪ D) ∖ {[n]} = D) by (clear - Hn; set_solver).
  eapply (runs_bind _ _ _ _ 0 _ _ _ (fun _ => {[n]} ∪ D) _ ended).
  { eapply runs_weaken; [| |apply (runs_try _ _ _ 0 0); [lia|apply runs_publish]|]; [lia|lia|]. by intros [|[]]. }
  intros r Hr. eapply (runs_bind _ _ _ _ 0); [pose proof (runs_drop_budget (Some l) ({[n]} ∪ D) n) as Hdrop; rewrite HD in Hdrop; exact Hdrop|].
  intros [] _. by apply runs_ended.
Qed.

Lemma pays_discover m l deadline : pays m 0 (discover_retention_owners h l deadline) 0 (fun _ => True).
Proof using Horder. apply pays_sees; [lia|]. intros t Hwf. eapply sees_true. by apply discover_ok. Qed.

Lemma pays_clock m : pays m 0 (read_clock h) 0 (fun _ => True).
Proof using Type. apply pays_sees; [lia|]. intros t _. apply sees_clock. Qed.

Lemma pays_exists m p : pays m 0 (try_exists h p) 0 (fun _ => True).
Proof using Type. by apply (pays_look h m io_error_of). Qed.

Lemma pays_retirable m : is_Some m -> pays m 0 (retirable h outer sid id []) 0 (fun _ => True).
Proof using Horder.
  intros _. unfold retirable. eapply (pays_bind _ _ 0); [apply pays_transaction|]. intros _ _.
  eapply (pays_bind _ _ 0); [apply pays_owner|]. intros b _. eapply (pays_bind _ _ 0); [by apply pays_limits|]. intros l _.
  eapply (pays_bind _ _ 0); [apply pays_record|]. intros u _. apply pays_guard; [lia|]. intros _.
  eapply (pays_bind _ _ 0); [apply pays_exists|]. intros complete _.
  eapply (pays_bind _ _ 0 0 _ _ (fun _ => True)); [destruct complete; [by apply pays_ret|apply pays_exists]|]. intros pinned _. apply pays_guard; [lia|]. intros _.
  eapply (pays_bind _ _ 0); [apply pays_clock|]. intros now _. eapply (pays_bind _ _ 0); [apply pays_discover|]. intros owners _.
  apply pays_guard; [lia|]. intros _. by apply pays_ret.
Qed.

Lemma runs_retire_use m (D : gset nat) : steady m D 0 (retire_cache_use h outer pid sid id) 0 (fun _ => True).
Proof using Huuid Hnames Horder.
  unfold retire_cache_use. eapply (steady_bind _ _ _ 0); [apply runs_run; [lia|by apply pays_scope; [lia|simpl; lia]]|].
  intros [s|] Hs; [destruct Hs as [-> Hm]|by apply runs_ret]. eapply (steady_bind _ _ _ 0); [apply runs_run; [lia|by apply pays_retirable]|].
  intros u _. by apply runs_write_use.
Qed.

Lemma pays_admit_owner m : pays m 0 (admit_owner h outer id) 0 (fun _ => True).
Proof using Horder.
  unfold admit_owner. eapply (pays_bind _ _ 0); [by apply pays_scope; [lia|simpl; lia]|]. intros [s|] _; [|by apply pays_ret].
  eapply (pays_bind _ _ 0); [by apply pays_lock|]. intros _ _. eapply (pays_bind _ _ 0); [by apply pays_limits|]. intros l _.
  eapply (pays_bind _ _ 0); [apply pays_clock|]. intros now _. eapply (pays_bind _ _ 0); [apply pays_discover|]. intros owners _.
  apply pays_guard; [lia|]. intros _. by apply pays_ret.
Qed.

Lemma pays_pressure m : pays m 0 (cache_pressure h outer) 0 (fun _ => True).
Proof using Type.
  unfold cache_pressure. eapply (pays_bind _ _ 0); [by apply pays_scope; [lia|simpl; lia]|]. intros [s|] _; [|by apply pays_ret].
  eapply (pays_bind _ _ 0); [by apply pays_lock|]. intros _ _. eapply (pays_bind _ _ 0); [by apply pays_limits|]. intros l _.
  eapply (pays_bind _ _ 0); [apply pays_record|]. intros c _. apply pays_guard; [lia|]. intros _. by apply pays_ret.
Qed.
End Uses.

(** ** The start of a scope *)

Section Configure.
Context `{RetentionCodec} (h : host) (outer : Res unit) (base : Z) (limits : CacheLimits).
Context (Horder : forall k l, h_order h k l ≡ₚ l).

(** The scope is as it was, or newly managed. *)
Definition begun (m : option CacheLimits) (K : Z) (t : tree) : Prop := exists m', (is_Some m -> m' = m) /\ acct m' K t.

Lemma pays_begun {A : Type} m K (c : W A) (Q : A -> Prop) : pays m 0 c 0 Q -> hoare (begun m K) (acct m K) c (fun a t => Q a /\ acct m K t).
Proof using Type.
  intros Hc. eapply hoare_invariant; [intros t Ht; by exists m|]. specialize (Hc K). rewrite Z.add_0_r in Hc. exact Hc.
Qed.

Lemma hoare_reads {A : Type} (I P : tree -> Prop) (c : W A) (Q : A -> Prop) :
  (forall t, P t -> I t) -> (forall t, sees t c Q) -> hoare I P c (fun a t => Q a /\ P t).
Proof using Type.
  intros Hi Hc s Hs. destruct (Hc _ s eq_refl) as (E1 & E2 & E3). split; [exists []; by rewrite app_nil_r|]. rewrite E1.
  destruct (c s).1 as [a|[]]; auto.
Qed.

Lemma hoare_raw {A : Type} (I P : tree -> Prop) (f : nat -> tree -> result io_error A * tree) :
  (forall t, P t -> I t) -> (forall k t, P t -> P (f k t).2) -> hoare I P (change h f) (fun _ => P).
Proof using Type.
  intros Hi Hf s Hs. specialize (Hf (s_clock s) _ Hs). unfold change.
  destruct (h_fault h (s_clock s)) as [[[] e]|]; simpl; [| |destruct (f _ _) as [r t]; simpl in *];
    (split; [eexists; split; [done|]; apply Forall_singleton; by apply Hi|done]).
Qed.

(** The directory of the intents. *)
Lemma hoare_intents (I P : tree -> Prop) :
  (forall t, P t -> I t /\ wf_tree t) -> (forall t t', P t -> touch t t' -> P t') ->
  hoare I P (io (create_dir_all_no_symlink h [INTENTS])) (fun _ => P).
Proof using Type.
  intros HP Ht. assert (HI : forall t, P t -> I t) by (intros t Hp; by apply HP).
  assert (Hraw : hoare I P (create_dir_all_no_symlink h [INTENTS]) (fun _ => P)).
  { unfold create_dir_all_no_symlink.
    eapply (hoare_bind _ _ _ (fun _ t => True /\ P t)); [apply hoare_reads; [done|intros; apply sees_chain]|]. intros r. apply hoare_pure. intros _.
    destruct r as [[]|e]; [|by apply hoare_ret]. eapply (hoare_bind _ _ _ (fun _ => P)).
    - change (make_dirs h (drop 1 (reverse (ancestors [INTENTS])))) with (make_dirs h [[INTENTS]]). simpl.
      eapply (hoare_bind _ _ _ (fun _ => P)); [|intros [[]|e]; by apply hoare_ret].
      apply hoare_raw; [done|]. intros k t Hp. destruct (HP _ Hp) as [_ Hwf].
      destruct (t !! [INTENTS]) as [[]|] eqn:E; try done. simpl. eapply Ht; [exact Hp|]. split.
      + by apply wf_insert.
      + intros p Hq. rewrite lookup_insert_ne in Hq; [done|]. intros Ep. apply (f_equal list.last) in Ep. by rewrite last_snoc in Ep.
      + by rewrite lookup_insert_ne.
      + by rewrite lookup_insert_ne.
      + unfold files_charge. rewrite map_sum_insert. unfold at_key. rewrite E. simpl. lia.
    - intros [[]|e]; [|by apply hoare_ret]. eapply hoare_weaken; [apply hoare_reads; [done|intros; apply sees_chain]|]. by intros a t [_ Hp]. }
  unfold io. eapply hoare_bind; [exact Hraw|]. intros r. eapply hoare_weaken; [apply hoare_reads; [done|intros; apply sees_res_true]|]. by intros a t [_ Hp].
Qed.

(** The ledger is there before the policy is. *)
Lemma hoare_initialized c :
  max_bytes limits >= ch_bytes c ->
  hoare (begun None 0) (fun t => acct None 0 t /\ files_charge t <= ch_bytes c)
    (bind (io (create_dir_all_no_symlink h [INTENTS])) (fun _ => bind (raw_atomic h [] LEDGER c) (fun _ => raw_atomic h [] POLICY (mkPolicy 1 limits))))
    (fun _ => begun None 0).
Proof using Type.
  intros Hmax. set (P := fun t => acct None 0 t /\ files_charge t <= ch_bytes c). set (Q := fun t => P t /\ ledger t c).
  assert (HP : forall t, P t -> begun None 0 t /\ wf_tree t) by (intros t [Ht _]; split; [by exists None|apply Ht]).
  assert (HPt : forall t t', P t -> touch t t' -> P t').
  { intros t t' [Ht Hf] Htc. split; [by eapply acct_touch|]. by rewrite (tc_files _ _ Htc). }
  assert (Hbt : forall t t', begun None 0 t -> touch t t' -> begun None 0 t') by (intros t t' (m' & Hm & Ht) Htc; exists m'; split; [done|]; by eapply acct_touch).
  assert (Hbw : forall t, begun None 0 t -> wf_tree t) by (intros t (m' & _ & Ht); apply Ht).
  eapply (hoare_bind _ _ _ (fun _ => P)); [by apply hoare_intents|]. intros _. eapply (hoare_bind _ _ _ (fun _ => Q)).
  - apply hoare_control; try done; [intros id; by apply record_temporary|intros t [Ht _]; by apply HP|].
    intros t i b [[Hwf Hr Hs] Hf] Hj _ Hi Hd _. simpl in Hd |- *. split; [split; [split|]|].
    + by apply record_wf.
    + intros p Hp. rewrite lookup_insert_ne in Hp; [by apply Hr|]. intros E. apply (f_equal list.last) in E. by rewrite last_snoc in E.
    + by rewrite lookup_insert_ne.
    + by rewrite record_files.
    + exists b. split; [exists i; apply lookup_insert_eq|by apply json_round_trip].
  - intros _. apply hoare_control; try done; [intros id; by apply record_temporary|intros t [Ht _]; by apply HP| |].
    + intros t t' [Ht Hl] Htc. split; [by eapply HPt|]. eapply stored_same; [apply Htc|done].
    + intros t i b [[[Hwf Hr Hs] Hf] Hl] Hj _ Hi Hd _. exists (Some limits). split; [by intros []|]. simpl. split.
      * by apply record_wf.
      * intros p Hp. destruct (decide (p = [])) as [|Hne]; [done|]. apply Hr. rewrite lookup_insert_ne in Hp; [done|]. by destruct p as [|? []].
      * exists c. rewrite record_files by done. split_and!; [| |lia|lia].
        -- exists (mkPolicy 1 limits). split; [|done]. exists b. split; [exists i; apply lookup_insert_eq|by apply json_round_trip].
        -- eapply stored_same; [|exact Hl]. by rewrite lookup_insert_ne.
Qed.

Lemma hoare_configure m K :
  (m = None -> K = 0) -> hoare (begun m K) (acct m K) (configure_scope h base limits) (fun _ => begun m K).
Proof using Horder.
  intros HK. assert (Hb : forall t, acct m K t -> begun m K t) by (intros t Ht; by exists m).
  assert (Hret : hoare (begun m K) (acct m K) (ret tt) (fun _ => begun m K)) by (by apply hoare_ret).
  assert (Hfail : forall e, hoare (begun m K) (acct m K) (fail e) (fun _ : unit => begun m K)).
  { intros e s Hs. split; [exists []; by rewrite app_nil_r|by apply Hb]. }
  assert (Hpays : forall {A : Type} (c : W A) (k : A -> W unit) Q, pays m 0 c 0 Q -> (forall a, Q a -> hoare (begun m K) (acct m K) (k a) (fun _ => begun m K)) ->
    hoare (begun m K) (acct m K) (bind c k) (fun _ => begun m K)).
  { intros A c k Q Hc Hk. eapply hoare_bind; [by apply pays_begun|]. intros a. apply hoare_pure. auto. }
  assert (Hlim : pays m 0 (policy h) 0 (fun l => True)) by (eapply pays_weaken; [| |by apply pays_limits|done]; lia).
  unfold configure_scope. eapply Hpays; [by apply pays_res|]. intros _ _. cbv zeta.
  match goal with |- context [if bool_decide (_ = limits) then ret tt else ?i] => set (init := i) end.
  assert (Hinit : hoare (begun m K) (acct m K) init (fun _ => begun m K)).
  { unfold init. eapply Hpays; [by apply pays_lock|]. intros _ _. eapply Hpays; [by apply pays_gate|]. intros _ _.
    eapply Hpays; [by apply pays_lock|]. intros _ _. apply hoare_each. intros t Ht.
    eapply hoare_sees; [by apply Hb|apply sees_stat|]. intros [n|[| |e]] [_ Hnone].
    - apply (hoare_pre _ _ (acct m K)); [by intros t' <-|]. eapply Hpays; [exact Hlim|]. intros now _. case_bool_decide; [done|apply Hfail].
    - assert (m = None) as -> by (destruct m; [|done]; destruct (policy_there _ _ _ Ht) as [_ Hp]; destruct Hp as [x Hx]; [eauto|]; rewrite Hnone in Hx; done).
      specialize (HK eq_refl) as ->. eapply hoare_sees; [by apply Hb|apply scan_ok; [apply Ht|done]|]. intros v [Hv _].
      destruct (exact_counts _ _ Hv) as [_ Hin]. eapply hoare_sees; [by apply Hb|apply sees_res_true|]. intros bytes Hbytes%ok_or_ok.
      apply checked_add_some in Hbytes as [-> _]. destruct (_ || _) eqn:Eg; [apply (hoare_pre _ _ (acct None 0)); [by intros t' <-|apply Hfail]|].
      apply orb_false_iff in Eg as [Eg%Z.ltb_ge _]. eapply hoare_pre; [|apply hoare_initialized; simpl; lia]. intros t' <-. split; [done|]. simpl.
      pose proof (files_below t (wf_sizes _ (ac_wf _ _ _ Ht))). unfold ENTRY_CHARGE, CONTROL_BYTES. lia.
    - apply (hoare_pre _ _ (acct m K)); [by intros t' <-|apply Hfail].
    - apply (hoare_pre _ _ (acct m K)); [by intros t' <-|apply Hfail]. }
  eapply (Hpays _ _ _ (fun _ => True)); [apply pays_sees; [lia|]; intros; eapply sees_true, sees_stat|]. intros [n|[| |e]] _; try done.
  eapply Hpays; [by apply (pays_look h m io_error_of)|]. intros _ _. eapply Hpays; [by apply pays_gate|]. intros _ _.
  eapply Hpays; [by apply pays_gate|]. intros _ _. eapply Hpays; [exact Hlim|]. intros now _. by case_bool_decide.
Qed.
End Configure.
End AdmissionUses.
