(* ===== verification/AdmissionHistory.v ===== *)
(** * AdmissionHistory

    Histories of a managed scope: it is configured, written by admitted
    writers, reserved, used and collected, in any order and with any failures. *)

From S2P Require Import Prelude Types Faults Text Profile Btree Frames Wire ChunkMap Closure Disk Records Pins Journal Durable Capacity Incremental ScopeTree Owners Inventory Retention Admission InventoryFacts OwnersFacts ProtectionFacts RetentionFacts CollectionFacts CollectionSafe AdmissionFacts AdmissionWriters AdmissionSafe AdmissionUses.
Import Pins Owners Digests Scope Closure Records Capacity ScopeTree Inventory Retention Admission InventoryFacts OwnersFacts ProtectionFacts RetentionFacts CollectionFacts CollectionSafe AdmissionFacts AdmissionWriters AdmissionSafe AdmissionUses.
Local Open Scope string_scope.
Local Open Scope list_scope.
Local Open Scope Z_scope.

Module AdmissionHistory.

(** ** A collection *)

(** [c] passes through trees with [I] only, whatever it ends in. *)
Definition passes {A : Type} (I : tree -> Prop) (c : W A) : Prop :=
  forall s, I (s_tree s) -> (exists new, s_past (c s).2 = s_past s ++ new /\ Forall I new) /\ I (s_tree (c s).2).

Lemma passes_bind {A B : Type} (I : tree -> Prop) (c : W A) (k : A -> W B) : passes I c -> (forall a, passes I (k a)) -> passes I (bind c k).
Proof.
  intros Hc Hk s Hs. unfold bind. destruct (Hc s Hs) as ((new & E1 & E2) & E3). destruct (c s) as [[a|e] s1]; simpl in *; [|by eauto].
  destruct (Hk a s1 E3) as ((new' & F1 & F2) & F3). split; [|done]. exists (new ++ new'). rewrite F1, E1, <- app_assoc. split; [done|]. by apply Forall_app.
Qed.
Lemma passes_still {A : Type} (I : tree -> Prop) (c : W A) : (forall s, s_tree (c s).2 = s_tree s /\ s_past (c s).2 = s_past s) -> passes I c.
Proof. intros Hc s Hs. destruct (Hc s) as [-> ->]. split; [exists []; by rewrite app_nil_r|done]. Qed.
Lemma passes_fold {A X : Type} (I : tree -> Prop) (f : A -> X -> W A) xs a : (forall a x, x ∈ xs -> passes I (f a x)) -> passes I (fold_w f a xs).
Proof.
  revert a. induction xs as [|x xs IH]; intros a Hf; simpl; [by apply passes_still|]. apply passes_bind; [apply Hf; left|].
  intros a'. apply IH. intros b y Hy. apply Hf. by right.
Qed.
Lemma hoare_passes {A : Type} (I I' P : tree -> Prop) (c : W A) (Q : A -> tree -> Prop) :
  hoare I P c Q -> passes I' c -> (forall t, P t -> I' t) -> hoare I' P c (fun a t => Q a t /\ I' t).
Proof.
  intros Hc Hp Hi s Hs. destruct (Hc s Hs) as [_ Hr]. destruct (Hp s (Hi _ Hs)) as [Hn Hl]. split; [done|].
  destruct (c s).1 as [a|[]]; done.
Qed.

Section Collection.
Context `{HexCrate} `{Sha256} `{PageCodec} `{PageBytes} `{CodecScope} `{DescriptorCodec} `{ServingCodec} `{UuidCrate}.
Context `{CommitCodec} `{PinCodec} `{RetentionCodec} (h : host) (base : Z) (outer : Res unit).
Context (Horder : forall k l, h_order h k l ≡ₚ l) (Hdepth : 0 <= PAGE_MAX_DEPTH).

Lemma planned_plain m K t l v s p : acct m K t -> planned t l v s -> p ∈ se_paths s -> plain p.
Proof using Type.
  intros Ht Hpl Hp. destruct (pn_removable _ _ _ _ Hpl) as [_ Hall]. rewrite list.Forall_forall in Hall. destruct (Hall _ Hp) as [[i Hi] Hd].
  apply (ct_files _ _ _ (pn_exact _ _ _ _ Hpl)) in Hi as [_ Hi]. unfold identity_at in Hi. destruct (t !! p) as [x|] eqn:Ex; [|done].
  split_and!.
  - intros E. apply last_Some in E as [q ->]. assert (q = []) as -> by (eapply (ac_root _ _ _ Ht); eauto). by apply disposable_short in Hd as (f & j & ?).
  - intros ->. by apply disposable_short in Hd as (f & j & ?).
  - intros ->. by rewrite (wf_root _ (ac_wf _ _ _ Ht)) in Ex.
Qed.

Lemma passes_remove m p id r : plain p -> passes (acct m 0) (remove_entry h r (p, id)).
Proof using Type.
  intros Hp. unfold remove_entry, remove_prepared. apply passes_bind.
  - apply passes_bind; [by apply passes_still|]. intros _.
    apply passes_bind.
    + intros s Hs. destruct (pays_change h m io_error_of 0 0 _ ltac:(lia) (remove_settles m p 0 Hp ltac:(lia)) 0 s Hs) as [Hn Hr].
      split; [exact Hn|]. unfold io_as in Hr. unfold io. destruct (bind _ _ s) as [[a|[]] s1]; simpl in *; [by destruct Hr|done..].
    + intros _. apply passes_bind; [by apply passes_still|].
      intros _. by apply passes_still.
  - intros []; [|by apply passes_still]. apply passes_bind; [by apply passes_still|]. intros n. by apply passes_still.
Qed.

(** The reset of the ledger to what is left. *)
Lemma hoare_reset l n e :
  hoare (acct (Some l) 0) (fun t => acct (Some l) 0 t /\ files_charge t <= n) (raw_atomic h [] LEDGER (mkCharges 1 n e)) (fun _ => acct (Some l) 0).
Proof using Type.
  apply hoare_control; [intros id; by apply record_temporary| | |by intros t Ht; apply Ht|intros; by eapply acct_touch|done|].
  - intros t [Ht _]. split; [done|apply Ht].
  - intros t t' [Ht Hf] Htc. split; [by eapply acct_touch|]. by rewrite (tc_files _ _ Htc).
  - intros t i b [[Hwf Hr (c & Hl & _ & _ & Hmax)] Hf] Hj _ Hi Hd _. simpl in Hd |- *. split; [by apply record_wf| |].
    + intros p Hp. rewrite lookup_insert_ne in Hp; [by apply Hr|]. intros E. apply (f_equal list.last) in E. by rewrite last_snoc in E.
    + exists (mkCharges 1 n e). rewrite record_files by done. split_and!; [by eapply limited_same; [rewrite lookup_insert_ne|]| |simpl; lia|lia].
      exists b. split; [exists i; apply lookup_insert_eq|by apply json_round_trip].
Qed.

Lemma limited_configured t l : limited t l <-> configured t l.
Proof using Type. done. Qed.

(** From the plan to the end, in the tree of the plan. *)
Lemma hoare_collected l t v s :
  acct (Some l) 0 t -> planned t l v s ->
  hoare (acct (Some l) 0) (eq t)
    (bind (fold_w (prepare h v) ([], se_budget s) (se_paths s)) (fun y => let (prepared, b) := y in
     bind (fold_w (verify_again h) b prepared) (fun _ =>
     bind (fold_w (remove_entry h) (mkReport (in_entries v) 0 0 (in_bytes v)) prepared) (fun r =>
     bind (of_res (ok_or (checked_add (retained_bytes r) (CONTROL_BYTES + 8 * ENTRY_CHARGE)) (limit "ledger reset overflow"))) (fun bytes =>
     bind (raw_atomic h [] LEDGER (mkCharges 1 bytes (in_entries v - deleted_entries r + 8))) (fun _ => ret r))))))
    (fun _ => acct (Some l) 0).
Proof using Type.
  intros Ht Hpl. pose proof (ac_wf _ _ _ Ht) as Hwf. assert (Hop : opened t t) by (by split).
  assert (Hlim : configured t l) by (destruct Ht as [_ _ (c & Hl & _)]; exact Hl).
  eapply hoare_sees; [done|by eapply sees_prepared|]. intros [prepared b] Hpre. simpl in Hpre.
  eapply (hoare_sees _ _ _ (fun _ => True)); [done| |intros _ _].
  { apply (sees_fold _ (fun _ _ => True)); [|done]. intros done0 b1 [p i] rest _ _. unfold verify_again.
    eapply sees_bind; [apply sees_admit|]. intros b2 _. eapply sees_bind; [apply sees_io, sees_look|]. intros _ _. by apply sees_ret. }
  eapply hoare_bind.
  - eapply hoare_passes; [by eapply remove_all_ok| |by intros t' <-]. apply passes_fold. intros r [p i] Hin. apply passes_remove.
    eapply planned_plain; [exact Ht|exact Hpl|]. rewrite <- Hpre. apply list_elem_of_fmap. by exists (p, i).
  - intros r. simpl. apply hoare_each. intros t3 [Hrep Ht3]. eapply hoare_sees; [done|apply sees_res_true|]. intros bytes Hb%ok_or_ok.
    apply checked_add_some in Hb as [-> _]. eapply (hoare_bind _ _ _ (fun _ => acct (Some l) 0)); [|intros _; by apply hoare_ret].
    eapply hoare_pre; [|apply hoare_reset]. intros t4 <-. split; [done|]. rewrite (rp_charge _ _ _ _ Hrep).
    pose proof (files_below t3 (wf_sizes _ (ac_wf _ _ _ Ht3))). unfold CONTROL_BYTES, ENTRY_CHARGE. lia.
Qed.

(** The answer above the scope, for [collect_scope]. *)
Definition outer_managed : Res bool := let? _ := outer in Ok false.

Lemma hoare_collect m : hoare (acct m 0) (acct m 0) (collect_scope h base outer_managed) (fun _ => acct m 0).
Proof using Horder Hdepth.
  assert (Hpays : forall {A B : Type} (c : W A) (k : A -> W B) Q, pays m 0 c 0 Q -> (forall a, Q a -> hoare (acct m 0) (acct m 0) (k a) (fun _ => acct m 0)) ->
    hoare (acct m 0) (acct m 0) (bind c k) (fun _ => acct m 0)).
  { intros A B c k Q Hc Hk. eapply hoare_bind; [exact (Hc 0)|]. intros a. apply hoare_pure. auto. }
  unfold collect_scope. eapply (Hpays _ _ _ _ (fun _ => True)); [apply pays_sees; [lia|]; intros; apply sees_managed|]. intros [] _; simpl; [|by apply hoare_ret].
  do 2 (eapply Hpays; [by apply pays_lock|]; intros _ _). do 2 (eapply Hpays; [by apply pays_gate|]; intros _ _).
  eapply Hpays; [by apply pays_limits|]. intros l [-> _]. eapply Hpays; [apply pays_record|]. intros c _.
  destruct (negb _); [intros s Hs; split; [exists []; by rewrite app_nil_r|done]|]. apply hoare_each. intros t Ht.
  eapply hoare_sees; [done|by apply plan_ok; [apply Ht| |]|]. intros [v s] Hpl. by apply hoare_collected.
Qed.
End Collection.

(** ** Programs of the process end *)

(** The error of a step is a value of the program. *)
Definition total {A : Type} (c : M A) : Prop := forall p s, exists x s', c p s = (Ok x, s').

Lemma total_bind {A B : Type} (c : M A) (k : A -> M B) : total c -> (forall a, total (k a)) -> total (mbind c k).
Proof.
  intros Hc Hk p s. unfold mbind, bind. destruct (Hc p s) as ([[a|e] p'] & s' & ->); [|by eexists _, _]. apply Hk.
Qed.
Lemma total_run {A : Type} (c : W A) : total (mrun c).
Proof. intros p s. unfold mrun, bind, attempt. destruct (c s). by eexists _, _. Qed.
Lemma total_try {A : Type} (c : M A) : total c -> total (mtry c).
Proof. intros Hc p s. unfold mtry, bind. destruct (Hc p s) as (x & s' & ->). by eexists _, _. Qed.
Lemma total_tagged {A : Type} stage (c : M A) : total c -> total (mtagged stage c).
Proof. intros Hc p s. unfold mtagged, bind. destruct (Hc p s) as (x & s' & ->). by eexists _, _. Qed.
Lemma total_now {A : Type} (f : process -> Run A * process) : total (fun p => ret (f p)).
Proof. intros p s. by eexists _, _. Qed.
Lemma total_fold {A X : Type} (f : A -> X -> M A) xs a : (forall a x, total (f a x)) -> total (mfold f a xs).
Proof. intros Hf. revert a. induction xs as [|x xs IH]; intros a; [apply (total_now (fun p => (Ok a, p)))|]. by apply total_bind. Qed.

Ltac total :=
  repeat first
    [ apply total_bind; [|intros ?] | apply total_run | apply total_try | apply total_tagged | apply total_fold; intros ? ?
    | apply (total_now (fun p => (_, _))) | apply total_now
    | match goal with |- total (match ?x with _ => _ end) => destruct x end
    | progress (unfold budget, consume, begin, begin_with_budget, write_atomic, write_atomic_with_budget, cas_batch_write, append_journal_bytes,
        write_reader_blob_stream, compact_journal,
        reserve_charge, drop_budget, reserve, reserve_root, write_use, register_cache_use, publish_proof, retain_snapshot_root, retire_cache_use) ].

(** ** Histories *)

(** What the processes of a scope do; reservations are named as they were
    returned. *)
Inductive operation : Type :=
  | Configure (limits : CacheLimits)
  | WriteFile (dir : rpath) (name : string) (data : bytes) (reservation : option nat)
  | WriteBlob (dir : rpath) (name : string) (data : bytes) (reservation : option nat)
  | WriteStream (dir : rpath) (f : SnapshotFile) (prefetch : bool) (read_range : Z -> Z -> Res bytes) (reservation : option nat)
  | AppendJournal (sid id : string) (data : bytes)
  | CompactJournal (sid id : string) (manifest : list SnapshotFile)
  | Reserve (sid id : string) (manifest : list SnapshotFile) (closure : option ValidatedSnapshotClosure)
  | Release (n : nat)
  | RegisterUse (sid id : string) (binding : WorkspaceBinding)
  | RetainRoot (sid id : string) (closure : ValidatedSnapshotClosure)
  | RetireUse (sid id : string)
  | AskUse (sid id : string)
  | AdmitOwner (id : string)
  | AskPressure
  | Collect.

Section History.
Context `{HexCrate} `{Sha256} `{PageCodec} `{PageBytes} `{CodecScope} `{DescriptorCodec} `{ServingCodec} `{UuidCrate}.
Context `{CommitCodec} `{PinCodec} `{RetentionCodec} `{ChunkCodec} `{RecordCodec} (h : host) (base : Z) (outer : Res unit) (pid : string).

(** Only a reservation that is held can be written to. *)
Definition holding (r : option nat) (c : M unit) : M unit :=
  let^ p := current in
  match r with
  | Some n => if bool_decide (n ∈ dom (live_budgets p)) then c else mret tt
  | None => c
  end.

Definition ignore {A : Type} (c : M A) : M unit := run^ c in mret tt.

(** A reservation holds the fence that a collection needs for itself. *)
Definition collect : M unit :=
  let^ p := current in
  if bool_decide (dom (live_budgets p) = ∅) then ignore (mrun (collect_scope h base (outer_managed outer)))
  else mfail (busy "managed cache lifecycle is busy").

Definition step (o : operation) : M unit :=
  match o with
  | Configure limits => mrun (configure_scope h base limits)
  | WriteFile dir name data r => holding r (write_atomic_with_budget h outer pid dir name data r)
  | WriteBlob dir name data r => holding r (cas_batch_write h outer pid dir name data r)
  | WriteStream dir f prefetch read r => holding r (write_reader_blob_stream h outer pid f prefetch read dir r)
  | CompactJournal sid id manifest => compact_journal h outer pid sid id manifest
  | AppendJournal sid id data => append_journal_bytes h outer (owner_root sid id) data
  | Reserve sid id manifest closure => ignore (reserve h outer sid id manifest closure)
  | Release n => drop_budget h n
  | RegisterUse sid id binding => register_cache_use h outer pid sid id binding
  | RetainRoot sid id closure => retain_snapshot_root h outer pid sid id closure
  | RetireUse sid id => retire_cache_use h outer pid sid id
  | AskUse sid id => ignore (mrun (cache_retention_known h outer sid id))
  | AdmitOwner id => mrun (admit_owner h outer id)
  | AskPressure => ignore (mrun (cache_pressure h outer))
  | Collect => collect
  end.

(** After an error of the client the next operation is taken; a panic and an
    exhausted recursion end the history. *)
Definition proceed (c : M unit) : M unit :=
  let^ r := mtry c in mof (match r with Err (Failed _) => Ok tt | _ => r end).

(** The operations one after the other. *)
Definition history (l : list operation) : M unit := mfold (fun _ o => proceed (step o)) tt l.

(** Names and sizes an operation may have. *)
Definition store_names (sid id : string) : Prop := Forall (fun n => n <> POLICY /\ n <> LEDGER) [sid; id].
Definition possible (o : operation) : Prop :=
  match o with
  | WriteFile dir name _ _ | WriteBlob dir name _ _ => place dir /\ ordinary dir name
  | WriteStream dir f _ _ _ => place dir /\ ordinary dir (Durable.blob_name (file_digest f)) /\ 0 <= file_size f
  | Reserve _ _ manifest closure => loaded manifest closure
  | RegisterUse sid id _ | RetainRoot sid id _ | RetireUse sid id => store_names sid id
  | _ => True
  end.

(** The ledger of a managed scope covers its files and [K] more, and so do its
    limits. *)
Definition balanced (K : Z) (t : tree) : Prop :=
  forall l, limited t l -> exists c, ledger t c /\ files_charge t + K <= ch_bytes c /\ files_charge t + K <= max_bytes l.

Lemma acct_balanced m K t : acct m K t -> balanced K t.
Proof using Type.
  intros Ht l Hl. pose proof (limited_acct _ _ _ _ Ht Hl) as ->. destruct Ht as [_ _ (c & _ & Hc)]. by exists c.
Qed.

(** The process and the tree at the end of an operation. *)
Definition fits (p : process) (t : tree) : Prop := exists m D, alive m D p /\ acct m (remaining p) t.

Lemma runs_fits {A : Type} (c : M A) (D' : gset nat -> A -> gset nat) (E : gset nat -> gset nat) (Q : gset nat -> A -> Prop) p :
  (forall m D, runs m D 0 c 0 (D' D) (E D) (Q D)) -> hoare covered (fits p) (c p) (fun x t => ended x.1 /\ fits x.2 t).
Proof using Type.
  intros Hc s (m & D & Hp & Ht). rewrite <- (Z.add_0_r (remaining p)) in Ht. destruct (Hc m D p Hp s Ht) as [Hn Hr]. split; [done|].
  destruct (c p s) as [[[[a|[]] p']|[]] s']; simpl in *; try done.
  - destruct Hr as (_ & Hp' & Ht'). rewrite Z.add_0_r in Ht'. split; [done|]. by exists m, (D' D a).
  - destruct Hr as (Hp' & Ht'). split; [done|]. by exists m, (E D).
Qed.

Lemma steady_fits (c : M unit) p : (forall m D, steady m D 0 c 0 (fun _ => True)) -> hoare covered (fits p) (c p) (fun x t => ended x.1 /\ fits x.2 t).
Proof using Type. intros Hc. by apply (runs_fits c (fun D _ => D) (fun D => D) (fun _ _ => True)). Qed.

Lemma fits_ignore {A : Type} (c : M A) p :
  hoare covered (fits p) (c p) (fun x t => ended x.1 /\ fits x.2 t) -> hoare covered (fits p) (ignore c p) (fun x t => ended x.1 /\ fits x.2 t).
Proof using Type.
  intros Hc. unfold ignore, mbind. eapply hoare_bind; [exact Hc|]. intros [[a|[]] p']; simpl; apply hoare_ret; by intros t [].
Qed.

Lemma fits_run {A : Type} (c : W A) p : (forall m, pays m 0 c 0 (fun _ => True)) -> hoare covered (fits p) (mrun c p) (fun x t => ended x.1 /\ fits x.2 t).
Proof using Type. intros Hc. apply (runs_fits (mrun c) (fun D _ => D) (fun D => D) (fun _ _ => True)). intros m D. by apply runs_run. Qed.

Lemma fits_covered p t : fits p t -> covered t.
Proof using Type. intros (m & D & Hp & Ht). eapply acct_covered; [by eapply remaining_nonneg|done]. Qed.

Section Steps.
Context (Huuid : forall k, uuid_text (h_uuid h k)) (Horder : forall k l, h_order h k l ≡ₚ l) (Hdepth : 0 <= PAGE_MAX_DEPTH).
Context (Hchunk : 0 < CHUNK_SIZE) (Hlines : lines_shorter).

(** The configuration of a scope without reservations may make it managed. *)
Lemma fits_configure limits p :
  hoare covered (fits p) (mrun (configure_scope h base limits) p) (fun x t => ended x.1 /\ fits x.2 t).
Proof using Horder.
  intros s (m & D & Hp & Ht). pose proof (remaining_nonneg _ _ _ Hp) as Hr.
  assert (HK : m = None -> remaining p = 0).
  { intros Hm. pose proof (al_managed _ _ _ Hp Hm) as HD. rewrite <- (al_dom _ _ _ Hp) in HD. apply dom_empty_iff_L in HD. unfold remaining. by rewrite HD. }
  assert (Hb : forall t, begun m (remaining p) t -> fits p t).
  { intros t (m' & Hm & Ht'). exists m', D. split; [|done]. destruct Hp as [Hp1 Hp2 Hp3]. split; [done|done|]. intros E. apply Hp3. destruct m; [|done]. rewrite Hm in E; done. }
  assert (Hc := hoare_configure h base limits Horder m (remaining p) HK).
  assert (Hrun : hoare (begun m (remaining p)) (acct m (remaining p)) (mrun (configure_scope h base limits) p)
    (fun x t => ended x.1 /\ x.2 = p /\ begun m (remaining p) t)).
  { unfold mrun. eapply hoare_bind; [apply hoare_attempt, Hc|]. intros r. apply hoare_ret. intros t. destruct r as [[]|[]]; simpl; done. }
  eapply hoare_invariant in Hrun; [|intros t Hbt; eapply fits_covered, Hb, Hbt]. destruct (Hrun s Ht) as [Hn Hend]. split; [done|].
  destruct (mrun _ p s) as [[[r p']|[]] s']; simpl in *; try done. destruct Hend as (He & -> & Hbt). split; [done|]. by apply Hb.
Qed.

(** A collection finds no reservations. *)
Lemma fits_collect p : hoare covered (fits p) (collect p) (fun x t => ended x.1 /\ fits x.2 t).
Proof using Horder Hdepth.
  change (hoare covered (fits p) ((if bool_decide (dom (live_budgets p) = ∅) then ignore (mrun (collect_scope h base (outer_managed outer)))
    else mfail (busy "managed cache lifecycle is busy")) p) (fun x t => ended x.1 /\ fits x.2 t)).
  case_bool_decide as HD; [|by apply hoare_ret]. apply fits_ignore. intros s (m & D & Hp & Ht).
  assert (Hr : remaining p = 0) by (apply dom_empty_iff_L in HD; unfold remaining; by rewrite HD). rewrite Hr in Ht.
  assert (Hrun : hoare (acct m 0) (acct m 0) (mrun (collect_scope h base (outer_managed outer)) p) (fun x t => ended x.1 /\ x.2 = p /\ acct m 0 t)).
  { unfold mrun. eapply hoare_bind; [apply hoare_attempt, hoare_collect; done|]. intros r. apply hoare_ret. intros t. destruct r as [|[]]; simpl; done. }
  apply (hoare_invariant _ covered) in Hrun; [|intros t Hbt; exists m; exact Hbt]. destruct (Hrun s Ht) as [Hn Hend]. split; [done|].
  destruct (mrun _ p s) as [[[r p']|[]] s']; simpl in *; try done. destruct Hend as (He & -> & Hbt). split; [done|]. exists m, D. by rewrite Hr.
Qed.

Lemma fits_holding r c p :
  (forall m D, (forall n, r = Some n -> n ∈ D) -> steady m D 0 c 0 (fun _ => True)) ->
  hoare covered (fits p) (holding r c p) (fun x t => ended x.1 /\ fits x.2 t).
Proof using Type.
  intros Hc. change (holding r c p) with (match r with Some n => if bool_decide (n ∈ dom (live_budgets p)) then c else mret tt | None => c end p).
  assert (Hlive : (forall n, r = Some n -> n ∈ dom (live_budgets p)) -> hoare covered (fits p) (c p) (fun x t => ended x.1 /\ fits x.2 t)).
  { intros Hr s (m & D & Hp & Ht). rewrite (al_dom _ _ _ Hp) in Hr. rewrite <- (Z.add_0_r (remaining p)) in Ht.
    destruct (Hc m D Hr p Hp s Ht) as [Hn He]. split; [done|]. destruct (c p s) as [[[[a|[]] p']|[]] s']; simpl in *; try done.
    - destruct He as (_ & Hp' & Ht'). rewrite Z.add_0_r in Ht'. split; [done|]. by exists m, D.
    - destruct He as (Hp' & Ht'). split; [done|]. by exists m, D. }
  destruct r as [n|]; [|by apply Hlive]. case_bool_decide; [apply Hlive; by intros n' [= <-]|]. by apply hoare_ret.
Qed.

Lemma step_fits o p : possible o -> hoare covered (fits p) (step o p) (fun x t => ended x.1 /\ fits x.2 t).
Proof using Huuid Horder Hdepth Hchunk Hlines.
  intros Ho. destruct o; simpl in Ho |- *.
  - apply fits_configure.
  - destruct Ho. apply fits_holding. intros m D Hr. by apply runs_write.
  - destruct Ho. apply fits_holding. intros m D Hr. by apply runs_cas.
  - destruct Ho as (? & ? & ?). apply fits_holding. intros m D Hr. by apply runs_stream.
  - apply steady_fits. intros m D. apply runs_journal; [done|simpl; lia|]. by apply data_ordinary.
  - apply steady_fits. intros m D. by apply runs_compact.
  - apply fits_ignore. eapply (runs_fits _ (fun D r => match r with Some n => {[n]} ∪ D | None => D end) (fun D => D)). intros m D. by apply runs_reserve.
  - apply (runs_fits _ (fun D _ => D ∖ {[n]}) (fun D => D ∖ {[n]}) (fun _ _ => True)). intros m D. apply runs_drop_budget.
  - apply steady_fits. intros m D. by apply runs_register.
  - apply steady_fits. intros m D. by apply runs_retain.
  - apply steady_fits. intros m D. by apply runs_retire_use.
  - apply fits_ignore, fits_run. intros m. apply pays_known.
  - apply fits_run. intros m. by apply pays_admit_owner.
  - apply fits_ignore, fits_run. intros m. apply pays_pressure.
  - apply fits_collect.
Qed.

Lemma history_fits ops p : Forall possible ops -> hoare covered (fits p) (history ops p) (fun x t => x.1 = Ok tt /\ fits x.2 t).
Proof using Huuid Horder Hdepth Hchunk Hlines.
  intros Hops. revert p. induction Hops as [|o ops Ho Hops IH]; intros p; [by apply hoare_ret|].
  change (history (o :: ops) p) with (mbind (proceed (step o)) (fun a => mfold (fun _ o => proceed (step o)) a ops) p).
  assert (Hstep : hoare covered (fits p) (proceed (step o) p) (fun x t => x.1 = Ok tt /\ fits x.2 t)).
  { intros s Hs. destruct (step_fits o p Ho s Hs) as [Hn He]. unfold proceed, mtry, mbind, mof, bind.
    destruct (step o p s) as [[[r p']|[]] s']; simpl in *; try done. destruct He as [Hr He]. split; [done|]. by destruct r as [[]|[]]. }
  unfold mbind. eapply hoare_bind; [exact Hstep|]. intros [r p']. simpl. apply hoare_pure. intros ->. apply IH.
Qed.

Lemma history_total ops : total (history ops).
Proof using Type.
  unfold history. apply total_fold. intros _ o. unfold proceed. total. destruct o; cbn [step]; unfold holding, collect, ignore; total.
Qed.

(** C13: from an unmanaged scope, through any sequence of configurations,
    writes (of atomic files, of contents of a batch or streamed range by range,
    of journal lines, of the journal anew), reservations and their releases,
    uses and collections of the cache, with any failures of the system and any
    refusals of locks, the cache is never overcommitted: in every tree that is
    passed through, where the scope is managed, its ledger charges at least all
    its files (each its size and the fixed charge; locks, the two records of
    the scope and the records of reservations aside), and these stay within the
    limit of bytes; at the end the ledger and the limit also cover all that the
    live reservations may still write. No operation panics and no recursion
    runs out of fuel: either would end the history in it. The directories and
    names that are written are those of data ([place], [ordinary]), a manifest
    that is reserved for fits into memory ([loaded]), the names of a store are
    not those of the two records ([store_names]), and the lines of a manifest
    are no longer than the manifest ([lines_shorter]). *)
Theorem cache_never_overcommitted s ops :
  wf_tree (s_tree s) -> (forall p, s_tree s !! (p ++ [POLICY]) = None) -> s_past s = [] -> Forall possible ops ->
  exists p t clock past, history ops no_budgets s = (Ok (Ok tt, p), mkScope t clock past) /\
    0 <= remaining p /\ balanced (remaining p) t /\ Forall (balanced 0) (t :: past).
Proof using Huuid Horder Hdepth Hchunk Hlines.
  intros Hwf Hnone Hpast Hops. assert (Hfits : fits no_budgets (s_tree s)).
  { exists None, ∅. split; [by split|]. split; [done| |apply (Hnone [])]. intros p [x Hx]. by rewrite Hnone in Hx. }
  destruct (history_fits ops no_budgets Hops s Hfits) as ((new & Hnew & Hall) & Hend). rewrite Hpast in Hnew. simpl in Hnew.
  destruct (history_total ops no_budgets s) as ([r p] & [t clock past] & Eh). rewrite Eh in Hnew, Hend |- *. simpl in *. destruct Hend as [-> Hend]. subst past.
  exists p, t, clock, new. destruct (Hend) as (m & D & Hp & Ht). split; [done|]. split; [by eapply remaining_nonneg|]. split; [by eapply acct_balanced|].
  constructor; [|eapply list.Forall_impl; [exact Hall|]; intros t' (m' & Ht'); by eapply acct_balanced].
  apply fits_covered in Hend as (m' & Ht'). by eapply acct_balanced.
Qed.
End Steps.
End History.
End AdmissionHistory.
