(* ===== verification/AdmissionWitnesses.v ===== *)
(** * AdmissionWitnesses

    A scope that is configured, written and reserved: its account. *)

From S2P Require Import Prelude Types Faults Text Profile Btree Frames Wire ChunkMap Closure Disk Records Pins Journal Durable Capacity Incremental ScopeTree Owners Inventory Retention InventoryFacts OwnersFacts Instances Witnesses ReadWitnesses DurableWitnesses CacheWitnesses RetentionWitnesses Admission AdmissionFacts AdmissionWriters AdmissionSafe AdmissionUses AdmissionHistory.
Import Pins Owners Digests Closure Records Capacity ScopeTree Inventory Retention InventoryFacts Admission AdmissionFacts AdmissionWriters AdmissionSafe AdmissionUses AdmissionHistory.
Local Open Scope string_scope.
Local Open Scope list_scope.
Local Open Scope Z_scope.

#[local] Existing Instances toy_sha toy_hex toy_scope toy_descriptor toy_uuid toy_pages toy_serving toy_page_bytes.
#[local] Existing Instances toy_workspaces toy_retention toy_chunk DurableWitnesses.toy_records SnapshotFile_countable.

(** The bytes of a manifest begin with its number; the lines of its records
    fill them up. *)
Definition padded_manifest : Serde (list SnapshotFile).
Proof.
  refine {| to_json := fun l => Ok (Zpos (encode l) :: concat ((fun f => (123 :: bits (record_number (Journal.record_of f))) ++ [10]) <$> l));
            from_json := fun b => match b with x :: _ => from_option Ok (Err "json") (decode (Z.to_pos x)) | [] => Err "json" end |}.
  intros l b [= <-]. simpl. by rewrite decode_encode.
Defined.
Definition padded_commits : CommitCodec := let c := toy_commits in
  {| view_json := view_json; manifest_json := padded_manifest; marker_json := marker_json; pin_json := pin_json;
     snapshot_marker_json := snapshot_marker_json; snapshot_pin_json := snapshot_pin_json; index_json := index_json;
     grant_json := grant_json; header_json := header_json; header_marker := header_marker; header_snapshot_marker := header_snapshot_marker |}.
#[local] Existing Instance padded_commits.

Lemma chunk_positive : 0 < CHUNK_SIZE.
Proof. reflexivity. Qed.

Lemma padded_shorter : lines_shorter.
Proof.
  intros manifest b lines [= <-] Hl. assert (E : Journal.encode_lines (Journal.record_of <$> manifest) =
    Ok (concat ((fun f => (123 :: bits (record_number (Journal.record_of f))) ++ [10]) <$> manifest))).
  { clear Hl. induction manifest as [|f l IH]; [done|]. cbn [fmap list_fmap Journal.encode_lines]. rewrite IH. done. }
  rewrite E in Hl. injection Hl as <-. unfold zlen. cbn [length]. lia.
Qed.

Definition uuid_host : host :=
  mkHost (fun _ => None) (fun _ => None) (fun _ => 0) (fun _ l => l) (fun _ => "00000000-0000-4000-8000-000000000001")
    (fun _ => 2) (fun _ => true).
Definition wide_limits : CacheLimits := mkCacheLimits 10000000 100000 1000 4 1000000 100000 10 100000 1000 8 1000.

(** The scope before it is managed. *)
Definition bare_entries : list (rpath * node) := drop 2 scope_entries.
Definition bare_scope : state := mkScope (list_to_map bare_entries) 0 [].

Definition big_content : bytes := [6; 7; 8; 9].
Definition big_file : SnapshotFile := mkFile "big" "regular" 4 (digest (checksum big_content)).

Definition demo_operations : list operation :=
  [Configure wide_limits; WriteFile ["blobs"] needed_blob [1; 2; 3] None;
   Reserve demo_sid demo_uuid demo_files (Some tree_closure); WriteBlob ["blobs"] stale_name [4; 5; 6] (Some 0%nat);
   WriteStream ["blobs"] big_file true (fun o l => Ok (slice big_content o (o + l))) (Some 0%nat);
   CompactJournal demo_sid demo_uuid demo_files].
Definition demo_history := history uuid_host 20 (Ok tt) "7" demo_operations no_budgets bare_scope.

Lemma bare_wf : wf_tree (s_tree bare_scope).
Proof. apply wf_checked. now_compute. Qed.

Lemma bare_unmanaged p : s_tree bare_scope !! (p ++ [POLICY]) = None.
Proof.
  destruct (s_tree bare_scope !! (p ++ [POLICY])) as [n|] eqn:E; [|reflexivity]. exfalso. apply elem_of_list_to_map_2 in E.
  assert (Hall : forallb (fun e => negb (bool_decide (file_name e.1 = Some POLICY))) bare_entries = true) by now_compute.
  rewrite forallb_Forall, list.Forall_forall in Hall. specialize (Hall _ E). unfold file_name in Hall. simpl in Hall. by rewrite last_snoc, bool_decide_true in Hall.
Qed.

Lemma demo_uuids k : uuid_text (h_uuid uuid_host k).
Proof. split; now_compute. Qed.

Lemma demo_possible : Forall possible demo_operations.
Proof.
  assert (Hplace : place ["blobs"]).
  { split_and!; [simpl; lia| |]; rewrite elem_of_cons; intros [[=]|?%not_elem_of_nil]; done. }
  assert (Hdata : forall name, name <> POLICY -> lock_name name = false -> place ["blobs"] /\ ordinary ["blobs"] name).
  { intros name Hn Hl. split; [exact Hplace|]. apply data_ordinary; [discriminate|discriminate|exact Hn|exact Hl]. }
  constructor; [exact I|constructor; [|constructor; [|constructor; [|constructor; [|constructor; [exact I|constructor]]]]]].
  - apply Hdata; [vm_compute; discriminate|now_compute].
  - split_and!.
    + repeat constructor. vm_compute. discriminate.
    + vm_compute. discriminate.
    + intros b Hb. assert (Hlen : match to_json demo_files with Ok b => in_memory (zlen b) | Err _ => False end) by (vm_compute; discriminate).
      rewrite Hb in Hlen. exact Hlen.
    + vm_compute. discriminate.
  - apply Hdata; [vm_compute; discriminate|now_compute].
  - destruct (Hdata (Durable.blob_name (file_digest big_file))) as [H1 H2]; [vm_compute; discriminate|now_compute|].
    split; [exact H1|]. split; [exact H2|]. vm_compute. discriminate.
Qed.

(** The reservation is still out after writes of its own, one of them streamed,
    and the journal is written anew. *)
Lemma cache_never_overcommitted_witness :
  exists p t, (exists clock past, demo_history = (Ok (Ok tt, p), mkScope t clock past)) /\
    remaining p = 1897834 /\ files_charge t = 63751 /\ is_Some (t !! [POLICY]) /\
    is_Some (t !! ["blobs"; Durable.blob_name (file_digest big_file)]) /\ is_Some (t !! (demo_root ++ [Journal.JOURNAL_FILE])) /\
    balanced (remaining p) t.
Proof.
  destruct (cache_never_overcommitted uuid_host 20 (Ok tt) "7" demo_uuids (fun _ _ => reflexivity _) demo_depth chunk_positive padded_shorter
    bare_scope demo_operations bare_wf bare_unmanaged eq_refl demo_possible) as (p & t & clock & past & E & _ & Hb & _).
  exists p, t. fold demo_history in E. split; [exists clock, past; exact E|].
  assert (Hv : match demo_history with
               | (Ok (_, p), s) => remaining p = 1897834 /\ files_charge (s_tree s) = 63751 /\ is_Some (s_tree s !! [POLICY]) /\
                   is_Some (s_tree s !! ["blobs"; Durable.blob_name (file_digest big_file)]) /\
                   is_Some (s_tree s !! (demo_root ++ [Journal.JOURNAL_FILE]))
               | _ => False
               end) by (vm_compute; split_and!; first [reflexivity|by eexists]).
  rewrite E in Hv. cbn [s_tree] in Hv. destruct Hv as (H1 & H2 & H3 & H4 & H5). split_and!; assumption.
Defined.
